(* ===== verification/_CoqProject ===== *)
-Q . S2P
Prelude.v
Errors.v
Buffers.v
Watermark.v
SendQueue.v
ZeroCopy.v
ReceiveQueue.v
SocketState.v
Strand.v
TimeInterval.v
Backoff.v
RateLimiter.v
IntegerRepresentation.v
IntegerDivision.v
Integer.v
IntegerTheorems.v
AbstractSyntax.v
AbstractSyntaxEncoder.v
AbstractSyntaxDecoder.v
AbstractSyntaxFacts.v
AbstractSyntaxEncoding.v
AbstractSyntaxDecoding.v
AbstractSyntaxTheorems.v
NumberText.v
Ipv4Address.v
Ipv6Address.v
IpEndpoint.v
AddressTheorems.v
DeadlineMap.v
SkipList.v
SkipListFacts.v
SkipListTheorems.v
Occurrences.v
Chronology.v
ChronologyFacts.v
ChronologySystem.v
ChronologySafety.v
ChronologyEvents.v
ChronologyLiveness.v
ChronologyScripts.v
ChronologyTheorems.v
Sections.v
StreamSocket.v
StreamSocketLogic.v
StreamSocketFacts.v
StreamSocketTheorems.v
BlobBuffers.v
StreamSocketReceive.v
StreamSocketReceiveFacts.v
StreamSocketWatch.v
StreamSocketSystem.v
StreamSocketLiveness.v
StreamSocketReceiveTheorems.v
DnsVocabulary.v
DnsCodec.v
DnsMessage.v
DnsCodecFacts.v
DnsNames.v
DnsPorts.v
DnsMessageFacts.v
DnsTheorems.v
Interest.v
Registry.v
Epoll.v
EpollSystem.v
EpollFacts.v
EpollInvariant.v
EpollSteps.v
EpollSafety.v
EpollReachable.v
EpollScripts.v
EpollTheorems.v
EpollRegistrations.v
EpollRefinement.v
