(* ===== verification/Prelude.v ===== *)
(** * Network Transport Framework: verification library

    A model of the core of the framework, and the theorems that make it
    correct. Paths are relative to src/groups. Each file opens with a comment
    that says which sources it models; this one says how the parts fit
    together.

    ** The program

    The framework is asynchronous networking for C++. [nts] wraps the operating
    system: [ntsa] holds the values it works with (errors, buffers, addresses,
    integers for certificates) and [ntsu] the system calls. [ntc] builds on it: a
    driver ([ntco]) waits for events and for the timers of its chronology
    ([ntcs::Chronology]) and calls the sockets attached to it ([ntcr] for
    reactors, [ntcp] for proactors); a socket is a mutex around its queues
    ([ntcq]), its state machines, its rate limiters and its flow control
    ([ntcs]), and its callbacks run on strands ([ntcs::Strand]). [ntcdns] is a
    client of the domain name system on top of that.

    Modelled are the parts that carry this logic: the values whose text and wire
    formats other systems see; the queues; the state machines; strands and rate
    limiters; the chronology with its skip list; the registry of a reactor and
    the driver that keeps it in step with the kernel; the stream socket of a
    reactor, which composes most of the others; and the messages of the domain
    name system.

    ** The files

    - Prelude: notation for assertions ([assert!], where [None] is a failed
      assertion or undefined behaviour), machine integers ([wrap]), sizes of
      lists, automation.
    - Values: Errors (ntsa_error, with the numbers of the system), Buffers (ntsa_buffer, ntsa_data), NumberText
      (ntsa_port, ntsa_ipv6scopeid), Ipv4Address, Ipv6Address, IpEndpoint
      (ntsa_ipaddress, ntsa_ipendpoint), and their properties AddressTheorems;
      IntegerRepresentation, IntegerDivision and Integer (the integers of
      ntsa_abstract), and IntegerTheorems.
    - Encoding of values (the encoding rules of ntsa_abstract): AbstractSyntax
      (the representation of a tag and its flags), AbstractSyntaxEncoder,
      AbstractSyntaxDecoder; AbstractSyntaxFacts has the reference encoding and
      the logics of writers and readers, AbstractSyntaxEncoding and
      AbstractSyntaxDecoding what each operation writes and reads, and
      AbstractSyntaxTheorems the properties.
    - Queues: Watermark (ntcs_watermarkutil), SendQueue (ntcq_send), ZeroCopy
      (ntcq_zerocopy), ReceiveQueue (ntcq_receive, ntcs_callbackstate,
      ntca_receiveoptions), BlobBuffers (ntcs_blobbufferutil, ntcs_blobutil).
    - State machines: SocketState (ntcs_openstate, ntcs_shutdownstate,
      ntcs_shutdowncontext, ntcs_flowcontrolstate, ntcs_flowcontrolcontext).
    - Concurrency and time: Strand (ntcs_strand), TimeInterval, Backoff
      (ntsa_backoff), RateLimiter (ntcs_leakybucket, ntcs_ratelimiter).
    - The chronology: DeadlineMap is the interface of a map from deadlines to
      timers; SkipList, SkipListFacts and SkipListTheorems (ntcs_skiplist) show
      that the skip list implements it; Chronology (ntcs_chronology) uses any
      implementation. ChronologyFacts has its invariant, ChronologySystem the
      threads that interleave its sections, ChronologySafety, ChronologyEvents
      and ChronologyLiveness what holds in all interleavings, ChronologyScripts
      executable runs and ChronologyTheorems the properties. Occurrences is
      about multisets.
    - The stream socket of a reactor (ntcr_streamsocket): Sections is the monad
      of critical sections, with a weakest-precondition logic and one for
      relations between states ([always], [from]). StreamSocket is the send
      side, StreamSocketLogic what its effects and flow control do,
      StreamSocketFacts its invariant and StreamSocketTheorems the system of its
      sections and its properties. StreamSocketReceive is the receive side on
      top of it, StreamSocketReceiveFacts its invariant, StreamSocketWatch what
      the send side does to the receive direction, StreamSocketSystem the system
      of the sections of both sides, StreamSocketLiveness that reading goes on,
      and StreamSocketReceiveTheorems the properties.
    - The driver of a reactor (ntco_epoll): Interest (ntcs_interest) is the word
      of flags and its specification; Registry (ntcs_registry) the entries and
      their catalog; Epoll the instructions of the driver. EpollSystem has the
      threads that interleave them, EpollFacts, EpollInvariant and EpollSteps
      the invariant, EpollSafety that every instruction succeeds and preserves
      it, EpollReachable what holds of all runs, EpollScripts executable runs
      and EpollTheorems the properties. EpollRegistrations is the specification
      for one caller and EpollRefinement that the driver implements it.
    - The domain name system (ntcdns_vocabulary, ntcdns_protocol): DnsVocabulary,
      DnsCodec (the encoder and the decoder) and DnsMessage; DnsCodecFacts,
      DnsNames, DnsPorts, DnsMessageFacts, with the interface [WireFormat] of
      what has a wire format and its instances, and DnsTheorems.

    ** How state and operations correspond to the code

    A class is a Record with the members of the class under their names; a
    method is a Definition under its name. A method that may fail an assertion
    or that has undefined behaviour returns an option; an error code is a value
    of [Errors.Error.t]. Members that are only logged or measured are left out.
    An integer is a [Z] that is wrapped where the type of the code is; an index
    into memory of the code is checked where the code relies on it.

    A class that is protected by a mutex is split at the places where the mutex
    is released: a definition is what one thread does in one critical section,
    and a function of the code with several sections is their composition. An
    Inductive [reachable] (or the steps of ChronologySystem) interleaves the
    sections of all operations in any order, with what the environment does as
    the parameters of a step: the bytes that the system takes or delivers, the
    time, timers, the threads that run. What is assumed of a step is its
    [enabled]. An observer follows the effects, which is how a theorem can speak
    of the bytes on the wire and of the callbacks that were invoked.

    The driver is finer: a thread is the list of the instructions it has still
    to execute, since it holds one lock after the other and calls the kernel and
    callbacks in between; an instruction is one such section, system call or
    call of a callback, and may put others in front of the rest. Entries are
    shared, so that they are a store and are referred to by their position.

    Interfaces are type classes: [BlobOps] and [ReadBlobOps] (blobs),
    [LimiterOps] (rate limiters, which RateLimiter implements), [SendTypes] and
    [ReceiveTypes] (what queues store without looking into it),
    [DeadlineMap.Operations], [TimeIntervalOps], [WireFormat], [OutStream] and
    [Memory] (streams of octets), [ReactorTypes] (what a registry stores) and
    [EpollOps] with [EpollLaws] (the kernel). Classes of the base libraries and
    system calls, which are not part of the repository, are such classes, with
    laws from their documentation and a lawful instance.

    ** What the theorems show

    - Values: texts and encodings are read back, parsers agree with reference
      grammars, arithmetic agrees with that of [Z]; where it does not, on which
      inputs.
    - Queues: sizes and watermarks are consistent after any sequence of
      operations under their preconditions and no assertion fails (popping part
      of an array past its first buffer does fail one); watermark events
      alternate; counters
      that the kernel reports on 32 bits are extended exactly; a receiver gets
      exactly what its options allow.
    - State machines: shutdown is reported once for each direction, whatever the
      order of the operations; flow control answers whether something changed.
    - Strands run functors in order and one at a time; the rate limiter lets
      through no more than its rates, and names a time that suffices.
    - The chronology, used without [clear], [clearTimers] and [closeAll]: no
      section fails, no reference is lost, a scheduled timer is pending or about
      to be announced, each event decided on is announced once and none is decided
      after the timer is closed (several threads may announce in another order),
      the wait of a driver is bounded by the next deadline, and everything is
      destroyed when nothing is scheduled.
    - The stream socket, for blobs and contiguous data: what is written to the
      wire and what is given to receivers is exactly what was sent and what was
      read, in order, less the messages that timed out and the parts of cancelled
      ones that were not on the wire; each callback is dispatched once, except
      that one of a data container written with zero copy may be again; while
      something is queued the socket is watched for writability, but for one case
      of a one-shot reactor, and below the high watermark for readability; loops
      terminate if no buffer is empty; without rate limiters no section fails an
      assertion; a shutdown leaves nothing behind.
    - The driver: an entry announces what it is interested in, to the right
      callback; in all interleavings, those with several attachments of one
      descriptor, with closed sockets and with a controller that is replaced
      among them, the only assertion that fails is the use of the controller
      while it is null; the catalog refers to its entries consistently and counts
      them if no descriptor is attached twice; each request to detach is
      answered once and never lost; no event follows a detachment if one thread
      polls; and for one caller the kernel polls exactly what is registered, the
      controller included. With several threads that poll, and when updates of
      the kernel cross, these fail: the runs are given.
    - Messages: what is encoded is decoded again, for the messages that the
      encoding determines ([message_ok]); encoding writes exactly the octets of
      the reference or reports an error, for the messages that have one
      ([message_encodable]); and decoding arbitrary octets neither leaves the
      buffer nor loops.
    - The encoding of certificates: the encoder writes the octets of the
      reference for any tree of tags and contents; the decoder reads such a tree
      back, when its tags and lengths are within the decoder's limits, and its
      numbers; and whatever it is given, every tag it holds is where it was read.

    Many files end with runs that show where the code does something else than
    it means to; they are lemmas about concrete inputs.

    ** Fuel and bounds

    Where a recursion of the code is not structural, a Fixpoint has fuel, and the
    theorems show that it suffices: the loop of a writable event has one
    environment for each iteration and needs no more than there are bytes
    queued and one; [popLoop] as many passes as receivers wait;
    [ReceiveQueue.dequeue] one for each entry; [BlobBufferUtil.allocate_loop]
    one for each byte; the loops of the skip list one for each node; a name one
    for each octet and for each of at most 33 pointers; division one for each
    block; a tag number, a length or an arc of an object identifier one for each
    octet; a call of the driver that runs alone at most eight instructions. The
    sizes of things in memory are below 2^62 where their sums must
    not wrap.

    ** Not modelled, and why

    - Of the stream socket: connecting, the upgrade to TLS, compression,
      timestamps, detachment from the reactor (whether it goes on asynchronously
      is given to a step) and the release of the handle at the end (an effect).
    - The datagram and listener sockets, and the sockets of a proactor: the same
      components in other compositions.
    - Of the driver: waiting and its timeout, functions, waiters, load, the
      factories of sockets and the destructor, which asserts that the registry is
      empty. An announcement to a strand is an effect; when the
      strand runs it is not followed. The other drivers ([ntco]) have the same
      structure over other system calls. The system calls ([ntsu]) are the
      interface of the operating system, and the plugins ([ntctls], [ntctlc]) those of OpenSSL and
      of compression libraries; metrics, logging and interfaces without code have
      no behaviour of their own.
    - Observers and the states of detachment of [ntcs], the client, the cache and the configuration files of [ntcdns], the
      dates, strings, comparison, hashing and printing of ntsa_abstract and the
      remaining values of [ntsa] and [ntca] are not modelled.
    - Memory allocation never fails, reads and writes of different threads are
      those of a sequentially consistent machine under the mutexes of the code,
      and time does not go back except where it is a parameter. *)

From stdpp Require Export base tactics option list numbers.
From Stdlib Require Export ZArith Lia Bool Sorting.Sorted.


(** ** Notation

    An operation of the source that carries a [BSLS_ASSERT] is modelled as a
    partial function: [None] is the assertion failing, so that "no assertion
    fails" is a provable statement and never a convention. *)

Declare Scope ntf_scope.
Delimit Scope ntf_scope with ntf.

Notation "'assert!' b ';;' k" := (if b then k else None)
  (at level 100, b at level 99, k at level 200, right associativity)
  : ntf_scope.

Open Scope Z_scope.
Open Scope ntf_scope.

(** ** Machine integers *)

Definition U8_MAX : Z := 2 ^ 8 - 1.
Definition U16_MAX : Z := 2 ^ 16 - 1.
Definition U32_MAX : Z := 2 ^ 32 - 1.
Definition U64_MAX : Z := 2 ^ 64 - 1.
Definition S64_MIN : Z := - 2 ^ 63.
Definition S64_MAX : Z := 2 ^ 63 - 1.

(** Unsigned conversion to [w] bits. *)
Definition wrap (w z : Z) : Z := z mod 2 ^ w.

(** Two's complement conversion to [w] bits. *)
Definition swrap (w z : Z) : Z := (z + 2 ^ (w - 1)) mod 2 ^ w - 2 ^ (w - 1).

Lemma wrap_small w z : 0 <= z < 2 ^ w -> wrap w z = z.
Proof. apply Z.mod_small. Qed.

Lemma wrap_range w z : 0 <= w -> 0 <= wrap w z < 2 ^ w.
Proof. intros. apply Z.mod_pos_bound. lia. Qed.

Lemma wrap_idem w z : wrap w (wrap w z) = wrap w z.
Proof. apply Zmod_mod. Qed.

Lemma wrap_add_l w x y : wrap w (wrap w x + y) = wrap w (x + y).
Proof. apply Zplus_mod_idemp_l. Qed.

Lemma wrap_add_r w x y : wrap w (x + wrap w y) = wrap w (x + y).
Proof. apply Zplus_mod_idemp_r. Qed.

Lemma swrap_small w z : - 2 ^ (w - 1) <= z < 2 ^ (w - 1) -> 0 < w -> swrap w z = z.
Proof.
  intros Hz Hw. unfold swrap.
  assert (2 ^ w = 2 * 2 ^ (w - 1)) as ->.
  { rewrite <- Z.pow_succ_r by lia. f_equal. lia. }
  rewrite Z.mod_small; lia.
Qed.

(** ** Bits *)

Lemma pow2_pos s : 0 <= s -> 0 < 2 ^ s.
Proof. intros. apply Z.pow_pos_nonneg; lia. Qed.

Lemma pow2_nonzero s : 0 <= s -> 2 ^ s <> 0.
Proof. intros Hs. pose proof (pow2_pos s Hs). lia. Qed.

(** The [or] of a multiple of [2 ^ s] and a number below it is their sum. *)
Lemma lor_disjoint a x s : 0 <= s -> 0 <= x < 2 ^ s -> Z.lor (a * 2 ^ s) x = a * 2 ^ s + x.
Proof.
  intros Hs Hx. rewrite <- Z.add_lor_land.
  assert (Z.land (a * 2 ^ s) x = 0) as ->; [|lia].
  apply Z.bits_inj_iff'. intros i Hi. rewrite Z.land_spec, Z.bits_0.
  destruct (Z.lt_ge_cases i s).
  - by rewrite Z.mul_pow2_bits_low.
  - rewrite andb_comm. rewrite <- (Z.mod_small x (2 ^ s)), Z.mod_pow2_bits_high by lia. done.
Qed.

(** ** Sizes of lists as [size_t] values *)

Definition size {A} (l : list A) : Z := Z.of_nat (length l).

Lemma size_nil {A} : size (@nil A) = 0.
Proof. reflexivity. Qed.

Lemma size_cons {A} (x : A) l : size (x :: l) = 1 + size l.
Proof. unfold size. simpl length. lia. Qed.

Lemma size_app {A} (l k : list A) : size (l ++ k) = size l + size k.
Proof. unfold size. rewrite length_app. lia. Qed.

Lemma size_nonneg {A} (l : list A) : 0 <= size l.
Proof. unfold size. lia. Qed.

Lemma size_drop {A} n (l : list A) :
  0 <= n <= size l -> size (drop (Z.to_nat n) l) = size l - n.
Proof. unfold size. rewrite length_drop. lia. Qed.

Lemma size_take {A} n (l : list A) :
  0 <= n <= size l -> size (take (Z.to_nat n) l) = n.
Proof. unfold size. rewrite length_take. lia. Qed.

Lemma size_zero_inv {A} (l : list A) : size l = 0 -> l = [].
Proof. destruct l; [done|]. rewrite size_cons. pose proof (size_nonneg l). lia. Qed.

Lemma drop_app_size {A} n (l k : list A) :
  0 <= n <= size l ->
  drop (Z.to_nat n) (l ++ k) = drop (Z.to_nat n) l ++ k.
Proof. intros. apply drop_app_le. unfold size in *. lia. Qed.

(** Two decompositions of a list at its first element that satisfies [P]. *)
Lemma first_match_unique {A} (P : A -> Prop) (b : list A) x a b' x' a' :
  b ++ x :: a = b' ++ x' :: a' ->
  P x -> P x' -> Forall (fun y => ~ P y) b -> Forall (fun y => ~ P y) b' ->
  x = x'.
Proof.
  revert b'. induction b as [|y b IH]; intros [|y' b'] Heq Hx Hx' Hb Hb'; simplify_eq/=;
    try done.
  - by inversion_clear Hb'.
  - by inversion_clear Hb.
  - inversion_clear Hb. inversion_clear Hb'. by apply (IH b').
Qed.

(** The last element of a list and what precedes it. *)
Fixpoint split_last {A} (l : list A) : option (list A * A) :=
  match l with
  | [] => None
  | [x] => Some ([], x)
  | x :: rest =>
      match split_last rest with
      | Some (front, y) => Some (x :: front, y)
      | None => None
      end
  end.

Lemma split_last_snoc {A} (l : list A) x : split_last (l ++ [x]) = Some (l, x).
Proof.
  induction l as [|y l IH]; [done|]. simpl. rewrite IH. by destruct l.
Qed.

Lemma split_last_Some {A} (l : list A) k x : split_last l = Some (k, x) -> l = k ++ [x].
Proof.
  destruct l as [|y l] using rev_ind; [done|]. rewrite split_last_snoc. by intros [= <- <-].
Qed.

(** Filtering with boolean functions. *)
Lemma filter_none {A} (f : A -> bool) l :
  Forall (fun x => f x = false) l -> List.filter f l = [].
Proof. induction 1 as [|x l Hx _ IH]; [done|]. simpl. by rewrite Hx. Qed.

Lemma Forall_filter_bool {A} (P : A -> Prop) (f : A -> bool) l :
  Forall P l -> Forall P (List.filter f l).
Proof. induction 1; simpl; [done|]. case_match; [by constructor|done]. Qed.

Lemma StronglySorted_filter {A} (R : A -> A -> Prop) (f : A -> bool) l :
  StronglySorted R l -> StronglySorted R (List.filter f l).
Proof.
  induction 1 as [|x l _ IH Hx]; simpl; [constructor|]. case_match; [|done].
  constructor; [done|]. by apply Forall_filter_bool.
Qed.

(** ** Sums *)

Definition sum_with {A} (f : A -> Z) (l : list A) : Z :=
  foldr (fun x s => f x + s) 0 l.

Lemma sum_with_nil {A} (f : A -> Z) : sum_with f [] = 0.
Proof. reflexivity. Qed.

Lemma sum_with_cons {A} (f : A -> Z) x l : sum_with f (x :: l) = f x + sum_with f l.
Proof. reflexivity. Qed.

Lemma sum_with_app {A} (f : A -> Z) l k :
  sum_with f (l ++ k) = sum_with f l + sum_with f k.
Proof.
  induction l as [|x l IH]; [done|].
  rewrite <- app_comm_cons, !sum_with_cons, IH. lia.
Qed.

Lemma sum_with_nonneg {A} (f : A -> Z) l :
  Forall (fun x => 0 <= f x) l -> 0 <= sum_with f l.
Proof. induction 1 as [|x l Hx _ IH]; [done|]. rewrite sum_with_cons. lia. Qed.

Lemma size_concat {A} (l : list (list A)) : size (concat l) = sum_with size l.
Proof.
  induction l as [|x l IH]; [done|].
  rewrite sum_with_cons, <- IH. simpl concat. apply size_app.
Qed.

#[global] Arguments size : simpl never.
#[global] Arguments sum_with : simpl never.

Create Rewrite HintDb ntf.
Create HintDb ntf_wf.
#[export] Hint Rewrite @size_nil @size_cons @size_app @sum_with_nil
  @sum_with_cons @sum_with_app @size_concat : ntf.
#[export] Hint Resolve size_nonneg : ntf_wf.

(** ** Automation *)

(** Expand the accounting functions and finish with linear arithmetic. *)
Ltac szlia :=
  autorewrite with ntf in *;
  repeat match goal with
    | |- context [size ?l] =>
        lazymatch goal with
        | H : 0 <= size l |- _ => fail
        | _ => pose proof (size_nonneg l)
        end
    | H0 : context [size ?l] |- _ =>
        lazymatch goal with
        | H : 0 <= size l |- _ => fail
        | _ => pose proof (size_nonneg l)
        end
    end;
  lia.

(** Case analysis on the guard of the next assertion, branch or match of the
    goal, closing the branches that arithmetic rules out. *)
Ltac step_guard :=
  match goal with
  | |- context [if ?b then _ else _] =>
      let E := fresh "E" in destruct b eqn:E; try lia
  end.

(** Invert a successful partial computation [H : ... = Some _] down to its
    last step, naming nothing. *)
Ltac inv_option H :=
  repeat (simplify_eq/=;
    lazymatch type of H with
    | mbind _ _ = Some _ =>
        let x := fresh "r" in let Hx := fresh "Hr" in
        apply bind_Some in H as (x & Hx & H)
    | context [match ?x with _ => _ end] =>
        let Ex := fresh "Em" in destruct x eqn:Ex
    end);
  simplify_eq/=.

(** The same for every partial computation among the hypotheses. *)
Ltac inv_options :=
  repeat match goal with
    | H : mbind _ _ = Some _ |- _ => inv_option H
    end.

(** [Forall P] of an explicit list, one goal per element. *)
Ltac split_Forall :=
  repeat (apply Forall_cons_iff; split); try apply List.Forall_nil.

Lemma StronglySorted_remove {A} (R : A -> A -> Prop) b x a :
  StronglySorted R (b ++ x :: a) -> StronglySorted R (b ++ a).
Proof.
  induction b as [|y b IH]; simpl; intros Hs; apply StronglySorted_inv in Hs as [Hs Hx]; [done|].
  constructor; [by apply IH|]. apply Forall_app in Hx as [Hb Ha].
  apply Forall_cons_iff in Ha as [_ Ha]. by apply Forall_app.
Qed.

Lemma lor_eqb_zero a b : (Z.lor a b =? 0) = (a =? 0) && (b =? 0).
Proof.
  apply eq_true_iff_eq. rewrite andb_true_iff, !Z.eqb_eq. split; [apply Z.lor_eq_0_iff|by intros [-> ->]].
Qed.
