(* ===== verification/Errors.v ===== *)
(** * Error codes

    [ntsa_error.h] and [ntsa_error.cpp].  An error is its library-specific code:
    the number of the operating system it also carries is never tested by the
    components modelled here. *)

From S2P Require Import Prelude.

Module Error.

Inductive t : Type :=
| e_OK
| e_UNKNOWN
| e_WOULD_BLOCK
| e_INTERRUPTED
| e_PENDING
| e_CANCELLED
| e_INVALID
| e_EOF
| e_LIMIT
| e_ADDRESS_IN_USE
| e_CONNECTION_TIMEOUT
| e_CONNECTION_REFUSED
| e_CONNECTION_RESET
| e_CONNECTION_DEAD
| e_UNREACHABLE
| e_NOT_AUTHORIZED
| e_NOT_IMPLEMENTED
| e_NOT_OPEN
| e_NOT_SOCKET.

(** [operator bool]: whether there is an error. *)
Definition is_error (e : t) : bool :=
  match e with e_OK => false | _ => true end.

#[global] Instance t_eq_dec : EqDecision t.
Proof. solve_decision. Defined.

End Error.

(** ** Numbers of the operating system

    [errno] by its names on Linux, where [EWOULDBLOCK] is [EAGAIN]; zero is no
    error and any other number is [E_OTHER]. *)

Module Errno.

Inductive t : Type :=
| E_ZERO
| E2BIG
| EACCES
| EADDRINUSE
| EADDRNOTAVAIL
| EAFNOSUPPORT
| EAGAIN
| EALREADY
| EBADF
| EBADMSG
| ECANCELED
| ECHILD
| ECONNABORTED
| ECONNREFUSED
| ECONNRESET
| EDESTADDRREQ
| EDOM
| EDQUOT
| EEXIST
| EFAULT
| EFBIG
| EHOSTUNREACH
| EINPROGRESS
| EINTR
| EINVAL
| EIO
| EISCONN
| EISDIR
| ELOOP
| EMFILE
| EMLINK
| EMSGSIZE
| ENAMETOOLONG
| ENETDOWN
| ENETRESET
| ENETUNREACH
| ENFILE
| ENOBUFS
| ENODATA
| ENODEV
| ENOENT
| ENOMEM
| ENOMSG
| ENOPROTOOPT
| ENOSPC
| ENOSR
| ENOSTR
| ENOSYS
| ENOTCONN
| ENOTDIR
| ENOTEMPTY
| ENOTSOCK
| ENOTSUP
| ENOTTY
| EOVERFLOW
| EPERM
| EPIPE
| EPROTO
| EPROTONOSUPPORT
| EPROTOTYPE
| ERANGE
| EROFS
| ESPIPE
| ESRCH
| ETIME
| ETIMEDOUT
| E_OTHER.

#[global] Instance t_eq_dec : EqDecision t.
Proof. solve_decision. Defined.

(** [Error::translate(Number)], on Linux. *)
Definition translate (number : t) : Error.t :=
  match number with
  | E_ZERO => Error.e_OK
    | E2BIG | ELOOP | EMFILE | EMLINK | EMSGSIZE | ENFILE | ENOBUFS | ENOMEM | ENOSPC |
    ENOSR =>
      Error.e_LIMIT
    | EACCES | EPERM =>
      Error.e_NOT_AUTHORIZED
    | EADDRINUSE =>
      Error.e_ADDRESS_IN_USE
    | EADDRNOTAVAIL | EAFNOSUPPORT | EALREADY | EBADMSG | ECHILD | EDESTADDRREQ | EDOM |
    EDQUOT | EEXIST | EFAULT | EFBIG | EINVAL | EIO | EISCONN | EISDIR | ENAMETOOLONG |
    ENODATA | ENODEV | ENOMSG | ENOSTR | ENOTDIR | ENOTEMPTY | ENOTTY | EOVERFLOW |
    EPROTO | EPROTOTYPE | ERANGE | EROFS | ESPIPE | ESRCH =>
      Error.e_INVALID
    | EAGAIN =>
      Error.e_WOULD_BLOCK
    | EBADF =>
      Error.e_NOT_OPEN
    | ECANCELED =>
      Error.e_CANCELLED
    | ECONNABORTED | ECONNRESET | ENOTCONN | EPIPE =>
      Error.e_CONNECTION_DEAD
    | ECONNREFUSED =>
      Error.e_CONNECTION_REFUSED
    | EHOSTUNREACH | ENETDOWN | ENETUNREACH =>
      Error.e_UNREACHABLE
    | EINPROGRESS =>
      Error.e_PENDING
    | EINTR =>
      Error.e_INTERRUPTED
    | ENETRESET =>
      Error.e_CONNECTION_RESET
    | ENOENT =>
      Error.e_EOF
    | ENOPROTOOPT | ENOSYS | ENOTSUP | EPROTONOSUPPORT =>
      Error.e_NOT_IMPLEMENTED
    | ENOTSOCK =>
      Error.e_NOT_SOCKET
    | ETIME | ETIMEDOUT =>
      Error.e_CONNECTION_TIMEOUT
  | E_OTHER => Error.e_UNKNOWN
  end.

(** [Error::translate(Code)]. *)
Definition number (code : Error.t) : t :=
  match code with
  | Error.e_OK => E_ZERO
  | Error.e_UNKNOWN => EINVAL
  | Error.e_WOULD_BLOCK => EAGAIN
  | Error.e_INTERRUPTED => EINTR
  | Error.e_PENDING => EINPROGRESS
  | Error.e_CANCELLED => ECANCELED
  | Error.e_INVALID => EINVAL
  | Error.e_EOF => ENOENT
  | Error.e_LIMIT => ENOBUFS
  | Error.e_ADDRESS_IN_USE => EADDRINUSE
  | Error.e_CONNECTION_TIMEOUT => ETIMEDOUT
  | Error.e_CONNECTION_REFUSED => ECONNREFUSED
  | Error.e_CONNECTION_RESET => ECONNRESET
  | Error.e_CONNECTION_DEAD => EPIPE
  | Error.e_UNREACHABLE => ENETUNREACH
  | Error.e_NOT_AUTHORIZED => EPERM
  | Error.e_NOT_IMPLEMENTED => EPROTO
  | Error.e_NOT_OPEN => EBADF
  | Error.e_NOT_SOCKET => ENOTSOCK
  end.

(** A code is that of its own number, but for three: the code that a caller
    returns and the number it carries then disagree. *)
Lemma translate_number code :
  translate (number code) =
    match code with
    | Error.e_UNKNOWN | Error.e_NOT_IMPLEMENTED => Error.e_INVALID
    | Error.e_CONNECTION_RESET => Error.e_CONNECTION_DEAD
    | _ => code
    end.
Proof. by destruct code. Qed.

(** A number is an error unless it is zero. *)
Lemma translate_is_error n : Error.is_error (translate n) = negb (bool_decide (n = E_ZERO)).
Proof. by destruct n. Qed.

End Errno.
