(* ===== verification/Buffers.v ===== *)
(** * Buffers and data containers

    [ntsa_buffer.h] (constant and mutable buffers, arrays of them and borrowed
    arrays of them) and the parts of [ntsa_data.cpp] the queues rely on: the
    size of a data container and the removal of bytes from its front. *)

From S2P Require Import Prelude.
From Stdlib Require Export Strings.Byte.

(** A buffer is a pointer and a length.  It is modelled by the bytes it
    designates: [advance] moves the pointer, which drops bytes. *)
Definition ConstBuffer : Type := list byte.
Definition MutableBuffer : Type := list byte.

(** ** [ntsa::ConstBuffer] and [ntsa::MutableBuffer] *)
Module Buffer.

Definition ConstBuffer_advance (b : ConstBuffer) (n : Z) : ConstBuffer :=
  let offset := if n <? size b then n else size b in
  drop (Z.to_nat offset) b.

Definition MutableBuffer_advance (b : MutableBuffer) (n : Z) : MutableBuffer :=
  let offset := if n <? size b then n else size b in
  drop (Z.to_nat offset) b.

Lemma ConstBuffer_advance_drop b n :
  0 <= n -> ConstBuffer_advance b n = drop (Z.to_nat n) b.
Proof.
  intros Hn. unfold ConstBuffer_advance. destruct (Z.ltb_spec n (size b)); [done|].
  rewrite !drop_ge; unfold size in *; auto; lia.
Qed.

Lemma MutableBuffer_advance_drop b n :
  0 <= n -> MutableBuffer_advance b n = drop (Z.to_nat n) b.
Proof. apply ConstBuffer_advance_drop. Qed.

End Buffer.
Import Buffer.

(** ** [ntsa::ConstBufferArray] and [ntsa::MutableBufferArray]

    Arrays that own their buffer descriptors, with the total number of bytes
    cached.  The two classes have the same text up to the element type. *)
Module BufferArray.

Record t : Type := mk {
  d_bufferArray : list ConstBuffer;
  d_numBytes : Z
}.

Definition contents (a : t) : list byte := concat (d_bufferArray a).

(** The cached number of bytes is the number of bytes. *)
Definition wf (a : t) : Prop := d_numBytes a = size (contents a).

Definition empty : t := mk [] 0.
Definition clear (a : t) : t := mk [] 0.
Definition numBuffers (a : t) : Z := size (d_bufferArray a).

Definition append (a : t) (b : ConstBuffer) : t :=
  mk (d_bufferArray a ++ [b]) (d_numBytes a + size b).

Fixpoint append_list (a : t) (bufferList : list ConstBuffer) : t :=
  match bufferList with
  | [] => a
  | b :: rest => append_list (append a b) rest
  end.

(** The loop of [pop].  [numBytesRemaining] does not change from one
    iteration to the next: the source never decrements it. *)
Fixpoint pop_loop (numBytesRemaining : Z) (bufs : list ConstBuffer) (numBytes : Z)
  : option (list ConstBuffer * Z) :=
  if numBytesRemaining >? 0 then
    match bufs with
    | [] => Some ([], numBytes)
    | front :: rest =>
        let numBytesToPop := numBytesRemaining in
        if numBytesToPop >? size front then
          let numBytesToPop := size front in
          assert! numBytes >=? numBytesToPop ;;
          pop_loop numBytesRemaining rest (numBytes - numBytesToPop)
        else
          assert! numBytes >=? numBytesToPop ;;
          Some (ConstBuffer_advance front numBytesToPop :: rest,
                numBytes - numBytesToPop)
    end
  else Some (bufs, numBytes).

Definition ConstBufferArray_pop (a : t) (numBytes : Z) : option t :=
  let numBytesRemaining :=
    if numBytes >? d_numBytes a then d_numBytes a else numBytes in
  '(bufs, total) ← pop_loop numBytesRemaining (d_bufferArray a) (d_numBytes a);
  Some (mk bufs total).

Definition MutableBufferArray_pop (a : t) (numBytes : Z) : option t :=
  let numBytesRemaining :=
    if numBytes >? d_numBytes a then d_numBytes a else numBytes in
  '(bufs, total) ← pop_loop numBytesRemaining (d_bufferArray a) (d_numBytes a);
  Some (mk bufs total).

(** The bytes of the leading buffers that are shorter than [n]. *)
Fixpoint overrun (n : Z) (bufs : list ConstBuffer) : Z :=
  match bufs with
  | [] => 0
  | front :: rest => if n >? size front then size front + overrun n rest else 0
  end.

Lemma overrun_nonneg n bufs : 0 <= overrun n bufs.
Proof.
  induction bufs as [|b bufs IH]; simpl; [lia|].
  destruct (n >? size b); szlia.
Qed.

Lemma append_wf a b : wf a -> wf (append a b).
Proof. unfold wf, append, contents. simpl. rewrite concat_app. simpl. szlia. Qed.

Lemma append_contents a b : contents (append a b) = contents a ++ b.
Proof. unfold contents. simpl. rewrite concat_app. simpl. by rewrite app_nil_r. Qed.

Lemma append_list_wf l a : wf a -> wf (append_list a l).
Proof. revert a. induction l; simpl; auto using append_wf. Qed.

Lemma append_list_contents l a :
  contents (append_list a l) = contents a ++ concat l.
Proof.
  revert a. induction l as [|b l IH]; intros a; simpl.
  - by rewrite app_nil_r.
  - by rewrite IH, append_contents, <- app_assoc.
Qed.

Lemma append_list_buffers l a :
  d_bufferArray (append_list a l) = d_bufferArray a ++ l.
Proof.
  revert a. induction l as [|b l IH]; intros a; simpl; [by rewrite app_nil_r|].
  rewrite IH. simpl. by rewrite <- app_assoc.
Qed.

Lemma append_list_app l k a :
  append_list a (l ++ k) = append_list (append_list a l) k.
Proof. revert a. induction l; simpl; auto. Qed.

(** What the loop computes, for every array and every count. *)
Lemma pop_loop_spec n bufs total :
  0 < n -> total = size (concat bufs) ->
  exists bufs' total',
    pop_loop n bufs total = Some (bufs', total') /\
    total' = size (concat bufs') /\
    concat bufs' = drop (Z.to_nat (overrun n bufs + n)) (concat bufs).
Proof.
  intros Hn. revert total.
  induction bufs as [|b bufs IH]; intros total Htotal; simpl;
    rewrite (proj2 (Z.gtb_lt n 0)) by lia.
  - exists [], total. rewrite drop_nil. auto.
  - simpl concat in Htotal. rewrite size_app in Htotal.
    pose proof (overrun_nonneg n bufs). pose proof (size_nonneg (concat bufs)).
    destruct (Z.gtb_spec n (size b)) as [Hlt|Hge].
    + rewrite (proj2 (Z.geb_le total (size b))) by szlia.
      destruct (IH (total - size b)) as (bufs' & total' & -> & Ht & Hc); [lia|].
      exists bufs', total'. split_and!; [done..|].
      rewrite Hc, drop_app_ge by (unfold size in *; lia).
      f_equal. unfold size in *; lia.
    + rewrite (proj2 (Z.geb_le total n)) by lia.
      exists (ConstBuffer_advance b n :: bufs), (total - n).
      split_and!; [done|..].
      * simpl. rewrite size_app, ConstBuffer_advance_drop, size_drop; lia.
      * simpl. rewrite ConstBuffer_advance_drop by lia.
        by rewrite Z.add_0_l, drop_app_size by lia.
Qed.

Lemma array_pop_spec a n :
  wf a -> 0 <= n ->
  let r := if n >? d_numBytes a then d_numBytes a else n in
  exists a',
    ConstBufferArray_pop a n = Some a' /\ wf a' /\
    contents a' = drop (Z.to_nat (if r >? 0 then overrun r (d_bufferArray a) + r else 0))
                       (contents a).
Proof.
  intros Hwf Hn r. unfold ConstBufferArray_pop. fold r.
  destruct (Z.gtb_spec r 0) as [Hr|Hr].
  - destruct (pop_loop_spec r (d_bufferArray a) (d_numBytes a))
      as (bufs' & total' & -> & Ht & Hc); [lia|done|].
    exists (mk bufs' total'). auto.
  - exists a. destruct a as [bufs total]. simpl in *.
    split_and!; [|done|by rewrite drop_0].
    assert (r = 0) as ->.
    { unfold wf, contents in Hwf. simpl in *. pose proof (size_nonneg (concat bufs)).
      subst r. destruct (Z.gtb_spec n total); lia. }
    by destruct bufs.
Qed.

(** Popping never fails its assertion and keeps the cached number of
    bytes right; and when fewer bytes are asked for than the array holds, it
    removes exactly those bytes from the front if and only if no leading
    non-empty buffer is shorter than the count: otherwise the bytes of every
    such buffer are lost on top of the count. *)
Theorem ConstBufferArray_pop_exact_iff a n :
  wf a -> 0 < n < d_numBytes a ->
  exists a', ConstBufferArray_pop a n = Some a' /\ wf a' /\
    contents a' = drop (Z.to_nat (overrun n (d_bufferArray a) + n)) (contents a) /\
    (contents a' = drop (Z.to_nat n) (contents a) <-> overrun n (d_bufferArray a) = 0).
Proof.
  intros Hwf Hn. destruct (array_pop_spec a n Hwf) as (a' & Hp & Hwf' & Hc); [lia|].
  exists a'.
  replace (if n >? d_numBytes a then _ else n) with n in Hc
    by (destruct (Z.gtb_spec n (d_numBytes a)); lia).
  rewrite (proj2 (Z.gtb_lt n 0)) in Hc by lia.
  split_and!; [done..|]. pose proof (overrun_nonneg n (d_bufferArray a)).
  split; intros He; [|by rewrite Hc, He].
  rewrite Hc in He. apply (f_equal length) in He. rewrite !length_drop in He.
  unfold wf, size in Hwf. lia.
Qed.

Lemma ConstBufferArray_pop_exact_iff_witness :
  exists a',
    ConstBufferArray_pop (mk [[x61; x62]; [x63; x64; x65; x66]] 6) 3 = Some a' /\
    wf a' /\ contents a' = [x66] /\ (contents a' = [x64; x65; x66] <-> 2 = 0).
Proof.
  exact (ConstBufferArray_pop_exact_iff
           (mk [[x61; x62]; [x63; x64; x65; x66]] 6) 3 eq_refl
           ltac:(vm_compute; split; congruence)).
Defined.

End BufferArray.

(** ** [ntsa::ConstBufferPtrArray] and [ntsa::MutableBufferPtrArray]

    A borrowed array: a pointer into the caller's array [d_store], and the
    number of buffers the caller announced.  [pop] moves the pointer but not
    [d_numBuffers]; reading past the end of the store is [None]. *)
Module BufferPtrArray.

Record t : Type := mk {
  d_store : list ConstBuffer;
  d_bufferArray : nat;
  d_numBuffers : Z;
  d_numBytes : Z
}.

Definition assign (bufferList : list ConstBuffer) : t :=
  mk bufferList 0 (size bufferList) (sum_with size bufferList).

Definition view (a : t) : list ConstBuffer := drop (d_bufferArray a) (d_store a).

(** The buffers the array gives access to, [None] when the last one is out
    of the bounds of the store. *)
Definition buffers (a : t) : option (list ConstBuffer) :=
  if d_numBuffers a <=? size (view a)
  then Some (take (Z.to_nat (d_numBuffers a)) (view a)) else None.

Fixpoint pop_loop (numBytesRemaining numBuffers : Z) (bufs : list ConstBuffer)
  (numBytes : Z) : option (nat * list ConstBuffer * Z) :=
  if numBytesRemaining >? 0 then
    if numBuffers =? 0 then Some (0%nat, bufs, numBytes) else
    match bufs with
    | [] => None
    | front :: rest =>
        let numBytesToPop := numBytesRemaining in
        if numBytesToPop >? size front then
          let numBytesToPop := size front in
          assert! numBytes >=? numBytesToPop ;;
          '(k, rest', total) ←
            pop_loop numBytesRemaining numBuffers rest (numBytes - numBytesToPop);
          Some (S k, front :: rest', total)
        else
          assert! numBytes >=? numBytesToPop ;;
          Some (0%nat, ConstBuffer_advance front numBytesToPop :: rest,
                numBytes - numBytesToPop)
    end
  else Some (0%nat, bufs, numBytes).

Definition ConstBufferPtrArray_pop (a : t) (numBytes : Z) : option t :=
  let numBytesRemaining :=
    if numBytes >? d_numBytes a then d_numBytes a else numBytes in
  '(k, bufs, total) ←
    pop_loop numBytesRemaining (d_numBuffers a) (view a) (d_numBytes a);
  Some (mk (take (d_bufferArray a) (d_store a) ++ bufs)
           (d_bufferArray a + k) (d_numBuffers a) total).

Definition MutableBufferPtrArray_pop (a : t) (numBytes : Z) : option t :=
  let numBytesRemaining :=
    if numBytes >? d_numBytes a then d_numBytes a else numBytes in
  '(k, bufs, total) ←
    pop_loop numBytesRemaining (d_numBuffers a) (view a) (d_numBytes a);
  Some (mk (take (d_bufferArray a) (d_store a) ++ bufs)
           (d_bufferArray a + k) (d_numBuffers a) total).

Lemma pop_loop_length n m bufs total k bufs' total' :
  pop_loop n m bufs total = Some (k, bufs', total') ->
  length bufs' = length bufs /\ (k <= length bufs)%nat.
Proof.
  revert total k bufs' total'.
  induction bufs as [|b bufs IH]; intros total k bufs' total'; simpl;
    destruct (n >? 0), (m =? 0); intros H; simplify_eq/=; auto with lia.
  destruct (n >? size b), (total >=? _); simplify_eq/=; auto with lia.
  apply bind_Some in H as ([[k1 bufs1] total1] & H & ?). simplify_eq/=.
  apply IH in H. lia.
Qed.

(** Popping within the first buffer is exact. *)
Lemma pop_within_front b rest n :
  0 <= n <= size b ->
  ConstBufferPtrArray_pop (assign (b :: rest)) n =
    Some (mk (drop (Z.to_nat n) b :: rest) 0 (size (b :: rest))
             (sum_with size (b :: rest) - n)).
Proof.
  intros Hn. unfold ConstBufferPtrArray_pop, assign. simpl d_numBytes.
  assert (Hs : 0 <= sum_with size rest)
    by (apply sum_with_nonneg, Forall_forall; intros; apply size_nonneg).
  rewrite Z.gtb_ltb, (proj2 (Z.ltb_ge _ n)) by (rewrite sum_with_cons; lia).
  unfold view. simpl. destruct (Z.gtb_spec n 0).
  - rewrite Z.gtb_ltb, (proj2 (Z.ltb_ge _ _)) by lia.
    rewrite (proj2 (Z.geb_le _ _)) by (rewrite sum_with_cons; lia).
    simpl. by rewrite ConstBuffer_advance_drop by lia.
  - assert (n = 0) as -> by lia. simpl. by rewrite Z.sub_0_r.
Qed.

(** Popping past the first buffer leaves an array whose announced number of
    buffers runs past the end of the store. *)
Lemma pop_past_front_dangles b rest n a' :
  size b < n -> n <= sum_with size (b :: rest) ->
  ConstBufferPtrArray_pop (assign (b :: rest)) n = Some a' ->
  buffers a' = None.
Proof.
  intros Hn Htot Hp. unfold ConstBufferPtrArray_pop, assign in Hp.
  cbn [d_numBytes d_numBuffers d_bufferArray d_store] in Hp.
  rewrite Z.gtb_ltb, (proj2 (Z.ltb_ge _ n)) in Hp by lia.
  pose proof (size_nonneg b). unfold view in Hp. simpl in Hp.
  rewrite (proj2 (Z.gtb_lt n 0)), (proj2 (Z.gtb_lt n (size b))) in Hp by lia.
  destruct (_ >=? size b); [|done]. simpl in Hp.
  apply bind_Some in Hp as ([[k bufs] total] & Hp & Heq). simplify_eq/=.
  apply bind_Some in Hp as ([[k1 bufs1] total1] & Hp & Heq). simplify_eq/=.
  apply pop_loop_length in Hp as [Hl Hk].
  unfold buffers, view. cbn [d_numBuffers d_bufferArray d_store].
  rewrite (proj2 (Z.leb_gt _ _)); [done|].
  unfold size. rewrite length_drop. simpl length. lia.
Qed.

(** Popping a freshly assigned borrowed array is exact within its first
    buffer, and past it always leaves an array whose announced number of
    buffers reaches beyond the end of the caller's array. *)
Theorem ConstBufferPtrArray_pop_front b rest n :
  0 <= n <= sum_with size (b :: rest) ->
  if n <=? size b then
    ConstBufferPtrArray_pop (assign (b :: rest)) n =
      Some (mk (drop (Z.to_nat n) b :: rest) 0 (size (b :: rest))
               (sum_with size (b :: rest) - n))
  else forall a',
    ConstBufferPtrArray_pop (assign (b :: rest)) n = Some a' -> buffers a' = None.
Proof.
  intros Hn. destruct (Z.leb_spec n (size b)).
  - apply pop_within_front. lia.
  - intros a'. apply pop_past_front_dangles; lia.
Qed.

Lemma ConstBufferPtrArray_pop_front_witness :
  0 <= 2 <= 3 /\
  forall a', ConstBufferPtrArray_pop (assign [[x61]; [x62; x63]]) 2 = Some a' ->
             buffers a' = None.
Proof.
  split; [lia|].
  exact (ConstBufferPtrArray_pop_front [x61] [[x62; x63]] 2
           ltac:(vm_compute; split; congruence)).
Defined.

End BufferPtrArray.

(** ** [bdlbb::Blob]

    The blob type belongs to BDE.  The components use the five accessors
    below; [BlobLaws] states their documented meaning: a blob designates
    [length()] bytes, all the bytes of its data buffers except the last, of
    which it designates [lastDataBufferLength()], and erasing a prefix removes
    those bytes. *)
Class BlobOps (Blob : Type) : Type := {
  blob_numDataBuffers : Blob -> nat;
  blob_buffer : Blob -> nat -> list byte;
  blob_lastDataBufferLength : Blob -> Z;
  blob_length : Blob -> Z;
  blob_erase : Blob -> Z -> Z -> Blob
}.

Section Blob.
Context {Blob : Type} `{BlobOps Blob}.

Definition blob_segment (b : Blob) (i : nat) : list byte :=
    if (i =? blob_numDataBuffers b - 1)%nat
    then take (Z.to_nat (blob_lastDataBufferLength b)) (blob_buffer b i)
    else blob_buffer b i.

Definition blob_segments (b : Blob) : list (list byte) :=
    map (blob_segment b) (seq 0 (blob_numDataBuffers b)).

Definition blob_bytes (b : Blob) : list byte := concat (blob_segments b).
End Blob.

Class BlobLaws (Blob : Type) `{BlobOps Blob} : Prop := {
  blob_length_bytes : forall b : Blob, blob_length b = size (blob_bytes b);
  blob_last_range : forall b : Blob, (0 < blob_numDataBuffers b)%nat ->
    0 <= blob_lastDataBufferLength b
      <= size (blob_buffer b (blob_numDataBuffers b - 1));
  blob_erase_front : forall (b : Blob) n, 0 <= n <= blob_length b ->
    blob_bytes (blob_erase b 0 n) = drop (Z.to_nat n) (blob_bytes b)
}.

(** A lawful blob: the list of its data buffers, each of them full. *)
#[export] Instance ListBlob_ops : BlobOps (list (list byte)) := {
  blob_numDataBuffers b := length b;
  blob_buffer b i := nth i b [];
  blob_lastDataBufferLength b := size (nth (length b - 1) b []);
  blob_length b := size (concat b);
  blob_erase b offset n :=
    if n =? 0 then b else
    [take (Z.to_nat offset) (concat b) ++ drop (Z.to_nat (offset + n)) (concat b)]
}.

Lemma ListBlob_bytes (b : list (list byte)) : blob_bytes b = concat b.
Proof.
  unfold blob_bytes, blob_segments. f_equal.
  rewrite <- (map_id b) at 3. simpl.
  transitivity (map (fun i => nth i b []) (seq 0 (length b))).
  - apply map_ext_in. intros i Hi. apply in_seq in Hi. unfold blob_segment. simpl.
    destruct (Nat.eqb_spec i (length b - 1)) as [->|]; [|done].
    unfold size. rewrite Nat2Z.id. apply take_ge. done.
  - rewrite map_id. apply (nth_ext _ _ [] []); rewrite length_map, length_seq; [done|].
    intros n Hn. rewrite (nth_indep _ [] (nth 0 b [])) by (by rewrite length_map, length_seq).
    rewrite (map_nth (fun i => nth i b [])). by rewrite seq_nth.
Qed.

#[export] Instance ListBlob_laws : BlobLaws (list (list byte)).
Proof.
  constructor.
  - intros b. by rewrite ListBlob_bytes.
  - intros b _. simpl. split; [apply size_nonneg|done].
  - intros b n Hn. rewrite !ListBlob_bytes. simpl. destruct (Z.eqb_spec n 0) as [->|]; [done|].
    simpl. by rewrite app_nil_r, Z.add_0_l.
Qed.

(** Blobs none of whose data buffers is empty, as those an application fills
    from a factory of buffers; and one, whose bytes are in a single buffer. *)
Class SolidBlobs (Blob : Type) `{BlobOps Blob} : Prop :=
  blob_segment_solid : forall (b : Blob) i, (i < blob_numDataBuffers b)%nat ->
    blob_segment b i <> [].

Definition FlatBlob : Type := list byte.

#[export] Instance FlatBlob_ops : BlobOps FlatBlob := {
  blob_numDataBuffers b := match b with [] => 0%nat | _ => 1%nat end;
  blob_buffer b i := b;
  blob_lastDataBufferLength b := size b;
  blob_length b := size b;
  blob_erase b offset n := take (Z.to_nat offset) b ++ drop (Z.to_nat (offset + n)) b
}.

Lemma FlatBlob_bytes (b : FlatBlob) : blob_bytes b = b.
Proof.
  unfold blob_bytes, blob_segments. destruct b as [|x b]; [done|]. simpl.
  unfold blob_segment. simpl. unfold size. rewrite Nat2Z.id, take_ge, app_nil_r by done. done.
Qed.

#[export] Instance FlatBlob_laws : BlobLaws FlatBlob.
Proof.
  constructor.
  - intros b. by rewrite FlatBlob_bytes.
  - intros b _. simpl. split; [apply size_nonneg|done].
  - intros b n Hn. rewrite !FlatBlob_bytes. simpl. by rewrite Z.add_0_l.
Qed.

#[export] Instance FlatBlob_solid : SolidBlobs FlatBlob.
Proof.
  intros [|x b] i Hi; simpl in Hi; [lia|]. unfold blob_segment. simpl.
  unfold size. rewrite Nat2Z.id, take_ge by done. by destruct (i =? 0)%nat.
Qed.

(** ** [ntsa::File] *)
Record File : Type := mkFile {
  d_fileDescriptor : Z;
  d_filePosition : Z;
  d_fileBytesRemaining : Z;
  d_fileSize : Z
}.

(** ** [ntsa::Data] *)
Module Data.
Section Data.
Context {Blob : Type} `{BlobOps Blob}.

Inductive t : Type :=
| e_UNDEFINED
| e_BLOB_BUFFER (bytes : list byte)
| e_CONST_BUFFER (b : ConstBuffer)
| e_CONST_BUFFER_ARRAY (a : BufferArray.t)
| e_CONST_BUFFER_PTR_ARRAY (a : BufferPtrArray.t)
| e_MUTABLE_BUFFER (b : MutableBuffer)
| e_MUTABLE_BUFFER_ARRAY (a : BufferArray.t)
| e_MUTABLE_BUFFER_PTR_ARRAY (a : BufferPtrArray.t)
| e_BLOB (b : Blob)
| e_SHARED_BLOB (b : option Blob)
| e_STRING (s : list byte)
| e_FILE (f : File).

(** [Data::size]; a null shared blob is dereferenced. *)
Definition size_of (d : t) : option Z :=
  match d with
  | e_UNDEFINED => Some 0
  | e_BLOB_BUFFER b | e_CONST_BUFFER b | e_MUTABLE_BUFFER b | e_STRING b =>
      Some (size b)
  | e_CONST_BUFFER_ARRAY a | e_MUTABLE_BUFFER_ARRAY a =>
      Some (BufferArray.d_numBytes a)
  | e_CONST_BUFFER_PTR_ARRAY a | e_MUTABLE_BUFFER_PTR_ARRAY a =>
      Some (BufferPtrArray.d_numBytes a)
  | e_BLOB b => Some (blob_length b)
  | e_SHARED_BLOB (Some b) => Some (blob_length b)
  | e_SHARED_BLOB None => None
  | e_FILE f => Some (wrap 64 (d_fileBytesRemaining f))
  end.

Definition popBlobBuffer (b : list byte) (numBytes : Z) : list byte :=
  let oldSize := size b in
  let numBytes := if numBytes >? oldSize then oldSize else numBytes in
  drop (Z.to_nat numBytes) b.

Definition popBlob (b : Blob) (numBytes : Z) : Blob :=
  let numBytes := if numBytes >? blob_length b then blob_length b else numBytes in
  blob_erase b 0 numBytes.

Definition popString (s : list byte) (numBytes : Z) : list byte :=
  let numBytes := if numBytes >? size s then size s else numBytes in
  drop (Z.to_nat numBytes) s.

Definition popFile (f : File) (numBytes : Z) : File :=
  let numBytesToPop := swrap 64 numBytes in
  let numBytesToPop :=
    if numBytesToPop >? d_fileBytesRemaining f
    then d_fileBytesRemaining f else numBytesToPop in
  mkFile (d_fileDescriptor f) (d_filePosition f + numBytesToPop)
         (d_fileBytesRemaining f - numBytesToPop) (d_fileSize f).

(** [DataUtil::pop] dispatches on the type of the container. *)
Definition pop (d : t) (numBytes : Z) : option t :=
  match d with
  | e_UNDEFINED => Some e_UNDEFINED
  | e_BLOB_BUFFER b => Some (e_BLOB_BUFFER (popBlobBuffer b numBytes))
  | e_CONST_BUFFER b => Some (e_CONST_BUFFER (ConstBuffer_advance b numBytes))
  | e_CONST_BUFFER_ARRAY a =>
      a' ← BufferArray.ConstBufferArray_pop a numBytes; Some (e_CONST_BUFFER_ARRAY a')
  | e_CONST_BUFFER_PTR_ARRAY a =>
      a' ← BufferPtrArray.ConstBufferPtrArray_pop a numBytes;
      Some (e_CONST_BUFFER_PTR_ARRAY a')
  | e_MUTABLE_BUFFER b => Some (e_MUTABLE_BUFFER (MutableBuffer_advance b numBytes))
  | e_MUTABLE_BUFFER_ARRAY a =>
      a' ← BufferArray.MutableBufferArray_pop a numBytes;
      Some (e_MUTABLE_BUFFER_ARRAY a')
  | e_MUTABLE_BUFFER_PTR_ARRAY a =>
      a' ← BufferPtrArray.MutableBufferPtrArray_pop a numBytes;
      Some (e_MUTABLE_BUFFER_PTR_ARRAY a')
  | e_BLOB b => Some (e_BLOB (popBlob b numBytes))
  | e_SHARED_BLOB (Some b) => Some (e_SHARED_BLOB (Some (popBlob b numBytes)))
  | e_SHARED_BLOB None => None
  | e_STRING s => Some (e_STRING (popString s numBytes))
  | e_FILE f => Some (e_FILE (popFile f numBytes))
  end.

Definition isFile (d : t) : bool :=
  match d with e_FILE _ => true | _ => false end.

(** The buffers a container designates, in the order they are sent.  A file
    designates no memory, and neither does an array that dangles. *)
Definition segments (d : t) : list (list byte) :=
  match d with
  | e_UNDEFINED | e_FILE _ | e_SHARED_BLOB None => []
  | e_BLOB_BUFFER b | e_CONST_BUFFER b | e_MUTABLE_BUFFER b | e_STRING b => [b]
  | e_CONST_BUFFER_ARRAY a | e_MUTABLE_BUFFER_ARRAY a => BufferArray.d_bufferArray a
  | e_CONST_BUFFER_PTR_ARRAY a | e_MUTABLE_BUFFER_PTR_ARRAY a =>
      default [] (BufferPtrArray.buffers a)
  | e_BLOB b | e_SHARED_BLOB (Some b) => blob_segments b
  end.

Definition bytes (d : t) : list byte := concat (segments d).

(** The representations that designate one range of memory, or a blob. *)
Definition contiguous (d : t) : Prop :=
  match d with
  | e_BLOB_BUFFER _ | e_CONST_BUFFER _ | e_MUTABLE_BUFFER _ | e_STRING _
  | e_BLOB _ | e_SHARED_BLOB (Some _) => True
  | _ => False
  end.

Lemma size_of_contiguous `{!BlobLaws Blob} d :
  contiguous d -> size_of d = Some (size (bytes d)).
Proof.
  unfold bytes. destruct d as [| | | | | | | | |[]| |]; simpl; try done; intros _;
    rewrite ?app_nil_r; by rewrite ?blob_length_bytes.
Qed.

(** On those, popping removes exactly the requested bytes. *)
Lemma pop_contiguous `{!BlobLaws Blob} d n :
  contiguous d -> 0 <= n ->
  exists d', pop d n = Some d' /\ contiguous d' /\
             bytes d' = drop (Z.to_nat n) (bytes d).
Proof.
  intros Hc Hn.
  assert (Hclip : forall (l : list byte),
    drop (Z.to_nat (if n >? size l then size l else n)) l = drop (Z.to_nat n) l).
  { intros l. destruct (Z.gtb_spec n (size l)); [|done].
    rewrite !drop_ge; unfold size in *; auto; lia. }
  assert (Hblob : forall b : Blob,
    blob_bytes (popBlob b n) = drop (Z.to_nat n) (blob_bytes b)).
  { intros b. unfold popBlob. pose proof (size_nonneg (blob_bytes b)).
    rewrite blob_erase_front, !blob_length_bytes; [apply Hclip|].
    rewrite !blob_length_bytes. destruct (Z.gtb_spec n (size (blob_bytes b))); lia. }
  destruct d as [| | | | | | | | |[]| |]; try done; simpl; eexists;
    (split; [reflexivity|]); (split; [done|]); unfold bytes; simpl;
    rewrite ?app_nil_r; try apply Hclip; try apply Hblob.
  - by apply ConstBuffer_advance_drop.
  - by apply MutableBuffer_advance_drop.
Qed.

End Data.
Arguments t : clear implicits.
End Data.
