(* ===== verification/Watermark.v ===== *)
(** * Queue watermarks

    [ntcs_watermarkutil.h]: how the low and high watermarks of a queue are
    sanitized and tested, and the two flags with which the queues rate-limit
    their watermark events. *)

From S2P Require Import Prelude.

Module WatermarkUtil.

(** Both sanitizers take and return the pair (low, high). *)
Definition sanitizeIncomingQueueWatermarks (low high : Z) : Z * Z :=
  let low := if low =? 0 then 1 else low in
  let high := if high <? low then low else high in
  (low, high).

Definition sanitizeOutgoingQueueWatermarks (low high : Z) : Z * Z :=
  let high := if high =? 0 then 1 else high in
  let low := if low >=? high then high - 1 else low in
  (low, high).

Definition isIncomingQueueLowWatermarkSatisfied (size low : Z) : bool :=
  size >=? low.

Definition isIncomingQueueHighWatermarkViolated (size high : Z) : bool :=
  size >=? high.

Definition isOutgoingQueueLowWatermarkSatisfied (size low : Z) : bool :=
  size <=? low.

Definition isOutgoingQueueHighWatermarkViolated (size high : Z) : bool :=
  size >=? high.

(** What the queues keep true of their two watermarks. *)
Definition incoming_ok (low high : Z) : Prop := 1 <= low <= high.
Definition outgoing_ok (low high : Z) : Prop := 0 <= low < high.

Lemma sanitizeIncoming_ok low high :
  0 <= low -> 0 <= high ->
  let '(l, h) := sanitizeIncomingQueueWatermarks low high in incoming_ok l h.
Proof.
  intros. unfold sanitizeIncomingQueueWatermarks, incoming_ok.
  destruct (Z.eqb_spec low 0); destruct (Z.ltb_spec high (if low =? 0 then 1 else low));
    subst; simpl in *; repeat step_guard; lia.
Qed.

Lemma sanitizeOutgoing_ok low high :
  0 <= low -> 0 <= high ->
  let '(l, h) := sanitizeOutgoingQueueWatermarks low high in outgoing_ok l h.
Proof.
  intros. unfold sanitizeOutgoingQueueWatermarks, outgoing_ok. simpl.
  repeat step_guard.
Qed.

(** A valid pair is left alone. *)
Lemma sanitizeIncoming_id low high :
  incoming_ok low high -> sanitizeIncomingQueueWatermarks low high = (low, high).
Proof.
  unfold incoming_ok, sanitizeIncomingQueueWatermarks. intros. simpl.
  repeat step_guard; done.
Qed.

Lemma sanitizeOutgoing_id low high :
  outgoing_ok low high -> sanitizeOutgoingQueueWatermarks low high = (low, high).
Proof.
  unfold outgoing_ok, sanitizeOutgoingQueueWatermarks. intros. simpl.
  repeat step_guard; done.
Qed.

(** The two thresholds of an outgoing queue are never met together. *)
Lemma outgoing_exclusive size low high :
  outgoing_ok low high ->
  isOutgoingQueueLowWatermarkSatisfied size low
    && isOutgoingQueueHighWatermarkViolated size high = false.
Proof.
  unfold outgoing_ok, isOutgoingQueueLowWatermarkSatisfied,
    isOutgoingQueueHighWatermarkViolated. intros.
  destruct (Z.leb_spec size low), (Z.geb_spec size high); simpl; auto; lia.
Qed.

End WatermarkUtil.

(** The events a queue announces, and what it means for a sequence of them to
    alternate: [flag] says whether a high watermark event comes next. *)
Inductive WatermarkEvent : Type := e_LOW_WATERMARK | e_HIGH_WATERMARK.

#[export] Instance WatermarkEvent_eq_dec : EqDecision WatermarkEvent.
Proof. solve_decision. Defined.

Fixpoint alternating (highNext : bool) (events : list WatermarkEvent) : bool :=
  match events with
  | [] => true
  | e :: rest =>
      bool_decide (e = if highNext then e_HIGH_WATERMARK else e_LOW_WATERMARK)
        && alternating (negb highNext) rest
  end.

(** The flag after a sequence of events. *)
Definition next_flag (highNext : bool) (events : list WatermarkEvent) : bool :=
  Nat.even (length events) && highNext || negb (Nat.even (length events)) && negb highNext.

Lemma alternating_app f l k :
  alternating f l = true -> alternating (next_flag f l) k = true ->
  alternating f (l ++ k) = true.
Proof.
  revert f. induction l as [|e l IH]; intros f; simpl.
  - unfold next_flag. simpl. by rewrite orb_false_r.
  - rewrite !andb_true_iff. intros [He Hl] Hk. split; [done|]. apply IH; [done|].
    rewrite <- Hk. f_equal. unfold next_flag. simpl length.
    rewrite Nat.even_succ, <- Nat.negb_even.
    by destruct (Nat.even (length l)), f.
Qed.
