(* ===== verification/SendQueue.v ===== *)
(** * The send queue

    [ntcq_send.h] and [ntcq_send.cpp]: the entries of a socket's write queue,
    the accounting of its size, removal by identifier or token, its watermark
    events and the batching of several entries into one gather write. *)

From S2P Require Import Prelude Buffers Watermark.

(** The types the send queue stores and hands back but does not look into:
    endpoints, timers, the context of a send operation (of which it reads the
    token) and the callback of a send operation. *)
Class SendTypes : Type := {
  Endpoint : Type;
  Timer : Type;
  SendContext : Type;
  SendContext_token : SendContext -> option Z;
  SendContext_default : SendContext;
  SendCallback : Type
}.

(** [ntsa::SendOptions], the part that bounds a batch. *)
Record SendOptions : Type := mkSendOptions {
  d_maxBytes : Z;
  d_maxBuffers : Z
}.

(** ** [ntcq::SendQueueEntry] *)
Module SendQueueEntry.
Section Entry.
Context {Blob : Type} `{BlobOps Blob} {T : SendTypes}.

Record t : Type := mk {
  d_id : Z;
  d_endpoint : option Endpoint;
  d_data : option (Data.t Blob);
  d_length : Z;
  d_timestamp : Z;
  d_deadline : option Z;
  d_foreignHandle : option Z;
  d_timer : option Timer;
  d_context : SendContext;
  d_callback : option SendCallback;
  d_inProgress : bool;
  d_zeroCopy : bool
}.

Definition default_entry : t :=
  mk 0 None None 0 0 None None None SendContext_default None false false.

Definition token (e : t) : option Z := SendContext_token (d_context e).

Definition setData (d : option (Data.t Blob)) (e : t) : t :=
  mk (d_id e) (d_endpoint e) d (d_length e) (d_timestamp e) (d_deadline e)
     (d_foreignHandle e) (d_timer e) (d_context e) (d_callback e)
     (d_inProgress e) (d_zeroCopy e).

Definition setLength (n : Z) (e : t) : t :=
  mk (d_id e) (d_endpoint e) (d_data e) n (d_timestamp e) (d_deadline e)
     (d_foreignHandle e) (d_timer e) (d_context e) (d_callback e)
     (d_inProgress e) (d_zeroCopy e).

Definition setDeadline (v : option Z) (e : t) : t :=
  mk (d_id e) (d_endpoint e) (d_data e) (d_length e) (d_timestamp e) v
     (d_foreignHandle e) (d_timer e) (d_context e) (d_callback e)
     (d_inProgress e) (d_zeroCopy e).

Definition setCallback (cb : option SendCallback) (e : t) : t :=
  mk (d_id e) (d_endpoint e) (d_data e) (d_length e) (d_timestamp e) (d_deadline e)
     (d_foreignHandle e) (d_timer e) (d_context e) cb (d_inProgress e) (d_zeroCopy e).

Definition setInProgress (b : bool) (e : t) : t :=
  mk (d_id e) (d_endpoint e) (d_data e) (d_length e) (d_timestamp e) (d_deadline e)
     (d_foreignHandle e) (d_timer e) (d_context e) (d_callback e) b (d_zeroCopy e).

Definition setZeroCopy (b : bool) (e : t) : t :=
  mk (d_id e) (d_endpoint e) (d_data e) (d_length e) (d_timestamp e) (d_deadline e)
     (d_foreignHandle e) (d_timer e) (d_context e) (d_callback e) (d_inProgress e) b.

(** Closing the timer of an entry: the entry without it, and the timers on
    which [close] was called. *)
Definition closeTimer (e : t) : t * list Timer :=
  match d_timer e with
  | Some timer =>
      (mk (d_id e) (d_endpoint e) (d_data e) (d_length e) (d_timestamp e)
          (d_deadline e) (d_foreignHandle e) None (d_context e) (d_callback e)
          (d_inProgress e) (d_zeroCopy e), [timer])
  | None => (e, [])
  end.

Definition isBatchable (e : t) : bool :=
  match d_data e with
  | None => false
  | Some d =>
      if Data.isFile d then false
      else match d_foreignHandle e with Some _ => false | None => true end
  end.

(** [delay], given the value of the process timer in nanoseconds. *)
Definition delay (now : Z) (e : t) : Z :=
  let delayInNanoseconds := now - d_timestamp e in
  if delayInNanoseconds <? 0 then 0 else delayInNanoseconds.

(** *** Batching

    [ntsu::SocketUtil::maxBuffersPerSend] is the platform's limit on the
    number of buffers of one gather write. *)
Section Batch.
Context (maxBuffersPerSend : Z).

Definition effectiveMaxBuffers (options : SendOptions) : Z :=
  if d_maxBuffers options =? 0 then maxBuffersPerSend else d_maxBuffers options.

(** The result and whether more buffers may be appended. *)
Definition batchNext_constBuffer (result : BufferArray.t) (b : ConstBuffer)
  (options : SendOptions) : BufferArray.t * bool :=
  let maxBytes := d_maxBytes options in
  if (maxBytes >? 0) && (BufferArray.d_numBytes result >=? maxBytes)
  then (result, false) else
  let maxBuffers := effectiveMaxBuffers options in
  if (maxBuffers >? 0) && (BufferArray.numBuffers result >=? maxBuffers)
  then (result, false)
  else (BufferArray.append result b, true).

Fixpoint batchNext_constBufferArray (result : BufferArray.t)
  (bufs : list ConstBuffer) (options : SendOptions) : BufferArray.t * bool :=
  match bufs with
  | [] => (result, true)
  | b :: rest =>
      let '(result, more) := batchNext_constBuffer result b options in
      if more then batchNext_constBufferArray result rest options
      else (result, false)
  end.

(** The array is borrowed: [None] is an access past its end. *)
Fixpoint batchNext_constBufferPtrArray (result : BufferArray.t)
  (bufs : list ConstBuffer) (numBuffers : nat) (options : SendOptions) {struct numBuffers}
  : option (BufferArray.t * bool) :=
  match numBuffers with
  | O => Some (result, true)
  | S numBuffers =>
      match bufs with
      | [] => None
      | b :: rest =>
          let '(result, more) := batchNext_constBuffer result b options in
          if more then batchNext_constBufferPtrArray result rest numBuffers options
          else Some (result, false)
      end
  end.

(** The loop over the data buffers of a blob, from the [i]-th, with [n] left. *)
Fixpoint batchNext_blob_loop (result : BufferArray.t) (blob : Blob) (i n : nat)
  (options : SendOptions) : BufferArray.t * bool :=
  match n with
  | O => (result, true)
  | S n =>
      let data :=
        if negb (i =? blob_numDataBuffers blob - 1)%nat then blob_buffer blob i
        else take (Z.to_nat (blob_lastDataBufferLength blob)) (blob_buffer blob i) in
      let maxBytes := d_maxBytes options in
      if (maxBytes >? 0) && (BufferArray.d_numBytes result >=? maxBytes)
      then (result, false) else
      let maxBuffers := effectiveMaxBuffers options in
      if (maxBuffers >? 0) && (BufferArray.numBuffers result >=? maxBuffers)
      then (result, false)
      else batchNext_blob_loop (BufferArray.append result data) blob (S i) n options
  end.

Definition batchNext_blob (result : BufferArray.t) (blob : Blob)
  (options : SendOptions) : BufferArray.t * bool :=
  batchNext_blob_loop result blob 0 (blob_numDataBuffers blob) options.

Definition batchNext (result : BufferArray.t) (e : t) (options : SendOptions)
  : option (BufferArray.t * bool) :=
  if negb (isBatchable e) then Some (result, false) else
  match d_data e with
  | Some (Data.e_BLOB b) | Some (Data.e_SHARED_BLOB (Some b)) =>
      Some (batchNext_blob result b options)
  | Some (Data.e_BLOB_BUFFER b) | Some (Data.e_CONST_BUFFER b)
  | Some (Data.e_MUTABLE_BUFFER b) | Some (Data.e_STRING b) =>
      Some (batchNext_constBuffer result b options)
  | Some (Data.e_CONST_BUFFER_ARRAY a) | Some (Data.e_MUTABLE_BUFFER_ARRAY a) =>
      Some (batchNext_constBufferArray result (BufferArray.d_bufferArray a) options)
  | Some (Data.e_CONST_BUFFER_PTR_ARRAY a)
  | Some (Data.e_MUTABLE_BUFFER_PTR_ARRAY a) =>
      batchNext_constBufferPtrArray result (BufferPtrArray.view a)
        (Z.to_nat (BufferPtrArray.d_numBuffers a)) options
  | _ => Some (result, false)
  end.

(** *** The batching variants agree

    Every representation batches its segments like an array of them. *)
Lemma batchNext_blob_loop_segments result blob i n options :
  batchNext_blob_loop result blob i n options =
    batchNext_constBufferArray result (map (blob_segment blob) (seq i n)) options.
Proof.
  revert result i. induction n as [|n IH]; intros result i; [done|].
  cbn [batchNext_blob_loop seq map batchNext_constBufferArray].
  replace (if negb _ then blob_buffer blob i else _) with (blob_segment blob i)
    by (unfold blob_segment; by destruct (i =? _)%nat).
  unfold batchNext_constBuffer at 1.
  case_match; [done|]. case_match; [done|]. apply IH.
Qed.

Lemma batchNext_constBufferPtrArray_take result bufs n options :
  (n <= length bufs)%nat ->
  batchNext_constBufferPtrArray result bufs n options =
    Some (batchNext_constBufferArray result (take n bufs) options).
Proof.
  revert result bufs. induction n as [|n IH]; intros result bufs Hn; [done|].
  destruct bufs as [|b bufs]; simpl in *; [lia|].
  destruct (batchNext_constBuffer result b options) as [r []]; [|done].
  apply IH. lia.
Qed.

(** Data that may be read: no null shared blob, no dangling array. *)
Definition readable (d : Data.t Blob) : Prop :=
  match d with
  | Data.e_SHARED_BLOB None => False
  | Data.e_CONST_BUFFER_PTR_ARRAY a | Data.e_MUTABLE_BUFFER_PTR_ARRAY a =>
      is_Some (BufferPtrArray.buffers a)
  | _ => True
  end.

Lemma batchNext_segments result e options d :
  isBatchable e = true -> d_data e = Some d -> readable d -> d <> Data.e_UNDEFINED ->
  batchNext result e options =
    Some (batchNext_constBufferArray result (Data.segments d) options).
Proof.
  intros Hb Hd Hr Hu. unfold batchNext. rewrite Hb, Hd. simpl.
  assert (Hone : forall b, batchNext_constBufferArray result [b] options =
                           batchNext_constBuffer result b options).
  { intros b. simpl. by destruct (batchNext_constBuffer result b options) as [r []]. }
  assert (Hptr : forall a, is_Some (BufferPtrArray.buffers a) ->
    batchNext_constBufferPtrArray result (BufferPtrArray.view a)
        (Z.to_nat (BufferPtrArray.d_numBuffers a)) options =
      Some (batchNext_constBufferArray result
              (default [] (BufferPtrArray.buffers a)) options)).
  { intros a [l Hl]. unfold BufferPtrArray.buffers in *.
    destruct (Z.leb_spec (BufferPtrArray.d_numBuffers a)
                         (size (BufferPtrArray.view a))) as [Hle|]; [|done].
    simpl. apply batchNext_constBufferPtrArray_take. unfold size in Hle. lia. }
  unfold isBatchable in Hb. rewrite Hd in Hb.
  destruct d as [| | | | | | | | |[]| |]; simpl in *; rewrite ?Hone; auto; try done;
    unfold batchNext_blob; by rewrite batchNext_blob_loop_segments.
Qed.

(** *** What a batch may hold

    The limits are tested before each buffer is appended: the number of
    buffers is bounded, and every buffer but the last was appended while
    the number of bytes was below the limit. *)
Definition within_limits (options : SendOptions) (a : BufferArray.t) : Prop :=
  (0 < effectiveMaxBuffers options ->
     BufferArray.numBuffers a <= effectiveMaxBuffers options) /\
  (0 < d_maxBytes options ->
     forall l b, BufferArray.d_bufferArray a = l ++ [b] ->
                 size (concat l) < d_maxBytes options).

Lemma batchNext_constBuffer_limits result b options :
  BufferArray.wf result -> within_limits options result ->
  within_limits options (batchNext_constBuffer result b options).1.
Proof.
  intros Hwf Hlim. unfold batchNext_constBuffer.
  case_match eqn:E1; [done|]. case_match eqn:E2; [done|].
  apply andb_false_iff in E1, E2. cbn [fst]. split.
  - intros Hpos. destruct E2 as [E2|E2]; [lia|].
    unfold BufferArray.numBuffers in *. cbn. szlia.
  - intros Hpos l b' Heq. destruct E1 as [E1|E1]; [lia|].
    apply app_inj_tail in Heq as [<- _].
    unfold BufferArray.wf, BufferArray.contents in Hwf. lia.
Qed.

Lemma batchNext_constBuffer_wf result b options :
  BufferArray.wf result ->
  BufferArray.wf (batchNext_constBuffer result b options).1.
Proof.
  intros. unfold batchNext_constBuffer.
  repeat (case_match; [done|]). by apply BufferArray.append_wf.
Qed.

(** A batch takes a prefix of the segments, all of them when it goes on. *)
Lemma batchNext_array_spec bufs result options :
  BufferArray.wf result -> within_limits options result ->
  exists k,
    let '(result', more) := batchNext_constBufferArray result bufs options in
    result' = BufferArray.append_list result (take k bufs) /\
    BufferArray.wf result' /\ within_limits options result' /\
    (more = true -> take k bufs = bufs).
Proof.
  revert result. induction bufs as [|b bufs IH]; intros result Hwf Hlim; simpl.
  - by exists 0%nat.
  - pose proof (batchNext_constBuffer_limits result b options Hwf Hlim) as Hl.
    pose proof (batchNext_constBuffer_wf result b options Hwf) as Hw.
    unfold batchNext_constBuffer in *.
    case_match; [by exists 0%nat|]. case_match; [by exists 0%nat|].
    destruct (IH _ Hw Hl) as [k Hk].
    exists (S k). simpl in *.
    destruct (batchNext_constBufferArray _ bufs options) as [r more].
    destruct Hk as (-> & ? & ? & Hm). split_and!; auto.
    intros Hmore. by rewrite (Hm Hmore).
Qed.

End Batch.
End Entry.
Arguments t Blob {T}.
End SendQueueEntry.

(** ** [ntcq::SendQueue] *)
Module SendQueue.
Section Queue.
Context {Blob : Type} `{BlobOps Blob} {T : SendTypes}.
#[local] Abbreviation Entry := (SendQueueEntry.t Blob).
Import SendQueueEntry.

Record t : Type := mk {
  d_entryList : list Entry;
  d_sendData : option Blob;
  d_size : Z;
  d_watermarkLow : Z;
  d_watermarkLowWanted : bool;
  d_watermarkHigh : Z;
  d_watermarkHighWanted : bool;
  d_nextEntryId : Z
}.

(** The constructor, given the two configured defaults
    ([NTCCFG_DEFAULT_STREAM_SOCKET_WRITE_QUEUE_{LOW,HIGH}_WATERMARK]). *)
Definition init (defaultLow defaultHigh : Z) : t :=
  let '(low, high) :=
    WatermarkUtil.sanitizeOutgoingQueueWatermarks defaultLow defaultHigh in
  mk [] None 0 low false high true 1.

Definition generateEntryId (q : t) : t * Z :=
  let id := wrap 64 (d_nextEntryId q + 1) in
  (mk (d_entryList q) (d_sendData q) (d_size q) (d_watermarkLow q)
      (d_watermarkLowWanted q) (d_watermarkHigh q) (d_watermarkHighWanted q) id, id).

(** The queue with other entries and size. *)
Definition with_entries (entries : list Entry) (n : Z) (q : t) : t :=
  mk entries (d_sendData q) n (d_watermarkLow q) (d_watermarkLowWanted q)
     (d_watermarkHigh q) (d_watermarkHighWanted q) (d_nextEntryId q).

Definition with_wanted (lowWanted highWanted : bool) (q : t) : t :=
  mk (d_entryList q) (d_sendData q) (d_size q) (d_watermarkLow q) lowWanted
     (d_watermarkHigh q) highWanted (d_nextEntryId q).

Definition with_watermarks (low high : Z) (q : t) : t :=
  mk (d_entryList q) (d_sendData q) (d_size q) low (d_watermarkLowWanted q)
     high (d_watermarkHighWanted q) (d_nextEntryId q).

Definition hasEntry (q : t) : bool :=
  match d_entryList q with [] => false | _ => true end.

(** The size is a [size_t]; where it is decreased an assertion precedes that it
    does not wrap. *)
Definition pushEntry (entry : Entry) (q : t) : option (t * bool) :=
  let entries := d_entryList q ++ [entry] in
  match d_data entry with
  | Some d =>
      assert! d_length entry >? 0 ;;
      n ← Data.size_of d;
      assert! d_length entry =? n ;;
      Some (with_entries entries (wrap 64 (d_size q + d_length entry)) q, size entries =? 1)
  | None => Some (with_entries entries (d_size q) q, size entries =? 1)
  end.

Definition frontEntry (q : t) : option Entry := head (d_entryList q).

(** The size of the queue after giving up the bytes of an entry, with the
    three assertions of [popEntry] and of the four removals. *)
Definition release (entry : Entry) (total : Z) : option Z :=
  match d_data entry with
  | Some d =>
      assert! d_length entry >? 0 ;;
      n ← Data.size_of d;
      assert! d_length entry =? n ;;
      assert! total >=? d_length entry ;;
      Some (total - d_length entry)
  | None => Some total
  end.

(** The queue, whether it is empty, and the timers closed. *)
Definition popEntry (q : t) : option (t * bool * list Timer) :=
  match d_entryList q with
  | [] => None
  | entry :: rest =>
      let '(entry, closed) := closeTimer entry in
      n ← release entry (d_size q);
      let q' := with_entries rest n q in
      Some (q', negb (hasEntry q'), closed)
  end.

Definition popSize (numBytes : Z) (q : t) : option (t * list Timer) :=
  match d_entryList q with
  | [] => None
  | entry :: rest =>
      let '(entry, closed) := closeTimer entry in
      d ← d_data entry;
      n ← Data.size_of d;
      assert! n =? d_length entry ;;
      d' ← Data.pop d numBytes;
      let entry := setInProgress true (setData (Some d') entry) in
      assert! d_length entry >=? numBytes ;;
      let entry := setLength (d_length entry - numBytes) entry in
      n' ← Data.size_of d';
      assert! n' =? d_length entry ;;
      assert! d_size q >=? numBytes ;;
      Some (with_entries (entry :: rest) (d_size q - numBytes) q, closed)
  end.

(** The first entry that satisfies a predicate, and what surrounds it. *)
Fixpoint find_split (p : Entry -> bool) (l : list Entry)
  : option (list Entry * Entry * list Entry) :=
  match l with
  | [] => None
  | e :: rest =>
      if p e then Some ([], e, rest)
      else '(before, found, after) ← find_split p rest;
           Some (e :: before, found, after)
  end.

Definition erase (before : list Entry) (entry : Entry) (after : list Entry) (q : t)
  : option (t * list Timer) :=
  n ← release entry (d_size q);
  let '(entry, closed) := closeTimer entry in
  Some (with_entries (before ++ after) n q, closed).

(** The four removals return the queue, the callback and context of the
    entry that was removed, the timers closed and whether the queue is
    empty.  The overloads without a context do not assign it: [context] is
    what the caller passes in, and only [removeEntryId] resets it. *)
Definition removeEntryId (id : Z) (q : t)
  : option (t * option SendCallback * SendContext * list Timer * bool) :=
  match find_split (fun e => d_id e =? id) (d_entryList q) with
  | Some (before, entry, after) =>
      if bool_decide (is_Some (d_deadline entry)) && negb (d_inProgress entry) then
        '(q', closed) ← erase before entry after q;
        Some (q', d_callback entry, d_context entry, closed, negb (hasEntry q'))
      else Some (q, None, SendContext_default, [], negb (hasEntry q))
  | None => Some (q, None, SendContext_default, [], negb (hasEntry q))
  end.

Definition removeEntryToken (context : SendContext) (tok : Z) (q : t)
  : option (t * option SendCallback * SendContext * list Timer * bool) :=
  match find_split (fun e => bool_decide (token e = Some tok)) (d_entryList q) with
  | Some (before, entry, after) =>
      if negb (d_inProgress entry) then
        '(q', closed) ← erase before entry after q;
        Some (q', d_callback entry, d_context entry, closed, negb (hasEntry q'))
      else Some (q, None, context, [], negb (hasEntry q))
  | None => Some (q, None, context, [], negb (hasEntry q))
  end.

(** [removeAll]: the queue, the entries that have a callback appended to
    the result, the timers closed, and whether the queue was not empty. *)
Fixpoint removeAll_loop (result : list Entry) (l : list Entry)
  : list Entry * list Timer :=
  match l with
  | [] => (result, [])
  | entry :: rest =>
      let '(entry, closed) := closeTimer entry in
      let result :=
        match d_callback entry with
        | Some _ => result ++ [entry]
        | None => result
        end in
      let '(result, closed') := removeAll_loop result rest in
      (result, closed ++ closed')
  end.

Definition removeAll (result : list Entry) (q : t)
  : t * list Entry * list Timer * bool :=
  let nonEmpty := hasEntry q in
  let '(result, closed) := removeAll_loop result (d_entryList q) in
  (with_entries [] 0 q, result, closed, nonEmpty).

Definition setSendData (d : option Blob) (q : t) : t :=
  mk (d_entryList q) d (d_size q) (d_watermarkLow q) (d_watermarkLowWanted q)
     (d_watermarkHigh q) (d_watermarkHighWanted q) (d_nextEntryId q).

Definition setLowWatermark (low : Z) (q : t) : t :=
  let '(low, high) :=
    WatermarkUtil.sanitizeOutgoingQueueWatermarks low (d_watermarkHigh q) in
  with_watermarks low high q.

Definition setHighWatermark (high : Z) (q : t) : t :=
  let '(low, high) :=
    WatermarkUtil.sanitizeOutgoingQueueWatermarks (d_watermarkLow q) high in
  with_watermarks low high q.

Definition isLowWatermarkSatisfied (q : t) : bool :=
  WatermarkUtil.isOutgoingQueueLowWatermarkSatisfied (d_size q) (d_watermarkLow q).

Definition isHighWatermarkViolated (effectiveHighWatermark : Z) (q : t) : bool :=
  WatermarkUtil.isOutgoingQueueHighWatermarkViolated (d_size q) effectiveHighWatermark.

Definition authorizeLowWatermarkEvent (q : t) : t * bool :=
  if isLowWatermarkSatisfied q then
    if d_watermarkLowWanted q then (with_wanted false true q, true) else (q, false)
  else (q, false).

(** The overload without an argument passes the queue's own watermark. *)
Definition authorizeHighWatermarkEvent_effective (effectiveHighWatermark : Z) (q : t)
  : t * bool :=
  if isHighWatermarkViolated effectiveHighWatermark q then
    if d_watermarkHighWanted q then (with_wanted true false q, true) else (q, false)
  else (q, false).

Definition authorizeHighWatermarkEvent (q : t) : t * bool :=
  authorizeHighWatermarkEvent_effective (d_watermarkHigh q) q.

(** *** Batching *)
Section Batch.
Context (maxBuffersPerSend : Z).

Fixpoint batch_loop (result : BufferArray.t) (l : list Entry) (options : SendOptions)
  : option BufferArray.t :=
  match l with
  | [] => Some result
  | entry :: rest =>
      '(result, more) ← SendQueueEntry.batchNext maxBuffersPerSend result entry options;
      if more : bool then batch_loop result rest options else Some result
  end.

(** The batch and whether batching is possible. *)
Definition batchNext (options : SendOptions) (q : t) : option (BufferArray.t * bool) :=
  let result := BufferArray.empty in
  if size (d_entryList q) <? 2 then Some (result, false) else
  let effectiveOptions :=
    if d_maxBuffers options =? 0
    then mkSendOptions (d_maxBytes options) maxBuffersPerSend else options in
  result ← batch_loop result (d_entryList q) effectiveOptions;
  if BufferArray.numBuffers result =? 0 then Some (result, false)
  else Some (result, true).
End Batch.

(** *** The invariant *)

Definition entry_ok (e : Entry) : Prop :=
  match d_data e with
  | Some d => 0 < d_length e /\ Data.size_of d = Some (d_length e)
  | None => True
  end.

Definition entry_size (e : Entry) : Z :=
  match d_data e with Some _ => d_length e | None => 0 end.

Definition entry_bytes (e : Entry) : list byte :=
  match d_data e with Some d => Data.bytes d | None => [] end.

(** The bytes the queue has still to write, in order. *)
Definition stream (q : t) : list byte := concat (map entry_bytes (d_entryList q)).

Record wf (q : t) : Prop := {
  wf_entries : Forall entry_ok (d_entryList q);
  wf_size : d_size q = sum_with entry_size (d_entryList q);
  wf_bound : d_size q < 2 ^ 64;
  wf_watermarks : WatermarkUtil.outgoing_ok (d_watermarkLow q) (d_watermarkHigh q);
  wf_wanted : d_watermarkLowWanted q = negb (d_watermarkHighWanted q)
}.

Lemma entry_size_nonneg e : entry_ok e -> 0 <= entry_size e.
Proof. unfold entry_ok, entry_size. destruct (d_data e); lia. Qed.

Lemma entries_size_nonneg l : Forall entry_ok l -> 0 <= sum_with entry_size l.
Proof.
  intros Hl. apply sum_with_nonneg. revert Hl. apply Forall_impl, entry_size_nonneg.
Qed.

Lemma closeTimer_fields (e : Entry) :
  let e' := (closeTimer e).1 in
  d_data e' = d_data e /\ d_length e' = d_length e /\ d_timer e' = None /\
  d_callback e' = d_callback e /\ d_context e' = d_context e /\ d_id e' = d_id e.
Proof. unfold closeTimer. destruct (d_timer e) eqn:?; simpl; by split_and!. Qed.

Lemma release_ok e total :
  entry_ok e -> entry_size e <= total ->
  release e total = Some (total - entry_size e).
Proof.
  unfold entry_ok, release, entry_size. destruct (d_data e) as [d|]; intros He Ht.
  - destruct He as [Hpos ->]. rewrite (proj2 (Z.gtb_lt _ _)) by lia. simpl.
    by rewrite Z.eqb_refl, (proj2 (Z.geb_le _ _)) by lia.
  - by rewrite Z.sub_0_r.
Qed.

Lemma release_closeTimer (e : Entry) total : release (closeTimer e).1 total = release e total.
Proof. unfold release, closeTimer. by destruct (d_timer e). Qed.

Lemma with_entries_wf q l :
  wf q -> Forall entry_ok l -> sum_with entry_size l < 2 ^ 64 ->
  wf (with_entries l (sum_with entry_size l) q).
Proof. intros [] ? ?. by constructor. Qed.

Lemma find_split_Some p l before e after :
  find_split p l = Some (before, e, after) ->
  l = before ++ e :: after /\ p e = true /\ Forall (fun x => p x = false) before.
Proof.
  revert before. induction l as [|x l IH]; intros before; simpl; [done|].
  destruct (p x) eqn:Hx; [by intros [= <- <- <-]|].
  intros ([[b f] a] & Hs & [= <- <- <-])%bind_Some.
  apply IH in Hs as (-> & ? & ?). auto.
Qed.

Lemma find_split_None p l :
  find_split p l = None <-> Forall (fun x => p x = false) l.
Proof.
  induction l as [|x l IH]; simpl; [by split|]. rewrite Forall_cons_iff.
  destruct (p x); [by split; [|intros []]|]. rewrite <- IH.
  destruct (find_split p l) as [[[b f] a]|]; simpl; [|by split].
  split; [done|by intros []].
Qed.

(** *** The operations preserve it *)

Lemma init_wf low high : 0 <= low -> 0 <= high -> wf (init low high).
Proof.
  intros Hl Hh. unfold init.
  pose proof (WatermarkUtil.sanitizeOutgoing_ok low high Hl Hh) as Hok.
  destruct (WatermarkUtil.sanitizeOutgoingQueueWatermarks low high). by constructor.
Qed.

Lemma pushEntry_wf q e :
  wf q -> entry_ok e -> d_size q + entry_size e < 2 ^ 64 ->
  exists q', pushEntry e q = Some (q', negb (hasEntry q)) /\ wf q' /\
    d_entryList q' = d_entryList q ++ [e] /\ d_size q' = d_size q + entry_size e.
Proof.
  intros Hq He Hroom. set (l := d_entryList q ++ [e]).
  assert (Hone : (size l =? 1) = negb (hasEntry q)).
  { unfold l, hasEntry. destruct (d_entryList q) as [|? k]; [done|].
    apply Z.eqb_neq. szlia. }
  assert (Hsum : sum_with entry_size l = d_size q + entry_size e).
  { unfold l. rewrite (wf_size _ Hq). autorewrite with ntf. lia. }
  exists (with_entries l (sum_with entry_size l) q). rewrite Hsum.
  split_and!; [|rewrite <- Hsum; apply with_entries_wf; [done| |by rewrite Hsum]|done..].
  - unfold pushEntry. rewrite <- Hone. fold l.
    pose proof (wf_size _ Hq). pose proof (entries_size_nonneg _ (wf_entries _ Hq)).
    unfold entry_ok, entry_size in *. destruct (d_data e) as [d|].
    + destruct He as [Hpos ->]. rewrite (proj2 (Z.gtb_lt _ _)) by lia. simpl.
      rewrite Z.eqb_refl. simpl. by rewrite wrap_small by lia.
    + by rewrite Z.add_0_r.
  - apply Forall_app. split; [apply (wf_entries _ Hq)|]. by constructor.
Qed.

Lemma popEntry_wf q e rest :
  wf q -> d_entryList q = e :: rest ->
  exists q', popEntry q = Some (q', bool_decide (rest = []), option_list (d_timer e)) /\
    wf q' /\ d_entryList q' = rest /\ d_size q' = d_size q - entry_size e.
Proof.
  intros Hq Hl. pose proof (wf_entries _ Hq) as Hall. rewrite Hl in Hall.
  inversion_clear Hall as [|? ? He Hrest].
  pose proof (wf_size _ Hq) as Hs. rewrite Hl, sum_with_cons in Hs.
  pose proof (entries_size_nonneg _ Hrest). pose proof (wf_bound _ Hq).
  pose proof (entry_size_nonneg _ He).
  exists (with_entries rest (sum_with entry_size rest) q).
  split_and!; [|apply with_entries_wf; [done..|lia]|done|simpl; lia].
  unfold popEntry. rewrite Hl.
  pose proof (release_closeTimer e (d_size q)) as Hr.
  rewrite (release_ok e) in Hr by (done || lia).
  assert (Hc : (closeTimer e).2 = option_list (d_timer e))
    by (unfold closeTimer; by destruct (d_timer e)).
  destruct (closeTimer e) as [e' closed]. simpl in *. rewrite Hr, Hc. simpl.
  replace (d_size q - entry_size e) with (sum_with entry_size rest) by lia.
  by destruct rest.
Qed.

(** The effect of [popSize] on a front entry whose data pops exactly. *)
Definition popped (n : Z) (d : Data.t Blob) (e : Entry) : Entry :=
  setLength (d_length e - n) (setInProgress true (setData (Some d) (closeTimer e).1)).

(** What is needed of the data is that it loses what is popped. *)
Lemma popSize_exact q e rest d d' n :
  wf q -> d_entryList q = e :: rest -> d_data e = Some d -> 0 <= n < d_length e ->
  Data.pop d n = Some d' -> Data.size_of d' = Some (d_length e - n) ->
  exists q', popSize n q = Some (q', option_list (d_timer e)) /\ wf q' /\
    d_entryList q' = popped n d' e :: rest /\ d_size q' = d_size q - n.
Proof.
  intros Hq Hl Hd Hn Hpop Hlen'.
  pose proof (wf_entries _ Hq) as Hall. rewrite Hl in Hall.
  inversion_clear Hall as [|? ? He Hrest].
  unfold entry_ok in He. rewrite Hd in He. destruct He as [Hpos Hlen].
  pose proof (wf_size _ Hq) as Hs. rewrite Hl, sum_with_cons in Hs.
  unfold entry_size at 1 in Hs. rewrite Hd in Hs.
  pose proof (entries_size_nonneg _ Hrest). pose proof (wf_bound _ Hq).
  set (l := popped n d' e :: rest).
  assert (Hsum : sum_with entry_size l = d_size q - n).
  { unfold l, popped. rewrite sum_with_cons. unfold entry_size at 1. simpl. lia. }
  exists (with_entries l (d_size q - n) q).
  split_and!; [| |done|done].
  - unfold popSize. rewrite Hl.
    destruct (closeTimer_fields e) as (Hcd & Hcl & _).
    assert (Hcc : (closeTimer e).2 = option_list (d_timer e))
      by (unfold closeTimer; by destruct (d_timer e)).
    unfold l, popped. destruct (closeTimer e) as [e' closed]. simpl in *.
    rewrite Hcd, Hcl, Hcc, Hd. simpl. rewrite Hlen. simpl.
    rewrite Z.eqb_refl, Hpop. simpl.
    rewrite (proj2 (Z.geb_le _ _)) by lia. rewrite Hlen'. simpl.
    rewrite Z.eqb_refl, (proj2 (Z.geb_le _ _)) by lia. done.
  - rewrite <- Hsum. apply with_entries_wf; [done| |lia]. constructor; [|done].
    unfold entry_ok. simpl. destruct (closeTimer_fields e) as (? & ? & _).
    split; [lia|]. by rewrite Hlen'.
Qed.

(** What may be popped from a container: the bytes of one range of memory or
    of a blob; those of a file; those of the first buffers of an array up to
    the end of one of them, when the array owns its buffers only if the
    buffers before are empty. *)
Definition poppable (d : Data.t Blob) (n : Z) : Prop :=
  match d with
  | Data.e_CONST_BUFFER_ARRAY a | Data.e_MUTABLE_BUFFER_ARRAY a =>
      BufferArray.wf a /\ BufferArray.overrun n (BufferArray.d_bufferArray a) = 0
  | Data.e_CONST_BUFFER_PTR_ARRAY a | Data.e_MUTABLE_BUFFER_PTR_ARRAY a =>
      BufferPtrArray.d_numBuffers a <> 0 /\
      exists front rest, BufferPtrArray.view a = front :: rest /\ n <= size front
  | Data.e_FILE f => 0 <= d_fileBytesRemaining f < 2 ^ 63
  | _ => Data.contiguous d
  end.

Lemma array_pop_size a n :
  BufferArray.wf a -> 0 <= n < BufferArray.d_numBytes a ->
  exists a', BufferArray.ConstBufferArray_pop a n = Some a' /\
    (BufferArray.d_numBytes a' = BufferArray.d_numBytes a - n <->
       n = 0 \/ BufferArray.overrun n (BufferArray.d_bufferArray a) = 0).
Proof.
  intros Hwf Hn. destruct (decide (n = 0)) as [->|Hn0].
  - exists a. split; [|split; [by left|lia]].
    unfold BufferArray.ConstBufferArray_pop.
    rewrite Z.gtb_ltb, (proj2 (Z.ltb_ge _ _)) by lia.
    destruct a as [[] ?]; done.
  - destruct (BufferArray.array_pop_spec a n Hwf) as (a' & Hp & Hwf' & Hc); [lia|].
    exists a'. split; [done|].
    replace (if n >? _ then _ else n) with n in Hc
      by (destruct (Z.gtb_spec n (BufferArray.d_numBytes a)); lia).
    rewrite (proj2 (Z.gtb_lt n 0)) in Hc by lia.
    pose proof (BufferArray.overrun_nonneg n (BufferArray.d_bufferArray a)).
    unfold BufferArray.wf in *. rewrite Hc in Hwf'. unfold size in *.
    rewrite length_drop in Hwf'. lia.
Qed.

Lemma ptr_array_pop_size a n front rest :
  BufferPtrArray.d_numBuffers a <> 0 -> BufferPtrArray.view a = front :: rest ->
  0 <= n <= size front -> n < BufferPtrArray.d_numBytes a ->
  exists a', BufferPtrArray.ConstBufferPtrArray_pop a n = Some a' /\
    BufferPtrArray.d_numBytes a' = BufferPtrArray.d_numBytes a - n.
Proof.
  intros Hm Hv Hn Hlt. unfold BufferPtrArray.ConstBufferPtrArray_pop. rewrite Hv.
  rewrite Z.gtb_ltb, (proj2 (Z.ltb_ge _ n)) by lia. simpl.
  destruct (Z.gtb_spec n 0); [|eexists; split; [done|simpl; lia]].
  rewrite (proj2 (Z.eqb_neq _ _)) by done.
  rewrite Z.gtb_ltb, (proj2 (Z.ltb_ge _ n)) by lia.
  rewrite (proj2 (Z.geb_le _ _)) by lia. by eexists.
Qed.

(** The two kinds of arrays of mutable buffers pop like those of constant
    ones. *)
Ltac fold_mutable_pop :=
  change BufferArray.MutableBufferArray_pop with BufferArray.ConstBufferArray_pop ||
  change BufferPtrArray.MutableBufferPtrArray_pop
    with BufferPtrArray.ConstBufferPtrArray_pop.

(** Such data loses what is popped. *)
Lemma pop_poppable `{!BlobLaws Blob} d n len :
  Data.size_of d = Some len -> 0 <= n < len -> poppable d n ->
  exists d', Data.pop d n = Some d' /\ Data.size_of d' = Some (len - n).
Proof.
  intros Hlen Hn Hp.
  assert (Hcont : Data.contiguous d ->
    exists d', Data.pop d n = Some d' /\ Data.size_of d' = Some (len - n)).
  { intros Hc. destruct (Data.pop_contiguous d n Hc) as (d' & Hpop & Hc' & Hb); [lia|].
    exists d'. split; [done|]. rewrite Data.size_of_contiguous in * by done.
    injection Hlen as Hlen. rewrite Hb, size_drop by lia. by rewrite Hlen. }
  destruct d; simpl in Hp; try (by apply Hcont); simpl in Hlen; injection Hlen as Hlen.
  all: try (destruct Hp as [Hwf Ho];
    destruct (array_pop_size a n Hwf) as (a' & Hpop & Hs); [lia|];
    eexists; split; [unfold Data.pop; try fold_mutable_pop; by rewrite Hpop|];
    cbn; f_equal; rewrite (proj2 Hs); [lia|auto]).
  all: try (destruct Hp as (Hm & front & rest & Hv & Hf);
    destruct (ptr_array_pop_size a n front rest Hm Hv) as (a' & Hpop & Hs); [lia..|];
    eexists; split; [unfold Data.pop; try fold_mutable_pop; by rewrite Hpop|];
    cbn; f_equal; lia).
  eexists. split; [reflexivity|]. cbn. unfold Data.popFile. cbn.
  rewrite wrap_small in Hlen by lia. rewrite swrap_small by lia.
  rewrite Z.gtb_ltb, (proj2 (Z.ltb_ge _ n)) by lia.
  rewrite wrap_small by lia. by rewrite Hlen.
Qed.

(** And an array that owns its buffers fails the assertion otherwise. *)
Lemma popSize_array_iff q e rest d a n :
  d_entryList q = e :: rest -> wf q -> d_data e = Some d ->
  d = Data.e_CONST_BUFFER_ARRAY a \/ d = Data.e_MUTABLE_BUFFER_ARRAY a ->
  BufferArray.wf a -> 0 < n < d_length e ->
  is_Some (popSize n q) <-> BufferArray.overrun n (BufferArray.d_bufferArray a) = 0.
Proof.
  intros Hl Hq Hd Ha Hwf Hn.
  pose proof (wf_entries _ Hq) as Hall. rewrite Hl in Hall.
  inversion_clear Hall as [|? ? He _]. unfold entry_ok in He. rewrite Hd in He.
  destruct He as [_ Hlen].
  assert (Hb : BufferArray.d_numBytes a = d_length e)
    by (destruct Ha as [-> | ->]; by injection Hlen).
  destruct (array_pop_size a n Hwf) as (a' & Hpop & Hs); [lia|].
  assert (Hpop' : exists d', Data.pop d n = Some d' /\
    Data.size_of d' = Some (BufferArray.d_numBytes a')).
  { destruct Ha as [-> | ->]; (eexists; split;
      [unfold Data.pop; try fold_mutable_pop; by rewrite Hpop|done]). }
  destruct Hpop' as (d' & Hpop' & Hsize). split.
  - intros [r Hr]. unfold popSize in Hr. rewrite Hl in Hr.
    destruct (closeTimer_fields e) as (Hcd & Hcl & _).
    destruct (closeTimer e) as [e' closed]. cbn in *. rewrite Hcd, Hcl, Hd in Hr. cbn in Hr.
    rewrite Hlen in Hr. cbn in Hr. rewrite Z.eqb_refl, Hpop' in Hr. cbn in Hr.
    rewrite (proj2 (Z.geb_le _ _)) in Hr by lia. rewrite Hsize in Hr. cbn in Hr.
    destruct (Z.eqb_spec (BufferArray.d_numBytes a') (d_length e - n)) as [E|]; [|done].
    destruct (proj1 Hs) as [|]; [lia|lia|done].
  - intros Ho. rewrite (proj2 Hs) in Hsize by auto.
    destruct (popSize_exact q e rest d d' n Hq Hl Hd) as (q' & -> & _); [lia|done| |eauto].
    by rewrite Hsize, Hb.
Qed.

Lemma popSize_ok `{!BlobLaws Blob} q e rest d n :
  wf q -> d_entryList q = e :: rest -> d_data e = Some d -> Data.contiguous d ->
  0 <= n < d_length e ->
  exists q' d',
    popSize n q = Some (q', option_list (d_timer e)) /\ wf q' /\
    d_entryList q' = popped n d' e :: rest /\ d_size q' = d_size q - n /\
    Data.contiguous d' /\ Data.bytes d' = drop (Z.to_nat n) (Data.bytes d).
Proof.
  intros Hq Hl Hd Hc Hn.
  pose proof (wf_entries _ Hq) as Hall. rewrite Hl in Hall.
  inversion_clear Hall as [|? ? He Hrest].
  unfold entry_ok in He. rewrite Hd in He. destruct He as [Hpos Hlen].
  destruct (Data.pop_contiguous d n Hc) as (d' & Hpop & Hc' & Hb); [lia|].
  assert (Hlen' : Data.size_of d' = Some (d_length e - n)).
  { rewrite Data.size_of_contiguous in * by done. injection Hlen as Hlen.
    rewrite Hb, size_drop by lia. by rewrite Hlen. }
  destruct (popSize_exact q e rest d d' n Hq Hl Hd Hn Hpop Hlen') as (q' & ? & ? & ? & ?).
  by exists q', d'.
Qed.

Lemma erase_ok q before e after :
  wf q -> d_entryList q = before ++ e :: after ->
  exists q', erase before e after q = Some (q', option_list (d_timer e)) /\ wf q' /\
    d_entryList q' = before ++ after /\ d_size q' = d_size q - entry_size e.
Proof.
  intros Hq Hl. pose proof (wf_entries _ Hq) as Hall. rewrite Hl in Hall.
  apply Forall_app in Hall as [Hb Ha]. inversion_clear Ha as [|? ? He Ha'].
  pose proof (wf_size _ Hq) as Hs. rewrite Hl in Hs. autorewrite with ntf in Hs.
  pose proof (entries_size_nonneg _ Hb). pose proof (entries_size_nonneg _ Ha').
  assert (Hsum : sum_with entry_size (before ++ after) = d_size q - entry_size e)
    by (autorewrite with ntf; lia).
  pose proof (wf_bound _ Hq). pose proof (entry_size_nonneg _ He).
  exists (with_entries (before ++ after) (d_size q - entry_size e) q).
  split_and!; [| |done|done].
  - unfold erase. rewrite release_ok by (done || lia). simpl.
    unfold closeTimer. by destruct (d_timer e).
  - rewrite <- Hsum. apply with_entries_wf; [done|by apply Forall_app|lia].
Qed.

(** What [removeAll] hands back: the entries with a callback, without their
    timers, and all the timers. *)
Lemma removeAll_loop_spec result l :
  removeAll_loop result l =
    (result ++ filter (fun e => is_Some (d_callback e)) (map (fun e => (closeTimer e).1) l),
     concat (map (fun e => option_list (d_timer e)) l)).
Proof.
  revert result. induction l as [|e l IH]; intros result; simpl;
    [by rewrite app_nil_r|].
  assert (Hcc : (closeTimer e).2 = option_list (d_timer e))
    by (unfold closeTimer; by destruct (d_timer e)).
  rewrite filter_cons. destruct (closeTimer e) as [e' closed]. simpl in *.
  rewrite IH, Hcc. case_decide as Hd; destruct (d_callback e'); simplify_eq/=.
  - by rewrite <- app_assoc.
  - by destruct Hd.
  - destruct Hd. eauto.
  - done.
Qed.

Lemma removeAll_wf q result :
  wf q -> wf (removeAll result q).1.1.1 /\
          d_entryList (removeAll result q).1.1.1 = [] /\
          d_size (removeAll result q).1.1.1 = 0.
Proof.
  intros Hq. unfold removeAll. destruct (removeAll_loop result _). simpl.
  split_and!; [|done|done]. by apply (with_entries_wf q []).
Qed.

(** *** The operations as a transition system *)

Inductive op : Type :=
| op_pushEntry (e : Entry)
| op_popEntry
| op_popSize (n : Z)
| op_removeEntryId (id : Z)
| op_removeEntryToken (tok : Z)
| op_removeAll
| op_setLowWatermark (low : Z)
| op_setHighWatermark (high : Z)
| op_authorizeLowWatermarkEvent
| op_authorizeHighWatermarkEvent
| op_authorizeHighWatermarkEvent_effective (high : Z).

(** What the callers of an operation guarantee. *)
Definition enabled (q : t) (o : op) : Prop :=
  match o with
  | op_pushEntry e => entry_ok e /\ d_size q + entry_size e < 2 ^ 64
  | op_popEntry => d_entryList q <> []
  | op_popSize n =>
      exists e rest d, d_entryList q = e :: rest /\ d_data e = Some d /\
        0 <= n < d_length e /\ poppable d n
  | op_setLowWatermark w | op_setHighWatermark w => 0 <= w
  | _ => True
  end.

Definition announce (e : WatermarkEvent) (r : t * bool) : t * list WatermarkEvent :=
  (r.1, if r.2 then [e] else []).

Definition exec (o : op) (q : t) : option (t * list WatermarkEvent) :=
  match o with
  | op_pushEntry e => r ← pushEntry e q; Some (r.1, [])
  | op_popEntry => r ← popEntry q; Some (r.1.1, [])
  | op_popSize n => r ← popSize n q; Some (r.1, [])
  | op_removeEntryId id => r ← removeEntryId id q; Some (r.1.1.1.1, [])
  | op_removeEntryToken tok =>
      r ← removeEntryToken SendContext_default tok q; Some (r.1.1.1.1, [])
  | op_removeAll => Some ((removeAll [] q).1.1.1, [])
  | op_setLowWatermark w => Some (setLowWatermark w q, [])
  | op_setHighWatermark w => Some (setHighWatermark w q, [])
  | op_authorizeLowWatermarkEvent =>
      Some (announce e_LOW_WATERMARK (authorizeLowWatermarkEvent q))
  | op_authorizeHighWatermarkEvent =>
      Some (announce e_HIGH_WATERMARK (authorizeHighWatermarkEvent q))
  | op_authorizeHighWatermarkEvent_effective w =>
      Some (announce e_HIGH_WATERMARK (authorizeHighWatermarkEvent_effective w q))
  end.

(** A run of operations and the watermark events it announces. *)
Inductive runs : t -> list WatermarkEvent -> t -> Prop :=
| runs_refl q : runs q [] q
| runs_step q o q1 ev q2 evs :
    exec o q = Some (q1, ev) -> runs q1 evs q2 -> runs q (ev ++ evs) q2.

Lemma with_watermarks_wf q low high :
  wf q -> WatermarkUtil.outgoing_ok low high -> wf (with_watermarks low high q).
Proof. intros [] ?. by constructor. Qed.

Lemma setWatermark_wf q low high :
  wf q -> 0 <= low -> 0 <= high ->
  wf (let '(l, h) := WatermarkUtil.sanitizeOutgoingQueueWatermarks low high in
      with_watermarks l h q).
Proof.
  intros Hq Hl Hh.
  pose proof (WatermarkUtil.sanitizeOutgoing_ok low high Hl Hh) as Hok.
  destruct (WatermarkUtil.sanitizeOutgoingQueueWatermarks low high).
  by apply with_watermarks_wf.
Qed.

Lemma with_wanted_wf q b : wf q -> wf (with_wanted (negb b) b q).
Proof. intros []. by constructor. Qed.

Lemma authorizeHigh_wf q w :
  wf q -> wf (authorizeHighWatermarkEvent_effective w q).1.
Proof.
  intros Hq. unfold authorizeHighWatermarkEvent_effective.
  repeat case_match; try done. by apply (with_wanted_wf q false).
Qed.

Lemma authorizeLow_wf q : wf q -> wf (authorizeLowWatermarkEvent q).1.
Proof.
  intros Hq. unfold authorizeLowWatermarkEvent.
  repeat case_match; try done. by apply (with_wanted_wf q true).
Qed.

Lemma removeEntryId_wf q id :
  wf q -> exists r, removeEntryId id q = Some r /\ wf r.1.1.1.1.
Proof.
  intros Hq. unfold removeEntryId.
  destruct (find_split _ _) as [[[b e] a]|] eqn:Hs; [|eauto].
  apply find_split_Some in Hs as (Hl & _ & _).
  case_match; [|eauto].
  destruct (erase_ok q b e a Hq Hl) as (q' & -> & ? & _). simpl. eauto.
Qed.

(** Either removal takes out the first entry it looks for, when it is one it
    may take, or does nothing. *)
Definition removal (q : t) (sought allowed : Entry -> bool)
  (r : t * option SendCallback * SendContext * list Timer * bool) : Prop :=
  let '(q', callback, _, _, becameEmpty) := r in
  becameEmpty = negb (hasEntry q') /\
  match find_split sought (d_entryList q) with
  | Some (before, e, after) =>
      if allowed e
      then wf q' /\ d_entryList q' = before ++ after /\ callback = d_callback e
      else q' = q /\ callback = None
  | None => q' = q /\ callback = None
  end.

Definition has_id (id : Z) (e : Entry) : bool := d_id e =? id.
Definition has_token (tok : Z) (e : Entry) : bool := bool_decide (token e = Some tok).
Definition not_started (e : Entry) : bool := negb (d_inProgress e).
Definition expirable (e : Entry) : bool :=
  bool_decide (is_Some (d_deadline e)) && not_started e.

Lemma removeEntryId_removal q id :
  wf q -> exists r, removeEntryId id q = Some r /\ removal q (has_id id) expirable r.
Proof.
  intros Hq. unfold removeEntryId, removal. change (fun e => d_id e =? id) with (has_id id).
  destruct (find_split _ _) as [[[b e] a]|] eqn:Hs;
    [|by exists (q, None, SendContext_default, [], negb (hasEntry q))].
  apply find_split_Some in Hs as (Hl & _ & _). fold (not_started e) (expirable e).
  destruct (expirable e); [|by exists (q, None, SendContext_default, [], negb (hasEntry q))].
  destruct (erase_ok q b e a Hq Hl) as (q' & -> & ? & ? & _). simpl.
  by refine (ex_intro _ _ (conj eq_refl _)).
Qed.

Lemma removeEntryToken_removal q c tok :
  wf q -> exists r, removeEntryToken c tok q = Some r /\ removal q (has_token tok) not_started r.
Proof.
  intros Hq. unfold removeEntryToken, removal.
  change (fun e => bool_decide (token e = Some tok)) with (has_token tok).
  destruct (find_split _ _) as [[[b e] a]|] eqn:Hs;
    [|by exists (q, None, c, [], negb (hasEntry q))].
  apply find_split_Some in Hs as (Hl & _ & _). fold (not_started e).
  destruct (not_started e); [|by exists (q, None, c, [], negb (hasEntry q))].
  destruct (erase_ok q b e a Hq Hl) as (q' & -> & ? & ? & _). simpl.
  by refine (ex_intro _ _ (conj eq_refl _)).
Qed.

Lemma removeEntryToken_wf q c tok :
  wf q -> exists r, removeEntryToken c tok q = Some r /\ wf r.1.1.1.1.
Proof.
  intros Hq. unfold removeEntryToken.
  destruct (find_split _ _) as [[[b e] a]|] eqn:Hs; [|eauto].
  apply find_split_Some in Hs as (Hl & _ & _).
  case_match; [|eauto].
  destruct (erase_ok q b e a Hq Hl) as (q' & -> & ? & _). simpl. eauto.
Qed.

(** Whatever the operation, it fails no assertion and keeps the invariant. *)
Lemma exec_wf `{!BlobLaws Blob} q o :
  wf q -> enabled q o -> exists q' ev, exec o q = Some (q', ev) /\ wf q'.
Proof.
  intros Hq Ho. pose proof (wf_watermarks _ Hq) as Hw.
  unfold WatermarkUtil.outgoing_ok in Hw.
  destruct o; simpl in *.
  - destruct (pushEntry_wf q e Hq (proj1 Ho) (proj2 Ho)) as (q' & -> & ? & _). simpl. eauto.
  - destruct (d_entryList q) as [|e rest] eqn:Hl; [done|].
    destruct (popEntry_wf q e rest Hq Hl) as (q' & -> & ? & _). simpl. eauto.
  - destruct Ho as (e & rest & d & Hl & Hd & Hn & Hp).
    pose proof (wf_entries _ Hq) as Hall. rewrite Hl in Hall.
    inversion_clear Hall as [|? ? He _]. unfold entry_ok in He. rewrite Hd in He.
    destruct (pop_poppable d n (d_length e)) as (d' & Hpop & Hs); [apply He|done..|].
    destruct (popSize_exact q e rest d d' n Hq Hl Hd Hn Hpop Hs) as (q' & -> & ? & _).
    simpl. eauto.
  - destruct (removeEntryId_wf q id Hq) as (r & -> & ?). simpl. eauto.
  - destruct (removeEntryToken_wf q SendContext_default tok Hq) as (r & -> & ?).
    simpl. eauto.
  - do 2 eexists. split; [done|]. by apply removeAll_wf.
  - do 2 eexists. split; [done|]. by apply setWatermark_wf; [|lia|lia].
  - do 2 eexists. split; [done|]. by apply setWatermark_wf; [|lia|lia].
  - do 2 eexists. split; [done|]. by apply authorizeLow_wf.
  - do 2 eexists. split; [done|]. by apply authorizeHigh_wf.
  - do 2 eexists. split; [done|]. by apply authorizeHigh_wf.
Qed.

(** *** Watermark events *)

(** The two flags of a queue are opposite, whatever its contents. *)
Definition flags_ok (q : t) : Prop :=
  d_watermarkLowWanted q = negb (d_watermarkHighWanted q).

(** Only the authorizations touch the flags. *)
Definition same_flags (q q' : t) : Prop :=
  d_watermarkLowWanted q' = d_watermarkLowWanted q /\
  d_watermarkHighWanted q' = d_watermarkHighWanted q.

Lemma exec_quiet q o q' ev :
  exec o q = Some (q', ev) ->
  match o with
  | op_authorizeLowWatermarkEvent | op_authorizeHighWatermarkEvent
  | op_authorizeHighWatermarkEvent_effective _ => True
  | _ => ev = [] /\ same_flags q q'
  end.
Proof.
  intros He. destruct o; try done; simpl in He.
  - apply bind_Some in He as (r & Hr & [= <- <-]). unfold pushEntry in Hr.
    by inv_option Hr.
  - apply bind_Some in He as (r & Hr & [= <- <-]). unfold popEntry in Hr.
    by inv_option Hr.
  - apply bind_Some in He as (r & Hr & [= <- <-]). unfold popSize in Hr.
    by inv_option Hr.
  - apply bind_Some in He as (r & Hr & [= <- <-]). unfold removeEntryId, erase in Hr.
    by inv_option Hr; inv_options.
  - apply bind_Some in He as (r & Hr & [= <- <-]).
    unfold removeEntryToken, erase in Hr. by inv_option Hr; inv_options.
  - unfold removeAll in He. case_match; by simplify_eq/=.
  - unfold setLowWatermark in He. case_match; by simplify_eq/=.
  - unfold setHighWatermark in He. case_match; by simplify_eq/=.
Qed.

(** Every operation announces at most the event that is wanted, and then
    wants the other one. *)
Lemma exec_event q o q' ev :
  flags_ok q -> exec o q = Some (q', ev) ->
  flags_ok q' /\ alternating (d_watermarkHighWanted q) ev = true /\
  d_watermarkHighWanted q' = next_flag (d_watermarkHighWanted q) ev.
Proof.
  unfold flags_ok. intros Hf He. pose proof (exec_quiet _ _ _ _ He) as Hq.
  assert (Hno : ev = [] -> same_flags q q' ->
    d_watermarkLowWanted q' = negb (d_watermarkHighWanted q') /\
    alternating (d_watermarkHighWanted q) ev = true /\
    d_watermarkHighWanted q' = next_flag (d_watermarkHighWanted q) ev).
  { intros -> [-> ->]. unfold next_flag. simpl. by rewrite orb_false_r. }
  destruct o; try (destruct Hq; auto); simpl in He; unfold announce,
    authorizeLowWatermarkEvent, authorizeHighWatermarkEvent,
    authorizeHighWatermarkEvent_effective in He;
    repeat case_match; simplify_eq/=; unfold next_flag; simpl;
    match goal with
    | H : context [d_watermarkHighWanted ?x] |- _ =>
        destruct (d_watermarkHighWanted x)
    end; simplify_eq/=; done.
Qed.

Lemma runs_alternate q evs q' :
  flags_ok q -> runs q evs q' -> alternating (d_watermarkHighWanted q) evs = true.
Proof.
  intros Hf Hr. induction Hr as [|q o q1 ev q2 evs He _ IH]; [done|].
  destruct (exec_event _ _ _ _ Hf He) as (Hf' & Ha & Hn).
  apply alternating_app; [done|]. rewrite <- Hn. auto.
Qed.

(** *** The batch is a prefix of the stream *)

(** The leading entries whose data may be gathered. *)
Fixpoint batchable_prefix (l : list Entry) : list Entry :=
  match l with
  | [] => []
  | e :: rest => if isBatchable e then e :: batchable_prefix rest else []
  end.

Definition entry_readable (e : Entry) : Prop :=
  match d_data e with
  | Some d => readable d /\ d <> Data.e_UNDEFINED
  | None => True
  end.

Definition entry_segments (e : Entry) : list (list byte) :=
  match d_data e with Some d => Data.segments d | None => [] end.

Lemma batchable_prefix_stream q :
  concat (map entry_bytes (batchable_prefix (d_entryList q))) `prefix_of` stream q.
Proof.
  unfold stream. induction (d_entryList q) as [|e l IH]; simpl; [done|].
  case_match; [by apply prefix_app|apply prefix_nil].
Qed.

Lemma concat_entry_segments (l : list Entry) :
  concat (concat (map entry_segments l)) = concat (map entry_bytes l).
Proof.
  induction l as [|e l IH]; [done|]. simpl. rewrite concat_app, IH. f_equal.
  unfold entry_segments, entry_bytes. by destruct (d_data e).
Qed.

Lemma batchNext_unbatchable m result (e : Entry) options :
  isBatchable e = false ->
  SendQueueEntry.batchNext m result e options = Some (result, false).
Proof. unfold SendQueueEntry.batchNext. by intros ->. Qed.

Lemma batch_loop_spec m l result options :
  Forall entry_readable l -> BufferArray.wf result -> within_limits m options result ->
  exists result' k,
    batch_loop m result l options = Some result' /\
    result' = BufferArray.append_list result
                (take k (concat (map entry_segments (batchable_prefix l)))) /\
    BufferArray.wf result' /\ within_limits m options result'.
Proof.
  intros Hl. revert result.
  induction Hl as [|e l He _ IH]; intros result Hwf Hlim; [by exists result, 0%nat|].
  cbn [batch_loop batchable_prefix].
  destruct (isBatchable e) eqn:Hb; cycle 1.
  { rewrite batchNext_unbatchable by done. by exists result, 0%nat. }
  destruct (d_data e) as [d|] eqn:Hd; [|unfold isBatchable in Hb; by rewrite Hd in Hb].
  unfold entry_readable in He. rewrite Hd in He. destruct He as [Hr Hu].
  rewrite (batchNext_segments m result e options d) by done.
  destruct (batchNext_array_spec m (Data.segments d) result options Hwf Hlim) as [k Hk].
  cbn [mbind option_bind].
  destruct (batchNext_constBufferArray _ _ _ _) as [r more].
  destruct Hk as (-> & Hwf' & Hlim' & Hmore).
  cbn [map concat]. unfold entry_segments at 1. rewrite Hd. destruct more.
  - rewrite (Hmore eq_refl) in *.
    destruct (IH _ Hwf' Hlim') as (r' & k' & -> & -> & ? & ?).
    eexists _, (length (Data.segments d) + k')%nat. split_and!; [done| |done..].
    rewrite take_app_add. by rewrite BufferArray.append_list_app.
  - destruct (decide (k <= length (Data.segments d))%nat).
    + eexists _, k. split_and!; [done| |done..]. by rewrite take_app_le.
    + eexists _, (length (Data.segments d)). split_and!; [done| |done..].
      rewrite take_app_length. rewrite (take_ge _ k); [done|]. by apply Nat.lt_le_incl, Nat.nle_gt.
Qed.

Lemma batchNext_spec maxBuffersPerSend options q :
  Forall entry_readable (d_entryList q) ->
  exists a,
    batchNext maxBuffersPerSend options q
      = Some (a, negb (BufferArray.numBuffers a =? 0)) /\
    BufferArray.wf a /\
    (exists k, BufferArray.d_bufferArray a
       = take k (concat (map entry_segments (batchable_prefix (d_entryList q))))) /\
    BufferArray.contents a `prefix_of`
      concat (map entry_bytes (batchable_prefix (d_entryList q))) /\
    within_limits maxBuffersPerSend options a.
Proof.
  intros Hall. unfold batchNext.
  assert (Hwf0 : BufferArray.wf BufferArray.empty) by done.
  assert (Hlim0 : forall o, within_limits maxBuffersPerSend o BufferArray.empty).
  { split; [intros ?; change (0 <= effectiveMaxBuffers maxBuffersPerSend o); lia|].
    by intros _ [] ?. }
  destruct (size _ <? 2).
  { exists BufferArray.empty. split_and!; auto using prefix_nil. by exists 0%nat. }
  set (o := if d_maxBuffers options =? 0 then _ else options).
  assert (Ho : effectiveMaxBuffers maxBuffersPerSend o =
               effectiveMaxBuffers maxBuffersPerSend options /\
               d_maxBytes o = d_maxBytes options).
  { unfold o, effectiveMaxBuffers. destruct (d_maxBuffers options =? 0) eqn:E; simpl;
      [by destruct (maxBuffersPerSend =? 0)|by rewrite E]. }
  destruct (batch_loop_spec maxBuffersPerSend _ _ o Hall Hwf0 (Hlim0 o))
    as (a & k & -> & Ha & Hwf & Hlim).
  exists a. split_and!; [|done| | |].
  - cbn [mbind option_bind]. by destruct (BufferArray.numBuffers a =? 0).
  - exists k. by rewrite Ha, BufferArray.append_list_buffers.
  - rewrite Ha, BufferArray.append_list_contents, <- concat_entry_segments. simpl.
    rewrite <- (take_drop k (concat (map entry_segments _))) at 2.
    rewrite concat_app. by apply prefix_app_r.
  - unfold within_limits in *. destruct Ho as [<- <-]. done.
Qed.

(** *** Properties *)

(** The states a queue reaches from its construction when its callers keep
    the preconditions of its operations. *)
Inductive reachable (defaultLow defaultHigh : Z) : t -> Prop :=
| reachable_init : reachable defaultLow defaultHigh (init defaultLow defaultHigh)
| reachable_step q o q' ev :
    reachable defaultLow defaultHigh q -> enabled q o ->
    exec o q = Some (q', ev) -> reachable defaultLow defaultHigh q'.

(** C15: when the callers push entries whose length is the size of their
    data and that together stay below [2 ^ 64] bytes, take from a queue that
    is not empty, and pop less than the front entry from data that loses
    exactly what is popped, no operation of the send queue fails an
    assertion, and in every state it reaches the cached size has not wrapped
    and is the sum of the lengths of the entries that have data, each entry's
    length is the size of its data, the low watermark is under the high one,
    and one of the two watermark events is wanted.  On an array that owns its
    buffers the condition is sharp: popping past a non-empty buffer of it
    fails an assertion, and popping within the first one does not. *)
Theorem send_queue_safe `{!BlobLaws Blob} low high q o :
  0 <= low -> 0 <= high -> reachable low high q -> enabled q o ->
  wf q /\ (exists q' ev, exec o q = Some (q', ev) /\ wf q') /\
  (forall e rest d a n,
     d_entryList q = e :: rest -> d_data e = Some d ->
     d = Data.e_CONST_BUFFER_ARRAY a \/ d = Data.e_MUTABLE_BUFFER_ARRAY a ->
     BufferArray.wf a -> 0 < n < d_length e ->
     is_Some (exec (op_popSize n) q) <->
       BufferArray.overrun n (BufferArray.d_bufferArray a) = 0).
Proof.
  intros Hl Hh Hr Ho.
  assert (Hq : wf q).
  { clear Ho. induction Hr as [|q o' q' ev _ IH Ho He]; [by apply init_wf|].
    destruct (exec_wf q o' IH Ho) as (q1 & ev1 & He1 & ?). by simplify_eq. }
  split; [done|]. split; [by apply exec_wf|].
  intros e rest d a n Hq' Hd Ha Hwf Hn.
  rewrite <- (popSize_array_iff q e rest d a n Hq' Hq Hd Ha Hwf Hn). simpl.
  destruct (popSize n q); simpl; split; (by intros []) || eauto.
Qed.

(** Whatever the operations performed on a new send queue, the watermark
    events it authorizes alternate, starting with a high watermark event. *)
Theorem watermark_events_alternate low high evs q :
  runs (init low high) evs q -> alternating true evs = true.
Proof.
  intros Hr. unfold init in Hr.
  destruct (WatermarkUtil.sanitizeOutgoingQueueWatermarks low high) as [l h].
  by apply (runs_alternate (mk [] None 0 l false h true 1)) in Hr.
Qed.

(** Popping part of the front entry removes exactly that many bytes from
    the front of the stream of bytes to write, closes the entry's timer,
    leaves the other entries alone and marks the entry so that it can no
    longer be removed by its token or its identifier. *)
Theorem popSize_stream `{!BlobLaws Blob} q e rest d n :
  wf q -> d_entryList q = e :: rest -> d_data e = Some d -> Data.contiguous d ->
  0 <= n < d_length e ->
  exists q' e',
    popSize n q = Some (q', option_list (d_timer e)) /\ wf q' /\
    d_entryList q' = e' :: rest /\ d_inProgress e' = true /\ d_timer e' = None /\
    d_size q' = d_size q - n /\ stream q' = drop (Z.to_nat n) (stream q).
Proof.
  intros Hq Hl Hd Hc Hn.
  destruct (popSize_ok q e rest d n Hq Hl Hd Hc Hn)
    as (q' & d' & Hpop & Hq' & Hl' & Hs & _ & Hb).
  exists q', (popped n d' e). split_and!; try done; [by apply closeTimer_fields|].
  assert (Hlen : size (Data.bytes d) = d_length e).
  { pose proof (wf_entries _ Hq) as Hall. rewrite Hl in Hall.
    inversion_clear Hall as [|? ? He _]. unfold entry_ok in He. rewrite Hd in He.
    rewrite Data.size_of_contiguous in He by done. destruct He as [_ He].
    by injection He. }
  unfold stream. rewrite Hl, Hl'. simpl. unfold entry_bytes at 1 3.
  rewrite Hd. simpl. rewrite Hb, drop_app_size by lia. done.
Qed.

(** A batch is a prefix of the bytes to write, gathered from the leading
    batchable entries only; it holds at most the allowed number of buffers,
    no buffer is added once the byte limit is reached, and batching is
    reported possible exactly when the batch holds a buffer. *)
Theorem batchNext_prefix maxBuffersPerSend options q :
  Forall entry_readable (d_entryList q) ->
  exists a possible,
    batchNext maxBuffersPerSend options q = Some (a, possible) /\
    BufferArray.wf a /\
    BufferArray.contents a `prefix_of` stream q /\
    BufferArray.contents a `prefix_of`
      concat (map entry_bytes (batchable_prefix (d_entryList q))) /\
    within_limits maxBuffersPerSend options a /\
    (possible = true <-> BufferArray.d_bufferArray a <> []).
Proof.
  intros Hall. destruct (batchNext_spec maxBuffersPerSend options q Hall)
    as (a & Hn & Hwf & _ & Hpre & Hlim).
  exists a, (negb (BufferArray.numBuffers a =? 0)). split_and!; [done|done| |done|done|].
  - etrans; [exact Hpre|apply batchable_prefix_stream].
  - unfold BufferArray.numBuffers. destruct (BufferArray.d_bufferArray a); simpl; [done|].
    by split.
Qed.

(** Removing an entry by its token either takes out the first entry that
    has the token, when nothing of it was written yet, handing back its
    callback and context, closing its timer and giving up its size, or
    changes nothing: no entry has the token, or the first one that has it is
    in progress.  No assertion fails. *)
Theorem removeEntryToken_spec c tok q :
  wf q ->
  exists q' callback context closed,
    removeEntryToken c tok q = Some (q', callback, context, closed, negb (hasEntry q')) /\
    wf q' /\
    ((exists before e after,
        d_entryList q = before ++ e :: after /\ token e = Some tok /\
        Forall (fun x => token x <> Some tok) before /\ d_inProgress e = false /\
        d_entryList q' = before ++ after /\ d_size q' = d_size q - entry_size e /\
        callback = d_callback e /\ context = d_context e /\
        closed = option_list (d_timer e)) \/
     (q' = q /\ callback = None /\ context = c /\ closed = [] /\
      forall before e after,
        d_entryList q = before ++ e :: after -> token e = Some tok ->
        Forall (fun x => token x <> Some tok) before -> d_inProgress e = true)).
Proof.
  intros Hq. unfold removeEntryToken.
  set (p := fun e : Entry => bool_decide (token e = Some tok)).
  assert (Hp : forall l, Forall (fun x => p x = false) l <->
                         Forall (fun x => token x <> Some tok) l).
  { intros l. apply Forall_iff. intros x. apply bool_decide_eq_false. }
  destruct (find_split p (d_entryList q)) as [[[b e] a]|] eqn:Hs.
  - apply find_split_Some in Hs as (Hl & He & Hb).
    apply Hp in Hb. apply bool_decide_eq_true in He.
    destruct (d_inProgress e) eqn:Hi; simpl.
    + exists q, None, c, []. split_and!; [done..|]. right. split_and!; [done..|].
      intros b' e' a' Hl' He' Hb'. rewrite Hl in Hl'.
      by rewrite <- (first_match_unique (fun x => token x = Some tok) _ _ _ _ _ _ Hl').
    + destruct (erase_ok q b e a Hq Hl) as (q' & -> & Hq' & Hl' & Hs'). simpl.
      do 4 eexists. split_and!; [done..|]. left. exists b, e, a. by split_and!.
  - exists q, None, c, []. split_and!; [done..|]. right. split_and!; [done..|].
    intros b e a Hl He _. apply find_split_None in Hs. rewrite Hl in Hs.
    apply Forall_app in Hs as [_ Hs]. inversion_clear Hs as [|? ? Hn _].
    by apply bool_decide_eq_false in Hn.
Qed.

End Queue.
Arguments t Blob {T}.

(** *** Instances of the properties

    Blobs are lists of full buffers; timers and callbacks are numbers; the
    context of a send is its token. *)
Section Example.

#[local] Instance ExampleTypes : SendTypes := {
  Endpoint := unit; Timer := Z; SendContext := option Z;
  SendContext_token c := c; SendContext_default := None; SendCallback := Z
}.

#[local] Abbreviation Blob := (list (list byte)).
#[local] Abbreviation Entry := (SendQueueEntry.t Blob).

Definition entry_of (id : Z) (l : list byte) (timer : option Z) : Entry :=
  SendQueueEntry.mk id None (Some (Data.e_BLOB [l])) (size l) 0 (Some 5) None timer
    (Some id) (Some id) false false.

Definition queue_of (l : list Entry) : t Blob :=
  mk l None (sum_with entry_size l) 0 false 4 true 1.

Definition two : t Blob :=
  queue_of [entry_of 1 [x61; x62; x63] (Some 7); entry_of 2 [x64; x65] None].

Lemma two_wf : wf two.
Proof. by repeat constructor. Qed.

Lemma send_queue_safe_witness :
  reachable 0 4 (init 0 4 : t Blob) /\
  enabled (init 0 4 : t Blob) (op_pushEntry (entry_of 1 [x61; x62] None)) /\
  exists q' ev,
    exec (op_pushEntry (entry_of 1 [x61; x62] None)) (init 0 4 : t Blob)
      = Some (q', ev) /\ wf q'.
Proof.
  assert (Hr : reachable 0 4 (init 0 4 : t Blob)) by constructor.
  assert (He : enabled (init 0 4 : t Blob)
                       (op_pushEntry (entry_of 1 [x61; x62] None))) by done.
  split; [exact Hr|]. split; [exact He|].
  exact (proj1 (proj2 (send_queue_safe 0 4 _ _ ltac:(lia) ltac:(lia) Hr He))).
Defined.

Lemma watermark_events_alternate_witness :
  exists q : t Blob,
    runs (init 0 4) [e_HIGH_WATERMARK; e_LOW_WATERMARK] q /\
    alternating true [e_HIGH_WATERMARK; e_LOW_WATERMARK] = true.
Proof.
  assert (Hr : exists q : t Blob, runs (init 0 4) [e_HIGH_WATERMARK; e_LOW_WATERMARK] q).
  { eexists.
    eapply (runs_step _ (op_pushEntry (entry_of 1 [x61; x62; x63; x64] None)) _ []);
      [reflexivity|].
    eapply (runs_step _ op_authorizeHighWatermarkEvent _ [e_HIGH_WATERMARK] _
             [e_LOW_WATERMARK]); [reflexivity|].
    eapply (runs_step _ op_authorizeHighWatermarkEvent _ []); [reflexivity|].
    eapply (runs_step _ op_popEntry _ []); [reflexivity|].
    eapply (runs_step _ op_authorizeLowWatermarkEvent _ [e_LOW_WATERMARK] _ []);
      [reflexivity|].
    apply runs_refl. }
  destruct Hr as [q Hr]. exists q. split; [exact Hr|].
  exact (watermark_events_alternate 0 4 _ q Hr).
Defined.

Lemma popSize_stream_witness :
  exists q' e',
    popSize 2 two = Some (q', [7]) /\ wf q' /\
    d_entryList q' = [e'; entry_of 2 [x64; x65] None] /\ SendQueueEntry.d_inProgress e' = true /\
    SendQueueEntry.d_timer e' = None /\ d_size q' = 3 /\ stream q' = [x63; x64; x65].
Proof.
  exact (popSize_stream two (entry_of 1 [x61; x62; x63] (Some 7))
           [entry_of 2 [x64; x65] None] (Data.e_BLOB [[x61; x62; x63]]) 2
           two_wf eq_refl eq_refl I ltac:(vm_compute; split; congruence)).
Defined.

Lemma batchNext_prefix_witness :
  exists a possible,
    batchNext 8 (mkSendOptions 3 0) two = Some (a, possible) /\
    BufferArray.wf a /\
    BufferArray.contents a `prefix_of` [x61; x62; x63; x64; x65] /\
    BufferArray.contents a `prefix_of` [x61; x62; x63; x64; x65] /\
    SendQueueEntry.within_limits 8 (mkSendOptions 3 0) a /\
    (possible = true <-> BufferArray.d_bufferArray a <> []).
Proof.
  assert (Hs : stream two = [x61; x62; x63; x64; x65]) by reflexivity.
  assert (Hb : concat (map entry_bytes (batchable_prefix (d_entryList two)))
               = [x61; x62; x63; x64; x65]) by reflexivity.
  pose proof (batchNext_prefix 8 (mkSendOptions 3 0) two) as Hp.
  rewrite Hs, Hb in Hp. apply Hp. by repeat constructor.
Defined.

Lemma removeEntryToken_spec_witness :
  exists q' callback context closed,
    removeEntryToken (T := ExampleTypes) None 1 two
      = Some (q', callback, context, closed, negb (hasEntry q')) /\ wf q'.
Proof.
  destruct (removeEntryToken_spec (T := ExampleTypes) None 1 two two_wf) as (q' & cb & c & l & H & Hq & _).
  exists q', cb, c, l. split; [exact H|exact Hq].
Defined.

End Example.
End SendQueue.
