(* ===== verification/ZeroCopy.v ===== *)
(** * The zero-copy queue

    [ntcq_zerocopy.h] and [ntcq_zerocopy.cpp]: ranges of zero-copy counters,
    the counters an operation still waits for, the reconstruction of 64-bit
    counters from the 32-bit ones of the kernel, and the queue that hands out
    a callback when all the counters of its operation are complete. *)

From S2P Require Import Prelude Buffers Errors SendQueue.
From Stdlib Require Import Sorting.Sorted.

(** ** [ntcq::ZeroCopyRange]: a half-open range of counters *)
Module ZeroCopyRange.

Record t : Type := mk { d_minCounter : Z; d_maxCounter : Z }.

Definition reset : t := mk 0 0.

Definition size (r : t) : Z := wrap 64 (d_maxCounter r - d_minCounter r).

Definition empty (r : t) : bool := d_minCounter r =? d_maxCounter r.

Definition intersect (lhs rhs : t) : t :=
  let resultMin := Z.max (d_minCounter lhs) (d_minCounter rhs) in
  let resultMax := Z.min (d_maxCounter lhs) (d_maxCounter rhs) in
  if resultMax >=? resultMin then mk resultMin resultMax else mk 0 0.

(** The pair (result, overflow). *)
Definition difference (lhs rhs : t) : t * t :=
  if (d_minCounter rhs <=? d_minCounter lhs)
     && (d_maxCounter rhs >=? d_maxCounter lhs)
  then (reset, reset) else
  let result :=
    if d_minCounter lhs <? d_minCounter rhs
    then mk (d_minCounter lhs) (Z.min (d_maxCounter lhs) (d_minCounter rhs))
    else reset in
  let overflow :=
    if d_maxCounter lhs >? d_maxCounter rhs
    then mk (Z.max (d_minCounter lhs) (d_maxCounter rhs)) (d_maxCounter lhs)
    else reset in
  if empty result then (overflow, reset)
  else if d_minCounter overflow =? d_maxCounter result
  then (mk (d_minCounter result) (d_maxCounter overflow), reset)
  else (result, overflow).

(** The counters of a range. *)
Definition member (c : Z) (r : t) : Prop := d_minCounter r <= c < d_maxCounter r.

(** The ranges the code builds: not inverted, and [(0, 0)] when empty. *)
Definition wf (r : t) : Prop :=
  r = reset \/ 0 <= d_minCounter r < d_maxCounter r.

Lemma empty_member r : wf r -> empty r = true <-> forall c, ~ member c r.
Proof.
  intros Hr. unfold empty, member. rewrite Z.eqb_eq. split; [lia|].
  intros Hn. destruct Hr as [->|Hr]; [done|]. specialize (Hn (d_minCounter r)). lia.
Qed.

Lemma intersect_member l r c :
  member c (intersect l r) <-> member c l /\ member c r.
Proof.
  unfold intersect, member. destruct (Z.geb_spec (Z.min (d_maxCounter l) (d_maxCounter r))
    (Z.max (d_minCounter l) (d_minCounter r))); simpl; lia.
Qed.

(** [intersect] with a range that is not inverted meets it or is empty. *)
Lemma intersect_empty l r :
  empty (intersect l r) = true -> forall c, member c l -> ~ member c r.
Proof.
  unfold empty, intersect, member. rewrite Z.eqb_eq.
  destruct (Z.geb_spec (Z.min (d_maxCounter l) (d_maxCounter r))
    (Z.max (d_minCounter l) (d_minCounter r))); simpl; lia.
Qed.

Lemma difference_inside a b x y :
  0 <= a -> a <= x -> x < y -> y <= b ->
  difference (mk a b) (mk x y) =
    (if a =? x then if y =? b then reset else mk y b else mk a x,
     if a =? x then reset else if y =? b then reset else mk y b).
Proof.
  intros. unfold difference, empty, reset. simpl.
  destruct (Z.eqb_spec a x) as [->|], (Z.eqb_spec y b) as [->|]; simpl;
    repeat first [ rewrite (proj2 (Z.leb_le _ _)) by lia
                 | rewrite (proj2 (Z.leb_gt _ _)) by lia
                 | rewrite (proj2 (Z.geb_le _ _)) by lia
                 | rewrite (proj2 (Z.ltb_lt _ _)) by lia
                 | rewrite Z.ltb_irrefl | rewrite Z.gtb_ltb | rewrite Z.geb_leb
                 | rewrite Z.min_r by lia | rewrite Z.max_r by lia ]; simpl;
    rewrite ?Z.eqb_refl; try done.
  - rewrite (proj2 (Z.eqb_neq a x)) by lia. destruct x; [lia|done|done].
  - by rewrite (proj2 (Z.eqb_neq a x)), (proj2 (Z.eqb_neq y x)) by lia.
Qed.

(** The difference with a non-empty range inside: the two results hold what
    is left, in order, and are well formed. *)
Lemma difference_spec l i :
  wf l -> d_minCounter l <= d_minCounter i -> d_minCounter i < d_maxCounter i ->
  d_maxCounter i <= d_maxCounter l ->
  let '(p, o) := difference l i in
  wf p /\ wf o /\
  (forall c, member c p \/ member c o <-> member c l /\ ~ member c i) /\
  (empty p = true -> empty o = true) /\
  (empty o = false -> d_maxCounter p <= d_minCounter o).
Proof.
  intros Hl H1 H2 H3. destruct Hl as [->|Hl]; [simpl in *; lia|].
  destruct l as [a b], i as [x y]. simpl in *. rewrite difference_inside by lia.
  unfold wf, member, empty, reset.
  destruct (Z.eqb_spec a x), (Z.eqb_spec y b); simpl;
    (split_and!; [first [by left|right; lia]..| | |]); intros; lia.
Qed.

End ZeroCopyRange.

(** ** [ntcq::ZeroCopyEntry] *)
Module ZeroCopyEntry.
Section Entry.
Context {Blob : Type} {T : SendTypes}.

Record t : Type := mk {
  d_group : Z;
  d_range : ZeroCopyRange.t;
  d_rangeSet : list ZeroCopyRange.t;
  d_framed : bool;
  d_data : option (Data.t Blob);
  d_error : Error.t;
  d_context : SendContext;
  d_callback : option SendCallback
}.

Definition default_entry : t :=
  mk 0 ZeroCopyRange.reset [] false None Error.e_OK SendContext_default None.

(** The entry with other ranges. *)
Definition with_ranges (r : ZeroCopyRange.t) (l : list ZeroCopyRange.t) (e : t) : t :=
  mk (d_group e) r l (d_framed e) (d_data e) (d_error e) (d_context e) (d_callback e).

Definition setGroup (g : Z) (e : t) : t :=
  mk g (d_range e) (d_rangeSet e) (d_framed e) (d_data e) (d_error e) (d_context e)
     (d_callback e).

Definition setMinCounter (c : Z) (e : t) : t :=
  match d_rangeSet e with
  | [] => with_ranges (ZeroCopyRange.mk c (ZeroCopyRange.d_maxCounter (d_range e))) [] e
  | r :: rest =>
      with_ranges (d_range e)
        (ZeroCopyRange.mk c (ZeroCopyRange.d_maxCounter r) :: rest) e
  end.

(** Overwriting the upper bound of the last range of a list. *)
Fixpoint set_last_max (c : Z) (l : list ZeroCopyRange.t) : list ZeroCopyRange.t :=
  match l with
  | [] => []
  | [r] => [ZeroCopyRange.mk (ZeroCopyRange.d_minCounter r) c]
  | r :: rest => r :: set_last_max c rest
  end.

Definition setMaxCounter (c : Z) (e : t) : t :=
  match d_rangeSet e with
  | [] => with_ranges (ZeroCopyRange.mk (ZeroCopyRange.d_minCounter (d_range e)) c) [] e
  | l => with_ranges (d_range e) (set_last_max c l) e
  end.

Definition setFramed (b : bool) (e : t) : t :=
  mk (d_group e) (d_range e) (d_rangeSet e) b (d_data e) (d_error e) (d_context e)
     (d_callback e).

Definition setData (d : option (Data.t Blob)) (e : t) : t :=
  mk (d_group e) (d_range e) (d_rangeSet e) (d_framed e) d (d_error e) (d_context e)
     (d_callback e).

Definition setContext (c : SendContext) (e : t) : t :=
  mk (d_group e) (d_range e) (d_rangeSet e) (d_framed e) (d_data e) (d_error e) c
     (d_callback e).

Definition setCallback (cb : option SendCallback) (e : t) : t :=
  mk (d_group e) (d_range e) (d_rangeSet e) (d_framed e) (d_data e) (d_error e)
     (d_context e) cb.

Definition minCounter (e : t) : Z :=
  match d_rangeSet e with
  | [] => ZeroCopyRange.d_minCounter (d_range e)
  | r :: _ => ZeroCopyRange.d_minCounter r
  end.

Definition maxCounter (e : t) : Z :=
  match split_last (d_rangeSet e) with
  | None => ZeroCopyRange.d_maxCounter (d_range e)
  | Some (_, r) => ZeroCopyRange.d_maxCounter r
  end.

(** The loop of [match] over the ranges swapped out of the entry. *)
Fixpoint match_loop (complete : ZeroCopyRange.t) (result rangeSet : list ZeroCopyRange.t)
  : list ZeroCopyRange.t :=
  match rangeSet with
  | [] => result
  | required :: rest =>
      let intersection := ZeroCopyRange.intersect required complete in
      if ZeroCopyRange.empty intersection
      then match_loop complete (result ++ [required]) rest else
      let '(pending, overflow) := ZeroCopyRange.difference required intersection in
      let result :=
        if negb (ZeroCopyRange.empty pending) then result ++ [pending] else result in
      let result :=
        if negb (ZeroCopyRange.empty overflow) then result ++ [overflow] else result in
      match_loop complete result rest
  end.

(** [match] is a keyword of Rocq. *)
Definition match_ (complete : ZeroCopyRange.t) (e : t) : t :=
  match d_rangeSet e with
  | [] =>
      let required := d_range e in
      let intersection := ZeroCopyRange.intersect required complete in
      if ZeroCopyRange.empty intersection then e else
      let '(pending, overflow) := ZeroCopyRange.difference required intersection in
      if ZeroCopyRange.empty overflow then with_ranges pending [] e
      else with_ranges ZeroCopyRange.reset [pending; overflow] e
  | rangeSet => with_ranges (d_range e) (match_loop complete [] rangeSet) e
  end.

Definition complete (e : t) : bool :=
  if d_framed e then
    match d_rangeSet e with
    | [] => ZeroCopyRange.empty (d_range e)
    | l => forallb ZeroCopyRange.empty l
    end
  else false.

(** *** The counters an entry waits for *)

Definition ranges (e : t) : list ZeroCopyRange.t :=
  match d_rangeSet e with [] => [d_range e] | l => l end.

Definition needs (e : t) (c : Z) : Prop :=
  Exists (ZeroCopyRange.member c) (ranges e).

Definition nonempty (r : ZeroCopyRange.t) : Prop :=
  0 <= ZeroCopyRange.d_minCounter r < ZeroCopyRange.d_maxCounter r.

Definition before (r r' : ZeroCopyRange.t) : Prop :=
  ZeroCopyRange.d_maxCounter r <= ZeroCopyRange.d_minCounter r'.

Record wf (e : t) : Prop := {
  wf_range : ZeroCopyRange.wf (d_range e);
  wf_rangeSet : Forall nonempty (d_rangeSet e);
  wf_sorted : StronglySorted before (d_rangeSet e);
  wf_exclusive : d_rangeSet e <> [] -> d_range e = ZeroCopyRange.reset
}.

(** What [match_loop] leaves of one range. *)
Definition match_range (complete required : ZeroCopyRange.t) : list ZeroCopyRange.t :=
  let intersection := ZeroCopyRange.intersect required complete in
  if ZeroCopyRange.empty intersection then [required] else
  let '(pending, overflow) := ZeroCopyRange.difference required intersection in
  (if negb (ZeroCopyRange.empty pending) then [pending] else []) ++
  (if negb (ZeroCopyRange.empty overflow) then [overflow] else []).

Lemma match_loop_concat complete result l :
  match_loop complete result l = result ++ concat (map (match_range complete) l).
Proof.
  revert result. induction l as [|r l IH]; intros result; simpl;
    [by rewrite app_nil_r|].
  unfold match_range at 1. case_match; [by rewrite IH, <- app_assoc|].
  destruct (ZeroCopyRange.difference _ _) as [p o].
  destruct (ZeroCopyRange.empty p), (ZeroCopyRange.empty o); simpl;
    by rewrite IH, <- ?app_assoc.
Qed.

(** A range that meets a set of completed counters meets it inside. *)
Lemma intersect_inside r complete :
  nonempty r -> ZeroCopyRange.empty (ZeroCopyRange.intersect r complete) = false ->
  let i := ZeroCopyRange.intersect r complete in
  ZeroCopyRange.d_minCounter r <= ZeroCopyRange.d_minCounter i /\
  ZeroCopyRange.d_minCounter i < ZeroCopyRange.d_maxCounter i /\
  ZeroCopyRange.d_maxCounter i <= ZeroCopyRange.d_maxCounter r.
Proof.
  unfold nonempty, ZeroCopyRange.empty, ZeroCopyRange.intersect. intros Hr.
  case_match; simpl; lia.
Qed.

Lemma subrange_bounds x r :
  ZeroCopyRange.wf x -> ZeroCopyRange.empty x = false ->
  (forall c, ZeroCopyRange.member c x -> ZeroCopyRange.member c r) ->
  nonempty x /\
  ZeroCopyRange.d_minCounter r <= ZeroCopyRange.d_minCounter x /\
  ZeroCopyRange.d_maxCounter x <= ZeroCopyRange.d_maxCounter r.
Proof.
  intros [->|Hx] He Hsub; [done|]. unfold nonempty, ZeroCopyRange.member in *.
  pose proof (Hsub (ZeroCopyRange.d_minCounter x)).
  pose proof (Hsub (ZeroCopyRange.d_maxCounter x - 1)). lia.
Qed.

Lemma match_range_spec complete r :
  nonempty r ->
  Forall nonempty (match_range complete r) /\
  StronglySorted before (match_range complete r) /\
  Forall (fun x => ZeroCopyRange.d_minCounter r <= ZeroCopyRange.d_minCounter x /\
                   ZeroCopyRange.d_maxCounter x <= ZeroCopyRange.d_maxCounter r)
         (match_range complete r) /\
  (forall c, Exists (ZeroCopyRange.member c) (match_range complete r) <->
             ZeroCopyRange.member c r /\ ~ ZeroCopyRange.member c complete).
Proof.
  intros Hr. unfold match_range. cbv zeta.
  destruct (ZeroCopyRange.empty (ZeroCopyRange.intersect r complete)) eqn:He.
  - split_and!; [by constructor|by repeat constructor|by repeat constructor; lia|].
    intros c. rewrite Exists_cons, Exists_nil.
    pose proof (ZeroCopyRange.intersect_empty _ _ He c). tauto.
  - destruct (intersect_inside _ _ Hr He) as (H1 & H2 & H3).
    pose proof (ZeroCopyRange.difference_spec r _ (or_intror Hr) H1 H2 H3) as Hd.
    destruct (ZeroCopyRange.difference _ _) as [p o].
    destruct Hd as (Hp & Ho & Hm & Hpo & Hbefore).
    assert (Hm' : forall c, ZeroCopyRange.member c p \/ ZeroCopyRange.member c o <->
      ZeroCopyRange.member c r /\ ~ ZeroCopyRange.member c complete).
    { intros c. rewrite Hm, ZeroCopyRange.intersect_member. tauto. }
    clear Hm.
    assert (Hinp : forall c, ZeroCopyRange.member c p -> ZeroCopyRange.member c r)
      by (intros c; specialize (Hm' c); tauto).
    assert (Hino : forall c, ZeroCopyRange.member c o -> ZeroCopyRange.member c r)
      by (intros c; specialize (Hm' c); tauto).
    destruct (ZeroCopyRange.empty p) eqn:Ep; simpl.
    + rewrite (Hpo eq_refl). simpl. split_and!; [constructor..|].
      intros c. rewrite Exists_nil, <- Hm'.
      pose proof (proj1 (ZeroCopyRange.empty_member p Hp) Ep c).
      pose proof (proj1 (ZeroCopyRange.empty_member o Ho) (Hpo eq_refl) c). tauto.
    + destruct (subrange_bounds p r Hp Ep Hinp) as [Hp1 Hp2].
      destruct (ZeroCopyRange.empty o) eqn:Eo; simpl.
      * split_and!; [by split_Forall|by repeat constructor|by split_Forall|].
        intros c. rewrite Exists_cons, Exists_nil, <- Hm'.
        pose proof (proj1 (ZeroCopyRange.empty_member o Ho) Eo c). tauto.
      * destruct (subrange_bounds o r Ho Eo Hino) as [Ho1 Ho2]. specialize (Hbefore eq_refl).
        split_and!; [by split_Forall|by repeat constructor|by split_Forall|].
        intros c. rewrite !Exists_cons, Exists_nil, <- Hm'. tauto.
Qed.

Lemma sorted_app l k :
  StronglySorted before l -> StronglySorted before k ->
  (forall x y, In x l -> In y k -> before x y) -> StronglySorted before (l ++ k).
Proof.
  induction 1 as [|x l Hl IH Hx]; intros Hk Hlk; simpl; [done|].
  constructor; [apply IH; [done|]; intros; apply Hlk; simpl; auto|].
  apply Forall_app. split; [done|]. apply List.Forall_forall. intros y Hy.
  apply Hlk; simpl; auto.
Qed.

(** Matching keeps a list of ranges sorted and non-empty, and removes exactly
    the completed counters. *)
Lemma match_ranges_spec complete l :
  Forall nonempty l -> StronglySorted before l ->
  let k := concat (map (match_range complete) l) in
  Forall nonempty k /\ StronglySorted before k /\
  (forall c, Exists (ZeroCopyRange.member c) k <->
             Exists (ZeroCopyRange.member c) l /\ ~ ZeroCopyRange.member c complete) /\
  (forall y, In y k -> exists r, In r l /\
     ZeroCopyRange.d_minCounter r <= ZeroCopyRange.d_minCounter y /\
     ZeroCopyRange.d_maxCounter y <= ZeroCopyRange.d_maxCounter r).
Proof.
  intros Hne Hs. induction Hs as [|r l Hs IH Hr]; simpl.
  { split_and!; [constructor|constructor|intros c; rewrite Exists_nil; tauto|done]. }
  apply Forall_cons_iff in Hne as [Hne0 Hne].
  destruct (IH Hne) as (IH1 & IH2 & IH3 & IH4).
  destruct (match_range_spec complete r Hne0) as (H1 & H2 & H3 & H4).
  rewrite List.Forall_forall in H3.
  split_and!; [by apply Forall_app| | |].
  - apply sorted_app; [done..|]. intros x y Hx Hy. unfold before in *.
    destruct (IH4 y Hy) as (r' & Hr' & ? & ?).
    rewrite List.Forall_forall in Hr. specialize (Hr r' Hr'). specialize (H3 x Hx). lia.
  - intros c. rewrite Exists_app, Exists_cons, H4, IH3. tauto.
  - intros y [Hy|Hy]%in_app_iff; [exists r; simpl; auto|].
    destruct (IH4 y Hy) as (r' & ? & ?). exists r'. simpl. auto.
Qed.

(** The effect of [match] on an entry. *)
Lemma match_spec complete e :
  wf e ->
  wf (match_ complete e) /\
  (forall c, needs (match_ complete e) c <->
             needs e c /\ ~ ZeroCopyRange.member c complete).
Proof.
  intros [Hr Hn Hs Hx]. unfold match_, needs, ranges.
  destruct (d_rangeSet e) as [|r0 l0] eqn:Hl; cycle 1.
  { rewrite match_loop_concat, app_nil_l.
    destruct (match_ranges_spec complete (r0 :: l0) Hn Hs) as (H1 & H2 & H3 & _).
    revert H1 H2 H3. generalize (concat (map (match_range complete) (r0 :: l0))).
    intros k H1 H2 H3.
    split; [constructor; [done..|intros _; by apply Hx]|].
    intros c. rewrite <- H3. cbn [with_ranges d_rangeSet d_range].
    destruct k as [|x k]; [|reflexivity].
    rewrite (Hx ltac:(done)), Exists_cons, !Exists_nil.
    unfold ZeroCopyRange.member. simpl. lia. }
  destruct (ZeroCopyRange.empty (ZeroCopyRange.intersect (d_range e) complete)) eqn:He.
  { rewrite Hl. split; [by constructor; rewrite ?Hl|]. intros c.
    rewrite Exists_cons, Exists_nil.
    pose proof (ZeroCopyRange.intersect_empty _ _ He c). tauto. }
  assert (Hne : nonempty (d_range e)).
  { destruct Hr as [Hr|Hr]; [|done]. exfalso. rewrite Hr in He. revert He.
    unfold ZeroCopyRange.empty, ZeroCopyRange.intersect, ZeroCopyRange.reset. simpl.
    case_match; simpl; lia. }
  destruct (intersect_inside _ _ Hne He) as (H1 & H2 & H3).
  pose proof (ZeroCopyRange.difference_spec _ _ Hr H1 H2 H3) as Hd.
  destruct (ZeroCopyRange.difference _ _) as [p o].
  destruct Hd as (Hp & Ho & Hm & Hpo & Hb).
  assert (Hm' : forall c, ZeroCopyRange.member c p \/ ZeroCopyRange.member c o <->
    ZeroCopyRange.member c (d_range e) /\ ~ ZeroCopyRange.member c complete).
  { intros c. rewrite Hm, ZeroCopyRange.intersect_member. tauto. }
  destruct (ZeroCopyRange.empty o) eqn:Eo; cbn [with_ranges d_rangeSet d_range].
  - split; [by constructor|]. intros c. rewrite !Exists_cons, Exists_nil.
    pose proof (proj1 (ZeroCopyRange.empty_member o Ho) Eo c). specialize (Hm' c). tauto.
  - assert (Ep : ZeroCopyRange.empty p = false)
      by (destruct (ZeroCopyRange.empty p); [by specialize (Hpo eq_refl)|done]).
    split; cycle 1.
    { intros c. rewrite !Exists_cons, Exists_nil. specialize (Hm' c). tauto. }
    assert (Hwf : forall x, ZeroCopyRange.wf x -> ZeroCopyRange.empty x = false -> nonempty x)
      by (by intros x [->|Hx'] ?).
    constructor; simpl; [by left|by split_Forall; apply Hwf| |done].
    repeat constructor. by apply Hb.
Qed.

Lemma complete_spec e :
  wf e -> complete e = true <-> d_framed e = true /\ forall c, ~ needs e c.
Proof.
  intros [Hr Hn _ _]. unfold complete, needs, ranges.
  destruct (d_framed e); [|by split; [|intros []]].
  destruct (d_rangeSet e) as [|r l].
  - rewrite ZeroCopyRange.empty_member by done. split; [intros Hc; split; [done|]|intros [_ Hc]];
      intros c; specialize (Hc c); rewrite ?Exists_cons, ?Exists_nil in *; tauto.
  - apply Forall_cons_iff in Hn as [Hr0 _]. unfold nonempty in Hr0. simpl.
    unfold ZeroCopyRange.empty at 1. rewrite (proj2 (Z.eqb_neq _ _)) by lia. simpl.
    split; [done|]. intros [_ Hc]. exfalso. apply (Hc (ZeroCopyRange.d_minCounter r)).
    left. unfold ZeroCopyRange.member. lia.
Qed.

Lemma set_last_max_snoc c l r :
  set_last_max c (l ++ [r]) = l ++ [ZeroCopyRange.mk (ZeroCopyRange.d_minCounter r) c].
Proof.
  induction l as [|x l IH]; [done|]. simpl. rewrite IH. by destruct l.
Qed.

(** The last range of an entry and the ones before it. *)
Lemma ranges_snoc e :
  wf e ->
  exists l r, ranges e = l ++ [r] /\ ZeroCopyRange.wf r /\
    maxCounter e = ZeroCopyRange.d_maxCounter r /\
    (forall c, Exists (ZeroCopyRange.member c) l -> c < ZeroCopyRange.d_minCounter r) /\
    forall m, ranges (setMaxCounter m e) =
      l ++ [ZeroCopyRange.mk (ZeroCopyRange.d_minCounter r) m].
Proof.
  intros [Hr Hn Hs _]. unfold ranges, maxCounter, setMaxCounter.
  destruct (d_rangeSet e) as [|x k _] eqn:Hl using rev_ind.
  - exists [], (d_range e). split_and!; try done. intros c. by rewrite Exists_nil.
  - rewrite split_last_snoc. exists k, x.
    apply Forall_app in Hn as [_ Hx]. apply Forall_cons_iff in Hx as [Hx _].
    split_and!; [by destruct k|by right|done| |].
    + clear -Hs. induction k as [|y k IH]; intros c; [by rewrite Exists_nil|].
      simpl in Hs. apply StronglySorted_inv in Hs as [Hs Hy].
      apply Forall_app in Hy as [_ Hy]. apply Forall_cons_iff in Hy as [Hy _].
      rewrite Exists_cons. unfold before, ZeroCopyRange.member in *.
      intros [?|?]; [lia|by apply IH].
    + intros m. pose proof (set_last_max_snoc m k x) as Hm.
      destruct k as [|z k]; [done|]. cbn [app] in *. rewrite Hm. done.
Qed.

(** Completed counters an entry does not wait for leave it alone. *)
Lemma intersect_disjoint r complete :
  ZeroCopyRange.wf r ->
  (forall c, ZeroCopyRange.member c r -> ~ ZeroCopyRange.member c complete) ->
  ZeroCopyRange.empty (ZeroCopyRange.intersect r complete) = true.
Proof.
  intros Hr Hd. destruct (ZeroCopyRange.empty _) eqn:He; [done|]. exfalso.
  revert He. unfold ZeroCopyRange.empty, ZeroCopyRange.intersect. case_match; [|done].
  rewrite Z.eqb_neq. simpl. intros He.
  apply (Hd (Z.max (ZeroCopyRange.d_minCounter r) (ZeroCopyRange.d_minCounter complete)));
    unfold ZeroCopyRange.member; lia.
Qed.

Lemma match_disjoint complete e :
  wf e -> (forall c, needs e c -> ~ ZeroCopyRange.member c complete) ->
  match_ complete e = e.
Proof.
  intros [Hr Hn _ _] Hd. unfold match_. unfold needs, ranges in Hd.
  destruct (d_rangeSet e) as [|r0 l0] eqn:Hl.
  - rewrite intersect_disjoint; [done..|]. intros c Hc. apply Hd. by left.
  - assert (Hall : forall l, Forall nonempty l ->
      (forall c, Exists (ZeroCopyRange.member c) l -> ~ ZeroCopyRange.member c complete) ->
      concat (map (match_range complete) l) = l).
    { intros l Hne. induction Hne as [|r l Hr' _ IH]; intros Hdl; [done|]. simpl.
      unfold match_range at 1. cbv zeta. rewrite intersect_disjoint.
      - simpl. f_equal. apply IH. intros c Hc. apply Hdl. by right.
      - by right.
      - intros c Hc. apply Hdl. by left. }
    rewrite match_loop_concat, app_nil_l, Hall by done.
    unfold with_ranges. destruct e; simpl in *; by subst.
Qed.

Lemma minCounter_needed e : wf e -> 0 < minCounter e -> needs e (minCounter e).
Proof.
  intros [Hr Hn _ _]. unfold minCounter, needs, ranges, ZeroCopyRange.member.
  destruct (d_rangeSet e) as [|r l]; intros Hpos; left.
  - destruct Hr as [Hr|Hr]; [rewrite Hr in Hpos; simpl in Hpos; lia|lia].
  - apply Forall_cons_iff in Hn as [Hr0 _]. unfold nonempty in Hr0. lia.
Qed.

(** The first counter an entry waits for bounds the others. *)
Lemma minCounter_needs e c : wf e -> needs e c -> minCounter e <= c.
Proof.
  intros [Hr Hn Hs _]. unfold needs, ranges, minCounter.
  destruct (d_rangeSet e) as [|r l].
  - rewrite Exists_cons, Exists_nil. unfold ZeroCopyRange.member. lia.
  - apply StronglySorted_inv in Hs as [_ Hs]. unfold before in Hs.
    apply Forall_cons_iff in Hn as [Hr0 _]. unfold nonempty in Hr0.
    rewrite Exists_cons, Exists_exists. unfold ZeroCopyRange.member.
    rewrite List.Forall_forall in Hs. intros [?|(x & Hx & Hc)]; [lia|].
    specialize (Hs x Hx). lia.
Qed.

End Entry.
Arguments t Blob {T}.
End ZeroCopyEntry.

(** ** [ntsa::ZeroCopy]: the interval [from, thru] of 32-bit counters that a
    notification of the kernel reports complete. *)
Record ZeroCopyNotification : Type := mkZeroCopy { d_from : Z; d_thru : Z }.

(** ** [ntcq::ZeroCopyCounterGenerator] *)
Module ZeroCopyCounterGenerator.

Record t : Type := mk { d_next : Z; d_bias : Z; d_generation : Z }.

Definition init : t := mk 0 0 0.

Definition configure (next generation : Z) : t :=
  mk next (wrap 64 (generation * U32_MAX)) generation.

(** The counter, and the generator after it. *)
Definition next (g : t) : Z * t :=
  (d_next g, mk (wrap 64 (d_next g + 1)) (d_bias g) (d_generation g)).

Definition update (z : ZeroCopyNotification) (g : t) : ZeroCopyRange.t * t :=
  let zeroCopyFrom := d_from z in
  let zeroCopyThru := d_thru z in
  let offset := wrap 64 (d_bias g + d_generation g) in
  let advanced :=
    mk (d_next g) (wrap 64 (d_bias g + U32_MAX)) (wrap 64 (d_generation g + 1)) in
  if zeroCopyFrom >? zeroCopyThru then
    let size := wrap 64 ((U32_MAX - zeroCopyFrom) + zeroCopyThru + 2) in
    let minCounter := wrap 64 (offset + zeroCopyFrom) in
    (ZeroCopyRange.mk minCounter (wrap 64 (minCounter + size)), advanced)
  else
    (ZeroCopyRange.mk (wrap 64 (offset + zeroCopyFrom))
                      (wrap 64 (offset + zeroCopyThru + 1)),
     if zeroCopyThru =? U32_MAX then advanced else g).

(** The notification of the kernel for the counters [lo, hi). *)
Definition notification (lo hi : Z) : ZeroCopyNotification :=
  mkZeroCopy (wrap 32 lo) (wrap 32 (hi - 1)).

(** The generator is in the 32-bit generation of [lo]. *)
Definition at_ (lo : Z) (g : t) : Prop :=
  wrap 64 (d_bias g + d_generation g) = wrap 64 (lo / 2 ^ 32 * 2 ^ 32).

Lemma advanced_offset b n :
  wrap 64 (wrap 64 (b + U32_MAX) + wrap 64 (n + 1)) = wrap 64 (wrap 64 (b + n) + 2 ^ 32).
Proof.
  rewrite wrap_add_l, wrap_add_r, wrap_add_l. f_equal. unfold U32_MAX. lia.
Qed.

Lemma update_step lo hi g :
  0 <= lo < hi -> hi - lo <= 2 ^ 32 -> hi < 2 ^ 64 -> at_ lo g ->
  (update (notification lo hi) g).1 = ZeroCopyRange.mk lo hi /\
  at_ hi (update (notification lo hi) g).2.
Proof.
  intros Hlo Hlen Hhi Hg.
  assert (Hdm := Z.div_mod lo (2 ^ 32) ltac:(lia)).
  assert (Hml := Z.mod_pos_bound lo (2 ^ 32) ltac:(lia)).
  assert (Hdh := Z.div_mod hi (2 ^ 32) ltac:(lia)).
  assert (Hmh := Z.mod_pos_bound hi (2 ^ 32) ltac:(lia)).
  assert (Hdt := Z.div_mod (hi - 1) (2 ^ 32) ltac:(lia)).
  assert (Hmt := Z.mod_pos_bound (hi - 1) (2 ^ 32) ltac:(lia)).
  unfold at_ in Hg. rewrite (wrap_small 64 (lo / 2 ^ 32 * 2 ^ 32)) in Hg by lia.
  unfold update, notification, at_. cbn [d_from d_thru]. rewrite Hg.
  change (wrap 32 lo) with (lo mod 2 ^ 32).
  change (wrap 32 (hi - 1)) with ((hi - 1) mod 2 ^ 32).
  set (a := lo mod 2 ^ 32) in *. set (q := lo / 2 ^ 32) in *.
  set (b := (hi - 1) mod 2 ^ 32) in *. set (p := (hi - 1) / 2 ^ 32) in *.
  set (r := hi / 2 ^ 32) in *. set (c := hi mod 2 ^ 32) in *. clearbody a q b p r c.
  assert (Hadv : wrap 64 (wrap 64 (d_bias g + U32_MAX) + wrap 64 (d_generation g + 1))
                 = wrap 64 ((q + 1) * 2 ^ 32))
    by (rewrite advanced_offset, Hg; f_equal; lia).
  destruct (Z.gtb_spec a b); simpl.
  - assert (p = q + 1) as -> by lia. rewrite Hadv.
    rewrite (wrap_small 64 (q * 2 ^ 32 + a)) by lia.
    rewrite (wrap_small 64 (U32_MAX - a + b + 2)) by (unfold U32_MAX; lia).
    rewrite wrap_small by (unfold U32_MAX; lia).
    split; [f_equal; unfold U32_MAX; lia|]. do 2 f_equal. lia.
  - assert (p = q) as -> by lia. rewrite !wrap_small by lia.
    split; [f_equal; lia|]. destruct (Z.eqb_spec b U32_MAX) as [->|]; simpl.
    + rewrite Hadv. unfold U32_MAX in *. f_equal. lia.
    + rewrite Hg. unfold U32_MAX in *. rewrite wrap_small by lia. lia.
Qed.

(** The ranges between consecutive boundaries, and the kernel's view of them. *)
Fixpoint spans (lo : Z) (his : list Z) : list (Z * Z) :=
  match his with [] => [] | hi :: rest => (lo, hi) :: spans hi rest end.

(** Processing notifications one after the other. *)
Fixpoint updates (zs : list ZeroCopyNotification) (g : t) : list ZeroCopyRange.t :=
  match zs with
  | [] => []
  | z :: rest => let '(r, g) := update z g in r :: updates rest g
  end.

Fixpoint boundaries_ok (lo : Z) (his : list Z) : Prop :=
  match his with
  | [] => True
  | hi :: rest => lo < hi /\ hi - lo <= 2 ^ 32 /\ hi < 2 ^ 64 /\ boundaries_ok hi rest
  end.

(** The kernel numbers zero-copy calls with 32 bits; notified of
    consecutive ranges of calls, however many times its counter wraps around,
    the generator reconstructs exactly the 64-bit ranges. *)
Theorem updates_unwrap his :
  boundaries_ok 0 his ->
  updates (map (fun '(lo, hi) => notification lo hi) (spans 0 his)) init
    = map (fun '(lo, hi) => ZeroCopyRange.mk lo hi) (spans 0 his).
Proof.
  assert (Hgen : forall lo g, 0 <= lo -> at_ lo g -> boundaries_ok lo his ->
    updates (map (fun '(lo, hi) => notification lo hi) (spans lo his)) g
      = map (fun '(lo, hi) => ZeroCopyRange.mk lo hi) (spans lo his)).
  { induction his as [|hi his IH]; intros lo g Hlo Hg Hok; [done|]. simpl in *.
    destruct Hok as (H1 & H2 & H3 & Hok).
    destruct (update_step lo hi g) as [Hr Hat]; [lia..|done|].
    destruct (update (notification lo hi) g) as [r g']. simpl in *.
    rewrite Hr. f_equal. apply IH; [lia|done..]. }
  by apply Hgen.
Qed.

Lemma updates_unwrap_witness :
  boundaries_ok 0 [4294967290; 4294967300; 8589934592; 8589934593] /\
  updates [mkZeroCopy 0 4294967289; mkZeroCopy 4294967290 3;
           mkZeroCopy 4 4294967295; mkZeroCopy 0 0] init
  = [ZeroCopyRange.mk 0 4294967290; ZeroCopyRange.mk 4294967290 4294967300;
     ZeroCopyRange.mk 4294967300 8589934592; ZeroCopyRange.mk 8589934592 8589934593].
Proof.
  assert (H : boundaries_ok 0 [4294967290; 4294967300; 8589934592; 8589934593])
    by (simpl; lia).
  split; [exact H|].
  exact (updates_unwrap [4294967290; 4294967300; 8589934592; 8589934593] H).
Defined.

End ZeroCopyCounterGenerator.

(** ** [ntcq::ZeroCopyQueue] *)
Module ZeroCopyQueue.
Section Queue.
Context {Blob : Type} {T : SendTypes}.
#[local] Abbreviation Entry := (ZeroCopyEntry.t Blob).
Import ZeroCopyEntry.

Record t : Type := mk {
  d_generator : ZeroCopyCounterGenerator.t;
  d_waitList : list Entry;
  d_doneList : list Entry
}.

Definition init : t := mk ZeroCopyCounterGenerator.init [] [].

(** The assertion of the pushes that start an entry. *)
Definition group_follows (group : Z) (q : t) : bool :=
  match d_waitList q with [] => true | front :: _ => d_group front <? group end.

(** Starting an entry for shared data, without and with a callback (which may
    be null): the first counter of the entry. *)
Definition push_data (group : Z) (data : option (Data.t Blob)) (q : t)
  : option (Z * t) :=
  assert! group_follows group q ;;
  let '(counter, generator) := ZeroCopyCounterGenerator.next (d_generator q) in
  let entry :=
    setData data (setMaxCounter (wrap 64 (counter + 1))
      (setMinCounter counter (setGroup group default_entry))) in
  Some (counter, mk generator (d_waitList q ++ [entry]) (d_doneList q)).

Definition push_callback (group : Z) (data : option (Data.t Blob))
  (context : SendContext) (callback : option SendCallback) (q : t) : option (Z * t) :=
  assert! group_follows group q ;;
  let '(counter, generator) := ZeroCopyCounterGenerator.next (d_generator q) in
  let entry :=
    setData data (setMaxCounter (wrap 64 (counter + 1))
      (setMinCounter counter (setGroup group default_entry))) in
  let entry :=
    match callback with
    | Some _ => setCallback callback (setContext context entry)
    | None => entry
    end in
  Some (counter, mk generator (d_waitList q ++ [entry]) (d_doneList q)).

(** The overloads that copy a blob or a data container into a new one. *)
Definition push_blob (group : Z) (blob : Blob) (q : t) : option (Z * t) :=
  push_data group (Some (Data.e_BLOB blob)) q.

Definition push_blob_callback (group : Z) (blob : Blob) (context : SendContext)
  (callback : option SendCallback) (q : t) : option (Z * t) :=
  push_callback group (Some (Data.e_BLOB blob)) context callback q.

Definition push_copy (group : Z) (data : Data.t Blob) (q : t) : option (Z * t) :=
  push_data group (Some data) q.

Definition push_copy_callback (group : Z) (data : Data.t Blob) (context : SendContext)
  (callback : option SendCallback) (q : t) : option (Z * t) :=
  push_callback group (Some data) context callback q.

(** Extending the last entry. *)
Definition push (group : Z) (q : t) : option (Z * t) :=
  match split_last (d_waitList q) with
  | None => None
  | Some (front, entry) =>
      let '(counter, generator) := ZeroCopyCounterGenerator.next (d_generator q) in
      assert! d_group entry =? group ;;
      let entry := setMaxCounter (wrap 64 (counter + 1)) entry in
      Some (counter, mk generator (front ++ [entry]) (d_doneList q))
  end.

Definition frame (group : Z) (q : t) : option t :=
  match split_last (d_waitList q) with
  | None => None
  | Some (front, entry) =>
      assert! d_group entry =? group ;;
      let entry := setFramed true entry in
      if complete entry
      then Some (mk (d_generator q) front (d_doneList q ++ [entry]))
      else Some (mk (d_generator q) (front ++ [entry]) (d_doneList q))
  end.

(** The loop of [update]: the entries left waiting and the done list. *)
Fixpoint update_loop (range : ZeroCopyRange.t) (waitList doneList : list Entry)
  : list Entry * list Entry :=
  match waitList with
  | [] => ([], doneList)
  | entry :: rest =>
      if ZeroCopyRange.d_maxCounter range <? minCounter entry
      then (entry :: rest, doneList) else
      let entry := match_ range entry in
      if complete entry then
        let doneList :=
          match d_callback entry with
          | Some _ => doneList ++ [entry]
          | None => doneList
          end in
        update_loop range rest doneList
      else
        let '(waitList, doneList) := update_loop range rest doneList in
        (entry :: waitList, doneList)
  end.

Definition update (z : ZeroCopyNotification) (q : t) : t :=
  let '(range, generator) := ZeroCopyCounterGenerator.update z (d_generator q) in
  let '(waitList, doneList) := update_loop range (d_waitList q) (d_doneList q) in
  mk generator waitList doneList.

Fixpoint pop_loop (doneList : list Entry)
  : option (SendContext * SendCallback) * list Entry :=
  match doneList with
  | [] => (None, [])
  | entry :: rest =>
      match d_callback entry with
      | Some callback => (Some (d_context entry, callback), rest)
      | None => pop_loop rest
      end
  end.

Definition pop (q : t) : option (SendContext * SendCallback) * t :=
  let '(result, doneList) := pop_loop (d_doneList q) in
  (result, mk (d_generator q) (d_waitList q) doneList).

Definition has_callback (e : Entry) : bool :=
  match d_callback e with Some _ => true | None => false end.

(** The two [clear] that hand out what is pending. *)
Definition clear_entries (result : list Entry) (q : t) : list Entry * t :=
  (result ++ List.filter has_callback (d_doneList q)
          ++ List.filter has_callback (d_waitList q),
   mk (d_generator q) [] []).

Definition clear (q : t) : t := mk (d_generator q) [] [].

Definition load (q : t) : list Entry := d_doneList q ++ d_waitList q.

Definition ready (q : t) : bool :=
  match d_doneList q with [] => false | _ => true end.

(** The entries wait for increasing counters, and none of them is complete. *)
Definition ordered (l : list Entry) : Prop :=
  StronglySorted (fun e e' => forall c c', needs e c -> needs e' c' -> c < c') l.

Record wf (q : t) : Prop := {
  wf_entries : Forall ZeroCopyEntry.wf (d_waitList q);
  wf_pending : Forall (fun e => complete e = false) (d_waitList q);
  wf_ordered : ordered (d_waitList q)
}.

(** Every entry is matched, whether the loop reaches it or stops before. *)
Lemma update_loop_spec range l done_ :
  0 <= ZeroCopyRange.d_maxCounter range ->
  Forall ZeroCopyEntry.wf l -> Forall (fun e => complete e = false) l -> ordered l ->
  let matched := map (match_ range) l in
  update_loop range l done_ =
    (List.filter (fun e => negb (complete e)) matched,
     done_ ++ List.filter has_callback (List.filter complete matched)).
Proof.
  intros Hmax Hwf Hp Ho. revert done_.
  induction Ho as [|e l Ho IH He]; intros done_; simpl; [by rewrite app_nil_r|].
  apply Forall_cons_iff in Hwf as [Hwe Hwf]. apply Forall_cons_iff in Hp as [Hpe Hp].
  destruct (Z.ltb_spec (ZeroCopyRange.d_maxCounter range) (minCounter e)) as [Hlt|Hge].
  - assert (Hsame : Forall (fun x => match_ range x = x) (e :: l)).
    { apply Forall_cons_iff. split.
      - apply match_disjoint; [done|]. intros c Hc. apply minCounter_needs in Hc; [|done].
        unfold ZeroCopyRange.member. lia.
      - rewrite List.Forall_forall in *. intros x Hx.
        apply match_disjoint; [by apply Hwf|]. intros c Hc.
        specialize (He x Hx (minCounter e) c
                      (minCounter_needed e Hwe ltac:(lia)) Hc).
        unfold ZeroCopyRange.member. lia. }
    assert (Hid : map (match_ range) (e :: l) = e :: l).
    { clear -Hsame. induction Hsame as [|x k Hx _ IHs]; [done|]. simpl. by rewrite Hx, IHs. }
    simpl in Hid. injection Hid as -> ->. rewrite Hpe. simpl. clear -Hp.
    f_equal; [f_equal|].
    + induction Hp as [|x k Hx _ IHp]; [done|]. simpl. by rewrite Hx, <- IHp.
    + rewrite (filter_none complete l) by done. by rewrite app_nil_r.
  - destruct (complete (match_ range e)) eqn:Hc; simpl.
    + rewrite IH by done. unfold has_callback at 2.
      destruct (d_callback (match_ range e)); [by rewrite <- app_assoc|done].
    + by rewrite IH.
Qed.

(** Pushing more of the last group adds exactly the new counter to those
    its entry waits for if and only if the last counter the entry still waits
    for is the one before the new counter, that is, if the kernel did not
    complete the end of the entry in the meantime. *)
Theorem push_extends_iff group q front e :
  d_waitList q = front ++ [e] -> ZeroCopyEntry.wf e -> d_group e = group ->
  let counter := ZeroCopyCounterGenerator.d_next (d_generator q) in
  0 <= counter < U64_MAX -> (forall c, needs e c -> c < counter) ->
  exists q' e',
    push group q = Some (counter, q') /\ d_waitList q' = front ++ [e'] /\
    ((forall c, needs e' c <-> needs e c \/ c = counter) <-> maxCounter e = counter).
Proof.
  intros Hl He Hg counter Hc Hlt. unfold push. rewrite Hl, split_last_snoc.
  cbn [ZeroCopyCounterGenerator.next]. rewrite Hg, Z.eqb_refl. fold counter.
  do 2 eexists. split_and!; [done|done|].
  destruct (ranges_snoc e He) as (l & r & Hr & Hwf & Hmax & Hbefore & Hset).
  unfold needs in *. rewrite Hset, Hr, wrap_small, Hmax by (unfold U64_MAX in *; lia).
  rewrite Hr in Hlt.
  assert (Hrl : 0 <= ZeroCopyRange.d_minCounter r <= ZeroCopyRange.d_maxCounter r)
    by (destruct Hwf as [->|?]; simpl; lia).
  assert (Hle : ZeroCopyRange.d_maxCounter r <= counter).
  { destruct Hwf as [->|Hwf]; [simpl; lia|].
    specialize (Hlt (ZeroCopyRange.d_maxCounter r - 1)).
    rewrite Exists_app, Exists_cons in Hlt. unfold ZeroCopyRange.member in Hlt. lia. }
  split; [intros Hneeds|intros <- c]; rewrite ?Exists_app, ?Exists_cons, ?Exists_nil.
  - destruct (decide (ZeroCopyRange.d_maxCounter r = counter)) as [|Hne]; [done|].
    specialize (Hneeds (ZeroCopyRange.d_maxCounter r)).
    specialize (Hbefore (ZeroCopyRange.d_maxCounter r)).
    rewrite !Exists_app, !Exists_cons, !Exists_nil in Hneeds.
    unfold ZeroCopyRange.member in Hneeds. simpl in Hneeds. exfalso.
    destruct (proj1 Hneeds) as [[Hl'|[?|?]]|?]; [right; left; lia| |lia|done|lia].
    specialize (Hbefore Hl'). lia.
  - unfold ZeroCopyRange.member. simpl. split; [intros [?|[?|?]]|intros [[?|[?|?]]|?]];
      first [done | left; left; done | lia | right; left; lia | left; right; left; lia | auto].
Qed.

(** In a queue whose entries wait for increasing counters, a notification
    removes the counters it reports from every entry, moves to the done list,
    in order, the entries with a callback that are framed and wait for no
    other counter, drops those without a callback, and keeps the others: the
    early exit of the loop skips nothing.  The invariant is preserved. *)
Theorem update_completes z q :
  wf q -> 0 <= ZeroCopyRange.d_maxCounter (ZeroCopyCounterGenerator.update z (d_generator q)).1 ->
  let range := (ZeroCopyCounterGenerator.update z (d_generator q)).1 in
  let matched := map (match_ range) (d_waitList q) in
  wf (update z q) /\
  d_waitList (update z q) = List.filter (fun e => negb (complete e)) matched /\
  d_doneList (update z q) =
    d_doneList q ++ List.filter has_callback (List.filter complete matched) /\
  Forall (fun e =>
    (complete (match_ range e) = true <->
       d_framed e = true /\ forall c, needs e c -> ZeroCopyRange.member c range) /\
    (forall c, needs (match_ range e) c <->
       needs e c /\ ~ ZeroCopyRange.member c range)) (d_waitList q).
Proof.
  intros [Hwf Hp Ho] Hmax range matched. unfold update.
  destruct (ZeroCopyCounterGenerator.update z (d_generator q)) as [r g].
  simpl in *. subst range. pose proof (update_loop_spec r _ (d_doneList q) Hmax Hwf Hp Ho) as Hu.
  cbv zeta in Hu. fold matched in Hu. rewrite Hu. simpl. split_and!; [|done|done|].
  - assert (Hm : Forall ZeroCopyEntry.wf matched /\ ordered matched).
    { subst matched. clear -Hwf Ho. split.
      - apply Forall_map. revert Hwf. apply Forall_impl. intros e He. by apply match_spec.
      - induction Ho as [|e l Ho IH He]; [by constructor|].
        apply Forall_cons_iff in Hwf as [Hwe Hwf]. constructor; [by apply IH|].
        rewrite List.Forall_forall in *. intros x' (x & <- & Hx)%in_map_iff c c' Hc Hc'.
        apply (match_spec r) in Hc; [|done]. apply (match_spec r) in Hc'; [|by apply Hwf].
        by apply (He x Hx); [apply Hc|apply Hc']. }
    destruct Hm as [Hm1 Hm2]. constructor; simpl.
    + by apply Forall_filter_bool.
    + apply List.Forall_forall. intros x [_ Hx]%filter_In. by apply negb_true_iff in Hx.
    + by apply StronglySorted_filter.
  - revert Hwf. apply Forall_impl. intros e He. destruct (match_spec r e He) as [Hwf' Hn].
    split; [|done]. rewrite complete_spec by done.
    assert (d_framed (match_ r e) = d_framed e) as ->.
    { unfold match_. repeat case_match; done. }
    split; intros [Hf Hc]; (split; [done|]); intros c.
    + intros Hc'. destruct (decide (ZeroCopyRange.d_minCounter r <= c
                                    < ZeroCopyRange.d_maxCounter r)) as [|Hd]; [done|].
      exfalso. apply (Hc c), Hn. done.
    + rewrite Hn. intros [Hc1 Hc2]. by apply Hc2, Hc.
Qed.

End Queue.
Arguments t Blob {T}.

(** *** Instances of the properties *)
Section Example.

#[local] Instance ExampleTypes : SendTypes := {
  Endpoint := unit; Timer := unit; SendContext := Z;
  SendContext_token _ := None; SendContext_default := 0; SendCallback := Z
}.

#[local] Abbreviation Blob := (list (list byte)).

(** Entry 1 was sent with the calls 0 and 1 and is framed, entry 2 with the
    calls 2, 3 and 4 and is not. *)
Definition pending : t Blob :=
  mk (ZeroCopyCounterGenerator.mk 5 0 0)
     [ZeroCopyEntry.mk 1 (ZeroCopyRange.mk 0 2) [] true None Error.e_OK 7 (Some 11);
      ZeroCopyEntry.mk 2 (ZeroCopyRange.mk 2 5) [] false None Error.e_OK 8 (Some 12)]
     [].

Lemma pending_wf : wf pending.
Proof.
  constructor.
  - split_Forall; constructor; simpl; first [done | apply List.Forall_nil
      | apply SSorted_nil | right; simpl; lia].
  - by split_Forall.
  - repeat constructor; intros c c'; unfold ZeroCopyEntry.needs, ZeroCopyEntry.ranges; simpl;
      rewrite !Exists_cons, !Exists_nil; unfold ZeroCopyRange.member; simpl; lia.
Qed.

Lemma update_completes_witness :
  wf pending /\ wf (update (mkZeroCopy 0 3) pending) /\
  map ZeroCopyEntry.d_group (d_waitList (update (mkZeroCopy 0 3) pending)) = [2] /\
  map ZeroCopyEntry.d_group (d_doneList (update (mkZeroCopy 0 3) pending)) = [1].
Proof.
  destruct (update_completes (mkZeroCopy 0 3) pending pending_wf ltac:(vm_compute; congruence))
    as (Hwf & Hw & Hd & _).
  split_and!; [exact pending_wf|exact Hwf|by rewrite Hw|by rewrite Hd].
Defined.

(** One call was made for entry 1, and the kernel completed it before the rest
    of the entry was sent. *)
Definition interrupted_entry : ZeroCopyEntry.t Blob :=
  ZeroCopyEntry.mk 1 ZeroCopyRange.reset [] false None Error.e_OK 7 (Some 11).

Definition interrupted : t Blob :=
  mk (ZeroCopyCounterGenerator.mk 1 0 0) [interrupted_entry] [].

Lemma push_extends_iff_witness :
  exists q' e',
    push 1 interrupted = Some (1, q') /\ d_waitList q' = [e'] /\
    ~ (forall c, ZeroCopyEntry.needs e' c <->
                 ZeroCopyEntry.needs interrupted_entry c \/ c = 1).
Proof.
  destruct (push_extends_iff (T := ExampleTypes) 1 interrupted [] interrupted_entry)
    as (q' & e' & Hp & Hl & Hiff).
  - reflexivity.
  - constructor; simpl; first [done | apply List.Forall_nil | apply SSorted_nil | by left].
  - reflexivity.
  - vm_compute. split; congruence.
  - intros c. unfold ZeroCopyEntry.needs, ZeroCopyEntry.ranges, ZeroCopyRange.member. simpl.
    rewrite Exists_cons, Exists_nil. simpl. lia.
  - exists q', e'. split; [exact Hp|]. split; [exact Hl|]. intros Hn.
    apply Hiff in Hn. vm_compute in Hn. discriminate Hn.
Defined.

(** The consequence: both calls of entry 1 complete, the entry is framed, and
    its callback is never handed out. *)
Example interrupted_never_completes :
  option_map (fun '(_, q) =>
     option_map (fun q => pop (update (mkZeroCopy 1 1) q)) (frame 1 q))
    (push 1 interrupted)
  = Some (Some (None,
      mk (ZeroCopyCounterGenerator.mk 2 0 0)
        [ZeroCopyEntry.mk 1 (ZeroCopyRange.mk 0 1) [] true None Error.e_OK 7 (Some 11)] [])).
Proof. reflexivity. Qed.

End Example.
End ZeroCopyQueue.
