(* ===== verification/ReceiveQueue.v ===== *)
(** * The receive queue

    [ntcq_receive.h] and [ntcq_receive.cpp], with the two classes they rest
    on: the state of an asynchronous callback ([ntcs_callbackstate.h]) and the
    options of a receive operation ([ntca_receiveoptions.h]); and the loop
    with which [ntcr_streamsocket.cpp] dequeues bytes for one receiver. *)

From S2P Require Import Prelude Errors Watermark.

(** ** [ntcs::CallbackState]

    Each operation retries a compare-and-swap until no other thread interferes:
    its effect is the one of the successful iteration. *)
Module CallbackState.

Inductive t : Type := e_PENDING | e_SCHEDULED | e_FINISHED.

Definition reset : t := e_PENDING.

Definition schedule (s : t) : t * bool :=
  match s with e_PENDING => (e_SCHEDULED, true) | _ => (s, false) end.

Definition finish (s : t) : t * bool :=
  match s with e_FINISHED => (s, false) | _ => (e_FINISHED, true) end.

End CallbackState.

(** ** [ntca::ReceiveOptions] *)
Module ReceiveOptions.

Record t : Type := mk {
  d_token : option Z;
  d_minSize : Z;
  d_maxSize : Z;
  d_deadline : option Z;
  d_recurse : bool
}.

Definition reset : t := mk None 1 U64_MAX None false.

Definition setMinSize (value : Z) (o : t) : t :=
  if value =? 0 then mk (d_token o) 1 (d_maxSize o) (d_deadline o) (d_recurse o)
  else if value >? d_maxSize o
  then mk (d_token o) value value (d_deadline o) (d_recurse o)
  else mk (d_token o) value (d_maxSize o) (d_deadline o) (d_recurse o).

Definition setSize (value : Z) (o : t) : t :=
  let minSize := if value =? 0 then 1 else value in
  mk (d_token o) minSize minSize (d_deadline o) (d_recurse o).

Definition setMaxSize (value : Z) (o : t) : t :=
  let minSize := if value <? d_minSize o then value else d_minSize o in
  mk (d_token o) minSize value (d_deadline o) (d_recurse o).

Inductive setter : Type :=
| set_min (v : Z) | set_size (v : Z) | set_max (v : Z).

Definition apply (o : t) (s : setter) : t :=
  match s with
  | set_min v => setMinSize v o
  | set_size v => setSize v o
  | set_max v => setMaxSize v o
  end.

(** What the receivers assert of the options they serve. *)
Definition ok (o : t) : Prop := 1 <= d_minSize o <= d_maxSize o.

Lemma apply_ok o s :
  ok o -> match s with set_min v | set_size v => 0 <= v | set_max v => 1 <= v end ->
  ok (apply o s).
Proof.
  unfold ok. intros Ho Hs. destruct s; simpl; unfold setMinSize, setSize, setMaxSize;
    repeat case_match; simpl; lia.
Qed.

(** Whatever setters are called on default options, the minimum size stays
    at least one and at most the maximum size, provided the maximum size is
    never set to zero (which makes the minimum size zero too). *)
Theorem setters_ok setters :
  Forall (fun s => match s with
                   | set_min v | set_size v => 0 <= v
                   | set_max v => 1 <= v
                   end) setters ->
  ok (fold_left apply setters reset).
Proof.
  assert (Hgen : forall o, ok o -> Forall (fun s => match s with
                   | set_min v | set_size v => 0 <= v
                   | set_max v => 1 <= v
                   end) setters -> ok (fold_left apply setters o)).
  { induction setters as [|s setters IH]; intros o Ho Hall; [done|]. simpl.
    apply Forall_cons_iff in Hall as [Hs Hall]. apply IH; [|done]. by apply apply_ok. }
  by apply Hgen.
Qed.

Lemma setters_ok_witness :
  ok (fold_left apply [set_min 0; set_max 3; set_min 9; set_size 4; set_max 2] reset).
Proof. apply setters_ok. split_Forall; lia. Defined.

(** Without the proviso a receiver may be served from an empty queue. *)
Example setMaxSize_zero : d_minSize (setMaxSize 0 reset) = 0.
Proof. reflexivity. Qed.

End ReceiveOptions.

(** ** [ntcq::ReceiveFeedback] *)
Module ReceiveFeedback.

Definition k_INCREASE_FACTOR : Z := 8192.
Definition k_DECREASE_FACTOR : Z := 2.
Definition k_THRESHOLD : Z := 90.

Record t : Type := mk {
  d_minimum : Z;
  d_current : Z;
  d_maximum : Z;
  d_increaseFactor : Z;
  d_decreaseFactor : Z;
  d_count : Z
}.

Definition init (minimum maximum : Z) : t :=
  mk minimum minimum maximum k_INCREASE_FACTOR k_DECREASE_FACTOR 0.

Definition setMinimum (v : Z) (f : t) : t :=
  mk v (d_current f) (d_maximum f) (d_increaseFactor f) (d_decreaseFactor f) (d_count f).

Definition setMaximum (v : Z) (f : t) : t :=
  mk (d_minimum f) (d_current f) v (d_increaseFactor f) (d_decreaseFactor f) (d_count f).

Definition setIncreaseFactor (v : Z) (f : t) : t :=
  mk (d_minimum f) (d_current f) (d_maximum f) v (d_decreaseFactor f) (d_count f).

Definition setDecreaseFactor (v : Z) (f : t) : t :=
  mk (d_minimum f) (d_current f) (d_maximum f) (d_increaseFactor f) v (d_count f).

Definition with_current (c n : Z) (f : t) : t :=
  mk (d_minimum f) c (d_maximum f) (d_increaseFactor f) (d_decreaseFactor f) n.

Definition setCongestion (congestion : bool) (f : t) : t :=
  if congestion then
    if d_current f <? d_maximum f then
      let current := wrap 64 (d_current f + d_increaseFactor f) in
      let current := if current >? d_maximum f then d_maximum f else current in
      with_current current (d_count f) f
    else f
  else
    let count := d_count f + 1 in
    if count <? 10 then with_current (d_current f) count f else
    if d_current f >? d_minimum f then
      let current := d_current f / d_decreaseFactor f in
      let current := if current <? d_minimum f then d_minimum f else current in
      with_current current 0 f
    else with_current (d_current f) 0 f.

Definition setFeedback (numBytesReceivable numBytesReceived : Z) (f : t) : t :=
  if numBytesReceived >? numBytesReceivable then f else
  let threshold := wrap 64 (numBytesReceivable * k_THRESHOLD) / 100 in
  if numBytesReceived >=? threshold then setCongestion true f
  else setCongestion false f.

(** The bounds of the size of the next read. *)
Record wf (f : t) : Prop := {
  wf_bounds : 0 <= d_minimum f <= d_current f;
  wf_max : d_current f <= d_maximum f;
  wf_room : d_maximum f + d_increaseFactor f <= U64_MAX;
  wf_factors : 0 <= d_increaseFactor f /\ 1 <= d_decreaseFactor f;
  wf_count : 0 <= d_count f < 10
}.

Lemma setCongestion_wf b f : wf f -> wf (setCongestion b f).
Proof.
  intros [[Hm Hc] Hx Hr [Hi Hd] Hn]. unfold U64_MAX in Hr. unfold setCongestion.
  pose proof (Z.div_pos (d_current f) (d_decreaseFactor f) ltac:(lia) ltac:(lia)).
  pose proof (Z.div_le_upper_bound (d_current f) (d_decreaseFactor f) (d_current f)
                ltac:(lia) ltac:(nia)).
  destruct b; repeat case_match; rewrite ?wrap_small in * by lia;
    constructor; unfold U64_MAX; simpl; lia.
Qed.

(** The read size only grows on congestion and only shrinks without it. *)
Lemma setCongestion_direction (b : bool) f :
  wf f ->
  if b then d_current f <= d_current (setCongestion b f)
              <= d_current f + d_increaseFactor f
  else d_current (setCongestion b f) <= d_current f.
Proof.
  intros [[Hm Hc] Hx Hr [Hi Hd] Hn]. unfold U64_MAX in Hr. unfold setCongestion.
  pose proof (Z.div_le_upper_bound (d_current f) (d_decreaseFactor f) (d_current f)
                ltac:(lia) ltac:(nia)).
  destruct b; repeat case_match; rewrite ?wrap_small in * by lia; simpl; lia.
Qed.

(** Whatever sizes are received, the size of the next read stays between
    the configured minimum and maximum, it never shrinks when a read fills its
    buffer to the threshold and never grows when it does not. *)
Theorem setFeedback_bounded minimum maximum history receivable received :
  0 <= minimum <= maximum -> maximum + k_INCREASE_FACTOR <= U64_MAX ->
  let f := fold_left (fun f '(a, b) => setFeedback a b f) history (init minimum maximum) in
  let f' := setFeedback receivable received f in
  minimum <= d_current f' <= maximum /\
  (if received >? receivable then f' = f
   else if received >=? wrap 64 (receivable * k_THRESHOLD) / 100
   then d_current f <= d_current f' else d_current f' <= d_current f).
Proof.
  intros Hm Hr.
  assert (Hstep : forall f a b, wf f -> wf (setFeedback a b f) /\
    d_minimum (setFeedback a b f) = d_minimum f /\
    d_maximum (setFeedback a b f) = d_maximum f).
  { intros f a b Hf. unfold setFeedback.
    assert (Hfix : forall c, d_minimum (setCongestion c f) = d_minimum f /\
                             d_maximum (setCongestion c f) = d_maximum f)
      by (intros c; unfold setCongestion; repeat case_match; done).
    repeat case_match; auto using setCongestion_wf. }
  assert (Hinit : wf (init minimum maximum)).
  { constructor; simpl; unfold k_INCREASE_FACTOR, k_DECREASE_FACTOR in *; lia. }
  assert (Hfold : forall f0, wf f0 ->
    let f := fold_left (fun f '(a, b) => setFeedback a b f) history f0 in
    wf f /\ d_minimum f = d_minimum f0 /\ d_maximum f = d_maximum f0).
  { induction history as [|[a b] history IH]; intros f0 Hf0; [done|]. simpl.
    destruct (Hstep f0 a b Hf0) as (Hw & <- & <-). by apply IH. }
  destruct (Hfold _ Hinit) as (Hf & Hmin & Hmax).
  cbv zeta. set (f := fold_left _ history _) in *. clearbody f.
  destruct (Hstep f receivable received Hf) as (Hf' & Hmin' & Hmax').
  cbn [init d_minimum d_maximum] in Hmin, Hmax. split.
  - destruct Hf' as [Hb Hx _ _ _]. lia.
  - unfold setFeedback. case_match; [done|].
    case_match; [apply (setCongestion_direction true f Hf)|].
    apply (setCongestion_direction false f Hf).
Qed.

Lemma setFeedback_bounded_witness :
  0 <= 4096 <= 524288 /\
  d_current (setFeedback 4096 4096 (init 4096 524288)) = 12288 /\
  4096 <= d_current (setFeedback 4096 4096 (init 4096 524288)) <= 524288.
Proof.
  split; [lia|]. split; [reflexivity|].
  exact (proj1 (setFeedback_bounded 4096 524288 [] 4096 4096 ltac:(lia)
                  ltac:(vm_compute; congruence))).
Defined.

End ReceiveFeedback.

(** The types the receive queue stores without looking into them. *)
Class ReceiveTypes : Type := {
  ReceiveBlob : Type;
  ReceiveEndpoint : Type;
  ReceiveTimer : Type;
  ReceiveCallback : Type
}.

(** ** [ntcq::ReceiveCallbackQueueEntry]

    Entries are shared objects: [d_object] is the identity of one. *)
Module ReceiveCallbackQueueEntry.
Section Entry.
Context {T : ReceiveTypes}.

Record t : Type := mk {
  d_object : Z;
  d_state : CallbackState.t;
  d_callback : option ReceiveCallback;
  d_options : ReceiveOptions.t;
  d_timer : option ReceiveTimer
}.

(** The entry, and the timers closed. *)
Definition clear (e : t) : t * list ReceiveTimer :=
  (mk (d_object e) CallbackState.reset None ReceiveOptions.reset None,
   option_list (d_timer e)).

Definition assign (callback : option ReceiveCallback) (options : ReceiveOptions.t)
  (e : t) : t :=
  mk (d_object e) (d_state e) callback options (d_timer e).

Definition setTimer (timer : option ReceiveTimer) (e : t) : t :=
  mk (d_object e) (d_state e) (d_callback e) (d_options e) timer.

Definition closeTimer (e : t) : t * list ReceiveTimer :=
  match d_timer e with
  | Some timer => (setTimer None e, [timer])
  | None => (e, [])
  end.

(** Dispatching an entry: the entry, the timers closed and the callback
    invoked, if any. *)
Definition dispatch (e : t) : t * list ReceiveTimer * option ReceiveCallback :=
  let '(state, won) := CallbackState.finish (d_state e) in
  let e := mk (d_object e) state (d_callback e) (d_options e) (d_timer e) in
  if won then
    let '(e, closed) := closeTimer e in
    (mk (d_object e) (d_state e) None (d_options e) (d_timer e), closed, d_callback e)
  else (e, [], None).

(** Dispatching an entry several times: the callbacks invoked. *)
Fixpoint dispatches (n : nat) (e : t) : list ReceiveCallback :=
  match n with
  | O => []
  | S n => let '(e, _, invoked) := dispatch e in option_list invoked ++ dispatches n e
  end.

(** However many times an entry is dispatched (by the arrival of data, by
    its deadline timer, by a cancellation), its callback is invoked exactly
    once, by the first dispatch, and its timer is then closed. *)
Theorem dispatch_once e n callback :
  d_state e <> CallbackState.e_FINISHED -> d_callback e = Some callback -> (0 < n)%nat ->
  dispatches n e = [callback] /\
  d_timer (dispatch e).1.1 = None /\ (dispatch e).1.2 = option_list (d_timer e).
Proof.
  intros Hs Hcb Hn. destruct n as [|n]; [lia|].
  assert (Hfin : forall m e', d_state e' = CallbackState.e_FINISHED -> dispatches m e' = []).
  { intros m. induction m as [|m IH]; intros e' He'; [done|]. simpl.
    unfold dispatch. rewrite He'. simpl. by apply IH. }
  assert (Hd : exists e', dispatch e = (e', option_list (d_timer e), Some callback) /\
    d_state e' = CallbackState.e_FINISHED /\ d_timer e' = None).
  { unfold dispatch, closeTimer. destruct e as [o st cb op [tm|]]; simpl in *; subst cb;
      destruct st; try done; by eexists. }
  destruct Hd as (e' & Hd & He' & Ht'). simpl. rewrite Hd. simpl.
  by rewrite Hfin.
Qed.

End Entry.
Arguments t {T}.

Section Example.
#[local] Instance ExampleTypes : ReceiveTypes := {
  ReceiveBlob := unit; ReceiveEndpoint := unit; ReceiveTimer := Z; ReceiveCallback := Z
}.

Lemma dispatch_once_witness :
  dispatches 3 (mk 1 CallbackState.e_PENDING (Some 7) ReceiveOptions.reset (Some 9)) = [7].
Proof.
  exact (proj1 (dispatch_once
    (mk 1 CallbackState.e_PENDING (Some 7) ReceiveOptions.reset (Some 9)) 3 7
    ltac:(discriminate) eq_refl ltac:(lia))).
Defined.
End Example.
End ReceiveCallbackQueueEntry.

(** ** [ntcq::ReceiveCallbackQueue] *)
Module ReceiveCallbackQueue.
Section Queue.
Context {T : ReceiveTypes}.
#[local] Abbreviation Entry := ReceiveCallbackQueueEntry.t.
Import ReceiveCallbackQueueEntry.

Definition push (e : Entry) (l : list Entry) : list Entry := l ++ [e].

Definition pop (numBytesAvailable : Z) (l : list Entry)
  : Error.t * option Entry * list Entry :=
  match l with
  | front :: rest =>
      if numBytesAvailable >=? ReceiveOptions.d_minSize (d_options front)
      then (Error.e_OK, Some front, rest)
      else (Error.e_WOULD_BLOCK, None, l)
  | [] => (Error.e_INVALID, None, l)
  end.

Fixpoint remove (object : Z) (l : list Entry) : Error.t * list Entry :=
  match l with
  | [] => (Error.e_EOF, [])
  | target :: rest =>
      if d_object target =? object then (Error.e_OK, rest)
      else let '(error, rest) := remove object rest in (error, target :: rest)
  end.

Fixpoint remove_token (token : Z) (l : list Entry) : Error.t * option Entry * list Entry :=
  match l with
  | [] => (Error.e_EOF, None, [])
  | entry :: rest =>
      if bool_decide (ReceiveOptions.d_token (d_options entry) = Some token)
      then (Error.e_OK, Some entry, rest)
      else let '(error, result, rest) := remove_token token rest in
           (error, result, entry :: rest)
  end.

Definition removeAll (result l : list Entry) : list Entry * list Entry := (result ++ l, []).

End Queue.
End ReceiveCallbackQueue.

(** ** [ntcq::ReceiveQueueEntry] *)
Module ReceiveQueueEntry.
Section Entry.
Context {T : ReceiveTypes}.

Record t : Type := mk {
  d_endpoint : option ReceiveEndpoint;
  d_data : option ReceiveBlob;
  d_length : Z;
  d_timestamp : Z;
  d_foreignHandle : option Z
}.

Definition setLength (n : Z) (e : t) : t :=
  mk (d_endpoint e) (d_data e) n (d_timestamp e) (d_foreignHandle e).

Definition delay (now : Z) (e : t) : Z :=
  let delayInNanoseconds := now - d_timestamp e in
  if delayInNanoseconds <? 0 then 0 else delayInNanoseconds.

End Entry.
Arguments t {T}.
End ReceiveQueueEntry.

(** [ntca::ReactorEventTrigger] *)
Inductive ReactorEventTrigger : Type := e_EDGE | e_LEVEL.

#[export] Instance ReactorEventTrigger_eq_dec : EqDecision ReactorEventTrigger.
Proof. solve_decision. Defined.

(** ** [ntcq::ReceiveQueue] *)
Module ReceiveQueue.
Section Queue.
Context {T : ReceiveTypes}.
#[local] Abbreviation Entry := ReceiveQueueEntry.t.
#[local] Abbreviation CallbackEntry := ReceiveCallbackQueueEntry.t.
Import ReceiveQueueEntry.

Record t : Type := mk {
  d_entryList : list Entry;
  d_queueData : option ReceiveBlob;
  d_size : Z;
  d_watermarkLow : Z;
  d_watermarkLowWanted : bool;
  d_watermarkHigh : Z;
  d_watermarkHighWanted : bool;
  d_trigger : ReactorEventTrigger;
  d_callbackQueue : list CallbackEntry
}.

Definition init (defaultLow defaultHigh : Z) : t :=
  let '(low, high) :=
    WatermarkUtil.sanitizeIncomingQueueWatermarks defaultLow defaultHigh in
  mk [] None 0 low true high true e_LEVEL [].

Definition with_entries (l : list Entry) (n : Z) (q : t) : t :=
  mk l (d_queueData q) n (d_watermarkLow q) (d_watermarkLowWanted q) (d_watermarkHigh q)
     (d_watermarkHighWanted q) (d_trigger q) (d_callbackQueue q).

Definition with_watermarks (low : Z) (lowWanted : bool) (high : Z) (highWanted : bool)
  (q : t) : t :=
  mk (d_entryList q) (d_queueData q) (d_size q) low lowWanted high highWanted
     (d_trigger q) (d_callbackQueue q).

Definition with_callbackQueue (l : list CallbackEntry) (q : t) : t :=
  mk (d_entryList q) (d_queueData q) (d_size q) (d_watermarkLow q)
     (d_watermarkLowWanted q) (d_watermarkHigh q) (d_watermarkHighWanted q)
     (d_trigger q) l.

Definition hasEntry (q : t) : bool :=
  match d_entryList q with [] => false | _ => true end.

Definition pushEntry (e : Entry) (q : t) : option (t * bool) :=
  let entries := d_entryList q ++ [e] in
  assert! d_length e >? 0 ;;
  Some (with_entries entries (d_size q + d_length e) q, size entries =? 1).

Definition frontEntry (q : t) : option Entry := head (d_entryList q).

(** Under an edge trigger, draining the queue below its low watermark rearms
    both watermark events. *)
Definition rearm (q : t) : t :=
  if bool_decide (d_trigger q = e_EDGE) then
    if d_size q <? d_watermarkLow q
    then with_watermarks (d_watermarkLow q) true (d_watermarkHigh q) true q
    else q
  else q.

Definition popEntry (q : t) : option (t * bool) :=
  match d_entryList q with
  | [] => None
  | entry :: rest =>
      assert! d_length entry >? 0 ;;
      assert! d_size q >=? d_length entry ;;
      let q := rearm (with_entries (entry :: rest) (d_size q - d_length entry) q) in
      let q := with_entries rest (d_size q) q in
      Some (q, negb (hasEntry q))
  end.

Definition popSize (numBytes : Z) (q : t) : option t :=
  match d_entryList q with
  | [] => None
  | entry :: rest =>
      assert! d_length entry >=? numBytes ;;
      let entry := setLength (d_length entry - numBytes) entry in
      assert! d_size q >=? numBytes ;;
      Some (rearm (with_entries (entry :: rest) (d_size q - numBytes) q))
  end.

Definition pushCallbackEntry (e : CallbackEntry) (q : t) : t :=
  with_callbackQueue (ReceiveCallbackQueue.push e (d_callbackQueue q)) q.

Definition popCallbackEntry (q : t) : Error.t * option CallbackEntry * t :=
  if negb (hasEntry q) then (Error.e_WOULD_BLOCK, None, q) else
  let '(error, result, l) := ReceiveCallbackQueue.pop (d_size q) (d_callbackQueue q) in
  (error, result, with_callbackQueue l q).

Definition popAllCallbackEntries (result : list CallbackEntry) (q : t)
  : list CallbackEntry * t :=
  let '(result, l) := ReceiveCallbackQueue.removeAll result (d_callbackQueue q) in
  (result, with_callbackQueue l q).

Definition removeCallbackEntry (object : Z) (q : t) : Error.t * t :=
  let '(error, l) := ReceiveCallbackQueue.remove object (d_callbackQueue q) in
  (error, with_callbackQueue l q).

Definition removeCallbackEntry_token (token : Z) (q : t)
  : Error.t * option CallbackEntry * t :=
  let '(error, result, l) := ReceiveCallbackQueue.remove_token token (d_callbackQueue q) in
  (error, result, with_callbackQueue l q).

Definition setTrigger (trigger : ReactorEventTrigger) (q : t) : t :=
  mk (d_entryList q) (d_queueData q) (d_size q) (d_watermarkLow q) true
     (d_watermarkHigh q) (d_watermarkHighWanted q) trigger (d_callbackQueue q).

Definition setLowWatermark (low : Z) (q : t) : t :=
  let '(low, high) :=
    WatermarkUtil.sanitizeIncomingQueueWatermarks low (d_watermarkHigh q) in
  with_watermarks low true high (d_watermarkHighWanted q) q.

Definition setHighWatermark (high : Z) (q : t) : t :=
  let '(low, high) :=
    WatermarkUtil.sanitizeIncomingQueueWatermarks (d_watermarkLow q) high in
  with_watermarks low (d_watermarkLowWanted q) high true q.

Definition isHighWatermarkViolated (q : t) : bool :=
  WatermarkUtil.isIncomingQueueHighWatermarkViolated (d_size q) (d_watermarkHigh q).

Definition isLowWatermarkSatisfied (q : t) : bool :=
  WatermarkUtil.isIncomingQueueLowWatermarkSatisfied (d_size q) (d_watermarkLow q).

Definition authorizeLowWatermarkEvent (q : t) : t * bool :=
  if isLowWatermarkSatisfied q then
    if bool_decide (d_trigger q = e_EDGE) then
      if d_watermarkLowWanted q then
        (with_watermarks (d_watermarkLow q) false (d_watermarkHigh q)
                         (d_watermarkHighWanted q) q, true)
      else (q, false)
    else (q, true)
  else (q, false).

Definition authorizeHighWatermarkEvent (q : t) : t * bool :=
  if isHighWatermarkViolated q then
    if bool_decide (d_trigger q = e_EDGE) then
      if d_watermarkHighWanted q then
        (with_watermarks (d_watermarkLow q) (d_watermarkLowWanted q)
                         (d_watermarkHigh q) false q, true)
      else (q, false)
    else (q, true)
  else (q, false).

(** *** Dequeueing for one receiver

    The loop of [StreamSocket::receive] and of [privateSocketReadableIteration]
    over the entries at the front of the queue: the queue, the number of bytes
    dequeued, the foreign handle given to the receiver and the foreign handles
    closed.  Each iteration that goes on pops an entry: [fuel] bounds them. *)
Fixpoint dequeue_loop (fuel : nat) (maxSize numBytesRemaining numBytesDequeued : Z)
  (foreignHandle : option Z) (closed : list Z) (q : t)
  : option (t * Z * option Z * list Z) :=
  match fuel with
  | O => None
  | S fuel =>
      if negb (hasEntry q) then Some (q, numBytesDequeued, foreignHandle, closed) else
      entry ← frontEntry q;
      let numBytesToDequeue := Z.min numBytesRemaining (d_length entry) in
      let numBytesDequeued := numBytesDequeued + numBytesToDequeue in
      assert! numBytesDequeued <=? maxSize ;;
      assert! numBytesRemaining >=? numBytesToDequeue ;;
      let numBytesRemaining := numBytesRemaining - numBytesToDequeue in
      let '(foreignHandle, closed) :=
        match d_foreignHandle entry with
        | Some handle =>
            match foreignHandle with
            | Some _ => (foreignHandle, closed ++ [handle])
            | None => (Some handle, closed)
            end
        | None => (foreignHandle, closed)
        end in
      if numBytesToDequeue =? d_length entry then
        '(q, becameEmpty) ← popEntry q;
        if becameEmpty : bool then Some (q, numBytesDequeued, foreignHandle, closed) else
        if numBytesRemaining =? 0
        then Some (q, numBytesDequeued, foreignHandle, closed)
        else dequeue_loop fuel maxSize numBytesRemaining numBytesDequeued
               foreignHandle closed q
      else
        q ← popSize numBytesToDequeue q;
        Some (q, numBytesDequeued, foreignHandle, closed)
  end.

(** The loop with the assertions around it. *)
Definition dequeue (options : ReceiveOptions.t) (q : t)
  : option (t * Z * option Z * list Z) :=
  assert! hasEntry q ;;
  r ← dequeue_loop (S (length (d_entryList q))) (ReceiveOptions.d_maxSize options)
        (ReceiveOptions.d_maxSize options) 0 None [] q;
  let '(_, numBytesDequeued, _, _) := r in
  assert! numBytesDequeued >=? ReceiveOptions.d_minSize options ;;
  assert! numBytesDequeued <=? ReceiveOptions.d_maxSize options ;;
  Some r.

(** *** The invariant *)

Record wf (q : t) : Prop := {
  wf_entries : Forall (fun e => 0 < d_length e) (d_entryList q);
  wf_size : d_size q = sum_with d_length (d_entryList q);
  wf_watermarks : WatermarkUtil.incoming_ok (d_watermarkLow q) (d_watermarkHigh q)
}.

Lemma lengths_nonneg l : Forall (fun e : Entry => 0 < d_length e) l -> 0 <= sum_with d_length l.
Proof.
  intros Hl. apply sum_with_nonneg. revert Hl. apply Forall_impl. intros. lia.
Qed.

Lemma rearm_fields q :
  d_entryList (rearm q) = d_entryList q /\ d_size (rearm q) = d_size q /\
  d_watermarkLow (rearm q) = d_watermarkLow q /\
  d_watermarkHigh (rearm q) = d_watermarkHigh q /\
  d_callbackQueue (rearm q) = d_callbackQueue q.
Proof. unfold rearm. repeat case_match; done. Qed.

Lemma wf_intro q q' :
  wf q -> Forall (fun e => 0 < d_length e) (d_entryList q') ->
  d_size q' = sum_with d_length (d_entryList q') ->
  d_watermarkLow q' = d_watermarkLow q -> d_watermarkHigh q' = d_watermarkHigh q -> wf q'.
Proof. intros [] ? ? Hlow Hhigh. constructor; [done..|]. by rewrite Hlow, Hhigh. Qed.

Lemma receive_init_wf low high : 0 <= low -> 0 <= high -> wf (init low high).
Proof.
  intros Hl Hh. unfold init.
  pose proof (WatermarkUtil.sanitizeIncoming_ok low high Hl Hh) as Hok.
  destruct (WatermarkUtil.sanitizeIncomingQueueWatermarks low high).
  by constructor.
Qed.

Lemma receive_pushEntry_wf q e :
  wf q -> 0 < d_length e ->
  exists q', pushEntry e q = Some (q', negb (hasEntry q)) /\ wf q' /\
    d_entryList q' = d_entryList q ++ [e] /\ d_size q' = d_size q + d_length e.
Proof.
  intros Hq He. unfold pushEntry. rewrite (proj2 (Z.gtb_lt _ _)) by lia.
  exists (with_entries (d_entryList q ++ [e]) (d_size q + d_length e) q).
  split_and!; [|apply (wf_intro q); [done| | |done..]|done..].
  - do 2 f_equal. unfold hasEntry. destruct (d_entryList q) as [|x l]; [done|].
    apply Z.eqb_neq. szlia.
  - apply Forall_app. split; [apply (wf_entries _ Hq)|by split_Forall].
  - simpl. rewrite (wf_size _ Hq). autorewrite with ntf. lia.
Qed.

Lemma receive_popEntry_wf q e rest :
  wf q -> d_entryList q = e :: rest ->
  exists q', popEntry q = Some (q', negb (hasEntry q')) /\ wf q' /\
    d_entryList q' = rest /\ d_size q' = d_size q - d_length e /\
    d_callbackQueue q' = d_callbackQueue q.
Proof.
  intros Hq Hl. pose proof (wf_entries _ Hq) as Hall. rewrite Hl in Hall.
  apply Forall_cons_iff in Hall as [He Hrest].
  pose proof (wf_size _ Hq) as Hs. rewrite Hl, sum_with_cons in Hs.
  pose proof (lengths_nonneg _ Hrest).
  unfold popEntry. rewrite Hl, (proj2 (Z.gtb_lt _ _)), (proj2 (Z.geb_le _ _)) by lia.
  destruct (rearm_fields (with_entries (e :: rest) (d_size q - d_length e) q))
    as (? & Hsz & ? & ? & Hcb).
  eexists. split; [done|]. split_and!; [|done|exact Hsz|exact Hcb].
  apply (wf_intro q); [done..| |done|done]. simpl. rewrite Hsz. simpl. lia.
Qed.

Lemma popSize_wf q e rest n :
  wf q -> d_entryList q = e :: rest -> 0 <= n < d_length e ->
  exists q', popSize n q = Some q' /\ wf q' /\
    d_entryList q' = setLength (d_length e - n) e :: rest /\ d_size q' = d_size q - n /\
    d_callbackQueue q' = d_callbackQueue q.
Proof.
  intros Hq Hl Hn. pose proof (wf_entries _ Hq) as Hall. rewrite Hl in Hall.
  apply Forall_cons_iff in Hall as [He Hrest].
  pose proof (wf_size _ Hq) as Hs. rewrite Hl, sum_with_cons in Hs.
  pose proof (lengths_nonneg _ Hrest).
  unfold popSize. rewrite Hl, !(proj2 (Z.geb_le _ _)) by lia.
  destruct (rearm_fields (with_entries (setLength (d_length e - n) e :: rest)
                            (d_size q - n) q)) as (Hll & Hsz & ? & ? & Hcb).
  eexists. split; [done|]. split_and!; [|done..].
  apply (wf_intro q); [done| | |done..]; rewrite ?Hll, ?Hsz; simpl.
  - split_Forall; [simpl; lia|done].
  - rewrite sum_with_cons. simpl. lia.
Qed.

(** *** What one receiver gets *)

Lemma dequeue_loop_spec fuel maxSize remaining dequeued handle closed q :
  wf q -> (length (d_entryList q) < fuel)%nat ->
  0 < remaining -> 0 <= dequeued -> dequeued + remaining <= maxSize ->
  exists q' handle' closed',
    dequeue_loop fuel maxSize remaining dequeued handle closed q =
      Some (q', dequeued + Z.min (d_size q) remaining, handle', closed') /\
    wf q' /\ d_size q' = d_size q - Z.min (d_size q) remaining /\
    d_callbackQueue q' = d_callbackQueue q.
Proof.
  revert remaining dequeued handle closed q.
  induction fuel as [|fuel IH]; intros remaining dequeued handle closed q Hq Hf Hr Hd Hm;
    [lia|].
  pose proof (wf_size _ Hq) as Hs. pose proof (wf_entries _ Hq) as Hall.
  cbn [dequeue_loop]. unfold hasEntry at 1, frontEntry.
  destruct (d_entryList q) as [|e rest] eqn:Hl; cbn [negb head mbind option_bind].
  { exists q, handle, closed. rewrite Hs, sum_with_nil, Z.min_l, Z.add_0_r, Z.sub_0_r by lia.
    done. }
  apply Forall_cons_iff in Hall as [He Hrest]. rewrite sum_with_cons in Hs.
  pose proof (lengths_nonneg _ Hrest).
  rewrite (proj2 (Z.leb_le _ maxSize)), (proj2 (Z.geb_le remaining _)) by lia.
  set (hc := match d_foreignHandle e with Some _ => _ | None => _ end).
  destruct hc as [handle1 closed1].
  destruct (Z.eqb_spec (Z.min remaining (d_length e)) (d_length e)) as [Heq|Hne].
  - destruct (receive_popEntry_wf q e rest Hq Hl) as (q1 & -> & Hq1 & Hl1 & Hs1 & Hc1).
    cbn [mbind option_bind]. rewrite Heq.
    assert (Hsum1 : sum_with d_length rest = d_size q1) by lia.
    unfold hasEntry at 1. rewrite Hl1. destruct rest as [|e' rest']; cbn [negb].
    { rewrite sum_with_nil in *. exists q1, handle1, closed1.
      split_and!; [|done|lia|done]. do 4 f_equal. lia. }
    destruct (Z.eqb_spec (remaining - d_length e) 0).
    { exists q1, handle1, closed1. split_and!; [|done|lia|done]. do 4 f_equal. lia. }
    destruct (IH (remaining - d_length e) (dequeued + d_length e) handle1 closed1 q1)
      as (q2 & h2 & c2 & -> & Hq2 & Hs2 & Hc2); [done|rewrite Hl1; simpl in *; lia|lia..|].
    exists q2, h2, c2. split_and!; [|done|lia|congruence]. do 4 f_equal. lia.
  - destruct (popSize_wf q e rest (Z.min remaining (d_length e)) Hq Hl)
      as (q1 & -> & Hq1 & Hl1 & Hs1 & Hc1); [lia|].
    cbn [mbind option_bind]. exists q1, handle1, closed1.
    split_and!; [|done|lia|done]. do 4 f_equal. lia.
Qed.

Lemma dequeue_spec options q :
  wf q -> ReceiveOptions.ok options -> ReceiveOptions.d_minSize options <= d_size q ->
  exists q' handle closed,
    dequeue options q =
      Some (q', Z.min (d_size q) (ReceiveOptions.d_maxSize options), handle, closed) /\
    wf q' /\ d_size q' = d_size q - Z.min (d_size q) (ReceiveOptions.d_maxSize options) /\
    d_callbackQueue q' = d_callbackQueue q.
Proof.
  intros Hq Ho Hmin. unfold ReceiveOptions.ok in Ho.
  assert (Hhas : hasEntry q = true).
  { pose proof (wf_size _ Hq) as Hs. unfold hasEntry. destruct (d_entryList q); [|done].
    rewrite sum_with_nil in Hs. lia. }
  unfold dequeue. rewrite Hhas.
  destruct (dequeue_loop_spec (S (length (d_entryList q)))
              (ReceiveOptions.d_maxSize options) (ReceiveOptions.d_maxSize options)
              0 None [] q Hq) as (q' & h & c & -> & Hq' & Hs' & Hc'); [lia..|].
  cbn [mbind option_bind]. rewrite Z.add_0_l.
  rewrite (proj2 (Z.geb_le _ _)), (proj2 (Z.leb_le _ _)) by lia.
  by exists q', h, c.
Qed.

(** What dequeueing leaves alone. *)
Record dequeue_frame (q q' : t) : Prop := {
  df_queueData : d_queueData q' = d_queueData q;
  df_watermarkLow : d_watermarkLow q' = d_watermarkLow q;
  df_watermarkHigh : d_watermarkHigh q' = d_watermarkHigh q;
  df_trigger : d_trigger q' = d_trigger q;
  df_callbackQueue : d_callbackQueue q' = d_callbackQueue q
}.

Lemma rearm_frame q l n l' n' :
  dequeue_frame q (with_entries l' n' (rearm (with_entries l n q))).
Proof. unfold rearm. repeat case_match; by split. Qed.

Lemma dequeue_loop_frame fuel maxSize remaining dequeued handle closed q q' n h c :
  dequeue_loop fuel maxSize remaining dequeued handle closed q = Some (q', n, h, c) ->
  dequeue_frame q q'.
Proof.
  revert remaining dequeued handle closed q.
  induction fuel as [|fuel IH]; intros remaining dequeued handle closed q Hx; [done|].
  cbn [dequeue_loop] in Hx.
  destruct (hasEntry q); simpl in Hx; [|by injection Hx as <- _ _ _].
  apply bind_Some in Hx as (entry & _ & Hx).
  destruct (_ <=? maxSize); [|done]. destruct (remaining >=? _); [|done].
  destruct (match d_foreignHandle entry with Some _ => _ | None => _ end) as [h1 c1].
  destruct (_ =? d_length entry).
  - apply bind_Some in Hx as ([q1 empty] & Hp & Hx).
    assert (F1 : dequeue_frame q q1).
    { unfold popEntry in Hp. destruct (d_entryList q) as [|e rest]; [done|].
      destruct (d_length e >? 0); [|done]. destruct (d_size q >=? d_length e); [|done].
      injection Hp as <- _. apply rearm_frame. }
    destruct empty; [by injection Hx as <- _ _ _|].
    destruct (_ =? 0); [by injection Hx as <- _ _ _|].
    apply IH in Hx. destruct F1, Hx. split; congruence.
  - apply bind_Some in Hx as (q1 & Hp & Hx). injection Hx as <- _ _ _.
    unfold popSize in Hp. destruct (d_entryList q) as [|e rest]; [done|].
    destruct (d_length e >=? _); [|done]. destruct (d_size q >=? _); [|done].
    injection Hp as <-. unfold rearm. repeat case_match; by split.
Qed.

Lemma dequeue_frame_spec options q q' n h c :
  dequeue options q = Some (q', n, h, c) -> dequeue_frame q q'.
Proof.
  unfold dequeue. destruct (hasEntry q); [|done]. intros Hx.
  apply bind_Some in Hx as ([[[q1 n1] h1] c1] & Hl & Hx).
  destruct (n1 >=? _); [|done]. destruct (n1 <=? _); [|done]. injection Hx as <- <- <- <-.
  by apply dequeue_loop_frame in Hl.
Qed.

(** A receiver whose minimum size is available gets exactly the smaller of
    the size of the queue and its maximum size, no assertion fails, the loop
    terminates within the number of entries, and the invariant of the queue
    (the size is the sum of positive lengths) is preserved. *)
Theorem dequeue_exact options q :
  wf q -> ReceiveOptions.ok options -> ReceiveOptions.d_minSize options <= d_size q ->
  exists q' handle closed,
    dequeue options q =
      Some (q', Z.min (d_size q) (ReceiveOptions.d_maxSize options), handle, closed) /\
    wf q' /\ d_size q' = d_size q - Z.min (d_size q) (ReceiveOptions.d_maxSize options) /\
    d_callbackQueue q' = d_callbackQueue q.
Proof.
  apply dequeue_spec.
Qed.

(** When only part of the front entry is dequeued, the foreign handle of
    the entry is given to the receiver and also stays in the queue, where the
    next receiver finds it again. *)
Theorem partial_dequeue_keeps_handle options q e rest handle :
  wf q -> ReceiveOptions.ok options -> d_entryList q = e :: rest ->
  d_foreignHandle e = Some handle -> ReceiveOptions.d_maxSize options < d_length e ->
  exists q' e',
    dequeue options q =
      Some (q', ReceiveOptions.d_maxSize options, Some handle, []) /\
    d_entryList q' = e' :: rest /\ d_foreignHandle e' = Some handle.
Proof.
  intros Hq Ho Hl Hh Hlt. unfold ReceiveOptions.ok in Ho.
  unfold dequeue, hasEntry. rewrite Hl. cbn [length dequeue_loop].
  unfold hasEntry, frontEntry. rewrite Hl. cbn [negb head mbind option_bind].
  rewrite Z.min_l, Z.add_0_l, Hh by lia.
  rewrite (proj2 (Z.leb_le _ _)), (proj2 (Z.geb_le _ _)), (proj2 (Z.eqb_neq _ _)) by lia.
  destruct (popSize_wf q e rest (ReceiveOptions.d_maxSize options) Hq Hl)
    as (q' & -> & _ & Hl' & _); [lia|].
  cbn [mbind option_bind].
  rewrite (proj2 (Z.geb_le _ _)), (proj2 (Z.leb_le _ _)) by lia.
  exists q', (setLength (d_length e - ReceiveOptions.d_maxSize options) e). done.
Qed.

End Queue.
Arguments t {T}.
(** *** Instances of the properties *)
Section Example.

#[local] Instance ExampleTypes : ReceiveTypes := {
  ReceiveBlob := unit; ReceiveEndpoint := unit; ReceiveTimer := Z; ReceiveCallback := Z
}.

Definition three : t :=
  mk [ReceiveQueueEntry.mk None None 3 0 None; ReceiveQueueEntry.mk None None 4 0 (Some 42);
      ReceiveQueueEntry.mk None None 2 0 (Some 43)]
     None 9 1 true 100 true e_LEVEL [].

Lemma three_wf : wf three.
Proof.
  constructor; [split_Forall; simpl; lia|reflexivity|].
  unfold WatermarkUtil.incoming_ok. simpl. lia.
Qed.

Lemma dequeue_exact_witness :
  exists q' handle closed,
    dequeue (ReceiveOptions.mk None 2 8 None false) three = Some (q', 8, handle, closed) /\
    wf q' /\ d_size q' = 1.
Proof.
  destruct (dequeue_exact (ReceiveOptions.mk None 2 8 None false) three three_wf)
    as (q' & h & c & Hd & Hq & Hs & _).
  - unfold ReceiveOptions.ok. simpl. lia.
  - simpl. lia.
  - exists q', h, c. split; [exact Hd|]. split; [exact Hq|exact Hs].
Defined.

Definition descriptor_first : t :=
  mk [ReceiveQueueEntry.mk None None 4 0 (Some 42)] None 4 1 true 100 true e_LEVEL [].

Lemma partial_dequeue_keeps_handle_witness :
  exists q' e',
    dequeue (ReceiveOptions.mk None 1 3 None false) descriptor_first
      = Some (q', 3, Some 42, []) /\
    d_entryList q' = [e'] /\ ReceiveQueueEntry.d_foreignHandle e' = Some 42.
Proof.
  refine (partial_dequeue_keeps_handle (ReceiveOptions.mk None 1 3 None false)
            descriptor_first (ReceiveQueueEntry.mk None None 4 0 (Some 42)) [] 42 _ _ _ _ _).
  - constructor; [split_Forall; simpl; lia|reflexivity|].
    unfold WatermarkUtil.incoming_ok. simpl. lia.
  - unfold ReceiveOptions.ok. simpl. lia.
  - reflexivity.
  - reflexivity.
  - simpl. lia.
Defined.

End Example.
End ReceiveQueue.
