(* ===== verification/SocketState.v ===== *)
(** * The state machines of a socket

    Whether a socket is open ([ntcs_openstate.h]), which directions it has
    shut down ([ntcs_shutdowncontext.h], [ntcs_shutdownstate.cpp]) and which
    events it wants from its reactor ([ntcs_flowcontrolcontext.h],
    [ntcs_flowcontrolstate.cpp]). *)

From S2P Require Import Prelude.

(** ** [ntcs::OpenState] *)
Module OpenState.

Inductive t : Type := e_DEFAULT | e_WAITING | e_CONNECTING | e_CONNECTED | e_CLOSED.

#[global] Instance t_eq_dec : EqDecision t.
Proof. solve_decision. Defined.

Definition canBind (s : t) : bool := bool_decide (s = e_DEFAULT).
Definition canConnect (s : t) : bool := bool_decide (s = e_DEFAULT).
Definition canSend (s : t) : bool := bool_decide (s = e_CONNECTED).
Definition canReceive (s : t) : bool :=
  bool_decide (s = e_CONNECTED) || bool_decide (s = e_CLOSED).

End OpenState.

(** ** [ntcs::ShutdownContext] and [ntcs::ShutdownState] *)
Inductive ShutdownOrigin : Type := e_SOURCE | e_REMOTE.

#[export] Instance ShutdownOrigin_eq_dec : EqDecision ShutdownOrigin.
Proof. solve_decision. Defined.

Module ShutdownContext.

Record t : Type := mk {
  d_shutdownOrigin : ShutdownOrigin;
  d_shutdownInitiated : bool;
  d_shutdownSend : bool;
  d_shutdownReceive : bool;
  d_shutdownCompleted : bool
}.

Definition reset : t := mk e_SOURCE false false false false.

Definition setShutdownOrigin (v : ShutdownOrigin) (c : t) : t :=
  mk v (d_shutdownInitiated c) (d_shutdownSend c) (d_shutdownReceive c)
     (d_shutdownCompleted c).
Definition setShutdownInitiated (v : bool) (c : t) : t :=
  mk (d_shutdownOrigin c) v (d_shutdownSend c) (d_shutdownReceive c)
     (d_shutdownCompleted c).
Definition setShutdownSend (v : bool) (c : t) : t :=
  mk (d_shutdownOrigin c) (d_shutdownInitiated c) v (d_shutdownReceive c)
     (d_shutdownCompleted c).
Definition setShutdownReceive (v : bool) (c : t) : t :=
  mk (d_shutdownOrigin c) (d_shutdownInitiated c) (d_shutdownSend c) v
     (d_shutdownCompleted c).
Definition setShutdownCompleted (v : bool) (c : t) : t :=
  mk (d_shutdownOrigin c) (d_shutdownInitiated c) (d_shutdownSend c)
     (d_shutdownReceive c) v.

End ShutdownContext.

Module ShutdownState.
Import ShutdownContext.

(** The state is a context; the operations take it, and return the state, the
    context loaded for the caller and whether anything was shut down. *)
Definition t : Type := ShutdownContext.t.

Definition initiated (s : t) : bool := d_shutdownInitiated s.
Definition canSend (s : t) : bool := negb (d_shutdownSend s).
Definition canReceive (s : t) : bool := negb (d_shutdownReceive s).
Definition completed (s : t) : bool := d_shutdownCompleted s.

(** Setting the same member of the caller's context and of the state. *)
Definition both (f : ShutdownContext.t -> ShutdownContext.t)
  (p : ShutdownContext.t * t) : ShutdownContext.t * t := (f p.1, f p.2).

(** The last step of both operations. *)
Definition complete (p : ShutdownContext.t * t) : option (ShutdownContext.t * t) :=
  if negb (d_shutdownCompleted p.2) then
    assert! d_shutdownInitiated p.2 ;; Some (both (setShutdownCompleted true) p)
  else Some p.

Definition initiate (origin : ShutdownOrigin) (p : ShutdownContext.t * t)
  : ShutdownContext.t * t :=
  if negb (d_shutdownInitiated p.2)
  then both (setShutdownInitiated true) (both (setShutdownOrigin origin) p)
  else p.

Definition tryShutdownSend (keepHalfOpen : bool) (s : t)
  : option (t * ShutdownContext.t * bool) :=
  let context := ShutdownContext.reset in
  if d_shutdownSend s then Some (s, context, false) else
  let p := both (setShutdownSend true) (context, s) in
  let p :=
    if negb keepHalfOpen then
      if negb (d_shutdownReceive p.2) then both (setShutdownReceive true) p else p
    else p in
  let p := initiate e_SOURCE p in
  p ← (if d_shutdownReceive p.2 then complete p else Some p);
  Some (p.2, p.1, true).

Definition tryShutdownReceive (keepHalfOpen : bool) (origin : ShutdownOrigin) (s : t)
  : option (t * ShutdownContext.t * bool) :=
  let context := ShutdownContext.reset in
  if d_shutdownReceive s then Some (s, context, false) else
  let p := both (setShutdownReceive true) (context, s) in
  let p :=
    if negb keepHalfOpen then
      if negb (d_shutdownSend p.2) then both (setShutdownSend true) p else p
    else p in
  let p :=
    if bool_decide (origin = e_REMOTE) || negb keepHalfOpen
    then initiate origin p else p in
  p ← (if d_shutdownSend p.2 then complete p else Some p);
  Some (p.2, p.1, true).

Definition close (s : t) : t :=
  let s :=
    if negb (d_shutdownInitiated s)
    then setShutdownInitiated true (setShutdownOrigin e_SOURCE s) else s in
  setShutdownCompleted true (setShutdownReceive true (setShutdownSend true s)).

(** *** Runs *)

Inductive op : Type :=
| op_send (keepHalfOpen : bool)
| op_receive (keepHalfOpen : bool) (origin : ShutdownOrigin)
| op_close.

(** An operation and the context it reports, when it reports one. *)
Definition exec (o : op) (s : t) : option (t * list ShutdownContext.t) :=
  match o with
  | op_send k => '(s, c, b) ← tryShutdownSend k s; Some (s, if b : bool then [c] else [])
  | op_receive k origin =>
      '(s, c, b) ← tryShutdownReceive k origin s; Some (s, if b : bool then [c] else [])
  | op_close => Some (close s, [])
  end.

Fixpoint run (ops : list op) (s : t) : option (t * list ShutdownContext.t) :=
  match ops with
  | [] => Some (s, [])
  | o :: rest =>
      '(s, reported) ← exec o s;
      '(s, reported') ← run rest s;
      Some (s, reported ++ reported')
  end.

(** Shutting down the send direction initiates the sequence, and the sequence
    is complete when both directions are shut down. *)
Definition wf (s : t) : Prop :=
  (d_shutdownSend s = true -> d_shutdownInitiated s = true) /\
  d_shutdownCompleted s = d_shutdownSend s && d_shutdownReceive s.

(** The four members a context reports. *)
Definition flags : list (ShutdownContext.t -> bool) :=
  [d_shutdownInitiated; d_shutdownSend; d_shutdownReceive; d_shutdownCompleted].

Definition b2z (b : bool) : Z := if b then 1 else 0.

Definition reports (f : ShutdownContext.t -> bool) (l : list ShutdownContext.t) : Z :=
  sum_with (fun c => b2z (f c)) l.

(** An operation never fails an assertion, and what it reports is what it
    changes: unless the state was closed silently, each member goes from false
    to true exactly when it is reported. *)
Lemma exec_spec o s :
  wf s ->
  exists s' l, exec o s = Some (s', l) /\ wf s' /\
    Forall (fun f => b2z (f s) + reports f l <= b2z (f s') /\
                     (o <> op_close -> b2z (f s) + reports f l = b2z (f s'))) flags.
Proof.
  destruct s as [origin i sd rc c]. unfold wf. cbn. intros [Hsi Hc].
  destruct o as [k|k o|].
  - destruct i, sd, rc, k, c; try (specialize (Hsi eq_refl)); try discriminate;
      do 2 eexists; (split; [reflexivity|]); cbn; (split; [done|]);
      unfold flags; split_Forall; (split; [|intros _]); vm_compute; done.
  - destruct i, sd, rc, k, c, o; try (specialize (Hsi eq_refl)); try discriminate;
      do 2 eexists; (split; [reflexivity|]); cbn; (split; [done|]);
      unfold flags; split_Forall; (split; [|intros _]); vm_compute; done.
  - destruct i, sd, rc, c; try (specialize (Hsi eq_refl)); try discriminate;
      do 2 eexists; (split; [reflexivity|]); cbn; (split; [done|]);
      unfold flags; split_Forall; (split; [|done]); vm_compute; done.
Qed.

Lemma run_spec ops s :
  wf s ->
  exists s' l, run ops s = Some (s', l) /\ wf s' /\
    Forall (fun f => b2z (f s) + reports f l <= b2z (f s') /\
                     (Forall (fun o => o <> op_close) ops ->
                      b2z (f s) + reports f l = b2z (f s'))) flags.
Proof.
  revert s. induction ops as [|o ops IH]; intros s Hs.
  - exists s, []. split_and!; [done|done|]. unfold flags.
    split_Forall; (split; [|intros _]); unfold reports; rewrite sum_with_nil; lia.
  - destruct (exec_spec o s Hs) as (s1 & l1 & He & Hs1 & Hf1).
    destruct (IH s1 Hs1) as (s2 & l2 & Hr & Hs2 & Hf2).
    exists s2, (l1 ++ l2). simpl. rewrite He. simpl. rewrite Hr. split_and!; [done|done|].
    rewrite List.Forall_forall in *. intros f Hf.
    destruct (Hf1 f Hf) as [H1 H1'], (Hf2 f Hf) as [H2 H2'].
    unfold reports in *. rewrite sum_with_app. split; [lia|].
    intros Hno. apply Forall_cons_iff in Hno as [Ho Hno].
    specialize (H1' Ho). specialize (H2' Hno). lia.
Qed.

(** C21: whatever sequence of shutdowns is tried on a fresh socket, no
    assertion fails, and over the whole sequence the initiation, the shutdown
    of each direction and the completion are each reported at most once; when
    the state is not closed abruptly, each is reported exactly once if it
    happened, and completion happens exactly when both directions are shut
    down. *)
Theorem shutdown_reported_once ops :
  exists s l,
    run ops ShutdownContext.reset = Some (s, l) /\
    d_shutdownCompleted s = d_shutdownSend s && d_shutdownReceive s /\
    (d_shutdownSend s = true -> d_shutdownInitiated s = true) /\
    Forall (fun f => 0 <= reports f l <= 1 /\
                     (Forall (fun o => o <> op_close) ops -> reports f l = b2z (f s)))
           flags.
Proof.
  destruct (run_spec ops ShutdownContext.reset) as (s & l & Hr & [Hi Hc] & Hf); [done|].
  exists s, l. split_and!; [done..|].
  rewrite List.Forall_forall in *. intros f Hin. destruct (Hf f Hin) as [H1 H2].
  assert (H0 : b2z (f ShutdownContext.reset) = 0).
  { destruct Hin as [<-|[<-|[<-|[<-|[]]]]]; done. }
  rewrite H0 in *.
  assert (0 <= reports f l).
  { apply sum_with_nonneg, List.Forall_forall. intros c _. by destruct (f c). }
  assert (b2z (f s) <= 1) by (by destruct (f s)).
  split; [lia|]. intros Hno. specialize (H2 Hno). lia.
Qed.

End ShutdownState.

(** ** [ntcs::FlowControlContext] and [ntcs::FlowControlState] *)
Inductive FlowControlType : Type := e_SEND | e_RECEIVE | e_BOTH.

Module FlowControlContext.

Record t : Type := mk { d_enableSend : bool; d_enableReceive : bool }.

Definition reset : t := mk false false.
Definition setEnableSend (v : bool) (c : t) : t := mk v (d_enableReceive c).
Definition setEnableReceive (v : bool) (c : t) : t := mk (d_enableSend c) v.

End FlowControlContext.

Module FlowControlState.
Import FlowControlContext.

Record t : Type := mk {
  d_enableSend : bool;
  d_enableReceive : bool;
  d_lockSend : bool;
  d_lockReceive : bool;
  d_closed : bool
}.

Definition init : t := mk false false false false false.

Definition wantSend (s : t) : bool := d_enableSend s.
Definition wantReceive (s : t) : bool := d_enableReceive s.

(** The [switch] at the head of the three operations. *)
Definition selects (type : FlowControlType) : bool * bool :=
  match type with
  | e_SEND => (true, false)
  | e_RECEIVE => (false, true)
  | e_BOTH => (true, true)
  end.

(** The context at the end of the three operations. *)
Definition load (s : t) : FlowControlContext.t :=
  setEnableReceive (d_enableReceive s) (setEnableSend (d_enableSend s) reset).

(** The state, the context loaded and the result. *)
Definition apply (type : FlowControlType) (lock : bool) (s : t)
  : t * FlowControlContext.t * bool :=
  if d_closed s then (s, reset, false) else
  let result := false in
  let '(applySend, applyReceive) := selects type in
  let '(s, result) :=
    if applySend then
      let '(s, result) :=
        if negb (d_lockSend s) && d_enableSend s
        then (mk false (d_enableReceive s) (d_lockSend s) (d_lockReceive s) (d_closed s), true)
        else (s, result) in
      let s :=
        if lock
        then mk (d_enableSend s) (d_enableReceive s) true (d_lockReceive s) (d_closed s)
        else s in
      (s, result)
    else (s, result) in
  let '(s, result) :=
    if applyReceive then
      let '(s, result) :=
        if negb (d_lockReceive s) && d_enableReceive s
        then (mk (d_enableSend s) false (d_lockSend s) (d_lockReceive s) (d_closed s), true)
        else (s, result) in
      let s :=
        if lock
        then mk (d_enableSend s) (d_enableReceive s) (d_lockSend s) true (d_closed s)
        else s in
      (s, result)
    else (s, result) in
  (s, load s, result).

Definition relax (type : FlowControlType) (unlock : bool) (s : t)
  : t * FlowControlContext.t * bool :=
  if d_closed s then (s, reset, false) else
  let result := false in
  let '(relaxSend, relaxReceive) := selects type in
  let '(s, result) :=
    if relaxSend then
      let s :=
        if unlock
        then mk (d_enableSend s) (d_enableReceive s) false (d_lockReceive s) (d_closed s)
        else s in
      if negb (d_lockSend s) && negb (d_enableSend s)
      then (mk true (d_enableReceive s) (d_lockSend s) (d_lockReceive s) (d_closed s), true)
      else (s, result)
    else (s, result) in
  let '(s, result) :=
    if relaxReceive then
      let s :=
        if unlock
        then mk (d_enableSend s) (d_enableReceive s) (d_lockSend s) false (d_closed s)
        else s in
      if negb (d_lockReceive s) && negb (d_enableReceive s)
      then (mk (d_enableSend s) true (d_lockSend s) (d_lockReceive s) (d_closed s), true)
      else (s, result)
    else (s, result) in
  (s, load s, result).

Definition close (s : t) : t := mk false false false false true.

Definition reset_state (s : t) : t := mk false false false false false.

(** Whether events must be rearmed; it changes no state. *)
Definition rearm (type : FlowControlType) (oneShot : bool) (s : t)
  : option (FlowControlContext.t * bool) :=
  if negb oneShot then Some (reset, false) else
  if d_closed s then Some (reset, false) else
  let result := false in
  let '(rearmSend, rearmReceive) := selects type in
  result ←
    (if rearmSend && d_enableSend s
     then assert! negb (d_lockSend s) ;; Some true else Some result);
  result ←
    (if rearmReceive && d_enableReceive s
     then assert! negb (d_lockReceive s) ;; Some true else Some (result : bool));
  Some (load s, result).

(** *** Reachable states *)

Inductive op : Type :=
| op_apply (type : FlowControlType) (lock : bool)
| op_relax (type : FlowControlType) (unlock : bool)
| op_close
| op_reset.

Definition exec (o : op) (s : t) : t * bool :=
  match o with
  | op_apply type lock => let '(s, _, r) := apply type lock s in (s, r)
  | op_relax type unlock => let '(s, _, r) := relax type unlock s in (s, r)
  | op_close => (close s, false)
  | op_reset => (reset_state s, false)
  end.

Inductive reachable : t -> Prop :=
| reachable_init : reachable init
| reachable_exec s o : reachable s -> reachable (exec o s).1.

(** A locked direction is disabled, and a closed state wants nothing. *)
Definition wf (s : t) : Prop :=
  (d_lockSend s = true -> d_enableSend s = false) /\
  (d_lockReceive s = true -> d_enableReceive s = false) /\
  (d_closed s = true -> d_enableSend s = false /\ d_enableReceive s = false).

Ltac flow_cases s :=
  destruct s as [[] [] [] [] []]; cbn in *;
  repeat match goal with H : true = true -> _ |- _ => specialize (H eq_refl) end;
  intuition congruence.

Lemma flow_exec_wf o s : wf s -> wf (exec o s).1.
Proof.
  unfold wf. destruct o as [type lock|type unlock| |]; try done;
    try destruct type; try destruct lock; try destruct unlock; intros (H1 & H2 & H3);
    flow_cases s.
Qed.

Lemma reachable_wf s : reachable s -> wf s.
Proof. induction 1; [done|by apply flow_exec_wf]. Qed.

(** In every state reached by applying, relaxing, closing and resetting
    flow control, rearming fails no assertion and asks for events exactly when
    the reactor is in one-shot mode and one of the selected directions is
    enabled; and an operation that is not a close or a reset reports a change
    exactly when it changes which directions are enabled. *)
Theorem flow_control_spec s type oneShot o :
  reachable s ->
  rearm type oneShot s =
    Some (if oneShot && negb (d_closed s) then load s else reset,
          oneShot && ((selects type).1 && d_enableSend s
                      || (selects type).2 && d_enableReceive s)) /\
  match o with
  | op_apply _ _ | op_relax _ _ =>
      (exec o s).2 = true <->
      (d_enableSend (exec o s).1, d_enableReceive (exec o s).1)
        <> (d_enableSend s, d_enableReceive s)
  | _ => True
  end.
Proof.
  intros Hs. apply reachable_wf in Hs. unfold wf in Hs. split.
  - destruct Hs as (H1 & H2 & H3). destruct type, oneShot; flow_cases s.
  - destruct o as [type' lock|type' unlock| |]; [| |done|done];
      destruct Hs as (H1 & H2 & H3); destruct type';
      try destruct lock; try destruct unlock; flow_cases s.
Qed.

Lemma flow_control_spec_witness :
  rearm e_BOTH true (exec (op_relax e_SEND true) init).1
    = Some (FlowControlContext.mk true false, true).
Proof.
  exact (proj1 (flow_control_spec (exec (op_relax e_SEND true) init).1 e_BOTH true
                  op_close (reachable_exec init _ reachable_init))).
Defined.

(** A direction locked by the user stays disabled through any applying,
    relaxing without unlocking and resetting-free sequence of internal
    operations, until it is unlocked, reset or closed. *)
Theorem lock_holds s ops :
  reachable s -> d_lockSend s = true ->
  Forall (fun o => match o with
                   | op_apply _ _ | op_relax _ false | op_relax e_RECEIVE true => True
                   | _ => False
                   end) ops ->
  let s' := fold_left (fun s o => (exec o s).1) ops s in
  d_enableSend s' = false /\ d_lockSend s' = true.
Proof.
  intros Hs Hl Hops. revert s Hs Hl.
  induction Hops as [|o ops Ho _ IH]; intros s Hs Hl.
  - split; [|done]. by apply reachable_wf in Hs as (Hw & _); apply Hw.
  - simpl. apply IH; [by constructor|]. clear Hs IH.
    destruct o as [type lock|type unlock| |]; [| |done|done];
      destruct type; try destruct lock; try destruct unlock; try done;
      destruct s as [[] [] [] [] []]; cbn in *; done.
Qed.

Lemma lock_holds_witness :
  let s := (exec (op_apply e_SEND true) init).1 in
  d_enableSend (fold_left (fun s o => (exec o s).1)
                  [op_relax e_BOTH false; op_apply e_SEND false; op_relax e_SEND false] s)
  = false.
Proof.
  refine (proj1 (lock_holds (exec (op_apply e_SEND true) init).1
                   [op_relax e_BOTH false; op_apply e_SEND false; op_relax e_SEND false]
                   (reachable_exec init _ reachable_init) eq_refl _)).
  by split_Forall.
Defined.

End FlowControlState.
