(* ===== verification/Strand.v ===== *)
(** * Strands

    [ntcs_strand.h] and [ntcs_strand.cpp] with the greedy implementation that
    the source selects.  A strand serializes functors over an executor driven
    by many threads.  Each critical section of its mutex is a function on the
    strand; the threads interleave between critical sections, before each
    functor they run and between setting [d_pending] and handing [invoke] over
    to the executor. *)

From S2P Require Import Prelude.

Module Strand.
Section Strand.
(** Functors: what they do is up to the user, and includes calling the strand
    again from any thread. *)
Context {F : Type}.

Record t : Type := mk {
  d_functorQueue : list F;
  d_pending : bool
}.

Definition init : t := mk [] false.

(** *** Critical sections *)

(** [execute]: the strand and whether the caller must activate it. *)
Definition execute (function : F) (s : t) : t * bool :=
  let queue := d_functorQueue s ++ [function] in
  if negb (d_pending s) then (mk queue true, true) else (mk queue (d_pending s), false).

Definition moveAndExecute (functorSequence : list F) (functor : option F) (s : t)
  : t * bool :=
  let queue := d_functorQueue s ++ functorSequence in
  let queue := match functor with Some f => queue ++ [f] | None => queue end in
  if negb (d_pending s) then (mk queue true, true) else (mk queue (d_pending s), false).

(** The critical section of an iteration of [invoke]: the functors to run, or
    the end of the invocation. *)
Definition invoke_take (s : t) : option (t * option (list F)) :=
  assert! d_pending s ;;
  match d_functorQueue s with
  | [] => Some (mk [] false, None)
  | queue => Some (mk [] (d_pending s), Some queue)
  end.

(** The same for [drain], which is for an executor that no longer runs. *)
Definition drain_take (s : t) : option (t * option (list F)) :=
  assert! negb (d_pending s) ;;
  match d_functorQueue s with
  | [] => Some (s, None)
  | queue => Some (mk [] (d_pending s), Some queue)
  end.

Definition clear (s : t) : t := mk [] (d_pending s).

(** *** Threads *)

(** A thread inside [invoke] (or [drain]): about to enter the critical
    section, or running the functors it took out. *)
Inductive pc : Type := Taking | Running (batch : list F).

(** The strand, the threads that must still hand [invoke] to the executor, the
    invocations the executor has not started, and the threads inside [invoke]
    and [drain]. *)
Record state : Type := mkState {
  strand : t;
  activating : nat;
  scheduled : nat;
  invoking : list pc;
  draining : list pc
}.

Definition init_state : state := mkState init 0 0 [] [].

Inductive label : Type :=
| l_push (fs : list F)
| l_run (f : F)
| l_clear
| l_drain
| l_internal.

(** The labels count the functors pushed and run, in order. *)
Definition activations (activate : bool) : nat := if activate then 1%nat else 0%nat.

Inductive step : state -> label -> state -> Prop :=
| step_execute s a n i d f s' activate :
    execute f s = (s', activate) ->
    step (mkState s a n i d) (l_push [f])
         (mkState s' (activations activate + a) n i d)
| step_moveAndExecute s a n i d fs f s' activate :
    moveAndExecute fs f s = (s', activate) ->
    step (mkState s a n i d) (l_push (fs ++ option_list f))
         (mkState s' (activations activate + a) n i d)
| step_activate s a n i d :
    step (mkState s (S a) n i d) l_internal (mkState s a (S n) i d)
| step_start s a n i d :
    step (mkState s a (S n) i d) l_internal (mkState s a n (i ++ [Taking]) d)
| step_take s a n l r d s' batch :
    invoke_take s = Some (s', Some batch) ->
    step (mkState s a n (l ++ Taking :: r) d) l_internal
         (mkState s' a n (l ++ Running batch :: r) d)
| step_end s a n l r d s' :
    invoke_take s = Some (s', None) ->
    step (mkState s a n (l ++ Taking :: r) d) l_internal (mkState s' a n (l ++ r) d)
| step_run s a n l r d f batch :
    step (mkState s a n (l ++ Running (f :: batch) :: r) d) (l_run f)
         (mkState s a n (l ++ Running batch :: r) d)
| step_again s a n l r d :
    step (mkState s a n (l ++ Running [] :: r) d) l_internal
         (mkState s a n (l ++ Taking :: r) d)
| step_clear s a n i d :
    step (mkState s a n i d) l_clear (mkState (clear s) a n i d)
| step_drain s a n i d :
    step (mkState s a n i d) l_drain (mkState s a n i (d ++ [Taking]))
| step_drain_take s a n i l r s' batch :
    drain_take s = Some (s', Some batch) ->
    step (mkState s a n i (l ++ Taking :: r)) l_drain
         (mkState s' a n i (l ++ Running batch :: r))
| step_drain_end s a n i l r s' :
    drain_take s = Some (s', None) ->
    step (mkState s a n i (l ++ Taking :: r)) l_drain (mkState s' a n i (l ++ r))
| step_drain_run s a n i l r f batch :
    step (mkState s a n i (l ++ Running (f :: batch) :: r)) (l_run f)
         (mkState s a n i (l ++ Running batch :: r))
| step_drain_again s a n i l r :
    step (mkState s a n i (l ++ Running [] :: r)) l_drain
         (mkState s a n i (l ++ Taking :: r)).

Inductive steps : state -> list label -> state -> Prop :=
| steps_refl s : steps s [] s
| steps_snoc s ls s' l s'' : steps s ls s' -> step s' l s'' -> steps s (ls ++ [l]) s''.

Definition pushed (ls : list label) : list F :=
  concat (map (fun l => match l with l_push fs => fs | _ => [] end) ls).

Definition run (ls : list label) : list F :=
  concat (map (fun l => match l with l_run f => [f] | _ => [] end) ls).

Definition is_drain (l : label) : bool := match l with l_drain => true | _ => false end.
Definition is_clear (l : label) : bool := match l with l_clear => true | _ => false end.

(** *** The invariant *)

(** The functors taken out of the queue and not run yet. *)
Definition in_flight (s : state) : list F :=
  concat (map (fun p => match p with Taking => [] | Running b => b end) (invoking s)).

(** The strand is pending exactly when one thread is responsible for it. *)
Record inv (s : state) : Prop := {
  inv_one : (activating s + scheduled s + length (invoking s))%nat =
            (if d_pending (strand s) then 1 else 0)%nat;
  inv_queue : d_pending (strand s) = false -> d_functorQueue (strand s) = [];
  inv_drain : draining s = []
}.

Lemma length_one_middle {A} (l r : list A) x n :
  (n + length (l ++ x :: r))%nat = 1%nat -> l = [] /\ r = [] /\ n = 0%nat.
Proof. rewrite length_app. simpl. destruct l, r; simpl; intros; split_and!; auto; lia. Qed.

Lemma inv_init : inv init_state.
Proof. by constructor. Qed.

(** With one responsible thread, the thread that moves is alone. *)
Lemma inv_alone s a n l r p d :
  inv (mkState s a n (l ++ p :: r) d) ->
  l = [] /\ r = [] /\ a = 0%nat /\ n = 0%nat /\ d_pending s = true /\ d = [].
Proof.
  intros [H1 H2 H3]. simpl in *. destruct (d_pending s).
  - apply length_one_middle in H1 as (-> & -> & ?). split_and!; (done || lia).
  - rewrite length_app in H1. simpl in H1. lia.
Qed.

Lemma inv_step s l s' : inv s -> step s l s' -> is_drain l = false -> inv s'.
Proof.
  intros Hs Hstep Hl. destruct Hstep; try done.
  - unfold execute in *. destruct Hs as [H1 H2 H3]; simpl in *.
    destruct s as [q []]; simpl in *; simplify_eq; constructor; simpl; (done || lia).
  - unfold moveAndExecute in *. destruct Hs as [H1 H2 H3]; simpl in *.
    destruct s as [q []]; simpl in *; simplify_eq; constructor; simpl; (done || lia).
  - destruct Hs as [H1 H2 H3]. constructor; simpl in *; [lia|done..].
  - destruct Hs as [H1 H2 H3]. constructor; simpl in *; [|done..].
    rewrite length_app. simpl. lia.
  - apply inv_alone in Hs as (-> & -> & -> & -> & Hp & ->).
    unfold invoke_take in *. rewrite Hp in *. destruct (d_functorQueue s); simplify_eq.
    by constructor.
  - apply inv_alone in Hs as (-> & -> & -> & -> & Hp & ->).
    unfold invoke_take in *. rewrite Hp in *. destruct (d_functorQueue s); simplify_eq.
    by constructor.
  - apply inv_alone in Hs as (-> & -> & -> & -> & Hp & ->).
    constructor; simpl; rewrite ?Hp; done.
  - apply inv_alone in Hs as (-> & -> & -> & -> & Hp & ->).
    constructor; simpl; rewrite ?Hp; done.
  - destruct Hs as [H1 H2 H3]. by constructor.
  - destruct Hs as [_ _ H3]. simpl in H3. by destruct l.
Qed.

Lemma steps_inv s ls s' :
  inv s -> steps s ls s' -> existsb is_drain ls = false -> inv s'.
Proof.
  intros Hs Hsteps. induction Hsteps as [|s ls s' l s'' Hsteps IH Hstep]; [done|].
  rewrite existsb_app, orb_false_iff. simpl. rewrite orb_false_r. intros [Hls Hl].
  apply (inv_step s' l); auto.
Qed.

(** *** Order *)

Definition outstanding (s : state) : list F := in_flight s ++ d_functorQueue (strand s).

Lemma run_app ls ls' : run (ls ++ ls') = run ls ++ run ls'.
Proof. unfold run. by rewrite map_app, concat_app. Qed.

Lemma pushed_app ls ls' : pushed (ls ++ ls') = pushed ls ++ pushed ls'.
Proof. unfold pushed. by rewrite map_app, concat_app. Qed.

(** What a step does to the functors that are outstanding. *)
Lemma step_outstanding s l s' :
  inv s -> step s l s' -> is_drain l = false ->
  if is_clear l then outstanding s' = in_flight s
  else outstanding s ++ pushed [l] = run [l] ++ outstanding s'.
Proof.
  intros Hs Hstep Hl. unfold outstanding, in_flight.
  destruct Hstep; try discriminate; cbn [is_clear strand invoking].
  - unfold execute in *. destruct (d_pending s); simplify_eq/=; by rewrite <- app_assoc.
  - unfold moveAndExecute in *. unfold pushed, run. simpl. rewrite app_nil_r.
    destruct (d_pending s), f; simplify_eq/=; rewrite ?app_nil_r; by rewrite <- ?app_assoc.
  - unfold pushed, run. simpl. by rewrite app_nil_r.
  - unfold pushed, run. simpl. rewrite app_nil_r, map_app, concat_app. simpl.
    by rewrite app_nil_r.
  - apply inv_alone in Hs as (-> & -> & _ & _ & Hp & _).
    unfold invoke_take in *. rewrite Hp in *. destruct (d_functorQueue s); simplify_eq/=.
    unfold pushed, run. simpl. by rewrite !app_nil_r.
  - apply inv_alone in Hs as (-> & -> & _ & _ & Hp & _).
    unfold invoke_take in *. rewrite Hp in *. destruct (d_functorQueue s); by simplify_eq/=.
  - apply inv_alone in Hs as (-> & -> & _ & _ & _ & _).
    unfold pushed, run. simpl. by rewrite !app_nil_r.
  - apply inv_alone in Hs as (-> & -> & _ & _ & _ & _).
    unfold pushed, run. simpl. by rewrite !app_nil_r.
  - simpl. by rewrite app_nil_r.
  - destruct Hs as [_ _ H3]. simpl in H3. by destruct l.
Qed.

(** C19: however threads interleave, when the strand is not drained its functors
    run in the order in which they were pushed: those run, those taken out by
    the running invocation and those in the queue are, in this order, what was
    pushed, except for what [clear] removed. *)
Theorem strand_fifo ls s :
  steps init_state ls s -> existsb is_drain ls = false ->
  (run ls ++ outstanding s) `sublist_of` (pushed ls) /\
  (existsb is_clear ls = false -> pushed ls = run ls ++ outstanding s).
Proof.
  intros Hsteps. remember init_state as s0 eqn:Hs0.
  induction Hsteps as [s|s ls s' l s'' Hsteps IH Hstep]; [by subst|]. specialize (IH Hs0).
  rewrite existsb_app, orb_false_iff. simpl. rewrite orb_false_r. intros [Hls Hl].
  assert (Hinv : inv s') by (apply (steps_inv s ls); [subst; apply inv_init|done..]).
  destruct (IH Hls) as [Hsub Heq]. pose proof (step_outstanding _ _ _ Hinv Hstep Hl) as Ho.
  rewrite run_app, pushed_app, existsb_app, orb_false_iff. simpl. rewrite orb_false_r.
  destruct (is_clear l) eqn:Hc.
  - destruct l; try discriminate. unfold run at 2, pushed at 2. simpl. rewrite !app_nil_r.
    split; [|by intros []]. rewrite Ho. etrans; [|exact Hsub].
    apply sublist_app; [done|]. unfold outstanding. apply sublist_inserts_r. done.
  - rewrite <- app_assoc, <- Ho, app_assoc. split.
    + by apply sublist_app.
    + intros [Hcl _]. by rewrite (Heq Hcl).
Qed.

(** C20: at most one thread is inside [invoke] at any time, its assertion that
    the strand is pending holds whenever it enters the critical section, and
    a strand with functors outstanding always has a thread responsible for
    running them: no wake-up is lost. *)
Theorem strand_exclusive ls s :
  steps init_state ls s -> existsb is_drain ls = false ->
  (length (invoking s) <= 1)%nat /\
  (In Taking (invoking s) -> invoke_take (strand s) <> None) /\
  (outstanding s <> [] ->
   (activating s + scheduled s + length (invoking s))%nat = 1%nat).
Proof.
  intros Hsteps Hls.
  assert (Hinv : inv s) by (apply (steps_inv init_state ls); [apply inv_init|done..]).
  destruct Hinv as [H1 H2 H3]. split_and!.
  - destruct (d_pending (strand s)); lia.
  - intros Hin. unfold invoke_take. destruct (d_pending (strand s)); simpl.
    + by destruct (d_functorQueue (strand s)).
    + destruct (invoking s); [done|simpl in H1; lia].
  - intros Ho. destruct (d_pending (strand s)); [lia|]. exfalso. apply Ho.
    unfold outstanding, in_flight. rewrite H2 by done.
    destruct (invoking s); [done|simpl in H1; lia].
Qed.

(** *** Progress *)

Definition pc_weight (p : pc) : nat :=
  match p with Taking => 2 | Running b => 3 + length b end.

(** A bound on the number of steps left without further calls. *)
Definition weight (s : state) : nat :=
  4 * activating s + 3 * scheduled s + sum_list_with pc_weight (invoking s)
  + 3 * length (d_functorQueue (strand s)).

Definition is_work (l : label) : bool :=
  match l with l_run _ | l_internal => true | _ => false end.

Lemma step_weight s l s' :
  inv s -> step s l s' -> is_work l = true -> (weight s' < weight s)%nat.
Proof.
  intros Hs Hstep Hl. unfold weight. destruct Hstep; try discriminate; simpl; try lia.
  - rewrite sum_list_with_app. simpl. lia.
  - unfold invoke_take in *. destruct (d_pending s), (d_functorQueue s); simplify_eq/=.
    rewrite !sum_list_with_app. simpl. lia.
  - unfold invoke_take in *. destruct (d_pending s), (d_functorQueue s); simplify_eq/=.
    rewrite !sum_list_with_app. simpl. lia.
  - rewrite !sum_list_with_app. simpl. lia.
  - rewrite !sum_list_with_app. simpl. lia.
  - destruct Hs as [_ _ H3]. simpl in H3. by destruct l.
Qed.

Definition quiescent (s : state) : Prop :=
  activating s = 0%nat /\ scheduled s = 0%nat /\ invoking s = [] /\ strand s = init.

(** Unless the strand is idle, the thread responsible for it can step. *)
Lemma can_step s :
  inv s -> quiescent s \/ exists l s', step s l s' /\ is_work l = true.
Proof.
  intros [H1 H2 H3]. destruct s as [[q p] a n i d]. simpl in *. destruct p.
  - right. destruct a as [|a].
    + destruct n as [|n].
      * destruct i as [|x [|? ?]]; [simpl in H1; lia| |simpl in H1; lia].
        destruct x as [|[|f b]].
        -- destruct q as [|f q]; exists l_internal; eexists; (split; [|done]);
             [by apply (step_end _ _ _ [] [])|by apply (step_take _ _ _ [] [])].
        -- do 2 eexists. split; [apply (step_again _ _ _ [] [])|done].
        -- do 2 eexists. split; [apply (step_run _ _ _ [] [])|done].
      * do 2 eexists. split; [apply step_start|done].
    + do 2 eexists. split; [apply step_activate|done].
  - left. unfold quiescent. simpl. rewrite H2 by done.
    destruct i; [|simpl in H1; lia]. split_and!; try done; lia.
Qed.

Lemma steps_trans s ls s' ls' s'' :
  steps s ls s' -> steps s' ls' s'' -> steps s (ls ++ ls') s''.
Proof.
  intros H1 H2. induction H2 as [|s1 l1 s2 l s3 _ IH Hstep]; [by rewrite app_nil_r|].
  rewrite app_assoc. eapply steps_snoc; [by apply IH|done].
Qed.

(** From any state the strand reaches, every step of the threads at work
    decreases a bound on the number of steps left; so without further calls
    the work ends after at most that many steps, having run exactly the
    functors outstanding, in order, and leaves the strand empty and not
    pending. *)
Theorem strand_terminates ls s :
  steps init_state ls s -> existsb is_drain ls = false ->
  (forall l s', step s l s' -> is_work l = true -> (weight s' < weight s)%nat) /\
  exists ls' s',
    steps s ls' s' /\ Forall (fun l => is_work l = true) ls' /\
    (length ls' <= weight s)%nat /\ run ls' = outstanding s /\ quiescent s'.
Proof.
  intros Hsteps Hls.
  assert (Hinv : inv s) by (apply (steps_inv init_state ls); [apply inv_init|done..]).
  split; [intros; by eapply step_weight|]. clear Hsteps Hls ls.
  remember (weight s) as w eqn:Hw. revert s Hinv Hw.
  induction w as [w IH] using lt_wf_ind. intros s Hinv ->.
  destruct (can_step s Hinv) as [Hq|(l & s1 & Hstep & Hl)].
  - exists [], s. split_and!; [constructor|constructor|simpl; lia| |done].
    destruct Hq as (_ & _ & Hi & Hs). unfold outstanding, in_flight. by rewrite Hi, Hs.
  - assert (Hd : is_drain l = false) by (by destruct l).
    pose proof (step_weight _ _ _ Hinv Hstep Hl) as Hlt.
    destruct (IH (weight s1) Hlt s1 (inv_step _ _ _ Hinv Hstep Hd) eq_refl)
      as (ls & s2 & Hsteps & Hall & Hlen & Hrun & Hq).
    exists (l :: ls), s2. split_and!; [| |simpl; lia| |done].
    + apply (steps_trans _ [l] s1); [|done]. by apply (steps_snoc _ [] s); [constructor|].
    + by apply Forall_cons_iff.
    + change (l :: ls) with ([l] ++ ls). rewrite run_app, Hrun.
      pose proof (step_outstanding _ _ _ Hinv Hstep Hd) as Ho.
      assert (Hc : is_clear l = false) by (by destruct l). rewrite Hc in Ho.
      rewrite <- Ho. assert (pushed [l] = []) as -> by (by destruct l).
      by rewrite app_nil_r.
Qed.

End Strand.
Arguments t : clear implicits.

(** *** Instances of the properties

    Two functors are pushed, the first starts the invocation, and the second
    is pushed while the first is about to run. *)
Lemma example_steps :
  steps init_state
    [l_push [1]; l_internal; l_internal; l_internal; l_push [2]; l_run 1]
    (mkState (mk [2] true) 0 0 [Running []] []).
Proof.
  apply (steps_snoc _ [_; _; _; _; _] (mkState (mk [2] true) 0 0 [Running [1]] []));
    [|apply (step_run _ _ _ [] [])].
  apply (steps_snoc _ [_; _; _; _] (mkState (mk [] true) 0 0 [Running [1]] []));
    [|by apply (step_execute (mk [] true) 0 0 [Running [1]] [] 2 (mk [2] true) false)].
  apply (steps_snoc _ [_; _; _] (mkState (mk [1] true) 0 0 [Taking] []));
    [|by apply (step_take _ _ _ [] [])].
  apply (steps_snoc _ [_; _] (mkState (mk [1] true) 0 1 [] []));
    [|apply (step_start _ 0 0 [] [])].
  apply (steps_snoc _ [_] (mkState (mk [1] true) 1 0 [] [])); [|apply step_activate].
  apply (steps_snoc _ [] init_state); [constructor|].
  by apply (step_execute init 0 0 [] [] 1 (mk [1] true) true).
Qed.

Lemma strand_fifo_witness : [1; 2] = [1] ++ [2].
Proof. exact (proj2 (strand_fifo _ _ example_steps eq_refl) eq_refl). Defined.

Lemma strand_exclusive_witness : (0 + 0 + 1)%nat = 1%nat.
Proof.
  refine (proj2 (proj2 (strand_exclusive _ _ example_steps eq_refl)) _). discriminate.
Defined.

Lemma strand_terminates_witness :
  exists ls' s',
    steps (mkState (mk [2] true) 0 0 [Running []] []) ls' s' /\ run ls' = [2] /\
    quiescent s'.
Proof.
  destruct (proj2 (strand_terminates _ _ example_steps eq_refl))
    as (ls' & s' & H1 & _ & _ & H2 & H3).
  exists ls', s'. split; [exact H1|]. split; [exact H2|exact H3].
Defined.

End Strand.
