(* ===== verification/TimeInterval.v ===== *)
(** * Time intervals and double precision

    [bsls::TimeInterval] is a class of the base libraries: its operations are
    parameters ([TimeIntervalOps], [TimeIntervalUnits]) and what the code relies
    on are the laws its documentation gives ([TimeIntervalLaws],
    [TimeIntervalUnitsLaws]).  [Nanos] implements both.

    [Double] is the arithmetic of the type [double] as far as the sources use
    it, on the binary floating-point numbers of the Standard Library. *)

From S2P Require Import Prelude.
From Stdlib Require Import Floats.SpecFloat.

Definition NANO : Z := 1000000000.

(** ** Time intervals *)

Class TimeIntervalOps (T : Type) : Type := {
  ti_make : Z -> Z -> T;
  ti_seconds : T -> Z;
  ti_nanoseconds : T -> Z;
  ti_sub : T -> T -> T;
  ti_addSeconds : T -> Z -> T;
  ti_addNanoseconds : T -> Z -> T;
  ti_ltb : T -> T -> bool;
  ti_leb : T -> T -> bool;
  ti_eqb : T -> T -> bool
}.

(** The signed number of nanoseconds of an interval. *)
Definition ns {T} `{TimeIntervalOps T} (t : T) : Z :=
  ti_seconds t * NANO + ti_nanoseconds t.

(** An interval holds a 64-bit number of seconds and less than a second
    more. *)
Definition representable (z : Z) : Prop :=
  (S64_MIN - 1) * NANO < z < (S64_MAX + 1) * NANO.

Class TimeIntervalLaws (T : Type) `{TimeIntervalOps T} : Prop := {
  ti_nonneg : forall t : T, 0 <= ns t -> 0 <= ti_seconds t /\ 0 <= ti_nanoseconds t < NANO;
  ti_make_ns : forall s n, representable (s * NANO + n) ->
    ns (ti_make s n : T) = s * NANO + n;
  ti_sub_ns : forall a b : T, representable (ns a - ns b) ->
    ns (ti_sub a b) = ns a - ns b;
  ti_addSeconds_ns : forall (t : T) s, representable (ns t + s * NANO) ->
    ns (ti_addSeconds t s) = ns t + s * NANO;
  ti_addNanoseconds_ns : forall (t : T) n, representable (ns t + n) ->
    ns (ti_addNanoseconds t n) = ns t + n;
  ti_ltb_ns : forall a b : T, ti_ltb a b = (ns a <? ns b);
  ti_leb_ns : forall a b : T, ti_leb a b = (ns a <=? ns b);
  ti_eqb_ns : forall a b : T, ti_eqb a b = (ns a =? ns b)
}.

(** Whole numbers of smaller units. *)
Class TimeIntervalUnits (T : Type) : Type := {
  ti_totalMilliseconds : T -> Z;
  ti_totalMicroseconds : T -> Z;
  ti_addMicroseconds : T -> Z -> T;
  ti_setTotalMicroseconds : Z -> T
}.

Class TimeIntervalUnitsLaws (T : Type) `{TimeIntervalOps T} `{TimeIntervalUnits T} : Prop := {
  ti_totalMilliseconds_ns : forall t : T, 0 <= ns t -> ti_totalMilliseconds t = ns t / 1000000;
  ti_totalMicroseconds_ns : forall t : T, 0 <= ns t -> ns t / 1000 <= S64_MAX ->
    ti_totalMicroseconds t = ns t / 1000;
  ti_addMicroseconds_ns : forall (t : T) u, representable (ns t + u * 1000) ->
    ns (ti_addMicroseconds t u) = ns t + u * 1000;
  ti_setTotalMicroseconds_ns : forall u, S64_MIN <= u <= S64_MAX ->
    ns (ti_setTotalMicroseconds u : T) = u * 1000
}.

(** An implementation: the number of nanoseconds itself. *)
Definition Nanos : Type := Z.

#[export] Instance NanosOps : TimeIntervalOps Nanos := {
  ti_make s n := s * NANO + n;
  ti_seconds t := Z.quot t NANO;
  ti_nanoseconds t := Z.rem t NANO;
  ti_sub a b := a - b;
  ti_addSeconds t s := t + s * NANO;
  ti_addNanoseconds t n := t + n;
  ti_ltb a b := a <? b;
  ti_leb a b := a <=? b;
  ti_eqb a b := a =? b
}.

Lemma Nanos_ns (t : Nanos) : ns t = t.
Proof.
  unfold ns, NANO. simpl. pose proof (Z.quot_rem t NANO). unfold NANO in *. lia.
Qed.

#[export] Instance NanosLaws : TimeIntervalLaws Nanos.
Proof.
  split; intros; rewrite ?Nanos_ns in *; try reflexivity.
  simpl. split; [apply Z.quot_pos; unfold NANO; lia|].
  apply Z.rem_bound_pos; unfold NANO; lia.
Qed.

#[export] Instance NanosUnits : TimeIntervalUnits Nanos := {
  ti_totalMilliseconds t := Z.quot t 1000000;
  ti_totalMicroseconds t := Z.quot t 1000;
  ti_addMicroseconds t u := t + u * 1000;
  ti_setTotalMicroseconds u := u * 1000
}.

#[export] Instance NanosUnitsLaws : TimeIntervalUnitsLaws Nanos.
Proof.
  split; intros; rewrite ?Nanos_ns in *; try reflexivity; simpl; apply Z.quot_div_nonneg; lia.
Qed.

(** ** Double precision *)
Module Double.

Definition prec : Z := 53.
Definition emax : Z := 1024.

(** [static_cast<double>] of an integer. *)
Definition of_uint64 (z : Z) : spec_float := binary_normalize prec emax z 0 false.

Definition of_int64 (z : Z) : spec_float := binary_normalize prec emax z 0 false.

Definition mul : spec_float -> spec_float -> spec_float := SFmul prec emax.
Definition div : spec_float -> spec_float -> spec_float := SFdiv prec emax.

(** [static_cast<int64>(floor(x))] and [static_cast<int64>(ceil(x))]; the
    conversion of an infinity or a NaN is undefined. *)
Definition to_floor (x : spec_float) : option Z :=
  match x with
  | S754_zero _ => Some 0
  | S754_finite s m e =>
      let v := if s then Z.neg m else Z.pos m in
      Some (if 0 <=? e then v * 2 ^ e else v / 2 ^ (- e))
  | _ => None
  end.

Definition to_ceil (x : spec_float) : option Z :=
  match x with
  | S754_zero _ => Some 0
  | S754_finite s m e =>
      let v := if s then Z.neg m else Z.pos m in
      Some (if 0 <=? e then v * 2 ^ e else - (- v / 2 ^ (- e)))
  | _ => None
  end.

(** [static_cast<int64>(x)]: towards zero, undefined out of range. *)
Definition to_int64 (x : spec_float) : option Z :=
  match x with
  | S754_zero _ => Some 0
  | S754_finite s m e =>
      let v := if 0 <=? e then Z.pos m * 2 ^ e else Z.pos m / 2 ^ (- e) in
      let v := if s then - v else v in
      assert! (S64_MIN <=? v) && (v <=? S64_MAX) ;;
      Some v
  | _ => None
  end.

End Double.
