(* ===== verification/Backoff.v ===== *)
(** * Backoff

    Models [ntsa::Backoff] (src/groups/nts/ntsa/ntsa_backoff.h, .cpp): the
    change of the period of a recurring timer each time it is due, by an amount
    or a factor, with jitter and limits.

    The arithmetic on microseconds is that of signed 64-bit integers, whose
    overflow is [None], as is a conversion from double out of their range.  The
    numbers that [bsl::rand] returns are a parameter. *)

From Stdlib Require Import Floats.SpecFloat.
From S2P Require Import Prelude TimeInterval.

(** [bsl::rand]: the number that its i-th call returns. *)
Class Rand := { RAND_MAX : Z; rand : nat -> Z }.

Class RandLaws `{Rand} : Prop := {
  rand_max_positive : 0 < RAND_MAX;
  rand_range : forall i, 0 <= rand i <= RAND_MAX;
}.

(** A result of signed 64-bit arithmetic. *)
Definition int64 (z : Z) : option Z := assert! (S64_MIN <=? z) && (z <=? S64_MAX) ;; Some z.

Lemma int64_some z : S64_MIN <= z <= S64_MAX -> int64 z = Some z.
Proof. intros H. unfold int64. by rewrite (proj2 (Z.leb_le _ _)), (proj2 (Z.leb_le _ _)) by lia. Qed.

Lemma int64_inv z y : int64 z = Some y -> y = z /\ S64_MIN <= z <= S64_MAX.
Proof.
  unfold int64. destruct (S64_MIN <=? z) eqn:E1; [|done]. destruct (z <=? S64_MAX) eqn:E2; [|done].
  apply Z.leb_le in E1, E2. intros [= <-]. done.
Qed.

Module Backoff.

Section Intervals.

Context {T : Type} {TI : TimeIntervalOps T} {TU : TimeIntervalUnits T}.

(** [d_type] and [d_rep]. *)
Inductive rep : Type :=
  | e_UNDEFINED
  | e_ARITHMETIC (value : T)
  | e_GEOMETRIC (value : spec_float).

Record t : Type := {
  d_rep : rep;
  d_minJitter : T;
  d_maxJitter : T;
  d_minLimit : option T;
  d_maxLimit : option T;
}.

Definition reset : t :=
  {| d_rep := e_UNDEFINED; d_minJitter := ti_make 0 0; d_maxJitter := ti_make 0 0;
     d_minLimit := None; d_maxLimit := None |}.

Definition makeArithmetic (value : T) (b : t) : t :=
  {| d_rep := e_ARITHMETIC value; d_minJitter := d_minJitter b; d_maxJitter := d_maxJitter b;
     d_minLimit := d_minLimit b; d_maxLimit := d_maxLimit b |}.

Definition makeGeometric (value : spec_float) (b : t) : t :=
  {| d_rep := e_GEOMETRIC value; d_minJitter := d_minJitter b; d_maxJitter := d_maxJitter b;
     d_minLimit := d_minLimit b; d_maxLimit := d_maxLimit b |}.

Definition setMinJitter (value : T) (b : t) : t :=
  {| d_rep := d_rep b; d_minJitter := value; d_maxJitter := d_maxJitter b;
     d_minLimit := d_minLimit b; d_maxLimit := d_maxLimit b |}.

Definition setMaxJitter (value : T) (b : t) : t :=
  {| d_rep := d_rep b; d_minJitter := d_minJitter b; d_maxJitter := value;
     d_minLimit := d_minLimit b; d_maxLimit := d_maxLimit b |}.

Definition setMinLimit (value : T) (b : t) : t :=
  {| d_rep := d_rep b; d_minJitter := d_minJitter b; d_maxJitter := d_maxJitter b;
     d_minLimit := Some value; d_maxLimit := d_maxLimit b |}.

Definition setMaxLimit (value : T) (b : t) : t :=
  {| d_rep := d_rep b; d_minJitter := d_minJitter b; d_maxJitter := d_maxJitter b;
     d_minLimit := d_minLimit b; d_maxLimit := Some value |}.

(** [arithmetic] and [geometric]. *)
Definition arithmetic (b : t) : option T :=
  match d_rep b with e_ARITHMETIC value => Some value | _ => None end.

Definition geometric (b : t) : option spec_float :=
  match d_rep b with e_GEOMETRIC value => Some value | _ => None end.

(** The next number of microseconds, before jitter and limits. *)
Definition next (b : t) (initial : Z) : option Z :=
  match d_rep b with
  | e_UNDEFINED => Some initial
  | e_ARITHMETIC value => int64 (initial + ti_totalMicroseconds value)
  | e_GEOMETRIC value => Double.to_int64 (Double.mul (Double.of_int64 initial) value)
  end.

(** The jitter that the draw [r] gives. *)
Definition jitter (randMax r : Z) (b : t) : option Z :=
  let jitterMin := ti_totalMicroseconds (d_minJitter b) in
  let jitterMax := ti_totalMicroseconds (d_maxJitter b) in
  jitterRange ← (if jitterMin <? jitterMax then int64 (jitterMax - jitterMin) else Some 0);
  let jitterFactor := Double.div (Double.of_int64 r) (Double.of_int64 randMax) in
  jitterAmount ← Double.to_int64 (Double.mul jitterFactor (Double.of_int64 jitterRange));
  int64 (jitterMin + jitterAmount).

(** The two limits, the greater one last. *)
Definition limit (b : t) (result : T) : T :=
  let result :=
    match d_minLimit b with
    | Some low => if ti_ltb result low then low else result
    | None => result
    end in
  match d_maxLimit b with
  | Some high => if ti_ltb high result then high else result
  | None => result
  end.

Definition apply (randMax r : Z) (b : t) (value : T) : option T :=
  next ← next b (ti_totalMicroseconds value);
  jitter ← jitter randMax r b;
  sum ← int64 (next + jitter);
  Some (limit b (ti_addMicroseconds (ti_make 0 0) sum)).

Definition rep_code (r : rep) : Z :=
  match r with e_UNDEFINED => 0 | e_ARITHMETIC _ => 1 | e_GEOMETRIC _ => 2 end.

(** [bdlb::NullableValue]'s comparisons. *)
Definition nullable_eqb (x y : option T) : bool :=
  match x, y with
  | None, None => true
  | Some x, Some y => ti_eqb x y
  | _, _ => false
  end.

Definition nullable_ltb (x y : option T) : bool :=
  match x, y with
  | _, None => false
  | None, Some _ => true
  | Some x, Some y => ti_ltb x y
  end.

Definition equals (b c : t) : bool :=
  match d_rep b, d_rep c with
  | e_UNDEFINED, e_UNDEFINED => true
  | e_ARITHMETIC x, e_ARITHMETIC y => ti_eqb x y
  | e_GEOMETRIC x, e_GEOMETRIC y => SFeqb x y
  | _, _ => false
  end
  && ti_eqb (d_minJitter b) (d_minJitter c) && ti_eqb (d_maxJitter b) (d_maxJitter c)
  && nullable_eqb (d_minLimit b) (d_minLimit c) && nullable_eqb (d_maxLimit b) (d_maxLimit c).

(** One member after the other. *)
Definition lexicographic (lt gt rest : bool) : bool := if lt then true else if gt then false else rest.

Definition less (b c : t) : bool :=
  lexicographic (rep_code (d_rep b) <? rep_code (d_rep c)) (rep_code (d_rep c) <? rep_code (d_rep b))
  (lexicographic
    (match d_rep b, d_rep c with
     | e_ARITHMETIC x, e_ARITHMETIC y => ti_ltb x y
     | e_GEOMETRIC x, e_GEOMETRIC y => SFltb x y
     | _, _ => false
     end)
    (match d_rep b, d_rep c with
     | e_ARITHMETIC x, e_ARITHMETIC y => ti_ltb y x
     | e_GEOMETRIC x, e_GEOMETRIC y => SFltb y x
     | _, _ => false
     end)
  (lexicographic (ti_ltb (d_minJitter b) (d_minJitter c)) (ti_ltb (d_minJitter c) (d_minJitter b))
  (lexicographic (ti_ltb (d_maxJitter b) (d_maxJitter c)) (ti_ltb (d_maxJitter c) (d_maxJitter b))
  (lexicographic (nullable_ltb (d_minLimit b) (d_minLimit c)) (nullable_ltb (d_minLimit c) (d_minLimit b))
  (nullable_ltb (d_maxLimit b) (d_maxLimit c)))))).

(** ** What [apply] computes *)

Context {TL : TimeIntervalLaws T} {TUL : TimeIntervalUnitsLaws T}.

(** A result is the next period with its jitter, kept within the limits. *)
Lemma apply_value randMax r b value x j :
  next b (ti_totalMicroseconds value) = Some x -> jitter randMax r b = Some j ->
  S64_MIN <= x + j <= S64_MAX ->
  exists v, apply randMax r b value = Some (limit b v) /\ ns v = (x + j) * 1000.
Proof.
  intros Hx Hj Hr. unfold apply. rewrite Hx, Hj. cbn [mbind option_bind]. rewrite int64_some by done.
  cbn [mbind option_bind]. eexists. split; [done|].
  assert (ns (ti_make 0 0 : T) = 0) as Hzero.
  { rewrite ti_make_ns; [done|]. unfold representable, S64_MIN, S64_MAX, NANO. lia. }
  rewrite ti_addMicroseconds_ns, Hzero; [lia|]. unfold representable, S64_MIN, S64_MAX, NANO in *. lia.
Qed.

Lemma limit_bounds b v low high :
  d_minLimit b = Some low -> d_maxLimit b = Some high -> ns low <= ns high ->
  ns low <= ns (limit b v) <= ns high.
Proof.
  intros Hl Hh Hle. unfold limit. rewrite Hl, Hh, !ti_ltb_ns.
  destruct (Z.ltb_spec (ns v) (ns low)) as [H1|H1].
  - destruct (Z.ltb_spec (ns high) (ns low)); lia.
  - destruct (Z.ltb_spec (ns high) (ns v)); lia.
Qed.

(** When both limits apply the upper one wins. *)
Lemma limit_upper b v high : d_maxLimit b = Some high -> ns (limit b v) <= ns high.
Proof.
  intros Hh. unfold limit. rewrite Hh, ti_ltb_ns. destruct (Z.ltb_spec (ns high) (ns (match d_minLimit b with
    Some low => if ti_ltb v low then low else v | None => v end))); lia.
Qed.

Lemma apply_upper randMax r b value v high :
  apply randMax r b value = Some v -> d_maxLimit b = Some high -> ns v <= ns high.
Proof. unfold apply. intros H Hh. inv_option H. by apply limit_upper. Qed.

End Intervals.

Arguments t : clear implicits.
Arguments rep : clear implicits.

End Backoff.

(** A geometric period with a limit: doubled up to five seconds. *)
Example backoff_doubles :
  let b := Backoff.setMaxLimit (5 * NANO : Nanos)
             (Backoff.makeGeometric (Double.of_int64 2) Backoff.reset) in
  (Backoff.apply 2147483647 12345 b (NANO : Nanos), Backoff.apply 2147483647 12345 b (3 * NANO : Nanos))
  = (Some (2 * NANO), Some (5 * NANO)).
Proof. reflexivity. Qed.

(** Doubling the period without a limit overflows in the end. *)
Lemma backoff_overflows :
  Backoff.apply 2147483647 0 (Backoff.makeGeometric (Double.of_int64 2) Backoff.reset)
    (5000000000000 * NANO : Nanos) = None.
Proof. reflexivity. Qed.
