(* ===== verification/RateLimiter.v ===== *)
(** * Rate limiting

    [ntcs_leakybucket.h], [ntcs_leakybucket.cpp], [ntcs_ratelimiter.h] and
    [ntcs_ratelimiter.cpp]: the leaky bucket with its 64-bit arithmetic, its
    fraction of a unit kept in nano-units and its drain times computed in
    double precision, and the rate limiter that gates a sender by a sustained
    and a peak bucket. *)

From S2P Require Import Prelude TimeInterval.
From Stdlib Require Import Floats.SpecFloat.

(** ** [ntcs::LeakyBucket] *)
Module LeakyBucket.
Section with_interval.
Context {T : Type} {TI : TimeIntervalOps T}.

Record t : Type := mk {
  d_drainRate : Z;
  d_capacity : Z;
  d_unitsReserved : Z;
  d_unitsInBucket : Z;
  d_fractionalUnitDrainedInNanoUnits : Z;
  d_maxUpdateInterval : T;
  d_lastUpdateTime : T;
  d_statSubmittedUnits : Z;
  d_statSubmittedUnitsAtLastUpdate : Z;
  d_statisticsCollectionStartTime : T
}.

(** The units drained and the new fraction. *)
Definition calculateNumberOfUnitsToDrain (fraction drainRate : Z) (timeInterval : T)
  : option (Z * Z) :=
  assert! wrap 64 (ti_seconds timeInterval) <=? U64_MAX / drainRate ;;
  assert! fraction <? NANO ;;
  let units := wrap 64 (drainRate * wrap 64 (ti_seconds timeInterval)) in
  let units :=
    wrap 64 (units + wrap 64 (drainRate / NANO * wrap 64 (ti_nanoseconds timeInterval))) in
  let nanounits :=
    wrap 64 (fraction
      + wrap 64 (drainRate mod NANO * wrap 64 (ti_nanoseconds timeInterval))) in
  let fraction := nanounits mod NANO in
  let units := wrap 64 (units + nanounits / NANO) in
  Some (units, fraction).

Definition calculateDrainTime (numUnits drainRate : Z) (ceilFlag : bool) : option T :=
  assert! (1 <? drainRate) || (numUnits <=? S64_MAX) ;;
  let interval := ti_make 0 0 in
  let interval := ti_addSeconds interval (numUnits / drainRate) in
  let remUnits := numUnits mod drainRate in
  let nanoSecs :=
    Double.div (Double.mul (Double.of_uint64 remUnits) (Double.of_uint64 NANO))
      (Double.of_uint64 drainRate) in
  n ← (if ceilFlag then Double.to_ceil nanoSecs else Double.to_floor nanoSecs);
  Some (ti_addNanoseconds interval n).

Definition calculateTimeWindow (drainRate capacity : Z) : option T :=
  assert! 0 <? drainRate ;;
  assert! (1 <? drainRate) || (capacity <=? S64_MAX) ;;
  window ← calculateDrainTime capacity drainRate true;
  Some (if ti_eqb (ti_make 0 0) window then ti_addNanoseconds window 1 else window).

Definition calculateCapacity (drainRate : Z) (timeWindow : T) : option Z :=
  ok ← (if drainRate =? 1 then Some true
        else limit ← calculateDrainTime U64_MAX drainRate false;
             Some (ti_leb timeWindow limit));
  assert! (ok : bool) ;;
  '(capacity, _) ← calculateNumberOfUnitsToDrain 0 drainRate timeWindow;
  Some (if negb (capacity =? 0) then capacity else 1).

(** The largest update interval of a drain rate, computed alike by the
    constructor and by [setRateAndCapacity]. *)
Definition maxUpdateInterval (drainRate : Z) : option T :=
  if drainRate =? 1 then Some (ti_make S64_MAX 999999999)
  else calculateDrainTime U64_MAX drainRate false.

Definition make (drainRate capacity : Z) (currentTime : T) : option t :=
  assert! 0 <? drainRate ;;
  assert! 0 <? capacity ;;
  assert! negb (ti_seconds currentTime =? S64_MIN) ;;
  interval ← maxUpdateInterval drainRate;
  Some (mk drainRate capacity 0 0 0 interval currentTime 0 0 currentTime).

Definition setRateAndCapacity (b : t) (newRate newCapacity : Z) : option t :=
  assert! 0 <? newRate ;;
  assert! 0 <? newCapacity ;;
  interval ← maxUpdateInterval newRate;
  Some (mk newRate newCapacity (d_unitsReserved b) (d_unitsInBucket b)
          (d_fractionalUnitDrainedInNanoUnits b) interval (d_lastUpdateTime b)
          (d_statSubmittedUnits b) (d_statSubmittedUnitsAtLastUpdate b)
          (d_statisticsCollectionStartTime b)).

Definition updateState (b : t) (currentTime : T) : option t :=
  assert! negb (ti_seconds currentTime =? S64_MIN) ;;
  let delta := ti_sub currentTime (d_lastUpdateTime b) in
  let atLast := d_statSubmittedUnits b in
  let with_state B f start :=
    mk (d_drainRate b) (d_capacity b) (d_unitsReserved b) B f
       (d_maxUpdateInterval b) currentTime (d_statSubmittedUnits b) atLast start in
  if ti_ltb (d_maxUpdateInterval b) delta then
    Some (with_state 0 0 (d_statisticsCollectionStartTime b))
  else if ti_leb (ti_make 0 0) delta then
    '(units, f) ← calculateNumberOfUnitsToDrain
      (d_fractionalUnitDrainedInNanoUnits b) (d_drainRate b) delta;
    Some (with_state
      (if units <? d_unitsInBucket b then d_unitsInBucket b - units else 0) f
      (d_statisticsCollectionStartTime b))
  else
    Some (with_state (d_unitsInBucket b) (d_fractionalUnitDrainedInNanoUnits b)
      (if ti_ltb currentTime (d_statisticsCollectionStartTime b) then currentTime
       else d_statisticsCollectionStartTime b)).

(** The bucket after the call and what it returns. *)
Definition calculateTimeToSubmit (b : t) (currentTime : T) : option (t * T) :=
  let usedUnits := wrap 64 (d_unitsInBucket b + d_unitsReserved b) in
  if usedUnits <? d_capacity b then Some (b, ti_make 0 0) else
  b ← updateState b currentTime;
  if wrap 64 (d_unitsInBucket b + d_unitsReserved b) <? d_capacity b then
    Some (b, ti_make 0 0) else
  let backlogUnits :=
    wrap 64 (d_unitsInBucket b + d_unitsReserved b - d_capacity b + 1) in
  timeToSubmit ← calculateDrainTime backlogUnits (d_drainRate b) true;
  Some (b, if ti_eqb timeToSubmit (ti_make 0 0) then ti_addNanoseconds timeToSubmit 1
           else timeToSubmit).

Definition wouldOverflow (b : t) (currentTime : T) : option (t * bool) :=
  b ← updateState b currentTime;
  Some (b, (wrap 64 (U64_MAX - d_unitsInBucket b - d_unitsReserved b) <? 1)
           || (d_capacity b <? wrap 64 (d_unitsInBucket b + d_unitsReserved b + 1))).

Definition with_units (b : t) (reserved inBucket submitted : Z) : t :=
  mk (d_drainRate b) (d_capacity b) reserved inBucket
     (d_fractionalUnitDrainedInNanoUnits b) (d_maxUpdateInterval b)
     (d_lastUpdateTime b) submitted (d_statSubmittedUnitsAtLastUpdate b)
     (d_statisticsCollectionStartTime b).

Definition submit (b : t) (numUnits : Z) : option t :=
  assert! numUnits <=? U64_MAX - d_unitsInBucket b ;;
  assert! d_unitsReserved b <=? U64_MAX - d_unitsInBucket b - numUnits ;;
  Some (with_units b (d_unitsReserved b)
          (wrap 64 (d_unitsInBucket b + numUnits))
          (wrap 64 (d_statSubmittedUnits b + numUnits))).

Definition reserve (b : t) (numUnits : Z) : option t :=
  assert! numUnits <=? U64_MAX - d_unitsReserved b ;;
  assert! d_unitsInBucket b <=? U64_MAX - d_unitsReserved b - numUnits ;;
  Some (with_units b (wrap 64 (d_unitsReserved b + numUnits))
          (d_unitsInBucket b) (d_statSubmittedUnits b)).

Definition cancelReserved (b : t) (numUnits : Z) : option t :=
  assert! numUnits <=? d_unitsReserved b ;;
  Some (with_units b
          (if d_unitsReserved b <? numUnits then 0 else d_unitsReserved b - numUnits)
          (d_unitsInBucket b) (d_statSubmittedUnits b)).

Definition submitReserved (b : t) (numUnits : Z) : option t :=
  assert! numUnits <=? d_unitsReserved b ;;
  submit (with_units b (wrap 64 (d_unitsReserved b - numUnits))
            (d_unitsInBucket b) (d_statSubmittedUnits b)) numUnits.

Definition resetStatistics (b : t) : t :=
  mk (d_drainRate b) (d_capacity b) (d_unitsReserved b) (d_unitsInBucket b)
     (d_fractionalUnitDrainedInNanoUnits b) (d_maxUpdateInterval b)
     (d_lastUpdateTime b) 0 0 (d_lastUpdateTime b).

Definition reset (b : t) (currentTime : T) : option t :=
  assert! negb (ti_seconds currentTime =? S64_MIN) ;;
  Some (resetStatistics
    (mk (d_drainRate b) (d_capacity b) 0 0 (d_fractionalUnitDrainedInNanoUnits b)
        (d_maxUpdateInterval b) currentTime (d_statSubmittedUnits b)
        (d_statSubmittedUnitsAtLastUpdate b) (d_statisticsCollectionStartTime b))).

(** The submitted and the unused units. *)
Definition getStatistics (b : t) : option (Z * Z) :=
  let submitted := d_statSubmittedUnitsAtLastUpdate b in
  let monitoredInterval :=
    ti_sub (d_lastUpdateTime b) (d_statisticsCollectionStartTime b) in
  '(drainedUnits, _) ←
    calculateNumberOfUnitsToDrain 0 (d_drainRate b) monitoredInterval;
  Some (submitted, if drainedUnits <? submitted then 0 else drainedUnits - submitted).

End with_interval.
#[global] Arguments t : clear implicits.
End LeakyBucket.

(** ** [ntcs::RateLimiter] *)
Module RateLimiter.
Section with_interval.
Context {T : Type} {TI : TimeIntervalOps T}.

Record t : Type := mk {
  d_peakRateBucket : LeakyBucket.t T;
  d_sustainedRateBucket : LeakyBucket.t T
}.

Definition supportsExactly (limit : Z) (window : T) : option bool :=
  if negb (0 <? limit) then Some false else
  if negb (ti_ltb (ti_make 0 0) window) then Some false else
  fits ← (if limit =? 1 then Some true
          else most ← LeakyBucket.calculateDrainTime U64_MAX limit true;
               Some (ti_leb window most));
  if negb fits then Some false else
  capacity ← LeakyBucket.calculateCapacity limit window;
  window' ← LeakyBucket.calculateTimeWindow limit capacity;
  Some (ti_eqb window window').

(** What [setRateLimits] and the destructor assert of a limit and its
    window. *)
Definition window_fits (limit : Z) (window : T) : option bool :=
  if limit =? 1 then Some true
  else most ← LeakyBucket.calculateDrainTime U64_MAX limit true;
       Some (ti_leb window most).

Definition setRateLimits (l : t) (sustainedRateLimit : Z) (sustainedRateWindow : T)
    (peakRateLimit : Z) (peakRateWindow : T) : option t :=
  assert! 0 <? sustainedRateLimit ;;
  assert! 0 <? peakRateLimit ;;
  assert! ti_ltb (ti_make 0 0) sustainedRateWindow ;;
  assert! ti_ltb (ti_make 0 0) peakRateWindow ;;
  peakFits ← window_fits peakRateLimit peakRateWindow;
  assert! (peakFits : bool) ;;
  sustainedFits ← window_fits sustainedRateLimit sustainedRateWindow;
  assert! (sustainedFits : bool) ;;
  capacity ← LeakyBucket.calculateCapacity sustainedRateLimit sustainedRateWindow;
  sustained ← LeakyBucket.setRateAndCapacity (d_sustainedRateBucket l)
    sustainedRateLimit capacity;
  capacity ← LeakyBucket.calculateCapacity peakRateLimit peakRateWindow;
  peak ← LeakyBucket.setRateAndCapacity (d_peakRateBucket l) peakRateLimit capacity;
  Some (mk peak sustained).

Definition make (sustainedRateLimit : Z) (sustainedRateWindow : T)
    (peakRateLimit : Z) (peakRateWindow : T) (currentTime : T) : option t :=
  peak ← LeakyBucket.make 1 1 currentTime;
  sustained ← LeakyBucket.make 1 1 currentTime;
  setRateLimits (mk peak sustained) sustainedRateLimit sustainedRateWindow
    peakRateLimit peakRateWindow.

Definition both (f : LeakyBucket.t T -> option (LeakyBucket.t T)) (l : t) : option t :=
  peak ← f (d_peakRateBucket l);
  sustained ← f (d_sustainedRateBucket l);
  Some (mk peak sustained).

Definition updateState (l : t) (currentTime : T) : option t :=
  both (fun b => LeakyBucket.updateState b currentTime) l.

Definition submit (l : t) (numUnits : Z) : option t :=
  both (fun b => LeakyBucket.submit b numUnits) l.

Definition reserve (l : t) (numUnits : Z) : option t :=
  both (fun b => LeakyBucket.reserve b numUnits) l.

Definition submitReserved (l : t) (numUnits : Z) : option t :=
  both (fun b => LeakyBucket.submitReserved b numUnits) l.

Definition cancelReserved (l : t) (numUnits : Z) : option t :=
  both (fun b => LeakyBucket.cancelReserved b numUnits) l.

Definition reset (l : t) (currentTime : T) : option t :=
  both (fun b => LeakyBucket.reset b currentTime) l.

Definition resetStatistics (l : t) : t :=
  mk (d_peakRateBucket l) (LeakyBucket.resetStatistics (d_sustainedRateBucket l)).

(** The disjunction is short-circuited: the sustained bucket is not brought
    up to date when the peak bucket would overflow. *)
Definition wouldExceedBandwidth (l : t) (currentTime : T) : option (t * bool) :=
  '(peak, full) ← LeakyBucket.wouldOverflow (d_peakRateBucket l) currentTime;
  if (full : bool) then Some (mk peak (d_sustainedRateBucket l), true) else
  '(sustained, full) ← LeakyBucket.wouldOverflow (d_sustainedRateBucket l) currentTime;
  Some (mk peak sustained, full).

Definition calculateTimeToSubmit (l : t) (currentTime : T) : option (t * T) :=
  '(peak, timePeak) ← LeakyBucket.calculateTimeToSubmit (d_peakRateBucket l) currentTime;
  '(sustained, timeSustained) ←
    LeakyBucket.calculateTimeToSubmit (d_sustainedRateBucket l) currentTime;
  Some (mk peak sustained,
        if ti_ltb timePeak timeSustained then timeSustained else timePeak).

Definition getStatistics (l : t) : option (Z * Z) :=
  LeakyBucket.getStatistics (d_sustainedRateBucket l).

(** What a socket does with its limiter: [privateThrottleSendBuffer], then,
    when nothing is throttled, the submission of the bytes it sent. The result
    is the time to wait, or the bytes sent. *)
Definition attempt (l : t) (now : T) (bytesSent : Z) : option (t * (T + Z)) :=
  '(l, exceeds) ← wouldExceedBandwidth l now;
  if (exceeds : bool) then
    '(l, timeToSubmit) ← calculateTimeToSubmit l now;
    Some (l, inl timeToSubmit)
  else
    l ← submit l bytesSent;
    Some (l, inr bytesSent).

(** A sequence of attempts and the bytes it sent. *)
Fixpoint attempts (l : t) (sends : list (T * Z)) : option (t * Z) :=
  match sends with
  | [] => Some (l, 0)
  | (now, bytesSent) :: rest =>
      '(l, r) ← attempt l now bytesSent;
      '(l, total) ← attempts l rest;
      Some (l, match r with inl _ => total | inr n => n + total end)
  end.

End with_interval.
#[global] Arguments t : clear implicits.
End RateLimiter.

(** ** The drain time is always defined

    Quotients of unsigned 64-bit integers never leave the finite doubles, so
    that the conversions of [calculateDrainTime] are defined. *)
Module DoubleFacts.
Import Double.

(** Finite, with the exponent at least [lo] and a magnitude below [2 ^ k]. *)
Definition tame (lo k : Z) (x : spec_float) : Prop :=
  match x with
  | S754_zero _ => True
  | S754_finite _ m e => lo <= e /\ Zdigits2 (Z.pos m) + e <= k
  | _ => False
  end.

Lemma digits2_log2 p : Zdigits2 (Z.pos p) = Z.log2 (Z.pos p) + 1.
Proof.
  induction p as [p IH|p IH|]; [| |done].
  - change (Zdigits2 (Z.pos p~1)) with (Z.pos (Pos.succ (digits2_pos p))).
    change (Z.pos p~1) with (2 * Z.pos p + 1). rewrite Z.log2_succ_double by done.
    simpl Zdigits2 in IH. lia.
  - change (Zdigits2 (Z.pos p~0)) with (Z.pos (Pos.succ (digits2_pos p))).
    change (Z.pos p~0) with (2 * Z.pos p). rewrite Z.log2_double by done.
    simpl Zdigits2 in IH. lia.
Qed.

Lemma digits2_nonneg m : 0 <= Zdigits2 m.
Proof. by destruct m. Qed.

Lemma digits2_le m j : 0 <= m < 2 ^ j -> 0 <= j -> Zdigits2 m <= j.
Proof.
  intros Hm Hj. destruct m as [|p|p]; [done| |lia]. rewrite digits2_log2.
  pose proof (proj1 (Z.log2_lt_pow2 (Z.pos p) j ltac:(lia))). lia.
Qed.

Lemma digits2_lt m : 0 <= m -> m < 2 ^ Zdigits2 m.
Proof.
  intros Hm. destruct m as [|p|p]; [done| |lia]. rewrite digits2_log2.
  apply Z.log2_lt_pow2; lia.
Qed.

Lemma shr_1_m r : 0 <= shr_m r -> shr_m (shr_1 r) = shr_m r / 2.
Proof.
  destruct r as [[|p|p] b c]; [done| |simpl; lia]. intros _.
  destruct p as [p|p|]; simpl shr_m; [| |done].
  - apply Z.div_unique with 1; lia.
  - apply Z.div_unique with 0; lia.
Qed.

Lemma iter_shr_m p r : 0 <= shr_m r -> shr_m (iter_pos shr_1 p r) = shr_m r / 2 ^ Z.pos p.
Proof.
  revert r. induction p as [p IH|p IH|]; intros r Hr; simpl iter_pos.
  - assert (0 <= shr_m (shr_1 r)) by (rewrite shr_1_m by done; apply Z.div_pos; lia).
    assert (0 <= shr_m (iter_pos shr_1 p (shr_1 r))) by (rewrite IH by done; by apply Z.div_pos; [|apply Z.pow_pos_nonneg]).
    rewrite !IH, shr_1_m by done. rewrite !Z.div_div by lia. f_equal.
    rewrite (Pos2Z.inj_xI p), Z.pow_add_r, Z.pow_twice_r by lia. ring.
  - assert (0 <= shr_m (iter_pos shr_1 p r)) by (rewrite IH by done; by apply Z.div_pos; [|apply Z.pow_pos_nonneg]).
    rewrite !IH by done. rewrite Z.div_div by lia. f_equal.
    rewrite (Pos2Z.inj_xO p), Z.pow_twice_r. ring.
  - by apply shr_1_m.
Qed.

Lemma shr_record_of_loc_m m l : shr_m (shr_record_of_loc m l) = m.
Proof. by destruct l as [|[]]. Qed.

Lemma shr_fexp_tame m e l lo k :
  0 <= m -> lo <= e -> Zdigits2 m + e <= k -> -1074 <= k ->
  let '(r, e') := shr_fexp prec emax m e l in
  0 <= shr_m r /\ lo <= e' /\ Zdigits2 (shr_m r) + e' <= k /\ e' <= k.
Proof.
  intros Hm Hlo Hk Hk'. unfold shr_fexp, shr.
  pose proof (digits2_nonneg m).
  destruct (fexp prec emax (Zdigits2 m + e) - e) as [|p|p] eqn:En;
    rewrite ?shr_record_of_loc_m; try (split_and!; lia).
  rewrite iter_shr_m by (by rewrite shr_record_of_loc_m). rewrite shr_record_of_loc_m.
  assert (0 <= m / 2 ^ Z.pos p) by (by apply Z.div_pos; [|apply Z.pow_pos_nonneg]).
  assert (e + Z.pos p <= k).
  { unfold fexp, emin, prec, emax in En. lia. }
  split_and!; try lia.
  assert (Zdigits2 (m / 2 ^ Z.pos p) <= Z.max 0 (Zdigits2 m - Z.pos p)); [|lia].
  apply digits2_le; [|lia]. split; [done|]. apply Z.div_lt_upper_bound; [lia|].
  pose proof (digits2_lt m Hm).
  destruct (Z.max_spec 0 (Zdigits2 m - Z.pos p)) as [[? ->]|[? ->]].
  - rewrite <- Z.pow_add_r by lia. by replace (Z.pos p + (Zdigits2 m - Z.pos p)) with (Zdigits2 m) by lia.
  - rewrite Z.mul_1_r. pose proof (Z.pow_le_mono_r 2 (Zdigits2 m) (Z.pos p)). lia.
Qed.

Lemma round_tame s m e l lo k :
  0 <= m -> lo <= e -> Zdigits2 m + e <= k -> -1074 <= k <= 970 ->
  tame lo (k + 1) (binary_round_aux prec emax s m e l).
Proof.
  intros Hm Hlo Hk Hk'. unfold binary_round_aux.
  pose proof (shr_fexp_tame m e l lo k Hm Hlo Hk ltac:(lia)) as H1.
  destruct (shr_fexp prec emax m e l) as [r e']. destruct H1 as (Hr & Hlo' & Hd & He).
  set (m' := round_nearest_even (shr_m r) (loc_of_shr_record r)).
  assert (Hm' : 0 <= m' <= shr_m r + 1).
  { unfold m', round_nearest_even. repeat case_match; lia. }
  assert (Hd' : Zdigits2 m' <= Zdigits2 (shr_m r) + 1).
  { apply digits2_le; [|pose proof (digits2_nonneg (shr_m r)); lia].
    pose proof (digits2_lt (shr_m r) Hr). pose proof (digits2_nonneg (shr_m r)).
    rewrite Z.pow_add_r by lia. lia. }
  pose proof (shr_fexp_tame m' e' loc_Exact lo (k + 1) ltac:(lia) Hlo' ltac:(lia) ltac:(lia)) as H2.
  destruct (shr_fexp prec emax m' e' loc_Exact) as [r' e'']. destruct H2 as (Hr' & ? & ? & ?).
  destruct (shr_m r') as [|q|q] eqn:E; [done| |lia].
  destruct (Z.leb_spec e'' (emax - prec)); [done|]. unfold emax, prec in *. lia.
Qed.

Lemma of_uint64_tame z : 0 <= z <= U64_MAX -> tame (-52) 65 (of_uint64 z).
Proof.
  intros Hz. destruct z as [|p|p]; [done| |lia].
  unfold of_uint64, binary_normalize, binary_round, shl_align.
  pose proof (digits2_le (Z.pos p) 64 ltac:(unfold U64_MAX in *; lia) ltac:(lia)) as Hd.
  pose proof (digits2_log2 p) as Hl. pose proof (Z.log2_nonneg (Z.pos p)).
  simpl Zdigits2 in *. rewrite !Z.add_0_r, !Z.sub_0_r.
  destruct (fexp prec emax (Z.pos (digits2_pos p))) as [|d|d] eqn:E;
    [apply (round_tame _ _ _ _ _ 64); simpl Zdigits2; lia..|].
  assert (Hn : fexp prec emax (Z.pos (digits2_pos p)) = Z.pos (digits2_pos p) - 53).
  { unfold fexp, emin, prec, emax. lia. }
  assert (Hpow : Z.pos (Pos.iter xO p d) = Z.pos p * 2 ^ Z.pos d).
  { rewrite <- Z.shiftl_mul_pow2 by done. simpl Z.shiftl.
    by apply (Pos.iter_swap_gen _ _ Z.pos). }
  apply (round_tame _ _ _ _ _ 64); try lia.
  assert (Zdigits2 (Z.pos (Pos.iter xO p d)) <= Z.pos (digits2_pos p) + Z.pos d); [|lia].
  apply digits2_le; [|lia]. split; [lia|]. rewrite Hpow, Z.pow_add_r by lia.
  pose proof (digits2_lt (Z.pos p) ltac:(lia)). simpl Zdigits2 in *. nia.
Qed.

Lemma mul_tame x y lo k lo' k' :
  tame lo k x -> tame lo' k' y -> -1074 <= k + k' <= 970 ->
  tame (lo + lo') (k + k' + 1) (mul x y).
Proof.
  intros Hx Hy Hk. unfold mul. destruct x as [s|s| |s m e], y as [s'|s'| |s' m' e']; try done.
  simpl in Hx, Hy. apply round_tame; try lia.
  assert (Zdigits2 (Z.pos (m * m')) <= Zdigits2 (Z.pos m) + Zdigits2 (Z.pos m')); [|simpl in *; lia].
  apply digits2_le; [|pose proof (digits2_nonneg (Z.pos m)); pose proof (digits2_nonneg (Z.pos m')); lia].
  split; [lia|]. rewrite Pos2Z.inj_mul, Z.pow_add_r by (by destruct m, m').
  pose proof (digits2_lt (Z.pos m) ltac:(lia)). pose proof (digits2_lt (Z.pos m') ltac:(lia)). nia.
Qed.

Lemma div_tame x y lo k lo' k' :
  tame lo k x -> tame lo' k' y -> (forall s, y <> S754_zero s) -> -1074 <= k - lo' <= 970 ->
  -1000 <= lo -> k' <= 900 -> tame (-2000) (k - lo' + 1) (div x y).
Proof.
  intros Hx Hy Hy0 Hk Hlo Hk'.
  unfold div. destruct x as [s|s| |s m e], y as [s'|s'| |s' m' e']; try done;
    try (by destruct (Hy0 s')).
  simpl in Hx, Hy. simpl SFdiv. unfold SFdiv_core_binary.
  set (d1 := Zdigits2 (Z.pos m)) in *. set (d2 := Zdigits2 (Z.pos m')) in *.
  set (e0 := Z.min (fexp prec emax (d1 + e - (d2 + e'))) (e - e')).
  assert (He0 : -2000 <= e0 <= e - e').
  { unfold e0, fexp, emin, prec, emax. pose proof (digits2_nonneg (Z.pos m')).
    fold d2 in H. simpl in *. lia. }
  assert (exists n, n = Z.pos m * 2 ^ (e - e' - e0)
    /\ match e - e' - e0 with 0 => Z.pos m | Z.pos _ => Z.shiftl (Z.pos m) (e - e' - e0)
       | Z.neg _ => 0 end = n) as (n & Hn & ->).
  { eexists. split; [done|]. destruct (e - e' - e0) eqn:E; [lia| |lia].
    rewrite Z.shiftl_mul_pow2; lia. }
  pose proof (Z.pow_pos_nonneg 2 (e - e' - e0) ltac:(lia) ltac:(lia)).
  change (IntDef.Z.div_eucl n (Z.pos m')) with (Z.div_eucl n (Z.pos m')).
  pose proof (Z_div_mod n (Z.pos m') ltac:(lia)) as Hq.
  destruct (Z.div_eucl n (Z.pos m')) as [q r].
  apply (round_tame _ _ _ _ _ (k - lo')); try nia.
  assert (Zdigits2 q <= d1 + (e - e' - e0)); [|simpl in *; lia].
  apply digits2_le; [|pose proof (digits2_nonneg (Z.pos m)); lia]. split; [nia|].
  rewrite Z.pow_add_r by (pose proof (digits2_nonneg (Z.pos m)); lia).
  pose proof (digits2_lt (Z.pos m) ltac:(lia)). fold d1 in H0. nia.
Qed.

Lemma digits2_ge m : 0 < m -> 2 ^ (Zdigits2 m - 1) <= m.
Proof.
  intros Hm. destruct m as [|p|p]; [lia| |lia]. rewrite digits2_log2.
  replace (Z.log2 (Z.pos p) + 1 - 1) with (Z.log2 (Z.pos p)) by lia.
  by apply Z.log2_spec.
Qed.

(** Above the underflow threshold a positive significand stays so. *)
Lemma shr_fexp_pos m e l :
  0 < m -> - 1000 <= e -> 0 < shr_m (fst (shr_fexp prec emax m e l)) /\ e <= snd (shr_fexp prec emax m e l).
Proof.
  intros Hm He. unfold shr_fexp, shr.
  destruct (fexp prec emax (Zdigits2 m + e) - e) as [|p|p] eqn:En; simpl fst; simpl snd;
    rewrite ?shr_record_of_loc_m; try (split; lia).
  rewrite iter_shr_m by (rewrite shr_record_of_loc_m; lia). rewrite shr_record_of_loc_m.
  split; [|lia]. apply Z.div_str_pos. split; [lia|].
  pose proof (digits2_ge m Hm). unfold fexp, emin, prec, emax in En.
  pose proof (Z.pow_le_mono_r 2 (Z.pos p) (Zdigits2 m - 1) ltac:(lia)). lia.
Qed.

Lemma of_uint64_nonzero z s : 0 < z <= U64_MAX -> of_uint64 z <> S754_zero s.
Proof.
  intros Hz. destruct z as [|p|p]; [lia| |lia].
  unfold of_uint64, binary_normalize, binary_round.
  destruct (shl_align p 0 _) as [mz ez] eqn:E.
  assert (-1000 <= ez).
  { unfold shl_align in E. destruct (fexp _ _ _ - 0) eqn:En in E; injection E as <- <-; try lia.
    unfold fexp, emin, prec, emax in *. lia. }
  unfold binary_round_aux.
  pose proof (shr_fexp_pos (Z.pos mz) ez loc_Exact ltac:(lia) ltac:(lia)) as [H1 H2].
  destruct (shr_fexp prec emax (Z.pos mz) ez loc_Exact) as [r e']. simpl in H1, H2.
  set (m' := round_nearest_even (shr_m r) (loc_of_shr_record r)).
  assert (0 < m') by (unfold m', round_nearest_even; repeat case_match; lia).
  pose proof (shr_fexp_pos m' e' loc_Exact ltac:(lia) ltac:(lia)) as [H3 _].
  destruct (shr_fexp prec emax m' e' loc_Exact) as [r' e'']. simpl in H3.
  destruct (shr_m r'); [lia| |lia]. by case_match.
Qed.

Lemma quotient_defined n rate :
  0 <= n <= U64_MAX -> 0 < rate <= U64_MAX ->
  let x := div (mul (of_uint64 n) (of_uint64 NANO)) (of_uint64 rate) in
  is_Some (to_floor x) /\ is_Some (to_ceil x).
Proof.
  intros Hn Hr x.
  assert (tame (-2000) 184 x).
  { apply (div_tame _ _ (-104) 131 (-52) 65); try lia.
    - apply (mul_tame _ _ (-52) 65 (-52) 65); [by apply of_uint64_tame|by apply of_uint64_tame|lia].
    - apply of_uint64_tame. lia.
    - intros s. by apply of_uint64_nonzero. }
  by destruct x as [| | |[] m e]; simpl in *; eauto.
Qed.

End DoubleFacts.

(** ** The bucket drains exactly *)
Module LeakyBucketFacts.
Import LeakyBucket.
Section with_laws.
Context {T : Type} {TI : TimeIntervalOps T} {TL : TimeIntervalLaws T}.

#[local] Abbreviation units_bound := ((U64_MAX + 1) * NANO).

(** The 64-bit computation is the exact one whenever the units drained fit 64
    bits: units and fraction together are the old fraction and the product of
    the rate by the time. *)
Lemma drain_exact f rate (dt : T) :
  0 <= f < NANO -> 0 < rate -> 0 <= ns dt -> f + rate * ns dt < units_bound ->
  exists units f',
    calculateNumberOfUnitsToDrain f rate dt = Some (units, f')
    /\ units * NANO + f' = f + rate * ns dt /\ 0 <= units /\ 0 <= f' < NANO.
Proof.
  intros Hf Hr Hdt Hfit. destruct (ti_nonneg dt Hdt) as [Hs Hn].
  unfold ns in *. set (s := ti_seconds dt) in *. set (n := ti_nanoseconds dt) in *.
  pose proof (Z.div_mod rate NANO ltac:(done)) as Hrate.
  pose proof (Z.mod_pos_bound rate NANO ltac:(done)) as Hmod.
  pose proof (Z.div_pos rate NANO ltac:(lia) ltac:(done)) as Hdiv.
  set (q := rate / NANO) in *. set (r := rate mod NANO) in *.
  pose proof (Z.div_mod (f + r * n) NANO ltac:(done)) as Hq.
  pose proof (Z.mod_pos_bound (f + r * n) NANO ltac:(done)) as Hq'.
  assert (0 <= r * n) by nia.
  assert (0 <= q * n) by nia.
  assert (0 <= rate * s) by nia.
  assert (r * n <= NANO * NANO) by (unfold NANO in *; nia).
  assert (Htotal : (rate * s + q * n) * NANO + (f + r * n) = f + rate * (s * NANO + n)).
  { rewrite Hrate at 1 2. ring. }
  assert (0 <= (f + r * n) / NANO) by (apply Z.div_pos; [lia|done]).
  set (u := (f + r * n) / NANO) in *. set (f' := (f + r * n) mod NANO) in *.
  assert (Hbig : NANO * NANO + NANO <= U64_MAX) by (unfold NANO, U64_MAX; lia).
  assert (0 < NANO) by done.
  assert (Hu : rate * s + q * n + u < U64_MAX + 1) by nia.
  assert (Hsr : s <= U64_MAX / rate).
  { apply Z.div_le_lower_bound; lia. }
  assert (s <= U64_MAX) by nia.
  exists (rate * s + q * n + u), f'. split_and!; try lia.
  unfold calculateNumberOfUnitsToDrain. fold s n q r.
  rewrite !(wrap_small 64 s), !(wrap_small 64 n) by (unfold U64_MAX, NANO in *; lia).
  rewrite (wrap_small 64 (rate * s)), (wrap_small 64 (q * n)), (wrap_small 64 (r * n))
    by (unfold U64_MAX in *; lia).
  rewrite (wrap_small 64 (rate * s + q * n)), (wrap_small 64 (f + r * n))
    by (unfold U64_MAX in *; lia).
  fold u f'. rewrite wrap_small by (unfold U64_MAX in *; lia).
  destruct (Z.leb_spec s (U64_MAX / rate)); [|lia].
  destruct (Z.ltb_spec f NANO); [done|lia].
Qed.

Record wf (b : LeakyBucket.t T) : Prop := {
  wf_rate : 0 < d_drainRate b <= U64_MAX;
  wf_capacity : 0 < d_capacity b <= U64_MAX;
  wf_reserved : 0 <= d_unitsReserved b;
  wf_inBucket : 0 <= d_unitsInBucket b;
  wf_total : d_unitsInBucket b + d_unitsReserved b <= U64_MAX;
  wf_fraction : 0 <= d_fractionalUnitDrainedInNanoUnits b < NANO;
  wf_max : 0 <= ns (d_maxUpdateInterval b);
  wf_start : ns (d_statisticsCollectionStartTime b) <= ns (d_lastUpdateTime b)
}.

(** A time at which the bucket can be brought up to date: valid, within the
    interval the bucket computed and without an overflow of the drained
    units. *)
Record in_time (b : LeakyBucket.t T) (now : T) : Prop := {
  it_valid : ti_seconds now <> S64_MIN;
  it_repr : representable (ns now - ns (d_lastUpdateTime b));
  it_max : ns now - ns (d_lastUpdateTime b) <= ns (d_maxUpdateInterval b);
  it_fit : d_drainRate b * (ns now - ns (d_lastUpdateTime b)) + NANO <= units_bound
}.

(** What is left in the bucket, in nano-units, once the fraction already
    drained of the next unit is taken off. *)
Definition level (b : LeakyBucket.t T) : Z :=
  d_unitsInBucket b * NANO - d_fractionalUnitDrainedInNanoUnits b.

Record same_limits (b b' : LeakyBucket.t T) : Prop := {
  sl_rate : d_drainRate b' = d_drainRate b;
  sl_capacity : d_capacity b' = d_capacity b;
  sl_reserved : d_unitsReserved b' = d_unitsReserved b;
  sl_max : d_maxUpdateInterval b' = d_maxUpdateInterval b
}.

Lemma same_limits_refl b : same_limits b b.
Proof. by split. Qed.

Lemma same_limits_trans a b c : same_limits a b -> same_limits b c -> same_limits a c.
Proof. intros [] []. split; congruence. Qed.

Lemma updateState_spec b now :
  wf b -> in_time b now ->
  exists b', updateState b now = Some b' /\ wf b' /\ same_limits b b'
    /\ d_lastUpdateTime b' = now
    /\ d_unitsInBucket b' <= d_unitsInBucket b
    /\ (0 <= ns now - ns (d_lastUpdateTime b) ->
        level b - d_drainRate b * (ns now - ns (d_lastUpdateTime b)) <= level b'
        /\ (0 < d_unitsInBucket b' ->
            level b' = level b - d_drainRate b * (ns now - ns (d_lastUpdateTime b)))).
Proof.
  intros W I. destruct W. destruct I. unfold updateState.
  destruct (Z.eqb_spec (ti_seconds now) S64_MIN); [done|]. simpl negb. cbn iota.
  pose proof (ti_sub_ns now (d_lastUpdateTime b) ltac:(done)) as Hd.
  rewrite ti_ltb_ns, ti_leb_ns, ti_ltb_ns, Hd, (ti_make_ns 0 0) by done.
  destruct (Z.ltb_spec (ns (d_maxUpdateInterval b)) (ns now - ns (d_lastUpdateTime b))); [lia|].
  destruct (Z.leb_spec (0 * NANO + 0) (ns now - ns (d_lastUpdateTime b))).
  - destruct (drain_exact (d_fractionalUnitDrainedInNanoUnits b) (d_drainRate b)
      (ti_sub now (d_lastUpdateTime b))) as (u & f' & -> & Heq & Hu & Hf'); try lia.
    rewrite Hd in Heq. cbn [mbind option_bind].
    eexists. split; [done|]. unfold level. simpl.
    destruct (Z.ltb_spec u (d_unitsInBucket b)).
    + split_and!; try done; try lia. split; simpl; lia.
    + split_and!; try done; try lia; [split; simpl; lia|].
      intros _. split; [|lia]. nia.
  - eexists. split; [done|]. split_and!; try done; simpl; try lia.
    split; simpl; try lia. destruct (Z.ltb_spec (ns now) (ns (d_statisticsCollectionStartTime b))); lia.
Qed.

Lemma wouldOverflow_spec b now :
  wf b -> in_time b now ->
  exists b', updateState b now = Some b'
    /\ wouldOverflow b now =
       Some (b', bool_decide (d_capacity b <= d_unitsInBucket b' + d_unitsReserved b'
                              \/ d_unitsInBucket b' + d_unitsReserved b' = U64_MAX)).
Proof.
  intros W I. destruct (updateState_spec b now W I) as (b' & Hb' & [] & [] & _).
  exists b'. split; [done|]. unfold wouldOverflow. rewrite Hb'. cbn [mbind option_bind].
  do 2 f_equal. rewrite wrap_small by (unfold U64_MAX in *; lia). apply eq_bool_prop_intro.
  rewrite bool_decide_spec, orb_True, !Is_true_true, !Z.ltb_lt.
  destruct (Z.eq_dec (d_unitsInBucket b' + d_unitsReserved b') U64_MAX) as [E|E].
  - rewrite E. lia.
  - rewrite (wrap_small 64 (d_unitsInBucket b' + _ + 1)) by (unfold U64_MAX in *; lia). lia.
Qed.

Lemma submit_spec b n :
  wf b -> 0 <= n -> d_unitsInBucket b + d_unitsReserved b + n <= U64_MAX ->
  exists b', submit b n = Some b' /\ wf b' /\ same_limits b b'
    /\ d_lastUpdateTime b' = d_lastUpdateTime b
    /\ d_unitsInBucket b' = d_unitsInBucket b + n /\ level b' = level b + n * NANO.
Proof.
  intros [] Hn Hfit. unfold submit.
  destruct (Z.leb_spec n (U64_MAX - d_unitsInBucket b)); [|lia].
  destruct (Z.leb_spec (d_unitsReserved b) (U64_MAX - d_unitsInBucket b - n)); [|lia].
  eexists. split; [done|]. unfold level, with_units. simpl.
  rewrite wrap_small by (unfold U64_MAX in *; lia).
  split_and!; try done; try lia. split; simpl; lia.
Qed.

(** What any number of operations leave behind that submitted [n] units in
    all: the limits, a time no earlier, and no more drained than the rate
    allows for the time that passed. *)
Record progress (b b' : LeakyBucket.t T) (n : Z) : Prop := {
  pr_limits : same_limits b b';
  pr_time : ns (d_lastUpdateTime b) <= ns (d_lastUpdateTime b');
  pr_level : level b + n * NANO <=
    level b' + d_drainRate b * (ns (d_lastUpdateTime b') - ns (d_lastUpdateTime b))
}.

Lemma progress_refl b : progress b b 0.
Proof. split; [apply same_limits_refl|lia|lia]. Qed.

Lemma progress_trans a b c n m : progress a b n -> progress b c m -> progress a c (n + m).
Proof.
  intros [L1 T1 V1] [L2 T2 V2]. split; [by eapply same_limits_trans|lia|].
  rewrite (sl_rate _ _ L1) in V2. nia.
Qed.

Lemma updateState_progress b now b' :
  wf b -> in_time b now -> ns (d_lastUpdateTime b) <= ns now ->
  updateState b now = Some b' ->
  wf b' /\ progress b b' 0 /\ d_lastUpdateTime b' = now
  /\ d_unitsInBucket b' <= d_unitsInBucket b.
Proof.
  intros W I Ht Hb'. destruct (updateState_spec b now W I) as (? & Hb'' & ? & ? & Hl & ? & Hlev).
  rewrite Hb' in Hb''. simplify_eq. split_and!; try done.
  destruct (Hlev ltac:(lia)). split; [done|lia|lia].
Qed.

Lemma submit_progress b n :
  wf b -> 0 <= n -> d_unitsInBucket b + d_unitsReserved b + n <= U64_MAX ->
  exists b', submit b n = Some b' /\ wf b' /\ progress b b' n
    /\ d_lastUpdateTime b' = d_lastUpdateTime b
    /\ d_unitsInBucket b' = d_unitsInBucket b + n.
Proof.
  intros W Hn Hfit. destruct (submit_spec b n W Hn Hfit) as (b' & -> & ? & ? & Hl & ? & Hlev).
  exists b'. split_and!; try done. split; [done|rewrite Hl; lia|rewrite Hl, Hlev; lia].
Qed.

Lemma calculateDrainTime_total n rate ceilFlag :
  0 <= n <= U64_MAX -> 1 < rate <= U64_MAX ->
  exists t : T, calculateDrainTime n rate ceilFlag = Some t.
Proof.
  intros Hn Hr. unfold calculateDrainTime.
  destruct (Z.ltb_spec 1 rate); [simpl orb; cbn iota|lia].
  pose proof (Z.mod_pos_bound n rate ltac:(lia)).
  destruct (DoubleFacts.quotient_defined (n mod rate) rate) as [[x Hx] [y Hy]]; [lia..|].
  destruct ceilFlag; rewrite ?Hx, ?Hy; simpl; eauto.
Qed.

(** Either a unit can be submitted at once, with or without an update, or the
    bucket was updated and is over its capacity. *)
Lemma calculateTimeToSubmit_spec b now :
  wf b -> in_time b now -> 1 < d_drainRate b ->
  exists b' d, calculateTimeToSubmit b now = Some (b', d) /\
    (b' = b /\ d_unitsInBucket b + d_unitsReserved b < d_capacity b /\ d = ti_make 0 0
     \/ updateState b now = Some b' /\
        (d_unitsInBucket b' + d_unitsReserved b' < d_capacity b' /\ d = ti_make 0 0
         \/ d_capacity b' <= d_unitsInBucket b' + d_unitsReserved b')).
Proof.
  intros W I Hr. pose proof W as []. unfold calculateTimeToSubmit.
  rewrite wrap_small by (unfold U64_MAX in *; lia).
  destruct (Z.ltb_spec (d_unitsInBucket b + d_unitsReserved b) (d_capacity b)).
  { do 2 eexists. split; [done|]. left. done. }
  destruct (updateState_spec b now W I) as (b' & -> & W' & L & _).
  pose proof W' as []. destruct L as [Lr Lc LR Lm]. cbn [mbind option_bind].
  rewrite wrap_small by (unfold U64_MAX in *; lia).
  destruct (Z.ltb_spec (d_unitsInBucket b' + d_unitsReserved b') (d_capacity b')).
  { do 2 eexists. split; [done|]. right. split; [done|]. by left. }
  rewrite wrap_small by (unfold U64_MAX in *; lia).
  destruct (calculateDrainTime_total
    (d_unitsInBucket b' + d_unitsReserved b' - d_capacity b' + 1) (d_drainRate b') true)
    as [d ->]; [lia|lia|].
  cbn [mbind option_bind]. do 2 eexists. split; [done|]. right. split; [done|]. by right.
Qed.

End with_laws.
End LeakyBucketFacts.

(** ** The rate limiter enforces both rates *)
Module RateLimiterFacts.
Import RateLimiter LeakyBucketFacts.
Section with_laws.
Context {T : Type} {TI : TimeIntervalOps T} {TL : TimeIntervalLaws T}.

Section period.
(** The largest number of bytes of one send, and the period observed. *)
Context (m t0 t1 : Z).

(** A bucket that is ready for the period: its last update is in it, it holds
    at most one send more than it admits, and over the whole period it can
    drain without an overflow. *)
Record ready (b : LeakyBucket.t T) : Prop := {
  rd_wf : LeakyBucketFacts.wf b;
  rd_rate : 1 < LeakyBucket.d_drainRate b;
  rd_units : LeakyBucket.d_unitsInBucket b + LeakyBucket.d_unitsReserved b
             < LeakyBucket.d_capacity b + m;
  rd_room : LeakyBucket.d_capacity b + m <= U64_MAX;
  rd_last : t0 <= ns (LeakyBucket.d_lastUpdateTime b) <= t1;
  rd_max : t1 - t0 <= ns (LeakyBucket.d_maxUpdateInterval b);
  rd_fit : LeakyBucket.d_drainRate b * (t1 - t0) + NANO <= (U64_MAX + 1) * NANO
}.

(** A time of the period at which a bucket may be used. *)
Record usable (b : LeakyBucket.t T) (now : T) : Prop := {
  us_valid : ti_seconds now <> S64_MIN;
  us_later : ns (LeakyBucket.d_lastUpdateTime b) <= ns now <= t1
}.

Lemma ready_in_time b now : ready b -> usable b now -> in_time b now.
Proof.
  intros [[] ? ? ? ? ? ?] []. 
  assert (Hd : 0 <= ns now - ns (LeakyBucket.d_lastUpdateTime b) <= t1 - t0) by lia.
  assert (Hm : LeakyBucket.d_drainRate b * (ns now - ns (LeakyBucket.d_lastUpdateTime b))
          <= LeakyBucket.d_drainRate b * (t1 - t0)) by nia.
  assert (t1 - t0 <= U64_MAX * NANO / 2).
  { apply Z.div_le_lower_bound; [done|]. unfold NANO in *. nia. }
  split; [done| |lia|lia].
  unfold representable. change (U64_MAX * NANO / 2) with (S64_MAX * NANO + 500000000) in *.
  change ((S64_MAX + 1) * NANO) with (S64_MAX * NANO + NANO).
  split; [|unfold NANO in *; lia]. 
  change ((S64_MIN - 1) * NANO) with (-9223372036854775809000000000). lia.
Qed.

Lemma ready_step b b' n :
  ready b -> progress b b' n -> LeakyBucketFacts.wf b' ->
  LeakyBucket.d_unitsInBucket b' + LeakyBucket.d_unitsReserved b'
    < LeakyBucket.d_capacity b' + m ->
  ns (LeakyBucket.d_lastUpdateTime b') <= t1 -> ready b'.
Proof.
  intros [] [[] ? _] ? ? ?.
  split; try done; try congruence; try lia.
Qed.

(** The operations of a bucket that [attempt] uses, on a ready bucket. *)
Lemma wouldOverflow_ready b now :
  ready b -> usable b now ->
  exists b' full, LeakyBucket.wouldOverflow b now = Some (b', full)
    /\ ready b' /\ progress b b' 0 /\ LeakyBucket.d_lastUpdateTime b' = now
    /\ (full = false ->
        LeakyBucket.d_unitsInBucket b' + LeakyBucket.d_unitsReserved b'
          < LeakyBucket.d_capacity b').
Proof.
  intros R U. pose proof (ready_in_time b now R U) as I. pose proof R as [W ? ? ? ? ? ?].
  destruct U as [? ?].
  destruct (wouldOverflow_spec b now W I) as (b' & Hb' & ->).
  destruct (updateState_progress b now b' W I ltac:(lia) Hb') as (? & P & Hl & ?).
  pose proof (pr_limits _ _ _ P) as [].
  do 2 eexists. split; [done|]. split_and!; try done.
  - apply (ready_step b b' 0); try done; [lia|rewrite Hl; lia].
  - rewrite bool_decide_eq_false. lia.
Qed.

Lemma calculateTimeToSubmit_ready b now :
  ready b -> usable b now ->
  exists b' d, LeakyBucket.calculateTimeToSubmit b now = Some (b', d)
    /\ ready b' /\ progress b b' 0 /\ ns (LeakyBucket.d_lastUpdateTime b') <= ns now.
Proof.
  intros R U. pose proof (ready_in_time b now R U) as I. pose proof R as [W ? ? ? ? ? ?].
  destruct U as [? ?].
  destruct (calculateTimeToSubmit_spec b now W I ltac:(lia)) as (b' & d & Hc & Hcase).
  exists b', d. split; [done|].
  destruct Hcase as [(-> & _)|(Hu & _)].
  - split_and!; [done|apply progress_refl|lia].
  - destruct (updateState_progress b now b' W I ltac:(lia) Hu) as (? & P & Hl & ?).
    pose proof (pr_limits _ _ _ P) as [].
    split_and!; [|done|rewrite Hl; lia].
    apply (ready_step b b' 0); try done; [lia|rewrite Hl; lia].
Qed.

Lemma submit_ready b n :
  ready b -> 0 <= n <= m ->
  LeakyBucket.d_unitsInBucket b + LeakyBucket.d_unitsReserved b
    < LeakyBucket.d_capacity b ->
  exists b', LeakyBucket.submit b n = Some b' /\ ready b' /\ progress b b' n
    /\ LeakyBucket.d_lastUpdateTime b' = LeakyBucket.d_lastUpdateTime b.
Proof.
  intros R Hn Hfree. pose proof R as [W ? ? ? ? ? ?].
  destruct (submit_progress b n W ltac:(lia) ltac:(lia)) as (b' & Hs & W' & P & Hl & HB).
  pose proof (pr_limits _ _ _ P) as [].
  exists b'. split_and!; try done.
  apply (ready_step b b' n); try done; [lia|rewrite Hl; lia].
Qed.

(** The sends of the period, in order of time, each of at most [m] bytes. *)
Fixpoint in_order (after : Z) (sends : list (T * Z)) : Prop :=
  match sends with
  | [] => True
  | (now, n) :: rest =>
      after <= ns now <= t1 /\ ti_seconds now <> S64_MIN /\ 0 <= n <= m
      /\ in_order (ns now) rest
  end.

Record both_ready (l : RateLimiter.t T) (before : Z) : Prop := {
  br_peak : ready (d_peakRateBucket l);
  br_sustained : ready (d_sustainedRateBucket l);
  br_peak_last : ns (LeakyBucket.d_lastUpdateTime (d_peakRateBucket l)) <= before;
  br_sustained_last : ns (LeakyBucket.d_lastUpdateTime (d_sustainedRateBucket l)) <= before
}.

Definition both_progress (l l' : RateLimiter.t T) (n : Z) : Prop :=
  progress (d_peakRateBucket l) (d_peakRateBucket l') n
  /\ progress (d_sustainedRateBucket l) (d_sustainedRateBucket l') n.

Lemma attempt_ready l before now n :
  both_ready l before -> before <= ns now <= t1 -> ti_seconds now <> S64_MIN -> 0 <= n <= m ->
  exists l' r, attempt l now n = Some (l', r) /\ both_ready l' (ns now)
    /\ both_progress l l' (match r with inl _ => 0 | inr k => k end).
Proof.
  intros [Rp Rs Lp Ls] Hnow Hv Hn. unfold attempt, wouldExceedBandwidth.
  destruct (wouldOverflow_ready _ now Rp ltac:(split; [done|lia]))
    as (p & fp & -> & Rp' & Pp & Lp' & Fp).
  cbn [mbind option_bind]. destruct fp.
  - cbn [mbind option_bind]. unfold calculateTimeToSubmit. simpl.
    destruct (calculateTimeToSubmit_ready p now Rp' ltac:(split; [done|rewrite Lp'; lia]))
      as (p' & dp & -> & Rp'' & Pp' & Lp''). cbn [mbind option_bind].
    destruct (calculateTimeToSubmit_ready _ now Rs ltac:(split; [done|lia]))
      as (s' & ds & -> & Rs'' & Ps' & Ls''). cbn [mbind option_bind].
    do 2 eexists. split; [done|]. split; [by split|].
    split; [by apply (progress_trans _ p _ 0 0)|done].
  - destruct (wouldOverflow_ready _ now Rs ltac:(split; [done|lia]))
      as (s & fs & -> & Rs' & Ps & Ls' & Fs).
    cbn [mbind option_bind]. destruct fs.
    + unfold calculateTimeToSubmit. simpl.
      destruct (calculateTimeToSubmit_ready p now Rp' ltac:(split; [done|rewrite Lp'; lia]))
        as (p' & dp & -> & Rp'' & Pp' & Lp''). cbn [mbind option_bind].
      destruct (calculateTimeToSubmit_ready s now Rs' ltac:(split; [done|rewrite Ls'; lia]))
        as (s' & ds & -> & Rs'' & Ps' & Ls''). cbn [mbind option_bind].
      do 2 eexists. split; [done|]. split; [by split|].
      split; [by apply (progress_trans _ p _ 0 0)|by apply (progress_trans _ s _ 0 0)].
    + unfold submit, both. simpl.
      destruct (submit_ready p n Rp' Hn (Fp eq_refl)) as (p' & -> & Rp'' & Pp' & Lp'').
      cbn [mbind option_bind].
      destruct (submit_ready s n Rs' Hn (Fs eq_refl)) as (s' & -> & Rs'' & Ps' & Ls'').
      cbn [mbind option_bind]. do 2 eexists. split; [done|].
      split; [split; simpl; try done; [by rewrite Lp'', Lp'|by rewrite Ls'', Ls']|].
      split; [by apply (progress_trans _ p _ 0 n)|by apply (progress_trans _ s _ 0 n)].
Qed.

Lemma attempts_ready sends l before :
  both_ready l before -> in_order before sends ->
  exists l' total, attempts l sends = Some (l', total)
    /\ (exists before', both_ready l' before') /\ both_progress l l' total.
Proof.
  revert l before. induction sends as [|[now n] sends IH]; intros l before R O.
  - exists l, 0. split_and!; [done|eauto|split; apply progress_refl].
  - destruct O as (Hnow & Hv & Hn & O).
    destruct (attempt_ready l before now n R Hnow Hv Hn) as (l1 & r & Ha & R1 & Pp & Ps).
    destruct (IH l1 (ns now) R1 O) as (l2 & total & Hrest & R2 & Pp2 & Ps2).
    simpl. rewrite Ha. cbn [mbind option_bind]. rewrite Hrest. cbn [mbind option_bind].
    exists l2, ((match r with inl _ => 0 | inr k => k end) + total).
    split_and!; [by destruct r|done|].
    split; by eapply progress_trans.
Qed.

Lemma progress_bound b b' n :
  ready b -> ready b' -> progress b b' n ->
  n * NANO < LeakyBucket.d_drainRate b * (t1 - t0) + (LeakyBucket.d_capacity b + m) * NANO.
Proof.
  intros [[] ? ? ? ? ? ?] [[] ? ? ? ? ? ?] [[] ? Hlev]. unfold level in Hlev.
  assert (LeakyBucket.d_drainRate b
          * (ns (LeakyBucket.d_lastUpdateTime b') - ns (LeakyBucket.d_lastUpdateTime b))
          <= LeakyBucket.d_drainRate b * (t1 - t0)) by nia.
  assert (LeakyBucket.d_unitsInBucket b' * NANO
          <= (LeakyBucket.d_capacity b + m - 1) * NANO) by (unfold NANO in *; nia).
  assert (0 <= LeakyBucket.d_unitsInBucket b * NANO) by (unfold NANO in *; lia).
  lia.
Qed.

End period.
End with_laws.
End RateLimiterFacts.

(** ** Examples *)

Definition example_limiter : option (RateLimiter.t Nanos) :=
  RateLimiter.make 1000 (NANO : Nanos) 2000 (NANO / 10 : Nanos) (5 * NANO : Nanos).

Definition example_sends : list (Nanos * Z) :=
  [(5 * NANO, 150); (5 * NANO + 1000, 100); (5 * NANO + 2000, 100);
   (5 * NANO + 80000000, 100); (6 * NANO, 150)].

Example example_limiter_run :
  option_map snd (l ← example_limiter; RateLimiter.attempts l example_sends) = Some 500.
Proof. vm_compute. reflexivity. Qed.

(** ** The operations of the limiter as steps *)
Module LimiterOps.
Import RateLimiter.

Inductive op (T : Type) : Type :=
  | Update (now : T) | Submit (n : Z) | Reserve (n : Z) | SubmitReserved (n : Z)
  | CancelReserved (n : Z) | Reset (now : T) | ResetStatistics.
#[global] Arguments Update {T}.
#[global] Arguments Submit {T}.
#[global] Arguments Reserve {T}.
#[global] Arguments SubmitReserved {T}.
#[global] Arguments CancelReserved {T}.
#[global] Arguments Reset {T}.
#[global] Arguments ResetStatistics {T}.

Section with_laws.
Context {T : Type} {TI : TimeIntervalOps T} {TL : TimeIntervalLaws T}.

Definition step (l : RateLimiter.t T) (o : op T) : option (RateLimiter.t T) :=
  match o with
  | Update now => updateState l now
  | Submit n => submit l n
  | Reserve n => reserve l n
  | SubmitReserved n => submitReserved l n
  | CancelReserved n => cancelReserved l n
  | Reset now => reset l now
  | ResetStatistics => Some (resetStatistics l)
  end.

Record wf (l : RateLimiter.t T) : Prop := {
  wf_peak : LeakyBucketFacts.wf (d_peakRateBucket l);
  wf_sustained : LeakyBucketFacts.wf (d_sustainedRateBucket l);
  wf_agree : LeakyBucket.d_unitsReserved (d_peakRateBucket l)
             = LeakyBucket.d_unitsReserved (d_sustainedRateBucket l)
}.

(** [unitsReserved]. *)
Definition reserved (l : RateLimiter.t T) : Z :=
  LeakyBucket.d_unitsReserved (d_sustainedRateBucket l).

(** The reservations an operation leaves. *)
Definition expected (l : RateLimiter.t T) (o : op T) : Z :=
  match o with
  | Reserve n => reserved l + n
  | SubmitReserved n | CancelReserved n => reserved l - n
  | Reset _ => 0
  | _ => reserved l
  end.

(** Unsigned arguments, and times whose distance to the last update is an
    interval. *)
Definition valid (l : RateLimiter.t T) (o : op T) : Prop :=
  match o with
  | Update now =>
      representable (ns now - ns (LeakyBucket.d_lastUpdateTime (d_peakRateBucket l)))
      /\ representable (ns now - ns (LeakyBucket.d_lastUpdateTime (d_sustainedRateBucket l)))
  | Submit n | Reserve n | SubmitReserved n | CancelReserved n => 0 <= n
  | _ => True
  end.

(** The buckets, operation by operation. *)
Definition bucket_ok (b : LeakyBucket.t T) (r : Z) (x : option (LeakyBucket.t T)) : Prop :=
  forall b', x = Some b' -> LeakyBucketFacts.wf b' /\ LeakyBucket.d_unitsReserved b' = r.

Lemma submit_ok b n :
  LeakyBucketFacts.wf b -> 0 <= n ->
  bucket_ok b (LeakyBucket.d_unitsReserved b) (LeakyBucket.submit b n).
Proof.
  intros [] Hn b' Hb'. unfold LeakyBucket.submit in Hb'.
  repeat case_match; simplify_eq/=. split; [|done].
  split; simpl; rewrite ?wrap_small by (unfold U64_MAX in *; lia); lia.
Qed.

Lemma reserve_ok b n :
  LeakyBucketFacts.wf b -> 0 <= n ->
  bucket_ok b (LeakyBucket.d_unitsReserved b + n) (LeakyBucket.reserve b n).
Proof.
  intros [] Hn b' Hb'. unfold LeakyBucket.reserve in Hb'.
  repeat case_match; simplify_eq/=. rewrite wrap_small by (unfold U64_MAX in *; lia).
  split; [|done]. split; simpl; lia.
Qed.

Lemma cancelReserved_ok b n :
  LeakyBucketFacts.wf b -> 0 <= n ->
  bucket_ok b (LeakyBucket.d_unitsReserved b - n) (LeakyBucket.cancelReserved b n).
Proof.
  intros [] Hn b' Hb'. unfold LeakyBucket.cancelReserved in Hb'.
  repeat case_match; simplify_eq/=; [lia|]. split; [|done]. split; simpl; lia.
Qed.

Lemma submitReserved_ok b n :
  LeakyBucketFacts.wf b -> 0 <= n ->
  bucket_ok b (LeakyBucket.d_unitsReserved b - n) (LeakyBucket.submitReserved b n).
Proof.
  intros W Hn b' Hb'. pose proof W as []. unfold LeakyBucket.submitReserved in Hb'.
  case_match; [|done]. rewrite wrap_small in Hb' by (unfold U64_MAX in *; lia).
  apply submit_ok in Hb'; [done| |done]. split; simpl; lia.
Qed.

Lemma reset_ok b now :
  LeakyBucketFacts.wf b -> bucket_ok b 0 (LeakyBucket.reset b now).
Proof.
  intros [] b' Hb'. unfold LeakyBucket.reset in Hb'. case_match; simplify_eq/=.
  split; [|done]. split; simpl; unfold U64_MAX in *; lia.
Qed.

Lemma drain_range f rate (dt : T) u f' :
  LeakyBucket.calculateNumberOfUnitsToDrain f rate dt = Some (u, f') ->
  0 <= u /\ 0 <= f' < NANO.
Proof.
  unfold LeakyBucket.calculateNumberOfUnitsToDrain. intros H.
  do 2 (case_match; [|done]). simplify_eq.
  split; [by apply wrap_range|]. by apply Z.mod_pos_bound.
Qed.

Lemma updateState_ok b now :
  LeakyBucketFacts.wf b -> representable (ns now - ns (LeakyBucket.d_lastUpdateTime b)) ->
  bucket_ok b (LeakyBucket.d_unitsReserved b) (LeakyBucket.updateState b now).
Proof.
  intros [] Hrep b' Hb'. unfold LeakyBucket.updateState in Hb'.
  pose proof (ti_sub_ns now (LeakyBucket.d_lastUpdateTime b) ltac:(done)) as Hd.
  case_match; [|done].
  rewrite ti_ltb_ns, ti_leb_ns, ti_ltb_ns, Hd, (ti_make_ns 0 0) in Hb' by done.
  case_match; [simplify_eq/=; split; [|done]; split; simpl; lia|].
  case_match; [|simplify_eq/=; split; [|done]; split; simpl; try lia; case_match; lia].
  inv_option Hb'. split; [|done].
  match goal with E : LeakyBucket.calculateNumberOfUnitsToDrain _ _ _ = _ |- _ =>
    apply drain_range in E as [? ?] end.
  split; simpl; try lia; repeat case_match; lia.
Qed.

(** Both buckets take the step, so that their reservations stay equal. *)
Lemma both_ok (l l' : RateLimiter.t T) f g :
  wf l -> both f l = Some l' ->
  (forall b, b = d_peakRateBucket l \/ b = d_sustainedRateBucket l ->
     bucket_ok b (g (LeakyBucket.d_unitsReserved b)) (f b)) ->
  wf l' /\ reserved l' = g (reserved l).
Proof.
  intros [Wp Ws A] Hl Hf. unfold both in Hl. inv_option Hl.
  destruct (Hf (d_peakRateBucket l) (or_introl eq_refl) _ Hr).
  destruct (Hf (d_sustainedRateBucket l) (or_intror eq_refl) _ Hr0).
  split; [|done]. split; simpl; congruence.
Qed.

Lemma step_wf l o l' :
  wf l -> valid l o -> step l o = Some l' -> wf l' /\ reserved l' = expected l o.
Proof.
  intros W V Hs. pose proof W as [Wp Ws A]. destruct o as [now|n|n|n|n|now|]; simpl in *.
  - apply (both_ok l l' _ (fun r => r) W Hs). destruct V. intros b [->| ->]; by apply updateState_ok.
  - apply (both_ok l l' _ (fun r => r) W Hs). intros b [->| ->]; by apply submit_ok.
  - apply (both_ok l l' _ (fun r => r + n) W Hs). intros b [->| ->]; by apply reserve_ok.
  - apply (both_ok l l' _ (fun r => r - n) W Hs). intros b [->| ->]; by apply submitReserved_ok.
  - apply (both_ok l l' _ (fun r => r - n) W Hs). intros b [->| ->]; by apply cancelReserved_ok.
  - apply (both_ok l l' _ (fun _ => 0) W Hs). intros b [->| ->]; by apply reset_ok.
  - simplify_eq/=. split; [|done]. split; simpl; [done| |done]. destruct Ws. split; simpl; lia.
Qed.

Lemma bucket_reserved_usable b n :
  LeakyBucketFacts.wf b -> 0 <= n <= LeakyBucket.d_unitsReserved b ->
  is_Some (LeakyBucket.submitReserved b n) /\ is_Some (LeakyBucket.cancelReserved b n).
Proof.
  intros [] Hn. unfold LeakyBucket.submitReserved, LeakyBucket.submit, LeakyBucket.cancelReserved.
  simpl. rewrite wrap_small by (unfold U64_MAX in *; lia).
  repeat step_guard; split; eauto.
Qed.

Lemma reserved_usable l n :
  wf l -> 0 <= n <= reserved l ->
  is_Some (submitReserved l n) /\ is_Some (cancelReserved l n).
Proof.
  intros [Wp Ws A] Hn. unfold reserved, submitReserved, cancelReserved, both in *.
  destruct (bucket_reserved_usable _ n Wp ltac:(lia)) as [[p ->] [p' ->]].
  destruct (bucket_reserved_usable _ n Ws ltac:(lia)) as [[s ->] [s' ->]].
  cbn [mbind option_bind]. eauto.
Qed.

End with_laws.
End LimiterOps.

(** ** The properties *)
Module RateLimiterTheorems.
Import RateLimiter LeakyBucketFacts RateLimiterFacts LimiterOps.

(** Draining over a sequence of consecutive intervals. *)
Fixpoint drain_all {T} `{TimeIntervalOps T} (f rate : Z) (dts : list T) : option (Z * Z) :=
  match dts with
  | [] => Some (0, f)
  | dt :: rest =>
      '(units, f) ← LeakyBucket.calculateNumberOfUnitsToDrain f rate dt;
      '(total, f) ← drain_all f rate rest;
      Some (units + total, f)
  end.

Section with_laws.
Context {T : Type} {TI : TimeIntervalOps T} {TL : TimeIntervalLaws T}.

(** The fraction carried from one update to the next makes draining
    exact: over any sequence of intervals the units drained are, to the
    nano-unit, the drain rate times the total time, however the time was cut
    into updates. *)
Theorem drain_no_drift f rate (dts : list T) :
  0 <= f < NANO -> 0 < rate -> Forall (fun dt => 0 <= ns dt) dts ->
  f + rate * sum_with ns dts < (U64_MAX + 1) * NANO ->
  exists units f', drain_all f rate dts = Some (units, f')
    /\ units * NANO + f' = f + rate * sum_with ns dts /\ 0 <= f' < NANO
    /\ units = (f + rate * sum_with ns dts) / NANO.
Proof.
  intros Hf Hr Hdts Hfit.
  assert (exists units f', drain_all f rate dts = Some (units, f')
    /\ units * NANO + f' = f + rate * sum_with ns dts /\ 0 <= f' < NANO) as (u & f' & ? & ? & ?).
  { revert f Hf Hfit. induction Hdts as [|dt dts Hdt Hdts IH]; intros f Hf Hfit.
    - exists 0, f. rewrite sum_with_nil in *. split_and!; [done|lia|lia|lia].
    - rewrite sum_with_cons in *.
      pose proof (sum_with_nonneg ns dts Hdts) as Hs.
      destruct (drain_exact f rate dt) as (u & f1 & Hd & Heq & Hu & Hf1); [done|done|done|nia|].
      destruct (IH f1) as (u2 & f2 & Hd2 & Heq2 & Hf2); [done|nia|].
      exists (u + u2), f2. simpl. rewrite Hd. cbn [mbind option_bind]. rewrite Hd2.
      split_and!; [done|nia|lia|lia]. }
  exists u, f'. split_and!; try done; try lia.
  apply Z.div_unique with f'; lia.
Qed.

(** C22: a socket that consults its limiter before each send never exceeds
    either rate: whatever the times and the sizes of its attempts over a
    period, no assertion fails, and for the peak as for the sustained bucket
    the bytes sent are at most the rate times the period, plus the capacity
    and one more send. *)
Theorem rate_conformance m t0 t1 (l : RateLimiter.t T) before sends :
  both_ready m t0 t1 l before -> in_order m t1 before sends ->
  exists l' total, attempts l sends = Some (l', total)
    /\ Forall (fun b => total * NANO <
                 LeakyBucket.d_drainRate b * (t1 - t0)
                 + (LeakyBucket.d_capacity b + m) * NANO)
         [d_peakRateBucket l; d_sustainedRateBucket l].
Proof.
  intros R O. destruct (attempts_ready m t0 t1 sends l before R O)
    as (l' & total & Ha & (before' & R') & Pp & Ps).
  exists l', total. split; [done|]. destruct R, R'.
  split_Forall.
  - by apply (progress_bound m t0 t1 _ (d_peakRateBucket l')).
  - by apply (progress_bound m t0 t1 _ (d_sustainedRateBucket l')).
Qed.

(** The time [calculateTimeToSubmit] returns is the right one: zero
    exactly when a unit can be submitted now, and otherwise long enough that
    the bucket admits a unit after it, as long as the drain time was not
    rounded below the backlog and the reservations alone do not fill the
    bucket. *)
Theorem time_to_submit (b : LeakyBucket.t T) now :
  LeakyBucketFacts.wf b -> in_time b now -> 1 < LeakyBucket.d_drainRate b ->
  ns (LeakyBucket.d_lastUpdateTime b) <= ns now ->
  LeakyBucket.d_capacity b < U64_MAX ->
  LeakyBucket.d_unitsReserved b < LeakyBucket.d_capacity b ->
  exists b' d, LeakyBucket.calculateTimeToSubmit b now = Some (b', d) /\
    (d = ti_make 0 0 /\ (exists b'', LeakyBucket.wouldOverflow b now = Some (b'', false))
     \/ LeakyBucket.wouldOverflow b now = Some (b', true)
        /\ forall later, in_time b' later ->
           ns now + ns d <= ns later -> 0 <= ns d ->
           (LeakyBucket.d_unitsInBucket b' + LeakyBucket.d_unitsReserved b'
              - LeakyBucket.d_capacity b' + 1) * NANO
             <= LeakyBucket.d_drainRate b' * ns d ->
           exists b'', LeakyBucket.wouldOverflow b' later = Some (b'', false)).
Proof.
  intros W I Hr Ht Hc HR.
  destruct (wouldOverflow_spec b now W I) as (u & Hu & Hw).
  destruct (updateState_progress b now u W I Ht Hu) as (Wu & Pu & Lu & Bu).
  pose proof (pr_limits _ _ _ Pu) as [Sr Sc SR Sm].
  destruct (calculateTimeToSubmit_spec b now W I Hr) as (b' & d & -> & Hcase).
  exists b', d. split; [done|]. rewrite Hw.
  destruct Hcase as [(-> & Hfree & ->)|(Hu' & Hcase)].
  - left. split; [done|]. exists u. do 2 f_equal. apply bool_decide_eq_false. lia.
  - rewrite Hu in Hu'. injection Hu' as <-. destruct Hcase as [[Hfree ->]|Hfull].
    + left. split; [done|]. exists u. do 2 f_equal. apply bool_decide_eq_false. lia.
    + right. split; [do 2 f_equal; apply bool_decide_eq_true; lia|].
      intros later Il Hl Hd Hcover.
      destruct (wouldOverflow_spec u later Wu Il) as (v & Hv & ->). exists v. do 2 f_equal.
      apply bool_decide_eq_false. rewrite <- Lu in *.
      destruct (updateState_spec u later Wu Il)
        as (v' & Hv' & Wv & [Vr Vc VR Vm] & _ & _ & Hlev).
      rewrite Hv in Hv'. injection Hv' as <-.
      destruct (Hlev ltac:(lia)) as [_ Hexact]. destruct Wu, Wv. unfold level in Hexact.
      destruct (Z_lt_dec 0 (LeakyBucket.d_unitsInBucket v)) as [Hpos|]; [|lia].
      specialize (Hexact Hpos).
      assert (LeakyBucket.d_drainRate u * ns d
        <= LeakyBucket.d_drainRate u * (ns later - ns (LeakyBucket.d_lastUpdateTime u))) by nia.
      unfold NANO in *. lia.
Qed.

(** Every operation of the limiter keeps its invariant, that the buckets
    are well-formed (in particular that their statistics never start after
    their last update) and hold the same reservations, which is what
    [unitsReservedLocked] asserts; and what was reserved can be submitted or
    canceled without any assertion failing. *)
Theorem limiter_invariant (l : RateLimiter.t T) (o : op T) :
  LimiterOps.wf l -> LimiterOps.valid l o ->
  (forall l', LimiterOps.step l o = Some l' ->
     LimiterOps.wf l' /\ LimiterOps.reserved l' = LimiterOps.expected l o)
  /\ (forall n, 0 <= n <= LimiterOps.reserved l ->
       is_Some (submitReserved l n) /\ is_Some (cancelReserved l n)).
Proof.
  intros W V. split; [intros l'; by apply LimiterOps.step_wf|].
  intros n Hn. by apply LimiterOps.reserved_usable.
Qed.

End with_laws.

(** The drain time is computed in double precision and is not always
    rounded the way it is asked to be. Rounded up, it can be too short for the
    backlog: the unit is still refused when the time has passed. Rounded down,
    it can be too long: a bucket of a large rate accepts an update interval
    for which the units drained overflow and the assertion of
    [calculateNumberOfUnitsToDrain] fails. *)
Theorem drain_time_rounding :
  (exists t : Nanos, LeakyBucket.calculateDrainTime 857142863 1000000007 true = Some t
     /\ 1000000007 * ns t < 857142863 * NANO)
  /\ (exists (b : LeakyBucket.t Nanos) (now : Nanos),
        LeakyBucket.make (2 ^ 63) 1 (0 : Nanos) = Some b
        /\ ns now - ns (LeakyBucket.d_lastUpdateTime b) <= ns (LeakyBucket.d_maxUpdateInterval b)
        /\ LeakyBucket.updateState b now = None).
Proof.
  split.
  - exists 857142857. split; [vm_compute; reflexivity|rewrite Nanos_ns; unfold NANO; lia].
  - exists (LeakyBucket.mk (2 ^ 63) 1 0 0 0 (2 * NANO : Nanos) (0 : Nanos) 0 0 (0 : Nanos)),
      (2 * NANO).
    split_and!; vm_compute; done.
Qed.

Example drain_no_drift_witness :
  exists units f', drain_all (T := Nanos) 0 3 [500000000; 700000000; 1] = Some (units, f')
    /\ units * NANO + f' = 0 + 3 * sum_with ns ([500000000; 700000000; 1] : list Nanos)
    /\ 0 <= f' < NANO
    /\ units = (0 + 3 * sum_with ns ([500000000; 700000000; 1] : list Nanos)) / NANO.
Proof.
  apply (drain_no_drift (T := Nanos)); [vm_compute; split; [discriminate|done]|done| |done].
  split_Forall; vm_compute; discriminate.
Defined.

Definition limiter0 : RateLimiter.t Nanos :=
  mk (LeakyBucket.mk 2000 200 0 0 0 (9223372036854775807500000 : Nanos) (5 * NANO : Nanos)
        0 0 (5 * NANO : Nanos))
     (LeakyBucket.mk 1000 1000 0 0 0 (18446744073709551615000000 : Nanos) (5 * NANO : Nanos)
        0 0 (5 * NANO : Nanos)).

Example limiter0_made : example_limiter = Some limiter0.
Proof. vm_compute. reflexivity. Qed.

Lemma limiter0_ready : both_ready 150 (5 * NANO) (6 * NANO) limiter0 (5 * NANO).
Proof.
  split; [| |vm_compute; discriminate..];
    (split; [split; vm_compute; try split; (done || discriminate)| ..];
      try split; vm_compute; (done || discriminate)).
Qed.

Example rate_conformance_witness :
  exists l' total, attempts limiter0 example_sends = Some (l', total)
    /\ Forall (fun b => total * NANO <
                 LeakyBucket.d_drainRate b * (6 * NANO - 5 * NANO)
                 + (LeakyBucket.d_capacity b + 150) * NANO)
         [d_peakRateBucket limiter0; d_sustainedRateBucket limiter0].
Proof.
  apply (rate_conformance 150 (5 * NANO) (6 * NANO) limiter0 (5 * NANO));
    [apply limiter0_ready|].
  simpl in_order. unfold example_sends.
  repeat split; vm_compute; (done || discriminate).
Defined.

Definition full_bucket : LeakyBucket.t Nanos :=
  LeakyBucket.mk 2000 200 0 260 0 (9223372036854775807500000 : Nanos) (5 * NANO : Nanos)
    260 0 (5 * NANO : Nanos).

Example time_to_submit_witness :
  exists b' d, LeakyBucket.calculateTimeToSubmit full_bucket (5 * NANO + 1 : Nanos) = Some (b', d) /\
    (d = ti_make 0 0
       /\ (exists b'', LeakyBucket.wouldOverflow full_bucket (5 * NANO + 1 : Nanos) = Some (b'', false))
     \/ LeakyBucket.wouldOverflow full_bucket (5 * NANO + 1 : Nanos) = Some (b', true)
        /\ forall later : Nanos, in_time b' later ->
           ns (5 * NANO + 1 : Nanos) + ns d <= ns later -> 0 <= ns d ->
           (LeakyBucket.d_unitsInBucket b' + LeakyBucket.d_unitsReserved b'
              - LeakyBucket.d_capacity b' + 1) * NANO
             <= LeakyBucket.d_drainRate b' * ns d ->
           exists b'', LeakyBucket.wouldOverflow b' later = Some (b'', false)).
Proof.
  apply (time_to_submit full_bucket (5 * NANO + 1 : Nanos));
    [split|split|..]; try split; vm_compute; (done || discriminate).
Defined.

Example limiter_invariant_witness :
  (forall l', LimiterOps.step limiter0 (Reserve 100) = Some l' ->
     LimiterOps.wf l' /\ LimiterOps.reserved l' = LimiterOps.expected limiter0 (Reserve 100))
  /\ (forall n, 0 <= n <= LimiterOps.reserved limiter0 ->
       is_Some (submitReserved limiter0 n) /\ is_Some (cancelReserved limiter0 n)).
Proof.
  apply (limiter_invariant limiter0 (Reserve 100)); [|done].
  split; [apply limiter0_ready|apply limiter0_ready|done].
Defined.

End RateLimiterTheorems.
