(* ===== verification/IntegerRepresentation.v ===== *)
(** * Integers of unbounded size: the representation

    Models [ntsa::AbstractIntegerSign], [ntsa::AbstractIntegerBase] and
    [ntsa::AbstractIntegerRepresentation] but for its division and its text
    form (src/groups/nts/ntsa/ntsa_abstract.h and .cpp), on a 64-bit platform,
    where a block is a [bsl::uint32_t].

    A number is a vector of blocks, least significant first.  Arithmetic on
    [bsl::uint64_t] wraps at 64 bits and a conversion to [Block] at 32;
    [BSLS_ASSERT_OPT] is the option.  The target of an operation is passed with
    the content it has at the call; that it is not an alias of an operand, which
    the operations assert, is what the model's values express, and the callers
    (see the file Integer) replace an aliased target by a new object.  An index
    is a [nat], a loop that counts an index down to its wrap-around a recursion
    on it.

    The theorems: addition, subtraction, comparison and multiplication compute
    what the integers do; multiplication adds the old content of its target. *)

From S2P Require Import Prelude.

Module AbstractIntegerSign.

Inductive Value : Set :=
| e_NEGATIVE
| e_POSITIVE.

#[export] Instance Value_eq_dec : EqDecision Value.
Proof. solve_decision. Defined.

Definition flip (sign : Value) : Value :=
  if decide (sign = e_POSITIVE) then e_NEGATIVE else e_POSITIVE.

Definition multiplier (sign : Value) : Z :=
  match sign with e_NEGATIVE => -1 | e_POSITIVE => 1 end.

End AbstractIntegerSign.

Module AbstractIntegerBase.

Inductive Value : Set :=
| e_NATIVE
| e_BINARY
| e_OCTAL
| e_DECIMAL
| e_HEXADECIMAL.

#[export] Instance Value_eq_dec : EqDecision Value.
Proof. solve_decision. Defined.

Definition radix (base : Value) : Z :=
  match base with
  | e_NATIVE => 2 ^ 32
  | e_BINARY => 2
  | e_OCTAL => 8
  | e_DECIMAL => 10
  | e_HEXADECIMAL => 16
  end.

Definition maxValue (base : Value) : Z :=
  match base with
  | e_NATIVE => 2 ^ 32 - 1
  | e_BINARY => 1
  | e_OCTAL => 7
  | e_DECIMAL => 9
  | e_HEXADECIMAL => 15
  end.

Definition validate (base : Value) (value : Z) : bool := value <=? maxValue base.

End AbstractIntegerBase.

Module AbstractIntegerRepresentation.

Import AbstractIntegerBase.

Definition k_BITS_PER_BLOCK : Z := 32.

Record representation := {
  d_base : AbstractIntegerBase.Value;
  d_data : list Z;
}.

(** ** State *)

Definition init : representation := {| d_base := e_NATIVE; d_data := [] |}.

Definition reset (r : representation) : representation := init.

(** The loop of [normalize], on the vector read from its back. *)
Fixpoint pop_zeroes (l : list Z) : list Z :=
  match l with
  | [] => []
  | back :: rest => if back =? 0 then pop_zeroes rest else l
  end.

Definition normalize_data (data : list Z) : list Z := reverse (pop_zeroes (reverse data)).

Definition normalize (r : representation) : representation :=
  {| d_base := d_base r; d_data := normalize_data (d_data r) |}.

(** [d_data.resize(n)] when it does not shrink the vector. *)
Definition extended (n : nat) (data : list Z) : list Z :=
  data ++ replicate (n - length data) 0.

Definition set (r : representation) (index : nat) (value : Z) : option representation :=
  assert! validate (d_base r) value ;;
  Some {| d_base := d_base r;
          d_data := <[index := value]> (extended (S index) (d_data r)) |}.

Definition push (r : representation) (value : Z) : option representation :=
  assert! validate (d_base r) value ;;
  Some {| d_base := d_base r; d_data := d_data r ++ [value] |}.

Definition get (r : representation) (index : nat) : Z :=
  match d_data r !! index with
  | Some block => block
  | None => 0
  end.

Definition isZero (r : representation) : bool :=
  match d_data r with
  | [] => true
  | [block] => block =? 0
  | _ => false
  end.

Definition isOne (r : representation) : bool :=
  match d_data r with
  | [block] => block =? 1
  | _ => false
  end.

Definition length_of (r : representation) : nat := length (d_data r).

(** The loop of [assign]: at most as many iterations as the value has binary
    digits, since the radix is at least two. *)
Fixpoint assign_loop (fuel : nat) (radix remaining : Z) (r : representation)
  : option representation :=
  if remaining =? 0 then Some r else
  match fuel with
  | O => None
  | S fuel =>
      let place := remaining mod radix in
      r ← push r (wrap 32 place);
      assign_loop fuel radix (remaining / radix) r
  end.

Definition assign (r : representation) (value : Z) : option representation :=
  assign_loop 64 (radix (d_base r)) value {| d_base := d_base r; d_data := [] |}.

(** ** Comparison *)

Fixpoint compare_loop (i : nat) (lhs rhs : representation) : Z :=
  match i with
  | O => 0
  | S i =>
      if get lhs i <? get rhs i then -1
      else if get rhs i <? get lhs i then 1
      else compare_loop i lhs rhs
  end.

Definition compare (r other : representation) : Z :=
  let lhsSize := length_of r in
  let rhsSize := length_of other in
  if (lhsSize <? rhsSize)%nat then -1
  else if (rhsSize <? lhsSize)%nat then 1
  else compare_loop lhsSize r other.

Definition equals (r other : representation) : bool :=
  bool_decide (d_data r = d_data other).

(** ** Addition and subtraction *)

Fixpoint add_loop (n i : nat) (radix : Z) (lhs rhs : representation) (carry : bool)
    (sum : representation) : option (bool * representation) :=
  match n with
  | O => Some (carry, sum)
  | S n =>
      let temp := wrap 64 (get lhs i + get rhs i) in
      let temp := if carry then wrap 64 (temp + 1) else temp in
      let carry := radix <=? temp in
      let temp := if carry then wrap 64 (temp - radix) else temp in
      sum ← push sum (wrap 32 temp);
      add_loop n (S i) radix lhs rhs carry sum
  end.

Definition add (sum addend1 addend2 : representation) : option representation :=
  assert! bool_decide (d_base sum = d_base addend1) ;;
  assert! bool_decide (d_base sum = d_base addend2) ;;
  let sum := reset sum in
  if isZero addend1 then Some addend2
  else if isZero addend2 then Some addend1
  else
    let maxSize := Nat.max (length_of addend1) (length_of addend2) in
    '(carry, sum) ← add_loop maxSize 0 (radix (d_base sum)) addend1 addend2 false sum;
    sum ← (if (carry : bool) then push sum 1 else Some sum);
    Some (normalize sum).

Fixpoint subtract_loop (n i : nat) (radix : Z) (lhs rhs : representation) (borrow : bool)
    (difference : representation) : option representation :=
  match n with
  | O => Some difference
  | S n =>
      let temp := wrap 64 (get lhs i - get rhs i) in
      let temp := if borrow then wrap 64 (temp - 1) else temp in
      let borrow := radix <=? temp in
      let temp := if borrow then wrap 64 (temp + radix) else temp in
      difference ← push difference (wrap 32 temp);
      subtract_loop n (S i) radix lhs rhs borrow difference
  end.

Definition subtract (difference minuend subtrahend : representation)
  : option representation :=
  assert! bool_decide (d_base difference = d_base minuend) ;;
  assert! bool_decide (d_base difference = d_base subtrahend) ;;
  let difference := reset difference in
  if isZero subtrahend then Some minuend
  else
    let lhsSize := length_of minuend in
    let rhsSize := length_of subtrahend in
    let maxSize := Nat.max lhsSize rhsSize in
    if (lhsSize <? rhsSize)%nat then Some difference
    else if compare minuend subtrahend <? 0 then Some difference
    else
      difference ← subtract_loop maxSize 0 (radix (d_base difference))
                     minuend subtrahend false difference;
      Some (normalize difference).

(** ** Multiplication *)

(** Steps M4 and M5: the row of the block [v.get(j)]. *)
Fixpoint multiply_row (n i : nat) (b : Z) (u v : representation) (j : nat) (k : Z)
    (w : representation) : option representation :=
  match n with
  | O => set w (j + length_of u) (wrap 32 k)
  | S n =>
      let t := wrap 64 (wrap 64 (wrap 64 (get u i * get v j) + get w (i + j)) + k) in
      w ← set w (i + j) (wrap 32 (t mod b));
      let k := t / b in
      assert! k <? b ;;
      multiply_row n (S i) b u v j k w
  end.

(** Steps M2, M3 and M6. *)
Fixpoint multiply_loop (n j : nat) (b : Z) (u v w : representation)
  : option representation :=
  match n with
  | O => Some w
  | S n =>
      w ← (if get v j =? 0 then set w (j + length_of u) 0
           else multiply_row (length_of u) 0 b u v j 0 w);
      multiply_loop n (S j) b u v w
  end.

Definition multiply (product multiplicand multiplier : representation)
  : option representation :=
  assert! bool_decide (d_base product = d_base multiplicand) ;;
  assert! bool_decide (d_base product = d_base multiplier) ;;
  if isZero multiplicand then Some (reset product)
  else if isOne multiplicand then Some multiplier
  else if isZero multiplier then Some (reset product)
  else if isOne multiplier then Some multiplicand
  else
    w ← multiply_loop (length_of multiplier) 0 (radix (d_base product))
          multiplicand multiplier product;
    Some (normalize w).

End AbstractIntegerRepresentation.

(** ** The value of a sequence of blocks *)

Module Magnitude.

Import AbstractIntegerBase AbstractIntegerRepresentation.

(** The radix of the native base. *)
Definition B : Z := 2 ^ 32.

Fixpoint value (data : list Z) : Z :=
  match data with
  | [] => 0
  | block :: rest => block + B * value rest
  end.

(** The block of a place, zero beyond the last one. *)
Definition digit (data : list Z) (i : nat) : Z :=
  match data !! i with Some block => block | None => 0 end.

Definition blocks (data : list Z) : Prop := Forall (fun block => 0 <= block < B) data.

(** The most significant block is not zero. *)
Definition normalized (data : list Z) : Prop := list.last data <> Some 0.

(** The weight of the place [i]. *)
Definition place (i : nat) : Z := B ^ Z.of_nat i.

(** A native number as the program keeps one. *)
Record wf (r : representation) : Prop := {
  wf_base : d_base r = e_NATIVE;
  wf_blocks : blocks (d_data r);
  wf_normalized : normalized (d_data r);
}.

Definition val (r : representation) : Z := value (d_data r).

Lemma B_large : 1 < B.
Proof. done. Qed.

Lemma B_pow : B = 2 ^ 32.
Proof. done. Qed.

Lemma place_0 : place 0 = 1.
Proof. done. Qed.

Lemma place_S i : place (S i) = B * place i.
Proof. unfold place. rewrite Nat2Z.inj_succ, Z.pow_succ_r; lia. Qed.

Lemma place_add i j : place (i + j) = place i * place j.
Proof. unfold place. rewrite Nat2Z.inj_add, Z.pow_add_r; lia. Qed.

Lemma place_pos i : 0 < place i.
Proof. apply Z.pow_pos_nonneg; [done|lia]. Qed.

Lemma place_le i j : (i <= j)%nat -> place i <= place j.
Proof. intros. apply Z.pow_le_mono_r; [done|lia]. Qed.

Lemma value_app l k : value (l ++ k) = value l + place (length l) * value k.
Proof.
  induction l as [|x l IH]; cbn [value app length].
  - rewrite place_0. lia.
  - rewrite IH, place_S. lia.
Qed.

Lemma value_replicate_0 n : value (replicate n 0) = 0.
Proof. induction n as [|n IH]; [done|]. cbn. rewrite IH. lia. Qed.

Lemma value_bounds l : blocks l -> 0 <= value l < place (length l).
Proof.
  induction 1 as [|x l Hx _ IH]; cbn [value length]; [rewrite place_0; lia|].
  rewrite place_S. pose proof B_large.
  split; [|assert (B * (value l + 1) <= B * place (length l)) by (apply Z.mul_le_mono_nonneg_l; lia)];
    lia.
Qed.

Lemma value_cons_inv x y l k :
  0 <= x < B -> 0 <= y < B -> x + B * value l = y + B * value k -> x = y /\ value l = value k.
Proof. intros. assert (value l = value k) by nia. split; nia. Qed.

Lemma value_take_S i l :
  value (take (S i) l) = value (take i l) + place i * digit l i.
Proof.
  unfold digit. destruct (l !! i) as [x|] eqn:E; cbn.
  - rewrite (take_S_r _ _ x E), value_app, length_take_le by (apply lookup_lt_Some in E; lia).
    cbn [value]. ring.
  - apply lookup_ge_None in E. rewrite !take_ge by lia. cbn. ring.
Qed.

Lemma value_take_all n l : (length l <= n)%nat -> value (take n l) = value l.
Proof. intros. by rewrite take_ge. Qed.

Lemma value_split n l : value l = value (take n l) + place n * value (drop n l).
Proof.
  destruct (Nat.le_gt_cases (length l) n) as [Hn|Hn].
  - rewrite take_ge, drop_ge by lia. cbn. lia.
  - rewrite <- (take_drop n l) at 1. rewrite value_app, length_take_le by lia. done.
Qed.

Lemma value_drop_S i l : value (drop i l) = digit l i + B * value (drop (S i) l).
Proof.
  pose proof (value_split i l). pose proof (value_split (S i) l).
  rewrite value_take_S, place_S in *. apply (Z.mul_reg_l _ _ (place i)); [pose proof (place_pos i)|]; lia.
Qed.

Lemma blocks_lookup l i : blocks l -> 0 <= digit l i < B.
Proof.
  intros Hl. unfold digit. destruct (l !! i) as [x|] eqn:E; cbn; [|done].
  by apply (Forall_lookup_1 _ _ _ _ Hl E).
Qed.

Lemma value_extended n l : value (extended n l) = value l.
Proof. unfold extended. rewrite value_app, value_replicate_0. lia. Qed.

Lemma blocks_extended n l : blocks l -> blocks (extended n l).
Proof.
  intros Hl. apply Forall_app. split; [done|]. apply Forall_replicate. done.
Qed.

Lemma length_extended n l : length (extended n l) = Nat.max n (length l).
Proof. unfold extended. rewrite length_app, length_replicate. lia. Qed.

Lemma lookup_extended n l i : digit (extended n l) i = digit l i.
Proof.
  unfold extended, digit. destruct (Nat.lt_ge_cases i (length l)).
  - by rewrite lookup_app_l.
  - rewrite lookup_app_r, (lookup_ge_None_2 l) by lia.
    destruct (replicate _ _ !! _) eqn:E; [|done].
    by apply lookup_replicate_1 in E as [-> _].
Qed.

Lemma value_insert i x l :
  (i < length l)%nat ->
  value (<[i := x]> l) = value l + (x - digit l i) * place i.
Proof.
  intros Hi. revert i Hi. induction l as [|y l IH]; intros [|i] Hi; cbn in Hi |- *; try lia.
  - rewrite place_0. cbn. ring.
  - rewrite IH, place_S by lia. change (digit (y :: l) (S i)) with (digit l i). ring.
Qed.

(** ** Normalization *)

Lemma normalize_data_snoc l x :
  normalize_data (l ++ [x]) = if x =? 0 then normalize_data l else l ++ [x].
Proof.
  unfold normalize_data. rewrite reverse_snoc. cbn [pop_zeroes]. destruct (x =? 0); [done|].
  by rewrite reverse_cons, reverse_involutive.
Qed.

Lemma value_normalize l : value (normalize_data l) = value l.
Proof.
  induction l as [|x l IH] using rev_ind; [done|]. rewrite normalize_data_snoc.
  destruct (Z.eqb_spec x 0) as [->|]; [|done]. rewrite IH, value_app. cbn. lia.
Qed.

Lemma blocks_normalize l : blocks l -> blocks (normalize_data l).
Proof.
  induction l as [|x l IH] using rev_ind; [done|]. rewrite normalize_data_snoc.
  intros Hl. destruct (x =? 0); [|done]. apply IH. by apply Forall_app in Hl as [? _].
Qed.

Lemma normalized_normalize l : normalized (normalize_data l).
Proof.
  induction l as [|x l IH] using rev_ind; [done|]. rewrite normalize_data_snoc.
  destruct (Z.eqb_spec x 0) as [->|Hx]; [done|]. unfold normalized. rewrite last_snoc. congruence.
Qed.

Lemma normalize_wf data :
  blocks data -> wf (normalize {| d_base := e_NATIVE; d_data := data |}).
Proof.
  split; cbn; [done|by apply blocks_normalize|apply normalized_normalize].
Qed.

Lemma normalized_snoc l x : normalized (l ++ [x]) <-> x <> 0.
Proof. unfold normalized. rewrite last_snoc. split; congruence. Qed.

(** A normalized number of [n] blocks is at least the weight of its last place. *)
Lemma value_lower l :
  blocks l -> normalized l -> l <> [] -> place (pred (length l)) <= value l.
Proof.
  intros Hl Hn Hne. destruct l as [|x l _] using rev_ind; [done|].
  apply normalized_snoc in Hn. apply Forall_app in Hl as [Hl Hx]. apply Forall_inv in Hx.
  rewrite length_app, Nat.add_1_r, value_app. cbn [value pred].
  pose proof (value_bounds l Hl). pose proof (place_pos (length l)). nia.
Qed.

Lemma value_zero l : blocks l -> normalized l -> value l = 0 -> l = [].
Proof.
  intros Hl Hn Hv. destruct l; [done|].
  pose proof (value_lower _ Hl Hn ltac:(done)). pose proof (place_pos (pred (length (z :: l)))). lia.
Qed.

(** ** Places of a representation *)

Lemma get_lookup r i : get r i = digit (d_data r) i.
Proof. done. Qed.

Lemma get_bounds r i : blocks (d_data r) -> 0 <= get r i < B.
Proof. rewrite get_lookup. apply blocks_lookup. Qed.

Lemma validate_block x : 0 <= x < B -> validate e_NATIVE x = true.
Proof. unfold validate, B. cbn. lia. Qed.

Lemma wrap_32 x : 0 <= x < B -> wrap 32 x = x.
Proof. apply wrap_small. Qed.

Definition native (data : list Z) : representation := {| d_base := e_NATIVE; d_data := data |}.

Lemma native_eta r : d_base r = e_NATIVE -> r = native (d_data r).
Proof. destruct r. by intros [= ->]. Qed.

Lemma push_native data x :
  0 <= x < B -> push (native data) x = Some (native (data ++ [x])).
Proof. intros Hx. unfold push. cbn. by rewrite (validate_block x Hx). Qed.

Lemma set_native data i x :
  0 <= x < B ->
  set (native data) i x = Some (native (<[i := x]> (extended (S i) data))).
Proof. intros Hx. unfold set. cbn [d_base native]. by rewrite (validate_block x Hx). Qed.

Lemma get_insert data i x j :
  get (native (<[i := x]> (extended (S i) data))) j = if decide (i = j) then x else get (native data) j.
Proof.
  rewrite !get_lookup. cbn [d_data native]. case_decide as E.
  - subst. unfold digit. rewrite list_lookup_insert_eq; [done|]. rewrite length_extended. lia.
  - rewrite <- (lookup_extended (S i) data j). unfold digit. by rewrite list_lookup_insert_ne.
Qed.

Lemma val_insert data i x :
  value (<[i := x]> (extended (S i) data)) = value data + (x - get (native data) i) * place i.
Proof.
  rewrite value_insert by (rewrite length_extended; lia).
  rewrite value_extended, lookup_extended, get_lookup. done.
Qed.

Lemma blocks_insert data i x :
  blocks data -> 0 <= x < B -> blocks (<[i := x]> (extended (S i) data)).
Proof. intros. apply Forall_insert; [by apply blocks_extended|done]. Qed.

Lemma value_take_get r i :
  value (take (S i) (d_data r)) = value (take i (d_data r)) + place i * get r i.
Proof. by rewrite value_take_S, get_lookup. Qed.

End Magnitude.

(** ** Arithmetic *)

Module Arithmetic.

Import AbstractIntegerBase AbstractIntegerRepresentation Magnitude.

Lemma init_representation_wf : wf init.
Proof. by split; [|constructor|]. Qed.

Lemma wf_data r : wf r -> r = native (d_data r).
Proof. intros [H _ _]. by apply native_eta. Qed.

Lemma native_wf data : blocks data -> wf (normalize (native data)).
Proof. apply normalize_wf. Qed.

Lemma val_normalize data : val (normalize (native data)) = value data.
Proof. apply value_normalize. Qed.

Lemma isZero_val r : isZero r = true -> val r = 0.
Proof. destruct r as [? [|x [|]]]; cbn; intros; lia. Qed.

Lemma isZero_spec r : wf r -> isZero r = (val r =? 0).
Proof.
  intros [_ Hb Hn]. destruct (isZero r) eqn:E; symmetry.
  - by rewrite Z.eqb_eq; apply isZero_val.
  - rewrite Z.eqb_neq. intros Hv. apply value_zero in Hv; [|done..].
    unfold isZero in E. by rewrite Hv in E.
Qed.

Lemma isOne_spec r : wf r -> isOne r = (val r =? 1).
Proof.
  intros [_ Hb Hn]. destruct r as [? data]. cbn in Hb, Hn.
  destruct data as [|x [|y l]]; unfold isOne, val; cbn [d_data].
  - done.
  - cbn. f_equal. lia.
  - symmetry. rewrite Z.eqb_neq.
    pose proof (value_lower _ Hb Hn ltac:(done)) as Hlow. cbn [length pred] in Hlow.
    rewrite place_S in Hlow. pose proof (place_pos (length l)). pose proof B_large. nia.
Qed.

Lemma blocks_snoc data x : blocks data -> 0 <= x < B -> blocks (data ++ [x]).
Proof. intros. apply Forall_app. split; [done|]. by apply Forall_singleton. Qed.

Lemma take_value_bounds i data : blocks data -> 0 <= value (take i data) < place i.
Proof.
  intros Hd. pose proof (value_bounds (take i data) ltac:(by apply Forall_take)) as Hv.
  pose proof (place_le (length (take i data)) i ltac:(rewrite length_take; lia)). lia.
Qed.

(** *** Comparison *)

Lemma compare_loop_spec i l r :
  blocks (d_data l) -> blocks (d_data r) ->
  compare_loop i l r = Z.sgn (value (take i (d_data l)) - value (take i (d_data r))).
Proof.
  intros Hl Hr. induction i as [|i IH]; [done|].
  cbn [compare_loop]. rewrite !value_take_get, IH.
  pose proof (take_value_bounds i _ Hl). pose proof (take_value_bounds i _ Hr).
  pose proof (place_pos i).
  destruct (Z.ltb_spec (get l i) (get r i)).
  { symmetry. apply Z.sgn_neg. nia. }
  destruct (Z.ltb_spec (get r i) (get l i)).
  { symmetry. apply Z.sgn_pos. nia. }
  f_equal. assert (get l i = get r i) as -> by lia. lia.
Qed.

Lemma shorter_is_less l r :
  wf l -> wf r -> (length_of l < length_of r)%nat -> val l < val r.
Proof.
  intros [_ Hl _] [_ Hr Hn] Hlen. unfold val, length_of in *.
  pose proof (value_bounds _ Hl). assert (d_data r <> []) as Hne by (by destruct (d_data r); cbn in Hlen; [lia|]).
  pose proof (value_lower _ Hr Hn Hne).
  pose proof (place_le (length (d_data l)) (pred (length (d_data r))) ltac:(lia)). lia.
Qed.

Lemma compare_val l r : wf l -> wf r -> compare l r = Z.sgn (val l - val r).
Proof.
  intros Hl Hr. unfold compare.
  destruct (Nat.ltb_spec (length_of l) (length_of r)).
  { pose proof (shorter_is_less l r Hl Hr ltac:(done)). symmetry. apply Z.sgn_neg. lia. }
  destruct (Nat.ltb_spec (length_of r) (length_of l)).
  { pose proof (shorter_is_less r l Hr Hl ltac:(done)). symmetry. apply Z.sgn_pos. lia. }
  rewrite compare_loop_spec by (apply Hl || apply Hr).
  unfold length_of in *. by rewrite !value_take_all by lia.
Qed.

(** *** Addition *)

Lemma add_loop_spec n i l r carry data :
  blocks (d_data l) -> blocks (d_data r) -> blocks data -> length data = i ->
  value data + Z.b2z carry * place i = value (take i (d_data l)) + value (take i (d_data r)) ->
  exists carry' data',
    add_loop n i B l r carry (native data) = Some (carry', native data') /\
    blocks data' /\ length data' = (i + n)%nat /\
    value data' + Z.b2z carry' * place (i + n) =
    value (take (i + n) (d_data l)) + value (take (i + n) (d_data r)).
Proof.
  intros Hl Hr. revert i carry data. induction n as [|n IH]; intros i carry data Hd Hi Hv.
  { rewrite Nat.add_0_r. by exists carry, data. }
  cbn [add_loop].
  pose proof (get_bounds l i Hl). pose proof (get_bounds r i Hr).
  set (t := get l i + get r i + Z.b2z carry).
  assert ((if carry then wrap 64 (wrap 64 (get l i + get r i) + 1)
           else wrap 64 (get l i + get r i)) = t) as ->.
  { subst t. rewrite (wrap_small 64 (get l i + get r i)) by (unfold B in *; lia).
    destruct carry; cbn [Z.b2z]; [rewrite wrap_small by (unfold B in *; lia)|]; lia. }
  assert (0 <= t < 2 * B) as Ht by (subst t; destruct carry; cbn; lia).
  set (x := if B <=? t then wrap 64 (t - B) else t).
  assert (0 <= x < B /\ t = x + B * Z.b2z (B <=? t)) as [Hx Htx].
  { subst x. destruct (Z.leb_spec B t); cbn [Z.b2z]; [rewrite wrap_small by (unfold B in *; lia)|]; lia. }
  rewrite wrap_32, push_native by done. cbn [mbind option_bind].
  rewrite <- Nat.add_succ_comm. apply IH; [|rewrite length_app; cbn; lia|].
  - by apply blocks_snoc.
  - rewrite value_app, !value_take_get, Hi, place_S. cbn [value].
    assert (x + B * Z.b2z (B <=? t) = t) as Hxt by lia.
    transitivity (value data + place i * (x + B * Z.b2z (B <=? t))); [ring|].
    rewrite Hxt. subst t. lia.
Qed.

Lemma add_val sum u v :
  d_base sum = e_NATIVE -> wf u -> wf v ->
  exists w, add sum u v = Some w /\ wf w /\ val w = val u + val v.
Proof.
  intros Hs Hu Hv. unfold add. rewrite Hs, (wf_base _ Hu), (wf_base _ Hv).
  rewrite !bool_decide_true by done.
  destruct (isZero u) eqn:Zu; [apply isZero_val in Zu; exists v; split_and!; [done..|lia]|].
  destruct (isZero v) eqn:Zv; [apply isZero_val in Zv; exists u; split_and!; [done..|lia]|].
  edestruct (add_loop_spec (Nat.max (length_of u) (length_of v)) 0 u v false []) as
    (carry & data & E & Hb & Hlen & Hval); [apply Hu|apply Hv|constructor|done|done|].
  change (add_loop _ 0 (radix _) u v false _) with
    (add_loop (Nat.max (length_of u) (length_of v)) 0 B u v false (native [])).
  rewrite E. cbn [mbind option_bind]. rewrite Nat.add_0_l in *.
  unfold length_of in *. rewrite !value_take_all in Hval by lia.
  assert ((if carry then push (native data) 1 else Some (native data)) =
    Some (native (if carry then data ++ [1] else data))) as ->.
  { destruct carry; [|done]. by apply push_native. }
  eexists. split; [done|]. split.
  - apply native_wf. destruct carry; [|done]. by apply blocks_snoc.
  - rewrite val_normalize. unfold val. destruct carry; cbn [Z.b2z] in Hval; [|lia].
    rewrite value_app, Hlen. cbn [value]. lia.
Qed.

(** *** Subtraction *)

Lemma subtract_loop_spec n i l r borrow data :
  blocks (d_data l) -> blocks (d_data r) -> blocks data -> length data = i ->
  value data - Z.b2z borrow * place i = value (take i (d_data l)) - value (take i (d_data r)) ->
  exists borrow' data',
    subtract_loop n i B l r borrow (native data) = Some (native data') /\
    blocks data' /\ length data' = (i + n)%nat /\
    value data' - Z.b2z borrow' * place (i + n) =
    value (take (i + n) (d_data l)) - value (take (i + n) (d_data r)).
Proof.
  intros Hl Hr. revert i borrow data. induction n as [|n IH]; intros i borrow data Hd Hi Hv.
  { rewrite Nat.add_0_r. by exists borrow, data. }
  cbn [subtract_loop].
  pose proof (get_bounds l i Hl). pose proof (get_bounds r i Hr).
  set (t := get l i - get r i - Z.b2z borrow).
  assert ((if borrow then wrap 64 (wrap 64 (get l i - get r i) - 1)
           else wrap 64 (get l i - get r i)) = wrap 64 t) as ->.
  { subst t. destruct borrow; cbn [Z.b2z]; [|f_equal; lia].
    change (?x - 1) with (x + -1). by rewrite wrap_add_l. }
  assert (- B <= t < B) as Ht by (subst t; destruct borrow; cbn; lia).
  set (x := if B <=? wrap 64 t then wrap 64 (wrap 64 t + B) else wrap 64 t).
  assert (0 <= x < B /\ t = x - B * Z.b2z (B <=? wrap 64 t)) as [Hx Htx].
  { subst x. destruct (Z.ltb_spec t 0) as [Hneg|Hpos].
    - assert (wrap 64 t = t + 2 ^ 64) as Hw.
      { rewrite <- (wrap_small 64 (t + 2 ^ 64)) by (unfold B in *; lia).
        unfold wrap. by rewrite <- Zplus_mod_idemp_r, Z_mod_same_full, Z.add_0_r. }
      rewrite wrap_add_l, (wrap_small 64 (t + B)), Hw by (unfold B in *; lia).
      rewrite (proj2 (Z.leb_le _ _)) by (unfold B in *; lia). cbn [Z.b2z]. lia.
    - rewrite (wrap_small 64 t) by (unfold B in *; lia).
      rewrite (proj2 (Z.leb_gt _ _)) by lia. cbn [Z.b2z]. lia. }
  rewrite wrap_32, push_native by done. cbn [mbind option_bind].
  rewrite <- Nat.add_succ_comm. apply IH; [|rewrite length_app; cbn; lia|].
  - by apply blocks_snoc.
  - rewrite value_app, !value_take_get, Hi, place_S. cbn [value].
    assert (x - B * Z.b2z (B <=? wrap 64 t) = t) as Hxt by lia.
    transitivity (value data + place i * (x - B * Z.b2z (B <=? wrap 64 t))); [ring|].
    rewrite Hxt. subst t. lia.
Qed.

Lemma subtract_val difference u v :
  d_base difference = e_NATIVE -> wf u -> wf v ->
  exists w, subtract difference u v = Some w /\ wf w /\ val w = Z.max 0 (val u - val v).
Proof.
  intros Hs Hu Hv. unfold subtract. rewrite Hs, (wf_base _ Hu), (wf_base _ Hv).
  rewrite !bool_decide_true by done.
  pose proof (value_bounds _ (wf_blocks _ Hu)) as Bu. fold (val u) in Bu.
  pose proof (value_bounds _ (wf_blocks _ Hv)) as Bv. fold (val v) in Bv.
  destruct (isZero v) eqn:Zv.
  { apply isZero_val in Zv. exists u. split_and!; [done..|lia]. }
  destruct (Nat.ltb_spec (length_of u) (length_of v)) as [Hlt|Hge].
  { exists init. pose proof (shorter_is_less u v Hu Hv Hlt).
    split_and!; [done|apply init_representation_wf|change (val init) with 0; lia]. }
  rewrite compare_val by done.
  destruct (Z.ltb_spec (Z.sgn (val u - val v)) 0) as [Hlt|Hle].
  { exists init. split_and!; [done|apply init_representation_wf|change (val init) with 0; lia]. }
  edestruct (subtract_loop_spec (Nat.max (length_of u) (length_of v)) 0 u v false []) as
    (borrow & data & E & Hb & Hlen & Hval); [apply Hu|apply Hv|constructor|done|done|].
  change (subtract_loop _ 0 (radix _) u v false _) with
    (subtract_loop (Nat.max (length_of u) (length_of v)) 0 B u v false (native [])).
  rewrite E. cbn [mbind option_bind]. rewrite Nat.add_0_l in *.
  unfold length_of in *. rewrite !value_take_all in Hval by lia.
  eexists. split; [done|]. split; [by apply native_wf|].
  rewrite val_normalize. fold (val u) in Hval. fold (val v) in Hval.
  pose proof (value_bounds _ Hb) as Bd. rewrite Hlen in Bd.
  destruct borrow; cbn [Z.b2z] in Hval; lia.
Qed.

(** *** Multiplication *)

Lemma multiply_row_spec n i u v j k data :
  blocks (d_data u) -> blocks (d_data v) -> blocks data -> 0 <= k < B ->
  (i + n = length_of u)%nat ->
  exists data',
    multiply_row n i B u v j k (native data) = Some (native data') /\
    blocks data' /\
    (forall x, (j + length_of u < x)%nat -> get (native data') x = get (native data) x) /\
    value data' =
    value data + k * place (i + j)
    + get v j * (val u - value (take i (d_data u))) * place j
    - get (native data) (j + length_of u) * place (j + length_of u).
Proof.
  intros Hu Hv. revert i k data. induction n as [|n IH]; intros i k data Hd Hk Hi.
  - cbn [multiply_row]. rewrite wrap_32, set_native by done. eexists. split; [done|].
    split; [by apply blocks_insert|]. split.
    { intros x Hx. rewrite get_insert. case_decide; [lia|done]. }
    rewrite val_insert. rewrite Nat.add_0_r in Hi. unfold val, length_of in *.
    rewrite Hi, value_take_all by lia. rewrite (Nat.add_comm j). ring.
  - cbn [multiply_row].
    pose proof (get_bounds u i Hu) as Bu. pose proof (get_bounds v j Hv) as Bv.
    pose proof (get_bounds (native data) (i + j) Hd) as Bw.
    set (t := get u i * get v j + get (native data) (i + j) + k).
    assert (0 <= t < B * B) as Ht.
    { subst t. assert (get u i * get v j <= (B - 1) * (B - 1)) by (apply Z.mul_le_mono_nonneg; lia).
      split; [nia|lia]. }
    assert (wrap 64 (wrap 64 (wrap 64 (get u i * get v j) + get (native data) (i + j)) + k) = t) as ->.
    { rewrite wrap_add_l, <- Z.add_assoc, wrap_add_l, Z.add_assoc. apply wrap_small. subst t. exact Ht. }
    pose proof (Z.mod_pos_bound t B ltac:(done)) as Hm.
    pose proof (Z.div_mod t B ltac:(done)) as Hdm.
    assert (0 <= t / B < B) as Hq.
    { split; [apply Z.div_pos; lia|apply Z.div_lt_upper_bound; lia]. }
    rewrite wrap_32, set_native by done. cbn [mbind option_bind].
    rewrite (proj2 (Z.ltb_lt _ _)) by lia.
    destruct (IH (S i) (t / B) (<[(i + j)%nat := t mod B]> (extended (S (i + j)) data)))
      as (data' & E & Hb' & Hg & Hval); [by apply blocks_insert|done|lia|].
    exists data'. split; [done|]. split; [done|]. split.
    { intros x Hx. rewrite Hg, get_insert by lia. case_decide; [lia|done]. }
    rewrite Hval, val_insert, value_take_get, get_insert. case_decide; [lia|].
    rewrite Nat.add_succ_l, place_S.
    assert (t / B * (B * place (i + j)) = (t - t mod B) * place (i + j)) as -> by (rewrite Hdm at 2; ring).
    rewrite (place_add i j). subst t. ring.
Qed.

(** The blocks from the place [a] to the place [c] count the same in two
    numbers that agree there. *)
Lemma value_take_range l r a c :
  (a <= c)%nat -> (forall x, (a <= x)%nat -> get l x = get r x) ->
  value (take c (d_data l)) - value (take a (d_data l)) =
  value (take c (d_data r)) - value (take a (d_data r)).
Proof.
  intros Hac Hx. induction Hac as [|c Hac IH]; [lia|].
  rewrite !value_take_get, (Hx c Hac). lia.
Qed.

Lemma value_take_ext l r c :
  (forall x, (x < c)%nat -> get l x = get r x) ->
  value (take c (d_data l)) = value (take c (d_data r)).
Proof.
  induction c as [|c IH]; intros Hx; [done|].
  rewrite !value_take_get, (Hx c) by lia. rewrite IH; [done|]. intros. apply Hx. lia.
Qed.

Lemma value_drop_ext l r a :
  (forall x, (a <= x)%nat -> get l x = get r x) ->
  value (drop a (d_data l)) = value (drop a (d_data r)).
Proof.
  intros Hx. set (c := Nat.max a (Nat.max (length (d_data l)) (length (d_data r)))).
  pose proof (value_take_range l r a c ltac:(lia) Hx) as H.
  rewrite !(value_take_all c) in H by lia.
  rewrite (value_split a (d_data l)), (value_split a (d_data r)) in H.
  apply (Z.mul_reg_l _ _ (place a)); [pose proof (place_pos a)|]; lia.
Qed.

(** Two numbers that agree below the place [j] differ in what is above. *)
Lemma value_drop_diff l r j d :
  (forall x, (x < j)%nat -> get l x = get r x) ->
  val l = val r + d * place j ->
  value (drop j (d_data l)) = value (drop j (d_data r)) + d.
Proof.
  intros Hx H. unfold val in H.
  rewrite (value_split j (d_data l)), (value_split j (d_data r)), (value_take_ext l r j Hx) in H.
  apply (Z.mul_reg_l _ _ (place j)); [pose proof (place_pos j)|]; lia.
Qed.

Lemma multiply_loop_spec n j u v data :
  blocks (d_data u) -> blocks (d_data v) -> blocks data ->
  exists data',
    multiply_loop n j B u v (native data) = Some (native data') /\
    blocks data' /\
    value data' =
    value data + val u * (value (take (j + n) (d_data v)) - value (take j (d_data v)))
    - (value (take (j + n + length_of u) data) - value (take (j + length_of u) data)).
Proof.
  intros Hu Hv. revert j data. induction n as [|n IH]; intros j data Hd.
  { exists data. rewrite Nat.add_0_r. split_and!; [done|done|ring]. }
  cbn [multiply_loop].
  assert (exists data1,
    (if get v j =? 0 then set (native data) (j + length_of u) 0
     else multiply_row (length_of u) 0 B u v j 0 (native data)) = Some (native data1) /\
    blocks data1 /\
    (forall x, (j + length_of u < x)%nat -> get (native data1) x = get (native data) x) /\
    value data1 = value data + get v j * val u * place j
      - get (native data) (j + length_of u) * place (j + length_of u))
    as (data1 & E & Hd1 & Hg1 & Hval1).
  { destruct (Z.eqb_spec (get v j) 0) as [Hz|Hz].
    - rewrite set_native by done. eexists. split; [done|]. split; [by apply blocks_insert|].
      split; [intros x Hx; rewrite get_insert; case_decide; [lia|done]|].
      rewrite val_insert, Hz. ring.
    - destruct (multiply_row_spec (length_of u) 0 u v j 0 data) as (data1 & E & Hb & Hg & Hval);
        [done..|lia|].
      exists data1. split_and!; [done..|]. rewrite Hval. rewrite take_0; cbn [value]. ring. }
  rewrite E. cbn [mbind option_bind].
  destruct (IH (S j) data1 Hd1) as (data' & E' & Hd' & Hval'). exists data'.
  split; [done|]. split; [done|].
  pose proof (value_take_range (native data1) (native data) (S j + length_of u) (S j + n + length_of u)
    ltac:(lia) ltac:(intros; apply Hg1; lia)) as Hr. cbn [d_data native] in Hr.
  rewrite Hval', Hr, Hval1, !Nat.add_succ_r, !Nat.add_succ_l.
  pose proof (value_take_get v j) as Hvj. pose proof (value_take_get (native data) (j + length_of u)) as Hwj.
  cbn [d_data native] in Hwj. rewrite Hvj, Hwj. ring.
Qed.

(** The value [multiply] leaves in a target that holds [data]. *)
Definition residue (data : list Z) (m n : nat) : Z :=
  value (take m data) + place (m + n) * value (drop (m + n) data).

Lemma multiply_general product u v :
  d_base product = e_NATIVE -> blocks (d_data product) -> wf u -> wf v ->
  1 < val u -> 1 < val v ->
  exists w, multiply product u v = Some w /\ wf w /\
    val w = val u * val v + residue (d_data product) (length_of u) (length_of v).
Proof.
  intros Hs Hp Hu Hv U V. unfold multiply. rewrite Hs, (wf_base _ Hu), (wf_base _ Hv).
  rewrite !bool_decide_true by done. rewrite !isZero_spec, !isOne_spec by done.
  rewrite !(proj2 (Z.eqb_neq _ _)) by lia.
  rewrite (native_eta product Hs).
  destruct (multiply_loop_spec (length_of v) 0 u v (d_data product)) as (data & E & Hb & Hval);
    [apply Hu|apply Hv|done|].
  change (multiply_loop _ 0 (radix _) u v _) with
    (multiply_loop (length_of v) 0 B u v (native (d_data product))).
  rewrite E. cbn [mbind option_bind]. eexists. split; [done|].
  split; [by apply native_wf|]. rewrite val_normalize, Hval, !Nat.add_0_l.
  unfold residue. cbn [d_data native]. rewrite (value_split (length_of u + length_of v) (d_data product)) at 1.
  rewrite (Nat.add_comm (length_of v)). rewrite (value_take_all (length_of v) (d_data v)) by done.
  unfold val. rewrite take_0. cbn [value]. ring.
Qed.

(** The outcome when an operand is zero or one does not depend on the target. *)
Lemma multiply_small product u v :
  d_base product = e_NATIVE -> wf u -> wf v -> ~ (1 < val u /\ 1 < val v) ->
  exists w, multiply product u v = Some w /\ wf w /\ val w = val u * val v.
Proof.
  intros Hs Hu Hv Hsmall.
  pose proof (value_bounds _ (wf_blocks _ Hu)) as [Bu _]. fold (val u) in Bu.
  pose proof (value_bounds _ (wf_blocks _ Hv)) as [Bv _]. fold (val v) in Bv.
  unfold multiply. rewrite Hs, (wf_base _ Hu), (wf_base _ Hv).
  rewrite !bool_decide_true by done. rewrite !isZero_spec, !isOne_spec by done.
  destruct (Z.eqb_spec (val u) 0) as [Zu|Zu].
  { exists init. split_and!; [done|apply init_representation_wf|]. rewrite Zu. done. }
  destruct (Z.eqb_spec (val u) 1) as [Ou|Ou].
  { exists v. split_and!; [done..|]. rewrite Ou. lia. }
  destruct (Z.eqb_spec (val v) 0) as [Zv|Zv].
  { exists init. split_and!; [done|apply init_representation_wf|]. rewrite Zv, Z.mul_0_r. done. }
  destruct (Z.eqb_spec (val v) 1) as [Ov|Ov]; [|lia].
  exists u. split_and!; [done..|]. rewrite Ov. lia.
Qed.

Lemma multiply_fresh product u v :
  d_base product = e_NATIVE -> d_data product = [] -> wf u -> wf v ->
  exists w, multiply product u v = Some w /\ wf w /\ val w = val u * val v.
Proof.
  intros Hs Hp Hu Hv.
  destruct (decide (1 < val u /\ 1 < val v)) as [[U V]|Hsmall]; [|by apply multiply_small].
  destruct (multiply_general product u v) as (w & E & Hw & Hval); try done.
  { rewrite Hp. constructor. }
  exists w. split_and!; [done..|]. rewrite Hval, Hp. unfold residue.
  rewrite take_nil, drop_nil. cbn. ring.
Qed.

End Arithmetic.
