(* ===== verification/IntegerDivision.v ===== *)
(** * Integers of unbounded size: division

    Models [ntsa::AbstractIntegerRepresentation::divide] and
    [countLeadingZeroes] (src/groups/nts/ntsa/ntsa_abstract.cpp), which is
    Knuth's algorithm D on blocks of 32 bits.

    The types of the expressions matter here: a block is a [bsl::uint32_t], so
    a sum, a product or a shift of two blocks is computed on 32 bits, and one
    that has an operand of 64 bits on 64; a shift of a block by 32 or more bits
    is undefined, which is the option, as is a division by zero.

    The theorems: the division is exact for a divisor of one block, and for a
    longer one whose last block is less than 2^31 if no trial digit of the
    quotient has to be corrected afterwards, which none has when the divisor
    has two blocks.  The other cases are those in which the code goes wrong: it
    shifts by 32 bits when the last block of the divisor is 2^31 or more, and
    when it has to add the divisor back it loses the carries. *)

From S2P Require Import Prelude IntegerRepresentation.

Module Division.

Import AbstractIntegerBase AbstractIntegerRepresentation.

(** ** Bits *)

(** [block << bits] and [block >> bits]. *)
Definition shl (block bits : Z) : option Z :=
  assert! (0 <=? bits) && (bits <? 32) ;; Some (wrap 32 (Z.shiftl block bits)).

Definition shr (block bits : Z) : option Z :=
  assert! (0 <=? bits) && (bits <? 32) ;; Some (Z.shiftr block bits).

Fixpoint clz_loop (n : nat) (value : Z) (found : bool) (count : Z) : Z :=
  match n with
  | O => count
  | S i =>
      let found := found || Z.testbit value (Z.of_nat i) in
      clz_loop i value found (if found then count else count + 1)
  end.

Definition countLeadingZeroes (value : Z) : Z := clz_loop 32 value false 0.

(** ** Divisors of one block *)

Fixpoint short_loop (n : nat) (u v : representation) (b k : Z) (q : representation)
  : option (Z * representation) :=
  match n with
  | O => Some (k, q)
  | S j =>
      assert! negb (get v 0 =? 0) ;;
      let d := wrap 64 (wrap 64 (k * b) + get u j) in
      q ← set q j (wrap 32 (d / get v 0));
      short_loop j u v b (wrap 64 (d - wrap 32 (get q j * get v 0))) q
  end.

Definition short_divide (q r u v : representation)
  : option (representation * representation) :=
  '(k, q) ← short_loop (length_of u) u v (radix (d_base q)) 0 q;
  r ← set r 0 (wrap 32 k);
  Some (normalize q, normalize r).

(** ** The operands, shifted so that the divisor's last block is full *)

(** [(high << s) | (low >> (k_BITS_PER_BLOCK - s))]. *)
Definition shift_up (high low s : Z) : option Z :=
  x ← shl high s;
  y ← shr low (k_BITS_PER_BLOCK - s);
  Some (Z.lor x y).

(** The loops that fill [vn] and [un] from their last block down to the second,
    and the first block. *)
Fixpoint shift_loop (i : nat) (source : representation) (s : Z) (target : representation)
  : option representation :=
  match i with
  | O =>
      x ← shl (get source 0) s;
      set target 0 x
  | S i' =>
      x ← shift_up (get source i) (get source i') s;
      target ← set target i x;
      shift_loop i' source s target
  end.

Definition shifted_divisor (v : representation) (s : Z) : option representation :=
  shift_loop (length_of v - 1) v s init.

Definition shifted_dividend (u : representation) (s : Z) : option representation :=
  let m := length_of u in
  top ← shr (get u (m - 1)) (k_BITS_PER_BLOCK - s);
  un ← set init m top;
  shift_loop (m - 1) u s un.

(** ** One digit of the quotient *)

(** The correction of the trial digit.  Every round but the last adds the last
    block of the divisor, at least half of the radix, to [rhat], which ends the
    loop when it reaches the radix: three rounds are enough. *)
Fixpoint correct_loop (fuel : nat) (b vn1 vn2 un2 qhat rhat : Z) : option (Z * Z) :=
  match fuel with
  | O => None
  | S fuel =>
      if (b <=? qhat) || (wrap 64 (wrap 64 (b * rhat) + un2) <? wrap 64 (qhat * vn2)) then
        let qhat := wrap 64 (qhat - 1) in
        let rhat := wrap 64 (rhat + vn1) in
        if rhat <? b then correct_loop fuel b vn1 vn2 un2 qhat rhat
        else Some (qhat, rhat)
      else Some (qhat, rhat)
  end.

Definition trial (b : Z) (vn un : representation) (n j : nat) : option Z :=
  let vn1 := get vn (n - 1) in
  let top := wrap 64 (wrap 64 (get un (j + n) * b) + get un (j + n - 1)) in
  assert! negb (vn1 =? 0) ;;
  let qhat := top / vn1 in
  let rhat := wrap 64 (top - wrap 64 (qhat * vn1)) in
  '(qhat, rhat) ← correct_loop 3 b vn1 (get vn (n - 2)) (get un (j + n - 2)) qhat rhat;
  Some qhat.

(** Multiply and subtract. *)
Fixpoint subtract_product_loop (c i : nat) (qhat : Z) (vn : representation) (j : nat)
    (k : Z) (un : representation) : option (Z * representation) :=
  match c with
  | O => Some (k, un)
  | S c =>
      let p := wrap 64 (qhat * get vn i) in
      let t := swrap 64 (wrap 64 (get un (i + j) - k) - Z.land p (2 ^ 32 - 1)) in
      un ← set un (i + j) (wrap 32 t);
      subtract_product_loop c (S i) qhat vn j
        (wrap 64 (Z.shiftr p 32 - wrap 64 (Z.shiftr t 32))) un
  end.

(** Add the divisor back. *)
Fixpoint add_back_loop (c i : nat) (vn : representation) (j : nat) (k : Z)
    (un : representation) : option (Z * representation) :=
  match c with
  | O => Some (k, un)
  | S c =>
      let t := swrap 64 (wrap 64 (wrap 32 (get un (i + j) + get vn i) + k)) in
      un ← set un (i + j) (wrap 32 t);
      add_back_loop c (S i) vn j (wrap 64 (Z.shiftr t 32)) un
  end.

Definition add_back (vn : representation) (n j : nat) (un q : representation)
  : option (representation * representation) :=
  q ← set q j (wrap 32 (get q j - 1));
  '(k, un) ← add_back_loop n 0 vn j 0 un;
  un ← set un (j + n) (wrap 32 (wrap 64 (get un (j + n) + k)));
  Some (un, q).

(** The body of the loop over the digits. *)
Definition divide_step (b : Z) (vn : representation) (n j : nat) (un q : representation)
  : option (representation * representation) :=
  qhat ← trial b vn un n j;
  '(k, un) ← subtract_product_loop n 0 qhat vn j 0 un;
  let t := swrap 64 (wrap 64 (get un (j + n) - k)) in
  un ← set un (j + n) (wrap 32 t);
  q ← set q j (wrap 32 qhat);
  if t <? 0 then add_back vn n j un q else Some (un, q).

(** The digits [c - 1] to [0]. *)
Fixpoint divide_loop (c : nat) (b : Z) (vn : representation) (n : nat)
    (un q : representation) : option (representation * representation) :=
  match c with
  | O => Some (un, q)
  | S j =>
      '(un, q) ← divide_step b vn n j un q;
      divide_loop j b vn n un q
  end.

(** [(un.get(i) >> s) | (un.get(i + 1) << (k_BITS_PER_BLOCK - s))]. *)
Definition shift_down (low high s : Z) : option Z :=
  x ← shr low s;
  y ← shl high (k_BITS_PER_BLOCK - s);
  Some (Z.lor x y).

Fixpoint remainder_loop (c i : nat) (un : representation) (s : Z) (r : representation)
  : option representation :=
  match c with
  | O => Some r
  | S c =>
      x ← shift_down (get un i) (get un (S i)) s;
      r ← set r i x;
      remainder_loop c (S i) un s r
  end.

Definition long_divide (q r u v : representation)
  : option (representation * representation) :=
  let m := length_of u in
  let n := length_of v in
  let s := countLeadingZeroes (get v (n - 1)) in
  assert! s <=? k_BITS_PER_BLOCK ;;
  vn ← shifted_divisor v s;
  un ← shifted_dividend u s;
  '(un, q) ← divide_loop (S (m - n)) (radix (d_base q)) vn n un q;
  r ← remainder_loop n 0 un s r;
  Some (normalize q, normalize r).

(** ** Division *)

Definition divide (quotient remainder dividend divisor : representation)
  : option (representation * representation) :=
  assert! bool_decide (d_base quotient = d_base remainder) ;;
  assert! bool_decide (d_base quotient = d_base dividend) ;;
  assert! bool_decide (d_base quotient = d_base divisor) ;;
  let quotient := reset quotient in
  let remainder := reset remainder in
  if isZero dividend then Some (quotient, remainder)
  else if isZero divisor then Some (quotient, dividend)
  else if isOne dividend then
    if isOne divisor then
      quotient ← assign quotient 1;
      Some (quotient, remainder)
    else Some (quotient, dividend)
  else if isOne divisor then Some (dividend, remainder)
  else if compare dividend divisor <? 0 then Some (quotient, dividend)
  else if (length_of divisor =? 1)%nat then short_divide quotient remainder dividend divisor
  else long_divide quotient remainder dividend divisor.

(** No digit of a division has to be corrected by adding the divisor back: the
    product of every trial digit and the divisor is at most the part of the
    dividend it is subtracted from. *)
Fixpoint exact_digits (c : nat) (b : Z) (vn : representation) (n : nat)
    (un q : representation) : bool :=
  match c with
  | O => true
  | S j =>
      match trial b vn un n j, divide_step b vn n j un q with
      | Some qhat, Some (un', q') =>
          (qhat * Magnitude.val vn <=? Magnitude.value (drop j (d_data un)))
          && exact_digits j b vn n un' q'
      | _, _ => false
      end
  end.

Definition exact_trials (u v : representation) : bool :=
  let m := length_of u in
  let n := length_of v in
  let s := countLeadingZeroes (get v (n - 1)) in
  match shifted_divisor v s, shifted_dividend u s with
  | Some vn, Some un => exact_digits (S (m - n)) Magnitude.B vn n un init
  | _, _ => false
  end.

End Division.

(** ** Blocks and bits *)

Module DivisionFacts.

Import AbstractIntegerBase AbstractIntegerRepresentation Magnitude Arithmetic Division.

Lemma pow_split s : 0 <= s <= 32 -> B = 2 ^ s * 2 ^ (32 - s).
Proof. intros. rewrite <- Z.pow_add_r by lia. unfold B. f_equal. lia. Qed.

Lemma shl_spec x s : 0 <= s < 32 -> 0 <= x < B -> shl x s = Some (x mod 2 ^ (32 - s) * 2 ^ s).
Proof.
  intros Hs Hx. unfold shl. rewrite (proj2 (Z.leb_le 0 s)), (proj2 (Z.ltb_lt s 32)) by lia.
  cbn [andb]. rewrite Z.shiftl_mul_pow2 by lia. unfold wrap. fold B.
  rewrite (pow_split s), (Z.mul_comm (2 ^ s)), Z.mul_mod_distr_r by lia. done.
Qed.

Lemma shr_spec x s : 0 <= s < 32 -> shr x s = Some (x / 2 ^ s).
Proof.
  intros Hs. unfold shr. rewrite (proj2 (Z.leb_le 0 s)), (proj2 (Z.ltb_lt s 32)) by lia.
  by rewrite Z.shiftr_div_pow2 by lia.
Qed.

(** The carry of a block that is shifted up by [s] bits. *)
Lemma shift_carry_bounds x s : 0 < s < 32 -> 0 <= x < B -> 0 <= x / 2 ^ (32 - s) < 2 ^ s.
Proof.
  intros Hs Hx. pose proof (Z.pow_pos_nonneg 2 (32 - s)). split; [apply Z.div_pos; lia|].
  apply Z.div_lt_upper_bound; [lia|]. rewrite Z.mul_comm, <- pow_split; lia.
Qed.

Lemma shift_part_bounds x s :
  0 < s < 32 -> 0 <= x mod 2 ^ (32 - s) * 2 ^ s <= B - 2 ^ s.
Proof.
  intros Hs. pose proof (Z.mod_pos_bound x (2 ^ (32 - s)) (pow2_pos (32 - s) ltac:(lia))).
  rewrite (pow_split s) by lia. pose proof (Z.pow_pos_nonneg 2 s). nia.
Qed.

Lemma shift_up_spec high low s :
  0 < s < 32 -> 0 <= high < B -> 0 <= low < B ->
  exists x, shift_up high low s = Some x /\ 0 <= x < B /\
    x = high mod 2 ^ (32 - s) * 2 ^ s + low / 2 ^ (32 - s).
Proof.
  intros Hs Hh Hl. unfold shift_up. rewrite shl_spec by lia. cbn [mbind option_bind].
  change k_BITS_PER_BLOCK with 32. rewrite shr_spec by lia. cbn [mbind option_bind].
  pose proof (shift_carry_bounds low s Hs Hl). pose proof (shift_part_bounds high s Hs).
  rewrite lor_disjoint by lia. eexists. split_and!; [done|lia..].
Qed.

(** A block shifted up is its part in the same place and its carry to the
    next one. *)
Lemma shift_parts x s :
  0 <= s <= 32 -> x * 2 ^ s = x mod 2 ^ (32 - s) * 2 ^ s + B * (x / 2 ^ (32 - s)).
Proof.
  intros Hs. rewrite (pow_split s) by done.
  pose proof (Z.div_mod x (2 ^ (32 - s)) (pow2_nonzero (32 - s) ltac:(lia))) as H.
  rewrite H at 1. ring.
Qed.

Lemma shift_down_spec low high s :
  0 < s < 32 -> 0 <= low < B -> 0 <= high < B ->
  exists x, shift_down low high s = Some x /\ 0 <= x < B /\
    2 ^ s * x = low - low mod 2 ^ s + B * (high mod 2 ^ s).
Proof.
  intros Hs Hl Hh. unfold shift_down. rewrite shr_spec by lia. cbn [mbind option_bind].
  change k_BITS_PER_BLOCK with 32. rewrite shl_spec by lia. cbn [mbind option_bind].
  replace (32 - (32 - s)) with s by lia.
  assert (0 <= low / 2 ^ s < 2 ^ (32 - s)) as Hq.
  { pose proof (shift_carry_bounds low (32 - s) ltac:(lia) Hl).
    by replace (32 - (32 - s)) with s in * by lia. }
  rewrite Z.lor_comm, lor_disjoint by lia.
  pose proof (Z.mod_pos_bound high (2 ^ s) (pow2_pos s ltac:(lia))) as Hm.
  eexists. split; [done|]. split.
  - rewrite (pow_split s) by lia. nia.
  - rewrite (pow_split s) by lia.
    pose proof (Z.div_mod low (2 ^ s) (pow2_nonzero s ltac:(lia))). lia.
Qed.

Lemma clz_loop_found n v c : clz_loop n v true c = c.
Proof. revert c. induction n as [|n IH]; intros c; cbn; [done|apply IH]. Qed.

Lemma clz_loop_spec n v c :
  0 < v < 2 ^ Z.of_nat n ->
  let s := clz_loop n v false c - c in
  0 <= s < Z.of_nat n /\ v * 2 ^ s < 2 ^ Z.of_nat n <= 2 * (v * 2 ^ s).
Proof.
  revert c. induction n as [|n IH]; intros c Hv; [cbn in Hv; lia|].
  cbn [clz_loop orb]. rewrite Nat2Z.inj_succ, Z.pow_succ_r in * by lia.
  destruct (Z.testbit v (Z.of_nat n)) eqn:E.
  - rewrite clz_loop_found, Z.sub_diag. cbn zeta. change (2 ^ 0) with 1.
    destruct (Z.lt_ge_cases v (2 ^ Z.of_nat n)) as [Hlt|]; [|lia].
    rewrite <- (Z.mod_small v (2 ^ Z.of_nat n)), Z.mod_pow2_bits_high in E by lia. done.
  - assert (v < 2 ^ Z.of_nat n) as Hlt.
    { apply Z.testbit_false in E; [|lia].
      assert (v / 2 ^ Z.of_nat n < 2) by (apply Z.div_lt_upper_bound; lia).
      assert (0 <= v / 2 ^ Z.of_nat n) by (apply Z.div_pos; lia).
      rewrite Z.mod_small in E by lia. apply Z.div_small_iff in E; lia. }
    destruct (IH (c + 1) ltac:(lia)) as [Hs Hb]. cbn zeta in *.
    replace (clz_loop n v false (c + 1) - c) with (Z.succ (clz_loop n v false (c + 1) - (c + 1))) by lia.
    rewrite Z.pow_succ_r by lia. lia.
Qed.

Lemma countLeadingZeroes_spec v :
  0 < v < B ->
  let s := countLeadingZeroes v in 0 <= s < 32 /\ v * 2 ^ s < B <= 2 * (v * 2 ^ s).
Proof.
  intros Hv. pose proof (clz_loop_spec 32 v 0 Hv) as H. cbn zeta in *.
  rewrite Z.sub_0_r in H. exact H.
Qed.


(** ** The shifted operands *)

Lemma shift_loop_spec i source s data :
  0 < s < 32 -> blocks (d_data source) -> blocks data ->
  (forall x, (x <= i)%nat -> get (native data) x = 0) ->
  exists data',
    shift_loop i source s (native data) = Some (native data') /\
    blocks data' /\ length data' = Nat.max (length data) (S i) /\
    value data' + get source i / 2 ^ (32 - s) * place (S i) =
    value data + value (take (S i) (d_data source)) * 2 ^ s.
Proof.
  intros Hs Hsrc. revert data. induction i as [|i IH]; intros data Hd Hz.
  - cbn [shift_loop]. pose proof (get_bounds source 0 Hsrc) as Hb.
    pose proof (shift_part_bounds (get source 0) s Hs). pose proof (pow2_pos s ltac:(lia)).
    rewrite shl_spec by lia. cbn [mbind option_bind]. rewrite set_native by lia.
    eexists. split; [done|]. split; [apply blocks_insert; [done|lia]|].
    split; [by rewrite length_insert, length_extended; lia|].
    rewrite val_insert, (Hz 0%nat), value_take_get, place_S, place_0 by lia. rewrite take_0. cbn [value].
    pose proof (shift_parts (get source 0) s ltac:(lia)). lia.
  - cbn [shift_loop]. pose proof (get_bounds source i Hsrc). pose proof (get_bounds source (S i) Hsrc).
    destruct (shift_up_spec (get source (S i)) (get source i) s) as (x & E & Hx & Hxe); [done..|].
    rewrite E. cbn [mbind option_bind]. rewrite set_native by done. cbn [mbind option_bind].
    edestruct (IH (<[S i := x]> (extended (S (S i)) data))) as (data' & E' & Hb & Hlen & Hval).
    { by apply blocks_insert. }
    { intros y Hy. rewrite get_insert. case_decide; [lia|]. apply Hz. lia. }
    exists data'. split; [done|]. split; [done|].
    split; [rewrite Hlen, length_insert, length_extended; lia|].
    rewrite val_insert, (Hz (S i)) in Hval by lia.
    rewrite value_take_get. rewrite !place_S in *.
    pose proof (shift_parts (get source (S i)) s ltac:(lia)) as Hp.
    assert (value data' = value data + value (take (S i) (d_data source)) * 2 ^ s
      + get source (S i) mod 2 ^ (32 - s) * 2 ^ s * (B * place i)) as -> by (rewrite Hxe in Hval; lia).
    transitivity (value data + value (take (S i) (d_data source)) * 2 ^ s
      + B * place i * (get source (S i) mod 2 ^ (32 - s) * 2 ^ s + B * (get source (S i) / 2 ^ (32 - s))));
      [ring|]. rewrite <- Hp. ring.
Qed.

Lemma shifted_divisor_spec v s :
  0 < s < 32 -> blocks (d_data v) -> (0 < length_of v)%nat ->
  get v (length_of v - 1) * 2 ^ s < B ->
  exists data,
    shifted_divisor v s = Some (native data) /\ blocks data /\
    length data = length_of v /\ value data = val v * 2 ^ s.
Proof.
  intros Hs Hv Hn Htop. unfold shifted_divisor.
  destruct (shift_loop_spec (length_of v - 1) v s [] Hs Hv) as (data & E & Hb & Hlen & Hval);
    [constructor|done|].
  exists data. split_and!; [done..|cbn in Hlen; lia|].
  replace (S (length_of v - 1)) with (length_of v) in Hval by lia.
  rewrite value_take_all in Hval by done. pose proof (get_bounds v (length_of v - 1) Hv).
  rewrite Z.div_small in Hval.
  - cbn [value] in Hval. unfold val. lia.
  - split; [lia|]. rewrite (pow_split s) in Htop by lia. pose proof (pow2_pos s ltac:(lia)). nia.
Qed.

Lemma shifted_dividend_spec u s :
  0 < s < 32 -> blocks (d_data u) -> (0 < length_of u)%nat ->
  exists data,
    shifted_dividend u s = Some (native data) /\ blocks data /\
    length data = S (length_of u) /\ value data = val u * 2 ^ s.
Proof.
  intros Hs Hu Hm. unfold shifted_dividend.
  pose proof (get_bounds u (length_of u - 1) Hu) as Htop.
  pose proof (shift_carry_bounds _ s Hs Htop) as Hc.
  change k_BITS_PER_BLOCK with 32. rewrite shr_spec by lia. cbn [mbind option_bind].
  assert (2 ^ s <= B) as Hle by (rewrite B_pow; apply Z.pow_le_mono_r; lia).
  change init with (native []). rewrite set_native by lia. cbn [mbind option_bind].
  edestruct (shift_loop_spec (length_of u - 1) u s) as (data & E & Hb & Hlen & Hval);
    [done|done| | |rewrite E].
  { apply blocks_insert; [constructor|lia]. }
  { intros x Hx. rewrite get_insert. case_decide; [lia|done]. }
  exists data. split_and!; [done..| |].
  - rewrite Hlen, length_insert, length_extended. cbn [length]. lia.
  - rewrite val_insert in Hval. replace (S (length_of u - 1)) with (length_of u) in Hval by lia.
    rewrite value_take_all in Hval by done. cbn [value] in Hval. unfold val.
    change (get (native []) (length_of u)) with 0 in Hval. lia.
Qed.

(** ** The trial digit *)

Lemma correct_loop_spec fuel v1 v2 top u2 qhat rhat qs :
  B <= 2 * v1 -> v1 < B -> 0 <= v2 < B -> 0 <= u2 < B -> top < (v1 + 1) * B ->
  0 <= qs < B -> qs * (v1 * B + v2) <= top * B + u2 ->
  0 <= rhat < B -> (3 - Z.of_nat fuel) * v1 <= rhat ->
  qhat * v1 + rhat = top -> qs <= qhat <= B + 1 ->
  exists qhat' rhat',
    correct_loop fuel B v1 v2 u2 qhat rhat = Some (qhat', rhat') /\
    qs <= qhat' < B /\ qhat' * (v1 * B + v2) <= top * B + u2.
Proof.
  intros Hv1 Hv1' Hv2 Hu2 Htop Hqs Hq. revert qhat rhat.
  induction fuel as [|fuel IH]; intros qhat rhat Hr Hf Hqr Hqb; [lia|].
  cbn [correct_loop].
  assert (wrap 64 (wrap 64 (B * rhat) + u2) = B * rhat + u2) as ->.
  { rewrite wrap_add_l. apply wrap_small. change (2 ^ 64) with (B * B). nia. }
  destruct ((B <=? qhat) || (B * rhat + u2 <? wrap 64 (qhat * v2))) eqn:E.
  - assert (qs < qhat) as Hlt.
    { destruct (Z.leb_spec B qhat); [lia|]. cbn [orb] in E. apply Z.ltb_lt in E.
      rewrite wrap_small in E by (change (2 ^ 64) with (B * B); nia).
      destruct (Z.lt_ge_cases qs qhat); [done|].
      assert (qhat * (v1 * B + v2) <= qs * (v1 * B + v2)) by (apply Z.mul_le_mono_nonneg_r; nia).
      rewrite <- Hqr in Hq. lia. }
    rewrite (wrap_small 64 (qhat - 1)), (wrap_small 64 (rhat + v1)) by (unfold B in *; lia).
    destruct (Z.ltb_spec (rhat + v1) B).
    + apply IH; lia.
    + exists (qhat - 1), (rhat + v1). split; [done|].
      assert ((qhat - 1) * v1 < B * v1) by lia.
      assert (qhat - 1 < B) by nia. split; [lia|].
      assert ((qhat - 1) * v2 <= B * (rhat + v1)) by (apply Z.mul_le_mono_nonneg; lia). lia.
  - apply orb_false_elim in E as [E1 E2]. apply Z.leb_gt in E1. apply Z.ltb_ge in E2.
    rewrite wrap_small in E2 by (change (2 ^ 64) with (B * B); nia).
    exists qhat, rhat. split; [done|]. split; [lia|]. nia.
Qed.

(** The digits of the part of a number from the place [j] on. *)
Lemma digit_drop data j i : digit (drop j data) i = get (native data) (j + i).
Proof. unfold digit. by rewrite lookup_drop. Qed.

(** The three leading blocks of the [n + 1] blocks from the place [j] on, when
    the part of the number from there on has no more blocks. *)
Lemma window_split data j n :
  (2 <= n)%nat -> blocks data -> value (drop j data) < place (S n) ->
  exists low, 0 <= low < place (n - 2) /\
    value (drop j data) = low + place (n - 2) *
      (get (native data) (j + n - 2) + B * get (native data) (j + n - 1)
       + B * B * get (native data) (j + n)).
Proof.
  intros Hn Hd Hlt.
  assert (blocks (drop j data)) as Hdd by by apply Forall_drop.
  pose proof (value_split (S n) (drop j data)) as Hs.
  assert (0 <= value (drop (S n) (drop j data))) as Hrest.
  { apply value_bounds. by apply Forall_drop. }
  pose proof (take_value_bounds (S n) _ Hdd) as Ht.
  assert (value (drop (S n) (drop j data)) = 0) as Hz by nia.
  rewrite Hz, Z.mul_0_r, Z.add_0_r in Hs.
  exists (value (take (n - 2) (drop j data))). split; [by apply take_value_bounds|].
  rewrite Hs. destruct n as [|[|n]]; [lia..|].
  replace (S (S n) - 2)%nat with n by lia.
  rewrite !value_take_S, !digit_drop, !place_S.
  replace (j + S (S n) - 2)%nat with (j + n)%nat by lia.
  replace (j + S (S n) - 1)%nat with (j + S n)%nat by lia. ring.
Qed.


(** ** One digit *)

Section Digits.

Context (V : list Z) (n : nat).
Hypothesis HV : blocks V.
Hypothesis HlenV : length V = n.
Hypothesis Hn : (2 <= n)%nat.
Hypothesis Hfull : B <= 2 * get (native V) (n - 1).

Lemma divisor_split :
  exists low, 0 <= low < place (n - 2) /\
    value V = low + place (n - 2) * (get (native V) (n - 1) * B + get (native V) (n - 2)).
Proof.
  exists (value (take (n - 2) V)). split; [by apply take_value_bounds|].
  rewrite <- (value_take_all n V) at 1 by lia. clear HlenV.
  destruct n as [|[|n']]; [lia..|]. replace (S (S n') - 2)%nat with n' by lia.
  replace (S (S n') - 1)%nat with (S n') by lia.
  rewrite !value_take_S, !place_S. change (digit V) with (get (native V)). ring.
Qed.

Lemma divisor_bounds : place n <= 2 * value V /\ value V < place n.
Proof.
  destruct divisor_split as (low & Hlow & E).
  pose proof (value_bounds V HV) as Hb. rewrite HlenV in Hb. split; [|lia].
  pose proof (get_bounds (native V) (n - 2) HV).
  assert (place n = B * (B * place (n - 2))) as ->.
  { rewrite <- !place_S. f_equal. lia. }
  pose proof (place_pos (n - 2)).
  assert (place (n - 2) * B * B <= place (n - 2) * B * (2 * get (native V) (n - 1)))
    by (apply Z.mul_le_mono_nonneg_l; [pose proof B_large|]; lia).
  assert (0 <= place (n - 2) * get (native V) (n - 2)) by lia. lia.
Qed.

(** The arithmetic of the trial: [D] is made of the two leading blocks of the
    divisor, [T] of the three leading blocks of the part that is divided. *)
Lemma leading_quotient qs P vlow D wlow T :
  0 <= vlow < P -> 0 <= wlow < P -> 0 <= qs ->
  qs * (vlow + P * D) <= wlow + P * T -> qs * D <= T.
Proof.
  intros Hv Hw Hq H. assert (0 <= qs * vlow) by (apply Z.mul_nonneg_nonneg; lia).
  apply Z.lt_succ_r, (Z.mul_lt_mono_pos_l P); lia.
Qed.

Lemma leading_block P vlow v1 v2 wlow u0 rest :
  0 <= vlow < P -> 0 <= v2 < B -> 0 <= wlow -> 0 <= rest ->
  wlow + P * (rest + u0 * (B * B)) < B * (vlow + P * (v1 * B + v2)) -> u0 <= v1.
Proof.
  intros Hv Hv2 Hw Hr H. assert (0 <= P * rest) by (apply Z.mul_nonneg_nonneg; lia).
  assert (vlow + P * (v1 * B + v2) <= P * ((v1 + 1) * B)) as Hup.
  { assert (P * (v2 + 1) <= P * B) by (apply Z.mul_le_mono_nonneg_l; lia). lia. }
  assert (B * (vlow + P * (v1 * B + v2)) <= B * (P * ((v1 + 1) * B)))
    by (apply Z.mul_le_mono_nonneg_l; [done|lia]).
  apply Z.lt_succ_r, (Z.mul_lt_mono_pos_l (P * (B * B))); [|lia].
  apply Z.mul_pos_pos; [lia|done].
Qed.

Lemma trial_excess qhat P vlow v1 v2 wlow T :
  0 <= vlow < P -> 0 <= wlow -> 0 <= qhat < B -> 0 < v1 -> 0 <= v2 ->
  qhat * (v1 * B + v2) <= T ->
  qhat * (vlow + P * (v1 * B + v2)) <= wlow + P * T + (vlow + P * (v1 * B + v2)) /\
  (vlow = 0 -> qhat * (vlow + P * (v1 * B + v2)) <= wlow + P * T).
Proof.
  intros Hv Hw Hq Hv1 Hv2 H.
  assert (P * (qhat * (v1 * B + v2)) <= P * T) by (apply Z.mul_le_mono_nonneg_l; lia).
  assert (qhat * vlow <= B * P) by (apply Z.mul_le_mono_nonneg; lia).
  assert (P * (1 * B) <= P * (v1 * B)) by
    (apply Z.mul_le_mono_nonneg_l, Z.mul_le_mono_nonneg_r; [lia|done|lia]).
  assert (0 <= P * v2) by (apply Z.mul_nonneg_nonneg; lia).
  split; [lia|]. intros ->. lia.
Qed.

Lemma trial_spec data j :
  blocks data -> value (drop j data) < B * value V ->
  exists qhat,
    trial B (native V) (native data) n j = Some qhat /\
    value (drop j data) / value V <= qhat < B /\
    qhat * value V <= value (drop j data) + value V /\
    (n = 2%nat -> qhat * value V <= value (drop j data)).
Proof.
  intros Hd HW. pose proof divisor_bounds as [Hb1 Hb2].
  destruct divisor_split as (vlow & Hvlow & EV).
  destruct (window_split data j n Hn Hd) as (wlow & Hwlow & EW).
  { rewrite place_S. pose proof (Z.mul_lt_mono_pos_l B (value V) (place n) ltac:(done)). lia. }
  pose proof (get_bounds (native V) (n - 1) HV) as Hv1. pose proof (get_bounds (native V) (n - 2) HV) as Hv2.
  pose proof (get_bounds (native data) (j + n) Hd) as Hu0.
  pose proof (get_bounds (native data) (j + n - 1) Hd) as Hu1.
  pose proof (get_bounds (native data) (j + n - 2) Hd) as Hu2.
  assert (0 < value V) as HVpos by (pose proof (place_pos n); lia).
  pose proof (value_bounds (drop j data) ltac:(by apply Forall_drop)) as [HW0 _].
  unfold trial.
  set (v1 := get (native V) (n - 1)) in *. set (v2 := get (native V) (n - 2)) in *.
  set (u0 := get (native data) (j + n)) in *. set (u1 := get (native data) (j + n - 1)) in *.
  set (u2 := get (native data) (j + n - 2)) in *. set (W := value (drop j data)) in *.
  assert (u0 <= v1) as Hu0v1.
  { assert (0 <= B * u1) by (apply Z.mul_nonneg_nonneg; [done|lia]).
    apply (leading_block (place (n - 2)) vlow v1 v2 wlow u0 (u2 + B * u1)); lia. }
  assert (0 <= u0 * B <= (B - 1) * B) as Hu0B.
  { split; [apply Z.mul_nonneg_nonneg|apply Z.mul_le_mono_nonneg_r]; lia. }
  assert (wrap 64 (wrap 64 (u0 * B) + u1) = u0 * B + u1) as ->.
  { rewrite wrap_add_l. apply wrap_small. change (2 ^ 64) with (B * B). lia. }
  set (top := u0 * B + u1) in *.
  assert (negb (v1 =? 0) = true) as -> by (apply negb_true_iff, Z.eqb_neq; pose proof B_large; lia).
  assert (0 < v1) as Hv1pos by (pose proof B_large; lia).
  set (qs := W / value V).
  assert (0 <= qs < B) as Hqs by (split; [apply Z.div_pos; lia|apply Z.div_lt_upper_bound; lia]).
  assert (W = wlow + place (n - 2) * (top * B + u2)) as EW' by (rewrite EW; subst top; ring).
  assert (qs * (v1 * B + v2) <= top * B + u2) as Hq.
  { apply (leading_quotient qs (place (n - 2)) vlow _ wlow); [lia..|].
    rewrite <- EV, <- EW', Z.mul_comm. apply Z.mul_div_le. lia. }
  assert (u0 * B <= v1 * B) by (apply Z.mul_le_mono_nonneg_r; lia).
  assert (top < (v1 + 1) * B) as Htop by (subst top; lia).
  assert (0 <= top) as Htop0 by (subst top; lia).
  pose proof (Z.div_mod top v1 ltac:(lia)) as Hdm.
  pose proof (Z.mod_pos_bound top v1 ltac:(lia)) as Hmod.
  assert (top < B * B) as HtopB by (subst top; lia).
  assert (0 <= top / v1 * v1 <= top) as Hqv.
  { rewrite Z.mul_comm. pose proof (Z.mul_div_le top v1 ltac:(lia)).
    pose proof (Z.div_pos top v1 ltac:(lia) ltac:(lia)). split; [apply Z.mul_nonneg_nonneg|]; lia. }
  assert (wrap 64 (top - wrap 64 (top / v1 * v1)) = top mod v1) as ->.
  { rewrite (wrap_small 64 (_ * _)), wrap_small by (change (2 ^ 64) with (B * B); lia). lia. }
  assert (qs <= top / v1) as Hqt.
  { apply Z.div_le_lower_bound; [lia|]. apply Z.lt_succ_r, (Z.mul_lt_mono_pos_l B); [done|].
    assert (0 <= qs * v2) by (apply Z.mul_nonneg_nonneg; lia). lia. }
  assert (top / v1 <= B + 1) as Hqb.
  { apply Z.lt_succ_r, Z.div_lt_upper_bound; lia. }
  destruct (correct_loop_spec 3 v1 v2 top u2 (top / v1) (top mod v1) qs) as
    (qhat & rhat & E & Hrange & Hle); try lia.
  rewrite E. cbn [mbind option_bind]. exists qhat. split; [done|]. split; [done|].
  destruct (trial_excess qhat (place (n - 2)) vlow v1 v2 wlow (top * B + u2)) as [H1 H2]; try lia.
  rewrite <- EV, <- EW' in H1, H2. split; [done|]. intros ->. apply H2.
  change (place (2 - 2)) with 1 in Hvlow. lia.
Qed.

(** ** Multiply and subtract *)

Lemma swrap_wrap z : swrap 64 (wrap 64 z) = swrap 64 z.
Proof. unfold swrap, wrap. by rewrite Zplus_mod_idemp_l. Qed.

Lemma swrap_wrap_sub x y : swrap 64 (wrap 64 x - y) = swrap 64 (x - y).
Proof.
  unfold swrap, wrap. f_equal.
  replace (x mod 2 ^ 64 - y + 2 ^ (64 - 1)) with (x mod 2 ^ 64 + (2 ^ (64 - 1) - y)) by lia.
  rewrite Zplus_mod_idemp_l. f_equal. lia.
Qed.

(** A block minus a borrow and the low half of a product, and the borrow that
    is left. *)
Lemma borrow_step u k p qhat :
  0 <= u < B -> 0 <= k <= qhat -> qhat < B -> 0 <= p <= qhat * (B - 1) ->
  let t := swrap 64 (wrap 64 (u - k) - Z.land p (2 ^ 32 - 1)) in
  let k' := wrap 64 (Z.shiftr p 32 - wrap 64 (Z.shiftr t 32)) in
  0 <= wrap 32 t < B /\ 0 <= k' <= qhat /\ wrap 32 t - B * k' = u - k - p.
Proof.
  intros Hu Hk Hq Hp. cbn zeta. rewrite swrap_wrap_sub.
  change (2 ^ 32 - 1) with (Z.ones 32). rewrite Z.land_ones by lia. fold B.
  rewrite !Z.shiftr_div_pow2 by lia. fold B.
  pose proof (Z.mod_pos_bound p B ltac:(done)) as Hpm. pose proof (Z.div_mod p B ltac:(done)) as Hpd.
  rewrite swrap_small by (unfold B in *; lia).
  set (t := u - k - p mod B) in *. change (wrap 32 t) with (t mod B).
  pose proof (Z.mod_pos_bound t B ltac:(done)) as Htm. pose proof (Z.div_mod t B ltac:(done)) as Htd.
  assert (wrap 64 (p / B - wrap 64 (t / B)) = p / B - t / B) as ->.
  { rewrite <- (wrap_small 64 (p / B - t / B)).
    - unfold wrap. by rewrite Zminus_mod_idemp_r.
    - assert (B * (p / B - t / B) = t mod B - u + k + p) by (subst t; lia).
      change (2 ^ 64) with (B * B). nia. }
  assert (B * (p / B - t / B) = t mod B - u + k + p) as HB by (subst t; lia).
  split; [done|]. split; [nia|]. lia.
Qed.

Lemma subtract_product_spec c i qhat j k data :
  blocks data -> 0 <= qhat < B -> 0 <= k <= qhat -> (i + c = n)%nat ->
  exists k' data',
    subtract_product_loop c i qhat (native V) j k (native data) = Some (k', native data') /\
    blocks data' /\ 0 <= k' <= qhat /\
    (forall x, (x < i + j \/ j + n <= x)%nat -> get (native data') x = get (native data) x) /\
    value data' - k' * place (j + n) =
    value data - k * place (i + j) - qhat * (value V - value (take i V)) * place j.
Proof.
  intros Hd Hq. revert i k data Hd. induction c as [|c IH]; intros i k data Hd Hk Hi.
  { exists k, data. rewrite Nat.add_0_r in Hi. subst i. rewrite value_take_all by lia.
    split_and!; [done..|lia|lia|done|]. rewrite (Nat.add_comm n j). ring. }
  cbn [subtract_product_loop].
  pose proof (get_bounds (native V) i HV) as Bv. pose proof (get_bounds (native data) (i + j) Hd) as Bu.
  rewrite (wrap_small 64 (qhat * get (native V) i)) by (change (2 ^ 64) with (B * B); nia).
  set (p := qhat * get (native V) i).
  assert (0 <= p <= qhat * (B - 1)) as Hp by (subst p; nia).
  destruct (borrow_step (get (native data) (i + j)) k p qhat) as (Ht & Hk' & Hval); [done..|lia|done|].
  cbn zeta in *. set (t := swrap 64 _) in *. set (k1 := wrap 64 (_ - wrap 64 _)) in *.
  rewrite set_native by done. cbn [mbind option_bind].
  destruct (IH (S i) k1 (<[(i + j)%nat := wrap 32 t]> (extended (S (i + j)) data)))
    as (k' & data' & E & Hb & Hk2 & Hg & Hval'); [by apply blocks_insert|done|lia|].
  exists k', data'. split; [done|]. split; [done|]. split; [done|]. split.
  { intros x Hx. rewrite Hg, get_insert by lia. case_decide; [lia|done]. }
  rewrite Hval', val_insert. rewrite (value_take_get (native V)). cbn [d_data native].
  rewrite Nat.add_succ_l, place_S, (place_add i j).
  assert (wrap 32 t = get (native data) (i + j) - k - p + B * k1) as -> by lia.
  subst p. ring.
Qed.

(** A step whose trial digit is not too large. *)
Lemma divide_step_spec data qdata j qhat :
  blocks data -> blocks qdata -> value (drop j data) < B * value V ->
  trial B (native V) (native data) n j = Some qhat ->
  qhat * value V <= value (drop j data) ->
  exists data' qdata',
    divide_step B (native V) n j (native data) (native qdata) = Some (native data', native qdata') /\
    blocks data' /\ blocks qdata' /\
    value (drop j data') < value V /\
    (forall x, (x < j)%nat -> get (native data') x = get (native data) x) /\
    (forall x, (x < j)%nat -> get (native qdata') x = get (native qdata) x) /\
    value data' = value data - qhat * value V * place j /\
    value qdata' = value qdata + (qhat - get (native qdata) j) * place j.
Proof.
  intros Hd Hqd HW Ht Hle. unfold divide_step. rewrite Ht. cbn [mbind option_bind].
  destruct (trial_spec data j Hd HW) as (qhat' & Ht' & Hrange & Hq1 & _).
  rewrite Ht in Ht'. injection Ht' as <-.
  assert (0 < value V) as HVpos by (pose proof divisor_bounds; pose proof (place_pos n); lia).
  pose proof (value_bounds (drop j data) ltac:(by apply Forall_drop)) as [HW0 _].
  assert (0 <= qhat) as Hq0 by (pose proof (Z.div_pos (value (drop j data)) (value V)); lia).
  destruct (subtract_product_spec n 0 qhat j 0 data) as (k & data1 & E1 & Hb1 & Hk & Hg1 & Hval1);
    [done|lia..|].
  rewrite E1. cbn [mbind option_bind]. clear E1.
  rewrite take_0 in Hval1. cbn [value] in Hval1.
  pose proof (get_bounds (native data1) (j + n) Hb1) as Hu0.
  set (W := value (drop j data)) in *. set (u0 := get (native data1) (j + n)) in *.
  assert (W / value V * value V <= W < (W / value V + 1) * value V) as HWq.
  { pose proof (Z.div_mod W (value V) ltac:(lia)). pose proof (Z.mod_pos_bound W (value V) ltac:(lia)). lia. }
  assert (0 <= W - qhat * value V < value V) as HR by nia.
  assert (u0 = k) as Hu0k.
  { assert (value (drop j data1) = W + (k * place n - qhat * value V)) as Hdiff.
    { apply (value_drop_diff (native data1) (native data)); [intros; apply Hg1; lia|].
      unfold val. cbn [d_data native]. rewrite place_add in Hval1. lia. }
    rewrite (value_split n (drop j data1)), drop_drop in Hdiff.
    pose proof (take_value_bounds n (drop j data1) ltac:(by apply Forall_drop)) as Hlow.
    pose proof divisor_bounds as [_ HVn].
    assert (value (drop (j + n) data1) = k) as Hk'.
    { apply Z.le_antisymm; apply Z.lt_succ_r, (Z.mul_lt_mono_pos_l (place n)); try apply place_pos; lia. }
    rewrite value_drop_S in Hk'. change (digit data1 (j + n)) with u0 in Hk'.
    pose proof (value_bounds (drop (S (j + n)) data1) ltac:(by apply Forall_drop)) as [Hx _].
    set (x := value (drop (S (j + n)) data1)) in *.
    destruct (Z.lt_ge_cases 0 x) as [Hpos|]; [|assert (x = 0) as -> by lia; lia].
    pose proof (Z.mul_le_mono_nonneg_l 1 x B ltac:(done) ltac:(lia)). lia. }
  assert (swrap 64 (wrap 64 (u0 - k)) = 0) as ->.
  { rewrite Hu0k, Z.sub_diag. reflexivity. }
  change (wrap 32 0) with 0. rewrite wrap_32 by lia. rewrite !set_native by lia.
  cbn [mbind option_bind]. change (0 <? 0) with false.
  eexists _, _. split; [reflexivity|].
  assert (forall x, (x < j)%nat ->
    get (native (<[(j + n)%nat:=0]> (extended (S (j + n)) data1))) x = get (native data) x) as Hlow.
  { intros x Hx. rewrite get_insert. case_decide; [lia|]. apply Hg1. lia. }
  assert (value (<[(j + n)%nat:=0]> (extended (S (j + n)) data1)) =
    value data + - (qhat * value V) * place j) as Hfinal.
  { rewrite val_insert. fold u0. rewrite Hu0k. lia. }
  split; [by apply blocks_insert|]. split; [by apply blocks_insert; [|lia]|]. split_and!.
  - pose proof (value_drop_diff (native _) (native data) j _ Hlow Hfinal) as H.
    cbn [d_data native] in H. rewrite H. fold W. lia.
  - exact Hlow.
  - intros x Hx. rewrite get_insert. case_decide; [lia|done].
  - rewrite Hfinal. ring.
  - apply val_insert.
Qed.

End Digits.

(** ** All the digits *)

Section Loop.

Context (V : list Z) (n : nat).
Hypothesis HV : blocks V.
Hypothesis HlenV : length V = n.
Hypothesis Hn : (2 <= n)%nat.
Hypothesis Hfull : B <= 2 * get (native V) (n - 1).

Lemma next_window data j :
  blocks data -> value (drop (S j) data) < value V -> value (drop j data) < B * value V.
Proof.
  intros Hd H. rewrite value_drop_S. pose proof (blocks_lookup data j Hd).
  assert (B * (value (drop (S j) data) + 1) <= B * value V)
    by (apply Z.mul_le_mono_nonneg_l; [done|lia]). lia.
Qed.

Lemma divide_loop_spec c data qdata :
  blocks data -> blocks qdata -> value (drop c data) < value V ->
  (forall x, (x < c)%nat -> get (native qdata) x = 0) ->
  exact_digits c B (native V) n (native data) (native qdata) = true ->
  exists data' qdata',
    divide_loop c B (native V) n (native data) (native qdata) = Some (native data', native qdata') /\
    blocks data' /\ blocks qdata' /\ value data' < value V /\
    value data' + value qdata' * value V = value data + value qdata * value V.
Proof.
  revert data qdata. induction c as [|c IH]; intros data qdata Hd Hq Hw Hz Hex.
  { by exists data, qdata. }
  cbn [exact_digits] in Hex. cbn [divide_loop].
  pose proof (next_window data c Hd Hw) as HW.
  destruct (trial_spec V n HV HlenV Hn Hfull data c Hd HW) as (qhat & Ht & _).
  rewrite Ht in Hex.
  destruct (divide_step _ _ _ _ _ _) as [[un q]|] eqn:Estep; [|done].
  apply andb_prop in Hex as [Hle Hex]. apply Z.leb_le in Hle. cbn [d_data native] in Hle.
  destruct (divide_step_spec V n HV HlenV Hn Hfull data qdata c qhat) as
    (data1 & q1 & E & Hb1 & Hbq1 & Hw1 & _ & Hgq & Hv1 & Hvq); [done..|].
  rewrite E in Estep. injection Estep as <- <-. cbn [mbind option_bind].
  destruct (IH data1 q1) as (data' & q' & E' & Hb' & Hbq' & Hlt & Hval); [done..| |done|].
  { intros x Hx. rewrite Hgq by lia. apply Hz. lia. }
  exists data', q'. split_and!; [done..|]. rewrite Hval, Hv1, Hvq, (Hz c) by lia. ring.
Qed.

(** With a divisor of two blocks every trial digit is exact. *)
Lemma exact_digits_two c data qdata :
  n = 2%nat -> blocks data -> blocks qdata -> value (drop c data) < value V ->
  exact_digits c B (native V) n (native data) (native qdata) = true.
Proof.
  intros H2. revert data qdata. induction c as [|c IH]; intros data qdata Hd Hq Hw; [done|].
  cbn [exact_digits]. pose proof (next_window data c Hd Hw) as HW.
  destruct (trial_spec V n HV HlenV Hn Hfull data c Hd HW) as (qhat & Ht & _ & _ & Hle).
  destruct (divide_step_spec V n HV HlenV Hn Hfull data qdata c qhat) as
    (data1 & q1 & E & Hb1 & Hbq1 & Hw1 & _); [done..|by apply Hle|].
  rewrite Ht, E, IH, andb_true_r by done. apply Z.leb_le. by apply Hle.
Qed.

End Loop.

(** ** The remainder *)

Lemma remainder_loop_spec c i data s rdata :
  0 < s < 32 -> blocks data -> blocks rdata ->
  (forall x, (i <= x)%nat -> get (native rdata) x = 0) ->
  exists rdata',
    remainder_loop c i (native data) s (native rdata) = Some (native rdata') /\ blocks rdata' /\
    2 ^ s * value rdata' + get (native data) i mod 2 ^ s * place i =
    2 ^ s * value rdata + (value (take (i + c) data) - value (take i data))
    + get (native data) (i + c) mod 2 ^ s * place (i + c).
Proof.
  intros Hs Hd. revert i rdata. induction c as [|c IH]; intros i rdata Hr Hz.
  { exists rdata. rewrite Nat.add_0_r. split_and!; [done..|]. lia. }
  cbn [remainder_loop].
  destruct (shift_down_spec (get (native data) i) (get (native data) (S i)) s) as (x & E & Hx & Hxv);
    [done|by apply get_bounds..|].
  rewrite E. cbn [mbind option_bind]. rewrite set_native by done. cbn [mbind option_bind].
  destruct (IH (S i) (<[i := x]> (extended (S i) rdata))) as (rdata' & E' & Hb & Hval).
  { by apply blocks_insert. }
  { intros y Hy. rewrite get_insert. case_decide; [lia|]. apply Hz. lia. }
  exists rdata'. split; [done|]. split; [done|].
  rewrite val_insert, (Hz i), Nat.add_succ_l in Hval by lia. rewrite Nat.add_succ_r.
  pose proof (value_take_get (native data) i) as Hg. cbn [d_data native] in Hg.
  rewrite Hg, place_S in Hval.
  transitivity (2 ^ s * value rdata + 2 ^ s * x * place i
    + (value (take (S (i + c)) data) - (value (take i data) + place i * get (native data) i))
    + get (native data) (S (i + c)) mod 2 ^ s * place (S (i + c))
    - get (native data) (S i) mod 2 ^ s * (B * place i) + get (native data) i mod 2 ^ s * place i); [lia|].
  rewrite Hxv. ring.
Qed.

(** A number that is a multiple of [2 ^ s] and fits in [n] blocks is shifted
    down exactly. *)
Lemma remainder_val n data s R :
  0 < s < 32 -> blocks data -> value data = R * 2 ^ s -> value data < place n ->
  exists rdata,
    remainder_loop n 0 (native data) s init = Some (native rdata) /\ blocks rdata /\ value rdata = R.
Proof.
  intros Hs Hd HR Hlt.
  destruct (remainder_loop_spec n 0 data s []) as (rdata & E & Hb & Hval); [done..|constructor|done|].
  exists rdata. split; [done|]. split; [done|].
  rewrite Nat.add_0_l, take_0, place_0 in Hval. cbn [value] in Hval.
  pose proof (value_split n data) as Hsplit.
  pose proof (take_value_bounds n data Hd). pose proof (place_pos n).
  pose proof (value_bounds (drop n data) ltac:(by apply Forall_drop)) as [Hx _].
  assert (value (drop n data) = 0) as Hz by nia.
  assert (get (native data) n = 0) as Hg.
  { rewrite value_drop_S in Hz. change (digit data n) with (get (native data) n) in Hz.
    pose proof (get_bounds (native data) n Hd).
    pose proof (value_bounds (drop (S n) data) ltac:(by apply Forall_drop)).
    pose proof B_large. nia. }
  assert (get (native data) 0 mod 2 ^ s = 0) as Hg0.
  { pose proof (value_drop_S 0 data) as Hd0. rewrite drop_0 in Hd0.
    change (digit data 0) with (get (native data) 0) in Hd0.
    replace (get (native data) 0) with ((R - 2 ^ (32 - s) * value (drop 1 data)) * 2 ^ s).
    { apply Z_mod_mult. }
    rewrite (pow_split s) in Hd0 by lia. lia. }
  rewrite Hg, Hg0, Zmod_0_l in Hval. pose proof (pow2_pos s ltac:(lia)).
  apply (Z.mul_reg_l _ _ (2 ^ s)); lia.
Qed.

(** ** Divisors of one block *)

(** The remainder of the places above is only right modulo the radix, because
    the product that is subtracted is computed on 32 bits; that is enough, since
    it is multiplied by the radix on 64 bits. *)
Lemma short_step k d0 v0 :
  0 < v0 < B -> wrap 32 k < v0 -> 0 <= d0 < B ->
  let d := wrap 64 (wrap 64 (k * B) + d0) in
  let q := d / v0 in
  let k' := wrap 64 (d - wrap 32 (q * v0)) in
  0 <= q < B /\ wrap 32 k' < v0 /\ q * v0 + wrap 32 k' = wrap 32 k * B + d0.
Proof.
  intros Hv Hk Hd. cbn zeta. pose proof (wrap_range 32 k ltac:(lia)) as Hr. pose proof B_large.
  assert (wrap 64 (wrap 64 (k * B) + d0) = wrap 32 k * B + d0) as ->.
  { unfold wrap. change (2 ^ 64) with (B * B). change (2 ^ 32) with B.
    rewrite Z.mul_mod_distr_r by done. apply Z.mod_small.
    pose proof (Z.mod_pos_bound k B ltac:(done)).
    assert (k mod B * B <= (B - 1) * B) by (apply Z.mul_le_mono_nonneg_r; lia).
    assert (0 <= k mod B * B) by (apply Z.mul_nonneg_nonneg; lia). lia. }
  set (d := wrap 32 k * B + d0).
  pose proof (Z.div_mod d v0 ltac:(lia)) as Hdm. pose proof (Z.mod_pos_bound d v0 ltac:(lia)) as Hm.
  assert (0 <= d < B * v0) as Hdb.
  { subst d. assert ((wrap 32 k + 1) * B <= v0 * B) by (apply Z.mul_le_mono_nonneg_r; lia). lia. }
  split; [split; [apply Z.div_pos; lia|apply Z.div_lt_upper_bound; lia]|].
  assert (wrap 32 (wrap 64 (d - wrap 32 (d / v0 * v0))) = d mod v0) as ->.
  { unfold wrap. rewrite Z.mod_mod_divide by (by exists (2 ^ 32)).
    rewrite Zminus_mod_idemp_r. replace (d - d / v0 * v0) with (d mod v0) by lia.
    apply Z.mod_small. fold B. lia. }
  split; lia.
Qed.

Lemma short_loop_spec c u v k qdata :
  blocks (d_data u) -> 0 < get v 0 < B -> wrap 32 k < get v 0 -> blocks qdata ->
  (forall x, (x < c)%nat -> get (native qdata) x = 0) ->
  exists k' qdata',
    short_loop c u v B k (native qdata) = Some (k', native qdata') /\ blocks qdata' /\
    0 <= wrap 32 k' < get v 0 /\
    value qdata' * get v 0 + wrap 32 k' =
    value qdata * get v 0 + wrap 32 k * place c + value (take c (d_data u)).
Proof.
  intros Hu Hv. revert k qdata. induction c as [|c IH]; intros k qdata Hk Hq Hz.
  { exists k, qdata. pose proof (wrap_range 32 k ltac:(lia)). split_and!; [done..|lia|lia|].
    rewrite place_0, take_0. cbn [value]. lia. }
  cbn [short_loop].
  assert (negb (get v 0 =? 0) = true) as -> by (apply negb_true_iff, Z.eqb_neq; lia).
  pose proof (get_bounds u c Hu) as Hd.
  destruct (short_step k (get u c) (get v 0)) as (Hqr & Hk' & Hval); [done..|].
  cbn zeta in *. set (d := wrap 64 (wrap 64 (k * B) + get u c)) in *.
  rewrite (wrap_32 (d / get v 0)) by done. rewrite set_native by done. cbn [mbind option_bind].
  rewrite get_insert, decide_True by done.
  destruct (IH (wrap 64 (d - wrap 32 (d / get v 0 * get v 0)))
    (<[c := d / get v 0]> (extended (S c) qdata))) as (k2 & q2 & E & Hb & Hr & Hval'); [done| | |].
  { by apply blocks_insert. }
  { intros x Hx. rewrite get_insert. case_decide; [lia|]. apply Hz. lia. }
  exists k2, q2. split_and!; [done..|lia|lia|].
  rewrite Hval', val_insert, (Hz c), value_take_get, place_S by lia.
  assert (wrap 32 k * (B * place c) = (d / get v 0 * get v 0
    + wrap 32 (wrap 64 (d - wrap 32 (d / get v 0 * get v 0))) - get u c) * place c) as ->
    by (rewrite Hval; ring). ring.
Qed.

Lemma short_divide_val u v :
  wf u -> wf v -> length_of v = 1%nat ->
  exists q r, short_divide init init u v = Some (q, r) /\ wf q /\ wf r /\
    val u = val q * val v + val r /\ 0 <= val r < val v.
Proof.
  intros Hu Hv Hn. unfold short_divide. change (radix (d_base init)) with B.
  destruct v as [base [|v0 [|]]]; try done. destruct Hv as [Hbase Hb Hnorm].
  assert (0 < v0 < B) as Hv0.
  { apply Forall_inv in Hb. cbn in Hb. assert (v0 <> 0) by (intros ->; by apply Hnorm). lia. }
  change init with (native []).
  destruct (short_loop_spec (length_of u) u {| d_base := base; d_data := [v0] |} 0 [])
    as (k & q & E & Hq & Hr & Hval); [apply Hu|done|change (wrap 32 0) with 0; cbn; lia|constructor|done|].
  cbn [get d_data lookup list_lookup] in *.
  rewrite E. cbn [mbind option_bind]. rewrite set_native by lia. cbn [mbind option_bind].
  eexists _, _. split; [reflexivity|].
  split; [by apply native_wf|]. split; [apply native_wf, blocks_insert; [constructor|lia]|].
  rewrite !val_normalize, val_insert, place_0.
  rewrite value_take_all in Hval by done. change (wrap 32 0) with 0 in Hval.
  change (get (native []) 0) with 0. unfold val in *. cbn [value d_data] in *.
  change (get _ 0) with v0 in *. split; [|lia]. lia.
Qed.

(** ** Longer divisors *)

Lemma full_divisor v s data :
  wf v -> (2 <= length_of v)%nat -> 0 <= s -> B <= 2 * (get v (length_of v - 1) * 2 ^ s) ->
  blocks data -> length data = length_of v -> value data = val v * 2 ^ s ->
  B <= 2 * get (native data) (length_of v - 1).
Proof.
  intros Hv Hn Hs Htop Hd Hlen Hval. set (n := length_of v) in *.
  pose proof (value_take_get (native data) (n - 1)) as Hg. cbn [d_data native] in Hg.
  pose proof (value_take_get v (n - 1)) as Hgv.
  replace (S (n - 1)) with n in * by lia. rewrite !value_take_all in * by (unfold n, length_of in *; lia).
  fold (val v) in Hgv. pose proof (take_value_bounds (n - 1) data Hd).
  pose proof (take_value_bounds (n - 1) (d_data v) (wf_blocks _ Hv)) as [H1 _].
  pose proof (pow2_pos s Hs).
  assert (0 <= value (take (n - 1) (d_data v)) * 2 ^ s) by (apply Z.mul_nonneg_nonneg; lia).
  assert (place (n - 1) * B <= place (n - 1) * (2 * (get v (n - 1) * 2 ^ s)))
    by (apply Z.mul_le_mono_nonneg_l; [pose proof (place_pos (n - 1)); lia|done]).
  assert (place (n - 1) * B < place (n - 1) * (2 * (get (native data) (n - 1) + 1))) as Hlt by nia.
  apply Z.mul_lt_mono_pos_l in Hlt; [|apply place_pos].
  assert (B = 2 * 2 ^ 31) by done. lia.
Qed.

Lemma top_block v : wf v -> (0 < length_of v)%nat -> 0 < get v (length_of v - 1) < B.
Proof.
  intros [_ Hb Hn] Hlen. pose proof (get_bounds v (length_of v - 1) Hb).
  assert (get v (length_of v - 1) <> 0); [|lia]. intros Hz.
  destruct v as [base data]. cbn in *. unfold length_of in *. cbn in *.
  destruct data as [|x data _] using rev_ind; [cbn in Hlen; lia|].
  apply normalized_snoc in Hn. rewrite length_app, Nat.add_sub in Hz. cbn in Hz.
  unfold get in Hz. cbn in Hz. by rewrite list_lookup_middle in Hz.
Qed.

(** The part of the dividend that the first digit is about is less than the
    divisor. *)
Lemma first_window u s data n V :
  wf u -> 0 < s < 32 -> (2 <= n <= length_of u)%nat -> value data = val u * 2 ^ s ->
  place n <= 2 * V -> blocks data -> value (drop (S (length_of u - n)) data) < V.
Proof.
  intros Hu Hs Hn Hval HV Hd. set (a := S (length_of u - n)).
  pose proof (value_split a data) as Hsplit. pose proof (take_value_bounds a data Hd) as [Ht _].
  pose proof (value_bounds _ (wf_blocks _ Hu)) as [_ Hlt]. fold (val u) (length_of u) in Hlt.
  pose proof (place_pos a). pose proof (pow2_pos s ltac:(lia)).
  assert (place (length_of u) = place a * place (n - 1)) as E.
  { rewrite <- place_add. f_equal. unfold a. lia. }
  assert (val u * 2 ^ s < place a * place (n - 1) * 2 ^ s) by (apply Z.mul_lt_mono_pos_r; lia).
  assert (value (drop a data) < place (n - 1) * 2 ^ s) as Hx.
  { apply (Z.mul_lt_mono_pos_l (place a)); lia. }
  assert (2 * 2 ^ s <= B) as Hs2.
  { rewrite B_pow, <- Z.pow_succ_r by lia. apply Z.pow_le_mono_r; lia. }
  assert (place n = place (n - 1) * B) as En.
  { rewrite Z.mul_comm, <- place_S. f_equal. lia. }
  pose proof (place_pos (n - 1)).
  assert (place (n - 1) * (2 * 2 ^ s) <= place (n - 1) * B) by (apply Z.mul_le_mono_nonneg_l; lia). lia.
Qed.

Lemma long_divide_val u v :
  wf u -> wf v -> (2 <= length_of v)%nat -> (length_of v <= length_of u)%nat ->
  get v (length_of v - 1) < 2 ^ 31 ->
  length_of v = 2%nat \/ exact_trials u v = true ->
  exists q r, long_divide init init u v = Some (q, r) /\ wf q /\ wf r /\
    val u = val q * val v + val r /\ 0 <= val r < val v.
Proof.
  intros Hu Hv Hn Hmn Htop Hexact. unfold long_divide. unfold exact_trials in Hexact.
  pose proof (top_block v Hv ltac:(lia)) as Htop0.
  destruct (countLeadingZeroes_spec _ Htop0) as [Hs Hfull]. cbn zeta in *.
  set (s := countLeadingZeroes (get v (length_of v - 1))) in *.
  assert (0 < s) as Hs0.
  { destruct (Z.eq_dec s 0) as [E|]; [|lia]. rewrite E in Hfull. change (2 ^ 0) with 1 in Hfull.
    assert (B = 2 * 2 ^ 31) by done. lia. }
  change k_BITS_PER_BLOCK with 32. rewrite (proj2 (Z.leb_le _ _)) by lia.
  destruct (shifted_divisor_spec v s) as (V & EV & HVb & HVlen & HVval); [lia|apply Hv|lia|lia|].
  destruct (shifted_dividend_spec u s) as (U & EU & HUb & HUlen & HUval); [lia|apply Hu|lia|].
  rewrite EV, EU in Hexact |- *. cbn [mbind option_bind].
  change (radix (d_base init)) with B. change init with (native []) in *.
  assert (B <= 2 * get (native V) (length_of v - 1)) as HVtop.
  { apply (full_divisor v s V Hv Hn ltac:(lia) (proj2 Hfull) HVb HVlen HVval). }
  pose proof (divisor_bounds V (length_of v) HVb HVlen Hn HVtop) as [HVlow HVlt].
  assert (value (drop (S (length_of u - length_of v)) U) < value V) as Hfirst.
  { by apply (first_window u s U (length_of v)); [|lia..|]. }
  destruct (divide_loop_spec V (length_of v) HVb HVlen Hn HVtop (S (length_of u - length_of v)) U [])
    as (R & Q & E & HRb & HQb & HRlt & Hval);
    [exact HUb|constructor|exact Hfirst|reflexivity| |].
  { destruct Hexact as [H2|H]; [|exact H].
    exact (exact_digits_two V _ HVb HVlen Hn HVtop _ U [] H2 HUb (List.Forall_nil _) Hfirst). }
  rewrite E. cbn [mbind option_bind].
  pose proof (pow2_pos s ltac:(lia)) as Hp.
  pose proof (value_bounds _ HRb) as [HR0 _]. cbn [value] in Hval.
  assert (value R = (val u - value Q * val v) * 2 ^ s) as HRval.
  { rewrite HUval, HVval in Hval. clear - Hval. lia. }
  assert (value R < place (length_of v)) as HRn by (clear - HRlt HVlt; lia).
  destruct (remainder_val (length_of v) R s _ (conj Hs0 (proj2 Hs)) HRb HRval HRn) as (r & Er & Hrb & Hrval).
  change init with (native []) in Er. rewrite Er. cbn [mbind option_bind]. eexists _, _. split; [reflexivity|].
  split; [by apply native_wf|]. split; [by apply native_wf|]. rewrite !val_normalize, Hrval.
  clear - HRval HR0 HRlt HVval Hp. rewrite HVval in HRlt. rewrite HRval in *.
  split; [lia|]. split.
  - exact (proj1 (Z.mul_nonneg_cancel_r _ _ Hp) HR0).
  - exact (proj2 (Z.mul_lt_mono_pos_r (2 ^ s) _ _ Hp) HRlt).
Qed.

(** ** Division *)

Lemma divide_val quotient remainder u v :
  d_base quotient = e_NATIVE -> d_base remainder = e_NATIVE -> wf u -> wf v -> val v <> 0 ->
  length_of v = 1%nat \/
  get v (length_of v - 1) < 2 ^ 31 /\ (length_of v = 2%nat \/ exact_trials u v = true) ->
  exists q r, divide quotient remainder u v = Some (q, r) /\ wf q /\ wf r /\
    val u = val q * val v + val r /\ 0 <= val r < val v.
Proof.
  intros Hq Hr Hu Hv Hnz Hdivisor. unfold divide.
  rewrite Hq, Hr, (wf_base _ Hu), (wf_base _ Hv), !bool_decide_true by done.
  pose proof (value_bounds _ (wf_blocks _ Hu)) as [Hu0 _]. fold (val u) in Hu0.
  pose proof (value_bounds _ (wf_blocks _ Hv)) as [Hv0 _]. fold (val v) in Hv0.
  rewrite !isZero_spec, !isOne_spec by done. rewrite (proj2 (Z.eqb_neq (val v) 0) Hnz).
  change (reset quotient) with init. change (reset remainder) with init.
  pose proof init_representation_wf as Hi. assert (val init = 0) as Vi by done.
  destruct (Z.eqb_spec (val u) 0) as [E|Hu1].
  { exists init, init. rewrite Vi. split_and!; [done..|lia|lia|lia]. }
  destruct (Z.eqb_spec (val u) 1) as [E|Hu2].
  { destruct (Z.eqb_spec (val v) 1) as [E'|].
    - exists (native [1]), init. split; [reflexivity|]. rewrite Vi.
      change (val (native [1])) with 1. split_and!; [|done|lia..].
      by split; [|repeat constructor|].
    - exists init, u. rewrite Vi. split_and!; [done..|lia|lia|lia]. }
  destruct (Z.eqb_spec (val v) 1) as [E'|Hv1].
  { exists u, init. rewrite Vi. split_and!; [done..|lia|lia|lia]. }
  rewrite compare_val by done. destruct (Z.ltb_spec (Z.sgn (val u - val v)) 0).
  { exists init, u. rewrite Vi. split_and!; [done..|lia|lia|lia]. }
  destruct (Nat.eqb_spec (length_of v) 1); [by apply short_divide_val|].
  destruct Hdivisor as [|[Htop Hexact]]; [done|].
  apply long_divide_val; try done.
  - assert (length_of v <> 0%nat); [|lia]. intros Hz. unfold length_of in Hz.
    apply nil_length_inv in Hz. unfold val in Hnz. by rewrite Hz in Hnz.
  - destruct (Nat.le_gt_cases (length_of v) (length_of u)); [done|].
    pose proof (shorter_is_less u v Hu Hv ltac:(lia)). lia.
Qed.

(** A divisor of two or more blocks whose last block has its first bit set is
    not shifted, and the code then shifts by the whole width of a block. *)
Lemma clz_zero v : 2 ^ 31 <= v < B -> countLeadingZeroes v = 0.
Proof.
  intros Hv. destruct (countLeadingZeroes_spec v) as [Hs Hb]; [lia|]. cbn zeta in *.
  destruct (Z.eq_dec (countLeadingZeroes v) 0) as [|Hne]; [done|].
  assert (2 ^ 1 <= 2 ^ countLeadingZeroes v) by (apply Z.pow_le_mono_r; lia).
  assert (B = 2 ^ 31 * 2 ^ 1) by done. nia.
Qed.

Lemma divide_shift_undefined quotient remainder u v :
  d_base quotient = e_NATIVE -> d_base remainder = e_NATIVE -> wf u -> wf v ->
  (2 <= length_of v)%nat -> 2 ^ 31 <= get v (length_of v - 1) -> val v <= val u ->
  divide quotient remainder u v = None.
Proof.
  intros Hq Hr Hu Hv Hn Htop Hle. unfold divide.
  rewrite Hq, Hr, (wf_base _ Hu), (wf_base _ Hv), !bool_decide_true by done.
  assert (1 < val v) as Hv1.
  { pose proof (value_lower (d_data v) (wf_blocks _ Hv) (wf_normalized _ Hv)) as Hl.
    unfold length_of in Hn. fold (val v) in Hl.
    destruct (d_data v) as [|x [|y l]]; [cbn in Hn; lia..|]. specialize (Hl ltac:(done)).
    cbn [length pred] in Hl. rewrite place_S in Hl. pose proof (place_pos (length l)).
    pose proof B_large. nia. }
  rewrite !isZero_spec, !isOne_spec, !(proj2 (Z.eqb_neq _ _)) by (done || lia).
  rewrite compare_val by done. rewrite (proj2 (Z.ltb_ge _ _)) by lia.
  rewrite (proj2 (Nat.eqb_neq _ _)) by lia. unfold long_divide.
  rewrite clz_zero by (split; [done|apply get_bounds, Hv]).
  unfold shifted_divisor. replace (length_of v - 1)%nat with (S (length_of v - 2)) by lia.
  cbn [shift_loop]. unfold shift_up. destruct (shl _ 0); [|done]. done.
Qed.

End DivisionFacts.
