(* ===== verification/Integer.v ===== *)
(** * Integers of unbounded size: signed numbers, octets and text

    Models [ntsa::AbstractIntegerQuantity], [ntsa::AbstractInteger] and their
    utilities, and the text form of [ntsa::AbstractIntegerRepresentation]
    (src/groups/nts/ntsa/ntsa_abstract.h and .cpp).  A quantity is a
    representation.  The utilities take a target that may be an alias of an
    operand, which the argument [aliased] says; they then compute into a new
    object, which is empty.  A character is its code, an octet a number below
    256. *)

From S2P Require Import Prelude IntegerRepresentation IntegerDivision.

(** ** Quantities *)

Module AbstractIntegerQuantity.

Import AbstractIntegerBase AbstractIntegerRepresentation.

Definition quantity : Set := representation.

Section Util.

Context (aliased : bool).

Definition target (x : quantity) : quantity := if aliased then init else x.

Definition add (sum addend1 addend2 : quantity) : option quantity :=
  AbstractIntegerRepresentation.add (target sum) addend1 addend2.

Definition subtract (difference minuend subtrahend : quantity) : option quantity :=
  AbstractIntegerRepresentation.subtract (target difference) minuend subtrahend.

Definition multiply (product multiplicand multiplier : quantity) : option quantity :=
  AbstractIntegerRepresentation.multiply (target product) multiplicand multiplier.

Definition divide (quotient remainder dividend divisor : quantity)
  : option (quantity * quantity) :=
  Division.divide (target quotient) (target remainder) dividend divisor.

End Util.

(** *** Octets *)

Fixpoint skip_zeroes (input : list Z) : list Z :=
  match input with
  | 0 :: rest => skip_zeroes rest
  | _ => input
  end.

(** The loop of [decode], over the input from its end. *)
Fixpoint decode_loop (input : list Z) (j block : Z) (r : quantity)
  : option (Z * quantity) :=
  match input with
  | [] => Some (block, r)
  | octet :: rest =>
      let block := Z.lor block (wrap 32 (Z.shiftl octet (8 * j))) in
      if j + 1 =? 4 then
        r ← push r block;
        decode_loop rest 0 0 r
      else decode_loop rest (j + 1) block r
  end.

Definition decode (data : list Z) : option quantity :=
  match data with
  | [] => Some init
  | _ =>
      '(block, r) ← decode_loop (reverse (skip_zeroes data)) 0 0 init;
      r ← (if block =? 0 then Some r else push r block);
      Some (normalize r)
  end.

(** The octets of a block, most significant first. *)
Definition big_endian (block : Z) : list Z :=
  [Z.land (Z.shiftr block 24) 255; Z.land (Z.shiftr block 16) 255;
   Z.land (Z.shiftr block 8) 255; Z.land block 255].

(** The octets of a block of a positive number, given the octets before. *)
Definition encode_positive_block (value : Z) (result : list Z) : list Z :=
  let octets := big_endian value in
  match result with
  | [] =>
      let octets := skip_zeroes octets in
      match octets with
      | first :: _ =>
          if negb (Z.land first 128 =? 0) then 0 :: octets else octets
      | [] => octets
      end
  | _ => result ++ octets
  end.

(** Octets at the front that only repeat the sign. *)
Fixpoint skip_ones (octets : list Z) : list Z :=
  match octets with
  | octet :: rest =>
      match rest with
      | next :: _ =>
          if (octet =? 255) && negb (Z.land next 128 =? 0) then skip_ones rest else octets
      | [] => octets
      end
  | [] => []
  end.

Definition encode_negative_block (value : Z) (result : list Z) : list Z :=
  let value := wrap 32 (wrap 32 (Z.lnot value) + 1) in
  let octets := big_endian value in
  match result with
  | [] => skip_ones octets
  | _ => result ++ octets
  end.

Fixpoint encode_loop (i : nat) (r : quantity) (block : Z -> list Z -> list Z)
    (result : list Z) : list Z :=
  match i with
  | O => result
  | S i => encode_loop i r block (block (get r i) result)
  end.

Definition encode (r : quantity) (sign : AbstractIntegerSign.Value) : list Z :=
  if isZero r then [0]
  else match sign with
  | AbstractIntegerSign.e_POSITIVE =>
      if isOne r then [1] else encode_loop (length_of r) r encode_positive_block []
  | AbstractIntegerSign.e_NEGATIVE =>
      if isOne r then [255] else encode_loop (length_of r) r encode_negative_block []
  end.

End AbstractIntegerQuantity.

(** ** Text *)

Module Text.

Import AbstractIntegerSign AbstractIntegerBase AbstractIntegerRepresentation.

Definition is_decimal (ch : Z) : bool := (48 <=? ch) && (ch <=? 57).
Definition is_lower (ch : Z) : bool := (97 <=? ch) && (ch <=? 102).
Definition is_upper (ch : Z) : bool := (65 <=? ch) && (ch <=? 70).

(** The digit the code makes of a character. *)
Definition digit_of (base ch : Z) : option Z :=
  if base =? 10 then
    if is_decimal ch then Some (ch - 48) else None
  else if base =? 16 then
    if is_decimal ch then Some (ch - 48)
    else if is_lower ch then Some (ch - 97)
    else if is_upper ch then Some (ch - 65)
    else None
  else None.

(** The loop over the text from its end; [None] is the return of [false]. *)
Fixpoint digits_loop (base : Z) (text digits : list Z) : option (list Z) :=
  match text with
  | [] => Some digits
  | ch :: rest =>
      digit ← digit_of base ch;
      digits_loop base rest (digits ++ [digit])
  end.

Definition prefix_base (text : list Z) : option (Z * list Z) :=
  match text with
  | first :: ch :: rest =>
      if first =? 48 then
        if (ch =? 120) || (ch =? 88) then
          match rest with [] => None | _ => Some (16, rest) end
        else None
      else Some (10, text)
  | _ => Some (10, text)
  end.

Definition prefix_sign (base : Z) (text : list Z) : option (AbstractIntegerSign.Value * list Z) :=
  match text with
  | ch :: rest =>
      if ch =? 43 then
        if base =? 10 then Some (e_POSITIVE, rest) else None
      else if ch =? 45 then
        if base =? 10 then Some (e_NEGATIVE, rest) else None
      else Some (e_POSITIVE, text)
  | [] => Some (e_POSITIVE, text)
  end.

(** The number of digits most significant first. *)
Fixpoint accumulate (base : Z) (digits : list Z) (result : representation)
  : option representation :=
  match digits with
  | [] => Some result
  | value :: rest =>
      rhs ← assign init base;
      product ← multiply init result rhs;
      rhs ← assign init value;
      sum ← add init product rhs;
      accumulate base rest sum
  end.

(** The outcome of [parse]: whether the text is valid, the number and the
    sign.  The option is the assertion that there is a digit. *)
Definition parse (text : list Z) : option (bool * representation * AbstractIntegerSign.Value) :=
  match text with
  | [] => Some (false, init, e_POSITIVE)
  | _ =>
      if bool_decide (text = [48]) then Some (true, init, e_POSITIVE) else
      match prefix_base text with
      | None => Some (false, init, e_POSITIVE)
      | Some (base, text) =>
          match prefix_sign base text with
          | None => Some (false, init, e_POSITIVE)
          | Some (sign, []) => Some (false, init, sign)
          | Some (sign, text) =>
              match digits_loop base (reverse text) [] with
              | None => Some (false, init, sign)
              | Some digits =>
                  let digits := normalize_data digits in
                  assert! negb (bool_decide (digits = [])) ;;
                  result ← accumulate base (reverse digits) init;
                  Some (true, normalize result, sign)
              end
          end
      end
  end.

Definition digit_char (value : Z) : Z :=
  wrap 8 (if value <? 10 then 48 + value else 97 + (value - 10)).

(** The loop of [generate] that divides by the radix: every round takes at
    least one bit off the number. *)
Fixpoint generate_digits (fuel : nat) (dividend divisor : representation)
  : option (list Z) :=
  if isZero dividend then Some []
  else match fuel with
  | O => None
  | S fuel =>
      '(quotient, remainder) ← Division.divide init init dividend divisor;
      digits ← generate_digits fuel quotient divisor;
      Some (get remainder 0 :: digits)
  end.

Definition generate (value : representation) (sign : AbstractIntegerSign.Value) (base : AbstractIntegerBase.Value)
  : option (list Z) :=
  match length_of value with
  | O => Some [48]
  | S last =>
      if bool_decide (base = d_base value) then
        Some ((if decide (sign = e_NEGATIVE) then [45] else []) ++
              map digit_char (reverse (d_data value)))
      else
        divisor ← assign init (radix base);
        digits ← generate_digits (32 * length_of value) value divisor;
        Some (reverse (map digit_char digits ++
                       (if decide (sign = e_NEGATIVE) then [45] else [])))
  end.

End Text.

(** ** Signed numbers *)

Module AbstractInteger.

Import AbstractIntegerSign AbstractIntegerRepresentation.

Record integer : Set := {
  d_sign : AbstractIntegerSign.Value;
  d_magnitude : AbstractIntegerQuantity.quantity;
}.

Definition init : integer :=
  {| d_sign := e_POSITIVE; d_magnitude := AbstractIntegerRepresentation.init |}.

Definition isZero (x : integer) : bool := AbstractIntegerRepresentation.isZero (d_magnitude x).

Definition normalize (x : integer) : integer :=
  if isZero x then {| d_sign := e_POSITIVE; d_magnitude := d_magnitude x |} else x.

Definition negate (x : integer) : integer :=
  {| d_sign := flip (d_sign x); d_magnitude := d_magnitude x |}.

(** [assign(long long)]; the negation of the least value is undefined. *)
Definition assign (x : integer) (value : Z) : option integer :=
  if value =? 0 then Some init
  else if 0 <? value then
    magnitude ← AbstractIntegerRepresentation.assign (d_magnitude x) value;
    Some {| d_sign := e_POSITIVE; d_magnitude := magnitude |}
  else
    assert! negb (value =? S64_MIN) ;;
    magnitude ← AbstractIntegerRepresentation.assign (d_magnitude x) (- value);
    Some {| d_sign := e_NEGATIVE; d_magnitude := magnitude |}.

Definition equals (x other : integer) : bool :=
  bool_decide (d_sign x = d_sign other)
  && AbstractIntegerRepresentation.equals (d_magnitude x) (d_magnitude other).

Definition compare (x other : integer) : Z :=
  if multiplier (d_sign x) <? multiplier (d_sign other) then -1
  else if multiplier (d_sign other) <? multiplier (d_sign x) then 1
  else AbstractIntegerRepresentation.compare (d_magnitude x) (d_magnitude other).

Section Util.

Context (aliased : bool).

Definition target (x : integer) : integer := if aliased then init else x.

Definition add (sum addend1 addend2 : integer) : option integer :=
  let w := target sum in
  let u := addend1 in
  let v := addend2 in
  w ←
    (if isZero u then Some v
     else if isZero v then Some u
     else if decide (d_sign u = d_sign v) then
       m ← AbstractIntegerQuantity.add false (d_magnitude w) (d_magnitude u) (d_magnitude v);
       Some {| d_sign := d_sign u; d_magnitude := m |}
     else
       let comparison := AbstractIntegerRepresentation.compare (d_magnitude u) (d_magnitude v) in
       if comparison =? 0 then Some init
       else if 0 <? comparison then
         m ← AbstractIntegerQuantity.subtract false (d_magnitude w) (d_magnitude u) (d_magnitude v);
         Some {| d_sign := d_sign u; d_magnitude := m |}
       else
         m ← AbstractIntegerQuantity.subtract false (d_magnitude w) (d_magnitude v) (d_magnitude u);
         Some {| d_sign := d_sign v; d_magnitude := m |});
  Some (normalize w).

Definition subtract (difference minuend subtrahend : integer) : option integer :=
  let w := target difference in
  let u := minuend in
  let v := subtrahend in
  w ←
    (if isZero u then Some {| d_sign := flip (d_sign v); d_magnitude := d_magnitude v |}
     else if isZero v then Some u
     else if decide (d_sign u <> d_sign v) then
       m ← AbstractIntegerQuantity.add false (d_magnitude w) (d_magnitude u) (d_magnitude v);
       Some {| d_sign := d_sign u; d_magnitude := m |}
     else
       let comparison := AbstractIntegerRepresentation.compare (d_magnitude u) (d_magnitude v) in
       if comparison =? 0 then Some init
       else if 0 <? comparison then
         m ← AbstractIntegerQuantity.subtract false (d_magnitude w) (d_magnitude u) (d_magnitude v);
         Some {| d_sign := d_sign u; d_magnitude := m |}
       else
         m ← AbstractIntegerQuantity.subtract false (d_magnitude w) (d_magnitude v) (d_magnitude u);
         Some {| d_sign := flip (d_sign v); d_magnitude := m |});
  Some (normalize w).

Definition multiply (product multiplicand multiplier : integer) : option integer :=
  let w := target product in
  let u := multiplicand in
  let v := multiplier in
  w ←
    (if isZero u || isZero v then Some init
     else
       m ← AbstractIntegerQuantity.multiply false (d_magnitude w) (d_magnitude u) (d_magnitude v);
       Some {| d_sign := if decide (d_sign u = d_sign v) then e_POSITIVE else e_NEGATIVE;
               d_magnitude := m |});
  Some (normalize w).

(** The remainder has its own target, an alias of an operand or not. *)
Definition divide (remainder_aliased : bool) (quotient remainder dividend divisor : integer)
  : option (integer * integer) :=
  let w := target quotient in
  let x := if remainder_aliased then init else remainder in
  let u := dividend in
  let v := divisor in
  '(w, x) ←
    (if isZero u then Some (init, init)
     else if isZero v then Some (init, v)
     else
       '(q, r) ← AbstractIntegerQuantity.divide false (d_magnitude w) (d_magnitude x)
                   (d_magnitude u) (d_magnitude v);
       Some (if decide (d_sign u = d_sign v) then
               ({| d_sign := e_POSITIVE; d_magnitude := q |},
                {| d_sign := if bool_decide (d_sign v = e_NEGATIVE)
                                || bool_decide (d_sign u = e_NEGATIVE)
                             then e_NEGATIVE else e_POSITIVE;
                   d_magnitude := r |})
             else
               ({| d_sign := e_NEGATIVE; d_magnitude := q |},
                {| d_sign := if decide (d_sign u = e_NEGATIVE) then e_NEGATIVE else e_POSITIVE;
                   d_magnitude := r |})));
  Some (normalize w, normalize x).

End Util.

(** *** Octets *)

Definition encode (x : integer) : list Z :=
  AbstractIntegerQuantity.encode (d_magnitude x) (d_sign x).

Definition decode (data : list Z) : option integer :=
  match data with
  | [] => Some init
  | first :: rest =>
      if Z.land first 128 =? 0 then
        magnitude ← AbstractIntegerQuantity.decode data;
        Some {| d_sign := e_POSITIVE; d_magnitude := magnitude |}
      else
        u ← AbstractIntegerQuantity.decode (Z.land first 127 :: rest);
        v ← AbstractIntegerQuantity.decode (Z.land first 128 :: replicate (length rest) 0);
        assert! 0 <? AbstractIntegerRepresentation.compare v u ;;
        w ← AbstractIntegerQuantity.subtract false AbstractIntegerRepresentation.init v u;
        Some {| d_sign := e_NEGATIVE; d_magnitude := w |}
  end.

(** *** Text *)

Definition parse (text : list Z) : option (bool * integer) :=
  '(ok, magnitude, sign) ← Text.parse text;
  Some (ok, {| d_sign := sign; d_magnitude := magnitude |}).

Definition generate (x : integer) (base : AbstractIntegerBase.Value) : option (list Z) :=
  Text.generate (d_magnitude x) (d_sign x) base.

End AbstractInteger.

(** ** Arithmetic on signed numbers *)

Module IntegerArithmetic.

Import AbstractIntegerSign AbstractIntegerBase AbstractIntegerRepresentation Magnitude Arithmetic.
Import AbstractInteger.

(** The number an object stands for. *)
Definition int (x : integer) : Z := multiplier (d_sign x) * val (d_magnitude x).

Record wf (x : integer) : Prop := {
  wf_magnitude : Magnitude.wf (d_magnitude x);
  wf_sign : val (d_magnitude x) = 0 -> d_sign x = e_POSITIVE;
}.

(** A target: an object in the native base. *)
Definition native_target (x : integer) : Prop := d_base (d_magnitude x) = e_NATIVE.

Lemma val_nonneg r : Magnitude.wf r -> 0 <= val r.
Proof. intros [_ Hb _]. by apply value_bounds. Qed.

Lemma target_native aliased x : native_target x -> native_target (target aliased x).
Proof. by destruct aliased. Qed.

Lemma init_int_wf : wf init.
Proof. split; [apply Arithmetic.init_representation_wf|done]. Qed.

Lemma isZero_int x : wf x -> isZero x = (int x =? 0).
Proof.
  intros [Hw _]. unfold isZero, int. rewrite isZero_spec by done.
  apply eq_true_iff_eq. rewrite !Z.eqb_eq. destruct (d_sign x); cbn [multiplier]; lia.
Qed.

(** Every result is normalized before it is stored. *)
Lemma normalize_int x :
  Magnitude.wf (d_magnitude x) -> wf (normalize x) /\ int (normalize x) = int x.
Proof.
  intros Hw. unfold normalize, isZero. rewrite isZero_spec by done.
  destruct (Z.eqb_spec (val (d_magnitude x)) 0) as [E|E].
  - split; [by split|]. unfold int. cbn. rewrite E. lia.
  - split; [by split|done].
Qed.

(** A sign and a magnitude of the right value make the result of an operation. *)
Lemma result_int o sign z :
  (exists m, o = Some m /\ Magnitude.wf m /\ multiplier sign * val m = z) ->
  exists w, (w ← (m ← o; Some {| d_sign := sign; d_magnitude := m |}); Some (normalize w)) = Some w /\
    wf w /\ int w = z.
Proof.
  intros (m & -> & Hm & Hz). cbn [mbind option_bind].
  destruct (normalize_int {| d_sign := sign; d_magnitude := m |} Hm) as [Hw Hv].
  eexists. split; [done|]. split; [done|]. rewrite Hv. exact Hz.
Qed.

Lemma operand_int (x : integer) z :
  Magnitude.wf (d_magnitude x) -> int x = z ->
  exists w, Some (normalize x) = Some w /\ wf w /\ int w = z.
Proof.
  intros Hx Hz. destruct (normalize_int x Hx) as [Hw Hv]. eexists. split; [done|]. split; [done|]. lia.
Qed.

Ltac magnitude_op H :=
  let m := fresh "m" in let E := fresh "E" in let Hm := fresh "Hm" in let Hv := fresh "Hv" in
  destruct H as (m & E & Hm & Hv);
  apply result_int; exists m; split; [exact E|split; [exact Hm|rewrite Hv]].

Lemma add_int aliased sum u v :
  native_target sum -> wf u -> wf v ->
  exists w, add aliased sum u v = Some w /\ wf w /\ int w = int u + int v.
Proof.
  intros Hs Hu Hv. unfold add. apply (target_native aliased) in Hs.
  rewrite !isZero_int by done.
  destruct (Z.eqb_spec (int u) 0) as [Zu|Zu]; [apply operand_int; [apply Hv|lia]|].
  destruct (Z.eqb_spec (int v) 0) as [Zv|Zv]; [apply operand_int; [apply Hu|lia]|].
  pose proof (wf_magnitude _ Hu) as Mu. pose proof (wf_magnitude _ Hv) as Mv. unfold int in *.
  pose proof (val_nonneg _ Mu). pose proof (val_nonneg _ Mv).
  case_decide as Hsign.
  { rewrite Hsign. magnitude_op (add_val _ _ _ Hs Mu Mv). lia. }
  rewrite compare_val by done.
  destruct (Z.eqb_spec (Z.sgn (val (d_magnitude u) - val (d_magnitude v))) 0) as [Hc|Hc].
  { apply operand_int; [apply Arithmetic.init_representation_wf|]. apply (proj1 (Z.sgn_null_iff _)) in Hc.
    change (int init) with 0. destruct (d_sign u), (d_sign v); first [congruence|cbn [multiplier flip]; lia]. }
  destruct (Z.ltb_spec 0 (Z.sgn (val (d_magnitude u) - val (d_magnitude v)))).
  - magnitude_op (subtract_val _ _ _ Hs Mu Mv). rewrite Z.max_r by lia.
    destruct (d_sign u), (d_sign v); first [congruence|cbn [multiplier flip]; lia].
  - magnitude_op (subtract_val _ _ _ Hs Mv Mu). rewrite Z.max_r by lia.
    destruct (d_sign u), (d_sign v); first [congruence|cbn [multiplier flip]; lia].
Qed.

Lemma flip_multiplier sign : multiplier (flip sign) = - multiplier sign.
Proof. by destruct sign. Qed.

Lemma subtract_int aliased difference u v :
  native_target difference -> wf u -> wf v ->
  exists w, subtract aliased difference u v = Some w /\ wf w /\ int w = int u - int v.
Proof.
  intros Hs Hu Hv. unfold subtract. apply (target_native aliased) in Hs.
  rewrite !isZero_int by done.
  destruct (Z.eqb_spec (int u) 0) as [Zu|Zu].
  { apply operand_int; [apply Hv|]. unfold int in *. cbn. rewrite flip_multiplier. lia. }
  destruct (Z.eqb_spec (int v) 0) as [Zv|Zv]; [apply operand_int; [apply Hu|lia]|].
  pose proof (wf_magnitude _ Hu) as Mu. pose proof (wf_magnitude _ Hv) as Mv. unfold int in *.
  pose proof (val_nonneg _ Mu). pose proof (val_nonneg _ Mv).
  case_decide as Hsign.
  { magnitude_op (add_val _ _ _ Hs Mu Mv).
    destruct (d_sign u), (d_sign v); first [congruence|cbn [multiplier flip]; lia]. }
  rewrite compare_val by done.
  destruct (Z.eqb_spec (Z.sgn (val (d_magnitude u) - val (d_magnitude v))) 0) as [Hc|Hc].
  { apply operand_int; [apply Arithmetic.init_representation_wf|]. apply (proj1 (Z.sgn_null_iff _)) in Hc.
    change (int init) with 0. destruct (d_sign u), (d_sign v); first [congruence|cbn [multiplier flip]; lia]. }
  destruct (Z.ltb_spec 0 (Z.sgn (val (d_magnitude u) - val (d_magnitude v)))).
  - magnitude_op (subtract_val _ _ _ Hs Mu Mv). rewrite Z.max_r by lia.
    destruct (d_sign u), (d_sign v); first [congruence|cbn [multiplier flip]; lia].
  - magnitude_op (subtract_val _ _ _ Hs Mv Mu). rewrite Z.max_r by lia. rewrite flip_multiplier.
    destruct (d_sign u), (d_sign v); first [congruence|cbn [multiplier flip]; lia].
Qed.

Lemma multiply_int aliased product u v :
  native_target product -> aliased = true \/ d_data (d_magnitude product) = [] -> wf u -> wf v ->
  exists w, multiply aliased product u v = Some w /\ wf w /\ int w = int u * int v.
Proof.
  intros Hs Hempty Hu Hv. unfold multiply. apply (target_native aliased) in Hs.
  assert (d_data (d_magnitude (target aliased product)) = []) as He.
  { destruct Hempty as [->| H]; [done|]. by destruct aliased. }
  rewrite !isZero_int by done.
  destruct (Z.eqb_spec (int u) 0) as [Zu|Zu].
  { cbn [orb]. apply operand_int; [apply Arithmetic.init_representation_wf|]. change (int init) with 0. lia. }
  destruct (Z.eqb_spec (int v) 0) as [Zv|Zv].
  { cbn [orb]. apply operand_int; [apply Arithmetic.init_representation_wf|]. change (int init) with 0. lia. }
  cbn [orb]. unfold int in *.
  magnitude_op (multiply_fresh _ _ _ Hs He (wf_magnitude _ Hu) (wf_magnitude _ Hv)).
  case_decide; destruct (d_sign u), (d_sign v); first [congruence|cbn [multiplier]; lia].
Qed.

Lemma neg1_mul x : -1 * x = - x.
Proof. lia. Qed.

(** Division truncates towards zero, as [Z.quot] and [Z.rem] do. *)
Lemma divide_int aliased1 aliased2 quotient remainder u v :
  native_target quotient -> native_target remainder -> wf u -> wf v -> int v <> 0 ->
  length_of (d_magnitude v) = 1%nat \/
  get (d_magnitude v) (length_of (d_magnitude v) - 1) < 2 ^ 31 /\
  (length_of (d_magnitude v) = 2%nat \/ Division.exact_trials (d_magnitude u) (d_magnitude v) = true) ->
  exists q r, divide aliased1 aliased2 quotient remainder u v = Some (q, r) /\ wf q /\ wf r /\
    int q = Z.quot (int u) (int v) /\ int r = Z.rem (int u) (int v).
Proof.
  intros Hq Hr Hu Hv Hnz Hd. unfold divide.
  apply (target_native aliased1) in Hq.
  assert (native_target (if aliased2 then init else remainder)) as Hr' by by destruct aliased2.
  set (x := if aliased2 then init else remainder) in *.
  rewrite !isZero_int by done. rewrite (proj2 (Z.eqb_neq (int v) 0) Hnz).
  destruct (Z.eqb_spec (int u) 0) as [Zu|Zu].
  { exists init, init. rewrite Zu. split; [done|]. pose proof init_int_wf.
    split_and!; [done..|by rewrite Z.quot_0_l|by rewrite Z.rem_0_l]. }
  pose proof (wf_magnitude _ Hu) as Mu. pose proof (wf_magnitude _ Hv) as Mv. unfold int in Zu, Hnz.
  assert (val (d_magnitude v) <> 0) as Vnz by lia.
  destruct (DivisionFacts.divide_val _ _ _ _ Hq Hr' Mu Mv Vnz Hd) as (q & r & E & Wq & Wr & Hval & Hlt).
  unfold AbstractIntegerQuantity.divide, AbstractIntegerQuantity.target. rewrite E. cbn [mbind option_bind].
  pose proof (val_nonneg _ Mu) as Pu. pose proof (val_nonneg _ Wq) as Pq.
  assert (val q = Z.quot (val (d_magnitude u)) (val (d_magnitude v)) /\
          val r = Z.rem (val (d_magnitude u)) (val (d_magnitude v))) as [Eq Er].
  { rewrite Z.quot_div_nonneg, Z.rem_mod_nonneg by lia.
    split; [apply (Z.div_unique _ _ _ (val r))|apply (Z.mod_unique _ _ (val q))]; lia. }
  assert (forall sq sr,
    int {| d_sign := sq; d_magnitude := q |} = Z.quot (int u) (int v) ->
    int {| d_sign := sr; d_magnitude := r |} = Z.rem (int u) (int v) ->
    exists q' r', Some (normalize {| d_sign := sq; d_magnitude := q |},
                        normalize {| d_sign := sr; d_magnitude := r |}) = Some (q', r') /\
      wf q' /\ wf r' /\ int q' = Z.quot (int u) (int v) /\ int r' = Z.rem (int u) (int v)) as Hfin.
  { intros sq sr H1 H2.
    destruct (normalize_int {| d_sign := sq; d_magnitude := q |} Wq) as [W1 E1].
    destruct (normalize_int {| d_sign := sr; d_magnitude := r |} Wr) as [W2 E2].
    eexists _, _. split; [done|]. rewrite E1, E2. done. }
  unfold int in *. cbn [d_sign d_magnitude] in *. rewrite Eq, Er in Hfin.
  destruct (d_sign u), (d_sign v); cbn [multiplier decide bool_decide orb] in *; apply Hfin;
    cbn [multiplier]; rewrite ?neg1_mul, ?Z.mul_1_l, ?Z.quot_opp_l, ?Z.quot_opp_r, ?Z.rem_opp_l, ?Z.rem_opp_r
      by lia; rewrite ?Z.opp_involutive; reflexivity.
Qed.

Lemma compare_int x y :
  wf x -> wf y ->
  compare x y = if bool_decide (d_sign x = e_NEGATIVE) && bool_decide (d_sign y = e_NEGATIVE)
                then Z.sgn (int y - int x) else Z.sgn (int x - int y).
Proof.
  intros Hx Hy. unfold compare, int.
  pose proof (wf_magnitude _ Hx) as Mx. pose proof (wf_magnitude _ Hy) as My.
  pose proof (val_nonneg _ Mx). pose proof (val_nonneg _ My).
  pose proof (wf_sign _ Hx) as Sx. pose proof (wf_sign _ Hy) as Sy.
  rewrite compare_val by done.
  destruct (d_sign x), (d_sign y); cbn -[Z.sgn Z.mul val]; try (f_equal; lia).
  - symmetry. apply Z.sgn_neg. assert (val (d_magnitude x) <> 0) by (intros E; by specialize (Sx E)). lia.
  - symmetry. apply Z.sgn_pos. assert (val (d_magnitude y) <> 0) by (intros E; by specialize (Sy E)). lia.
Qed.

End IntegerArithmetic.

(** ** Octets *)

Module Octets.

Import AbstractIntegerSign AbstractIntegerBase AbstractIntegerRepresentation Magnitude Arithmetic.
Import AbstractIntegerQuantity.

Definition octets (data : list Z) : Prop := Forall (fun octet => 0 <= octet < 256) data.

(** The number that octets stand for, most significant first. *)
Definition be_value (data : list Z) : Z := foldl (fun acc octet => 256 * acc + octet) 0 data.

(** The number that octets stand for in two's complement. *)
Definition signed_value (data : list Z) : Z :=
  match data with
  | [] => 0
  | first :: _ =>
      if 128 <=? first then be_value data - 256 ^ size data else be_value data
  end.

(** No octet at the front could be left out. *)
Definition minimal (data : list Z) : Prop :=
  match data with
  | first :: next :: _ => ~ (first = 0 /\ next < 128) /\ ~ (first = 255 /\ 128 <= next)
  | _ => True
  end.

Lemma be_value_snoc l x : be_value (l ++ [x]) = 256 * be_value l + x.
Proof. unfold be_value. by rewrite foldl_app. Qed.

Lemma be_value_app l k : be_value (l ++ k) = be_value l * 256 ^ size k + be_value k.
Proof.
  induction k as [|x k IH] using rev_ind.
  - rewrite app_nil_r. change (size (@nil Z)) with 0. change (be_value []) with 0. lia.
  - rewrite app_assoc, !be_value_snoc, IH, size_app, Z.pow_add_r by apply size_nonneg.
    change (256 ^ size [x]) with 256. ring.
Qed.

Lemma be_value_cons x l : be_value (x :: l) = x * 256 ^ size l + be_value l.
Proof. change (x :: l) with ([x] ++ l). rewrite be_value_app. f_equal. Qed.

Lemma be_value_bounds l : octets l -> 0 <= be_value l < 256 ^ size l.
Proof.
  induction l as [|x l IH]; intros Hl; [done|].
  pose proof (Forall_inv Hl) as Hx. pose proof (IH (Forall_inv_tail Hl)).
  rewrite be_value_cons, size_cons, Z.pow_add_r by (pose proof (size_nonneg l); lia).
  change (256 ^ 1) with 256. cbn in Hx. nia.
Qed.

Lemma be_value_skip_zeroes l : be_value (skip_zeroes l) = be_value l.
Proof.
  induction l as [|x l IH]; [done|]. destruct x; [|done..]. cbn [skip_zeroes].
  rewrite be_value_cons, IH. lia.
Qed.

Lemma octets_skip_zeroes l : octets l -> octets (skip_zeroes l).
Proof. induction 1 as [|x l Hx Hl IH]; [constructor|]. destruct x; [done|by constructor..]. Qed.

Lemma be_value_replicate n : be_value (replicate n 0) = 0.
Proof. induction n as [|n IH]; [done|]. cbn [replicate]. rewrite be_value_cons, IH. lia. Qed.

(** *** Decoding *)

Lemma pow_256_2 j : 0 <= j -> 256 ^ j = 2 ^ (8 * j).
Proof. intros. by rewrite Z.pow_mul_r by lia. Qed.

Lemma decode_loop_spec input j block data :
  octets input -> blocks data -> 0 <= j < 4 -> 0 <= block < 256 ^ j ->
  exists block' data',
    decode_loop input j block (native data) = Some (block', native data') /\
    blocks data' /\ 0 <= block' < B /\
    value data' + block' * place (length data') =
    value data + (block + be_value (reverse input) * 256 ^ j) * place (length data).
Proof.
  intros Hin. revert j block data. induction Hin as [|x input Hx Hin IH]; intros j block data Hd Hj Hb.
  { exists block, data. split; [done|]. split; [done|]. split.
    - assert (256 ^ j <= 256 ^ 3) by (apply Z.pow_le_mono_r; lia). unfold B. lia.
    - change (be_value (reverse [])) with 0. lia. }
  cbn [decode_loop]. rewrite reverse_cons, be_value_snoc.
  assert (256 ^ (j + 1) = 256 * 256 ^ j) as Hp by (rewrite Z.pow_add_r by lia; lia).
  assert (256 ^ (j + 1) <= 256 ^ 4) as Hp4 by (apply Z.pow_le_mono_r; lia).
  assert (0 <= x * 256 ^ j <= 255 * 256 ^ j) as Hxj by (split; [|apply Z.mul_le_mono_nonneg_r]; nia).
  assert (Z.lor block (wrap 32 (Z.shiftl x (8 * j))) = block + x * 256 ^ j) as ->.
  { rewrite Z.shiftl_mul_pow2, <- pow_256_2 by lia.
    rewrite wrap_small by (change (2 ^ 32) with (256 ^ 4); lia).
    rewrite pow_256_2 in * by lia. rewrite Z.lor_comm, lor_disjoint by lia. lia. }
  destruct (Z.eqb_spec (j + 1) 4) as [E|E].
  - rewrite push_native by (unfold B; lia). cbn [mbind option_bind].
    destruct (IH 0 0 (data ++ [block + x * 256 ^ j])) as (b' & d' & E' & Hd' & Hb' & Hv); [|lia|done|].
    { apply blocks_snoc; [done|]. unfold B. lia. }
    exists b', d'. split_and!; [done..|lia|lia|]. rewrite Hv, value_app, length_app, place_add.
    cbn [length value]. change (place 1) with (256 ^ 4). rewrite <- E, Hp. change (256 ^ 0) with 1. ring.
  - destruct (IH (j + 1) (block + x * 256 ^ j) data) as (b' & d' & E' & Hd' & Hb' & Hv); [done|lia|lia|].
    exists b', d'. split_and!; [done..|lia|lia|]. rewrite Hv, Hp. ring.
Qed.

Lemma decode_val data :
  octets data -> exists r, decode data = Some r /\ Magnitude.wf r /\ val r = be_value data.
Proof.
  intros Hd. destruct data as [|x data].
  { exists init. split; [done|]. split; [apply Arithmetic.init_representation_wf|done]. }
  unfold decode.
  set (input := x :: data) in *.
  destruct (decode_loop_spec (reverse (skip_zeroes input)) 0 0 []) as (block & r & E & Hb & Hbl & Hv);
    [by apply Forall_reverse, octets_skip_zeroes|constructor|done|done|].
  change init with (native []). rewrite E. cbn [mbind option_bind].
  rewrite reverse_involutive, be_value_skip_zeroes in Hv. cbn [value length] in Hv. rewrite place_0 in Hv.
  change (256 ^ 0) with 1 in Hv.
  destruct (Z.eqb_spec block 0) as [->|Hnz]; cbn [mbind option_bind].
  - eexists. split; [done|]. split; [by apply native_wf|]. rewrite val_normalize. lia.
  - rewrite push_native by lia. cbn [mbind option_bind]. eexists. split; [done|].
    split; [by apply native_wf, blocks_snoc|]. rewrite val_normalize, value_app. cbn [value]. lia.
Qed.

Lemma land_sign octet : 0 <= octet < 256 -> Z.land octet 128 = if 128 <=? octet then 128 else 0.
Proof.
  intros Ho. assert (forallb (fun n => Z.land (Z.of_nat n) 128 =? (if 128 <=? Z.of_nat n then 128 else 0))
    (seq 0 256) = true) as H by (vm_compute; reflexivity).
  rewrite forallb_forall in H. specialize (H (Z.to_nat octet)).
  rewrite Z2Nat.id in H by lia. apply Z.eqb_eq, H, in_seq. lia.
Qed.

Lemma land_127 octet : Z.land octet 127 = octet mod 128.
Proof. change 127 with (Z.ones 7). by rewrite Z.land_ones. Qed.

Lemma decode_int data :
  octets data ->
  exists x, AbstractInteger.decode data = Some x /\ IntegerArithmetic.wf x /\
    IntegerArithmetic.int x = signed_value data.
Proof.
  intros Hd. destruct data as [|first rest].
  { exists AbstractInteger.init. split_and!; [done|apply IntegerArithmetic.init_int_wf|done]. }
  pose proof (Forall_inv Hd) as Hf. pose proof (Forall_inv_tail Hd) as Hrest. cbn in Hf.
  unfold AbstractInteger.decode, signed_value. rewrite land_sign by done.
  destruct (Z.leb_spec 128 first) as [Hneg|Hpos].
  2: { cbn [Z.eqb]. destruct (decode_val _ Hd) as (r & E & Hw & Hv). rewrite E. cbn [mbind option_bind].
    eexists. split; [done|]. split; [by split|]. rewrite <- Hv.
    unfold IntegerArithmetic.int. apply Z.mul_1_l. }
  change (128 =? 0) with false. cbn iota. rewrite land_127.
  pose proof (Z.mod_pos_bound first 128 ltac:(lia)).
  destruct (decode_val (first mod 128 :: rest)) as (u & Eu & Wu & Vu); [constructor; [lia|done]|].
  destruct (decode_val (128 :: replicate (length rest) 0)) as (v & Ev & Wv & Vv).
  { constructor; [lia|]. by apply Forall_replicate. }
  rewrite Eu, Ev. cbn [mbind option_bind]. rewrite !be_value_cons in *.
  rewrite be_value_replicate in Vv.
  assert (size (replicate (length rest) 0) = size rest) as Hsz.
  { unfold size. by rewrite length_replicate. }
  rewrite Hsz in Vv. pose proof (be_value_bounds rest Hrest) as Hb.
  assert (first mod 128 = first - 128) as Hm.
  { symmetry. apply (Z.mod_unique _ _ 1); lia. }
  rewrite Hm in Vu.
  assert (val u < val v) as Hlt by nia.
  rewrite compare_val, Z.sgn_pos by first [lia|assumption]. change (0 <? 1) with true. cbn iota.
  destruct (subtract_val init v u) as (w & E & Ww & Vw); [done..|].
  unfold AbstractIntegerQuantity.subtract, target. rewrite E. cbn [mbind option_bind].
  eexists. split; [done|]. rewrite Z.max_r in Vw by lia.
  split; [split; [done|cbn [AbstractInteger.d_magnitude]; lia]|].
  unfold IntegerArithmetic.int. cbn [AbstractInteger.d_sign AbstractInteger.d_magnitude multiplier].
  rewrite size_cons, Z.pow_add_r by (pose proof (size_nonneg rest); lia).
  change (256 ^ 1) with 256. rewrite Vw, Vv, Vu. ring.
Qed.

(** *** Encoding *)

Lemma big_endian_octets x : 0 <= x -> octets (big_endian x).
Proof.
  intros Hx. assert (forall z, 0 <= Z.land z 255 < 256) as H.
  { intros z. change 255 with (Z.ones 8). rewrite Z.land_ones by lia. apply Z.mod_pos_bound. lia. }
  unfold big_endian. repeat constructor; apply H.
Qed.

Lemma big_endian_value x : 0 <= x < B -> be_value (big_endian x) = x.
Proof.
  intros Hx. unfold big_endian, be_value. cbn [foldl].
  change 255 with (Z.ones 8). rewrite !Z.land_ones, !Z.shiftr_div_pow2 by lia.
  change (2 ^ 24) with (2 ^ 8 * 2 ^ 8 * 2 ^ 8). change (2 ^ 16) with (2 ^ 8 * 2 ^ 8).
  change (2 ^ 8) with 256. rewrite <- !Z.div_div by lia.
  pose proof (Z.div_mod x 256 ltac:(lia)). pose proof (Z.div_mod (x / 256) 256 ltac:(lia)).
  pose proof (Z.div_mod (x / 256 / 256) 256 ltac:(lia)).
  assert (x / 256 / 256 / 256 < 256) as Hlt.
  { rewrite !Z.div_div by lia. apply Z.div_lt_upper_bound; [lia|]. unfold B in Hx. lia. }
  assert (0 <= x / 256 / 256 / 256) as Hge by (repeat apply Z.div_pos; lia).
  rewrite (Z.mod_small (x / 256 / 256 / 256)) by lia. lia.
Qed.

Lemma octets_app l k : octets l -> octets k -> octets (l ++ k).
Proof. intros. by apply Forall_app. Qed.

Lemma big_endian_size x : size (big_endian x) = 4.
Proof. done. Qed.

(** What the octets of a positive number satisfy while they are produced: the
    sign is not set, and a zero at the front is needed. *)
Definition positive_lead (result : list Z) : Prop :=
  match result with
  | [] => True
  | first :: rest =>
      first < 128 /\ (first = 0 -> match rest with next :: _ => 128 <= next | [] => False end)
  end.

Record positive_octets (result : list Z) (z : Z) : Prop := {
  po_octets : octets result;
  po_value : be_value result = z;
  po_lead : positive_lead result;
}.

Lemma skip_zeroes_head l first rest : skip_zeroes l = first :: rest -> first <> 0.
Proof.
  induction l as [|x l IH]; [done|]. destruct x; cbn [skip_zeroes]; [done|intros [= <- _]; lia..].
Qed.

Lemma encode_positive_block_spec x result z :
  0 <= x < B -> positive_octets result z ->
  positive_octets (encode_positive_block x result) (B * z + x).
Proof.
  intros Hx [Ho Hv Hl]. unfold encode_positive_block.
  pose proof (big_endian_octets x ltac:(lia)) as Hbo. pose proof (big_endian_value x Hx) as Hbv.
  destruct result as [|first rest].
  - change (be_value []) with 0 in Hv. subst z. rewrite Z.mul_0_r, Z.add_0_l.
    apply octets_skip_zeroes in Hbo. rewrite <- be_value_skip_zeroes in Hbv.
    destruct (skip_zeroes (big_endian x)) as [|o os] eqn:E; [by split|].
    apply skip_zeroes_head in E. pose proof (Forall_inv Hbo) as Hr. cbn in Hr.
    rewrite land_sign by done.
    destruct (Z.leb_spec 128 o); cbn.
    + split; [by constructor|by rewrite be_value_cons|cbn; lia].
    + split; [done|done|cbn; lia].
  - split.
    + by apply octets_app.
    + rewrite be_value_app, Hv, Hbv, big_endian_size. change (256 ^ 4) with B. lia.
    + cbn in Hl |- *. destruct Hl as [H1 H2]. split; [done|]. intros H0. specialize (H2 H0).
      by destruct rest.
Qed.

Lemma encode_positive_loop i r result :
  blocks (d_data r) -> positive_octets result (value (drop i (d_data r))) ->
  positive_octets (encode_loop i r encode_positive_block result) (val r).
Proof.
  intros Hb. revert result. induction i as [|i IH]; intros result H; [by rewrite drop_0 in H|].
  cbn [encode_loop]. apply IH. rewrite value_drop_S, Z.add_comm.
  apply encode_positive_block_spec; [by apply get_bounds|done].
Qed.

Lemma positive_signed_value result z :
  positive_octets result z -> signed_value result = z /\ minimal result.
Proof.
  intros [Ho Hv Hl]. destruct result as [|first rest]; [done|]. cbn in Hl. destruct Hl as [H1 H2].
  unfold signed_value. rewrite (proj2 (Z.leb_gt _ _)) by lia. split; [done|].
  destruct rest as [|next rest]; [done|]. cbn. split; [|lia]. intros [H0 ?]. specialize (H2 H0). cbn in H2. lia.
Qed.

(** *** Encoding of negative numbers *)

Lemma skip_ones_spec l :
  octets l -> match l with first :: _ => 128 <= first | [] => False end ->
  octets (skip_ones l) /\ signed_value (skip_ones l) = signed_value l /\ minimal (skip_ones l).
Proof.
  induction l as [|x l IH]; intros Ho Hf; [done|]. destruct l as [|next l]; [done|].
  assert (skip_ones (x :: next :: l) =
    if (x =? 255) && negb (Z.land next 128 =? 0) then skip_ones (next :: l) else x :: next :: l) as -> by done.
  pose proof (Forall_inv (Forall_inv_tail Ho)) as Hn. cbn in Hn.
  rewrite land_sign by done.
  destruct ((x =? 255) && negb ((if 128 <=? next then 128 else 0) =? 0)) eqn:E.
  - destruct (Z.eqb_spec x 255) as [->|]; [|done]. cbn [andb] in E.
    destruct (Z.leb_spec 128 next); [|done].
    destruct (IH (Forall_inv_tail Ho)) as (H1 & H2 & H3); [done|].
    split; [done|]. split; [|done]. rewrite H2. unfold signed_value.
    rewrite !(proj2 (Z.leb_le _ _)) by lia. rewrite (be_value_cons 255).
    rewrite (size_cons 255), Z.pow_add_r by (pose proof (size_nonneg (next :: l)); lia). lia.
  - split; [done|]. split; [done|]. cbn. split; [lia|]. intros [-> ?].
    rewrite (proj2 (Z.leb_le _ _)) in E by lia. done.
Qed.

Lemma big_endian_first x : 2 ^ 31 <= x < B -> match big_endian x with first :: _ => 128 <= first | [] => False end.
Proof.
  intros Hx. unfold big_endian. change 255 with (Z.ones 8).
  rewrite Z.land_ones, Z.shiftr_div_pow2 by lia.
  assert (128 <= x / 2 ^ 24) by (apply Z.div_le_lower_bound; lia).
  assert (x / 2 ^ 24 < 256) by (apply Z.div_lt_upper_bound; [lia|unfold B in Hx; lia]).
  rewrite Z.mod_small by (change (2 ^ 8) with 256; lia). done.
Qed.

(** A magnitude of one block. *)
Lemma small_magnitude r : Magnitude.wf r -> 0 < val r < B -> r = native [val r].
Proof.
  intros [Hb Hd Hn] Hv. rewrite (native_eta r Hb). unfold val in *. cbn [d_data native].
  destruct (d_data r) as [|x [|y l]]; [cbn in Hv; lia| |].
  - cbn [value]. rewrite Z.mul_0_r, Z.add_0_r. done.
  - pose proof (value_lower _ Hd Hn ltac:(done)) as Hl. cbn [length pred] in Hl.
    rewrite place_S in Hl. pose proof (place_pos (length l)).
    assert (B * 1 <= B * place (length l)) by (apply Z.mul_le_mono_nonneg_l; [done|lia]). lia.
Qed.

Lemma encode_negative_small v :
  1 < v <= 2 ^ 31 ->
  let result := encode (native [v]) e_NEGATIVE in
  octets result /\ signed_value result = - v /\ minimal result.
Proof.
  intros Hv. cbn zeta. unfold encode, isZero, isOne. cbn [d_data native].
  rewrite !(proj2 (Z.eqb_neq _ _)) by lia. cbn [encode_loop length_of length d_data native get lookup list_lookup].
  unfold encode_negative_block.
  assert (wrap 32 (wrap 32 (Z.lnot v) + 1) = B - v) as ->.
  { rewrite wrap_add_l. unfold wrap. fold B. symmetry. apply (Z.mod_unique _ _ (-1)); [unfold B; lia|].
    pose proof (Z.add_lnot_diag v). lia. }
  assert (2 ^ 31 <= B - v < B) as Hr by (unfold B; lia).
  destruct (skip_ones_spec (big_endian (B - v))) as (H1 & H2 & H3);
    [apply big_endian_octets; lia|by apply big_endian_first|].
  split; [done|]. split; [|done]. rewrite H2. pose proof (big_endian_first _ Hr) as Hf.
  pose proof (big_endian_value (B - v) ltac:(lia)) as Hval. pose proof (big_endian_size (B - v)) as Hsz.
  unfold signed_value. destruct (big_endian (B - v)) as [|first rest]; [done|].
  rewrite (proj2 (Z.leb_le _ _)), Hval, Hsz by lia. change (256 ^ 4) with B. lia.
Qed.

Lemma encode_int x :
  IntegerArithmetic.wf x -> - 2 ^ 31 <= IntegerArithmetic.int x ->
  octets (AbstractInteger.encode x) /\
  signed_value (AbstractInteger.encode x) = IntegerArithmetic.int x /\
  minimal (AbstractInteger.encode x).
Proof.
  intros [Hm Hs] Hx. unfold AbstractInteger.encode, IntegerArithmetic.int in *.
  destruct x as [sign m]. cbn [AbstractInteger.d_sign AbstractInteger.d_magnitude] in *.
  pose proof (IntegerArithmetic.val_nonneg m Hm).
  destruct (isZero m) eqn:Z0.
  { unfold encode. rewrite Z0. rewrite isZero_spec in Z0 by done. apply Z.eqb_eq in Z0.
    rewrite Z0, Z.mul_0_r. split_and!; [by repeat constructor|done|done]. }
  destruct (isOne m) eqn:O1.
  { unfold encode. rewrite Z0, O1. rewrite isOne_spec in O1 by done. apply Z.eqb_eq in O1.
    rewrite O1. destruct sign; cbn [multiplier]; (split_and!; [by repeat constructor|done|done]). }
  assert (1 < val m) as Hval.
  { rewrite isZero_spec in Z0 by done. rewrite isOne_spec in O1 by done.
    apply Z.eqb_neq in Z0, O1. lia. }
  destruct sign; cbn [multiplier] in *.
  - rewrite (small_magnitude m Hm) by (unfold B; lia).
    destruct (encode_negative_small (val m)) as (H1 & H2 & H3); [lia|].
    split; [done|]. split; [|done]. rewrite H2. unfold val at 2. cbn [value d_data native]. lia.
  - unfold encode. rewrite Z0, O1.
    assert (positive_octets (encode_loop (length_of m) m encode_positive_block []) (val m)) as Hp.
    { apply encode_positive_loop; [apply Hm|]. unfold length_of. rewrite drop_all. by split; [constructor|..]. }
    pose proof (po_octets _ _ Hp). destruct (positive_signed_value _ _ Hp). split_and!; [done|lia|done].
Qed.

(** *** A number has one representation *)

Lemma value_inj l k :
  blocks l -> blocks k -> length l = length k -> value l = value k -> l = k.
Proof.
  revert k. induction l as [|x l IH]; intros [|y k] Hl Hk Hlen Hv; try done.
  cbn [value] in Hv.
  destruct (value_cons_inv x y l k (Forall_inv Hl) (Forall_inv Hk) Hv) as [-> Hv'].
  f_equal. apply IH; [by apply (Forall_inv_tail Hl)|by apply (Forall_inv_tail Hk)|by injection Hlen|done].
Qed.

Lemma wf_inj r r' : Magnitude.wf r -> Magnitude.wf r' -> val r = val r' -> r = r'.
Proof.
  intros Hr Hr' Hv. rewrite (wf_data r Hr), (wf_data r' Hr'). f_equal.
  destruct (Nat.lt_trichotomy (length_of r) (length_of r')) as [Hlt|[He|Hlt]].
  - pose proof (shorter_is_less r r' Hr Hr' Hlt). lia.
  - apply value_inj; [apply Hr|apply Hr'|done|done].
  - pose proof (shorter_is_less r' r Hr' Hr Hlt). lia.
Qed.

Lemma int_inj x y :
  IntegerArithmetic.wf x -> IntegerArithmetic.wf y ->
  IntegerArithmetic.int x = IntegerArithmetic.int y -> x = y.
Proof.
  intros [Mx Sx] [My Sy] H. unfold IntegerArithmetic.int in H.
  pose proof (IntegerArithmetic.val_nonneg _ Mx). pose proof (IntegerArithmetic.val_nonneg _ My).
  destruct x as [sx mx], y as [sy my]. cbn [AbstractInteger.d_sign AbstractInteger.d_magnitude] in *.
  assert (val mx = val my) as Hv by (destruct sx, sy; cbn [multiplier] in H; lia).
  f_equal; [|by apply wf_inj].
  destruct sx, sy; cbn [multiplier] in H; [done| |by rewrite Sy by lia|done].
  by rewrite Sx by lia.
Qed.

End Octets.

(** ** Text *)

Module TextFacts.

Import AbstractIntegerSign AbstractIntegerBase AbstractIntegerRepresentation Magnitude Arithmetic.
Import Text.

Lemma assign_loop_spec fuel z data :
  blocks data -> 0 <= z < 2 ^ Z.of_nat fuel -> (z = 0 -> normalized data) ->
  exists data',
    assign_loop fuel B z (native data) = Some (native data') /\ blocks data' /\ normalized data' /\
    value data' = value data + z * place (length data).
Proof.
  revert z data. induction fuel as [|fuel IH]; intros z data Hd Hz Hn; cbn [assign_loop].
  { change (2 ^ Z.of_nat 0) with 1 in Hz. assert (z = 0) as -> by lia. exists data.
    split_and!; [done|done|by apply Hn|lia]. }
  destruct (Z.eqb_spec z 0) as [->|Hnz].
  { exists data. split_and!; [done|done|by apply Hn|lia]. }
  pose proof (Z.mod_pos_bound z B ltac:(done)) as Hm. pose proof (Z.div_mod z B ltac:(done)) as Hdm.
  rewrite wrap_32, push_native by done. cbn [mbind option_bind].
  destruct (IH (z / B) (data ++ [z mod B])) as (data' & E & Hb & Hn' & Hv).
  - by apply blocks_snoc.
  - rewrite Nat2Z.inj_succ, Z.pow_succ_r in Hz by lia. split; [apply Z.div_pos; lia|].
    apply Z.div_lt_upper_bound; [lia|].
    assert (2 * 2 ^ Z.of_nat fuel <= B * 2 ^ Z.of_nat fuel) by (apply Z.mul_le_mono_nonneg_r; [lia|done]).
    lia.
  - intros Hq. apply normalized_snoc. rewrite Hq in Hdm. lia.
  - exists data'. split_and!; [done..|]. rewrite Hv, value_app, length_app, place_add. cbn [length value].
    change (place 1) with B. rewrite Hdm at 3. ring.
Qed.

Lemma assign_val z :
  0 <= z < 2 ^ 64 -> exists r, assign init z = Some r /\ Magnitude.wf r /\ val r = z.
Proof.
  intros Hz. unfold assign. change (radix (d_base init)) with B.
  destruct (assign_loop_spec 64 z []) as (data & E & Hb & Hn & Hv); [constructor|done|done|].
  change (Build_representation _ _) with (native []). rewrite E. eexists. split; [done|]. split; [by split|].
  unfold val. cbn [d_data native]. rewrite Hv. cbn [value length]. rewrite place_0. lia.
Qed.

(** The number that digits stand for, most significant first. *)
Definition number (base : Z) (digits : list Z) : Z :=
  foldl (fun acc digit => acc * base + digit) 0 digits.

Lemma number_snoc base l x : number base (l ++ [x]) = number base l * base + x.
Proof. unfold number. by rewrite foldl_app. Qed.

Lemma accumulate_val base digits r :
  0 <= base < 2 ^ 64 -> Forall (fun d => 0 <= d < 2 ^ 64) digits -> Magnitude.wf r ->
  exists r', accumulate base digits r = Some r' /\ Magnitude.wf r' /\
    val r' = foldl (fun acc digit => acc * base + digit) (val r) digits.
Proof.
  intros Hbase Hd. revert r. induction Hd as [|d digits Hd Hds IH]; intros r Hr.
  { by exists r. }
  cbn [accumulate foldl].
  destruct (assign_val base Hbase) as (b & Eb & Wb & Vb). rewrite Eb. cbn [mbind option_bind].
  destruct (multiply_fresh init r b) as (p & Ep & Wp & Vp); [done..|]. rewrite Ep. cbn [mbind option_bind].
  destruct (assign_val d Hd) as (x & Ex & Wx & Vx). rewrite Ex. cbn [mbind option_bind].
  destruct (add_val init p x) as (s & Es & Ws & Vs); [done..|]. rewrite Es. cbn [mbind option_bind].
  destruct (IH s Ws) as (r' & E & W & V). exists r'. split_and!; [done..|]. rewrite V. f_equal. lia.
Qed.

(** *** Decimal text *)

Definition decimal_digits (digits : list Z) : Prop := Forall (fun d => 0 <= d < 10) digits.

Lemma digit_char_decimal d : 0 <= d < 10 -> digit_char d = 48 + d.
Proof. intros Hd. unfold digit_char. rewrite (proj2 (Z.ltb_lt _ _)) by lia. apply wrap_small. lia. Qed.

Lemma digits_loop_decimal digits acc :
  decimal_digits digits ->
  digits_loop 10 (map digit_char digits) acc = Some (acc ++ digits).
Proof.
  intros Hd. revert acc. induction Hd as [|d digits Hd Hds IH]; intros acc; cbn [map digits_loop].
  { by rewrite app_nil_r. }
  rewrite digit_char_decimal by done. unfold digit_of, is_decimal. cbn [Z.eqb Pos.eqb].
  rewrite !(proj2 (Z.leb_le _ _)) by lia. cbn [andb mbind option_bind].
  rewrite IH, <- app_assoc. cbn [app]. do 3 f_equal. lia.
Qed.

Lemma map_reverse {A C} (f : A -> C) l : map f (reverse l) = reverse (map f l).
Proof.
  induction l as [|x l IH]; [done|]. rewrite reverse_cons, map_app, IH. cbn [map].
  by rewrite reverse_cons.
Qed.

Lemma normalize_data_id l : normalized l -> normalize_data l = l.
Proof.
  destruct l as [|x l _] using rev_ind; [done|]. intros Hn%normalized_snoc.
  rewrite normalize_data_snoc. by rewrite (proj2 (Z.eqb_neq _ _)).
Qed.

(** What the head of a text selects, decided on the character. *)
Lemma prefix_base_other ch text : ch <> 48 -> prefix_base (ch :: text) = Some (10, ch :: text).
Proof. intros Hch. destruct text; [done|]. cbn. by rewrite (proj2 (Z.eqb_neq _ _)). Qed.

Lemma prefix_sign_other base ch text :
  ch <> 43 -> ch <> 45 -> prefix_sign base (ch :: text) = Some (e_POSITIVE, ch :: text).
Proof. intros H1 H2. cbn. by rewrite !(proj2 (Z.eqb_neq _ _)). Qed.

Definition sign_text (sign : AbstractIntegerSign.Value) : list Z :=
  if decide (sign = e_NEGATIVE) then [45] else [].

(** The decimal text of digits, least significant first and without a zero in
    the most significant place. *)
Lemma parse_decimal sign digits :
  decimal_digits digits -> digits <> [] -> normalized digits ->
  exists r, parse (sign_text sign ++ reverse (map digit_char digits)) = Some (true, r, sign) /\
    Magnitude.wf r /\ val r = number 10 (reverse digits).
Proof.
  intros Hd Hne Hn.
  destruct (accumulate_val 10 (reverse digits) init) as (r & E & W & V);
    [lia| |apply Arithmetic.init_representation_wf|].
  { apply Forall_reverse. eapply List.Forall_impl; [|exact Hd]. cbn. lia. }
  exists r. split; [|split; [done|exact V]].
  assert (exists ch text, reverse (map digit_char digits) = ch :: text /\ 49 <= ch <= 57) as (ch & text & Et & Hch).
  { destruct digits as [|d digits _] using rev_ind; [done|]. apply normalized_snoc in Hn.
    apply Forall_app in Hd as [_ Hd]. apply Forall_inv in Hd. cbn in Hd.
    rewrite map_app, reverse_app. cbn [map reverse]. eexists _, _. split; [reflexivity|].
    rewrite digit_char_decimal by done. lia. }
  assert (digits_loop 10 (reverse (ch :: text)) [] = Some digits) as Eloop.
  { rewrite <- Et, reverse_involutive. by apply digits_loop_decimal. }
  assert (normalize r = r) as Hnorm.
  { destruct W as [Hb _ Hr]. unfold normalize. rewrite normalize_data_id by done.
    by destruct r. }
  assert (normalize_data digits = digits) as Hstrip by by apply normalize_data_id.
  assert (negb (bool_decide (digits = [])) = true) as Hb by by rewrite bool_decide_false.
  assert (prefix_base (sign_text sign ++ ch :: text) = Some (10, sign_text sign ++ ch :: text)) as Eb.
  { destruct sign; [by apply prefix_base_other|]. apply prefix_base_other. lia. }
  assert (prefix_sign 10 (sign_text sign ++ ch :: text) = Some (sign, ch :: text)) as Es.
  { destruct sign; [done|]. apply prefix_sign_other; lia. }
  rewrite Et. unfold parse. rewrite Eb, Es.
  assert (bool_decide (sign_text sign ++ ch :: text = [48]) = false) as ->.
  { apply bool_decide_false. destruct sign; [done|]. intros [= -> _]. lia. }
  rewrite Eloop, Hstrip, Hb, E. cbn [mbind option_bind]. rewrite Hnorm. by destruct sign.
Qed.

(** The digits that [generate] makes, least significant first. *)
Lemma generate_digits_spec fuel r ten :
  Magnitude.wf r -> Magnitude.wf ten -> val ten = 10 -> val r < 2 ^ Z.of_nat fuel ->
  exists digits,
    generate_digits fuel r ten = Some digits /\ decimal_digits digits /\ normalized digits /\
    number 10 (reverse digits) = val r.
Proof.
  intros Hr Ht Hv. revert r Hr. induction fuel as [|fuel IH]; intros r Hr Hlt;
    cbn [generate_digits]; rewrite isZero_spec by done;
    pose proof (IntegerArithmetic.val_nonneg r Hr) as Hnn.
  { change (2 ^ Z.of_nat 0) with 1 in Hlt. rewrite (proj2 (Z.eqb_eq _ _)) by lia.
    exists []. split_and!; [done|constructor|done|]. change (number 10 (reverse [])) with 0. lia. }
  destruct (Z.eqb_spec (val r) 0) as [Hz|Hnz].
  { exists []. split_and!; [done|constructor|done|]. by rewrite Hz. }
  assert (length_of ten = 1%nat) as Hlen.
  { rewrite (Octets.small_magnitude ten Ht); [done|]. rewrite Hv. done. }
  destruct (DivisionFacts.divide_val init init r ten) as (q & m & E & Wq & Wm & Hval & Hm);
    [done..|lia|by left|].
  rewrite E. cbn [mbind option_bind]. rewrite Nat2Z.inj_succ, Z.pow_succ_r in Hlt by lia.
  destruct (IH q Wq) as (digits & Ed & Hd & Hn & Hnum); [lia|].
  rewrite Ed. cbn [mbind option_bind].
  assert (get m 0 = val m) as Hget.
  { destruct (Z.eq_dec (val m) 0) as [Ez|Hnz'].
    - pose proof (value_zero _ (wf_blocks _ Wm) (wf_normalized _ Wm) Ez) as Hnil.
      unfold get. rewrite Hnil. by rewrite Ez.
    - rewrite (Octets.small_magnitude m Wm) at 1; [done|]. unfold B. lia. }
  rewrite Hget. exists (val m :: digits). split; [done|].
  split; [constructor; [lia|done]|]. split.
  - destruct digits as [|d ds]; [|done]. unfold normalized. cbn. change (number 10 (reverse [])) with 0 in Hnum.
    intros [= H0]. lia.
  - rewrite reverse_cons, number_snoc, Hnum. lia.
Qed.

(** The text of a number other than zero, digit by digit. *)
Lemma generate_decimal r sign :
  Magnitude.wf r -> val r <> 0 ->
  exists digits,
    generate r sign e_DECIMAL = Some (sign_text sign ++ reverse (map digit_char digits)) /\
    decimal_digits digits /\ digits <> [] /\ normalized digits /\
    number 10 (reverse digits) = val r.
Proof.
  intros Hr Hnz. unfold generate.
  destruct (assign_val 10) as (ten & Et & Wt & Vt); [lia|].
  destruct (generate_digits_spec (32 * length_of r) r ten Hr Wt Vt) as (digits & E & Hd & Hn & Hnum).
  { pose proof (value_bounds _ (wf_blocks _ Hr)) as [_ Hlt]. fold (val r) (length_of r) in Hlt.
    unfold place in Hlt. rewrite B_pow, <- Z.pow_mul_r in Hlt by lia.
    by rewrite Nat2Z.inj_mul. }
  exists digits. assert (digits <> []) as Hne.
  { intros ->. change (number 10 (reverse [])) with 0 in Hnum. lia. }
  split_and!; [|done..].
  destruct (length_of r) as [|n] eqn:El.
  { apply nil_length_inv in El. unfold val in Hnz. by rewrite El in Hnz. }
  rewrite (wf_base _ Hr). rewrite bool_decide_false by done.
  change (radix e_DECIMAL) with 10. rewrite Et. cbn [mbind option_bind].
  rewrite <- El, El, E. cbn [mbind option_bind]. f_equal. unfold sign_text. by rewrite reverse_app; case_decide.
Qed.

Lemma generate_parse x :
  IntegerArithmetic.wf x ->
  exists text, AbstractInteger.generate x e_DECIMAL = Some text /\
    AbstractInteger.parse text = Some (true, x).
Proof.
  intros [Hm Hs]. destruct x as [sign r]. cbn [AbstractInteger.d_sign AbstractInteger.d_magnitude] in *.
  unfold AbstractInteger.generate, AbstractInteger.parse. cbn [AbstractInteger.d_sign AbstractInteger.d_magnitude].
  destruct (Z.eq_dec (val r) 0) as [Hz|Hnz].
  - rewrite (Hs Hz). assert (r = init) as ->.
    { apply Octets.wf_inj; [done|apply Arithmetic.init_representation_wf|done]. }
    exists [48]. done.
  - destruct (generate_decimal r sign Hm Hnz) as (digits & E & Hd & Hne & Hn & Hnum).
    eexists. split; [exact E|].
    destruct (parse_decimal sign digits Hd Hne Hn) as (r' & Ep & Hw & Hv).
    rewrite Ep. cbn [mbind option_bind]. do 3 f_equal. apply Octets.wf_inj; [done..|]. lia.
Qed.

End TextFacts.
