(* ===== verification/IntegerTheorems.v ===== *)
(** * Integers of unbounded size: properties

    The properties of the files IntegerRepresentation, IntegerDivision and
    Integer: the operations of [ntsa::AbstractInteger] agree with those of the
    integers, its octets are its two's complement and its decimal text can be
    read back; and the inputs on which the code departs from that. *)

From S2P Require Import Prelude IntegerRepresentation IntegerDivision Integer.

Module IntegerProperties.

Import AbstractIntegerSign AbstractIntegerBase AbstractIntegerRepresentation Magnitude Arithmetic.
Import AbstractInteger IntegerArithmetic.

(** Integers for the witnesses. *)
Definition small (sign : AbstractIntegerSign.Value) (data : list Z) : integer :=
  {| d_sign := sign; d_magnitude := native data |}.

Lemma blocks_small data :
  forallb (fun block => (0 <=? block) && (block <? B)) data = true -> blocks data.
Proof.
  intros H. rewrite forallb_forall in H. apply List.Forall_forall. intros x Hx.
  specialize (H x Hx). lia.
Qed.

Lemma magnitude_wf data :
  forallb (fun block => (0 <=? block) && (block <? B)) data = true -> normalized data ->
  Magnitude.wf (native data).
Proof. intros Hb Hn. split; [done|by apply blocks_small|done]. Qed.

Lemma small_wf sign data :
  forallb (fun block => (0 <=? block) && (block <? B)) data = true -> normalized data -> data <> [] ->
  wf (small sign data).
Proof.
  intros Hb Hn Hne. split; [by apply magnitude_wf|]. cbn [small d_magnitude]. intros Hz.
  by apply (value_zero data (blocks_small data Hb) Hn) in Hz.
Qed.

(** C18: For any two integers, whether or not the target is one of them,
    addition and subtraction fail no assertion and compute the sum and the
    difference, in the one representation that the number has. *)
Theorem sum_and_difference_exact aliased target u v :
  native_target target -> wf u -> wf v ->
  (exists w, AbstractInteger.add aliased target u v = Some w /\ wf w /\ int w = int u + int v) /\
  (exists w, AbstractInteger.subtract aliased target u v = Some w /\ wf w /\ int w = int u - int v).
Proof. intros. split; [by apply add_int|by apply subtract_int]. Qed.

(** Multiplication fails no assertion and computes the product when its
    target is empty.  The number a target already holds is not cleared: its
    places below the size of the multiplicand are added to the product, and
    those above both sizes stay. *)
Theorem product_and_residue product u v :
  d_base product = e_NATIVE -> blocks (d_data product) -> Magnitude.wf u -> Magnitude.wf v ->
  exists w, AbstractIntegerRepresentation.multiply product u v = Some w /\ Magnitude.wf w /\
    (d_data product = [] -> val w = val u * val v) /\
    (1 < val u -> 1 < val v ->
     val w = val u * val v + residue (d_data product) (length_of u) (length_of v)).
Proof.
  intros Hs Hp Hu Hv.
  destruct (decide (1 < val u /\ 1 < val v)) as [[U V]|Hn].
  - destruct (multiply_general product u v) as (w & E & Hw & Hval); [done..|].
    exists w. split; [done|]. split; [done|]. split; [|done]. intros Hempty. rewrite Hval, Hempty.
    unfold residue. rewrite take_nil, drop_nil. cbn [value]. lia.
  - destruct (multiply_small product u v) as (w & E & Hw & Hval); [done..|].
    exists w. split; [done|]. split; [done|]. split; [done|]. intros. by destruct Hn.
Qed.

(** C17: Division, into targets in the native base, truncates towards zero,
    exactly, for every dividend and every divisor of one block; for a divisor of
    two blocks whose last block is less than 2^31; and for a longer one whose last
    block is less than 2^31 as long as no digit of the quotient has to be
    corrected by adding the divisor back.  (When the last block is 2^31 or more,
    the division of a dividend that is not less is undefined: see
    [division_undefined].) *)
Theorem division_exact aliased1 aliased2 quotient remainder u v :
  native_target quotient -> native_target remainder -> wf u -> wf v -> int v <> 0 ->
  length_of (d_magnitude v) = 1%nat \/
  get (d_magnitude v) (length_of (d_magnitude v) - 1) < 2 ^ 31 /\
  (length_of (d_magnitude v) = 2%nat \/ Division.exact_trials (d_magnitude u) (d_magnitude v) = true) ->
  exists q r, AbstractInteger.divide aliased1 aliased2 quotient remainder u v = Some (q, r) /\
    wf q /\ wf r /\ int q = Z.quot (int u) (int v) /\ int r = Z.rem (int u) (int v).
Proof. apply divide_int. Qed.

(** A division by a number of two or more blocks of which the last is 2^31
    or more, and that is not greater than the dividend, has undefined behaviour:
    the code shifts a block by its whole width. *)
Theorem division_undefined quotient remainder u v :
  d_base quotient = e_NATIVE -> d_base remainder = e_NATIVE ->
  Magnitude.wf u -> Magnitude.wf v -> (2 <= length_of v)%nat ->
  2 ^ 31 <= get v (length_of v - 1) -> val v <= val u ->
  Division.divide quotient remainder u v = None.
Proof. apply DivisionFacts.divide_shift_undefined. Qed.

(** Comparison is the order of the integers, except that two negative
    numbers are compared by their magnitudes: the greater one counts as less. *)
Theorem comparison x y :
  wf x -> wf y ->
  AbstractInteger.compare x y =
  if bool_decide (d_sign x = e_NEGATIVE) && bool_decide (d_sign y = e_NEGATIVE)
  then Z.sgn (int y - int x) else Z.sgn (int x - int y).
Proof. apply compare_int. Qed.

(** Decoding octets fails no assertion and gives the number that they stand
    for in two's complement, for any number of octets. *)
Theorem decode_twos_complement data :
  Octets.octets data ->
  exists x, AbstractInteger.decode data = Some x /\ wf x /\ int x = Octets.signed_value data.
Proof. apply Octets.decode_int. Qed.

(** The octets of an integer that is not less than -2^31 are decoded to
    that integer, and none of them at the front could be left out. *)
Theorem encode_decode x :
  wf x -> - 2 ^ 31 <= int x ->
  AbstractInteger.decode (AbstractInteger.encode x) = Some x /\
  Octets.octets (AbstractInteger.encode x) /\ Octets.minimal (AbstractInteger.encode x).
Proof.
  intros Hx Hle. destruct (Octets.encode_int x Hx Hle) as (Ho & Hv & Hm).
  split; [|done]. destruct (Octets.decode_int _ Ho) as (y & E & Hy & Hint).
  rewrite E. f_equal. apply Octets.int_inj; [done..|]. lia.
Qed.

(** The decimal text of every integer is generated without a failed
    assertion and within the fuel, and is parsed back to that integer. *)
Theorem decimal_text_roundtrip x :
  wf x ->
  exists text, AbstractInteger.generate x e_DECIMAL = Some text /\
    AbstractInteger.parse text = Some (true, x).
Proof. apply TextFacts.generate_parse. Qed.

(** ** Witnesses *)

Lemma sum_and_difference_exact_witness :
  (exists w, AbstractInteger.add true init (small e_NEGATIVE [1; 2]) (small e_POSITIVE [3; 7]) = Some w /\
     wf w /\ int w = int (small e_NEGATIVE [1; 2]) + int (small e_POSITIVE [3; 7])) /\
  (exists w, AbstractInteger.subtract true init (small e_NEGATIVE [1; 2]) (small e_POSITIVE [3; 7]) = Some w /\
     wf w /\ int w = int (small e_NEGATIVE [1; 2]) - int (small e_POSITIVE [3; 7])).
Proof. apply (sum_and_difference_exact true init); [done|by apply small_wf..]. Defined.

Lemma product_and_residue_witness :
  exists w, AbstractIntegerRepresentation.multiply (native [100; 3]) (native [5; 7; 9]) (native [4; 2]) = Some w /\
    Magnitude.wf w /\
    (d_data (native [100; 3]) = [] -> val w = val (native [5; 7; 9]) * val (native [4; 2])) /\
    (1 < val (native [5; 7; 9]) -> 1 < val (native [4; 2]) ->
     val w = val (native [5; 7; 9]) * val (native [4; 2]) + residue [100; 3] 3 2).
Proof. apply (product_and_residue (native [100; 3])); [done|by apply blocks_small|by apply magnitude_wf..]. Defined.

Lemma division_exact_witness :
  exists q r,
    AbstractInteger.divide true true init init (small e_NEGATIVE [5; 7; 9; 11]) (small e_POSITIVE [3; 4; 5]) =
      Some (q, r) /\ wf q /\ wf r /\
    int q = Z.quot (int (small e_NEGATIVE [5; 7; 9; 11])) (int (small e_POSITIVE [3; 4; 5])) /\
    int r = Z.rem (int (small e_NEGATIVE [5; 7; 9; 11])) (int (small e_POSITIVE [3; 4; 5])).
Proof.
  apply division_exact; [done|done|by apply small_wf..|done|].
  right. split; [done|]. right. vm_compute. reflexivity.
Defined.

Lemma division_undefined_witness :
  Division.divide AbstractIntegerRepresentation.init AbstractIntegerRepresentation.init
    (native [5; 7; 9]) (native [1; 2 ^ 31]) = None.
Proof. apply division_undefined; [done|done|by apply magnitude_wf..|cbn; lia|done|done]. Defined.

Lemma comparison_witness :
  AbstractInteger.compare (small e_NEGATIVE [1]) (small e_NEGATIVE [2]) = -1.
Proof.
  rewrite (comparison (small e_NEGATIVE [1]) (small e_NEGATIVE [2])); [done|by apply small_wf..].
Defined.

Lemma decode_twos_complement_witness :
  exists x, AbstractInteger.decode [255; 128; 0; 0; 1] = Some x /\ wf x /\
    int x = Octets.signed_value [255; 128; 0; 0; 1].
Proof. apply decode_twos_complement. repeat constructor; lia. Defined.

Lemma encode_decode_witness :
  AbstractInteger.decode (AbstractInteger.encode (small e_POSITIVE [1; 2 ^ 31])) =
    Some (small e_POSITIVE [1; 2 ^ 31]) /\
  Octets.octets (AbstractInteger.encode (small e_POSITIVE [1; 2 ^ 31])) /\
  Octets.minimal (AbstractInteger.encode (small e_POSITIVE [1; 2 ^ 31])).
Proof. apply encode_decode; [by apply small_wf|done]. Defined.

Lemma decimal_text_roundtrip_witness :
  exists text, AbstractInteger.generate (small e_NEGATIVE [1; 0; 9]) e_DECIMAL = Some text /\
    AbstractInteger.parse text = Some (true, small e_NEGATIVE [1; 0; 9]).
Proof. apply decimal_text_roundtrip. by apply small_wf. Defined.

(** ** Inputs on which the code departs from the integers *)

(** Adding the divisor back loses a carry, so the remainder is greater than the
    divisor. *)
Lemma add_back_loses_carry :
  match Division.divide AbstractIntegerRepresentation.init AbstractIntegerRepresentation.init
          (native [3; 0; 2 ^ 31]) (native [1; 0; 2 ^ 29]) with
  | Some (q, r) => val q = 3 /\ val (native [1; 0; 2 ^ 29]) < val r
  | None => False
  end.
Proof. vm_compute. done. Qed.

(** The octets of a negative number of several blocks, or of one block above
    2^31, are those of another number. *)
Lemma encode_negative_wrong :
  AbstractInteger.decode (AbstractInteger.encode (small e_NEGATIVE [2 ^ 32 - 1])) =
    Some (small e_POSITIVE [1]) /\
  AbstractInteger.decode (AbstractInteger.encode (small e_NEGATIVE [1; 1])) =
    Some (small e_NEGATIVE [1]).
Proof. by vm_compute. Qed.

(** The hexadecimal digits from A to F count from zero: 0xb1 is read as 17; and
    a number without a digit other than zero fails an assertion. *)
Lemma parse_hexadecimal_wrong :
  AbstractInteger.parse [48; 120; 98; 49] = Some (true, small e_POSITIVE [17]) /\
  AbstractInteger.parse [48; 120; 97] = None /\
  AbstractInteger.parse [45; 48] = None.
Proof. by vm_compute. Qed.

(** A target in another base is reset to the native one, so the digits of the
    sum are not carried: 9 + 1 in base 10 is the digit 10. *)
Lemma add_resets_base :
  AbstractIntegerRepresentation.add
    {| d_base := e_DECIMAL; d_data := [] |}
    {| d_base := e_DECIMAL; d_data := [9; 9] |} {| d_base := e_DECIMAL; d_data := [1] |} =
  Some {| d_base := e_NATIVE; d_data := [10; 9] |}.
Proof. done. Qed.

End IntegerProperties.
