(* ===== verification/AbstractSyntax.v ===== *)
(** * Abstract syntax: tags, lengths and values on the wire

    Models the classes of src/groups/nts/ntsa/ntsa_abstract.h and .cpp that encode
    and decode values of the Abstract Syntax Notation One, but for the integers
    (see the file Integer) and the dates: the utilities for tags, lengths and
    numbers in base 128, the tree of frames of [AbstractSyntaxEncoder], and the
    stack of frames of [AbstractSyntaxDecoder].

    An octet is a number below 256. What is written goes to an output stream,
    an interface that [bsl::streambuf] gives and that may accept only part of
    what it is offered; the buffers of a frame are such streams in memory. What
    is read is a sequence of octets with a position, which can be set. *)

From S2P Require Import Prelude Errors Integer.

(** ** Tags *)

Module TagClass.
Inductive t : Type := e_UNIVERSAL | e_APPLICATION | e_CONTEXT_SPECIFIC | e_PRIVATE.

#[global] Instance t_eq_dec : EqDecision t.
Proof. solve_decision. Defined.

Definition value (c : t) : Z :=
  match c with
  | e_UNIVERSAL => 0x00 | e_APPLICATION => 0x40 | e_CONTEXT_SPECIFIC => 0x80 | e_PRIVATE => 0xC0
  end.

Definition fromValue (v : Z) : Error.t + t :=
  if v =? 0x00 then inr e_UNIVERSAL
  else if v =? 0x40 then inr e_APPLICATION
  else if v =? 0x80 then inr e_CONTEXT_SPECIFIC
  else if v =? 0xC0 then inr e_PRIVATE
  else inl Error.e_INVALID.
End TagClass.

Module TagType.
Inductive t : Type := e_PRIMITIVE | e_CONSTRUCTED.

#[global] Instance t_eq_dec : EqDecision t.
Proof. solve_decision. Defined.

Definition value (c : t) : Z := match c with e_PRIMITIVE => 0x00 | e_CONSTRUCTED => 0x20 end.

Definition fromValue (v : Z) : Error.t + t :=
  if v =? 0x00 then inr e_PRIMITIVE
  else if v =? 0x20 then inr e_CONSTRUCTED
  else inl Error.e_INVALID.
End TagType.

Module TagNumber.
Definition e_END_OF_CONTENTS : Z := 0.
Definition e_BOOLEAN : Z := 1.
Definition e_INTEGER : Z := 2.
Definition e_BIT_STRING : Z := 3.
Definition e_OCTET_STRING : Z := 4.
Definition e_NULL : Z := 5.
Definition e_OBJECT_IDENTIFIER : Z := 6.
Definition e_UTF8_STRING : Z := 12.
Definition e_SEQUENCE : Z := 16.
Definition e_PRINTABLE_STRING : Z := 19.
Definition e_T61_STRING : Z := 20.
Definition e_IA5_STRING : Z := 22.
Definition e_VISIBLE_STRING : Z := 26.

Definition validate (value : Z) : Error.t :=
  if value >? 256 then Error.e_INVALID else Error.e_OK.
End TagNumber.

(** ** Streams *)

(** [sputn] returns how many octets it accepted, [pubsync] whether it failed. *)
Class OutStream (B : Type) : Type := {
  sb_data : B -> list Z;
  sb_sputn : list Z -> B -> B * Z;
  sb_pubsync : B -> B * bool
}.

Class OutStreamLaws (B : Type) `{OutStream B} : Prop := {
  sputn_prefix : forall l b, 0 <= (sb_sputn l b).2 <= size l /\
    sb_data (sb_sputn l b).1 = sb_data b ++ take (Z.to_nat (sb_sputn l b).2) l;
  pubsync_data : forall b, sb_data (sb_pubsync b).1 = sb_data b
}.

(** [bdlsb::MemOutStreamBuf]: an output stream in memory. *)
Class Memory (B : Type) `{OutStream B} : Type := { mem_init : B }.

Class MemoryLaws (B : Type) `{Memory B} : Prop := {
  mem_laws :: OutStreamLaws B;
  mem_init_data : sb_data mem_init = [];
  mem_sputn : forall l b, (sb_sputn l b).2 = size l;
  mem_pubsync : forall b, (sb_pubsync b).2 = true
}.

(** ** Operations with errors *)

Module Codec.
Definition M (S A : Type) : Type := S -> (Error.t + A) * S.

Section Monad.
Context {S : Type}.

Definition ret {A} (a : A) : M S A := fun s => (inr a, s).
Definition fail {A} (e : Error.t) : M S A := fun s => (inl e, s).
Definition bind {A B} (m : M S A) (f : A -> M S B) : M S B := fun s =>
  match m s with
  | (inr a, s) => f a s
  | (inl e, s) => (inl e, s)
  end.
Definition get : M S S := fun s => (inr s, s).
Definition put (s : S) : M S unit := fun _ => (inr tt, s).
(** The result of a function, returned if it is an error. *)
Definition lift {A} (r : Error.t + A) : M S A := fun s => (r, s).
Definition check (e : Error.t) : M S unit := if Error.is_error e then fail e else ret tt.
Definition guard (b : bool) : M S unit := if b then ret tt else fail Error.e_INVALID.
End Monad.

Notation "'let*' x ':=' m 'in' k" := (bind m (fun x => k))
  (at level 100, x pattern, m at level 99, k at level 200, right associativity) : ntf_scope.
Notation "m ';;*' k" := (bind m (fun _ => k)) (at level 100, k at level 200, right associativity) : ntf_scope.
End Codec.

(** ** [AbstractSyntaxEncoderUtil] *)
Module EncoderUtil.
Import Codec.

(** Both loops, for a value of at most 64 bits. *)
Fixpoint count_bytes (fuel : nat) (value i : Z) : Z * Z :=
  match fuel with
  | O => (value, i)
  | S fuel => if value >? 255 then count_bytes fuel (Z.shiftr value 8) (i + 8) else (value, i)
  end.

Fixpoint count_bits (fuel : nat) (value i : Z) : Z :=
  match fuel with
  | O => i
  | S fuel => if negb (value =? 0) then count_bits fuel (Z.shiftr value 1) (i + 1) else i
  end.

Definition numSignificantBits (value : Z) : Z :=
  if value =? 0 then 1
  else let '(value, i) := count_bytes 8 value 0 in count_bits 8 value i.

Section Util.
Context `{OutStream B}.

Definition write (data : list Z) : M B unit := fun b =>
  let '(b, n) := sb_sputn data b in
  if n =? size data then (inr tt, b) else (inl Error.e_EOF, b).

Definition write_octet (octet : Z) : M B unit := write [wrap 8 octet].

Definition synchronize : M B unit := fun b =>
  let '(b, ok) := sb_pubsync b in
  if (ok : bool) then (inr tt, b) else (inl Error.e_INVALID, b).

(** The loop over the octets of a number from its most significant one. *)
Fixpoint write_base256 (i : nat) (n : Z) : M B unit :=
  match i with
  | O => ret tt
  | S i => write_octet (Z.land (Z.shiftr n (8 * Z.of_nat i)) 0xFF) ;;* write_base256 i n
  end.

(** The loop over the digits in base 128 but for the last. *)
Fixpoint write_base128 (i : nat) (n : Z) : M B unit :=
  match i with
  | O => ret tt
  | S i =>
      write_octet (Z.lor (Z.land (Z.shiftr n (7 * Z.of_nat (S i))) 0x7F) 0x80) ;;*
      write_base128 i n
  end.

Definition encodeIntegerBase128 (value : Z) : M B unit :=
  let length := (numSignificantBits value + 6) / 7 in
  write_base128 (Z.to_nat (length - 1)) value ;;*
  write_octet (Z.land value 0x7F).

Definition k_MAX_TAG_NUMBER_IN_ONE_OCTET : Z := 30.
Definition k_TAG_MASK_NUMBER : Z := 0x1F.

Definition encodeTag (tagClass : TagClass.t) (tagType : TagType.t) (tagNumber : Z) : M B unit :=
  let firstOctet := Z.lor (TagClass.value tagClass) (TagType.value tagType) in
  if tagNumber <=? k_MAX_TAG_NUMBER_IN_ONE_OCTET then
    write_octet (Z.lor firstOctet tagNumber)
  else
    write_octet (Z.lor firstOctet k_TAG_MASK_NUMBER) ;;*
    encodeIntegerBase128 tagNumber.

Definition k_MAX_LENGTH_IN_ONE_OCTET : Z := 127.

Definition encodeLength (length : Z) : M B unit :=
  if length <=? k_MAX_LENGTH_IN_ONE_OCTET then write_octet length
  else
    let numOctets := (numSignificantBits length + 7) / 8 in
    write_octet (Z.lor numOctets 0x80) ;;*
    write_base256 (Z.to_nat numOctets) length.

Definition encodeLengthIndefinite : M B unit := write_octet 0x80.
Definition encodeTerminator : M B unit := write_octet 0x00 ;;* write_octet 0x00.

End Util.
End EncoderUtil.

(** ** Values *)

(** [AbstractString], [AbstractByteSequence], [AbstractBitSequence],
    [AbstractObjectIdentifier] and [AbstractValue]; reading sets the content. *)
Module Values.

Record AbstractString : Type := mkString { s_type : Z; s_data : list Z }.
Definition string_reset : AbstractString := mkString TagNumber.e_OCTET_STRING [].

Record AbstractByteSequence : Type := mkBytes { y_type : Z; y_data : list Z }.
Definition bytes_reset : AbstractByteSequence := mkBytes TagNumber.e_OCTET_STRING [].

Record AbstractBitSequence : Type := mkBits { b_type : Z; b_data : list Z; b_numBitsOmitted : Z }.
Definition bits_reset : AbstractBitSequence := mkBits TagNumber.e_BIT_STRING [] 0.

Definition AbstractObjectIdentifier : Type := list Z.

Record AbstractValue : Type := mkValue {
  v_tagClass : TagClass.t; v_tagType : TagType.t; v_tagNumber : Z; v_data : list Z
}.
Definition value_reset : AbstractValue :=
  mkValue TagClass.e_UNIVERSAL TagType.e_PRIMITIVE TagNumber.e_NULL [].

(** A vector that grows when it is written past its end. *)
Definition set_index (index : nat) (value : Z) (data : list Z) : list Z :=
  let data := if Nat.leb (length data) index then data ++ replicate (S index - length data) 0 else data in
  <[index := value]> data.

Fixpoint trim (data : list Z) : list Z :=
  match data with
  | 0 :: data => trim data
  | _ => data
  end.

(** The sequences from their end. *)
Definition normalize (data : list Z) : list Z := reverse (trim (reverse data)).

Definition getByte (index : nat) (b : AbstractBitSequence) : Z := default 0 (b_data b !! index).

Definition setByte (index : nat) (value : Z) (b : AbstractBitSequence) : AbstractBitSequence :=
  mkBits (b_type b) (set_index index value (b_data b)) (b_numBitsOmitted b).

Definition getBit (bitIndex : nat) (b : AbstractBitSequence) : bool :=
  let byteMask := Z.shiftl 1 (7 - Z.land (Z.of_nat bitIndex) 0x07) in
  negb (Z.land (getByte (bitIndex / 8) b) byteMask =? 0).

Definition setBit (bitIndex : nat) (bitValue : bool) (b : AbstractBitSequence) : AbstractBitSequence :=
  let byteIndex := (bitIndex / 8)%nat in
  let byteMask := Z.shiftl 1 (7 - Z.land (Z.of_nat bitIndex) 0x07) in
  let byteMaskInverse := 255 - byteMask in
  let replaceByte :=
    Z.lor (Z.land (getByte byteIndex b) byteMaskInverse) (if bitValue then byteMask else 0) in
  let b := setByte byteIndex replaceByte b in
  mkBits (b_type b) (normalize (b_data b)) (b_numBitsOmitted b).

Definition numBits (b : AbstractBitSequence) : Z :=
  let numBits := size (b_data b) * 8 in
  if numBits >=? b_numBitsOmitted b then numBits - b_numBitsOmitted b else 0.

End Values.
