(* ===== verification/AbstractSyntaxEncoder.v ===== *)
(** * Abstract syntax: the encoder

    Models [AbstractSyntaxEncoderFrame] and [AbstractSyntaxEncoder]
    (src/groups/nts/ntsa/ntsa_abstract.h and .cpp) but for dates. A frame is a
    tag with its content and its completed children; the frame that is being
    encoded and its ancestors, each the last child of the next, are a list, so
    that the list without its head is what the pointer to the parent leads to.

    The length of what is in memory does not overflow a [bsl::size_t]. *)

From S2P Require Import Prelude Errors Integer AbstractSyntax.

Module Encoder.
Import Codec EncoderUtil Values.
Section Encoder.
Context `{OutStream Buf} `{!Memory Buf} `{OutStream Dest}.

(** ** [AbstractSyntaxEncoderFrame] *)

#[warnings="-register-all"]
Inductive frame : Type := mkFrame {
  d_tagClass : TagClass.t;
  d_tagType : TagType.t;
  d_tagNumber : Z;
  d_length : Z;
  d_header : Buf;
  d_content : Buf;
  d_children : list frame
}.

Definition newFrame (tagClass : TagClass.t) (tagType : TagType.t) (tagNumber : Z) : frame :=
  mkFrame tagClass tagType tagNumber 0 mem_init mem_init [].

Definition set_content (content : Buf) (f : frame) : frame :=
  mkFrame (d_tagClass f) (d_tagType f) (d_tagNumber f) (d_length f) (d_header f) content
    (d_children f).

Definition add_child (child f : frame) : frame :=
  mkFrame (d_tagClass f) (d_tagType f) (d_tagNumber f) (d_length f) (d_header f) (d_content f)
    (d_children f ++ [child]).

(** What is written to the content of a frame. *)
Definition toContent {A} (m : M Buf A) : M frame A := fun f =>
  let '(r, content) := m (d_content f) in (r, set_content content f).

Definition writeContent (data : list Z) : M frame unit := toContent (write data).

Definition encodeNull : M frame unit := ret tt.

Definition encodeValue_bool (value : bool) : M frame unit :=
  writeContent [if value then 0xFF else 0x00].

(** The octets of [BSLS_BYTEORDER_HOST_TO_BE] of a number of 64 bits. *)
Definition big_endian64 (value : Z) : list Z :=
  map (fun i => Z.land (Z.shiftr value (8 * i)) 0xFF) [7; 6; 5; 4; 3; 2; 1; 0].

Definition encodeValue_signed (value : Z) : M frame unit :=
  writeContent (AbstractIntegerQuantity.skip_ones (big_endian64 (wrap 64 value))).

Definition encodeValue_unsigned (value : Z) : M frame unit :=
  if value =? 0 then writeContent [0x00]
  else
    let octets := AbstractIntegerQuantity.skip_zeroes (big_endian64 value) in
    match octets with
    | first :: _ =>
        (if negb (Z.land first 0x80 =? 0) then writeContent [0x00] else ret tt) ;;*
        writeContent octets
    | [] => ret tt
    end.

Definition encodeValue_integer (value : AbstractInteger.integer) : M frame unit :=
  if AbstractInteger.isZero value then writeContent [0x00]
  else
    let data := AbstractInteger.encode value in
    guard (negb (bool_decide (data = []))) ;;*
    writeContent data.

Definition encodeValue_string (value : AbstractString) : M frame unit :=
  writeContent (s_data value).

Definition encodeValue_bits (value : AbstractBitSequence) : M frame unit :=
  guard (negb (b_numBitsOmitted value >? 255)) ;;*
  writeContent [wrap 8 (b_numBitsOmitted value)] ;;*
  writeContent (b_data value).

Definition encodeValue_bytes (value : AbstractByteSequence) : M frame unit :=
  writeContent (y_data value).

Fixpoint encodeComponents (values : list Z) : M frame unit :=
  match values with
  | [] => ret tt
  | value :: values => toContent (encodeIntegerBase128 value) ;;* encodeComponents values
  end.

Definition encodeValue_identifier (value : AbstractObjectIdentifier) : M frame unit :=
  match value with
  | v0 :: v1 :: rest =>
      guard (negb (v0 >? 3)) ;;*
      guard (negb (((v0 =? 0) || (v0 =? 1)) && (v1 >? 39))) ;;*
      writeContent [wrap 8 (wrap 64 (wrap 64 (v0 * 40) + v1))] ;;*
      encodeComponents rest
  | _ => fail Error.e_INVALID
  end.

Definition encodeValue_value (value : AbstractValue) : M frame unit :=
  if size (v_data value) >? 0 then writeContent (v_data value) else ret tt.

(** The frame and the sum of the length; the loop over the children. *)
Definition writeTagAndLength (f : frame) (contentLength : Z) : (Error.t + unit) * Buf :=
  (encodeTag (d_tagClass f) (d_tagType f) (d_tagNumber f) ;;*
   encodeLength contentLength ;;*
   EncoderUtil.synchronize) (d_header f).

(** The loops over the children, given the operation on each. *)
Section Children.
Context (synchronize : frame -> Z -> (Error.t + Z) * frame) (flush : frame -> M Dest unit).

Fixpoint synchronize_children (children : list frame) (length : Z) : (Error.t + Z) * list frame :=
  match children with
  | [] => (inr length, [])
  | child :: rest =>
      match synchronize child length with
      | (inr length, child) =>
          let '(r, rest) := synchronize_children rest length in (r, child :: rest)
      | (inl error, child) => (inl error, child :: rest)
      end
  end.

Fixpoint flush_children (children : list frame) : M Dest unit :=
  match children with
  | [] => ret tt
  | child :: rest => flush child ;;* flush_children rest
  end.
End Children.

Fixpoint synchronize (f : frame) (length : Z) : (Error.t + Z) * frame :=
  match f with
  | mkFrame tagClass tagType tagNumber d_length d_header content children =>
      if d_length >? 0 then (inr (length + d_length), f) else
      let contentLength := size (sb_data content) in
      match
        match children with
        | [] => (inr contentLength, [])
        | _ =>
            synchronize_children synchronize children
              (if negb (contentLength =? 0) then contentLength else 0)
        end
      with
      | (inr contentLength, children) =>
          let '(r, header) := writeTagAndLength f contentLength in
          match r with
          | inr _ =>
              let d_length := contentLength + size (sb_data header) in
              (inr (length + d_length),
               mkFrame tagClass tagType tagNumber d_length header content children)
          | inl error =>
              (inl error, mkFrame tagClass tagType tagNumber d_length header content children)
          end
      | (inl error, children) =>
          (inl error, mkFrame tagClass tagType tagNumber d_length d_header content children)
      end
  end.

Fixpoint flush (f : frame) : M Dest unit :=
  match f with
  | mkFrame _ _ _ _ header content children =>
      let flush_content :=
        if negb (size (sb_data content) =? 0) then write (sb_data content) else ret tt in
      guard (negb (size (sb_data header) =? 0)) ;;*
      write (sb_data header) ;;*
      match children with
      | [] => flush_content
      | _ => flush_content ;;* flush_children flush children
      end ;;*
      EncoderUtil.synchronize
  end.

(** ** [AbstractSyntaxEncoder] *)

Record t : Type := mk { d_buffer : Dest; d_frames : list frame }.

Definition encodeTag (tagClass : TagClass.t) (tagType : TagType.t) (tagNumber : Z) : M t unit :=
  fun e => (inr tt, mk (d_buffer e) (newFrame tagClass tagType tagNumber :: d_frames e)).

(** An operation on the frame that is being encoded. *)
Definition current (m : M frame unit) : M t unit := fun e =>
  match d_frames e with
  | [] => (inl Error.e_INVALID, e)
  | f :: rest => let '(r, f) := m f in (r, mk (d_buffer e) (f :: rest))
  end.

Definition encode_null : M t unit := current encodeNull.
Definition encode_bool (value : bool) : M t unit := current (encodeValue_bool value).
Definition encode_unsigned (value : Z) : M t unit := current (encodeValue_unsigned value).
Definition encode_signed (value : Z) : M t unit :=
  if value >=? 0 then encode_unsigned value else current (encodeValue_signed value).
Definition encode_integer (value : AbstractInteger.integer) : M t unit :=
  current (encodeValue_integer value).
Definition encode_string (value : AbstractString) : M t unit := current (encodeValue_string value).
Definition encode_bits (value : AbstractBitSequence) : M t unit := current (encodeValue_bits value).
Definition encode_bytes (value : AbstractByteSequence) : M t unit :=
  current (encodeValue_bytes value).
Definition encode_identifier (value : AbstractObjectIdentifier) : M t unit :=
  current (encodeValue_identifier value).
Definition encode_value (value : AbstractValue) : M t unit := current (encodeValue_value value).
Definition encodeLiteral (value : Z) : M t unit := current (writeContent [value]).

(** The root, once it is complete, is written out. *)
Definition encodeTagComplete : M t unit := fun e =>
  match d_frames e with
  | [] => (inl Error.e_INVALID, e)
  | f :: parents =>
      match synchronize f 0 with
      | (inl error, f) => (inl error, mk (d_buffer e) (f :: parents))
      | (inr _, f) =>
          match parents with
          | parent :: parents => (inr tt, mk (d_buffer e) (add_child f parent :: parents))
          | [] =>
              let '(r, buffer) := (flush f ;;* EncoderUtil.synchronize) (d_buffer e) in
              (r, mk buffer [])
          end
      end
  end.

End Encoder.
Arguments frame Buf : clear implicits.
End Encoder.
