(* ===== verification/AbstractSyntaxDecoder.v ===== *)
(** * Abstract syntax: the decoder

    Models [AbstractSyntaxDecoderUtil], [AbstractSyntaxDecoderFrame] and
    [AbstractSyntaxDecoder] (src/groups/nts/ntsa/ntsa_abstract.h and .cpp) but for
    dates. The input stream is a sequence of octets in memory with a position;
    a position past its end is rejected. *)

From S2P Require Import Prelude Errors Integer AbstractSyntax.

(** ** [bsl::streambuf], for input *)
Module Source.
Import Codec.

Record t : Type := mk { d_octets : list Z; d_position : Z }.

Definition rest (s : t) : list Z := drop (Z.to_nat (d_position s)) (d_octets s).

Definition sbumpc (s : t) : option Z * t :=
  match rest s with
  | octet :: _ => (Some octet, mk (d_octets s) (d_position s + 1))
  | [] => (None, s)
  end.

Definition sgetn (n : Z) (s : t) : list Z * t :=
  let data := take (Z.to_nat n) (rest s) in
  (data, mk (d_octets s) (d_position s + size data)).
End Source.

(** ** [AbstractSyntaxDecoderUtil] *)
Module DecoderUtil.
Import Codec.
#[local] Abbreviation M := (M Source.t).

Definition position : M Z := fun s => (inr (Source.d_position s), s).

Definition seek (position : Z) : M unit := fun s =>
  if position <=? size (Source.d_octets s)
  then (inr tt, Source.mk (Source.d_octets s) position)
  else (inl Error.e_INVALID, s).

Definition read_octet : M Z := fun s =>
  match Source.sbumpc s with
  | (Some octet, s) => (inr octet, s)
  | (None, s) => (inl Error.e_EOF, s)
  end.

Definition read (n : Z) : M (list Z) := fun s =>
  let '(data, s) := Source.sgetn n s in
  if size data =? n then (inr data, s) else (inl Error.e_EOF, s).

Definition k_TAG_MASK_CLASS : Z := 0xC0.
Definition k_TAG_MASK_TYPE : Z := 0x20.
Definition k_TAG_MASK_NUMBER : Z := 0x1F.
Definition k_NUM_VALUE_BITS_IN_TAG_OCTET : Z := 7.
Definition k_MAX_TAG_NUMBER_OCTETS : nat := 5.

(** The loop over the octets of the number of a tag: as many as [index] is
    below its maximum. *)
Fixpoint decode_tagNumber (octets : nat) (candidate : Z) : M Z :=
  match octets with
  | O => fail Error.e_INVALID
  | S octets =>
      let* nextOctet := read_octet in
      let candidate :=
        Z.lor (wrap 64 (Z.shiftl candidate k_NUM_VALUE_BITS_IN_TAG_OCTET)) (Z.land nextOctet 0x7F) in
      if Z.land nextOctet 0x80 =? 0 then ret candidate else decode_tagNumber octets candidate
  end.

Definition decodeTag : M (TagClass.t * TagType.t * Z) :=
  let* nextOctet := read_octet in
  let* tagClass := lift (TagClass.fromValue (Z.land nextOctet k_TAG_MASK_CLASS)) in
  let* tagType := lift (TagType.fromValue (Z.land nextOctet k_TAG_MASK_TYPE)) in
  let tagNumberCandidate := Z.land nextOctet k_TAG_MASK_NUMBER in
  let* tagNumber :=
    if tagNumberCandidate =? k_TAG_MASK_NUMBER
    then decode_tagNumber k_MAX_TAG_NUMBER_OCTETS 0
    else ret tagNumberCandidate in
  check (TagNumber.validate tagNumber) ;;*
  ret (tagClass, tagType, tagNumber).

Fixpoint decode_octets (n : nat) (candidate : Z) : M Z :=
  match n with
  | O => ret candidate
  | S n =>
      let* nextOctet := read_octet in
      decode_octets n (Z.lor (wrap 64 (Z.shiftl candidate 8)) nextOctet)
  end.

(** A length, unless it is indefinite. *)
Definition decodeLength : M (option Z) :=
  let* nextOctet := read_octet in
  if nextOctet =? 0x80 then ret None
  else if Z.land nextOctet 0x80 =? 0 then ret (Some nextOctet)
  else
    let numOctets := Z.land nextOctet 0x7F in
    guard (negb (numOctets >? 4)) ;;*
    let* length := decode_octets (Z.to_nat numOctets) 0 in
    ret (Some length).

(** The loop ends with the octets of the source. *)
Fixpoint decode_base128 (fuel : nat) (result : Z) : M Z :=
  match fuel with
  | O => fail Error.e_EOF
  | S fuel =>
      let* nextOctet := read_octet in
      let result := Z.lor (wrap 64 (Z.shiftl result 7)) (Z.land nextOctet 0x7F) in
      if Z.land nextOctet 0x80 =? 0 then ret result else decode_base128 fuel result
  end.

Definition decodeIntegerBase128 : M Z := fun s => decode_base128 (S (length (Source.rest s))) 0 s.

End DecoderUtil.

Module Decoder.
Import Codec Values.

(** ** [AbstractSyntaxDecoderFrame] *)

Record frame : Type := mkFrame {
  d_tagClass : TagClass.t;
  d_tagType : TagType.t;
  d_tagNumber : Z;
  d_tagPosition : Z;
  d_tagLength : Z;
  d_contentPosition : Z;
  d_contentLength : option Z
}.

Definition frame_reset : frame :=
  mkFrame TagClass.e_UNIVERSAL TagType.e_PRIMITIVE TagNumber.e_NULL 0 0 0 None.

(** ** [AbstractSyntaxDecoder]

    The current frame is the first of the stack. *)

Record t : Type := mk { d_buffer : Source.t; d_contextStack : list frame }.
#[local] Abbreviation M := (M t).

Definition source {A} (m : Codec.M Source.t A) : M A := fun d =>
  let '(r, buffer) := m (d_buffer d) in (r, mk buffer (d_contextStack d)).

Definition decodeTag : M unit :=
  let* tagPosition := source DecoderUtil.position in
  let* (tagClass, tagType, tagNumber) := source DecoderUtil.decodeTag in
  let* length := source DecoderUtil.decodeLength in
  let* contentPosition := source DecoderUtil.position in
  fun d =>
    (inr tt,
     mk (d_buffer d)
       (mkFrame tagClass tagType tagNumber tagPosition (contentPosition - tagPosition)
          contentPosition length :: d_contextStack d)).

Definition current : M frame := fun d =>
  (inr (match d_contextStack d with context :: _ => context | [] => frame_reset end), d).

Definition decodeTag_frame : M frame := decodeTag ;;* current.

(** The overloads that expect a tag: the number is one of several. *)
Definition decodeTag_expect (tagClass : TagClass.t) (tagType : TagType.t) (tagNumbers : list Z)
  : M unit :=
  decodeTag ;;*
  let* context := current in
  guard (bool_decide (d_tagClass context = tagClass)) ;;*
  guard (bool_decide (d_tagType context = tagType)) ;;*
  guard (existsb (Z.eqb (d_tagNumber context)) tagNumbers).

(** The checks at the head of the functions that decode a value: there is a
    frame, with one of the universal numbers, it is primitive and has a
    length. *)
Definition checkContext (tagNumbers : list Z) : M Z := fun d =>
  match d_contextStack d with
  | [] => (inl Error.e_INVALID, d)
  | context :: _ =>
      (guard (negb (bool_decide (d_tagClass context = TagClass.e_UNIVERSAL))
              || existsb (Z.eqb (d_tagNumber context)) tagNumbers) ;;*
       guard (bool_decide (d_tagType context = TagType.e_PRIMITIVE)) ;;*
       match d_contentLength context with
       | Some length => ret length
       | None => fail Error.e_INVALID
       end) d
  end.

Definition decodeNull : M unit :=
  let* length := checkContext [TagNumber.e_NULL] in
  guard (length =? 0).

Definition decodeEnd : M unit :=
  let* length := checkContext [TagNumber.e_END_OF_CONTENTS] in
  guard (length =? 0) ;;*
  let* nextOctet := source DecoderUtil.read_octet in
  guard (nextOctet =? 0).

Definition decodeValue_bool : M bool :=
  let* length := checkContext [TagNumber.e_BOOLEAN] in
  guard (negb (length =? 0)) ;;*
  let* nextOctet := source DecoderUtil.read_octet in
  if nextOctet =? 0x00 then ret false
  else if (nextOctet =? 0x01) || (nextOctet =? 0xFF) then ret true
  else fail Error.e_INVALID.

(** The loop over the octets of a number, of which the first was read;
    [convert] is the conversion to its type. *)
Fixpoint decode_number (convert : Z -> Z) (remaining : nat) (value nextOctet : Z) : M Z :=
  let value := Z.lor (convert (Z.shiftl value 8)) nextOctet in
  match remaining with
  | O => ret value
  | S remaining =>
      let* nextOctet := source DecoderUtil.read_octet in
      decode_number convert remaining value nextOctet
  end.

Definition decodeValue_signed : M Z :=
  let* length := checkContext [TagNumber.e_INTEGER] in
  guard (negb (length =? 0)) ;;*
  let* nextOctet := source DecoderUtil.read_octet in
  let value := if negb (Z.land nextOctet 0x80 =? 0) then -1 else 0 in
  decode_number (swrap 64) (Z.to_nat (length - 1)) value nextOctet.

Definition decodeValue_unsigned : M Z :=
  let* length := checkContext [TagNumber.e_INTEGER] in
  guard (negb (length =? 0)) ;;*
  let* nextOctet := source DecoderUtil.read_octet in
  guard (Z.land nextOctet 0x80 =? 0) ;;*
  decode_number (wrap 64) (Z.to_nat (length - 1)) 0 nextOctet.

(** The overloads for the other types, each by way of one of these two. *)
Definition decodeValue_narrow (decode : M Z) (least greatest : Z) : M Z :=
  let* value := decode in
  guard (negb ((value <? least) || (value >? greatest))) ;;*
  ret value.

Definition decodeValue_short : M Z := decodeValue_narrow decodeValue_signed (- 2 ^ 15) (2 ^ 15 - 1).
Definition decodeValue_unsigned_short : M Z := decodeValue_narrow decodeValue_unsigned 0 (2 ^ 16 - 1).
Definition decodeValue_int : M Z := decodeValue_narrow decodeValue_signed (- 2 ^ 31) (2 ^ 31 - 1).
Definition decodeValue_unsigned_int : M Z := decodeValue_narrow decodeValue_unsigned 0 (2 ^ 32 - 1).
Definition decodeValue_long : M Z := decodeValue_narrow decodeValue_signed S64_MIN S64_MAX.
Definition decodeValue_unsigned_long : M Z := decodeValue_narrow decodeValue_unsigned 0 U64_MAX.

Definition string_numbers : list Z :=
  [TagNumber.e_UTF8_STRING; TagNumber.e_IA5_STRING; TagNumber.e_VISIBLE_STRING;
   TagNumber.e_PRINTABLE_STRING].

Definition decodeValue_text : M (list Z) :=
  let* length := checkContext string_numbers in
  guard (negb (length =? 0)) ;;*
  source (DecoderUtil.read length).

(** [decode] of the integer is total on octets; a failed assertion in it is
    an error here. *)
Definition decodeValue_integer : M AbstractInteger.integer :=
  let* length := checkContext [TagNumber.e_INTEGER] in
  guard (negb (length =? 0)) ;;*
  let* data := source (DecoderUtil.read length) in
  match AbstractInteger.decode data with
  | Some value => ret value
  | None => fail Error.e_UNKNOWN
  end.

Definition decodeValue_string : M AbstractString :=
  let* length := checkContext (string_numbers ++ [TagNumber.e_T61_STRING]) in
  guard (negb (length =? 0)) ;;*
  let* context := current in
  let* data := source (DecoderUtil.read length) in
  ret (mkString (d_tagNumber context) data).

Definition decodeValue_bits : M AbstractBitSequence :=
  let* length := checkContext [TagNumber.e_BIT_STRING] in
  guard (negb (length <? 2)) ;;*
  let* numBitsOmitted := source DecoderUtil.read_octet in
  let* data := source (DecoderUtil.read (length - 1)) in
  ret (mkBits TagNumber.e_BIT_STRING data numBitsOmitted).

Definition decodeValue_bytes : M AbstractByteSequence :=
  let* length := checkContext [TagNumber.e_OCTET_STRING] in
  guard (negb (length =? 0)) ;;*
  let* data := source (DecoderUtil.read length) in
  ret (mkBytes TagNumber.e_OCTET_STRING data).

(** The loop over the components. The number of octets that remain wraps
    around when a component does not end with the content, and then the loop
    goes on to the end of the source: each pass reads an octet. *)
Fixpoint decode_component (fuel : nat) (numBytesRemaining value : Z) : M (Z * Z) :=
  match fuel with
  | O => fail Error.e_EOF
  | S fuel =>
      let* nextOctet := source DecoderUtil.read_octet in
      let numBytesRemaining := wrap 64 (numBytesRemaining - 1) in
      let value := Z.lor (wrap 64 (Z.shiftl value 7)) (Z.land nextOctet 0x7F) in
      if Z.land nextOctet 0x80 =? 0 then ret (value, numBytesRemaining)
      else decode_component fuel numBytesRemaining value
  end.

Fixpoint decode_components (fuel : nat) (numBytesRemaining : Z) (result : AbstractObjectIdentifier)
  : M AbstractObjectIdentifier :=
  if numBytesRemaining >? 0 then
    match fuel with
    | O => fail Error.e_EOF
    | S fuel' =>
        let* (value, numBytesRemaining) := decode_component fuel numBytesRemaining 0 in
        decode_components fuel' numBytesRemaining (result ++ [value])
    end
  else ret result.

Definition decodeValue_identifier : M AbstractObjectIdentifier :=
  let* length := checkContext [TagNumber.e_OBJECT_IDENTIFIER] in
  guard (negb (length =? 0)) ;;*
  let* nextOctet := source DecoderUtil.read_octet in
  let result :=
    if nextOctet >=? 80 then [2; nextOctet - 80] else [nextOctet / 40; nextOctet mod 40] in
  fun d =>
    decode_components (S (List.length (Source.rest (d_buffer d)))) (length - 1) result d.

Definition decodeValue_value : M AbstractValue := fun d =>
  match d_contextStack d with
  | [] => (inl Error.e_INVALID, d)
  | context :: _ =>
      (let* data :=
         match d_contentLength context with
         | Some length => if length >? 0 then source (DecoderUtil.read length) else ret []
         | None => ret []
         end in
       ret (mkValue (d_tagClass context) (d_tagType context) (d_tagNumber context) data)) d
  end.

Definition decodeByte : M Z := source DecoderUtil.read_octet.

Definition skip : M unit := fun d =>
  match d_contextStack d with
  | [] => (inl Error.e_INVALID, d)
  | context :: _ =>
      match d_contentLength context with
      | None => (inl Error.e_INVALID, d)
      | Some length =>
          let currentPosition := Source.d_position (d_buffer d) in
          let endPosition := d_contentPosition context + length in
          if currentPosition >? endPosition then (inl Error.e_INVALID, d)
          else if currentPosition <? endPosition then source (DecoderUtil.seek endPosition) d
          else (inr tt, d)
      end
  end.

Definition pop : M unit := fun d => (inr tt, mk (d_buffer d) (tail (d_contextStack d))).

Definition decodeTagComplete : M unit := skip ;;* pop.

Definition rewindTag : M unit := fun d =>
  match d_contextStack d with
  | [] => (inl Error.e_INVALID, d)
  | context :: _ => (source (DecoderUtil.seek (d_tagPosition context)) ;;* pop) d
  end.

Definition rewindValue : M unit := fun d =>
  match d_contextStack d with
  | [] => (inl Error.e_INVALID, d)
  | context :: _ => source (DecoderUtil.seek (d_contentPosition context)) d
  end.

Definition seek (position : Z) : M unit := source (DecoderUtil.seek position).

Definition depth (d : t) : Z := size (d_contextStack d).

Definition contentBytesRemaining (d : t) : Z :=
  match d_contextStack d with
  | [] => 0
  | context :: _ =>
      match d_contentLength context with
      | None => 0
      | Some length =>
          let contentEnd := d_contentPosition context + length in
          let position := Source.d_position (d_buffer d) in
          if position >? contentEnd then 0 else contentEnd - position
      end
  end.

End Decoder.
