(* ===== verification/AbstractSyntaxFacts.v ===== *)
(** * Abstract syntax: the reference encoding and its octets

    The distinguished encoding of a tree of values as a function, and the facts
    that relate the utilities to it: what an operation on an output stream
    [writes] and what an operation on a source [reads], both closed under
    sequencing, so that the round trips compose. *)

From S2P Require Import Prelude Errors Integer AbstractSyntax AbstractSyntaxEncoder.
From S2P Require Import AbstractSyntaxDecoder.

(** ** The reference encoding *)
Module Reference.

(** The digits of a number, most significant first. *)
Fixpoint digits (base : Z) (k : nat) (n : Z) : list Z :=
  match k with
  | O => []
  | S k => (n / base ^ Z.of_nat k) mod base :: digits base k n
  end.

(** How many digits of [w] bits a number has. *)
Definition count (w n : Z) : nat := S (Z.to_nat (Z.log2 n / w)).

Definition octets256 (n : Z) : list Z := digits 256 (count 8 n) n.

(** All digits but the last have their high bit set. *)
Fixpoint continued (l : list Z) : list Z :=
  match l with
  | [] => []
  | [x] => [x]
  | x :: l => (x + 128) :: continued l
  end.

Definition octets128 (n : Z) : list Z := continued (digits 128 (count 7 n) n).

Definition tag_octets (tagClass : TagClass.t) (tagType : TagType.t) (tagNumber : Z) : list Z :=
  let first := TagClass.value tagClass + TagType.value tagType in
  if tagNumber <=? 30 then [first + tagNumber] else (first + 31) :: octets128 tagNumber.

Definition length_octets (n : Z) : list Z :=
  if n <=? 127 then [n] else (128 + size (octets256 n)) :: octets256 n.

(** A tag with its content, then its children. *)
#[warnings="-register-all"]
Inductive tree : Type :=
  Tree (tagClass : TagClass.t) (tagType : TagType.t) (tagNumber : Z) (content : list Z)
    (children : list tree).

Fixpoint ber (t : tree) : list Z :=
  match t with
  | Tree tagClass tagType tagNumber content children =>
      let body := content ++ concat (map ber children) in
      tag_octets tagClass tagType tagNumber ++ length_octets (size body) ++ body
  end.

Section tree_ind.
Context (P : tree -> Prop).
Context (HP : forall c t n content children, Forall P children -> P (Tree c t n content children)).

Lemma tree_nested_ind t : P t.
Proof.
  revert t. fix IH 1. intros [c t n content children]. apply HP.
  induction children as [|child children IHc]; constructor; [apply IH|exact IHc].
Qed.
End tree_ind.
End Reference.

(** ** What is written *)
Module Writes.
Import Codec EncoderUtil Reference.

(** A stream that takes what it is offered. *)
Class Reliable (B : Type) `{OutStream B} : Prop := {
  reliable_sputn : forall l b, (sb_sputn l b).2 = size l;
  reliable_pubsync : forall b, (sb_pubsync b).2 = true
}.

#[global] Instance memory_reliable `{MemoryLaws B} : Reliable B.
Proof. split; intros; [apply mem_sputn|apply mem_pubsync]. Qed.

Section Writes.
Context `{OutStreamLaws B}.

(** What is written is a prefix of [l], all of it when there is no error, and
    there is none on a reliable stream. *)
Definition writes (m : M B unit) (l : list Z) : Prop := forall b, exists p rest,
  l = p ++ rest /\
  sb_data (m b).2 = sb_data b ++ p /\
  ((m b).1 = inr tt -> rest = []) /\
  (Reliable B -> (m b).1 = inr tt).

Lemma writes_done : writes (ret tt) [].
Proof. intros b. exists [], []. cbn. rewrite app_nil_r. by split_and!. Qed.

Lemma writes_then m k l l' : writes m l -> writes k l' -> writes (m ;;* k) (l ++ l').
Proof.
  intros Hm Hk b. unfold bind. destruct (Hm b) as (p & rest & El & Ed & Eok & Er).
  destruct (m b) as [[e|[]] b']; cbn [fst snd] in *.
  - exists p, (rest ++ l'). subst l. rewrite app_assoc. split_and!; [done|done|done|].
    intros R. by specialize (Er R).
  - rewrite (Eok eq_refl), app_nil_r in El. subst l.
    destruct (Hk b') as (p' & rest' & El' & Ed' & Eok' & Er').
    exists (p ++ p'), rest'. subst l'. rewrite Ed', Ed, !app_assoc. by split_and!.
Qed.

Lemma writes_assoc (a b c : M B unit) l : writes (a ;;* (b ;;* c)) l -> writes ((a ;;* b) ;;* c) l.
Proof. intros Hw s. specialize (Hw s). unfold bind in *. by destruct (a s) as [[e|[]] s']. Qed.

Lemma writes_write l : writes (write l) l.
Proof.
  intros b. unfold write. pose proof (sputn_prefix l b) as [Hn Hd].
  pose proof (fun R : Reliable B => reliable_sputn l b) as HR.
  destruct (sb_sputn l b) as [b' n]. cbn [fst snd] in *.
  exists (take (Z.to_nat n) l), (drop (Z.to_nat n) l). rewrite take_drop.
  destruct (Z.eqb_spec n (size l)) as [->|Hne]; cbn [fst snd].
  - split_and!; [done|done|intros _|done].
    apply drop_ge. unfold size. lia.
  - split_and!; [done|done|done|]. intros R. by specialize (HR R).
Qed.

Lemma writes_octet x : 0 <= x < 256 -> writes (write_octet x) [x].
Proof. intros Hx. unfold write_octet. rewrite wrap_small by done. apply writes_write. Qed.

Lemma writes_synchronize : writes EncoderUtil.synchronize [].
Proof.
  intros b. unfold EncoderUtil.synchronize. pose proof (pubsync_data b) as Hd.
  pose proof (fun R : Reliable B => reliable_pubsync b) as HR.
  destruct (sb_pubsync b) as [b' ok]. cbn [fst snd] in *.
  exists [], []. destruct ok; cbn; rewrite app_nil_r; (split_and!; [done|done|done|]);
    intros R; [done|by specialize (HR R)].
Qed.

Lemma writes_eq m l l' : writes m l -> l = l' -> writes m l'.
Proof. by intros ? <-. Qed.

(** On a reliable stream the result is known. *)
Lemma writes_reliable `{!Reliable B} m l b :
  writes m l -> exists b', m b = (inr tt, b') /\ sb_data b' = sb_data b ++ l.
Proof.
  intros Hm. destruct (Hm b) as (p & rest & -> & Ed & Eok & Er). specialize (Er _).
  rewrite (Eok Er), app_nil_r. exists (m b).2. split; [|done]. rewrite <- Er. by destruct (m b).
Qed.


(** *** Digits *)

Lemma count_bytes_spec fuel v i :
  0 < v < 2 ^ (8 * Z.of_nat (S fuel)) ->
  exists j, count_bytes fuel v i = (Z.shiftr v (8 * j), i + 8 * j) /\
    0 <= j /\ 0 < Z.shiftr v (8 * j) < 256.
Proof.
  revert v i. induction fuel as [|fuel IH]; intros v i Hv; cbn [count_bytes].
  { change (2 ^ (8 * Z.of_nat 1)) with 256 in Hv.
    exists 0. rewrite Z.mul_0_r, Z.shiftr_0_r, Z.add_0_r. split_and!; [done|lia..]. }
  destruct (Z.gtb_spec v 255) as [Hgt|Hle].
  - assert (0 < Z.shiftr v 8 < 2 ^ (8 * Z.of_nat (S fuel))) as Hv'.
    { rewrite Z.shiftr_div_pow2 by lia. split; [apply Z.div_str_pos; lia|].
      apply Z.div_lt_upper_bound; [lia|]. rewrite <- Z.pow_add_r by lia.
      replace (8 + 8 * Z.of_nat (S fuel)) with (8 * Z.of_nat (S (S fuel))) by lia. apply Hv. }
    destruct (IH _ (i + 8) Hv') as (j & E & Hj & Hr). exists (j + 1).
    rewrite Z.shiftr_shiftr in E, Hr by lia.
    replace (8 * (j + 1)) with (8 + 8 * j) by lia. rewrite E. split_and!; [f_equal; lia|lia|lia..].
  - exists 0. rewrite Z.mul_0_r, Z.shiftr_0_r, Z.add_0_r. split_and!; [done|lia..].
Qed.

Lemma count_bits_spec fuel v i :
  0 < v < 2 ^ Z.of_nat fuel -> count_bits fuel v i = i + Z.log2 v + 1.
Proof.
  revert v i. induction fuel as [|fuel IH]; intros v i Hv; [cbn in Hv; lia|].
  cbn [count_bits]. rewrite (proj2 (Z.eqb_neq v 0)) by lia. cbn [negb].
  destruct (Z.eq_dec v 1) as [->|Hne].
  { change (Z.shiftr 1 1) with 0. change (Z.log2 1) with 0. destruct fuel; cbn; lia. }
  rewrite IH.
  - rewrite Z.log2_shiftr by lia. assert (1 <= Z.log2 v) by (apply Z.log2_le_pow2; lia). lia.
  - rewrite Z.shiftr_div_pow2 by lia. change (2 ^ 1) with 2. split; [apply Z.div_str_pos; lia|].
    apply Z.div_lt_upper_bound; [lia|]. rewrite Nat2Z.inj_succ, Z.pow_succ_r in Hv by lia. lia.
Qed.

Lemma numSignificantBits_log2 v : 0 <= v < 2 ^ 64 -> numSignificantBits v = Z.log2 v + 1.
Proof.
  intros Hv. unfold numSignificantBits. destruct (Z.eqb_spec v 0) as [->|Hne]; [done|].
  destruct (count_bytes_spec 8 v 0) as (j & E & Hj & Hr).
  { split; [lia|]. etrans; [apply Hv|]. by apply Z.pow_lt_mono_r. }
  rewrite E, count_bits_spec by (change (2 ^ Z.of_nat 8) with 256; lia).
  assert (8 * j <= Z.log2 v).
  { apply Z.log2_le_pow2; [lia|]. rewrite Z.shiftr_div_pow2 in Hr by lia.
    pose proof (pow2_pos (8 * j) ltac:(lia)). destruct (Z.le_gt_cases (2 ^ (8 * j)) v) as [|Hgt]; [done|].
    rewrite Z.div_small in Hr by lia. lia. }
  rewrite Z.log2_shiftr, Z.max_r by lia. lia.
Qed.

Lemma digits_count w n :
  0 < w -> 0 <= n < 2 ^ 64 -> (numSignificantBits n + (w - 1)) / w = Z.of_nat (count w n).
Proof.
  intros Hw Hn. rewrite numSignificantBits_log2 by done. unfold count.
  pose proof (Z.log2_nonneg n).
  replace (Z.log2 n + 1 + (w - 1)) with (Z.log2 n + 1 * w) by lia.
  rewrite Z.div_add by lia. pose proof (Z.div_pos (Z.log2 n) w ltac:(lia) ltac:(lia)). lia.
Qed.

Lemma write_base256_writes k n : 0 <= n -> writes (write_base256 k n) (digits 256 k n).
Proof.
  intros Hn. induction k as [|k IH]; [apply writes_done|]. cbn [write_base256 digits].
  change 255 with (Z.ones 8). rewrite Z.land_ones, Z.shiftr_div_pow2 by lia.
  change 256 with (2 ^ 8). rewrite <- Z.pow_mul_r by lia.
  apply (writes_then _ _ [_]); [|done]. apply writes_octet. apply Z.mod_pos_bound. done.
Qed.

Lemma lor_128 x : 0 <= x < 128 -> Z.lor x 128 = x + 128.
Proof. intros Hx. rewrite Z.lor_comm. change 128 with (1 * 2 ^ 7) at 1. rewrite lor_disjoint; lia. Qed.

Lemma write_base128_writes k n :
  0 <= n ->
  writes (write_base128 k n ;;* write_octet (Z.land n 0x7F)) (continued (digits 128 (S k) n)).
Proof.
  intros Hn. induction k as [|k IH].
  - cbn. rewrite Z.div_1_r, Octets.land_127. apply (writes_then _ _ []); [apply writes_done|].
    apply writes_octet. pose proof (Z.mod_pos_bound n 128). lia.
  - apply writes_assoc.
    change (continued (digits 128 (S (S k)) n)) with
      ([(n / 128 ^ Z.of_nat (S k)) mod 128 + 128] ++ continued (digits 128 (S k) n)).
    apply writes_then; [|exact IH]. rewrite Octets.land_127, Z.shiftr_div_pow2, Z.pow_mul_r by lia.
    change (2 ^ 7) with 128. pose proof (Z.mod_pos_bound (n / 128 ^ Z.of_nat (S k)) 128 ltac:(lia)).
    rewrite lor_128 by lia. apply writes_octet. lia.
Qed.

Lemma encodeIntegerBase128_writes n : 0 <= n < 2 ^ 64 -> writes (encodeIntegerBase128 n) (octets128 n).
Proof.
  intros Hn. unfold encodeIntegerBase128, octets128.
  change 6 with (7 - 1). rewrite (digits_count 7 n) by done.
  replace (Z.to_nat (Z.of_nat (count 7 n) - 1)) with (Z.to_nat (Z.log2 n / 7)) by (unfold count; lia).
  apply write_base128_writes. lia.
Qed.

Lemma tag_first c t x : 0 <= x < 32 ->
  Z.lor (Z.lor (TagClass.value c) (TagType.value t)) x = TagClass.value c + TagType.value t + x /\
  0 <= TagClass.value c + TagType.value t + x < 256.
Proof.
  intros Hx.
  assert (exists m, Z.lor (TagClass.value c) (TagType.value t) = m * 2 ^ 5 /\
    TagClass.value c + TagType.value t = m * 2 ^ 5 /\ 0 <= m < 8) as (m & -> & -> & Hm).
  { exists ((TagClass.value c + TagType.value t) / 32). by destruct c, t. }
  rewrite lor_disjoint by lia. split; lia.
Qed.

Lemma encodeTag_writes c t n :
  0 <= n < 2 ^ 64 -> writes (EncoderUtil.encodeTag c t n) (tag_octets c t n).
Proof.
  intros Hn. unfold EncoderUtil.encodeTag, tag_octets, k_MAX_TAG_NUMBER_IN_ONE_OCTET.
  destruct (Z.leb_spec n 30).
  - destruct (tag_first c t n) as [-> Hr]; [lia|]. by apply writes_octet.
  - unfold k_TAG_MASK_NUMBER. destruct (tag_first c t 0x1F) as [-> Hr]; [lia|].
    apply (writes_then _ _ [_]); [by apply writes_octet|by apply encodeIntegerBase128_writes].
Qed.

Lemma length_digits base k n : length (digits base k n) = k.
Proof. induction k as [|k IH]; [done|]. cbn. by rewrite IH. Qed.

Lemma count_max w n k : 0 < w -> 0 <= n < 2 ^ (w * Z.of_nat k) -> (0 < k)%nat -> (count w n <= k)%nat.
Proof.
  intros Hw Hn Hk. unfold count. destruct (Z.eq_dec n 0) as [->|Hne]; [|].
  { change (Z.log2 0) with 0. rewrite Z.div_0_l by lia. cbn. lia. }
  assert (Z.log2 n < w * Z.of_nat k) by (apply Z.log2_lt_pow2; lia).
  assert (Z.log2 n / w < Z.of_nat k) by (apply Z.div_lt_upper_bound; lia). lia.
Qed.

Lemma encodeLength_writes n :
  0 <= n < 2 ^ 64 -> writes (EncoderUtil.encodeLength n) (length_octets n).
Proof.
  intros Hn. unfold EncoderUtil.encodeLength, length_octets, k_MAX_LENGTH_IN_ONE_OCTET.
  destruct (Z.leb_spec n 127); [apply writes_octet; lia|].
  change 7 with (8 - 1). rewrite (digits_count 8 n), Nat2Z.id by done.
  pose proof (count_max 8 n 8 ltac:(lia) Hn ltac:(lia)).
  assert (size (octets256 n) = Z.of_nat (count 8 n)) as ->.
  { unfold size, octets256. by rewrite length_digits. }
  rewrite lor_128, Z.add_comm by lia.
  apply (writes_then _ _ [_]); [apply writes_octet; lia|apply write_base256_writes; lia].
Qed.

End Writes.
End Writes.

(** ** What is read *)
Module Reads.
Import Codec DecoderUtil Reference Source.

(** From the octets [l], wherever they are, the value [v]; [host] is the state
    around the source, which does not change. *)
Definition reads_in {S A} (host : Source.t -> S) (m : M S A) (l : list Z) (v : A) : Prop :=
  forall pre post,
  m (host (Source.mk (pre ++ l ++ post) (size pre))) =
  (inr v, host (Source.mk (pre ++ l ++ post) (size (pre ++ l)))).

Section In.
Context {S : Type} (host : Source.t -> S).

Lemma reads_done {A} (v : A) : reads_in host (ret v) [] v.
Proof. intros pre post. by rewrite app_nil_r. Qed.

Lemma reads_then {A B} (m : M S A) (k : A -> M S B) l l' v w :
  reads_in host m l v -> reads_in host (k v) l' w -> reads_in host (bind m k) (l ++ l') w.
Proof.
  intros Hm Hk pre post. unfold bind. rewrite <- (app_assoc l), (Hm pre), (app_assoc pre l).
  by rewrite (Hk (pre ++ l)), <- !app_assoc.
Qed.

(** An operation that reads nothing, at the end and at the start. *)
Lemma reads_bind_ret {A B} (m : M S A) (f : A -> B) l v :
  reads_in host m l v -> reads_in host (bind m (fun x => ret (f x))) l (f v).
Proof. intros Hm. rewrite <- (app_nil_r l). apply (reads_then _ _ _ _ v); [done|apply reads_done]. Qed.

Lemma reads_ret_bind {A B} (a : A) (k : A -> M S B) l v :
  reads_in host (k a) l v -> reads_in host (bind (ret a) k) l v.
Proof. intros Hk. apply (reads_then (ret a) _ [] l a); [apply reads_done|done]. Qed.
End In.

#[local] Abbreviation reads := (reads_in (fun s : Source.t => s)).

Lemma rest_app pre post : Source.rest (Source.mk (pre ++ post) (size pre)) = post.
Proof. unfold rest, size. cbn. by rewrite Nat2Z.id, drop_app_length. Qed.

Lemma reads_octet x : reads read_octet [x] x.
Proof.
  intros pre post. unfold read_octet, sbumpc. rewrite rest_app. cbn.
  by rewrite size_app.
Qed.

Lemma reads_cons {A} (k : Z -> M Source.t A) x l v :
  reads (k x) l v -> reads (bind read_octet k) (x :: l) v.
Proof. intros Hk. apply (reads_then _ _ _ [x] l x); [apply reads_octet|done]. Qed.

Lemma reads_read l : reads (read (size l)) l l.
Proof.
  intros pre post. unfold read, sgetn. rewrite rest_app. cbn [d_octets d_position].
  assert (take (Z.to_nat (size l)) (l ++ post) = l) as ->.
  { unfold size. rewrite Nat2Z.id. apply take_app_length. }
  by rewrite Z.eqb_refl, size_app.
Qed.

(** *** Digits *)

Lemma digits_step base acc k n : 0 < base ->
  (acc * base + (n / base ^ Z.of_nat k) mod base) * base ^ Z.of_nat k + n mod base ^ Z.of_nat k =
  acc * base ^ Z.of_nat (S k) + n mod base ^ Z.of_nat (S k).
Proof.
  intros Hb. rewrite Nat2Z.inj_succ, Z.pow_succ_r by lia. rewrite (Z.mul_comm base (base ^ _)).
  assert (0 < base ^ Z.of_nat k) by (apply Z.pow_pos_nonneg; lia).
  rewrite (Z.rem_mul_r n (base ^ Z.of_nat k) base) by lia. ring.
Qed.

(** The number after a digit, which is at most the one after all. *)
Lemma digits_step_le base acc k n : 0 < base -> 0 <= acc ->
  0 <= acc * base + (n / base ^ Z.of_nat k) mod base <=
  acc * base ^ Z.of_nat (S k) + n mod base ^ Z.of_nat (S k).
Proof.
  intros Hb Ha. rewrite <- digits_step by done.
  assert (0 < base ^ Z.of_nat k) as Hp by (apply Z.pow_pos_nonneg; lia).
  pose proof (Z.mod_pos_bound n _ Hp). pose proof (Z.mod_pos_bound (n / base ^ Z.of_nat k) base Hb).
  nia.
Qed.

Lemma lor_shift w acc x :
  0 < w -> 0 <= acc -> 0 <= x < 2 ^ w -> acc * 2 ^ w + x < 2 ^ 64 ->
  Z.lor (wrap 64 (Z.shiftl acc w)) x = acc * 2 ^ w + x.
Proof.
  intros Hw Ha Hx Hs. rewrite Z.shiftl_mul_pow2 by lia. rewrite wrap_small by nia.
  apply lor_disjoint; lia.
Qed.

(** The octet of a digit in base 128, with its high bit set unless it is the last. *)
Definition digit_octet (k : nat) (x : Z) : Z := match k with O => x | S _ => x + 128 end.

Lemma continued_digits k n :
  continued (digits 128 (S k) n) =
  digit_octet k ((n / 128 ^ Z.of_nat k) mod 128) ::
  match k with O => [] | S k => continued (digits 128 (S k) n) end.
Proof. by destruct k. Qed.

Lemma length_continued k n : length (continued (digits 128 (S k) n)) = S k.
Proof. induction k as [|k IH]; [done|]. rewrite continued_digits. cbn [length]. by rewrite IH. Qed.

Lemma digit_octet_bits k x : 0 <= x < 128 ->
  Z.land (digit_octet k x) 0x7F = x /\
  (Z.land (digit_octet k x) 0x80 =? 0) = match k with O => true | S _ => false end /\
  0 <= digit_octet k x < 256.
Proof.
  intros Hx. rewrite Octets.land_127. unfold digit_octet. destruct k.
  - rewrite Octets.land_sign, (proj2 (Z.leb_gt _ _)), Z.mod_small by lia. split_and!; [done|done|lia..].
  - rewrite Octets.land_sign, (proj2 (Z.leb_le _ _)) by lia. split_and!; [|done|lia..].
    symmetry. apply (Z.mod_unique _ _ 1); lia.
Qed.

(** Each of the loops over the octets of a number in base 128 takes a digit:
    the step they share. *)
Lemma digit_octet_step k acc n :
  0 <= acc -> acc * 128 ^ Z.of_nat (S k) + n mod 128 ^ Z.of_nat (S k) < 2 ^ 64 ->
  Z.lor (wrap 64 (Z.shiftl acc 7)) (Z.land (digit_octet k ((n / 128 ^ Z.of_nat k) mod 128)) 0x7F) =
  acc * 128 + (n / 128 ^ Z.of_nat k) mod 128.
Proof.
  intros Ha Hlt. pose proof (Z.mod_pos_bound (n / 128 ^ Z.of_nat k) 128 ltac:(lia)) as Hx.
  pose proof (digits_step_le 128 acc k n ltac:(lia) Ha).
  rewrite (proj1 (digit_octet_bits k _ Hx)). change 128 with (2 ^ 7) at 3 5.
  apply (lor_shift 7); [lia|lia|done|]. change (2 ^ 7) with 128. lia.
Qed.

(** Both loops that read such a number, with their fuel. *)
Lemma base128_reads (loop : nat -> Z -> M Source.t Z) fuel k acc n :
  (forall fuel acc, loop (S fuel) acc =
     (let* octet := read_octet in
      let acc := Z.lor (wrap 64 (Z.shiftl acc 7)) (Z.land octet 0x7F) in
      if Z.land octet 0x80 =? 0 then ret acc else loop fuel acc)) ->
  (k < fuel)%nat -> 0 <= acc -> acc * 128 ^ Z.of_nat (S k) + n mod 128 ^ Z.of_nat (S k) < 2 ^ 64 ->
  reads (loop fuel acc) (continued (digits 128 (S k) n))
    (acc * 128 ^ Z.of_nat (S k) + n mod 128 ^ Z.of_nat (S k)).
Proof.
  intros Hloop. revert k acc. induction fuel as [|fuel IH]; intros k acc Hk Ha Hlt; [lia|].
  rewrite continued_digits, Hloop. apply reads_cons. rewrite digit_octet_step by done.
  pose proof (Z.mod_pos_bound (n / 128 ^ Z.of_nat k) 128 ltac:(lia)) as Hx.
  pose proof (digits_step_le 128 acc k n ltac:(lia) Ha).
  destruct (digit_octet_bits k _ Hx) as (_ & -> & _).
  rewrite <- digits_step in Hlt |- * by lia. destruct k as [|k].
  - cbn [Z.of_nat] in *. rewrite Z.pow_0_r, Z.mul_1_r, Z.mod_1_r, Z.add_0_r. apply reads_done.
  - apply IH; [lia|lia|done].
Qed.

Lemma below_count w n : 0 < w -> 0 <= n -> n < (2 ^ w) ^ Z.of_nat (count w n).
Proof.
  intros Hw Hn. unfold count. rewrite <- Z.pow_mul_r by lia.
  pose proof (Z.div_pos (Z.log2 n) w (Z.log2_nonneg n) Hw).
  pose proof (Z.mul_succ_div_gt (Z.log2 n) w Hw).
  destruct (Z.eq_dec n 0) as [->|Hne]; [apply pow2_pos; lia|].
  apply Z.log2_lt_pow2; lia.
Qed.

Lemma octets128_reads (loop : nat -> Z -> M Source.t Z) fuel n :
  (forall fuel acc, loop (S fuel) acc =
     (let* octet := read_octet in
      let acc := Z.lor (wrap 64 (Z.shiftl acc 7)) (Z.land octet 0x7F) in
      if Z.land octet 0x80 =? 0 then ret acc else loop fuel acc)) ->
  (length (octets128 n) <= fuel)%nat -> 0 <= n < 2 ^ 64 -> reads (loop fuel 0) (octets128 n) n.
Proof.
  intros Hloop Hf Hn. pose proof (below_count 7 n ltac:(lia) ltac:(lia)) as Hb.
  change (2 ^ 7) with 128 in Hb.
  assert (0 * 128 ^ Z.of_nat (count 7 n) + n mod 128 ^ Z.of_nat (count 7 n) = n) as Hv.
  { rewrite Z.mod_small by lia. lia. }
  unfold octets128 in *.
  pose proof (base128_reads loop fuel (Z.to_nat (Z.log2 n / 7)) 0 n Hloop) as Hr.
  change (S (Z.to_nat (Z.log2 n / 7))) with (count 7 n) in Hr. rewrite Hv in Hr.
  unfold count at 1 in Hf. rewrite length_continued in Hf. apply Hr; lia.
Qed.

Lemma decodeIntegerBase128_reads n :
  0 <= n < 2 ^ 64 -> reads decodeIntegerBase128 (octets128 n) n.
Proof.
  intros Hn pre post. unfold decodeIntegerBase128. rewrite rest_app.
  apply (octets128_reads decode_base128); [done| |done]. rewrite length_app. lia.
Qed.

Lemma decode_octets_reads k acc n :
  0 <= acc -> acc * 256 ^ Z.of_nat k + n mod 256 ^ Z.of_nat k < 2 ^ 64 ->
  reads (decode_octets k acc) (digits 256 k n) (acc * 256 ^ Z.of_nat k + n mod 256 ^ Z.of_nat k).
Proof.
  revert acc. induction k as [|k IH]; intros acc Ha Hlt.
  { cbn [Z.of_nat]. rewrite Z.pow_0_r, Z.mul_1_r, Z.mod_1_r, Z.add_0_r. apply reads_done. }
  cbn [decode_octets digits]. apply reads_cons.
  pose proof (Z.mod_pos_bound (n / 256 ^ Z.of_nat k) 256 ltac:(lia)) as Hx.
  pose proof (digits_step_le 256 acc k n ltac:(lia) Ha).
  change 256 with (2 ^ 8) at 1 2. rewrite (lor_shift 8); change (2 ^ 8) with 256; [|lia..].
  rewrite <- digits_step in Hlt |- * by lia. apply IH; [lia|done].
Qed.

(** *** Tags and lengths *)

Lemma tag_first_bits c t x : 0 <= x < 32 ->
  let octet := TagClass.value c + TagType.value t + x in
  Z.land octet 0xC0 = TagClass.value c /\ Z.land octet 0x20 = TagType.value t /\ Z.land octet 0x1F = x.
Proof.
  intros Hx. cbn zeta.
  assert (forallb (fun c => forallb (fun t => forallb (fun n =>
    let octet := TagClass.value c + TagType.value t + Z.of_nat n in
    (Z.land octet 0xC0 =? TagClass.value c) && (Z.land octet 0x20 =? TagType.value t) &&
    (Z.land octet 0x1F =? Z.of_nat n)) (seq 0 32)) [TagType.e_PRIMITIVE; TagType.e_CONSTRUCTED])
    [TagClass.e_UNIVERSAL; TagClass.e_APPLICATION; TagClass.e_CONTEXT_SPECIFIC; TagClass.e_PRIVATE]
    = true) as H by (vm_compute; reflexivity).
  rewrite forallb_forall in H. specialize (H c ltac:(destruct c; cbn; tauto)).
  rewrite forallb_forall in H. specialize (H t ltac:(destruct t; cbn; tauto)).
  rewrite forallb_forall in H. specialize (H (Z.to_nat x) ltac:(apply in_seq; lia)).
  rewrite Z2Nat.id in H by lia. cbn zeta in H. rewrite !andb_true_iff, !Z.eqb_eq in H. tauto.
Qed.

Lemma class_fromValue c : TagClass.fromValue (TagClass.value c) = inr c.
Proof. by destruct c. Qed.

Lemma type_fromValue t : TagType.fromValue (TagType.value t) = inr t.
Proof. by destruct t. Qed.

Lemma decodeTag_reads c t n : 0 <= n <= 256 -> reads DecoderUtil.decodeTag (tag_octets c t n) (c, t, n).
Proof.
  intros Hn. unfold DecoderUtil.decodeTag, tag_octets.
  assert (forall l x, 0 <= x < 32 ->
    reads (if x =? 31 then decode_tagNumber k_MAX_TAG_NUMBER_OCTETS 0 else ret x) l n ->
    reads DecoderUtil.decodeTag ((TagClass.value c + TagType.value t + x) :: l) (c, t, n)) as Hd.
  { intros l x Hx Hr. unfold DecoderUtil.decodeTag. apply reads_cons.
    unfold k_TAG_MASK_CLASS, k_TAG_MASK_TYPE, k_TAG_MASK_NUMBER.
    destruct (tag_first_bits c t x Hx) as (-> & -> & ->). rewrite class_fromValue, type_fromValue.
    apply (reads_ret_bind _ c), (reads_ret_bind _ t).
    rewrite <- (app_nil_r l). apply (reads_then _ _ _ _ _ n); [done|].
    assert (TagNumber.validate n = Error.e_OK) as ->; [|apply reads_done].
    unfold TagNumber.validate. destruct (Z.gtb_spec n 256); [lia|done]. }
  destruct (Z.leb_spec n 30).
  - apply (Hd []); [lia|]. rewrite (proj2 (Z.eqb_neq _ _)) by lia. apply reads_done.
  - apply (Hd (octets128 n) 31); [lia|]. rewrite Z.eqb_refl.
    apply (octets128_reads decode_tagNumber); [done| |lia].
    unfold octets128. pose proof (Writes.count_max 7 n 2 ltac:(lia)) as Hc.
    change (2 ^ (7 * Z.of_nat 2)) with 16384 in Hc. specialize (Hc ltac:(lia) ltac:(lia)).
    assert (forall l, (length (continued l) <= length l)%nat) as Hl.
    { intros l. induction l as [|y [|y' l] IH]; [done|done|]. cbn in *. lia. }
    etrans; [apply Hl|]. rewrite Writes.length_digits. unfold k_MAX_TAG_NUMBER_OCTETS. lia.
Qed.

Lemma decodeLength_reads n : 0 <= n < 2 ^ 32 -> reads decodeLength (length_octets n) (Some n).
Proof.
  intros Hn. unfold decodeLength, length_octets. destruct (Z.leb_spec n 127).
  - apply reads_cons. rewrite (proj2 (Z.eqb_neq _ _)), Octets.land_sign by lia.
    rewrite (proj2 (Z.leb_gt _ _)) by lia. apply reads_done.
  - pose proof (Writes.count_max 8 n 4 ltac:(lia) Hn ltac:(lia)) as Hc.
    assert (size (octets256 n) = Z.of_nat (count 8 n)) as Hs.
    { unfold size, octets256. by rewrite Writes.length_digits. }
    assert (0 < count 8 n)%nat by (unfold count; lia).
    apply reads_cons. rewrite Hs. set (k := count 8 n) in *.
    rewrite (proj2 (Z.eqb_neq _ _)), Octets.land_sign, Octets.land_127 by lia.
    rewrite (proj2 (Z.leb_le _ _)) by lia. change (128 =? 0) with false. cbn iota.
    assert ((128 + Z.of_nat k) mod 128 = Z.of_nat k) as ->.
    { symmetry. apply (Z.mod_unique _ _ 1); lia. }
    destruct (Z.gtb_spec (Z.of_nat k) 4); [lia|]. cbn [negb guard].
    apply (reads_ret_bind _ tt), reads_bind_ret.
    rewrite Nat2Z.id. pose proof (below_count 8 n ltac:(lia) ltac:(lia)) as Hb.
    change (2 ^ 8) with 256 in Hb. fold k in Hb. unfold octets256. fold k.
    assert (0 * 256 ^ Z.of_nat k + n mod 256 ^ Z.of_nat k = n) as Hv.
    { rewrite Z.mod_small by lia. lia. }
    pose proof (decode_octets_reads k 0 n) as Hr. rewrite Hv in Hr. apply Hr; lia.
Qed.

End Reads.
