(* ===== verification/AbstractSyntaxEncoding.v ===== *)
(** * Abstract syntax: what the encoder writes

    The sequence of calls that encodes a tree, the frames that it leaves, and the
    octets that they are written out to; what each value adds to the content of a
    frame. *)

From S2P Require Import Prelude Errors Integer AbstractSyntax AbstractSyntaxEncoder.
From S2P Require Import AbstractSyntaxDecoder AbstractSyntaxFacts.

Module Encoding.
Import Codec EncoderUtil Values Encoder Reference Writes.

(** Tag numbers of at most [maxTag], and contents of less than [maxLength] octets. *)
#[warnings="-register-all"]
Inductive fits (maxTag maxLength : Z) : tree -> Prop :=
| fits_intro c t n content children :
    0 <= n <= maxTag ->
    size (content ++ concat (map ber children)) < maxLength ->
    Forall (fits maxTag maxLength) children ->
    fits maxTag maxLength (Tree c t n content children).

Section Encoding.
Context `{OutStream Buf} `{!Memory Buf} `{!MemoryLaws Buf} `{OutStreamLaws Dest}.

#[local] Abbreviation frame := (Encoder.frame Buf).
#[local] Abbreviation t := (Encoder.t (Buf := Buf) (Dest := Dest)).

(** ** The frames of a tree *)

#[warnings="-register-all"]
Inductive complete : tree -> frame -> Prop :=
| complete_intro c ty n content children f :
    d_tagClass f = c -> d_tagType f = ty -> d_tagNumber f = n ->
    d_length f = size (ber (Tree c ty n content children)) ->
    sb_data (d_header f) =
      tag_octets c ty n ++ length_octets (size (content ++ concat (map ber children))) ->
    sb_data (d_content f) = content ->
    Forall2 complete children (d_children f) ->
    complete (Tree c ty n content children) f.

(** The frame of a tag of which [children] are complete. *)
Definition open_frame (c : TagClass.t) (ty : TagType.t) (n : Z) (content : list Z)
    (children : list tree) (f : frame) : Prop :=
  d_tagClass f = c /\ d_tagType f = ty /\ d_tagNumber f = n /\ d_length f = 0 /\
  sb_data (d_header f) = [] /\ sb_data (d_content f) = content /\
  Forall2 complete children (d_children f).

Lemma tag_octets_cons c ty n : exists x l, tag_octets c ty n = x :: l.
Proof. unfold tag_octets. case_match; eauto. Qed.

Lemma ber_positive tr : 0 < size (ber tr).
Proof.
  destruct tr as [c ty n content children]. cbn [ber].
  destruct (tag_octets_cons c ty n) as (x & l & ->). generalize (concat (map ber children)) as k.
  intros k. szlia.
Qed.

Lemma synchronize_complete tr f length :
  complete tr f -> synchronize f length = (inr (length + size (ber tr)), f).
Proof.
  intros Hc. inversion Hc as [c ty n content children f' E1 E2 E3 El E4 E5 E6]; subst.
  destruct f as [fc fty fn fl fh fcont fch]. cbn [Encoder.d_length d_tagClass d_tagType
    d_tagNumber d_content] in *.
  cbn [synchronize]. rewrite El. rewrite (proj2 (Z.gtb_lt _ _)) by apply ber_positive. done.
Qed.

Lemma synchronize_children_complete trees frames length :
  Forall2 complete trees frames ->
  synchronize_children synchronize frames length =
  (inr (length + size (concat (map ber trees))), frames).
Proof.
  intros Hf. revert length. induction Hf as [|tr f trees frames Hc Hf IH]; intros length; cbn.
  - rewrite size_nil. do 2 f_equal. lia.
  - rewrite (synchronize_complete tr) by done. rewrite IH, size_app. do 2 f_equal. lia.
Qed.

Lemma synchronize_open c ty n content children f length :
  open_frame c ty n content children f ->
  fits U64_MAX (2 ^ 64) (Tree c ty n content children) ->
  exists f', synchronize f length =
    (inr (length + size (ber (Tree c ty n content children))), f') /\
    complete (Tree c ty n content children) f'.
Proof.
  intros (<- & <- & <- & Hl & Hh & Hcont & Hch) Hfits. inversion_clear Hfits as [? ? ? ? ? Hn Hs _].
  set (total := size (content ++ concat (map ber children))) in *.
  pose proof (size_nonneg (content ++ concat (map ber children))) as Hs0. fold total in Hs0.
  destruct f as [fc fty fn fl fh fcont fch].
  cbn [Encoder.d_length d_tagClass d_tagType d_tagNumber d_content d_header d_children] in *.
  subst fl. cbn [synchronize]. change (0 >? 0) with false. cbn iota.
  assert (match fch with
    | [] => (inr (size (sb_data fcont)), [])
    | _ => synchronize_children synchronize fch
        (if negb (size (sb_data fcont) =? 0) then size (sb_data fcont) else 0)
    end = (inr total, fch)) as ->.
  { assert (size content + size (concat (map ber children)) = total) as Ht
      by (unfold total; by rewrite size_app).
    destruct Hch as [|tr f' trees frames Hc Hch]; rewrite Hcont.
    - cbn in Ht. rewrite size_nil in Ht. do 2 f_equal. lia.
    - rewrite (synchronize_children_complete (tr :: trees)) by by constructor.
      do 2 f_equal. destruct (Z.eqb_spec (size content) 0); cbn [negb]; lia. }
  assert (writes (B := Buf) (EncoderUtil.encodeTag fc fty fn ;;* encodeLength total ;;* EncoderUtil.synchronize)
    (tag_octets fc fty fn ++ length_octets total)) as Hw.
  { rewrite <- (app_nil_r (length_octets total)). unfold U64_MAX in Hn.
    apply writes_then; [apply encodeTag_writes; lia|].
    apply writes_then; [by apply encodeLength_writes|apply writes_synchronize]. }
  destruct (writes_reliable _ _ fh Hw) as (h & E & Hd). unfold writeTagAndLength.
  cbn [d_tagClass d_tagType d_tagNumber d_header]. rewrite E. rewrite Hh in Hd. cbn [app] in Hd.
  assert (total + size (sb_data h) = size (ber (Tree fc fty fn content children))) as Et.
  { rewrite Hd. cbn [ber]. fold total. rewrite !(size_app _ (_ ++ _)). fold total. rewrite !size_app. lia. }
  eexists. rewrite Et. split; [done|]. by constructor.
Qed.

(** ** The octets of the frames *)

Lemma flush_writes tr f : complete tr f -> writes (flush (Dest := Dest) f) (ber tr).
Proof.
  revert f. induction tr as [c ty n content children IH] using tree_nested_ind.
  intros f Hc. inversion Hc as [? ? ? ? ? f' E1 E2 E3 El Eh Ec Ech]; subst.
  destruct f as [fc fty fn fl fh fcont fch].
  cbn [Encoder.d_length d_tagClass d_tagType d_tagNumber d_content d_header d_children] in *.
  cbn [flush ber]. rewrite Eh.
  assert (writes (flush_children (flush (Dest := Dest)) fch) (concat (map ber children))) as Hch.
  { clear - IH Ech. induction Ech as [|tr f trees frames Hc Hf IHf]; [apply writes_done|].
    inversion_clear IH. cbn. apply writes_then; auto. }
  set (total := size (sb_data fcont ++ concat (map ber children))) in *.
  destruct (tag_octets_cons fc fty fn) as (x & l & Et).
  rewrite (proj2 (Z.eqb_neq _ _)) by (rewrite Et; szlia). cbn [negb guard].
  apply (writes_then _ _ []); [apply writes_done|]. rewrite (app_assoc (tag_octets fc fty fn)).
  apply writes_then; [apply writes_write|].
  rewrite <- (app_nil_r (sb_data fcont ++ _)). apply writes_then; [|apply writes_synchronize].
  assert (writes (if negb (size (sb_data fcont) =? 0) then write (sb_data fcont) else ret tt)
    (sb_data fcont)) as Hcont.
  { destruct (Z.eqb_spec (size (sb_data fcont)) 0) as [E|E]; cbn [negb]; [|apply writes_write].
    apply size_zero_inv in E. rewrite E. apply writes_done. }
  destruct Ech; [cbn; by rewrite app_nil_r|]. by apply writes_then.
Qed.

(** ** The calls *)

Fixpoint sequence (l : list (M t unit)) : M t unit :=
  match l with
  | [] => ret tt
  | m :: l => m ;;* sequence l
  end.

(** The tag, the content, the children and the end of a tree. *)
Fixpoint put (tr : tree) : M t unit :=
  match tr with
  | Tree tagClass tagType tagNumber content children =>
      encodeTag tagClass tagType tagNumber ;;*
      encode_value (mkValue tagClass tagType tagNumber content) ;;*
      sequence (map put children) ;;*
      encodeTagComplete
  end.

(** What an operation on a frame adds to its content. *)
Definition appends (m : M frame unit) (l : list Z) : Prop := forall f, exists content,
  m f = (inr tt, set_content content f) /\ sb_data content = sb_data (d_content f) ++ l.

Lemma appends_ret : appends (ret tt) [].
Proof. intros f. exists (d_content f). rewrite app_nil_r. by destruct f. Qed.

Lemma appends_toContent m l : writes m l -> appends (toContent m) l.
Proof.
  intros Hw f. destruct (writes_reliable m l (d_content f) Hw) as (c & E & Hd).
  exists c. unfold toContent. by rewrite E.
Qed.

Lemma appends_writeContent l : appends (writeContent l) l.
Proof. apply appends_toContent, writes_write. Qed.

Lemma appends_bind m k l l' : appends m l -> appends k l' -> appends (m ;;* k) (l ++ l').
Proof.
  intros Hm Hk f. unfold bind. destruct (Hm f) as (c & -> & Hc).
  destruct (Hk (set_content c f)) as (c' & -> & Hc'). exists c'. split; [by destruct f|].
  rewrite Hc'. cbn. by rewrite Hc, app_assoc.
Qed.

Lemma appends_guard b m l : b = true -> appends m l -> appends (guard b ;;* m) l.
Proof. intros -> Hm. apply (appends_bind _ _ []); [apply appends_ret|done]. Qed.

Lemma open_append c ty n content children f m l :
  open_frame c ty n content children f -> appends m l ->
  exists f', m f = (inr tt, f') /\ open_frame c ty n (content ++ l) children f'.
Proof.
  intros Hf Hm. destruct (Hm f) as (content' & -> & Hd). eexists. split; [done|].
  destruct Hf as (<- & <- & <- & Hl & Hh & <- & Hch). by destruct f.
Qed.

Lemma open_new c ty n : open_frame c ty n [] [] (newFrame c ty n).
Proof. unfold open_frame, newFrame. cbn. rewrite mem_init_data. split_and!; done || constructor. Qed.

Lemma open_add c ty n content children f tr child :
  open_frame c ty n content children f -> complete tr child ->
  open_frame c ty n content (children ++ [tr]) (add_child child f).
Proof.
  intros (<- & <- & <- & Hl & Hh & <- & Hch) Hc. unfold open_frame. destruct f. cbn in *.
  split_and!; try done. apply Forall2_app; [done|by constructor].
Qed.

Lemma appends_value v : appends (encodeValue_value v) (v_data v).
Proof.
  unfold encodeValue_value. destruct (Z.gtb_spec (size (v_data v)) 0) as [|Hle];
    [apply appends_writeContent|].
  rewrite (size_zero_inv (v_data v)) by szlia. apply appends_ret.
Qed.

(** A call on the frame that is being encoded. *)
Lemma current_appends m l b f parents c ty n content children :
  appends m l -> open_frame c ty n content children f ->
  exists f', current m (Encoder.mk b (f :: parents) : t) = (inr tt, Encoder.mk b (f' :: parents)) /\
    open_frame c ty n (content ++ l) children f'.
Proof.
  intros Hm Hf. destruct (open_append _ _ _ _ _ _ _ _ Hf Hm) as (f' & E & Hf').
  exists f'. split; [|done]. unfold current. cbn [d_frames d_buffer]. by rewrite E.
Qed.

Definition nests (tr : tree) : Prop := forall b parent parents, exists f, complete tr f /\
  put tr (Encoder.mk b (parent :: parents)) = (inr tt, Encoder.mk b (add_child f parent :: parents)).

Lemma put_children children : Forall nests children ->
  forall b parents f c ty n content before, open_frame c ty n content before f ->
  exists f', sequence (map put children) (Encoder.mk b (f :: parents)) =
    (inr tt, Encoder.mk b (f' :: parents)) /\
    open_frame c ty n content (before ++ children) f'.
Proof.
  induction 1 as [|tr children Htr Hch IH]; intros b parents f c ty n content before Hf.
  { exists f. by rewrite app_nil_r. }
  destruct (Htr b f parents) as (child & Hc & E). cbn [map sequence]. unfold bind at 1. rewrite E.
  destruct (IH b parents (add_child child f) c ty n content (before ++ [tr])) as (f' & E' & Hf').
  { by apply open_add. }
  exists f'. by rewrite E', <- app_assoc in *.
Qed.

(** The calls of a tree up to its end, and the end. *)
Lemma put_open c ty n content children b parents :
  Forall nests children -> exists f,
  put (Tree c ty n content children) (Encoder.mk b parents) =
    encodeTagComplete (Encoder.mk b (f :: parents)) /\
  open_frame c ty n content children f.
Proof.
  intros Hch. cbn [put]. unfold bind at 1. cbn [encodeTag d_buffer d_frames].
  destruct (current_appends _ _ b (newFrame c ty n) parents c ty n [] []
    (appends_value (mkValue c ty n content)) (open_new c ty n)) as (f & E & Hf).
  unfold bind at 1, encode_value. rewrite E.
  destruct (put_children children Hch b parents f c ty n _ [] Hf) as (f' & E' & Hf').
  exists f'. unfold bind at 1. by rewrite E'.
Qed.

Lemma put_nests tr : fits U64_MAX (2 ^ 64) tr -> nests tr.
Proof.
  induction tr as [c ty n content children IH] using tree_nested_ind. intros Hfits b parent parents.
  destruct (put_open c ty n content children b (parent :: parents)) as (f & E & Hf).
  { inversion_clear Hfits as [? ? ? ? ? _ _ Hch]. rewrite Forall_forall in *. auto. }
  destruct (synchronize_open _ _ _ _ _ _ 0 Hf Hfits) as (f' & E' & Hf').
  exists f'. split; [done|]. rewrite E. unfold encodeTagComplete. cbn [d_frames]. by rewrite E'.
Qed.

(** What the calls that encode [tr] do to a destination that holds [b]: it gets
    a prefix of the octets of the tree, all of them if there is no error. *)
Definition encodes (m : M t unit) (tr : tree) : Prop := forall b, exists r b' p rest,
  m (Encoder.mk b []) = (r, Encoder.mk b' []) /\
  ber tr = p ++ rest /\ sb_data b' = sb_data b ++ p /\
  (r = inr tt -> rest = []) /\ (Reliable Dest -> r = inr tt).

Lemma complete_root c ty n content children f b :
  open_frame c ty n content children f ->
  fits U64_MAX (2 ^ 64) (Tree c ty n content children) ->
  exists r b' p rest, encodeTagComplete (Encoder.mk b [f]) = (r, Encoder.mk b' []) /\
  ber (Tree c ty n content children) = p ++ rest /\ sb_data b' = sb_data b ++ p /\
  (r = inr tt -> rest = []) /\ (Reliable Dest -> r = inr tt).
Proof.
  intros Hf Hfits. destruct (synchronize_open _ _ _ _ _ _ 0 Hf Hfits) as (f' & E' & Hf').
  assert (writes (flush f' ;;* EncoderUtil.synchronize) (ber (Tree c ty n content children))) as Hw.
  { rewrite <- (app_nil_r (ber _)). apply writes_then; [by apply flush_writes|apply writes_synchronize]. }
  destruct (Hw b) as (p & rest & Hp & Hd & Hok & Hr). unfold encodeTagComplete.
  cbn [d_frames d_buffer]. rewrite E'.
  destruct ((flush f' ;;* EncoderUtil.synchronize) b) as [r b']. cbn [fst snd] in *.
  exists r, b', p, rest. by split_and!.
Qed.

Lemma put_encodes tr : fits U64_MAX (2 ^ 64) tr -> encodes (put tr) tr.
Proof.
  intros Hfits b. destruct tr as [c ty n content children].
  destruct (put_open c ty n content children b []) as (f & -> & Hf); [|by apply complete_root].
  inversion_clear Hfits as [? ? ? ? ? _ _ Hch]. rewrite Forall_forall in *. auto using put_nests.
Qed.

(** A value alone. *)
Definition put_value (c : TagClass.t) (n : Z) (m : M t unit) : M t unit :=
  encodeTag c TagType.e_PRIMITIVE n ;;* m ;;* encodeTagComplete.

Lemma put_value_encodes c n m l :
  0 <= n < 2 ^ 64 -> size l < 2 ^ 64 -> appends m l ->
  encodes (put_value c n (current m)) (Tree c TagType.e_PRIMITIVE n l []).
Proof.
  intros Hn Hl Hm b. unfold put_value. unfold bind at 1. cbn [encodeTag d_buffer d_frames].
  destruct (current_appends _ _ b (newFrame c TagType.e_PRIMITIVE n) [] _ _ _ _ _ Hm
    (open_new c TagType.e_PRIMITIVE n)) as (f & E & Hf).
  unfold bind. rewrite E. apply complete_root; [done|].
  constructor; [unfold U64_MAX; lia|cbn; by rewrite app_nil_r|constructor].
Qed.

(** ** The octets of a value *)

Definition octets_bool (v : bool) : list Z := [if v then 0xFF else 0x00].

(** Without a sign, and with one. *)
Definition octets_unsigned (v : Z) : list Z :=
  if v =? 0 then [0]
  else match AbstractIntegerQuantity.skip_zeroes (big_endian64 v) with
       | first :: rest =>
           if negb (Z.land first 0x80 =? 0) then 0 :: first :: rest else first :: rest
       | [] => []
       end.

Definition octets_signed (v : Z) : list Z :=
  if v >=? 0 then octets_unsigned v
  else AbstractIntegerQuantity.skip_ones (big_endian64 (wrap 64 v)).

Definition octets_integer (v : AbstractInteger.integer) : list Z := AbstractInteger.encode v.

Definition octets_bits (v : AbstractBitSequence) : list Z := b_numBitsOmitted v :: b_data v.

Definition octets_identifier (v : AbstractObjectIdentifier) : list Z :=
  match v with
  | v0 :: v1 :: rest => v0 * 40 + v1 :: concat (map octets128 rest)
  | _ => []
  end.

Lemma appends_bool v : appends (encodeValue_bool v) (octets_bool v).
Proof. apply appends_writeContent. Qed.

Lemma appends_unsigned v : appends (encodeValue_unsigned v) (octets_unsigned v).
Proof.
  unfold encodeValue_unsigned, octets_unsigned. destruct (v =? 0); [apply appends_writeContent|].
  destruct (AbstractIntegerQuantity.skip_zeroes _) as [|first rest]; [apply appends_ret|].
  destruct (negb _).
  - apply (appends_bind _ _ [0]); apply appends_writeContent.
  - apply (appends_bind _ _ []); [apply appends_ret|apply appends_writeContent].
Qed.

Lemma appends_signed v : v < 0 -> appends (encodeValue_signed v) (octets_signed v).
Proof.
  intros Hv. unfold octets_signed. destruct (Z.geb_spec v 0); [lia|]. apply appends_writeContent.
Qed.

Lemma appends_integer v :
  octets_integer v <> [] -> (AbstractInteger.isZero v = true -> octets_integer v = [0]) ->
  appends (encodeValue_integer v) (octets_integer v).
Proof.
  intros Hne Hz. unfold encodeValue_integer. destruct (AbstractInteger.isZero v).
  - rewrite Hz by done. apply appends_writeContent.
  - apply appends_guard; [by rewrite bool_decide_false|apply appends_writeContent].
Qed.

Lemma appends_bits v :
  0 <= b_numBitsOmitted v < 256 -> appends (encodeValue_bits v) (octets_bits v).
Proof.
  intros Hv. unfold encodeValue_bits, octets_bits. apply appends_guard.
  - destruct (Z.gtb_spec (b_numBitsOmitted v) 255); [lia|done].
  - rewrite wrap_small by lia. apply (appends_bind _ _ [_]); apply appends_writeContent.
Qed.

Lemma appends_components values :
  Forall (fun v => 0 <= v < 2 ^ 64) values ->
  appends (encodeComponents values) (concat (map octets128 values)).
Proof.
  induction 1 as [|v values Hv _ IH]; [apply appends_ret|]. cbn [encodeComponents map concat].
  apply appends_bind; [by apply appends_toContent, encodeIntegerBase128_writes|done].
Qed.

Lemma appends_identifier v0 v1 rest :
  0 <= v0 <= 2 -> 0 <= v1 -> (v0 < 2 -> v1 <= 39) -> v0 * 40 + v1 < 256 ->
  Forall (fun v => 0 <= v < 2 ^ 64) rest ->
  appends (encodeValue_identifier (v0 :: v1 :: rest)) (octets_identifier (v0 :: v1 :: rest)).
Proof.
  intros Hv0 Hv1 H39 Hlt Hrest. unfold encodeValue_identifier, octets_identifier.
  apply appends_guard; [destruct (Z.gtb_spec v0 3); [lia|done]|].
  apply appends_guard.
  { destruct (Z.gtb_spec v1 39); [|by rewrite andb_false_r].
    rewrite (proj2 (Z.eqb_neq v0 0)), (proj2 (Z.eqb_neq v0 1)) by lia. done. }
  rewrite (wrap_small 64 (v0 * 40)), (wrap_small 64), (wrap_small 8) by lia.
  apply (appends_bind _ _ [_]); [apply appends_writeContent|by apply appends_components].
Qed.

End Encoding.
End Encoding.
