(* ===== verification/AbstractSyntaxDecoding.v ===== *)
(** * Abstract syntax: what the decoder reads

    Tags, values and trees are read from the octets of the reference encoding,
    wherever these are, and the octets of every value are read back to it; what
    the numbers are read as in general. *)

From S2P Require Import Prelude Errors Integer AbstractSyntax AbstractSyntaxEncoder.
From S2P Require Import AbstractSyntaxDecoder AbstractSyntaxFacts AbstractSyntaxEncoding.

Module Decoding.
Import Codec Values Decoder Reference Writes Reads.

(** ** Tags *)

Definition header (c : TagClass.t) (ty : TagType.t) (n length : Z) : list Z :=
  tag_octets c ty n ++ length_octets length.

(** The frame of a tag that is read after [pre]. *)
Definition frame_at (pre : list Z) (c : TagClass.t) (ty : TagType.t) (n length : Z) : frame :=
  mkFrame c ty n (size pre) (size (header c ty n length)) (size (pre ++ header c ty n length))
    (Some length).

Lemma source_reads {A} (m : Codec.M Source.t A) l v stack :
  reads_in (fun s => s) m l v -> reads_in (fun s => mk s stack) (source m) l v.
Proof. intros Hm pre post. unfold source. cbn [d_buffer d_contextStack]. by rewrite Hm. Qed.

Lemma decodeTag_at c ty n length pre post stack :
  0 <= n <= 256 -> 0 <= length < 2 ^ 32 ->
  decodeTag (mk (Source.mk (pre ++ header c ty n length ++ post) (size pre)) stack) =
  (inr tt, mk (Source.mk (pre ++ header c ty n length ++ post) (size (pre ++ header c ty n length)))
     (frame_at pre c ty n length :: stack)).
Proof.
  intros Hn Hl. unfold decodeTag, header.
  pose proof (source_reads _ _ _ stack (decodeTag_reads c ty n Hn)) as Ht.
  pose proof (source_reads _ _ _ stack (decodeLength_reads length Hl)) as Hlen.
  set (octets := pre ++ (tag_octets c ty n ++ length_octets length) ++ post) in *.
  assert (octets = pre ++ tag_octets c ty n ++ (length_octets length ++ post)) as E1
    by (unfold octets; by rewrite !app_assoc).
  assert (octets = (pre ++ tag_octets c ty n) ++ length_octets length ++ post) as E2
    by (unfold octets; by rewrite !app_assoc).
  unfold bind at 1. cbn [source DecoderUtil.position d_buffer Source.d_position d_contextStack].
  unfold bind at 1. rewrite E1 at 1. rewrite (Ht pre), <- E1. cbn beta iota.
  unfold bind at 1. rewrite E2 at 1. rewrite (Hlen (pre ++ _)), <- E2.
  unfold bind at 1. cbn [source DecoderUtil.position d_buffer Source.d_position d_contextStack].
  rewrite <- app_assoc. unfold frame_at, header. rewrite (size_app pre (_ ++ _)).
  do 4 f_equal. lia.
Qed.

Lemma decodeTagComplete_at octets position f length stack :
  d_contentLength f = Some length ->
  d_contentPosition f <= position <= d_contentPosition f + length ->
  d_contentPosition f + length <= size octets ->
  decodeTagComplete (mk (Source.mk octets position) (f :: stack)) =
  (inr tt, mk (Source.mk octets (d_contentPosition f + length)) stack).
Proof.
  intros El Hp Hs. unfold decodeTagComplete, bind, skip. cbn [d_contextStack d_buffer Source.d_position].
  rewrite El. destruct (Z.gtb_spec position (d_contentPosition f + length)); [lia|].
  destruct (Z.ltb_spec position (d_contentPosition f + length)) as [Hlt|Hge].
  - unfold source, DecoderUtil.seek. cbn [d_buffer Source.d_octets d_contextStack].
    by rewrite (proj2 (Z.leb_le _ _)) by done.
  - by replace (d_contentPosition f + length) with position by lia.
Qed.

Lemma contentBytesRemaining_at octets position f length stack :
  d_contentLength f = Some length -> position <= d_contentPosition f + length ->
  contentBytesRemaining (mk (Source.mk octets position) (f :: stack)) =
  d_contentPosition f + length - position.
Proof.
  intros El Hp. unfold contentBytesRemaining. cbn. rewrite El.
  destruct (Z.gtb_spec position (d_contentPosition f + length)); lia.
Qed.

(** ** Values *)

(** The frames that a function for universal [numbers] accepts, for [length] octets. *)
Record accepts (numbers : list Z) (length : Z) (f : frame) : Prop := {
  accepts_number : d_tagClass f = TagClass.e_UNIVERSAL -> In (d_tagNumber f) numbers;
  accepts_type : d_tagType f = TagType.e_PRIMITIVE;
  accepts_length : d_contentLength f = Some length
}.

(** Reads the content [l] of any frame that it accepts as [v]. *)
Definition decodes {A} (numbers : list Z) (m : Codec.M t A) (l : list Z) (v : A) : Prop :=
  forall f stack, accepts numbers (size l) f -> reads_in (fun s => mk s (f :: stack)) m l v.

Lemma checkContext_reads numbers length f stack :
  accepts numbers length f -> reads_in (fun s => mk s (f :: stack)) (checkContext numbers) [] length.
Proof.
  intros [Hn Ht Hl] pre post. rewrite app_nil_r. unfold checkContext. cbn [d_contextStack].
  rewrite Ht, Hl, (bool_decide_true (TagType.e_PRIMITIVE = _)) by done.
  assert (negb (bool_decide (d_tagClass f = TagClass.e_UNIVERSAL)) ||
    existsb (Z.eqb (d_tagNumber f)) numbers = true) as ->; [|done].
  destruct (decide (d_tagClass f = TagClass.e_UNIVERSAL)) as [E|E].
  - rewrite bool_decide_true by done. apply existsb_exists. exists (d_tagNumber f).
    split; [by apply Hn|apply Z.eqb_refl].
  - by rewrite bool_decide_false.
Qed.

Lemma guard_reads {S A} (host : Source.t -> S) (b : bool) (m : Codec.M S A) l v :
  b = true -> reads_in host m l v -> reads_in host (guard b ;;* m) l v.
Proof. intros -> Hm. by apply (reads_ret_bind host tt). Qed.

Lemma checked_reads {A} numbers f stack (k : Z -> Codec.M t A) l v length :
  accepts numbers length f -> reads_in (fun s => mk s (f :: stack)) (k length) l v ->
  reads_in (fun s => mk s (f :: stack)) (bind (checkContext numbers) k) l v.
Proof.
  intros Hf Hk. apply (reads_then _ _ _ [] l length); [by apply checkContext_reads|done].
Qed.

Lemma octet_reads {A} (k : Z -> Codec.M t A) stack x l v :
  reads_in (fun s => mk s stack) (k x) l v ->
  reads_in (fun s => mk s stack) (bind (source DecoderUtil.read_octet) k) (x :: l) v.
Proof. intros Hk. apply (reads_then _ _ _ [x] l x); [apply source_reads, reads_octet|done]. Qed.

Lemma null_decodes : decodes [TagNumber.e_NULL] decodeNull [] tt.
Proof.
  intros f stack Hf. apply (checked_reads _ _ _ _ _ _ _ Hf). apply (reads_done _ tt).
Qed.

Lemma bool_decodes v : decodes [TagNumber.e_BOOLEAN] decodeValue_bool (Encoding.octets_bool v) v.
Proof.
  intros f stack Hf. apply (checked_reads _ _ _ _ _ _ _ Hf). apply guard_reads; [done|].
  apply octet_reads. destruct v; apply reads_done.
Qed.

(** A nonempty content that is read at once. *)
Lemma content_reads {A} (g : list Z -> A) stack l :
  reads_in (fun s => mk s stack)
    (let* data := source (DecoderUtil.read (size l)) in ret (g data)) l (g l).
Proof. apply reads_bind_ret, source_reads, reads_read. Qed.

Lemma nonempty_guard (l : list Z) : l <> [] -> negb (size l =? 0) = true.
Proof. intros Hl. destruct (Z.eqb_spec (size l) 0) as [E|]; [by apply size_zero_inv in E|done]. Qed.

Lemma text_decodes l : l <> [] -> decodes string_numbers decodeValue_text l l.
Proof.
  intros Hl f stack Hf. apply (checked_reads _ _ _ _ _ _ _ Hf).
  apply guard_reads; [by apply nonempty_guard|]. apply source_reads, reads_read.
Qed.

Lemma string_decodes n l f stack :
  l <> [] -> accepts (string_numbers ++ [TagNumber.e_T61_STRING]) (size l) f -> d_tagNumber f = n ->
  reads_in (fun s => mk s (f :: stack)) decodeValue_string l (mkString n l).
Proof.
  intros Hl Hf <-. apply (checked_reads _ _ _ _ _ _ _ Hf).
  apply guard_reads; [by apply nonempty_guard|].
  apply (content_reads (mkString (d_tagNumber f))).
Qed.

Lemma bytes_decodes l : l <> [] ->
  decodes [TagNumber.e_OCTET_STRING] decodeValue_bytes l (mkBytes TagNumber.e_OCTET_STRING l).
Proof.
  intros Hl f stack Hf. apply (checked_reads _ _ _ _ _ _ _ Hf).
  apply guard_reads; [by apply nonempty_guard|]. apply content_reads.
Qed.

Lemma bits_decodes l omitted : l <> [] ->
  let v := mkBits TagNumber.e_BIT_STRING l omitted in
  decodes [TagNumber.e_BIT_STRING] decodeValue_bits (Encoding.octets_bits v) v.
Proof.
  intros Hl v f stack Hf. apply (checked_reads _ _ _ _ _ _ _ Hf).
  unfold v, Encoding.octets_bits. cbn [b_numBitsOmitted b_data].
  assert (0 < size l). { destruct l; [done|]. szlia. }
  apply guard_reads; [rewrite size_cons; destruct (Z.ltb_spec (1 + size l) 2); [lia|done]|].
  apply octet_reads. replace (size (omitted :: l) - 1) with (size l) by szlia.
  apply (content_reads (fun data => mkBits TagNumber.e_BIT_STRING data omitted)).
Qed.

(** ** Numbers *)

Import Octets.

Lemma swrap_mod w x : 0 < w -> swrap w x mod 2 ^ w = x mod 2 ^ w.
Proof.
  intros Hw. unfold swrap. rewrite Zminus_mod_idemp_l. f_equal. lia.
Qed.

Lemma swrap_cong w x y : 0 < w -> x mod 2 ^ w = y mod 2 ^ w -> swrap w x = swrap w y.
Proof.
  intros Hw Hxy. unfold swrap. f_equal.
  by rewrite <- (Zplus_mod_idemp_l x), Hxy, Zplus_mod_idemp_l.
Qed.

(** A shift by an octet leaves no bit where the next one goes. *)
Lemma shift_octet_signed acc x : 0 <= x < 256 ->
  Z.lor (swrap 64 (Z.shiftl (swrap 64 acc) 8)) x = swrap 64 (acc * 256 + x).
Proof.
  intros Hx. rewrite Z.shiftl_mul_pow2 by lia. set (y := swrap 64 acc).
  assert (swrap 64 (y * 2 ^ 8) = swrap 56 y * 2 ^ 8) as ->.
  { unfold swrap. change (2 ^ (64 - 1)) with (2 ^ (56 - 1) * 2 ^ 8).
    rewrite <- Z.mul_add_distr_r. change (2 ^ 64) with (2 ^ 56 * 2 ^ 8).
    rewrite Z.mul_mod_distr_r by lia. ring. }
  rewrite lor_disjoint by lia. symmetry.
  rewrite (swrap_cong 64 (acc * 256 + x) (y * 256 + x)); [|lia|].
  2: { unfold y. rewrite <- Zplus_mod_idemp_l, <- Zmult_mod_idemp_l, <- (swrap_mod 64 acc) by lia.
       by rewrite Zmult_mod_idemp_l, Zplus_mod_idemp_l. }
  assert (y * 256 + x + 2 ^ 63 = (y + 2 ^ 55) * 256 + x) as E by lia.
  unfold swrap. change (64 - 1) with 63. change (56 - 1) with 55. rewrite E.
  change (2 ^ 64) with (256 * 2 ^ 56). rewrite (Z.rem_mul_r _ 256) by lia.
  rewrite (Z.add_comm _ x), Z.mod_add, Z.div_add, (Z.mod_small x), (Z.div_small x), Z.add_0_l by lia. lia.
Qed.

Lemma shift_octet_unsigned acc x : 0 <= x < 256 ->
  Z.lor (wrap 64 (Z.shiftl (wrap 64 acc) 8)) x = wrap 64 (acc * 256 + x).
Proof.
  intros Hx. rewrite Z.shiftl_mul_pow2 by lia. set (y := wrap 64 acc).
  assert (wrap 64 (y * 2 ^ 8) = wrap 56 y * 2 ^ 8) as ->.
  { unfold wrap. change (2 ^ 64) with (2 ^ 56 * 2 ^ 8). by rewrite Z.mul_mod_distr_r. }
  rewrite lor_disjoint by lia. symmetry.
  assert (wrap 64 (acc * 256 + x) = wrap 64 (y * 256 + x)) as ->.
  { unfold y, wrap. rewrite <- Zplus_mod_idemp_l, <- Zmult_mod_idemp_l.
    by rewrite Zplus_mod_idemp_l. }
  unfold wrap. change (2 ^ 64) with (256 * 2 ^ 56). rewrite (Z.rem_mul_r _ 256) by lia.
  rewrite (Z.add_comm _ x), Z.mod_add, Z.div_add, (Z.mod_small x), (Z.div_small x), Z.add_0_l by lia. lia.
Qed.

(** The loop over the octets, for either conversion. *)
Lemma decode_number_reads convert stack acc x l :
  (forall acc x, 0 <= x < 256 ->
     Z.lor (convert (Z.shiftl (convert acc) 8)) x = convert (acc * 256 + x)) ->
  octets (x :: l) ->
  reads_in (fun s => mk s stack) (decode_number convert (length l) (convert acc) x) l
    (convert (acc * 256 ^ size (x :: l) + be_value (x :: l))).
Proof.
  intros Hc. revert acc x. induction l as [|y l IH]; intros acc x Ho.
  - cbn [length decode_number]. rewrite Hc by apply (Forall_inv Ho). rewrite be_value_cons.
    change (256 ^ size [x]) with 256. change (256 ^ size []) with 1. change (be_value []) with 0.
    replace (x * 1 + 0) with x by lia. apply reads_done.
  - cbn [length decode_number]. rewrite Hc by apply (Forall_inv Ho). apply octet_reads.
    specialize (IH (acc * 256 + x) y (Forall_inv_tail Ho)).
    replace (acc * 256 ^ size (x :: y :: l) + be_value (x :: y :: l)) with
      ((acc * 256 + x) * 256 ^ size (y :: l) + be_value (y :: l)); [done|].
    rewrite (be_value_cons x), (size_cons x), Z.pow_add_r by szlia. change (256 ^ 1) with 256. ring.
Qed.

Lemma size_pred (x : Z) l : Z.to_nat (size (x :: l) - 1) = length l.
Proof. unfold size. cbn. lia. Qed.

(** Any number of octets is read modulo 2^64. *)
Lemma signed_decodes l : octets l -> l <> [] ->
  decodes [TagNumber.e_INTEGER] decodeValue_signed l (swrap 64 (signed_value l)).
Proof.
  intros Ho Hne f stack Hf. apply (checked_reads _ _ _ _ _ _ _ Hf).
  apply guard_reads; [by apply nonempty_guard|]. destruct l as [|x l]; [done|].
  pose proof (Forall_inv Ho) as Hx. cbn in Hx. apply octet_reads. rewrite size_pred, land_sign by done.
  unfold signed_value. destruct (Z.leb_spec 128 x).
  - change (negb (128 =? 0)) with true. cbn iota.
    replace (be_value (x :: l) - 256 ^ size (x :: l)) with
      (-1 * 256 ^ size (x :: l) + be_value (x :: l)) by lia.
    change (-1) with (swrap 64 (-1)) at 1.
    apply decode_number_reads; [apply shift_octet_signed|done].
  - change (negb (0 =? 0)) with false. cbn iota.
    replace (be_value (x :: l)) with (0 * 256 ^ size (x :: l) + be_value (x :: l)) by lia.
    change 0 with (swrap 64 0) at 1.
    apply decode_number_reads; [apply shift_octet_signed|done].
Qed.

Lemma unsigned_decodes l : octets l -> match l with first :: _ => first < 128 | [] => False end ->
  decodes [TagNumber.e_INTEGER] decodeValue_unsigned l (wrap 64 (be_value l)).
Proof.
  intros Ho Hfirst f stack Hf. apply (checked_reads _ _ _ _ _ _ _ Hf).
  destruct l as [|x l]; [done|]. apply guard_reads; [by apply nonempty_guard|].
  pose proof (Forall_inv Ho) as Hx. cbn in Hx. apply octet_reads. rewrite size_pred, land_sign by done.
  rewrite (proj2 (Z.leb_gt _ _)) by lia. apply guard_reads; [done|].
  replace (be_value (x :: l)) with (0 * 256 ^ size (x :: l) + be_value (x :: l)) by lia.
  change 0 with (wrap 64 0) at 1.
  apply decode_number_reads; [apply shift_octet_unsigned|done].
Qed.

Lemma unsigned_rejects x l f stack pre post : 128 <= x < 256 ->
  accepts [TagNumber.e_INTEGER] (size (x :: l)) f ->
  (decodeValue_unsigned (mk (Source.mk (pre ++ (x :: l) ++ post) (size pre)) (f :: stack))).1 =
  inl Error.e_INVALID.
Proof.
  intros Hx Hf. unfold decodeValue_unsigned, bind at 1.
  pose proof (checkContext_reads _ _ _ stack Hf pre ((x :: l) ++ post)) as Hc. cbn [app] in Hc.
  cbn [app]. rewrite Hc, app_nil_r. unfold bind. rewrite nonempty_guard by done. cbn [guard ret].
  pose proof (source_reads _ _ _ (f :: stack) (reads_octet x) pre (l ++ post)) as Hr.
  cbn [app] in Hr. rewrite Hr, land_sign, (proj2 (Z.leb_le _ _)) by lia. done.
Qed.

Lemma signed_value_sign l : octets l ->
  (signed_value l <? 0) = match l with first :: _ => 128 <=? first | [] => false end.
Proof.
  intros Ho. destruct l as [|x l]; [done|]. unfold signed_value.
  pose proof (be_value_bounds _ Ho). destruct (Z.leb_spec 128 x); lia.
Qed.

Lemma narrow_decodes m l v least greatest :
  decodes [TagNumber.e_INTEGER] m l v -> least <= v <= greatest ->
  decodes [TagNumber.e_INTEGER] (decodeValue_narrow m least greatest) l v.
Proof.
  intros Hm Hv f stack Hf. rewrite <- (app_nil_r l). apply (reads_then _ _ _ _ _ v); [by apply Hm|].
  apply guard_reads; [|apply reads_done].
  destruct (Z.ltb_spec v least); [lia|]. destruct (Z.gtb_spec v greatest); [lia|done].
Qed.

Lemma integer_decodes l : octets l -> l <> [] -> exists x,
  IntegerArithmetic.wf x /\ IntegerArithmetic.int x = signed_value l /\
  decodes [TagNumber.e_INTEGER] decodeValue_integer l x.
Proof.
  intros Ho Hne. destruct (decode_int l Ho) as (x & E & Hx & Hint). exists x. split_and!; [done..|].
  intros f stack Hf. apply (checked_reads _ _ _ _ _ _ _ Hf).
  apply guard_reads; [by apply nonempty_guard|].
  rewrite <- (app_nil_r l). rewrite app_nil_r at 1.
  apply (reads_then _ _ _ l [] l); [apply source_reads, reads_read|]. rewrite E. apply reads_done.
Qed.

(** *** What is written for a number *)

Lemma be_value_digits k n : 0 <= n -> be_value (digits 256 k n) = n mod 256 ^ Z.of_nat k.
Proof.
  intros Hn. induction k as [|k IH]; [cbn; by rewrite Z.mod_1_r|].
  cbn [digits]. rewrite be_value_cons, IH. unfold size. rewrite length_digits.
  pose proof (digits_step 256 0 k n ltac:(lia)). lia.
Qed.

Lemma octets_digits k n : octets (digits 256 k n).
Proof. induction k as [|k IH]; [constructor|]. constructor; [apply Z.mod_pos_bound; lia|done]. Qed.

Lemma big_endian64_digits v : Encoder.big_endian64 v = digits 256 8 v.
Proof.
  unfold Encoder.big_endian64. cbn [map digits]. change 255 with (Z.ones 8).
  rewrite !Z.land_ones, !Z.shiftr_div_pow2 by lia. by rewrite !Z.div_1_r.
Qed.

Lemma size_skip_zeroes l : size (AbstractIntegerQuantity.skip_zeroes l) <= size l.
Proof.
  induction l as [|x l IH]; [done|]. rewrite size_cons.
  destruct x; cbn [AbstractIntegerQuantity.skip_zeroes]; rewrite ?size_cons; lia.
Qed.

Lemma size_skip_ones l : size (AbstractIntegerQuantity.skip_ones l) <= size l.
Proof.
  induction l as [|x [|y l] IH]; [done|done|]. cbn [AbstractIntegerQuantity.skip_ones].
  destruct (_ && _); [|done]. etrans; [apply IH|]. szlia.
Qed.

(** Without the zeroes at the front, but for one that keeps the sign. *)
Lemma lead_octets l : octets l ->
  positive_octets
    (match AbstractIntegerQuantity.skip_zeroes l with
     | first :: rest => if negb (Z.land first 0x80 =? 0) then 0 :: first :: rest else first :: rest
     | [] => []
     end) (be_value l).
Proof.
  intros Ho. apply octets_skip_zeroes in Ho. rewrite <- be_value_skip_zeroes.
  destruct (AbstractIntegerQuantity.skip_zeroes l) as [|o os] eqn:E; [by split|].
  apply skip_zeroes_head in E. pose proof (Forall_inv Ho) as Hr. cbn in Hr. rewrite land_sign by done.
  destruct (Z.leb_spec 128 o); cbn.
  - split; [by constructor|by rewrite be_value_cons|cbn; lia].
  - split; [done|done|cbn; lia].
Qed.

(** The octets of a number that is not negative. *)
Record unsigned_octets (l : list Z) (v : Z) : Prop := {
  uo_octets : octets l;
  uo_value : be_value l = v;
  uo_signed : signed_value l = v;
  uo_first : match l with first :: _ => first < 128 | [] => False end;
  uo_minimal : minimal l;
  uo_size : size l <= 9
}.

Lemma octets_unsigned_spec v : 0 <= v < 2 ^ 64 -> unsigned_octets (Encoding.octets_unsigned v) v.
Proof.
  intros Hv. unfold Encoding.octets_unsigned. destruct (Z.eqb_spec v 0) as [->|Hne].
  { split; [by apply Forall_singleton|done..]. }
  rewrite big_endian64_digits. pose proof (be_value_digits 8 v ltac:(lia)) as Hd.
  change (256 ^ Z.of_nat 8) with (2 ^ 64) in Hd. rewrite Z.mod_small in Hd by lia.
  pose proof (lead_octets _ (octets_digits 8 v)) as Hp. rewrite Hd in Hp.
  pose proof (size_skip_zeroes (digits 256 8 v)) as Hs. change (size (digits 256 8 v)) with 8 in Hs.
  destruct (positive_signed_value _ _ Hp) as [Hsv Hm]. destruct Hp as [Ho Hb Hl].
  destruct (AbstractIntegerQuantity.skip_zeroes _) as [|first rest]; [cbn in Hb; lia|].
  destruct (negb _); split; try done; try (cbn in Hl; tauto); szlia.
Qed.

Lemma octets_signed_spec v : S64_MIN <= v <= S64_MAX ->
  let l := Encoding.octets_signed v in
  octets l /\ signed_value l = v /\ minimal l /\ l <> [] /\ size l <= 9.
Proof.
  intros Hv l. unfold S64_MIN, S64_MAX in Hv. unfold l, Encoding.octets_signed.
  destruct (Z.geb_spec v 0) as [Hge|Hlt].
  { destruct (octets_unsigned_spec v) as [? ? ? Hf ? ?]; [lia|]. split_and!; try done.
    intros E. by rewrite E in Hf. }
  assert (wrap 64 v = 2 ^ 64 + v) as ->.
  { symmetry. apply (Z.mod_unique _ _ (-1)); lia. }
  rewrite big_endian64_digits. set (n := 2 ^ 64 + v) in *.
  assert (match digits 256 8 n with first :: _ => 128 <= first | [] => False end) as Hf.
  { cbn [digits]. change (256 ^ Z.of_nat 7) with (2 ^ 56).
    assert (128 <= n / 2 ^ 56) by (apply Z.div_le_lower_bound; lia).
    assert (n / 2 ^ 56 < 256) by (apply Z.div_lt_upper_bound; lia).
    rewrite Z.mod_small by lia. done. }
  destruct (skip_ones_spec _ (octets_digits 8 n) Hf) as (Ho & Hsv & Hm).
  pose proof (be_value_digits 8 n ltac:(lia)) as Hd.
  change (256 ^ Z.of_nat 8) with (2 ^ 64) in Hd. rewrite Z.mod_small in Hd by lia.
  assert (signed_value (digits 256 8 n) = v) as Hd'.
  { unfold signed_value. destruct (digits 256 8 n) as [|first rest] eqn:E; [done|].
    rewrite (proj2 (Z.leb_le _ _)), Hd by lia. rewrite <- E. change (size (digits 256 8 n)) with 8. lia. }
  rewrite Hd' in Hsv. split_and!; [done|done|done| |].
  - intros E. rewrite E in Hsv. cbn in Hsv. lia.
  - pose proof (size_skip_ones (digits 256 8 n)) as Hs. change (size (digits 256 8 n)) with 8 in Hs. lia.
Qed.

(** ** Object identifiers *)

Lemma length_octets128 n : (0 < length (octets128 n))%nat.
Proof. unfold octets128, count. rewrite continued_digits. cbn. lia. Qed.

Lemma decode_component_reads fuel remaining acc k n stack :
  (k < fuel)%nat -> 0 <= acc -> acc * 128 ^ Z.of_nat (S k) + n mod 128 ^ Z.of_nat (S k) < 2 ^ 64 ->
  Z.of_nat (S k) <= remaining < 2 ^ 64 ->
  reads_in (fun s => mk s stack) (decode_component fuel remaining acc)
    (continued (digits 128 (S k) n))
    (acc * 128 ^ Z.of_nat (S k) + n mod 128 ^ Z.of_nat (S k), remaining - Z.of_nat (S k)).
Proof.
  revert k acc remaining. induction fuel as [|fuel IH]; intros k acc remaining Hk Ha Hlt Hr; [lia|].
  rewrite continued_digits. cbn [decode_component]. apply octet_reads.
  rewrite digit_octet_step by done. rewrite (wrap_small 64 (remaining - 1)) by lia.
  pose proof (Z.mod_pos_bound (n / 128 ^ Z.of_nat k) 128 ltac:(lia)) as Hx.
  pose proof (digits_step_le 128 acc k n ltac:(lia) Ha).
  destruct (digit_octet_bits k _ Hx) as (_ & -> & _).
  rewrite <- digits_step in Hlt |- * by lia. destruct k as [|k].
  - cbn [Z.of_nat] in *. rewrite Z.pow_0_r, Z.mul_1_r, Z.mod_1_r, Z.add_0_r. apply reads_done.
  - replace (remaining - Z.of_nat (S (S k))) with (remaining - 1 - Z.of_nat (S k)) by lia.
    apply IH; [lia|lia|done|lia].
Qed.

Lemma component_reads fuel remaining n stack :
  (length (octets128 n) <= fuel)%nat -> size (octets128 n) <= remaining < 2 ^ 64 ->
  0 <= n < 2 ^ 64 ->
  reads_in (fun s => mk s stack) (decode_component fuel remaining 0) (octets128 n)
    (n, remaining - size (octets128 n)).
Proof.
  intros Hf Hr Hn. pose proof (below_count 7 n ltac:(lia) ltac:(lia)) as Hb.
  change (2 ^ 7) with 128 in Hb.
  unfold size, octets128, count in *. rewrite length_continued in *.
  set (k := Z.to_nat (Z.log2 n / 7)) in *.
  pose proof (decode_component_reads fuel remaining 0 k n stack) as Hd.
  rewrite (Z.mod_small n) in Hd by lia. rewrite Z.mul_0_l, Z.add_0_l in Hd. apply Hd; lia.
Qed.

Lemma decode_components_reads values fuel result stack :
  Forall (fun v => 0 <= v < 2 ^ 64) values ->
  let l := concat (map octets128 values) in
  (length l < fuel)%nat -> size l < 2 ^ 64 ->
  reads_in (fun s => mk s stack) (decode_components fuel (size l) result) l (result ++ values).
Proof.
  intros Hv. revert fuel result. induction Hv as [|v values Hv Hvs IH]; intros fuel result l Hf Hs.
  { unfold l. destruct fuel; [cbn in Hf; lia|]. cbn. rewrite app_nil_r. apply reads_done. }
  unfold l in *. cbn [map concat] in *. rewrite length_app in Hf. rewrite size_app in *.
  pose proof (length_octets128 v). pose proof (size_nonneg (concat (map octets128 values))).
  assert (0 < size (octets128 v)) by (unfold size; lia).
  destruct fuel as [|fuel]; [lia|]. cbn [decode_components].
  destruct (Z.gtb_spec (size (octets128 v) + size (concat (map octets128 values))) 0); [|lia].
  apply (reads_then _ _ _ _ _ (v, size (concat (map octets128 values)))).
  - replace (size (concat (map octets128 values))) with
      (size (octets128 v) + size (concat (map octets128 values)) - size (octets128 v)) at 2 by lia.
    apply component_reads; [lia|lia|done].
  - replace (result ++ v :: values) with ((result ++ [v]) ++ values) by by rewrite <- app_assoc.
    apply IH; lia.
Qed.

Lemma identifier_decodes v0 v1 rest :
  0 <= v0 <= 2 -> 0 <= v1 -> (v0 < 2 -> v1 <= 39) -> v0 * 40 + v1 < 256 ->
  Forall (fun v => 0 <= v < 2 ^ 64) rest -> size (concat (map octets128 rest)) < 2 ^ 64 ->
  decodes [TagNumber.e_OBJECT_IDENTIFIER] decodeValue_identifier
    (Encoding.octets_identifier (v0 :: v1 :: rest)) (v0 :: v1 :: rest).
Proof.
  intros Hv0 Hv1 H39 Hlt Hrest Hs f stack Hf. apply (checked_reads _ _ _ _ _ _ _ Hf).
  unfold Encoding.octets_identifier. set (l := concat (map octets128 rest)) in *.
  apply guard_reads; [by apply nonempty_guard|]. apply octet_reads.
  assert ((if v0 * 40 + v1 >=? 80 then [2; v0 * 40 + v1 - 80]
    else [(v0 * 40 + v1) / 40; (v0 * 40 + v1) mod 40]) = [v0; v1]) as ->.
  { destruct (Z.geb_spec (v0 * 40 + v1) 80).
    - assert (v0 = 2) as -> by lia. do 2 f_equal. lia.
    - assert (v1 < 40) by lia. rewrite Z.add_comm, Z.div_add, Z.mod_add, Z.div_small, Z.mod_small by lia.
      done. }
  replace (size (_ :: l) - 1) with (size l) by szlia.
  intros pre post. cbn [d_buffer]. rewrite rest_app.
  apply (decode_components_reads rest _ [v0; v1] _ Hrest); fold l; [|done].
  rewrite length_app. lia.
Qed.
End Decoding.

(** ** Arbitrary octets *)

Module Bounds.
Import Codec Decoder Octets.

(** The position is within the octets. *)
Record source_wf (s : Source.t) : Prop := {
  source_octets : octets (Source.d_octets s);
  source_position : 0 <= Source.d_position s <= size (Source.d_octets s)
}.

(** Reads at least [k] octets for a value that satisfies [P], or fails; never
    goes back. *)
Definition advances {A} (k : Z) (m : Codec.M Source.t A) (P : A -> Prop) : Prop := forall s,
  source_wf s ->
  source_wf (m s).2 /\ Source.d_octets (m s).2 = Source.d_octets s /\
  Source.d_position s <= Source.d_position (m s).2 /\
  match (m s).1 with
  | inr a => Source.d_position s + k <= Source.d_position (m s).2 /\ P a
  | inl _ => True
  end.

Lemma advances_ret {A} (a : A) (P : A -> Prop) : P a -> advances 0 (ret a) P.
Proof. intros Ha s Hs. cbn. split_and!; (done || lia). Qed.

Lemma advances_fail {A} k e (P : A -> Prop) : advances k (fail e) P.
Proof. intros s Hs. cbn. split_and!; (done || lia). Qed.

Lemma advances_bind {A B} k j m (f : A -> Codec.M Source.t B) P Q :
  advances k m P -> (forall a, P a -> advances j (f a) Q) -> advances (k + j) (bind m f) Q.
Proof.
  intros Hm Hf s Hs. unfold bind. destruct (Hm s Hs) as (Hs' & Eo & Hp & Hr).
  destruct (m s) as [[e|a] s']; cbn [fst snd] in *; [done|]. destruct Hr as [Hk Ha].
  destruct (Hf a Ha s' Hs') as (Hs'' & Eo' & Hp' & Hr').
  destruct (f a s') as [[e|b] s'']; cbn [fst snd] in *;
    (split; [done|]; split; [congruence|]; split; [lia|]); [done|]. split; [lia|tauto].
Qed.

Lemma advances_le {A} k j (m : Codec.M Source.t A) (P : A -> Prop) :
  advances k m P -> j <= k -> advances j m P.
Proof.
  intros Hm Hj s Hs. destruct (Hm s Hs) as (Hs' & Eo & Hp & Hr).
  split; [done|]. split; [done|]. split; [done|]. destruct (m s).1; [done|]. split; [lia|tauto].
Qed.

Lemma advances_guard b : advances 0 (guard b) (fun _ => b = true).
Proof. destruct b; [by apply advances_ret|apply advances_fail]. Qed.

Lemma advances_lift {A} (r : Error.t + A) : advances 0 (lift r) (fun _ => True).
Proof. intros s Hs. cbn. split; [done|]. split; [done|]. split; [lia|]. destruct r; [done|]. split; [lia|done]. Qed.

Lemma octets_drop n l : octets l -> octets (drop n l).
Proof. apply Forall_drop. Qed.

Lemma advances_octet : advances 1 DecoderUtil.read_octet (fun x => 0 <= x < 256).
Proof.
  intros s [Ho Hp]. unfold DecoderUtil.read_octet, Source.sbumpc.
  pose proof (octets_drop (Z.to_nat (Source.d_position s)) _ Ho) as Hr. fold (Source.rest s) in Hr.
  assert (size (Source.rest s) = size (Source.d_octets s) - Source.d_position s) as Hs.
  { unfold Source.rest. by apply size_drop. }
  destruct (Source.rest s) as [|x l]; cbn [fst snd]; [split_and!; (done || lia)|].
  rewrite size_cons in Hs. pose proof (size_nonneg l). pose proof (Forall_inv Hr) as Hx.
  cbn [Source.d_octets Source.d_position]. split; [|split_and!; [done|lia|lia|apply Hx..]].
  split; cbn [Source.d_octets Source.d_position]; [done|lia].
Qed.

Lemma advances_read n : 0 <= n ->
  advances n (DecoderUtil.read n) (fun l => octets l /\ size l = n).
Proof.
  intros Hn s [Ho Hp]. unfold DecoderUtil.read, Source.sgetn.
  pose proof (octets_drop (Z.to_nat (Source.d_position s)) _ Ho) as Hr. fold (Source.rest s) in Hr.
  assert (size (Source.rest s) = size (Source.d_octets s) - Source.d_position s) as Hs.
  { unfold Source.rest. by apply size_drop. }
  set (l := take (Z.to_nat n) (Source.rest s)).
  assert (0 <= size l <= size (Source.rest s)) as Hl.
  { unfold l, size. rewrite length_take. lia. }
  assert (octets l) as Hol by (by apply Forall_take).
  destruct (Z.eqb_spec (size l) n); cbn [fst snd Source.d_octets Source.d_position];
    (split; [split; cbn [Source.d_octets Source.d_position]; [done|lia]|]; split; [done|]; split; [lia|]);
    [|done]. split; [lia|done].
Qed.

Lemma lor_nonneg a b : 0 <= a -> 0 <= b -> 0 <= Z.lor a b.
Proof. intros. by apply Z.lor_nonneg. Qed.

Lemma advances_tagNumber fuel acc :
  0 <= acc -> advances 0 (DecoderUtil.decode_tagNumber fuel acc) (fun n => 0 <= n).
Proof.
  revert acc. induction fuel as [|fuel IH]; intros acc Ha; cbn [DecoderUtil.decode_tagNumber];
    [apply advances_fail|].
  apply (advances_le (1 + 0)); [|lia].
  eapply advances_bind; [apply advances_octet|]. intros x Hx. cbn beta in Hx. cbn zeta.
  assert (0 <= Z.lor (wrap 64 (Z.shiftl acc DecoderUtil.k_NUM_VALUE_BITS_IN_TAG_OCTET))
    (Z.land x 127)) as Hc.
  { apply lor_nonneg; [apply wrap_range; lia|]. apply Z.land_nonneg. lia. }
  destruct (_ =? 0); [by apply advances_ret|by apply IH].
Qed.

Lemma advances_decodeTag :
  advances 1 DecoderUtil.decodeTag (fun '(_, _, n) => 0 <= n <= 256).
Proof.
  unfold DecoderUtil.decodeTag. apply (advances_le (1 + (0 + (0 + (0 + (0 + 0)))))); [|lia].
  eapply advances_bind; [apply advances_octet|]. intros x Hx. cbn beta in Hx.
  eapply advances_bind; [apply advances_lift|]. intros c _.
  eapply advances_bind; [apply advances_lift|]. intros t _. cbn zeta.
  eapply (advances_bind _ _ _ _ (fun n => 0 <= n)).
  { destruct (_ =? _); [by apply advances_tagNumber|]. apply advances_ret, Z.land_nonneg. lia. }
  cbn beta. intros n Hn.
  eapply (advances_bind _ _ _ _ (fun _ => n <= 256)); [|intros [] ?; apply advances_ret; lia].
  unfold TagNumber.validate. destruct (Z.gtb_spec n 256);
    [apply advances_fail|by apply (advances_ret tt)].
Qed.

Lemma advances_decode_octets k j acc :
  0 <= acc < 256 ^ j -> 0 <= j -> j + Z.of_nat k <= 4 ->
  advances 0 (DecoderUtil.decode_octets k acc) (fun n => 0 <= n < 2 ^ 32).
Proof.
  revert j acc. induction k as [|k IH]; intros j acc Ha Hj Hk; cbn [DecoderUtil.decode_octets].
  { apply advances_ret. assert (256 ^ j <= 256 ^ 4) by (apply Z.pow_le_mono_r; lia). lia. }
  apply (advances_le (1 + 0)); [|lia].
  eapply advances_bind; [apply advances_octet|]. intros x Hx. cbn beta in Hx.
  assert (256 ^ (j + 1) = 256 ^ j * 256) as Hp by (by rewrite Z.pow_add_r).
  assert (256 ^ j <= 256 ^ 3) by (apply Z.pow_le_mono_r; lia).
  assert (Z.lor (wrap 64 (Z.shiftl acc 8)) x = acc * 256 + x) as ->.
  { apply (Reads.lor_shift 8); lia. }
  apply (IH (j + 1)); lia.
Qed.

Lemma advances_decodeLength : advances 1 DecoderUtil.decodeLength
  (fun r => match r with Some n => 0 <= n < 2 ^ 32 | None => True end).
Proof.
  unfold DecoderUtil.decodeLength. apply (advances_le (1 + 0)); [|lia].
  eapply advances_bind; [apply advances_octet|]. intros x Hx. cbn beta in Hx.
  destruct (x =? 128); [by apply advances_ret|].
  destruct (_ =? 0); [apply advances_ret; lia|].
  apply (advances_le (0 + (0 + 0))); [|lia].
  eapply advances_bind; [apply advances_guard|]. intros [] Hb.
  assert (0 <= Z.land x 127) by (apply Z.land_nonneg; lia).
  destruct (Z.gtb_spec (Z.land x 127) 4); [done|].
  eapply advances_bind; [apply (advances_decode_octets _ 0); cbn; lia|]. intros n Hn.
  by apply advances_ret.
Qed.

(** *** The octets of a tag

    What octets say which tag, whoever wrote them: numbers may have leading
    zeroes, which the encoder does not write. *)

(** The number with these digits, the most significant first. *)
Definition number (base : Z) (l : list Z) (acc : Z) : Z := foldl (fun acc x => acc * base + x) acc l.

Inductive identifies : list Z -> TagClass.t * TagType.t * Z -> Prop :=
| identifies_low c ty n : 0 <= n < 31 ->
    identifies [TagClass.value c + TagType.value ty + n] (c, ty, n)
| identifies_high c ty l : l <> [] -> Forall (fun x => 0 <= x < 128) l ->
    identifies (TagClass.value c + TagType.value ty + 31 :: Reference.continued l)
      (c, ty, number 128 l 0).

Inductive measures : list Z -> option Z -> Prop :=
| measures_short n : 0 <= n < 128 -> measures [n] (Some n)
| measures_indefinite : measures [128] None
| measures_long l : l <> [] -> octets l -> measures (128 + size l :: l) (Some (number 256 l 0)).

(** What is read are octets that say what is returned. *)
Definition spells {A} (m : Codec.M Source.t A) (P : list Z -> A -> Prop) : Prop := forall s,
  source_wf s ->
  match (m s).1 with
  | inr a => exists l, Source.rest s = l ++ Source.rest (m s).2 /\
      Source.d_position (m s).2 = Source.d_position s + size l /\
      source_wf (m s).2 /\ P l a
  | inl _ => True
  end.

Lemma spells_ret {A} (a : A) (P : list Z -> A -> Prop) : P [] a -> spells (ret a) P.
Proof. intros Ha s Hs. exists []. change (size []) with 0. split_and!; (done || cbn; lia). Qed.

Lemma spells_fail {A} e (P : list Z -> A -> Prop) : spells (fail e) P.
Proof. by intros s Hs. Qed.

Lemma spells_bind {A B} m (f : A -> Codec.M Source.t B) P Q :
  spells m P -> (forall l a, P l a -> spells (f a) (fun l' => Q (l ++ l'))) -> spells (bind m f) Q.
Proof.
  intros Hm Hf s Hs. unfold bind. pose proof (Hm s Hs) as Hr.
  destruct (m s) as [[e|a] s']; cbn [fst snd] in *; [done|].
  destruct Hr as (l & El & Ep & Hs' & Ha). pose proof (Hf l a Ha s' Hs') as Hr.
  destruct (f a s') as [[e|b] s'']; cbn [fst snd] in *; [done|].
  destruct Hr as (l' & El' & Ep' & Hs'' & Hb). exists (l ++ l').
  rewrite El, El', <- app_assoc, size_app. split_and!; (done || lia).
Qed.

Lemma spells_weaken {A} (m : Codec.M Source.t A) (P Q : list Z -> A -> Prop) :
  spells m P -> (forall l a, P l a -> Q l a) -> spells m Q.
Proof.
  intros Hm Hq s Hs. pose proof (Hm s Hs) as Hr. destruct (m s).1; [done|].
  destruct Hr as (l & ? & ? & ? & Hp). exists l. auto.
Qed.

Lemma spells_octet : spells DecoderUtil.read_octet (fun l x => l = [x] /\ 0 <= x < 256).
Proof.
  intros s Hs. destruct (advances_octet s Hs) as (Hs' & Eo & _ & Hr). revert Hs' Eo Hr.
  unfold DecoderUtil.read_octet, Source.sbumpc.
  destruct (Source.rest s) as [|x l] eqn:E; cbn [fst snd Source.d_position Source.d_octets]; [done|].
  intros Hs' _ [_ Hx]. exists [x]. split; [|done]. unfold Source.rest in *.
  cbn [Source.d_position Source.d_octets] in *. destruct Hs as [_ Hp].
  rewrite Z2Nat.inj_add, <- drop_drop, E by lia. done.
Qed.

(** The step of a loop over the octets of a number. *)
Lemma spells_digit {A} (k : Z -> Codec.M Source.t A) Q :
  (forall x, 0 <= x < 256 -> spells (k x) (fun l => Q (x :: l))) ->
  spells (bind DecoderUtil.read_octet k) Q.
Proof. intros Hk. eapply spells_bind; [apply spells_octet|]. intros l x [-> Hx]. by apply Hk. Qed.

Lemma spells_tagNumber k j acc :
  0 <= acc < 128 ^ j -> 0 <= j -> j + Z.of_nat k <= 5 ->
  spells (DecoderUtil.decode_tagNumber k acc) (fun l n => exists ds, l = Reference.continued ds /\
    ds <> [] /\ Forall (fun x => 0 <= x < 128) ds /\ n = number 128 ds acc).
Proof.
  revert j acc. induction k as [|k IH]; intros j acc Ha Hj Hk; cbn [DecoderUtil.decode_tagNumber];
    [apply spells_fail|].
  apply spells_digit. intros x Hx. cbn zeta.
  assert (128 ^ (j + 1) = 128 ^ j * 128) as Hp by (by rewrite Z.pow_add_r).
  assert (128 ^ j <= 128 ^ 4) by (apply Z.pow_le_mono_r; lia).
  rewrite Octets.land_127, Octets.land_sign by lia.
  pose proof (Z.mod_pos_bound x 128 ltac:(lia)) as Hm.
  unfold DecoderUtil.k_NUM_VALUE_BITS_IN_TAG_OCTET.
  rewrite (Reads.lor_shift 7) by (change (2 ^ 7) with 128; lia). change (2 ^ 7) with 128.
  destruct (Z.leb_spec 128 x).
  - assert (x = x mod 128 + 128) as Ex by (pose proof (Z.div_mod x 128 ltac:(lia)); lia).
    change (128 =? 0) with false. cbn iota.
    eapply spells_weaken; [apply (IH (j + 1)); lia|]. intros l n (ds & -> & Hne & Hds & ->).
    exists (x mod 128 :: ds). destruct ds as [|y ds]; [done|].
    split_and!; [cbn; congruence|done|by constructor|done].
  - rewrite Z.mod_small in * by lia. apply spells_ret. exists [x].
    split_and!; [done|done|by constructor|done].
Qed.

Lemma spells_decode_octets k j acc :
  0 <= acc < 256 ^ j -> 0 <= j -> j + Z.of_nat k <= 4 ->
  spells (DecoderUtil.decode_octets k acc) (fun l n =>
    octets l /\ length l = k /\ n = number 256 l acc).
Proof.
  revert j acc. induction k as [|k IH]; intros j acc Ha Hj Hk; cbn [DecoderUtil.decode_octets];
    [apply spells_ret; split_and!; [apply List.Forall_nil|done|done]|].
  apply spells_digit. intros x Hx.
  assert (256 ^ (j + 1) = 256 ^ j * 256) as Hp by (by rewrite Z.pow_add_r).
  assert (256 ^ j <= 256 ^ 3) by (apply Z.pow_le_mono_r; lia).
  rewrite (Reads.lor_shift 8) by (change (2 ^ 8) with 256; lia). change (2 ^ 8) with 256.
  eapply spells_weaken; [apply (IH (j + 1)); lia|]. intros l n (Ho & <- & ->).
  split_and!; [by constructor|done|done].
Qed.

Lemma leading_octet x : 0 <= x < 256 -> exists c ty n, 0 <= n < 32 /\
  x = TagClass.value c + TagType.value ty + n.
Proof.
  intros Hx. pose proof (Z.div_mod x 32 ltac:(lia)) as Ex.
  pose proof (Z.mod_pos_bound x 32 ltac:(lia)) as Hn.
  assert (exists c ty, 32 * (x / 32) = TagClass.value c + TagType.value ty) as (c & ty & E).
  { assert (exists k, x / 32 = Z.of_nat k /\ (k < 8)%nat) as (k & -> & Hk).
    { exists (Z.to_nat (x / 32)). rewrite Z2Nat.id by lia. split; [done|]. lia. }
    clear - Hk. do 8 (destruct k as [|k];
      [first [ by exists TagClass.e_UNIVERSAL, TagType.e_PRIMITIVE
             | by exists TagClass.e_UNIVERSAL, TagType.e_CONSTRUCTED
             | by exists TagClass.e_APPLICATION, TagType.e_PRIMITIVE
             | by exists TagClass.e_APPLICATION, TagType.e_CONSTRUCTED
             | by exists TagClass.e_CONTEXT_SPECIFIC, TagType.e_PRIMITIVE
             | by exists TagClass.e_CONTEXT_SPECIFIC, TagType.e_CONSTRUCTED
             | by exists TagClass.e_PRIVATE, TagType.e_PRIMITIVE
             | by exists TagClass.e_PRIVATE, TagType.e_CONSTRUCTED ]|]). lia. }
  exists c, ty, (x mod 32). split; [lia|]. lia.
Qed.

Lemma spells_decodeTag : spells DecoderUtil.decodeTag identifies.
Proof.
  unfold DecoderUtil.decodeTag. apply spells_digit. intros x Hx.
  destruct (leading_octet x Hx) as (c & ty & n & Hn & ->).
  destruct (Reads.tag_first_bits c ty n Hn) as (E1 & E2 & E3).
  unfold DecoderUtil.k_TAG_MASK_CLASS, DecoderUtil.k_TAG_MASK_TYPE, DecoderUtil.k_TAG_MASK_NUMBER.
  rewrite E1, E2, E3, Reads.class_fromValue, Reads.type_fromValue.
  unfold lift at 1. unfold bind at 1. unfold lift at 1. unfold bind at 1. cbn zeta.
  eapply (spells_bind _ _ (fun l m => identifies (TagClass.value c + TagType.value ty + n :: l) (c, ty, m))).
  { destruct (Z.eqb_spec n 31) as [->|].
    - eapply spells_weaken; [apply (spells_tagNumber _ 0); unfold DecoderUtil.k_MAX_TAG_NUMBER_OCTETS; lia|].
      intros l m (ds & -> & Hne & Hds & ->). by constructor.
    - apply spells_ret. constructor. lia. }
  intros l m Hm. unfold check. destruct (Error.is_error _); [apply spells_fail|].
  apply spells_ret. by rewrite app_nil_r.
Qed.

Lemma spells_decodeLength : spells DecoderUtil.decodeLength measures.
Proof.
  unfold DecoderUtil.decodeLength. apply spells_digit. intros x Hx.
  destruct (Z.eqb_spec x 128) as [->|Hne]; [apply spells_ret; constructor|].
  rewrite Octets.land_127, Octets.land_sign by lia.
  destruct (Z.leb_spec 128 x); [|apply spells_ret; constructor; lia].
  change (128 =? 0) with false. cbn iota. cbn zeta.
  assert (x mod 128 = x - 128) as -> by (symmetry; apply (Z.mod_unique _ _ 1); lia).
  destruct (Z.gtb_spec (x - 128) 4); [apply spells_fail|]. unfold guard. cbn [negb].
  unfold ret at 1. unfold bind at 1.
  eapply spells_bind; [apply (spells_decode_octets _ 0); cbn; lia|]. intros l n (Ho & El & ->).
  apply spells_ret. rewrite app_nil_r.
  assert (x = 128 + size l) as -> by (unfold size; lia).
  constructor; [|done]. intros ->. cbn in El. lia.
Qed.

(** A frame was read at its position: the octets there say its tag and its
    length, and its content is after them. *)
Definition frame_spelled (data : list Z) (f : frame) : Prop := exists tag length rest,
  drop (Z.to_nat (d_tagPosition f)) data = tag ++ length ++ rest /\
  identifies tag (d_tagClass f, d_tagType f, d_tagNumber f) /\
  measures length (d_contentLength f) /\
  d_tagLength f = size tag + size length.

(** *** The decoder *)

Record frame_wf (data : list Z) (f : frame) : Prop := {
  frame_position : 0 <= d_tagPosition f;
  frame_length : 2 <= d_tagLength f;
  frame_content : d_contentPosition f = d_tagPosition f + d_tagLength f;
  frame_within : d_contentPosition f <= size data;
  frame_octets : frame_spelled data f;
  frame_number : 0 <= d_tagNumber f <= 256;
  frame_size : match d_contentLength f with Some n => 0 <= n < 2 ^ 32 | None => True end
}.

Record wf (d : t) : Prop := {
  wf_source : source_wf (d_buffer d);
  wf_frames : Forall (frame_wf (Source.d_octets (d_buffer d))) (d_contextStack d)
}.

(** Keeps the decoder well-formed and the octets as they are. *)
Definition keeps {A} (m : Codec.M t A) : Prop := forall d, wf d ->
  wf (m d).2 /\ Source.d_octets (d_buffer (m d).2) = Source.d_octets (d_buffer d).

Lemma keeps_id {A} (r : t -> Error.t + A) : keeps (fun d => (r d, d)).
Proof. by intros d Hd. Qed.

Lemma keeps_then {A B} m (f : A -> Codec.M t B) : keeps m -> (forall a, keeps (f a)) -> keeps (bind m f).
Proof.
  intros Hm Hf d Hd. unfold bind. destruct (Hm d Hd) as [Hd' E].
  destruct (m d) as [[e|a] d']; cbn [fst snd] in *; [done|]. destruct (Hf a d' Hd') as [? E'].
  by rewrite E'.
Qed.

Lemma keeps_guard b : keeps (guard b).
Proof. destruct b; apply (keeps_id (fun _ => _)). Qed.

Lemma keeps_source {A} k (m : Codec.M Source.t A) P : advances k m P -> keeps (source m).
Proof.
  intros Hm d [Hs Hf]. unfold source. destruct (Hm _ Hs) as (Hs' & E & _).
  destruct (m (d_buffer d)) as [r s']; cbn [fst snd d_buffer d_contextStack] in *.
  split; [|done]. split; cbn [d_buffer d_contextStack]; [done|by rewrite E].
Qed.

Lemma keeps_seek p : 0 <= p -> keeps (source (DecoderUtil.seek p)).
Proof.
  intros Hp d [Hs Hf]. unfold source, DecoderUtil.seek.
  destruct (Z.leb_spec p (size (Source.d_octets (d_buffer d)))); [|by destruct d].
  cbn [fst snd d_buffer d_contextStack Source.d_octets]. split; [|done].
  split; cbn [d_buffer d_contextStack Source.d_octets]; [|done].
  destruct Hs as [Ho _]. split; cbn; [done|lia].
Qed.

Lemma keeps_octet : keeps (source DecoderUtil.read_octet).
Proof. apply (keeps_source _ _ _ advances_octet). Qed.

Lemma keeps_read n : 0 <= n -> keeps (source (DecoderUtil.read n)).
Proof. intros Hn. apply (keeps_source _ _ _ (advances_read n Hn)). Qed.

Lemma keeps_decodeTag : keeps decodeTag.
Proof.
  intros d [Hs Hf]. unfold decodeTag, bind, source, DecoderUtil.position.
  cbn [d_buffer d_contextStack].
  destruct (advances_decodeTag _ Hs) as (H1 & E1 & P1 & R1).
  pose proof (spells_decodeTag _ Hs) as S1.
  destruct (DecoderUtil.decodeTag (d_buffer d)) as [[e|[[c ty] n]] s1]; cbn [fst snd] in *.
  { split; [|done]. split; cbn; [done|by rewrite E1]. }
  cbn [d_buffer d_contextStack].
  destruct (advances_decodeLength _ H1) as (H2 & E2 & P2 & R2).
  pose proof (spells_decodeLength _ H1) as S2.
  destruct (DecoderUtil.decodeLength s1) as [[e|l] s2];
    cbn [fst snd d_buffer d_contextStack] in *; rewrite E1 in E2.
  { split; [|done]. split; cbn; [done|by rewrite E2]. }
  split; [|done]. split; cbn [d_buffer d_contextStack]; rewrite ?E2; [done|].
  constructor; [|done]. pose proof (source_position _ Hs). pose proof (source_position _ H2) as H2'.
  rewrite E2 in H2'. destruct S1 as (tag & L1 & Q1 & _ & T1), S2 as (len & L2 & Q2 & _ & T2).
  split; cbn; try (lia || tauto). exists tag, len, (Source.rest s2). cbn.
  unfold Source.rest in L1 at 1. rewrite L2 in L1. split_and!; (done || lia).
Qed.

(** A tag on top of the stack gives positions and sizes that are not negative. *)
Lemma top_nonneg d f l : wf d -> d_contextStack d = f :: l ->
  0 <= d_tagPosition f /\ 0 <= d_contentPosition f /\
  match d_contentLength f with Some n => 0 <= n | None => True end.
Proof.
  intros Hd E. pose proof (wf_frames _ Hd) as Hf. rewrite E in Hf.
  apply Forall_cons_iff in Hf as [[? ? ? ? _ ? Hn] _]. split; [lia|]. split; [lia|].
  case_match; [lia|done].
Qed.

Lemma keeps_pop : keeps pop.
Proof.
  intros d [Hs Hf]. split; [|done]. split; [done|]. cbn. destruct (d_contextStack d); [done|].
  by apply Forall_inv_tail in Hf.
Qed.

Lemma keeps_checked {A} numbers (k : Z -> Codec.M t A) :
  (forall n, 0 <= n -> keeps (k n)) -> keeps (bind (checkContext numbers) k).
Proof.
  intros Hk d Hd. unfold bind, checkContext. destruct (d_contextStack d) as [|f l] eqn:E; [done|].
  destruct (negb (bool_decide _) || existsb _ _); [|done].
  destruct (bool_decide (d_tagType f = TagType.e_PRIMITIVE)); [|done].
  destruct (top_nonneg d f l Hd E) as (_ & _ & Hn).
  destruct (d_contentLength f) as [n|]; [|done]. by apply Hk.
Qed.

Lemma keeps_guarded {A} (b : bool) (k : Codec.M t A) : (b = true -> keeps k) -> keeps (guard b ;;* k).
Proof. intros Hk. destruct b; [by apply Hk|apply (keeps_id (fun _ => _))]. Qed.

Lemma keeps_done {A} (a : A) : keeps (ret a).
Proof. apply (keeps_id (fun _ => _)). Qed.

Lemma keeps_octet_bind {A} (k : Z -> Codec.M t A) :
  (forall x, keeps (k x)) -> keeps (bind (source DecoderUtil.read_octet) k).
Proof. apply keeps_then, keeps_octet. Qed.

Lemma keeps_number convert n v x : keeps (decode_number convert n v x).
Proof.
  revert v x. induction n as [|n IH]; intros v x; cbn [decode_number]; [apply keeps_done|].
  apply keeps_octet_bind. intros y. apply IH.
Qed.

Lemma keeps_component fuel n v : keeps (decode_component fuel n v).
Proof.
  revert n v. induction fuel as [|fuel IH]; intros n v; cbn [decode_component];
    [apply (keeps_id (fun _ => _))|].
  apply keeps_octet_bind. intros x. case_match; [apply keeps_done|apply IH].
Qed.

Lemma keeps_components fuel n result : keeps (decode_components fuel n result).
Proof.
  revert n result. induction fuel as [|fuel IH]; intros n result; cbn [decode_components];
    case_match; try apply keeps_done; [apply (keeps_id (fun _ => _))|].
  apply keeps_then; [apply keeps_component|]. intros [v r]. apply IH.
Qed.
End Bounds.

#[export] Hint Resolve Bounds.keeps_octet Bounds.keeps_done Bounds.keeps_decodeTag
  Bounds.keeps_pop Bounds.keeps_number Bounds.keeps_guard Bounds.keeps_components : ntf_wf.

(** Sequences of the operations of which it is known that they keep the decoder
    well-formed. *)
Ltac keeps_tac :=
  repeat first
    [ progress auto with ntf_wf
    | apply Bounds.keeps_checked; intros ? ?
    | apply Bounds.keeps_guarded; intros ?
    | apply Bounds.keeps_octet_bind; intros ?
    | apply Bounds.keeps_read; lia
    | apply Bounds.keeps_then; [|intros ?]
    | apply (Bounds.keeps_id (fun _ => _))
    | case_match ].
