(* ===== verification/AbstractSyntaxTheorems.v ===== *)
(** * Abstract syntax: the theorems

    Trees of values are written in the reference encoding and read back, every
    value is read back to itself, numbers are read modulo the width of their
    type, and whatever the octets are the decoder stays within them. *)

From S2P Require Import Prelude Errors Integer AbstractSyntax AbstractSyntaxEncoder.
From S2P Require Import AbstractSyntaxDecoder AbstractSyntaxFacts AbstractSyntaxEncoding.
From S2P Require Import AbstractSyntaxDecoding.

Module AbstractSyntaxTheorems.
Import Codec Values Reference Writes Reads Encoding Decoding Octets.

#[local] Abbreviation D := (Codec.M Decoder.t).

(** A tag, its value and its end. *)
Definition take_value {A} (m : D A) : D A :=
  Decoder.decodeTag ;;* let* v := m in Decoder.decodeTagComplete ;;* ret v.

(** Wherever the octets are, and whatever tags surround them. *)
Definition reads_at {A} (m : D A) (l : list Z) (v : A) : Prop := forall stack,
  reads_in (fun s => Decoder.mk s stack) m l v.

Lemma ber_leaf c ty n l post :
  ber (Tree c ty n l []) ++ post = header c ty n (size l) ++ l ++ post.
Proof. cbn. unfold header. by rewrite app_nil_r, !app_assoc. Qed.

(** The content of a primitive tag is read as [v]. *)
Definition decodes_at {A} (c : TagClass.t) (n : Z) (m : D A) (l : list Z) (v : A) : Prop :=
  forall pre stack, reads_in
    (fun s => Decoder.mk s (frame_at pre c TagType.e_PRIMITIVE n (size l) :: stack)) m l v.

Lemma decodes_decodes_at {A} numbers (m : D A) l v c n :
  decodes numbers m l v -> (c = TagClass.e_UNIVERSAL -> In n numbers) -> decodes_at c n m l v.
Proof. intros Hm Hc pre stack. apply Hm. by split. Qed.

Lemma take_value_at {A} (m : D A) l v c n :
  decodes_at c n m l v -> 0 <= n <= 256 -> size l < 2 ^ 32 -> reads_at (take_value m) (ber (Tree c TagType.e_PRIMITIVE n l [])) v.
Proof.
  intros Hm Hn Hl stack pre post. pose proof (size_nonneg l).
  rewrite ber_leaf. unfold take_value. unfold bind at 1.
  rewrite decodeTag_at by lia. unfold bind at 1.
  set (h := header c TagType.e_PRIMITIVE n (size l)).
  rewrite (app_assoc pre h).
  rewrite (Hm pre stack).
  assert (Decoder.d_contentPosition (frame_at pre c TagType.e_PRIMITIVE n (size l)) = size (pre ++ h))
    as Hp by done.
  unfold bind at 1. rewrite (decodeTagComplete_at _ _ _ (size l)); rewrite ?Hp; [|done|szlia..].
  unfold ret. rewrite <- (size_app _ l), <- app_assoc. unfold h. cbn [ber concat map].
  unfold header. by rewrite (app_nil_r l), <- !app_assoc.
Qed.

(** ** Reading a tree *)

Section Children.
Context (one : D tree).

Fixpoint take_children (fuel : nat) : D (list tree) := fun d =>
  if Decoder.contentBytesRemaining d >? 0 then
    match fuel with
    | O => (inl Error.e_EOF, d)
    | S fuel => (let* child := one in let* rest := take_children fuel in ret (child :: rest)) d
    end
  else (inr [], d).
End Children.

(** A primitive tag with its content, or a constructed one with the tags in it. *)
Fixpoint take_tree (fuel : nat) : D tree :=
  match fuel with
  | O => fail Error.e_EOF
  | S fuel =>
      Decoder.decodeTag ;;*
      let* context := Decoder.current in
      match Decoder.d_tagType context with
      | TagType.e_PRIMITIVE =>
          let* value := Decoder.decodeValue_value in
          Decoder.decodeTagComplete ;;*
          ret (Tree (v_tagClass value) (v_tagType value) (v_tagNumber value) (v_data value) [])
      | TagType.e_CONSTRUCTED =>
          let* children := take_children (take_tree fuel) fuel in
          Decoder.decodeTagComplete ;;*
          ret (Tree (Decoder.d_tagClass context) (Decoder.d_tagType context)
                 (Decoder.d_tagNumber context) [] children)
      end
  end.

(** Content and children are where the tags say. *)
#[warnings="-register-all"]
Inductive shaped : tree -> Prop :=
| shaped_primitive c n content : shaped (Tree c TagType.e_PRIMITIVE n content [])
| shaped_constructed c n children :
    Forall shaped children -> shaped (Tree c TagType.e_CONSTRUCTED n [] children).

Lemma shaped_inv c ty n content children : shaped (Tree c ty n content children) ->
  match ty with
  | TagType.e_PRIMITIVE => children = []
  | TagType.e_CONSTRUCTED => content = [] /\ Forall shaped children
  end.
Proof. by inversion_clear 1. Qed.

Lemma value_at pre c n l post stack :
  Decoder.decodeValue_value
    (Decoder.mk (Source.mk ((pre ++ header c TagType.e_PRIMITIVE n (size l)) ++ l ++ post)
       (size (pre ++ header c TagType.e_PRIMITIVE n (size l))))
       (frame_at pre c TagType.e_PRIMITIVE n (size l) :: stack)) =
  (inr (mkValue c TagType.e_PRIMITIVE n l),
   Decoder.mk (Source.mk ((pre ++ header c TagType.e_PRIMITIVE n (size l)) ++ l ++ post)
       (size ((pre ++ header c TagType.e_PRIMITIVE n (size l)) ++ l)))
       (frame_at pre c TagType.e_PRIMITIVE n (size l) :: stack)).
Proof.
  unfold Decoder.decodeValue_value. cbn [Decoder.d_contextStack Decoder.d_contentLength frame_at].
  set (p := pre ++ header c TagType.e_PRIMITIVE n (size l)).
  set (s := frame_at pre c TagType.e_PRIMITIVE n (size l) :: stack).
  destruct (Z.gtb_spec (size l) 0).
  - apply (content_reads (fun data => mkValue c TagType.e_PRIMITIVE n data) s l p post).
  - assert (l = []) as -> by (apply size_zero_inv; pose proof (size_nonneg l); lia).
    by rewrite app_nil_r.
Qed.

Lemma take_children_at (one : D tree) trees : Forall (fun tr => reads_at one (ber tr) tr) trees ->
  forall fuel pre post stack f len, Decoder.d_contentLength f = Some len ->
  Decoder.d_contentPosition f + len = size (pre ++ concat (map ber trees)) ->
  (length (concat (map ber trees)) <= fuel)%nat ->
  take_children one fuel
    (Decoder.mk (Source.mk (pre ++ concat (map ber trees) ++ post) (size pre)) (f :: stack)) =
  (inr trees,
   Decoder.mk (Source.mk (pre ++ concat (map ber trees) ++ post)
     (size (pre ++ concat (map ber trees)))) (f :: stack)).
Proof.
  induction 1 as [|tr trees Htr _ IH]; intros fuel pre post stack f len El Ep Hf.
  { cbn [map concat] in *. rewrite app_nil_r in *.
    destruct fuel; cbn [take_children]; rewrite (contentBytesRemaining_at _ _ _ len) by (done || lia);
      (destruct (Z.gtb_spec (Decoder.d_contentPosition f + len - size pre) 0); [lia|done]). }
  cbn [map concat] in *. pose proof (ber_positive tr) as Hpos.
  assert (0 <= size (concat (map ber trees))) by apply size_nonneg.
  rewrite app_assoc in Ep. rewrite length_app in Hf.
  destruct fuel as [|fuel]; [unfold size in Hpos; lia|]. cbn [take_children].
  rewrite (contentBytesRemaining_at _ _ _ len) by (done || (rewrite !size_app in Ep; lia)).
  rewrite (proj2 (Z.gtb_lt _ _)) by (rewrite !size_app in Ep; lia).
  unfold bind at 1. rewrite <- (app_assoc (ber tr)). rewrite (Htr (f :: stack) pre).
  unfold bind. rewrite (app_assoc pre (ber tr)).
  rewrite (IH fuel (pre ++ ber tr) post stack f len El Ep) by (unfold size in Hpos; lia).
  unfold ret. by rewrite <- !(app_assoc pre).
Qed.

Lemma take_tree_reads tr : fits 256 (2 ^ 32) tr -> shaped tr ->
  forall fuel, (length (ber tr) <= fuel)%nat -> reads_at (take_tree fuel) (ber tr) tr.
Proof.
  induction tr as [c ty n content children IH] using tree_nested_ind.
  intros Hfits Hshape fuel Hf stack pre post.
  pose proof (ber_positive (Tree c ty n content children)) as Hpos.
  destruct fuel as [|fuel]; [unfold size in Hpos; lia|].
  inversion Hfits as [? ? ? ? ? Hn Hs Hch]; subst.
  remember (content ++ concat (map ber children)) as body eqn:Ebody.
  pose proof (size_nonneg body) as Hb.
  set (h := header c ty n (size body)).
  assert (ber (Tree c ty n content children) = h ++ body) as E.
  { cbn [ber]. rewrite <- Ebody. unfold h, header. by rewrite app_assoc. }
  rewrite E in *. rewrite <- (app_assoc h). cbn [take_tree]. unfold bind at 1.
  unfold h. rewrite decodeTag_at by lia. fold h.
  set (f := frame_at pre c ty n (size body)). unfold bind at 1. cbn [Decoder.current Decoder.d_contextStack].
  assert (Decoder.decodeTagComplete
    (Decoder.mk (Source.mk ((pre ++ h) ++ body ++ post) (size ((pre ++ h) ++ body))) (f :: stack)) =
    (inr tt, Decoder.mk (Source.mk (pre ++ h ++ body ++ post) (size (pre ++ h ++ body))) stack)) as Ec.
  { assert (Decoder.d_contentPosition f = size (pre ++ h)) as Hp by done.
    rewrite (decodeTagComplete_at _ _ f (size body)); rewrite ?Hp; [|done|szlia..].
    by rewrite <- (size_app _ body), <- !app_assoc. }
  apply shaped_inv in Hshape. destruct ty; [subst children|destruct Hshape as [-> Hsh]].
  - cbn [map concat] in Ebody. rewrite app_nil_r in Ebody. subst body.
    change (Decoder.d_tagType f) with TagType.e_PRIMITIVE. cbn iota. unfold bind at 1.
    pose proof (value_at pre c n content post stack) as Hv.
    fold h f in Hv. rewrite (app_assoc pre h), Hv.
    unfold bind at 1. rewrite Ec. unfold ret. by rewrite <- !app_assoc.
  - change (Decoder.d_tagType f) with TagType.e_CONSTRUCTED. cbn iota. unfold bind at 1.
    cbn [app] in Ebody. subst body. rewrite (app_assoc pre h).
    assert (length (concat (map ber children)) <= fuel)%nat as Hl.
    { unfold h, header in Hf. destruct (tag_octets_cons c TagType.e_CONSTRUCTED n) as (x & l & Et).
      rewrite Et in Hf. rewrite !length_app in Hf. cbn in Hf. lia. }
    rewrite (take_children_at (take_tree fuel) children) with (len := size (concat (map ber children)));
      [|..|done| |].
    + unfold bind at 1. rewrite Ec. unfold ret. by rewrite <- !app_assoc.
    + clear - IH Hch Hsh Hl. induction children as [|tr children IHc]; [constructor|]. cbn in Hl. rewrite length_app in Hl.
      apply Forall_cons_iff in IH as [Htr IH]. apply Forall_cons_iff in Hch as [Hf Hch].
      apply Forall_cons_iff in Hsh as [Hs Hsh].
      constructor; [apply Htr; (done || lia)|apply IHc; (done || lia)].
    + change (Decoder.d_contentPosition f) with (size (pre ++ h)). by rewrite <- size_app.
    + done.
Qed.

(** ** The calls of a decoder *)

Inductive call : Type :=
| c_decodeTag | c_decodeTag_expect (c : TagClass.t) (t : TagType.t) (numbers : list Z)
| c_decodeNull | c_decodeEnd | c_bool | c_short | c_unsigned_short | c_int | c_unsigned_int
| c_long | c_unsigned_long | c_signed | c_unsigned | c_text | c_integer | c_string | c_bits
| c_bytes | c_identifier | c_value | c_byte | c_skip | c_complete | c_rewindTag | c_rewindValue
| c_seek (position : Z).

Definition run (c : call) (d : Decoder.t) : Decoder.t :=
  match c with
  | c_decodeTag => (Decoder.decodeTag d).2
  | c_decodeTag_expect c t numbers => (Decoder.decodeTag_expect c t numbers d).2
  | c_decodeNull => (Decoder.decodeNull d).2
  | c_decodeEnd => (Decoder.decodeEnd d).2
  | c_bool => (Decoder.decodeValue_bool d).2
  | c_short => (Decoder.decodeValue_short d).2
  | c_unsigned_short => (Decoder.decodeValue_unsigned_short d).2
  | c_int => (Decoder.decodeValue_int d).2
  | c_unsigned_int => (Decoder.decodeValue_unsigned_int d).2
  | c_long => (Decoder.decodeValue_long d).2
  | c_unsigned_long => (Decoder.decodeValue_unsigned_long d).2
  | c_signed => (Decoder.decodeValue_signed d).2
  | c_unsigned => (Decoder.decodeValue_unsigned d).2
  | c_text => (Decoder.decodeValue_text d).2
  | c_integer => (Decoder.decodeValue_integer d).2
  | c_string => (Decoder.decodeValue_string d).2
  | c_bits => (Decoder.decodeValue_bits d).2
  | c_bytes => (Decoder.decodeValue_bytes d).2
  | c_identifier => (Decoder.decodeValue_identifier d).2
  | c_value => (Decoder.decodeValue_value d).2
  | c_byte => (Decoder.decodeByte d).2
  | c_skip => (Decoder.skip d).2
  | c_complete => (Decoder.decodeTagComplete d).2
  | c_rewindTag => (Decoder.rewindTag d).2
  | c_rewindValue => (Decoder.rewindValue d).2
  | c_seek position => (Decoder.seek position d).2
  end.

(** A position is a number of 64 bits without a sign. *)
Definition call_wf (c : call) : Prop := match c with c_seek position => 0 <= position | _ => True end.

Lemma keeps_signed : Bounds.keeps Decoder.decodeValue_signed.
Proof. unfold Decoder.decodeValue_signed. keeps_tac. Qed.

Lemma keeps_unsigned : Bounds.keeps Decoder.decodeValue_unsigned.
Proof. unfold Decoder.decodeValue_unsigned. keeps_tac. Qed.

Lemma keeps_narrow m least greatest :
  Bounds.keeps m -> Bounds.keeps (Decoder.decodeValue_narrow m least greatest).
Proof. intros Hm. unfold Decoder.decodeValue_narrow. apply Bounds.keeps_then; [done|]. intros v. keeps_tac. Qed.

Lemma keeps_current : Bounds.keeps Decoder.current.
Proof. apply (Bounds.keeps_id (fun d => _)). Qed.

#[local] Hint Resolve keeps_signed keeps_unsigned keeps_narrow keeps_current : ntf_wf.

Lemma keeps_expect c t numbers : Bounds.keeps (Decoder.decodeTag_expect c t numbers).
Proof. unfold Decoder.decodeTag_expect. keeps_tac. Qed.

Lemma keeps_null : Bounds.keeps Decoder.decodeNull.
Proof. unfold Decoder.decodeNull. keeps_tac. Qed.

Lemma keeps_end : Bounds.keeps Decoder.decodeEnd.
Proof. unfold Decoder.decodeEnd. keeps_tac. Qed.

Lemma keeps_bool : Bounds.keeps Decoder.decodeValue_bool.
Proof. unfold Decoder.decodeValue_bool. keeps_tac. Qed.

Lemma keeps_text : Bounds.keeps Decoder.decodeValue_text.
Proof. unfold Decoder.decodeValue_text. keeps_tac. Qed.

Lemma keeps_integer : Bounds.keeps Decoder.decodeValue_integer.
Proof. unfold Decoder.decodeValue_integer. keeps_tac. Qed.

Lemma keeps_string : Bounds.keeps Decoder.decodeValue_string.
Proof. unfold Decoder.decodeValue_string. keeps_tac. Qed.

Lemma keeps_bits : Bounds.keeps Decoder.decodeValue_bits.
Proof.
  unfold Decoder.decodeValue_bits. apply Bounds.keeps_checked. intros n Hn.
  apply Bounds.keeps_guarded. intros Hb. destruct (Z.ltb_spec n 2); [done|]. keeps_tac.
Qed.

Lemma keeps_bytes : Bounds.keeps Decoder.decodeValue_bytes.
Proof. unfold Decoder.decodeValue_bytes. keeps_tac. Qed.

Lemma keeps_identifier : Bounds.keeps Decoder.decodeValue_identifier.
Proof.
  unfold Decoder.decodeValue_identifier. apply Bounds.keeps_checked. intros n Hn.
  apply Bounds.keeps_guarded. intros _. apply Bounds.keeps_octet_bind. intros x d Hd.
  by apply Bounds.keeps_components.
Qed.

Lemma keeps_value : Bounds.keeps Decoder.decodeValue_value.
Proof.
  intros d Hd. unfold Decoder.decodeValue_value.
  destruct (Decoder.d_contextStack d) as [|f l]; [done|]. revert d Hd.
  apply Bounds.keeps_then; [|intros ?; keeps_tac].
  destruct (Decoder.d_contentLength f) as [n|]; [|keeps_tac]. destruct (Z.gtb_spec n 0); keeps_tac.
Qed.

Lemma keeps_skip : Bounds.keeps Decoder.skip.
Proof.
  intros d Hd. unfold Decoder.skip. destruct (Decoder.d_contextStack d) as [|f l] eqn:E; [done|].
  destruct (Bounds.top_nonneg d f l Hd E) as (_ & Hp & Hn).
  destruct (Decoder.d_contentLength f) as [n|]; [|done].
  destruct (_ >? _); [done|]. destruct (_ <? _); [|done]. apply Bounds.keeps_seek; [lia|done].
Qed.

#[local] Hint Resolve keeps_skip : ntf_wf.

Lemma keeps_complete : Bounds.keeps Decoder.decodeTagComplete.
Proof. unfold Decoder.decodeTagComplete. keeps_tac. Qed.

Lemma keeps_rewindTag : Bounds.keeps Decoder.rewindTag.
Proof.
  intros d Hd. unfold Decoder.rewindTag. destruct (Decoder.d_contextStack d) as [|f l] eqn:E; [done|].
  destruct (Bounds.top_nonneg d f l Hd E) as (Hp & _). revert d Hd E. intros d Hd _. revert d Hd.
  apply Bounds.keeps_then; [by apply Bounds.keeps_seek|]. intros _. keeps_tac.
Qed.

Lemma keeps_rewindValue : Bounds.keeps Decoder.rewindValue.
Proof.
  intros d Hd. unfold Decoder.rewindValue. destruct (Decoder.d_contextStack d) as [|f l] eqn:E; [done|].
  destruct (Bounds.top_nonneg d f l Hd E) as (_ & Hp & _). by apply Bounds.keeps_seek.
Qed.

Lemma run_keeps c d : call_wf c -> Bounds.wf d ->
  Bounds.wf (run c d) /\
  Source.d_octets (Decoder.d_buffer (run c d)) = Source.d_octets (Decoder.d_buffer d).
Proof.
  intros Hc Hd. destruct c; cbn [run]; revert d Hd;
    lazymatch goal with |- forall d, _ -> Bounds.wf (?m d).2 /\ _ => change (Bounds.keeps m) end;
    first [ by apply Bounds.keeps_octet | by apply Bounds.keeps_seek
      | by apply keeps_narrow; auto with ntf_wf
      | auto using keeps_expect, keeps_null, keeps_end, keeps_bool, keeps_text, keeps_integer,
          keeps_string, keeps_bits, keeps_bytes, keeps_identifier, keeps_value, keeps_complete,
          keeps_rewindTag, keeps_rewindValue with ntf_wf ].
Qed.

Lemma rewindTag_to data d f stack : Source.d_octets (Decoder.d_buffer d) = data ->
  Forall (Bounds.frame_wf data) (Decoder.d_contextStack d) -> Decoder.d_contextStack d = f :: stack ->
  Decoder.rewindTag d = (inr tt, Decoder.mk (Source.mk data (Decoder.d_tagPosition f)) stack).
Proof.
  intros Eo Hf E. rewrite E in Hf. apply Forall_inv in Hf. destruct Hf as [Hp Hl Hc Hw _ _ _].
  unfold Decoder.rewindTag, bind, Decoder.source, DecoderUtil.seek. rewrite E, Eo.
  by rewrite (proj2 (Z.leb_le _ _)) by lia.
Qed.

(** ** The properties *)

Section Properties.
Context `{OutStream Buf} `{!Memory Buf} `{!MemoryLaws Buf} `{OutStreamLaws Dest}.

#[local] Abbreviation E := (Encoder.t (Buf := Buf) (Dest := Dest)).

(** C36: Encoding a tree of values hands the destination its reference encoding:
    tags, the shortest definite lengths, contents and children in order, of
    which a prefix is written if the destination takes no more, and everything
    if there is no error; there is none if the destination takes what it is
    offered. The encoder is then ready for the next tree. *)
Theorem encoder_writes_tree (tr : tree) (b : Dest) :
  fits U64_MAX (2 ^ 64) tr -> exists r b' written rest,
  put (Buf := Buf) tr (Encoder.mk b []) = (r, Encoder.mk b' []) /\
  ber tr = written ++ rest /\ sb_data b' = sb_data b ++ written /\
  (r = inr tt -> rest = []) /\ (Reliable Dest -> r = inr tt).
Proof. intros Hfits. by apply put_encodes. Qed.

(** A value that is encoded alone with a tag is decoded again, wherever its
    octets are; the decoder is then after them and as it was. *)
Definition round_trips {A} (c : TagClass.t) (n : Z) (encode : Codec.M E unit) (decode : D A) (v : A)
  : Prop :=
  forall b : Dest, exists b' octets,
  put_value c n encode (Encoder.mk b []) = (inr tt, Encoder.mk b' []) /\
  sb_data b' = sb_data b ++ octets /\
  forall pre post stack,
  take_value decode (Decoder.mk (Source.mk (pre ++ octets ++ post) (size pre)) stack) =
  (inr v, Decoder.mk (Source.mk (pre ++ octets ++ post) (size (pre ++ octets))) stack).

Lemma round_trips_intro `{!Reliable Dest} {A} c n m (decode : D A) v l :
  0 <= n <= 256 -> size l < 2 ^ 32 -> appends m l -> decodes_at c n decode l v ->
  round_trips c n (Encoder.current m) decode v.
Proof.
  intros Hn Hs Ha Hd b.
  destruct (put_value_encodes c n m l ltac:(lia) ltac:(lia) Ha b) as (r & b' & p & rest & E & Ep & Eb & Er & Ok).
  specialize (Ok _). rewrite (Er Ok), app_nil_r in Ep. subst r p. eexists b', _. split; [done|].
  split; [done|]. intros pre post stack. by apply take_value_at.
Qed.

Lemma encode_signed_current v :
  Encoder.encode_signed (Buf := Buf) (Dest := Dest) v =
  Encoder.current (if v >=? 0 then Encoder.encodeValue_unsigned v else Encoder.encodeValue_signed v).
Proof. unfold Encoder.encode_signed. by destruct (v >=? 0). Qed.

Lemma zero_encodes x : AbstractInteger.isZero x = true -> AbstractInteger.encode x = [0].
Proof.
  unfold AbstractInteger.isZero, AbstractInteger.encode, AbstractIntegerQuantity.encode. by intros ->.
Qed.

Lemma encode_nonempty x : IntegerArithmetic.wf x -> - 2 ^ 31 <= IntegerArithmetic.int x ->
  AbstractInteger.encode x <> [].
Proof.
  intros Hx Hle E. destruct (encode_int x Hx Hle) as (_ & Hv & _). rewrite E in Hv. cbn in Hv.
  rewrite zero_encodes in E; [done|]. rewrite IntegerArithmetic.isZero_int by done. by apply Z.eqb_eq.
Qed.

(** C38: Every signed and unsigned number of 64 bits and every signed integer
    from -2^31 on, whose octets fit, is decoded to itself, from any surrounding
    octets, with the universal tag or with one of another class. *)
Theorem numbers_round_trip `{!Reliable Dest} (c : TagClass.t) (n : Z) :
  0 <= n <= 256 -> (c = TagClass.e_UNIVERSAL -> n = TagNumber.e_INTEGER) ->
  (forall v, S64_MIN <= v <= S64_MAX ->
     round_trips c n (Encoder.encode_signed v) Decoder.decodeValue_signed v) /\
  (forall v, 0 <= v <= U64_MAX ->
     round_trips c n (Encoder.encode_unsigned v) Decoder.decodeValue_unsigned v) /\
  (forall x, IntegerArithmetic.wf x -> - 2 ^ 31 <= IntegerArithmetic.int x ->
     size (AbstractInteger.encode x) < 2 ^ 32 ->
     round_trips c n (Encoder.encode_integer x) Decoder.decodeValue_integer x).
Proof.
  intros Hn Hc. assert (c = TagClass.e_UNIVERSAL -> In n [TagNumber.e_INTEGER]) as Hc'
    by (intros E; left; by rewrite Hc).
  split; [|split].
  - intros v Hv. destruct (octets_signed_spec v Hv) as (Ho & Hsv & _ & Hne & Hs).
    rewrite encode_signed_current.
    apply (round_trips_intro _ _ _ _ _ (octets_signed v)); [done|lia| |apply (decodes_decodes_at [TagNumber.e_INTEGER]); [|done]].
    + destruct (Z.geb_spec v 0); [|by apply appends_signed]. unfold octets_signed.
      rewrite (proj2 (Z.geb_le _ _)) by lia. apply appends_unsigned.
    + pose proof (signed_decodes _ Ho Hne) as Hd. rewrite Hsv, swrap_small in Hd; [done| |lia].
      unfold S64_MIN, S64_MAX in Hv. cbn. lia.
  - intros v Hv. unfold U64_MAX in Hv. destruct (octets_unsigned_spec v) as [Ho Hb _ Hf _ Hs]; [lia|].
    apply (round_trips_intro _ _ _ _ _ (octets_unsigned v)); [done|lia| |apply (decodes_decodes_at [TagNumber.e_INTEGER]); [|done]].
    + apply appends_unsigned.
    + pose proof (unsigned_decodes _ Ho Hf) as Hd. by rewrite Hb, wrap_small in Hd by lia.
  - intros x Hx Hle Hs. destruct (encode_int x Hx Hle) as (Ho & Hv & _).
    apply (round_trips_intro _ _ _ _ _ (octets_integer x)); [done|done| |apply (decodes_decodes_at [TagNumber.e_INTEGER]); [|done]].
    + apply appends_integer; [by apply encode_nonempty|apply zero_encodes].
    + destruct (integer_decodes (octets_integer x)) as (y & Hy & Ey & Hd); [done|by apply encode_nonempty|].
      assert (y = x) as ->; [|done]. apply int_inj; [done|done|]. unfold octets_integer in Ey. lia.
Qed.

(** Every other value is decoded to itself with its universal tag, when its
    content fits and is not empty: truth values, null, strings of characters, of
    octets and of bits, and object identifiers whose first two components fit an
    octet. *)
Theorem values_round_trip `{!Reliable Dest} :
  let universal {A} := round_trips (A := A) TagClass.e_UNIVERSAL in
  universal TagNumber.e_NULL Encoder.encode_null Decoder.decodeNull tt /\
  (forall v, universal TagNumber.e_BOOLEAN (Encoder.encode_bool v) Decoder.decodeValue_bool v) /\
  (forall v, In (s_type v) (Decoder.string_numbers ++ [TagNumber.e_T61_STRING]) ->
     s_data v <> [] -> size (s_data v) < 2 ^ 32 ->
     universal (s_type v) (Encoder.encode_string v) Decoder.decodeValue_string v) /\
  (forall v, y_type v = TagNumber.e_OCTET_STRING -> y_data v <> [] -> size (y_data v) < 2 ^ 32 ->
     universal (y_type v) (Encoder.encode_bytes v) Decoder.decodeValue_bytes v) /\
  (forall v, b_type v = TagNumber.e_BIT_STRING -> b_data v <> [] -> size (b_data v) < 2 ^ 32 - 1 ->
     0 <= b_numBitsOmitted v < 256 ->
     universal (b_type v) (Encoder.encode_bits v) Decoder.decodeValue_bits v) /\
  (forall v0 v1 rest, 0 <= v0 <= 2 -> 0 <= v1 -> (v0 < 2 -> v1 <= 39) -> v0 * 40 + v1 < 256 ->
     Forall (fun v => 0 <= v < 2 ^ 64) rest -> size (concat (map octets128 rest)) < 2 ^ 32 - 1 ->
     universal TagNumber.e_OBJECT_IDENTIFIER (Encoder.encode_identifier (v0 :: v1 :: rest))
       Decoder.decodeValue_identifier (v0 :: v1 :: rest)).
Proof.
  intros universal. split_and!.
  - apply (round_trips_intro _ _ _ _ _ []); [done|done|apply appends_ret|].
    apply (decodes_decodes_at [TagNumber.e_NULL]); [apply null_decodes|by left].
  - intros v. apply (round_trips_intro _ _ _ _ _ (octets_bool v)); [done|done|apply appends_bool|].
    apply (decodes_decodes_at [TagNumber.e_BOOLEAN]); [apply bool_decodes|by left].
  - intros [n l] Hn Hl Hs. cbn [s_type s_data] in *.
    apply (round_trips_intro _ _ _ _ _ l); [|done|apply appends_writeContent|].
    { cbn in Hn. unfold TagNumber.e_UTF8_STRING, TagNumber.e_IA5_STRING, TagNumber.e_VISIBLE_STRING,
        TagNumber.e_PRINTABLE_STRING, TagNumber.e_T61_STRING in Hn. lia. }
    intros pre stack. by apply string_decodes; [|split|].
  - intros [n l] Hn Hl Hs. cbn [y_type y_data] in *. subst n.
    apply (round_trips_intro _ _ _ _ _ l); [done|done|apply appends_writeContent|].
    apply (decodes_decodes_at [TagNumber.e_OCTET_STRING]); [by apply bytes_decodes|by left].
  - intros [n l omitted] Hn Hl Hs Hb. cbn [b_type b_data b_numBitsOmitted] in *. subst n.
    apply (round_trips_intro _ _ _ _ _ (octets_bits (mkBits TagNumber.e_BIT_STRING l omitted)));
      [done|unfold octets_bits; rewrite size_cons; cbn [b_data]; lia|by apply appends_bits|].
    apply (decodes_decodes_at [TagNumber.e_BIT_STRING]); [by apply bits_decodes|by left].
  - intros v0 v1 rest Hv0 Hv1 H39 Hlt Hrest Hs.
    apply (round_trips_intro _ _ _ _ _ (octets_identifier (v0 :: v1 :: rest)));
      [done|unfold octets_identifier; rewrite size_cons; lia|by apply appends_identifier|].
    apply (decodes_decodes_at [TagNumber.e_OBJECT_IDENTIFIER]); [|by left].
    apply identifier_decodes; (done || lia).
Qed.

Lemma narrow_ranged (m : D Z) least greatest before after v : m before = (inr v, after) ->
  Decoder.decodeValue_narrow m least greatest before =
  (if (least <=? v) && (v <=? greatest) then inr v else inl Error.e_INVALID, after).
Proof.
  intros Hm. unfold Decoder.decodeValue_narrow, bind. rewrite Hm.
  destruct (Z.leb_spec least v), (Z.leb_spec v greatest), (Z.ltb_spec v least),
    (Z.gtb_spec v greatest); (done || lia).
Qed.

Lemma ranged_within (after : Decoder.t) least greatest v : least <= v <= greatest ->
  ((if (least <=? v) && (v <=? greatest) then inr v else inl Error.e_INVALID) : Error.t + Z, after) =
  (inr v, after).
Proof. intros [Hl Hg]. by rewrite (proj2 (Z.leb_le _ _) Hl), (proj2 (Z.leb_le _ _) Hg). Qed.

Lemma narrow_rejects (m : D Z) least greatest before : (m before).1 = inl Error.e_INVALID ->
  (Decoder.decodeValue_narrow m least greatest before).1 = inl Error.e_INVALID.
Proof.
  intros Hm. unfold Decoder.decodeValue_narrow, bind. by destruct (m before) as [[e|v] d].
Qed.

Lemma fits_mono n l n' l' tr : n <= n' -> l <= l' -> fits n l tr -> fits n' l' tr.
Proof.
  intros Hn Hl. induction tr as [c ty k content children IH] using tree_nested_ind.
  inversion_clear 1 as [? ? ? ? ? Hk Hs Hch]. constructor; [lia|lia|].
  rewrite Forall_forall in *. auto.
Qed.

(** C37: A tree of tags whose numbers are at most 256 and whose lengths fit 32
    bits, in which the primitive tags have no children and the constructed ones no
    content besides their children, is decoded to itself from the octets
    that its encoding leaves in a destination that takes what it is offered,
    wherever they are: the decoder takes the tags in a constructed one while
    content remains, ends, and is then after the octets and as it was. *)
Theorem tree_round_trip `{!Reliable Dest} (tr : tree) (b : Dest) :
  fits 256 (2 ^ 32) tr -> shaped tr -> exists b' octets,
  put (Buf := Buf) tr (Encoder.mk b []) = (inr tt, Encoder.mk b' []) /\
  sb_data b' = sb_data b ++ octets /\
  forall pre post stack fuel, (length octets <= fuel)%nat ->
  take_tree fuel (Decoder.mk (Source.mk (pre ++ octets ++ post) (size pre)) stack) =
  (inr tr, Decoder.mk (Source.mk (pre ++ octets ++ post) (size (pre ++ octets))) stack).
Proof.
  intros Hfits Hsh.
  destruct (put_encodes tr ltac:(by eapply fits_mono; [| |exact Hfits]) b)
    as (r & b' & p & rest & E & Ep & Eb & Er & Ok).
  specialize (Ok _). rewrite (Er Ok), app_nil_r in Ep. subst r p. eexists b', _. split; [done|].
  split; [done|]. intros pre post stack fuel Hf. by apply take_tree_reads.
Qed.

End Properties.

(** C39: The content of an integer, of any positive number of octets, is read as
    the number that it is in two's complement, modulo 2^64 by the functions for
    types of 64 bits, which reject nothing for its size. The unsigned one rejects
    a content that has the sign set. Each function for another type (short, int,
    long, with a sign and without) takes the number so reduced and rejects it
    exactly when it is not in the range of the type; the function for big integers
    gives the number itself. *)
Theorem integer_content (l : list Z) (pre post : list Z) (c : TagClass.t) (n : Z)
    (stack : list Decoder.frame) :
  octets l -> l <> [] -> (c = TagClass.e_UNIVERSAL -> n = TagNumber.e_INTEGER) ->
  let at_ position := Decoder.mk (Source.mk (pre ++ l ++ post) position)
    (frame_at pre c TagType.e_PRIMITIVE n (size l) :: stack) in
  let before := at_ (size pre) in
  let after := at_ (size (pre ++ l)) in
  let signed := swrap 64 (signed_value l) in
  let unsigned := wrap 64 (signed_value l) in
  let ranged v least greatest : (Error.t + Z) * Decoder.t :=
    (if (least <=? v) && (v <=? greatest) then inr v else inl Error.e_INVALID, after) in
  (Decoder.decodeValue_signed before = (inr signed, after) /\
   Decoder.decodeValue_short before = ranged signed (- 2 ^ 15) (2 ^ 15 - 1) /\
   Decoder.decodeValue_int before = ranged signed (- 2 ^ 31) (2 ^ 31 - 1) /\
   Decoder.decodeValue_long before = (inr signed, after)) /\
  (if signed_value l <? 0 then
     Forall (fun decode => (decode before).1 = inl Error.e_INVALID)
       [Decoder.decodeValue_unsigned; Decoder.decodeValue_unsigned_short;
        Decoder.decodeValue_unsigned_int; Decoder.decodeValue_unsigned_long]
   else
     Decoder.decodeValue_unsigned before = (inr unsigned, after) /\
     Decoder.decodeValue_unsigned_short before = ranged unsigned 0 (2 ^ 16 - 1) /\
     Decoder.decodeValue_unsigned_int before = ranged unsigned 0 (2 ^ 32 - 1) /\
     Decoder.decodeValue_unsigned_long before = (inr unsigned, after)) /\
  exists x, Decoder.decodeValue_integer before = (inr x, after) /\
    IntegerArithmetic.wf x /\ IntegerArithmetic.int x = signed_value l.
Proof.
  intros Ho Hne Hc at_ before after signed unsigned ranged.
  assert (c = TagClass.e_UNIVERSAL -> In n [TagNumber.e_INTEGER]) as Hc' by (intros E; left; by rewrite Hc).
  pose proof (decodes_decodes_at _ _ _ _ c n (signed_decodes l Ho Hne) Hc' pre stack pre post) as Hs.
  fold signed in Hs. split; [|split].
  - pose proof (Z.mod_pos_bound (signed_value l + 2 ^ 63) (2 ^ 64) ltac:(lia)) as Hr.
    assert (signed = (signed_value l + 2 ^ 63) mod 2 ^ 64 - 2 ^ 63) as Es by done.
    split; [done|]. unfold Decoder.decodeValue_short, Decoder.decodeValue_int, Decoder.decodeValue_long.
    rewrite !(narrow_ranged _ _ _ _ after signed Hs). split_and!; [done|done|].
    apply ranged_within. unfold S64_MIN, S64_MAX. lia.
  - rewrite signed_value_sign by done. destruct l as [|x l]; [done|]. pose proof (Forall_inv Ho) as Hx.
    cbn in Hx. destruct (Z.leb_spec 128 x) as [Hge|Hlt].
    + assert ((Decoder.decodeValue_unsigned before).1 = inl Error.e_INVALID) as Hr
        by (apply unsigned_rejects; [lia|by split]).
      repeat constructor; [done|by apply narrow_rejects..].
    + pose proof (unsigned_decodes (x :: l) Ho Hlt) as Hd.
      assert (be_value (x :: l) = signed_value (x :: l)) as E.
      { unfold signed_value. by rewrite (proj2 (Z.leb_gt _ _)) by lia. }
      rewrite E in Hd. clear E. pose proof (decodes_decodes_at _ _ _ _ c n Hd Hc' pre stack pre post) as Hu.
      fold unsigned in Hu. pose proof (wrap_range 64 (signed_value (x :: l)) ltac:(lia)) as Hr.
      fold unsigned in Hr. split; [done|].
      unfold Decoder.decodeValue_unsigned_short, Decoder.decodeValue_unsigned_int, Decoder.decodeValue_unsigned_long.
      rewrite !(narrow_ranged _ _ _ _ after unsigned Hu). split_and!; [done|done|].
      apply ranged_within. unfold U64_MAX. lia.
  - destruct (integer_decodes l Ho Hne) as (x & Hx & Ex & Hd). exists x. split; [|done].
    apply (decodes_decodes_at _ _ _ _ c n Hd Hc' pre stack pre post).
Qed.

(** C40: Whatever the octets are and whatever is called, errors included, the
    octets stay as they are and the position within them. Every tag on the stack
    is where it was read: the octets at its position say its class, its type, its
    number, which is at most 256, and its length, which is less than 2^32 or
    indefinite, and its content is after them. So rewinding goes back to the
    octets of the current tag. *)
Theorem decoder_stays_within (data : list Z) (calls : list call) :
  octets data -> Forall call_wf calls ->
  let d := foldl (fun d c => run c d) (Decoder.mk (Source.mk data 0) []) calls in
  Source.d_octets (Decoder.d_buffer d) = data /\
  0 <= Source.d_position (Decoder.d_buffer d) <= size data /\
  Forall (Bounds.frame_wf data) (Decoder.d_contextStack d) /\
  forall f stack, Decoder.d_contextStack d = f :: stack ->
  Decoder.rewindTag d = (inr tt, Decoder.mk (Source.mk data (Decoder.d_tagPosition f)) stack).
Proof.
  intros Ho Hc. assert (Bounds.wf (Decoder.mk (Source.mk data 0) [])) as Hd.
  { split; [|constructor]. split; cbn; [done|]. pose proof (size_nonneg data). lia. }
  cbn zeta. set (d := Decoder.mk (Source.mk data 0) []) in *.
  assert (Source.d_octets (Decoder.d_buffer d) = data) as E by done. clearbody d.
  revert d Hd E. induction Hc as [|c calls Hc _ IH]; intros d Hd E; cbn [foldl].
  { destruct Hd as [[_ Hp] Hf]. rewrite E in *. split_and!; [done|lia..|done|].
    intros f stack Ef. by apply rewindTag_to. }
  destruct (run_keeps c d Hc Hd) as [Hd' E']. apply IH; [done|congruence].
Qed.

(** ** Bits of a sequence *)

Lemma getByte_normalize k l : default 0 (normalize l !! k) = default 0 (l !! k).
Proof.
  unfold normalize. rewrite <- (reverse_involutive l) at 2. generalize (reverse l) as r. intros r.
  induction r as [|x r IH]; [done|]. destruct x; cbn [trim]; try done.
  rewrite IH, reverse_cons. destruct (decide (k < length (reverse r)))%nat as [Hlt|Hge].
  - by rewrite lookup_app_l.
  - rewrite (lookup_ge_None_2 (reverse r)), lookup_app_r by lia.
    by destruct (k - length (reverse r))%nat as [|[|n]].
Qed.

Lemma getByte_set_index k i x l :
  default 0 (set_index i x l !! k) = if decide (k = i) then x else default 0 (l !! k).
Proof.
  unfold set_index.
  set (m := if Nat.leb (length l) i then l ++ replicate (S i - length l) 0 else l).
  assert (i < length m)%nat as Hi.
  { unfold m. destruct (Nat.leb_spec (length l) i); [|done]. rewrite length_app, length_replicate. lia. }
  assert (default 0 (m !! k) = default 0 (l !! k)) as Hm.
  { unfold m. destruct (Nat.leb_spec (length l) i); [|done].
    destruct (decide (k < length l))%nat; [by rewrite lookup_app_l|].
    rewrite lookup_app_r, (lookup_ge_None_2 l) by lia.
    destruct (_ !! _) eqn:E; [|done]. by apply lookup_replicate in E as [-> _]. }
  destruct (decide (k = i)) as [->|Hne]; [by rewrite list_lookup_insert_eq by done|].
  by rewrite list_lookup_insert_ne by congruence.
Qed.

Lemma land_one_bit y p : 0 <= p -> negb (Z.land y (Z.shiftl 1 p) =? 0) = Z.testbit y p.
Proof.
  intros Hp. rewrite Z.shiftl_1_l. destruct (Z.testbit y p) eqn:E.
  - destruct (Z.eqb_spec (Z.land y (2 ^ p)) 0) as [E0|]; [|done].
    apply (f_equal (fun z => Z.testbit z p)) in E0.
    by rewrite Z.land_spec, E, Z.pow2_bits_true, Z.bits_0 in E0.
  - assert (Z.land y (2 ^ p) = 0) as ->; [|done]. apply Z.bits_inj_iff'. intros q Hq.
    rewrite Z.land_spec, Z.bits_0. destruct (Z.eq_dec q p) as [->|]; [by rewrite E|].
    rewrite Z.pow2_bits_false by lia. apply andb_false_r.
Qed.

Lemma mask_bit p q : 0 <= p < 8 -> 0 <= q < 8 ->
  Z.testbit (255 - Z.shiftl 1 p) q = negb (p =? q) /\ Z.testbit (Z.shiftl 1 p) q = (p =? q).
Proof.
  intros Hp Hq. assert (forallb (fun p => forallb (fun q =>
    Bool.eqb (Z.testbit (255 - Z.shiftl 1 (Z.of_nat p)) (Z.of_nat q)) (negb (Z.of_nat p =? Z.of_nat q)) &&
    Bool.eqb (Z.testbit (Z.shiftl 1 (Z.of_nat p)) (Z.of_nat q)) (Z.of_nat p =? Z.of_nat q))
    (seq 0 8)) (seq 0 8) = true) as H by (vm_compute; reflexivity).
  rewrite forallb_forall in H. specialize (H (Z.to_nat p) ltac:(apply in_seq; lia)).
  rewrite forallb_forall in H. specialize (H (Z.to_nat q) ltac:(apply in_seq; lia)).
  rewrite !Z2Nat.id, andb_true_iff, !Bool.eqb_true_iff in H by lia. done.
Qed.

(** A bit that is set is read back, the other bits are as they were, whatever
    the size of the sequence was. *)
Theorem bit_set_is_read (i j : nat) (v : bool) (b : AbstractBitSequence) :
  getBit j (setBit i v b) = if decide (j = i) then v else getBit j b.
Proof.
  assert (forall n, 0 <= 7 - Z.land (Z.of_nat n) 0x07 < 8 /\
    Z.land (Z.of_nat n) 0x07 = Z.of_nat n mod 8) as Hr.
  { intros n. pose proof (Z.land_ones (Z.of_nat n) 3 ltac:(lia)) as E. change (Z.ones 3) with 7 in E.
    change (2 ^ 3) with 8 in E. rewrite E.
    pose proof (Z.mod_pos_bound (Z.of_nat n) 8 ltac:(lia)). lia. }
  pose proof (Hr i) as [Hi Ei]. pose proof (Hr j) as [Hj Ej]. unfold getBit. cbn zeta.
  rewrite !land_one_bit by lia. unfold setBit, setByte, getByte. cbn [b_data b_type b_numBitsOmitted].
  rewrite getByte_normalize, getByte_set_index.
  destruct (decide (j / 8 = i / 8)%nat) as [E|E].
  2: { rewrite decide_False; [done|]. by intros ->. }
  rewrite Z.lor_spec, Z.land_spec.
  destruct (mask_bit (7 - Z.land (Z.of_nat i) 7) (7 - Z.land (Z.of_nat j) 7)) as [-> Hm]; [done|done|].
  rewrite E. destruct (decide (j = i)) as [->|Hne].
  - rewrite Z.eqb_refl in *. destruct v; [by rewrite Hm, orb_true_r|].
    by rewrite Z.bits_0, andb_false_r.
  - assert (7 - Z.land (Z.of_nat i) 7 <> 7 - Z.land (Z.of_nat j) 7) as Hd.
    { rewrite Ei, Ej. intros Heq. apply Hne. apply (f_equal Z.of_nat) in E.
      rewrite !Nat2Z.inj_div in E. change (Z.of_nat 8) with 8 in E.
      pose proof (Z.div_mod (Z.of_nat i) 8 ltac:(lia)).
      pose proof (Z.div_mod (Z.of_nat j) 8 ltac:(lia)). lia. }
    apply Z.eqb_neq in Hd. rewrite Hd in *. destruct v; [rewrite Hm|rewrite Z.bits_0];
      by rewrite andb_true_r, orb_false_r.
Qed.

(** ** Witnesses *)

(** A stream in memory, and one with room for a number of octets. *)
#[local] Instance vector : OutStream (list Z) := {|
  sb_data b := b;
  sb_sputn l b := (b ++ l, size l);
  sb_pubsync b := (b, true)
|}.

#[local] Instance vector_memory : Memory (list Z) := {| mem_init := [] |}.

#[local] Instance vector_out_laws : OutStreamLaws (list Z).
Proof.
  split; [|done]. intros l b. cbn. pose proof (size_nonneg l). split; [lia|].
  by rewrite (firstn_all2 l) by (unfold size; lia).
Qed.

#[local] Instance vector_laws : MemoryLaws (list Z).
Proof. split; [apply vector_out_laws|done..]. Qed.

#[local] Instance bounded : OutStream (Z * list Z) := {|
  sb_data b := b.2;
  sb_sputn l b :=
    let n := Z.min (b.1 `max` 0) (size l) in ((b.1 - n, b.2 ++ take (Z.to_nat n) l), n);
  sb_pubsync b := (b, true)
|}.

#[local] Instance bounded_laws : OutStreamLaws (Z * list Z).
Proof. split; [|done]. intros l b. cbn. pose proof (size_nonneg l). split; [lia|done]. Qed.

(** A sequence of an integer and a tag of another class, with a long number. *)
Definition sample : tree :=
  Tree TagClass.e_UNIVERSAL TagType.e_CONSTRUCTED TagNumber.e_SEQUENCE []
    [Tree TagClass.e_UNIVERSAL TagType.e_PRIMITIVE TagNumber.e_INTEGER [5] [];
     Tree TagClass.e_CONTEXT_SPECIFIC TagType.e_CONSTRUCTED 200 []
       [Tree TagClass.e_UNIVERSAL TagType.e_PRIMITIVE TagNumber.e_NULL [] []]].

Lemma sample_octets : ber sample = [0x30; 0x09; 0x02; 0x01; 0x05; 0xBF; 0x81; 0x48; 0x02; 0x05; 0x00].
Proof. reflexivity. Qed.

Lemma sample_fits n l : 256 <= n -> 11 < l -> fits n l sample.
Proof.
  intros Hn Hl. unfold sample, TagNumber.e_SEQUENCE, TagNumber.e_INTEGER, TagNumber.e_NULL.
  repeat first [apply fits_intro | apply List.Forall_nil | apply List.Forall_cons]; try lia;
    match goal with |- size ?x < _ =>
      let y := eval vm_compute in (size x) in change (size x) with y; lia
    end.
Qed.

Lemma sample_shaped : shaped sample.
Proof. repeat constructor. Qed.

Lemma encoder_writes_tree_witness : exists r b' written rest,
  put (Buf := list Z) sample (Encoder.mk (4, []) []) = (r, Encoder.mk b' []) /\
  ber sample = written ++ rest /\ sb_data b' = sb_data (4, []) ++ written /\
  (r = inr tt -> rest = []) /\ (Reliable (Z * list Z) -> r = inr tt).
Proof. apply (encoder_writes_tree sample (4, [])). apply sample_fits; unfold U64_MAX; lia. Defined.

Lemma numbers_round_trip_witness :
  round_trips (Buf := list Z) (Dest := list Z) TagClass.e_UNIVERSAL TagNumber.e_INTEGER
    (Encoder.encode_signed (-129)) Decoder.decodeValue_signed (-129).
Proof.
  destruct (numbers_round_trip (Buf := list Z) (Dest := list Z) TagClass.e_UNIVERSAL TagNumber.e_INTEGER)
    as [Hs _]; [split; vm_compute; discriminate|done|].
  apply Hs. unfold S64_MIN, S64_MAX. lia.
Defined.

Lemma values_round_trip_witness :
  round_trips (Buf := list Z) (Dest := list Z) TagClass.e_UNIVERSAL TagNumber.e_OBJECT_IDENTIFIER
    (Encoder.encode_identifier [1; 2; 840; 113549]) Decoder.decodeValue_identifier [1; 2; 840; 113549].
Proof.
  apply (values_round_trip (Buf := list Z) (Dest := list Z)); try lia; [split_Forall; lia|].
  vm_compute. reflexivity.
Defined.

Lemma tree_round_trip_witness : exists b' octets,
  put (Buf := list Z) (Dest := list Z) sample (Encoder.mk [] []) = (inr tt, Encoder.mk b' []) /\
  sb_data b' = sb_data [] ++ octets /\
  forall pre post stack fuel, (length octets <= fuel)%nat ->
  take_tree fuel (Decoder.mk (Source.mk (pre ++ octets ++ post) (size pre)) stack) =
  (inr sample, Decoder.mk (Source.mk (pre ++ octets ++ post) (size (pre ++ octets))) stack).
Proof.
  apply (tree_round_trip (Buf := list Z) (Dest := list Z) sample []);
    [apply sample_fits; lia|apply sample_shaped].
Defined.

(** Nine octets are read modulo 2^64. *)
Lemma integer_content_witness :
  let l := [1; 0; 0; 0; 0; 0; 1; 0; 7] in
  let d position := Decoder.mk (Source.mk l position)
    [frame_at [] TagClass.e_UNIVERSAL TagType.e_PRIMITIVE TagNumber.e_INTEGER 9] in
  Decoder.decodeValue_signed (d 0) = (inr 65543, d 9) /\
  Decoder.decodeValue_short (d 0) = (inl Error.e_INVALID, d 9) /\
  Decoder.decodeValue_int (d 0) = (inr 65543, d 9) /\
  Decoder.decodeValue_long (d 0) = (inr 65543, d 9).
Proof.
  apply (integer_content [1; 0; 0; 0; 0; 0; 1; 0; 7] [] [] TagClass.e_UNIVERSAL TagNumber.e_INTEGER []);
    [repeat constructor; lia|done|done].
Defined.

Lemma decoder_stays_within_witness :
  let d := foldl (fun d c => run c d)
    (Decoder.mk (Source.mk [0x30; 0x03; 0x02; 0x01; 0x05] 0) [])
    [c_decodeTag; c_decodeTag; c_signed; c_complete; c_seek 99; c_byte] in
  Source.d_octets (Decoder.d_buffer d) = [0x30; 0x03; 0x02; 0x01; 0x05] /\
  0 <= Source.d_position (Decoder.d_buffer d) <= size [0x30; 0x03; 0x02; 0x01; 0x05] /\
  Forall (Bounds.frame_wf [0x30; 0x03; 0x02; 0x01; 0x05]) (Decoder.d_contextStack d) /\
  forall f stack, Decoder.d_contextStack d = f :: stack ->
  Decoder.rewindTag d =
  (inr tt, Decoder.mk (Source.mk [0x30; 0x03; 0x02; 0x01; 0x05] (Decoder.d_tagPosition f)) stack).
Proof.
  apply (decoder_stays_within [0x30; 0x03; 0x02; 0x01; 0x05]
    [c_decodeTag; c_decodeTag; c_signed; c_complete; c_seek 99; c_byte]);
    [repeat constructor; lia|split_Forall; cbn; (done || lia)].
Defined.

(** ** What does not hold *)

(** The octets of a value that is encoded alone. *)
Definition octets_of (n : Z) (m : Codec.M (Encoder.t (Buf := list Z) (Dest := list Z)) unit) :
    (Error.t + unit) * list Z :=
  let '(r, e) := put_value TagClass.e_UNIVERSAL n m (Encoder.mk [] []) in (r, Encoder.d_buffer e).

Definition value_of {A} (m : D A) (l : list Z) : Error.t + A :=
  (take_value m (Decoder.mk (Source.mk l 0) [])).1.

(** 2.999 is encoded without an error and decoded as another identifier: the
    first two components are cut to one octet. So is 3.5, which no identifier
    is. *)
Lemma identifier_is_truncated :
  octets_of TagNumber.e_OBJECT_IDENTIFIER (Encoder.encode_identifier [2; 999]) = (inr tt, [6; 1; 55]) /\
  value_of Decoder.decodeValue_identifier [6; 1; 55] = inr [1; 15] /\
  octets_of TagNumber.e_OBJECT_IDENTIFIER (Encoder.encode_identifier [3; 5]) = (inr tt, [6; 1; 125]) /\
  value_of Decoder.decodeValue_identifier [6; 1; 125] = inr [2; 45].
Proof. vm_compute. by split_and!. Qed.

(** A component that does not end with the content takes the octets after it. *)
Lemma identifier_reads_past_content :
  (bind Decoder.decodeTag (fun _ => Decoder.decodeValue_identifier)
     (Decoder.mk (Source.mk [6; 2; 42; 0x86; 5; 0] 0) [])).1 = inl Error.e_EOF /\
  Source.d_position (Decoder.d_buffer
    (bind Decoder.decodeTag (fun _ => Decoder.decodeValue_identifier)
       (Decoder.mk (Source.mk [6; 2; 42; 0x86; 5; 0] 0) [])).2) = 6.
Proof. vm_compute. by split. Qed.

(** What is empty is encoded and is not decoded. *)
Lemma empty_string_is_rejected :
  octets_of TagNumber.e_UTF8_STRING (Encoder.encode_string (mkString TagNumber.e_UTF8_STRING []))
    = (inr tt, [12; 0]) /\
  value_of Decoder.decodeValue_string [12; 0] = inl Error.e_INVALID /\
  octets_of TagNumber.e_BIT_STRING (Encoder.encode_bits (mkBits TagNumber.e_BIT_STRING [] 0))
    = (inr tt, [3; 1; 0]) /\
  value_of Decoder.decodeValue_bits [3; 1; 0] = inl Error.e_INVALID.
Proof. vm_compute. by split_and!. Qed.

(** The two octets that end an indefinite length are the tag and the length of
    its frame; [decodeEnd] asks for one more. A frame of an indefinite length is
    never completed. *)
Lemma indefinite_length_is_stuck :
  (bind Decoder.decodeTag (fun _ => Decoder.decodeEnd)
     (Decoder.mk (Source.mk [0; 0] 0) [])).1 = inl Error.e_EOF /\
  (bind Decoder.decodeTag (fun _ => Decoder.decodeEnd)
     (Decoder.mk (Source.mk [0; 0; 5; 0] 0) [])).1 = inl Error.e_INVALID /\
  value_of (ret tt) [0x30; 0x80; 0; 0] = inl Error.e_INVALID.
Proof. vm_compute. by split_and!. Qed.

End AbstractSyntaxTheorems.
