(* ===== verification/NumberText.v ===== *)
(** * Decimal numbers in text

    Models [ntsa::PortUtil] (src/groups/nts/ntsa/ntsa_port.cpp) and
    [ntsa::Ipv6ScopeIdUtil] (ntsa_ipv6scopeid.cpp), whose code is the same, and
    the facts about decimal text that the addresses share.

    A character is its code.  The parser reads memory: the text, of which it is
    told the size, and what follows it; [None] is a read past the end of that
    memory.  The classification of characters, [bdlb::CharType], is a library
    the code calls: an interface with the laws it documents. *)

From S2P Require Import Prelude.

(** [bdlb::CharType]. *)
Class CharType := {
  isSpace : Z -> bool;
  isDigit : Z -> bool;
}.

Class CharTypeLaws (C : CharType) : Prop := {
  isDigit_spec : forall c, isDigit c = (48 <=? c) && (c <=? 57);
  isSpace_digit : forall c, isDigit c = true -> isSpace c = false;
}.

(** The classification of ASCII, for the witnesses. *)
Definition ascii_char_type : CharType := {|
  isSpace c := (c =? 32) || ((9 <=? c) && (c <=? 13));
  isDigit c := (48 <=? c) && (c <=? 57);
|}.

Lemma ascii_char_type_laws : CharTypeLaws ascii_char_type.
Proof. split; [done|]. cbn. intros c Hc. lia. Qed.

Module NumberText.

Section Parse.

Context {C : CharType}.

(** Read characters until one is no white space: that one, the position after
    it and the memory from there on. *)
Fixpoint skip_spaces (memory : list Z) (p : nat) : option (Z * nat * list Z) :=
  match memory with
  | [] => None
  | c :: memory => if isSpace c then skip_spaces memory (S p) else Some (c, S p, memory)
  end.

(** The loop over the digits; the inner [None] is the return of [false]. *)
Fixpoint number_loop (memory : list Z) (c : Z) (p e : nat) (value : Z) : option (option Z) :=
  if (p =? e)%nat then Some (Some value)
  else if isDigit c then
    match memory with
    | [] => None
    | c' :: memory => number_loop memory c' (S p) e (wrap 64 (value * 10 + (c - 48)))
    end
  else Some None.

(** [parse]: the number, if the text is valid.  [memory] is the text of [size]
    characters and what follows it. *)
Definition parse (memory : list Z) (size : nat) : option (option Z) :=
  let e := S size in
  match memory with
  | [] => None
  | first :: _ =>
      if first =? 0 then Some None else
      '(c, p, rest) ← skip_spaces memory 0;
      if c =? 45 then Some None else
      '(c, p, rest) ←
        (if c =? 43 then
           match rest with [] => None | c' :: rest => Some (c', S p, rest) end
         else Some (c, p, rest));
      result ← number_loop rest c p e 0;
      Some (match result with
            | Some value => if U16_MAX <? value then None else Some value
            | None => None
            end)
  end.

End Parse.

(** The loop of [format]: the characters written, least significant first, and
    whether the number ended before the capacity did.  A number of 16 bits has
    at most five digits. *)
Fixpoint format_loop (fuel : nat) (value : Z) (capacity : nat) (written : list Z)
  : option (bool * list Z) :=
  if (length written =? capacity)%nat then Some (false, written)
  else match fuel with
  | O => None
  | S fuel =>
      let written := written ++ [48 + value mod 10] in
      let value := value / 10 in
      if value =? 0 then Some (true, written)
      else format_loop fuel value capacity written
  end.

(** [format]: the characters in the buffer. *)
Definition format (capacity : nat) (number : Z) : option (list Z) :=
  '(ended, written) ← format_loop 5 (wrap 16 number) capacity [];
  Some (if (ended : bool) then reverse written else written).

(** The loop of [Ipv4Address::format] and [Ipv6Address::format] over the digits
    of a number, least significant first, of which there is room for as many as
    the fuel. *)
Fixpoint digit_loop (fuel : nat) (value : Z) : option (list Z) :=
  match fuel with
  | O => None
  | S fuel =>
      let digit := 48 + value mod 10 in
      if value / 10 =? 0 then Some [digit]
      else
        rest ← digit_loop fuel (value / 10);
        Some (digit :: rest)
  end.

(** ** Digits *)

(** The decimal digits of a number, least significant first, at least one. *)
Fixpoint digits (fuel : nat) (value : Z) : list Z :=
  match fuel with
  | O => []
  | S fuel => (value mod 10) :: (if value / 10 =? 0 then [] else digits fuel (value / 10))
  end.

Definition chars (l : list Z) : list Z := map (fun d => 48 + d) l.

(** The text of a number. *)
Definition text (fuel : nat) (value : Z) : list Z := reverse (chars (digits fuel value)).

(** The number that characters stand for. *)
Definition number (text : list Z) : Z := foldl (fun acc c => acc * 10 + (c - 48)) 0 text.

Definition all_digits (text : list Z) : Prop := Forall (fun c => 48 <= c <= 57) text.

Lemma number_append l c : number (l ++ [c]) = number l * 10 + (c - 48).
Proof. unfold number. by rewrite foldl_app. Qed.

Lemma number_foldl l v :
  foldl (fun acc c => acc * 10 + (c - 48)) v l = v * 10 ^ size l + number l.
Proof.
  induction l as [|c l IH] using rev_ind; [change (10 ^ size (@nil Z)) with 1; cbn; lia|].
  rewrite number_append, foldl_app, IH, size_app, Z.pow_add_r by apply size_nonneg.
  cbn [foldl]. change (10 ^ size [c]) with 10. ring.
Qed.

Lemma number_bounds l : all_digits l -> 0 <= number l < 10 ^ size l.
Proof.
  induction l as [|c l IH] using rev_ind; intros Hl; [done|].
  apply Forall_app in Hl as [Hl Hc]. apply Forall_inv in Hc. cbn in Hc.
  specialize (IH Hl). rewrite number_append, size_app, Z.pow_add_r by apply size_nonneg.
  change (10 ^ size [c]) with 10. lia.
Qed.

Lemma text_spec fuel value :
  (0 < fuel)%nat -> 0 <= value < 10 ^ Z.of_nat fuel ->
  all_digits (text fuel value) /\ number (text fuel value) = value /\
  (0 < length (text fuel value) <= fuel)%nat.
Proof.
  unfold text, chars, all_digits. revert value. induction fuel as [|fuel IH]; intros value Hf Hv; [lia|].
  cbn [digits map]. rewrite reverse_cons. pose proof (Z.mod_pos_bound value 10 ltac:(lia)) as Hm.
  rewrite number_append, length_app. cbn [length].
  rewrite Nat2Z.inj_succ, Z.pow_succ_r in Hv by lia.
  pose proof (Z.div_mod value 10 ltac:(lia)) as Hdm.
  destruct (Z.eqb_spec (value / 10) 0) as [Hz|Hnz].
  - cbn [map]. change (reverse (@nil Z)) with (@nil Z). cbn [app length].
    split; [by apply Forall_singleton; lia|]. change (number []) with 0. lia.
  - assert (0 < fuel)%nat as Hf'.
    { destruct fuel; [|lia]. exfalso. change (10 ^ Z.of_nat 0) with 1 in Hv.
      apply Hnz, Z.div_small. lia. }
    destruct (IH (value / 10)) as (Ha & Hn & Hl);
      [done|split; [apply Z.div_pos; lia|apply Z.div_lt_upper_bound; lia]|].
    rewrite Hn. split; [|lia]. apply Forall_app. split; [done|]. apply Forall_singleton. lia.
Qed.

Lemma format_loop_spec fuel value capacity written :
  0 <= value < 10 ^ Z.of_nat fuel -> (0 < fuel)%nat -> (length written + fuel <= capacity)%nat ->
  format_loop fuel value capacity written = Some (true, written ++ chars (digits fuel value)).
Proof.
  revert value written. induction fuel as [|fuel IH]; intros value written Hv Hf Hc; [lia|].
  cbn [format_loop digits chars map]. rewrite (proj2 (Nat.eqb_neq _ _)) by lia.
  destruct (Z.eqb_spec (value / 10) 0) as [Hz|Hnz]; [done|].
  rewrite Nat2Z.inj_succ, Z.pow_succ_r in Hv by lia.
  assert (0 < fuel)%nat as Hf'.
  { destruct fuel; [|lia]. exfalso. change (10 ^ Z.of_nat 0) with 1 in Hv.
    apply Hnz, Z.div_small. lia. }
  rewrite IH.
  - by rewrite <- app_assoc.
  - split; [apply Z.div_pos; lia|apply Z.div_lt_upper_bound; lia].
  - done.
  - rewrite length_app. cbn. lia.
Qed.

Lemma digit_loop_text fuel v :
  (0 < fuel)%nat -> 0 <= v < 10 ^ Z.of_nat fuel -> digit_loop fuel v = Some (chars (digits fuel v)).
Proof.
  revert v. induction fuel as [|fuel IH]; intros v Hf Hv; [lia|].
  cbn [digit_loop digits chars map].
  destruct (Z.eqb_spec (v / 10) 0) as [|Hnz]; [done|].
  rewrite Nat2Z.inj_succ, Z.pow_succ_r in Hv by lia.
  assert (0 < fuel)%nat as Hf'.
  { destruct fuel; [|lia]. exfalso. change (10 ^ Z.of_nat 0) with 1 in Hv. apply Hnz, Z.div_small. lia. }
  rewrite IH; [done|done|]. split; [apply Z.div_pos; lia|apply Z.div_lt_upper_bound; lia].
Qed.

(** With room for five characters a number of 16 bits is written in full. *)
Lemma format_number_text capacity value :
  0 <= value <= U16_MAX -> (5 <= capacity)%nat -> format capacity value = Some (text 5 value).
Proof.
  intros Hv Hc. unfold format. rewrite wrap_small by (unfold U16_MAX in Hv; lia).
  rewrite (format_loop_spec 5 value capacity []);
    [done|unfold U16_MAX in Hv; change (10 ^ Z.of_nat 5) with 100000; lia|lia|cbn; lia].
Qed.

Section ParseFacts.

Context {C : CharType} {CL : CharTypeLaws C}.

Lemma isDigit_char c : 48 <= c <= 57 -> isDigit c = true.
Proof. rewrite isDigit_spec. lia. Qed.

Lemma number_loop_digits l c after p value v0 :
  all_digits (c :: l) -> 0 <= value -> value * 10 ^ size (c :: l) + number (c :: l) < 2 ^ 64 ->
  number_loop (l ++ v0 :: after) c p (p + S (length l)) value =
  Some (Some (value * 10 ^ size (c :: l) + number (c :: l))).
Proof.
  revert c p value. induction l as [|c' l IH]; intros c p value Hd Hv Hlt.
  - pose proof (Forall_inv Hd) as Hc. cbn in Hc. cbn [app number_loop length] in *.
    rewrite (proj2 (Nat.eqb_neq _ _)), isDigit_char by lia.
    change (10 ^ size [c]) with 10 in *. unfold number in *. cbn [foldl] in *.
    rewrite wrap_small by lia.
    assert (forall m x w, number_loop m x (S p) (p + 1) w = Some (Some w)) as ->.
    { intros m x w. destruct m; cbn [number_loop]; rewrite (proj2 (Nat.eqb_eq _ _)) by lia; done. }
    by do 2 f_equal.
  - pose proof (Forall_inv Hd) as Hc. cbn in Hc. apply Forall_inv_tail in Hd.
    cbn [app number_loop length] in *.
    rewrite (proj2 (Nat.eqb_neq _ _)), isDigit_char by lia.
    assert (number (c :: c' :: l) = (c - 48) * 10 ^ size (c' :: l) + number (c' :: l)) as Hn.
    { unfold number at 1. cbn [foldl]. rewrite <- number_foldl. cbn [foldl]. done. }
    assert (10 ^ size (c :: c' :: l) = 10 * 10 ^ size (c' :: l)) as Hp.
    { rewrite (size_cons c), Z.pow_add_r by (pose proof (size_nonneg (c' :: l)); lia). done. }
    pose proof (number_bounds _ Hd). pose proof (Z.pow_pos_nonneg 10 (size (c' :: l)) ltac:(lia) (size_nonneg _)).
    rewrite Hn, Hp in *.
    assert (0 <= value * 10 + (c - 48) <= (value * 10 + (c - 48)) * 10 ^ size (c' :: l)) by nia.
    rewrite wrap_small by lia.
    replace (p + S (S (length l)))%nat with (S p + S (length l))%nat by lia.
    rewrite IH; [do 2 f_equal; ring|done|lia|]. lia.
Qed.

(** Digits with anything after them in memory are read as their number, if it
    has 16 bits and at most 19 digits. *)
Lemma parse_digits l v0 after :
  all_digits l -> l <> [] -> (length l <= 19)%nat ->
  parse (l ++ v0 :: after) (length l) =
  Some (if U16_MAX <? number l then None else Some (number l)).
Proof.
  intros Hd Hne Hlen. destruct l as [|c l]; [done|]. cbn [app length] in *.
  pose proof (Forall_inv Hd) as Hc. cbn in Hc. unfold parse.
  rewrite (proj2 (Z.eqb_neq c 0)) by lia. cbn [skip_spaces].
  rewrite isSpace_digit by by apply isDigit_char. cbn [mbind option_bind].
  rewrite (proj2 (Z.eqb_neq c 45)), (proj2 (Z.eqb_neq c 43)) by lia. cbn [mbind option_bind].
  pose proof (number_loop_digits l c after 1 0 v0 Hd ltac:(lia)) as H.
  replace (1 + S (length l))%nat with (S (S (length l))) in H by lia.
  rewrite H.
  - cbn [mbind option_bind]. rewrite Z.mul_0_l, Z.add_0_l. done.
  - pose proof (number_bounds _ Hd). rewrite Z.mul_0_l, Z.add_0_l.
    assert (10 ^ size (c :: l) <= 10 ^ 19).
    { apply Z.pow_le_mono_r; [lia|]. unfold size. cbn [length]. lia. }
    change (2 ^ 64) with 18446744073709551616. change (10 ^ 19) with 10000000000000000000 in *. lia.
Qed.

(** The round trip of a number of 16 bits. *)
Lemma parse_text value v0 after :
  0 <= value <= U16_MAX ->
  parse (text 5 value ++ v0 :: after) (length (text 5 value)) = Some (Some value).
Proof.
  intros Hv. unfold U16_MAX in Hv.
  destruct (text_spec 5 value) as (Ha & Hn & Hl);
    [lia|change (10 ^ Z.of_nat 5) with 100000; lia|].
  rewrite parse_digits, Hn by (done || lia || by intros E; rewrite E in Hl; cbn in Hl; lia).
  unfold U16_MAX. rewrite (proj2 (Z.ltb_ge _ _)) by lia. done.
Qed.

End ParseFacts.

(** A text of more than 19 digits wraps around: 2^64 + 80 is read as 80. *)
Lemma parse_wraps :
  @parse ascii_char_type
    [49; 56; 52; 52; 54; 55; 52; 52; 48; 55; 51; 55; 48; 57; 53; 53; 49; 54; 57; 54; 0] 20 =
  Some (Some 80).
Proof. done. Qed.

(** A sign alone is read as zero. *)
Lemma parse_sign_alone : @parse ascii_char_type [43; 0] 1 = Some (Some 0).
Proof. done. Qed.

End NumberText.
