(* ===== verification/Ipv4Address.v ===== *)
(** * IPv4 addresses

    Models [ntsa::Ipv4Address] (src/groups/nts/ntsa/ntsa_ipv4address.h and
    .cpp): its text form and its copies.  An address is its four octets in
    network order.

    The theorems: [parse] accepts the texts that [inet_aton] accepts in decimal,
    including those with fewer than four parts, and moreover texts with empty
    parts; what [format] writes is parsed back. *)

From S2P Require Import Prelude NumberText.

Module Ipv4Address.

Definition MAX_TEXT_LENGTH : nat := 15.

Record address : Set := { octet0 : Z; octet1 : Z; octet2 : Z; octet3 : Z }.

#[export] Instance address_eq_dec : EqDecision address.
Proof. solve_decision. Defined.

Definition octets (a : address) : list Z := [octet0 a; octet1 a; octet2 a; octet3 a].

Definition of_octets (l : list Z) : option address :=
  match l with
  | [o0; o1; o2; o3] => Some {| octet0 := o0; octet1 := o1; octet2 := o2; octet3 := o3 |}
  | _ => None
  end.

Definition any : address := {| octet0 := 0; octet1 := 0; octet2 := 0; octet3 := 0 |}.

Definition loopback : address := {| octet0 := 127; octet1 := 0; octet2 := 0; octet3 := 1 |}.

(** [newValue.d_asBytes[index] = octet], which is undefined past the end. *)
Definition store (l : list Z) (index : nat) (octet : Z) : option (list Z) :=
  assert! (index <? length l)%nat ;; Some (<[index := octet]> l).

(** The loop over the text; the inner [None] is the return of [false]. *)
Fixpoint parse_loop (text : list Z) (index : nat) (num : Z) (newValue : list Z)
  : option (option (nat * Z * list Z)) :=
  match text with
  | [] => Some (Some (index, num, newValue))
  | ch :: text =>
      if (48 <=? ch) && (ch <=? 57) then
        let num := wrap 64 (wrap 64 (num * 10) + (ch - 48)) in
        if U32_MAX <? num then Some None
        else parse_loop text index num newValue
      else if ch =? 46 then
        if 255 <? num then Some None
        else
          newValue ← store newValue index (wrap 8 num);
          if (3 <? S index)%nat then Some None
          else parse_loop text (S index) 0 newValue
      else Some None
  end.

(** The octets of the last part, from the end of the address. *)
Fixpoint last_part (n i : nat) (num : Z) (newValue : list Z) : option (list Z) :=
  match n with
  | O => Some newValue
  | S n =>
      newValue ← store newValue (3 - i) (wrap 8 (num mod 256));
      last_part n (S i) (num / 256) newValue
  end.

Definition parse_finish (index : nat) (num : Z) (newValue : list Z)
  : option (option (list Z)) :=
  if (index =? 3)%nat then
    if 255 <? num then Some None
    else
      newValue ← store newValue index (wrap 8 num);
      Some (Some newValue)
  else
    let numOctetsLeft := (4 - index)%nat in
    if 256 ^ Z.of_nat numOctetsLeft <=? num then Some None
    else
      newValue ← last_part numOctetsLeft 0 num newValue;
      Some (Some newValue).

(** [parse]: whether the text is valid and the address afterwards, which an
    invalid text resets. *)
Definition parse (text : list Z) : option (bool * address) :=
  loop ← parse_loop text 0 0 [0; 0; 0; 0];
  match loop with
  | None => Some (false, any)
  | Some (index, num, newValue) =>
      result ← parse_finish index num newValue;
      match result with
      | None => Some (false, any)
      | Some newValue =>
          a ← of_octets newValue;
          Some (true, a)
      end
  end.

(** The characters of an octet, for which [temp] has room for three. *)
Definition format_octet (value : Z) : option (list Z) :=
  temp ← NumberText.digit_loop 3 value;
  Some (reverse temp).

(** [format]: the characters in the buffer before the terminating zero; none
    when the buffer is too small. *)
Definition format (capacity : nat) (a : address) : option (list Z) :=
  if (capacity <? MAX_TEXT_LENGTH + 1)%nat then Some []
  else
    t0 ← format_octet (octet0 a);
    t1 ← format_octet (octet1 a);
    t2 ← format_octet (octet2 a);
    t3 ← format_octet (octet3 a);
    let text := t0 ++ 46 :: t1 ++ 46 :: t2 ++ 46 :: t3 in
    assert! (length text + 1 <=? capacity)%nat ;;
    Some text.

Definition text (a : address) : option (list Z) := format (MAX_TEXT_LENGTH + 1) a.

(** [copyFrom] and [copyTo], with the octets copied. *)
Definition copyFrom (source : list Z) (size : nat) (a : address) : option (nat * address) :=
  if (size <? 4)%nat then Some (0%nat, a)
  else
    a ← of_octets (take 4 source);
    Some (4%nat, a).

Definition copyTo (capacity : nat) (a : address) : list Z :=
  if (capacity <? 4)%nat then [] else octets a.

(** ** The reference: numbers separated by dots *)

(** The parts of a text between dots. *)
Fixpoint parts (text : list Z) : list (list Z) :=
  match text with
  | [] => [[]]
  | ch :: text =>
      if ch =? 46 then [] :: parts text
      else match parts text with
           | part :: rest => (ch :: part) :: rest
           | [] => [[ch]]
           end
  end.

Definition is_number (part : list Z) : bool :=
  forallb (fun ch => (48 <=? ch) && (ch <=? 57)) part.

(** The octets of the last of [n] parts fill the address. *)
Fixpoint big_endian (n : nat) (num : Z) : list Z :=
  match n with
  | O => []
  | S n => big_endian n (num / 256) ++ [num mod 256]
  end.

Fixpoint assemble (room : nat) (numbers : list Z) : option (list Z) :=
  match room, numbers with
  | S room, [num] => if num <? 256 ^ Z.of_nat (S room) then Some (big_endian (S room) num) else None
  | S room, num :: rest =>
      if num <=? 255 then
        octets ← assemble room rest;
        Some (num :: octets)
      else None
  | _, _ => None
  end.

Definition aton (text : list Z) : option (list Z) :=
  if forallb is_number (parts text) then assemble 4 (map NumberText.number (parts text)) else None.

End Ipv4Address.

Module Ipv4AddressFacts.

Import Ipv4Address.

(** ** The parser computes the reference *)

Definition number_from (v : Z) (part : list Z) : Z :=
  foldl (fun acc c => acc * 10 + (c - 48)) v part.

(** The numbers of the parts when the first one began with the digits of [num]. *)
Definition numbers_from (num : Z) (l : list (list Z)) : list Z :=
  match l with
  | [] => []
  | part :: rest => number_from num part :: map NumberText.number rest
  end.

Definition run (text : list Z) (index : nat) (num : Z) (newValue : list Z)
  : option (option (list Z)) :=
  loop ← parse_loop text index num newValue;
  match loop with
  | None => Some None
  | Some (index, num, newValue) => parse_finish index num newValue
  end.

Lemma parts_not_nil text : parts text <> [].
Proof. destruct text as [|ch text]; [done|]. cbn. destruct (ch =? 46); [done|]. by destruct (parts text). Qed.

Lemma number_from_ge v part : is_number part = true -> 0 <= v -> v <= number_from v part.
Proof.
  intros Hp Hv. unfold number_from. rewrite NumberText.number_foldl.
  assert (NumberText.all_digits part) as Hd.
  { apply List.Forall_forall. intros c Hc. unfold is_number in Hp. rewrite forallb_forall in Hp.
    specialize (Hp c Hc). lia. }
  pose proof (NumberText.number_bounds part Hd).
  pose proof (Z.pow_pos_nonneg 10 (size part) ltac:(lia) (size_nonneg _)). nia.
Qed.

Lemma assemble_too_large room num rest :
  (room <= 4)%nat -> U32_MAX < num -> assemble room (num :: rest) = None.
Proof.
  intros Hr Hn. unfold U32_MAX in Hn. destruct room as [|room]; [done|]. destruct rest; cbn [assemble].
  - assert (256 ^ Z.of_nat (S room) <= 256 ^ 4) by (apply Z.pow_le_mono_r; lia).
    rewrite (proj2 (Z.ltb_ge _ _)) by lia. done.
  - by rewrite (proj2 (Z.leb_gt _ _)) by lia.
Qed.

Lemma parse_finish_spec index num front :
  length front = index -> (index <= 3)%nat -> 0 <= num <= U32_MAX ->
  parse_finish index num (front ++ replicate (4 - index) 0) =
  Some (match assemble (4 - index) [num] with Some l => Some (front ++ l) | None => None end).
Proof.
  intros Hl Hi Hn. unfold parse_finish.
  destruct (Nat.eqb_spec index 3) as [->|Hne].
  - destruct front as [|a [|b [|c [|]]]]; try done. cbn [Nat.sub replicate app assemble].
    change (256 ^ Z.of_nat 1) with 256.
    destruct (Z.ltb_spec 255 num); destruct (Z.ltb_spec num 256); try lia; [done|].
    cbn -[wrap Z.modulo Z.div]. rewrite wrap_small by lia. rewrite Z.mod_small by lia. done.
  - assert (assemble (4 - index) [num] =
      if num <? 256 ^ Z.of_nat (4 - index) then Some (big_endian (4 - index) num) else None) as ->.
    { destruct (4 - index)%nat eqn:E; [lia|]. done. }
    destruct (Z.leb_spec (256 ^ Z.of_nat (4 - index)) num);
      destruct (Z.ltb_spec num (256 ^ Z.of_nat (4 - index))); try lia; [done|].
    assert (forall x, wrap 8 (x mod 256) = x mod 256) as Hw.
    { intros x. apply wrap_small. apply Z.mod_pos_bound. lia. }
    destruct front as [|a [|b [|c [|]]]]; cbn in Hl; subst index; try lia; cbn -[wrap Z.modulo Z.div];
      rewrite ?Hw; done.
Qed.

Lemma run_parts text index num front :
  length front = index -> (index <= 3)%nat -> 0 <= num <= U32_MAX ->
  run text index num (front ++ replicate (4 - index) 0) =
  Some (if forallb is_number (parts text) then
          match assemble (4 - index) (numbers_from num (parts text)) with
          | Some l => Some (front ++ l)
          | None => None
          end
        else None).
Proof.
  revert index num front. induction text as [|ch text IH]; intros index num front Hl Hi Hn.
  { unfold run. cbn [parse_loop mbind option_bind parts forallb is_number andb numbers_from map number_from foldl].
    by apply parse_finish_spec. }
  pose proof (parts_not_nil text) as Hne. unfold run. cbn [parse_loop parts].
  destruct ((48 <=? ch) && (ch <=? 57)) eqn:Ed.
  - assert (wrap 64 (wrap 64 (num * 10) + (ch - 48)) = num * 10 + (ch - 48)) as ->.
    { rewrite wrap_add_l. apply wrap_small. unfold U32_MAX in Hn. lia. }
    rewrite (proj2 (Z.eqb_neq ch 46)) by lia.
    destruct (Z.ltb_spec U32_MAX (num * 10 + (ch - 48))) as [Hbig|Hsmall].
    + cbn [mbind option_bind]. destruct (parts text) as [|part rest]; [by destruct Hne|].
      destruct (forallb is_number ((ch :: part) :: rest)) eqn:Ef; [|done]. f_equal.
      cbn [forallb is_number] in Ef. apply andb_prop in Ef as [Ef _]. apply andb_prop in Ef as [_ Ef].
      cbn [numbers_from number_from foldl].
      pose proof (number_from_ge (num * 10 + (ch - 48)) part Ef ltac:(lia)) as Hge.
      rewrite assemble_too_large; [done|lia|]. unfold number_from in Hge. lia.
    + fold (run text index (num * 10 + (ch - 48)) (front ++ replicate (4 - index) 0)).
      rewrite IH by lia. destruct (parts text) as [|part rest]; [by destruct Hne|].
      cbn [forallb is_number numbers_from number_from foldl]. rewrite Ed. done.
  - destruct (Z.eqb_spec ch 46) as [->|Hdot].
    + cbn [forallb is_number andb numbers_from number_from foldl].
      assert (numbers_from 0 (parts text) = map NumberText.number (parts text)) as Hmap.
      { by destruct (parts text). }
      destruct (map NumberText.number (parts text)) as [|n0 ns] eqn:Em.
      { destruct (parts text); [done|discriminate Em]. }
      destruct (4 - index)%nat as [|room] eqn:Er; [lia|]. cbn [assemble].
      destruct (Z.ltb_spec 255 num); [rewrite (proj2 (Z.leb_gt _ _)) by lia; cbn; by destruct (forallb _ _)|].
      rewrite (proj2 (Z.leb_le num 255)) by lia.
      assert (store (front ++ replicate (S room) 0) index (wrap 8 num) =
        Some ((front ++ [num]) ++ replicate room 0)) as ->.
      { unfold store. rewrite length_app, length_replicate, (proj2 (Nat.ltb_lt _ _)) by lia.
        rewrite wrap_small by lia. subst index. rewrite <- (Nat.add_0_r (length front)) at 1.
        rewrite insert_app_r. cbn [replicate]. cbn. by rewrite <- app_assoc. }
      cbn [mbind option_bind]. destruct (Nat.ltb_spec 3 (S index)).
      * assert (room = 0%nat) as -> by lia. cbn. by destruct (forallb _ _).
      * assert (room = (4 - S index)%nat) as -> by lia.
        fold (run text (S index) 0 ((front ++ [num]) ++ replicate (4 - S index) 0)).
        rewrite IH by (rewrite ?length_app; cbn; lia || (unfold U32_MAX; lia)).
        rewrite Hmap. destruct (forallb _ _); [|done].
        destruct (assemble (4 - S index) (n0 :: ns)); [|done]. cbn. by rewrite <- app_assoc.
    + cbn [mbind option_bind]. destruct (parts text) as [|part rest]; [by destruct Hne|].
      cbn [forallb is_number]. by rewrite Ed.
Qed.

Lemma length_big_endian n num : length (big_endian n num) = n.
Proof. revert num. induction n as [|n IH]; intros num; [done|]. cbn. rewrite length_app, IH. cbn. lia. Qed.

Lemma assemble_length room numbers l : assemble room numbers = Some l -> length l = room.
Proof.
  revert numbers l. induction room as [|room IH]; intros [|num [|num' rest]] l; try done.
  - cbn [assemble]. destruct (_ <? _); [|done]. intros [= <-]. apply (length_big_endian (S room)).
  - cbn [assemble]. destruct (_ <=? _); [|done]. destruct (assemble room _) eqn:E; [|done].
    intros [= <-]. cbn. by rewrite (IH _ _ E).
Qed.

Lemma parse_aton text :
  exists a, parse text = Some (match aton text with Some _ => true | None => false end, a) /\
    match aton text with Some l => octets a = l | None => a = any end.
Proof.
  pose proof (run_parts text 0 0 [] eq_refl ltac:(lia) ltac:(unfold U32_MAX; lia)) as H.
  assert (numbers_from 0 (parts text) = map NumberText.number (parts text)) as Hmap.
  { by destruct (parts text). }
  cbn [Nat.sub replicate app] in H. rewrite Hmap in H. unfold run in H. unfold parse, aton.
  assert (forall l, assemble 4 (map NumberText.number (parts text)) = Some l -> length l = 4%nat) as Hlen
    by apply assemble_length.
  generalize dependent (assemble 4 (map NumberText.number (parts text))). intros A H Hlen.
  destruct (parse_loop text 0 0 [0; 0; 0; 0]) as [[[[index num] newValue]|]|];
    cbn [mbind option_bind] in *; [|injection H as H|done].
  - rewrite H. cbn [mbind option_bind]. destruct (forallb is_number (parts text)); [|by exists any].
    destruct A as [l|]; [|by exists any]. specialize (Hlen l eq_refl).
    destruct l as [|a [|b [|c [|d [|]]]]]; try done. cbn. by eexists.
  - exists any. destruct (forallb is_number (parts text)); [|done]. by destruct A.
Qed.

(** ** The text of an address *)

Definition is_address (a : address) : Prop := Forall (fun o => 0 <= o < 256) (octets a).

Lemma format_octet_text v : 0 <= v < 256 -> format_octet v = Some (NumberText.text 3 v).
Proof.
  intros Hv. unfold format_octet. rewrite NumberText.digit_loop_text; [done|lia|].
  change (10 ^ Z.of_nat 3) with 1000. lia.
Qed.

Definition octet_text (v : Z) : list Z := NumberText.text 3 v.

Lemma octet_text_spec v :
  0 <= v < 256 ->
  is_number (octet_text v) = true /\ NumberText.number (octet_text v) = v /\ (length (octet_text v) <= 3)%nat.
Proof.
  intros Hv. destruct (NumberText.text_spec 3 v) as (Ha & Hn & Hl);
    [lia|change (10 ^ Z.of_nat 3) with 1000; lia|].
  split; [|split; [done|unfold octet_text; lia]]. apply forallb_forall. intros c Hc.
  unfold NumberText.all_digits in Ha. rewrite List.Forall_forall in Ha. specialize (Ha c Hc). lia.
Qed.

Lemma parts_number part rest :
  is_number part = true -> parts (part ++ 46 :: rest) = part :: parts rest.
Proof.
  induction part as [|ch part IH]; [done|]. cbn [is_number forallb app parts]. intros H.
  apply andb_prop in H as [Hc Hp]. rewrite (proj2 (Z.eqb_neq ch 46)) by lia. by rewrite IH.
Qed.

Lemma parts_last part : is_number part = true -> parts part = [part].
Proof.
  induction part as [|ch part IH]; [done|]. cbn [is_number forallb parts]. intros H.
  apply andb_prop in H as [Hc Hp]. rewrite (proj2 (Z.eqb_neq ch 46)) by lia. by rewrite IH.
Qed.

Definition address_text (a : address) : list Z :=
  octet_text (octet0 a) ++ 46 :: octet_text (octet1 a) ++ 46 ::
  octet_text (octet2 a) ++ 46 :: octet_text (octet3 a).

Lemma text_address_text a :
  is_address a ->
  (forall capacity, (MAX_TEXT_LENGTH < capacity)%nat -> format capacity a = Some (address_text a)) /\
  (length (address_text a) <= MAX_TEXT_LENGTH)%nat.
Proof.
  intros Ha. assert (Forall (fun o => 0 <= o < 256) (octets a)) as H by exact Ha.
  unfold octets in H. rewrite !Forall_cons_iff in H. destruct H as (H0 & H1 & H2 & H3 & _).
  pose proof (proj2 (proj2 (octet_text_spec _ H0))). pose proof (proj2 (proj2 (octet_text_spec _ H1))).
  pose proof (proj2 (proj2 (octet_text_spec _ H2))). pose proof (proj2 (proj2 (octet_text_spec _ H3))).
  assert (length (address_text a) <= MAX_TEXT_LENGTH)%nat as Hlen.
  { unfold address_text, MAX_TEXT_LENGTH. repeat (rewrite length_app; cbn [length]). lia. }
  split; [|done]. intros capacity Hc. unfold format. rewrite (proj2 (Nat.ltb_ge _ _)) by lia.
  rewrite !format_octet_text by done. cbn [mbind option_bind]. fold (octet_text (octet0 a)).
  fold (octet_text (octet1 a)) (octet_text (octet2 a)) (octet_text (octet3 a)). fold (address_text a).
  by rewrite (proj2 (Nat.leb_le _ _)) by lia.
Qed.

Lemma aton_text a : is_address a -> aton (address_text a) = Some (octets a).
Proof.
  intros Ha. assert (Forall (fun o => 0 <= o < 256) (octets a)) as H by exact Ha.
  unfold octets in H. rewrite !Forall_cons_iff in H. destruct H as (H0 & H1 & H2 & H3 & _).
  destruct (octet_text_spec _ H0) as (D0 & N0 & _). destruct (octet_text_spec _ H1) as (D1 & N1 & _).
  destruct (octet_text_spec _ H2) as (D2 & N2 & _). destruct (octet_text_spec _ H3) as (D3 & N3 & _).
  unfold aton, address_text. rewrite !parts_number, parts_last by done.
  cbn [forallb map]. rewrite D0, D1, D2, D3, N0, N1, N2, N3. cbn [andb assemble].
  rewrite !(proj2 (Z.leb_le _ _)) by lia. change (256 ^ Z.of_nat 1) with 256.
  rewrite (proj2 (Z.ltb_lt _ _)) by lia. cbn [mbind option_bind big_endian app].
  unfold octets. by rewrite Z.mod_small by lia.
Qed.

Lemma octets_inj a a' : octets a = octets a' -> a = a'.
Proof. destruct a, a'. cbn. by intros [= -> -> -> ->]. Qed.

Lemma parse_address_text a : is_address a -> parse (address_text a) = Some (true, a).
Proof.
  intros Ha. destruct (parse_aton (address_text a)) as (a' & E & H).
  rewrite (aton_text a Ha) in *. rewrite E. do 2 f_equal. by apply octets_inj.
Qed.

End Ipv4AddressFacts.
