(* ===== verification/Ipv6Address.v ===== *)
(** * IPv6 addresses

    Models [ntsa::Ipv6Address] (src/groups/nts/ntsa/ntsa_ipv6address.h and
    .cpp): its text form and its copies.  An address is its sixteen octets in
    network order and its scope.  [None] is an access outside the octets, the
    text or the buffer.

    The theorems: the text that [format] writes, whether or not it collapses a
    run of zeroes, is parsed back to the address when it has at most 39
    characters and the scope 16 bits; [format] stays within its buffer for a
    scope of at most three digits.  The remaining cases are those in which the
    code goes wrong. *)

From S2P Require Import Prelude NumberText.

Module Ipv6Address.

Definition MAX_TEXT_LENGTH : nat := 39 + 4.

Record address : Set := { bytes : list Z; scopeId : Z }.

Definition any : address := {| bytes := replicate 16 0; scopeId := 0 |}.

Definition loopback : address := {| bytes := replicate 15 0 ++ [1]; scopeId := 0 |}.

(** [d_value.d_asBytes[index] = value], which is undefined past the end. *)
Definition store (l : list Z) (index : nat) (value : Z) : option (list Z) :=
  assert! (index <? 16)%nat ;; Some (<[index := value]> l).

Definition store_group (l : list Z) (outputIndex : nat) (groupValue : Z) : option (list Z) :=
  l ← store l outputIndex (wrap 8 (Z.shiftr groupValue 8));
  store l (S outputIndex) (wrap 8 groupValue).

(** The first loop, from the second character on: the index after the zeroes
    and whether there is a colon. *)
Fixpoint scan (previous : Z) (text : list Z) (skipIndex : nat) (colonFound : bool)
  : nat * bool :=
  match text with
  | [] => (skipIndex, colonFound)
  | ch :: text =>
      if ch =? 58 then
        scan ch text
          (if previous =? 58 then 14%nat
           else if (0 <? skipIndex)%nat then (skipIndex - 2)%nat else skipIndex) true
      else scan ch text skipIndex colonFound
  end.

Definition hex_digit (ch : Z) : option Z :=
  let chr := Z.lor ch 32 in
  if (48 <=? chr) && (chr <=? 57) then Some (chr - 48)
  else if (97 <=? chr) && (chr <=? 102) then Some (chr - 97 + 10)
  else None.

(** How the second loop ends: with a return of [false], or with the output
    index, the last group, the octets and the text after a percent sign. *)
Inductive outcome : Set :=
| Invalid (l : list Z)
| Ended (outputIndex : nat) (groupValue : Z) (l : list Z) (scope : option (list Z)).

(** The second loop.  The test for a zero at its end is never true: a zero is
    not a hexadecimal digit. *)
Fixpoint parse_loop (text : list Z) (previous : option Z) (outputIndex : nat)
    (groupValue : Z) (skipIndex : nat) (l : list Z) : option outcome :=
  match text with
  | [] => Some (Ended outputIndex groupValue l None)
  | ch :: text =>
      if (outputIndex <? 16)%nat then
        if ch =? 58 then
          l ← store_group l outputIndex groupValue;
          let outputIndex :=
            if (0 <? skipIndex)%nat && bool_decide (previous = Some 58) then skipIndex
            else (outputIndex + 2)%nat in
          parse_loop text (Some ch) outputIndex 0 skipIndex l
        else if ch =? 37 then
          match previous with
          | None => Some (Invalid l)
          | Some _ => Some (Ended outputIndex groupValue l (Some text))
          end
        else
          match hex_digit ch with
          | None => Some (Invalid l)
          | Some val =>
              parse_loop text (Some ch) outputIndex
                (Z.lor (wrap 16 (Z.shiftl groupValue 4)) val) skipIndex l
          end
      else Some (Ended outputIndex groupValue l None)
  end.

Section Parse.

Context {C : CharType}.

(** What follows the second loop. *)
Definition parse_finish (after : list Z) (loop : outcome) : option (bool * address) :=
  match loop with
  | Invalid l => Some (false, {| bytes := l; scopeId := 0 |})
  | Ended outputIndex groupValue l scope =>
      l ← store_group l outputIndex groupValue;
      match scope with
      | None => Some (true, {| bytes := l; scopeId := 0 |})
      | Some scope =>
          result ← NumberText.parse (scope ++ after) (length scope);
          Some (match result with
                | Some id => (true, {| bytes := l; scopeId := id |})
                | None => (false, {| bytes := l; scopeId := 0 |})
                end)
      end
  end.

(** [parse]: whether the text is valid, and the address afterwards.  [after] is
    the memory that follows the text. *)
Definition parse (text after : list Z) : option (bool * address) :=
  if (length text <? 2)%nat then Some (false, any)
  else if (39 <? length text)%nat then Some (false, any)
  else
    match text with
    | [] => None
    | first :: rest =>
        let '(skipIndex, colonFound) := scan first rest 0 false in
        if negb colonFound then Some (false, any)
        else
          loop ← parse_loop text None 0 0 skipIndex (replicate 16 0);
          parse_finish after loop
    end.

End Parse.

(** ** Text *)

Definition hex_char (n : Z) : Z := if n <? 10 then 48 + n else 97 + (n - 10).

Definition format_group (v1 v2 : Z) : list Z :=
  let v1a := Z.shiftr v1 4 in
  let v1b := Z.land v1 15 in
  let v2a := Z.shiftr v2 4 in
  let v2b := Z.land v2 15 in
  (if negb (v1a =? 0) then [hex_char v1a] else []) ++
  (if negb (v1a =? 0) || negb (v1b =? 0) then [hex_char v1b] else []) ++
  (if negb (v1a =? 0) || negb (v1b =? 0) || negb (v2a =? 0) then [hex_char v2a] else []) ++
  [hex_char v2b].

(** The groups separated by colons. *)
Fixpoint format_groups (l : list Z) : list Z :=
  match l with
  | v1 :: v2 :: [] => format_group v1 v2
  | v1 :: v2 :: rest => format_group v1 v2 ++ 58 :: format_groups rest
  | _ => []
  end.

Definition format_scope (scopeId : Z) : option (list Z) :=
  if 0 <? scopeId then
    temp ← NumberText.digit_loop 10 scopeId;
    Some (37 :: reverse temp)
  else Some [].

(** [strspn(text, ":0")]. *)
Fixpoint span (text : list Z) : nat :=
  match text with
  | ch :: text => if (ch =? 58) || (ch =? 48) then S (span text) else O
  | [] => O
  end.

(** The search for the longest run of zeroes and colons that begins the text or
    begins with a colon. *)
Fixpoint collapse_loop (text : list Z) (i best maximum : nat) : nat * nat :=
  match text with
  | [] => (best, maximum)
  | ch :: rest =>
      if (0 <? i)%nat && negb (ch =? 58) then collapse_loop rest (S i) best maximum
      else
        let j := span text in
        if (maximum <? j)%nat then collapse_loop rest (S i) i j
        else collapse_loop rest (S i) best maximum
  end.

Definition collapse (text : list Z) : list Z :=
  let '(best, maximum) := collapse_loop text 0 0 2 in
  if (2 <? maximum)%nat then take best text ++ 58 :: 58 :: drop (best + maximum) text
  else text.

(** [format]: the characters in the buffer before the terminating zero; none
    when the buffer is too small. *)
Definition format (capacity : nat) (collapsed : bool) (a : address) : option (list Z) :=
  if (capacity <? MAX_TEXT_LENGTH + 1)%nat then Some []
  else
    scope ← format_scope (scopeId a);
    let text := format_groups (bytes a) ++ scope in
    assert! (length text + 1 <=? capacity)%nat ;;
    Some (if collapsed then collapse text else text).

Definition text (a : address) : option (list Z) := format (MAX_TEXT_LENGTH + 1) true a.

(** ** Copies *)

Definition copyFrom (source : list Z) (size : nat) (a : address) : nat * address :=
  if (size <? 16)%nat then (0%nat, a)
  else (16%nat, {| bytes := take 16 source; scopeId := scopeId a |}).

Definition copyTo (capacity : nat) (a : address) : list Z :=
  if (capacity <? 16)%nat then [] else bytes a.

End Ipv6Address.

Module Ipv6AddressFacts.

Import Ipv6Address.

(** ** Groups *)

(** The sixteen octets of an address as eight groups of two. *)
Definition group : Set := Z * Z.

Definition is_group (g : group) : Prop := 0 <= fst g < 256 /\ 0 <= snd g < 256.

Definition group_value (g : group) : Z := 256 * fst g + snd g.

Definition octs (gs : list group) : list Z := concat (map (fun g => [fst g; snd g]) gs).

Definition group_text (g : group) : list Z := format_group (fst g) (snd g).

Fixpoint join (gs : list group) : list Z :=
  match gs with
  | [] => []
  | [g] => group_text g
  | g :: gs => group_text g ++ 58 :: join gs
  end.

Lemma join_cons g g' gs : join (g :: g' :: gs) = group_text g ++ 58 :: join (g' :: gs).
Proof. done. Qed.

Lemma format_groups_join gs : format_groups (octs gs) = join gs.
Proof.
  induction gs as [|g gs IH]; [done|]. destruct gs as [|g' gs]; [done|].
  rewrite join_cons, <- IH. done.
Qed.

Lemma octs_app gs gs' : octs (gs ++ gs') = octs gs ++ octs gs'.
Proof. unfold octs. by rewrite map_app, concat_app. Qed.

Lemma length_octs gs : length (octs gs) = (2 * length gs)%nat.
Proof. induction gs as [|g gs IH]; [done|]. change (octs (g :: gs)) with (fst g :: snd g :: octs gs). cbn. lia. Qed.

Lemma octs_zeroes n : octs (replicate n (0, 0)) = replicate (2 * n) 0.
Proof.
  induction n as [|n IH]; [done|]. replace (2 * S n)%nat with (S (S (2 * n))) by lia.
  cbn [replicate]. change (octs ((0, 0) :: replicate n (0, 0))) with (0 :: 0 :: octs (replicate n (0, 0))).
  by rewrite IH.
Qed.

Lemma octs_pairs n l :
  length l = (2 * n)%nat -> Forall (fun o => 0 <= o < 256) l ->
  exists gs, l = octs gs /\ length gs = n /\ Forall is_group gs.
Proof.
  revert l. induction n as [|n IH]; intros l Hl Ho.
  { destruct l; [|done]. by exists []. }
  destruct l as [|v1 [|v2 l]]; cbn in Hl; [lia..|].
  pose proof (Forall_inv Ho). pose proof (Forall_inv (Forall_inv_tail Ho)).
  destruct (IH l) as (gs & -> & Hg & Hf); [lia|by do 2 apply Forall_inv_tail in Ho|].
  exists ((v1, v2) :: gs). split; [done|]. split; [cbn; lia|]. by constructor.
Qed.

(** *** Hexadecimal digits *)

Definition is_nibble (d : Z) : Prop := 0 <= d < 16.

Lemma nibble_cases (P : Z -> Prop) d :
  is_nibble d -> Forall P (map Z.of_nat (seq 0 16)) -> P d.
Proof.
  intros Hd HP. rewrite List.Forall_forall in HP. apply HP. apply in_map_iff.
  exists (Z.to_nat d). unfold is_nibble in Hd. split; [lia|]. apply in_seq. lia.
Qed.

Lemma hex_char_spec d :
  is_nibble d ->
  hex_digit (hex_char d) = Some d /\ hex_char d <> 58 /\ hex_char d <> 37 /\ (d <> 0 -> hex_char d <> 48).
Proof. intros Hd. pattern d. apply nibble_cases; [done|]. cbn. repeat constructor; done. Qed.

Definition hex_value (v : Z) (ds : list Z) : Z := foldl (fun acc d => 16 * acc + d) v ds.

Lemma shift_in g d : 0 <= g < 4096 -> is_nibble d -> Z.lor (wrap 16 (Z.shiftl g 4)) d = 16 * g + d.
Proof.
  intros Hg Hd. unfold is_nibble in Hd. rewrite Z.shiftl_mul_pow2 by lia.
  rewrite wrap_small by (change (2 ^ 16) with 65536; change (2 ^ 4) with 16; lia).
  rewrite lor_disjoint by (change (2 ^ 4) with 16; lia). change (2 ^ 4) with 16. lia.
Qed.

(** A non-empty sequence of digits, most significant first, of which the first
    is zero only if it is the only one. *)
Record numeral (ds : list Z) (v : Z) : Prop := {
  nu_nibbles : Forall is_nibble ds;
  nu_length : (0 < length ds <= 4)%nat;
  nu_value : hex_value 0 ds = v;
  nu_lead : match ds with d :: rest => d <> 0 \/ rest = [] | [] => False end;
}.

Lemma group_text_numeral g :
  is_group g -> exists ds, group_text g = map hex_char ds /\ numeral ds (group_value g).
Proof.
  destruct g as [v1 v2]. intros [H1 H2]. cbn [fst snd] in *.
  unfold group_text, format_group, group_value. cbn [fst snd].
  change 15 with (Z.ones 4). rewrite !Z.land_ones, !Z.shiftr_div_pow2 by lia. change (2 ^ 4) with 16.
  pose proof (Z.div_mod v1 16 ltac:(lia)). pose proof (Z.mod_pos_bound v1 16 ltac:(lia)).
  pose proof (Z.div_mod v2 16 ltac:(lia)). pose proof (Z.mod_pos_bound v2 16 ltac:(lia)).
  assert (0 <= v1 / 16 < 16) by (split; [apply Z.div_pos|apply Z.div_lt_upper_bound]; lia).
  assert (0 <= v2 / 16 < 16) by (split; [apply Z.div_pos|apply Z.div_lt_upper_bound]; lia).
  set (a := v1 / 16) in *. set (b := v1 mod 16) in *. set (c := v2 / 16) in *. set (d := v2 mod 16) in *.
  assert (is_nibble a /\ is_nibble b /\ is_nibble c /\ is_nibble d) as (Na & Nb & Nc & Nd)
    by (unfold is_nibble; lia).
  destruct (Z.eqb_spec a 0) as [Ea|Ea]; [|exists [a; b; c; d]]; cbn [negb orb].
  2: { split; [done|]. split; [by split_Forall|cbn; lia|unfold hex_value; cbn; lia|by left]. }
  destruct (Z.eqb_spec b 0) as [Eb|Eb]; [|exists [b; c; d]]; cbn [negb orb].
  2: { split; [done|]. split; [by split_Forall|cbn; lia|unfold hex_value; cbn; lia|by left]. }
  destruct (Z.eqb_spec c 0) as [Ec|Ec]; [|exists [c; d]]; cbn [negb orb].
  2: { split; [done|]. split; [by split_Forall|cbn; lia|unfold hex_value; cbn; lia|by left]. }
  exists [d]. split; [done|]. split; [by split_Forall|cbn; lia|unfold hex_value; cbn; lia|by right].
Qed.

Lemma group_text_no_colon g : is_group g -> Forall (fun c => c <> 58) (group_text g).
Proof.
  intros Hg. destruct (group_text_numeral g Hg) as (ds & -> & [Hn _ _ _]).
  apply List.Forall_map. eapply List.Forall_impl; [|exact Hn]. intros d Hd. by apply hex_char_spec.
Qed.

(** The text of a group: the digit zero, or a text that begins with another. *)
Lemma group_text_cases g :
  is_group g ->
  (g = (0, 0) /\ group_text g = [48]) \/
  (exists c rest, group_text g = c :: rest /\ c <> 48 /\ c <> 58).
Proof.
  intros Hg. destruct (group_text_numeral g Hg) as (ds & E & [Hn Hl Hv Hlead]).
  destruct ds as [|d rest]; [done|]. pose proof (Forall_inv Hn) as Hd.
  destruct (hex_char_spec d Hd) as (_ & H58 & _ & H48).
  destruct (Z.eq_dec d 0) as [->|Hne].
  - destruct Hlead as [|Hrest]; [done|]. subst rest. left. split; [|exact E].
    destruct g as [v1 v2]. destruct Hg as [H1 H2]. cbn in *. unfold hex_value, group_value in Hv. cbn in Hv.
    f_equal; lia.
  - right. exists (hex_char d), (map hex_char rest). split; [exact E|]. split; [by apply H48|done].
Qed.

(** ** Parsing groups *)

Lemma parse_digit d text previous out v skip l :
  (out < 16)%nat -> is_nibble d -> 0 <= v < 4096 ->
  parse_loop (hex_char d :: text) previous out v skip l =
  parse_loop text (Some (hex_char d)) out (16 * v + d) skip l.
Proof.
  intros Hout Hd Hv. destruct (hex_char_spec d Hd) as (Hh & H58 & H37 & _).
  cbn [parse_loop]. rewrite (proj2 (Nat.ltb_lt _ _)) by done.
  rewrite (proj2 (Z.eqb_neq _ _) H58), (proj2 (Z.eqb_neq _ _) H37), Hh.
  by rewrite shift_in.
Qed.

Lemma parse_digits_loop d ds rest previous out v skip l :
  (out < 16)%nat -> Forall is_nibble (d :: ds) -> 0 <= v -> (v + 1) * 16 ^ size (d :: ds) <= 65536 ->
  exists c, c <> 58 /\
    parse_loop (map hex_char (d :: ds) ++ rest) previous out v skip l =
    parse_loop rest (Some c) out (hex_value v (d :: ds)) skip l.
Proof.
  intros Hout. revert d previous v. induction ds as [|d' ds IH]; intros d previous v Hds Hv Hb;
    pose proof (Forall_inv Hds) as Hd; destruct (hex_char_spec d Hd) as (_ & H58 & _);
    rewrite size_cons, Z.pow_add_r in Hb by (try apply size_nonneg; lia); change (16 ^ 1) with 16 in Hb.
  - change (16 ^ size (@nil Z)) with 1 in Hb. exists (hex_char d). split; [done|].
    cbn [map app]. apply parse_digit; [done|done|lia].
  - apply Forall_inv_tail in Hds.
    pose proof (Z.pow_pos_nonneg 16 (size (d' :: ds)) ltac:(lia) (size_nonneg _)) as Hpos.
    assert (16 <= 16 * 16 ^ size (d' :: ds)) by lia.
    assert ((v + 1) * 16 <= (v + 1) * (16 * 16 ^ size (d' :: ds))) by (apply Z.mul_le_mono_nonneg_l; lia).
    change (map hex_char (d :: d' :: ds) ++ rest) with (hex_char d :: map hex_char (d' :: ds) ++ rest).
    rewrite parse_digit by (done || lia). unfold is_nibble in Hd.
    assert ((16 * v + d + 1) * 16 ^ size (d' :: ds) <= (16 * (v + 1)) * 16 ^ size (d' :: ds))
      by (apply Z.mul_le_mono_nonneg_r; lia).
    apply (IH d' (Some (hex_char d)) (16 * v + d)); [done|lia|lia].
Qed.

(** A group is read as its value; the character before what follows is no
    colon. *)
Lemma parse_group g rest previous out skip l :
  (out < 16)%nat -> is_group g ->
  exists c, c <> 58 /\
    parse_loop (group_text g ++ rest) previous out 0 skip l =
    parse_loop rest (Some c) out (group_value g) skip l.
Proof.
  intros Hout Hg. destruct (group_text_numeral g Hg) as (ds & -> & [Hn Hl Hv _]).
  destruct ds as [|d ds]; [cbn in Hl; lia|]. rewrite <- Hv. apply parse_digits_loop; [done..|].
  assert (16 ^ size (d :: ds) <= 16 ^ 4) by (apply Z.pow_le_mono_r; unfold size; lia).
  change (16 ^ 4) with 65536 in *. lia.
Qed.

(** The octets after groups are stored from [out] on. *)
Fixpoint stores (out : nat) (gs : list group) (l : list Z) : list Z :=
  match gs with
  | [] => l
  | g :: gs => stores (out + 2) gs (<[S out := snd g]> (<[out := fst g]> l))
  end.

Lemma store_group_value l out g :
  is_group g -> (S out < 16)%nat ->
  store_group l out (group_value g) = Some (<[S out := snd g]> (<[out := fst g]> l)).
Proof.
  intros [H1 H2] Hout. unfold store_group, store, group_value.
  rewrite !(proj2 (Nat.ltb_lt _ _)) by lia. cbn [mbind option_bind].
  rewrite Z.shiftr_div_pow2 by lia. change (2 ^ 8) with 256.
  rewrite (Z.mul_comm 256), Z.div_add_l, (Z.div_small (snd g)), Z.add_0_r by lia.
  rewrite (wrap_small 8 (fst g)) by lia. unfold wrap. change (2 ^ 8) with 256.
  by rewrite Z.add_comm, Z_mod_plus_full, Z.mod_small by lia.
Qed.

Lemma join_snoc g gs g' : join ((g :: gs) ++ [g']) = group_text g ++ 58 :: join (gs ++ [g']).
Proof. destruct gs; done. Qed.

(** Groups separated by colons: all are stored but the last, which is pending. *)
Lemma parse_join gs g rest previous out skip l :
  Forall is_group gs -> is_group g -> (out + 2 * length gs < 16)%nat ->
  exists c, c <> 58 /\
    parse_loop (join (gs ++ [g]) ++ rest) previous out 0 skip l =
    parse_loop rest (Some c) (out + 2 * length gs) (group_value g) skip (stores out gs l).
Proof.
  intros Hgs Hg. revert previous out l. induction gs as [|g0 gs IH]; intros previous out l Hout.
  - cbn [join app length stores]. rewrite Nat.mul_0_r, Nat.add_0_r in *. by apply parse_group.
  - pose proof (Forall_inv Hgs) as Hg0. apply Forall_inv_tail in Hgs. cbn [length] in Hout.
    rewrite join_snoc, <- app_assoc.
    destruct (parse_group g0 ((58 :: join (gs ++ [g])) ++ rest) previous out skip l) as (c & Hc & ->);
      [lia|done|].
    cbn [app parse_loop]. rewrite (proj2 (Nat.ltb_lt _ _)) by lia.
    change (58 =? 58) with true. cbn iota. rewrite store_group_value by (done || lia).
    cbn [mbind option_bind]. rewrite bool_decide_false by congruence. rewrite andb_false_r.
    destruct (IH Hgs (Some 58) (out + 2)%nat (<[S out:=snd g0]> (<[out:=fst g0]> l))) as (c' & Hc' & ->);
      [lia|].
    exists c'. split; [done|]. by replace (out + 2 + 2 * length gs)%nat with (out + 2 * length (g0 :: gs))%nat
      by (cbn; lia).
Qed.

(** The result of storing groups into a list that has room for them. *)
Lemma stores_app a gs b d :
  length b = (2 * length gs)%nat -> stores (length a) gs (a ++ b ++ d) = a ++ octs gs ++ d.
Proof.
  revert a b. induction gs as [|g gs IH]; intros a b Hb; cbn [stores length] in *.
  { by destruct b. }
  destruct b as [|x [|y b]]; cbn in Hb; [lia..|].
  assert (<[S (length a):=snd g]> (<[length a:=fst g]> (a ++ (x :: y :: b) ++ d)) =
    (a ++ [fst g; snd g]) ++ b ++ d) as ->.
  { rewrite <- (Nat.add_0_r (length a)) at 2. rewrite insert_app_r.
    replace (S (length a)) with (length a + 1)%nat by lia. rewrite insert_app_r. cbn.
    by rewrite <- app_assoc. }
  replace (length a + 2)%nat with (length (a ++ [fst g; snd g])) by (rewrite length_app; done).
  rewrite IH by lia. rewrite <- app_assoc. done.
Qed.

Lemma stores_snoc out gs g l :
  stores out (gs ++ [g]) l =
  <[S (out + 2 * length gs) := snd g]> (<[(out + 2 * length gs)%nat := fst g]> (stores out gs l)).
Proof.
  revert out l. induction gs as [|g' gs IH]; intros out l; cbn [stores app length].
  - by rewrite Nat.mul_0_r, Nat.add_0_r.
  - rewrite IH. by replace (out + 2 + 2 * length gs)%nat with (out + 2 * S (length gs))%nat by lia.
Qed.

(** The pending group is stored after the others. *)
Lemma store_last gs g out l :
  is_group g -> (out + 2 * length gs + 1 < 16)%nat ->
  store_group (stores out gs l) (out + 2 * length gs) (group_value g) = Some (stores out (gs ++ [g]) l).
Proof. intros Hg Hout. rewrite store_group_value, stores_snoc by (done || lia). done. Qed.

(** ** The first loop *)

Definition no_colon (l : list Z) : Prop := Forall (fun c => c <> 58) l.

(** Characters other than colons change nothing; the character before what
    follows is then no colon, if it was none. *)
Lemma scan_skip t rest previous skip found :
  no_colon t -> t <> [] ->
  exists c, c <> 58 /\ scan previous (t ++ rest) skip found = scan c rest skip found.
Proof.
  intros Ht Hne. revert previous. induction Ht as [|c t Hc Ht IH]; intros previous; [done|].
  cbn [app scan]. rewrite (proj2 (Z.eqb_neq c 58)) by done.
  destruct t as [|c' t]; [by exists c|]. by apply IH.
Qed.

Lemma group_text_ne g : is_group g -> group_text g <> [].
Proof. intros Hg. destruct (group_text_cases g Hg) as [[_ ->]|(c & rest & -> & _)]; done. Qed.

Lemma scan_join gs g rest previous skip found :
  Forall is_group gs -> is_group g ->
  exists c, c <> 58 /\
    scan previous (join (gs ++ [g]) ++ rest) skip found =
    scan c rest (skip - 2 * length gs)%nat (found || (0 <? length gs)%nat).
Proof.
  intros Hgs Hg. revert previous skip found. induction Hgs as [|g0 gs Hg0 Hgs IH]; intros previous skip found.
  - cbn [app join length]. rewrite Nat.mul_0_r, Nat.sub_0_r, orb_false_r.
    apply scan_skip; [by apply group_text_no_colon|by apply group_text_ne].
  - rewrite join_snoc, <- app_assoc.
    destruct (scan_skip (group_text g0) ((58 :: join (gs ++ [g])) ++ rest) previous skip found) as (c & Hc & ->);
      [by apply group_text_no_colon|by apply group_text_ne|].
    cbn [app scan]. change (58 =? 58) with true. cbn iota. rewrite (proj2 (Z.eqb_neq c 58)) by done.
    destruct (IH 58 (if (0 <? skip)%nat then (skip - 2)%nat else skip) true) as (c' & Hc' & ->).
    exists c'. split; [done|]. cbn [length]. rewrite orb_true_r. f_equal.
    destruct (Nat.ltb_spec 0 skip); lia.
Qed.

Lemma scan_no_colon t previous skip found :
  no_colon t -> scan previous t skip found = (skip, found).
Proof.
  intros Ht. revert previous. induction Ht as [|c t Hc Ht IH]; intros previous; [done|].
  cbn [scan]. by rewrite (proj2 (Z.eqb_neq c 58)).
Qed.

(** ** Collapsing *)

(** What follows the groups: nothing, or a percent sign and the scope. *)
Definition is_scope (sc : list Z) : Prop :=
  no_colon sc /\ match sc with c :: _ => c = 37 | [] => True end.

Lemma span_scope sc : is_scope sc -> span sc = 0%nat.
Proof. intros [_ H]. destruct sc as [|c sc]; [done|]. cbn. by rewrite H. Qed.

Lemma span_join gs sc :
  Forall is_group gs -> is_scope sc ->
  exists z post, gs = replicate z (0, 0) ++ post /\
    drop (span (join gs ++ sc)) (join gs ++ sc) = join post ++ sc /\
    (z = 0%nat -> span (join gs ++ sc) = 0%nat).
Proof.
  intros Hgs Hsc. induction Hgs as [|g gs Hg Hgs IH].
  { exists 0%nat, []. cbn [join app]. rewrite span_scope by done. done. }
  assert (join (g :: gs) = group_text g ++ (if decide (gs = []) then [] else 58 :: join gs)) as Ej.
  { destruct gs; [by rewrite decide_True, app_nil_r|]. by rewrite decide_False. }
  destruct (group_text_cases g Hg) as [[-> Et]|(c & rest & Et & H48 & H58)].
  - rewrite Ej, Et. case_decide as Hnil.
    + subst gs. exists 1%nat, []. cbn [app join]. cbn [span]. cbn. rewrite span_scope by done. done.
    + destruct IH as (z & post & E1 & E2 & _). exists (S z), post. split; [by rewrite E1|].
      split; [|done]. rewrite <- E2. done.
  - exists 0%nat, (g :: gs). rewrite Ej, Et. cbn [app span].
    rewrite (proj2 (Z.eqb_neq c 58)), (proj2 (Z.eqb_neq c 48)) by done. done.
Qed.

Lemma split_at_colon a r p q :
  no_colon a -> a ++ 58 :: r = p ++ 58 :: q ->
  (p = a /\ q = r) \/ exists p', p = a ++ 58 :: p' /\ r = p' ++ 58 :: q.
Proof.
  intros Ha. revert p. induction Ha as [|c a Hc Ha IH]; intros p E.
  - destruct p as [|c p]; cbn in E; [left; by simplify_eq|]. right. exists p. by simplify_eq.
  - destruct p as [|c' p]; cbn in E; [by simplify_eq|]. injection E as <- E.
    destruct (IH p E) as [[-> ->]|(p' & -> & ->)]; [by left|]. right. by exists p'.
Qed.

Lemma no_colon_split t p q : no_colon t -> t <> p ++ 58 :: q.
Proof.
  intros Ht ->. apply Forall_app in Ht as [_ Ht]. by apply (Forall_inv Ht).
Qed.

(** A colon of the text is between two groups. *)
Lemma join_colon gs sc p q :
  Forall is_group gs -> is_scope sc -> join gs ++ sc = p ++ 58 :: q ->
  exists pre post, gs = pre ++ post /\ pre <> [] /\ p = join pre /\ q = join post ++ sc.
Proof.
  intros Hgs [Hsc _]. revert p. induction Hgs as [|g gs Hg Hgs IH]; intros p E.
  { by apply no_colon_split in E. }
  destruct gs as [|g' gs].
  { cbn [join] in E. exfalso. revert E. apply no_colon_split. apply Forall_app. split; [|done].
    by apply group_text_no_colon. }
  rewrite join_cons, <- app_assoc in E. cbn [app] in E.
  apply split_at_colon in E as [[-> ->]|(p' & -> & E)]; [| |by apply group_text_no_colon].
  - by exists [g], (g' :: gs).
  - destruct (IH p' E) as (pre & post & E1 & Hne & -> & ->). exists (g :: pre), post.
    split; [by rewrite E1|]. split; [done|]. split; [|done]. by destruct pre.
Qed.

(** The run that [collapse_loop] finds: one of more than two characters, at the
    beginning of the text or at a colon. *)
Definition run_at (t : list Z) (best maximum : nat) : Prop :=
  maximum = 2%nat \/
  (2 < maximum)%nat /\ maximum = span (drop best t) /\ (best = 0%nat \/ t !! best = Some 58).

Lemma collapse_loop_run t i best maximum :
  (2 <= maximum)%nat -> run_at t best maximum ->
  let '(best', maximum') := collapse_loop (drop i t) i best maximum in run_at t best' maximum'.
Proof.
  remember (length t - i)%nat as n eqn:En. revert i best maximum En.
  induction n as [|n IH]; intros i best maximum En Hm Hr.
  { rewrite drop_ge by lia. exact Hr. }
  destruct (t !! i) as [ch|] eqn:Ei; [|apply lookup_ge_None in Ei; lia].
  pose proof (drop_S t ch i Ei) as Ed. rewrite Ed. cbn [collapse_loop].
  destruct ((0 <? i)%nat && negb (ch =? 58)) eqn:Eg; [apply IH; [lia|done|done]|].
  rewrite <- Ed. destruct (Nat.ltb_spec maximum (span (drop i t))) as [Hlt|]; [|apply IH; [lia|done|done]].
  apply IH; [lia|lia|]. right. split; [lia|]. split; [done|].
  destruct (Nat.ltb_spec 0 i); [|left; lia]. right. rewrite Ei.
  destruct (Z.eqb_spec ch 58) as [->|]; [done|]. done.
Qed.

(** A text is collapsed to itself, or a run of zero groups is replaced. *)
Lemma collapse_join gs sc :
  Forall is_group gs -> is_scope sc ->
  collapse (join gs ++ sc) = join gs ++ sc \/
  exists pre z post, gs = pre ++ replicate z (0, 0) ++ post /\ (0 < z)%nat /\
    collapse (join gs ++ sc) = join pre ++ 58 :: 58 :: join post ++ sc.
Proof.
  intros Hgs Hsc. set (t := join gs ++ sc). unfold collapse.
  pose proof (collapse_loop_run t 0 0 2 ltac:(lia) ltac:(by left)) as Hr. rewrite drop_0 in Hr.
  destruct (collapse_loop t 0 0 2) as [best maximum].
  destruct (Nat.ltb_spec 2 maximum) as [Hlt|]; [|by left]. right.
  destruct Hr as [->|(_ & Hm & [->|Hb])]; [lia| |].
  - rewrite drop_0 in Hm. destruct (span_join gs sc Hgs Hsc) as (z & post & E & Ed & Hz).
    exists [], z, post. split; [done|]. fold t in Ed, Hz.
    split; [destruct z; [rewrite Hz in Hm by done|]; lia|].
    rewrite Hm, take_0, Nat.add_0_l, Ed. done.
  - assert (t = take best t ++ 58 :: drop (S best) t) as Et.
    { rewrite <- (drop_S t 58 best Hb). by rewrite take_drop. }
    destruct (join_colon gs sc (take best t) (drop (S best) t) Hgs Hsc Et) as (pre & post0 & E & Hne & Ep & Eq).
    assert (Forall is_group post0) as Hpost by (rewrite E in Hgs; by apply Forall_app in Hgs as [_ ?]).
    destruct (span_join post0 sc Hpost Hsc) as (z & post & E' & Ed & Hz). rewrite <- Eq in Ed, Hz.
    assert (maximum = S (span (drop (S best) t))) as Hmax by (by rewrite Hm, (drop_S t 58 best Hb)).
    exists pre, z, post. split; [by rewrite E, E'|].
    split; [destruct z; [rewrite Hz in Hmax by done|]; lia|].
    rewrite Ep. do 3 f_equal. rewrite <- Ed, drop_drop. f_equal. lia.
Qed.

(** ** Parsing what was formatted *)

Section RoundTrip.

Context {C : CharType} {CL : CharTypeLaws C}.

Definition scope_text (id : Z) : list Z := if 0 <? id then 37 :: NumberText.text 10 id else [].

Lemma digits_fuel n m v :
  (0 < n <= m)%nat -> 0 <= v < 10 ^ Z.of_nat n -> NumberText.digits n v = NumberText.digits m v.
Proof.
  revert m v. induction n as [|n IH]; intros [|m] v Hnm Hv; try lia. cbn [NumberText.digits].
  destruct (Z.eqb_spec (v / 10) 0) as [|Hnz]; [done|]. f_equal.
  rewrite Nat2Z.inj_succ, Z.pow_succ_r in Hv by lia.
  apply IH; [|split; [apply Z.div_pos; lia|apply Z.div_lt_upper_bound; lia]].
  destruct n; [|lia]. exfalso. change (10 ^ Z.of_nat 0) with 1 in Hv. apply Hnz, Z.div_small. lia.
Qed.

Lemma scope_text_16 id : 0 < id <= U16_MAX -> scope_text id = 37 :: NumberText.text 5 id.
Proof.
  intros Hid. unfold U16_MAX in Hid. unfold scope_text. rewrite (proj2 (Z.ltb_lt _ _)) by lia.
  unfold NumberText.text. rewrite (digits_fuel 5 10); [done|lia|].
  change (10 ^ Z.of_nat 5) with 100000. lia.
Qed.

Lemma scope_text_scope id : 0 <= id <= U32_MAX -> is_scope (scope_text id).
Proof.
  intros Hid. unfold U32_MAX in Hid. unfold scope_text, is_scope.
  destruct (Z.ltb_spec 0 id); [|split; [constructor|done]]. split; [|done]. constructor; [done|].
  destruct (NumberText.text_spec 10 id) as (Ha & _);
    [lia|change (10 ^ Z.of_nat 10) with 10000000000; lia|].
  eapply List.Forall_impl; [|exact Ha]. cbn. lia.
Qed.

(** The end of a text whose last group is pending. *)
Lemma parse_end id c g skip l (v0 : Z) (after : list Z) :
  0 <= id <= U16_MAX ->
  (loop ← parse_loop (scope_text id) (Some c) 14 g skip l; parse_finish (v0 :: after) loop) =
  (l ← store_group l 14 g; Some (true, {| bytes := l; scopeId := id |})).
Proof.
  intros Hid. destruct (Z.eq_dec id 0) as [->|Hne].
  { done. }
  rewrite scope_text_16 by lia. cbn [parse_loop]. change (14 <? 16)%nat with true.
  change (37 =? 58) with false. change (37 =? 37) with true. cbn [mbind option_bind parse_finish].
  destruct (store_group l 14 g) as [l'|]; [|done]. cbn [mbind option_bind].
  by rewrite NumberText.parse_text.
Qed.

Lemma store_zero l i :
  (S i < 16)%nat -> l !! i = Some 0 -> l !! S i = Some 0 -> store_group l i 0 = Some l.
Proof.
  intros Hi H0 H1. unfold store_group, store. rewrite !(proj2 (Nat.ltb_lt _ _)) by lia.
  cbn [mbind option_bind]. change (wrap 8 (Z.shiftr 0 8)) with 0. change (wrap 8 0) with 0.
  by rewrite (list_insert_id l i 0 H0), (list_insert_id l (S i) 0 H1).
Qed.

Lemma lookup_zeroes a n i :
  (length a <= i < length a + n)%nat -> (a ++ replicate n 0) !! i = Some 0.
Proof. intros Hi. rewrite lookup_app_r by lia. apply lookup_replicate_2. lia. Qed.

Lemma stores_front gs n :
  stores 0 gs (replicate (2 * length gs + n) 0) = octs gs ++ replicate n 0.
Proof.
  pose proof (stores_app [] gs (replicate (2 * length gs) 0) (replicate n 0)) as H.
  cbn [app length] in H. rewrite replicate_add. apply H. by rewrite length_replicate.
Qed.

(** The groups before a pair of colons, and the pair. *)
Lemma parse_prefix pre x skip :
  Forall is_group pre -> (length pre <= 7)%nat -> (0 < skip)%nat ->
  parse_loop (join pre ++ 58 :: 58 :: x) None 0 0 skip (replicate 16 0) =
  parse_loop x (Some 58) skip 0 skip (octs pre ++ replicate (16 - 2 * length pre) 0).
Proof.
  intros Hpre Hlen Hskip. set (l := octs pre ++ replicate (16 - 2 * length pre) 0).
  destruct pre as [|g pre _] using rev_ind.
  - cbn [join app]. rewrite <- (app_nil_l (58 :: 58 :: x)).
    cbn [app parse_loop]. change (0 <? 16)%nat with true. change (58 =? 58) with true. cbn iota.
    change (store_group (replicate 16 0) 0 0) with (Some (replicate 16 0)). cbn [mbind option_bind].
    rewrite bool_decide_false, andb_false_r by done. change (0 + 2 <? 16)%nat with true. cbn iota.
    change (store_group (replicate 16 0) (0 + 2) 0) with (Some (replicate 16 0)). cbn [mbind option_bind].
    rewrite bool_decide_true, andb_true_r, (proj2 (Nat.ltb_lt _ _)) by done. done.
  - apply Forall_app in Hpre as [Hpre Hg]. apply Forall_inv in Hg. rewrite length_app in Hlen. cbn in Hlen.
    destruct (parse_join pre g (58 :: 58 :: x) None 0 skip (replicate 16 0) Hpre Hg) as (c & Hc & ->); [lia|].
    rewrite Nat.add_0_l. cbn [parse_loop]. rewrite (proj2 (Nat.ltb_lt _ _)) by lia.
    change (58 =? 58) with true. cbn iota.
    pose proof (store_last pre g 0 (replicate 16 0) Hg ltac:(lia)) as Hlast. rewrite Nat.add_0_l in Hlast.
    rewrite Hlast. cbn [mbind option_bind]. rewrite bool_decide_false, andb_false_r by congruence.
    assert (stores 0 (pre ++ [g]) (replicate 16 0) = l) as ->.
    { unfold l. rewrite <- stores_front. do 2 f_equal. rewrite length_app. cbn. lia. }
    rewrite (proj2 (Nat.ltb_lt _ _)) by lia.
    assert (length (octs (pre ++ [g])) = (2 * length pre + 2)%nat) as Hlo.
    { rewrite length_octs, length_app. cbn. lia. }
    rewrite store_zero.
    + cbn [mbind option_bind]. rewrite bool_decide_true, andb_true_r, (proj2 (Nat.ltb_lt _ _)) by done. done.
    + lia.
    + apply lookup_zeroes. rewrite Hlo, length_app. cbn. lia.
    + apply lookup_zeroes. rewrite Hlo, length_app. cbn. lia.
Qed.

(** The index after the zeroes that [scan] computes for the groups that
    follow. *)
Definition skip_before (post : list group) : nat := (14 - 2 * (length post - 1))%nat.

Lemma scan_suffix post sc :
  Forall is_group post -> is_scope sc -> scan 58 (join post ++ sc) 14 true = (skip_before post, true).
Proof.
  intros Hpost [Hsc _]. unfold skip_before. destruct post as [|g post _] using rev_ind.
  - cbn [join app length]. by rewrite scan_no_colon.
  - apply Forall_app in Hpost as [Hpost Hg]. apply Forall_inv in Hg.
    destruct (scan_join post g sc 58 14 true Hpost Hg) as (c & _ & ->).
    rewrite scan_no_colon, length_app by done. cbn [length orb]. do 2 f_equal. lia.
Qed.

(** The groups after a pair of colons, and the end of the text. *)
Lemma parse_suffix pre z post id (v0 : Z) (after : list Z) :
  Forall is_group post -> (length pre + z + length post = 8)%nat -> (0 < z)%nat -> 0 <= id <= U16_MAX ->
  (loop ← parse_loop (join post ++ scope_text id) (Some 58) (skip_before post) 0 (skip_before post)
            (octs pre ++ replicate (16 - 2 * length pre) 0);
   parse_finish (v0 :: after) loop) =
  Some (true, {| bytes := octs (pre ++ replicate z (0, 0) ++ post); scopeId := id |}).
Proof.
  intros Hpost Hlen Hz Hid. pose proof (length_octs pre) as Hlp.
  rewrite !octs_app, octs_zeroes.
  destruct post as [|g post _] using rev_ind.
  - change (skip_before []) with 14%nat. cbn [join app length] in *.
    rewrite parse_end by done. rewrite store_zero.
    + cbn [mbind option_bind]. change (octs []) with (@nil Z). rewrite app_nil_r.
      do 4 f_equal. f_equal. lia.
    + lia.
    + apply lookup_zeroes. lia.
    + apply lookup_zeroes. lia.
  - apply Forall_app in Hpost as [Hpost Hg]. apply Forall_inv in Hg.
    rewrite length_app in Hlen. cbn [length] in Hlen. unfold skip_before. rewrite length_app. cbn [length].
    set (skip := (14 - 2 * (length post + 1 - 1))%nat).
    set (l := octs pre ++ replicate (16 - 2 * length pre) 0).
    destruct (parse_join post g (scope_text id) (Some 58) skip skip l Hpost Hg) as (c & _ & ->); [lia|].
    replace (skip + 2 * length post)%nat with 14%nat by lia.
    rewrite parse_end by done.
    pose proof (store_last post g skip l Hg ltac:(lia)) as Hlast.
    replace (skip + 2 * length post)%nat with 14%nat in Hlast by lia.
    rewrite Hlast. cbn [mbind option_bind]. do 3 f_equal.
    pose proof (stores_app (octs pre ++ replicate (2 * z) 0) (post ++ [g])
      (replicate (2 * (length post + 1)) 0) []) as Hs.
    rewrite !length_app, Hlp, !length_replicate in Hs. cbn [length] in Hs.
    replace (2 * length pre + 2 * z)%nat with skip in Hs by lia.
    specialize (Hs eq_refl). rewrite !app_nil_r in Hs. rewrite <- app_assoc in Hs.
    rewrite app_assoc, <- Hs. f_equal. unfold l. f_equal. rewrite <- replicate_add. f_equal. lia.
Qed.

Lemma join_first g gs rest :
  is_group g -> exists c t, join (g :: gs) ++ rest = c :: t /\ c <> 58.
Proof.
  intros Hg. assert (exists r, join (g :: gs) = group_text g ++ r) as [r ->].
  { destruct gs; [exists []; by rewrite app_nil_r|by eexists]. }
  destruct (group_text_cases g Hg) as [[_ ->]|(c & t & -> & _ & Hc)]; cbn [app]; by eexists _, _.
Qed.

(** The three cases of the first loop: the text begins with a group, or with a
    pair of colons. *)
Lemma scan_first c t skip found : c <> 58 -> scan c t skip found = scan 0 (c :: t) skip found.
Proof. intros Hc. cbn [scan]. by rewrite (proj2 (Z.eqb_neq c 58)). Qed.

Lemma parse_body first rest skip after :
  (2 <= length (first :: rest) <= 39)%nat -> scan first rest 0 false = (skip, true) ->
  parse (first :: rest) after =
  (loop ← parse_loop (first :: rest) None 0 0 skip (replicate 16 0); parse_finish after loop).
Proof.
  intros Hl Hs. unfold parse. rewrite (proj2 (Nat.ltb_ge _ _)), (proj2 (Nat.ltb_ge _ _)) by lia.
  by rewrite Hs.
Qed.

Lemma parse_collapsed pre z post id (v0 : Z) (after : list Z) :
  Forall is_group pre -> Forall is_group post -> (length pre + z + length post = 8)%nat -> (0 < z)%nat ->
  0 <= id <= U16_MAX -> (length (join pre ++ 58%Z :: 58%Z :: join post ++ scope_text id) <= 39)%nat ->
  parse (join pre ++ 58 :: 58 :: join post ++ scope_text id) (v0 :: after) =
  Some (true, {| bytes := octs (pre ++ replicate z (0, 0) ++ post); scopeId := id |}).
Proof.
  intros Hpre Hpost Hlen Hz Hid Hl.
  assert (is_scope (scope_text id)) as Hsc by (apply scope_text_scope; unfold U16_MAX, U32_MAX in *; lia).
  assert (0 < skip_before post)%nat as Hskip by (unfold skip_before; lia).
  set (x := join post ++ scope_text id) in *.
  assert (exists first rest, join pre ++ 58 :: 58 :: x = first :: rest /\
    scan first rest 0 false = (skip_before post, true)) as (first & rest & Et & Hs).
  { destruct pre as [|g pre].
    - exists 58, (58 :: x). split; [done|]. cbn [scan]. change (58 =? 58) with true. cbn iota.
      by apply scan_suffix.
    - destruct (join_first g pre (58 :: 58 :: x) (Forall_inv Hpre)) as (c & t & Et & Hc).
      exists c, t. split; [done|]. rewrite scan_first, <- Et by done.
      destruct (exists_last (l := g :: pre) ltac:(done)) as (pf & pg & Ep). rewrite Ep in *.
      apply Forall_app in Hpre as [Hpf Hpg]. apply Forall_inv in Hpg.
      destruct (scan_join pf pg (58 :: 58 :: x) 0 0 false Hpf Hpg) as (c' & Hc' & ->).
      cbn [scan]. change (58 =? 58) with true. cbn iota.
      by apply scan_suffix. }
  rewrite Et. rewrite (parse_body first rest (skip_before post)) by (done || (rewrite <- Et;
    rewrite !length_app in *; cbn [length] in *; lia)).
  rewrite <- Et, parse_prefix by (done || lia). by apply parse_suffix.
Qed.

Lemma length_join_ge gs : Forall is_group gs -> (length gs <= length (join gs))%nat.
Proof.
  induction 1 as [|g gs Hg Hgs IH]; [done|].
  assert (1 <= length (group_text g))%nat.
  { pose proof (group_text_ne g Hg). destruct (group_text g); [done|cbn; lia]. }
  destruct gs as [|g' gs]; [cbn; lia|]. rewrite join_cons, length_app. cbn [length] in *. lia.
Qed.

Lemma parse_uncollapsed gs id (v0 : Z) (after : list Z) :
  Forall is_group gs -> length gs = 8%nat -> 0 <= id <= U16_MAX ->
  (length (join gs ++ scope_text id) <= 39)%nat ->
  parse (join gs ++ scope_text id) (v0 :: after) = Some (true, {| bytes := octs gs; scopeId := id |}).
Proof.
  intros Hgs H8 Hid Hl.
  assert (is_scope (scope_text id)) as [Hsc _] by (apply scope_text_scope; unfold U16_MAX, U32_MAX in *; lia).
  pose proof (length_join_ge gs Hgs) as Hge.
  destruct gs as [|g gs]; [done|].
  destruct (join_first g gs (scope_text id) (Forall_inv Hgs)) as (c & t & Et & Hc).
  destruct (exists_last (l := g :: gs) ltac:(done)) as (front & last & Eg). rewrite Eg in *.
  apply Forall_app in Hgs as [Hfront Hlast]. apply Forall_inv in Hlast.
  rewrite length_app in H8. cbn [length] in H8.
  rewrite Et. rewrite (parse_body c t 0).
  - rewrite <- Et.
    destruct (parse_join front last (scope_text id) None 0 0 (replicate 16 0) Hfront Hlast) as (c' & _ & ->); [lia|].
    replace (0 + 2 * length front)%nat with 14%nat by lia. rewrite parse_end by done.
    pose proof (store_last front last 0 (replicate 16 0) Hlast ltac:(lia)) as Hs.
    replace (0 + 2 * length front)%nat with 14%nat in Hs by lia. rewrite Hs. cbn [mbind option_bind].
    do 3 f_equal. pose proof (stores_front (front ++ [last]) 0) as Hf.
    rewrite length_app in Hf. cbn [length] in Hf.
    replace (2 * (length front + 1) + 0)%nat with 16%nat in Hf by lia. rewrite Hf. cbn [replicate].
    by rewrite app_nil_r.
  - rewrite <- Et. rewrite length_app in *. cbn [length] in *. lia.
  - rewrite scan_first, <- Et by done.
    destruct (scan_join front last (scope_text id) 0 0 false Hfront Hlast) as (c' & _ & ->).
    rewrite scan_no_colon by done. rewrite (proj2 (Nat.ltb_lt _ _)) by lia. done.
Qed.

Record is_address (a : address) : Prop := {
  ia_length : length (bytes a) = 16%nat;
  ia_bytes : Forall (fun o => 0 <= o < 256) (bytes a);
  ia_scope : 0 <= scopeId a <= U32_MAX;
}.

Lemma format_scope_text id : 0 <= id <= U32_MAX -> format_scope id = Some (scope_text id).
Proof.
  intros Hid. unfold U32_MAX in Hid. unfold format_scope, scope_text. destruct (0 <? id); [|done].
  rewrite NumberText.digit_loop_text; [done|lia|]. change (10 ^ Z.of_nat 10) with 10000000000. lia.
Qed.

(** The text of an address when it fits in the buffer. *)
Lemma format_spec capacity collapsed a :
  is_address a -> (MAX_TEXT_LENGTH < capacity)%nat ->
  let full := format_groups (bytes a) ++ scope_text (scopeId a) in
  format capacity collapsed a =
  if (length full <? capacity)%nat then Some (if collapsed then collapse full else full) else None.
Proof.
  intros [Hl Hb Hs] Hc. cbn zeta. unfold format. rewrite (proj2 (Nat.ltb_ge _ _)) by (unfold MAX_TEXT_LENGTH in *; lia).
  rewrite format_scope_text by done. cbn [mbind option_bind].
  set (n := length _). destruct (Nat.leb_spec (n + 1) capacity), (Nat.ltb_spec n capacity); done || lia.
Qed.

Lemma format_parse capacity collapsed a t (v0 : Z) (after : list Z) :
  is_address a -> scopeId a <= U16_MAX -> (MAX_TEXT_LENGTH < capacity)%nat ->
  format capacity collapsed a = Some t -> (length t <= 39)%nat ->
  parse t (v0 :: after) = Some (true, a).
Proof.
  intros Ha Hid Hc Ef Hl. pose proof Ha as [H16 Hb Hs].
  rewrite format_spec in Ef by done. destruct (_ <? capacity)%nat; [|done]. injection Ef as <-.
  destruct (octs_pairs 8 (bytes a) H16 Hb) as (gs & Eb & H8 & Hgs).
  rewrite Eb, format_groups_join in *.
  assert (a = {| bytes := octs gs; scopeId := scopeId a |}) as Ea by (destruct a; cbn in *; by subst).
  assert (is_scope (scope_text (scopeId a))) as Hsc by by apply scope_text_scope.
  destruct collapsed.
  2: { rewrite parse_uncollapsed by (done || lia). by rewrite <- Ea. }
  destruct (collapse_join gs (scope_text (scopeId a)) Hgs Hsc) as [E|(pre & z & post & E & Hz & Ec)].
  - rewrite E in *. rewrite parse_uncollapsed by (done || lia). by rewrite <- Ea.
  - rewrite Ec in *. rewrite E in Hgs, H8. apply Forall_app in Hgs as [Hpre Hgs]. apply Forall_app in Hgs as [_ Hpost].
    rewrite !length_app, length_replicate in H8.
    rewrite (parse_collapsed pre z post) by (done || (unfold group in *; lia)).
    rewrite Ea at 2. by subst gs.
Qed.

End RoundTrip.

(** *** Bounds *)

Lemma length_group_text g : is_group g -> (length (group_text g) <= 4)%nat.
Proof.
  intros Hg. destruct (group_text_numeral g Hg) as (ds & -> & [_ Hl _ _]). rewrite length_map. lia.
Qed.

Lemma length_join_le gs : Forall is_group gs -> (length (join gs) + 1 <= 5 * length gs \/ gs = [])%nat.
Proof.
  induction 1 as [|g gs Hg Hgs IH]; [by right|]. left. pose proof (length_group_text g Hg).
  destruct gs as [|g' gs]; [cbn; lia|]. destruct IH as [IH|]; [|done].
  rewrite join_cons, length_app. cbn [length] in *. lia.
Qed.

(** A buffer of the size the code uses holds the text of every address with a
    scope of at most three digits. *)
Lemma format_fits collapsed a :
  is_address a -> scopeId a < 1000 ->
  exists t, format (MAX_TEXT_LENGTH + 1) collapsed a = Some t /\ t <> [].
Proof.
  intros Ha Hid. pose proof Ha as [H16 Hb Hs]. rewrite format_spec by (done || lia).
  destruct (octs_pairs 8 (bytes a) H16 Hb) as (gs & Eb & H8 & Hgs). rewrite Eb, format_groups_join.
  destruct (length_join_le gs Hgs) as [Hj| ->]; [|done]. rewrite H8 in Hj.
  assert (length (scope_text (scopeId a)) <= 4)%nat as Hsl.
  { unfold scope_text. destruct (Z.ltb_spec 0 (scopeId a)); [|cbn; lia].
    unfold NumberText.text. rewrite <- (digits_fuel 3 10) by (lia || (change (10 ^ Z.of_nat 3) with 1000; lia)).
    destruct (NumberText.text_spec 3 (scopeId a)) as (_ & _ & Hl);
      [lia|change (10 ^ Z.of_nat 3) with 1000; lia|].
    unfold NumberText.text in Hl. cbn [length]. lia. }
  rewrite (proj2 (Nat.ltb_lt _ _)) by (rewrite length_app; unfold MAX_TEXT_LENGTH; lia).
  eexists. split; [done|].
  pose proof (length_join_ge gs Hgs) as Hge.
  assert (length (join gs ++ scope_text (scopeId a)) <> 0)%nat by (rewrite length_app; lia).
  destruct collapsed; [|by destruct (join gs ++ _)].
  assert (is_scope (scope_text (scopeId a))) as Hsc by by apply scope_text_scope.
  destruct (collapse_join gs _ Hgs Hsc) as [->|(pre & z & post & _ & _ & ->)]; [by destruct (join gs ++ _)|].
  by destruct (join pre).
Qed.

End Ipv6AddressFacts.
