(* ===== verification/IpEndpoint.v ===== *)
(** * IP addresses and endpoints

    Models [ntsa::IpAddress] (src/groups/nts/ntsa/ntsa_ipaddress.h and .cpp) and
    [ntsa::IpEndpoint] (ntsa_ipendpoint.h and .cpp): the union of the two kinds
    of address, an address with a port, the text of both, their equality and
    their order.

    [None] is a failed assertion or an access outside the text or the buffer. *)

From S2P Require Import Prelude NumberText Ipv4Address Ipv6Address.

Module IpAddress.

(** [d_type] and the object it selects. *)
Inductive address : Set :=
| Undefined
| V4 (a : Ipv4Address.address)
| V6 (a : Ipv6Address.address).

(** The number that octets in network order stand for, which the byte-order
    conversions of the comparisons yield. *)
Definition host_order (l : list Z) : Z := foldl (fun acc o => acc * 256 + o) 0 l.

Definition ipv4_equals (a b : Ipv4Address.address) : bool :=
  host_order (Ipv4Address.octets a) =? host_order (Ipv4Address.octets b).

Definition ipv4_less (a b : Ipv4Address.address) : bool :=
  host_order (Ipv4Address.octets a) <? host_order (Ipv4Address.octets b).

(** [d_value.d_byQword[index]]. *)
Definition qword (index : nat) (a : Ipv6Address.address) : Z :=
  host_order (take 8 (drop (8 * index) (Ipv6Address.bytes a))).

Definition ipv6_equals (a b : Ipv6Address.address) : bool :=
  (qword 0 a =? qword 0 b) && (qword 1 a =? qword 1 b) &&
  (Ipv6Address.scopeId a =? Ipv6Address.scopeId b).

Definition ipv6_less (a b : Ipv6Address.address) : bool :=
  if qword 0 a <? qword 0 b then true
  else if qword 0 b <? qword 0 a then false
  else if qword 1 a <? qword 1 b then true
  else if qword 1 b <? qword 1 a then false
  else Ipv6Address.scopeId a <? Ipv6Address.scopeId b.

Section Parse.

Context {C : CharType}.

(** [parse]: whether the text is valid, and the address afterwards. *)
Definition parse (text after : list Z) : option (bool * address) :=
  match text with
  | [] => Some (false, Undefined)
  | _ =>
      '(valid, a) ← Ipv4Address.parse text;
      if (valid : bool) then Some (true, V4 a)
      else
        '(valid, a) ← Ipv6Address.parse text after;
        if (valid : bool) then Some (true, V6 a) else Some (false, Undefined)
  end.

End Parse.

Definition text (a : address) : option (list Z) :=
  match a with
  | V4 a => Ipv4Address.text a
  | V6 a => Ipv6Address.text a
  | Undefined => Some []
  end.

Definition equals (a b : address) : bool :=
  match a, b with
  | V4 a, V4 b => ipv4_equals a b
  | V6 a, V6 b => ipv6_equals a b
  | Undefined, Undefined => true
  | _, _ => false
  end.

Definition less (a b : address) : bool :=
  match a, b with
  | V4 a, V4 b => ipv4_less a b
  | V6 a, V6 b => ipv6_less a b
  | Undefined, Undefined => true
  | _, _ => false
  end.

Inductive address_type : Set := UNDEFINED_TYPE | V4_TYPE | V6_TYPE.

Definition any (addressType : address_type) : address :=
  match addressType with
  | V4_TYPE => V4 Ipv4Address.any
  | V6_TYPE => V6 Ipv6Address.any
  | UNDEFINED_TYPE => Undefined
  end.

Definition loopback (addressType : address_type) : address :=
  match addressType with
  | V4_TYPE => V4 Ipv4Address.loopback
  | V6_TYPE => V6 Ipv6Address.loopback
  | UNDEFINED_TYPE => Undefined
  end.

End IpAddress.

Module IpEndpoint.

Definition MAX_TEXT_LENGTH : nat := 1 + (39 + 4) + 1 + 1 + 5.

Record endpoint : Set := { host : IpAddress.address; port : Z }.

(** The loops that look for the last [ch] from the end of the text, down to but
    not including its first character. *)
Fixpoint find_mark (ch : Z) (text : list Z) (mark : nat) : nat :=
  match mark with
  | O => O
  | S mark' => if bool_decide (text !! mark = Some ch) then mark else find_mark ch text mark'
  end.

Section Parse.

Context {C : CharType}.

(** The end of [parse]: the port from [portBegin] to the end of the text. *)
Definition parse_port (text after : list Z) (portBegin : nat) (e : endpoint)
  : option (bool * endpoint) :=
  if (length text <=? portBegin)%nat then Some (false, e)
  else
    result ← NumberText.parse (drop portBegin text ++ after) (length text - portBegin);
    Some (match result with
          | Some port => (true, {| host := host e; port := port |})
          | None => (false, e)
          end).

(** [parse]: whether the text is valid, and the endpoint afterwards. *)
Definition parse (text after : list Z) (e : endpoint) : option (bool * endpoint) :=
  match text with
  | [] => Some (false, e)
  | first :: _ =>
      if first =? 91 then
        let mark := find_mark 93 text (length text - 1) in
        if (mark =? 0)%nat then Some (false, e)
        else
          '(valid, a) ← Ipv6Address.parse (take (mark - 1) (drop 1 text)) (drop mark text ++ after);
          let e := {| host := IpAddress.V6 a; port := port e |} in
          if negb valid then Some (false, e)
          else
            let colon := S mark in
            if (length text <=? colon)%nat then Some (false, e)
            else if bool_decide (text !! colon = Some 58) then parse_port text after (S colon) e
            else Some (false, e)
      else
        let mark := find_mark 58 text (length text - 1) in
        if (mark =? 0)%nat then Some (false, e)
        else
          '(valid, a) ← Ipv4Address.parse (take mark text);
          let e := {| host := IpAddress.V4 a; port := port e |} in
          if negb valid then Some (false, e)
          else parse_port text after (S mark) e
  end.

End Parse.

(** [format]: the characters in the buffer. *)
Definition format (capacity : nat) (collapsed : bool) (e : endpoint) : option (list Z) :=
  match host e with
  | IpAddress.V4 a =>
      t ← Ipv4Address.format capacity a;
      assert! negb (length t =? 0)%nat ;;
      let c := (capacity - length t)%nat in
      assert! (0 <? c)%nat ;;
      p ← NumberText.format (c - 1) (port e);
      Some (t ++ 58 :: p)
  | IpAddress.V6 a =>
      if (capacity =? 0)%nat then Some []
      else
        t ← Ipv6Address.format (capacity - 1) collapsed a;
        assert! negb (length t =? 0)%nat ;;
        let c := (capacity - 1 - length t)%nat in
        if (c =? 0)%nat then Some (91 :: t)
        else if (c - 1 =? 0)%nat then Some (91 :: t ++ [93])
        else
          p ← NumberText.format (c - 1 - 1) (port e);
          Some (91 :: t ++ 93 :: 58 :: p)
  | IpAddress.Undefined => Some []
  end.

Definition text (e : endpoint) : option (list Z) := format (MAX_TEXT_LENGTH + 1) true e.

Definition equals (e e' : endpoint) : bool :=
  IpAddress.equals (host e) (host e') && (port e =? port e').

Definition less (e e' : endpoint) : bool :=
  if IpAddress.less (host e) (host e') then true
  else if IpAddress.less (host e') (host e) then false
  else port e <? port e'.

End IpEndpoint.

Module IpEndpointFacts.

Import IpEndpoint.

(** ** The order within a kind *)

Definition is_address (a : IpAddress.address) : Prop :=
  match a with
  | IpAddress.V4 a => Ipv4AddressFacts.is_address a
  | IpAddress.V6 a => Ipv6AddressFacts.is_address a
  | IpAddress.Undefined => True
  end.

Definition octet (o : Z) : Prop := 0 <= o < 256.

Lemma host_order_snoc l o : IpAddress.host_order (l ++ [o]) = IpAddress.host_order l * 256 + o.
Proof. unfold IpAddress.host_order. by rewrite foldl_app. Qed.

Lemma host_order_inj l l' :
  length l = length l' -> Forall octet l -> Forall octet l' ->
  IpAddress.host_order l = IpAddress.host_order l' -> l = l'.
Proof.
  revert l'. induction l as [|o l IH] using rev_ind; intros l' Hlen Hl Hl' E.
  { by destruct l'. }
  destruct l' as [|o' l' _] using rev_ind; rewrite !length_app in Hlen; cbn [length] in Hlen; [lia|].
  apply Forall_app in Hl as [Hl Ho]. apply Forall_app in Hl' as [Hl' Ho'].
  apply Forall_inv in Ho, Ho'. unfold octet in Ho, Ho'.
  rewrite !host_order_snoc in E. rewrite (IH l'); [f_equal; f_equal; lia|lia|done|done|lia].
Qed.

Lemma ipv4_equals_spec a b :
  Ipv4AddressFacts.is_address a -> Ipv4AddressFacts.is_address b ->
  IpAddress.ipv4_equals a b = true <-> a = b.
Proof.
  intros Ha Hb. unfold IpAddress.ipv4_equals. rewrite Z.eqb_eq. split; [|by intros ->].
  intros E. apply Ipv4AddressFacts.octets_inj, host_order_inj; done.
Qed.

Lemma qwords_inj a b :
  Ipv6AddressFacts.is_address a -> Ipv6AddressFacts.is_address b ->
  IpAddress.qword 0 a = IpAddress.qword 0 b -> IpAddress.qword 1 a = IpAddress.qword 1 b ->
  Ipv6Address.bytes a = Ipv6Address.bytes b.
Proof.
  intros [La Fa _] [Lb Fb _] E0 E1. unfold IpAddress.qword in *.
  rewrite <- (take_drop 8 (Ipv6Address.bytes a)), <- (take_drop 8 (Ipv6Address.bytes b)).
  assert (forall l : list Z, length l = 16%nat -> take 8 (drop 8 l) = drop 8 l) as Hd.
  { intros l Hl. apply firstn_all2. rewrite length_drop. lia. }
  change (8 * 0)%nat with 0%nat in E0. change (8 * 1)%nat with 8%nat in E1. rewrite !drop_0 in E0.
  rewrite !Hd in E1 by done. f_equal.
  - apply host_order_inj; [rewrite !length_take; lia|by apply Forall_take..|done].
  - apply host_order_inj; [rewrite !length_drop; lia|by apply Forall_drop..|done].
Qed.

Lemma ipv6_equals_spec a b :
  Ipv6AddressFacts.is_address a -> Ipv6AddressFacts.is_address b ->
  IpAddress.ipv6_equals a b = true <-> a = b.
Proof.
  intros Ha Hb. unfold IpAddress.ipv6_equals. rewrite !andb_true_iff, !Z.eqb_eq. split; [|by intros ->].
  intros [[E0 E1] Es]. pose proof (qwords_inj a b Ha Hb E0 E1). destruct a, b. cbn in *. by subst.
Qed.

(** The order on IPv6 addresses is the lexicographic order of the two halves
    and the scope. *)
Definition ipv6_key (a : Ipv6Address.address) : Z * Z * Z :=
  (IpAddress.qword 0 a, IpAddress.qword 1 a, Ipv6Address.scopeId a).

Definition key_less (x y : Z * Z * Z) : Prop :=
  let '(x0, x1, x2) := x in
  let '(y0, y1, y2) := y in
  x0 < y0 \/ x0 = y0 /\ (x1 < y1 \/ x1 = y1 /\ x2 < y2).

Lemma ipv6_less_spec a b : IpAddress.ipv6_less a b = true <-> key_less (ipv6_key a) (ipv6_key b).
Proof.
  unfold IpAddress.ipv6_less, key_less, ipv6_key.
  repeat (case Z.ltb_spec; intros); split; intros; try done; lia.
Qed.

(** ** The text of an endpoint *)

Lemma find_mark_spec ch front back n :
  ch ∉ back -> (n <= length back)%nat ->
  find_mark ch (front ++ ch :: back) (length front + n) = length front.
Proof.
  intros Hback. induction n as [|n IH]; intros Hn.
  - rewrite Nat.add_0_r. destruct (length front) as [|k] eqn:E; [done|]. cbn [find_mark].
    rewrite bool_decide_true; [done|]. rewrite <- E, lookup_app_r, Nat.sub_diag by lia. done.
  - rewrite Nat.add_succ_r. cbn [find_mark]. rewrite bool_decide_false; [apply IH; lia|].
    rewrite lookup_app_r by lia. replace (S (length front + n) - length front)%nat with (S n) by lia.
    cbn. intros Hin. apply Hback. by eapply list_elem_of_lookup_2.
Qed.

Lemma find_mark_last ch front back :
  ch ∉ back -> find_mark ch (front ++ ch :: back) (length (front ++ ch :: back) - 1) = length front.
Proof.
  intros Hback. rewrite length_app. cbn [length].
  replace (length front + S (length back) - 1)%nat with (length front + length back)%nat by lia.
  by apply find_mark_spec.
Qed.

Definition port_text (port : Z) : list Z := NumberText.text 5 port.

Lemma port_text_spec port :
  0 <= port <= U16_MAX ->
  NumberText.all_digits (port_text port) /\ (0 < length (port_text port) <= 5)%nat.
Proof.
  intros Hp. unfold U16_MAX in Hp.
  destruct (NumberText.text_spec 5 port) as (? & _ & ?); [lia|change (10 ^ Z.of_nat 5) with 100000; lia|done].
Qed.

Lemma not_in_digits ch l : NumberText.all_digits l -> 57 < ch -> ch ∉ l.
Proof.
  intros Hl Hch Hin. unfold NumberText.all_digits in Hl. rewrite list.Forall_forall in Hl.
  specialize (Hl _ Hin). cbn in Hl. lia.
Qed.

Section RoundTrip.

Context {C : CharType} {CL : CharTypeLaws C}.

Lemma parse_port_text front port v0 after h p0 :
  0 <= port <= U16_MAX ->
  parse_port (front ++ port_text port) (v0 :: after) (length front) {| host := h; port := p0 |} =
  Some (true, {| host := h; port := port |}).
Proof.
  intros Hp. destruct (port_text_spec port Hp) as [_ Hl]. unfold parse_port.
  rewrite length_app, (proj2 (Nat.leb_gt _ _)) by lia.
  rewrite drop_app_length, (Nat.add_comm (length front)), Nat.add_sub.
  unfold port_text. by rewrite NumberText.parse_text.
Qed.

Lemma parse_v4 a port v0 after e :
  Ipv4AddressFacts.is_address a -> 0 <= port <= U16_MAX ->
  parse (Ipv4AddressFacts.address_text a ++ 58 :: port_text port) (v0 :: after) e =
  Some (true, {| host := IpAddress.V4 a; port := port |}).
Proof.
  intros Ha Hp. destruct (port_text_spec port Hp) as [Hd Hl].
  pose proof (Ipv4AddressFacts.parse_address_text a Ha) as Hparse.
  set (t := Ipv4AddressFacts.address_text a) in *.
  assert (exists c r, t = c :: r /\ c <> 91) as (c & r & Et & Hc).
  { destruct t as [|c r] eqn:Et; [|exists c, r; split; [done|]].
    - unfold t, Ipv4AddressFacts.address_text in Et. by destruct (Ipv4AddressFacts.octet_text _).
    - intros ->. unfold Ipv4Address.parse in Hparse. by cbn in Hparse. }
  unfold parse. rewrite Et at 1. cbn [app]. rewrite (proj2 (Z.eqb_neq c 91)) by done.
  rewrite find_mark_last by (apply not_in_digits; [done|lia]).
  rewrite (proj2 (Nat.eqb_neq _ _)) by (rewrite Et; done).
  rewrite take_app_length, Hparse. cbn [mbind option_bind negb].
  pose proof (parse_port_text (t ++ [58]) port v0 after (IpAddress.V4 a) (IpEndpoint.port e) Hp) as H.
  rewrite length_app, <- app_assoc in H. cbn [length app] in H. rewrite Nat.add_1_r in H. exact H.
Qed.

Lemma parse_v6 a t port v0 after e :
  (forall v0 after, Ipv6Address.parse t (v0 :: after) = Some (true, a)) -> 0 <= port <= U16_MAX ->
  parse (91 :: t ++ 93 :: 58 :: port_text port) (v0 :: after) e =
  Some (true, {| host := IpAddress.V6 a; port := port |}).
Proof.
  intros Hparse Hp. destruct (port_text_spec port Hp) as [Hd Hl].
  unfold parse. change (91 =? 91) with true. cbn iota.
  change (91 :: t ++ 93 :: 58 :: port_text port) with ((91 :: t) ++ 93 :: 58 :: port_text port).
  assert (93 ∉ 58 :: port_text port) as Hni.
  { rewrite not_elem_of_cons. split; [done|]. apply not_in_digits; [done|lia]. }
  rewrite find_mark_last by done. cbn [length Nat.eqb].
  change (drop 1 ((91 :: t) ++ 93 :: 58 :: port_text port)) with (t ++ 93 :: 58 :: port_text port).
  cbn [Nat.sub]. rewrite Nat.sub_0_r, take_app_length.
  change (drop (S (length t)) ((91 :: t) ++ 93 :: 58 :: port_text port)) with
    (drop (length t) (t ++ 93 :: 58 :: port_text port)). rewrite drop_app_length. cbn [app].
  rewrite Hparse. cbn [mbind option_bind negb].
  pose proof (parse_port_text (91 :: t ++ [93; 58]) port v0 after (IpAddress.V6 a) (IpEndpoint.port e) Hp) as H.
  cbn [length app] in H. rewrite length_app, <- app_assoc in H. cbn [length app] in H.
  rewrite (Nat.add_comm (length t) 2) in H. cbn [Nat.add] in H.
  cbn [length]. rewrite length_app. cbn [length].
  rewrite (proj2 (Nat.leb_gt _ _)) by lia. rewrite bool_decide_true; [exact H|].
  change ((t ++ 93 :: 58 :: port_text port) !! S (length t) = Some 58). rewrite lookup_app_r by lia.
  by replace (S (length t) - length t)%nat with 1%nat by lia.
Qed.

(** The hosts whose text is parsed back. *)
Definition host_fits (collapsed : bool) (h : IpAddress.address) : Prop :=
  match h with
  | IpAddress.V4 a => Ipv4AddressFacts.is_address a
  | IpAddress.V6 a =>
      Ipv6AddressFacts.is_address a /\ Ipv6Address.scopeId a <= U16_MAX /\
      exists t, Ipv6Address.format MAX_TEXT_LENGTH collapsed a = Some t /\ (length t <= 39)%nat
  | IpAddress.Undefined => False
  end.

Lemma endpoint_text collapsed e v0 after e0 :
  host_fits collapsed (host e) -> 0 <= port e <= U16_MAX ->
  exists t, format (MAX_TEXT_LENGTH + 1) collapsed e = Some t /\ parse t (v0 :: after) e0 = Some (true, e).
Proof.
  intros Hh Hp. destruct e as [[|a|a] port]; cbn [host IpEndpoint.port host_fits] in *; [done|..].
  - destruct (Ipv4AddressFacts.text_address_text a Hh) as [Ht Hl].
    exists (Ipv4AddressFacts.address_text a ++ 58 :: port_text port). split; [|by apply parse_v4].
    unfold format. cbn [host IpEndpoint.port].
    rewrite Ht by (unfold MAX_TEXT_LENGTH, Ipv4Address.MAX_TEXT_LENGTH; lia). cbn [mbind option_bind].
    set (t := Ipv4AddressFacts.address_text a) in *. unfold Ipv4Address.MAX_TEXT_LENGTH in Hl.
    assert (length t <> 0)%nat as Hne.
    { unfold t, Ipv4AddressFacts.address_text. rewrite length_app. cbn [length]. lia. }
    rewrite (proj2 (Nat.eqb_neq _ _)), (proj2 (Nat.ltb_lt _ _)) by (unfold MAX_TEXT_LENGTH; lia).
    rewrite NumberText.format_number_text by (done || (unfold MAX_TEXT_LENGTH; lia)). done.
  - destruct Hh as (Ha & Hs & t & Ht & Hl).
    assert (forall v0 after, Ipv6Address.parse t (v0 :: after) = Some (true, a)) as Hparse.
    { intros. by eapply Ipv6AddressFacts.format_parse; [done..| |done|done]; cbn; lia. }
    exists (91 :: t ++ 93 :: 58 :: port_text port). split; [|by apply parse_v6].
    assert (length t <> 0)%nat as Hne.
    { destruct t; [|done]. specialize (Hparse 0 []). discriminate Hparse. }
    unfold format. cbn [host IpEndpoint.port]. rewrite (Nat.add_sub MAX_TEXT_LENGTH 1), Ht.
    cbn [mbind option_bind].
    rewrite !(proj2 (Nat.eqb_neq _ _)) by (unfold MAX_TEXT_LENGTH; lia). cbn [negb].
    rewrite NumberText.format_number_text by (done || (unfold MAX_TEXT_LENGTH; lia)). done.
Qed.

(** Every address without a scope fits. *)
Lemma host_fits_scopeless collapsed a :
  Ipv6AddressFacts.is_address a -> Ipv6Address.scopeId a = 0 -> host_fits collapsed (IpAddress.V6 a).
Proof.
  intros Ha Hs. split; [done|]. split; [rewrite Hs; done|].
  pose proof Ha as [H16 Hb _]. pose proof (Ipv6AddressFacts.format_spec MAX_TEXT_LENGTH collapsed a Ha) as Hf.
  cbn zeta in Hf. rewrite Hf by (cbn; lia). clear Hf. rewrite Hs.
  change (Ipv6AddressFacts.scope_text 0) with (@nil Z).
  destruct (Ipv6AddressFacts.octs_pairs 8 (Ipv6Address.bytes a) H16 Hb) as (gs & -> & H8 & Hgs).
  rewrite Ipv6AddressFacts.format_groups_join.
  assert (length (Ipv6AddressFacts.join gs) <= 39)%nat as Hj.
  { destruct (Ipv6AddressFacts.length_join_le gs Hgs) as [Hj| ->]; [|done]. lia. }
  rewrite (proj2 (Nat.ltb_lt _ _)) by (rewrite app_nil_r; unfold MAX_TEXT_LENGTH; lia).
  eexists. split; [done|]. destruct collapsed; [|by rewrite app_nil_r].
  destruct (Ipv6AddressFacts.collapse_join gs [] Hgs) as [->|(pre & z & post & E & Hz & ->)];
    [split; [constructor|done]|by rewrite app_nil_r|].
  rewrite E in Hgs, H8. apply Forall_app in Hgs as [Hpre Hgs]. apply Forall_app in Hgs as [_ Hpost].
  rewrite !length_app, length_replicate in H8. rewrite length_app. cbn [length]. rewrite app_nil_r.
  destruct (Ipv6AddressFacts.length_join_le pre Hpre) as [?| ->],
    (Ipv6AddressFacts.length_join_le post Hpost) as [?| ->]; cbn [length Ipv6AddressFacts.join] in *;
    unfold Ipv6AddressFacts.group in *; lia.
Qed.

(** A text with a colon is no IPv4 address, and every text of an IPv6 address
    has one. *)
Lemma parts_colon text : 58 ∈ text -> forallb Ipv4Address.is_number (Ipv4Address.parts text) = false.
Proof.
  induction text as [|ch text IH]; [by intros ?%not_elem_of_nil|]. rewrite elem_of_cons. intros Hin.
  cbn [Ipv4Address.parts]. pose proof (Ipv4AddressFacts.parts_not_nil text) as Hne.
  destruct (Z.eqb_spec ch 46) as [->|Hdot].
  - destruct Hin as [?|Hin]; [lia|]. cbn. by apply IH.
  - destruct (Ipv4Address.parts text) as [|part rest]; [by destruct Hne|].
    cbn [forallb Ipv4Address.is_number]. destruct Hin as [<-|Hin]; [done|].
    specialize (IH Hin). cbn [forallb] in IH. rewrite <- andb_assoc.
    fold (Ipv4Address.is_number part). rewrite IH. by rewrite andb_false_r.
Qed.

Lemma scan_colon previous text skip found result :
  Ipv6Address.scan previous text skip found = (result, true) -> found = true \/ 58 ∈ text.
Proof.
  revert previous skip found. induction text as [|ch text IH]; intros previous skip found H.
  { injection H as _ ->. by left. }
  rewrite elem_of_cons. cbn [Ipv6Address.scan] in H. destruct (Z.eqb_spec ch 58) as [->|]; [by right; left|].
  apply IH in H as [?|?]; auto.
Qed.

Lemma ipv6_has_colon text after a : Ipv6Address.parse text after = Some (true, a) -> 58 ∈ text.
Proof.
  unfold Ipv6Address.parse. destruct (_ <? 2)%nat; [done|]. destruct (39 <? _)%nat; [done|].
  destruct text as [|first rest]; [done|].
  destruct (Ipv6Address.scan first rest 0 false) as [skip [|]] eqn:E; [|done]. intros _.
  apply scan_colon in E as [?|Hin]; [done|]. by right.
Qed.

Lemma address_parse_v6 text after a :
  Ipv6Address.parse text after = Some (true, a) -> IpAddress.parse text after = Some (true, IpAddress.V6 a).
Proof.
  intros H. pose proof (ipv6_has_colon text after a H) as Hin.
  destruct (Ipv4AddressFacts.parse_aton text) as (a4 & E & _).
  unfold Ipv4Address.aton in E. rewrite parts_colon in E by done.
  unfold IpAddress.parse. rewrite E. cbn [mbind option_bind]. rewrite H. by destruct text.
Qed.

End RoundTrip.

End IpEndpointFacts.
