(* ===== verification/AddressTheorems.v ===== *)
(** * The properties of addresses

    The texts that IPv4 addresses accept are those of a reference; the texts of
    IPv6 addresses and of endpoints are parsed back; the buffers suffice; the
    order of addresses is total within a kind.  After them, the inputs on which
    the code goes wrong: writes outside a buffer, values lost in a text, and an
    order that is not one. *)

From stdpp Require Import strings.
From S2P Require Import Prelude NumberText Ipv4Address Ipv6Address IpEndpoint.

Module AddressTheorems.

(** The characters of a text. *)
Definition ascii (s : String.string) : list Z :=
  map (fun c => Z.of_N (Ascii.N_of_ascii c)) (String.list_ascii_of_string s).

Definition ipv6 (groups : list Ipv6AddressFacts.group) (scope : Z) : Ipv6Address.address :=
  {| Ipv6Address.bytes := Ipv6AddressFacts.octs groups; Ipv6Address.scopeId := scope |}.

(** 2001:db8::1 and the address all of whose bits are set. *)
Definition documentation (scope : Z) : Ipv6Address.address :=
  ipv6 [(32, 1); (13, 184); (0, 0); (0, 0); (0, 0); (0, 0); (0, 0); (0, 1)] scope.

Definition full (scope : Z) : Ipv6Address.address := ipv6 (replicate 8 (255, 255)) scope.

Lemma ipv6_is_address (groups : list Ipv6AddressFacts.group) scope :
  Forall (fun g => 0 <= fst g < 256 /\ 0 <= snd g < 256) groups -> length groups = 8%nat ->
  0 <= scope <= U32_MAX -> Ipv6AddressFacts.is_address (ipv6 groups scope).
Proof.
  intros Hg Hl Hs. split; [cbn [Ipv6Address.bytes ipv6]; by rewrite Ipv6AddressFacts.length_octs, Hl| |done].
  cbn [Ipv6Address.bytes ipv6]. clear Hl. induction Hg as [|g groups [H0 H1] Hg IH]; [constructor|].
  change (Ipv6AddressFacts.octs (g :: groups)) with (fst g :: snd g :: Ipv6AddressFacts.octs groups).
  constructor; [exact H0|]. constructor; [exact H1|exact IH].
Qed.

Lemma forall_octets l :
  forallb (fun o => (0 <=? o) && (o <? 256)) l = true -> Forall (fun o => 0 <= o < 256) l.
Proof. rewrite forallb_forall. intros H. apply List.Forall_forall. intros o Ho. specialize (H o Ho). lia. Qed.

(** ** Properties *)

(** C23: [Ipv4Address::parse] always returns, and accepts a text exactly when its
    parts between dots are decimal numbers of which all but the last are at most
    255 and the last fits in the octets that remain; it then stores each number
    in its octet and the last one in those that remain, and otherwise leaves the
    address zero. *)
Theorem ipv4_parse_reference text :
  exists a, Ipv4Address.parse text =
      Some (match Ipv4Address.aton text with Some _ => true | None => false end, a) /\
    match Ipv4Address.aton text with
    | Some l => Ipv4Address.octets a = l
    | None => a = Ipv4Address.any
    end.
Proof. apply Ipv4AddressFacts.parse_aton. Qed.

Section RoundTrip.

Context {C : CharType} {CL : CharTypeLaws C}.

(** C24: the text that [Ipv6Address::format] writes for an address, whether or
    not it collapses the longest run of zeroes, is parsed back to the address
    whatever follows the text in memory, both as an IPv6 address and as an
    address of either kind, if the text has at most 39 characters and the scope
    16 bits. *)
Theorem ipv6_text_round_trip capacity collapsed a t v0 after :
  Ipv6AddressFacts.is_address a -> Ipv6Address.scopeId a <= U16_MAX ->
  (Ipv6Address.MAX_TEXT_LENGTH < capacity)%nat ->
  Ipv6Address.format capacity collapsed a = Some t -> (length t <= 39)%nat ->
  Ipv6Address.parse t (v0 :: after) = Some (true, a) /\
  IpAddress.parse t (v0 :: after) = Some (true, IpAddress.V6 a).
Proof.
  intros Ha Hs Hc Ht Hl.
  assert (Ipv6Address.parse t (v0 :: after) = Some (true, a)) as H
    by by eapply Ipv6AddressFacts.format_parse.
  split; [done|]. by apply IpEndpointFacts.address_parse_v6.
Qed.

(** The text of an endpoint, an IPv4 address or an IPv6 address in brackets
    and a port, is written within the buffer of [IpEndpoint::text] and parsed
    back to the endpoint, whatever the value of the object it is parsed into and
    what follows the text in memory, if the host's text can be parsed back. *)
Theorem endpoint_text_round_trip collapsed e v0 after e0 :
  IpEndpointFacts.host_fits collapsed (IpEndpoint.host e) -> 0 <= IpEndpoint.port e <= U16_MAX ->
  exists t,
    IpEndpoint.format (IpEndpoint.MAX_TEXT_LENGTH + 1) collapsed e = Some t /\
    IpEndpoint.parse t (v0 :: after) e0 = Some (true, e).
Proof. apply IpEndpointFacts.endpoint_text. Qed.

End RoundTrip.

(** [Ipv6Address::format] writes within a buffer of the size that
    [Ipv6Address::text] uses, and writes something, for every address whose
    scope has at most three digits; and what it writes for an address without a
    scope has at most 39 characters, the most that [parse] takes. *)
Theorem ipv6_format_bounds collapsed a :
  Ipv6AddressFacts.is_address a -> Ipv6Address.scopeId a < 1000 ->
  (exists t, Ipv6Address.format (Ipv6Address.MAX_TEXT_LENGTH + 1) collapsed a = Some t /\ t <> []) /\
  (Ipv6Address.scopeId a = 0 -> IpEndpointFacts.host_fits collapsed (IpAddress.V6 a)).
Proof.
  intros Ha Hs. split; [by apply Ipv6AddressFacts.format_fits|]. by apply IpEndpointFacts.host_fits_scopeless.
Qed.

Definition same_kind (a b : IpAddress.address) : bool :=
  match a, b with
  | IpAddress.V4 _, IpAddress.V4 _ | IpAddress.V6 _, IpAddress.V6 _ => true
  | _, _ => false
  end.

(** Among the addresses of one kind [less] is transitive, and of two such
    addresses exactly one of the following holds: one is less than the other,
    the other is less than the one, they are equal, which [equals] decides. *)
Theorem address_order a b c :
  IpEndpointFacts.is_address a -> IpEndpointFacts.is_address b ->
  same_kind a b = true -> same_kind b c = true ->
  (IpAddress.less a b = true -> IpAddress.less b c = true -> IpAddress.less a c = true) /\
  (IpAddress.equals a b = true <-> a = b) /\
  (if IpAddress.equals a b then IpAddress.less a b = false /\ IpAddress.less b a = false
   else IpAddress.less a b = negb (IpAddress.less b a)).
Proof.
  intros Ha Hb Hab Hbc. destruct a as [|a|a], b as [|b|b], c as [|c|c]; try done;
    cbn [IpEndpointFacts.is_address IpAddress.less IpAddress.equals] in *.
  - split; [unfold IpAddress.ipv4_less; lia|]. split.
    + rewrite IpEndpointFacts.ipv4_equals_spec by done. split; [by intros ->|by intros [= ->]].
    + unfold IpAddress.ipv4_less, IpAddress.ipv4_equals. destruct (Z.eqb_spec (IpAddress.host_order (Ipv4Address.octets a))
        (IpAddress.host_order (Ipv4Address.octets b))); lia.
  - split; [rewrite !IpEndpointFacts.ipv6_less_spec; unfold IpEndpointFacts.key_less, IpEndpointFacts.ipv6_key; lia|].
    split.
    + rewrite IpEndpointFacts.ipv6_equals_spec by done. split; [by intros ->|by intros [= ->]].
    + unfold IpAddress.ipv6_equals, IpAddress.ipv6_less.
      repeat (case Z.eqb_spec; intros); repeat (case Z.ltb_spec; intros); cbn [andb negb]; try done; lia.
Qed.

(** ** Witnesses *)

Lemma documentation_is_address : Ipv6AddressFacts.is_address (documentation 3).
Proof. apply ipv6_is_address; [by repeat constructor|done|done]. Qed.

Lemma ipv6_text_round_trip_witness :
  Ipv6Address.text (documentation 3) = Some (ascii "2001:db8::1%3") /\
  @Ipv6Address.parse ascii_char_type (ascii "2001:db8::1%3") [0] = Some (true, documentation 3).
Proof.
  split; [vm_compute; reflexivity|].
  refine (proj1 (@ipv6_text_round_trip ascii_char_type ascii_char_type_laws 44 true (documentation 3)
    (ascii "2001:db8::1%3") 0 [] documentation_is_address _ _ _ _)).
  - vm_compute. discriminate.
  - vm_compute. lia.
  - vm_compute. reflexivity.
  - vm_compute. lia.
Defined.

Definition localhost : IpEndpoint.endpoint :=
  {| IpEndpoint.host := IpAddress.V4 Ipv4Address.loopback; IpEndpoint.port := 8080 |}.

Lemma endpoint_text_round_trip_witness :
  exists t, IpEndpoint.format (IpEndpoint.MAX_TEXT_LENGTH + 1) true localhost = Some t /\
    @IpEndpoint.parse ascii_char_type t [0] localhost = Some (true, localhost).
Proof.
  apply (@endpoint_text_round_trip ascii_char_type ascii_char_type_laws true localhost 0 [] localhost).
  - apply forall_octets. reflexivity.
  - vm_compute. split; discriminate.
Defined.

Lemma ipv6_format_bounds_witness :
  exists t, Ipv6Address.format 44 false (documentation 3) = Some t /\ t <> [].
Proof.
  refine (proj1 (ipv6_format_bounds false (documentation 3) documentation_is_address _)).
  vm_compute. reflexivity.
Defined.

Definition ipv4 (o0 o1 o2 o3 : Z) : IpAddress.address :=
  IpAddress.V4 {| Ipv4Address.octet0 := o0; Ipv4Address.octet1 := o1;
                  Ipv4Address.octet2 := o2; Ipv4Address.octet3 := o3 |}.

Lemma address_order_witness :
  IpAddress.less (ipv4 10 0 0 1) (ipv4 10 0 1 0) = true /\
  IpAddress.less (ipv4 10 0 0 1) (ipv4 10 1 0 0) = true.
Proof.
  split; [reflexivity|].
  refine (proj1 (address_order (ipv4 10 0 0 1) (ipv4 10 0 1 0) (ipv4 10 1 0 0) _ _ _ _) _ _);
    try reflexivity; apply forall_octets; reflexivity.
Defined.

(** ** Where the code goes wrong *)

(** A colon after the eighth group makes the parser write past the octets. *)
Lemma parse_writes_past_octets :
  @Ipv6Address.parse ascii_char_type (ascii "1:2:3:4:5:6:7:8:") [0] = None.
Proof. reflexivity. Qed.

(** The text of an address in full with a scope of four digits does not fit in
    the buffer of [Ipv6Address::text]. *)
Lemma format_writes_past_buffer : Ipv6Address.text (full 1000) = None.
Proof. reflexivity. Qed.

(** Only the last four digits of a group count, and missing groups are zero. *)
Lemma parse_accepts_malformed :
  @Ipv6Address.parse ascii_char_type (ascii "12345::") [0] =
    Some (true, ipv6 ((35, 69) :: replicate 7 (0, 0)) 0) /\
  @Ipv6Address.parse ascii_char_type (ascii "1:2") [0] =
    Some (true, ipv6 ((0, 1) :: (0, 2) :: replicate 6 (0, 0)) 0).
Proof. done. Qed.

(** A scope of more than 16 bits, and a text of more than 39 characters, are
    written but not parsed back. *)
Lemma text_not_parsed_back :
  (exists t, Ipv6Address.text (documentation 65536) = Some t /\
    @Ipv6Address.parse ascii_char_type t [0] = Some (false, documentation 0)) /\
  (exists t, Ipv6Address.text (full 1) = Some t /\
    @Ipv6Address.parse ascii_char_type t [0] = Some (false, Ipv6Address.any)).
Proof. split; eexists; split; reflexivity. Qed.

(** An empty text and empty parts are accepted as IPv4 addresses. *)
Lemma parse_accepts_empty_parts :
  Ipv4Address.parse [] = Some (true, Ipv4Address.any) /\
  Ipv4Address.parse (ascii "1..2.3") =
    Some (true, {| Ipv4Address.octet0 := 1; Ipv4Address.octet1 := 0;
                   Ipv4Address.octet2 := 2; Ipv4Address.octet3 := 3 |}).
Proof. done. Qed.

(** The text of an endpoint that does not fit ends with the last digits of the
    port in reverse. *)
Lemma endpoint_port_reversed :
  IpEndpoint.text {| IpEndpoint.host := IpAddress.V6 (full 10000); IpEndpoint.port := 12345 |} =
  Some (ascii "[ffff:ffff:ffff:ffff:ffff:ffff:ffff:ffff%10000]:5432").
Proof. reflexivity. Qed.

(** An undefined address is less than itself, and the order of endpoints whose
    addresses have different kinds has a cycle. *)
Lemma less_not_an_order :
  IpAddress.less IpAddress.Undefined IpAddress.Undefined = true /\
  (let e1 := {| IpEndpoint.host := ipv4 2 2 2 2; IpEndpoint.port := 1 |} in
   let e2 := {| IpEndpoint.host := IpAddress.V6 Ipv6Address.loopback; IpEndpoint.port := 2 |} in
   let e3 := {| IpEndpoint.host := ipv4 1 1 1 1; IpEndpoint.port := 3 |} in
   IpEndpoint.less e1 e2 = true /\ IpEndpoint.less e2 e3 = true /\ IpEndpoint.less e3 e1 = true).
Proof. repeat split. Qed.

End AddressTheorems.
