(* ===== verification/DeadlineMap.v ===== *)
(** * Maps from deadlines to timers: the interface

    What [ntcs::Chronology] needs of the container in which it keeps the
    deadlines of its timers (the typedef [DeadlineMap] of
    src/groups/ntc/ntcs/ntcs_chronology.h), as a class of operations with laws.
    The laws state each operation on the list of the pairs in the order of their
    keys: a pair is added or moved after those that have its key.

    The skip list is an implementation (SkipListFacts); the list itself is
    another, the reference. *)

From S2P Require Import Prelude.

Module DeadlineMap.

(** ** Lists of pairs in the order of their keys *)

Section Lists.

Context {D : Type}.

(** A pair: its handle, its key and its data. *)
Abbreviation entry := (nat * (Z * D))%type (only parsing).

Implicit Types (e : entry) (L : list entry).

Definition key_of e : Z := fst (snd e).

Definition entry_le e e' : Prop := key_of e <= key_of e'.

(** Insert a pair after all whose key is not greater. *)
Fixpoint insert_upper e L : list entry :=
  match L with
  | [] => [e]
  | x :: rest => if key_of e <? key_of x then e :: L else x :: insert_upper e rest
  end.

Definition at_front (n : nat) L : bool :=
  match L with [] => false | e :: _ => (fst e =? n)%nat end.

Definition remove_handle (n : nat) L : list entry := filter (fun e => fst e <> n) L.

Definition key_split (key : Z) L L1 L2 : Prop :=
  L = L1 ++ L2 /\ Forall (fun e => key_of e <= key) L1 /\ Forall (fun e => key < key_of e) L2.

Lemma key_split_insert e L L1 L2 : key_split (key_of e) L L1 L2 -> insert_upper e L = L1 ++ e :: L2.
Proof.
  intros (-> & H1 & H2). induction L1 as [|x L1 IH]; cbn [app insert_upper].
  - destruct L2 as [|y L2]; [done|]. apply Forall_inv in H2. cbn [insert_upper]. by rewrite (proj2 (Z.ltb_lt _ _)).
  - apply Forall_cons_iff in H1 as [Hx H1]. rewrite (proj2 (Z.ltb_ge _ _)) by done. by rewrite IH.
Qed.

Lemma key_split_exists key L : StronglySorted entry_le L -> exists L1 L2, key_split key L L1 L2.
Proof.
  induction 1 as [|x L HL IH Hx].
  - exists [], []. split; [done|]. by split; constructor.
  - destruct (Z_lt_le_dec key (key_of x)) as [Hlt|Hge].
    + exists [], (x :: L). split; [done|]. split; [constructor|]. constructor; [done|].
      eapply List.Forall_impl; [|exact Hx]. unfold entry_le. intros. lia.
    + destruct IH as (L1 & L2 & -> & H1 & H2). exists (x :: L1), L2.
      split; [done|]. split; [by constructor|done].
Qed.

Lemma sorted_middle L1 L2 e :
  StronglySorted entry_le (L1 ++ L2) -> Forall (fun x => entry_le x e) L1 -> Forall (entry_le e) L2 ->
  StronglySorted entry_le (L1 ++ e :: L2).
Proof.
  intros Hs H1 H2. induction L1 as [|x L1 IH]; cbn [app] in *; [by constructor|].
  apply StronglySorted_inv in Hs as [Hs Hx]. apply Forall_cons_iff in H1 as [Hxe H1].
  constructor; [by apply IH|]. apply Forall_app in Hx as [Hx1 Hx2]. apply Forall_app. split; [done|].
  by constructor.
Qed.

Lemma key_split_sorted e L L1 L2 :
  StronglySorted entry_le L -> key_split (key_of e) L L1 L2 -> StronglySorted entry_le (L1 ++ e :: L2).
Proof.
  intros Hs (-> & H1 & H2). apply sorted_middle; [done|exact H1|].
  eapply List.Forall_impl; [|exact H2]. unfold entry_le. intros. lia.
Qed.

Lemma insert_upper_split e L :
  StronglySorted entry_le L ->
  exists L1 L2, key_split (key_of e) L L1 L2 /\ insert_upper e L = L1 ++ e :: L2.
Proof.
  intros Hs. destruct (key_split_exists (key_of e) L Hs) as (L1 & L2 & H). exists L1, L2.
  split; [done|]. by apply key_split_insert.
Qed.

Lemma insert_upper_sorted e L : StronglySorted entry_le L -> StronglySorted entry_le (insert_upper e L).
Proof.
  intros Hs. destruct (insert_upper_split e L Hs) as (L1 & L2 & Hsplit & ->). by eapply key_split_sorted.
Qed.

Lemma insert_upper_perm e L : insert_upper e L ≡ₚ e :: L.
Proof.
  induction L as [|x L IH]; [done|]. cbn [insert_upper]. destruct (_ <? _); [done|].
  rewrite IH. constructor.
Qed.

Lemma remove_handle_split n item L1 L2 :
  NoDup (L1 ++ (n, item) :: L2).*1 -> remove_handle n (L1 ++ (n, item) :: L2) = L1 ++ L2.
Proof.
  intros Hnd. unfold remove_handle. rewrite fmap_app, fmap_cons in Hnd.
  assert (forall L, n ∉ L.*1 -> filter (fun e => fst e <> n) L = L) as Hid.
  { induction L as [|e L IH]; [done|]. cbn [fmap list_fmap]. rewrite not_elem_of_cons. intros [He HL].
    rewrite filter_cons_True by congruence. by rewrite IH. }
  rewrite <- Permutation_middle in Hnd. apply list.NoDup_cons in Hnd as [Hn _].
  rewrite not_elem_of_app in Hn. rewrite list.filter_app, filter_cons_False by (cbn; tauto).
  by rewrite !Hid by tauto.
Qed.

End Lists.

(** ** The interface *)

Class Operations (D M : Type) := {
  dm_addL : Z -> D -> M -> option (nat * bool * M);
  dm_addR : Z -> D -> M -> option (nat * bool * M);
  dm_updateR : nat -> Z -> M -> option (option bool * M);
  dm_remove : nat -> M -> option (bool * M);
  dm_removeAll : M -> option (nat * M);
  dm_front : M -> option (option nat);
  dm_skipForward : M -> nat -> option (option (option nat));
  dm_isEmpty : M -> option bool;
  dm_length : M -> nat;
  dm_key : M -> nat -> option Z;
  dm_data : M -> nat -> option D;
}.

Class Laws (D M : Type) `{Operations D M} := {
  models : M -> list (nat * (Z * D)) -> Prop;
  models_sorted : forall m L, models m L -> StronglySorted entry_le L;
  models_nodup : forall m L, models m L -> NoDup L.*1;
  addL_law : forall m L k d, models m L -> exists n m',
    let L' := insert_upper (n, (k, d)) L in
    dm_addL k d m = Some (n, at_front n L', m') /\ models m' L' /\ n ∉ L.*1;
  addR_law : forall m L k d, models m L -> exists n m',
    let L' := insert_upper (n, (k, d)) L in
    dm_addR k d m = Some (n, at_front n L', m') /\ models m' L' /\ n ∉ L.*1;
  updateR_law : forall m L1 n k0 d L2 k, models m (L1 ++ (n, (k0, d)) :: L2) -> exists m',
    let L' := insert_upper (n, (k, d)) (L1 ++ L2) in
    dm_updateR n k m = Some (Some (at_front n L'), m') /\ models m' L';
  remove_law : forall m L1 n item L2, models m (L1 ++ (n, item) :: L2) -> exists m',
    dm_remove n m = Some (true, m') /\ models m' (L1 ++ L2);
  removeAll_law : forall m L, models m L -> exists m',
    dm_removeAll m = Some (length L, m') /\ models m' [];
  front_law : forall m L, models m L -> dm_front m = Some (fst <$> head L);
  skipForward_law : forall m L1 e L2, models m (L1 ++ e :: L2) ->
    dm_skipForward m (fst e) = Some (Some (fst <$> head L2));
  isEmpty_law : forall m L, models m L -> dm_isEmpty m = Some (match L with [] => true | _ => false end);
  length_law : forall m L, models m L -> dm_length m = length L;
  key_law : forall m L1 n item L2, models m (L1 ++ (n, item) :: L2) -> dm_key m n = Some (fst item);
  data_law : forall m L1 n item L2, models m (L1 ++ (n, item) :: L2) -> dm_data m n = Some (snd item);
}.

End DeadlineMap.

(** ** The reference implementation *)

Module ListMap.

Import DeadlineMap.

Section Map.

Context {D : Type}.

(** The pairs in order, and the next handle. *)
Record t : Type := { entries : list (nat * (Z * D)); fresh : nat }.

Definition add (k : Z) (d : D) (m : t) : option (nat * bool * t) :=
  let n := fresh m in
  let L := insert_upper (n, (k, d)) (entries m) in
  Some (n, at_front n L, {| entries := L; fresh := S n |}).

Definition item (m : t) (n : nat) : option (Z * D) := snd <$> find (fun e => (fst e =? n)%nat) (entries m).

Definition update (n : nat) (k : Z) (m : t) : option (option bool * t) :=
  it ← item m n;
  let L := insert_upper (n, (k, snd it)) (remove_handle n (entries m)) in
  Some (Some (at_front n L), {| entries := L; fresh := fresh m |}).

Definition delete (n : nat) (m : t) : option (bool * t) :=
  _ ← item m n;
  Some (true, {| entries := remove_handle n (entries m); fresh := fresh m |}).

Fixpoint after (n : nat) (L : list (nat * (Z * D))) : option (option nat) :=
  match L with
  | [] => None
  | e :: L => if (fst e =? n)%nat then Some (fst <$> head L) else after n L
  end.

#[export] Instance operations : Operations D t := {
  dm_addL := add;
  dm_addR := add;
  dm_updateR := update;
  dm_remove := delete;
  dm_removeAll m := Some (length (entries m), {| entries := []; fresh := fresh m |});
  dm_front m := Some (fst <$> head (entries m));
  dm_skipForward m n := Some <$> after n (entries m);
  dm_isEmpty m := Some (match entries m with [] => true | _ => false end);
  dm_length m := length (entries m);
  dm_key m n := fst <$> item m n;
  dm_data m n := snd <$> item m n;
}.

Definition empty : t := {| entries := []; fresh := 2%nat |}.

(** ** The laws *)

Definition valid (m : t) (L : list (nat * (Z * D))) : Prop :=
  entries m = L /\ StronglySorted entry_le L /\ NoDup L.*1 /\ Forall (fun n => n < fresh m)%nat L.*1.

Lemma fresh_not_in m L : valid m L -> fresh m ∉ L.*1.
Proof. intros (_ & _ & _ & Hf) Hin. rewrite list.Forall_forall in Hf. specialize (Hf _ Hin). cbn in Hf. lia. Qed.

Lemma add_valid k d m L :
  valid m L -> exists m', let L' := insert_upper (fresh m, (k, d)) L in
    add k d m = Some (fresh m, at_front (fresh m) L', m') /\ valid m' L' /\ fresh m' = S (fresh m).
Proof.
  intros H. pose proof (fresh_not_in m L H) as Hn. destruct H as (<- & Hs & Hnd & Hf).
  unfold add. eexists. split; [done|]. split; [|done]. split; [done|]. cbn [fresh entries].
  split; [by apply insert_upper_sorted|]. rewrite insert_upper_perm. cbn [fmap list_fmap fst].
  split; [by constructor|]. constructor; [lia|]. eapply List.Forall_impl; [|exact Hf]. cbn. lia.
Qed.

Lemma item_find m L1 n it L2 : valid m (L1 ++ (n, it) :: L2) -> item m n = Some it.
Proof.
  intros (E & _ & Hnd & _). unfold item. rewrite E. clear E. rewrite fmap_app, fmap_cons in Hnd. cbn [fst] in Hnd.
  induction L1 as [|e L1 IH]; cbn [app find fst]; [by rewrite Nat.eqb_refl|].
  cbn [fmap list_fmap app] in Hnd. apply list.NoDup_cons in Hnd as [He Hnd].
  rewrite (proj2 (Nat.eqb_neq _ _)); [by apply IH|]. intros E. apply He. rewrite E, elem_of_app. right. by left.
Qed.

Lemma valid_removed m L1 n it L2 :
  valid m (L1 ++ (n, it) :: L2) -> valid {| entries := L1 ++ L2; fresh := fresh m |} (L1 ++ L2).
Proof.
  intros (_ & Hs & Hnd & Hf). split; [done|]. split; [by eapply StronglySorted_remove|].
  rewrite fmap_app, fmap_cons in *. cbn [fresh fst] in *. rewrite <- Permutation_middle in Hnd, Hf.
  apply list.NoDup_cons in Hnd as [_ ?]. by apply Forall_cons_iff in Hf as [_ ?].
Qed.

Lemma delete_valid m L1 n it L2 :
  valid m (L1 ++ (n, it) :: L2) -> exists m', delete n m = Some (true, m') /\ valid m' (L1 ++ L2) /\ fresh m' = fresh m.
Proof.
  intros H. unfold delete. rewrite (item_find _ _ _ _ _ H). cbn [mbind option_bind]. pose proof H as (E & _ & Hnd & _).
  rewrite E, (remove_handle_split n it) by done. eexists. split; [done|]. split; [|done]. by eapply valid_removed.
Qed.

Lemma update_valid m L1 n k0 d L2 k :
  valid m (L1 ++ (n, (k0, d)) :: L2) -> exists m', let L' := insert_upper (n, (k, d)) (L1 ++ L2) in
    update n k m = Some (Some (at_front n L'), m') /\ valid m' L' /\ fresh m' = fresh m.
Proof.
  intros H. unfold update. rewrite (item_find _ _ _ _ _ H). cbn [mbind option_bind snd]. pose proof H as (E & _ & Hnd & Hf).
  rewrite E, (remove_handle_split n (k0, d)) by done. eexists. split; [done|]. split; [|done]. split; [done|].
  pose proof (valid_removed _ _ _ _ _ H) as (_ & Hs & _). split; [by apply insert_upper_sorted|].
  rewrite insert_upper_perm. rewrite !fmap_app, fmap_cons in *. rewrite fmap_app. cbn [fst fresh] in *.
  by rewrite <- Permutation_middle in Hnd, Hf.
Qed.

Lemma after_valid m L1 e L2 : valid m (L1 ++ e :: L2) -> after (fst e) (L1 ++ e :: L2) = Some (fst <$> head L2).
Proof.
  intros (_ & _ & Hnd & _). rewrite fmap_app, fmap_cons in Hnd.
  induction L1 as [|x L1 IH]; cbn [app after]; [by rewrite Nat.eqb_refl|].
  cbn [fmap list_fmap app] in Hnd. apply list.NoDup_cons in Hnd as [Hx Hnd].
  rewrite (proj2 (Nat.eqb_neq _ _)); [by apply IH|]. intros E. apply Hx. rewrite E, elem_of_app. right. by left.
Qed.

#[export] Instance laws : Laws D t.
Proof.
  refine {| models := valid |}; intros m; cbn [dm_addL dm_addR dm_updateR dm_remove dm_removeAll dm_front
    dm_skipForward dm_isEmpty dm_length dm_key dm_data operations].
  - by intros L (_ & ? & _).
  - by intros L (_ & _ & ? & _).
  - intros L k d H. destruct (add_valid k d m L H) as (m' & ? & ? & _). exists (fresh m), m'.
    split; [done|]. split; [done|]. by apply fresh_not_in.
  - intros L k d H. destruct (add_valid k d m L H) as (m' & ? & ? & _). exists (fresh m), m'.
    split; [done|]. split; [done|]. by apply fresh_not_in.
  - intros L1 n k0 d L2 k H. destruct (update_valid m L1 n k0 d L2 k H) as (m' & ? & ? & _). by exists m'.
  - intros L1 n it L2 H. destruct (delete_valid m L1 n it L2 H) as (m' & ? & ? & _). by exists m'.
  - intros L (<- & _). eexists. split; [done|]. split; [done|]. split; [constructor|]. split; constructor.
  - by intros L (<- & _).
  - intros L1 e L2 H. pose proof H as (-> & _). by rewrite (after_valid m).
  - by intros L (<- & _).
  - by intros L (<- & _).
  - intros L1 n it L2 H. by rewrite (item_find _ _ _ _ _ H).
  - intros L1 n it L2 H. by rewrite (item_find _ _ _ _ _ H).
Defined.

Lemma empty_models : models empty [].
Proof. split; [done|]. split; [constructor|]. split; constructor. Qed.

End Map.

Arguments t : clear implicits.

End ListMap.
