(* ===== verification/SkipList.v ===== *)
(** * The skip list of deadlines

    Models [ntcs::SkipList] (src/groups/ntc/ntcs/ntcs_skiplist.h) and its
    generator of levels (ntcs_skiplist.cpp), with which a chronology orders its
    timers.

    The nodes live in a store: a node has a level, a key, its data and, for each
    level up to its own, the addresses of the next and the previous node.  A read
    or a write through a null pointer, past a node's levels or of a node that was
    released is [None], as is a failed assertion.  Addresses are not used again in
    the model.  The head and the tail have every level and neither key nor data.

    The loops along a level have fuel for one more node than the list has. *)

From stdpp Require Import gmap.
From S2P Require Import Prelude.

(** What the list needs of its generator. *)
Class LevelGenerator (G : Type) := { randomLevel : G -> nat * G }.

Class LevelGeneratorLaws (G : Type) `{LevelGenerator G} : Prop := {
  randomLevel_max : forall g, (fst (randomLevel g) <= 31)%nat;
}.

Module RandomLevel.

(** [bdlb::Random::generate15]: a number of 15 bits and the next seed. *)
Class Random15 := { generate15 : Z -> Z * Z }.

Section Generator.

Context {R : Random15}.

Record generator : Set := { d_seed : Z; d_randomBits : Z }.

Definition init : generator := {| d_seed := 0x12b9b0a1; d_randomBits := 1 |}.

(** [if (1 == d_randomBits)]: new bits and the sentinel. *)
Definition regenerate (g : generator) : option generator :=
  if d_randomBits g =? 1 then
    let '(bits, seed) := generate15 (d_seed g) in
    assert! Z.shiftr bits 15 =? 0 ;;
    Some {| d_seed := seed; d_randomBits := Z.lor bits (Z.shiftl 1 14) |}
  else Some g.

(** The loop: it ends at the first pair of bits that is not zero. *)
Fixpoint randomLevel_loop (fuel : nat) (level : nat) (g : generator) : option (nat * generator) :=
  match fuel with
  | O => None
  | S fuel =>
      g ← regenerate g;
      let b := Z.land (d_randomBits g) 3 in
      let g := {| d_seed := d_seed g; d_randomBits := Z.shiftr (d_randomBits g) 2 |} in
      let level := if b =? 0 then S level else level in
      if b =? 0 then randomLevel_loop fuel level g else Some (level, g)
  end.

Definition randomLevel (fuel : nat) (g : generator) : option (nat * generator) :=
  '(level, g) ← randomLevel_loop fuel 0 g;
  Some (if (31 <? level)%nat then 31%nat else level, g).

Lemma randomLevel_bounded fuel g level g' :
  randomLevel fuel g = Some (level, g') -> (level <= 31)%nat.
Proof.
  unfold randomLevel. destruct (randomLevel_loop fuel 0 g) as [[l g1]|]; [|done].
  cbn [mbind option_bind]. intros [= <- _]. destruct (31 <? l)%nat eqn:E; [done|]. apply Nat.ltb_ge in E. done.
Qed.

End Generator.

End RandomLevel.

Module SkipList.

(** An address: those of the head and the tail are fixed. *)
Abbreviation address := nat (only parsing).

Section List.

Context {D G : Type} {LG : LevelGenerator G}.

Definition k_MAX_LEVEL : nat := 31.

(** [d_head_p] and [d_tail_p]. *)
Definition head : address := 0%nat.

Definition tail : address := 1%nat.

(** The members of the nodes, by address and level. *)
Record store : Type := {
  d_level : gmap address nat;
  d_item : gmap address (Z * D);
  d_next_p : gmap (address * nat) (option address);
  d_prev_p : gmap (address * nat) (option address);
  d_fresh : address;
}.

Record t : Type := {
  d_rand : G;
  d_listLevel : nat;
  d_length : nat;
  d_nodes : store;
}.

(** ** The store *)

Definition get_next (h : store) (n : address) (k : nat) : option address :=
  p ← d_next_p h !! (n, k); p.

Definition get_prev (h : store) (n : address) (k : nat) : option address :=
  p ← d_prev_p h !! (n, k); p.

Definition get_key (h : store) (n : address) : option Z := fst <$> d_item h !! n.

Definition set_next (h : store) (n : address) (k : nat) (p : option address) : option store :=
  assert! bool_decide (is_Some (d_next_p h !! (n, k))) ;;
  Some {| d_level := d_level h; d_item := d_item h; d_next_p := <[(n, k) := p]> (d_next_p h);
          d_prev_p := d_prev_p h; d_fresh := d_fresh h |}.

Definition set_prev (h : store) (n : address) (k : nat) (p : option address) : option store :=
  assert! bool_decide (is_Some (d_prev_p h !! (n, k))) ;;
  Some {| d_level := d_level h; d_item := d_item h; d_next_p := d_next_p h;
          d_prev_p := <[(n, k) := p]> (d_prev_p h); d_fresh := d_fresh h |}.

(** The pointers of the first [count] levels of a new node. *)
Fixpoint new_pointers (n : address) (count : nat) (m : gmap (address * nat) (option address))
  : gmap (address * nat) (option address) :=
  match count with
  | O => m
  | S count => <[(n, count) := None]> (new_pointers n count m)
  end.

Fixpoint free_pointers (n : address) (count : nat) (m : gmap (address * nat) (option address))
  : gmap (address * nat) (option address) :=
  match count with
  | O => m
  | S count => delete (n, count) (free_pointers n count m)
  end.

(** [allocateNode], [level] being the level drawn. *)
Definition allocateNode (listLevel level : nat) (key : Z) (data : D) (h : store)
  : address * store :=
  let level := if (listLevel <? level)%nat then S listLevel else level in
  let n := d_fresh h in
  (n, {| d_level := <[n := level]> (d_level h); d_item := <[n := (key, data)]> (d_item h);
         d_next_p := new_pointers n (S level) (d_next_p h);
         d_prev_p := new_pointers n (S level) (d_prev_p h);
         d_fresh := S n |}).

Definition releaseNode (h : store) (n : address) : option store :=
  assert! bool_decide (d_next_p h !! (n, 0%nat) = Some None) ;;
  level ← d_level h !! n;
  Some {| d_level := delete n (d_level h); d_item := delete n (d_item h);
          d_next_p := free_pointers n (S level) (d_next_p h);
          d_prev_p := free_pointers n (S level) (d_prev_p h);
          d_fresh := d_fresh h |}.

(** The loop of [initialize] over the levels of the head and the tail. *)
Fixpoint initialize_loop (count : nat) (h : store) : store :=
  match count with
  | O => h
  | S k =>
      let h := initialize_loop k h in
      {| d_level := d_level h; d_item := d_item h;
         d_next_p := <[(tail, k) := None]> (<[(head, k) := Some tail]> (d_next_p h));
         d_prev_p := <[(tail, k) := Some head]> (<[(head, k) := None]> (d_prev_p h));
         d_fresh := d_fresh h |}
  end.

Definition initialize (g : G) : t :=
  {| d_rand := g; d_listLevel := 0; d_length := 0;
     d_nodes := initialize_loop (S k_MAX_LEVEL)
       {| d_level := <[tail := k_MAX_LEVEL]> (<[head := k_MAX_LEVEL]> ∅); d_item := ∅;
          d_next_p := ∅; d_prev_p := ∅; d_fresh := 2%nat |} |}.

(** ** Searching *)

(** The inner loop of [lookupImpUpperBoundR], from the node [q]. *)
Fixpoint walk_R (fuel : nat) (h : store) (key : Z) (k : nat) (q : address) : option address :=
  match fuel with
  | O => None
  | S fuel =>
      p ← get_prev h q k;
      if (p =? head)%nat then Some q
      else
        key_p ← get_key h p;
        if key <? key_p then walk_R fuel h key k p else Some q
  end.

(** [lookupImpUpperBoundR] from level [k] down: the location, from level zero. *)
Fixpoint lookup_R (fuel : nat) (h : store) (key : Z) (k : nat) (q : address) (location : list address)
  : option (list address) :=
  q ← walk_R fuel h key k q;
  match k with
  | O => Some (q :: location)
  | S k => lookup_R fuel h key k q (q :: location)
  end.

Definition lookupImpUpperBoundR (l : t) (key : Z) : option (list address) :=
  lookup_R (S (d_length l)) (d_nodes l) key (d_listLevel l) tail [].

(** The inner loop of [lookupImpUpperBoundL], from the node [p]. *)
Fixpoint walk_L (fuel : nat) (h : store) (key : Z) (k : nat) (p : address)
  : option (address * address) :=
  match fuel with
  | O => None
  | S fuel =>
      q ← get_next h p k;
      if (q =? tail)%nat then Some (p, q)
      else
        key_q ← get_key h q;
        if key <? key_q then Some (p, q) else walk_L fuel h key k q
  end.

Fixpoint lookup_L (fuel : nat) (h : store) (key : Z) (k : nat) (p : address) (location : list address)
  : option (list address) :=
  '(p, q) ← walk_L fuel h key k p;
  match k with
  | O => Some (q :: location)
  | S k => lookup_L fuel h key k p (q :: location)
  end.

Definition lookupImpUpperBoundL (l : t) (key : Z) : option (list address) :=
  lookup_L (S (d_length l)) (d_nodes l) key (d_listLevel l) head [].

(** ** Inserting *)

(** Put a node between two others at a level. *)
Definition link (h : store) (node : address) (k : nat) (p q : address) : option store :=
  h ← set_prev h node k (Some p);
  h ← set_next h node k (Some q);
  h ← set_next h p k (Some node);
  set_prev h q k (Some node).

(** The loop of [insertImp] over the [count] lowest levels. *)
Fixpoint insert_loop (h : store) (location : list address) (node : address) (count : nat)
  : option store :=
  match count with
  | O => Some h
  | S k =>
      q ← location !! k;
      p ← get_prev h q k;
      h ← link h node k p q;
      insert_loop h location node k
  end.

(** [*newFrontFlag]. *)
Definition is_front (h : store) (node : address) : option bool :=
  p ← get_prev h node 0;
  Some (p =? head)%nat.

Definition insertImp (l : t) (location : list address) (node : address) : option (bool * t) :=
  level ← d_level (d_nodes l) !! node;
  '(listLevel, h) ←
    (if (d_listLevel l <? level)%nat then
       assert! (level =? S (d_listLevel l))%nat ;;
       h ← link (d_nodes l) node level head tail;
       h ← insert_loop h location node level;
       Some (level, h)
     else
       h ← insert_loop (d_nodes l) location node (S level);
       Some (d_listLevel l, h));
  newFrontFlag ← is_front h node;
  Some (newFrontFlag,
        {| d_rand := d_rand l; d_listLevel := listLevel; d_length := S (d_length l); d_nodes := h |}).

(** [addL] and [addR]: the pair added, and whether it is at the front. *)
Definition add (lookup : t -> Z -> option (list address)) (key : Z) (data : D) (l : t)
  : option (address * bool * t) :=
  let '(level, g) := randomLevel (d_rand l) in
  let '(node, h) := allocateNode (d_listLevel l) level key data (d_nodes l) in
  let l := {| d_rand := g; d_listLevel := d_listLevel l; d_length := d_length l; d_nodes := h |} in
  assert! bool_decide (d_next_p h !! (node, 0%nat) = Some None) ;;
  location ← lookup l key;
  '(newFrontFlag, l) ← insertImp l location node;
  Some (node, newFrontFlag, l).

Definition addL : Z -> D -> t -> option (address * bool * t) := add lookupImpUpperBoundL.

Definition addR : Z -> D -> t -> option (address * bool * t) := add lookupImpUpperBoundR.

(** ** Moving *)

(** The loop of [moveImp] from level [k] over [count] levels. *)
Fixpoint move_loop (h : store) (location : list address) (node : address) (k count : nat)
  : option store :=
  match count with
  | O => Some h
  | S count =>
      newQ ← location !! k;
      newP ← get_prev h newQ k;
      if (newP =? node)%nat || (newQ =? node)%nat then Some h
      else
        oldP ← get_prev h node k;
        oldQ ← get_next h node k;
        h ← set_prev h oldQ k (Some oldP);
        h ← set_next h oldP k (Some oldQ);
        h ← link h node k newP newQ;
        move_loop h location node (S k) count
  end.

Definition moveImp (l : t) (location : list address) (node : address) : option (bool * t) :=
  level ← d_level (d_nodes l) !! node;
  assert! (level <=? d_listLevel l)%nat ;;
  h ← move_loop (d_nodes l) location node 0 (S level);
  newFrontFlag ← is_front h node;
  Some (newFrontFlag,
        {| d_rand := d_rand l; d_listLevel := d_listLevel l; d_length := d_length l; d_nodes := h |}).

Definition set_key (h : store) (n : address) (key : Z) : option store :=
  item ← d_item h !! n;
  Some {| d_level := d_level h; d_item := <[n := (key, snd item)]> (d_item h);
          d_next_p := d_next_p h; d_prev_p := d_prev_p h; d_fresh := d_fresh h |}.

(** [updateR]: [None] in the result is [e_NOT_FOUND]. *)
Definition updateR (node : address) (newKey : Z) (l : t) : option (option bool * t) :=
  p ← d_next_p (d_nodes l) !! (node, 0%nat);
  match p with
  | None => Some (None, l)
  | Some _ =>
      location ← lookupImpUpperBoundR l newKey;
      h ← set_key (d_nodes l) node newKey;
      '(newFrontFlag, l) ←
        moveImp {| d_rand := d_rand l; d_listLevel := d_listLevel l; d_length := d_length l;
                   d_nodes := h |} location node;
      Some (Some newFrontFlag, l)
  end.

(** ** Removing *)

Definition unlink (h : store) (node : address) (k : nat) : option store :=
  p ← get_prev h node k;
  q ← get_next h node k;
  h ← set_prev h q k (Some p);
  set_next h p k (Some q).

(** The loop of [removeNode] over the [count] lowest levels. *)
Fixpoint remove_loop (h : store) (node : address) (count : nat) : option store :=
  match count with
  | O => Some h
  | S k =>
      h ← unlink h node k;
      remove_loop h node k
  end.

(** [remove]: whether the pair was in the list. *)
Definition remove (node : address) (l : t) : option (bool * t) :=
  p ← d_next_p (d_nodes l) !! (node, 0%nat);
  match p with
  | None => Some (false, l)
  | Some _ =>
      level ← d_level (d_nodes l) !! node;
      h ← remove_loop (d_nodes l) node (S level);
      h ← set_next h node 0 None;
      h ← releaseNode h node;
      Some (true, {| d_rand := d_rand l; d_listLevel := d_listLevel l;
                     d_length := pred (d_length l); d_nodes := h |})
  end.

(** The loops of [removeAll]: over the levels, to mark the nodes and to release
    them, from the node [q] backwards. *)
Fixpoint reset_levels (h : store) (count : nat) : option store :=
  match count with
  | O => Some h
  | S k =>
      h ← reset_levels h k;
      h ← set_next h head k (Some tail);
      set_prev h tail k (Some head)
  end.

Fixpoint mark_loop (fuel : nat) (h : store) (q : address) : option store :=
  if (q =? head)%nat then Some h
  else match fuel with
  | O => None
  | S fuel =>
      h ← set_next h q 0 None;
      q ← get_prev h q 0;
      mark_loop fuel h q
  end.

Fixpoint release_loop (fuel : nat) (h : store) (q : address) : option store :=
  if (q =? head)%nat then Some h
  else match fuel with
  | O => None
  | S fuel =>
      let condemned := q in
      q ← get_prev h q 0;
      h ← releaseNode h condemned;
      release_loop fuel h q
  end.

Definition removeAll (l : t) : option (nat * t) :=
  last ← get_prev (d_nodes l) tail 0;
  h ← reset_levels (d_nodes l) (S (d_listLevel l));
  h ← mark_loop (d_length l) h last;
  h ← release_loop (d_length l) h last;
  Some (d_length l, {| d_rand := d_rand l; d_listLevel := 0; d_length := 0; d_nodes := h |}).

(** ** Access *)

Definition front (l : t) : option (option address) :=
  n ← get_next (d_nodes l) head 0;
  Some (if (n =? tail)%nat then None else Some n).

Definition isEmpty (l : t) : option bool :=
  n ← get_next (d_nodes l) head 0;
  Some (n =? tail)%nat.

(** [skipForward]: the next pair, none at the end; the outer [None] of the
    result is [e_NOT_FOUND]. *)
Definition skipForward (l : t) (current : address) : option (option (option address)) :=
  assert! negb (current =? head)%nat ;;
  assert! negb (current =? tail)%nat ;;
  p ← d_next_p (d_nodes l) !! (current, 0%nat);
  Some (match p with
        | None => None
        | Some next => Some (if (next =? tail)%nat then None else Some next)
        end).

(** ** [checkInvariants] *)

(** The pointers of the [count] lowest levels of a node. *)
Fixpoint check_pointers (h : store) (q : address) (count : nat) : option unit :=
  match count with
  | O => Some tt
  | S k =>
      _ ← get_next h q k;
      _ ← get_prev h q k;
      check_pointers h q k
  end.

(** The loop along a level: the number of its nodes. *)
Fixpoint check_level (fuel : nat) (h : store) (listLevel k : nat) (previous q : address)
    (numNodes : nat) : option nat :=
  if (q =? tail)%nat then Some numNodes
  else match fuel with
  | O => None
  | S fuel =>
      p ← get_prev h q k;
      assert! (p =? previous)%nat ;;
      level ← d_level h !! q;
      assert! (k <=? level)%nat ;;
      assert! (level <=? listLevel)%nat ;;
      _ ← check_pointers h q k;
      next ← get_next h q k;
      check_level fuel h listLevel k q next (S numNodes)
  end.

Fixpoint check_levels (l : t) (count : nat) : option unit :=
  match count with
  | O => Some tt
  | S k =>
      _ ← check_levels l k;
      first ← get_next (d_nodes l) head k;
      numNodes ← check_level (d_length l) (d_nodes l) (d_listLevel l) k head first 0;
      assert! (numNodes <=? d_length l)%nat ;;
      assert! negb (k =? 0)%nat || (numNodes =? d_length l)%nat ;;
      assert! bool_decide (d_prev_p (d_nodes l) !! (head, k) = Some None) ;;
      assert! bool_decide (d_next_p (d_nodes l) !! (tail, k) = Some None) ;;
      Some tt
  end.

Definition checkInvariants (l : t) : option unit := check_levels l (S (d_listLevel l)).

End List.

Arguments t : clear implicits.
Arguments store : clear implicits.

End SkipList.
