(* ===== verification/SkipListFacts.v ===== *)
(** * The skip list implements a sorted list

    The invariant of [SkipList]: the nodes of each level are doubly linked
    between the head and the tail in the order of the list, which is the order of
    their keys.  Every operation succeeds, keeps it and does what its counterpart
    on the list of the pairs does. *)

From stdpp Require Import gmap.
From S2P Require Import Prelude DeadlineMap SkipList.

Module SkipListFacts.

Import DeadlineMap SkipList.

Section Facts.

Context {D G : Type} {LG : LevelGenerator G}.

Implicit Types (h : store D) (l : t D G) (n p q : address) (k : nat).

Ltac mem :=
  rewrite ?elem_of_app, ?elem_of_cons, ?elem_of_app, ?list_elem_of_singleton in *; tauto.

(** ** Nodes linked at a level *)

(** Consecutive nodes point at each other. *)
Fixpoint linked h k (ns : list address) : Prop :=
  match ns with
  | a :: (b :: _) as rest =>
      d_next_p h !! (a, k) = Some (Some b) /\ d_prev_p h !! (b, k) = Some (Some a) /\ linked h k rest
  | _ => True
  end.

Lemma linked_app h k A x B : linked h k (A ++ x :: B) <-> linked h k (A ++ [x]) /\ linked h k (x :: B).
Proof.
  induction A as [|a A IH].
  - cbn [app]. split; [intros ?; by split|by intros [_ ?]].
  - destruct A as [|b A].
    + cbn [app linked] in *. tauto.
    + cbn [app] in *. cbn [linked]. rewrite IH. tauto.
Qed.

Lemma linked_pair h k A p q B :
  linked h k (A ++ p :: q :: B) <->
  linked h k (A ++ [p]) /\ d_next_p h !! (p, k) = Some (Some q) /\
  d_prev_p h !! (q, k) = Some (Some p) /\ linked h k (q :: B).
Proof. rewrite linked_app. cbn [linked]. tauto. Qed.

(** The pointers that matter: the next ones of all nodes but the last, the
    previous ones of all but the first. *)
Lemma linked_frame_left h h' k A p :
  (forall x, x ∈ A -> d_next_p h' !! (x, k) = d_next_p h !! (x, k)) ->
  (forall x, x ∈ A ++ [p] -> d_prev_p h' !! (x, k) = d_prev_p h !! (x, k)) ->
  linked h k (A ++ [p]) -> linked h' k (A ++ [p]).
Proof.
  induction A as [|a A IH]; intros Hn Hp Hl; [done|].
  destruct A as [|b A]; cbn [app linked] in *.
  - destruct Hl as (H1 & H2 & _). rewrite Hn, Hp by repeat constructor. done.
  - destruct Hl as (H1 & H2 & H3). rewrite Hn, Hp by repeat constructor. split; [done|]. split; [done|].
    apply IH; [|intros x Hx; apply Hp; by right|done]. intros x Hx. apply Hn. by right.
Qed.

Lemma linked_frame_right h h' k q B :
  (forall x, x ∈ q :: B -> d_next_p h' !! (x, k) = d_next_p h !! (x, k)) ->
  (forall x, x ∈ B -> d_prev_p h' !! (x, k) = d_prev_p h !! (x, k)) ->
  linked h k (q :: B) -> linked h' k (q :: B).
Proof.
  revert q. induction B as [|b B IH]; intros q Hn Hp Hl; [done|].
  cbn [linked] in *. destruct Hl as (H1 & H2 & H3). rewrite Hn, Hp by repeat constructor.
  split; [done|]. split; [done|]. apply IH; [|intros x Hx; apply Hp; by right|done].
  intros x Hx. apply Hn. by right.
Qed.

(** What an update of the pointers at one level leaves alone. *)
Record same_nodes h h' : Prop := {
  sn_level : d_level h' = d_level h;
  sn_item : d_item h' = d_item h;
  sn_fresh : d_fresh h' = d_fresh h;
  sn_next : forall x k, is_Some (d_next_p h !! (x, k)) <-> is_Some (d_next_p h' !! (x, k));
  sn_prev : forall x k, is_Some (d_prev_p h !! (x, k)) <-> is_Some (d_prev_p h' !! (x, k));
}.

Lemma same_nodes_refl h : same_nodes h h.
Proof. by split. Qed.

Lemma same_nodes_trans h1 h2 h3 : same_nodes h1 h2 -> same_nodes h2 h3 -> same_nodes h1 h3.
Proof.
  intros [] []. split; try congruence; intros x k.
  - by rewrite sn_next0.
  - by rewrite sn_prev0.
Qed.

Definition next_but h h' (P : address -> nat -> Prop) : Prop :=
  forall x k, ~ P x k -> d_next_p h' !! (x, k) = d_next_p h !! (x, k).

Definition prev_but h h' (P : address -> nat -> Prop) : Prop :=
  forall x k, ~ P x k -> d_prev_p h' !! (x, k) = d_prev_p h !! (x, k).

Lemma set_next_spec h n k (p : option address) :
  is_Some (d_next_p h !! (n, k)) ->
  exists h', set_next h n k p = Some h' /\ same_nodes h h' /\ d_next_p h' !! (n, k) = Some p /\
    next_but h h' (fun x k' => x = n /\ k' = k) /\ prev_but h h' (fun _ _ => False).
Proof.
  intros Hs. unfold set_next. rewrite bool_decide_true by done. eexists. split; [done|]. split; [|split; [|split]].
  - split; try done. cbn. intros x k'. destruct (decide ((x, k') = (n, k))) as [[= -> ->]|].
    + rewrite lookup_insert_eq. split; [by eexists|done].
    + by rewrite lookup_insert_ne.
  - cbn. by rewrite lookup_insert_eq.
  - intros x k' Hx. cbn. rewrite lookup_insert_ne; [done|]. intros [= -> ->]. by apply Hx.
  - done.
Qed.

Lemma set_prev_spec h n k (p : option address) :
  is_Some (d_prev_p h !! (n, k)) ->
  exists h', set_prev h n k p = Some h' /\ same_nodes h h' /\ d_prev_p h' !! (n, k) = Some p /\
    prev_but h h' (fun x k' => x = n /\ k' = k) /\ next_but h h' (fun _ _ => False).
Proof.
  intros Hs. unfold set_prev. rewrite bool_decide_true by done. eexists. split; [done|]. split; [|split; [|split]].
  - split; try done. cbn. intros x k'. destruct (decide ((x, k') = (n, k))) as [[= -> ->]|].
    + rewrite lookup_insert_eq. split; [by eexists|done].
    + by rewrite lookup_insert_ne.
  - cbn. by rewrite lookup_insert_eq.
  - intros x k' Hx. cbn. rewrite lookup_insert_ne; [done|]. intros [= -> ->]. by apply Hx.
  - done.
Qed.

(** ** Linking and unlinking *)

(** What linking and unlinking nodes at the levels of [P] leaves alone: the other
    levels, and at these the previous pointer of the head and the next one of the
    tail. *)
Record touches (P : nat -> Prop) h h' : Prop := {
  lo_same : same_nodes h h';
  lo_next : next_but h h' (fun x k' => P k' /\ x <> tail);
  lo_prev : prev_but h h' (fun x k' => P k' /\ x <> head);
}.

Definition level_only k : store D -> store D -> Prop := touches (fun k' => k' = k).

Lemma touches_refl P h : touches P h h.
Proof. split; [apply same_nodes_refl|done|done]. Qed.

Lemma touches_trans P h1 h2 h3 : touches P h1 h2 -> touches P h2 h3 -> touches P h1 h3.
Proof.
  intros [S1 N1 P1] [S2 N2 P2]. split; [by eapply same_nodes_trans|..]; intros x k Hx.
  - by rewrite N2, N1.
  - by rewrite P2, P1.
Qed.

Lemma touches_weaken (P Q : nat -> Prop) h h' : (forall k, P k -> Q k) -> touches P h h' -> touches Q h h'.
Proof. intros HPQ [S N Pr]. split; [done|..]; intros x k Hx; [apply N|apply Pr]; intuition auto. Qed.

Lemma linked_touches P k h h' ns : touches P h h' -> ~ P k -> linked h k ns -> linked h' k ns.
Proof.
  intros [_ Hn Hp] Hk. destruct ns as [|a ns]; [done|]. apply linked_frame_right.
  - intros x _. apply Hn. by intros [? _].
  - intros x _. apply Hp. by intros [? _].
Qed.

Lemma distinct3 (A : list address) p n q B :
  NoDup (A ++ p :: n :: q :: B) ->
  p <> n /\ p <> q /\ n <> q /\ (forall x, x ∈ A -> x <> p /\ x <> n /\ x <> q) /\
  (forall x, x ∈ B -> x <> p /\ x <> n /\ x <> q).
Proof.
  intros (_ & HAx & Hnd)%list.NoDup_app. rewrite !list.NoDup_cons, !not_elem_of_cons in Hnd.
  destruct Hnd as ((? & ? & ?) & (? & ?) & ? & _).
  split_and!; try congruence; intros x Hx.
  - specialize (HAx x Hx). rewrite !not_elem_of_cons in HAx. tauto.
  - split_and!; intros ->; contradiction.
Qed.

Lemma link_spec h k A p q B n :
  linked h k (A ++ p :: q :: B) -> NoDup (A ++ p :: n :: q :: B) ->
  is_Some (d_next_p h !! (n, k)) -> is_Some (d_prev_p h !! (n, k)) ->
  n <> tail -> n <> head -> p <> tail -> q <> head ->
  exists h', link h n k p q = Some h' /\ linked h' k (A ++ p :: n :: q :: B) /\ level_only k h h'.
Proof.
  intros Hl Hnd Hnn Hnp Hnt Hnh Hpt Hqh.
  apply linked_pair in Hl as (HA & Hpq & Hqp & HB).
  destruct (distinct3 A p n q B Hnd) as (Npn & Npq & Nnq & NA & NB).
  unfold link.
  destruct (set_prev_spec h n k (Some p) Hnp) as (h1 & -> & S1 & V1 & P1 & N1).
  destruct (set_next_spec h1 n k (Some q)) as (h2 & E2 & S2 & V2 & N2 & P2).
  { by rewrite <- (sn_next _ _ S1). }
  cbn [mbind option_bind]. rewrite E2. cbn [mbind option_bind].
  destruct (set_next_spec h2 p k (Some n)) as (h3 & E3 & S3 & V3 & N3 & P3).
  { rewrite N2, N1 by (intuition congruence). by rewrite Hpq. }
  rewrite E3. cbn [mbind option_bind].
  destruct (set_prev_spec h3 q k (Some n)) as (h4 & -> & S4 & V4 & P4 & N4).
  { rewrite P3, P2, P1 by (intuition congruence). by rewrite Hqp. }
  assert (next_but h h4 (fun x k' => k' = k /\ (x = n \/ x = p))) as Hnext.
  { intros x k' Hx. rewrite N4, N3, N2, N1 by (intuition congruence). done. }
  assert (prev_but h h4 (fun x k' => k' = k /\ (x = n \/ x = q))) as Hprev.
  { intros x k' Hx. rewrite P4, P3, P2, P1 by (intuition congruence). done. }
  exists h4. split; [done|]. split.
  - apply linked_pair. split; [|split; [|split]].
    + eapply linked_frame_left; [| |exact HA].
      * intros x Hx. apply Hnext. specialize (NA x Hx). (intuition congruence).
      * intros x Hx. apply Hprev. apply elem_of_app in Hx as [Hx| ->%list_elem_of_singleton]; [|intuition congruence].
        specialize (NA x Hx). (intuition congruence).
    + rewrite N4 by (intuition congruence). done.
    + rewrite P4, P3, P2 by (intuition congruence). done.
    + cbn [linked]. split; [rewrite N4, N3 by (intuition congruence); done|]. split; [done|].
      eapply linked_frame_right; [| |exact HB].
      * intros x Hx. apply Hnext. apply elem_of_cons in Hx as [->|Hx]; [intuition congruence|].
        specialize (NB x Hx). (intuition congruence).
      * intros x Hx. apply Hprev. specialize (NB x Hx). (intuition congruence).
  - split; [by repeat (eapply same_nodes_trans; [eassumption|])| |].
    + intros x k' Hx. apply Hnext. (intuition congruence).
    + intros x k' Hx. apply Hprev. (intuition congruence).
Qed.

(** The two writes that take a node out of a level. *)
Lemma bypass_spec h k A p n q B :
  linked h k (A ++ p :: n :: q :: B) -> NoDup (A ++ p :: n :: q :: B) -> p <> tail -> q <> head ->
  exists h',
    (h ← set_prev h q k (Some p); set_next h p k (Some q)) = Some h' /\
    linked h' k (A ++ p :: q :: B) /\ level_only k h h' /\
    prev_but h h' (fun x k' => x = q /\ k' = k).
Proof.
  intros Hl Hnd Hpt Hqh.
  apply linked_pair in Hl as (HA & Hpn & Hnp & HB). cbn [linked] in HB. destruct HB as (Hnq & Hqn & HB).
  destruct (distinct3 A p n q B Hnd) as (Npn & Npq & Nnq & NA & NB).
  destruct (set_prev_spec h q k (Some p)) as (h1 & -> & S1 & V1 & P1 & N1); [by rewrite Hqn|].
  cbn [mbind option_bind].
  destruct (set_next_spec h1 p k (Some q)) as (h2 & -> & S2 & V2 & N2 & P2).
  { rewrite N1 by intuition congruence. by rewrite Hpn. }
  exists h2. split; [done|]. split; [|split].
  - apply linked_pair. split; [|split; [done|split]].
    + eapply linked_frame_left; [| |exact HA].
      * intros x Hx. specialize (NA x Hx). rewrite N2, N1 by intuition congruence. done.
      * intros x Hx. rewrite P2 by intuition congruence. apply P1.
        apply elem_of_app in Hx as [Hx| ->%list_elem_of_singleton]; [|intuition congruence].
        specialize (NA x Hx). intuition congruence.
    + rewrite P2 by intuition congruence. done.
    + eapply linked_frame_right; [| |exact HB].
      * intros x Hx. rewrite N2, N1; [done|intuition congruence|].
        apply elem_of_cons in Hx as [->|Hx]; [intuition congruence|]. specialize (NB x Hx). intuition congruence.
      * intros x Hx. specialize (NB x Hx). rewrite P2, P1 by intuition congruence. done.
  - split; [by eapply same_nodes_trans| |].
    + intros x k' Hx. rewrite N2, N1 by intuition congruence. done.
    + intros x k' Hx. rewrite P2, P1 by intuition congruence. done.
  - intros x k' Hx. rewrite P2, P1 by tauto. done.
Qed.

Lemma unlink_spec h k A p n q B :
  linked h k (A ++ p :: n :: q :: B) -> NoDup (A ++ p :: n :: q :: B) -> p <> tail -> q <> head ->
  exists h', unlink h n k = Some h' /\ linked h' k (A ++ p :: q :: B) /\ level_only k h h'.
Proof.
  intros Hl Hnd Hpt Hqh. destruct (bypass_spec h k A p n q B Hl Hnd Hpt Hqh) as (h' & E & HL & HT & _).
  exists h'. split; [|done]. apply linked_pair in Hl as (_ & Hpn & Hnp & HB). cbn [linked] in HB.
  unfold unlink, get_prev, get_next. rewrite Hnp. cbn [mbind option_bind]. by rewrite (proj1 HB).
Qed.

(** ** The invariant *)

(** The nodes that have a level. *)
Definition lev h k (ns : list address) : list address :=
  filter (fun n => k <= default 0 (d_level h !! n))%nat ns.

Definition full (ns : list address) : list address := head :: ns ++ [tail].

Abbreviation entry := (address * (Z * D))%type (only parsing).

Record rep (l : t D G) (L : list entry) : Prop := {
  r_linked : forall k, (k <= 31)%nat -> linked (d_nodes l) k (full (lev (d_nodes l) k L.*1));
  r_null : forall k, (k <= 31)%nat ->
    d_prev_p (d_nodes l) !! (head, k) = Some None /\ d_next_p (d_nodes l) !! (tail, k) = Some None;
  r_item : Forall (fun e => d_item (d_nodes l) !! e.1 = Some e.2) L;
  r_level : Forall (fun n => exists v, d_level (d_nodes l) !! n = Some v /\ (v <= d_listLevel l)%nat) L.*1;
  r_nodup : NoDup L.*1;
  r_ids : Forall (fun n => 2 <= n < d_fresh (d_nodes l))%nat L.*1;
  r_sorted : StronglySorted entry_le L;
  r_length : d_length l = length L;
  r_listLevel : (d_listLevel l <= 31)%nat;
  r_fresh : (2 <= d_fresh (d_nodes l))%nat;
}.

Lemma lev_app h k ns ns' : lev h k (ns ++ ns') = lev h k ns ++ lev h k ns'.
Proof. apply list.filter_app. Qed.

Lemma lev_elem h k ns n : n ∈ lev h k ns <-> (k <= default 0 (d_level h !! n))%nat /\ n ∈ ns.
Proof. unfold lev. by rewrite list_elem_of_filter. Qed.

Lemma lev_length h k ns : (length (lev h k ns) <= length ns)%nat.
Proof. apply list.length_filter. Qed.

Lemma lev_zero h ns : lev h 0 ns = ns.
Proof.
  unfold lev. induction ns as [|n ns IH]; [done|]. rewrite filter_cons_True by lia. by rewrite IH.
Qed.

(** ** Searching *)

Definition keys_le h key (ns : list address) : Prop :=
  forall n, n ∈ ns -> exists x, get_key h n = Some x /\ x <= key.

Definition keys_gt h key (ns : list address) : Prop :=
  forall n, n ∈ ns -> exists x, get_key h n = Some x /\ key < x.

Definition real (ns : list address) : Prop := forall n, n ∈ ns -> n <> head /\ n <> tail.

Lemma walk_R_spec h key k c1 c2 q r fuel :
  linked h k (head :: c1 ++ c2 ++ q :: r) -> keys_le h key c1 -> keys_gt h key c2 ->
  real (c1 ++ c2) -> (length c2 < fuel)%nat ->
  walk_R fuel h key k q = Some (hd q c2).
Proof.
  revert q r fuel. induction c2 as [|p c2 IH] using rev_ind; intros q r fuel Hl Hle Hgt Hr Hf.
  - destruct fuel as [|fuel]; [cbn in Hf; lia|]. cbn [walk_R hd app] in *.
    destruct c1 as [|p c1 _] using rev_ind.
    + cbn [app linked] in Hl. destruct Hl as (_ & Hp & _). unfold get_prev. rewrite Hp. done.
    + rewrite <- app_assoc in Hl. change (head :: c1 ++ [p] ++ q :: r) with ((head :: c1) ++ p :: q :: r) in Hl.
      apply linked_pair in Hl as (_ & _ & Hp & _). unfold get_prev. rewrite Hp. cbn [mbind option_bind].
      assert (p ∈ c1 ++ [p]) as Hin by mem.
      destruct (Hr p) as [Hph _]; [by rewrite app_nil_r|]. rewrite (proj2 (Nat.eqb_neq _ _)) by done.
      destruct (Hle p Hin) as (x & -> & Hx). cbn [mbind option_bind]. by rewrite (proj2 (Z.ltb_ge _ _)).
  - rewrite length_app in Hf. cbn [length] in Hf. destruct fuel as [|fuel]; [lia|]. cbn [walk_R].
    rewrite <- app_assoc in Hl.
    assert (linked h k ((head :: c1 ++ c2) ++ p :: q :: r)) as Hl'.
    { cbn [app]. by rewrite <- app_assoc. }
    apply linked_pair in Hl' as (_ & _ & Hp & _). unfold get_prev. rewrite Hp. cbn [mbind option_bind].
    assert (p ∈ c2 ++ [p]) as Hin by mem.
    destruct (Hr p) as [Hph _]; [mem|]. rewrite (proj2 (Nat.eqb_neq _ _)) by done.
    destruct (Hgt p Hin) as (x & -> & Hx). cbn [mbind option_bind]. rewrite (proj2 (Z.ltb_lt _ _)) by done.
    rewrite (IH p (q :: r) fuel).
    + by destruct c2.
    + done.
    + done.
    + intros n Hn. apply Hgt. mem.
    + intros n Hn. apply Hr. mem.
    + lia.
Qed.

Lemma last_default (c : address) c1 d d' : List.last (c :: c1) d = List.last (c :: c1) d'.
Proof. revert c. induction c1 as [|c' c1 IH]; intros c; [done|]. apply (IH c'). Qed.

Lemma walk_L_spec h key k A p c1 c2 fuel :
  linked h k (A ++ p :: c1 ++ c2 ++ [tail]) -> keys_le h key c1 -> keys_gt h key c2 ->
  real (c1 ++ c2) -> (length c1 < fuel)%nat ->
  walk_L fuel h key k p = Some (List.last c1 p, hd tail c2).
Proof.
  revert A p fuel. induction c1 as [|q c1 IH]; intros A p fuel Hl Hle Hgt Hr Hf.
  - destruct fuel as [|fuel]; [cbn in Hf; lia|]. cbn [walk_L List.last app] in *.
    destruct c2 as [|q c2].
    + cbn [app hd] in *. apply linked_pair in Hl as (_ & Hn & _). unfold get_next. by rewrite Hn.
    + cbn [app hd] in *. apply linked_pair in Hl as (_ & Hn & _). unfold get_next. rewrite Hn. cbn [mbind option_bind].
      destruct (Hr q) as [_ Hq]; [by left|]. rewrite (proj2 (Nat.eqb_neq _ _)) by done.
      destruct (Hgt q) as (x & -> & Hx); [by left|]. cbn [mbind option_bind]. by rewrite (proj2 (Z.ltb_lt _ _)).
  - cbn [length] in Hf. destruct fuel as [|fuel]; [lia|]. cbn [walk_L].
    cbn [app] in Hl. pose proof Hl as Hl'. apply linked_pair in Hl' as (_ & Hn & _).
    unfold get_next. rewrite Hn. cbn [mbind option_bind].
    destruct (Hr q) as [_ Hq]; [by left|]. rewrite (proj2 (Nat.eqb_neq _ _)) by done.
    destruct (Hle q) as (x & -> & Hx); [by left|]. cbn [mbind option_bind].
    rewrite (proj2 (Z.ltb_ge _ _)) by done.
    rewrite (IH (A ++ [p]) q fuel).
    + destruct c1 as [|c c1]; [done|]. by rewrite (last_default c c1 q p).
    + by rewrite <- app_assoc.
    + intros n Hin. apply Hle. by right.
    + done.
    + intros n Hin. apply Hr. by right.
    + lia.
Qed.

(** The first node after the new one at each level. *)
Definition location_of h (ns2 : list address) (count : nat) : list address :=
  map (fun j => hd tail (lev h j ns2)) (seq 0 count).

Lemma location_of_S h ns2 count :
  location_of h ns2 (S count) = location_of h ns2 count ++ [hd tail (lev h count ns2)].
Proof. unfold location_of. by rewrite seq_S, map_app. Qed.

Lemma location_lookup h ns2 count k :
  (k < count)%nat -> location_of h ns2 count !! k = Some (hd tail (lev h k ns2)).
Proof.
  intros Hk. unfold location_of. rewrite list_lookup_fmap, lookup_seq_lt by done. done.
Qed.

Definition linked_all h (ns : list address) : Prop :=
  forall k, (k <= 31)%nat -> linked h k (full (lev h k ns)).

Lemma real_lev h k ns : real ns -> real (lev h k ns).
Proof. intros H n (_ & Hn)%lev_elem. by apply H. Qed.

Lemma keys_le_lev h key k ns : keys_le h key ns -> keys_le h key (lev h k ns).
Proof. intros H n (_ & Hn)%lev_elem. by apply H. Qed.

Lemma keys_gt_lev h key k ns : keys_gt h key ns -> keys_gt h key (lev h k ns).
Proof. intros H n (_ & Hn)%lev_elem. by apply H. Qed.

Lemma lev_S_elem h k ns n : n ∈ lev h (S k) ns -> n ∈ lev h k ns.
Proof. rewrite !lev_elem. intros [? ?]. split; [lia|done]. Qed.

Lemma hd_tail_elem (ns : list address) : hd tail ns ∈ ns ++ [tail].
Proof. destruct ns; cbn; by left. Qed.

Lemma full_app (c1 c2 : list address) : full (c1 ++ c2) = head :: c1 ++ c2 ++ [tail].
Proof. unfold full. by rewrite <- app_assoc. Qed.

Section Search.

Context (h : store D) (key : Z) (ns1 ns2 : list address) (fuel : nat).

Context (Hlinked : linked_all h (ns1 ++ ns2)) (Hle : keys_le h key ns1) (Hgt : keys_gt h key ns2)
  (Hreal : real (ns1 ++ ns2)) (Hfuel : (length (ns1 ++ ns2) < fuel)%nat).

Lemma level_linked k : (k <= 31)%nat -> linked h k (head :: lev h k ns1 ++ lev h k ns2 ++ [tail]).
Proof. intros Hk. specialize (Hlinked k Hk). by rewrite lev_app, full_app in Hlinked. Qed.

Lemma level_real k : real (lev h k ns1 ++ lev h k ns2).
Proof. rewrite <- lev_app. by apply real_lev. Qed.

Lemma walk_R_level k q :
  (k <= 31)%nat -> q ∈ lev h k ns2 ++ [tail] -> walk_R fuel h key k q = Some (hd tail (lev h k ns2)).
Proof using All.
  intros Hk Hq. pose proof (level_linked k Hk) as Hl. pose proof (level_real k) as Hr.
  apply list_elem_of_split in Hq as (c2 & r & E).
  assert (exists r', lev h k ns2 = c2 ++ r') as [r' E'].
  { destruct r as [|x r _] using rev_ind.
    - apply app_inj_tail in E as [-> _]. exists []. by rewrite app_nil_r.
    - rewrite app_comm_cons, app_assoc in E. apply app_inj_tail in E as [-> _]. by exists (q :: r). }
  assert (forall n, n ∈ c2 -> n ∈ lev h k ns2) as Hc2 by (intros n Hn; rewrite E'; mem).
  rewrite E in Hl. rewrite (walk_R_spec h key k (lev h k ns1) c2 q r).
  - f_equal. transitivity (hd tail (lev h k ns2 ++ [tail])); [rewrite E|]; [by destruct c2|by destruct (lev _ _ _)].
  - done.
  - by apply keys_le_lev.
  - intros n Hn. by eapply keys_gt_lev, Hc2.
  - intros n Hn. apply Hr. apply elem_of_app in Hn as [?|?]; [mem|]. apply elem_of_app. right. by apply Hc2.
  - pose proof (lev_length h k ns2) as Hlen. rewrite E', length_app in Hlen. rewrite length_app in Hfuel. lia.
Qed.

Lemma lookup_R_spec k q location :
  (k <= 31)%nat -> q ∈ lev h k ns2 ++ [tail] ->
  lookup_R fuel h key k q location = Some (location_of h ns2 (S k) ++ location).
Proof using All.
  revert q location. induction k as [|k IH]; intros q location Hk Hq; cbn [lookup_R];
    rewrite walk_R_level by done; cbn [mbind option_bind]; [done|].
  rewrite IH; [by rewrite (location_of_S _ _ (S k)), <- app_assoc|lia|].
  pose proof (hd_tail_elem (lev h (S k) ns2)) as Hhd. apply elem_of_app in Hhd as [Hhd|Hhd]; [|mem].
  apply elem_of_app. left. by apply lev_S_elem.
Qed.

Lemma walk_L_level k p :
  (k <= 31)%nat -> p ∈ head :: lev h k ns1 ->
  exists p', walk_L fuel h key k p = Some (p', hd tail (lev h k ns2)) /\ p' ∈ head :: lev h k ns1.
Proof using All.
  intros Hk Hp. pose proof (level_linked k Hk) as Hl. pose proof (level_real k) as Hr.
  apply list_elem_of_split in Hp as (A & c1 & E).
  assert (forall n, n ∈ c1 -> n ∈ lev h k ns1) as Hc1.
  { intros n Hn. destruct A as [|a A]; injection E as _ E; rewrite E; [done|]. mem. }
  rewrite app_comm_cons, E, <- app_assoc in Hl. cbn [app] in Hl.
  exists (List.last c1 p). split.
  - apply (walk_L_spec h key k A p c1 (lev h k ns2)).
    + done.
    + intros n Hn. by eapply keys_le_lev, Hc1.
    + by apply keys_gt_lev.
    + intros n Hn. apply Hr. apply elem_of_app in Hn as [?|?]; [|mem]. apply elem_of_app. left. by apply Hc1.
    + pose proof (lev_length h k ns1) as Hlen. rewrite length_app in Hfuel.
      assert (length c1 <= length (lev h k ns1))%nat; [|lia].
      assert (S (length (lev h k ns1)) = length (A ++ p :: c1)) as HS by by rewrite <- E.
      rewrite length_app in HS. cbn [length] in HS. lia.
  - rewrite E. destruct c1 as [|c c1 _] using rev_ind; [cbn; mem|]. rewrite List.last_last. mem.
Qed.

Lemma lookup_L_spec k p location :
  (k <= 31)%nat -> p ∈ head :: lev h k ns1 ->
  lookup_L fuel h key k p location = Some (location_of h ns2 (S k) ++ location).
Proof using All.
  revert p location. induction k as [|k IH]; intros p location Hk Hp; cbn [lookup_L];
    destruct (walk_L_level _ p Hk Hp) as (p' & -> & Hp'); cbn [mbind option_bind]; [done|].
  rewrite IH; [by rewrite (location_of_S _ _ (S k)), <- app_assoc|lia|].
  apply elem_of_cons in Hp' as [->|Hp']; [by left|]. right. by apply lev_S_elem.
Qed.

End Search.

(** ** Inserting *)

Lemma lev_ext h h' k ns :
  (forall n, n ∈ ns -> d_level h' !! n = d_level h !! n) -> lev h' k ns = lev h k ns.
Proof.
  intros H. unfold lev. induction ns as [|n ns IH]; [done|].
  rewrite !filter_cons, H by by left. rewrite IH; [done|]. intros x Hx. apply H. by right.
Qed.

Lemma lev_same h h' k ns : d_level h' = d_level h -> lev h' k ns = lev h k ns.
Proof. intros H. apply lev_ext. intros n _. by rewrite H. Qed.

Lemma lev_middle_in h k v n ns1 ns2 :
  d_level h !! n = Some v -> (k <= v)%nat -> lev h k (ns1 ++ n :: ns2) = lev h k ns1 ++ n :: lev h k ns2.
Proof.
  intros Hn Hk. rewrite lev_app. unfold lev at 2. rewrite filter_cons_True; [done|]. by rewrite Hn.
Qed.

Lemma lev_middle_out h k v n ns1 ns2 :
  d_level h !! n = Some v -> (v < k)%nat -> lev h k (ns1 ++ n :: ns2) = lev h k (ns1 ++ ns2).
Proof.
  intros Hn Hk. rewrite !lev_app. unfold lev at 2. rewrite filter_cons_False; [done|]. rewrite Hn. cbn. lia.
Qed.

Lemma lev_nil h k ns :
  Forall (fun n => exists v, d_level h !! n = Some v /\ (v < k)%nat) ns -> lev h k ns = [].
Proof.
  induction 1 as [|n ns (v & Hv & Hk) _ IH]; [done|].
  unfold lev. rewrite filter_cons_False; [done|]. rewrite Hv. cbn. lia.
Qed.

(** The place of a new node at a level. *)
Lemma full_split c1 c2 :
  real (c1 ++ c2) -> exists A p B,
    full (c1 ++ c2) = A ++ p :: hd tail c2 :: B /\
    (forall x, full (c1 ++ x :: c2) = A ++ p :: x :: hd tail c2 :: B) /\
    head :: c1 = A ++ [p] /\ p <> tail /\ hd tail c2 <> head.
Proof.
  intros Hr. destruct (exists_last (l := head :: c1) ltac:(done)) as (A & p & E).
  assert (exists B, c2 ++ [tail] = hd tail c2 :: B) as [B EB] by (destruct c2; by eexists).
  exists A, p, B. split_and!.
  - rewrite full_app, EB, app_comm_cons, E, <- app_assoc. done.
  - intros x. rewrite full_app. cbn [app]. rewrite EB, app_comm_cons, E, <- app_assoc. done.
  - done.
  - assert (p ∈ head :: c1) as Hp by (rewrite E; mem). apply elem_of_cons in Hp as [->|Hp]; [done|].
    apply Hr. mem.
  - pose proof (hd_tail_elem c2) as Hp. apply elem_of_app in Hp as [Hp| ->%list_elem_of_singleton]; [|done].
    apply Hr. mem.
Qed.

Lemma full_nodup ns : NoDup ns -> real ns -> NoDup (full ns).
Proof.
  intros Hnd Hr. unfold full. rewrite list.NoDup_cons, list.NoDup_app. split_and!.
  - intros Hin. apply elem_of_app in Hin as [Hin|Hin%list_elem_of_singleton]; [|done]. by apply Hr in Hin as [].
  - done.
  - intros x Hx Hin%list_elem_of_singleton. by apply Hr in Hx as [].
  - apply NoDup_singleton.
Qed.

Lemma lev_nodup h k ns : NoDup ns -> NoDup (lev h k ns).
Proof. intros H. by apply list.NoDup_filter. Qed.

Lemma lev_middle_nodup h k n ns1 ns2 :
  NoDup (ns1 ++ n :: ns2) -> NoDup (lev h k ns1 ++ n :: lev h k ns2).
Proof.
  rewrite !list.NoDup_app, !list.NoDup_cons. intros (H1 & H12 & Hn & H2).
  split_and!; try by apply lev_nodup.
  - intros x (_ & Hx)%lev_elem. specialize (H12 x Hx). rewrite elem_of_cons, lev_elem in *. tauto.
  - rewrite lev_elem. tauto.
Qed.

Lemma lev_middle_real h k n ns1 ns2 : real (ns1 ++ n :: ns2) -> real (lev h k ns1 ++ n :: lev h k ns2).
Proof.
  intros H x Hx. apply H. rewrite elem_of_app, elem_of_cons, !lev_elem in Hx.
  rewrite elem_of_app, elem_of_cons. tauto.
Qed.

Definition has_pointers h n (count : nat) : Prop :=
  forall k, (k < count)%nat -> is_Some (d_next_p h !! (n, k)) /\ is_Some (d_prev_p h !! (n, k)).

Lemma has_pointers_same h h' n count : same_nodes h h' -> has_pointers h n count -> has_pointers h' n count.
Proof. intros S H k Hk. by rewrite <- (sn_next _ _ S), <- (sn_prev _ _ S); apply H. Qed.

Lemma insert_loop_spec h ns1 ns2 n count location :
  (forall k, (k < count)%nat -> linked h k (full (lev h k (ns1 ++ ns2)))) ->
  (forall k, (k < count)%nat -> location !! k = Some (hd tail (lev h k ns2))) ->
  NoDup (ns1 ++ n :: ns2) -> real (ns1 ++ n :: ns2) -> has_pointers h n count ->
  exists h', insert_loop h location n count = Some h' /\ touches (fun k => k < count)%nat h h' /\
    forall k, (k < count)%nat -> linked h' k (full (lev h k ns1 ++ n :: lev h k ns2)).
Proof.
  intros Hl Hloc Hnd Hr Hp. assert (n <> head /\ n <> tail) as [Hnh Hnt] by (apply Hr; mem).
  assert (real (ns1 ++ ns2)) as Hr' by (intros x Hx; apply Hr; mem).
  revert h Hl Hloc Hp. induction count as [|k IH]; intros h Hl Hloc Hp; cbn [insert_loop].
  { exists h. split; [done|]. split; [apply touches_refl|]. intros k Hk. lia. }
  rewrite Hloc by lia. cbn [mbind option_bind].
  pose proof (real_lev h k _ Hr') as Hrk. rewrite lev_app in Hrk.
  destruct (full_split _ _ Hrk) as (A & p & B & E & Ex & _ & Hpt & Hqh).
  pose proof (Hl k ltac:(lia)) as Hlk. rewrite lev_app, E in Hlk.
  pose proof Hlk as (_ & _ & Hprev & _)%linked_pair.
  unfold get_prev at 1. rewrite Hprev. cbn [mbind option_bind].
  destruct (link_spec h k A p (hd tail (lev h k ns2)) B n) as (h1 & -> & L1 & T1); try done.
  { rewrite <- Ex. apply full_nodup; [by apply lev_middle_nodup|by apply lev_middle_real]. }
  { apply Hp. lia. }
  { apply Hp. lia. }
  cbn [mbind option_bind].
  destruct (IH h1) as (h2 & -> & T2 & L2).
  { intros j Hj. rewrite (lev_same h) by apply T1. eapply linked_touches; [exact T1|cbn; lia|]. apply Hl. lia. }
  { intros j Hj. rewrite (lev_same h) by apply T1. apply Hloc. lia. }
  { eapply has_pointers_same; [apply T1|]. intros j Hj. apply Hp. lia. }
  exists h2. split; [done|]. split.
  - eapply touches_trans; (eapply touches_weaken; [|eassumption]); cbn; lia.
  - intros j Hj. destruct (decide (j = k)) as [->|].
    + eapply linked_touches; [exact T2|cbn; lia|]. by rewrite Ex.
    + specialize (L2 j ltac:(lia)). by rewrite !(lev_same h h1) in L2 by apply T1.
Qed.

(** ** What the invariant says of the nodes *)

Lemma rep_real l L : rep l L -> real L.*1.
Proof.
  intros H n Hn. pose proof (r_ids _ _ H) as Hi. rewrite list.Forall_forall in Hi. specialize (Hi n Hn).
  unfold head, tail. lia.
Qed.

Lemma items_keys h (key : Z) (P : Z -> Prop) (L : list entry) :
  Forall (fun e => d_item h !! e.1 = Some e.2) L -> Forall (fun e => P (fst (snd e))) L ->
  forall n, n ∈ L.*1 -> exists x, get_key h n = Some x /\ P x.
Proof.
  rewrite !list.Forall_forall. intros Hi HP n Hn. apply list_elem_of_fmap in Hn as (e & -> & He).
  exists (fst (snd e)). unfold get_key. rewrite (Hi e He). split; [done|]. by apply HP.
Qed.

(** The search for a key yields, for each level, the node before which a new one
    with that key belongs. *)
Lemma lookup_spec h (length listLevel : nat) (g : G) key L L1 L2 :
  linked_all h L.*1 -> real L.*1 -> Forall (fun e => d_item h !! e.1 = Some e.2) L ->
  key_split key L L1 L2 -> length = List.length L -> (listLevel <= 31)%nat ->
  let l := {| d_rand := g; d_listLevel := listLevel; d_length := length; d_nodes := h |} in
  lookupImpUpperBoundR l key = Some (location_of h L2.*1 (S listLevel)) /\
  lookupImpUpperBoundL l key = Some (location_of h L2.*1 (S listLevel)).
Proof.
  intros Hl Hr Hi (-> & H1 & H2) -> Hlev. rewrite fmap_app in *.
  apply Forall_app in Hi as [Hi1 Hi2].
  assert (keys_le h key L1.*1) as Hle by exact (items_keys h key (fun x => x <= key) L1 Hi1 H1).
  assert (keys_gt h key L2.*1) as Hgt by exact (items_keys h key (fun x => key < x) L2 Hi2 H2).
  assert (List.length (L1.*1 ++ L2.*1) < S (List.length (L1 ++ L2)))%nat as Hf.
  { rewrite !length_app, !length_fmap. lia. }
  unfold lookupImpUpperBoundR, lookupImpUpperBoundL. cbn [d_length d_nodes d_listLevel]. split.
  - rewrite (lookup_R_spec h key L1.*1 L2.*1 _ Hl Hle Hgt Hr Hf) by (done || mem). by rewrite app_nil_r.
  - rewrite (lookup_L_spec h key L1.*1 L2.*1 _ Hl Hle Hgt Hr Hf) by (done || (by left)). by rewrite app_nil_r.
Qed.

(** The node at the front, once the lowest level is linked. *)
Lemma is_front_spec h n (L1 L2 : list entry) key data :
  linked h 0 (full (L1 ++ (n, (key, data)) :: L2).*1) -> NoDup (L1 ++ (n, (key, data)) :: L2).*1 ->
  real (L1 ++ (n, (key, data)) :: L2).*1 ->
  is_front h n = Some (at_front n (L1 ++ (n, (key, data)) :: L2)).
Proof.
  intros Hl Hnd Hr. rewrite fmap_app, fmap_cons in *. cbn [fst] in *.
  unfold is_front, get_prev. destruct L1 as [|e L1 _] using rev_ind.
  - cbn [fmap list_fmap app full] in *. cbn [linked full app] in Hl. destruct Hl as (_ & -> & _). cbn.
    by rewrite Nat.eqb_refl.
  - rewrite fmap_app in *. cbn [fmap list_fmap] in *. rewrite <- !app_assoc in *. cbn [app] in *.
    unfold full in Hl. rewrite <- app_assoc in Hl. cbn [app] in Hl. rewrite app_comm_cons in Hl.
    apply linked_pair in Hl as (_ & _ & -> & _). cbn [mbind option_bind].
    assert (e.1 <> head) as Hne by (apply Hr; mem). rewrite (proj2 (Nat.eqb_neq _ _)) by done. f_equal.
    symmetry. destruct L1 as [|x L1]; cbn [app at_front]; apply Nat.eqb_neq; intros E.
    + cbn [fmap list_fmap app] in Hnd. rewrite list.NoDup_cons, E in Hnd. apply (proj1 Hnd). mem.
    + cbn [fmap list_fmap app] in Hnd. rewrite list.NoDup_cons, E in Hnd. apply (proj1 Hnd). mem.
Qed.

(** ** Adding a pair *)

Lemma new_pointers_lookup n count m x k :
  new_pointers n count m !! (x, k) = if decide (x = n /\ k < count)%nat then Some None else m !! (x, k).
Proof.
  induction count as [|count IH]; cbn [new_pointers].
  - rewrite decide_False by lia. done.
  - destruct (decide ((x, k) = (n, count))) as [[= -> ->]|Hne].
    + rewrite lookup_insert_eq, decide_True by lia. done.
    + rewrite lookup_insert_ne by congruence. rewrite IH.
      destruct (decide (x = n /\ k < count)%nat), (decide (x = n /\ k < S count)%nat); try done; [lia|].
      exfalso. apply Hne. assert (k = count) by lia. by destruct a as [-> _]; subst.
Qed.

Lemma insert_loop_ext h location location' n count :
  (forall k, (k < count)%nat -> location !! k = location' !! k) ->
  insert_loop h location n count = insert_loop h location' n count.
Proof.
  revert h. induction count as [|k IH]; intros h Hloc; [done|]. cbn [insert_loop].
  rewrite <- Hloc by lia. destruct (location !! k) as [q|]; [|done]. cbn [mbind option_bind].
  destruct (get_prev h q k) as [p|]; [|done]. cbn [mbind option_bind].
  destruct (link h n k p q) as [h'|]; [|done]. cbn [mbind option_bind]. apply IH. intros j Hj. apply Hloc. lia.
Qed.

Lemma location_of_length h ns count : length (location_of h ns count) = count.
Proof. unfold location_of. by rewrite length_map, length_seq. Qed.

Section Insert.

Context (g : G) (listLevel length : nat) (h : store D) (L1 L2 : list entry) (n : address) (key : Z) (data : D)
  (v : nat).

Let L' : list entry := L1 ++ (n, (key, data)) :: L2.

Context (Hlevel : d_level h !! n = Some v) (Hv : (v <= S listLevel)%nat) (Hmax : (v <= 31)%nat)
  (Hlinked : linked_all h (L1.*1 ++ L2.*1))
  (Hlevels : Forall (fun n => exists v, d_level h !! n = Some v /\ (v <= listLevel)%nat) (L1.*1 ++ L2.*1))
  (Hnodup : NoDup (L1.*1 ++ n :: L2.*1)) (Hreal : real (L1.*1 ++ n :: L2.*1)) (Hptrs : has_pointers h n (S v)).

(** No node has the level above the highest of the list. *)
Lemma above_listLevel k : (listLevel < k)%nat -> lev h k (L1.*1 ++ L2.*1) = [].
Proof using All.
  intros Hk. apply lev_nil. eapply List.Forall_impl; [|exact Hlevels]. cbn. intros x (w & Hw & Hle).
  exists w. split; [done|lia].
Qed.

Lemma insert_all :
  exists h', insert_loop h (location_of h L2.*1 (S listLevel) ++ [tail]) n (S v) = Some h' /\
    touches (fun k => k < S v)%nat h h' /\ linked_all h' (L'.*1).
Proof using All.
  destruct (insert_loop_spec h L1.*1 L2.*1 n (S v) (location_of h L2.*1 (S listLevel) ++ [tail]))
    as (h' & E & T & Hl); try done.
  { intros k Hk. apply Hlinked. lia. }
  { intros k Hk. destruct (decide (k <= listLevel)%nat) as [Hle|Hgt].
    - rewrite lookup_app_l by (rewrite location_of_length; lia). apply location_lookup. lia.
    - assert (k = S listLevel) as -> by lia. rewrite lookup_app_r by (rewrite location_of_length; lia).
      rewrite location_of_length, Nat.sub_diag. cbn.
      pose proof (above_listLevel (S listLevel) ltac:(lia)) as Hnil. rewrite lev_app in Hnil.
      by apply app_eq_nil in Hnil as [_ ->]. }
  exists h'. split; [done|]. split; [done|]. intros k Hk. subst L'. rewrite fmap_app, fmap_cons.
  rewrite (lev_same h) by apply T. cbn [fst].
  destruct (decide (k < S v)%nat) as [Hlt|Hge].
  - rewrite (lev_middle_in h k v) by (done || lia). by apply Hl.
  - rewrite (lev_middle_out h k v) by (done || lia). eapply linked_touches; [exact T|cbn; lia|]. by apply Hlinked.
Qed.

Lemma insertImp_spec :
  exists h', insertImp {| d_rand := g; d_listLevel := listLevel; d_length := length; d_nodes := h |}
      (location_of h L2.*1 (S listLevel)) n =
    Some (at_front n L', {| d_rand := g; d_listLevel := Nat.max listLevel v; d_length := S length; d_nodes := h' |}) /\
    touches (fun k => k < S v)%nat h h' /\ linked_all h' (L'.*1).
Proof using All.
  destruct insert_all as (h' & E & T & Hl). exists h'. split; [|done].
  assert (is_front h' n = Some (at_front n L')) as Hfront.
  { unfold L'. specialize (Hl 0%nat ltac:(lia)). rewrite lev_zero in Hl.
    apply is_front_spec; [exact Hl|by rewrite fmap_app, fmap_cons..]. }
  unfold insertImp. cbn [d_nodes d_listLevel d_rand d_length]. rewrite Hlevel. cbn [mbind option_bind].
  destruct (Nat.ltb_spec listLevel v) as [Hlt|Hge].
  - assert (v = S listLevel) as Ev by lia. rewrite (proj2 (Nat.eqb_eq _ _)) by done.
    cbn [insert_loop] in E. rewrite lookup_app_r in E by (rewrite location_of_length; lia).
    rewrite location_of_length, Ev, Nat.sub_diag in E. cbn [lookup list_lookup mbind option_bind] in E.
    pose proof (Hlinked (S listLevel) ltac:(lia)) as Htop. rewrite above_listLevel in Htop by lia.
    cbn [full app linked] in Htop. destruct Htop as (_ & Htop & _).
    unfold get_prev at 1 in E. rewrite Htop in E. cbn [mbind option_bind] in E. rewrite Ev.
    destruct (link h n (S listLevel) head tail) as [h1|]; [|done]. cbn [mbind option_bind] in *.
    rewrite (insert_loop_ext _ _ (location_of h L2.*1 (S listLevel) ++ [tail])), E.
    + cbn [mbind option_bind]. rewrite Hfront. cbn [mbind option_bind]. by rewrite Nat.max_r by lia.
    + intros k Hk. by rewrite lookup_app_l by (rewrite location_of_length; lia).
  - rewrite (insert_loop_ext _ _ (location_of h L2.*1 (S listLevel) ++ [tail])), E.
    + cbn [mbind option_bind]. rewrite Hfront. cbn [mbind option_bind]. by rewrite Nat.max_l by lia.
    + intros k Hk. by rewrite lookup_app_l by (rewrite location_of_length; lia).
Qed.

End Insert.

Section Add.

Context {LGL : LevelGeneratorLaws G}.

(** A new node is apart from the nodes of the list. *)
Record extends h h' n (v : nat) (item : Z * D) : Prop := {
  ex_level : d_level h' = <[n := v]> (d_level h);
  ex_item : d_item h' = <[n := item]> (d_item h);
  ex_next : forall x k, x <> n -> d_next_p h' !! (x, k) = d_next_p h !! (x, k);
  ex_prev : forall x k, x <> n -> d_prev_p h' !! (x, k) = d_prev_p h !! (x, k);
  ex_pointers : forall k, (k < S v)%nat -> d_next_p h' !! (n, k) = Some None /\ d_prev_p h' !! (n, k) = Some None;
}.

Lemma allocateNode_spec listLevel level key data h :
  let v := if (listLevel <? level)%nat then S listLevel else level in
  exists h', allocateNode listLevel level key data h = (d_fresh h, h') /\
    extends h h' (d_fresh h) v (key, data) /\ d_fresh h' = S (d_fresh h).
Proof.
  cbn zeta. unfold allocateNode. eexists. split; [reflexivity|]. split; [|done]. split; try done.
  - intros x k Hx. cbn [d_next_p]. rewrite new_pointers_lookup, decide_False; [done|]. by intros [? _].
  - intros x k Hx. cbn [d_prev_p]. rewrite new_pointers_lookup, decide_False; [done|]. by intros [? _].
  - intros k Hk. cbn [d_next_p d_prev_p]. by rewrite !new_pointers_lookup, !decide_True.
Qed.

Lemma extends_lev h h' n v item k ns : extends h h' n v item -> n ∉ ns -> lev h' k ns = lev h k ns.
Proof.
  intros E Hn. apply lev_ext. intros x Hx. rewrite (ex_level _ _ _ _ _ E), lookup_insert_ne; [done|].
  by intros ->.
Qed.

Lemma extends_linked h h' n v item k ns : extends h h' n v item -> n ∉ ns -> linked h k ns -> linked h' k ns.
Proof.
  intros E Hn. destruct ns as [|a ns]; [done|]. rewrite not_elem_of_cons in Hn.
  apply linked_frame_right; intros x Hx; [apply E|apply E].
  - apply elem_of_cons in Hx as [->|Hx]; [intuition congruence|]. intros ->. tauto.
  - intros ->. tauto.
Qed.

Lemma level_of_node (listLevel level : nat) :
  (listLevel <= 31)%nat -> (level <= 31)%nat ->
  let v := if (listLevel <? level)%nat then S listLevel else level in
  (v <= S listLevel)%nat /\ (v <= 31)%nat.
Proof. cbn zeta. destruct (Nat.ltb_spec listLevel level); lia. Qed.

Lemma Forall_middle {A} (P : A -> Prop) L1 L2 x : Forall P (L1 ++ L2) -> P x -> Forall P (L1 ++ x :: L2).
Proof. rewrite !Forall_app, Forall_cons_iff. tauto. Qed.

Lemma rep_fresh l L : rep l L -> d_fresh (d_nodes l) ∉ L.*1.
Proof.
  intros H Hin. pose proof (r_ids _ _ H) as Hi. rewrite list.Forall_forall in Hi.
  specialize (Hi _ Hin). cbn in Hi. lia.
Qed.

Lemma rep_items_ext l L h :
  rep l L -> (forall n, n ∈ L.*1 -> d_item h !! n = d_item (d_nodes l) !! n) ->
  Forall (fun e => d_item h !! e.1 = Some e.2) L.
Proof.
  intros H Hext. pose proof (r_item _ _ H) as Hi. rewrite list.Forall_forall in *. intros e He.
  rewrite Hext; [by apply Hi|]. by apply list_elem_of_fmap_2.
Qed.

Lemma rep_levels_ext l L h :
  rep l L -> (forall n, n ∈ L.*1 -> d_level h !! n = d_level (d_nodes l) !! n) ->
  Forall (fun n => exists v, d_level h !! n = Some v /\ (v <= d_listLevel l)%nat) L.*1.
Proof.
  intros H Hext. pose proof (r_level _ _ H) as Hi. rewrite list.Forall_forall in *. intros x Hx.
  rewrite Hext by done. by apply Hi.
Qed.

(** The list while it holds a node that is not linked yet. *)
Lemma rep_extends l L h v item :
  rep l L -> extends (d_nodes l) h (d_fresh (d_nodes l)) v item ->
  linked_all h L.*1 /\ Forall (fun e => d_item h !! e.1 = Some e.2) L /\
  Forall (fun n => exists v, d_level h !! n = Some v /\ (v <= d_listLevel l)%nat) L.*1.
Proof.
  intros H Ex. pose proof (rep_fresh l L H) as Hn. pose proof (r_fresh _ _ H) as Hn2.
  split_and!.
  - intros k Hk. rewrite (extends_lev _ _ _ _ _ _ _ Ex Hn). eapply extends_linked; [done| |by apply H].
    unfold full. rewrite elem_of_cons, elem_of_app, lev_elem. unfold head, tail.
    intros [?|[[_ ?]|?%list_elem_of_singleton]]; [lia|done|lia].
  - apply (rep_items_ext l L h H). intros x Hx. rewrite (ex_item _ _ _ _ _ Ex), lookup_insert_ne; [done|].
    by intros <-.
  - apply (rep_levels_ext l L h H). intros x Hx. rewrite (ex_level _ _ _ _ _ Ex), lookup_insert_ne; [done|].
    by intros <-.
Qed.

Lemma rep_inserted l L L1 L2 g h h' v key data :
  let n := d_fresh (d_nodes l) in
  rep l L -> extends (d_nodes l) h n v (key, data) -> d_fresh h = S n -> (v <= 31)%nat ->
  key_split key L L1 L2 -> NoDup (L1.*1 ++ n :: L2.*1) ->
  touches (fun k => k < S v)%nat h h' -> linked_all h' (L1 ++ (n, (key, data)) :: L2).*1 ->
  rep {| d_rand := g; d_listLevel := Nat.max (d_listLevel l) v; d_length := S (d_length l); d_nodes := h' |}
    (L1 ++ (n, (key, data)) :: L2).
Proof.
  intros n H Ex Hfresh Hmax Hsplit Hnd T Hl. pose proof (lo_same _ _ _ T) as Same.
  destruct (rep_extends l L h v _ H Ex) as (_ & Hitem & Hlevels).
  pose proof (r_fresh _ _ H) as Hn2. pose proof Hsplit as (EL & _ & _). fold n in Hn2.
  rewrite EL in Hitem, Hlevels. rewrite fmap_app in Hlevels.
  split; cbn [d_nodes d_rand d_listLevel d_length]; rewrite ?fmap_app, ?fmap_cons; cbn [fst].
  - intros k Hk. specialize (Hl k Hk). by rewrite fmap_app, fmap_cons in Hl.
  - intros k Hk. rewrite (lo_prev _ _ _ T), (lo_next _ _ _ T) by tauto. unfold n, head, tail in *.
    rewrite (ex_next _ _ _ _ _ Ex), (ex_prev _ _ _ _ _ Ex) by lia. by apply H.
  - rewrite (sn_item _ _ Same). apply Forall_middle; [done|]. cbn.
    by rewrite (ex_item _ _ _ _ _ Ex), lookup_insert_eq.
  - rewrite (sn_level _ _ Same). apply Forall_middle.
    + eapply List.Forall_impl; [|exact Hlevels]. cbn. intros x (w & Hw & Hle). exists w. split; [done|lia].
    + exists v. split; [by rewrite (ex_level _ _ _ _ _ Ex), lookup_insert_eq|lia].
  - done.
  - rewrite (sn_fresh _ _ Same), Hfresh. apply Forall_middle; [|lia].
    pose proof (r_ids _ _ H) as Hi. rewrite EL, fmap_app in Hi.
    eapply List.Forall_impl; [|exact Hi]. fold n. cbn. lia.
  - apply (key_split_sorted (n, (key, data)) L); [apply H|done].
  - rewrite (r_length _ _ H), EL, !length_app. cbn. lia.
  - pose proof (r_listLevel _ _ H). lia.
  - rewrite (sn_fresh _ _ Same), Hfresh. lia.
Qed.

Lemma add_spec lookup l L key data :
  rep l L -> lookup = lookupImpUpperBoundR \/ lookup = lookupImpUpperBoundL ->
  exists l', let n := d_fresh (d_nodes l) in let L' := insert_upper (n, (key, data)) L in
    add lookup key data l = Some (n, at_front n L', l') /\ rep l' L' /\ d_fresh (d_nodes l') = S n.
Proof.
  intros H Hlookup. unfold add. destruct (randomLevel (d_rand l)) as [level g] eqn:Eg.
  assert (level <= 31)%nat as Hlevel.
  { pose proof (randomLevel_max (d_rand l)) as Hm. by rewrite Eg in Hm. }
  pose proof (level_of_node (d_listLevel l) level (r_listLevel _ _ H) Hlevel) as [Hv Hmax].
  destruct (allocateNode_spec (d_listLevel l) level key data (d_nodes l)) as (h & -> & Ex & Hfresh).
  set (v := if (d_listLevel l <? level)%nat then S (d_listLevel l) else level) in *.
  set (n := d_fresh (d_nodes l)) in *.
  pose proof (rep_fresh l L H) as Hn. pose proof (r_fresh _ _ H) as Hn2. fold n in Hn, Hn2.
  pose proof (rep_real l L H) as Hreal. destruct (rep_extends l L h v _ H Ex) as (Hlinked & Hitem & Hlevels).
  destruct (insert_upper_split (n, (key, data)) L (r_sorted _ _ H)) as (L1 & L2 & Hsplit & EL').
  cbn [fst snd] in Hsplit. pose proof Hsplit as (EL & _ & _). cbn zeta. rewrite EL'.
  assert (NoDup (L1.*1 ++ n :: L2.*1)) as Hnd.
  { pose proof (r_nodup _ _ H) as Hnd. rewrite EL, fmap_app in Hnd, Hn.
    rewrite <- Permutation_middle. by constructor. }
  assert (real (L1.*1 ++ n :: L2.*1)) as Hr'.
  { intros x Hx. rewrite EL, fmap_app in Hreal. destruct (decide (x = n)) as [->|Hxn];
      [unfold head, tail; lia|apply Hreal; mem]. }
  destruct (lookup_spec h (d_length l) (d_listLevel l) g key L L1 L2 Hlinked Hreal Hitem Hsplit
    (r_length _ _ H) (r_listLevel _ _ H)) as [HR HL].
  cbn zeta in HR, HL. cbn [d_nodes]. rewrite bool_decide_true by (apply Ex; lia).
  assert (lookup {| d_rand := g; d_listLevel := d_listLevel l; d_length := d_length l; d_nodes := h |} key =
    Some (location_of h L2.*1 (S (d_listLevel l)))) as -> by by destruct Hlookup as [->| ->].
  cbn [mbind option_bind]. rewrite EL, fmap_app in Hlinked, Hlevels.
  destruct (insertImp_spec g (d_listLevel l) (d_length l) h L1 L2 n key data v) as (h' & -> & T & Hl'); try done.
  { rewrite (ex_level _ _ _ _ _ Ex). by rewrite lookup_insert_eq. }
  { intros k Hk. destruct (ex_pointers _ _ _ _ _ Ex k Hk) as [-> ->]. by split. }
  cbn [mbind option_bind]. eexists. split; [done|]. split; [by eapply rep_inserted|]. cbn [d_nodes].
  by rewrite (sn_fresh _ _ (lo_same _ _ _ T)).
Qed.

End Add.

(** ** Removing a pair *)

(** A node of the list at one of its levels. *)
Lemma level_split h k v n ns1 ns2 :
  d_level h !! n = Some v -> (k <= v)%nat -> real (ns1 ++ n :: ns2) -> NoDup (ns1 ++ n :: ns2) ->
  exists A p B,
    full (lev h k (ns1 ++ n :: ns2)) = A ++ p :: n :: hd tail (lev h k ns2) :: B /\
    full (lev h k (ns1 ++ ns2)) = A ++ p :: hd tail (lev h k ns2) :: B /\
    p <> tail /\ hd tail (lev h k ns2) <> head /\
    NoDup (A ++ p :: n :: hd tail (lev h k ns2) :: B).
Proof.
  intros Hv Hk Hr Hnd. assert (real (lev h k ns1 ++ lev h k ns2)) as Hr'.
  { intros x Hx. apply (lev_middle_real h k n ns1 ns2 Hr). mem. }
  destruct (full_split _ _ Hr') as (A & p & B & E & Ex & _ & Hp & Hq). exists A, p, B.
  rewrite (lev_middle_in h k v) by done. rewrite lev_app, <- Ex. split_and!; try done.
  apply full_nodup; [by apply lev_middle_nodup|by apply lev_middle_real].
Qed.

Lemma remove_loop_spec h ns1 ns2 n v count :
  d_level h !! n = Some v -> (count <= S v)%nat ->
  (forall k, (k < count)%nat -> linked h k (full (lev h k (ns1 ++ n :: ns2)))) ->
  NoDup (ns1 ++ n :: ns2) -> real (ns1 ++ n :: ns2) ->
  exists h', remove_loop h n count = Some h' /\ touches (fun k => k < count)%nat h h' /\
    forall k, (k < count)%nat -> linked h' k (full (lev h k (ns1 ++ ns2))).
Proof.
  intros Hv Hcount Hl Hnd Hr. revert h Hv Hl. induction count as [|k IH]; intros h Hv Hl; cbn [remove_loop].
  { exists h. split; [done|]. split; [apply touches_refl|]. intros k Hk. lia. }
  destruct (level_split h k v n ns1 ns2 Hv ltac:(lia) Hr Hnd) as (A & p & B & E & E' & Hp & Hq & HAnd).
  pose proof (Hl k ltac:(lia)) as Hlk. rewrite E in Hlk.
  destruct (unlink_spec h k A p n _ B Hlk HAnd Hp Hq) as (h1 & -> & L1 & T1). cbn [mbind option_bind].
  assert (d_level h1 = d_level h) as Hsame by apply T1.
  destruct (IH ltac:(lia) h1) as (h2 & -> & T2 & L2).
  { by rewrite Hsame. }
  { intros j Hj. rewrite (lev_same h h1) by done. eapply linked_touches; [exact T1|cbn; lia|]. apply Hl. lia. }
  exists h2. split; [done|]. split.
  - eapply touches_trans; (eapply touches_weaken; [|eassumption]); cbn; lia.
  - intros j Hj. destruct (decide (j = k)) as [->|].
    + eapply linked_touches; [exact T2|cbn; lia|]. by rewrite E'.
    + specialize (L2 j ltac:(lia)). by rewrite (lev_same h h1) in L2 by done.
Qed.

Lemma free_pointers_lookup n count m x k :
  free_pointers n count m !! (x, k) = if decide (x = n /\ k < count)%nat then None else m !! (x, k).
Proof.
  induction count as [|count IH]; cbn [free_pointers].
  - rewrite decide_False by lia. done.
  - destruct (decide ((x, k) = (n, count))) as [[= -> ->]|Hne].
    + rewrite lookup_delete_eq, decide_True by lia. done.
    + rewrite lookup_delete_ne by congruence. rewrite IH.
      destruct (decide (x = n /\ k < count)%nat), (decide (x = n /\ k < S count)%nat); try done; [lia|].
      exfalso. apply Hne. assert (k = count) by lia. by destruct a as [-> _]; subst.
Qed.

(** A node is gone and the pointers of the others are the same. *)
Record reduces h h' n : Prop := {
  re_level : d_level h' = delete n (d_level h);
  re_item : d_item h' = delete n (d_item h);
  re_next : forall x k, x <> n -> d_next_p h' !! (x, k) = d_next_p h !! (x, k);
  re_prev : forall x k, x <> n -> d_prev_p h' !! (x, k) = d_prev_p h !! (x, k);
  re_fresh : d_fresh h' = d_fresh h;
}.

Lemma release_spec h n v :
  d_level h !! n = Some v -> is_Some (d_next_p h !! (n, 0%nat)) ->
  exists h', (h ← set_next h n 0 None; releaseNode h n) = Some h' /\ reduces h h' n.
Proof.
  intros Hv Hn. destruct (set_next_spec h n 0 None Hn) as (h1 & -> & S1 & V1 & N1 & P1).
  cbn [mbind option_bind]. unfold releaseNode. rewrite bool_decide_true by done.
  rewrite (sn_level _ _ S1), Hv. cbn [mbind option_bind]. eexists. split; [done|].
  split; cbn [d_level d_item d_next_p d_prev_p d_fresh].
  - done.
  - by rewrite (sn_item _ _ S1).
  - intros x k Hx. rewrite free_pointers_lookup, decide_False by tauto. apply N1. tauto.
  - intros x k Hx. rewrite free_pointers_lookup, decide_False by tauto. apply P1. tauto.
  - apply S1.
Qed.

Lemma reduces_lev h h' n k ns : reduces h h' n -> n ∉ ns -> lev h' k ns = lev h k ns.
Proof.
  intros E Hn. apply lev_ext. intros x Hx. rewrite (re_level _ _ _ E), lookup_delete_ne; [done|]. by intros ->.
Qed.

Lemma reduces_linked h h' n k ns : reduces h h' n -> n ∉ ns -> linked h k ns -> linked h' k ns.
Proof.
  intros E Hn. destruct ns as [|a ns]; [done|]. rewrite not_elem_of_cons in Hn.
  apply linked_frame_right; intros x Hx; [apply E|apply E].
  - apply elem_of_cons in Hx as [->|Hx]; [intuition congruence|]. intros ->. tauto.
  - intros ->. tauto.
Qed.

Lemma Forall_remove {A} (P : A -> Prop) L1 L2 x : Forall P (L1 ++ x :: L2) -> Forall P (L1 ++ L2).
Proof. rewrite !Forall_app, Forall_cons_iff. tauto. Qed.

(** The node of a pair, at its levels. *)
Lemma rep_node l L1 n item L2 :
  rep l (L1 ++ (n, item) :: L2) ->
  exists v next, d_level (d_nodes l) !! n = Some v /\ (v <= d_listLevel l)%nat /\
    d_next_p (d_nodes l) !! (n, 0%nat) = Some (Some next) /\
    d_item (d_nodes l) !! n = Some item /\ NoDup (L1.*1 ++ n :: L2.*1) /\ real (L1.*1 ++ n :: L2.*1) /\
    n <> head /\ n <> tail.
Proof.
  intros H. pose proof (rep_real _ _ H) as Hr. pose proof (r_level _ _ H) as Hlev.
  pose proof (r_item _ _ H) as Hi. pose proof (r_nodup _ _ H) as Hnd.
  pose proof (r_linked _ _ H 0%nat ltac:(lia)) as Hl. rewrite lev_zero in Hl.
  rewrite fmap_app, fmap_cons in *. cbn [fst] in *.
  apply Forall_app in Hlev as [_ (v & Hv & Hle)%Forall_inv]. apply Forall_app in Hi as [_ Hi%Forall_inv].
  assert (n <> head /\ n <> tail) as [Hh Ht] by (apply Hr; mem).
  rewrite full_app in Hl. cbn [app] in Hl. rewrite app_comm_cons in Hl.
  destruct (L2.*1 ++ [tail]) as [|q B] eqn:EB; [by destruct (L2.*1)|].
  apply linked_pair in Hl as (_ & Hn & _). by exists v, q.
Qed.

Lemma rep_removed l L1 n item L2 v h h' :
  rep l (L1 ++ (n, item) :: L2) -> d_level (d_nodes l) !! n = Some v -> (v <= d_listLevel l)%nat ->
  touches (fun k => k < S v)%nat (d_nodes l) h -> reduces h h' n ->
  (forall k, (k < S v)%nat -> linked h k (full (lev (d_nodes l) k (L1.*1 ++ L2.*1)))) ->
  rep {| d_rand := d_rand l; d_listLevel := d_listLevel l; d_length := pred (d_length l); d_nodes := h' |} (L1 ++ L2).
Proof.
  intros H Hv Hvl T R Hl. pose proof (lo_same _ _ _ T) as Same.
  destruct (rep_node _ _ _ _ _ H) as (_ & _ & _ & _ & _ & _ & Hnd & Hr & Hh & Ht).
  pose proof Hnd as Hnd'. rewrite <- Permutation_middle in Hnd'. apply list.NoDup_cons in Hnd' as [Hn Hnd'].
  rewrite <- fmap_app in Hn.
  split; cbn [d_nodes d_rand d_listLevel d_length].
  - intros k Hk. rewrite (reduces_lev _ _ _ _ _ R Hn), (lev_same (d_nodes l) h) by apply Same.
    assert (n ∉ full (lev (d_nodes l) k (L1 ++ L2).*1)) as Hnf.
    { unfold full. rewrite elem_of_cons, elem_of_app, lev_elem, list_elem_of_singleton. tauto. }
    apply (reduces_linked _ _ _ _ _ R Hnf). rewrite fmap_app.
    destruct (decide (k < S v)%nat) as [Hlt|Hge]; [by apply Hl|].
    eapply linked_touches; [exact T|cbn; lia|]. rewrite <- (lev_middle_out _ k v n) by (done || lia).
    pose proof (r_linked _ _ H k Hk) as Hlk. by rewrite fmap_app, fmap_cons in Hlk.
  - intros k Hk. rewrite (re_next _ _ _ R), (re_prev _ _ _ R) by done.
    rewrite (lo_prev _ _ _ T), (lo_next _ _ _ T) by tauto. by apply H.
  - pose proof (Forall_remove _ _ _ _ (r_item _ _ H)) as Hi. rewrite list.Forall_forall in *.
    intros e He. rewrite (re_item _ _ _ R), (sn_item _ _ Same), lookup_delete_ne; [by apply Hi|].
    intros ->. apply Hn. by apply list_elem_of_fmap_2.
  - pose proof (r_level _ _ H) as Hlev. rewrite fmap_app, fmap_cons in Hlev.
    pose proof (Forall_remove _ _ _ _ Hlev) as Hlev'. rewrite <- fmap_app in Hlev'. rewrite list.Forall_forall in *.
    intros x Hx. rewrite (re_level _ _ _ R), (sn_level _ _ Same), lookup_delete_ne; [by apply Hlev'|].
    by intros ->.
  - by rewrite fmap_app.
  - rewrite (re_fresh _ _ _ R), (sn_fresh _ _ Same). pose proof (r_ids _ _ H) as Hi.
    rewrite fmap_app, fmap_cons in *. by apply Forall_remove in Hi.
  - eapply StronglySorted_remove, H.
  - rewrite (r_length _ _ H), !length_app. cbn. lia.
  - apply H.
  - rewrite (re_fresh _ _ _ R), (sn_fresh _ _ Same). apply H.
Qed.

Lemma remove_spec l L1 n item L2 :
  rep l (L1 ++ (n, item) :: L2) -> exists l', remove n l = Some (true, l') /\ rep l' (L1 ++ L2) /\
    d_fresh (d_nodes l') = d_fresh (d_nodes l).
Proof.
  intros H. destruct (rep_node _ _ _ _ _ H) as (v & next & Hv & Hvl & Hnext & Hitem & Hnd & Hr & Hh & Ht).
  pose proof (r_listLevel _ _ H) as Hmax.
  unfold remove. rewrite Hnext. cbn [mbind option_bind]. rewrite Hv. cbn [mbind option_bind].
  assert (forall k, (k < S v)%nat -> linked (d_nodes l) k (full (lev (d_nodes l) k (L1.*1 ++ n :: L2.*1)))) as Hl.
  { intros k Hk. pose proof (r_linked _ _ H k ltac:(lia)) as Hlk. by rewrite fmap_app, fmap_cons in Hlk. }
  destruct (remove_loop_spec (d_nodes l) L1.*1 L2.*1 n v (S v) Hv ltac:(lia) Hl Hnd Hr) as (h & -> & T & Hl').
  cbn [mbind option_bind]. pose proof (lo_same _ _ _ T) as Same.
  destruct (release_spec h n v) as (h' & E & R).
  { by rewrite (sn_level _ _ Same). }
  { rewrite <- (sn_next _ _ Same). by rewrite Hnext. }
  destruct (set_next h n 0 None) as [h0|] eqn:E0; [|done]. cbn [mbind option_bind] in *. rewrite E.
  cbn [mbind option_bind]. eexists. split; [done|].
  split; [by eapply rep_removed|]. cbn [d_nodes]. by rewrite (re_fresh _ _ _ R), (sn_fresh _ _ Same).
Qed.

(** ** Moving a pair *)

Lemma set_key_spec h n key item :
  d_item h !! n = Some item ->
  exists h', set_key h n key = Some h' /\ d_level h' = d_level h /\ d_next_p h' = d_next_p h /\
    d_prev_p h' = d_prev_p h /\ d_fresh h' = d_fresh h /\ d_item h' = <[n := (key, snd item)]> (d_item h).
Proof. intros Hi. unfold set_key. rewrite Hi. by eexists. Qed.

(** Taking a node out of a level and putting it back elsewhere. *)
Lemma move_level_spec h k c1' c2' c1 c2 n newP :
  linked h k (full (c1' ++ n :: c2')) -> c1' ++ c2' = c1 ++ c2 -> NoDup (c1' ++ n :: c2') ->
  real (c1' ++ n :: c2') -> get_prev h (hd tail c2) k = Some newP -> newP <> n ->
  exists h',
    (oldP ← get_prev h n k;
     oldQ ← get_next h n k;
     h ← set_prev h oldQ k (Some oldP);
     h ← set_next h oldP k (Some oldQ);
     link h n k newP (hd tail c2)) = Some h' /\
    linked h' k (full (c1 ++ n :: c2)) /\ level_only k h h'.
Proof.
  intros Hl E Hnd Hr HnewP Hne. assert (real (c1' ++ c2')) as Hr' by (intros x Hx; apply Hr; mem).
  assert (n <> head /\ n <> tail) as [Hh Ht] by (apply Hr; mem).
  destruct (full_split c1' c2' Hr') as (A' & p' & B' & E' & Ex' & _ & Hp' & Hq').
  rewrite E in Hr'. destruct (full_split c1 c2 Hr') as (A & p & B & EA & Ex & _ & Hp & Hq).
  rewrite Ex' in Hl. assert (NoDup (A' ++ p' :: n :: hd tail c2' :: B')) as Hnd'.
  { rewrite <- Ex'. by apply full_nodup. }
  pose proof Hl as (_ & Hpn & Hnp & HB)%linked_pair. cbn [linked] in HB. destruct HB as (Hnq & Hqn & _).
  unfold get_prev at 1, get_next at 1. rewrite Hnp, Hnq. cbn [mbind option_bind].
  destruct (bypass_spec h k A' p' n _ B' Hl Hnd' Hp' Hq') as (h1 & E1 & L1 & T1 & P1).
  destruct (set_prev h (hd tail c2') k (Some p')) as [h0|] eqn:E0; [|done]. cbn [mbind option_bind] in *.
  rewrite E1. cbn [mbind option_bind]. rewrite <- E', E, EA in L1.
  assert (newP = p) as ->.
  { pose proof L1 as (_ & _ & Hprev & _)%linked_pair. unfold get_prev in HnewP.
    destruct (decide (hd tail c2 = hd tail c2')) as [Eq|Nq].
    - rewrite Eq, Hqn in HnewP. cbn in HnewP. congruence.
    - rewrite P1 in Hprev by tauto. rewrite Hprev in HnewP. cbn in HnewP. congruence. }
  destruct (link_spec h1 k A p (hd tail c2) B n) as (h2 & -> & L2 & T2); try done.
  - rewrite <- Ex. apply full_nodup.
    + rewrite <- Permutation_middle in Hnd |- *. by rewrite <- E.
    + intros x Hx. apply Hr. assert (x = n \/ x ∈ c1 ++ c2) as [->|Hx'] by mem; [mem|]. rewrite <- E in Hx'. mem.
  - rewrite <- (sn_next _ _ (lo_same _ _ _ T1)). by rewrite Hnq.
  - rewrite <- (sn_prev _ _ (lo_same _ _ _ T1)). by rewrite Hnp.
  - exists h2. split; [done|]. split; [by rewrite Ex|]. by eapply touches_trans.
Qed.

(** The levels at which a node has to move: when it is in place at one, it is in
    place at those above. *)
Section Move.

Context (h0 : store D) (s1 s2 t1 t2 : list address) (n : address) (v : nat) (location : list address).

Context (Hv : d_level h0 !! n = Some v) (Heq : s1 ++ s2 = t1 ++ t2)
  (Hnd : NoDup (s1 ++ n :: s2)) (Hr : real (s1 ++ n :: s2))
  (Hloc : forall k, (k <= v)%nat -> exists q : nat, location !! k = Some q /\
    (q <> n -> q = hd tail (lev h0 k t2)) /\
    (forall h p, linked h k (full (lev h0 k (s1 ++ n :: s2))) -> get_prev h q k = Some p ->
      p = n \/ q = n -> forall j, (k <= j <= v)%nat -> lev h0 j (s1 ++ n :: s2) = lev h0 j (t1 ++ n :: t2))).

Lemma location_prev h k (q : nat) :
  (k <= v)%nat -> linked h k (full (lev h0 k (s1 ++ n :: s2))) -> location !! k = Some q ->
  exists p, get_prev h q k = Some p.
Proof using All.
  intros Hk Hl Hq. destruct (Hloc k Hk) as (q' & E & Hq' & _). rewrite Hq in E. injection E as <-.
  assert (q ∈ lev h0 k (s1 ++ n :: s2) ++ [tail]) as Hin.
  { destruct (decide (q = n)) as [->|Hne].
    - rewrite (lev_middle_in h0 k v) by done. mem.
    - rewrite (Hq' Hne). pose proof (hd_tail_elem (lev h0 k t2)) as Hhd.
      apply elem_of_app in Hhd as [(? & Hhd)%lev_elem|Hhd]; [|mem]. apply elem_of_app. left.
      rewrite lev_elem. split; [done|]. assert (hd tail (lev h0 k t2) ∈ s1 ++ s2) as Hs by (rewrite Heq; mem). mem. }
  apply list_elem_of_split in Hin as (A & B & E). unfold full in Hl. rewrite E in Hl.
  destruct A as [|p A _] using rev_ind.
  - cbn [app linked] in Hl. exists head. unfold get_prev. by rewrite (proj1 (proj2 Hl)).
  - rewrite <- app_assoc in Hl. cbn [app] in Hl. rewrite app_comm_cons in Hl.
    apply linked_pair in Hl as (_ & _ & Hp & _). exists p. unfold get_prev. by rewrite Hp.
Qed.

Lemma move_loop_spec h k count :
  (k + count <= S v)%nat -> d_level h = d_level h0 ->
  (forall j, (k <= j < k + count)%nat -> linked h j (full (lev h0 j (s1 ++ n :: s2)))) ->
  exists h', move_loop h location n k count = Some h' /\ touches (fun j => k <= j < k + count)%nat h h' /\
    forall j, (k <= j < k + count)%nat -> linked h' j (full (lev h0 j (t1 ++ n :: t2))).
Proof using All.
  revert h k. induction count as [|count IH]; intros h k Hk Hsame Hl; cbn [move_loop].
  { exists h. split; [done|]. split; [apply touches_refl|]. intros j Hj. lia. }
  destruct (Hloc k ltac:(lia)) as (q & Eq & Hq & Hstop). pose proof (Hl k ltac:(lia)) as Hlk.
  destruct (location_prev h k q ltac:(lia) Hlk Eq) as (p & Ep).
  rewrite Eq. cbn [mbind option_bind]. rewrite Ep. cbn [mbind option_bind].
  destruct ((p =? n)%nat || (q =? n)%nat) eqn:Estop.
  - exists h. split; [done|]. split; [apply touches_refl|]. intros j Hj.
    rewrite <- (Hstop h p Hlk Ep); [by apply Hl| |lia].
    apply orb_prop in Estop as [ ->%Nat.eqb_eq | ->%Nat.eqb_eq ]; tauto.
  - apply orb_false_elim in Estop as [Hp%Nat.eqb_neq Hqn%Nat.eqb_neq]. rewrite (Hq Hqn) in *.
    rewrite (lev_middle_in h0 k v) in Hlk by (done || lia).
    destruct (move_level_spec h k (lev h0 k s1) (lev h0 k s2) (lev h0 k t1) (lev h0 k t2) n p)
      as (h1 & E1 & L1 & T1); try done.
    { by rewrite <- !lev_app, Heq. }
    { by apply lev_middle_nodup. }
    { by apply lev_middle_real. }
    destruct (get_prev h n k) as [oldP|]; [|done]. cbn [mbind option_bind] in *.
    destruct (get_next h n k) as [oldQ|]; [|done]. cbn [mbind option_bind] in *.
    destruct (set_prev h oldQ k (Some oldP)) as [ha|]; [|done]. cbn [mbind option_bind] in *.
    destruct (set_next ha oldP k (Some oldQ)) as [hb|]; [|done]. cbn [mbind option_bind] in *.
    rewrite E1. cbn [mbind option_bind].
    destruct (IH h1 (S k)) as (h2 & -> & T2 & L2).
    { lia. }
    { by rewrite (sn_level _ _ (lo_same _ _ _ T1)). }
    { intros j Hj. eapply linked_touches; [exact T1|cbn; lia|]. apply Hl. lia. }
    exists h2. split; [done|]. split.
    + eapply touches_trans; (eapply touches_weaken; [|eassumption]); cbn; lia.
    + intros j Hj. destruct (decide (j = k)) as [->|]; [|apply L2; lia].
      eapply linked_touches; [exact T2|cbn; lia|]. by rewrite (lev_middle_in h0 k v) by (done || lia).
Qed.

End Move.

Lemma lev_nil_mono h k j ns : (k <= j)%nat -> lev h k ns = [] -> lev h j ns = [].
Proof.
  intros Hkj H. destruct (lev h j ns) as [|x r] eqn:E; [done|].
  assert (x ∈ lev h j ns) as (Hx & Hin)%lev_elem by (rewrite E; by left).
  assert (x ∈ lev h k ns) as Hk by (rewrite lev_elem; split; [lia|done]). rewrite H in Hk. by apply not_elem_of_nil in Hk.
Qed.

(** Where the search finds the new place of a node: later or earlier. *)
Lemma place_later h0 n v a m b :
  d_level h0 !! n = Some v -> NoDup (a ++ n :: m ++ b) -> real (a ++ n :: m ++ b) ->
  forall k, (k <= v)%nat -> exists q : nat, location_of h0 b (S v) !! k = Some q /\
    (q <> n -> q = hd tail (lev h0 k b)) /\
    (forall h p, linked h k (full (lev h0 k (a ++ n :: m ++ b))) -> get_prev h q k = Some p ->
      p = n \/ q = n ->
      forall j, (k <= j <= v)%nat -> lev h0 j (a ++ n :: m ++ b) = lev h0 j ((a ++ m) ++ n :: b)).
Proof.
  intros Hv Hnd Hr k Hk. exists (hd tail (lev h0 k b)). split; [by apply location_lookup; lia|]. split; [done|].
  intros h p Hl Hp Hpn j Hj.
  assert (n <> head /\ n <> tail) as [Hh Ht] by (apply Hr; mem).
  assert ((n ∉ m) /\ (n ∉ b)) as [Hnm Hnb].
  { rewrite <- Permutation_middle in Hnd. apply list.NoDup_cons in Hnd as [Hn _].
    rewrite !elem_of_app in Hn. tauto. }
  assert (hd tail (lev h0 k b) <> n) as Hq.
  { pose proof (hd_tail_elem (lev h0 k b)) as Hin. intros E. rewrite E in Hin.
    apply elem_of_app in Hin as [(_ & ?)%lev_elem|?%list_elem_of_singleton]; [done|congruence]. }
  destruct Hpn as [->|?]; [|done].
  assert (lev h0 k m = []) as Hm.
  { destruct (lev h0 k m) as [|x r _] eqn:Em using rev_ind; [done|exfalso].
    assert (x ∈ m) as Hx by (assert (x ∈ lev h0 k m) as (_ & ?)%lev_elem by (rewrite Em; mem); done).
    rewrite (lev_middle_in h0 k v) in Hl by done. rewrite lev_app, Em, full_app in Hl. cbn [app] in Hl.
    assert (exists B, lev h0 k b ++ [tail] = hd tail (lev h0 k b) :: B) as [B EB] by (destruct (lev h0 k b); by eexists).
    rewrite <- !app_assoc, EB in Hl. cbn [app] in Hl.
    change (head :: lev h0 k a ++ n :: r ++ x :: hd tail (lev h0 k b) :: B) with
      ((head :: lev h0 k a) ++ n :: r ++ x :: hd tail (lev h0 k b) :: B) in Hl.
    rewrite (app_comm_cons r), app_assoc in Hl. apply linked_pair in Hl as (_ & _ & Hprev & _).
    unfold get_prev in Hp. rewrite Hprev in Hp. cbn in Hp. injection Hp as ->. done. }
  rewrite !(lev_middle_in h0 j v) by (done || lia). rewrite !lev_app.
  rewrite (lev_nil_mono h0 k j m) by (done || lia). by rewrite app_nil_r.
Qed.

Lemma place_earlier h0 n v a m b :
  d_level h0 !! n = Some v -> NoDup ((a ++ m) ++ n :: b) -> real ((a ++ m) ++ n :: b) ->
  forall k, (k <= v)%nat -> exists q : nat, location_of h0 (m ++ n :: b) (S v) !! k = Some q /\
    (q <> n -> q = hd tail (lev h0 k (m ++ b))) /\
    (forall h p, linked h k (full (lev h0 k ((a ++ m) ++ n :: b))) -> get_prev h q k = Some p ->
      p = n \/ q = n ->
      forall j, (k <= j <= v)%nat -> lev h0 j ((a ++ m) ++ n :: b) = lev h0 j (a ++ n :: m ++ b)).
Proof.
  intros Hv Hnd Hr k Hk. exists (hd tail (lev h0 k (m ++ n :: b))).
  split; [by apply location_lookup; lia|]. rewrite (lev_middle_in h0 k v) by done.
  assert ((n ∉ a) /\ (n ∉ m)) as [Hna Hnm].
  { rewrite <- Permutation_middle in Hnd. apply list.NoDup_cons in Hnd as [Hn _].
    rewrite !elem_of_app in Hn. tauto. }
  split.
  { rewrite lev_app. destruct (lev h0 k m); [done|done]. }
  intros h p Hl Hp Hpn j Hj.
  assert (n <> head /\ n <> tail) as [Hh Ht] by (apply Hr; mem).
  assert (lev h0 k m = []) as Hm.
  { destruct (lev h0 k m) as [|x r] eqn:Em; [done|exfalso]. cbn [hd app] in *.
    assert (x ∈ m) as Hx by (assert (x ∈ lev h0 k m) as (_ & ?)%lev_elem by (rewrite Em; mem); done).
    rewrite (lev_middle_in h0 k v) in Hl by done. rewrite lev_app, Em, full_app in Hl.
    rewrite <- app_assoc in Hl. cbn [app] in Hl. rewrite app_comm_cons in Hl.
    destruct (exists_last (l := head :: lev h0 k a) ltac:(done)) as (A & y & EA).
    rewrite EA, <- app_assoc in Hl. cbn [app] in Hl. apply linked_pair in Hl as (_ & _ & Hprev & _).
    unfold get_prev in Hp. rewrite Hprev in Hp. cbn in Hp. injection Hp as ->.
    destruct Hpn as [->| ->]; [|done].
    assert (n ∈ head :: lev h0 k a) as Hin by (rewrite EA; mem).
    apply elem_of_cons in Hin as [?|(_ & ?)%lev_elem]; done. }
  rewrite !(lev_middle_in h0 j v) by (done || lia). rewrite !lev_app.
  rewrite (lev_nil_mono h0 k j m) by (done || lia). by rewrite app_nil_r.
Qed.

(** The new place of a pair among the others. *)
Lemma key_split_cases key La (e0 : entry) Lb L1 L2 :
  key_split key (La ++ e0 :: Lb) L1 L2 ->
  (exists Lm, Lb = Lm ++ L2 /\ key_split key (La ++ Lb) (La ++ Lm) L2) \/
  (exists Lm, La = L1 ++ Lm /\ L2 = Lm ++ e0 :: Lb /\ key_split key (La ++ Lb) L1 (Lm ++ Lb)).
Proof.
  intros (E & H1 & H2). apply app_eq_app in E as (Lm & [[-> E]|[-> E]]).
  - right. exists Lm. split; [done|]. split; [done|]. subst L2. split; [by rewrite <- app_assoc|]. split; [done|].
    by apply Forall_remove in H2.
  - destruct Lm as [|x Lm].
    + right. exists []. cbn [app] in E. subst L2. rewrite !app_nil_r in *. split; [done|]. split; [done|].
      split; [done|]. split; [done|]. by apply Forall_cons_iff in H2 as [_ ?].
    + left. injection E as <- ->. exists Lm. split; [done|]. split; [by rewrite <- app_assoc|]. split; [|done].
      by apply Forall_remove in H1.
Qed.

(** The loop of [moveImp] on the nodes of the list: [T1] and [T2] are the other
    pairs before and after the new place. *)
Lemma move_nodes l La n item Lb key L1 L2 h :
  rep l (La ++ (n, item) :: Lb) -> key_split key (La ++ (n, item) :: Lb) L1 L2 ->
  d_level h = d_level (d_nodes l) -> d_next_p h = d_next_p (d_nodes l) -> d_prev_p h = d_prev_p (d_nodes l) ->
  exists T1 T2 v h',
    key_split key (La ++ Lb) T1 T2 /\ d_level (d_nodes l) !! n = Some v /\ (v <= d_listLevel l)%nat /\
    move_loop h (location_of (d_nodes l) L2.*1 (S (d_listLevel l))) n 0 (S v) = Some h' /\
    touches (fun j => j < S v)%nat h h' /\ linked_all h' (T1.*1 ++ n :: T2.*1).
Proof.
  intros H Hsplit Hl Hn Hp.
  destruct (rep_node _ _ _ _ _ H) as (v & _ & Hv & Hvl & _ & _ & Hnd & Hr & _ & _).
  pose proof (r_listLevel _ _ H) as Hmax.
  assert (exists T1 T2, key_split key (La ++ Lb) T1 T2 /\
    forall k, (k <= v)%nat -> exists q : nat, location_of (d_nodes l) L2.*1 (S v) !! k = Some q /\
      (q <> n -> q = hd tail (lev (d_nodes l) k T2.*1)) /\
      (forall h p, linked h k (full (lev (d_nodes l) k (La.*1 ++ n :: Lb.*1))) -> get_prev h q k = Some p ->
        p = n \/ q = n -> forall j, (k <= j <= v)%nat ->
        lev (d_nodes l) j (La.*1 ++ n :: Lb.*1) = lev (d_nodes l) j (T1.*1 ++ n :: T2.*1)))
    as (T1 & T2 & HT & Hloc).
  { destruct (key_split_cases _ _ _ _ _ _ Hsplit) as [(Lm & -> & HT)|(Lm & -> & -> & HT)]; eexists _, _;
      (split; [exact HT|]); rewrite !fmap_app in *; cbn [fmap list_fmap fst] in *.
    - by apply place_later.
    - by apply place_earlier. }
  assert (La.*1 ++ Lb.*1 = T1.*1 ++ T2.*1) as HET by (rewrite <- !fmap_app; by rewrite (proj1 HT)).
  exists T1, T2, v.
  destruct (move_loop_spec (d_nodes l) La.*1 Lb.*1 T1.*1 T2.*1 n v
    (location_of (d_nodes l) L2.*1 (S (d_listLevel l)))) with (h := h) (k := 0%nat) (count := S v)
    as (h' & E & T & Hl'); try done.
  { intros k Hk. destruct (Hloc k Hk) as (q & Hq & Hrest). exists q. split; [|done].
    rewrite location_lookup in * by lia. done. }
  { intros j Hj. pose proof (r_linked _ _ H j ltac:(lia)) as Hlj. rewrite fmap_app, fmap_cons in Hlj.
    destruct (full _) as [|x r] eqn:E; [done|]. eapply linked_frame_right; [| |exact Hlj]; intros; by rewrite ?Hn, ?Hp. }
  exists h'. split_and!; try done.
  { eapply touches_weaken; [|exact T]. cbn. lia. }
  intros k Hk. rewrite (lev_same (d_nodes l)) by (rewrite (sn_level _ _ (lo_same _ _ _ T)); done).
  destruct (decide (k < S v)%nat) as [Hlt|Hge]; [apply Hl'; lia|].
  eapply linked_touches; [exact T|cbn; lia|].
  rewrite (lev_middle_out _ k v) by (done || lia). rewrite <- HET.
  rewrite <- (lev_middle_out _ k v n) by (done || lia).
  pose proof (r_linked _ _ H k Hk) as Hlk. rewrite fmap_app, fmap_cons in Hlk.
  destruct (full _) as [|x r] eqn:E'; [done|]. eapply linked_frame_right; [| |exact Hlk]; intros; by rewrite ?Hn, ?Hp.
Qed.

Lemma rep_moved l La n key0 data Lb newKey T1 T2 h h' v :
  rep l (La ++ (n, (key0, data)) :: Lb) -> key_split newKey (La ++ Lb) T1 T2 ->
  d_level h = d_level (d_nodes l) -> d_next_p h = d_next_p (d_nodes l) -> d_prev_p h = d_prev_p (d_nodes l) ->
  d_fresh h = d_fresh (d_nodes l) -> d_item h = <[n := (newKey, data)]> (d_item (d_nodes l)) ->
  touches (fun j => j < S v)%nat h h' -> linked_all h' (T1.*1 ++ n :: T2.*1) ->
  rep {| d_rand := d_rand l; d_listLevel := d_listLevel l; d_length := d_length l; d_nodes := h' |}
    (T1 ++ (n, (newKey, data)) :: T2).
Proof.
  intros H HT El En Ep Ef Ei T Hl. pose proof (lo_same _ _ _ T) as Same.
  destruct (rep_node _ _ _ _ _ H) as (_ & _ & _ & _ & _ & _ & Hnd & _).
  assert (T1.*1 ++ n :: T2.*1 ≡ₚ La.*1 ++ n :: Lb.*1) as Hperm.
  { rewrite <- !Permutation_middle. f_equiv. rewrite <- !fmap_app. by rewrite (proj1 HT). }
  assert (n ∉ (T1 ++ T2).*1) as Hn.
  { rewrite fmap_app. pose proof Hnd as Hnd'. rewrite <- Hperm, <- Permutation_middle in Hnd'.
    by apply list.NoDup_cons in Hnd' as [? _]. }
  split; cbn [d_nodes d_rand d_listLevel d_length]; rewrite ?fmap_app, ?fmap_cons; cbn [fst].
  - done.
  - intros k Hk. rewrite (lo_prev _ _ _ T), (lo_next _ _ _ T) by tauto. rewrite En, Ep. by apply H.
  - rewrite (sn_item _ _ Same), Ei. pose proof (Forall_remove _ _ _ _ (r_item _ _ H)) as Hi.
    rewrite (proj1 HT) in Hi. apply Forall_middle; [|cbn; by rewrite lookup_insert_eq].
    rewrite list.Forall_forall in *. intros e He. rewrite lookup_insert_ne; [by apply Hi|].
    intros ->. apply Hn. by apply list_elem_of_fmap_2.
  - rewrite (sn_level _ _ Same), El, Hperm. pose proof (r_level _ _ H) as Hlev.
    by rewrite fmap_app, fmap_cons in Hlev.
  - by rewrite Hperm.
  - rewrite (sn_fresh _ _ Same), Ef, Hperm. pose proof (r_ids _ _ H) as Hi. by rewrite fmap_app, fmap_cons in Hi.
  - apply (key_split_sorted (n, (newKey, data)) (La ++ Lb)); [|done]. eapply StronglySorted_remove, H.
  - assert (length (La ++ Lb) = length (T1 ++ T2)) as E by by rewrite (proj1 HT).
    rewrite (r_length _ _ H). rewrite !length_app in *. cbn [length]. lia.
  - apply H.
  - rewrite (sn_fresh _ _ Same), Ef. apply H.
Qed.

Lemma updateR_models l La n key0 data Lb newKey :
  rep l (La ++ (n, (key0, data)) :: Lb) ->
  exists l', let L' := insert_upper (n, (newKey, data)) (La ++ Lb) in
    updateR n newKey l = Some (Some (at_front n L'), l') /\ rep l' L' /\
    d_fresh (d_nodes l') = d_fresh (d_nodes l).
Proof.
  intros H. destruct (rep_node _ _ _ _ _ H) as (v & next & Hv & Hvl & Hnext & Hitem & Hnd & Hr & _ & _).
  unfold updateR. rewrite Hnext. cbn [mbind option_bind].
  destruct (insert_upper_split (n, (newKey, data)) _ (r_sorted _ _ H)) as (L1 & L2 & Hsplit & _).
  cbn [fst snd] in Hsplit.
  destruct (lookup_spec (d_nodes l) (d_length l) (d_listLevel l) (d_rand l) newKey _ L1 L2
    (r_linked _ _ H) (rep_real _ _ H) (r_item _ _ H) Hsplit (r_length _ _ H) (r_listLevel _ _ H)) as [HR _].
  cbn zeta in HR. assert (lookupImpUpperBoundR l newKey = Some (location_of (d_nodes l) L2.*1 (S (d_listLevel l)))) as ->.
  { by destruct l. }
  cbn [mbind option_bind]. destruct (set_key_spec (d_nodes l) n newKey _ Hitem) as (h & -> & El & En & Ep & Ef & Ei).
  cbn [mbind option_bind]. unfold moveImp. cbn [d_nodes d_listLevel d_rand d_length].
  destruct (move_nodes l La n _ Lb newKey L1 L2 h H Hsplit El En Ep)
    as (T1 & T2 & w & h' & HT & Hw & _ & Emove & T & Hl').
  rewrite Hv in Hw. injection Hw as <-. rewrite El, Hv. cbn [mbind option_bind].
  rewrite (proj2 (Nat.leb_le _ _)), Emove by done. cbn [mbind option_bind].
  rewrite (key_split_insert (n, (newKey, data)) _ T1 T2 HT).
  pose proof (rep_moved l La n key0 data Lb newKey T1 T2 h h' v H HT El En Ep Ef Ei T Hl') as H'.
  rewrite (is_front_spec h' n T1 T2 newKey data).
  - cbn [mbind option_bind]. eexists. split; [done|]. split; [done|]. cbn [d_nodes].
    by rewrite (sn_fresh _ _ (lo_same _ _ _ T)).
  - rewrite fmap_app, fmap_cons. specialize (Hl' 0%nat ltac:(lia)). by rewrite lev_zero in Hl'.
  - apply (r_nodup _ _ H').
  - apply (rep_real _ _ H').
Qed.

(** ** Access *)

Lemma first_spec l L : rep l L -> get_next (d_nodes l) head 0 = Some (hd tail L.*1).
Proof.
  intros H. pose proof (r_linked _ _ H 0%nat ltac:(lia)) as Hl. rewrite lev_zero in Hl.
  unfold full in Hl. destruct L as [|e L]; cbn [fmap list_fmap app linked hd] in *; unfold get_next;
    by rewrite (proj1 Hl).
Qed.

Lemma front_spec l L : rep l L -> front l = Some (fst <$> hd_error L).
Proof.
  intros H. unfold front. rewrite (first_spec _ _ H). cbn [mbind option_bind].
  pose proof (rep_real _ _ H) as Hr. destruct L as [|e L]; [done|]. cbn [fmap list_fmap hd] in *.
  destruct (Hr e.1) as [_ Ht]; [by left|]. by rewrite (proj2 (Nat.eqb_neq _ _)).
Qed.

Lemma isEmpty_spec l L : rep l L -> isEmpty l = Some (match L with [] => true | _ => false end).
Proof.
  intros H. unfold isEmpty. rewrite (first_spec _ _ H). cbn [mbind option_bind].
  pose proof (rep_real _ _ H) as Hr. destruct L as [|e L]; [done|]. cbn [fmap list_fmap hd] in *.
  destruct (Hr e.1) as [_ Ht]; [by left|]. by rewrite (proj2 (Nat.eqb_neq _ _)).
Qed.

Lemma skipForward_spec l A e B :
  rep l (A ++ e :: B) -> skipForward l e.1 = Some (Some (fst <$> hd_error B)).
Proof.
  intros H. destruct e as [n item]. destruct (rep_node _ _ _ _ _ H) as (_ & _ & _ & _ & _ & _ & _ & Hr & Hh & Ht).
  cbn [fst]. unfold skipForward. rewrite !(proj2 (Nat.eqb_neq _ _)) by done. cbn [negb].
  pose proof (r_linked _ _ H 0%nat ltac:(lia)) as Hl. rewrite lev_zero, fmap_app, fmap_cons, full_app in Hl.
  destruct B as [|b B]; cbn [fmap list_fmap app fst] in *; rewrite app_comm_cons in Hl.
  - apply linked_pair in Hl as (_ & -> & _). done.
  - apply linked_pair in Hl as (_ & -> & _). cbn [mbind option_bind].
    destruct (Hr b.1) as [_ Hb]; [mem|]. by rewrite (proj2 (Nat.eqb_neq _ _)).
Qed.

Lemma item_spec l A n item B : rep l (A ++ (n, item) :: B) -> d_item (d_nodes l) !! n = Some item.
Proof. intros H. by destruct (rep_node _ _ _ _ _ H) as (_ & _ & _ & _ & _ & ? & _). Qed.

(** ** Removing all pairs *)

(** The previous pointers at the lowest level. *)
Fixpoint back h (a : address) (ns : list address) : Prop :=
  match ns with
  | [] => True
  | b :: ns => d_prev_p h !! (b, 0%nat) = Some (Some a) /\ back h b ns
  end.

Lemma linked_back h a ns : linked h 0 (a :: ns) -> back h a ns.
Proof.
  revert a. induction ns as [|b ns IH]; intros a; [done|]. cbn [linked back]. intros (_ & Hp & Hl).
  split; [done|]. by apply IH.
Qed.

Lemma back_snoc h a ns b :
  back h a (ns ++ [b]) <-> back h a ns /\ d_prev_p h !! (b, 0%nat) = Some (Some (List.last ns a)).
Proof.
  revert a. induction ns as [|c ns IH]; intros a; cbn [app back]; [cbn; tauto|].
  rewrite IH. destruct ns as [|d ns]; [cbn; tauto|]. rewrite (last_default d ns c a).
  change (List.last (c :: d :: ns) a) with (List.last (d :: ns) a). tauto.
Qed.

Lemma back_ext h h' a ns :
  (forall x, x ∈ ns -> d_prev_p h' !! (x, 0%nat) = d_prev_p h !! (x, 0%nat)) -> back h a ns -> back h' a ns.
Proof.
  revert a. induction ns as [|b ns IH]; intros a He; [done|]. cbn [back]. intros [Hp Hb]. rewrite He by by left.
  split; [done|]. apply IH; [|done]. intros x Hx. apply He. by right.
Qed.

Lemma mark_loop_spec fuel h ns :
  back h head ns -> real ns -> NoDup ns -> (length ns <= fuel)%nat ->
  (forall x, x ∈ ns -> is_Some (d_next_p h !! (x, 0%nat))) ->
  exists h', mark_loop fuel h (List.last ns head) = Some h' /\ same_nodes h h' /\ d_prev_p h' = d_prev_p h /\
    (forall x, x ∈ ns -> d_next_p h' !! (x, 0%nat) = Some None) /\
    next_but h h' (fun x k => x ∈ ns /\ k = 0%nat).
Proof.
  revert fuel h. induction ns as [|q ns IH] using rev_ind; intros fuel h Hb Hr Hnd Hf Hn.
  - exists h. split; [by destruct fuel|]. split; [apply same_nodes_refl|]. split; [done|].
    split; [by intros x ?%not_elem_of_nil|done].
  - rewrite List.last_last. destruct (Hr q ltac:(mem)) as [Hq _]. rewrite length_app in Hf. cbn [length] in Hf.
    destruct fuel as [|fuel]; [lia|]. cbn [mark_loop]. rewrite (proj2 (Nat.eqb_neq _ _)) by done.
    destruct (set_next_spec h q 0 None) as (h1 & E1 & S1 & V1 & N1 & P1); [apply Hn; mem|].
    rewrite E1. cbn [mbind option_bind]. apply back_snoc in Hb as [Hb Hp].
    assert (d_prev_p h1 = d_prev_p h) as Ep.
    { unfold set_next in E1. destruct (bool_decide _); [|done]. by injection E1 as <-. }
    unfold get_prev. rewrite Ep, Hp. cbn [mbind option_bind].
    apply list.NoDup_app in Hnd as (Hnd & Hqn & _).
    destruct (IH fuel h1) as (h2 & -> & S2 & Ep2 & V2 & N2).
    + eapply back_ext; [|exact Hb]. intros x _. by rewrite Ep.
    + intros x Hx. apply Hr. mem.
    + done.
    + lia.
    + intros x Hx. rewrite <- (sn_next _ _ S1). apply Hn. mem.
    + exists h2. split; [done|]. split; [by eapply same_nodes_trans|]. split; [by rewrite Ep2|]. split.
      * intros x Hx. apply elem_of_app in Hx as [Hx| ->%list_elem_of_singleton]; [by apply V2|].
        rewrite N2; [done|]. intros [Hx _]. apply (Hqn q Hx). by left.
      * intros x k Hx. rewrite N2, N1; [done| |]; intros [? ->]; apply Hx; (split; [|done]); subst; mem.
Qed.

Lemma release_loop_spec fuel h ns :
  back h head ns -> real ns -> NoDup ns -> (length ns <= fuel)%nat ->
  (forall x, x ∈ ns -> d_next_p h !! (x, 0%nat) = Some None /\ is_Some (d_level h !! x)) ->
  exists h', release_loop fuel h (List.last ns head) = Some h' /\ d_fresh h' = d_fresh h /\
    (forall x k, x ∉ ns -> d_next_p h' !! (x, k) = d_next_p h !! (x, k) /\
      d_prev_p h' !! (x, k) = d_prev_p h !! (x, k)).
Proof.
  revert fuel h. induction ns as [|q ns IH] using rev_ind; intros fuel h Hb Hr Hnd Hf Hn.
  - exists h. split; [by destruct fuel|]. done.
  - rewrite List.last_last. destruct (Hr q ltac:(mem)) as [Hq _]. rewrite length_app in Hf. cbn [length] in Hf.
    destruct fuel as [|fuel]; [lia|]. cbn [release_loop]. rewrite (proj2 (Nat.eqb_neq _ _)) by done.
    apply back_snoc in Hb as [Hb Hp]. unfold get_prev. rewrite Hp. cbn [mbind option_bind].
    destruct (Hn q ltac:(mem)) as [Hqn [v Hv]]. unfold releaseNode. rewrite bool_decide_true, Hv by done.
    cbn [mbind option_bind]. set (h1 := {| d_level := _ |}).
    apply list.NoDup_app in Hnd as (Hnd & Hqns & _).
    assert (q ∉ ns) as Hqns' by (intros Hx; apply (Hqns q Hx); by left).
    assert (forall x k, x <> q -> d_next_p h1 !! (x, k) = d_next_p h !! (x, k) /\
      d_prev_p h1 !! (x, k) = d_prev_p h !! (x, k)) as Hother.
    { intros x k Hx. unfold h1. cbn [d_next_p d_prev_p]. rewrite !free_pointers_lookup.
      by rewrite !decide_False by tauto. }
    destruct (IH fuel h1) as (h2 & -> & Ef & E2).
    + eapply back_ext; [|exact Hb]. intros x Hx. apply Hother. congruence.
    + intros x Hx. apply Hr. mem.
    + done.
    + lia.
    + intros x Hx. assert (x <> q) as Hne by congruence. rewrite (proj1 (Hother x 0%nat Hne)).
      unfold h1. cbn [d_level]. rewrite lookup_delete_ne by congruence. apply Hn. mem.
    + exists h2. split; [done|]. split; [done|]. intros x k Hx. rewrite not_elem_of_app, list_elem_of_singleton in Hx.
      destruct (E2 x k (proj1 Hx)) as [-> ->]. apply Hother. tauto.
Qed.

Lemma reset_levels_spec h count :
  (forall k, (k < count)%nat -> is_Some (d_next_p h !! (head, k)) /\ is_Some (d_prev_p h !! (tail, k))) ->
  exists h', reset_levels h count = Some h' /\ same_nodes h h' /\
    (forall k, (k < count)%nat -> linked h' k [head; tail]) /\
    next_but h h' (fun x k => x = head /\ k < count)%nat /\ prev_but h h' (fun x k => x = tail /\ k < count)%nat.
Proof.
  induction count as [|k IH]; intros He; cbn [reset_levels].
  { exists h. split; [done|]. split; [apply same_nodes_refl|]. split; [lia|]. done. }
  destruct IH as (h1 & -> & S1 & L1 & N1 & P1); [intros j Hj; apply He; lia|]. cbn [mbind option_bind].
  destruct (set_next_spec h1 head k (Some tail)) as (h2 & -> & S2 & V2 & N2 & P2).
  { rewrite <- (sn_next _ _ S1). apply He. lia. }
  cbn [mbind option_bind].
  destruct (set_prev_spec h2 tail k (Some head)) as (h3 & -> & S3 & V3 & P3 & N3).
  { rewrite P2 by tauto. rewrite <- (sn_prev _ _ S1). apply He. lia. }
  exists h3. split; [done|]. split; [by repeat (eapply same_nodes_trans; [eassumption|])|]. split; [|split].
  - intros j Hj. destruct (decide (j = k)) as [->|Hne]; cbn [linked].
    + split; [by rewrite N3 by tauto|]. by split.
    + destruct (L1 j ltac:(lia)) as (Hn & Hp & _). rewrite N3, N2, P3, P2 by (intuition congruence). done.
  - intros x j Hx. rewrite N3, N2, N1; [done|..]; intuition lia.
  - intros x j Hx. rewrite P3, P2, P1; [done|..]; intuition lia.
Qed.

Lemma rep_nil g listLevel h :
  (forall k, (k <= 31)%nat -> linked h k [head; tail]) ->
  (forall k, (k <= 31)%nat -> d_prev_p h !! (head, k) = Some None /\ d_next_p h !! (tail, k) = Some None) ->
  (listLevel <= 31)%nat -> (2 <= d_fresh h)%nat ->
  rep {| d_rand := g; d_listLevel := listLevel; d_length := 0; d_nodes := h |} [].
Proof. intros Hl Hn Hlev Hf. split; cbn [d_nodes d_rand d_listLevel d_length]; try done; constructor. Qed.

(** The list above the lowest level is empty at the levels no node has. *)
Lemma rep_above l L k : rep l L -> (d_listLevel l < k)%nat -> lev (d_nodes l) k L.*1 = [].
Proof.
  intros H Hk. apply lev_nil. eapply List.Forall_impl; [|apply (r_level _ _ H)]. cbn.
  intros x (w & Hw & Hle). exists w. split; [done|lia].
Qed.

Lemma removeAll_spec l L :
  rep l L -> exists l', removeAll l = Some (length L, l') /\ rep l' [] /\
    d_fresh (d_nodes l') = d_fresh (d_nodes l).
Proof.
  intros H. pose proof (r_listLevel _ _ H) as Hmax. pose proof (rep_real _ _ H) as Hr.
  pose proof (r_linked _ _ H 0%nat ltac:(lia)) as Hl0. rewrite lev_zero in Hl0.
  pose proof Hl0 as (Hb & Hlast)%linked_back%back_snoc.
  unfold removeAll, get_prev. rewrite Hlast. cbn [mbind option_bind].
  assert (forall k, (k <= 31)%nat -> is_Some (d_next_p (d_nodes l) !! (head, k)) /\
    is_Some (d_prev_p (d_nodes l) !! (tail, k))) as Hends.
  { intros k Hk. pose proof (r_linked _ _ H k Hk) as Hl. split.
    - unfold full in Hl. destruct (_ ++ _) as [|x r] eqn:E; [by destruct (lev _ _ _)|].
      cbn [linked] in Hl. by rewrite (proj1 Hl).
    - destruct (exists_last (l := head :: lev (d_nodes l) k L.*1) ltac:(done)) as (A & p & E).
      unfold full in Hl. rewrite app_comm_cons, E, <- app_assoc in Hl. cbn [app] in Hl.
      apply linked_pair in Hl as (_ & _ & -> & _). done. }
  destruct (reset_levels_spec (d_nodes l) (S (d_listLevel l))) as (h1 & -> & S1 & L1 & N1 & P1).
  { intros k Hk. apply Hends. lia. }
  cbn [mbind option_bind].
  assert (forall x, x ∈ L.*1 -> exists v, d_level (d_nodes l) !! x = Some v /\
    is_Some (d_next_p (d_nodes l) !! (x, 0%nat))) as Hnode.
  { intros x Hx. apply list_elem_of_fmap in Hx as ([n item] & -> & He).
    apply list_elem_of_split in He as (A & B & ->).
    destruct (rep_node _ _ _ _ _ H) as (v & next & Hv & _ & Hnext & _). exists v. cbn [fst]. by rewrite Hnext. }
  assert (length L.*1 <= d_length l)%nat as Hlen by (rewrite length_fmap, (r_length _ _ H); done).
  destruct (mark_loop_spec (d_length l) h1 L.*1) as (h2 & -> & S2 & Ep2 & V2 & N2); try done.
  { eapply back_ext; [|exact Hb]. intros x Hx. apply P1. intros [-> _]. by apply Hr in Hx as [_ ?]. }
  { apply H. }
  { intros x Hx. rewrite <- (sn_next _ _ S1). by destruct (Hnode x Hx) as (v & _ & ?). }
  cbn [mbind option_bind].
  destruct (release_loop_spec (d_length l) h2 L.*1) as (h3 & -> & Ef & E3); try done.
  { eapply back_ext; [|exact Hb]. intros x Hx. rewrite Ep2. apply P1. intros [-> _]. by apply Hr in Hx as [_ ?]. }
  { apply H. }
  { intros x Hx. split; [by apply V2|]. rewrite (sn_level _ _ S2), (sn_level _ _ S1).
    destruct (Hnode x Hx) as (v & -> & _). done. }
  cbn [mbind option_bind]. rewrite (r_length _ _ H). eexists. split; [done|].
  assert (head ∉ L.*1) as Hh by (intros Hx; by apply Hr in Hx as [? _]).
  assert (tail ∉ L.*1) as Ht by (intros Hx; by apply Hr in Hx as [_ ?]).
  cbn [d_nodes]. assert (d_fresh h3 = d_fresh (d_nodes l)) as Hfresh.
  { by rewrite Ef, (sn_fresh _ _ S2), (sn_fresh _ _ S1). }
  split; [|done]. apply rep_nil; [..|lia|].
  - intros k Hk. cbn [linked]. rewrite (proj1 (E3 head k Hh)), (proj2 (E3 tail k Ht)), Ep2, N2 by tauto.
    destruct (decide (k < S (d_listLevel l))%nat) as [Hlt|Hge]; [by apply L1|].
    rewrite N1, P1 by lia. pose proof (r_linked _ _ H k Hk) as Hl. rewrite rep_above in Hl by (done || lia). done.
  - intros k Hk. rewrite (proj1 (E3 tail k Ht)), (proj2 (E3 head k Hh)), Ep2, N2 by tauto.
    rewrite N1, P1 by (intros [? _]; done). by apply H.
  - rewrite Hfresh. apply H.
Qed.

(** ** A new list *)

Lemma initialize_loop_spec count h :
  (forall k, (k < count)%nat ->
    linked (initialize_loop count h) k [head; tail] /\
    d_prev_p (initialize_loop count h) !! (head, k) = Some None /\
    d_next_p (initialize_loop count h) !! (tail, k) = Some None) /\
  d_fresh (initialize_loop count h) = d_fresh h.
Proof.
  induction count as [|c [IH Hf]]; [split; [lia|done]|]. cbn [initialize_loop d_fresh]. split; [|done].
  intros k Hk. cbn [linked d_next_p d_prev_p]. destruct (decide (k = c)) as [->|Hne].
  - by repeat first [rewrite lookup_insert_eq | rewrite lookup_insert_ne by (unfold head, tail; congruence)].
  - destruct (IH k ltac:(lia)) as ((Hn & Hp & _) & Hh & Ht).
    rewrite !lookup_insert_ne by (unfold head, tail; congruence). done.
Qed.

Lemma initialize_spec g : rep (initialize g) [].
Proof.
  unfold initialize. set (h0 := {| d_level := _ |}).
  destruct (initialize_loop_spec (S k_MAX_LEVEL) h0) as [H Hf]. unfold k_MAX_LEVEL in *.
  apply rep_nil; [..|lia|by rewrite Hf]; intros k Hk; apply H; lia.
Qed.

(** ** The invariants that the code checks *)

Lemma linked_node h k ns x :
  linked h k (full ns) -> x ∈ ns -> exists p q, get_prev h x k = Some p /\ get_next h x k = Some q.
Proof.
  intros Hl (A & B & ->)%list_elem_of_split. rewrite full_app in Hl. cbn [app] in Hl.
  destruct (exists_last (l := head :: A) ltac:(done)) as (A' & p & E).
  rewrite app_comm_cons, E, <- app_assoc in Hl. cbn [app] in Hl.
  pose proof Hl as (_ & _ & Hp & HB)%linked_pair.
  destruct (B ++ [tail]) as [|q r] eqn:EB; [by destruct B|]. cbn [linked] in HB.
  exists p, q. unfold get_prev, get_next. by rewrite Hp, (proj1 HB).
Qed.

Lemma check_pointers_spec h x count :
  (forall k, (k < count)%nat -> exists p q, get_prev h x k = Some p /\ get_next h x k = Some q) ->
  check_pointers h x count = Some tt.
Proof.
  induction count as [|k IH]; intros H; [done|]. cbn [check_pointers].
  destruct (H k ltac:(lia)) as (p & q & -> & ->). cbn [mbind option_bind]. apply IH. intros j Hj. apply H. lia.
Qed.

Lemma check_level_spec fuel h listLevel k p ns num :
  linked h k (p :: ns ++ [tail]) -> real ns -> (length ns <= fuel)%nat ->
  (forall x, x ∈ ns -> (exists v, d_level h !! x = Some v /\ (k <= v <= listLevel)%nat) /\
    check_pointers h x k = Some tt) ->
  check_level fuel h listLevel k p (hd tail ns) num = Some (num + length ns)%nat.
Proof.
  revert fuel p num. induction ns as [|q ns IH]; intros fuel p num Hl Hr Hf Hns.
  - cbn [hd]. rewrite Nat.add_0_r. by destruct fuel.
  - cbn [hd]. destruct (Hr q) as [_ Hq]; [by left|]. destruct fuel as [|fuel]; [cbn in Hf; lia|].
    cbn [check_level]. rewrite (proj2 (Nat.eqb_neq _ _)) by done.
    cbn [app linked] in Hl. destruct Hl as (_ & Hp & Hl). unfold get_prev. rewrite Hp. cbn [mbind option_bind].
    rewrite Nat.eqb_refl. destruct (Hns q) as [(v & -> & Hv) Hc]; [by left|]. cbn [mbind option_bind].
    rewrite !(proj2 (Nat.leb_le _ _)), Hc by lia. cbn [mbind option_bind].
    assert (get_next h q k = Some (hd tail ns)) as ->.
    { unfold get_next. destruct ns as [|x ns]; cbn [app linked hd] in *; by rewrite (proj1 Hl). }
    cbn [mbind option_bind]. rewrite (IH fuel q (S num)).
    + f_equal. cbn. lia.
    + done.
    + intros x Hx. apply Hr. by right.
    + cbn in Hf. lia.
    + intros x Hx. apply Hns. by right.
Qed.

Lemma check_levels_spec l L count : rep l L -> (count <= S (d_listLevel l))%nat -> check_levels l count = Some tt.
Proof.
  intros H. pose proof (r_listLevel _ _ H) as Hmax. pose proof (rep_real _ _ H) as Hr.
  induction count as [|k IH]; intros Hc; [done|]. cbn [check_levels]. rewrite IH by lia. cbn [mbind option_bind].
  pose proof (r_linked _ _ H k ltac:(lia)) as Hl. set (ns := lev (d_nodes l) k L.*1) in *.
  assert (get_next (d_nodes l) head k = Some (hd tail ns)) as ->.
  { unfold get_next. unfold full in Hl. destruct ns as [|x r]; cbn [app linked hd] in *; by rewrite (proj1 Hl). }
  cbn [mbind option_bind].
  assert (length ns <= d_length l)%nat as Hlen.
  { rewrite (r_length _ _ H), <- (length_fmap fst L). apply lev_length. }
  rewrite check_level_spec; [|done|by apply real_lev|done|].
  - cbn [mbind option_bind]. rewrite Nat.add_0_l, (proj2 (Nat.leb_le _ _)) by done.
    destruct (r_null _ _ H k ltac:(lia)) as [Hp Hn]. rewrite !bool_decide_true by done.
    destruct (Nat.eqb_spec k 0) as [->|]; [|done]. cbn [negb orb].
    unfold ns. rewrite lev_zero, length_fmap, (proj2 (Nat.eqb_eq _ _)); [done|]. by rewrite (r_length _ _ H).
  - intros x [Hx Hin]%lev_elem. pose proof (r_level _ _ H) as Hlev. rewrite list.Forall_forall in Hlev.
    destruct (Hlev x Hin) as (v & Hv & Hvl). rewrite Hv in Hx. cbn in Hx. split; [exists v; split; [done|lia]|].
    apply check_pointers_spec. intros j Hj. eapply linked_node; [apply (r_linked _ _ H j); lia|].
    rewrite lev_elem, Hv. cbn. split; [lia|done].
Qed.

Lemma checkInvariants_spec l L : rep l L -> checkInvariants l = Some tt.
Proof. intros H. eapply check_levels_spec; [done|lia]. Qed.

End Facts.

End SkipListFacts.
