(* ===== verification/SkipListTheorems.v ===== *)
(** * The properties of the skip list

    The skip list has the laws of a map from deadlines to timers; any sequence
    of operations gives the same answers as on the list of the pairs. *)

From stdpp Require Import gmap.
From S2P Require Import Prelude DeadlineMap SkipList SkipListFacts.

(** ** The skip list as an implementation of the interface *)

Section Implementation.

Context {D G : Type} `{LevelGenerator G}.

#[global] Instance skip_list_operations : DeadlineMap.Operations D (SkipList.t D G) := {
  dm_addL := SkipList.addL;
  dm_addR := SkipList.addR;
  dm_updateR := SkipList.updateR;
  dm_remove := SkipList.remove;
  dm_removeAll := SkipList.removeAll;
  dm_front := SkipList.front;
  dm_skipForward := SkipList.skipForward;
  dm_isEmpty := SkipList.isEmpty;
  dm_length := SkipList.d_length;
  dm_key l n := fst <$> SkipList.d_item (SkipList.d_nodes l) !! n;
  dm_data l n := snd <$> SkipList.d_item (SkipList.d_nodes l) !! n;
}.

Context `{!LevelGeneratorLaws G}.

Import SkipListFacts.

#[global] Instance skip_list_laws : DeadlineMap.Laws D (SkipList.t D G).
Proof.
  refine {| DeadlineMap.models := rep |}; intros m; cbn.
  - apply r_sorted.
  - apply r_nodup.
  - intros L k d Hm. destruct (add_spec SkipList.lookupImpUpperBoundL m L k d Hm) as (m' & ? & ? & _); [by right|].
    exists (SkipList.d_fresh (SkipList.d_nodes m)), m'. split; [done|]. split; [done|]. by apply rep_fresh.
  - intros L k d Hm. destruct (add_spec SkipList.lookupImpUpperBoundR m L k d Hm) as (m' & ? & ? & _); [by left|].
    exists (SkipList.d_fresh (SkipList.d_nodes m)), m'. split; [done|]. split; [done|]. by apply rep_fresh.
  - intros L1 n k0 d L2 k Hm. destruct (updateR_models m L1 n k0 d L2 k Hm) as (m' & ? & ? & _). by exists m'.
  - intros L1 n it L2 Hm. destruct (remove_spec m L1 n it L2 Hm) as (m' & ? & ? & _). by exists m'.
  - intros L Hm. destruct (removeAll_spec m L Hm) as (m' & ? & ? & _). by exists m'.
  - apply front_spec.
  - apply skipForward_spec.
  - apply isEmpty_spec.
  - apply r_length.
  - intros L1 n it L2 Hm. by rewrite (item_spec _ _ _ _ _ Hm).
  - intros L1 n it L2 Hm. by rewrite (item_spec _ _ _ _ _ Hm).
Defined.

End Implementation.

Module SkipListTheorems.

Import DeadlineMap SkipListFacts.

#[local] Existing Instance ListMap.operations.

(** ** Sequences of operations *)

Section Sequences.

Context {D : Type}.

Inductive operation : Type :=
| AddL (key : Z) (data : D)
| AddR (key : Z) (data : D)
| UpdateR (n : nat) (key : Z)
| Remove (n : nat)
| RemoveAll
| Front
| SkipForward (n : nat)
| IsEmpty
| Length
| Key (n : nat)
| Data (n : nat).

(** What an operation answers. *)
Inductive answer : Type :=
| Added (n : nat) (newFrontFlag : bool)
| Updated (newFrontFlag : option bool)
| Removed (found : bool)
| AllRemoved (count : nat)
| Pair (n : option (option nat))
| Flag (b : bool)
| Number (n : nat)
| KeyIs (key : Z)
| DataIs (data : D).

Definition perform {M} `{Operations D M} (op : operation) (m : M) : option (answer * M) :=
  match op with
  | AddL key data => '(n, b, m) ← dm_addL key data m; Some (Added n b, m)
  | AddR key data => '(n, b, m) ← dm_addR key data m; Some (Added n b, m)
  | UpdateR n key => '(b, m) ← dm_updateR n key m; Some (Updated b, m)
  | Remove n => '(b, m) ← dm_remove n m; Some (Removed b, m)
  | RemoveAll => '(n, m) ← dm_removeAll m; Some (AllRemoved n, m)
  | Front => n ← dm_front m; Some (Pair (Some n), m)
  | SkipForward n => n ← dm_skipForward m n; Some (Pair n, m)
  | IsEmpty => b ← dm_isEmpty m; Some (Flag b, m)
  | Length => Some (Number (dm_length m), m)
  | Key n => k ← dm_key m n; Some (KeyIs k, m)
  | Data n => d ← dm_data m n; Some (DataIs d, m)
  end.

Fixpoint perform_all {M} `{Operations D M} (ops : list operation) (m : M) : option (list answer * M) :=
  match ops with
  | [] => Some ([], m)
  | op :: ops =>
      '(a, m) ← perform op m;
      '(answers, m) ← perform_all ops m;
      Some (a :: answers, m)
  end.

End Sequences.

Arguments operation : clear implicits.
Arguments answer : clear implicits.

Section Refinement.

Context {D G : Type} `{LevelGenerator G} `{!LevelGeneratorLaws G}.

(** The skip list [l] stands for the reference [m]. *)
Definition simulates (l : SkipList.t D G) (m : ListMap.t D) : Prop :=
  rep l (ListMap.entries m) /\ ListMap.valid m (ListMap.entries m) /\
  SkipList.d_fresh (SkipList.d_nodes l) = ListMap.fresh m.

Lemma find_item_split (m : ListMap.t D) n it :
  ListMap.item m n = Some it -> exists L1 L2, ListMap.entries m = L1 ++ (n, it) :: L2.
Proof.
  unfold ListMap.item. intros E. destruct (find _ _) as [e|] eqn:Ef; [|done]. injection E as <-.
  apply List.find_some in Ef as [Hin Hn%Nat.eqb_eq]. apply list_elem_of_In, list_elem_of_split in Hin as (L1 & L2 & ->).
  exists L1, L2. by destruct e; cbn in *; subst.
Qed.

Lemma after_split n (L : list (nat * (Z * D))) r :
  ListMap.after n L = Some r -> exists L1 e L2, L = L1 ++ e :: L2 /\ fst e = n.
Proof.
  induction L as [|e L IH]; [done|]. cbn [ListMap.after]. destruct (Nat.eqb_spec (fst e) n) as [E|_].
  - intros _. by exists [], e, L.
  - intros Hr. destruct (IH Hr) as (L1 & e' & L2 & -> & <-). by exists (e :: L1), e', L2.
Qed.

(** What each operation does on the two sides. *)
Lemma add_simulates lookup l m k d :
  simulates l m -> lookup = SkipList.lookupImpUpperBoundR \/ lookup = SkipList.lookupImpUpperBoundL ->
  exists l' m', let n := ListMap.fresh m in
    let b := at_front n (insert_upper (n, (k, d)) (ListMap.entries m)) in
    SkipList.add lookup k d l = Some (n, b, l') /\ ListMap.add k d m = Some (n, b, m') /\ simulates l' m'.
Proof.
  intros (Hr & Hv & Hf) Hlookup. destruct (add_spec lookup l _ k d Hr Hlookup) as (l' & E & Hr' & Hf').
  destruct (ListMap.add_valid k d m _ Hv) as (m' & E' & Hv' & Hf2). rewrite Hf in *.
  exists l', m'. split; [done|]. split; [done|]. pose proof (proj1 Hv') as Ee. rewrite <- Ee in *.
  split; [done|]. split; [done|]. congruence.
Qed.

Lemma perform_simulates (op : operation D) l m a m' :
  simulates l m -> perform op m = Some (a, m') ->
  exists l', perform op l = Some (a, l') /\ simulates l' m'.
Proof.
  intros Hsim E. pose proof Hsim as (Hr & Hv & Hf).
  destruct op as [k d|k d|n k|n| | |n| | |n|n];
    cbn [perform dm_addL dm_addR dm_updateR dm_remove dm_removeAll dm_front dm_skipForward dm_isEmpty dm_length
      dm_key dm_data ListMap.operations skip_list_operations] in *.
  - destruct (add_simulates SkipList.lookupImpUpperBoundL l m k d Hsim) as (l' & m1 & El & Em & Hs); [by right|].
    rewrite Em in E. injection E as <- <-. exists l'. unfold SkipList.addL. by rewrite El.
  - destruct (add_simulates SkipList.lookupImpUpperBoundR l m k d Hsim) as (l' & m1 & El & Em & Hs); [by left|].
    rewrite Em in E. injection E as <- <-. exists l'. unfold SkipList.addR. by rewrite El.
  - destruct (ListMap.item m n) as [[k0 d]|] eqn:Ei; [|unfold ListMap.update in E; by rewrite Ei in E].
    apply find_item_split in Ei as (L1 & L2 & EL). rewrite EL in *.
    destruct (updateR_models l L1 n k0 d L2 k Hr) as (l' & El & Hr' & Hf').
    destruct (ListMap.update_valid m L1 n k0 d L2 k Hv) as (m1 & Em & Hv' & Hf2).
    rewrite Em in E. injection E as <- <-. exists l'. rewrite El. split; [done|].
    pose proof (proj1 Hv') as Ee. rewrite <- Ee in *. split; [done|]. split; [done|]. congruence.
  - destruct (ListMap.item m n) as [it|] eqn:Ei; [|unfold ListMap.delete in E; by rewrite Ei in E].
    apply find_item_split in Ei as (L1 & L2 & EL). rewrite EL in *.
    destruct (remove_spec l L1 n it L2 Hr) as (l' & El & Hr' & Hf').
    destruct (ListMap.delete_valid m L1 n it L2 Hv) as (m1 & Em & Hv' & Hf2).
    rewrite Em in E. injection E as <- <-. exists l'. rewrite El. split; [done|].
    pose proof (proj1 Hv') as Ee. rewrite <- Ee in *. split; [done|]. split; [done|]. congruence.
  - injection E as <- <-. destruct (removeAll_spec l _ Hr) as (l' & -> & Hr' & Hf').
    exists l'. split; [done|]. split; [done|]. split; [|cbn; congruence].
    split; [done|]. split; [constructor|]. split; constructor.
  - injection E as <- <-. exists l. by rewrite (front_spec _ _ Hr).
  - destruct (ListMap.after n (ListMap.entries m)) as [r|] eqn:Ea; [|done]. injection E as <- <-.
    destruct (after_split _ _ _ Ea) as (L1 & e & L2 & EL & <-).
    pose proof Hv as Hv'. rewrite EL in *. rewrite (ListMap.after_valid m) in Ea by done. injection Ea as <-.
    exists l. by rewrite (skipForward_spec _ _ _ _ Hr).
  - injection E as <- <-. exists l. by rewrite (isEmpty_spec _ _ Hr).
  - injection E as <- <-. exists l. by rewrite (r_length _ _ Hr).
  - destruct (ListMap.item m n) as [it|] eqn:Ei; [|done]. injection E as <- <-.
    apply find_item_split in Ei as (L1 & L2 & EL). rewrite EL in Hr. exists l. by rewrite (item_spec _ _ _ _ _ Hr).
  - destruct (ListMap.item m n) as [it|] eqn:Ei; [|done]. injection E as <- <-.
    apply find_item_split in Ei as (L1 & L2 & EL). rewrite EL in Hr. exists l. by rewrite (item_spec _ _ _ _ _ Hr).
Qed.

Lemma perform_all_simulates (ops : list (operation D)) l m answers m' :
  simulates l m -> perform_all ops m = Some (answers, m') ->
  exists l', perform_all ops l = Some (answers, l') /\ simulates l' m'.
Proof.
  revert l m answers. induction ops as [|op ops IH]; intros l m answers Hsim E; cbn [perform_all] in *.
  { injection E as <- <-. by exists l. }
  destruct (perform op m) as [[a m1]|] eqn:Eop; [|done]. cbn [mbind option_bind] in E.
  destruct (perform_simulates op l m a m1 Hsim Eop) as (l1 & -> & Hsim1). cbn [mbind option_bind].
  destruct (perform_all ops m1) as [[as' m2]|] eqn:Eops; [|done]. cbn [mbind option_bind] in E. injection E as <- <-.
  destruct (IH l1 m1 as' Hsim1 Eops) as (l2 & -> & Hsim2). by exists l2.
Qed.

(** C16: whatever levels the generator draws, every sequence of operations on a
    new skip list whose handles are those of pairs in the list succeeds, with no
    failed assertion and no access through a bad pointer; it answers each as the
    list of the pairs in the order of their keys does, in which a pair that is
    added or moved comes after those with the same key; and the nodes then pass
    the checks of [checkInvariants]. *)
Theorem skip_list_refines_list g (ops : list (operation D)) answers m :
  perform_all ops ListMap.empty = Some (answers, m) ->
  exists l, perform_all ops (SkipList.initialize g) = Some (answers, l) /\
    SkipList.checkInvariants l = Some tt.
Proof.
  intros E. destruct (perform_all_simulates ops (SkipList.initialize g) ListMap.empty answers m) as (l & El & Hs).
  - split; [apply initialize_spec|]. split; [apply ListMap.empty_models|].
    destruct (initialize_loop_spec (D := D) 32 {| SkipList.d_level := <[SkipList.tail:=31%nat]> (<[SkipList.head:=31%nat]> ∅);
      SkipList.d_item := ∅; SkipList.d_next_p := ∅; SkipList.d_prev_p := ∅; SkipList.d_fresh := 2%nat |}) as [_ Hf].
    exact Hf.
  - done.
  - exists l. split; [done|]. eapply checkInvariants_spec, Hs.
Qed.

End Refinement.

(** *** Witness *)

(** A generator that draws the levels of a list, then zero. *)
#[local] Instance listed_levels : LevelGenerator (list nat) := {
  randomLevel g := match g with [] => (0%nat, []) | v :: g => (Nat.min v 31, g) end;
}.

#[local] Instance listed_levels_laws : LevelGeneratorLaws (list nat).
Proof. split. intros [|v g]; cbn; lia. Qed.

Definition example_operations : list (operation Z) :=
  [AddR 50 1; AddR 70 2; AddL 50 3; AddR 10 4; UpdateR 3 0; UpdateR 2 50; Remove 4; Front; SkipForward 5; Length].

Lemma skip_list_refines_list_witness :
  exists l, perform_all example_operations (SkipList.initialize [0; 1; 2; 0]%nat) =
    Some ([Added 2 true; Added 3 false; Added 4 false; Added 5 true; Updated (Some true); Updated (Some false);
           Removed true; Pair (Some (Some 3%nat)); Pair (Some (Some 2%nat)); Number 3], l) /\
    SkipList.checkInvariants l = Some tt.
Proof. eapply skip_list_refines_list. vm_compute. reflexivity. Defined.

End SkipListTheorems.
