(* ===== verification/Occurrences.v ===== *)
(** * Multisets as lists

    The number of occurrences of an element in a list, with the automation that
    normalizes counts: two lists are the same multiset when they have the same
    counts. *)

From S2P Require Import Prelude.

Module Occurrences.

Section Occ.

Context {A : Type} `{EqDecision A}.

Definition occ (x : A) (l : list A) : nat := length (filter (fun y => y = x) l).

Lemma occ_nil x : occ x [] = 0%nat.
Proof. done. Qed.

Lemma occ_cons x y l : occ x (y :: l) = ((if decide (y = x) then 1 else 0) + occ x l)%nat.
Proof. unfold occ. rewrite filter_cons. by destruct (decide (y = x)). Qed.

Lemma occ_app x l k : occ x (l ++ k) = (occ x l + occ x k)%nat.
Proof. unfold occ. by rewrite list.filter_app, length_app. Qed.

Lemma occ_elem x l : x ∈ l <-> (0 < occ x l)%nat.
Proof.
  induction l as [|y l IH].
  - split; [by intros ?%elem_of_nil|rewrite occ_nil; lia].
  - rewrite elem_of_cons, occ_cons, IH. destruct (decide (y = x)) as [->|Hne]; [split; [lia|auto]|].
    split; [intros [->|?]; [done|lia]|right; lia].
Qed.

Lemma occ_perm x l k : l ≡ₚ k -> occ x l = occ x k.
Proof. intros Hp. unfold occ. by rewrite Hp. Qed.

Lemma occ_elem_split x l : (0 < occ x l)%nat -> exists l1 l2, l = l1 ++ x :: l2.
Proof. intros H. by apply list_elem_of_split, occ_elem. Qed.

Lemma NoDup_occ (l : list A) : (forall x, (occ x l <= 1)%nat) -> NoDup l.
Proof.
  induction l as [|y l IH]; intros H; [constructor|]. constructor.
  - intros Hin%occ_elem. specialize (H y). rewrite occ_cons, decide_True in H by done. lia.
  - apply IH. intros x. specialize (H x). rewrite occ_cons in H. lia.
Qed.

(** Same multiset. *)
Definition same (l k : list A) : Prop := forall x, occ x l = occ x k.

End Occ.

(** Normalize the counts in the goal and in the hypotheses. *)
Ltac occs :=
  unfold same in *; repeat rewrite ?occ_app, ?occ_cons, ?occ_nil in *.

(** Decide the equalities of counted elements, then arithmetic. *)
Ltac occ_solve :=
  occs; repeat case_decide; simplify_eq; try done; try lia.

End Occurrences.
