(* ===== verification/Chronology.v ===== *)
(** * Timers and deferred functions

    Models [ntcs::Chronology] (src/groups/ntc/ntcs/ntcs_chronology.h, .cpp): the
    timers of a driver, each in one of the nodes of a catalog, their deadlines in
    a map from microseconds to nodes, and the queue of deferred functions.

    Each definition is one critical section, under the lock of the timer
    ([_lock]) or of the chronology, in the order in which the handlers compose
    them; ChronologySystem interleaves them.  [None] is a failed assertion, an
    access to a node without a timer, or the overflow of a sum of microseconds.

    A timer's reference count is that of its shared pointers; the references that
    the map holds are not counted by shared pointers but by [acquireRef] and
    [releaseRef], as in the code.  A chain of chronologies is a list: the nearest
    one and its parents.  The deadline map is any implementation of the interface
    [DeadlineMap.Operations]; a pair's data is the number of its node. *)

From stdpp Require Import gmap.
From S2P Require Import Prelude TimeInterval Backoff DeadlineMap.

(** ** [ntca::TimerEventType] *)

Module TimerEventType.

Inductive t : Set := e_DEADLINE | e_CANCELED | e_CLOSED.

#[export] Instance t_eq_dec : EqDecision t.
Proof. solve_decision. Defined.

Definition code (e : t) : Z :=
  match e with e_DEADLINE => 0 | e_CANCELED => 1 | e_CLOSED => 2 end.

End TimerEventType.

(** ** [ntca::TimerOptions] *)

Module TimerOptions.

Import TimerEventType.

Section Options.

Context {T : Type}.

Record t : Type := { d_flags : Z; d_eventMask : Z; d_backoff : option (Backoff.t T) }.

Definition k_FLAG_ONE_SHOT : Z := Z.shiftl 1 1.

Definition k_FLAG_DRIFT : Z := Z.shiftl 1 2.

Definition reset : t := {| d_flags := 0; d_eventMask := 0; d_backoff := None |}.

Definition set_flag (flag : Z) (value : bool) (o : t) : t :=
  {| d_flags := if value then Z.lor (d_flags o) flag else Z.ldiff (d_flags o) flag;
     d_eventMask := d_eventMask o; d_backoff := d_backoff o |}.

Definition setOneShot : bool -> t -> t := set_flag k_FLAG_ONE_SHOT.

Definition setDrift : bool -> t -> t := set_flag k_FLAG_DRIFT.

Definition setBackoff (value : Backoff.t T) (o : t) : t :=
  {| d_flags := d_flags o; d_eventMask := d_eventMask o; d_backoff := Some value |}.

Definition showEvent (e : TimerEventType.t) (o : t) : t :=
  {| d_flags := d_flags o; d_eventMask := Z.ldiff (d_eventMask o) (Z.shiftl 1 (code e));
     d_backoff := d_backoff o |}.

Definition hideEvent (e : TimerEventType.t) (o : t) : t :=
  {| d_flags := d_flags o; d_eventMask := Z.lor (d_eventMask o) (Z.shiftl 1 (code e));
     d_backoff := d_backoff o |}.

Definition oneShot (o : t) : bool := negb (Z.land (d_flags o) k_FLAG_ONE_SHOT =? 0).

Definition drift (o : t) : bool := negb (Z.land (d_flags o) k_FLAG_DRIFT =? 0).

Definition wantEvent (e : TimerEventType.t) (o : t) : bool :=
  Z.land (d_eventMask o) (Z.shiftl 1 (code e)) =? 0.

Lemma wantEvent_hide e e' (o : t) :
  wantEvent e' (hideEvent e o) = wantEvent e' o && negb (bool_decide (e = e')).
Proof.
  unfold wantEvent, hideEvent. cbn [d_eventMask]. rewrite Z.land_lor_distr_l, lor_eqb_zero.
  by destruct e, e'; cbn; rewrite ?andb_true_r, ?andb_false_r.
Qed.

End Options.

Arguments t : clear implicits.

End TimerOptions.

(** ** [ntcs::Chronology] *)

Module Chronology.

Import TimerEventType DeadlineMap.

(** The number of a node of the catalog, in the order of allocation. *)
Abbreviation node := nat (only parsing).

(** A callback or a session, by an identity. *)
Inductive handler : Set := Callback (c : nat) | Session (s : nat).

#[export] Instance handler_eq_dec : EqDecision handler.
Proof. solve_decision. Defined.

#[export] Instance handler_countable : Countable handler.
Proof.
  refine (inj_countable' (fun h => match h with Callback c => inl c | Session s => inr s end)
    (fun x => match x with inl c => Callback c | inr s => Session s end) _).
  by intros [].
Defined.

(** [Timer::State]. *)
Inductive State : Set := e_STATE_WAITING | e_STATE_SCHEDULED | e_STATE_CLOSED.

#[export] Instance State_eq_dec : EqDecision State.
Proof. solve_decision. Defined.

(** The functors that the chronology defers: the application's, by an identity,
    and those that [cancel] and [close] bind, with their reference [self]. *)
Inductive functor : Set :=
  | Function (f : nat)
  | processCancelled (self : node) (h : handler)
  | processClosed (self : node) (h : handler)
  | processCancelledAndClosed (self : node) (h : handler).

Section Chronology.

Context {T : Type} {TI : TimeIntervalOps T} {TU : TimeIntervalUnits T}.
Context {M : Type} {DM : Operations nat M} {RD : Rand}.

(** [ntca::TimerContext]. *)
Record TimerContext : Type := { c_now : T; c_deadline : T; c_drift : option T }.

(** [Timer] and the count of its [TimerRep]. *)
Record timer : Type := {
  d_options : TimerOptions.t T;
  d_callback : option nat;
  d_session_sp : option nat;
  d_period : T;
  d_state : State;
  d_deadlineMapHandle : option nat;
  d_refs : nat;
}.

(** [d_nodes] are the nodes that hold a timer; [d_nodeFree] is the chain of
    [d_next_p] from [d_nodeFree_p]: a node that is not in it has a null link. *)
Record t : Type := {
  d_nodes : gmap node timer;
  d_nodeArray : list node;
  d_nodeFree : list node;
  d_nodeCount : nat;
  d_deadlineMap : M;
  d_deadlineMapEmpty : bool;
  d_deadlineMapEarliest : Z;
  d_functorQueue : list functor;
  d_functorQueueEmpty : bool;
}.

(** [DueEntry], without the members that nothing reads. *)
Record DueEntry : Type := { d_node_p : node; d_deadline : T }.

(** *** Assignments *)

Definition set_nodes (nodes : gmap node timer) (c : t) : t :=
  {| d_nodes := nodes; d_nodeArray := d_nodeArray c; d_nodeFree := d_nodeFree c;
     d_nodeCount := d_nodeCount c; d_deadlineMap := d_deadlineMap c;
     d_deadlineMapEmpty := d_deadlineMapEmpty c; d_deadlineMapEarliest := d_deadlineMapEarliest c;
     d_functorQueue := d_functorQueue c; d_functorQueueEmpty := d_functorQueueEmpty c |}.

Definition set_catalog (nodes : gmap node timer) (array free : list node) (count : nat) (c : t) : t :=
  {| d_nodes := nodes; d_nodeArray := array; d_nodeFree := free;
     d_nodeCount := count; d_deadlineMap := d_deadlineMap c;
     d_deadlineMapEmpty := d_deadlineMapEmpty c; d_deadlineMapEarliest := d_deadlineMapEarliest c;
     d_functorQueue := d_functorQueue c; d_functorQueueEmpty := d_functorQueueEmpty c |}.

Definition set_map (m : M) (empty : bool) (earliest : Z) (c : t) : t :=
  {| d_nodes := d_nodes c; d_nodeArray := d_nodeArray c; d_nodeFree := d_nodeFree c;
     d_nodeCount := d_nodeCount c; d_deadlineMap := m;
     d_deadlineMapEmpty := empty; d_deadlineMapEarliest := earliest;
     d_functorQueue := d_functorQueue c; d_functorQueueEmpty := d_functorQueueEmpty c |}.

Definition set_functors (queue : list functor) (empty : bool) (c : t) : t :=
  {| d_nodes := d_nodes c; d_nodeArray := d_nodeArray c; d_nodeFree := d_nodeFree c;
     d_nodeCount := d_nodeCount c; d_deadlineMap := d_deadlineMap c;
     d_deadlineMapEmpty := d_deadlineMapEmpty c; d_deadlineMapEarliest := d_deadlineMapEarliest c;
     d_functorQueue := queue; d_functorQueueEmpty := empty |}.

Definition set_timer (n : node) (tm : timer) (c : t) : t := set_nodes (<[n := tm]> (d_nodes c)) c.

Definition with_state (period : T) (state : State) (tm : timer) : timer :=
  {| d_options := d_options tm; d_callback := d_callback tm; d_session_sp := d_session_sp tm;
     d_period := period; d_state := state; d_deadlineMapHandle := d_deadlineMapHandle tm;
     d_refs := d_refs tm |}.

Definition with_handle (handle : option nat) (tm : timer) : timer :=
  {| d_options := d_options tm; d_callback := d_callback tm; d_session_sp := d_session_sp tm;
     d_period := d_period tm; d_state := d_state tm; d_deadlineMapHandle := handle;
     d_refs := d_refs tm |}.

(** [swap] with an empty callback or session. *)
Definition take_handler (tm : timer) : timer :=
  {| d_options := d_options tm;
     d_callback := None;
     d_session_sp := match d_callback tm with Some _ => d_session_sp tm | None => None end;
     d_period := d_period tm; d_state := d_state tm; d_deadlineMapHandle := d_deadlineMapHandle tm;
     d_refs := d_refs tm |}.

Definition acquireRef (tm : timer) : timer :=
  {| d_options := d_options tm; d_callback := d_callback tm; d_session_sp := d_session_sp tm;
     d_period := d_period tm; d_state := d_state tm; d_deadlineMapHandle := d_deadlineMapHandle tm;
     d_refs := S (d_refs tm) |}.

Definition releaseRef (tm : timer) : timer :=
  {| d_options := d_options tm; d_callback := d_callback tm; d_session_sp := d_session_sp tm;
     d_period := d_period tm; d_state := d_state tm; d_deadlineMapHandle := d_deadlineMapHandle tm;
     d_refs := pred (d_refs tm) |}.

(** The callback if there is one, else the session. *)
Definition get_handler (tm : timer) : option handler :=
  match d_callback tm with
  | Some c => Some (Callback c)
  | None => Session <$> d_session_sp tm
  end.

(** *** Construction *)

Definition make (m : M) : t :=
  {| d_nodes := ∅; d_nodeArray := []; d_nodeFree := []; d_nodeCount := 0; d_deadlineMap := m;
     d_deadlineMapEmpty := true; d_deadlineMapEarliest := 0;
     d_functorQueue := []; d_functorQueueEmpty := true |}.

(** The assertions of the destructor. *)
Definition destroy (c : t) : option unit :=
  assert! bool_decide (d_functorQueue c = []) ;;
  isEmpty ← dm_isEmpty (d_deadlineMap c);
  assert! (isEmpty : bool) ;;
  assert! (d_nodeCount c =? 0)%nat ;;
  Some tt.

(** [createTimer] under the lock: a free node or a new one. *)
Definition privateNodeAllocate (c : t) : node * t :=
  let n := length (d_nodeArray c) in
  (n, set_catalog (d_nodes c) (d_nodeArray c ++ [n]) (d_nodeFree c) (d_nodeCount c) c).

Definition createTimer_allocate (c : t) : node * t :=
  let '(n, c) :=
    match d_nodeFree c with
    | n :: free => (n, set_catalog (d_nodes c) (d_nodeArray c) free (d_nodeCount c) c)
    | [] => privateNodeAllocate c
    end in
  (n, set_catalog (d_nodes c) (d_nodeArray c) (d_nodeFree c) (S (d_nodeCount c)) c).

(** [createTimer] after it: the timer is constructed with one reference. *)
Definition createTimer_construct (n : node) (options : TimerOptions.t T) (h : handler) (c : t) : t :=
  set_timer n
    {| d_options := options;
       d_callback := match h with Callback f => Some f | Session _ => None end;
       d_session_sp := match h with Callback _ => None | Session s => Some s end;
       d_period := ti_make 0 0; d_state := e_STATE_WAITING; d_deadlineMapHandle := None;
       d_refs := 1 |} c.

(** *** [Timer::schedule] *)

Definition k_MAX_TIME_INTERVAL : T :=
  ti_make (Z.quot S64_MAX 1000000) (Z.rem S64_MAX 1000000 * 1000 + 999).

(** [bsl::min]. *)
Definition effective (t : T) : T :=
  if ti_ltb k_MAX_TIME_INTERVAL t then k_MAX_TIME_INTERVAL else t.

(** Under the lock of the timer: false is [e_INVALID]. *)
Definition schedule_lock (n : node) (period : T) (c : t) : option (bool * t) :=
  tm ← d_nodes c !! n;
  Some (if bool_decide (d_state tm = e_STATE_CLOSED) then (false, c)
        else (true, set_timer n (with_state (effective period) e_STATE_SCHEDULED tm) c)).

(** The handle of the timer's pair, moved or added, and whether it is at the
    front.  The flag stays false when the handle is not found. *)
Definition schedule_pair (n : node) (deadlineInMicroseconds : Z) (tm : timer) (m : M)
  : option (nat * bool * timer * M) :=
  match d_deadlineMapHandle tm with
  | Some handle =>
      '(r, m) ← dm_updateR handle deadlineInMicroseconds m;
      Some (handle, default false r, tm, m)
  | None =>
      '(handle, newFrontFlag, m) ←
        (if deadlineInMicroseconds =? 0 then dm_addL deadlineInMicroseconds n m
         else dm_addR deadlineInMicroseconds n m);
      Some (handle, newFrontFlag, acquireRef (with_handle (Some handle) tm), m)
  end.

(** Under the lock of the chronology: whether the driver is interrupted. *)
Definition schedule_map (n : node) (deadlineInMicroseconds : Z) (c : t) : option (bool * t) :=
  tm ← d_nodes c !! n;
  '(handle, newFrontFlag, tm, m) ← schedule_pair n deadlineInMicroseconds tm (d_deadlineMap c);
  data ← dm_data m handle;
  assert! (data =? n)%nat ;;
  Some (newFrontFlag : bool,
        set_map m (if (dm_length m =? 1)%nat then false else d_deadlineMapEmpty c)
          (if newFrontFlag : bool then deadlineInMicroseconds else d_deadlineMapEarliest c)
          (set_timer n tm c)).

(** *** [Timer::cancel] *)

(** Under the lock of the timer: [None] is [e_INVALID]. *)
Definition cancel_lock (n : node) (c : t) : option (option handler * t) :=
  tm ← d_nodes c !! n;
  Some (if bool_decide (d_state tm = e_STATE_SCHEDULED) then
          match get_handler tm with
          | Some h => (Some h, set_timer n (with_state (ti_make 0 0) e_STATE_WAITING tm) c)
          | None => (None, c)
          end
        else (None, c)).

(** Under the lock of the chronology, in [cancel] and in [close]: the reference
    [self], and the pair removed, which releases the reference of the map. *)
Definition unschedule_map (n : node) (c : t) : option t :=
  tm ← d_nodes c !! n;
  let tm := acquireRef tm in
  match d_deadlineMapHandle tm with
  | None => Some (set_timer n tm c)
  | Some handle =>
      '(_, m) ← dm_remove handle (d_deadlineMap c);
      front ← dm_front m;
      earliest ← match front with Some first => dm_key m first | None => Some 0 end;
      let isEmpty := match front with Some _ => d_deadlineMapEmpty c | None => true end in
      Some (set_map m isEmpty earliest
              (set_timer n (releaseRef (with_handle None tm)) c))
  end.

(** The functor that [cancel] executes, if any. *)
Definition cancel_functor (n : node) (h : handler) (c : t) : option (option functor) :=
  tm ← d_nodes c !! n;
  Some (if TimerOptions.wantEvent e_CANCELED (d_options tm) then Some (processCancelled n h) else None).

(** *** [Timer::close] *)

(** Under the lock of the timer: [None] is [e_INVALID]; else the handler and
    whether the timer was scheduled. *)
Definition close_lock (n : node) (c : t) : option (option (handler * bool) * t) :=
  tm ← d_nodes c !! n;
  Some (if bool_decide (d_state tm = e_STATE_CLOSED) then (None, c)
        else
          match get_handler tm with
          | Some h =>
              (Some (h, bool_decide (d_state tm = e_STATE_SCHEDULED)),
               set_timer n (with_state (ti_make 0 0) e_STATE_CLOSED (take_handler tm)) c)
          | None => (None, c)
          end).

(** The functor that [close] executes, if any. *)
Definition close_functor (n : node) (h : handler) (cancelled : bool) (c : t) : option (option functor) :=
  tm ← d_nodes c !! n;
  let options := d_options tm in
  Some (if TimerOptions.wantEvent e_CLOSED options then
          if cancelled && TimerOptions.wantEvent e_CANCELED options then
            Some (processCancelledAndClosed n h)
          else Some (processClosed n h)
        else if cancelled && TimerOptions.wantEvent e_CANCELED options then
          Some (processCancelled n h)
        else None).

(** *** [Timer::arrive] *)

(** Under the lock of the timer: [None] when it returns. *)
Definition arrive_lock (n : node) (c : t) : option (option handler * t) :=
  tm ← d_nodes c !! n;
  Some (if negb (bool_decide (d_state tm = e_STATE_SCHEDULED)) then (None, c)
        else
          match get_handler tm with
          | None => (None, c)
          | Some h =>
              (Some h,
               set_timer n
                 (if TimerOptions.oneShot (d_options tm) then
                    with_state (d_period tm) e_STATE_CLOSED (take_handler tm)
                  else
                    with_state (d_period tm)
                      (if negb (ti_eqb (d_period tm) (ti_make 0 0)) then e_STATE_SCHEDULED
                       else e_STATE_WAITING) tm) c)
          end).

Definition calculateDrift (exactlyNow deadline : T) : option T :=
  if ti_ltb deadline exactlyNow then Some (ti_sub exactlyNow deadline) else None.

(** The events announced then, with their contexts. *)
Definition arrive_events (n : node) (now deadline exactlyNow : T) (c : t)
  : option (list (TimerEventType.t * option TimerContext)) :=
  tm ← d_nodes c !! n;
  let options := d_options tm in
  let drift := if TimerOptions.drift options then calculateDrift exactlyNow deadline else None in
  Some ((if TimerOptions.wantEvent e_DEADLINE options then
           [(e_DEADLINE, Some {| c_now := now; c_deadline := deadline; c_drift := drift |})]
         else [])
        ++ (if TimerOptions.wantEvent e_CLOSED options then
              if TimerOptions.oneShot options then [(e_CLOSED, None)] else []
            else [])).

(** *** Access to a timer *)

Definition timer_deadline (n : node) (c : t) : option (option T) :=
  tm ← d_nodes c !! n;
  match d_deadlineMapHandle tm with
  | Some handle => key ← dm_key (d_deadlineMap c) handle; Some (Some (ti_setTotalMicroseconds key))
  | None => Some None
  end.

Definition timer_period (n : node) (c : t) : option (option T) :=
  tm ← d_nodes c !! n;
  Some (if negb (ti_eqb (d_period tm) (ti_make 0 0)) then Some (d_period tm) else None).

(** *** References *)

(** A shared pointer is copied. *)
Definition acquire (n : node) (c : t) : option t :=
  tm ← d_nodes c !! n;
  Some (set_timer n (acquireRef tm) c).

(** A shared pointer is destroyed: whether it was the last one. *)
Definition release (n : node) (c : t) : option (bool * t) :=
  tm ← d_nodes c !! n;
  assert! negb (d_refs tm =? 0)%nat ;;
  Some ((d_refs tm =? 1)%nat, set_timer n (releaseRef tm) c).

(** The link of a node. *)
Fixpoint next_of (n : node) (free : list node) : option node :=
  match free with
  | x :: rest => if (x =? n)%nat then head rest else next_of n rest
  | [] => None
  end.

(** [TimerRep::disposeRep]. *)
Definition disposeRep (n : node) (c : t) : option t :=
  _ ← d_nodes c !! n;
  assert! bool_decide (next_of n (d_nodeFree c) = None) ;;
  Some (set_catalog (delete n (d_nodes c)) (d_nodeArray c) (n :: d_nodeFree c) (pred (d_nodeCount c)) c).

(** *** [announce] *)

(** The functors due, whether the announcement is done, and the rest. *)
Definition pop_functors (single : bool) (c : t) : list functor * bool * t :=
  match d_functorQueue c with
  | [] => ([], false, c)
  | f :: rest =>
      if single then
        ([f], true, set_functors rest (match rest with [] => true | _ => d_functorQueueEmpty c end) c)
      else (f :: rest, false, set_functors [] true c)
  end.

Definition is_recurring (tm : timer) : bool := negb (ti_eqb (d_period tm) (ti_make 0 0)).

(** The period after the backoff, if any, with the number of draws so far. *)
Definition next_period (draws : nat) (tm : timer) : option (T * nat) :=
  match TimerOptions.d_backoff (d_options tm) with
  | Some backoff =>
      period ← Backoff.apply RAND_MAX (rand draws) backoff (d_period tm);
      Some (period, S draws)
  | None => Some (d_period tm, draws)
  end.

(** A recurring timer is moved to its next deadline, and gets a reference: the
    timer, its next deadline and the map. *)
Definition reschedule (nowInMicroseconds key : Z) (draws handle : nat) (tm : timer) (m : M)
  : option (timer * Z * nat * M) :=
  '(period, draws) ← next_period draws tm;
  nextDeadline ← int64 (key + ti_totalMicroseconds period);
  let nextDeadline := if nextDeadline <? nowInMicroseconds then nowInMicroseconds else nextDeadline in
  '(_, m) ← dm_updateR handle nextDeadline m;
  Some (acquireRef (with_state period (d_state tm) tm), nextDeadline, draws, m).

(** One timer is popped: the first timer that was moved to the current time, the
    number of draws and the chronology. *)
Definition pop_timer (nowInMicroseconds key : Z) (firstReinsertedTimer : option nat) (draws handle : nat)
    (n : node) (tm : timer) (c : t) : option (option nat * nat * t) :=
  if is_recurring tm then
    '(tm, nextDeadline, draws, m) ←
      reschedule nowInMicroseconds key draws handle tm (d_deadlineMap c);
    Some (if (nextDeadline =? nowInMicroseconds) && bool_decide (firstReinsertedTimer = None)
          then Some handle else firstReinsertedTimer,
          draws,
          set_map m (d_deadlineMapEmpty c) (d_deadlineMapEarliest c) (set_timer n tm c))
  else
    '(_, m) ← dm_remove handle (d_deadlineMap c);
    Some (firstReinsertedTimer, draws,
          set_map m (d_deadlineMapEmpty c) (d_deadlineMapEarliest c)
            (set_timer n (with_handle None tm) c)).

(** The loop over the timers that are due.  It ends at the first timer that it
    moved to the current time.  A popped timer without a handle is [None]. *)
Fixpoint pop_timers (fuel : nat) (single : bool) (nowInMicroseconds : Z)
    (firstReinsertedTimer : option nat) (draws : nat) (timersDue : list DueEntry) (done : bool) (c : t)
  : option (list DueEntry * bool * t) :=
  match fuel with
  | O => None
  | S fuel =>
      current ← dm_front (d_deadlineMap c);
      match current with
      | None => Some (timersDue, done, c)
      | Some current =>
          key ← dm_key (d_deadlineMap c) current;
          if nowInMicroseconds <? key then Some (timersDue, done, c)
          else if bool_decide (Some current = firstReinsertedTimer) then Some (timersDue, done, c)
          else
            n ← dm_data (d_deadlineMap c) current;
            tm ← d_nodes c !! n;
            handle ← d_deadlineMapHandle tm;
            '(firstReinsertedTimer, draws, c) ←
              pop_timer nowInMicroseconds key firstReinsertedTimer draws handle n tm c;
            pop_timers fuel single nowInMicroseconds firstReinsertedTimer draws
              (timersDue ++ [{| d_node_p := n; d_deadline := ti_setTotalMicroseconds key |}])
              (if single then true else done) c
      end
  end.

(** The flags after the loop. *)
Definition refresh_earliest (c : t) : option t :=
  front ← dm_front (d_deadlineMap c);
  match front with
  | None => Some (set_map (d_deadlineMap c) true 0 c)
  | Some first =>
      key ← dm_key (d_deadlineMap c) first;
      Some (set_map (d_deadlineMap c) (d_deadlineMapEmpty c) key c)
  end.

(** [announce] under the lock: the functors and the timers that are due, and
    whether the announcement is done, in which case the parent is not asked. *)
Definition announce_map (single : bool) (now : T) (c : t)
  : option (list functor * list DueEntry * bool * t) :=
  let '(functorsDue, done, c) := pop_functors single c in
  isEmpty ← dm_isEmpty (d_deadlineMap c);
  if negb (isEmpty : bool) && negb done then
    '(timersDue, done, c) ←
      pop_timers (S (dm_length (d_deadlineMap c))) single (ti_totalMicroseconds now) None 0 [] done c;
    c ← refresh_earliest c;
    Some (functorsDue, timersDue, done, c)
  else Some (functorsDue, [], done, c).

(** *** Functors *)

(** [execute]: the driver is interrupted afterwards. *)
Definition execute (f : functor) (c : t) : t :=
  set_functors (d_functorQueue c ++ [f])
    (match d_functorQueue c with [] => false | _ => d_functorQueueEmpty c end) c.

(** [moveAndExecute], with a functor that may be null. *)
Definition moveAndExecute (functorSequence : list functor) (f : option functor) (c : t) : t :=
  let queue := d_functorQueue c ++ functorSequence ++ match f with Some f => [f] | None => [] end in
  set_functors queue (match queue with [] => true | _ => false end) c.

(** [drain] under the lock. *)
Definition drain_map (c : t) : list functor * t :=
  match d_functorQueue c with
  | [] => ([], c)
  | queue => (queue, set_functors [] true c)
  end.

(** [clearFunctions] under the lock. *)
Definition clearFunctions (c : t) : list functor * t := (d_functorQueue c, set_functors [] true c).

(** *** All the timers *)

(** The nodes of the pairs from [current] on. *)
Fixpoint collect (fuel : nat) (m : M) (current : option nat) : option (list node) :=
  match current with
  | None => Some []
  | Some handle =>
      match fuel with
      | O => None
      | S fuel =>
          n ← dm_data m handle;
          next ← dm_skipForward m handle;
          rest ← collect fuel m (default (Some handle) next);
          Some (n :: rest)
      end
  end.

(** [clearTimers] under the lock: the nodes whose references are then released. *)
Definition clearTimers (c : t) : option (list node * t) :=
  isEmpty ← dm_isEmpty (d_deadlineMap c);
  if isEmpty : bool then Some ([], c)
  else
    first ← dm_front (d_deadlineMap c);
    nodes ← collect (dm_length (d_deadlineMap c)) (d_deadlineMap c) first;
    '(_, m) ← dm_removeAll (d_deadlineMap c);
    Some (nodes, set_map m true 0 c).

(** [clear] under the lock. *)
Definition clear (c : t) : option (list functor * list node * t) :=
  let '(functorQueue, c) := clearFunctions c in
  '(nodes, c) ← clearTimers c;
  Some (functorQueue, nodes, c).

(** [closeAll] under the lock: the timers that are then closed. *)
Fixpoint closeAll_loop (nodes : list node) (c : t) : option (list node * t) :=
  match nodes with
  | [] => Some ([], c)
  | n :: rest =>
      if bool_decide (n ∈ d_nodeFree c) then closeAll_loop rest c
      else
        tm ← d_nodes c !! n;
        if (0 <? d_refs tm)%nat then
          '(timers, c) ← closeAll_loop rest (set_timer n (acquireRef tm) c);
          Some (n :: timers, c)
        else closeAll_loop rest c
  end.

Definition closeAll_map (c : t) : option (list node * t) := closeAll_loop (d_nodeArray c) c.

Fixpoint acquire_all (nodes : list node) (c : t) : option t :=
  match nodes with
  | [] => Some c
  | n :: rest => c ← acquire n c; acquire_all rest c
  end.

(** [load]: the timers in the map, each with a reference. *)
Definition load (c : t) : option (list node * t) :=
  first ← dm_front (d_deadlineMap c);
  nodes ← collect (dm_length (d_deadlineMap c)) (d_deadlineMap c) first;
  c ← acquire_all nodes c;
  Some (nodes, c).

Definition numRegistered (c : t) : nat := d_nodeCount c.

Definition hasAnyRegistered (c : t) : bool := (0 <? d_nodeCount c)%nat.

Definition numScheduled (c : t) : nat := dm_length (d_deadlineMap c).

Definition numDeferred (c : t) : nat := length (d_functorQueue c).

(** *** A chain of chronologies *)

Definition findEarliest (c : t) : T := ti_setTotalMicroseconds (d_deadlineMapEarliest c).

Fixpoint earliest (chain : list t) : option T :=
  match chain with
  | [] => None
  | c :: parents =>
      if negb (d_functorQueueEmpty c) then Some (ti_make 0 0)
      else
        let parentEarliest := earliest parents in
        if negb (d_deadlineMapEmpty c) then
          match parentEarliest with
          | Some parent => if ti_ltb parent (findEarliest c) then Some parent else Some (findEarliest c)
          | None => Some (findEarliest c)
          end
        else parentEarliest
  end.

Definition timeoutInterval (now : T) (chain : list t) : option T :=
  match earliest chain with
  | Some deadline => Some (if ti_ltb now deadline then ti_sub deadline now else ti_make 0 0)
  | None => None
  end.

Definition INT_MAX : Z := 2 ^ 31 - 1.

Definition timeoutInMilliseconds (now : T) (chain : list t) : Z :=
  match timeoutInterval now chain with
  | Some duration =>
      let totalMilliseconds := ti_totalMilliseconds duration in
      if totalMilliseconds <=? INT_MAX then totalMilliseconds else INT_MAX
  | None => -1
  end.

Definition hasAnyScheduled (chain : list t) : bool :=
  existsb (fun c => negb (d_deadlineMapEmpty c)) chain.

Definition hasAnyDeferred (chain : list t) : bool :=
  existsb (fun c => negb (d_functorQueueEmpty c)) chain.

Definition hasAnyScheduledOrDeferred (chain : list t) : bool :=
  existsb (fun c => negb (d_deadlineMapEmpty c) || negb (d_functorQueueEmpty c)) chain.

(** Whether [announce] goes on with the parent. *)
Definition announce_parent (done : bool) (parents : list t) : bool :=
  negb done && hasAnyScheduledOrDeferred parents.

End Chronology.

Arguments t : clear implicits.
Arguments timer : clear implicits.
Arguments TimerContext : clear implicits.
Arguments DueEntry : clear implicits.

End Chronology.
