(* ===== verification/ChronologyFacts.v ===== *)
(** * The sections of a chronology

    The invariant of the chronology of Chronology, relative to the references to
    its timers that are held outside of it, and the lemmas that each critical
    section succeeds in every state that satisfies it and preserves it.

    The references outside, the timers under construction and those whose node is
    still to be released form a multiset of items. *)

From stdpp Require Import gmap.
From S2P Require Import Prelude Occurrences TimeInterval Backoff DeadlineMap Chronology.

Import Occurrences DeadlineMap.

(** ** The invariant *)

Module ChronologyFacts.

Import TimerEventType Chronology.

(** A shared pointer to the timer of a node, a node that a timer is being
    constructed in, and one whose timer has no reference left. *)
Inductive item : Set := Ref (n : nat) | Building (n : nat) | Dying (n : nat).

#[export] Instance item_eq_dec : EqDecision item.
Proof. solve_decision. Defined.

Definition functor_refs (f : functor) : list item :=
  match f with
  | Function _ => []
  | processCancelled n _ | processClosed n _ | processCancelledAndClosed n _ => [Ref n]
  end.

Definition queue_refs (queue : list functor) : list item := concat (functor_refs <$> queue).

Lemma queue_refs_app q1 q2 : queue_refs (q1 ++ q2) = queue_refs q1 ++ queue_refs q2.
Proof. unfold queue_refs. by rewrite fmap_app, concat_app. Qed.

Lemma queue_refs_cons f q : queue_refs (f :: q) = functor_refs f ++ queue_refs q.
Proof. done. Qed.

Lemma queue_refs_is_ref x q : x ∈ queue_refs q -> exists n, x = Ref n.
Proof.
  induction q as [|f q IH]; [by intros ?%elem_of_nil|].
  rewrite queue_refs_cons, elem_of_app. intros [H|H]; [|auto].
  destruct f; cbn in H; rewrite ?list_elem_of_singleton in H; eauto. by apply elem_of_nil in H.
Qed.

Lemma occ_building_queue n q : occ (Building n) (queue_refs q) = 0%nat.
Proof.
  destruct (occ (Building n) (queue_refs q)) eqn:E; [done|].
  assert (Building n ∈ queue_refs q) as H by (apply occ_elem; lia).
  apply queue_refs_is_ref in H as [m ?]. done.
Qed.

Lemma occ_dying_queue n q : occ (Dying n) (queue_refs q) = 0%nat.
Proof.
  destruct (occ (Dying n) (queue_refs q)) eqn:E; [done|].
  assert (Dying n ∈ queue_refs q) as H by (apply occ_elem; lia).
  apply queue_refs_is_ref in H as [m ?]. done.
Qed.

Section Facts.

Context {T : Type} {TI : TimeIntervalOps T} {TL : TimeIntervalLaws T}.
Context {TU : TimeIntervalUnits T} {TUL : TimeIntervalUnitsLaws T}.
Context {M : Type} {DM : Operations nat M} {DL : Laws nat M} {RD : Rand} {RDL : RandLaws}.

Implicit Types (c : t T M) (tm : timer T) (L : list (nat * (Z * nat))).

(** The bound on periods and on the clock, in microseconds, below which no sum
    overflows. *)
Definition BOUND : Z := 2 ^ 62 - 1.

Definition period_ok (p : T) : Prop := 0 <= ns p /\ ns p / 1000 <= BOUND.

(** A backoff keeps periods within the bound. *)
Definition options_ok (o : TimerOptions.t T) : Prop :=
  match TimerOptions.d_backoff o with
  | None => True
  | Some b =>
      forall r p, 0 <= r <= RAND_MAX -> period_ok p ->
      exists p', Backoff.apply RAND_MAX r b p = Some p' /\ period_ok p'
  end.

Definition hnd tm : nat := match d_deadlineMapHandle tm with Some _ => 1 | None => 0 end.

Definition outstanding c (out : list item) : list item := out ++ queue_refs (d_functorQueue c).

(** A time that is not after any deadline. *)
Definition earliest_ok (earliest : Z) L : Prop :=
  0 <= earliest /\ Forall (fun e => earliest <= key_of e) L.

(** The pairs are those of the timers that have a handle. *)
Record scheduled c L : Prop := {
  s_models : models (d_deadlineMap c) L;
  s_empty : d_deadlineMapEmpty c = match L with [] => true | _ => false end;
  s_earliest : earliest_ok (d_deadlineMapEarliest c) L;
  s_keys : Forall (fun e => 0 <= key_of e <= S64_MAX) L;
  s_handle : forall h k n, (h, (k, n)) ∈ L ->
    exists tm, d_nodes c !! n = Some tm /\ d_deadlineMapHandle tm = Some h;
  s_pair : forall n tm h, d_nodes c !! n = Some tm -> d_deadlineMapHandle tm = Some h ->
    exists k, (h, (k, n)) ∈ L;
}.

(** Every reference is counted, and every node is free, under construction or
    holds a timer. *)
Record counted c (out : list item) : Prop := {
  c_refs : forall n, match d_nodes c !! n with
    | Some tm => d_refs tm = (occ (Ref n) (outstanding c out) + hnd tm)%nat
    | None => occ (Ref n) (outstanding c out) = 0%nat
    end;
  c_dying : forall n, occ (Dying n) out =
    match d_nodes c !! n with Some tm => if (d_refs tm =? 0)%nat then 1%nat else 0%nat | None => 0%nat end;
  c_array : d_nodeArray c = seq 0 (length (d_nodeArray c));
  c_catalog : forall n, (occ n (d_nodeFree c) + occ (Building n) out
    + match d_nodes c !! n with Some _ => 1 | None => 0 end
    = if (n <? length (d_nodeArray c))%nat then 1 else 0)%nat;
  c_count : (d_nodeCount c + length (d_nodeFree c) = length (d_nodeArray c))%nat;
}.

Record timer_ok tm : Prop := {
  t_options : options_ok (d_options tm);
  t_period : period_ok (d_period tm);
  t_closed : d_state tm = e_STATE_CLOSED <-> get_handler tm = None;
  t_either : d_callback tm = None \/ d_session_sp tm = None;
}.

Record wf c L out : Prop := {
  w_scheduled : scheduled c L;
  w_counted : counted c out;
  w_timers : forall n tm, d_nodes c !! n = Some tm -> timer_ok tm;
  w_functors : d_functorQueueEmpty c = match d_functorQueue c with [] => true | _ => false end;
}.

(** ** Generic updates *)

Lemma counted_same c out out' : same out out' -> counted c out -> counted c out'.
Proof.
  intros Hs [H1 H2 H3 H4 H5]. split; [| | done | | done].
  - intros n. specialize (H1 n). unfold outstanding in *. destruct (d_nodes c !! n); occs; by rewrite <- Hs.
  - intros n. by rewrite <- Hs.
  - intros n. by rewrite <- Hs.
Qed.

Lemma wf_same c L out out' : same out out' -> wf c L out -> wf c L out'.
Proof. intros Hs [H1 H2 H3 H4]. split; [done| |done|done]. by eapply counted_same. Qed.

Lemma wf_live c L out n :
  wf c L out -> Ref n ∈ outstanding c out ->
  exists tm, d_nodes c !! n = Some tm /\ timer_ok tm /\ (0 < d_refs tm)%nat.
Proof.
  intros [_ [H _ _ _ _] Ht _] Hin%occ_elem. specialize (H n). destruct (d_nodes c !! n) as [tm|] eqn:E; [|lia].
  exists tm. split; [done|]. split; [by eapply Ht|]. lia.
Qed.

Lemma wf_live_out c L out n :
  wf c L out -> Ref n ∈ out -> exists tm, d_nodes c !! n = Some tm /\ timer_ok tm /\ (0 < d_refs tm)%nat.
Proof. intros H Hin. eapply wf_live; [done|]. unfold outstanding. rewrite elem_of_app. by left. Qed.

Lemma counted_set_map c out m isEmpty e : counted c out -> counted (set_map m isEmpty e c) out.
Proof. by intros [H1 H2 H3 H4 H5]. Qed.

(** A timer that has a reference: its count and its dying items. *)
Lemma counted_set_timer c out out' n tm tm' :
  counted c out -> d_nodes c !! n = Some tm ->
  (forall x, x <> Ref n -> x <> Dying n -> occ x out' = occ x out) ->
  (d_refs tm' + occ (Ref n) out + hnd tm = d_refs tm + occ (Ref n) out' + hnd tm')%nat ->
  occ (Dying n) out' = (if (d_refs tm' =? 0)%nat then 1%nat else 0%nat) ->
  counted (set_timer n tm' c) out'.
Proof.
  intros [H1 H2 H3 H4 H5] Hn Ho Hr Hd. split; cbn [set_timer set_nodes d_nodes d_nodeArray d_nodeFree d_nodeCount]; try done.
  - intros m. specialize (H1 m). unfold outstanding in *. cbn [set_timer set_nodes d_functorQueue]. occs.
    destruct (decide (m = n)) as [->|Hne].
    + rewrite Hn in H1. rewrite lookup_insert_eq. lia.
    + rewrite lookup_insert_ne by done. rewrite Ho by congruence. done.
  - intros m. destruct (decide (m = n)) as [->|Hne].
    + by rewrite lookup_insert_eq.
    + rewrite lookup_insert_ne by done. rewrite Ho by congruence. apply H2.
  - intros m. specialize (H4 m). rewrite Ho by done. destruct (decide (m = n)) as [->|Hne].
    + rewrite Hn in H4. by rewrite lookup_insert_eq.
    + by rewrite lookup_insert_ne.
Qed.

Lemma scheduled_set_timer c L n tm tm' :
  scheduled c L -> d_nodes c !! n = Some tm -> d_deadlineMapHandle tm' = d_deadlineMapHandle tm ->
  scheduled (set_timer n tm' c) L.
Proof.
  intros [H1 H2 H3 H4 H5 H6] Hn Hh. split; try done; cbn [set_timer set_nodes d_nodes].
  - intros h k m Hin. destruct (H5 h k m Hin) as (tmm & Hm & Hhm). destruct (decide (m = n)) as [->|Hne].
    + exists tm'. rewrite lookup_insert_eq. split; [done|]. congruence.
    + exists tmm. by rewrite lookup_insert_ne.
  - intros m tmm h Hm Hhm. destruct (decide (m = n)) as [->|Hne].
    + rewrite lookup_insert_eq in Hm. injection Hm as <-. eapply H6; [done|congruence].
    + rewrite lookup_insert_ne in Hm by done. by eapply H6.
Qed.

Lemma timers_set_timer c n tm' :
  (forall m tm, d_nodes c !! m = Some tm -> timer_ok tm) -> timer_ok tm' ->
  forall m tm, d_nodes (set_timer n tm' c) !! m = Some tm -> timer_ok tm.
Proof.
  intros H Hok m tm. cbn [set_timer set_nodes d_nodes]. destruct (decide (m = n)) as [->|Hne].
  - rewrite lookup_insert_eq. by intros [= <-].
  - rewrite lookup_insert_ne by done. apply H.
Qed.

(** A section that changes neither the handle nor the count of a timer. *)
Lemma wf_set_state c L out n tm tm' :
  wf c L out -> d_nodes c !! n = Some tm ->
  d_deadlineMapHandle tm' = d_deadlineMapHandle tm -> d_refs tm' = d_refs tm -> timer_ok tm' ->
  wf (set_timer n tm' c) L out.
Proof.
  intros [H1 H2 H3 H4] Hn Hh Hr Hok. split; [by eapply scheduled_set_timer| | |done].
  - eapply counted_set_timer; [done|done|done| |].
    + unfold hnd. rewrite Hh, Hr. lia.
    + rewrite Hr. pose proof (c_dying _ _ H2 n) as Hd. by rewrite Hn in Hd.
  - by apply timers_set_timer.
Qed.

(** A section that changes the count of a timer that keeps a reference. *)
Lemma wf_set_refs c L out out' n tm tm' :
  wf c L out -> d_nodes c !! n = Some tm ->
  d_deadlineMapHandle tm' = d_deadlineMapHandle tm -> timer_ok tm' ->
  (0 < d_refs tm)%nat -> (0 < d_refs tm')%nat ->
  (forall x, x <> Ref n -> occ x out' = occ x out) ->
  (d_refs tm' + occ (Ref n) out = d_refs tm + occ (Ref n) out')%nat ->
  wf (set_timer n tm' c) L out'.
Proof.
  intros [H1 H2 H3 H4] Hn Hh Hok Hp Hp' Ho Hr. split; [by eapply scheduled_set_timer| | |done].
  - eapply counted_set_timer; [done|done|by auto| |].
    + unfold hnd. rewrite Hh. lia.
    + rewrite Ho by done. pose proof (c_dying _ _ H2 n) as Hd. rewrite Hn in Hd. rewrite Hd.
      rewrite !(proj2 (Nat.eqb_neq _ _)) by lia. done.
  - by apply timers_set_timer.
Qed.

(** ** Time *)

Lemma zero_ns : ns (ti_make 0 0 : T) = 0.
Proof. rewrite ti_make_ns; [done|]. unfold representable, S64_MIN, S64_MAX, NANO. lia. Qed.

Lemma period_ok_zero : period_ok (ti_make 0 0).
Proof. unfold period_ok. rewrite zero_ns. split; [lia|]. unfold BOUND. by vm_compute. Qed.

Lemma max_time_interval_ns : ns (k_MAX_TIME_INTERVAL : T) = S64_MAX * 1000 + 999.
Proof.
  unfold k_MAX_TIME_INTERVAL. rewrite ti_make_ns; [reflexivity|].
  unfold representable, NANO. change (Z.quot S64_MAX 1000000) with 9223372036854.
  change (Z.rem S64_MAX 1000000) with 775807. unfold S64_MIN, S64_MAX. lia.
Qed.

Lemma micro_le z b : z / 1000 <= b <-> z <= b * 1000 + 999.
Proof. pose proof (Z.div_mod z 1000). pose proof (Z.mod_pos_bound z 1000). lia. Qed.

Lemma effective_ok p : period_ok p -> effective p = p.
Proof.
  intros [H1 H2]. unfold effective. rewrite ti_ltb_ns, max_time_interval_ns.
  apply micro_le in H2. rewrite (proj2 (Z.ltb_ge _ _)); [done|]. unfold BOUND, S64_MAX in *. lia.
Qed.

Lemma effective_microseconds d : 0 <= ns d -> 0 <= ti_totalMicroseconds (effective d) <= S64_MAX.
Proof.
  intros Hd. unfold effective. rewrite ti_ltb_ns, max_time_interval_ns.
  destruct (Z.ltb_spec (S64_MAX * 1000 + 999) (ns d)) as [H|H].
  - rewrite ti_totalMicroseconds_ns; rewrite ?max_time_interval_ns; [by vm_compute|by vm_compute|].
    rewrite micro_le. lia.
  - apply micro_le in H. rewrite ti_totalMicroseconds_ns by done. split; [apply Z.div_pos; lia|done].
Qed.

Lemma period_microseconds p : period_ok p -> 0 <= ti_totalMicroseconds p <= BOUND.
Proof.
  intros [H1 H2]. rewrite ti_totalMicroseconds_ns; [|done|unfold BOUND, S64_MAX in *; lia].
  split; [apply Z.div_pos; lia|done].
Qed.

(** ** Handles and pairs *)

(** The pairs of the other nodes. *)
Definition others n L : list (nat * (Z * nat)) := filter (fun e => snd (snd e) <> n) L.

Lemma elem_of_others n L h k m : (h, (k, m)) ∈ others n L <-> m <> n /\ (h, (k, m)) ∈ L.
Proof. unfold others. by rewrite list_elem_of_filter. Qed.

(** The pair of a timer that has a handle, and those of the others. *)
Lemma scheduled_split c L n tm h :
  scheduled c L -> d_nodes c !! n = Some tm -> d_deadlineMapHandle tm = Some h ->
  exists L1 k L2, L = L1 ++ (h, (k, n)) :: L2 /\
    forall h' k' m, (h', (k', m)) ∈ L1 ++ L2 <-> m <> n /\ (h', (k', m)) ∈ L.
Proof.
  intros Hs Hn Hh. destruct (s_pair _ _ Hs n tm h Hn Hh) as [k Hin].
  destruct (list_elem_of_split _ _ Hin) as (L1 & L2 & ->). exists L1, k, L2. split; [done|].
  intros h' k' m. rewrite !elem_of_app, elem_of_cons. split.
  - intros Hin'. assert (m <> n); [|tauto]. intros ->.
    destruct (s_handle _ _ Hs h' k' n) as (tm1 & Hn1 & Hh1); [rewrite elem_of_app, elem_of_cons; tauto|].
    rewrite Hn in Hn1. injection Hn1 as <-. rewrite Hh in Hh1. injection Hh1 as <-.
    pose proof (models_nodup _ _ (s_models _ _ Hs)) as Hnd. rewrite fmap_app, fmap_cons in Hnd. cbn [fst] in Hnd.
    rewrite <- Permutation_middle in Hnd. apply list.NoDup_cons in Hnd as [Hnot _]. apply Hnot.
    rewrite elem_of_app. destruct Hin' as [H|H]; [left|right]; by apply (list_elem_of_fmap_2 fst) in H.
  - intros [Hne [H|[H|H]]]; [tauto| |tauto]. congruence.
Qed.

Lemma scheduled_no_pair c L n tm h k :
  scheduled c L -> d_nodes c !! n = Some tm -> d_deadlineMapHandle tm = None -> (h, (k, n)) ∉ L.
Proof.
  intros Hs Hn Hh Hin. destruct (s_handle _ _ Hs h k n Hin) as (tm1 & Hn1 & Hh1).
  rewrite Hn in Hn1. injection Hn1 as <-. congruence.
Qed.

(** The timer of a node changed together with its pair. *)
Lemma scheduled_replace c L c' L' n tm' :
  scheduled c L -> d_nodes c' = <[n := tm']> (d_nodes c) ->
  models (d_deadlineMap c') L' ->
  d_deadlineMapEmpty c' = match L' with [] => true | _ => false end ->
  earliest_ok (d_deadlineMapEarliest c') L' ->
  Forall (fun e => 0 <= key_of e <= S64_MAX) L' ->
  (forall h k m, m <> n -> (h, (k, m)) ∈ L' <-> (h, (k, m)) ∈ L) ->
  (forall h k, (h, (k, n)) ∈ L' -> d_deadlineMapHandle tm' = Some h) ->
  (forall h, d_deadlineMapHandle tm' = Some h -> exists k, (h, (k, n)) ∈ L') ->
  scheduled c' L'.
Proof.
  intros Hs Hnodes Hm He Hear Hk Ho Hn Hn'. split; [done..| |].
  - intros h k m Hin. rewrite Hnodes. destruct (decide (m = n)) as [->|Hne].
    + exists tm'. rewrite lookup_insert_eq. split; [done|]. by eapply Hn.
    + rewrite lookup_insert_ne by done. eapply (s_handle _ _ Hs), Ho; done.
  - intros m tm h. rewrite Hnodes. destruct (decide (m = n)) as [->|Hne].
    + rewrite lookup_insert_eq. intros [= <-]. apply Hn'.
    + rewrite lookup_insert_ne by done. intros Hm1 Hh. destruct (s_pair _ _ Hs m tm h Hm1 Hh) as [k Hin].
      exists k. by apply Ho.
Qed.

Lemma elem_of_insert_upper (e e' : nat * (Z * nat)) L : e' ∈ insert_upper e L <-> e' = e \/ e' ∈ L.
Proof. by rewrite insert_upper_perm, elem_of_cons. Qed.

Lemma insert_earliest h k n L earliest :
  StronglySorted entry_le L -> h ∉ L.*1 -> Forall (fun e => earliest <= key_of e) L ->
  Forall (fun e => (if at_front h (insert_upper (h, (k, n)) L) then k else earliest) <= key_of e)
    (insert_upper (h, (k, n)) L).
Proof.
  intros Hs Hh He. pose proof (insert_upper_sorted (h, (k, n)) L Hs) as Hs'.
  assert (forall x, x ∈ insert_upper (h, (k, n)) L -> fst x = h -> key_of x = k) as Hx.
  { intros x [->|Hin]%elem_of_insert_upper Ef; [done|]. destruct Hh. rewrite <- Ef. by apply list_elem_of_fmap_2. }
  assert (forall x, x ∈ insert_upper (h, (k, n)) L -> fst x <> h -> earliest <= key_of x) as Ho.
  { intros x [->|Hin]%elem_of_insert_upper Ef; [done|]. rewrite list.Forall_forall in He. by apply He. }
  destruct (insert_upper (h, (k, n)) L) as [|x L']; [constructor|]. cbn [at_front].
  apply StronglySorted_inv in Hs' as [_ Hle].
  assert ((if (fst x =? h)%nat then k else earliest) <= key_of x) as Hhead.
  { destruct (Nat.eqb_spec (fst x) h) as [E|E].
    - rewrite (Hx x); [lia|by left|done].
    - by apply Ho; [left|]. }
  constructor; [done|]. eapply List.Forall_impl; [|exact Hle]. unfold entry_le. cbn. intros. lia.
Qed.

Lemma insert_keys h k n L :
  0 <= k <= S64_MAX -> Forall (fun e => 0 <= key_of e <= S64_MAX) L ->
  Forall (fun e => 0 <= key_of e <= S64_MAX) (insert_upper (h, (k, n)) L).
Proof. intros Hk H. rewrite insert_upper_perm. by constructor. Qed.

Lemma sorted_of c L : scheduled c L -> StronglySorted entry_le L.
Proof. intros H. by eapply models_sorted, (s_models _ _ H). Qed.

Lemma nodup_of c L : scheduled c L -> NoDup L.*1.
Proof. intros H. by eapply models_nodup, (s_models _ _ H). Qed.

Lemma insert_upper_nonempty (e : nat * (Z * nat)) L : insert_upper e L <> [].
Proof. intros E. assert (e ∈ insert_upper e L) as H by (apply elem_of_insert_upper; by left). rewrite E in H. by apply elem_of_nil in H. Qed.

Lemma insert_empty_flag (e : nat * (Z * nat)) L b :
  (L <> [] -> b = false) ->
  (if (length (insert_upper e L) =? 1)%nat then false else b) = match insert_upper e L with [] => true | _ => false end.
Proof.
  intros Hb. pose proof (insert_upper_nonempty e L). pose proof (Permutation_length (insert_upper_perm e L)) as Hl.
  cbn [length] in Hl. rewrite Hl. destruct (insert_upper e L); [done|]. destruct L; [done|]. by apply Hb.
Qed.

Lemma middle_not_in {A B} (L1 L2 : list (A * B)) h it : NoDup (L1 ++ (h, it) :: L2).*1 -> h ∉ (L1 ++ L2).*1.
Proof.
  rewrite !fmap_app, fmap_cons, <- Permutation_middle. cbn [fst]. intros Hnd. by apply list.NoDup_cons in Hnd as [? _].
Qed.

(** ** Scheduling *)

Lemma schedule_lock_wf c L out n period :
  wf c L out -> Ref n ∈ out -> period_ok period ->
  exists b c', schedule_lock n period c = Some (b, c') /\ wf c' L out.
Proof.
  intros Hwf Hin Hp. destruct (wf_live_out c L out n Hwf Hin) as (tm & Hn & [Ho Hpe Hcl He] & Hr).
  unfold schedule_lock. rewrite Hn. cbn [mbind option_bind]. rewrite effective_ok by done.
  case_bool_decide as Hst; do 2 eexists; (split; [done|]); [done|].
  eapply wf_set_state; [done|done|done|done|]. split; [done|done| |done].
  cbn [with_state d_state get_handler d_callback d_session_sp]. split; [done|]. intros Hh. by apply Hcl in Hh.
Qed.

(** The pair of a timer, with or without one before. *)
Lemma schedule_pair_spec c L n us tm :
  scheduled c L -> d_nodes c !! n = Some tm -> 0 <= us <= S64_MAX ->
  exists h base m' tm',
    let L' := insert_upper (h, (us, n)) base in
    schedule_pair n us tm (d_deadlineMap c) = Some (h, at_front h L', tm', m') /\ models m' L' /\
    tm' = match d_deadlineMapHandle tm with Some _ => tm | None => acquireRef (with_handle (Some h) tm) end /\
    d_deadlineMapHandle tm' = Some h /\ StronglySorted entry_le base /\ (h ∉ base.*1) /\
    (base <> [] -> L <> []) /\ (forall x, x ∈ base -> x ∈ L) /\
    (forall h' k' m, (h', (k', m)) ∈ base <-> m <> n /\ (h', (k', m)) ∈ L).
Proof.
  intros Hs Hn Hus. unfold schedule_pair. destruct (d_deadlineMapHandle tm) as [h|] eqn:Hh.
  - destruct (scheduled_split c L n tm h Hs Hn Hh) as (L1 & k & L2 & -> & Ho).
    destruct (updateR_law _ L1 h k n L2 us (s_models _ _ Hs)) as (m' & E & Hm').
    exists h, (L1 ++ L2), m', tm. rewrite E. cbn [mbind option_bind default]. split; [done|]. split; [done|].
    split; [done|]. split; [done|]. split; [eapply StronglySorted_remove, sorted_of, Hs|].
    split; [eapply middle_not_in, nodup_of, Hs|]. split; [by destruct L1|]. split; [|done].
    intros [h' [k' m]] Hin. by apply Ho in Hin as [_ ?].
  - assert (exists h m', let L' := insert_upper (h, (us, n)) L in
      (if us =? 0 then dm_addL us n (d_deadlineMap c) else dm_addR us n (d_deadlineMap c)) =
        Some (h, at_front h L', m') /\ models m' L' /\ h ∉ L.*1) as (h & m' & E & Hm' & Hnew).
    { destruct (us =? 0); [apply addL_law|apply addR_law]; apply (s_models _ _ Hs). }
    exists h, L, m', (acquireRef (with_handle (Some h) tm)). rewrite E. cbn [mbind option_bind].
    split; [done|]. split; [done|]. split; [done|]. split; [done|]. split; [by eapply sorted_of|].
    split; [done|]. split; [done|]. split; [done|]. intros h' k' m. split; [|tauto]. intros Hin. split; [|done].
    intros ->. by apply (scheduled_no_pair c L n tm h' k') in Hin.
Qed.

Lemma schedule_map_wf c L out n us :
  wf c L out -> Ref n ∈ out -> 0 <= us <= S64_MAX ->
  exists b c' L', schedule_map n us c = Some (b, c') /\ wf c' L' out.
Proof.
  intros Hwf Hin Hus. pose proof Hwf as [Hs Hc Ht Hf].
  destruct (wf_live_out c L out n Hwf Hin) as (tm & Hn & Hok & Hr).
  destruct (schedule_pair_spec c L n us tm Hs Hn Hus)
    as (h & base & m' & tm' & E & Hm' & Etm & Hh & Hsort & Hnot & Hne & Hsub & Ho).
  unfold schedule_map. rewrite Hn. cbn [mbind option_bind]. rewrite E. cbn [mbind option_bind].
  set (L' := insert_upper (h, (us, n)) base) in *.
  assert ((h, (us, n)) ∈ L') as Hin' by (apply elem_of_insert_upper; by left).
  assert (dm_data m' h = Some n) as ->.
  { destruct (list_elem_of_split _ _ Hin') as (L1 & L2 & E'). rewrite E' in Hm'. by apply (data_law _ _ _ _ _ Hm'). }
  cbn [mbind option_bind]. rewrite Nat.eqb_refl. do 3 eexists. split; [done|].
  assert (timer_ok tm') as Hok'.
  { rewrite Etm. destruct (d_deadlineMapHandle tm); [done|]. by destruct Hok. }
  split; [| |by apply timers_set_timer|done].
  - eapply (scheduled_replace c L _ L' n tm'); cbn; try done.
    + rewrite (length_law _ _ Hm'). apply insert_empty_flag. intros Hb. rewrite (s_empty _ _ Hs).
      destruct L; [by apply Hne in Hb|done].
    + destruct (s_earliest _ _ Hs) as [He0 He]. split; [destruct (at_front h L'); lia|].
      apply insert_earliest; [done|done|]. apply list.Forall_forall. intros x Hx.
      rewrite list.Forall_forall in He. by apply He, Hsub.
    + apply insert_keys; [done|]. apply list.Forall_forall. intros x Hx.
      pose proof (s_keys _ _ Hs) as He. rewrite list.Forall_forall in He. by apply He, Hsub.
    + intros h' k' m Hm. unfold L'. rewrite elem_of_insert_upper, Ho. split; [|tauto].
      intros [?|[_ ?]]; [by simplify_eq|done].
    + intros h' k' [?|Hb]%elem_of_insert_upper; [by simplify_eq|]. by apply Ho in Hb as [? _].
    + intros h' Hh'. rewrite Hh in Hh'. injection Hh' as <-. by exists us.
  - apply counted_set_map, (counted_set_timer c out out n tm tm'); [done|done|done| |].
    + rewrite Etm. unfold hnd. destruct (d_deadlineMapHandle tm) eqn:Eh; [rewrite Eh; lia|]. cbn. lia.
    + pose proof (c_dying _ _ Hc n) as Hd. rewrite Hn in Hd. rewrite Hd.
      rewrite (proj2 (Nat.eqb_neq (d_refs tm) 0)) by lia. rewrite Etm. destruct (d_deadlineMapHandle tm); [|done].
      by rewrite (proj2 (Nat.eqb_neq (d_refs tm) 0)) by lia.
Qed.

(** ** Unscheduling *)

Lemma Forall_removed {A} (P : A -> Prop) l1 x l2 : Forall P (l1 ++ x :: l2) -> Forall P (l1 ++ l2).
Proof. intros [H1 H2%Forall_cons_iff]%Forall_app. apply Forall_app. tauto. Qed.

(** The first pair has the least key. *)
Lemma head_least (e : nat * (Z * nat)) L :
  StronglySorted entry_le (e :: L) -> Forall (fun x => key_of e <= key_of x) (e :: L).
Proof. intros [_ H]%StronglySorted_inv. by constructor. Qed.

Lemma least_earliest L :
  StronglySorted entry_le L -> Forall (fun e => 0 <= key_of e <= S64_MAX) L ->
  earliest_ok (match L with [] => 0 | e :: _ => key_of e end) L.
Proof.
  intros Hs Hk. destruct L as [|e L]; [by split|].
  split; [apply Forall_inv in Hk; lia|by apply head_least].
Qed.

(** Reading the front of the map. *)
Lemma front_key m e L : models m (e :: L) -> dm_front m = Some (Some (fst e)) /\ dm_key m (fst e) = Some (key_of e).
Proof.
  intros Hm. split; [apply (front_law _ _ Hm)|]. destruct e as [h it]. by apply (key_law _ [] _ it L Hm).
Qed.

Lemma front_earliest m L b :
  models m L -> Forall (fun e => 0 <= key_of e <= S64_MAX) L -> (L <> [] -> b = false) ->
  exists front earliest,
    dm_front m = Some front /\
    match front with Some first => dm_key m first | None => Some 0 end = Some earliest /\
    match front with Some _ => b | None => true end = match L with [] => true | _ => false end /\
    earliest_ok earliest L.
Proof.
  intros Hm Hk Hb. destruct L as [|e L].
  - exists None, 0. split; [apply (front_law _ _ Hm)|]. by split; [|split].
  - exists (Some (fst e)), (key_of e). destruct (front_key _ _ _ Hm) as [Hf Hke].
    split; [done|]. split; [done|]. split; [by apply Hb|]. exact (least_earliest (e :: L) (models_sorted _ _ Hm) Hk).
Qed.

Lemma unschedule_map_wf c L out n :
  wf c L out -> Ref n ∈ out ->
  exists c' L', unschedule_map n c = Some c' /\ wf c' L' (Ref n :: out) /\
    (forall m, m <> n -> d_nodes c' !! m = d_nodes c !! m) /\
    exists tm tm', d_nodes c !! n = Some tm /\ d_nodes c' !! n = Some tm' /\ d_deadlineMapHandle tm' = None
      /\ d_options tm' = d_options tm /\ d_state tm' = d_state tm /\ get_handler tm' = get_handler tm.
Proof.
  intros Hwf Hin. pose proof Hwf as [Hs Hc Ht Hf].
  destruct (wf_live_out c L out n Hwf Hin) as (tm & Hn & Hok & Hr).
  assert (timer_ok (acquireRef tm)) as Hok' by (by destruct Hok).
  unfold unschedule_map. rewrite Hn. cbn [mbind option_bind]. cbn [acquireRef d_deadlineMapHandle].
  destruct (d_deadlineMapHandle tm) as [h|] eqn:Hh.
  - destruct (scheduled_split c L n tm h Hs Hn Hh) as (L1 & k & L2 & -> & Ho).
    destruct (remove_law _ L1 h (k, n) L2 (s_models _ _ Hs)) as (m' & -> & Hm'). cbn [mbind option_bind].
    pose proof (Forall_removed _ _ _ _ (s_keys _ _ Hs)) as Hkeys.
    destruct (front_earliest m' (L1 ++ L2) (d_deadlineMapEmpty c) Hm' Hkeys) as (front & ear & -> & Hk & He & Hle).
    { intros _. rewrite (s_empty _ _ Hs). by destruct L1. }
    cbn [mbind option_bind]. rewrite Hk. cbn [mbind option_bind]. do 2 eexists. split; [done|].
    set (tm' := releaseRef (with_handle None (acquireRef tm))).
    assert (timer_ok tm') as Hok2 by (by destruct Hok).
    split; [split; [| |by apply timers_set_timer|done]|].
    + eapply (scheduled_replace c _ _ (L1 ++ L2) n tm'); cbn; try done.
      * intros h' k' m Hm. rewrite Ho. tauto.
      * intros h' k' Hb. by apply Ho in Hb as [? _].
    + apply counted_set_map, (counted_set_timer c out _ n tm tm'); [done|done| | |].
      * intros x Hx _. by rewrite occ_cons, decide_False by congruence.
      * rewrite occ_cons, decide_True by done. unfold hnd. rewrite Hh. cbn. lia.
      * rewrite occ_cons, decide_False by done. pose proof (c_dying _ _ Hc n) as Hd. rewrite Hn in Hd. by rewrite Hd.
    + split; [intros m Hm; cbn; by rewrite lookup_insert_ne|]. exists tm, tm'. cbn. by rewrite lookup_insert_eq.
  - exists (set_timer n (acquireRef tm) c), L. split; [done|]. split.
    + eapply (wf_set_refs c L out _ n tm); [done|done|done|done|done|cbn; lia| |].
      * intros x Hx. by rewrite occ_cons, decide_False by congruence.
      * rewrite occ_cons, decide_True by done. cbn. lia.
    + split; [intros m Hm; cbn; by rewrite lookup_insert_ne|]. exists tm, (acquireRef tm). cbn. by rewrite lookup_insert_eq.
Qed.

(** ** The lock of the timer *)

Lemma get_handler_take tm : timer_ok tm -> get_handler (take_handler tm) = None.
Proof. intros [_ _ _ H]. unfold get_handler, take_handler. cbn. by destruct (d_callback tm), (d_session_sp tm), H. Qed.

Lemma with_state_ok tm p st h :
  timer_ok tm -> period_ok p -> get_handler tm = Some h -> st <> e_STATE_CLOSED -> timer_ok (with_state p st tm).
Proof.
  intros [H1 H2 H3 H4] Hp Hh Hst. split; [done|done| |done]. cbn. split; [done|].
  change (get_handler (with_state p st tm)) with (get_handler tm). by rewrite Hh.
Qed.

Lemma closed_ok tm p : timer_ok tm -> period_ok p -> timer_ok (with_state p e_STATE_CLOSED (take_handler tm)).
Proof.
  intros Hok Hp. pose proof (get_handler_take tm Hok) as Hh. destruct Hok as [H1 H2 H3 H4].
  split; [done|done|done|]. cbn. by left.
Qed.

Lemma open_handler tm : timer_ok tm -> d_state tm <> e_STATE_CLOSED -> exists h, get_handler tm = Some h.
Proof. intros [_ _ H _] Hst. destruct (get_handler tm) as [h|]; [by exists h|]. by destruct Hst; apply H. Qed.

Lemma closed_handler tm : timer_ok tm -> d_state tm = e_STATE_CLOSED -> get_handler tm = None.
Proof. intros [_ _ H _]. apply H. Qed.

Lemma cancel_lock_wf c L out n :
  wf c L out -> Ref n ∈ out ->
  exists tm, d_nodes c !! n = Some tm /\ timer_ok tm /\
  ((d_state tm <> e_STATE_SCHEDULED /\ cancel_lock n c = Some (None, c)) \/
   exists h tm', d_state tm = e_STATE_SCHEDULED /\ get_handler tm = Some h /\
     tm' = with_state (ti_make 0 0) e_STATE_WAITING tm /\
     cancel_lock n c = Some (Some h, set_timer n tm' c) /\ wf (set_timer n tm' c) L out).
Proof.
  intros Hwf Hin. destruct (wf_live_out c L out n Hwf Hin) as (tm & Hn & Hok & Hr).
  exists tm. split; [done|]. split; [done|]. unfold cancel_lock. rewrite Hn. cbn [mbind option_bind].
  case_bool_decide as Hst; [right|by left].
  destruct (open_handler tm Hok) as [h Hh]; [by rewrite Hst|]. rewrite Hh. do 2 eexists.
  split; [done|]. split; [done|]. split; [done|]. split; [done|].
  eapply wf_set_state; [done|done|done|done|]. by eapply with_state_ok; [|apply period_ok_zero| |].
Qed.

Lemma close_lock_wf c L out n :
  wf c L out -> Ref n ∈ out ->
  exists tm, d_nodes c !! n = Some tm /\ timer_ok tm /\
  ((d_state tm = e_STATE_CLOSED /\ close_lock n c = Some (None, c)) \/
   exists h tm', d_state tm <> e_STATE_CLOSED /\ get_handler tm = Some h /\
     tm' = with_state (ti_make 0 0) e_STATE_CLOSED (take_handler tm) /\
     close_lock n c = Some (Some (h, bool_decide (d_state tm = e_STATE_SCHEDULED)), set_timer n tm' c) /\
     wf (set_timer n tm' c) L out).
Proof.
  intros Hwf Hin. destruct (wf_live_out c L out n Hwf Hin) as (tm & Hn & Hok & Hr).
  exists tm. split; [done|]. split; [done|]. unfold close_lock. rewrite Hn. cbn [mbind option_bind].
  case_bool_decide as Hst; [by left|right].
  destruct (open_handler tm Hok Hst) as [h Hh]. rewrite Hh. do 2 eexists.
  split; [done|]. split; [done|]. split; [done|]. split; [done|].
  eapply wf_set_state; [done|done|done|done|]. apply closed_ok; [done|apply period_ok_zero].
Qed.

(** The timer after [arrive]. *)
Definition arrived tm : timer T :=
  if TimerOptions.oneShot (d_options tm) then with_state (d_period tm) e_STATE_CLOSED (take_handler tm)
  else with_state (d_period tm) (if is_recurring tm then e_STATE_SCHEDULED else e_STATE_WAITING) tm.

Lemma arrive_lock_wf c L out n :
  wf c L out -> Ref n ∈ out ->
  exists tm, d_nodes c !! n = Some tm /\ timer_ok tm /\
  ((d_state tm <> e_STATE_SCHEDULED /\ arrive_lock n c = Some (None, c)) \/
   exists h, d_state tm = e_STATE_SCHEDULED /\ get_handler tm = Some h /\
     arrive_lock n c = Some (Some h, set_timer n (arrived tm) c) /\ wf (set_timer n (arrived tm) c) L out).
Proof.
  intros Hwf Hin. destruct (wf_live_out c L out n Hwf Hin) as (tm & Hn & Hok & Hr).
  exists tm. split; [done|]. split; [done|]. unfold arrive_lock. rewrite Hn. cbn [mbind option_bind].
  case_bool_decide as Hst; cbn [negb]; [right|by left].
  destruct (open_handler tm Hok) as [h Hh]; [by rewrite Hst|]. rewrite Hh. exists h.
  split; [done|]. split; [done|]. split; [done|]. unfold arrived.
  destruct (TimerOptions.oneShot (d_options tm)); (eapply wf_set_state; [done|done|done|done|]).
  - apply closed_ok; [done|apply Hok].
  - eapply with_state_ok; [done|apply Hok|done|by destruct (is_recurring tm)].
Qed.

(** ** References and nodes *)

Lemma acquire_wf c L out n :
  wf c L out -> Ref n ∈ outstanding c out ->
  exists tm, d_nodes c !! n = Some tm /\ acquire n c = Some (set_timer n (acquireRef tm) c) /\
    wf (set_timer n (acquireRef tm) c) L (Ref n :: out).
Proof.
  intros Hwf Hin. destruct (wf_live c L out n Hwf Hin) as (tm & Hn & Hok & Hr). exists tm. split; [done|].
  unfold acquire. rewrite Hn. split; [done|].
  eapply (wf_set_refs c L out _ n tm); [done|done|done|by destruct Hok|done|cbn; lia| |].
  - intros x Hx. by rewrite occ_cons, decide_False by congruence.
  - rewrite occ_cons, decide_True by done. cbn. lia.
Qed.

(** The last reference leaves a dying node. *)
Lemma release_wf c L out n :
  wf c L (Ref n :: out) ->
  exists tm last, d_nodes c !! n = Some tm /\
    release n c = Some (last, set_timer n (releaseRef tm) c) /\
    wf (set_timer n (releaseRef tm) c) L ((if last then [Dying n] else []) ++ out).
Proof.
  intros Hwf. destruct (wf_live_out c L (Ref n :: out) n Hwf) as (tm & Hn & Hok & Hr); [by left|].
  pose proof Hwf as [Hs Hc Ht Hf]. exists tm, (d_refs tm =? 1)%nat. split; [done|]. unfold release. rewrite Hn.
  cbn [mbind option_bind]. rewrite (proj2 (Nat.eqb_neq _ _)) by lia. split; [done|].
  assert (timer_ok (releaseRef tm)) as Hok' by (by destruct Hok).
  split; [by eapply scheduled_set_timer| |by apply timers_set_timer|done].
  pose proof (c_dying _ _ Hc n) as Hd. rewrite Hn in Hd. rewrite occ_cons, decide_False in Hd by done.
  rewrite (proj2 (Nat.eqb_neq _ _)) in Hd by lia. assert (occ (Dying n) out = 0%nat) as Hd0 by lia.
  eapply counted_set_timer; [done|done| | |].
  - intros x H1 H2. rewrite occ_app, occ_cons, decide_False by congruence.
    destruct (d_refs tm =? 1)%nat; [|done]. by rewrite occ_cons, occ_nil, decide_False by congruence.
  - rewrite occ_app, occ_cons, decide_True by done. cbn [releaseRef d_refs]. unfold hnd. cbn [releaseRef d_deadlineMapHandle].
    assert (occ (Ref n) (if (d_refs tm =? 1)%nat then [Dying n] else []) = 0%nat) as ->; [|lia].
    destruct (_ =? _)%nat; [|done]. by rewrite occ_cons, occ_nil, decide_False by done.
  - rewrite occ_app, Hd0. cbn [releaseRef d_refs]. destruct (Nat.eqb_spec (d_refs tm) 1) as [E|E].
    + rewrite E, occ_cons, occ_nil, decide_True by done. done.
    + rewrite (proj2 (Nat.eqb_neq _ _)) by lia. done.
Qed.

Lemma next_of_not_in n free : n ∉ free -> next_of n free = None.
Proof.
  induction free as [|x free IH]; [done|]. rewrite not_elem_of_cons. intros [Hx Hf]. cbn [next_of].
  rewrite (proj2 (Nat.eqb_neq _ _)) by congruence. by apply IH.
Qed.

Lemma counted_live_not_free c out n tm : counted c out -> d_nodes c !! n = Some tm -> n ∉ d_nodeFree c.
Proof.
  intros Hc Hn Hin%occ_elem. pose proof (c_catalog _ _ Hc n) as H. rewrite Hn in H.
  destruct (n <? length (d_nodeArray c))%nat; lia.
Qed.

(** A node that is not free is in the count. *)
Lemma counted_live_count c out n tm : counted c out -> d_nodes c !! n = Some tm -> (0 < d_nodeCount c)%nat.
Proof.
  intros Hc Hn. pose proof (counted_live_not_free _ _ _ _ Hc Hn) as Hfree. pose proof Hc as [_ _ H3 H4 H5].
  assert (n :: d_nodeFree c ⊆+ d_nodeArray c) as Hsub.
  { rewrite H3. apply NoDup_submseteq.
    - constructor; [done|]. apply NoDup_occ. intros m. specialize (H4 m). destruct (_ <? _)%nat; lia.
    - intros m Hm. rewrite elem_of_cons in Hm. apply elem_of_seq. specialize (H4 m).
      destruct (Nat.ltb_spec m (length (d_nodeArray c))); [lia|].
      destruct Hm as [->|Hm%occ_elem]; [rewrite Hn in H4; lia|lia]. }
  apply submseteq_length in Hsub. cbn in Hsub. lia.
Qed.

Lemma no_handle_of_dying c out n tm :
  counted c out -> d_nodes c !! n = Some tm -> d_refs tm = 0%nat -> d_deadlineMapHandle tm = None.
Proof.
  intros Hc Hn Hr. pose proof (c_refs _ _ Hc n) as H. rewrite Hn, Hr in H. unfold hnd in H.
  destruct (d_deadlineMapHandle tm); [lia|done].
Qed.

Lemma disposeRep_wf c L out n :
  wf c L (Dying n :: out) ->
  exists c', disposeRep n c = Some c' /\ wf c' L out /\ d_nodes c' = delete n (d_nodes c) /\
    d_functorQueue c' = d_functorQueue c.
Proof.
  intros [Hs Hc Ht Hf]. pose proof (c_dying _ _ Hc n) as Hd. rewrite occ_cons, decide_True in Hd by done.
  destruct (d_nodes c !! n) as [tm|] eqn:Hn; [|lia]. unfold disposeRep. rewrite Hn. cbn [mbind option_bind].
  destruct (Nat.eqb_spec (d_refs tm) 0) as [Hr|]; [|lia].
  pose proof (counted_live_not_free _ _ _ _ Hc Hn) as Hfree. rewrite (next_of_not_in _ _ Hfree).
  rewrite bool_decide_true by done. eexists. split; [done|]. split; [|done].
  pose proof (no_handle_of_dying _ _ _ _ Hc Hn Hr) as Hh.
  split; [| | |done].
  - destruct Hs as [H1 H2 H3 H4 H5 H6]. split; try done; cbn.
    + intros h k m Hin. destruct (H5 h k m Hin) as (tm1 & Hm & Hh1). exists tm1. split; [|done].
      rewrite lookup_delete_ne; [done|]. intros <-. congruence.
    + intros m tm1 h [Hne Hm]%lookup_delete_Some. by apply H6.
  - destruct Hc as [H1 H2 H3 H4 H5]. split; cbn [set_catalog d_nodes d_nodeArray d_nodeFree d_nodeCount length].
    + intros m. specialize (H1 m). unfold outstanding in *. cbn [set_catalog d_functorQueue].
      rewrite occ_app, occ_cons, decide_False in H1 by done. rewrite occ_app.
      destruct (decide (m = n)) as [->|Hne].
      * rewrite lookup_delete_eq. rewrite Hn in H1. rewrite Hr in H1. lia.
      * by rewrite lookup_delete_ne.
    + intros m. specialize (H2 m). rewrite occ_cons in H2. destruct (decide (m = n)) as [->|Hne].
      * rewrite lookup_delete_eq. rewrite Hn, decide_True, Hr in H2 by done. cbn [Nat.eqb] in H2. lia.
      * rewrite lookup_delete_ne by done. by rewrite decide_False in H2 by congruence.
    + done.
    + intros m. specialize (H4 m). rewrite occ_cons in H4. rewrite occ_cons. rewrite decide_False in H4 by done.
      destruct (decide (n = m)) as [<-|Hne].
      * rewrite lookup_delete_eq. rewrite Hn in H4. lia.
      * rewrite lookup_delete_ne by done. exact H4.
    + pose proof (counted_live_count _ _ _ _ (Build_counted _ _ H1 H2 H3 H4 H5) Hn). lia.
  - intros m tm1. cbn. intros [_ Hm]%lookup_delete_Some. by eapply Ht.
Qed.

(** A free node or a new one is under construction. *)
Lemma createTimer_allocate_wf c L out :
  wf c L out ->
  exists n c', createTimer_allocate c = (n, c') /\ wf c' L (Building n :: out) /\ d_nodes c !! n = None /\
    d_nodes c' = d_nodes c /\ d_functorQueue c' = d_functorQueue c.
Proof.
  intros [Hs Hc Ht Hf]. pose proof Hc as [H1 H2 H3 H4 H5]. unfold createTimer_allocate, privateNodeAllocate.
  destruct (d_nodeFree c) as [|n free] eqn:Efree; do 2 eexists; (split; [done|]).
  - assert (d_nodes c !! length (d_nodeArray c) = None) as Hnone.
    { specialize (H4 (length (d_nodeArray c))). rewrite Nat.ltb_irrefl in H4. destruct (d_nodes c !! _); [lia|done]. }
    split; [|done]. split; [by destruct Hs| |done|done].
    split; cbn [set_catalog d_nodes d_nodeArray d_nodeFree d_nodeCount length].
    + intros m. specialize (H1 m). unfold outstanding in *. cbn [set_catalog d_functorQueue app].
      by rewrite occ_cons, decide_False by done.
    + intros m. rewrite occ_cons, decide_False by done. apply H2.
    + rewrite H3 at 1. rewrite length_app, seq_app. cbn. done.
    + intros m. specialize (H4 m). rewrite occ_nil in *. rewrite occ_cons, length_app. cbn [length].
      destruct (decide (length (d_nodeArray c) = m)) as [<-|Hne].
      * rewrite decide_True by done. rewrite Nat.ltb_irrefl in H4. rewrite (proj2 (Nat.ltb_lt _ _)) by lia. lia.
      * rewrite decide_False by congruence. destruct (Nat.ltb_spec m (length (d_nodeArray c))).
        -- rewrite (proj2 (Nat.ltb_lt _ _)) by lia. lia.
        -- rewrite (proj2 (Nat.ltb_ge _ _)) by lia. lia.
    + rewrite length_app. cbn in *. lia.
  - assert (d_nodes c !! n = None) as Hnone.
    { specialize (H4 n). rewrite occ_cons, decide_True in H4 by done.
      destruct (n <? _)%nat, (d_nodes c !! n); [lia|done|lia|lia]. }
    split; [|done]. split; [by destruct Hs| |done|done].
    split; cbn [set_catalog d_nodes d_nodeArray d_nodeFree d_nodeCount length].
    + intros m. specialize (H1 m). unfold outstanding in *. cbn [set_catalog d_functorQueue app].
      by rewrite occ_cons, decide_False by done.
    + intros m. rewrite occ_cons, decide_False by done. apply H2.
    + done.
    + intros m. specialize (H4 m). rewrite occ_cons in H4. rewrite occ_cons.
      destruct (decide (n = m)) as [->|Hne]; [rewrite decide_True by done|rewrite decide_False by congruence]; lia.
    + cbn [length] in H5. lia.
Qed.

Lemma createTimer_construct_wf c L out n options h :
  wf c L (Building n :: out) -> options_ok options ->
  d_nodes c !! n = None /\ wf (createTimer_construct n options h c) L (Ref n :: out).
Proof.
  intros [Hs Hc Ht Hf] Ho. pose proof Hc as [H1 H2 H3 H4 H5].
  assert (d_nodes c !! n = None) as Hn.
  { specialize (H4 n). rewrite occ_cons, decide_True in H4 by done. destruct (n <? _)%nat, (d_nodes c !! n); [lia|done|lia|lia]. }
  split; [done|]. unfold createTimer_construct. split; [| |apply timers_set_timer; [done|]|done].
  - destruct Hs as [S1 S2 S3 S4 S5 S6]. split; try done; cbn [set_timer set_nodes d_nodes].
    + intros h1 k m Hin. destruct (S5 h1 k m Hin) as (tm & Hm & Hh). exists tm. rewrite lookup_insert_ne; [done|].
      intros <-. congruence.
    + intros m tm h1 Hm. apply lookup_insert_Some in Hm as [[_ <-]|[_ Hm]]; [done|]. by apply S6.
  - split; cbn [set_timer set_nodes d_nodes d_nodeArray d_nodeFree d_nodeCount]; try done.
    + intros m. specialize (H1 m). unfold outstanding in *. cbn [set_timer set_nodes d_functorQueue].
      rewrite occ_app, occ_cons, decide_False in H1 by done. rewrite occ_app, occ_cons.
      destruct (decide (n = m)) as [->|Hne].
      * rewrite Hn in H1. rewrite lookup_insert_eq, decide_True by done. cbn. lia.
      * rewrite lookup_insert_ne by done. rewrite decide_False by congruence. exact H1.
    + intros m. specialize (H2 m). rewrite occ_cons, decide_False in H2 by done. rewrite occ_cons, decide_False by done.
      destruct (decide (n = m)) as [->|Hne].
      * rewrite lookup_insert_eq. rewrite Hn in H2. exact H2.
      * by rewrite lookup_insert_ne.
    + intros m. specialize (H4 m). rewrite occ_cons in H4. rewrite occ_cons, decide_False by done.
      destruct (decide (n = m)) as [->|Hne].
      * rewrite Hn, decide_True in H4 by done. rewrite lookup_insert_eq. lia.
      * rewrite decide_False in H4 by congruence. by rewrite lookup_insert_ne.
  - split; cbn; [done|apply period_ok_zero| |].
    + unfold get_handler. cbn. by destruct h.
    + destruct h; [by right|by left].
Qed.

(** ** Functors *)

(** Functors move between the queue and the threads. *)
Lemma wf_set_functors c L out out' queue :
  wf c L out -> same (out ++ queue_refs (d_functorQueue c)) (out' ++ queue_refs queue) ->
  wf (set_functors queue (match queue with [] => true | _ => false end) c) L out'.
Proof.
  intros [Hs Hc Ht Hf] Hsame.
  assert (forall n, occ (Dying n) out' = occ (Dying n) out) as Hd.
  { intros n. specialize (Hsame (Dying n)). rewrite !occ_app, !occ_dying_queue in Hsame. lia. }
  assert (forall n, occ (Building n) out' = occ (Building n) out) as Hb.
  { intros n. specialize (Hsame (Building n)). rewrite !occ_app, !occ_building_queue in Hsame. lia. }
  split; [by destruct Hs| |done|done]. destruct Hc as [H1 H2 H3 H4 H5].
  split; cbn [set_functors d_nodes d_nodeArray d_nodeFree d_nodeCount]; try done.
  - intros n. specialize (H1 n). unfold outstanding in *. cbn [set_functors d_functorQueue]. by rewrite <- Hsame.
  - intros n. by rewrite Hd.
  - intros n. by rewrite Hb.
Qed.

Lemma queue_flag (queue : list functor) (b : bool) (f : functor) :
  b = match queue with [] => true | _ => false end ->
  (match queue with [] => false | _ => b end) = match queue ++ [f] with [] => true | _ => false end.
Proof. intros ->. by destruct queue. Qed.

Lemma execute_wf c L out f : wf c L (functor_refs f ++ out) -> wf (execute f c) L out.
Proof.
  intros Hwf. unfold execute. rewrite (queue_flag _ _ f (w_functors _ _ _ Hwf)).
  eapply wf_set_functors; [done|]. intros x. rewrite queue_refs_app, queue_refs_cons. occs. cbn. lia.
Qed.

Lemma moveAndExecute_wf c L out fs f :
  wf c L (queue_refs (fs ++ match f with Some f => [f] | None => [] end) ++ out) ->
  wf (moveAndExecute fs f c) L out.
Proof.
  intros Hwf. unfold moveAndExecute. eapply wf_set_functors; [done|]. intros x. rewrite !queue_refs_app. occs. lia.
Qed.

Lemma pop_functors_wf c L out single :
  wf c L out ->
  exists fs done c', pop_functors single c = (fs, done, c') /\ wf c' L (queue_refs fs ++ out) /\
    d_nodes c' = d_nodes c /\ d_functorQueue c = fs ++ d_functorQueue c'.
Proof.
  intros Hwf. pose proof (w_functors _ _ _ Hwf) as Hf. unfold pop_functors.
  destruct (d_functorQueue c) as [|f rest] eqn:Eq.
  - exists [], false, c. split; [done|]. split; [done|]. by rewrite Eq.
  - destruct single.
    + exists [f], true. eexists. split; [done|]. rewrite Hf. split; [|done].
      eapply wf_set_functors; [done|]. intros x. rewrite Eq, !queue_refs_cons. occs. cbn. lia.
    + exists (f :: rest), false. eexists. split; [done|]. split; [|by cbn; rewrite app_nil_r].
      apply (wf_set_functors c L out _ []); [done|]. intros x. rewrite Eq. occs. cbn. lia.
Qed.

Lemma drain_map_wf c L out :
  wf c L out ->
  exists fs c', drain_map c = (fs, c') /\ wf c' L (queue_refs fs ++ out) /\ d_nodes c' = d_nodes c /\
    d_functorQueue c = fs ++ d_functorQueue c'.
Proof.
  intros Hwf. unfold drain_map. destruct (d_functorQueue c) as [|f rest] eqn:Eq.
  - exists [], c. by rewrite Eq.
  - do 2 eexists. split; [done|]. split; [|by cbn; rewrite app_nil_r].
    apply (wf_set_functors c L out _ []); [done|]. intros x. rewrite Eq. occs. cbn. lia.
Qed.

Lemma clearFunctions_wf c L out :
  wf c L out ->
  exists fs c', clearFunctions c = (fs, c') /\ wf c' L (queue_refs fs ++ out) /\ d_nodes c' = d_nodes c /\
    d_functorQueue c = fs ++ d_functorQueue c'.
Proof.
  intros Hwf. do 2 eexists. split; [done|]. split; [|by cbn; rewrite app_nil_r].
  apply (wf_set_functors c L out _ []); [done|]. intros x. occs. cbn. lia.
Qed.

(** ** Announcing *)

(** The chronology with its flags as [announce] leaves them. *)
Definition refreshed L c : t T M :=
  set_map (d_deadlineMap c) (match L with [] => true | _ => false end)
    (match L with [] => 0 | e :: _ => key_of e end) c.

Lemma refreshed_wf c L out : wf c L out -> wf (refreshed L c) L out.
Proof.
  intros [Hs Hc Ht Hf]. split; [|by apply counted_set_map|done|done].
  pose proof (sorted_of _ _ Hs) as Hsort. destruct Hs as [H1 H2 H3 H4 H5 H6]. split; try done.
  by apply least_earliest.
Qed.

(** The timer's next deadline. *)
Definition next_deadline (now key : Z) (period : T) : Z := Z.max now (key + ti_totalMicroseconds period).

(** What popping a timer leaves of it. *)
Record popped (tm tm' : timer T) : Prop := {
  p_options : d_options tm' = d_options tm;
  p_state : d_state tm' = d_state tm;
  p_callback : d_callback tm' = d_callback tm;
  p_session : d_session_sp tm' = d_session_sp tm;
  p_period : TimerOptions.d_backoff (d_options tm) = None -> d_period tm' = d_period tm;
}.

Lemma popped_handler tm tm' : popped tm tm' -> get_handler tm' = get_handler tm.
Proof. intros [_ _ H1 H2 _]. unfold get_handler. by rewrite H1, H2. Qed.

Lemma next_period_ok draws tm :
  timer_ok tm ->
  exists p draws', next_period draws tm = Some (p, draws') /\ period_ok p /\
    (TimerOptions.d_backoff (d_options tm) = None -> p = d_period tm).
Proof.
  intros [Ho Hp _ _]. unfold next_period, options_ok in *. destruct (TimerOptions.d_backoff (d_options tm)) as [b|].
  - destruct (Ho (rand draws) (d_period tm)) as (p & E & Hok); [apply rand_range|done|]. rewrite E.
    exists p, (S draws). done.
  - exists (d_period tm), draws. done.
Qed.

(** The bounds on the keys and on the clock rule out an overflow. *)
Lemma next_deadline_sum now key p :
  0 <= now <= BOUND -> 0 <= key <= now -> period_ok p ->
  int64 (key + ti_totalMicroseconds p) = Some (key + ti_totalMicroseconds p) /\
  now <= next_deadline now key p <= S64_MAX.
Proof.
  intros Hn Hk Hp. apply period_microseconds in Hp. unfold BOUND, next_deadline in *.
  rewrite int64_some by (unfold S64_MIN, S64_MAX; lia). split; [done|]. unfold S64_MAX. lia.
Qed.

Lemma reschedule_spec now key draws h n L2 tm m :
  timer_ok tm -> 0 <= now <= BOUND -> 0 <= key <= now -> models m ((h, (key, n)) :: L2) ->
  exists p draws' m',
    let next := next_deadline now key p in
    reschedule now key draws h tm m = Some (acquireRef (with_state p (d_state tm) tm), next, draws', m') /\
    models m' (insert_upper (h, (next, n)) L2) /\ period_ok p /\ now <= next <= S64_MAX /\
    (TimerOptions.d_backoff (d_options tm) = None -> p = d_period tm).
Proof.
  intros Hok Hn Hk Hm. destruct (next_period_ok draws tm Hok) as (p & draws' & Ep & Hp & Hb).
  destruct (next_deadline_sum now key p Hn Hk Hp) as [Ei Hr].
  destruct (updateR_law m [] h key n L2 (next_deadline now key p) Hm) as (m' & E & Hm').
  exists p, draws', m'. unfold reschedule. rewrite Ep. cbn [mbind option_bind]. rewrite Ei. cbn [mbind option_bind].
  assert ((if key + ti_totalMicroseconds p <? now then now else key + ti_totalMicroseconds p)
    = next_deadline now key p) as ->.
  { unfold next_deadline. destruct (Z.ltb_spec (key + ti_totalMicroseconds p) now); lia. }
  rewrite E. done.
Qed.

Lemma refreshed_replace c L out L' out' m' e x n tm tm' :
  wf (refreshed L c) L out -> d_nodes c !! n = Some tm -> models m' L' -> timer_ok tm' ->
  Forall (fun y => 0 <= key_of y <= S64_MAX) L' ->
  (forall h k m, m <> n -> (h, (k, m)) ∈ L' <-> (h, (k, m)) ∈ L) ->
  (forall h k, (h, (k, n)) ∈ L' -> d_deadlineMapHandle tm' = Some h) ->
  (forall h, d_deadlineMapHandle tm' = Some h -> exists k, (h, (k, n)) ∈ L') ->
  (0 < d_refs tm)%nat -> (0 < d_refs tm')%nat ->
  (forall y, y <> Ref n -> occ y out' = occ y out) ->
  (d_refs tm' + occ (Ref n) out + hnd tm = d_refs tm + occ (Ref n) out' + hnd tm')%nat ->
  wf (refreshed L' (set_map m' e x (set_timer n tm' c))) L' out'.
Proof.
  intros [Hs Hc Ht Hf] Hn Hm Hok Hk Ho Hh Hh' Hr Hr' Hocc Hsum. split.
  - eapply (scheduled_replace _ L _ L' n tm'); try done. cbn.
    apply least_earliest; [by eapply models_sorted|done].
  - apply counted_set_map, counted_set_map. destruct Hc as [H1 H2 H3 H4 H5].
    eapply (counted_set_timer c out out' n tm tm'); [by split|done|auto|done|].
    specialize (H2 n). cbn in H2. rewrite Hn in H2. rewrite Hocc, H2 by done.
    by rewrite !(proj2 (Nat.eqb_neq _ _)) by lia.
  - by apply timers_set_timer.
  - done.
Qed.

Record pop_result c c' n tm tm' h key now first first' L2 L' : Prop := {
  pr_nodes : d_nodes c' = <[n := tm']> (d_nodes c);
  pr_queue : d_functorQueue c' = d_functorQueue c;
  pr_empty : d_deadlineMapEmpty c' = d_deadlineMapEmpty c;
  pr_popped : popped tm tm';
  pr_cases :
    (is_recurring tm = false /\ L' = L2 /\ first' = first /\
     d_deadlineMapHandle tm' = None /\ d_period tm' = d_period tm) \/
    (is_recurring tm = true /\
     let next := next_deadline now key (d_period tm') in
     L' = insert_upper (h, (next, n)) L2 /\ d_deadlineMapHandle tm' = Some h /\
     first' = (if (next =? now) && bool_decide (first = None) then Some h else first));
}.

Lemma pop_timer_spec c h key n L2 out now first draws tm :
  wf (refreshed ((h, (key, n)) :: L2) c) ((h, (key, n)) :: L2) out ->
  d_nodes c !! n = Some tm -> d_deadlineMapHandle tm = Some h -> (0 < d_refs tm)%nat ->
  0 <= now <= BOUND -> key <= now ->
  exists first' draws' c' tm' L',
    pop_timer now key first draws h n tm c = Some (first', draws', c') /\
    wf (refreshed L' c') L' (Ref n :: out) /\ pop_result c c' n tm tm' h key now first first' L2 L'.
Proof.
  intros Hwf Hn Hh Hr Hnow Hle. pose proof Hwf as [Hs Hc Ht Hf]. pose proof (Ht n tm Hn) as Hok.
  destruct (scheduled_split _ _ n tm h Hs Hn Hh) as (L1 & k1 & L3 & EL & Ho).
  assert (forall h' k' m, (h', (k', m)) ∈ L2 <-> m <> n /\ (h', (k', m)) ∈ (h, (key, n)) :: L2) as Ho2.
  { destruct L1 as [|y L1]; [by injection EL as -> ->|]. injection EL as <- ->.
    pose proof (nodup_of _ _ Hs) as Hnd. rewrite fmap_cons in Hnd. cbn [fst] in Hnd. apply list.NoDup_cons in Hnd as [Hnot _].
    destruct Hnot. rewrite fmap_app, fmap_cons, elem_of_app. right. by left. }
  assert (0 <= key <= now) as Hk by (pose proof (Forall_inv (s_keys _ _ Hs)); cbn in *; lia).
  pose proof (Forall_inv_tail (s_keys _ _ Hs)) as Hkeys. pose proof (s_models _ _ Hs) as Hm. cbn in Hm.
  assert (forall y, y <> Ref n -> occ y (Ref n :: out) = occ y out) as Hocc.
  { intros y Hy. by rewrite occ_cons, decide_False by congruence. }
  unfold pop_timer. destruct (is_recurring tm) eqn:Erec.
  - destruct (reschedule_spec now key draws h n L2 tm _ Hok Hnow Hk Hm) as (p & draws' & m' & E & Hm' & Hp & Hb & Hnp).
    rewrite E. cbn [mbind option_bind]. do 5 eexists. split; [done|]. split; [|split; try done; right; done].
    eapply refreshed_replace; try done.
    + destruct Hok as [O1 O2 O3 O4]. split; try done.
    + apply insert_keys; [cbn [d_period acquireRef with_state]; lia|done].
    + intros h' k' m Hne. rewrite elem_of_insert_upper, Ho2. split; [intros [?|[_ ?]]; [by simplify_eq|done]|tauto].
    + intros h' k' [?|Hb']%elem_of_insert_upper; [by simplify_eq|]. by apply Ho2 in Hb' as [? _].
    + intros h' Hh'. cbn in Hh'. rewrite Hh in Hh'. injection Hh' as <-. eexists. apply elem_of_insert_upper. by left.
    + cbn. lia.
    + rewrite occ_cons, decide_True by done. unfold hnd. cbn. lia.
  - destruct (remove_law _ [] h (key, n) L2 Hm) as (m' & E & Hm'). rewrite E. cbn [mbind option_bind].
    do 5 eexists. split; [done|]. split; [|split; try done; by left].
    eapply refreshed_replace; try done.
    + by destruct Hok.
    + intros h' k' m Hne. rewrite Ho2. tauto.
    + intros h' k' Hb'. by apply Ho2 in Hb' as [? _].
    + rewrite occ_cons, decide_True by done. unfold hnd. rewrite Hh. cbn. lia.
Qed.

(** The node of a pair. *)
Definition node_of (e : nat * (Z * nat)) : nat := snd (snd e).

Definition due_of (e : nat * (Z * nat)) : DueEntry T :=
  {| d_node_p := node_of e; d_deadline := ti_setTotalMicroseconds (key_of e) |}.

Lemma NoDup_fmap_finer {A B C} (f : A -> B) (g : A -> C) (l : list A) :
  NoDup (f <$> l) -> (forall x y, x ∈ l -> y ∈ l -> g x = g y -> f x = f y) -> NoDup (g <$> l).
Proof.
  induction l as [|x l IH]; cbn [fmap list_fmap]; intros Hnd Hg; [constructor|].
  apply list.NoDup_cons in Hnd as [Hx Hnd]. constructor.
  - intros Hin. apply list_elem_of_fmap_1 in Hin as (y & Ey & Hy). apply Hx. rewrite (Hg x y); [|by left|by right|done].
    by apply list_elem_of_fmap_2.
  - apply IH; [done|]. intros y z Hy Hz. apply Hg; by right.
Qed.

Lemma scheduled_nodes c L : scheduled c L -> NoDup (node_of <$> L).
Proof.
  intros Hs. apply (NoDup_fmap_finer fst); [by eapply nodup_of|].
  intros [h [k n]] [h' [k' n']] H1 H2. cbn. intros <-.
  destruct (s_handle _ _ Hs _ _ _ H1) as (tm & Hn & Hh). destruct (s_handle _ _ Hs _ _ _ H2) as (tm' & Hn' & Hh').
  congruence.
Qed.

Lemma insert_upper_app (e : nat * (Z * nat)) D L :
  Forall (fun x => key_of x <= key_of e) D -> insert_upper e (D ++ L) = D ++ insert_upper e L.
Proof.
  induction 1 as [|x D Hx _ IH]; [done|]. cbn [app insert_upper]. by rewrite (proj2 (Z.ltb_ge _ _)), IH by done.
Qed.

(** The first timer moved to the current time is the first of those that are not
    due any more. *)
Definition reinserted (now : Z) (first : option nat) L : Prop :=
  match first with
  | Some f => exists e rest, L = e :: rest /\ fst e = f /\ key_of e = now
  | None => Forall (fun e => now < key_of e) L
  end.

Lemma reinserted_insert now first h next n L :
  reinserted now first L -> now <= next ->
  reinserted now (if (next =? now) && bool_decide (first = None) then Some h else first)
    (insert_upper (h, (next, n)) L).
Proof.
  intros Hr Hle. destruct first as [f|]; cbn [reinserted] in Hr.
  - rewrite bool_decide_false, andb_false_r by done. destruct Hr as (e & rest & -> & Hf & Hk).
    exists e, (insert_upper (h, (next, n)) rest). split; [|done]. cbn [insert_upper].
    rewrite (proj2 (Z.ltb_ge _ _)); [done|]. cbn. lia.
  - rewrite bool_decide_true, andb_true_r by done. destruct (Z.eqb_spec next now) as [->|Hne]; cbn [reinserted].
    + exists (h, (now, n)), L. destruct L as [|x L]; [done|]. apply Forall_inv in Hr. cbn [insert_upper].
      rewrite (proj2 (Z.ltb_lt _ _)); [done|]. exact Hr.
    + rewrite insert_upper_perm. constructor; [cbn; lia|done].
Qed.

Lemma insert_later now h next n L :
  Forall (fun e => now <= key_of e) L -> now <= next ->
  Forall (fun e => now <= key_of e) (insert_upper (h, (next, n)) L).
Proof. intros H Hn. rewrite insert_upper_perm. by constructor. Qed.

(** What the loop over the due pairs [D] does: the pairs [L] that are not due
    become [L']. *)
Record pop_loop (now : Z) (D L L' : list (nat * (Z * nat))) c c' : Prop := {
  pl_queue : d_functorQueue c' = d_functorQueue c;
  pl_later : Forall (fun e => now <= key_of e) L';
  pl_others : forall n, n ∉ node_of <$> D -> d_nodes c' !! n = d_nodes c !! n;
  pl_due : forall e, e ∈ D -> exists tm tm',
    d_nodes c !! node_of e = Some tm /\ d_nodes c' !! node_of e = Some tm' /\ popped tm tm' /\
    if is_recurring tm then (fst e, (next_deadline now (key_of e) (d_period tm'), node_of e)) ∈ L'
    else d_deadlineMapHandle tm' = None /\ d_period tm' = d_period tm;
  pl_pairs : forall h k n, (h, (k, n)) ∈ L' -> (h, (k, n)) ∈ L \/
    exists k0 tm tm', (h, (k0, n)) ∈ D /\ d_nodes c !! n = Some tm /\ d_nodes c' !! n = Some tm' /\
      is_recurring tm = true /\ k = next_deadline now k0 (d_period tm');
  pl_kept : forall e, e ∈ L -> e ∈ L';
}.

Lemma pop_loop_nil now L c : Forall (fun e => now <= key_of e) L -> pop_loop now [] L L c c.
Proof.
  intros H. split; try done.
  - by intros e ?%elem_of_nil.
  - intros h k n Hin. by left.
Qed.

Lemma pop_loop_cons now h key n D L L' c c1 c' tm tm1 first first' D1 L1 :
  pop_result c c1 n tm tm1 h key now first first' (D ++ L) (D1 ++ L1) ->
  d_nodes c !! n = Some tm -> n ∉ node_of <$> D -> D1 = D ->
  L1 = (if is_recurring tm then insert_upper (h, (next_deadline now key (d_period tm1), n)) L else L) ->
  pop_loop now D L1 L' c1 c' -> pop_loop now ((h, (key, n)) :: D) L L' c c'.
Proof.
  intros [P1 P2 P3 P4 P5] Hn Hnot -> EL [Q1 Q3 Q4 Q5 Q6 Q7].
  assert (forall m, m ∈ node_of <$> D -> d_nodes c1 !! m = d_nodes c !! m) as Hsame.
  { intros m Hm. rewrite P1, lookup_insert_ne; [done|]. by intros <-. }
  assert (d_nodes c' !! n = Some tm1) as Hn1 by (rewrite Q4, P1 by done; apply lookup_insert_eq).
  split; try congruence.
  - intros m Hm. cbn [fmap list_fmap] in Hm. apply not_elem_of_cons in Hm as [Hne Hm]. rewrite Q4, P1 by done.
    apply lookup_insert_ne. by cbn in Hne.
  - intros e [->|He]%elem_of_cons.
    + exists tm, tm1. cbn [node_of snd fst]. split; [done|]. split; [done|]. split; [done|].
      destruct P5 as [(Hr & _ & _ & Hh)|(Hr & _)]; rewrite Hr in EL |- *; [done|].
      apply Q7. rewrite EL. apply elem_of_insert_upper. by left.
    + destruct (Q5 e He) as (tm2 & tm3 & H2 & H3 & H4 & H5). exists tm2, tm3.
      rewrite Hsame in H2 by (by apply list_elem_of_fmap_2). done.
  - intros h' k' m Hin. destruct (Q6 h' k' m Hin) as [Hb|(k0 & tm2 & tm3 & H2 & H3 & H4 & H5 & H6)].
    + rewrite EL in Hb. destruct (is_recurring tm) eqn:Er; [|by left].
      apply elem_of_insert_upper in Hb as [E|Hb]; [|by left]. injection E as -> -> ->. right.
      exists key, tm, tm1. split; [by left|]. done.
    + right. exists k0, tm2, tm3. split; [by right|].
      rewrite Hsame in H3 by (by apply (list_elem_of_fmap_2 node_of) in H2). done.
  - intros e He. apply Q7. rewrite EL. destruct (is_recurring tm); [|done]. apply elem_of_insert_upper. by right.
Qed.

(** The pair at the front is that of a timer with a reference. *)
Lemma front_pair c L out h key n :
  wf c ((h, (key, n)) :: L) out ->
  dm_front (d_deadlineMap c) = Some (Some h) /\ dm_key (d_deadlineMap c) h = Some key /\
  dm_data (d_deadlineMap c) h = Some n /\
  exists tm, d_nodes c !! n = Some tm /\ d_deadlineMapHandle tm = Some h /\ (0 < d_refs tm)%nat.
Proof.
  intros [Hs Hc _ _]. pose proof (s_models _ _ Hs) as Hm. destruct (front_key _ _ _ Hm) as [Hf Hk].
  split; [done|]. split; [done|]. split; [apply (data_law _ [] h (key, n) L Hm)|].
  destruct (s_handle _ _ Hs h key n) as (tm & Hn & Hh); [by left|]. exists tm. split; [done|]. split; [done|].
  pose proof (c_refs _ _ Hc n) as Hr. rewrite Hn in Hr. unfold hnd in Hr. rewrite Hh in Hr. lia.
Qed.

Lemma pop_timers_end single now L c out first draws due done fuel :
  wf (refreshed L c) L out -> Forall (fun e => now <= key_of e) L -> reinserted now first L -> (0 < fuel)%nat ->
  pop_timers fuel single now first draws due done c = Some (due, done, c).
Proof.
  intros Hwf Hlater Hre Hfuel. destruct fuel as [|fuel]; [lia|]. cbn [pop_timers].
  destruct L as [|[h [key n]] L].
  - pose proof (front_law _ _ (s_models _ _ (w_scheduled _ _ _ Hwf))) as Hf. cbn in Hf. by rewrite Hf.
  - destruct (front_pair _ _ _ _ _ _ Hwf) as (Hf & Hk & _). cbn in Hf, Hk. rewrite Hf. cbn [mbind option_bind].
    rewrite Hk. cbn [mbind option_bind]. destruct (Z.ltb_spec now key) as [Hlt|Hge]; [done|].
    destruct first as [f|]; cbn [reinserted] in Hre.
    + destruct Hre as (e & rest & E & <- & _). injection E as <- _. by rewrite bool_decide_true.
    + apply Forall_inv in Hre. cbn in Hre. lia.
Qed.

Lemma pop_timers_spec single now D : forall L c out first draws due done fuel,
  wf (refreshed (D ++ L) c) (D ++ L) out -> 0 <= now <= BOUND ->
  Forall (fun e => key_of e <= now) D -> Forall (fun e => now <= key_of e) L ->
  reinserted now first L -> (length D < fuel)%nat ->
  exists c' L',
    pop_timers fuel single now first draws due done c =
      Some (due ++ (due_of <$> D), match D with [] => done | _ => if single then true else done end, c') /\
    wf (refreshed L' c') L' ((Ref ∘ node_of <$> D) ++ out) /\ pop_loop now D L L' c c' /\
    d_deadlineMapEmpty c' = d_deadlineMapEmpty c.
Proof.
  induction D as [|[h [key n]] D IH]; intros L c out first draws due done fuel Hwf Hnow Hdue Hlater Hre Hfuel.
  { exists c, L. rewrite (pop_timers_end single now L c out) by (done || lia). rewrite app_nil_r.
    split; [done|]. split; [done|]. split; [by apply pop_loop_nil|done]. }
  destruct fuel as [|fuel]; [cbn in Hfuel; lia|]. cbn [pop_timers app] in *. cbn [length] in Hfuel.
  apply Forall_cons_iff in Hdue as [Hkey Hdue]. cbn in Hkey.
  destruct (front_pair _ _ _ _ _ _ Hwf) as (Hf & Hk & Hd & tm & Hn & Hh & Hr). cbn in Hf, Hk, Hd, Hn.
  rewrite Hf. cbn [mbind option_bind]. rewrite Hk. cbn [mbind option_bind].
  rewrite (proj2 (Z.ltb_ge _ _)) by lia.
  assert (Some h <> first) as Hfirst.
  { intros <-. destruct Hre as (e & rest & -> & He & _).
    pose proof (nodup_of _ _ (w_scheduled _ _ _ Hwf)) as Hnd. rewrite fmap_cons, fmap_app, fmap_cons in Hnd.
    apply list.NoDup_cons in Hnd as [Hnot _]. apply Hnot. rewrite elem_of_app. right. rewrite He. by left. }
  rewrite bool_decide_false, Hd by done. cbn [mbind option_bind]. rewrite Hn. cbn [mbind option_bind]. rewrite Hh.
  cbn [mbind option_bind].
  destruct (pop_timer_spec c h key n (D ++ L) out now first draws tm Hwf Hn Hh Hr Hnow Hkey)
    as (first' & draws' & c1 & tm1 & L0 & -> & Hwf1 & Hres). cbn [mbind option_bind].
  pose proof (scheduled_nodes _ _ (w_scheduled _ _ _ Hwf)) as Hnd. rewrite fmap_cons in Hnd.
  apply list.NoDup_cons in Hnd as [Hnot _]. rewrite fmap_app, not_elem_of_app in Hnot. destruct Hnot as [Hnot _].
  set (next := next_deadline now key (d_period tm1)).
  assert (now <= next) as Hnext by (unfold next, next_deadline; lia).
  assert (L0 = D ++ (if is_recurring tm then insert_upper (h, (next, n)) L else L) /\
    reinserted now first' (if is_recurring tm then insert_upper (h, (next, n)) L else L)) as [-> Hre'].
  { destruct (pr_cases _ _ _ _ _ _ _ _ _ _ _ _ Hres) as [(Er & -> & -> & _)|(Er & -> & _ & ->)]; rewrite Er; [done|].
    split; [|by apply reinserted_insert]. apply insert_upper_app.
    eapply List.Forall_impl; [|exact Hdue]. cbn. fold next. lia. }
  set (L1 := if is_recurring tm then _ else _) in *.
  assert (Forall (fun e => now <= key_of e) L1) as Hlater1.
  { unfold L1. destruct (is_recurring tm); [by apply insert_later|done]. }
  destruct (IH L1 c1 (Ref n :: out) first' draws' (due ++ [{| d_node_p := n; d_deadline := ti_setTotalMicroseconds key |}])
    (if single then true else done) fuel Hwf1 Hnow Hdue Hlater1 Hre') as (c' & L' & E & Hwf' & Hloop & Hempty); [lia|].
  exists c', L'. rewrite E. split; [|split; [|split]].
  - rewrite fmap_cons, <- app_assoc. f_equal. f_equal. f_equal. by destruct single, D.
  - eapply wf_same; [|exact Hwf']. intros x. rewrite fmap_cons. occs. cbn [compose node_of snd]. lia.
  - by eapply pop_loop_cons.
  - rewrite Hempty. apply (pr_empty _ _ _ _ _ _ _ _ _ _ _ _ Hres).
Qed.

Lemma refresh_earliest_spec c L :
  models (d_deadlineMap c) L -> d_deadlineMapEmpty c = false -> refresh_earliest c = Some (refreshed L c).
Proof.
  intros Hm He. unfold refresh_earliest, refreshed. destruct L as [|e L].
  - rewrite (front_law _ _ Hm). cbn. done.
  - destruct (front_key _ _ _ Hm) as [-> Hk]. cbn [mbind option_bind]. rewrite Hk. cbn. by rewrite He.
Qed.

Lemma now_microseconds (now : T) : period_ok now -> 0 <= ti_totalMicroseconds now <= BOUND.
Proof. apply period_microseconds. Qed.

(** [announce] either takes one functor alone, or it takes the functors and the
    timers that are due. *)
Inductive announced (alone : bool) (now : T) c1 L (ts : list (DueEntry T)) c' L' : Prop :=
  | announced_functor : alone = true -> ts = [] -> c' = c1 -> L' = L -> announced alone now c1 L ts c' L'
  | announced_timers D R :
      alone = false -> key_split (ti_totalMicroseconds now) L D R -> ts = due_of <$> D ->
      pop_loop (ti_totalMicroseconds now) D R L' c1 c' ->
      (forall e rest, L' = e :: rest -> d_deadlineMapEarliest c' = key_of e) ->
      announced alone now c1 L ts c' L'.

Lemma announce_map_spec single (now : T) c L out :
  wf c L out -> period_ok now ->
  exists fs d1 c1 ts done c' L',
    pop_functors single c = (fs, d1, c1) /\ announce_map single now c = Some (fs, ts, done, c') /\
    wf c' L' (queue_refs fs ++ (Ref ∘ d_node_p <$> ts) ++ out) /\
    d_nodes c1 = d_nodes c /\ d_functorQueue c = fs ++ d_functorQueue c' /\ announced d1 now c1 L ts c' L'.
Proof.
  intros Hwf Hnow. destruct (pop_functors_wf c L out single Hwf) as (fs & d1 & c1 & Ep & Hwf1 & Hnodes & Hq).
  unfold announce_map. rewrite Ep. pose proof (w_scheduled _ _ _ Hwf1) as Hs. pose proof (s_models _ _ Hs) as Hm.
  exists fs, d1, c1. rewrite (isEmpty_law _ _ Hm). cbn [mbind option_bind].
  destruct d1.
  { rewrite andb_false_r. exists [], true, c1, L. split; [done|]. split; [done|]. split; [done|].
    split; [done|]. split; [done|]. apply announced_functor; auto. }
  rewrite andb_true_r. destruct L as [|e L].
  { exists [], false, c1, []. split; [done|]. split; [done|]. split; [done|]. split; [done|]. split; [done|].
    apply (announced_timers _ _ _ _ _ _ _ [] []); [done| |done|by apply pop_loop_nil|done]. split; [done|]. split; constructor. }
  cbn [negb]. destruct (key_split_exists (ti_totalMicroseconds now) (e :: L) (sorted_of _ _ Hs)) as (D & R & Hsplit).
  pose proof Hsplit as (EL & HD & HR). pose proof (refreshed_wf _ _ _ Hwf1) as Hwf2. rewrite EL in Hwf2.
  destruct (pop_timers_spec single (ti_totalMicroseconds now) D R c1 _ None 0 [] false
    (S (dm_length (d_deadlineMap c1))) Hwf2) as (c' & L' & E & Hwf' & Hloop & Hempty).
  - by apply now_microseconds.
  - done.
  - eapply List.Forall_impl; [|exact HR]. cbn. intros. lia.
  - done.
  - rewrite (length_law _ _ Hm), EL, length_app. lia.
  - rewrite E. cbn [mbind option_bind]. rewrite (refresh_earliest_spec c' L').
    + cbn [mbind option_bind app]. do 4 eexists. split; [done|]. split; [done|]. split; [|split; [done|split]].
      * eapply wf_same; [|exact Hwf']. intros x. 
        replace ((Ref ∘ d_node_p) <$> (due_of <$> D)) with ((Ref ∘ node_of) <$> D); [occs; lia|].
        by rewrite <- list_fmap_compose.
      * cbn. by rewrite Hq, (pl_queue _ _ _ _ _ _ Hloop).
      * eapply announced_timers; [done|done|done|by destruct Hloop|]. by intros e0 rest ->.
    + apply (s_models _ _ (w_scheduled _ _ _ Hwf')).
    + by rewrite Hempty, (s_empty _ _ Hs).
Qed.

(** ** Every timer of the map *)

Lemma collect_spec m L1 L2 :
  models m (L1 ++ L2) -> collect (length L2) m (fst <$> head L2) = Some (node_of <$> L2).
Proof.
  revert L1. induction L2 as [|[h it] L2 IH]; intros L1 Hm; [done|].
  change (collect (S (length L2)) m (Some h) = Some (snd it :: (node_of <$> L2))). cbn [collect]. rewrite (data_law _ _ _ _ _ Hm). cbn [mbind option_bind].
  rewrite (skipForward_law _ _ (h, it) _ Hm : dm_skipForward m h = _). cbn [mbind option_bind].
  change (default (Some h) (Some (fst <$> head L2))) with (fst <$> head L2).
  rewrite (IH (L1 ++ [(h, it)])); [done|]. by rewrite <- app_assoc.
Qed.

Lemma acquire_all_wf L2 : forall c L out,
  wf c L out -> (forall e, e ∈ L2 -> exists tm, d_nodes c !! node_of e = Some tm /\ (0 < d_refs tm)%nat) ->
  exists c', acquire_all (node_of <$> L2) c = Some c' /\ wf c' L ((Ref ∘ node_of <$> L2) ++ out) /\
    d_functorQueue c' = d_functorQueue c /\
    (forall n, (fun tm => (d_options tm, get_handler tm, d_state tm, d_deadlineMapHandle tm, d_period tm)) <$> d_nodes c' !! n
       = (fun tm => (d_options tm, get_handler tm, d_state tm, d_deadlineMapHandle tm, d_period tm)) <$> d_nodes c !! n).
Proof.
  induction L2 as [|e L2 IH]; intros c L out Hwf Hlive; [by exists c|]. rewrite fmap_cons. cbn [acquire_all].
  destruct (Hlive e) as (tm & Hn & Hr); [by left|]. unfold acquire. rewrite Hn. cbn [mbind option_bind].
  destruct (IH (set_timer (node_of e) (acquireRef tm) c) L (Ref (node_of e) :: out)) as (c' & E & Hwf' & Hq & Hv).
  - eapply (wf_set_refs c L out _ (node_of e) tm); [done|done|done| |done|cbn; lia| |].
    + by destruct (w_timers _ _ _ Hwf _ _ Hn).
    + intros x Hx. by rewrite occ_cons, decide_False by congruence.
    + rewrite occ_cons, decide_True by done. cbn. lia.
  - intros e' He'. cbn [set_timer set_nodes d_nodes]. destruct (decide (node_of e' = node_of e)) as [->|Hne].
    + exists (acquireRef tm). rewrite lookup_insert_eq. split; [done|]. cbn. lia.
    + rewrite lookup_insert_ne by done. apply Hlive. by right.
  - exists c'. split; [done|]. split; [|split; [done|]].
    + eapply wf_same; [|exact Hwf']. intros x. rewrite fmap_cons. occs. cbn [compose]. lia.
    + intros n. rewrite Hv. cbn [set_timer set_nodes d_nodes]. destruct (decide (n = node_of e)) as [->|Hne].
      * by rewrite lookup_insert_eq, Hn.
      * by rewrite lookup_insert_ne.
Qed.

Lemma load_wf c L out :
  wf c L out ->
  exists c', load c = Some (node_of <$> L, c') /\ wf c' L ((Ref ∘ node_of <$> L) ++ out) /\
    d_functorQueue c' = d_functorQueue c /\
    (forall n, (fun tm => (d_options tm, get_handler tm, d_state tm, d_deadlineMapHandle tm, d_period tm)) <$> d_nodes c' !! n
       = (fun tm => (d_options tm, get_handler tm, d_state tm, d_deadlineMapHandle tm, d_period tm)) <$> d_nodes c !! n).
Proof.
  intros Hwf. pose proof (s_models _ _ (w_scheduled _ _ _ Hwf)) as Hm.
  destruct (acquire_all_wf L c L out Hwf) as (c' & E & H).
  { intros [h [k n]] Hin. destruct (s_handle _ _ (w_scheduled _ _ _ Hwf) _ _ _ Hin) as (tm & Hn & Hh).
    exists tm. split; [done|]. pose proof (c_refs _ _ (w_counted _ _ _ Hwf) n) as Hr. rewrite Hn in Hr.
    unfold hnd in Hr. rewrite Hh in Hr. lia. }
  exists c'. unfold load. rewrite (front_law _ _ Hm), (length_law _ _ Hm). cbn [mbind option_bind].
  rewrite (collect_spec _ [] L Hm). cbn [mbind option_bind]. rewrite E. done.
Qed.

End Facts.

End ChronologyFacts.
