(* ===== verification/ChronologySystem.v ===== *)
(** * The interleavings of a chronology

    Threads that call the operations of a chronology and of its timers.  A thread
    is the list of the sections that it has still to run: each runs without
    interruption, under the locks that the code takes for it, and may put further
    sections in front of the rest.  Functors and callbacks run in the thread that
    announces; a call that a callback makes is that of another thread, while the
    announcing one has not gone on.

    The application calls an operation of a timer only through a shared pointer
    that it holds.  [clear], [clearTimers] and [closeAll] are not among the steps
    (see ChronologyTheorems for what they do). *)

From stdpp Require Import gmap.
From S2P Require Import Prelude Errors TimeInterval Backoff DeadlineMap Chronology ChronologyFacts.

Module ChronologySystem.

Import TimerEventType Chronology ChronologyFacts.

Section System.

Context {T : Type} {TI : TimeIntervalOps T} {TU : TimeIntervalUnits T}.
Context {M : Type} {DM : DeadlineMap.Operations nat M} {RD : Rand}.

(** The sections that a thread runs.  [Announce] is the invocation of a callback
    or of a session's method, [Release] the end of a shared pointer, [Return] the
    end of a call with its result. *)
Inductive task : Type :=
  | Construct (n : nat) (options : TimerOptions.t T) (h : handler)
  | ScheduleLock (n : nat) (deadline period : T)
  | ScheduleMap (n : nat) (deadlineInMicroseconds : Z)
  | CancelLock (n : nat)
  | CancelMap (n : nat) (h : handler)
  | CloseLock (n : nat)
  | CloseMap (n : nat) (h : handler) (cancelled : bool)
  | Return (n : nat) (error : Error.t)
  | Execute (f : functor)
  | MoveAndExecute (functorSequence : list nat) (f : option nat)
  | Run (f : functor)
  | Pop (single : bool)
  | Drain
  | ClearFunctions
  | Load
  | Arrive (n : nat) (now deadline : T)
  | Announce (n : nat) (h : handler) (e : TimerEventType.t) (context : option (TimerContext T))
  | Release (n : nat)
  | Dispose (n : nat).

(** What can be observed: the pointers that the application gets, the results of
    its calls, its functions that run, the events that are announced, the functors
    that are dropped and the interruptions of the driver.  [Decided] marks the
    section under the lock of a timer that commits to an event. *)
Inductive output : Type :=
  | Created (n : nat)
  | Returned (n : nat) (error : Error.t)
  | Ran (f : nat)
  | Decided (h : handler) (e : TimerEventType.t)
  | Announced (h : handler) (e : TimerEventType.t) (context : option (TimerContext T))
  | Dropped (f : functor)
  | Interrupted.

Definition functor_self (f : functor) : list nat :=
  match f with
  | Function _ => []
  | processCancelled n _ | processClosed n _ | processCancelledAndClosed n _ => [n]
  end.

(** The body of a functor, and the end of its reference. *)
Definition run_functor (f : functor) : list task * list output :=
  match f with
  | Function f => ([], [Ran f])
  | processCancelled n h => ([Announce n h e_CANCELED None; Release n], [])
  | processClosed n h => ([Announce n h e_CLOSED None; Release n], [])
  | processCancelledAndClosed n h =>
      ([Announce n h e_CANCELED None; Announce n h e_CLOSED None; Release n], [])
  end.

Definition execute_functor (f : option functor) (n : nat) : list task :=
  match f with Some f => [Execute f] | None => [Release n] end.

(** The end of [cancel] and of [close], after the lock of the timer. *)
Definition unschedule (n : nat) (get_functor : t T M -> option (option functor)) (error : Error.t) (c : t T M)
  : option (list task * list output * t T M) :=
  match unschedule_map n c with
  | Some c =>
      f ← get_functor c;
      Some (execute_functor f n ++ [Return n error], [], c)
  | None => None
  end.

Definition announcements (n : nat) (h : handler)
    (events : list (TimerEventType.t * option (TimerContext T))) : list task :=
  ((fun e => Announce n h (fst e) (snd e)) <$> events) ++ [Release n].

Definition arrivals (now : T) (timersDue : list (DueEntry T)) : list task :=
  (fun due => Arrive (d_node_p due) now (d_deadline due)) <$> timersDue.

(** One section, at the time [now]: the sections to run next, what is observed
    and the chronology.  [exactlyNow] is the clock read for the drift. *)
Definition run_task (now exactlyNow : T) (k : task) (c : t T M)
  : option (list task * list output * t T M) :=
  match k return option (list task * list output * t T M) with
  | Construct n options h => Some ([], [Created n], createTimer_construct n options h c)
  | ScheduleLock n deadline period =>
      match schedule_lock n period c with
      | Some (true, c) => Some ([ScheduleMap n (ti_totalMicroseconds (effective deadline))], [], c)
      | Some (false, c) => Some ([Return n Error.e_INVALID], [], c)
      | None => None
      end
  | ScheduleMap n deadlineInMicroseconds =>
      match schedule_map n deadlineInMicroseconds c with
      | Some (newFrontFlag, c) =>
          Some ([Return n Error.e_OK], if newFrontFlag then [Interrupted] else [], c)
      | None => None
      end
  | CancelLock n =>
      match cancel_lock n c with
      | Some (Some h, c) => Some ([CancelMap n h], [Decided h e_CANCELED], c)
      | Some (None, c) => Some ([Return n Error.e_INVALID], [], c)
      | None => None
      end
  | CancelMap n h =>
      unschedule n (cancel_functor n h) Error.e_CANCELLED c
  | CloseLock n =>
      match close_lock n c with
      | Some (Some (h, cancelled), c) =>
          Some ([CloseMap n h cancelled],
                (if cancelled : bool then [Decided h e_CANCELED] else []) ++ [Decided h e_CLOSED], c)
      | Some (None, c) => Some ([Return n Error.e_INVALID], [], c)
      | None => None
      end
  | CloseMap n h cancelled =>
      unschedule n (close_functor n h cancelled) (if cancelled then Error.e_CANCELLED else Error.e_OK) c
  | Return n error =>
      match release n c with
      | Some (last, c) => Some (if last then [Dispose n] else [], [Returned n error], c)
      | None => None
      end
  | Execute f => Some ([], [Interrupted], execute f c)
  | MoveAndExecute functorSequence f =>
      Some ([], [Interrupted], moveAndExecute (Function <$> functorSequence) (Function <$> f) c)
  | Run f => let '(tasks, outputs) := run_functor f in Some (tasks, outputs, c)
  | Pop single =>
      match announce_map single now c with
      | Some (functorsDue, timersDue, _, c) => Some ((Run <$> functorsDue) ++ arrivals now timersDue, [], c)
      | None => None
      end
  | Drain => let '(functorsDue, c) := drain_map c in Some (Run <$> functorsDue, [], c)
  | ClearFunctions =>
      let '(functors, c) := clearFunctions c in
      Some (Release <$> (functors ≫= functor_self), Dropped <$> functors, c)
  | Load =>
      match load c with
      | Some (nodes, c) => Some ([], Created <$> nodes, c)
      | None => None
      end
  | Arrive n now deadline =>
      match d_nodes c !! n, arrive_lock n c with
      | Some tm, Some (Some h, c) =>
          match arrive_events n now deadline exactlyNow c with
          | Some events =>
              Some (announcements n h events,
                    Decided h e_DEADLINE :: (if TimerOptions.oneShot (d_options tm) then [Decided h e_CLOSED] else []),
                    c)
          | None => None
          end
      | Some _, Some (None, c) => Some ([Release n], [], c)
      | _, _ => None
      end
  | Announce _ h e context => Some ([], [Announced h e context], c)
  | Release n =>
      match release n c with
      | Some (last, c) => Some (if last then [Dispose n] else [], [], c)
      | None => None
      end
  | Dispose n =>
      match disposeRep n c with
      | Some c => Some ([], [], c)
      | None => None
      end
  end.

(** ** The system *)

Record system : Type := {
  chronology : t T M;
  threads : list (list task);
  held : list nat;
  outputs : list output;
  created : gmap handler (TimerOptions.t T);
}.

Definition created_nodes (outs : list output) : list nat :=
  omap (fun o => match o with Created n => Some n | _ => None end) outs.

(** A call of the application: of a timer, with a deadline after the epoch and a
    period within the bound, or of the chronology. *)
Definition timer_call (n : nat) (k : task) : Prop :=
  match k with
  | ScheduleLock m deadline period => m = n /\ 0 <= ns deadline /\ period_ok period
  | CancelLock m | CloseLock m => m = n
  | _ => False
  end.

Definition chronology_call (k : task) : Prop :=
  match k with
  | Execute (Function _) | MoveAndExecute _ _ | Pop _ | Drain | ClearFunctions | Load => True
  | _ => False
  end.

(** The sections of a call that is changing the schedule of a timer. *)
Definition changes (n : nat) (k : task) : bool :=
  match k with
  | ScheduleLock m _ _ | ScheduleMap m _ | CancelLock m | CancelMap m _ | CloseLock m | CloseMap m _ _ => (m =? n)%nat
  | _ => false
  end.

Definition running (s : system) : list task := concat (threads s).

(** [serial]: the application does not call operations of one timer while another
    thread is in one.  The clock and the options keep the sums of microseconds
    within their range.  Each timer is created with a callback or a session of its
    own, which identifies it. *)
Inductive step (serial : bool) : system -> system -> Prop :=
  | step_create s n c options h :
      created s !! h = None -> options_ok options ->
      createTimer_allocate (chronology s) = (n, c) ->
      step serial s {| chronology := c; threads := [Construct n options h] :: threads s;
                       held := held s; outputs := outputs s; created := <[h := options]> (created s) |}
  | step_timer_call s n k c :
      n ∈ held s -> timer_call n k ->
      (serial = true -> Forall (fun j => changes n j = false) (running s)) ->
      acquire n (chronology s) = Some c ->
      step serial s {| chronology := c; threads := [k] :: threads s;
                       held := held s; outputs := outputs s; created := created s |}
  | step_chronology_call s k :
      chronology_call k ->
      step serial s {| chronology := chronology s; threads := [k] :: threads s;
                       held := held s; outputs := outputs s; created := created s |}
  | step_copy s n c :
      n ∈ held s \/ Release n ∈ running s ->
      acquire n (chronology s) = Some c ->
      step serial s {| chronology := c; threads := threads s;
                       held := n :: held s; outputs := outputs s; created := created s |}
  | step_drop s h1 n h2 :
      held s = h1 ++ n :: h2 ->
      step serial s {| chronology := chronology s; threads := [Release n] :: threads s;
                       held := h1 ++ h2; outputs := outputs s; created := created s |}
  | step_run s before k rest after now exactlyNow ks outs c :
      threads s = before ++ (k :: rest) :: after -> period_ok now ->
      run_task now exactlyNow k (chronology s) = Some (ks, outs, c) ->
      step serial s {| chronology := c; threads := before ++ (ks ++ rest) :: after;
                       held := created_nodes outs ++ held s;
                       outputs := outputs s ++ outs; created := created s |}.

Definition initial (m : M) : system :=
  {| chronology := make m; threads := []; held := []; outputs := []; created := ∅ |}.

(** The states that the interleavings reach from a new chronology. *)
Definition reachable (serial : bool) (m : M) (s : system) : Prop := rtc (step serial) (initial m) s.

End System.

Arguments task : clear implicits.
Arguments output : clear implicits.
Arguments system : clear implicits.

End ChronologySystem.
