(* ===== verification/ChronologySafety.v ===== *)
(** * The invariant of the interleavings of a chronology

    Every section that a thread has next succeeds, and leaves the chronology
    well-formed relative to the references that the threads and the application
    then hold. *)

From stdpp Require Import gmap.
From S2P Require Import Prelude Occurrences Errors TimeInterval Backoff DeadlineMap Chronology ChronologyFacts.
From S2P Require Import ChronologySystem.

Import Occurrences.

Module ChronologySafety.

Import DeadlineMap TimerEventType Chronology ChronologyFacts ChronologySystem.

Section Safety.

Context {T : Type} {TI : TimeIntervalOps T} {TL : TimeIntervalLaws T}.
Context {TU : TimeIntervalUnits T} {TUL : TimeIntervalUnitsLaws T}.
Context {M : Type} {DM : DeadlineMap.Operations nat M} {DL : DeadlineMap.Laws nat M} {RD : Rand} {RDL : RandLaws}.

Implicit Types (c : t T M) (k : task T) (ks : list (task T)) (s : system T M).

(** ** References *)

(** The references that a section to be run holds. *)
Definition task_refs k : list item :=
  match k with
  | Construct n _ _ => [Building n]
  | ScheduleLock n _ _ | ScheduleMap n _ | CancelLock n | CancelMap n _ | CloseLock n | CloseMap n _ _
  | Return n _ | Arrive n _ _ | Release n => [Ref n]
  | Execute f | Run f => functor_refs f
  | Dispose n => [Dying n]
  | MoveAndExecute _ _ | Pop _ | Drain | ClearFunctions | Load | Announce _ _ _ _ => []
  end.

Definition items ks : list item := concat (task_refs <$> ks).

Lemma items_app ks1 ks2 : items (ks1 ++ ks2) = items ks1 ++ items ks2.
Proof. unfold items. by rewrite fmap_app, concat_app. Qed.

Lemma items_nil : items [] = [].
Proof. done. Qed.

Lemma items_cons k ks : items (k :: ks) = task_refs k ++ items ks.
Proof. done. Qed.

Lemma created_nodes_nil : created_nodes (T := T) [] = [].
Proof. done. Qed.

(** Normalize the items and their counts. *)
Ltac its :=
  repeat (progress rewrite ?items_app, ?items_cons, ?items_nil, ?created_nodes_nil in *);
  cbn [task_refs functor_refs app fmap list_fmap] in *; occs.

Lemma items_run fs : items (Run <$> fs) = queue_refs fs.
Proof. unfold items, queue_refs. by rewrite <- list_fmap_compose. Qed.

Lemma items_arrivals now ts : items (arrivals now ts) = Ref ∘ d_node_p <$> ts.
Proof.
  induction ts as [|d ts IH]; [done|]. unfold arrivals in *. rewrite fmap_cons, items_cons, IH. done.
Qed.

Lemma items_release fs : items (Release <$> (fs ≫= functor_self)) = queue_refs fs.
Proof.
  induction fs as [|f fs IH]; [done|]. rewrite bind_cons, fmap_app, items_app, IH, queue_refs_cons.
  by destruct f.
Qed.

Lemma items_announcements n h events : items (announcements n h events) = [Ref n].
Proof.
  unfold announcements. rewrite items_app. induction events as [|e events IH]; [done|].
  rewrite fmap_cons, items_cons. exact IH.
Qed.

Lemma queue_refs_functions fs : queue_refs (Function <$> fs) = [].
Proof. induction fs as [|f fs IH]; [done|]. rewrite fmap_cons, queue_refs_cons, IH. done. Qed.

(** The values that sections carry are within their ranges. *)
Definition task_ok k : Prop :=
  match k with
  | Construct _ options _ => options_ok options
  | ScheduleLock _ deadline period => 0 <= ns deadline /\ period_ok period
  | ScheduleMap _ us => 0 <= us <= S64_MAX
  | MoveAndExecute _ _ => True
  | _ => True
  end.

Lemma created_nodes_app o1 o2 : created_nodes (T := T) (o1 ++ o2) = created_nodes o1 ++ created_nodes o2.
Proof. unfold created_nodes. by rewrite omap_app. Qed.

(** ** One section *)

Definition succeeds now exactlyNow k c out : Prop :=
  exists ks outs c' L', run_task now exactlyNow k c = Some (ks, outs, c') /\
    wf c' L' (items ks ++ (Ref <$> created_nodes outs) ++ out) /\ Forall task_ok ks.

Lemma wf_items c L out ks nodes out' :
  same out (items ks ++ (Ref <$> nodes) ++ out') -> wf c L out ->
  wf c L (items ks ++ (Ref <$> nodes) ++ out').
Proof. apply wf_same. Qed.

Lemma release_runs c L out n :
  wf c L (Ref n :: out) ->
  exists last c', release n c = Some (last, c') /\ wf c' L (items (if last then [Dispose n] else []) ++ out).
Proof.
  intros Hwf. destruct (release_wf c L out n Hwf) as (tm & last & Hn & E & Hwf'). exists last. eexists.
  split; [done|]. by destruct last.
Qed.

Lemma execute_functor_items f n : (forall g, f = Some g -> functor_refs g = [Ref n]) -> items (execute_functor (T := T) f n) = [Ref n].
Proof. intros H. destruct f as [g|]; [|done]. cbn. rewrite app_nil_r. by apply H. Qed.

Lemma unschedule_runs c L out n get_functor error :
  wf c L (Ref n :: out) ->
  (forall c' tm, d_nodes c' !! n = Some tm -> exists f, get_functor c' = Some f /\
    forall g, f = Some g -> functor_refs g = [Ref n]) ->
  exists ks c' L', unschedule n get_functor error c = Some (ks, [], c') /\
    wf c' L' (items ks ++ out) /\ Forall task_ok ks.
Proof.
  intros Hwf Hget. destruct (unschedule_map_wf c L (Ref n :: out) n Hwf) as (c' & L' & E & Hwf' & _ & tm & tm' & _ & Hn' & _).
  { by left. }
  destruct (Hget c' tm' Hn') as (f & Ef & Hf). unfold unschedule. rewrite E, Ef. cbn [mbind option_bind].
  do 3 eexists. split; [done|]. split; [|destruct f; split_Forall; done].
  eapply wf_same; [|exact Hwf']. intros x. rewrite items_app, (execute_functor_items f n Hf). its. lia.
Qed.

Lemma lock_runs c L out n (f : t T M -> option (list (task T) * list (output T) * t T M)) :
  wf c L (Ref n :: out) ->
  (exists ks outs c', f c = Some (ks, outs, c') /\ wf c' L (Ref n :: out) /\ items ks = [Ref n] /\
    created_nodes outs = [] /\ Forall task_ok ks) ->
  exists ks outs c' L', f c = Some (ks, outs, c') /\
    wf c' L' (items ks ++ (Ref <$> created_nodes outs) ++ out) /\ Forall task_ok ks.
Proof.
  intros _ (ks & outs & c' & E & Hwf & Hi & Hc & Hok). exists ks, outs, c', L. by rewrite Hi, Hc.
Qed.

Lemma run_timer_lock now exactlyNow k c L out n :
  (exists deadline period, k = ScheduleLock n deadline period) \/ k = CancelLock n \/ k = CloseLock n \/
  (exists at_ deadline, k = Arrive n at_ deadline) ->
  wf c L (Ref n :: out) -> task_ok k -> succeeds now exactlyNow k c out.
Proof.
  intros Hk Hwf Hok. apply (lock_runs c L out n (run_task now exactlyNow k)); [done|].
  assert (Ref n ∈ Ref n :: out) as Hin by (by left).
  destruct Hk as [(d & p & ->)|[->|[->|(a & d & ->)]]]; cbn [run_task].
  - destruct Hok as [Hd Hp]. destruct (schedule_lock_wf c L _ n p Hwf Hin Hp) as (b & c' & -> & Hwf').
    destruct b; do 3 eexists; (split; [done|]); (split; [done|]); (split; [done|]); (split; [done|]); split_Forall; [|done].
    by apply effective_microseconds.
  - destruct (cancel_lock_wf c L _ n Hwf Hin) as (tm & Hn & Htm & [(_ & ->)|(h & tm' & _ & _ & _ & -> & Hwf')]);
      do 3 eexists; (split; [done|]); (split; [done|]); (split; [done|]); (split; [done|]); by split_Forall.
  - destruct (close_lock_wf c L _ n Hwf Hin) as (tm & Hn & Htm & [(_ & ->)|(h & tm' & _ & _ & _ & -> & Hwf')]);
      do 3 eexists; (split; [done|]); (split; [done|]); (split; [done|]); split; try (by split_Forall);
      by case_bool_decide.
  - destruct (arrive_lock_wf c L _ n Hwf Hin) as (tm & Hn & Htm & [(_ & ->)|(h & _ & _ & -> & Hwf')]); rewrite Hn.
    + do 3 eexists. split; [done|]. split; [done|]. split; [done|]. split; [done|]. by split_Forall.
    + unfold arrive_events. cbn [set_timer set_nodes d_nodes]. rewrite lookup_insert_eq. cbn [mbind option_bind].
      do 3 eexists. split; [done|]. split; [done|]. split; [apply items_announcements|].
      split; [by destruct (TimerOptions.oneShot (d_options tm))|].
      unfold announcements. apply Forall_app. split; [|by split_Forall].
      apply Forall_fmap, List.Forall_forall. done.
Qed.

(** The result is unchanged but for the references. *)
Lemma succeeds_same now exactlyNow k c out ks outs c' L' out' :
  run_task now exactlyNow k c = Some (ks, outs, c') -> wf c' L' out' ->
  same out' (items ks ++ (Ref <$> created_nodes outs) ++ out) -> Forall task_ok ks ->
  succeeds now exactlyNow k c out.
Proof. intros E Hwf Hs Hok. exists ks, outs, c', L'. split; [done|]. split; [|done]. by eapply wf_same. Qed.

Lemma Forall_run fs : Forall task_ok (Run <$> fs).
Proof. by apply Forall_fmap, List.Forall_forall. Qed.

Lemma run_task_wf now exactlyNow k c L out :
  wf c L (task_refs k ++ out) -> task_ok k -> period_ok now -> succeeds now exactlyNow k c out.
Proof.
  intros Hwf Hok Hnow.
  destruct k as [n o h|n d p|n us|n|n h|n|n h b|n e|f|fs f|f|single| | | |n a d|n h e ctx|n|n]; cbn [task_refs app] in Hwf.
  - destruct (createTimer_construct_wf c L out n o h Hwf Hok) as [_ Hwf']. eapply succeeds_same; [done|done| |constructor].
    intros x. cbn [created_nodes omap list_omap]. its. lia.
  - eapply run_timer_lock; eauto.
  - destruct (schedule_map_wf c L _ n us Hwf ltac:(by left) Hok) as (b & c' & L' & E & Hwf').
    eapply succeeds_same; [cbn [run_task]; by rewrite E|done| |by split_Forall].
    intros x. its. by destruct b; its.
  - eapply run_timer_lock; eauto.
  - destruct (unschedule_runs c L out n (cancel_functor n h) Error.e_CANCELLED Hwf) as (ks & c' & L' & E & Hwf' & Hks).
    { intros c' tm Hn. unfold cancel_functor. rewrite Hn. cbn [mbind option_bind]. eexists. split; [done|].
      intros g. destruct (TimerOptions.wantEvent _ _); by intros [= <-]. }
    exists ks, [], c', L'. by split.
  - eapply run_timer_lock; eauto.
  - destruct (unschedule_runs c L out n (close_functor n h b) (if b then Error.e_CANCELLED else Error.e_OK) Hwf)
      as (ks & c' & L' & E & Hwf' & Hks).
    { intros c' tm Hn. unfold close_functor. rewrite Hn. cbn [mbind option_bind]. eexists. split; [done|].
      intros g. destruct (TimerOptions.wantEvent _ _), (b && _); by intros [= <-]. }
    exists ks, [], c', L'. by split.
  - destruct (release_runs c L out n Hwf) as (last & c' & E & Hwf').
    eapply succeeds_same; [cbn [run_task]; by rewrite E|done|done|by destruct last; split_Forall].
  - eapply succeeds_same; [done|by apply execute_wf| |constructor]. done.
  - eapply succeeds_same; [done|apply moveAndExecute_wf| |constructor].
    + replace (queue_refs ((Function <$> fs) ++ match Function <$> f with Some f => [f] | None => [] end))
        with (@nil item); [exact Hwf|].
      rewrite queue_refs_app, queue_refs_functions. by destruct f.
    + done.
  - destruct (run_functor (T := T) f) as [ks outs] eqn:Ef.
    eapply succeeds_same; [cbn [run_task]; by rewrite Ef|done| |].
    + intros x. destruct f; injection Ef as <- <-; cbn [created_nodes omap list_omap] in *; its; lia.
    + destruct f; injection Ef as <- _; by split_Forall.
  - destruct (announce_map_spec single now c L out Hwf Hnow) as (fs & d1 & c1 & ts & done' & c' & L' & _ & E & Hwf' & _).
    eapply succeeds_same; [cbn [run_task]; by rewrite E|done| |].
    + intros x. rewrite items_app, items_run, items_arrivals. its. lia.
    + apply Forall_app. split; [apply Forall_run|]. by apply Forall_fmap, List.Forall_forall.
  - destruct (drain_map_wf c L out Hwf) as (fs & c' & E & Hwf' & _).
    eapply succeeds_same; [cbn [run_task]; by rewrite E|done| |apply Forall_run]. intros x. rewrite items_run. by its.
  - destruct (clearFunctions_wf c L out Hwf) as (fs & c' & E & Hwf' & _).
    eapply succeeds_same; [cbn [run_task]; by rewrite E|done| |by apply Forall_fmap, List.Forall_forall].
    intros x. rewrite items_release.
    replace (created_nodes (T := T) (Dropped <$> fs)) with (@nil nat); [by its|].
    clear. induction fs as [|f fs IH]; [done|exact IH].
  - destruct (load_wf c L out Hwf) as (c' & E & Hwf' & _).
    eapply succeeds_same; [cbn [run_task]; by rewrite E|done| |constructor].
    intros x. replace (created_nodes (T := T) (Created <$> (node_of <$> L))) with (node_of <$> L).
    + by rewrite list_fmap_compose.
    + clear. induction L as [|e L IH]; [done|]. exact (f_equal (cons (node_of e)) IH).
  - eapply run_timer_lock; eauto 6.
  - by eapply succeeds_same; [done|done|done|constructor].
  - destruct (release_runs c L out n Hwf) as (last & c' & E & Hwf').
    eapply succeeds_same; [cbn [run_task]; by rewrite E|done|done|by destruct last; split_Forall].
  - destruct (disposeRep_wf c L out n Hwf) as (c' & E & Hwf' & _).
    by eapply succeeds_same; [cbn [run_task]; by rewrite E|done|done|constructor].
Qed.

(** ** The system *)

(** The references held outside of the chronology. *)
Definition outside s : list item := (Ref <$> held s) ++ items (running s).

Definition safe s : Prop :=
  exists L, wf (chronology s) L (outside s) /\ Forall task_ok (running s).

Lemma running_cons th ths : concat (th :: ths) = th ++ concat ths :> list (task T).
Proof. done. Qed.

Lemma running_split before k rest after :
  concat (before ++ (k :: rest) :: after) = concat before ++ k :: rest ++ concat after :> list (task T).
Proof. rewrite concat_app. done. Qed.

Lemma running_replaced before ks rest after :
  concat (before ++ (ks ++ rest) :: after) = concat before ++ ks ++ rest ++ concat after :> list (task T).
Proof. rewrite concat_app. cbn. by rewrite <- app_assoc. Qed.

Lemma wf_make m : models m [] -> wf (make m) [] [].
Proof.
  intros Hm. split; [split; [done|done|by split|constructor| |done]| |done|done].
  - by intros h k n ?%elem_of_nil.
  - by split.
Qed.

Lemma safe_initial m : models m [] -> safe (initial m).
Proof. intros Hm. exists []. split; [|constructor]. by apply wf_make. Qed.

Lemma held_outside s n : n ∈ held s -> Ref n ∈ outside s.
Proof. intros Hin. unfold outside. rewrite elem_of_app. left. by apply list_elem_of_fmap_2. Qed.

Lemma task_ref_items k ks x : k ∈ ks -> x ∈ task_refs k -> x ∈ items ks.
Proof.
  intros Hk Hx. destruct (list_elem_of_split _ _ Hk) as (l1 & l2 & ->). rewrite items_app, items_cons.
  rewrite !elem_of_app. auto.
Qed.

Lemma running_outside s k x : k ∈ running s -> x ∈ task_refs k -> x ∈ outside s.
Proof. intros Hk Hx. unfold outside. rewrite elem_of_app. right. by eapply task_ref_items. Qed.

(** The references outside, but for those of the next section of a thread. *)
Definition elsewhere s (before : list (list (task T))) (rest : list (task T)) (after : list (list (task T))) : list item :=
  (Ref <$> held s) ++ items (concat before) ++ items rest ++ items (concat after).

Lemma running_wf s before k rest after L :
  wf (chronology s) L (outside s) -> threads s = before ++ (k :: rest) :: after ->
  wf (chronology s) L (task_refs k ++ elsewhere s before rest after).
Proof.
  intros Hwf Et. eapply wf_same; [|exact Hwf]. intros x. unfold outside, running, elsewhere.
  rewrite Et, running_split. its. lia.
Qed.

Lemma running_in s before k rest after : threads s = before ++ (k :: rest) :: after -> k ∈ running s.
Proof. intros Et. unfold running. rewrite Et, running_split, !elem_of_app, elem_of_cons. auto. Qed.

(** The next section of any thread succeeds in a safe state. *)
Lemma safe_run s before k rest after now exactlyNow :
  safe s -> threads s = before ++ (k :: rest) :: after -> period_ok now ->
  exists L ks outs c L',
    wf (chronology s) L (outside s) /\ run_task now exactlyNow k (chronology s) = Some (ks, outs, c) /\
    wf c L' ((Ref <$> created_nodes outs ++ held s) ++ items (concat (before ++ (ks ++ rest) :: after))) /\
    Forall task_ok (concat (before ++ (ks ++ rest) :: after)).
Proof.
  intros (L & Hwf & Hok) Et Hnow. pose proof Hok as Hok'. unfold running in Hok. rewrite Et, running_split in Hok.
  apply Forall_app in Hok as [Hok1 [Hk [Hok2 Hok3]%Forall_app]%Forall_cons_iff].
  destruct (run_task_wf now exactlyNow k (chronology s) L _ (running_wf _ _ _ _ _ _ Hwf Et) Hk Hnow) as (ks & outs & c & L' & E & Hwf' & Hks).
  exists L, ks, outs, c, L'. split; [done|]. split; [done|]. rewrite running_replaced. split.
  - eapply wf_same; [|exact Hwf']. intros x. unfold elsewhere. rewrite fmap_app. its. lia.
  - rewrite !Forall_app. done.
Qed.

Lemma timer_call_refs n k : timer_call n k -> task_refs k = [Ref n] /\ task_ok k.
Proof. destruct k; cbn; try done; [by intros (-> & ? & ?)|by intros ->|by intros ->]. Qed.

Lemma chronology_call_refs k : chronology_call k -> task_refs k = [] /\ task_ok k.
Proof. destruct k as [| | | | | | | |f| | | | | | | | | |]; cbn; try done. by destruct f. Qed.

Lemma acquire_safe s n c :
  safe s -> Ref n ∈ outside s -> acquire n (chronology s) = Some c ->
  exists L, wf c L (Ref n :: outside s) /\ Forall task_ok (running s) /\
    exists tm, d_nodes (chronology s) !! n = Some tm /\ c = set_timer n (acquireRef tm) (chronology s).
Proof.
  intros (L & Hwf & Hok) Hin E. exists L.
  destruct (acquire_wf _ L _ n Hwf) as (tm & Hn & E' & Hwf'); [unfold outstanding; rewrite elem_of_app; by left|].
  rewrite E' in E. injection E as <-. split; [done|]. split; [done|]. by exists tm.
Qed.

Lemma step_safe serial s s' : safe s -> step serial s s' -> safe s'.
Proof.
  intros Hsafe Hstep. revert Hsafe. destruct Hstep as [s0 n c o h Hfresh Ho E|s0 n k c Hin Hcall _ E|s0 k Hcall|s0 n c Hin E|s0 h1 n h2 E
    |s0 before k rest after now exactlyNow ks outs c Et Hnow E]; intros Hsafe.
  - destruct Hsafe as (L & Hwf & Hok). destruct (createTimer_allocate_wf _ _ _ Hwf) as (n' & c' & E' & Hwf' & _).
    rewrite E' in E. injection E as -> ->. exists L. split.
    + eapply wf_same; [|exact Hwf']. intros x. unfold outside, running. cbn [held threads]. rewrite running_cons. its. lia.
    + by constructor.
  - destruct (acquire_safe s0 n c Hsafe (held_outside _ _ Hin) E) as (L & Hwf & Hok & _).
    destruct (timer_call_refs n k Hcall) as [Hr Hk]. exists L. cbn [chronology]. split.
    + eapply wf_same; [|exact Hwf]. intros x. unfold outside, running. cbn [held threads]. rewrite running_cons. its. rewrite Hr. its. lia.
    + by constructor.
  - destruct Hsafe as (L & Hwf & Hok). destruct (chronology_call_refs k Hcall) as [Hr Hk]. exists L. split.
    + eapply wf_same; [|exact Hwf]. intros x. unfold outside, running. cbn [held threads]. rewrite running_cons. its. rewrite Hr. its. lia.
    + by constructor.
  - destruct (acquire_safe s0 n c Hsafe) as (L & Hwf & Hok & _); [|done|].
    + destruct Hin as [Hin|Hin]; [by apply held_outside|]. eapply running_outside; [done|by left].
    + exists L. split; [|done]. eapply wf_same; [|exact Hwf]. intros x. unfold outside. cbn [held]. by rewrite fmap_cons.
  - destruct Hsafe as (L & Hwf & Hok). exists L. split; [|by constructor].
    eapply wf_same; [|exact Hwf]. intros x. unfold outside, running. cbn [held threads]. rewrite E, running_cons, !fmap_app, fmap_cons.
    its. lia.
  - destruct (safe_run s0 before k rest after now exactlyNow Hsafe Et Hnow) as (L & ks' & outs' & c' & L' & _ & E' & Hwf' & Hok').
    rewrite E' in E. injection E as -> -> ->. by exists L'.
Qed.

Lemma reachable_safe serial m s : models m [] -> reachable serial m s -> safe s.
Proof.
  intros Hm. apply (rtc_ind_r (fun s => safe s)); [by apply safe_initial|].
  intros s1 s2 _ Hstep Hsafe. by eapply step_safe.
Qed.

(** ** What follows a section *)

(** A section that neither starts a timer nor belongs to a call that changes the
    schedule of one. *)
Definition inert k : Prop :=
  match k with
  | Construct _ _ _ | ScheduleLock _ _ _ | ScheduleMap _ _ | CancelLock _ | CancelMap _ _ | CloseLock _ | CloseMap _ _ _ => False
  | _ => True
  end.

(** Only the sections under the lock of a timer are followed by the rest of their
    call. *)
Definition follows k ks : Prop :=
  Forall inert ks \/
  match k with
  | ScheduleLock n _ _ => exists us, ks = [ScheduleMap n us]
  | CancelLock n => exists h, ks = [CancelMap n h]
  | CloseLock n => exists h cancelled, ks = [CloseMap n h cancelled]
  | _ => False
  end.

Lemma Forall_inert_fmap {A} (f : A -> task T) (l : list A) : (forall x, inert (f x)) -> Forall inert (f <$> l).
Proof. intros H. apply Forall_fmap, List.Forall_forall. intros x _. apply H. Qed.

Lemma execute_functor_inert f n e : Forall inert (execute_functor f n ++ [Return n e]).
Proof. destruct f; by split_Forall. Qed.

Lemma run_task_next now ex k c ks outs c' : run_task now ex k c = Some (ks, outs, c') -> follows k ks.
Proof.
  intros E. unfold follows.
  destruct k as [n o h|n d p|n us|n|n h|n|n h b|n e|f|fs f|f|single| | | |n a d|n h e ctx|n|n]; cbn [run_task] in E.
  - left. by injection E as <- <- <-.
  - destruct (schedule_lock n p c) as [[[] ?]|]; simplify_eq; [right; by eexists|left; by split_Forall].
  - left. destruct (schedule_map n us c) as [[? ?]|]; simplify_eq. by split_Forall.
  - destruct (cancel_lock n c) as [[[h|] ?]|]; simplify_eq; [right; by eexists|left; by split_Forall].
  - left. unfold unschedule in E. destruct (unschedule_map n c); [|done]. inv_option E. apply execute_functor_inert.
  - destruct (close_lock n c) as [[[[h b]|] ?]|]; simplify_eq; [right; by do 2 eexists|left; by split_Forall].
  - left. unfold unschedule in E. destruct (unschedule_map n c); [|done]. inv_option E. apply execute_functor_inert.
  - left. destruct (release n c) as [[[] ?]|]; simplify_eq; by split_Forall.
  - left. by injection E as <- <- <-.
  - left. by injection E as <- <- <-.
  - left. destruct f; injection E as <- <- <-; by split_Forall.
  - left. destruct (announce_map single now c) as [[[[fs ts] ?] ?]|]; simplify_eq. apply Forall_app.
    split; by apply Forall_inert_fmap.
  - left. destruct (drain_map c). injection E as <- <- <-. by apply Forall_inert_fmap.
  - left. injection E as <- <- <-. by apply Forall_inert_fmap.
  - left. destruct (load c) as [[? ?]|]; by simplify_eq.
  - left. destruct (d_nodes c !! n), (arrive_lock n c) as [[[h|] c1]|]; try done.
    + destruct (arrive_events n a d ex c1); simplify_eq. apply Forall_app.
      split; [by apply Forall_inert_fmap|by split_Forall].
    + injection E as <- <- <-. by split_Forall.
  - left. by injection E as <- <- <-.
  - left. destruct (release n c) as [[[] ?]|]; simplify_eq; by split_Forall.
  - left. destruct (disposeRep n c); by simplify_eq.
Qed.

Lemma inert_in ks k : Forall inert ks -> k ∈ ks -> inert k.
Proof. rewrite list.Forall_forall. auto. Qed.

End Safety.

End ChronologySafety.
