(* ===== verification/ChronologyEvents.v ===== *)
(** * The events of a chronology

    Which events the sections decide on, and that each is announced exactly once,
    in every reachable state of the interleavings. *)

From stdpp Require Import gmap.
From S2P Require Import Prelude Occurrences Errors TimeInterval Backoff DeadlineMap Chronology ChronologyFacts.
From S2P Require Import ChronologySystem ChronologySafety.

Import Occurrences.

Module ChronologyEvents.

Import DeadlineMap TimerEventType Chronology ChronologyFacts ChronologySystem ChronologySafety.

Section Events.

Context {T : Type} {TI : TimeIntervalOps T} {TL : TimeIntervalLaws T}.
Context {TU : TimeIntervalUnits T} {TUL : TimeIntervalUnitsLaws T}.
Context {M : Type} {DM : DeadlineMap.Operations nat M} {DL : DeadlineMap.Laws nat M} {RD : Rand} {RDL : RandLaws}.

Implicit Types (c : t T M) (k : task T) (ks : list (task T)) (s : system T M).

(** ** Events *)

(** The options and the handler of the timer of a node. *)
Definition table c (n : nat) : option (TimerOptions.t T * option handler) :=
  (fun tm => (d_options tm, get_handler tm)) <$> d_nodes c !! n.

Definition decided (outs : list (output T)) : list (handler * TimerEventType.t) :=
  omap (fun o => match o with Decided h e => Some (h, e) | _ => None end) outs.

Definition announced_events (outs : list (output T)) : list (handler * TimerEventType.t) :=
  omap (fun o => match o with Announced h e _ => Some (h, e) | _ => None end) outs.

Definition functor_events (f : functor) : list (handler * TimerEventType.t) :=
  match f with
  | Function _ => []
  | processCancelled _ h => [(h, e_CANCELED)]
  | processClosed _ h => [(h, e_CLOSED)]
  | processCancelledAndClosed _ h => [(h, e_CANCELED); (h, e_CLOSED)]
  end.

Definition functors_events (fs : list functor) : list (handler * TimerEventType.t) := fs ≫= functor_events.

Definition dropped_events (outs : list (output T)) : list (handler * TimerEventType.t) :=
  functors_events (omap (fun o => match o with Dropped f => Some f | _ => None end) outs).

(** The events of a handler that it wants, by the options of its timer. *)
Definition wants (g : gmap handler (TimerOptions.t T)) (x : handler * TimerEventType.t) : bool :=
  match g !! fst x with Some o => TimerOptions.wantEvent (snd x) o | None => false end.

Definition wanted (g : gmap handler (TimerOptions.t T)) (l : list (handler * TimerEventType.t)) :
  list (handler * TimerEventType.t) := filter (fun x => wants g x = true) l.

Definition close_events (h : handler) (cancelled : bool) : list (handler * TimerEventType.t) :=
  (if cancelled then [(h, e_CANCELED)] else []) ++ [(h, e_CLOSED)].

(** The events that a section to be run is to announce. *)
Definition task_events (g : gmap handler (TimerOptions.t T)) k : list (handler * TimerEventType.t) :=
  match k with
  | CancelMap _ h => wanted g [(h, e_CANCELED)]
  | CloseMap _ h cancelled => wanted g (close_events h cancelled)
  | Execute f | Run f => functor_events f
  | Announce _ h e _ => [(h, e)]
  | _ => []
  end.

Definition events g ks : list (handler * TimerEventType.t) := ks ≫= task_events g.

Lemma events_app g ks1 ks2 : events g (ks1 ++ ks2) = events g ks1 ++ events g ks2.
Proof. apply bind_app. Qed.

Lemma events_cons g k ks : events g (k :: ks) = task_events g k ++ events g ks.
Proof. done. Qed.

Lemma events_run g fs : events g (Run <$> fs) = functors_events fs.
Proof.
  induction fs as [|f fs IH]; [done|]. rewrite fmap_cons, events_cons, IH. done.
Qed.

Lemma events_none g ks : Forall (fun k => task_events g k = []) ks -> events g ks = [].
Proof. induction 1 as [|k ks Hk _ IH]; [done|]. by rewrite events_cons, Hk, IH. Qed.

Lemma functors_events_app f1 f2 : functors_events (f1 ++ f2) = functors_events f1 ++ functors_events f2.
Proof. apply bind_app. Qed.

Lemma functors_events_functions fs : functors_events (Function <$> fs) = [].
Proof. by induction fs. Qed.

Lemma wanted_app g l1 l2 : wanted g (l1 ++ l2) = wanted g l1 ++ wanted g l2.
Proof. apply list.filter_app. Qed.

Lemma decided_app o1 o2 : decided (o1 ++ o2) = decided o1 ++ decided o2.
Proof. apply omap_app. Qed.

Lemma announced_events_app o1 o2 : announced_events (o1 ++ o2) = announced_events o1 ++ announced_events o2.
Proof. apply omap_app. Qed.

Lemma dropped_events_app o1 o2 : dropped_events (o1 ++ o2) = dropped_events o1 ++ dropped_events o2.
Proof. unfold dropped_events. by rewrite omap_app, functors_events_app. Qed.

Lemma table_set_timer c n tm m :
  table (set_timer n tm c) m = if decide (m = n) then Some (d_options tm, get_handler tm) else table c m.
Proof.
  unfold table. cbn [set_timer set_nodes d_nodes]. case_decide as E.
  - by rewrite E, lookup_insert_eq.
  - by rewrite lookup_insert_ne.
Qed.

Lemma table_some c n tm : d_nodes c !! n = Some tm -> table c n = Some (d_options tm, get_handler tm).
Proof. unfold table. by intros ->. Qed.

(** A timer replaced by one with the same options and handler. *)
Lemma table_same c n tm tm' m :
  d_nodes c !! n = Some tm -> d_options tm' = d_options tm -> get_handler tm' = get_handler tm ->
  table (set_timer n tm' c) m = table c m.
Proof.
  intros Hn Ho Hh. rewrite table_set_timer. case_decide as E; [|done]. by rewrite E, (table_some _ _ _ Hn), Ho, Hh.
Qed.

(** What a section does to the table and which events it decides on. *)
Definition table_effect k ks (l : list (handler * TimerEventType.t)) c c' : Prop :=
  match k with
  | Construct n o h =>
      table c n = None /\ l = [] /\ forall m, table c' m = if decide (m = n) then Some (o, Some h) else table c m
  | CancelLock n =>
      (forall m, table c' m = table c m) /\
      (l = [] /\ ks = [Return n Error.e_INVALID] \/
       exists o h, table c n = Some (o, Some h) /\ l = [(h, e_CANCELED)] /\ ks = [CancelMap n h])
  | CloseLock n =>
      ((forall m, table c' m = table c m) /\ l = [] /\ ks = [Return n Error.e_INVALID]) \/
      exists o h cancelled, table c n = Some (o, Some h) /\ l = close_events h cancelled /\
        ks = [CloseMap n h cancelled] /\
        forall m, table c' m = if decide (m = n) then Some (o, None) else table c m
  | Arrive n _ _ =>
      ((forall m, table c' m = table c m) /\ l = [] /\ ks = [Release n]) \/
      exists o h, table c n = Some (o, Some h) /\
        l = (h, e_DEADLINE) :: (if TimerOptions.oneShot o then [(h, e_CLOSED)] else []) /\
        (forall g, g !! h = Some o -> events g ks = wanted g l) /\
        forall m, table c' m =
          if decide (m = n) then Some (o, if TimerOptions.oneShot o then None else Some h) else table c m
  | Dispose n => l = [] /\ forall m, table c' m = if decide (m = n) then None else table c m
  | _ => l = [] /\ forall m, table c' m = table c m
  end.

Lemma get_handler_with_state p st (tm : timer T) : get_handler (with_state p st tm) = get_handler tm.
Proof. done. Qed.

Lemma cancel_lock_table c L out n ks outs c' now ex :
  wf c L out -> Ref n ∈ out -> run_task now ex (CancelLock n) c = Some (ks, outs, c') ->
  table_effect (CancelLock n) ks (decided outs) c c'.
Proof.
  intros Hwf Hin. cbn [run_task]. destruct (cancel_lock_wf c L out n Hwf Hin)
    as (tm & Hn & Htm & [(_ & ->)|(h & tm' & _ & Hh & -> & -> & _)]); intros [= <- <- <-].
  - split; [done|]. by left.
  - split; [intros m; by eapply table_same|]. right. exists (d_options tm), h.
    by rewrite (table_some _ _ _ Hn), Hh.
Qed.

Lemma close_lock_table c L out n ks outs c' now ex :
  wf c L out -> Ref n ∈ out -> run_task now ex (CloseLock n) c = Some (ks, outs, c') ->
  table_effect (CloseLock n) ks (decided outs) c c'.
Proof.
  intros Hwf Hin. cbn [run_task]. destruct (close_lock_wf c L out n Hwf Hin)
    as (tm & Hn & Htm & [(_ & ->)|(h & tm' & _ & Hh & -> & -> & _)]); intros [= <- <- <-]; [by left|right].
  exists (d_options tm), h, (bool_decide (d_state tm = e_STATE_SCHEDULED)).
  rewrite (table_some _ _ _ Hn), Hh. split; [done|]. split; [by case_bool_decide|]. split; [done|].
  intros m. rewrite table_set_timer. case_decide; [|done].
  by rewrite get_handler_with_state, get_handler_take.
Qed.

(** The events of [arrive] are those that it decides on and that are wanted. *)
Lemma arrive_announcements g n h o tm now deadline ex c events0 :
  g !! h = Some o -> d_nodes c !! n = Some tm -> d_options tm = o ->
  arrive_events n now deadline ex c = Some events0 ->
  events g (announcements n h events0) =
  wanted g ((h, e_DEADLINE) :: (if TimerOptions.oneShot o then [(h, e_CLOSED)] else [])).
Proof.
  intros Hg Hn Ho. unfold arrive_events. rewrite Hn. cbn [mbind option_bind]. rewrite Ho. intros [= <-].
  unfold announcements, wanted, wants. rewrite filter_cons. cbn [fst snd]. rewrite Hg, events_app.
  destruct (TimerOptions.wantEvent e_DEADLINE o), (TimerOptions.oneShot o), (TimerOptions.wantEvent e_CLOSED o) eqn:Ew;
    rewrite ?filter_cons; cbn [fst snd]; rewrite ?Hg, ?Ew; done.
Qed.

Lemma arrive_lock_table c L out n at_ deadline ks outs c' now ex :
  wf c L out -> Ref n ∈ out -> run_task now ex (Arrive n at_ deadline) c = Some (ks, outs, c') ->
  table_effect (Arrive n at_ deadline) ks (decided outs) c c'.
Proof.
  intros Hwf Hin. cbn [run_task]. destruct (arrive_lock_wf c L out n Hwf Hin)
    as (tm & Hn & Htm & [(_ & ->)|(h & _ & Hh & -> & _)]); rewrite Hn; [intros [= <- <- <-]; by left|].
  destruct (arrive_events n at_ deadline ex _) as [evs|] eqn:Ee; [|done]. intros [= <- <- <-]. right.
  assert (d_options (arrived tm) = d_options tm) as Ho by (unfold arrived; by destruct (TimerOptions.oneShot _)).
  exists (d_options tm), h. rewrite (table_some _ _ _ Hn), Hh. split; [done|].
  split; [cbn; by destruct (TimerOptions.oneShot _)|]. split.
  - intros g Hg. erewrite (arrive_announcements g n h (d_options tm)); [|done| |exact Ho|exact Ee].
    + cbn. by destruct (TimerOptions.oneShot _).
    + cbn [set_timer set_nodes d_nodes]. apply lookup_insert_eq.
  - intros m. rewrite table_set_timer, Ho. case_decide; [|done]. unfold arrived.
    destruct (TimerOptions.oneShot _); [|by rewrite <- Hh].
    by rewrite get_handler_with_state, get_handler_take.
Qed.

Lemma unschedule_table c L out n get_functor error ks outs c' :
  wf c L out -> Ref n ∈ out -> unschedule n get_functor error c = Some (ks, outs, c') ->
  outs = [] /\ (forall m, table c' m = table c m) /\ d_functorQueue c' = d_functorQueue c /\
  exists f, get_functor c' = Some f /\ ks = execute_functor f n ++ [Return n error].
Proof.
  intros Hwf Hin. destruct (unschedule_map_wf c L out n Hwf Hin)
    as (c1 & L' & E & _ & Ho & tm & tm' & Hn & Hn' & _ & Hopt & _ & Hh).
  unfold unschedule. rewrite E. destruct (get_functor c1) as [f|] eqn:Ef; [|done]. cbn [mbind option_bind].
  intros [= <- <- <-]. split; [done|]. split.
  - intros m. unfold table. destruct (decide (m = n)) as [->|Hne]; [|by rewrite Ho].
    rewrite Hn, Hn'. cbn. by rewrite Hopt, Hh.
  - split; [|by exists f]. clear -E. unfold unschedule_map in E. inv_option E; done.
Qed.

Lemma pop_loop_table now D L L' c c' m : pop_loop now D L L' c c' -> table c' m = table c m.
Proof.
  intros Hl. unfold table. destruct (decide (m ∈ node_of <$> D)) as [Hin|Hnot].
  - apply list_elem_of_fmap_1 in Hin as (e & -> & He). destruct (pl_due _ _ _ _ _ _ Hl e He) as (tm & tm' & -> & -> & Hp & _).
    cbn. by rewrite (p_options _ _ Hp), (popped_handler _ _ Hp).
  - by rewrite (pl_others _ _ _ _ _ _ Hl).
Qed.

Lemma nodes_table c c' : d_nodes c' = d_nodes c -> forall m, table c' m = table c m.
Proof. unfold table. by intros ->. Qed.

Lemma decided_created nodes : decided (Created <$> nodes) = [].
Proof. by induction nodes. Qed.

Lemma decided_dropped fs : decided (Dropped <$> fs) = [].
Proof. by induction fs. Qed.

Lemma pop_table c L out single now ex ks outs c' :
  wf c L out -> period_ok now -> run_task now ex (Pop single) c = Some (ks, outs, c') ->
  outs = [] /\ (forall m, table c' m = table c m) /\
  exists fs ts, ks = (Run <$> fs) ++ arrivals now ts /\ d_functorQueue c = fs ++ d_functorQueue c'.
Proof.
  intros Hwf Hnow. cbn [run_task].
  destruct (announce_map_spec single now c L out Hwf Hnow) as (fs & d1 & c1 & ts & done' & c2 & L' & _ & -> & _ & Hn & Hq & Ha).
  intros [= <- <- <-]. split; [done|]. split; [|by exists fs, ts].
  intros m. rewrite <- (nodes_table _ _ Hn). destruct Ha as [_ _ -> _|D R _ _ _ Hl _]; [done|]. by eapply pop_loop_table.
Qed.

Lemma run_task_table now ex k c L out ks outs c' :
  wf c L (task_refs k ++ out) -> period_ok now -> task_ok k ->
  run_task now ex k c = Some (ks, outs, c') -> table_effect k ks (decided outs) c c'.
Proof.
  intros Hwf Hnow Hok E.
  destruct k as [n o h|n d p|n us|n|n h|n|n h b|n e|f|fs f|f|single| | | |n a d|n h e ctx|n|n]; cbn [task_refs app] in Hwf.
  - destruct (createTimer_construct_wf c L out n o h Hwf Hok) as [Hn _]. injection E as <- <- <-.
    split; [unfold table; by rewrite Hn|]. split; [done|]. intros m. unfold createTimer_construct. rewrite table_set_timer.
    case_decide; [|done]. by destruct h.
  - cbn [run_task] in E. unfold schedule_lock in E. destruct (d_nodes c !! n) as [tm|] eqn:Hn; [|done].
    cbn [mbind option_bind] in E. case_bool_decide; injection E as <- <- <-; (split; [done|]); [done|].
    intros m. by eapply table_same.
  - cbn [run_task] in E. destruct (schedule_map n us c) as [[b c1]|] eqn:Es; [|done]. injection E as <- <- <-.
    split; [by destruct b|]. intros m. unfold schedule_map in Es.
    destruct (d_nodes c !! n) as [tm|] eqn:Hn; [|done]. cbn [mbind option_bind] in Es.
    destruct (schedule_pair_spec c L n us tm (w_scheduled _ _ _ Hwf) Hn Hok) as (hd & base & m' & tm' & Ep & _ & Etm & _).
    rewrite Ep in Es. cbn [mbind option_bind] in Es. destruct (dm_data m' hd) as [data|]; [|done].
    cbn [mbind option_bind] in Es. destruct (data =? n)%nat; [|done]. injection Es as <- <-.
    transitivity (table (set_timer n tm' c) m); [done|]. eapply table_same; [done|..]; rewrite Etm; by destruct (d_deadlineMapHandle tm).
  - eapply cancel_lock_table; [exact Hwf|by left|exact E].
  - eapply unschedule_table in E as (-> & Ht & _); [by split|done|by left].
  - eapply close_lock_table; [exact Hwf|by left|exact E].
  - eapply unschedule_table in E as (-> & Ht & _); [by split|done|by left].
  - cbn [run_task] in E. destruct (release_wf c L out n Hwf) as (tm & last & Hn & Er & _). rewrite Er in E.
    injection E as <- <- <-. split; [done|]. intros m. by eapply table_same.
  - injection E as <- <- <-. by split.
  - injection E as <- <- <-. by split.
  - cbn [run_task] in E. destruct f; injection E as <- <- <-; by split.
  - eapply pop_table in E as (-> & Ht & _); [by split|done|done].
  - destruct (drain_map_wf c L out Hwf) as (fs & c1 & Ed & _ & Hn & _). cbn [run_task] in E. rewrite Ed in E.
    injection E as <- <- <-. split; [done|]. by apply nodes_table.
  - injection E as <- <- <-. split; [apply decided_dropped|done].
  - destruct (load_wf c L out Hwf) as (c1 & El & _ & _ & Hv). cbn [run_task] in E. rewrite El in E.
    injection E as <- <- <-. split; [apply decided_created|]. intros m. specialize (Hv m). unfold table.
    destruct (d_nodes c1 !! m), (d_nodes c !! m); try done. cbn in *. congruence.
  - eapply arrive_lock_table; [exact Hwf|by left|exact E].
  - injection E as <- <- <-. by split.
  - cbn [run_task] in E. destruct (release_wf c L out n Hwf) as (tm & last & Hn & Er & _). rewrite Er in E.
    injection E as <- <- <-. split; [done|]. intros m. by eapply table_same.
  - cbn [run_task] in E. destruct (disposeRep_wf c L out n Hwf) as (c1 & Ed & _ & Hn & _). rewrite Ed in E.
    injection E as <- <- <-. split; [done|]. intros m. unfold table. rewrite Hn. case_decide as Em.
    + by rewrite Em, lookup_delete_eq.
    + by rewrite lookup_delete_ne.
Qed.

(** The timer that [cancel] or [close] is about, and a timer that is due, have the
    options that their handler was created with. *)
Definition agrees (g : gmap handler (TimerOptions.t T)) k c : Prop :=
  match k with
  | CancelMap n h | CloseMap n h _ => exists o oh, table c n = Some (o, oh) /\ g !! h = Some o
  | Arrive n _ _ => forall o h, table c n = Some (o, Some h) -> g !! h = Some o
  | _ => True
  end.

Lemma wanted_one g h e o : g !! h = Some o -> wanted g [(h, e)] = if TimerOptions.wantEvent e o then [(h, e)] else [].
Proof.
  intros Hg. unfold wanted, wants. rewrite filter_cons. cbn [fst snd]. rewrite Hg.
  by destruct (TimerOptions.wantEvent e o).
Qed.

Lemma cancel_functor_events g n h c f o oh :
  table c n = Some (o, oh) -> g !! h = Some o -> cancel_functor n h c = Some f ->
  events g (execute_functor f n) = wanted g [(h, e_CANCELED)].
Proof.
  unfold table, cancel_functor. destruct (d_nodes c !! n) as [tm|]; [|done]. intros [= <- _] Hg. cbn [mbind option_bind]. intros [= <-].
  rewrite (wanted_one g h _ _ Hg). by destruct (TimerOptions.wantEvent _ _).
Qed.

Lemma close_functor_events g n h b c f o oh :
  table c n = Some (o, oh) -> g !! h = Some o -> close_functor n h b c = Some f ->
  events g (execute_functor f n) = wanted g (close_events h b).
Proof.
  unfold table, close_functor. destruct (d_nodes c !! n) as [tm|]; [|done]. intros [= <- _] Hg. cbn [mbind option_bind]. intros [= <-].
  unfold close_events. destruct b; rewrite ?wanted_app, !(wanted_one g h _ _ Hg);
    by destruct (TimerOptions.wantEvent e_CANCELED _), (TimerOptions.wantEvent e_CLOSED _).
Qed.

Lemma announced_created nodes : announced_events (Created <$> nodes) = [].
Proof. by induction nodes. Qed.

Lemma dropped_created nodes : dropped_events (Created <$> nodes) = [].
Proof. unfold dropped_events. by induction nodes. Qed.

Lemma announced_dropped fs : announced_events (Dropped <$> fs) = [].
Proof. by induction fs. Qed.

Lemma dropped_dropped fs : dropped_events (Dropped <$> fs) = functors_events fs.
Proof.
  unfold dropped_events. f_equal. induction fs as [|f fs IH]; [done|]. exact (f_equal (cons f) IH).
Qed.

(** A section under the lock of a timer announces nothing itself. *)
Definition quiet outs c c' : Prop :=
  announced_events outs = [] /\ dropped_events outs = [] /\ d_functorQueue c' = d_functorQueue c.

Lemma lock_quiet now ex k c ks outs c' :
  match k with
  | ScheduleLock _ _ _ | ScheduleMap _ _ | CancelLock _ | CloseLock _ | Arrive _ _ _ | Return _ _ | Release _ | Dispose _ => True
  | _ => False
  end ->
  run_task now ex k c = Some (ks, outs, c') -> quiet outs c c'.
Proof.
  intros Hk E. unfold quiet.
  destruct k as [n o h|n d p|n us|n|n h|n|n h b|n e|f|fs f|f|single| | | |n a d|n h e ctx|n|n]; try done; cbn [run_task] in E;
    unfold schedule_lock, schedule_map, cancel_lock, close_lock, arrive_lock, arrive_events, release, disposeRep in E;
    (destruct (d_nodes c !! n) as [tm|]; [|done]); cbn [mbind option_bind] in E;
    repeat first [case_match; simplify_eq/= | match type of E with mbind _ _ = _ => inv_option E end]; try done;
    (* the section of [schedule] on the map *)
    match goal with H : mbind _ _ = Some (_, c') |- _ => inv_option H end; done.
Qed.

(** The events that a section announces, hands on, puts in the queue or drops are
    those it had, those it takes out of the queue and those it decides on. *)
Definition balanced g k ks outs c c' : Prop :=
  same (announced_events outs ++ events g ks ++ functors_events (d_functorQueue c') ++ dropped_events outs)
    (task_events g k ++ functors_events (d_functorQueue c) ++ wanted g (decided outs)).

Lemma quiet_balanced g k ks outs c c' :
  quiet outs c c' -> same (events g ks) (task_events g k ++ wanted g (decided outs)) -> balanced g k ks outs c c'.
Proof.
  intros (Ha & Hd & Hq) Hs x. specialize (Hs x). rewrite Ha, Hd, Hq. occs. lia.
Qed.

Lemma plain_balanced g k ks outs c c' :
  announced_events outs = [] -> dropped_events outs = [] -> decided outs = [] ->
  same (events g ks ++ functors_events (d_functorQueue c')) (task_events g k ++ functors_events (d_functorQueue c)) ->
  balanced g k ks outs c c'.
Proof.
  intros Ha Hd Hdec Hs x. specialize (Hs x). rewrite Ha, Hd, Hdec. change (wanted g []) with (@nil (handler * TimerEventType.t)).
  occs. lia.
Qed.

Lemma functors_events_one f : functors_events [f] = functor_events f.
Proof. apply app_nil_r. Qed.

Lemma events_nil g : events g [] = [].
Proof. done. Qed.

(** The sections under the lock of a timer, which decide on events. *)
Lemma lock_balanced g k ks outs c c' :
  match k with CancelLock _ | CloseLock _ | Arrive _ _ _ => True | _ => False end ->
  agrees g k c -> quiet outs c c' -> table_effect k ks (decided outs) c c' -> balanced g k ks outs c c'.
Proof.
  intros Hk Hag Hquiet Ht. apply quiet_balanced; [done|]. intros x.
  destruct k; try done; cbn [table_effect task_events agrees app] in *.
  - destruct Ht as [_ [[-> ->]|(o & h & _ & -> & ->)]]; [done|].
    rewrite events_cons. cbn [task_events]. occs. cbn [events mbind list_bind]. occs. lia.
  - destruct Ht as [(_ & -> & ->)|(o & h & b & _ & -> & -> & _)]; [done|].
    rewrite events_cons. cbn [task_events]. occs. cbn [events mbind list_bind]. occs. lia.
  - destruct Ht as [(_ & -> & ->)|(o & h & Hn & -> & He & _)]; [done|]. by rewrite He by (by apply Hag).
Qed.

Lemma run_task_account g now ex k c L out ks outs c' :
  wf c L (task_refs k ++ out) -> period_ok now -> task_ok k -> agrees g k c ->
  run_task now ex k c = Some (ks, outs, c') -> balanced g k ks outs c c'.
Proof.
  intros Hwf Hnow Hok Hag E.
  pose proof (run_task_table now ex k c L out ks outs c' Hwf Hnow Hok E) as Ht.
  destruct k as [n o h|n d p|n us|n|n h|n|n h b|n e|f|fs f|f|single| | | |n a d|n h e ctx|n|n];
    try (by (apply lock_balanced; try done; eapply lock_quiet; [|exact E]));
    cbn [task_refs app agrees] in *.
  - by injection E as <- <- <-.
  - apply quiet_balanced; [by eapply lock_quiet; [|exact E]|]. destruct Ht as [-> _]. cbn [run_task] in E.
    destruct (schedule_lock n p c) as [[[] c1]|]; by simplify_eq.
  - apply quiet_balanced; [by eapply lock_quiet; [|exact E]|]. destruct Ht as [-> _]. cbn [run_task] in E.
    destruct (schedule_map n us c) as [[b c1]|]; by simplify_eq.
  - destruct Hag as (o & oh & Hn & Hg). cbn [run_task] in E.
    apply (unschedule_table c L (Ref n :: out)) in E as (-> & Htab & Hq & f & Ef & ->); [|done|by left].
    rewrite <- Htab in Hn. apply plain_balanced; try done. intros x.
    rewrite events_app, (cancel_functor_events g n h c' f o oh), events_cons, events_nil, Hq by done. cbn [task_events]. occs. lia.
  - destruct Hag as (o & oh & Hn & Hg). cbn [run_task] in E.
    apply (unschedule_table c L (Ref n :: out)) in E as (-> & Htab & Hq & f & Ef & ->); [|done|by left].
    rewrite <- Htab in Hn. apply plain_balanced; try done. intros x.
    rewrite events_app, (close_functor_events g n h b c' f o oh), events_cons, events_nil, Hq by done. cbn [task_events]. occs. lia.
  - apply quiet_balanced; [by eapply lock_quiet; [|exact E]|]. destruct Ht as [-> _]. cbn [run_task] in E.
    destruct (release n c) as [[[] c1]|]; by simplify_eq.
  - injection E as <- <- <-. apply plain_balanced; try done. intros x. unfold execute.
    cbn [set_functors d_functorQueue task_events]. rewrite functors_events_app, functors_events_one, events_nil. occs. lia.
  - injection E as <- <- <-. apply plain_balanced; try done. intros x. unfold moveAndExecute.
    cbn [set_functors d_functorQueue task_events]. rewrite !functors_events_app, functors_events_functions, events_nil.
    assert (functors_events match Function <$> f with Some f => [f] | None => [] end = []) as -> by (by destruct f). occs. lia.
  - cbn [run_task] in E. destruct f; injection E as <- <- <-; (apply plain_balanced; [done|done|done|]); intros x;
      rewrite ?events_cons, ?events_nil; cbn [task_events functor_events]; occs; lia.
  - apply (pop_table c L out) in E as (-> & _ & fs & ts & -> & Hq); [|done|done].
    apply plain_balanced; try done. intros x.
    rewrite Hq, events_app, events_run, functors_events_app, (events_none g (arrivals now ts)).
    + cbn [task_events]. occs. lia.
    + by apply Forall_fmap, List.Forall_forall.
  - destruct (drain_map_wf c L out Hwf) as (fs & c1 & Ed & _ & _ & Hq). cbn [run_task] in E. rewrite Ed in E.
    injection E as <- <- <-. apply plain_balanced; try done. intros x.
    rewrite Hq, events_run, functors_events_app. cbn [task_events]. occs. lia.
  - injection E as <- <- <-. intros x. cbn [set_functors d_functorQueue task_events].
    rewrite announced_dropped, dropped_dropped, decided_dropped, events_none.
    1: { change (wanted g []) with (@nil (handler * TimerEventType.t)). change (functors_events []) with (@nil (handler * TimerEventType.t)). occs. lia. }
    by apply Forall_fmap, List.Forall_forall.
  - destruct (load_wf c L out Hwf) as (c1 & El & _ & Hq & _). cbn [run_task] in E. rewrite El in E.
    injection E as <- <- <-.
    apply plain_balanced; [apply announced_created|apply dropped_created|apply decided_created|]. by rewrite Hq.
  - by injection E as <- <- <-.
  - apply quiet_balanced; [by eapply lock_quiet; [|exact E]|]. destruct Ht as [-> _]. cbn [run_task] in E.
    destruct (release n c) as [[[] c1]|]; by simplify_eq.
  - apply quiet_balanced; [by eapply lock_quiet; [|exact E]|]. destruct Ht as [-> _]. cbn [run_task] in E.
    destruct (disposeRep n c) as [c1|]; by simplify_eq.
Qed.

(** ** The invariant of the events *)

(** The events of a handler, in the order in which they were decided. *)
Definition history (h : handler) (outs : list (output T)) : list TimerEventType.t :=
  snd <$> filter (fun x => fst x = h) (decided outs).

Lemma history_app h o1 o2 : history h (o1 ++ o2) = history h o1 ++ history h o2.
Proof. unfold history. by rewrite decided_app, list.filter_app, fmap_app. Qed.

(** What may be decided of a timer: nothing after it was closed, and if it is
    one-shot it is closed together with its deadline. *)
Fixpoint protocol (oneShot : bool) (l : list TimerEventType.t) : bool :=
  match l with
  | [] => true
  | e_CLOSED :: rest => bool_decide (rest = [])
  | e_DEADLINE :: rest => if oneShot then bool_decide (rest = [e_CLOSED]) else protocol oneShot rest
  | e_CANCELED :: rest => protocol oneShot rest
  end.

Lemma protocol_app b l l' : protocol b l = true -> e_CLOSED ∉ l -> protocol b (l ++ l') = protocol b l'.
Proof.
  induction l as [|e l IH]; [done|]. rewrite not_elem_of_cons. intros Hp [He Hl]. destruct e; cbn in *; [|auto|done].
  destruct b; [|auto]. apply bool_decide_eq_true in Hp as ->. destruct Hl. by left.
Qed.

Lemma protocol_once b l :
  protocol b l = true -> (occ e_CLOSED l <= 1)%nat /\ (b = true -> (occ e_DEADLINE l <= 1)%nat).
Proof.
  induction l as [|e l IH]; [by split; [|intros _]; rewrite ?occ_nil; auto with lia|].
  destruct e; cbn [protocol]; rewrite ?occ_cons.
  - destruct b; [intros ->%bool_decide_eq_true; by vm_compute; auto with lia|].
    intros [Hc _]%IH. by split.
  - intros [Hc Hd]%IH. by split.
  - intros ->%bool_decide_eq_true. split; [|intros _]; by vm_compute; auto with lia.
Qed.

(** An event is announced no more often than it was decided on. *)
Lemma occ_history h e outs : occ (h, e) (decided outs) = occ e (history h outs).
Proof.
  unfold history. induction (decided outs) as [|[h' e'] l IH]; [done|].
  rewrite occ_cons, filter_cons. cbn [fst]. repeat case_decide; simplify_eq; rewrite ?fmap_cons, ?occ_cons; cbn [snd];
    rewrite ?decide_True, ?decide_False by (done || congruence); rewrite ?IH; try done.
Qed.

Lemma occ_wanted g x l : (occ x (wanted g l) <= occ x l)%nat.
Proof.
  unfold wanted. induction l as [|y l IH]; [done|]. rewrite filter_cons. case_decide; rewrite !occ_cons; lia.
Qed.

(** A section that is neither the start of a timer nor the end of a call that
    still has to put its functor in the queue. *)
Definition plain k : Prop :=
  match k with Construct _ _ _ | CancelMap _ _ | CloseMap _ _ _ => False | _ => True end.

Record summary k ks (l : list (handler * TimerEventType.t)) c c' : Prop := {
  su_stable : forall m o oh, table c m = Some (o, oh) -> k <> Dispose m -> exists oh', table c' m = Some (o, oh');
  su_owner : forall m o h, table c' m = Some (o, Some h) -> table c m = Some (o, Some h) \/ k = Construct m o h;
  su_construct : forall n o h, k = Construct n o h -> l = [];
  su_decided : l = [] \/ exists n o h, table c n = Some (o, Some h) /\ Ref n ∈ task_refs k /\
    (forall x, x ∈ l -> fst x = h) /\ protocol (TimerOptions.oneShot o) (snd <$> l) = true /\
    ((h, e_CLOSED) ∈ l -> table c' n = Some (o, None));
  su_tasks : Forall plain ks \/ exists n o h oh', table c n = Some (o, Some h) /\ table c' n = Some (o, oh') /\
    (ks = [CancelMap n h] \/ exists b, ks = [CloseMap n h b]);
}.

Lemma same_summary k ks c c' :
  (forall m, table c' m = table c m) -> Forall plain ks -> summary k ks [] c c'.
Proof.
  intros Ht Hks. split; [| |done|by left|by left].
  - intros m o oh Hm _. exists oh. by rewrite Ht.
  - intros m o h. rewrite Ht. by left.
Qed.

Lemma run_task_plain now ex k c ks outs c' :
  match k with CancelLock _ | CloseLock _ => False | _ => True end ->
  run_task now ex k c = Some (ks, outs, c') -> Forall plain ks.
Proof.
  intros Hk E. destruct (run_task_next _ _ _ _ _ _ _ E) as [Hin|Hf].
  - eapply List.Forall_impl; [|exact Hin]. by intros [].
  - destruct k; try done. destruct Hf as [us ->]. by split_Forall.
Qed.

Lemma run_task_summary now ex k c L out ks outs c' :
  wf c L (task_refs k ++ out) -> period_ok now -> task_ok k ->
  run_task now ex k c = Some (ks, outs, c') -> summary k ks (decided outs) c c'.
Proof.
  intros Hwf Hnow Hok E.
  pose proof (run_task_table now ex k c L out ks outs c' Hwf Hnow Hok E) as Ht.
  pose proof (run_task_plain now ex k c ks outs c') as Hplain.
  destruct k as [n o h|n d p|n us|n|n h|n|n h b|n e|f|fs f|f|single| | | |n a d|n h e ctx|n|n]; cbn [table_effect] in Ht;
    try (destruct Ht as [-> Ht]; by (apply same_summary; [done|by apply Hplain])).
  - destruct Ht as (Hn & -> & Ht). split; [| |done|by left|left; by apply Hplain].
    + intros m o' oh Hm _. rewrite Ht. case_decide as Em; [|by eexists]. subst. congruence.
    + intros m o' h'. rewrite Ht. case_decide as Em; [|by left]. intros [= <- <-]. right. by rewrite Em.
  - destruct Ht as [Ht [[-> ->]|(o & h & Hn & -> & ->)]]; [apply same_summary; [done|by split_Forall]|].
    split; [| |done| |].
    + intros m o' oh Hm _. exists oh. by rewrite Ht.
    + intros m o' h'. rewrite Ht. by left.
    + right. exists n, o, h. split; [done|]. split; [by left|]. split; [by intros x ->%list_elem_of_singleton|].
      split; [done|]. by intros ?%list_elem_of_singleton.
    + right. exists n, o, h, (Some h). rewrite Ht. auto.
  - destruct Ht as [(Ht & -> & ->)|(o & h & b & Hn & -> & -> & Ht)]; [apply same_summary; [done|by split_Forall]|].
    split; [| |done| |].
    + intros m o' oh Hm _. rewrite Ht. case_decide as Em; [|by eexists]. subst. rewrite Hn in Hm. injection Hm as <- <-. by eexists.
    + intros m o' h'. rewrite Ht. case_decide as Em; [done|by left].
    + right. exists n, o, h. split; [done|]. split; [by left|]. split.
      { intros x. unfold close_events. destruct b; cbn; rewrite ?elem_of_cons; intros Hx; destruct_or?; subst; try done; by apply elem_of_nil in Hx. }
      split; [by destruct b|]. intros _. rewrite Ht. by rewrite decide_True.
    + right. exists n, o, h, None. rewrite Ht, decide_True by done. eauto.
  - destruct Ht as [(Ht & -> & ->)|(o & h & Hn & -> & _ & Ht)]; [apply same_summary; [done|by split_Forall]|].
    split; [| |done| |left; by apply Hplain].
    + intros m o' oh Hm _. rewrite Ht. case_decide as Em; [|by eexists]. subst. rewrite Hn in Hm. injection Hm as <- <-. by eexists.
    + intros m o' h'. rewrite Ht. case_decide as Em; [|by left]. destruct (TimerOptions.oneShot o); [done|]. intros [= <- <-].
      left. by rewrite Em.
    + right. exists n, o, h. split; [done|]. split; [by left|]. split.
      { intros x. destruct (TimerOptions.oneShot o); rewrite !elem_of_cons; intros Hx; destruct_or?; subst; try done; by apply elem_of_nil in Hx. }
      split; [by destruct (TimerOptions.oneShot o) eqn:Eo; cbn; rewrite ?Eo|]. rewrite Ht, decide_True by done.
      destruct (TimerOptions.oneShot o); [done|]. by intros ?%list_elem_of_singleton.
  - destruct Ht as [-> Ht]. split; [| |done|by left|left; by apply Hplain].
    + intros m o' oh Hm Hne. rewrite Ht. case_decide as Em; [|by eexists]. subst. by destruct Hne.
    + intros m o' h'. rewrite Ht. case_decide; [done|by left].
Qed.

(** A node whose timer has, or is to get, the handler. *)
Definition owns s (h : handler) (n : nat) : Prop :=
  (exists o, table (chronology s) n = Some (o, Some h)) \/ (exists o, Construct n o h ∈ running s).

(** A call that was decided on is that of a timer with the options of its
    handler. *)
Definition pending_ok (g : gmap handler (TimerOptions.t T)) c k : Prop :=
  match k with
  | CancelMap n h | CloseMap n h _ => exists o oh, table c n = Some (o, oh) /\ g !! h = Some o
  | _ => True
  end.

Record ev_inv s : Prop := {
  ev_owner : forall n o h, table (chronology s) n = Some (o, Some h) ->
    created s !! h = Some o /\ e_CLOSED ∉ history h (outputs s);
  ev_construct : forall n o h, Construct n o h ∈ running s ->
    created s !! h = Some o /\ history h (outputs s) = [];
  ev_unique : forall h n m, owns s h n -> owns s h m -> n = m;
  ev_pending : Forall (pending_ok (created s) (chronology s)) (running s);
  ev_fresh : forall h, created s !! h = None -> history h (outputs s) = [];
  ev_protocol : forall h o, created s !! h = Some o -> protocol (TimerOptions.oneShot o) (history h (outputs s)) = true;
  ev_account :
    same (announced_events (outputs s) ++ events (created s) (running s)
            ++ functors_events (d_functorQueue (chronology s)) ++ dropped_events (outputs s))
      (wanted (created s) (decided (outputs s)));
}.

Lemma history_none h (l : list (handler * TimerEventType.t)) :
  (forall x, x ∈ l -> fst x <> h) -> filter (fun x => fst x = h) l = [].
Proof.
  induction l as [|x l IH]; intros H; [done|]. rewrite filter_cons_False by (apply H; by left).
  apply IH. intros y Hy. apply H. by right.
Qed.

Lemma history_all h (l : list (handler * TimerEventType.t)) :
  (forall x, x ∈ l -> fst x = h) -> filter (fun x => fst x = h) l = l.
Proof.
  induction l as [|x l IH]; intros H; [done|]. rewrite filter_cons_True by (apply H; by left).
  rewrite IH; [done|]. intros y Hy. apply H. by right.
Qed.

Lemma in_history h e outs : e ∈ history h outs <-> (h, e) ∈ decided outs.
Proof.
  unfold history. split.
  - intros ([h' e'] & -> & [Hh Hin]%list_elem_of_filter)%list_elem_of_fmap_1. by cbn in *; subst.
  - intros Hin. apply (list_elem_of_fmap_2' snd _ (h, e)); [|done]. by apply list_elem_of_filter.
Qed.

(** The owner of a handler under construction has no timer yet. *)
Lemma construct_no_table s L n o h :
  wf (chronology s) L (outside s) -> Construct n o h ∈ running s -> table (chronology s) n = None.
Proof.
  intros Hwf Hin. assert (Building n ∈ outside s) as Hb by (eapply running_outside; [done|by left]).
  apply occ_elem in Hb. pose proof (c_catalog _ _ (w_counted _ _ _ Hwf) n) as Hc. unfold table.
  destruct (d_nodes (chronology s) !! n); [|done]. destruct (n <? _)%nat; lia.
Qed.

(** A timer that a section still refers to is not disposed of. *)
Lemma dispose_no_ref s L k n :
  wf (chronology s) L (outside s) -> k ∈ running s -> Ref n ∈ task_refs k -> Dispose n ∉ running s.
Proof.
  intros Hwf Hk Hr Hd. pose proof (running_outside _ _ _ Hk Hr) as Href.
  assert (Dying n ∈ outside s) as Hdy by (eapply running_outside; [done|by left]).
  apply occ_elem in Href, Hdy. pose proof (c_dying _ _ (w_counted _ _ _ Hwf) n) as H1.
  pose proof (c_refs _ _ (w_counted _ _ _ Hwf) n) as H2. unfold outstanding in H2. rewrite occ_app in H2.
  destruct (d_nodes (chronology s) !! n) as [tm|]; [|lia]. destruct (Nat.eqb_spec (d_refs tm) 0); lia.
Qed.

Lemma Forall_plain_in ks k' : Forall plain ks -> k' ∈ ks -> plain k'.
Proof. rewrite list.Forall_forall. auto. Qed.

Section Run.

Context (s : system T M) (before : list (list (task T))) (k : task T) (rest : list (task T)) (after : list (list (task T))).
Context (ks : list (task T)) (outs : list (output T)) (c' : t T M) (L : list (nat * (Z * nat))).
Hypothesis Hinv : ev_inv s.
Hypothesis Hwf : wf (chronology s) L (outside s).
Hypothesis Ethreads : threads s = before ++ (k :: rest) :: after.
Hypothesis Hsum : summary k ks (decided outs) (chronology s) c'.
Hypothesis Hbal : balanced (created s) k ks outs (chronology s) c'.

Let s' : system T M :=
  {| chronology := c'; threads := before ++ (ks ++ rest) :: after; held := created_nodes outs ++ held s;
     outputs := outputs s ++ outs; created := created s |}.

Lemma run_in : k ∈ running s.
Proof. by eapply running_in. Qed.

Lemma run_others k' : k' ∈ running s' -> k' ∈ ks \/ k' ∈ running s.
Proof.
  unfold running, s'. cbn [threads]. rewrite Ethreads, running_replaced, running_split, !elem_of_app, elem_of_cons, elem_of_app. tauto.
Qed.

Lemma run_construct n o h : Construct n o h ∈ running s' -> Construct n o h ∈ running s.
Proof.
  intros [Hin|Hin]%run_others; [|done]. destruct (su_tasks _ _ _ _ _ Hsum) as [Hp|(m & o' & h' & oh & _ & _ & [->|[b ->]])].
  - by apply (Forall_plain_in _ _ Hp) in Hin.
  - by apply list_elem_of_singleton in Hin.
  - by apply list_elem_of_singleton in Hin.
Qed.

Lemma run_owns h n : owns s' h n -> owns s h n.
Proof.
  intros [[o Hn]|[o Hin]]; [|right; exists o; by apply run_construct].
  destruct (su_owner _ _ _ _ _ Hsum n o h Hn) as [H|Ek]; [left; by exists o|].
  right. exists o. rewrite <- Ek. apply run_in.
Qed.

(** The events decided on are those of one handler, which had an owner. *)
Lemma run_history h :
  history h (outputs s') = history h (outputs s) ++ (snd <$> filter (fun x => fst x = h) (decided outs)).
Proof. apply history_app. Qed.

Lemma run_history_other h : (forall x, x ∈ decided outs -> fst x <> h) -> history h (outputs s') = history h (outputs s).
Proof. intros H. by rewrite run_history, history_none, app_nil_r. Qed.

Lemma run_decided_owner h :
  (forall x, x ∈ decided outs -> fst x <> h) \/
  exists n o, table (chronology s) n = Some (o, Some h) /\ (forall x, x ∈ decided outs -> fst x = h) /\
    protocol (TimerOptions.oneShot o) (snd <$> decided outs) = true /\
    ((h, e_CLOSED) ∈ decided outs -> table c' n = Some (o, None)) /\ Ref n ∈ task_refs k.
Proof.
  destruct (su_decided _ _ _ _ _ Hsum) as [->|(n & o & h' & Hn & Hr & Hall & Hp & Hc)].
  - left. by intros x ?%elem_of_nil.
  - destruct (decide (h' = h)) as [->|Hne]; [right; by exists n, o|]. left. intros x Hx. rewrite (Hall x Hx). congruence.
Qed.

Lemma run_ev_owner n o h : table c' n = Some (o, Some h) -> created s !! h = Some o /\ e_CLOSED ∉ history h (outputs s').
Proof.
  intros Hn. destruct (su_owner _ _ _ _ _ Hsum n o h Hn) as [Hold|Ek].
  - destruct (ev_owner _ Hinv n o h Hold) as [Hg Hopen]. split; [done|].
    destruct (run_decided_owner h) as [Hnone|(n1 & o1 & Hn1 & Hall & Hp & Hc & _)]; [by rewrite run_history_other|].
    assert (n1 = n) as -> by (eapply (ev_unique _ Hinv h); left; by eexists).
    rewrite run_history, elem_of_app. intros [?|Hin]; [done|].
    assert ((h, e_CLOSED) ∈ decided outs) as Hcl.
    { apply list_elem_of_fmap_1 in Hin as ([h2 e2] & -> & [E2 Hin]%list_elem_of_filter). by cbn in *; subst. }
    apply Hc in Hcl. rewrite Hcl in Hn. done.
  - assert (Construct n o h ∈ running s) as Hin by (rewrite <- Ek; apply run_in).
    destruct (ev_construct _ Hinv n o h Hin) as [Hg Hh]. split; [done|].
    rewrite run_history_other, Hh; [by intros ?%elem_of_nil|]. rewrite (su_construct _ _ _ _ _ Hsum _ _ _ Ek).
    by intros x ?%elem_of_nil.
Qed.

Lemma run_ev_construct n o h :
  Construct n o h ∈ running s' -> created s !! h = Some o /\ history h (outputs s') = [].
Proof.
  intros Hin%run_construct. destruct (ev_construct _ Hinv n o h Hin) as [Hg Hh]. split; [done|].
  destruct (run_decided_owner h) as [Hnone|(n1 & o1 & Hn1 & _)]; [by rewrite run_history_other|].
  assert (n1 = n) as ->.
  { eapply (ev_unique _ Hinv h); [left; by eexists|right; by eexists]. }
  rewrite (construct_no_table _ _ _ _ _ Hwf Hin) in Hn1. done.
Qed.

Lemma run_ev_pending : Forall (pending_ok (created s) c') (running s').
Proof.
  apply list.Forall_forall. intros k' [Hin|Hin]%run_others.
  - destruct (su_tasks _ _ _ _ _ Hsum) as [Hp|(n & o & h & oh & Hn & Hn' & Hks)].
    + apply (Forall_plain_in _ _ Hp) in Hin. by destruct k'.
    + destruct (ev_owner _ Hinv n o h Hn) as [Hg _].
      destruct Hks as [->|[b ->]]; apply list_elem_of_singleton in Hin as ->; by exists o, oh.
  - pose proof (ev_pending _ Hinv) as Hp. rewrite list.Forall_forall in Hp. specialize (Hp k' Hin).
    assert (forall n o oh, Ref n ∈ task_refs k' -> table (chronology s) n = Some (o, oh) -> exists oh', table c' n = Some (o, oh')) as Hst.
    { intros n o oh Hr Hn. eapply (su_stable _ _ _ _ _ Hsum); [done|]. intros Ek.
      apply (dispose_no_ref s L k' n Hwf Hin Hr). rewrite <- Ek. apply run_in. }
    destruct k'; try done; cbn [pending_ok] in *; destruct Hp as (o & oh & Hn & Hg);
      (destruct (Hst n o oh) as [oh' Hn']; [by left|done|]); by exists o, oh'.
Qed.

Lemma run_ev_protocol h o :
  created s !! h = Some o -> protocol (TimerOptions.oneShot o) (history h (outputs s')) = true.
Proof.
  intros Hg. pose proof (ev_protocol _ Hinv h o Hg) as Hp.
  destruct (run_decided_owner h) as [Hnone|(n1 & o1 & Hn1 & Hall & Hp1 & _ & _)]; [by rewrite run_history_other|].
  destruct (ev_owner _ Hinv n1 o1 h Hn1) as [Hg1 Hopen]. rewrite Hg in Hg1. injection Hg1 as <-.
  rewrite run_history, protocol_app, history_all by done. done.
Qed.

Lemma run_ev_fresh h : created s !! h = None -> history h (outputs s') = [].
Proof.
  intros Hg. pose proof (ev_fresh _ Hinv h Hg) as Hh.
  destruct (run_decided_owner h) as [Hnone|(n1 & o1 & Hn1 & _)]; [by rewrite run_history_other|].
  destruct (ev_owner _ Hinv n1 o1 h Hn1) as [Hg1 _]. congruence.
Qed.

Lemma run_ev_account :
  same (announced_events (outputs s') ++ events (created s) (running s')
          ++ functors_events (d_functorQueue c') ++ dropped_events (outputs s'))
    (wanted (created s) (decided (outputs s'))).
Proof.
  intros x. pose proof (ev_account _ Hinv x) as Ha. pose proof (Hbal x) as Hb. unfold running, s' in *. cbn [outputs threads] in *.
  rewrite Ethreads, running_split in Ha. rewrite running_replaced.
  rewrite announced_events_app, dropped_events_app, decided_app, wanted_app. rewrite !events_app.
  rewrite !events_app, events_cons, events_app in Ha. occs. lia.
Qed.

Lemma run_ev_inv : ev_inv s'.
Proof.
  split; [exact run_ev_owner|exact run_ev_construct| |exact run_ev_pending|exact run_ev_fresh|exact run_ev_protocol|exact run_ev_account].
  intros h n m H1%run_owns H2%run_owns. by eapply (ev_unique _ Hinv).
Qed.

End Run.

(** The steps that start a call, or copy or drop a pointer. *)
Lemma plain_ev_inv s s' ks :
  ev_inv s -> Forall plain ks -> events (created s) ks = [] ->
  running s' = ks ++ running s -> outputs s' = outputs s -> created s' = created s ->
  (forall m, table (chronology s') m = table (chronology s) m) ->
  d_functorQueue (chronology s') = d_functorQueue (chronology s) -> ev_inv s'.
Proof.
  intros [H1 H2 H3 H4 H5 H6 H7] Hks He Hr Ho Hc Ht Hq.
  assert (forall n o h, Construct n o h ∈ running s' -> Construct n o h ∈ running s) as Hcon.
  { intros n o h. rewrite Hr, elem_of_app. intros [Hin|]; [|done]. by apply (Forall_plain_in _ _ Hks) in Hin. }
  assert (forall h n, owns s' h n -> owns s h n) as Hown.
  { intros h n [[o Hn]|[o Hn]]; [left|right]; exists o; [by rewrite <- Ht|by apply Hcon]. }
  split; rewrite ?Ho, ?Hc.
  - intros n o h. rewrite Ht. apply H1.
  - intros n o h Hin%Hcon. by apply H2 in Hin.
  - intros h n m Hn%Hown Hm%Hown. by eapply H3.
  - rewrite Hr. apply Forall_app. split.
    + eapply List.Forall_impl; [|exact Hks]. by intros [].
    + eapply List.Forall_impl; [|exact H4]. intros k. unfold pending_ok. by destruct k; rewrite ?Ht.
  - apply H5.
  - apply H6.
  - intros x. specialize (H7 x). rewrite Hr, Hq, events_app, He. exact H7.
Qed.

Lemma timer_call_plain g n k : timer_call n k -> plain k /\ task_events g k = [].
Proof. destruct k; cbn; by intros. Qed.

Lemma chronology_call_plain g k : chronology_call k -> plain k /\ task_events g k = [].
Proof. destruct k as [| | | | | | | |f| | | | | | | | | |]; cbn; try by intros. by destruct f. Qed.

Lemma acquire_table c c' n : acquire n c = Some c' ->
  (forall m, table c' m = table c m) /\ d_functorQueue c' = d_functorQueue c.
Proof.
  unfold acquire. destruct (d_nodes c !! n) as [tm|] eqn:Hn; [|done]. cbn [mbind option_bind]. intros [= <-].
  split; [|done]. intros m. by eapply table_same.
Qed.

(** A handler that no event mentions does not matter. *)
Lemma wanted_insert g h o l : (forall x, x ∈ l -> fst x <> h) -> wanted (<[h := o]> g) l = wanted g l.
Proof.
  induction l as [|x l IH]; intros Hx; [done|]. unfold wanted in *. rewrite !filter_cons.
  rewrite IH by (intros y Hy; apply Hx; by right). unfold wants. rewrite lookup_insert_ne; [done|].
  intros E. by apply (Hx x); [left|].
Qed.

Lemma events_insert g h o ks c :
  g !! h = None -> Forall (pending_ok g c) ks -> events (<[h := o]> g) ks = events g ks.
Proof.
  intros Hg. induction 1 as [|k ks Hk _ IH]; [done|]. rewrite !events_cons, IH. f_equal.
  assert (forall h', (exists o' oh', table c oh' = Some o' /\ g !! h' = Some (fst o')) -> h' <> h) as Hne.
  { intros h' (o' & oh & _ & Hg') ->. congruence. }
  destruct k as [| | | |n h'| |n h' b| | | | | | | | | | | |]; cbn [task_events pending_ok] in *; try done; destruct Hk as (o' & oh & Hn & Hg');
    apply wanted_insert; intros x Hx; [apply list_elem_of_singleton in Hx as ->; cbn; congruence|].
  unfold close_events in Hx. destruct b; cbn in Hx; rewrite ?elem_of_cons in Hx; destruct_or?; subst; cbn; try congruence;
    by apply elem_of_nil in Hx.
Qed.

Lemma create_ev_inv s n c o h :
  ev_inv s -> created s !! h = None -> d_nodes c = d_nodes (chronology s) ->
  d_functorQueue c = d_functorQueue (chronology s) ->
  ev_inv {| chronology := c; threads := [Construct n o h] :: threads s; held := held s;
            outputs := outputs s; created := <[h := o]> (created s) |}.
Proof.
  intros [H1 H2 H3 H4 H5 H6 H7] Hg Hn Hq. pose proof (nodes_table _ _ Hn) as Ht.
  assert (forall h' o', created s !! h' = Some o' -> <[h:=o]> (created s) !! h' = Some o') as Hins.
  { intros h' o' Hg'. rewrite lookup_insert_ne; [done|]. intros <-. congruence. }
  set (s' := {| chronology := c |}).
  assert (running s' = Construct n o h :: running s) as Hr by done.
  assert (forall m, owns s h m -> False) as Hno.
  { intros m [[o' Hm]|[o' Hin]]; [destruct (H1 _ _ _ Hm)|destruct (H2 _ _ _ Hin)]; congruence. }
  assert (forall h' m, owns s' h' m -> (h' = h /\ m = n) \/ owns s h' m) as Hown.
  { intros h' m [[o' Hm]|[o' Hin]]; [right; left; exists o'; by rewrite <- Ht|].
    rewrite Hr, elem_of_cons in Hin. destruct Hin as [E|Hin]; [injection E as -> -> ->; by left|]. right. right. by exists o'. }
  split; cbn [chronology outputs created s'].
  - intros m o' h'. rewrite Ht. intros Hm. destruct (H1 m o' h' Hm) as [Hg' ?]. split; [by apply Hins|done].
  - intros m o' h'. rewrite Hr, elem_of_cons. intros [E|Hin].
    + injection E as -> -> ->. rewrite lookup_insert_eq. split; [done|by apply H5].
    + destruct (H2 m o' h' Hin). split; [by apply Hins|done].
  - intros h' m1 m2 Ho1 Ho2. apply Hown in Ho1 as [[-> ->]|Ho1], Ho2 as [[E ->]|Ho2]; [done| | |by eapply H3].
    + by apply Hno in Ho2.
    + subst. by apply Hno in Ho1.
  - rewrite Hr. constructor; [done|]. eapply List.Forall_impl; [|exact H4]. intros k. unfold pending_ok.
    destruct k; try done; intros (o' & oh & Hm & Hg'); exists o', oh; rewrite Ht; split; auto.
  - intros h' Hg'. apply H5. apply lookup_insert_None in Hg'. tauto.
  - intros h' o' Hg'. apply lookup_insert_Some in Hg' as [[<- _]|[_ Hg']]; [|by apply H6]. by rewrite (H5 h Hg).
  - intros x. specialize (H7 x). rewrite Hr, events_cons, Hq, (events_insert _ h o _ _ Hg H4).
    rewrite wanted_insert; [exact H7|]. intros [h1 e1] Hin <-. cbn in *.
    assert (e1 ∈ history h1 (outputs s)) as Hh by by apply in_history. rewrite (H5 h1 Hg) in Hh. by apply elem_of_nil in Hh.
Qed.

Lemma initial_ev_inv m : ev_inv (initial m).
Proof.
  split; try done.
  - by intros n o h ?%elem_of_nil.
  - intros h n n' [[o Hn]|[o Hin]]; [done|by apply elem_of_nil in Hin].
Qed.

Lemma step_ev_inv serial s s' : safe s -> ev_inv s -> step serial s s' -> ev_inv s'.
Proof.
  intros Hsafe Hinv Hstep. revert Hsafe Hinv.
  destruct Hstep as [s0 n c o h Hfresh Ho E|s0 n k c Hin Hcall _ E|s0 k Hcall|s0 n c Hin E|s0 h1 n h2 E
    |s0 before k rest after now exactlyNow ks outs c Et Hnow E]; intros Hsafe Hinv.
  - destruct Hsafe as (L & Hwf & Hok). destruct (createTimer_allocate_wf _ _ _ Hwf) as (n' & c' & E' & _ & _ & Hn & Hq).
    rewrite E' in E. injection E as -> ->. by apply create_ev_inv.
  - destruct (timer_call_plain (created s0) n k Hcall) as [Hp He]. destruct (acquire_table _ _ _ E) as [Ht Hq].
    apply (plain_ev_inv s0 _ [k]); try done; [by constructor|]. by rewrite events_cons, He.
  - destruct (chronology_call_plain (created s0) k Hcall) as [Hp He].
    apply (plain_ev_inv s0 _ [k]); try done; [by constructor|]. by rewrite events_cons, He.
  - destruct (acquire_table _ _ _ E) as [Ht Hq]. by apply (plain_ev_inv s0 _ []).
  - apply (plain_ev_inv s0 _ [Release n]); try done. by constructor.
  - pose proof Hsafe as (L & Hwf & Hok).
    pose proof (running_in _ _ _ _ _ Et) as Hk. pose proof (running_wf _ _ _ _ _ _ Hwf Et) as Hwf1.
    rewrite list.Forall_forall in Hok. specialize (Hok k Hk).
    eapply (run_ev_inv s0 before k rest after ks outs c L); try done.
    + by eapply run_task_summary.
    + eapply run_task_account; try done. pose proof (ev_pending _ Hinv) as Hp. rewrite list.Forall_forall in Hp.
      specialize (Hp k Hk). destruct k; try done. intros o h Hn. by apply (ev_owner _ Hinv) in Hn as [? _].
Qed.

Lemma reachable_ev_inv serial m s : models m [] -> reachable serial m s -> safe s /\ ev_inv s.
Proof.
  intros Hm. apply (rtc_ind_r (fun s => safe s /\ ev_inv s)).
  - split; [by apply safe_initial|apply initial_ev_inv].
  - intros s1 s2 _ Hstep [Hsafe Hinv]. split; [by eapply step_safe|by eapply step_ev_inv].
Qed.

End Events.

End ChronologyEvents.
