(* ===== verification/ChronologyLiveness.v ===== *)
(** * No timer is lost

    When the application does not call operations of one timer concurrently, a
    timer that is scheduled is in the map of deadlines, is about to be put there,
    or was popped and is about to be announced. *)

From stdpp Require Import gmap.
From S2P Require Import Prelude Occurrences Errors TimeInterval Backoff DeadlineMap Chronology ChronologyFacts.
From S2P Require Import ChronologySystem ChronologySafety.

Import Occurrences.

Module ChronologyLiveness.

Import DeadlineMap TimerEventType Chronology ChronologyFacts ChronologySystem ChronologySafety.

Section Liveness.

Context {T : Type} {TI : TimeIntervalOps T} {TL : TimeIntervalLaws T}.
Context {TU : TimeIntervalUnits T} {TUL : TimeIntervalUnitsLaws T}.
Context {M : Type} {DM : DeadlineMap.Operations nat M} {DL : DeadlineMap.Laws nat M} {RD : Rand} {RDL : RandLaws}.

Implicit Types (c : t T M) (k : task T) (ks : list (task T)) (s : system T M).

(** A scheduled timer is in the map, or a section that is to be run puts it there
    or announces it. *)
Definition fine ks n (tm : timer T) : Prop :=
  is_Some (d_deadlineMapHandle tm) \/ (exists us, ScheduleMap n us ∈ ks) \/
  (is_recurring tm = false /\ exists at_ deadline, Arrive n at_ deadline ∈ ks).

(** How a section leaves a scheduled timer that it has not seen to itself. *)
Record kept k n (tm tm' : timer T) : Prop := {
  k_state : d_state tm = e_STATE_SCHEDULED;
  k_handle : d_deadlineMapHandle tm' = d_deadlineMapHandle tm;
  k_recurring : is_recurring tm' = is_recurring tm;
  k_map : forall us, k <> ScheduleMap n us;
  k_arrive : forall at_ deadline, k = Arrive n at_ deadline -> is_recurring tm = true;
}.

Definition unscheduling n k : Prop :=
  match k with CancelMap m _ | CloseMap m _ _ => m = n | _ => False end.

(** Whether a section leaves every scheduled timer fine. *)
Definition tracks k ks c c' : Prop :=
  forall n tm', d_nodes c' !! n = Some tm' -> d_state tm' = e_STATE_SCHEDULED ->
  fine ks n tm' \/ exists tm, d_nodes c !! n = Some tm /\ kept k n tm tm'.

(** A scheduled timer was scheduled before, unless this is the section that
    schedules it. *)
Definition schedules k c c' : Prop :=
  forall n tm', d_nodes c' !! n = Some tm' -> d_state tm' = e_STATE_SCHEDULED ->
  (exists deadline period, k = ScheduleLock n deadline period) \/
  exists tm, d_nodes c !! n = Some tm /\ d_state tm = e_STATE_SCHEDULED.

(** A section on one timer only. *)
Lemma tracks_one k ks c c' n tm tm' :
  d_nodes c !! n = Some tm -> d_nodes c' = <[n := tm']> (d_nodes c) ->
  (forall m us, k = ScheduleMap m us -> m = n) -> (forall m a d, k = Arrive m a d -> m = n) ->
  (d_state tm' = e_STATE_SCHEDULED -> fine ks n tm' \/ kept k n tm tm') -> tracks k ks c c'.
Proof.
  intros Hn Hc Hm Ha H m tmm. rewrite Hc. destruct (decide (m = n)) as [->|Hne].
  - rewrite lookup_insert_eq. intros [= <-] Hst. destruct (H Hst) as [?|?]; [by left|right; by exists tm].
  - rewrite lookup_insert_ne by done. intros Hmm Hst. right. exists tmm. split; [done|]. split; try done.
    + intros us ->. by apply Hne, (Hm _ us).
    + intros a d ->. by destruct Hne; apply (Ha m a d).
Qed.

Lemma tracks_same k ks c c' :
  d_nodes c' = d_nodes c -> (forall n us, k <> ScheduleMap n us) -> (forall n a d, k <> Arrive n a d) -> tracks k ks c c'.
Proof.
  intros Hc Hm Ha n tm. rewrite Hc. intros Hn Hst. right. exists tm. split; [done|]. split; try done.
  intros a d E. by apply Ha in E.
Qed.

Lemma schedules_one k c c' n tm tm' :
  d_nodes c !! n = Some tm -> d_nodes c' = <[n := tm']> (d_nodes c) ->
  (d_state tm' = e_STATE_SCHEDULED -> (exists d p, k = ScheduleLock n d p) \/ d_state tm = e_STATE_SCHEDULED) ->
  schedules k c c'.
Proof.
  intros Hn Hc H m tmm. rewrite Hc. destruct (decide (m = n)) as [->|Hne].
  - rewrite lookup_insert_eq. intros [= <-] Hst. destruct (H Hst) as [?|?]; [by left|right; by exists tm].
  - rewrite lookup_insert_ne by done. intros Hmm Hst. right. by exists tmm.
Qed.

Lemma schedules_same k c c' : d_nodes c' = d_nodes c -> schedules k c c'.
Proof. intros Hc n tm. rewrite Hc. intros Hn Hst. right. by exists tm. Qed.

(** The sections of [announce] on the timers that are due. *)
Lemma pop_tracks single (now : T) c L out fs d1 c1 ts c' L' out' :
  wf c L out -> wf c' L' out' -> pop_functors single c = (fs, d1, c1) ->
  announced d1 now c1 L ts c' L' -> d_nodes c1 = d_nodes c ->
  tracks (Pop single) ((Run <$> fs) ++ arrivals now ts) c c' /\ schedules (Pop single) c c'.
Proof.
  intros Hwf Hwf' Ep Ha Hn. split.
  - destruct Ha as [_ _ -> _|D R _ Hsplit Hts Hl _]; [by apply tracks_same|].
    intros n tm' Hn' Hst. destruct (decide (n ∈ node_of <$> D)) as [Hin|Hnot].
    + apply list_elem_of_fmap_1 in Hin as ([h [key m]] & -> & He). cbn [node_of snd] in *. left.
      destruct (pl_due _ _ _ _ _ _ Hl _ He) as (tm & tm1 & Hm & Hm' & Hp & Hcase). cbn [node_of snd fst key_of] in *.
      rewrite Hn' in Hm'. injection Hm' as <-. destruct (is_recurring tm) eqn:Er.
      * destruct (s_handle _ _ (w_scheduled _ _ _ Hwf') _ _ _ Hcase) as (tm2 & Hm2 & Hh). left.
        rewrite Hn' in Hm2. injection Hm2 as <-. by rewrite Hh.
      * destruct Hcase as [_ Hper]. right. right. split; [unfold is_recurring in *; by rewrite Hper|].
        exists now, (ti_setTotalMicroseconds key). rewrite elem_of_app. right. rewrite Hts. unfold arrivals.
        apply (list_elem_of_fmap_2' _ _ (due_of (h, (key, m)))); [|done]. by apply list_elem_of_fmap_2.
    + rewrite (pl_others _ _ _ _ _ _ Hl n Hnot), Hn in Hn'. right. by exists tm'.
  - destruct Ha as [_ _ -> _|D R _ Hsplit Hts Hl _]; [by apply schedules_same|].
    intros n tm' Hn' Hst. right. destruct (decide (n ∈ node_of <$> D)) as [Hin|Hnot].
    + apply list_elem_of_fmap_1 in Hin as (e & -> & He).
      destruct (pl_due _ _ _ _ _ _ Hl _ He) as (tm & tm1 & Hm & Hm' & Hp & _). rewrite Hn in Hm.
      exists tm. split; [done|]. rewrite Hn' in Hm'. injection Hm' as <-. by rewrite <- (p_state _ _ Hp).
    + rewrite (pl_others _ _ _ _ _ _ Hl n Hnot), Hn in Hn'. by exists tm'.
Qed.

Lemma load_nodes c L out c' nodes :
  wf c L out -> load c = Some (nodes, c') -> forall n tm', d_nodes c' !! n = Some tm' ->
  exists tm, d_nodes c !! n = Some tm /\ d_state tm' = d_state tm /\
    d_deadlineMapHandle tm' = d_deadlineMapHandle tm /\ d_period tm' = d_period tm.
Proof.
  intros Hwf E n tm' Hn'. destruct (load_wf c L out Hwf) as (c1 & El & _ & _ & Hv). rewrite El in E.
  injection E as <- <-. specialize (Hv n). rewrite Hn' in Hv. destruct (d_nodes c !! n) as [tm|]; [|done].
  exists tm. cbn in Hv. split; [done|]. split; [|split]; congruence.
Qed.

(** A section that changes at most a reference count. *)
Lemma refs_tracks k ks c c' n tm tm' :
  d_nodes c !! n = Some tm -> d_nodes c' = <[n := tm']> (d_nodes c) ->
  d_state tm' = d_state tm -> d_deadlineMapHandle tm' = d_deadlineMapHandle tm -> d_period tm' = d_period tm ->
  (forall m us, k <> ScheduleMap m us) -> (forall m a d, k <> Arrive m a d) ->
  tracks k ks c c' /\ schedules k c c'.
Proof.
  intros Hn Hc Hs Hh Hp Hm Ha. split.
  - eapply tracks_one; [done|done| | |].
    + intros m us E. by apply Hm in E.
    + intros m a d E. by apply Ha in E.
    + intros Hst. right. split; [congruence|done|unfold is_recurring; by rewrite Hp|done|]. intros a d E. by apply Ha in E.
  - eapply schedules_one; [done|done|]. intros Hst. right. congruence.
Qed.

Lemma unschedule_tracks k ks c L out n get_functor error outs c' :
  unscheduling n k -> wf c L out -> Ref n ∈ out ->
  (forall tm, d_nodes c !! n = Some tm -> d_state tm <> e_STATE_SCHEDULED) ->
  unschedule n get_functor error c = Some (ks, outs, c') -> tracks k ks c c' /\ schedules k c c'.
Proof.
  intros Hk Hwf Hin Hst. destruct (unschedule_map_wf c L out n Hwf Hin)
    as (c1 & L' & E & _ & Ho & tm & tm' & Hn & Hn' & _ & _ & Hs & _).
  unfold unschedule. rewrite E. destruct (get_functor c1) as [f|]; [|done]. cbn [mbind option_bind]. intros [= <- <- <-].
  assert (forall m tmm, d_nodes c1 !! m = Some tmm -> d_state tmm = e_STATE_SCHEDULED -> m <> n /\ d_nodes c !! m = Some tmm) as Hother.
  { intros m tmm Hm Hsm. assert (m <> n) as Hne; [|split; [done|by rewrite <- Ho]]. intros ->. rewrite Hn' in Hm.
    injection Hm as <-. apply (Hst tm Hn). congruence. }
  split; intros m tmm Hm Hsm; destruct (Hother m tmm Hm Hsm) as [Hne Hm0]; right; exists tmm; (split; [done|]); [|done].
  split; try done; intros; destruct k; done.
Qed.

Lemma arrived_scheduled (tm : timer T) :
  d_state (arrived tm) = e_STATE_SCHEDULED -> is_recurring tm = true.
Proof.
  unfold arrived. destruct (TimerOptions.oneShot _); [done|]. cbn. by destruct (is_recurring tm).
Qed.

Lemma run_task_tracks now ex k c L out ks outs c' :
  wf c L (task_refs k ++ out) -> period_ok now -> task_ok k ->
  (forall n, unscheduling n k -> forall tm, d_nodes c !! n = Some tm -> d_state tm <> e_STATE_SCHEDULED) ->
  run_task now ex k c = Some (ks, outs, c') -> tracks k ks c c' /\ schedules k c c'.
Proof.
  intros Hwf Hnow Hok Huns E.
  destruct k as [n o h|n d p|n us|n|n h|n|n h b|n e|f|fs f|f|single| | | |n a d|n h e ctx|n|n]; cbn [task_refs app] in Hwf.
  - injection E as <- <- <-. split; intros m tm; unfold createTimer_construct; cbn [set_timer set_nodes d_nodes];
      intros [[<- <-]|[Hne Hm]]%lookup_insert_Some Hst; try done; right; by exists tm.
  - destruct (wf_live_out c L _ n Hwf ltac:(by left)) as (tm & Hn & _). cbn [run_task] in E. unfold schedule_lock in E.
    rewrite Hn in E. cbn [mbind option_bind] in E. case_bool_decide; injection E as <- <- <-.
    + split; [by apply tracks_same|by apply schedules_same].
    + split; [eapply tracks_one; [done|done|done|done|]; intros _; left; right; left; eexists; by left|].
      eapply schedules_one; [done|done|]. intros _. left. by exists d, p.
  - destruct (wf_live_out c L _ n Hwf ltac:(by left)) as (tm & Hn & _). cbn [run_task] in E.
    destruct (schedule_map n us c) as [[b c1]|] eqn:Es; [|done]. injection E as <- <- <-. unfold schedule_map in Es. rewrite Hn in Es.
    destruct (schedule_pair_spec c L n us tm (w_scheduled _ _ _ Hwf) Hn Hok) as (hd & base & m' & tm' & Ep & _ & Etm & Hh & _).
    cbn [mbind option_bind] in Es. rewrite Ep in Es. cbn [mbind option_bind] in Es. destruct (dm_data m' hd) as [data|]; [|done].
    cbn [mbind option_bind] in Es. destruct (data =? n)%nat; [|done]. injection Es as <- <-. split.
    + eapply (tracks_one _ _ _ _ n tm tm'); [done|done|by intros m ? [= ->]|done|]. intros _. left. left. by rewrite Hh.
    + eapply (schedules_one _ _ _ n tm tm'); [done|done|]. intros Hst. right. rewrite Etm in Hst. by destruct (d_deadlineMapHandle tm).
  - destruct (cancel_lock_wf c L _ n Hwf ltac:(by left)) as (tm & Hn & _ & [(_ & Ec)|(h & tm' & _ & _ & Etm & Ec & _)]);
      cbn [run_task] in E; rewrite Ec in E; injection E as <- <- <-.
    + split; [by apply tracks_same|by apply schedules_same].
    + subst tm'. split; [by eapply tracks_one|by eapply schedules_one].
  - eapply unschedule_tracks in E; [done|done|exact Hwf|by left|by apply Huns].
  - destruct (close_lock_wf c L _ n Hwf ltac:(by left)) as (tm & Hn & _ & [(_ & Ec)|(h & tm' & _ & _ & Etm & Ec & _)]);
      cbn [run_task] in E; rewrite Ec in E; injection E as <- <- <-.
    + split; [by apply tracks_same|by apply schedules_same].
    + subst tm'. split; [by eapply tracks_one|by eapply schedules_one].
  - eapply unschedule_tracks in E; [done|done|exact Hwf|by left|by apply Huns].
  - cbn [run_task] in E. destruct (release_wf c L out n Hwf) as (tm & last & Hn & Er & _). rewrite Er in E.
    injection E as <- <- <-. by eapply refs_tracks.
  - injection E as <- <- <-. split; [by apply tracks_same|by apply schedules_same].
  - injection E as <- <- <-. split; [by apply tracks_same|by apply schedules_same].
  - cbn [run_task] in E. destruct (run_functor f). injection E as <- <- <-. split; [by apply tracks_same|by apply schedules_same].
  - destruct (announce_map_spec single now c L out Hwf Hnow) as (fs & d1 & c1 & ts & done' & c2 & L' & Ep & Ea & Hwf' & Hn & _ & Ha).
    cbn [run_task] in E. rewrite Ea in E. injection E as <- <- <-. by eapply pop_tracks.
  - destruct (drain_map_wf c L out Hwf) as (fs & c1 & Ed & _ & Hn & _). cbn [run_task] in E. rewrite Ed in E.
    injection E as <- <- <-. split; [by apply tracks_same|by apply schedules_same].
  - injection E as <- <- <-. split; [by apply tracks_same|by apply schedules_same].
  - cbn [run_task] in E. destruct (load c) as [[nodes c1]|] eqn:El; [|done]. injection E as <- <- <-.
    split; intros n tm' Hn' Hst; destruct (load_nodes c L out c1 nodes Hwf El n tm' Hn') as (tm & Hn & H1 & H2 & H3); right; exists tm;
      (split; [done|]); [|congruence]. split; [congruence|done|unfold is_recurring; by rewrite H3|done|done].
  - destruct (arrive_lock_wf c L _ n Hwf ltac:(by left)) as (tm & Hn & _ & [(Hst & Ea)|(h & Hst & _ & Ea & _)]);
      cbn [run_task] in E; rewrite Hn, Ea in E.
    + injection E as <- <- <-. split; [|by apply schedules_same]. intros m tmm Hm Hsm. right. exists tmm.
      split; [done|]. split; try done. intros a' d' [= -> _ _]. congruence.
    + destruct (arrive_events n a d ex _) as [evs|]; [|done]. injection E as <- <- <-. split.
      * eapply tracks_one; [done|done|done|by intros m ? ? [= ->]|]. intros Hs. right. pose proof (arrived_scheduled tm Hs).
        split; try done; unfold arrived; by destruct (TimerOptions.oneShot _).
      * eapply schedules_one; [done|done|]. by right.
  - injection E as <- <- <-. split; [by apply tracks_same|by apply schedules_same].
  - cbn [run_task] in E. destruct (release_wf c L out n Hwf) as (tm & last & Hn & Er & _). rewrite Er in E.
    injection E as <- <- <-. by eapply refs_tracks.
  - cbn [run_task] in E. destruct (disposeRep_wf c L out n Hwf) as (c1 & Ed & _ & Hn & _). rewrite Ed in E.
    injection E as <- <- <-. split; intros m tm; rewrite Hn; intros [_ Hm]%lookup_delete_Some Hst; right; by exists tm.
Qed.
(** ** One call at a time *)

(** The number of sections to be run that change the schedule of a timer. *)
Definition changing n ks : nat := length (filter (fun k => changes n k = true) ks).

Lemma changing_app n ks1 ks2 : changing n (ks1 ++ ks2) = (changing n ks1 + changing n ks2)%nat.
Proof. unfold changing. by rewrite list.filter_app, length_app. Qed.

Lemma changing_cons n k ks : changing n (k :: ks) = ((if changes n k then 1 else 0) + changing n ks)%nat.
Proof. unfold changing. rewrite filter_cons. by destruct (changes n k). Qed.

Lemma changing_none n ks : Forall (fun k => changes n k = false) ks -> changing n ks = 0%nat.
Proof. induction 1 as [|k ks Hk _ IH]; [done|]. by rewrite changing_cons, Hk, IH. Qed.

Lemma changing_in n k ks : k ∈ ks -> changes n k = true -> (1 <= changing n ks)%nat.
Proof.
  intros Hin Hc. destruct (list_elem_of_split _ _ Hin) as (l1 & l2 & ->). rewrite changing_app, changing_cons, Hc. lia.
Qed.

Lemma unscheduling_changes n k : unscheduling n k -> changes n k = true.
Proof. destruct k; cbn; try done; intros ->; apply Nat.eqb_refl. Qed.

Lemma changing_inert n ks : Forall inert ks -> changing n ks = 0%nat.
Proof. intros H. apply changing_none. eapply List.Forall_impl; [|exact H]. by intros []. Qed.

(** A section is followed by at most one that changes the schedule of its timer. *)
Lemma changing_next now ex n k c ks outs c' :
  run_task now ex k c = Some (ks, outs, c') -> (changing n ks <= if changes n k then 1 else 0)%nat.
Proof.
  intros E. destruct (run_task_next _ _ _ _ _ _ _ E) as [Hin|Hf]; [rewrite changing_inert by done; lia|].
  destruct k; try done; (destruct Hf as (? & ->) || destruct Hf as (? & ? & ->)); rewrite changing_cons; cbn; lia.
Qed.

(** A call that is to remove a pair has left the timer unscheduled. *)
Lemma unscheduling_next now ex n k k' c L out ks outs c' :
  wf c L (task_refs k ++ out) -> run_task now ex k c = Some (ks, outs, c') -> k' ∈ ks -> unscheduling n k' ->
  forall tm, d_nodes c' !! n = Some tm -> d_state tm <> e_STATE_SCHEDULED.
Proof.
  intros Hwf E Hin Hu. destruct (run_task_next _ _ _ _ _ _ _ E) as [Hi|Hf].
  { apply (inert_in _ _ Hi) in Hin. by destruct k'. }
  destruct k as [|m| |m| |m| | | | | | | | | | | | |]; try done; (destruct Hf as (? & ->) || destruct Hf as (? & ? & ->)); apply list_elem_of_singleton in Hin as ->;
    cbn [unscheduling] in Hu; try done; subst; cbn [run_task task_refs app] in *.
  - destruct (cancel_lock_wf c L _ n Hwf ltac:(by left)) as (tm & Hn & _ & [(_ & Ec)|(h' & tm' & _ & _ & -> & Ec & _)]);
      rewrite Ec in E; [done|]. injection E as _ _ <-.
    intros tm'. cbn [set_timer set_nodes d_nodes]. rewrite lookup_insert_eq. by intros [= <-].
  - destruct (close_lock_wf c L _ n Hwf ltac:(by left)) as (tm & Hn & _ & [(_ & Ec)|(h' & tm' & _ & _ & -> & Ec & _)]);
      rewrite Ec in E; [done|]. injection E as _ _ _ <-.
    intros tm'. cbn [set_timer set_nodes d_nodes]. rewrite lookup_insert_eq. by intros [= <-].
Qed.
(** ** The invariant *)

Record live s : Prop := {
  lv_serial : forall n, (changing n (running s) <= 1)%nat;
  lv_timer : forall n tm, d_nodes (chronology s) !! n = Some tm -> d_state tm = e_STATE_SCHEDULED ->
    fine (running s) n tm;
  lv_unscheduling : forall k n, k ∈ running s -> unscheduling n k ->
    forall tm, d_nodes (chronology s) !! n = Some tm -> d_state tm <> e_STATE_SCHEDULED;
}.

Lemma fine_mono ks ks' n tm : (forall k, k ∈ ks -> k ∈ ks') -> fine ks n tm -> fine ks' n tm.
Proof. intros Hs [H|[[us H]|[Hr (a & d & H)]]]; [by left|right; left|right; right]; eauto. Qed.

Lemma elem_of_replaced before k rest after ks k' :
  k' ∈ concat (before ++ (k :: rest) :: after) -> k' <> k -> k' ∈ concat (before ++ (ks ++ rest) :: after) :> Prop.
Proof. rewrite running_split, running_replaced, !elem_of_app, elem_of_cons, elem_of_app. tauto. Qed.

Lemma changing_replaced n before k rest after ks :
  (changing n (concat (before ++ (ks ++ rest) :: after)) + (if changes n k then 1 else 0)
   = changing n (concat (before ++ (k :: rest) :: after)) + changing n ks)%nat.
Proof. rewrite running_split, running_replaced, !changing_app, changing_cons, changing_app. lia. Qed.

(** Another section that changes the schedule of the same timer rules it out. *)
Lemma alone s before k rest after n k' :
  (changing n (running s) <= 1)%nat -> threads s = before ++ (k :: rest) :: after ->
  changes n k = true -> changes n k' = true -> k' ∉ concat before ++ rest ++ concat after.
Proof.
  intros H Et Hk Hk' Hin. unfold running in H. rewrite Et, running_split, changing_app, changing_cons, Hk in H.
  assert (1 <= changing n (concat before ++ rest ++ concat after))%nat as H1 by by eapply changing_in.
  rewrite changing_app in H1. lia.
Qed.

Lemma run_live s before k rest after now ex ks outs c' L :
  live s -> wf (chronology s) L (outside s) -> Forall task_ok (running s) ->
  threads s = before ++ (k :: rest) :: after -> period_ok now ->
  run_task now ex k (chronology s) = Some (ks, outs, c') ->
  live {| chronology := c'; threads := before ++ (ks ++ rest) :: after; held := created_nodes outs ++ held s;
          outputs := outputs s ++ outs; created := created s |}.
Proof.
  intros [Hser Htm Huns] Hwf Hok Et Hnow E. pose proof (running_in _ _ _ _ _ Et) as Hk.
  pose proof (running_wf _ _ _ _ _ _ Hwf Et) as Hwf1. rewrite list.Forall_forall in Hok.
  destruct (run_task_tracks now ex k _ L _ ks outs c' Hwf1 Hnow (Hok k Hk)) as [Htr Hsc]; [by intros n Hn; eapply Huns|done|].
  assert (forall k', k' ∈ running s -> k' <> k -> k' ∈ concat (before ++ (ks ++ rest) :: after)) as Hkeep.
  { intros k'. unfold running. rewrite Et. apply elem_of_replaced. }
  split; unfold running; cbn [chronology threads].
  - intros n. pose proof (changing_replaced n before k rest after ks) as Hc.
    pose proof (changing_next now ex n k _ ks outs c' E). specialize (Hser n). unfold running in Hser. rewrite Et in Hser. lia.
  - intros n tm' Hn' Hst. destruct (Htr n tm' Hn' Hst) as [Hf|(tm & Hn & [K1 K2 K3 K4 K5])].
    + eapply fine_mono; [|exact Hf]. intros k' Hin. rewrite running_replaced, !elem_of_app. auto.
    + destruct (Htm n tm Hn K1) as [Hh|[[us Hin]|[Hr (a & d & Hin)]]].
      * left. by rewrite K2.
      * right. left. exists us. apply Hkeep; [done|]. intros E'. by apply (K4 us).
      * right. right. split; [congruence|]. exists a, d. apply Hkeep; [done|]. intros E'. symmetry in E'.
        apply K5 in E'. congruence.
  - intros k' n Hin Hu tm' Hn' Hst.
    assert (k' ∈ ks \/ k' ∈ concat before ++ rest ++ concat after) as [Hin'|Hin'].
    { rewrite running_replaced in Hin. rewrite !elem_of_app in *. tauto. }
    + by eapply (unscheduling_next now ex n k k').
    + assert (k' ∈ running s) as Hr by (unfold running; rewrite Et, running_split; rewrite !elem_of_app, elem_of_cons, ?elem_of_app in *; tauto).
      destruct (Hsc n tm' Hn' Hst) as [(d & p & ->)|(tm & Hn & Hst')]; [|by eapply (Huns k' n)].
      eapply (alone s before (ScheduleLock n d p) rest after n k'); [done|done| | |done].
      * apply Nat.eqb_refl.
      * by apply unscheduling_changes.
Qed.

(** The other steps of the application in a serial system. *)
Lemma call_live s s' ks :
  live s -> running s' = ks ++ running s -> (forall n, (changing n ks + changing n (running s) <= 1)%nat) ->
  (forall k n, k ∈ ks -> ~ unscheduling n k) ->
  (forall n tm', d_nodes (chronology s') !! n = Some tm' -> exists tm, d_nodes (chronology s) !! n = Some tm /\
    d_state tm' = d_state tm /\ d_deadlineMapHandle tm' = d_deadlineMapHandle tm /\ d_period tm' = d_period tm) -> live s'.
Proof.
  intros [H1 H2 H3] Hr Hc Hu Hn. split; rewrite ?Hr.
  - intros n. rewrite changing_app. apply Hc.
  - intros n tm' Hn' Hst. destruct (Hn n tm' Hn') as (tm & Hm & E1 & E2 & E3).
    eapply (fine_mono (running s)); [intros k Hk; rewrite elem_of_app; auto|].
    destruct (H2 n tm Hm) as [?|[?|[? ?]]]; [congruence|left|right; left|right; right].
    + by rewrite E2.
    + done.
    + split; [unfold is_recurring in *; by rewrite E3|done].
  - intros k n Hin Hun tm' Hn' Hst. apply elem_of_app in Hin as [Hin|Hin]; [by apply (Hu k n)|].
    destruct (Hn n tm' Hn') as (tm & Hm & E1 & _ & _). eapply (H3 k n Hin Hun tm Hm). congruence.
Qed.

Lemma acquire_nodes c c' n : acquire n c = Some c' ->
  forall m tm', d_nodes c' !! m = Some tm' -> exists tm, d_nodes c !! m = Some tm /\
    d_state tm' = d_state tm /\ d_deadlineMapHandle tm' = d_deadlineMapHandle tm /\ d_period tm' = d_period tm.
Proof.
  unfold acquire. destruct (d_nodes c !! n) as [tm|] eqn:Hn; [|done]. cbn [mbind option_bind]. intros [= <-] m tm'.
  cbn [set_timer set_nodes d_nodes]. intros [[<- <-]|[_ Hm]]%lookup_insert_Some; [by exists tm|by exists tm'].
Qed.

Lemma timer_call_changes n m k : timer_call n k -> changes m k = (n =? m)%nat /\ ~ unscheduling m k.
Proof.
  destruct k; cbn; intros H; try contradiction; [destruct H as [-> _]|subst|subst]; (split; [done|]); intros [].
Qed.

Lemma chronology_call_changes m k : chronology_call k -> changes m k = false /\ ~ unscheduling m k.
Proof. destruct k; cbn; intros H; try contradiction; (split; [done|]); intros []. Qed.

Lemma step_live s s' : safe s -> live s -> step true s s' -> live s'.
Proof.
  intros Hsafe Hlive Hstep. revert Hsafe Hlive.
  destruct Hstep as [s0 n c o h Hfresh Ho E|s0 n k c Hin Hcall Hser E|s0 k Hcall|s0 n c Hin E|s0 h1 n h2 E
    |s0 before k rest after now ex ks outs c Et Hnow E]; intros Hsafe Hlive.
  - destruct Hsafe as (L & Hwf & Hok). destruct (createTimer_allocate_wf _ _ _ Hwf) as (n' & c' & E' & _ & _ & Hn & _).
    rewrite E' in E. injection E as -> ->.
    apply (call_live s0 _ [Construct n o h]); [done|done|apply Hlive| |].
    + intros k m ->%list_elem_of_singleton [].
    + intros m tm. cbn. rewrite Hn. intros Hm. by exists tm.
  - apply (call_live s0 _ [k]); [done|done| | |].
    + intros m. destruct (timer_call_changes n m k Hcall) as [Hc _]. rewrite changing_cons, Hc. cbn.
      destruct (Nat.eqb_spec n m) as [->|]; [|apply Hlive]. rewrite (changing_none m (running s0)) by by apply Hser. done.
    + intros k' m ->%list_elem_of_singleton. by apply (timer_call_changes n).
    + by eapply acquire_nodes.
  - apply (call_live s0 _ [k]); [done|done| | |].
    + intros m. destruct (chronology_call_changes m k Hcall) as [Hc _]. rewrite changing_cons, Hc. apply Hlive.
    + intros k' m ->%list_elem_of_singleton. by apply chronology_call_changes.
    + intros m tm Hm. by exists tm.
  - apply (call_live s0 _ []); [done|done|apply Hlive| |by eapply acquire_nodes]. by intros k m ?%elem_of_nil.
  - apply (call_live s0 _ [Release n]); [done|done|apply Hlive| |].
    + intros k m ->%list_elem_of_singleton [].
    + intros m tm Hm. by exists tm.
  - destruct Hsafe as (L & Hwf & Hok). by eapply run_live.
Qed.

Lemma initial_live m : live (initial m).
Proof.
  split; [intros; unfold running; cbn; lia|done|]. by intros k n ?%elem_of_nil.
Qed.

Lemma reachable_live m s : models m [] -> reachable true m s -> safe s /\ live s.
Proof.
  intros Hm. apply (rtc_ind_r (fun s => safe s /\ live s)).
  - split; [by apply safe_initial|apply initial_live].
  - intros s1 s2 _ Hstep [Hsafe Hlive]. split; [by eapply step_safe|by eapply step_live].
Qed.

End Liveness.

End ChronologyLiveness.
