(* ===== verification/ChronologyScripts.v ===== *)
(** * Scripts of steps of a chronology

    An executable form of the steps of ChronologySystem: a script is a list of
    actions, and the state that it leads to is reachable. *)

From stdpp Require Import gmap.
From S2P Require Import Prelude Errors TimeInterval Backoff DeadlineMap Chronology ChronologyFacts.
From S2P Require Import ChronologySystem.

Module ChronologyScripts.

Import DeadlineMap TimerEventType Chronology ChronologyFacts ChronologySystem.

Section Scripts.

Context {T : Type} {TI : TimeIntervalOps T} {TU : TimeIntervalUnits T}.
Context {M : Type} {DM : DeadlineMap.Operations nat M} {RD : Rand}.

Inductive action : Type :=
  | Create (options : TimerOptions.t T) (h : handler)
  | Call (n : nat) (k : task T)
  | Defer (k : task T)
  | Copy (n : nat)
  | Drop (n : nat)
  | Step (thread : nat) (now exactlyNow : T).

Definition period_okb (p : T) : bool := (0 <=? ns p) && (ns p / 1000 <=? BOUND).

Definition timer_callb (n : nat) (k : task T) : bool :=
  match k with
  | ScheduleLock m deadline period => (m =? n)%nat && (0 <=? ns deadline) && period_okb period
  | CancelLock m | CloseLock m => (m =? n)%nat
  | _ => false
  end.

Definition chronology_callb (k : task T) : bool :=
  match k with
  | Execute (Function _) | MoveAndExecute _ _ | Pop _ | Drain | ClearFunctions | Load => true
  | _ => false
  end.

Fixpoint drop_held (n : nat) (l : list nat) : option (list nat) :=
  match l with
  | [] => None
  | m :: rest => if (m =? n)%nat then Some rest else cons m <$> drop_held n rest
  end.

(** One step of a script; timers are created without backoff, and a thread that
    has ended does nothing. *)
Definition perform (serial : bool) (a : action) (s : system T M) : option (system T M) :=
  match a with
  | Create o h =>
      match created s !! h, TimerOptions.d_backoff o with
      | None, None =>
          let '(n, c) := createTimer_allocate (chronology s) in
          Some {| chronology := c; threads := [Construct n o h] :: threads s; held := held s;
                  outputs := outputs s; created := <[h := o]> (created s) |}
      | _, _ => None
      end
  | Call n k =>
      if bool_decide (n ∈ held s) && timer_callb n k
         && implb serial (forallb (fun j => negb (changes n j)) (running s)) then
        match acquire n (chronology s) with
        | Some c => Some {| chronology := c; threads := [k] :: threads s; held := held s;
                            outputs := outputs s; created := created s |}
        | None => None
        end
      else None
  | Defer k =>
      if chronology_callb k then
        Some {| chronology := chronology s; threads := [k] :: threads s; held := held s;
                outputs := outputs s; created := created s |}
      else None
  | Copy n =>
      if bool_decide (n ∈ held s) then
        match acquire n (chronology s) with
        | Some c => Some {| chronology := c; threads := threads s; held := n :: held s;
                            outputs := outputs s; created := created s |}
        | None => None
        end
      else None
  | Drop n =>
      match drop_held n (held s) with
      | Some rest => Some {| chronology := chronology s; threads := [Release n] :: threads s; held := rest;
                             outputs := outputs s; created := created s |}
      | None => None
      end
  | Step i now exactlyNow =>
      match threads s !! i with
      | Some (k :: rest) =>
          if period_okb now then
            match run_task now exactlyNow k (chronology s) with
            | Some (ks, outs, c) =>
                Some {| chronology := c; threads := <[i := ks ++ rest]> (threads s);
                        held := created_nodes outs ++ held s;
                        outputs := outputs s ++ outs; created := created s |}
            | None => None
            end
          else None
      | Some [] => Some s
      | None => None
      end
  end.

Fixpoint perform_all (serial : bool) (script : list action) (s : system T M) : option (system T M) :=
  match script with
  | [] => Some s
  | a :: rest => match perform serial a s with Some s => perform_all serial rest s | None => None end
  end.

Lemma period_okb_spec p : period_okb p = true -> period_ok p.
Proof. unfold period_okb. intros [? ?]%andb_prop. split; lia. Qed.

Lemma timer_callb_spec n k : timer_callb n k = true -> timer_call n k.
Proof.
  destruct k; cbn; try done; intros H; rewrite ?andb_true_iff, ?Nat.eqb_eq in H; [|done..].
  destruct H as [[-> ?] ?%period_okb_spec]. split; [done|]. split; [lia|done].
Qed.

Lemma chronology_callb_spec k : chronology_callb k = true -> chronology_call k.
Proof. destruct k as [| | | | | | | |[]| | | | | | | | | |]; done. Qed.

Lemma drop_held_spec n l rest : drop_held n l = Some rest -> exists h1 h2, l = h1 ++ n :: h2 /\ rest = h1 ++ h2.
Proof.
  revert rest. induction l as [|m l IH]; intros rest; cbn [drop_held]; [done|]. destruct (Nat.eqb_spec m n) as [->|].
  - intros [= <-]. by exists [], l.
  - intros (r & E & ->)%fmap_Some. destruct (IH r E) as (h1 & h2 & -> & ->). by exists (m :: h1), h2.
Qed.

Lemma insert_middle {A} (l1 : list A) x y l2 : <[length l1 := y]> (l1 ++ x :: l2) = l1 ++ y :: l2.
Proof. induction l1 as [|z l1 IH]; [done|]. cbn. by f_equal. Qed.

Lemma perform_step serial a s s' : perform serial a s = Some s' -> rtc (step serial) s s'.
Proof.
  destruct a as [o h|n k|k|n|n|i now ex]; cbn [perform].
  - destruct (created s !! h) eqn:Ec; [done|]. destruct (TimerOptions.d_backoff o) eqn:Eb; [done|].
    destruct (createTimer_allocate _) as [n c] eqn:E. intros [= <-]. apply rtc_once, step_create; [done| |done].
    unfold options_ok. by rewrite Eb.
  - destruct (bool_decide _ && _ && _) eqn:E; [|done]. apply andb_prop in E as [[Eh%bool_decide_eq_true Ek]%andb_prop Es].
    destruct (acquire n _) as [c|] eqn:Ea; [|done]. intros [= <-].
    apply rtc_once, (step_timer_call _ _ n); [done|by apply timer_callb_spec| |done].
    intros ->. cbn in Es. apply List.Forall_forall. intros j Hj. rewrite forallb_forall in Es.
    by apply negb_true_iff, Es.
  - destruct (chronology_callb k) eqn:E; [|done]. intros [= <-]. by apply rtc_once, step_chronology_call, chronology_callb_spec.
  - destruct (bool_decide _) eqn:E; [|done]. apply bool_decide_eq_true in E. destruct (acquire n _) as [c|] eqn:Ea; [|done].
    intros [= <-]. apply rtc_once, step_copy; [by left|done].
  - destruct (drop_held n _) as [rest|] eqn:E; [|done]. intros [= <-].
    apply drop_held_spec in E as (h1 & h2 & E & ->). by apply rtc_once, step_drop.
  - destruct (threads s !! i) as [[|k rest]|] eqn:E; [by intros [= <-]| |done]. destruct (period_okb now) eqn:En; [|done].
    destruct (run_task _ _ _ _) as [[[ks outs] c]|] eqn:Er; [|done]. intros [= <-].
    destruct (list_elem_of_split_length _ _ _ E) as (before & after & Et & ->).
    rewrite Et, insert_middle. eapply rtc_once, step_run; [done|by apply period_okb_spec|done].
Qed.

Lemma perform_all_reachable serial script m s :
  perform_all serial script (initial m) = Some s -> reachable serial m s.
Proof.
  unfold reachable. generalize (initial (T := T) m). induction script as [|a script IH]; intros s0; cbn [perform_all].
  - intros [= <-]. constructor.
  - destruct (perform serial a s0) as [s1|] eqn:E; [|done]. intros H. etrans; [by eapply perform_step|by apply IH].
Qed.

End Scripts.

Arguments action : clear implicits.

End ChronologyScripts.
