(* ===== verification/ChronologyTheorems.v ===== *)
(** * The properties of a chronology

    What holds in every state that the interleavings of ChronologySystem reach,
    what an announcement takes from the map of deadlines, and how long a driver
    may wait.  The instances at the end, and the behaviours that contradict what
    one could expect, are runs of scripts (ChronologyScripts). *)

From stdpp Require Import gmap sorting.
From S2P Require Import Prelude Occurrences Errors TimeInterval Backoff DeadlineMap SkipList SkipListFacts SkipListTheorems.
From S2P Require Import Chronology ChronologyFacts.
From S2P Require Import ChronologySystem ChronologySafety ChronologyEvents ChronologyLiveness ChronologyScripts.

Import Occurrences.

Module ChronologyTheorems.

Import DeadlineMap TimerEventType Chronology ChronologyFacts ChronologySystem ChronologySafety ChronologyEvents.
Import ChronologyLiveness ChronologyScripts.

Section Theorems.

Context {T : Type} {TI : TimeIntervalOps T} {TL : TimeIntervalLaws T}.
Context {TU : TimeIntervalUnits T} {TUL : TimeIntervalUnitsLaws T}.
Context {M : Type} {DM : DeadlineMap.Operations nat M} {DL : DeadlineMap.Laws nat M} {RD : Rand} {RDL : RandLaws}.

Implicit Types (c : t T M) (k : task T) (s : system T M) (L : list (nat * (Z * nat))).

(** ** Safety *)

(** C11: in every interleaving of the calls of a chronology and of its timers,
    other than [clear], [clearTimers] and [closeAll], with deadlines after the
    epoch and with periods and clock times within [BOUND] microseconds, no section
    fails an assertion, accesses a node without a timer or overflows, and
    the chronology stays well-formed: the pairs of the map are those of the
    timers' handles, the flags and the earliest deadline agree with the map and
    the queue, every reference is counted, and every node is free, under
    construction or holds a timer. *)
Theorem chronology_safe (serial : bool) (m : M) s :
  models m [] -> reachable serial m s ->
  (exists L, wf (chronology s) L (outside s)) /\
  (forall before k rest after now exactlyNow,
     threads s = before ++ (k :: rest) :: after -> period_ok now ->
     exists ks outs c, run_task now exactlyNow k (chronology s) = Some (ks, outs, c)).
Proof.
  intros Hm Hr. pose proof (reachable_safe _ _ _ Hm Hr) as Hs. split.
  - destruct Hs as (L & Hwf & _). by exists L.
  - intros before k rest after now exactlyNow Et Hnow.
    destruct (safe_run s before k rest after now exactlyNow Hs Et Hnow) as (L & ks & outs & c & L' & _ & E & _).
    by exists ks, outs, c.
Qed.

(** Without references outside, pairs and functors there is no timer. *)
Lemma no_timers c : wf c [] [] -> d_functorQueue c = [] -> d_nodes c = ∅.
Proof.
  intros [Hs Hc _ _] Hq. apply map_empty. intros n. destruct (d_nodes c !! n) as [tm|] eqn:Hn; [|done].
  pose proof (c_refs _ _ Hc n) as Hr. pose proof (c_dying _ _ Hc n) as Hd. rewrite Hn in Hr, Hd.
  unfold outstanding in Hr. rewrite Hq in Hr. cbn in Hr, Hd. unfold hnd in Hr.
  destruct (d_deadlineMapHandle tm) as [h|] eqn:Hh.
  - destruct (s_pair _ _ Hs n tm h Hn Hh) as [k Hin]. by apply elem_of_nil in Hin.
  - rewrite Hr in Hd. done.
Qed.

Lemma all_free c : counted c [] -> d_nodes c = ∅ -> d_nodeCount c = 0%nat.
Proof.
  intros Hc Hn. enough (d_nodeFree c ≡ₚ seq 0 (length (d_nodeArray c))) as Hp.
  { apply Permutation_length in Hp. rewrite length_seq in Hp. pose proof (c_count _ _ Hc). lia. }
  assert (forall n, occ n (d_nodeFree c) = if (n <? length (d_nodeArray c))%nat then 1%nat else 0%nat) as Ho.
  { intros n. pose proof (c_catalog _ _ Hc n) as H. rewrite Hn, lookup_empty in H. rewrite occ_nil in H; lia. }
  apply NoDup_Permutation.
  - apply NoDup_occ. intros n. rewrite Ho. destruct (_ <? _)%nat; lia.
  - apply NoDup_seq.
  - intros n. rewrite occ_elem, Ho, elem_of_seq. destruct (Nat.ltb_spec n (length (d_nodeArray c))); lia.
Qed.

(** A chronology can be destroyed once the application has dropped its
    pointers, every call and callback has returned and nothing is scheduled or
    deferred: no reference is leaked, every node is free again, and the assertions
    of the destructor hold. *)
Theorem chronology_drained_destroys (serial : bool) (m : M) s :
  models m [] -> reachable serial m s ->
  held s = [] -> running s = [] ->
  hasAnyScheduledOrDeferred [chronology s] = false ->
  d_nodes (chronology s) = ∅ /\ destroy (chronology s) = Some tt.
Proof.
  intros Hm Hr Hh Hrun Hq. destruct (reachable_safe _ _ _ Hm Hr) as (L & Hwf & _).
  unfold outside in Hwf. rewrite Hh, Hrun in Hwf. cbn in Hq. rewrite orb_false_r in Hq.
  apply orb_false_iff in Hq as [Hq1%negb_false_iff Hq2%negb_false_iff].
  rewrite (w_functors _ _ _ Hwf) in Hq2. destruct (d_functorQueue (chronology s)) as [|f q] eqn:Eq; [|done].
  rewrite (s_empty _ _ (w_scheduled _ _ _ Hwf)) in Hq1. destruct L as [|e L]; [|done].
  pose proof (no_timers _ Hwf Eq) as Hn. split; [done|]. unfold destroy. rewrite Eq, bool_decide_true by done.
  rewrite (isEmpty_law _ _ (s_models _ _ (w_scheduled _ _ _ Hwf))). cbn [mbind option_bind].
  by rewrite (all_free _ (w_counted _ _ _ Hwf) Hn).
Qed.

(** ** Announcing *)

(** The pairs after an announcement, from those of the loop. *)
Lemma popped_pairs now D R L' c c1 c' :
  pop_loop now D R L' c1 c' -> d_nodes c1 = d_nodes c ->
  forall h (k : Z) n, (h, (k, n)) ∈ L' <->
    (h, (k, n)) ∈ R \/
    exists (k0 : Z) tm tm', (h, (k0, n)) ∈ D /\ d_nodes c !! n = Some tm /\ d_nodes c' !! n = Some tm' /\
      is_recurring tm = true /\ popped tm tm' /\ k = Z.max now (k0 + ti_totalMicroseconds (d_period tm')).
Proof.
  intros Hl Hn h k n. split.
  - intros Hin. destruct (pl_pairs _ _ _ _ _ _ Hl h k n Hin) as [?|(k0 & tm & tm' & HD & H1 & H2 & Hr & Hk)]; [by left|].
    right. exists k0, tm, tm'. rewrite <- Hn. destruct (pl_due _ _ _ _ _ _ Hl _ HD) as (tm1 & tm2 & H3 & H4 & Hp & _).
    cbn in H3, H4. rewrite H1 in H3. rewrite H2 in H4. simplify_eq. done.
  - intros [Hin|(k0 & tm & tm' & HD & H1 & H2 & Hr & _ & ->)]; [by apply (pl_kept _ _ _ _ _ _ Hl)|].
    destruct (pl_due _ _ _ _ _ _ Hl _ HD) as (tm1 & tm2 & H3 & H4 & _ & Hc). cbn in H3, H4, Hc.
    rewrite Hn, H1 in H3. rewrite H2 in H4. injection H3 as <-. injection H4 as <-. by rewrite Hr in Hc.
Qed.

(** [announce] under the lock ends, takes the deferred functors and exactly
    the timers whose deadline is not after the current time, each once and in the
    order of the deadlines; a recurring timer is scheduled again at its deadline
    plus its period, or now if that has passed, the others leave the map, and
    every other timer and pair stays as it was.  With [single], a deferred functor
    is taken alone. *)
Theorem announce_pops_due (single : bool) (now : T) c L out :
  wf c L out -> period_ok now ->
  exists functorsDue timersDue done c' L',
    announce_map single now c = Some (functorsDue, timersDue, done, c') /\
    wf c' L' (queue_refs functorsDue ++ (Ref ∘ d_node_p <$> timersDue) ++ out) /\
    functorsDue = (if single then take 1 (d_functorQueue c) else d_functorQueue c) /\
    d_functorQueue c' = drop (length functorsDue) (d_functorQueue c) /\
    if single && negb (bool_decide (d_functorQueue c = []))
    then timersDue = [] /\ L' = L /\ d_nodes c' = d_nodes c
    else exists D R,
      key_split (ti_totalMicroseconds now) L D R /\ StronglySorted entry_le D /\ NoDup (node_of <$> D) /\
      timersDue = due_of <$> D /\
      (forall n, n ∉ node_of <$> D -> d_nodes c' !! n = d_nodes c !! n) /\
      (forall h (k : Z) n, (h, (k, n)) ∈ L' <->
         (h, (k, n)) ∈ R \/
         exists (k0 : Z) tm tm', (h, (k0, n)) ∈ D /\ d_nodes c !! n = Some tm /\ d_nodes c' !! n = Some tm' /\
           is_recurring tm = true /\ popped tm tm' /\
           k = Z.max (ti_totalMicroseconds now) (k0 + ti_totalMicroseconds (d_period tm'))) /\
      (forall e rest, L' = e :: rest -> d_deadlineMapEarliest c' = key_of e).
Proof.
  intros Hwf Hnow. destruct (announce_map_spec single now c L out Hwf Hnow)
    as (fs & d1 & c1 & ts & dn & c' & L' & Ep & E & Hwf' & Hn & Hq & Ha).
  exists fs, ts, dn, c', L'. split; [done|]. split; [done|].
  assert (fs = (if single then take 1 (d_functorQueue c) else d_functorQueue c)
    /\ d1 = single && negb (bool_decide (d_functorQueue c = []))) as [Ef Ed].
  { clear -Ep. unfold pop_functors in Ep. destruct (d_functorQueue c), single; simplify_eq; done. }
  split; [done|]. split; [by rewrite Hq, drop_app_length|]. rewrite <- Ed.
  destruct Ha as [-> -> -> ->|D R -> Hsplit -> Hl He]; [done|].
  exists D, R. pose proof Hsplit as (EL & _ & _). pose proof (w_scheduled _ _ _ Hwf) as Hs.
  split; [done|]. split; [|split; [|split; [done|split; [|split; [|exact He]]]]].
  - pose proof (sorted_of _ _ Hs) as Hsort. rewrite EL in Hsort. by eapply StronglySorted_app_1_l.
  - pose proof (scheduled_nodes _ _ Hs) as Hnd. rewrite EL, fmap_app in Hnd. by apply list.NoDup_app in Hnd as [? _].
  - intros n Hin. by rewrite (pl_others _ _ _ _ _ _ Hl n Hin), Hn.
  - by eapply popped_pairs.
Qed.

(** ** Events *)

(** C13: of a timer nothing is decided, under its mutex, after it is closed, and
    if it is one-shot its first deadline closes it; each event that a call or an
    expiry decides on, and that the timer's options want, is announced exactly
    once: it has been, or is in a running thread or in the queue of functors, or
    was dropped with it. So a timer announces at most once that it is closed, and
    a one-shot timer at most one deadline. The announcements are made outside of
    the mutex: threads may make them in another order than that of the
    decisions. *)
Theorem timer_events_protocol (serial : bool) (m : M) s :
  models m [] -> reachable serial m s ->
  (forall h o, created s !! h = Some o -> protocol (TimerOptions.oneShot o) (history h (outputs s)) = true) /\
  same (announced_events (outputs s) ++ events (created s) (running s)
          ++ functors_events (d_functorQueue (chronology s)) ++ dropped_events (outputs s))
    (wanted (created s) (decided (outputs s))) /\
  (forall h o, created s !! h = Some o ->
     (occ (h, e_CLOSED) (announced_events (outputs s)) <= 1)%nat /\
     (TimerOptions.oneShot o = true -> (occ (h, e_DEADLINE) (announced_events (outputs s)) <= 1)%nat)).
Proof.
  intros Hm Hr. destruct (reachable_ev_inv _ _ _ Hm Hr) as [_ Hi].
  split; [apply (ev_protocol _ Hi)|]. split; [apply (ev_account _ Hi)|]. intros h o Hh.
  assert (forall e, (occ (h, e) (announced_events (outputs s)) <= occ e (history h (outputs s)))%nat) as Hle.
  { intros e. rewrite <- occ_history. pose proof (occ_wanted (created s) (h, e) (decided (outputs s))).
    pose proof (ev_account _ Hi (h, e)) as Ha. rewrite occ_app in Ha. lia. }
  destruct (protocol_once _ _ (ev_protocol _ Hi h o Hh)) as [Hc Hd].
  split; [by etrans; [apply Hle|]|]. intros Ho. by etrans; [apply Hle|apply Hd].
Qed.

(** ** Liveness *)

(** C12: while the application does not call operations of one timer concurrently,
    a timer in the state SCHEDULED is not lost: its pair is in the map, with a
    deadline that the driver's timeout takes into account, or the call that
    schedules it is about to put it there, or it was popped and a thread is about
    to announce it. *)
Theorem scheduled_timer_pending (m : M) s n (tm : timer T) :
  models m [] -> reachable true m s ->
  d_nodes (chronology s) !! n = Some tm -> d_state tm = e_STATE_SCHEDULED ->
  (exists handle key, d_deadlineMapHandle tm = Some handle /\
     dm_key (d_deadlineMap (chronology s)) handle = Some key /\ dm_data (d_deadlineMap (chronology s)) handle = Some n /\
     d_deadlineMapEmpty (chronology s) = false /\ d_deadlineMapEarliest (chronology s) <= key) \/
  (exists us, ScheduleMap n us ∈ running s) \/
  (exists now deadline, Arrive n now deadline ∈ running s).
Proof.
  intros Hm Hr Hn Hst. destruct (reachable_live _ _ Hm Hr) as [(L & Hwf & _) Hl].
  destruct (lv_timer _ Hl n tm Hn Hst) as [[h Hh]|[?|[_ ?]]]; [left|by right; left|by right; right].
  pose proof (w_scheduled _ _ _ Hwf) as Hs. destruct (s_pair _ _ Hs n tm h Hn Hh) as [k Hin]. exists h, k.
  pose proof (s_earliest _ _ Hs) as [_ He]. rewrite list.Forall_forall in He. specialize (He _ Hin).
  pose proof (s_empty _ _ Hs) as Hemp. pose proof (s_models _ _ Hs) as Hmod.
  apply list_elem_of_split in Hin as (L1 & L2 & ->).
  split; [done|]. split; [by apply (key_law _ _ _ _ _ Hmod)|]. split; [by apply (data_law _ _ _ _ _ Hmod)|].
  split; [rewrite Hemp; by destruct L1|done].
Qed.

(** ** Waiting *)

Definition well_formed (chain : list (t T M)) : Prop := forall c, c ∈ chain -> exists L out, wf c L out.

Lemma earliest_range c L out : wf c L out -> d_deadlineMapEmpty c = false -> 0 <= d_deadlineMapEarliest c <= S64_MAX.
Proof.
  intros [Hs _ _ _]. rewrite (s_empty _ _ Hs). destruct (s_earliest _ _ Hs) as [H0 He]. pose proof (s_keys _ _ Hs) as Hk.
  destruct L as [|e L]; [done|]. intros _. apply Forall_inv in He, Hk. lia.
Qed.

Lemma ns_zero : ns (ti_make 0 0 : T) = 0.
Proof. rewrite ti_make_ns; [done|]. unfold representable, S64_MIN, S64_MAX, NANO. lia. Qed.

Lemma findEarliest_ns c L out : wf c L out -> d_deadlineMapEmpty c = false -> ns (findEarliest c) = d_deadlineMapEarliest c * 1000.
Proof.
  intros Hwf He. pose proof (earliest_range _ _ _ Hwf He). unfold findEarliest.
  apply ti_setTotalMicroseconds_ns. unfold S64_MIN, S64_MAX in *. lia.
Qed.

(** What [earliest] returns is a lower bound and the bound of one of the chain. *)
Definition earliest_of (chain : list (t T M)) (z : Z) : Prop :=
  0 <= z <= S64_MAX * 1000 /\
  (hasAnyDeferred chain = true -> z = 0) /\
  (forall c, c ∈ chain -> d_deadlineMapEmpty c = false -> z <= d_deadlineMapEarliest c * 1000) /\
  (hasAnyDeferred chain = false ->
     exists c, c ∈ chain /\ d_deadlineMapEmpty c = false /\ z = d_deadlineMapEarliest c * 1000).

Lemma earliest_of_parents c chain L out z :
  wf c L out -> d_functorQueueEmpty c = true -> earliest_of chain z ->
  (d_deadlineMapEmpty c = false -> z <= d_deadlineMapEarliest c * 1000) -> earliest_of (c :: chain) z.
Proof.
  intros Hwf Hq (H1 & H2 & H3 & H4) Hle. unfold earliest_of. cbn [hasAnyDeferred existsb] in *. rewrite Hq. cbn [negb orb].
  split; [done|]. split; [done|]. split; [by intros c' [->|Hin]%elem_of_cons; auto|].
  intros Hd. destruct (H4 Hd) as (c' & Hin & ? & ?). exists c'. split; [by right|done].
Qed.

Lemma earliest_spec chain :
  well_formed chain ->
  match earliest chain with
  | Some t => hasAnyScheduledOrDeferred chain = true /\ earliest_of chain (ns t)
  | None => hasAnyScheduledOrDeferred chain = false
  end.
Proof.
  induction chain as [|c chain IH]; intros Hw; [done|]. cbn [earliest].
  destruct (Hw c ltac:(by left)) as (L & out & Hwf). specialize (IH (fun c' Hin => Hw c' ltac:(by right))).
  unfold hasAnyScheduledOrDeferred in *. cbn [existsb].
  destruct (d_functorQueueEmpty c) eqn:Eq; cbn [negb].
  2: { rewrite orb_true_r. split; [done|]. rewrite ns_zero. split; [unfold S64_MAX; lia|]. split; [done|]. split.
    - intros c' Hin He. destruct (Hw c' Hin) as (L' & out' & Hwf'). pose proof (earliest_range _ _ _ Hwf' He). lia.
    - cbn [hasAnyDeferred existsb]. by rewrite Eq. }
  rewrite orb_false_r. destruct (d_deadlineMapEmpty c) eqn:Ee; cbn [negb orb].
  { destruct (earliest chain) as [p|]; [|done]. destruct IH as [? IH]. split; [done|].
    eapply earliest_of_parents; [done|done|done|]. by rewrite Ee. }
  pose proof (findEarliest_ns _ _ _ Hwf Ee) as Hns. pose proof (earliest_range _ _ _ Hwf Ee) as Hr.
  assert (earliest_of chain (ns (findEarliest c)) \/ hasAnyDeferred chain = false ->
          (forall c', c' ∈ chain -> d_deadlineMapEmpty c' = false -> ns (findEarliest c) <= d_deadlineMapEarliest c' * 1000) ->
          earliest_of (c :: chain) (ns (findEarliest c))) as Hown.
  { intros Hd Hle. unfold earliest_of. cbn [hasAnyDeferred existsb] in *. rewrite Eq. cbn [negb orb]. split; [lia|]. split.
    - intros Hb. destruct Hd as [(_ & H2 & _)|?]; [by apply H2|]. unfold hasAnyDeferred in *. congruence.
    - split; [intros c' [->|Hin]%elem_of_cons He; [lia|by apply Hle]|]. intros _. exists c. split; [by left|done]. }
  destruct (earliest chain) as [p|].
  - destruct IH as [_ IH]. rewrite ti_ltb_ns. destruct (Z.ltb_spec (ns p) (ns (findEarliest c))); split; try done.
    + eapply earliest_of_parents; [done|done|done|]. intros _. lia.
    + destruct IH as (H1 & H2 & H3 & H4). destruct (hasAnyDeferred chain) eqn:Ed.
      * rewrite H2 in * by done. assert (ns (findEarliest c) = 0) as E0 by lia. rewrite E0 in *.
        apply Hown; [left|]; [split; [lia|]; split; [done|]; split; [|by rewrite Ed]|]; intros c' Hin He; by apply H3.
      * apply Hown; [by right|]. intros c' Hin He. specialize (H3 c' Hin He). lia.
  - split; [done|]. apply Hown.
    + right. unfold hasAnyDeferred. clear -IH. induction chain as [|c' chain IHc]; [done|]. cbn [existsb] in *.
      apply orb_false_iff in IH as [[_ Hb]%orb_false_iff IH]. by rewrite Hb, IHc.
    + intros c' Hin He. assert (existsb (fun c => negb (d_deadlineMapEmpty c) || negb (d_functorQueueEmpty c)) chain = true) as Hb.
      { apply existsb_exists. exists c'. split; [by apply list_elem_of_In|]. by rewrite He. }
      congruence.
Qed.

(** C14: the timeout of a driver over a chain of chronologies is -1 exactly when
    nothing is scheduled or deferred, 0 when something is deferred, never past the
    deadline of any timer, within a millisecond of the earliest deadline that the
    chronologies recorded, and at most the largest [int]. *)
Theorem timeout_bounds (now : T) chain :
  well_formed chain -> 0 <= ns now ->
  let ms := timeoutInMilliseconds now chain in
  (ms = -1 <-> hasAnyScheduledOrDeferred chain = false) /\
  -1 <= ms <= INT_MAX /\
  (hasAnyDeferred chain = true -> ms = 0) /\
  (forall c L out e, c ∈ chain -> wf c L out -> e ∈ L ->
     ns now + ms * 1000000 <= Z.max (ns now) (key_of e * 1000)) /\
  (hasAnyDeferred chain = false -> 0 <= ms < INT_MAX ->
     exists c, c ∈ chain /\ d_deadlineMapEmpty c = false /\
       d_deadlineMapEarliest c * 1000 < ns now + (ms + 1) * 1000000).
Proof.
  intros Hw Hnow ms. subst ms. pose proof (earliest_spec chain Hw) as He. unfold timeoutInMilliseconds, timeoutInterval.
  destruct (earliest chain) as [p|].
  - destruct He as (Hs & H1 & H2 & H3 & H4). rewrite ti_ltb_ns.
    set (d := if ns now <? ns p then ti_sub p now else ti_make 0 0).
    assert (ns d = Z.max 0 (ns p - ns now)) as Hd.
    { unfold d. destruct (Z.ltb_spec (ns now) (ns p)); [|rewrite ns_zero; lia].
      rewrite ti_sub_ns; [lia|]. unfold representable, S64_MIN, S64_MAX, NANO in *. lia. }
    rewrite ti_totalMilliseconds_ns by lia. rewrite Hd. unfold INT_MAX.
    pose proof (Z.div_mod (Z.max 0 (ns p - ns now)) 1000000 ltac:(done)) as Hdiv.
    pose proof (Z.mod_pos_bound (Z.max 0 (ns p - ns now)) 1000000 ltac:(lia)) as Hmod.
    set (q := Z.max 0 (ns p - ns now) / 1000000) in *.
    assert (0 <= q) as Hq by (apply Z.div_pos; lia).
    assert (0 <= (if q <=? 2 ^ 31 - 1 then q else 2 ^ 31 - 1) <= q) as Hms by (destruct (Z.leb_spec q (2 ^ 31 - 1)); lia).
    assert ((if q <=? 2 ^ 31 - 1 then q else 2 ^ 31 - 1) <= 2 ^ 31 - 1) as Hmax by (destruct (Z.leb_spec q (2 ^ 31 - 1)); lia).
    split; [rewrite Hs; split; [lia|done]|]. split; [lia|]. split.
    + intros E%H2. destruct (Z.leb_spec q (2 ^ 31 - 1)); lia.
    + split.
      * intros c L out e Hin Hwf He. pose proof (s_earliest _ _ (w_scheduled _ _ _ Hwf)) as [_ Hle].
        rewrite list.Forall_forall in Hle. specialize (Hle e He). pose proof (H3 c Hin) as H3c.
        rewrite (s_empty _ _ (w_scheduled _ _ _ Hwf)) in H3c. destruct L; [by apply elem_of_nil in He|]. specialize (H3c eq_refl).
        cbn in Hle. lia.
      * intros Hnd [_ Hlt]. destruct (H4 Hnd) as (c & Hin & Hemp & E). exists c. split; [done|]. split; [done|].
        rewrite <- E. destruct (Z.leb_spec q (2 ^ 31 - 1)); lia.
  - rewrite He. split; [done|]. split; [unfold INT_MAX; lia|]. split; [|split; [|lia]].
    + intros Hd. exfalso. unfold hasAnyScheduledOrDeferred, hasAnyDeferred in *.
      apply existsb_exists in Hd as (c & Hin & Hc). apply not_true_iff_false in He. apply He, existsb_exists.
      exists c. split; [done|]. by rewrite Hc, orb_true_r.
    + intros c L out e Hin Hwf Hel. lia.
Qed.

End Theorems.

(** ** Instances

    Time in nanoseconds, and the deadlines in the skip list. *)

Section Instances.



#[local] Existing Instance SkipListTheorems.listed_levels.
#[local] Existing Instance SkipListTheorems.listed_levels_laws.
#[local] Instance no_draws : Rand := { RAND_MAX := 2147483647; rand _ := 0 }.

#[local] Instance no_draws_laws : RandLaws.
Proof. split; [done|]. intros i. cbn. lia. Qed.

Abbreviation deadlines := (SkipList.t nat (list nat)) (only parsing).

Definition no_deadlines : deadlines := SkipList.initialize [1; 0; 2; 0]%nat.

Lemma no_deadlines_models : models no_deadlines [].
Proof. apply SkipListFacts.initialize_spec. Qed.

Definition ms (n : Z) : Nanos := n * 1000000.

(** The state after a script, which the lemma shows to be reachable. *)
Definition after (serial : bool) (script : list (action Nanos)) : system Nanos deadlines :=
  default (initial no_deadlines) (perform_all serial script (initial no_deadlines)).

Lemma after_reachable serial script :
  bool_decide (is_Some (perform_all serial script (initial no_deadlines))) = true ->
  reachable serial no_deadlines (after serial script).
Proof.
  intros [s E]%bool_decide_eq_true. unfold after. rewrite E. by eapply perform_all_reachable.
Qed.

(** The sections of a thread, one after the other. *)
Definition steps (n : nat) (thread : nat) (now : Nanos) : list (action Nanos) := repeat (Step thread now now) n.

Definition plain_options : TimerOptions.t Nanos := TimerOptions.reset.

Definition one_shot : TimerOptions.t Nanos := TimerOptions.setOneShot true TimerOptions.reset.

(** Two timers, one of them one-shot and the other recurring, and a function. *)
Definition two_timers : list (action Nanos) :=
  Create one_shot (Callback 0) :: steps 1 0 (ms 0) ++
  Create plain_options (Session 0) :: steps 1 0 (ms 0) ++
  Call 0 (ScheduleLock 0 (ms 30) (ms 0)) :: steps 3 0 (ms 1) ++
  Call 1 (ScheduleLock 1 (ms 10) (ms 15)) :: steps 3 0 (ms 1) ++
  [Defer (Execute (Function 7))] ++ steps 1 0 (ms 1).

(** All that is due at 40 milliseconds is announced. *)
Definition announcement : list (action Nanos) := Defer (Pop false) :: steps 20 0 (ms 40).

Definition announced_handlers (s : system Nanos deadlines) : list (handler * TimerEventType.t) :=
  announced_events (outputs s).

Example two_timers_run :
  announced_handlers (after true (two_timers ++ announcement)) =
    [(Session 0, e_DEADLINE); (Callback 0, e_DEADLINE); (Callback 0, e_CLOSED)].
Proof. vm_compute. reflexivity. Qed.

(** ** Instances of the properties *)

(** The drained chronology, after the run above and the end of the timers. *)
Definition drained : list (action Nanos) :=
  two_timers ++ announcement ++
  Call 1 (CloseLock 1) :: steps 5 0 (ms 41) ++
  Defer (Pop false) :: steps 9 0 (ms 41) ++
  Drop 0 :: steps 4 0 (ms 42) ++ Drop 1 :: steps 4 0 (ms 42).

Lemma chronology_safe_witness :
  (exists L, wf (chronology (after true two_timers)) L (outside (after true two_timers))) /\
  (forall before k rest after' now exactlyNow,
     threads (after true two_timers) = before ++ (k :: rest) :: after' -> period_ok now ->
     exists ks outs c, run_task now exactlyNow k (chronology (after true two_timers)) = Some (ks, outs, c)).
Proof.
  apply (chronology_safe true no_deadlines); [apply no_deadlines_models|].
  apply after_reachable. vm_compute. reflexivity.
Defined.

Lemma chronology_drained_destroys_witness :
  d_nodes (chronology (after true drained)) = ∅ /\ destroy (chronology (after true drained)) = Some tt.
Proof.
  apply (chronology_drained_destroys true no_deadlines); [apply no_deadlines_models| |vm_compute; reflexivity..].
  apply after_reachable. vm_compute. reflexivity.
Defined.

Lemma timer_events_protocol_witness :
  (forall h o, created (after true drained) !! h = Some o ->
     protocol (TimerOptions.oneShot o) (history h (outputs (after true drained))) = true) /\
  same (announced_events (outputs (after true drained)) ++ events (created (after true drained)) (running (after true drained))
          ++ functors_events (d_functorQueue (chronology (after true drained))) ++ dropped_events (outputs (after true drained)))
    (wanted (created (after true drained)) (decided (outputs (after true drained)))).
Proof.
  assert (reachable true no_deadlines (after true drained)) as Hr
    by (apply after_reachable; vm_compute; reflexivity).
  destruct (timer_events_protocol true no_deadlines _ no_deadlines_models Hr) as (Hp & Ha & _).
  split; [exact Hp|exact Ha].
Defined.

(** The two timers, in the state before they are announced. *)
Definition scheduled_timer (serial : bool) (script : list (action Nanos)) (n : nat) : timer Nanos :=
  default {| d_options := plain_options; d_callback := None; d_session_sp := None; d_period := 0;
             d_state := e_STATE_CLOSED; d_deadlineMapHandle := None; d_refs := 0 |}
    (d_nodes (chronology (after serial script)) !! n).

Lemma scheduled_timer_pending_witness :
  let s := after true two_timers in
  let tm := scheduled_timer true two_timers 1 in
  (exists handle key, d_deadlineMapHandle tm = Some handle /\
     dm_key (d_deadlineMap (chronology s)) handle = Some key /\ dm_data (d_deadlineMap (chronology s)) handle = Some 1%nat /\
     d_deadlineMapEmpty (chronology s) = false /\ d_deadlineMapEarliest (chronology s) <= key) \/
  (exists us, ScheduleMap 1 us ∈ running s) \/
  (exists now deadline, Arrive 1 now deadline ∈ running s).
Proof.
  apply (scheduled_timer_pending no_deadlines); [apply no_deadlines_models| |vm_compute; reflexivity..].
  apply after_reachable. vm_compute. reflexivity.
Defined.

Lemma two_timers_wf : exists L, wf (chronology (after true two_timers)) L (outside (after true two_timers)).
Proof.
  destruct (reachable_safe true no_deadlines (after true two_timers) no_deadlines_models) as (L & Hwf & _); [|by exists L].
  apply after_reachable. vm_compute. reflexivity.
Defined.

Lemma announce_pops_due_witness :
  exists L, let c := chronology (after true two_timers) in
  let out := outside (after true two_timers) in
  wf c L out /\
  exists functorsDue timersDue done c' L',
    announce_map false (ms 40) c = Some (functorsDue, timersDue, done, c') /\
    wf c' L' (queue_refs functorsDue ++ (Ref ∘ d_node_p <$> timersDue) ++ out) /\
    functorsDue = d_functorQueue c.
Proof.
  destruct two_timers_wf as [L Hwf]. exists L. split; [exact Hwf|].
  destruct (announce_pops_due false (ms 40) _ _ _ Hwf) as (fs & ts & dn & c' & L' & E & Hwf' & Hf & _).
  - split; rewrite Nanos_ns; vm_compute; discriminate.
  - exists fs, ts, dn, c', L'. split; [exact E|]. split; [exact Hwf'|exact Hf].
Defined.

Lemma timeout_bounds_witness :
  timeoutInMilliseconds (ms 1) [chronology (after true (take 12 two_timers))] = 9 /\
  -1 <= timeoutInMilliseconds (ms 1) [chronology (after true two_timers)] <= INT_MAX /\
  (hasAnyDeferred [chronology (after true two_timers)] = true ->
   timeoutInMilliseconds (ms 1) [chronology (after true two_timers)] = 0).
Proof.
  split; [vm_compute; reflexivity|].
  destruct (timeout_bounds (ms 1) [chronology (after true two_timers)]) as (_ & H1 & H2 & _).
  - intros c Hin. apply list_elem_of_singleton in Hin. rewrite Hin. destruct two_timers_wf as [L Hwf].
    exists L, (outside (after true two_timers)). exact Hwf.
  - vm_compute. discriminate.
  - split; [exact H1|exact H2].
Defined.

(** ** What one might not expect *)

(** A plain timer scheduled at 10 milliseconds is popped by a driver at 20, and
    before it arrives the application schedules it again at 100. *)
Definition rescheduled : list (action Nanos) :=
  Create plain_options (Callback 0) :: steps 1 0 (ms 0) ++
  Call 0 (ScheduleLock 0 (ms 10) (ms 0)) :: steps 4 0 (ms 1) ++
  Defer (Pop false) :: steps 1 0 (ms 20) ++
  Call 0 (ScheduleLock 0 (ms 100) (ms 0)) :: steps 4 0 (ms 20) ++
  steps 4 1 (ms 20).

(** The arrival resets the state that [schedule] set: the second deadline is
    popped in silence, and until then the timer cannot be cancelled. *)
Lemma rescheduled_deadline_lost :
  let s := after true (rescheduled ++ Call 0 (CancelLock 0) :: steps 4 0 (ms 50) ++ Defer (Pop false) :: steps 4 0 (ms 200)) in
  numScheduled (chronology (after true rescheduled)) = 1%nat /\
  announced_handlers s = [(Callback 0, e_DEADLINE)] /\
  Returned 0 Error.e_INVALID ∈ outputs s /\
  numScheduled (chronology s) = 0%nat /\ running s = [].
Proof.
  cbv zeta. split; [vm_compute; reflexivity|]. split; [vm_compute; reflexivity|].
  split; [|vm_compute; by split]. apply list_elem_of_In. vm_compute. tauto.
Qed.

(** [cancel] and [schedule] of one timer at the same time: the second section of
    [cancel] removes the pair that [schedule] has added. *)
Definition cancelled_schedule : list (action Nanos) :=
  Create plain_options (Callback 0) :: steps 1 0 (ms 0) ++
  Call 0 (ScheduleLock 0 (ms 10) (ms 0)) :: steps 4 0 (ms 1) ++
  Call 0 (CancelLock 0) :: steps 1 0 (ms 2) ++
  Call 0 (ScheduleLock 0 (ms 20) (ms 0)) :: steps 4 0 (ms 2) ++
  steps 4 1 (ms 3).

Lemma scheduled_timer_never_fires :
  let s := after false (cancelled_schedule ++ Defer (Pop false) :: steps 4 0 (ms 100)) in
  d_state (scheduled_timer false cancelled_schedule 0) = e_STATE_SCHEDULED /\
  running (after false cancelled_schedule) = [] /\
  numScheduled (chronology (after false cancelled_schedule)) = 0%nat /\
  announced_handlers s = [(Callback 0, e_CANCELED)].
Proof. vm_compute. by repeat split. Qed.

(** A one-shot timer with a period is closed by its first deadline but stays in
    the map: it can be neither cancelled nor closed, and the driver is woken at
    every period. *)
Definition one_shot_recurring : list (action Nanos) :=
  Create one_shot (Callback 0) :: steps 1 0 (ms 0) ++
  Call 0 (ScheduleLock 0 (ms 10) (ms 5)) :: steps 4 0 (ms 1) ++
  Defer (Pop false) :: steps 6 0 (ms 10) ++
  Call 0 (CancelLock 0) :: steps 4 0 (ms 11) ++
  Call 0 (CloseLock 0) :: steps 4 0 (ms 11) ++
  Drop 0 :: steps 2 0 (ms 12) ++
  Defer (Pop false) :: steps 4 0 (ms 1000).

Lemma one_shot_recurring_never_leaves :
  let s := after true one_shot_recurring in
  announced_handlers s = [(Callback 0, e_DEADLINE); (Callback 0, e_CLOSED)] /\
  held s = [] /\ running s = [] /\ numScheduled (chronology s) = 1%nat /\ destroy (chronology s) = None /\
  timeoutInMilliseconds (ms 1000) [chronology s] = 0.
Proof. vm_compute. by repeat split. Qed.

(** Two threads announce: a deadline arrives after the timer was closed. *)
Lemma deadline_after_closed :
  announced_handlers (after true
    (Create plain_options (Callback 0) :: steps 1 0 (ms 0) ++
     Call 0 (ScheduleLock 0 (ms 10) (ms 0)) :: steps 4 0 (ms 1) ++
     Defer (Pop false) :: steps 2 0 (ms 10) ++
     Call 0 (CloseLock 0) :: steps 5 0 (ms 10) ++
     Defer (Pop false) :: steps 4 0 (ms 10) ++
     steps 4 2 (ms 11))) = [(Callback 0, e_CLOSED); (Callback 0, e_DEADLINE)].
Proof. vm_compute. reflexivity. Qed.

(** [announce] of a single event takes every timer that is due. *)
Lemma single_announcement_takes_all_timers :
  match announce_map true (ms 40) (drain_map (chronology (after true two_timers))).2 with
  | Some (_, timersDue, _, _) => d_node_p <$> timersDue = [1; 0]%nat
  | None => False
  end.
Proof. vm_compute. reflexivity. Qed.

(** After [clear] a timer keeps the handle of a pair that is no more. *)
Lemma cleared_handle_dangles :
  match clear (chronology (after true two_timers)) with
  | Some (_, nodes, c) => nodes = [1; 0]%nat /\ numScheduled c = 0%nat /\ unschedule_map 0 c = None
  | None => False
  end.
Proof. vm_compute. by repeat split. Qed.

(** The largest period that [schedule] accepts overflows when it recurs. *)
Lemma longest_period_overflows :
  match schedule_lock 0 k_MAX_TIME_INTERVAL (chronology (after true two_timers)) with
  | Some (true, c) => announce_map false (ms 40) c = None
  | _ => False
  end.
Proof. vm_compute. reflexivity. Qed.

(** [closeAll] reads the reference count of a timer that [createTimer] has still
    to construct. *)
Lemma closeAll_reads_unconstructed :
  closeAll_map (chronology (after true [Create plain_options (Callback 0)])) = None.
Proof. vm_compute. reflexivity. Qed.

End Instances.

End ChronologyTheorems.
