(* ===== verification/Sections.v ===== *)
(** * Critical sections

    A section of a mutex is a function on the state that the mutex guards: it
    returns a result, the state it leaves and the effects it has, in order, or
    fails an assertion.  [wp] is the logic of such programs: what a section
    establishes, and that it fails no assertion, or does only in a given case. *)

From S2P Require Import Prelude.

Module Sections.

Section Monad.

Context {S E : Type}.

Definition M (A : Type) : Type := S -> option (A * S * list E).

Definition ret {A} (x : A) : M A := fun s => Some (x, s, []).

Definition bind {A B} (m : M A) (k : A -> M B) : M B := fun s =>
  '(x, s, l) ← m s;
  '(y, s, l') ← k x s;
  Some (y, s, l ++ l').

Definition get : M S := fun s => Some (s, s, []).
Definition modify (f : S -> S) : M unit := fun s => Some (tt, f s, []).
Definition emit (l : list E) : M unit := fun s => Some (tt, s, l).
Definition lift {A} (x : option A) : M A := fun s => a ← x; Some (a, s, []).
Definition assert (b : bool) : M unit := fun s => if b then Some (tt, s, []) else None.
Definition when (b : bool) (m : M unit) : M unit := if b then m else ret tt.

(** A run of a sequence of two. *)
Lemma bind_run {A B} (m : M A) (k : A -> M B) s x s' l :
  bind m k s = Some (x, s', l) ->
  exists y s1 l1 l2, m s = Some (y, s1, l1) /\ k y s1 = Some (x, s', l2) /\ l = l1 ++ l2.
Proof.
  unfold bind. intros Hx. apply bind_Some in Hx as ([[y s1] l1] & H1 & Hx).
  apply bind_Some in Hx as ([[z s2] l2] & H2 & Hx). injection Hx as -> -> <-. by exists y, s1, l1, l2.
Qed.

(** ** The logic *)

Section Logic.

(** When an assertion may fail. *)
Context (lim : Prop).

Definition wp {A} (m : M A) (s : S) (Q : A -> S -> list E -> Prop) : Prop :=
  match m s with Some (x, s', l) => Q x s' l | None => lim end.

Lemma wp_ret {A} (x : A) s (Q : A -> S -> list E -> Prop) : Q x s [] -> wp (ret x) s Q.
Proof. done. Qed.

Lemma wp_bind {A B} (m : M A) (k : A -> M B) s (Q : B -> S -> list E -> Prop) :
  wp m s (fun x s' l => wp (k x) s' (fun y s'' l' => Q y s'' (l ++ l'))) -> wp (bind m k) s Q.
Proof.
  unfold wp, bind. destruct (m s) as [[[x s'] l]|]; [|done]. cbn [mbind option_bind].
  by destruct (k x s') as [[[y s''] l']|].
Qed.

Lemma wp_get s (Q : S -> S -> list E -> Prop) : Q s s [] -> wp get s Q.
Proof. done. Qed.

Lemma wp_modify f s (Q : unit -> S -> list E -> Prop) : Q tt (f s) [] -> wp (modify f) s Q.
Proof. done. Qed.

Lemma wp_emit l s (Q : unit -> S -> list E -> Prop) : Q tt s l -> wp (emit l) s Q.
Proof. done. Qed.

Lemma wp_lift {A} (x : option A) s (Q : A -> S -> list E -> Prop) :
  (forall a, x = Some a -> Q a s []) -> (x = None -> lim) -> wp (lift x) s Q.
Proof. unfold wp, lift. destruct x; simpl; auto. Qed.

Lemma wp_assert b s (Q : unit -> S -> list E -> Prop) :
  (b = true -> Q tt s []) -> (b = false -> lim) -> wp (assert b) s Q.
Proof. unfold wp, assert. destruct b; auto. Qed.

Lemma wp_when b (m : M unit) s (Q : unit -> S -> list E -> Prop) :
  (b = true -> wp m s Q) -> (b = false -> Q tt s []) -> wp (when b m) s Q.
Proof. unfold when. destruct b; intros Ht Hf; [by apply Ht|by apply Hf]. Qed.

Lemma wp_mono {A} (m : M A) s (Q Q' : A -> S -> list E -> Prop) :
  wp m s Q -> (forall x s' l, Q x s' l -> Q' x s' l) -> wp m s Q'.
Proof. unfold wp. destruct (m s) as [[[x s'] l]|]; auto. Qed.

Lemma wp_conj {A} (m : M A) s (Q Q' : A -> S -> list E -> Prop) :
  wp m s Q -> wp m s Q' -> wp m s (fun x s' l => Q x s' l /\ Q' x s' l).
Proof. unfold wp. destruct (m s) as [[[x s'] l]|]; auto. Qed.

Lemma wp_run {A} (m : M A) s (Q : A -> S -> list E -> Prop) x s' l :
  wp m s Q -> m s = Some (x, s', l) -> Q x s' l.
Proof. unfold wp. intros Hw E'. by rewrite E' in Hw. Qed.

End Logic.

End Monad.

Arguments M : clear implicits.

(** ** What every run of a section respects

    A relation between the state before, the state after and the effects that
    composes along sequences. *)

Class Transition {S E : Type} (R : S -> S -> list E -> Prop) : Prop := {
  transition_refl : forall s, R s s [];
  transition_trans : forall s s' s'' l k, R s s' l -> R s' s'' k -> R s s'' (l ++ k)
}.

Section Always.
Context {S E : Type} (R : S -> S -> list E -> Prop) `{!Transition R}.
#[local] Abbreviation M := (M S E).

Definition always {A} (m : M A) : Prop := forall s x s' l, m s = Some (x, s', l) -> R s s' l.

Lemma always_ret {A} (x : A) : always (ret x).
Proof. intros s ? ? ? [= <- <- <-]. apply transition_refl. Qed.

Lemma always_bind {A B} (m : M A) (k : A -> M B) :
  always m -> (forall x, always (k x)) -> always (bind m k).
Proof.
  intros Hm Hk s x s' l (y & s1 & l1 & l2 & H1 & H2 & ->)%bind_run.
  apply (transition_trans _ s1); [by apply (Hm s y)|by apply (Hk y s1 x)].
Qed.

(** A section that reads the state to decide what to do with it. *)
Lemma always_read {B} (k : S -> M B) :
  (forall s x s' l, k s s = Some (x, s', l) -> R s s' l) -> always (bind get k).
Proof.
  intros Hk s x s' l (y & s1 & l1 & l2 & [= <- <- <-] & H2 & ->)%bind_run. by apply (Hk s x).
Qed.

Lemma always_get {B} (k : S -> M B) : (forall s, always (k s)) -> always (bind get k).
Proof. intros Hk. apply always_read. intros s. apply Hk. Qed.

Lemma always_modify f : (forall s, R s (f s) []) -> always (modify f).
Proof. intros Hf s ? ? ? [= <- <- <-]. apply Hf. Qed.

Lemma always_emit l : (forall s, R s s l) -> always (emit l).
Proof. intros Hl s ? ? ? [= <- <- <-]. apply Hl. Qed.

Lemma always_lift {A} (x : option A) : always (lift x).
Proof.
  intros s y s' l Hx. destruct x; [injection Hx as <- <- <-|done]. apply transition_refl.
Qed.

Lemma always_assert b : always (assert b).
Proof.
  intros s y s' l Hx. unfold assert in Hx. destruct b; [injection Hx as <- <- <-|done].
  apply transition_refl.
Qed.

Lemma always_when b (m : M unit) : always m -> always (when b m).
Proof. intros Hm. unfold when. destruct b; [done|apply always_ret]. Qed.

(** *** From a state that is known *)

Definition from {A} (s : S) (m : M A) : Prop := forall x s' l, m s = Some (x, s', l) -> R s s' l.

Lemma always_from {A} (m : M A) : (forall s, from s m) -> always m.
Proof. intros Hm s x s' l. apply Hm. Qed.

Lemma from_always {A} s (m : M A) : always m -> from s m.
Proof. intros Hm x s' l. apply Hm. Qed.

Lemma from_bind {A B} s (m : M A) (k : A -> M B) :
  from s m -> (forall x s' l, m s = Some (x, s', l) -> from s' (k x)) -> from s (bind m k).
Proof.
  intros Hm Hk x s' l (y & s1 & l1 & l2 & H1 & H2 & ->)%bind_run.
  apply (transition_trans _ s1); [by apply (Hm y)|by apply (Hk y s1 l1 H1 x)].
Qed.

Lemma from_get {B} s (k : S -> M B) : from s (k s) -> from s (bind get k).
Proof. intros Hk x s' l (y & s1 & l1 & l2 & [= <- <- <-] & H2 & ->)%bind_run. by apply (Hk x). Qed.

Lemma from_modify {B} s f (k : unit -> M B) :
  R s (f s) [] -> from (f s) (k tt) -> from s (bind (modify f) k).
Proof.
  intros Hf Hk. apply from_bind; [by intros ? ? ? [= <- <- <-]|].
  by intros [] ? ? [= <- <-].
Qed.

Lemma from_emit {B} s l (k : unit -> M B) : R s s l -> from s (k tt) -> from s (bind (emit l) k).
Proof.
  intros Hl Hk. apply from_bind; [by intros ? ? ? [= <- <- <-]|].
  by intros [] ? ? [= <- <-].
Qed.

Lemma from_lift {A B} s (y : option A) (k : A -> M B) :
  (forall x, y = Some x -> from s (k x)) -> from s (bind (lift y) k).
Proof.
  intros Hk. apply from_bind; [apply from_always, always_lift|].
  intros x s' l Hx. destruct y; [|done]. injection Hx as -> <- <-. by apply Hk.
Qed.

Lemma from_call {A B} s (m : M A) (k : A -> M B) :
  always m -> (forall x s', from s' (k x)) -> from s (bind m k).
Proof. intros Hm Hk. apply from_bind; [by apply from_always|]. intros x s' l _. apply Hk. Qed.

Lemma always_wp {A} (m : M A) : (forall s, wp True m s (fun _ s' l => R s s' l)) -> always m.
Proof. intros Hm s x s' l Hx. specialize (Hm s). unfold wp in Hm. by rewrite Hx in Hm. Qed.

(** What every run respects, a run that does not fail respects too. *)
Lemma wp_respects lim {A} (m : M A) s (Q : A -> S -> list E -> Prop) :
  always m -> wp lim m s (fun x s' l => R s s' l -> Q x s' l) -> wp lim m s Q.
Proof.
  unfold wp. intros Hm. specialize (Hm s). destruct (m s) as [[[x s'] l]|]; [|done].
  intros HQ. by apply HQ, (Hm x).
Qed.

End Always.

(** One step through a section, for such a relation; what it does to the state
    and its effects are left. *)
Ltac always_step :=
  lazymatch goal with
  | |- always ?R (ret _) => apply (always_ret R)
  | |- always ?R (bind get _) => apply (always_get R); intros ?
  | |- always ?R (bind _ _) => apply (always_bind R); [|intros ?]
  | |- always ?R (modify _) => apply (always_modify R); intros ?
  | |- always ?R (emit _) => apply (always_emit R); intros ?
  | |- always ?R (lift _) => apply (always_lift R)
  | |- always ?R (assert _) => apply (always_assert R)
  | |- always ?R (when _ _) => apply (always_when R)
  | |- always _ (match ?x with _ => _ end) => destruct x
  end.

(** The same from a known state. *)
Ltac from_step :=
  lazymatch goal with
  | |- from ?R _ (bind get _) => apply (from_get R)
  | |- from ?R _ (bind (modify _) _) => apply (from_modify R)
  | |- from ?R _ (bind (emit _) _) => apply (from_emit R)
  | |- from ?R _ (bind (lift _) _) => apply (from_lift R); intros ? ?
  | |- from ?R _ (bind (assert _) _) => apply (from_call R); [apply (always_assert R)|intros [] ?]
  | |- from ?R _ (bind _ _) => apply (from_call R); [|intros ? ?]
  | |- from ?R _ (modify _) => intros ? ? ? [= <- <- <-]
  | |- from ?R _ (emit _) => intros ? ? ? [= <- <- <-]
  | |- from ?R _ (match ?x with _ => _ end) => destruct x eqn:?
  | |- from ?R _ (when ?b _) => destruct b; cbn [when]
  | |- from ?R _ _ => apply (from_always R)
  end.

(** Steps through a section up to the next call that has a lemma of its own. *)
Ltac section_step :=
  lazymatch goal with
  | |- wp _ (ret _) _ _ => apply wp_ret
  | |- wp _ (bind _ _) _ _ => apply wp_bind
  | |- wp _ get _ _ => apply wp_get
  | |- wp _ (modify _) _ _ => apply wp_modify
  | |- wp _ (emit _) _ _ => apply wp_emit
  | |- wp _ (when _ _) _ _ => apply wp_when; intros ?
  | |- wp _ (assert _) _ _ => apply wp_assert; intros ?
  | |- wp _ (lift _) _ _ => apply wp_lift; [intros ? ?|intros ?]
  end.
Ltac section_steps := repeat (section_step; cbn beta).

End Sections.
