(* ===== verification/StreamSocket.v ===== *)
(** * The send side of the stream socket

    [ntcr_streamsocket.cpp]: how a stream socket that is neither encrypted nor
    compressed sends. A message is written directly when nothing is queued;
    what the operating system does not take is queued, and written when the
    socket is writable, several entries in one gather write when possible.
    The component composes the send queue, the zero-copy queue, the flow
    control and shutdown states and the rate limiter.

    The definitions follow the critical sections of the socket's mutex. Where
    a callback or an announcement may run with the mutex released, what the
    code does to the state after it is a definition of its own, and the
    transition system of [StreamSocketTheorems] lets other sections come in
    between; a function of the code that has several sections is their
    composition. What a section does besides changing the state is the list
    of its effects, in order; a callback is in the list of the section that
    takes it out of the state. *)

From S2P Require Import Prelude Errors Buffers Watermark SendQueue ZeroCopy SocketState.
From S2P Require Import TimeInterval RateLimiter Sections.

(** ** [ntci::RateLimiter]: the interface the socket throttles itself with *)
Class LimiterOps (L TI : Type) : Type := {
  limiter_wouldExceedBandwidth : L -> TI -> option (L * bool);
  limiter_calculateTimeToSubmit : L -> TI -> option (L * TI);
  limiter_submit : L -> Z -> option L
}.

#[export] Instance RateLimiter_LimiterOps (TI : Type) `{TimeIntervalOps TI}
  : LimiterOps (RateLimiter.t TI) TI := {
  limiter_wouldExceedBandwidth := RateLimiter.wouldExceedBandwidth;
  limiter_calculateTimeToSubmit := RateLimiter.calculateTimeToSubmit;
  limiter_submit := RateLimiter.submit
}.

(** The context of a send operation, of which the socket sets the token. *)
Class SendContextOps {T : SendTypes} : Type := {
  SendContext_setToken : Z -> SendContext -> SendContext;
  SendContext_setToken_token : forall k c,
    SendContext_token (SendContext_setToken k c) = Some k
}.

Module StreamSocket.
Export Sections.
Section Socket.
Context {Blob : Type} `{BlobOps Blob} {T : SendTypes} `{!SendContextOps}.
Context {L TI : Type} `{LimiterOps L TI}.
(** [ntsu::SocketUtil::maxBuffersPerSend] *)
Context (maxBuffersPerSend : Z).
#[local] Abbreviation Entry := (SendQueueEntry.t Blob).
#[local] Abbreviation Data := (Data.t Blob).

Definition k_ZERO_COPY_NEVER : Z := U64_MAX.
Definition SEND_BUFFER_REFRESH_INTERVAL : Z := 100.
Definition SEND_BUFFER_REFRESH_SIZE_THRESHOLD : Z := 1024 * 16.

(** What does not change while the socket sends. *)
Record Config : Type := mkConfig {
  d_socket : bool;
  d_session : bool;
  d_oneShot : bool;
  d_sendGreedily : bool;
  d_keepHalfOpen : bool;
  d_abortiveClose : bool;
  d_timestampOutgoingData : bool
}.

Record t : Type := mk {
  d_config : Config;
  d_openState : OpenState.t;
  d_flowControlState : FlowControlState.t;
  d_shutdownState : ShutdownState.t;
  d_zeroCopyQueue : ZeroCopyQueue.t Blob;
  d_zeroCopyThreshold : Z;
  d_sendOptions : SendOptions;
  d_sendQueue : SendQueue.t Blob;
  d_sendRateLimiter : option L;
  d_sendRateTimer : bool;
  d_sendCounter : Z;
  d_timestampCounter : Z;
  d_totalBytesSent : Z
}.

Definition set_openState (v : OpenState.t) (s : t) : t :=
  mk (d_config s) v (d_flowControlState s) (d_shutdownState s) (d_zeroCopyQueue s)
     (d_zeroCopyThreshold s) (d_sendOptions s) (d_sendQueue s) (d_sendRateLimiter s)
     (d_sendRateTimer s) (d_sendCounter s) (d_timestampCounter s) (d_totalBytesSent s).
Definition set_flowControlState (v : FlowControlState.t) (s : t) : t :=
  mk (d_config s) (d_openState s) v (d_shutdownState s) (d_zeroCopyQueue s)
     (d_zeroCopyThreshold s) (d_sendOptions s) (d_sendQueue s) (d_sendRateLimiter s)
     (d_sendRateTimer s) (d_sendCounter s) (d_timestampCounter s) (d_totalBytesSent s).
Definition set_shutdownState (v : ShutdownState.t) (s : t) : t :=
  mk (d_config s) (d_openState s) (d_flowControlState s) v (d_zeroCopyQueue s)
     (d_zeroCopyThreshold s) (d_sendOptions s) (d_sendQueue s) (d_sendRateLimiter s)
     (d_sendRateTimer s) (d_sendCounter s) (d_timestampCounter s) (d_totalBytesSent s).
Definition set_zeroCopyQueue (v : ZeroCopyQueue.t Blob) (s : t) : t :=
  mk (d_config s) (d_openState s) (d_flowControlState s) (d_shutdownState s) v
     (d_zeroCopyThreshold s) (d_sendOptions s) (d_sendQueue s) (d_sendRateLimiter s)
     (d_sendRateTimer s) (d_sendCounter s) (d_timestampCounter s) (d_totalBytesSent s).
Definition set_zeroCopyThreshold (v : Z) (s : t) : t :=
  mk (d_config s) (d_openState s) (d_flowControlState s) (d_shutdownState s)
     (d_zeroCopyQueue s) v (d_sendOptions s) (d_sendQueue s) (d_sendRateLimiter s)
     (d_sendRateTimer s) (d_sendCounter s) (d_timestampCounter s) (d_totalBytesSent s).
Definition set_sendOptions (v : SendOptions) (s : t) : t :=
  mk (d_config s) (d_openState s) (d_flowControlState s) (d_shutdownState s)
     (d_zeroCopyQueue s) (d_zeroCopyThreshold s) v (d_sendQueue s) (d_sendRateLimiter s)
     (d_sendRateTimer s) (d_sendCounter s) (d_timestampCounter s) (d_totalBytesSent s).
Definition set_sendQueue (v : SendQueue.t Blob) (s : t) : t :=
  mk (d_config s) (d_openState s) (d_flowControlState s) (d_shutdownState s)
     (d_zeroCopyQueue s) (d_zeroCopyThreshold s) (d_sendOptions s) v (d_sendRateLimiter s)
     (d_sendRateTimer s) (d_sendCounter s) (d_timestampCounter s) (d_totalBytesSent s).
Definition set_sendRateLimiter (v : option L) (s : t) : t :=
  mk (d_config s) (d_openState s) (d_flowControlState s) (d_shutdownState s)
     (d_zeroCopyQueue s) (d_zeroCopyThreshold s) (d_sendOptions s) (d_sendQueue s) v
     (d_sendRateTimer s) (d_sendCounter s) (d_timestampCounter s) (d_totalBytesSent s).
Definition set_sendRateTimer (v : bool) (s : t) : t :=
  mk (d_config s) (d_openState s) (d_flowControlState s) (d_shutdownState s)
     (d_zeroCopyQueue s) (d_zeroCopyThreshold s) (d_sendOptions s) (d_sendQueue s)
     (d_sendRateLimiter s) v (d_sendCounter s) (d_timestampCounter s) (d_totalBytesSent s).
Definition set_sendCounter (v : Z) (s : t) : t :=
  mk (d_config s) (d_openState s) (d_flowControlState s) (d_shutdownState s)
     (d_zeroCopyQueue s) (d_zeroCopyThreshold s) (d_sendOptions s) (d_sendQueue s)
     (d_sendRateLimiter s) (d_sendRateTimer s) v (d_timestampCounter s) (d_totalBytesSent s).
Definition set_timestampCounter (v : Z) (s : t) : t :=
  mk (d_config s) (d_openState s) (d_flowControlState s) (d_shutdownState s)
     (d_zeroCopyQueue s) (d_zeroCopyThreshold s) (d_sendOptions s) (d_sendQueue s)
     (d_sendRateLimiter s) (d_sendRateTimer s) (d_sendCounter s) v (d_totalBytesSent s).
Definition set_totalBytesSent (v : Z) (s : t) : t :=
  mk (d_config s) (d_openState s) (d_flowControlState s) (d_shutdownState s)
     (d_zeroCopyQueue s) (d_zeroCopyThreshold s) (d_sendOptions s) (d_sendQueue s)
     (d_sendRateLimiter s) (d_sendRateTimer s) (d_sendCounter s) (d_timestampCounter s) v.

(** *** Effects *)

(** What is announced to the session. *)
Inductive Announcement : Type :=
| WriteQueueFlowControlApplied | WriteQueueFlowControlRelaxed
| ReadQueueFlowControlApplied | ReadQueueFlowControlRelaxed
| WriteQueueRateLimitApplied | WriteQueueRateLimitRelaxed
| WriteQueueLowWatermark | WriteQueueHighWatermark | WriteQueueDiscarded
| ReadQueueRateLimitApplied | ReadQueueRateLimitRelaxed
| ReadQueueLowWatermark | ReadQueueHighWatermark
| ShutdownInitiated | ShutdownSend | ShutdownReceive | ShutdownComplete | TransportError.

Inductive Effect : Type :=
| e_write (bytes : list byte)               (** the bytes the system accepted *)
| e_showWritable | e_hideWritable           (** calls of the reactor *)
| e_showReadable | e_hideReadable
| e_announce (a : Announcement) (defer : bool)
| e_dispatch (callback : SendCallback) (context : SendContext) (error : Error.t)
    (defer : bool)
| e_closeTimer (timer : Timer)
| e_schedule (timer : Timer) (deadline : Z)
| e_scheduleRateTimer (now timeToSubmit : TI)
| e_closeRateTimer
| e_shutdown (send : bool)                  (** the system shuts a direction down *)
| e_shutdownReceive                         (** what the receive side then does *)
| e_closed                    (** the handle is released, and it is told so *)
| e_saveTimestamp (timestamp : TI) (counter : Z).

(** A section of the socket's mutex. *)
Definition M (A : Type) : Type := Sections.M t Effect A.

#[local] Notation "'let*' x ':=' m 'in' k" := (bind m (fun x => k))
  (at level 10, x pattern, m at level 99, k at level 200).
#[local] Notation "'do*' m ';;' k" := (bind m (fun _ => k))
  (at level 10, m at level 99, k at level 200).

(** A closed socket has no session any more. *)
Definition announce (a : Announcement) (defer : bool) : M unit :=
  let* s := get in
  when (d_session (d_config s) && negb (bool_decide (d_openState s = OpenState.e_CLOSED)))
    (emit [e_announce a defer]).

(** *** Flow control *)

Definition privateRelaxFlowControl (direction : FlowControlType) (defer unlock : bool)
  : M unit :=
  let '(relaxSend, relaxReceive) := FlowControlState.selects direction in
  let* s := get in
  let '(fc, context, result) :=
    FlowControlState.relax direction unlock (d_flowControlState s) in
  do* modify (set_flowControlState fc) ;;
  when result
    (do* when (relaxSend && FlowControlContext.d_enableSend context
               && ShutdownState.canSend (d_shutdownState s))
           (do* emit [e_showWritable] ;; announce WriteQueueFlowControlRelaxed defer) ;;
     when (relaxReceive && FlowControlContext.d_enableReceive context
           && ShutdownState.canReceive (d_shutdownState s))
       (do* emit [e_showReadable] ;; announce ReadQueueFlowControlRelaxed defer)).

Definition privateApplyFlowControl (direction : FlowControlType) (defer lock : bool)
  : M unit :=
  let '(applySend, applyReceive) := FlowControlState.selects direction in
  let* s := get in
  let '(fc, context, result) :=
    FlowControlState.apply direction lock (d_flowControlState s) in
  do* modify (set_flowControlState fc) ;;
  when result
    (do* when (applySend && negb (FlowControlContext.d_enableSend context))
           (do* emit [e_hideWritable] ;; announce WriteQueueFlowControlApplied defer) ;;
     when (applyReceive && negb (FlowControlContext.d_enableReceive context))
       (do* emit [e_hideReadable] ;; announce ReadQueueFlowControlApplied defer)).

(** *** Writing to the socket *)

(** What a write meets: the time, the size of the send buffer when the system
    tells it, and the result of the system call, which fails or takes what it
    is given up to a limit, with zero-copy or without. *)
Inductive SendResult : Type :=
| Failed (error : Error.t)
| Sent (limit : Z) (zeroCopy : bool).

Record Env : Type := mkEnv {
  now : TI;
  sendBufferSize : option Z;
  sendResult : SendResult
}.

(** [ntsa::SendContext] *)
Record Written : Type := mkWritten { bytesSent : Z; zeroCopy : bool }.

Definition nothing : Written := mkWritten 0 false.

(** The two parts of [privateThrottleSendBuffer]: the announcement of flow
    control at the end of the first may run with the mutex released. *)
Definition privateThrottleSendBuffer_begin (env : Env) : M (option TI) :=
  let* s := get in
  match d_sendRateLimiter s with
  | None => ret None
  | Some limiter =>
      let* (limiter, exceeds) := lift (limiter_wouldExceedBandwidth limiter (now env)) in
      do* modify (set_sendRateLimiter (Some limiter)) ;;
      if (exceeds : bool) then
        let* (limiter, timeToSubmit) :=
          lift (limiter_calculateTimeToSubmit limiter (now env)) in
        do* modify (set_sendRateLimiter (Some limiter)) ;;
        do* privateApplyFlowControl e_SEND false true ;;
        ret (Some timeToSubmit)
      else ret None
  end.

Definition privateThrottleSendBuffer_end (env : Env) (timeToSubmit : TI) : M Error.t :=
  let* s := get in
  if negb (ShutdownState.canSend (d_shutdownState s)) then ret Error.e_INVALID else
  do* modify (set_sendRateTimer true) ;;
  do* emit [e_scheduleRateTimer (now env) timeToSubmit] ;;
  do* announce WriteQueueRateLimitApplied true ;;
  ret Error.e_WOULD_BLOCK.

Definition privateThrottleSendBuffer (env : Env) : M Error.t :=
  let* exceeded := privateThrottleSendBuffer_begin env in
  match exceeded with
  | Some timeToSubmit => privateThrottleSendBuffer_end env timeToSubmit
  | None => ret Error.e_OK
  end.

(** The refresh of the largest number of bytes of a batch. *)
Definition refreshSendOptions (env : Env) (dataSize : Z) : M unit :=
  let* s := get in
  if (d_sendCounter s mod SEND_BUFFER_REFRESH_INTERVAL =? 0)
     && (dataSize >=? SEND_BUFFER_REFRESH_SIZE_THRESHOLD)
  then
    let size := default 0 (sendBufferSize env) in
    when (size >? 0)
      (modify (set_sendOptions
        (mkSendOptions (wrap 64 (size * 2)) (d_maxBuffers (d_sendOptions s)))))
  else ret tt.

(** The overload for a blob is the one for a container of that blob. *)
Definition privateEnqueueSendBuffer (env : Env) (data : Data) (foreignHandle : option Z)
  : M (Error.t * Written) :=
  let* s := get in
  if negb (d_socket (d_config s)) then ret (Error.e_INVALID, nothing) else
  let* error := privateThrottleSendBuffer env in
  if Error.is_error error then ret (error, nothing) else
  let* dataSize := lift (Data.size_of data) in
  do* refreshSendOptions env dataSize ;;
  let* s := get in
  let zeroCopyWanted := (dataSize >=? d_zeroCopyThreshold s) && negb (Data.isFile data) in
  match sendResult env with
  | Failed error => ret (error, nothing)
  | Sent limit zc =>
      let n := Z.min limit dataSize in
      do* emit [e_write (take (Z.to_nat n) (Data.bytes data))] ;;
      do* when (negb (Bool.eqb zeroCopyWanted zc)
                && negb (d_zeroCopyThreshold s =? k_ZERO_COPY_NEVER))
            (modify (set_zeroCopyThreshold k_ZERO_COPY_NEVER)) ;;
      if (n =? 0) && (dataSize >? 0) then ret (Error.e_WOULD_BLOCK, mkWritten n zc) else
      do* when (d_timestampOutgoingData (d_config s))
            (let counter := wrap 32 (d_timestampCounter s + wrap 32 n) in
             do* modify (set_timestampCounter counter) ;;
             emit [e_saveTimestamp (now env) (wrap 32 (counter - 1))]) ;;
      let* s := get in
      do* match d_sendRateLimiter s with
          | Some limiter =>
              let* limiter := lift (limiter_submit limiter n) in
              modify (set_sendRateLimiter (Some limiter))
          | None => ret tt
          end ;;
      do* modify (fun s => set_totalBytesSent (wrap 64 (d_totalBytesSent s + n)) s) ;;
      ret (Error.e_OK, mkWritten n zc)
  end.

(** *** Sending *)

(** [ntca::SendOptions], with the timer [createTimer] makes for its deadline. *)
Record Options : Type := mkOptions {
  o_token : option Z;
  o_deadline : option (Z * Timer);
  o_highWatermark : option Z;
  o_foreignHandle : option Z;
  o_recurse : bool
}.

(** Queueing what was not written: the last part of both [privateSendRaw]. *)
Definition enqueueRemainder (data : Data) (written : Written) (counter timestamp : Z)
    (options : Options) (setting : SendContext) (callback : option SendCallback)
  : M unit :=
  let* n := lift (Data.size_of data) in
  let* closed :=
    match o_deadline options with
    | Some (deadline, timer) =>
        if bytesSent written =? 0
        then do* emit [e_schedule timer deadline] ;; ret (Some deadline, Some timer)
        else ret (None, None)
    | None => ret (None, None)
    end in
  let entry :=
    SendQueueEntry.mk counter None (Some data) n timestamp closed.1
      (if bytesSent written =? 0 then o_foreignHandle options else None) closed.2
      setting callback false (zeroCopy written) in
  let* s := get in
  let* (q, becameNonEmpty) := lift (SendQueue.pushEntry entry (d_sendQueue s)) in
  do* modify (set_sendQueue q) ;;
  when becameNonEmpty (privateRelaxFlowControl e_SEND true false).

(** The direct write of both [privateSendRaw], when nothing is queued. *)
Definition writeDirectly (env : Env) (data : Data) (options : Options)
  : M (Error.t * Written) :=
  let* s := get in
  if negb (SendQueue.hasEntry (d_sendQueue s)) then
    privateEnqueueSendBuffer env data (o_foreignHandle options)
  else ret (Error.e_OK, nothing).

(** A message that was written entirely. *)
Definition completeDirectly (data : Data) (written : Written) (counter : Z)
    (options : Options) (setting : SendContext) (callback : option SendCallback)
  : M unit :=
  if zeroCopy written then
    let* s := get in
    let* (_, z) := lift
      (ZeroCopyQueue.push_copy_callback counter data setting callback (d_zeroCopyQueue s)) in
    let* z := lift (ZeroCopyQueue.frame counter z) in
    modify (set_zeroCopyQueue z)
  else
    match callback with
    | Some callback =>
        emit [e_dispatch callback setting Error.e_OK (negb (o_recurse options))]
    | None => ret tt
    end.

(** What follows the direct write. The two overloads differ in the callback
    of the entry they queue. *)
Definition finishSendRaw
    (entryCallback : Written -> option SendCallback -> option SendCallback)
    (data : Data) (error : Error.t) (written : Written) (counter timestamp : Z)
    (options : Options) (setting : SendContext) (callback : option SendCallback)
  : M Error.t :=
  if Error.is_error error && negb (bool_decide (error = Error.e_WOULD_BLOCK))
  then ret error else
  let* dataSize := lift (Data.size_of data) in
  if bytesSent written =? dataSize then
    do* completeDirectly data written counter options setting callback ;;
    ret Error.e_OK
  else
    do* assert (bytesSent written <? dataSize) ;;
    let* rest := lift (Data.pop data (bytesSent written)) in
    let* n := lift (Data.size_of rest) in
    do* assert (negb (n =? 0)) ;;
    do* when (zeroCopy written)
          (let* s := get in
           let* (_, z) := lift
             (ZeroCopyQueue.push_callback counter (Some rest) setting callback
                (d_zeroCopyQueue s)) in
           modify (set_zeroCopyQueue z)) ;;
    do* enqueueRemainder rest written counter timestamp options setting
          (entryCallback written callback) ;;
    ret Error.e_OK.

Definition privateSendRaw_with
    (entryCallback : Written -> option SendCallback -> option SendCallback)
    (env : Env) (data : Data) (counter timestamp : Z) (options : Options)
    (setting : SendContext) (callback : option SendCallback) : M Error.t :=
  let* (error, written) := writeDirectly env data options in
  finishSendRaw entryCallback data error written counter timestamp options setting
    callback.

(** [callback && !context.zeroCopy()] in the overload for a blob, and
    [callback] in the overload for a data container. *)
Definition privateSendRaw_blob : Env -> Blob -> Z -> Z -> Options -> SendContext ->
    option SendCallback -> M Error.t :=
  fun env blob =>
    privateSendRaw_with
      (fun written callback => if zeroCopy written then None else callback)
      env (Data.e_BLOB blob).

Definition privateSendRaw_data : Env -> Data -> Z -> Z -> Options -> SendContext ->
    option SendCallback -> M Error.t :=
  privateSendRaw_with (fun _ callback => callback).

(** The public [send], for the overload [raw]. *)
Definition send {D} (raw : Env -> D -> Z -> Z -> Options -> SendContext ->
                            option SendCallback -> M Error.t)
    (env : Env) (data : D) (timestamp : Z) (options : Options)
    (callback : option SendCallback) : M Error.t :=
  let* s := get in
  let counter := d_sendCounter s in
  do* modify (set_sendCounter (wrap 64 (counter + 1))) ;;
  if negb (OpenState.canSend (d_openState s)) then ret Error.e_INVALID else
  let effectiveHighWatermark :=
    default (SendQueue.d_watermarkHigh (d_sendQueue s)) (o_highWatermark options) in
  if SendQueue.isHighWatermarkViolated effectiveHighWatermark (d_sendQueue s) then
    let '(q, authorized) :=
      SendQueue.authorizeHighWatermarkEvent_effective effectiveHighWatermark
        (d_sendQueue s) in
    do* modify (set_sendQueue q) ;;
    do* when authorized (announce WriteQueueHighWatermark true) ;;
    ret Error.e_WOULD_BLOCK
  else
    let context :=
      match o_token options with
      | Some token => SendContext_setToken token SendContext_default
      | None => SendContext_default
      end in
    raw env data counter timestamp options context callback.

Definition send_blob := send privateSendRaw_blob.
Definition send_data := send privateSendRaw_data.

(** *** Shutting down *)

Definition keepHalfOpen (s : t) : bool :=
  if d_abortiveClose (d_config s) then false else d_keepHalfOpen (d_config s).

(** The part of [privateShutdownSequenceComplete] that concerns the send
    direction. *)
Definition privateShutdownSequenceComplete_send (context : ShutdownContext.t) : M unit :=
  when (ShutdownContext.d_shutdownSend context)
    (let* s := get in
     do* when (d_sendRateTimer s)
           (do* emit [e_closeRateTimer] ;; modify (set_sendRateTimer false)) ;;
     let '(zeroCopyEntries, z) :=
       ZeroCopyQueue.clear_entries [] (d_zeroCopyQueue s) in
     do* modify (set_zeroCopyQueue z) ;;
     let '(q, sendEntries, closed, announceWriteQueueDiscarded) :=
       SendQueue.removeAll [] (d_sendQueue s) in
     do* modify (set_sendQueue q) ;;
     do* emit (map e_closeTimer closed) ;;
     do* emit (omap (fun e => match ZeroCopyEntry.d_callback e with
                              | Some callback =>
                                  Some (e_dispatch callback (ZeroCopyEntry.d_context e)
                                          Error.e_CANCELLED true)
                              | None => None
                              end) zeroCopyEntries) ;;
     do* emit (omap (fun e => match SendQueueEntry.d_callback e with
                              | Some callback =>
                                  Some (e_dispatch callback (SendQueueEntry.d_context e)
                                          Error.e_CANCELLED true)
                              | None => None
                              end) sendEntries) ;;
     do* when announceWriteQueueDiscarded (announce WriteQueueDiscarded true) ;;
     announce ShutdownSend true).

(** The part that concerns the system, and the announcement that shutting down
    was initiated. *)
Definition privateShutdownSequenceComplete_system (context : ShutdownContext.t) : M unit :=
  let* s := get in
  let shutdown := negb (d_abortiveClose (d_config s)) && d_socket (d_config s) in
  do* when (ShutdownContext.d_shutdownSend context && shutdown) (emit [e_shutdown true]) ;;
  do* when (ShutdownContext.d_shutdownReceive context && shutdown) (emit [e_shutdown false]) ;;
  when (ShutdownContext.d_shutdownInitiated context) (announce ShutdownInitiated true).

(** What is done with the read queue is up to the receive side. *)
Definition privateShutdownSequenceComplete (context : ShutdownContext.t) : M unit :=
  do* privateShutdownSequenceComplete_system context ;;
  do* privateShutdownSequenceComplete_send context ;;
  do* when (ShutdownContext.d_shutdownReceive context)
        (do* emit [e_shutdownReceive] ;;
         do* announce ReadQueueLowWatermark true ;;
         announce ShutdownReceive true) ;;
  when (ShutdownContext.d_shutdownCompleted context)
    (do* announce ShutdownComplete true ;;
     do* modify (set_openState OpenState.e_CLOSED) ;;
     emit [e_closed]).

(** Whether the detachment from the reactor goes on asynchronously is given:
    [privateShutdownSequenceComplete] then runs later. *)
Definition privateCloseFlowControl (detaching : bool) : M bool :=
  let* s := get in
  let '(fc, context, result) :=
    FlowControlState.apply e_BOTH true (d_flowControlState s) in
  do* modify (set_flowControlState fc) ;;
  do* when result
        (do* when (negb (FlowControlContext.d_enableSend context))
               (announce WriteQueueFlowControlApplied true) ;;
         when (negb (FlowControlContext.d_enableReceive context))
           (announce ReadQueueFlowControlApplied true)) ;;
  ret detaching.

Definition privateShutdownSequence (context : ShutdownContext.t) (detaching : bool)
  : M unit :=
  let* asyncDetachmentStarted :=
    if ShutdownContext.d_shutdownCompleted context then
      privateCloseFlowControl detaching
    else
      do* when (ShutdownContext.d_shutdownSend context)
            (privateApplyFlowControl e_SEND true true) ;;
      do* when (ShutdownContext.d_shutdownReceive context)
            (privateApplyFlowControl e_RECEIVE true true) ;;
      ret false in
  when (negb asyncDetachmentStarted) (privateShutdownSequenceComplete context).

Definition privateShutdownSend (detaching : bool) : M unit :=
  let* s := get in
  let* (state, context, result) :=
    lift (ShutdownState.tryShutdownSend (keepHalfOpen s) (d_shutdownState s)) in
  do* modify (set_shutdownState state) ;;
  when result (privateShutdownSequence context detaching).

Definition privateShutdownReceive (origin : ShutdownOrigin) (detaching : bool) : M unit :=
  let* s := get in
  let* (state, context, result) :=
    lift (ShutdownState.tryShutdownReceive (keepHalfOpen s) origin (d_shutdownState s)) in
  do* modify (set_shutdownState state) ;;
  when result (privateShutdownSequence context detaching).

(** [privateShutdown] of the send direction. *)
Definition privateShutdown_send (graceful detaching : bool) : M unit :=
  let* s := get in
  when (ShutdownState.canSend (d_shutdownState s))
    (if graceful && SendQueue.hasEntry (d_sendQueue s) then
       let '(q, id) := SendQueue.generateEntryId (d_sendQueue s) in
       let entry :=
         SendQueueEntry.mk id None None 0 0 None None None SendContext_default None
           false false in
       let* (q, _) := lift (SendQueue.pushEntry entry q) in
       do* modify (set_sendQueue q) ;;
       privateRelaxFlowControl e_SEND true true
     else privateShutdownSend detaching).

(** *** Writing the queue *)

Definition set_front (e : Entry) (q : SendQueue.t Blob) : SendQueue.t Blob :=
  SendQueue.with_entries (e :: tail (SendQueue.d_entryList q)) (SendQueue.d_size q) q.

(** What both iterations do with an entry of which something was written. *)
Definition entryWritten (written : Written) : M Entry :=
  let* s := get in
  let* entry := lift (SendQueue.frontEntry (d_sendQueue s)) in
  let '(entry, closed) :=
    match SendQueueEntry.d_deadline entry with
    | Some _ => SendQueueEntry.closeTimer (SendQueueEntry.setDeadline None entry)
    | None => (entry, [])
    end in
  do* emit (map e_closeTimer closed) ;;
  let* entry :=
    if zeroCopy written then
      let id := SendQueueEntry.d_id entry in
      if SendQueueEntry.d_zeroCopy entry then
        let* (_, z) := lift (ZeroCopyQueue.push id (d_zeroCopyQueue s)) in
        do* modify (set_zeroCopyQueue z) ;;
        ret entry
      else
        let* (_, z) := lift
          (ZeroCopyQueue.push_callback id (SendQueueEntry.d_data entry)
             (SendQueueEntry.d_context entry) (SendQueueEntry.d_callback entry)
             (d_zeroCopyQueue s)) in
        do* modify (set_zeroCopyQueue z) ;;
        ret (SendQueueEntry.setCallback None (SendQueueEntry.setZeroCopy true entry))
    else ret entry in
  do* modify (set_sendQueue (set_front entry (d_sendQueue s))) ;;
  ret entry.

(** An entry that is written entirely: the callback to invoke, if any. *)
Definition entryComplete (entry : Entry) : M (option (SendContext * SendCallback)) :=
  let* callback :=
    if SendQueueEntry.d_zeroCopy entry then
      let* s := get in
      let* z := lift (ZeroCopyQueue.frame (SendQueueEntry.d_id entry) (d_zeroCopyQueue s)) in
      let '(popped, z) :=
        if ZeroCopyQueue.ready z then ZeroCopyQueue.pop z else (None, z) in
      do* modify (set_zeroCopyQueue z) ;;
      ret popped
    else
      ret (match SendQueueEntry.d_callback entry with
           | Some callback => Some (SendQueueEntry.d_context entry, callback)
           | None => None
           end) in
  let* s := get in
  let* (q, _, closed) := lift (SendQueue.popEntry (d_sendQueue s)) in
  do* modify (set_sendQueue q) ;;
  do* emit (map e_closeTimer closed) ;;
  ret callback.

Definition entryPartial (numBytes : Z) : M unit :=
  let* s := get in
  let* (q, closed) := lift (SendQueue.popSize numBytes (d_sendQueue s)) in
  do* modify (set_sendQueue q) ;;
  emit (map e_closeTimer closed).

(** The loop of the batch: [fuel] is the number of entries, each pass pops one,
    and past the last the front of an empty list is accessed. *)
Fixpoint batchLoop (fuel : nat) (written : Written) (numBytesRemaining : Z)
    (callbackVector : list (SendContext * SendCallback))
  : M (list (SendContext * SendCallback)) :=
  if numBytesRemaining =? 0 then ret callbackVector else
  match fuel with
  | O => lift None
  | S fuel =>
      let* entry := entryWritten written in
      if numBytesRemaining >=? SendQueueEntry.d_length entry then
        let* callback := entryComplete entry in
        batchLoop fuel written (numBytesRemaining - SendQueueEntry.d_length entry)
          (callbackVector ++ option_list callback)
      else
        do* entryPartial numBytesRemaining ;;
        ret callbackVector
  end.

Definition dispatchComplete (callbackVector : list (SendContext * SendCallback)) : M unit :=
  emit (map (fun c => e_dispatch c.2 c.1 Error.e_OK false) callbackVector).

(** What an iteration still does once the callbacks returned: after a write,
    the low watermark event and flow control; after the queued end of the send
    direction, flow control. *)
Inductive Tail : Type := NoTail | AfterWrite | AfterShutdown.

Definition afterCallbacks : M unit :=
  let* s := get in
  let '(q, authorized) := SendQueue.authorizeLowWatermarkEvent (d_sendQueue s) in
  do* modify (set_sendQueue q) ;;
  when authorized (announce WriteQueueLowWatermark true).

Definition afterIteration : M unit :=
  let* s := get in
  when (negb (SendQueue.hasEntry (d_sendQueue s)))
    (privateApplyFlowControl e_SEND false false).

Definition runTail (tail : Tail) : M unit :=
  match tail with
  | NoTail => ret tt
  | AfterWrite => do* afterCallbacks ;; afterIteration
  | AfterShutdown => afterIteration
  end.

(** The iterations up to the dispatch of the callbacks. *)
Definition privateSocketWritableIterationBatch (env : Env) (a : BufferArray.t)
  : M (Error.t * Tail) :=
  let* (error, written) :=
    privateEnqueueSendBuffer env (Data.e_CONST_BUFFER_ARRAY a) None in
  if Error.is_error error then ret (error, NoTail) else
  let* s := get in
  let* callbackVector :=
    batchLoop (length (SendQueue.d_entryList (d_sendQueue s))) written
      (bytesSent written) [] in
  do* dispatchComplete callbackVector ;;
  ret (Error.e_OK, AfterWrite).

Definition privateSocketWritableIterationFront (env : Env) (detaching : bool)
  : M (Error.t * Tail) :=
  let* s := get in
  let* entry := lift (SendQueue.frontEntry (d_sendQueue s)) in
  match SendQueueEntry.d_data entry with
  | Some data =>
      let* (error, written) :=
        privateEnqueueSendBuffer env data (SendQueueEntry.d_foreignHandle entry) in
      if Error.is_error error then ret (error, NoTail) else
      let* entry := entryWritten written in
      let* callback :=
        if bytesSent written =? SendQueueEntry.d_length entry
        then entryComplete entry
        else do* entryPartial (bytesSent written) ;; ret None in
      do* dispatchComplete (option_list callback) ;;
      ret (Error.e_OK, AfterWrite)
  | None =>
      let* (q, _, closed) := lift (SendQueue.popEntry (d_sendQueue s)) in
      do* modify (set_sendQueue q) ;;
      do* emit (map e_closeTimer closed) ;;
      do* privateShutdownSend detaching ;;
      ret (Error.e_OK, AfterShutdown)
  end.

Definition privateSocketWritableIteration (env : Env) (detaching : bool)
  : M (Error.t * Tail) :=
  let* s := get in
  if negb (SendQueue.hasEntry (d_sendQueue s))
  then ret (Error.e_WOULD_BLOCK, NoTail) else
  let* (a, possible) :=
    lift (SendQueue.batchNext maxBuffersPerSend (d_sendOptions s) (d_sendQueue s)) in
  if possible : bool
  then privateSocketWritableIterationBatch env a
  else privateSocketWritableIterationFront env detaching.

(** *** Events *)

Definition privateRearmAfterSend : M unit :=
  let* s := get in
  when (d_oneShot (d_config s) && SendQueue.hasEntry (d_sendQueue s)
        && FlowControlState.wantSend (d_flowControlState s)
        && ShutdownState.canSend (d_shutdownState s))
    (emit [e_showWritable]).

(** The three parts of [privateFail]: the announcements of the first two may
    run with the mutex released. *)
Definition privateFail_flowControl : M unit :=
  privateApplyFlowControl e_BOTH false true.

Definition connectionLost (error : Error.t) : bool :=
  bool_decide (error = Error.e_CONNECTION_DEAD)
  || bool_decide (error = Error.e_CONNECTION_RESET).

Definition privateFail_close (error : Error.t) (detaching : bool) : M unit :=
  let* s := get in
  do* modify (set_flowControlState (FlowControlState.close (d_flowControlState s))) ;;
  if connectionLost error then
    do* privateShutdownReceive e_REMOTE detaching ;;
    privateShutdownSend detaching
  else announce TransportError false.

Definition privateFail_shutdown (error : Error.t) (detaching : bool) : M unit :=
  when (negb (connectionLost error))
    (let* s := get in
     do* when (ShutdownState.canReceive (d_shutdownState s))
           (privateShutdownReceive e_SOURCE detaching) ;;
     privateShutdown_send false detaching).

Definition privateFail (error : Error.t) (detaching : bool) : M unit :=
  do* privateFail_flowControl ;;
  do* privateFail_close error detaching ;;
  privateFail_shutdown error detaching.

(** The loop of [processSocketWritable] on a connected socket, when nothing
    comes between its sections: one environment for each iteration. *)
Fixpoint writableLoop (envs : list Env) (detaching : bool) : M Error.t :=
  let* s := get in
  if negb (SendQueue.hasEntry (d_sendQueue s)) then ret Error.e_OK else
  match envs with
  | [] => lift None
  | env :: envs =>
      let* (error, tail) := privateSocketWritableIteration env detaching in
      do* runTail tail ;;
      if Error.is_error error then ret error else
      if negb (d_sendGreedily (d_config s)) then ret error else
      let* s := get in
      if negb (ShutdownState.canSend (d_shutdownState s)) then ret error else
      writableLoop envs detaching
  end.

Definition processSocketWritable (envs : list Env) (detaching : bool) : M unit :=
  let* s := get in
  if negb (ShutdownState.canSend (d_shutdownState s)) then ret tt else
  let* error := writableLoop envs detaching in
  if Error.is_error error && negb (bool_decide (error = Error.e_WOULD_BLOCK)) then
    privateFail error detaching
  else privateRearmAfterSend.

(** [privateZeroCopyUpdate], up to the loop that hands out callbacks; whether
    the notification says that the copy was avoided is given. *)
Definition privateZeroCopyUpdate (avoided : bool) (z : ZeroCopyNotification) : M unit :=
  do* when (negb avoided) (modify (set_zeroCopyThreshold k_ZERO_COPY_NEVER)) ;;
  modify (fun s => set_zeroCopyQueue (ZeroCopyQueue.update z (d_zeroCopyQueue s)) s).

(** One pass of that loop. *)
Definition zeroCopyPop : M bool :=
  let* s := get in
  let '(popped, z) := ZeroCopyQueue.pop (d_zeroCopyQueue s) in
  do* modify (set_zeroCopyQueue z) ;;
  match popped with
  | Some (context, callback) =>
      do* emit [e_dispatch callback context Error.e_OK false] ;; ret true
  | None => ret false
  end.

Definition processSendRateTimer : M unit :=
  do* privateRelaxFlowControl e_SEND false true ;;
  announce WriteQueueRateLimitRelaxed false.

(** A removal of an entry by [processSendDeadlineTimer] or [cancel]. *)
Definition removed (error : Error.t) (defer : bool)
    (r : SendQueue.t Blob * option SendCallback * SendContext * list Timer * bool)
  : M (option SendCallback) :=
  let '(q, callback, context, closed, becameEmpty) := r in
  do* modify (set_sendQueue q) ;;
  do* emit (map e_closeTimer closed) ;;
  do* when becameEmpty (privateApplyFlowControl e_SEND defer false) ;;
  do* match callback with
      | Some callback => emit [e_dispatch callback context error defer]
      | None => ret tt
      end ;;
  ret callback.

Definition processSendDeadlineTimer (entryId : Z) : M unit :=
  let* s := get in
  let* r := lift (SendQueue.removeEntryId entryId (d_sendQueue s)) in
  do* removed Error.e_WOULD_BLOCK false r ;;
  ret tt.

Definition cancel (token : Z) : M Error.t :=
  let* s := get in
  let* r := lift (SendQueue.removeEntryToken SendContext_default token (d_sendQueue s)) in
  let* callback := removed Error.e_CANCELLED true r in
  ret (match callback with Some _ => Error.e_OK | None => Error.e_INVALID end).

Definition relaxFlowControl (direction : FlowControlType) : M unit :=
  privateRelaxFlowControl direction true true.

Definition closeSendRateTimer (direction : FlowControlType) : M unit :=
  let* s := get in
  when ((FlowControlState.selects direction).1 && d_sendRateTimer s)
    (do* emit [e_closeRateTimer] ;; modify (set_sendRateTimer false)).

Definition applyFlowControl (direction : FlowControlType) : M unit :=
  do* closeSendRateTimer direction ;;
  privateApplyFlowControl direction true true.

Definition setWriteRateLimiter (rateLimiter : option L) : M unit :=
  do* modify (set_sendRateLimiter rateLimiter) ;;
  match rateLimiter with
  | Some _ => ret tt
  | None =>
      let* s := get in
      do* when (d_sendRateTimer s)
            (do* emit [e_closeRateTimer] ;; modify (set_sendRateTimer false)) ;;
      privateRelaxFlowControl e_SEND true true
  end.

(** The end of the two setters of the watermarks. *)
Definition announceWatermarks (lowChanged highChanged : bool) : M unit :=
  do* when lowChanged afterCallbacks ;;
  when highChanged
    (let* s := get in
     let '(q, authorized) := SendQueue.authorizeHighWatermarkEvent (d_sendQueue s) in
     do* modify (set_sendQueue q) ;;
     when authorized (announce WriteQueueHighWatermark true)).

Definition setWriteQueueLowWatermark (low : Z) : M unit :=
  do* modify (fun s => set_sendQueue (SendQueue.setLowWatermark low (d_sendQueue s)) s) ;;
  announceWatermarks true false.

Definition setWriteQueueHighWatermark (high : Z) : M unit :=
  do* modify (fun s => set_sendQueue (SendQueue.setHighWatermark high (d_sendQueue s)) s) ;;
  announceWatermarks false true.

Definition setWriteQueueWatermarks (low high : Z) : M unit :=
  do* modify (fun s => set_sendQueue (SendQueue.setLowWatermark low (d_sendQueue s)) s) ;;
  do* modify (fun s => set_sendQueue (SendQueue.setHighWatermark high (d_sendQueue s)) s) ;;
  announceWatermarks true true.

End Socket.
End StreamSocket.
