(* ===== verification/StreamSocketLogic.v ===== *)
(** * What the sections of the send side do

    What an observer sees of the effects of [StreamSocket] ([Observation]), the
    rules for its announcements, its flow control and its direct writes, and the
    zero-copy queue as the socket uses it. *)

From S2P Require Import Prelude Errors Buffers Watermark SendQueue ZeroCopy SocketState.
From S2P Require Import TimeInterval RateLimiter Sections StreamSocket.

(** ** Effects, as an observer sees them *)
Module Observation.
Import StreamSocket.
Section Observation.
Context {T : SendTypes} {TI : Type}.

(** The bytes written, the callbacks dispatched, and whether the reactor
    watches the socket for writability. *)
Definition write_of (e : Effect (T := T) (TI := TI)) : list byte :=
  match e with e_write b => b | _ => [] end.
Definition dispatch_of (e : Effect (T := T) (TI := TI)) : list SendCallback :=
  match e with e_dispatch cb _ _ _ => [cb] | _ => [] end.
Definition interest_of (b : bool) (e : Effect (T := T) (TI := TI)) : bool :=
  match e with e_showWritable => true | e_hideWritable => false | _ => b end.

Definition written (l : list (Effect (T := T) (TI := TI))) : list byte :=
  concat (map write_of l).
Definition dispatched (l : list (Effect (T := T) (TI := TI))) : list SendCallback :=
  concat (map dispatch_of l).
Definition interest (b : bool) (l : list (Effect (T := T) (TI := TI))) : bool :=
  fold_left interest_of l b.

Lemma written_app l k : written (l ++ k) = written l ++ written k.
Proof. unfold written. by rewrite map_app, concat_app. Qed.
Lemma dispatched_app l k : dispatched (l ++ k) = dispatched l ++ dispatched k.
Proof. unfold dispatched. by rewrite map_app, concat_app. Qed.
Lemma interest_app b l k : interest b (l ++ k) = interest (interest b l) k.
Proof. unfold interest. apply fold_left_app. Qed.

(** Effects that none of the three observes. *)
Definition silent (l : list (Effect (T := T) (TI := TI))) : Prop :=
  written l = [] /\ dispatched l = [] /\ forall b, interest b l = b.

Lemma silent_nil : silent [].
Proof. done. Qed.

Lemma silent_app l k : silent l -> silent k -> silent (l ++ k).
Proof.
  intros (H1 & H2 & H3) (K1 & K2 & K3). unfold silent.
  rewrite written_app, dispatched_app, H1, H2, K1, K2. split_and!; [done..|].
  intros b. by rewrite interest_app, H3, K3.
Qed.

Lemma silent_closeTimers l : silent (map e_closeTimer l).
Proof. induction l as [|x l IH]; [done|]. by apply (silent_app [_]). Qed.

Lemma silent_announce a d : silent [e_announce a d].
Proof. done. Qed.

End Observation.
End Observation.

(** ** The program logic *)
Module SocketLogic.
Import StreamSocket Observation.
Section Logic.
Context {Blob : Type} `{BlobOps Blob} {T : SendTypes} {L TI : Type}.
#[local] Abbreviation socket := (StreamSocket.t (Blob := Blob) (L := L)).
#[local] Abbreviation effects := (list (Effect (T := T) (TI := TI))).
#[local] Abbreviation M := (StreamSocket.M (Blob := Blob) (T := T) (L := L) (TI := TI)).

Context (lim : Prop).

Lemma wp_announce a d (s : socket) (Q : unit -> socket -> effects -> Prop) : (forall l, silent l -> Q tt s l) -> wp lim (announce a d) s Q.
Proof.
  intros HQ. unfold announce. apply wp_bind, wp_get. apply wp_when; intros _.
  - apply wp_emit. by apply HQ.
  - by apply HQ.
Qed.

End Logic.

(** Steps through a section up to the next call that has a lemma of its own. *)
Ltac wp_step :=
  lazymatch goal with
  | |- wp _ (announce _ _) _ _ => apply wp_announce; intros ? ?
  | _ => section_step
  end.
Ltac wp_steps := repeat (wp_step; cbn beta).

(** *** Flow control *)
Section FlowControl.
Context {Blob : Type} `{BlobOps Blob} {T : SendTypes} {L TI : Type}.
#[local] Abbreviation socket := (StreamSocket.t (Blob := Blob) (L := L)).
#[local] Abbreviation effects := (list (Effect (T := T) (TI := TI))).
Context (lim : Prop).

Definition canSend (s : socket) : bool := ShutdownState.canSend (d_shutdownState s).

(** The socket is watched whenever it wants to be. *)
Definition watched (s : socket) (b : bool) : Prop :=
  canSend s = true -> FlowControlState.d_enableSend (d_flowControlState s) = true -> b = true.

(** Writable events are wanted, or something is in charge of wanting them. *)
Definition attended (fc : FlowControlState.t) : Prop :=
  FlowControlState.d_enableSend fc = true \/ FlowControlState.d_lockSend fc = true.

Definition fc_ok (fc : FlowControlState.t) : Prop :=
  FlowControlState.d_closed fc = true -> FlowControlState.d_enableSend fc = false.

(** What a change of flow control keeps. *)
Record fc_change (s : socket) (fc : FlowControlState.t) (l : effects) : Prop := {
  fcc_written : written l = [];
  fcc_dispatched : dispatched l = [];
  fcc_ok : fc_ok (d_flowControlState s) -> fc_ok fc;
  fcc_closed : FlowControlState.d_closed fc = FlowControlState.d_closed (d_flowControlState s);
  fcc_watched : forall b, watched s b -> watched (set_flowControlState fc s) (interest b l)
}.

Lemma fc_change_refl s l : silent l -> fc_change s (d_flowControlState s) l.
Proof.
  intros (Hw & Hd & Hi). split; try done. intros b Hb. rewrite Hi. by destruct s.
Qed.

Lemma silent_interest (l k : effects) b : silent k -> interest b (l ++ k) = interest b l.
Proof. intros (_ & _ & Hk). by rewrite interest_app, Hk. Qed.

(** The two operations of the state, case by case. *)
Lemma relax_facts dir unlock fc :
  let '(fc', context, result) := FlowControlState.relax dir unlock fc in
  FlowControlState.d_closed fc' = FlowControlState.d_closed fc
  /\ (fc_ok fc -> fc_ok fc')
  /\ (attended fc -> attended fc')
  /\ ((FlowControlState.selects dir).1 = true -> FlowControlState.d_closed fc = false ->
      attended fc')
  /\ (FlowControlState.d_enableSend fc' = true ->
      FlowControlState.d_enableSend fc = true
      \/ result && (FlowControlState.selects dir).1
         && FlowControlContext.d_enableSend context = true).
Proof.
  unfold fc_ok, attended.
  destruct fc as [[] [] [] [] []], dir, unlock; simpl; intuition congruence.
Qed.

Lemma apply_facts dir lock fc :
  let '(fc', context, result) := FlowControlState.apply dir lock fc in
  FlowControlState.d_closed fc' = FlowControlState.d_closed fc
  /\ (fc_ok fc -> fc_ok fc')
  /\ (lock = true \/ (FlowControlState.selects dir).1 = false -> attended fc -> attended fc')
  /\ (FlowControlState.d_enableSend fc' = true ->
      FlowControlState.d_enableSend fc = true
      /\ result && negb (FlowControlContext.d_enableSend context) = false).
Proof.
  unfold fc_ok, attended.
  destruct fc as [[] [] [] [] []], dir, lock; simpl; intuition congruence.
Qed.

Ltac observe :=
  unfold written, dispatched in *;
  repeat match goal with
    | Hs : silent ?l |- _ =>
        let Hw := fresh "Hw" in let Hd := fresh "Hd" in let Hi := fresh "Hi" in
        destruct Hs as (Hw & Hd & Hi); unfold written, dispatched in Hw, Hd
    end;
  simpl; rewrite ?app_nil_r, ?map_app, ?concat_app; simpl;
  repeat match goal with
    | Hw : concat (map _ ?l) = [] |- context [concat (map _ ?l)] => rewrite Hw
    end;
  try done.

Ltac silent_interest :=
  repeat match goal with
    | Hs : silent ?l |- context [interest _ ?l] => rewrite (proj2 (proj2 Hs))
    end.

(** The effects of the two programs, path by path. *)
Lemma privateRelaxFlowControl_effects dir defer unlock (s : socket) (Q : unit -> socket -> effects -> Prop) :
  let '(fc, context, result) := FlowControlState.relax dir unlock (d_flowControlState s) in
  (forall l, written l = [] -> dispatched l = [] ->
     (forall b, interest b l =
        (result && ((FlowControlState.selects dir).1
                    && FlowControlContext.d_enableSend context && canSend s)) || b) ->
     Q tt (set_flowControlState fc s) l) ->
  wp lim (privateRelaxFlowControl (TI := TI) dir defer unlock) s Q.
Proof.
  destruct (FlowControlState.relax dir unlock (d_flowControlState s)) as [[fc ctx] res] eqn:Ef.
  intros HQ. unfold privateRelaxFlowControl, canSend in *.
  destruct (FlowControlState.selects dir) as [rs rr] eqn:Es. simpl in HQ.
  apply wp_bind, wp_get. cbn beta. rewrite Ef.
  wp_steps; apply HQ; clear HQ; try (observe; fail);
    intros b; rewrite ?interest_app; silent_interest; simpl;
    repeat match goal with Hb : ?x = ?y |- context [?x] => rewrite Hb end; done.
Qed.

Lemma privateApplyFlowControl_effects dir defer lock (s : socket) (Q : unit -> socket -> effects -> Prop) :
  let '(fc, context, result) := FlowControlState.apply dir lock (d_flowControlState s) in
  (forall l, written l = [] -> dispatched l = [] ->
     (forall b, interest b l =
        negb (result && ((FlowControlState.selects dir).1
                         && negb (FlowControlContext.d_enableSend context))) && b) ->
     Q tt (set_flowControlState fc s) l) ->
  wp lim (privateApplyFlowControl (TI := TI) dir defer lock) s Q.
Proof.
  destruct (FlowControlState.apply dir lock (d_flowControlState s)) as [[fc ctx] res] eqn:Ef.
  intros HQ. unfold privateApplyFlowControl.
  destruct (FlowControlState.selects dir) as [rs rr] eqn:Es. simpl in HQ.
  apply wp_bind, wp_get. cbn beta. rewrite Ef.
  wp_steps; apply HQ; clear HQ; try (observe; fail);
    intros b; rewrite ?interest_app; silent_interest; simpl;
    repeat match goal with Hb : ?x = ?y |- context [?x] => rewrite Hb end; done.
Qed.

Lemma privateRelaxFlowControl_spec dir defer unlock (s : socket) (Q : unit -> socket -> effects -> Prop) :
  (forall fc l, fc_change s fc l ->
     (attended (d_flowControlState s) -> attended fc) ->
     ((FlowControlState.selects dir).1 = true ->
      FlowControlState.d_closed (d_flowControlState s) = false -> attended fc) ->
     Q tt (set_flowControlState fc s) l) ->
  wp lim (privateRelaxFlowControl (TI := TI) dir defer unlock) s Q.
Proof.
  intros HQ. pose proof (relax_facts dir unlock (d_flowControlState s)) as Hf.
  pose proof (privateRelaxFlowControl_effects dir defer unlock s Q) as He.
  destruct (FlowControlState.relax dir unlock (d_flowControlState s)) as [[fc ctx] res].
  destruct Hf as (Hcl & Hok & Hat & Hsel & Hen).
  apply He. intros l Hw Hd Hi. apply HQ; try done. split; try done.
  intros b Hb Hcs Hon. unfold watched, canSend in *. simpl in *. rewrite Hi, Hcs.
  destruct (Hen Hon) as [Hon'|Hon']; [rewrite (Hb Hcs Hon'); apply orb_true_r|].
  rewrite !andb_true_r. rewrite andb_assoc, Hon'. done.
Qed.

Lemma privateApplyFlowControl_spec dir defer lock (s : socket) (Q : unit -> socket -> effects -> Prop) :
  (forall fc l, fc_change s fc l ->
     (lock = true \/ (FlowControlState.selects dir).1 = false ->
      attended (d_flowControlState s) -> attended fc) ->
     Q tt (set_flowControlState fc s) l) ->
  wp lim (privateApplyFlowControl (TI := TI) dir defer lock) s Q.
Proof.
  intros HQ. pose proof (apply_facts dir lock (d_flowControlState s)) as Hf.
  pose proof (privateApplyFlowControl_effects dir defer lock s Q) as He.
  destruct (FlowControlState.apply dir lock (d_flowControlState s)) as [[fc ctx] res].
  destruct Hf as (Hcl & Hok & Hat & Hen).
  apply He. intros l Hw Hd Hi. apply HQ; try done. split; try done.
  intros b Hb Hcs Hon. unfold watched, canSend in *. simpl in *. rewrite Hi.
  destruct (Hen Hon) as [Hon' Hq]. rewrite (Hb Hcs Hon').
  destruct res, (FlowControlState.selects dir).1, (FlowControlContext.d_enableSend ctx); done.
Qed.

End FlowControl.

(** *** Writing *)
Section Writing.
Context {Blob : Type} `{BlobOps Blob} {T : SendTypes} {L TI : Type} `{LimiterOps L TI}.
#[local] Abbreviation socket := (StreamSocket.t (Blob := Blob) (L := L)).
#[local] Abbreviation effects := (list (Effect (T := T) (TI := TI))).
Context (lim : Prop).

(** An assertion can only fail in the rate limiter. *)
Definition limited (s : socket) : Prop := d_sendRateLimiter s <> None -> lim.

(** What a write leaves alone. *)
Record same_queues (s s' : socket) : Prop := {
  sq_config : d_config s' = d_config s;
  sq_openState : d_openState s' = d_openState s;
  sq_shutdownState : d_shutdownState s' = d_shutdownState s;
  sq_zeroCopyQueue : d_zeroCopyQueue s' = d_zeroCopyQueue s;
  sq_sendQueue : d_sendQueue s' = d_sendQueue s;
  sq_sendCounter : d_sendCounter s' = d_sendCounter s;
  sq_limited : limited s -> limited s'
}.

Lemma same_queues_refl s : same_queues s s.
Proof. by split. Qed.

Lemma same_queues_trans a b c : same_queues a b -> same_queues b c -> same_queues a c.
Proof. intros [] []. split; try congruence. auto. Qed.

Lemma same_queues_fc s fc : same_queues s (set_flowControlState fc s).
Proof. by split. Qed.

(** What a change keeps of flow control, for whoever watches the effects. *)
Record fc_kept (s s' : socket) (l : effects) : Prop := {
  fk_ok : fc_ok (d_flowControlState s) -> fc_ok (d_flowControlState s');
  fk_closed : FlowControlState.d_closed (d_flowControlState s')
              = FlowControlState.d_closed (d_flowControlState s);
  fk_attended : attended (d_flowControlState s) -> attended (d_flowControlState s');
  fk_watched : forall b, watched s b -> watched s' (interest b l)
}.

Lemma fc_kept_refl s s' l :
  d_flowControlState s' = d_flowControlState s -> d_shutdownState s' = d_shutdownState s ->
  (forall b, interest b l = b) -> fc_kept s s' l.
Proof.
  intros Hf Hs Hi. split; rewrite ?Hf; try done.
  intros b. unfold watched, canSend. by rewrite Hf, Hs, Hi.
Qed.

Lemma fc_kept_trans a b c l k : fc_kept a b l -> fc_kept b c k -> fc_kept a c (l ++ k).
Proof.
  intros [] []. split; auto; [congruence|]. intros i Hi. rewrite interest_app. auto.
Qed.

Lemma wp_throttle_begin (env : Env (TI := TI)) (s : socket) (Q : option TI -> socket -> effects -> Prop) :
  limited s ->
  (forall exceeded s' l, same_queues s s' -> fc_kept s s' l ->
     written l = [] -> dispatched l = [] ->
     (exceeded <> None -> d_sendRateLimiter s <> None) -> Q exceeded s' l) ->
  wp lim (privateThrottleSendBuffer_begin (T := T) env) s Q.
Proof.
  intros Hl HQ. unfold privateThrottleSendBuffer_begin. apply wp_bind, wp_get. cbn beta.
  unfold limited in Hl.
  destruct (d_sendRateLimiter s) as [limiter|] eqn:El; cycle 1.
  { apply wp_ret. by apply HQ. }
  assert (Hlim : lim) by (by apply Hl).
  apply wp_bind, wp_lift; [|done]. intros [limiter1 exceeds] _. cbn beta iota.
  apply wp_bind, wp_modify. cbn beta. destruct exceeds; cycle 1.
  { apply wp_ret. apply HQ; [split; try done; by intros _ _|by apply fc_kept_refl|done..]. }
  apply wp_bind, wp_lift; [|done]. intros [limiter2 time] _. cbn beta iota.
  apply wp_bind, wp_modify. cbn beta.
  apply wp_bind, privateApplyFlowControl_spec. intros fc l [Hw Hd Hok Hc Hwt] Hat. simpl in *.
  apply wp_ret. simpl. rewrite app_nil_r. apply HQ; try done; [|by split; auto].
  split; try done. by intros _ _.
Qed.

Lemma wp_throttle_end (env : Env (TI := TI)) (time : TI) (s : socket)
    (Q : Error.t -> socket -> effects -> Prop) :
  (forall error s' l, same_queues s s' -> d_flowControlState s' = d_flowControlState s ->
     silent l -> Error.is_error error = true -> Q error s' l) ->
  wp lim (privateThrottleSendBuffer_end (T := T) env time) s Q.
Proof.
  intros HQ. unfold privateThrottleSendBuffer_end. apply wp_bind, wp_get. cbn beta. case_match.
  { apply wp_ret. apply HQ; [apply same_queues_refl|done..]. }
  apply wp_bind, wp_modify. cbn beta. apply wp_bind, wp_emit. cbn beta.
  apply wp_bind, wp_announce. intros l Hl. apply wp_ret.
  apply HQ; [by split|done| |done]. rewrite app_nil_r. by apply (silent_app [_]).
Qed.

Lemma wp_throttle (env : Env (TI := TI)) (s : socket) (Q : Error.t -> socket -> effects -> Prop) :
  limited s ->
  (forall error s' l, same_queues s s' -> fc_kept s s' l ->
     written l = [] -> dispatched l = [] -> Q error s' l) ->
  wp lim (privateThrottleSendBuffer (T := T) env) s Q.
Proof.
  intros Hl HQ. unfold privateThrottleSendBuffer. apply wp_bind, wp_throttle_begin; [done|].
  intros exceeded s1 l Hq Hk Hw Hd _. destruct exceeded as [time|]; cycle 1.
  { apply wp_ret. rewrite app_nil_r. by apply HQ. }
  apply wp_throttle_end. intros error s2 k Hq' Hf (Hw' & Hd' & Hi') _. apply HQ.
  - by eapply same_queues_trans.
  - apply (fc_kept_trans s s1); [done|]. apply fc_kept_refl; [done|by destruct Hq'|done].
  - by rewrite written_app, Hw, Hw'.
  - by rewrite dispatched_app, Hd, Hd'.
Qed.

Definition env_ok (env : Env (TI := TI)) : Prop :=
  match sendResult env with Sent limit _ => 0 <= limit
  | Failed error => Error.is_error error = true end.

(** Data whose size is the number of the bytes it designates. *)
Definition sized (data : Data.t Blob) : Prop :=
  Data.size_of data = Some (size (Data.bytes data)).

Record enqueued (env : Env (TI := TI)) (data : Data.t Blob) (error : Error.t) (w : Written)
    (l : effects) : Prop := {
  en_written : written l = take (Z.to_nat (bytesSent w)) (Data.bytes data);
  en_dispatched : dispatched l = [];
  en_range : 0 <= bytesSent w <= size (Data.bytes data);
  en_error : Error.is_error error = true -> bytesSent w = 0;
  en_some : Error.is_error error = false -> bytesSent w = 0 -> size (Data.bytes data) = 0;
  en_zeroCopy : zeroCopy w = true -> exists limit, sendResult env = Sent limit true
    /\ bytesSent w = Z.min limit (size (Data.bytes data))
}.

Lemma enqueued_nothing env data error l :
  Error.is_error error = true -> written l = [] -> dispatched l = [] ->
  enqueued env data error nothing l.
Proof.
  intros He Hw Hd. split; simpl; try done; [pose proof (size_nonneg (Data.bytes data)); lia|].
  intros Hf. by rewrite He in Hf.
Qed.

Lemma wp_refresh (env : Env (TI := TI)) n (s : socket) (Q : unit -> socket -> effects -> Prop) :
  (forall s', same_queues s s' -> d_flowControlState s' = d_flowControlState s -> Q tt s' []) ->
  wp lim (refreshSendOptions (T := T) env n) s Q.
Proof.
  intros HQ. unfold refreshSendOptions. apply wp_bind, wp_get. cbn beta.
  destruct (_ && _); [|by apply wp_ret, HQ].
  apply wp_when; intros _; [apply wp_modify|]; apply HQ; try done; by split.
Qed.

Lemma wp_enqueue (env : Env (TI := TI)) data fh (s : socket) (Q : Error.t * Written -> socket -> effects -> Prop) :
  limited s -> env_ok env -> sized data ->
  (forall error w s' l, same_queues s s' -> fc_kept s s' l ->
     enqueued env data error w l -> Q (error, w) s' l) ->
  wp lim (privateEnqueueSendBuffer (T := T) env data fh) s Q.
Proof.
  intros Hl He Hsz HQ. unfold privateEnqueueSendBuffer.
  apply wp_bind, wp_get. cbn beta. case_match.
  { apply wp_ret. apply HQ; [apply same_queues_refl|by apply fc_kept_refl|].
    by apply enqueued_nothing. }
  apply wp_bind, wp_throttle; [done|]. intros error s1 l1 Q1 K1 W1 D1.
  destruct (Error.is_error error) eqn:Ee.
  { apply wp_ret. simpl. rewrite app_nil_r. apply HQ; try done. by apply enqueued_nothing. }
  set (n0 := size (Data.bytes data)).
  assert (Hn0 : 0 <= n0) by apply size_nonneg.
  apply wp_bind. unfold sized in Hsz. rewrite Hsz. apply wp_lift; [|done]. intros ? [= <-].
  fold n0. apply wp_bind, wp_refresh. intros s2 Q2 F2. apply wp_bind, wp_get. cbn beta.
  assert (K2 : forall l, silent l -> fc_kept s s2 (l1 ++ l)).
  { intros l (_ & _ & Hi). apply (fc_kept_trans s s1); [done|].
    apply fc_kept_refl; [done|by destruct Q2|done]. }
  assert (Q12 : same_queues s s2) by (by eapply same_queues_trans).
  destruct (sendResult env) as [error'|limit zc] eqn:Er.
  { unfold env_ok in He. rewrite Er in He.
    apply wp_ret. simpl. rewrite ?app_nil_r. apply HQ; [done| |by apply enqueued_nothing].
    specialize (K2 [] silent_nil). by rewrite app_nil_r in K2. }
  unfold env_ok in He. rewrite Er in He.
  set (n := Z.min limit n0).
  apply wp_bind, wp_emit. cbn beta.
  assert (Hw : written [e_write (T := T) (TI := TI) (take (Z.to_nat n) (Data.bytes data))]
               = take (Z.to_nat n) (Data.bytes data)) by apply app_nil_r.
  (* the rest of the section changes only counters *)
  assert (Hrest : forall error s3 l, same_queues s2 s3 ->
    d_flowControlState s3 = d_flowControlState s2 -> silent l ->
    (Error.is_error error = true -> n = 0) ->
    (Error.is_error error = false -> n = 0 -> n0 = 0) ->
    Q (error, mkWritten n zc) s3
      (l1 ++ [e_write (take (Z.to_nat n) (Data.bytes data))] ++ l)).
  { intros error' s3 l Q3 F3 Hs E1 E2. apply HQ; [by eapply same_queues_trans| |].
    - apply (fc_kept_trans s s1); [done|]. 
      apply fc_kept_refl; [congruence|by destruct Q2, Q3; congruence|].
      intros b. by apply (proj2 (proj2 Hs)).
    - destruct Hs as (Hs1 & Hs2 & _). split; cbn [bytesSent zeroCopy]; try done; try lia.
      + by rewrite !written_app, W1, Hw, Hs1, app_nil_r.
      + by rewrite !dispatched_app, D1, Hs2.
      + intros ->. rewrite Er. by exists limit. }
  clear HQ.
  apply wp_bind.
  assert (Hthreshold : forall (R : unit -> socket -> effects -> Prop),
    (forall s3, same_queues s2 s3 -> d_flowControlState s3 = d_flowControlState s2 ->
       R tt s3 []) ->
    wp lim (when (negb (Bool.eqb ((n0 >=? d_zeroCopyThreshold s2) && negb (Data.isFile data)) zc)
                  && negb (d_zeroCopyThreshold s2 =? k_ZERO_COPY_NEVER))
              (modify (set_zeroCopyThreshold k_ZERO_COPY_NEVER))) s2 R).
  { intros R HR. apply wp_when; intros _; [apply wp_modify|]; apply HR; try done; by split. }
  apply Hthreshold. clear Hthreshold. intros s3 Q3 F3.
  destruct ((n =? 0) && (n0 >? 0)) eqn:Ez.
  { apply wp_ret. rewrite ?app_nil_r. apply (Hrest _ s3 []); try done; lia. }
  assert (Hn : n = 0 -> n0 = 0) by lia.
  (* the timestamp *)
  apply wp_bind.
  assert (Htimestamp : forall (R : unit -> socket -> effects -> Prop),
    (forall s4 l, same_queues s3 s4 -> d_flowControlState s4 = d_flowControlState s3 ->
       silent l -> R tt s4 l) ->
    wp lim (when (d_timestampOutgoingData (d_config s2))
              (let counter := wrap 32 (d_timestampCounter s2 + wrap 32 n) in
               bind (modify (set_timestampCounter counter))
                 (fun _ => emit [e_saveTimestamp (now env) (wrap 32 (counter - 1))]))) s3 R).
  { intros R HR. apply wp_when; intros _; [|apply HR; try done; by split].
    apply wp_bind, wp_modify, wp_emit. apply HR; try done; by split. }
  apply Htimestamp. clear Htimestamp. intros s4 l4 Q4 F4 S4.
  apply wp_bind, wp_get. cbn beta. apply wp_bind.
  assert (Hl4 : limited s4) by (destruct Q12, Q3, Q4; auto).
  destruct (d_sendRateLimiter s4) as [limiter|] eqn:El4.
  - apply wp_bind, wp_lift; [|intros _; by apply Hl4; rewrite El4]. intros limiter' _.
    apply wp_modify. apply wp_bind, wp_modify, wp_ret.
    rewrite ?app_nil_r. apply (Hrest _ _ l4); try done; simpl; try congruence.
    split; simpl; try (destruct Q3, Q4; congruence). intros _ _. apply Hl4. by rewrite El4.
  - apply wp_ret. apply wp_bind, wp_modify, wp_ret.
    rewrite ?app_nil_r. apply (Hrest _ _ l4); try done; simpl; try congruence.
    split; simpl; try (destruct Q3, Q4; congruence). intros _ Hne. simpl in Hne. by rewrite El4 in Hne.
Qed.

End Writing.
End SocketLogic.

(** ** The zero-copy queue, as the socket uses it *)
Module ZeroCopyUse.
Import ZeroCopyQueue.
Section Use.
Context {Blob : Type} {T : SendTypes}.
#[local] Abbreviation Entry := (ZeroCopyEntry.t Blob).

(** The callbacks a list of entries still has to dispatch. *)
Definition callbacks (l : list Entry) : list SendCallback := omap ZeroCopyEntry.d_callback l.

Definition pending (z : t Blob) : list SendCallback :=
  callbacks (d_doneList z) ++ callbacks (d_waitList z).

Lemma zc_callbacks_app l k : callbacks (l ++ k) = callbacks l ++ callbacks k.
Proof. apply omap_app. Qed.

Lemma zc_callbacks_cons e l :
  callbacks (e :: l) = option_list (ZeroCopyEntry.d_callback e) ++ callbacks l.
Proof. unfold callbacks. simpl. by destruct (ZeroCopyEntry.d_callback e). Qed.

(** What the socket relies on of the waiting entries: they are of messages
    before [k]. *)
Definition before (k : Z) (l : list Entry) : Prop :=
  Forall (fun w => ZeroCopyEntry.d_group w < k) l.

(** The last waiting entry is the unfinished one of message [k]. *)
Definition open_at (k : Z) (l : list Entry) : Prop :=
  exists front w, l = front ++ [w] /\ before k front
    /\ ZeroCopyEntry.d_group w = k /\ ZeroCopyEntry.d_framed w = false.

Lemma push_callback_spec group data context callback z :
  match push_callback group data context callback z with
  | Some (_, z') => exists w,
      d_waitList z' = d_waitList z ++ [w] /\ d_doneList z' = d_doneList z
      /\ ZeroCopyEntry.d_group w = group /\ ZeroCopyEntry.d_framed w = false
      /\ ZeroCopyEntry.d_callback w = callback
  | None => ~ before group (d_waitList z)
  end.
Proof.
  unfold push_callback, group_follows.
  destruct (d_waitList z) as [|e l] eqn:El; simpl.
  - refine (ex_intro _ _ (conj eq_refl _)). destruct callback; by split_and!.
  - destruct (ZeroCopyEntry.d_group e <? group) eqn:E.
    + refine (ex_intro _ _ (conj eq_refl _)). destruct callback; by split_and!.
    + intros Hb. apply Forall_cons_iff in Hb as [Hb _]. lia.
Qed.

Lemma push_spec group z :
  match push group z with
  | Some (_, z') => exists front w w',
      d_waitList z = front ++ [w] /\ d_waitList z' = front ++ [w']
      /\ d_doneList z' = d_doneList z
      /\ ZeroCopyEntry.d_group w' = ZeroCopyEntry.d_group w
      /\ ZeroCopyEntry.d_framed w' = ZeroCopyEntry.d_framed w
      /\ ZeroCopyEntry.d_callback w' = ZeroCopyEntry.d_callback w
      /\ ZeroCopyEntry.d_group w = group
  | None => ~ open_at group (d_waitList z)
  end.
Proof.
  unfold push. destruct (split_last (d_waitList z)) as [[front w]|] eqn:El.
  - apply split_last_Some in El. simpl. destruct (ZeroCopyEntry.d_group w =? group) eqn:E.
    + eexists front, w, _. split; [exact El|]. split; [reflexivity|].
      split_and!; try done; try lia;
        unfold ZeroCopyEntry.setMaxCounter; by destruct (ZeroCopyEntry.d_rangeSet w).
    + intros (f & w' & Hl & _ & Hg & _). rewrite El in Hl.
      apply app_inj_tail in Hl as [_ ->]. lia.
  - intros (f & w' & Hl & _). rewrite Hl, split_last_snoc in El. done.
Qed.

Lemma frame_spec group z :
  match frame group z with
  | Some z' => exists front w w',
      d_waitList z = front ++ [w] /\ ZeroCopyEntry.d_group w = group
      /\ ZeroCopyEntry.d_group w' = group
      /\ ZeroCopyEntry.d_callback w' = ZeroCopyEntry.d_callback w
      /\ (d_waitList z' = front /\ d_doneList z' = d_doneList z ++ [w']
          \/ d_waitList z' = front ++ [w'] /\ d_doneList z' = d_doneList z)
  | None => ~ open_at group (d_waitList z)
  end.
Proof.
  unfold frame. destruct (split_last (d_waitList z)) as [[front w]|] eqn:El.
  - apply split_last_Some in El. destruct (ZeroCopyEntry.d_group w =? group) eqn:E.
    + destruct (ZeroCopyEntry.complete _); exists front, w, (ZeroCopyEntry.setFramed true w); rewrite El;
        split_and!; try done; simpl; try lia; auto.
    + intros (f & w' & Hl & _ & Hg & _). rewrite El in Hl.
      apply app_inj_tail in Hl as [_ ->]. lia.
  - intros (f & w' & Hl & _). rewrite Hl, split_last_snoc in El. done.
Qed.

Lemma match_keeps r (e : Entry) :
  ZeroCopyEntry.d_group (ZeroCopyEntry.match_ r e) = ZeroCopyEntry.d_group e
  /\ ZeroCopyEntry.d_framed (ZeroCopyEntry.match_ r e) = ZeroCopyEntry.d_framed e
  /\ ZeroCopyEntry.d_callback (ZeroCopyEntry.match_ r e) = ZeroCopyEntry.d_callback e.
Proof. unfold ZeroCopyEntry.match_. repeat case_match; done. Qed.

(** The loop of [update] loses no callback, keeps the order of the messages,
    and never completes an unfinished last entry. *)
Lemma update_loop_use range l done_ :
  let '(wait', done') := update_loop range l done_ in
  callbacks done_ ++ callbacks l ≡ₚ callbacks done' ++ callbacks wait'
  /\ (forall k, before k l -> before k wait')
  /\ (forall k, open_at k l -> open_at k wait').
Proof.
  revert done_. induction l as [|e l IH]; intros done_; simpl; [done|].
  destruct (ZeroCopyRange.d_maxCounter range <? _); [done|].
  destruct (match_keeps range e) as (Hg & Hf & Hc).
  destruct (ZeroCopyEntry.complete (ZeroCopyEntry.match_ range e)) eqn:Ecomp.
  - specialize (IH (match ZeroCopyEntry.d_callback (ZeroCopyEntry.match_ range e) with
                    | Some _ => done_ ++ [ZeroCopyEntry.match_ range e] | None => done_ end)).
    destruct (update_loop range l _) as [wait' done']. destruct IH as (IH1 & IH2 & IH3).
    split_and!.
    + rewrite <- IH1. rewrite Hc. unfold callbacks at 2. simpl.
      destruct (ZeroCopyEntry.d_callback e) as [cb|] eqn:Ecb; [|done].
      rewrite zc_callbacks_app. unfold callbacks at 4. simpl. rewrite Hc. simpl.
      rewrite <- app_assoc. done.
    + intros k [_ Hb]%Forall_cons_iff. by apply IH2.
    + intros k (front & w & Hl & Hb & Hgw & Hfw). apply IH3.
      destruct front as [|x front]; simplify_eq/=.
      * exfalso. unfold ZeroCopyEntry.complete in Ecomp. by rewrite Hf, Hfw in Ecomp.
      * apply Forall_cons_iff in Hb as [_ Hb]. by exists front, w.
  - specialize (IH done_). destruct (update_loop range l done_) as [wait' done'] eqn:Eu.
    destruct IH as (IH1 & IH2 & IH3). split_and!.
    + unfold callbacks in *. simpl. rewrite Hc.
      destruct (ZeroCopyEntry.d_callback e); simpl; [|done].
      rewrite <- Permutation_middle, IH1. apply Permutation_middle.
    + intros k [Hb0 Hb]%Forall_cons_iff. apply Forall_cons_iff. rewrite Hg. split; [done|by apply IH2].
    + intros k (front & w & Hl & Hb & Hgw & Hfw).
      destruct front as [|x front]; simplify_eq/=.
      * exists [], (ZeroCopyEntry.match_ range w). split_and!; try done; congruence.
      * apply Forall_cons_iff in Hb as [Hb0 Hb].
        destruct (IH3 (ZeroCopyEntry.d_group w)) as (f' & w' & -> & Hb' & Hg' & Hf').
        { by exists front, w. }
        exists (ZeroCopyEntry.match_ range x :: f'), w'. split_and!; try done.
        apply Forall_cons_iff. destruct (match_keeps range x) as (-> & _). done.
Qed.

Lemma update_spec n z :
  pending (update n z) ≡ₚ pending z
  /\ (forall k, before k (d_waitList z) -> before k (d_waitList (update n z)))
  /\ (forall k, open_at k (d_waitList z) -> open_at k (d_waitList (update n z))).
Proof.
  unfold update, pending.
  destruct (ZeroCopyCounterGenerator.update n (d_generator z)) as [range generator].
  pose proof (update_loop_use range (d_waitList z) (d_doneList z)) as Hu.
  destruct (update_loop range (d_waitList z) (d_doneList z)) as [wait' done'].
  destruct Hu as (Hp & Hb & Ho). simpl. split_and!; auto. by rewrite Hp.
Qed.

Lemma pop_use z :
  let '(popped, z') := pop z in
  pending z ≡ₚ option_list (option_map snd popped) ++ pending z'
  /\ d_waitList z' = d_waitList z.
Proof.
  unfold pop, pending.
  assert (Hp : forall l, let '(popped, l') := pop_loop l in
    callbacks l = option_list (option_map snd popped) ++ callbacks l').
  { induction l as [|e l IH]; simpl; [done|]. unfold callbacks at 1. simpl.
    destruct (ZeroCopyEntry.d_callback e); [done|].
    destruct (pop_loop l) as [popped l']. apply IH. }
  specialize (Hp (d_doneList z)). destruct (pop_loop (d_doneList z)) as [popped l'].
  simpl. rewrite Hp. by rewrite <- app_assoc.
Qed.

Lemma clear_spec z :
  let '(entries, z') := clear_entries [] z in
  callbacks entries = pending z /\ pending z' = [] /\ d_waitList z' = [].
Proof.
  assert (Hf : forall l, callbacks (List.filter has_callback l) = callbacks l).
  { induction l as [|e l IH]; [done|]. cbn [List.filter]. unfold has_callback at 1.
    destruct (ZeroCopyEntry.d_callback e) eqn:Ec; rewrite !zc_callbacks_cons, ?Ec, IH; done. }
  unfold clear_entries. simpl. rewrite zc_callbacks_app, !Hf. done.
Qed.

End Use.
End ZeroCopyUse.
