(* ===== verification/StreamSocketFacts.v ===== *)
(** * The invariant of the send side of the stream socket

    What relates the state of [StreamSocket] to what an observer knows: the bytes
    on the wire and queued, the callbacks, the interest in writability. The
    lemmas show that every section keeps it and fails no assertion. *)

From S2P Require Import Prelude Errors Buffers Watermark SendQueue ZeroCopy SocketState.
From S2P Require Import TimeInterval RateLimiter Sections StreamSocket StreamSocketLogic.

Module SocketInvariant.
Import StreamSocket Observation SocketLogic.
Section Invariant.
Context {Blob : Type} `{BO : BlobOps Blob} `{BL : !BlobLaws Blob} {T : SendTypes}.
Context `{SC : !SendContextOps} {L TI : Type} `{LO : LimiterOps L TI}.
Context (maxBuffersPerSend : Z).
(** Whether the socket may have a rate limiter, the only thing that may then
    fail an assertion. *)
Context (lim : bool).
(** The configuration of the socket, which no section changes. *)
Context (config : Config).
#[local] Abbreviation socket := (StreamSocket.t (Blob := Blob) (L := L)).
#[local] Abbreviation effects := (list (Effect (T := T) (TI := TI))).
#[local] Abbreviation Entry := (SendQueueEntry.t Blob).

(** ** What an observer knows

    The bytes written so far, the messages accepted and not withdrawn, the
    callbacks of the messages accepted, those dispatched, those that were left
    with both their entry and the zero-copy queue, and whether the reactor watches
    for writability. A one-shot reactor no longer does after it has delivered an
    event: then the number of threads that process one counts, and whether an
    event was spent, that is, processed while nothing was queued although flow
    control wanted it. *)
Record Ghost : Type := mkGhost {
  g_wire : list byte;
  g_messages : list (list byte);
  g_accepted : list SendCallback;
  g_dispatched : list SendCallback;
  g_shared : list SendCallback;
  g_watching : bool;
  g_processing : nat;
  g_spent : bool
}.

(** The interest is shown again after an event was spent. *)
Definition unspent_by (b : bool) (e : Effect (T := T) (TI := TI)) : bool :=
  match e with e_showWritable => false | _ => b end.

Definition unspent (b : bool) (l : effects) : bool := fold_left unspent_by l b.

Definition observe (l : effects) (g : Ghost) : Ghost :=
  mkGhost (g_wire g ++ written l) (g_messages g) (g_accepted g)
    (g_dispatched g ++ dispatched l) (g_shared g) (interest (g_watching g) l)
    (g_processing g) (unspent (g_spent g) l).

(** An empty message adds nothing to the stream; the callback may be left in two
    places. *)
Definition accept (message : list byte) (callback : option SendCallback) (twice : bool) (g : Ghost)
  : Ghost :=
  mkGhost (g_wire g) (match message with [] => g_messages g | _ => g_messages g ++ [message] end)
    (g_accepted g ++ option_list callback) (g_dispatched g)
    (g_shared g ++ if twice then option_list callback else []) (g_watching g) (g_processing g)
    (g_spent g).

(** The parts of an observation. *)
Definition watch (l : effects) (g : Ghost) : Ghost :=
  mkGhost (g_wire g) (g_messages g) (g_accepted g) (g_dispatched g) (g_shared g)
    (interest (g_watching g) l) (g_processing g) (unspent (g_spent g) l).

Definition deliver (b : list byte) (callbacks : list SendCallback) (g : Ghost) : Ghost :=
  mkGhost (g_wire g ++ b) (g_messages g) (g_accepted g) (g_dispatched g ++ callbacks)
    (g_shared g) (g_watching g) (g_processing g) (g_spent g).

(** A one-shot reactor delivers an event, and a thread has processed it: [idle]
    when nothing was queued and flow control wanted writability. *)
Definition event (g : Ghost) : Ghost :=
  mkGhost (g_wire g) (g_messages g) (g_accepted g) (g_dispatched g) (g_shared g) false
    (S (g_processing g)) (g_spent g).

Definition processed (idle : bool) (g : Ghost) : Ghost :=
  mkGhost (g_wire g) (g_messages g) (g_accepted g) (g_dispatched g) (g_shared g) (g_watching g)
    (pred (g_processing g)) (g_spent g || idle).

(** Someone is in charge of the writability of the socket. *)
Definition attending (g : Ghost) : bool := g_watching g || (0 <? g_processing g)%nat || g_spent g.

(** ** The invariant *)

Definition has_data (e : Entry) : bool :=
  match SendQueueEntry.d_data e with Some _ => true | None => false end.

Definition data_entries (l : list Entry) : list Entry := List.filter has_data l.

(** The callback that an entry owns, and the one that it has while the zero-copy
    queue has it as well. *)
Definition own (e : Entry) : option SendCallback :=
  if SendQueueEntry.d_zeroCopy e then None else SendQueueEntry.d_callback e.

Definition spare (e : Entry) : option SendCallback :=
  if SendQueueEntry.d_zeroCopy e then SendQueueEntry.d_callback e else None.

Definition callbacks (l : list Entry) : list SendCallback := omap own l.
Definition spares (l : list Entry) : list SendCallback := omap spare l.

(** Callbacks are neither lost nor repeated, except that some of those that were
    left in two places are dispatched [again]. *)
Definition conserved (accepted shared rest : list SendCallback) (l : list Entry) : Prop :=
  exists again, accepted ++ again ≡ₚ rest ++ callbacks l /\ again ++ spares l ⊆+ shared.

(** The messages are those written entirely, then those of the entries; of
    the first of these, a part may be on the wire, and it then has no deadline
    any more. *)
Definition aligned (wire : list byte) (messages : list (list byte)) (l : list Entry) : Prop :=
  exists delivered part live,
    messages = delivered ++ live /\ wire = concat delivered ++ part /\
    match l with
    | [] => live = [] /\ part = []
    | e :: rest =>
        live = (part ++ SendQueue.entry_bytes e) :: map SendQueue.entry_bytes rest
        /\ (part <> [] -> SendQueueEntry.d_deadline e = None)
    end.

(** The entries are of messages in order, of which only the first can be in
    the zero-copy queue, where it is then the last, unfinished. *)
Record ordered (counter : Z) (wait : list (ZeroCopyEntry.t Blob)) (l : list Entry) : Prop := {
  or_sorted : StronglySorted (fun e e' => SendQueueEntry.d_id e < SendQueueEntry.d_id e') l;
  or_below : Forall (fun e => SendQueueEntry.d_id e < counter) l;
  or_wait : match l with
    | [] => ZeroCopyUse.before counter wait
    | e :: rest =>
        (if SendQueueEntry.d_zeroCopy e
         then ZeroCopyUse.open_at (SendQueueEntry.d_id e) wait
         else ZeroCopyUse.before (SendQueueEntry.d_id e) wait)
        /\ Forall (fun e => SendQueueEntry.d_zeroCopy e = false) rest
    end
}.

(** The data of an entry is a range of memory or a blob. *)
Definition entry_fine (e : Entry) : Prop :=
  match SendQueueEntry.d_data e with
  | Some d => Data.contiguous d
  | None => SendQueueEntry.d_callback e = None
  end.

Record Inv (s : socket) (g : Ghost) : Prop := {
  inv_config : d_config s = config;
  inv_queue : SendQueue.wf (d_sendQueue s);
  inv_entries : Forall entry_fine (SendQueue.d_entryList (d_sendQueue s));
  inv_aligned : canSend s = true ->
    aligned (g_wire g) (g_messages g) (data_entries (SendQueue.d_entryList (d_sendQueue s)));
  inv_ordered : lim = false ->
    ordered (d_sendCounter s) (ZeroCopyQueue.d_waitList (d_zeroCopyQueue s))
      (data_entries (SendQueue.d_entryList (d_sendQueue s)));
  inv_callbacks : conserved (g_accepted g) (g_shared g)
    (g_dispatched g ++ ZeroCopyUse.pending (d_zeroCopyQueue s))
    (SendQueue.d_entryList (d_sendQueue s));
  inv_fc : fc_ok (d_flowControlState s);
  inv_watched : watched s (attending g);
  inv_attended : canSend s = true -> FlowControlState.d_closed (d_flowControlState s) = false ->
    SendQueue.hasEntry (d_sendQueue s) = true -> attended (d_flowControlState s);
  inv_shutdown : ShutdownState.wf (d_shutdownState s);
  inv_limited : limited (lim = true) s
}.

#[local] Abbreviation wp := (Sections.wp (S := socket) (E := Effect (T := T) (TI := TI)) (lim = true)).

(** *** What an observer counts *)

Lemma unspent_app b l k : unspent b (l ++ k) = unspent (unspent b l) k.
Proof. apply fold_left_app. Qed.

Lemma unspent_id b (l : effects) : (forall b, interest b l = b) -> unspent b l = b.
Proof.
  induction l as [|e l IH] using rev_ind; [done|]. intros Hi. rewrite unspent_app.
  assert (forall c, interest_of (interest c l) e = c) as Hi'
    by (intros c; pose proof (Hi c) as Hc; by rewrite interest_app in Hc).
  pose proof (Hi' false) as Hf. pose proof (Hi' true) as Ht.
  destruct e; simpl in *; try done; by rewrite IH.
Qed.

Lemma attending_watch (s : socket) g l :
  watched s (interest (attending g) l) -> watched s (attending (watch l g)).
Proof.
  intros Hw Hc He. specialize (Hw Hc He). unfold attending in *. simpl.
  induction l as [|e l IH] using rev_ind; [done|]. rewrite interest_app in *.
  rewrite unspent_app. destruct e; simpl in *; auto; congruence.
Qed.

(** *** Changes that do not touch the queues *)

(** Flow control, the rate limiter and counters changed. *)
Lemma Inv_watch (s s' : socket) g l :
  Inv s g -> same_queues (lim = true) s s' -> fc_kept s s' l -> Inv s' (watch l g).
Proof.
  intros [] [Ec Eo Es Ez Eq En El] [].
  assert (Hcs : canSend s' = canSend s) by (unfold canSend; by rewrite Es).
  split; cbn [g_wire g_messages g_accepted g_dispatched g_shared watch];
    rewrite ?Ez, ?Eq, ?En, ?Hcs, ?Es, ?Ec; auto.
  - apply attending_watch. auto.
  - intros Ho Hc. rewrite fk_closed0 in Hc. auto.
Qed.

Lemma observe_watch l g : observe l g = deliver (written l) (dispatched l) (watch l g).
Proof. done. Qed.

Lemma watch_id l g : (forall b, interest b l = b) -> watch l g = g.
Proof. intros Hi. unfold watch. rewrite Hi, unspent_id by done. by destruct g. Qed.

Lemma watch_app_id l k g : (forall b, interest b l = b) -> watch (l ++ k) g = watch k g.
Proof. intros Hi. unfold watch. by rewrite interest_app, unspent_app, Hi, (unspent_id _ l). Qed.

Lemma watch_silent l g : silent l -> watch l g = g.
Proof. intros (_ & _ & Hi). by apply watch_id. Qed.

Lemma deliver_nil g : deliver [] [] g = g.
Proof. unfold deliver. rewrite !app_nil_r. by destruct g. Qed.

Lemma deliver_deliver b b' c c' g :
  deliver b' c' (deliver b c g) = deliver (b ++ b') (c ++ c') g.
Proof. unfold deliver. simpl. by rewrite !app_assoc. Qed.

Lemma Inv_kept (s s' : socket) g l :
  Inv s g -> same_queues (lim = true) s s' -> fc_kept s s' l ->
  written l = [] -> dispatched l = [] -> Inv s' (observe l g).
Proof.
  intros I Hq Hk Hw Hd. rewrite observe_watch, Hw, Hd, deliver_nil. by apply (Inv_watch s).
Qed.

Lemma observe_silent l g : silent l -> observe l g = g.
Proof. intros Hs. rewrite observe_watch, watch_silent by done. destruct Hs as (-> & -> & _). apply deliver_nil. Qed.

Lemma observe_app l k g : observe (l ++ k) g = observe k (observe l g).
Proof. unfold observe. simpl. by rewrite written_app, dispatched_app, interest_app, unspent_app, !app_assoc. Qed.

Lemma observe_nil g : observe [] g = g.
Proof. by apply observe_silent. Qed.

(** The zero-copy threshold is no part of it. *)
Lemma fc_change_kept (s : socket) fc (l : effects) :
  fc_change s fc l -> (attended (d_flowControlState s) -> attended fc) ->
  fc_kept s (set_flowControlState fc s) l.
Proof. intros [] Ha. by split. Qed.

Lemma wp_relax (s : socket) g dir defer unlock Q :
  Inv s g ->
  (forall s' l, Inv s' (observe l g) -> same_queues (lim = true) s s' ->
     written l = [] -> dispatched l = [] ->
     ((FlowControlState.selects dir).1 = true ->
      FlowControlState.d_closed (d_flowControlState s') = false ->
      attended (d_flowControlState s')) -> Q tt s' l) ->
  wp (privateRelaxFlowControl dir defer unlock) s Q.
Proof.
  intros I HQ. apply privateRelaxFlowControl_spec. intros fc l Hc Ha Hsel.
  apply HQ; try by destruct Hc.
  - apply (Inv_kept s); [done|by split|by apply fc_change_kept|by destruct Hc..].
  - intros Hd Hcl. apply Hsel; [done|]. destruct Hc as [_ _ _ Hcc _]. simpl in Hcl. congruence.
Qed.

(** Applying flow control keeps the invariant when it locks, when it is not
    that of the send direction, and when nothing is queued. *)
Lemma wp_apply (s : socket) g dir defer lock Q :
  Inv s g ->
  (lock = true \/ (FlowControlState.selects dir).1 = false)
  \/ SendQueue.hasEntry (d_sendQueue s) = false ->
  (forall s' l, Inv s' (observe l g) -> same_queues (lim = true) s s' ->
     written l = [] -> dispatched l = [] -> Q tt s' l) ->
  wp (privateApplyFlowControl dir defer lock) s Q.
Proof.
  intros I Hlock HQ. apply privateApplyFlowControl_spec. intros fc l Hc Ha.
  apply HQ; try by destruct Hc.
  destruct Hlock as [Hlock|Hempty].
  - apply (Inv_kept s); [done|by split| |by destruct Hc..].
    by apply fc_change_kept; [|apply Ha].
  - rewrite observe_watch. destruct I, Hc as [Hw Hd Hok Hcl Hwt]. rewrite Hw, Hd, deliver_nil.
    split; try (simpl; auto; fail); [by apply attending_watch, Hwt|]. intros _ _ He. simpl in He. congruence.
Qed.

(** *** Changes of the two queues *)

Record queues_only (s s' : socket) : Prop := {
  qo_fc : d_flowControlState s' = d_flowControlState s;
  qo_shutdown : d_shutdownState s' = d_shutdownState s;
  qo_counter : d_sendCounter s' = d_sendCounter s;
  qo_limiter : d_sendRateLimiter s' = d_sendRateLimiter s;
  qo_config : d_config s' = d_config s;
  qo_open : d_openState s' = d_openState s
}.

Lemma queues_only_refl s : queues_only s s.
Proof. by split. Qed.

Lemma queues_only_trans a b c : queues_only a b -> queues_only b c -> queues_only a c.
Proof. intros [] []. split; congruence. Qed.

Lemma Inv_queues (s s' : socket) g g' :
  Inv s g -> queues_only s s' -> attending g' = attending g ->
  SendQueue.wf (d_sendQueue s') ->
  Forall entry_fine (SendQueue.d_entryList (d_sendQueue s')) ->
  (canSend s = true ->
   aligned (g_wire g) (g_messages g) (data_entries (SendQueue.d_entryList (d_sendQueue s))) ->
   aligned (g_wire g') (g_messages g') (data_entries (SendQueue.d_entryList (d_sendQueue s')))) ->
  (lim = false ->
   ordered (d_sendCounter s) (ZeroCopyQueue.d_waitList (d_zeroCopyQueue s))
     (data_entries (SendQueue.d_entryList (d_sendQueue s))) ->
   ordered (d_sendCounter s) (ZeroCopyQueue.d_waitList (d_zeroCopyQueue s'))
     (data_entries (SendQueue.d_entryList (d_sendQueue s')))) ->
  conserved (g_accepted g') (g_shared g')
    (g_dispatched g' ++ ZeroCopyUse.pending (d_zeroCopyQueue s'))
    (SendQueue.d_entryList (d_sendQueue s')) ->
  (SendQueue.hasEntry (d_sendQueue s') = true -> SendQueue.hasEntry (d_sendQueue s) = true) ->
  Inv s' g'.
Proof.
  intros [] [Ef Es Ec El Eg _] Hw ? ? Ha Ho ? Hh.
  assert (Hcs : canSend s' = canSend s) by (unfold canSend; by rewrite Es).
  split; rewrite ?Hcs, ?Ef, ?Es, ?Ec, ?Eg, ?Hw; auto.
  - unfold watched. by rewrite Hcs, Ef.
  - unfold limited. by rewrite El.
Qed.

Lemma omap_option_list {A B} (f : A -> option B) x l : omap f (x :: l) = option_list (f x) ++ omap f l.
Proof. simpl. by destruct (f x). Qed.

Lemma callbacks_app l k : callbacks (l ++ k) = callbacks l ++ callbacks k.
Proof. apply omap_app. Qed.

Lemma spares_app l k : spares (l ++ k) = spares l ++ spares k.
Proof. apply omap_app. Qed.

Lemma callbacks_cons e l : callbacks (e :: l) = option_list (own e) ++ callbacks l.
Proof. apply omap_option_list. Qed.

Lemma spares_cons e l : spares (e :: l) = option_list (spare e) ++ spares l.
Proof. apply omap_option_list. Qed.

Lemma own_spare e : option_list (own e) ++ option_list (spare e) = option_list (SendQueueEntry.d_callback e).
Proof. unfold own, spare. destruct (SendQueueEntry.d_zeroCopy e); [done|]. by rewrite app_nil_r. Qed.

#[export] Instance conserved_proper acc sh : Proper ((≡ₚ) ==> (=) ==> iff) (conserved acc sh).
Proof. intros r r' Hr l l' ->. unfold conserved. by setoid_rewrite Hr. Qed.

(** Callbacks move between the entries and the rest; entries may lose a spare
    one. *)
Lemma conserved_moved acc sh rest rest' l l' :
  conserved acc sh rest l -> rest' ++ callbacks l' ≡ₚ rest ++ callbacks l -> spares l' ⊆+ spares l ->
  conserved acc sh rest' l'.
Proof.
  intros (again & Ha & Hs) Hr Hl. exists again. split; [by rewrite Hr|].
  etrans; [|exact Hs]. by apply submseteq_app.
Qed.

(** The spare callbacks of entries are dispatched as well. *)
Lemma conserved_again acc sh rest rest' l l' cbs :
  conserved acc sh rest l -> rest' ++ callbacks l' ≡ₚ rest ++ callbacks l ++ cbs ->
  cbs ++ spares l' ⊆+ spares l -> conserved acc sh rest' l'.
Proof.
  intros (again & Ha & Hs) Hr Hl. exists (again ++ cbs). split.
  - by rewrite app_assoc, Ha, Hr, <- app_assoc.
  - rewrite <- app_assoc. etrans; [|exact Hs]. by apply submseteq_app.
Qed.

(** A callback is accepted, and its entry may have a spare one. *)
Lemma conserved_accepted acc sh rest rest' l l' cbs extra :
  conserved acc sh rest l -> rest' ++ callbacks l' ≡ₚ rest ++ callbacks l ++ cbs ->
  spares l' ⊆+ spares l ++ extra -> conserved (acc ++ cbs) (sh ++ extra) rest' l'.
Proof.
  intros (again & Ha & Hs) Hr Hl. exists again. split.
  - rewrite <- app_assoc, (Permutation_app_comm cbs), app_assoc, Ha, Hr. by rewrite <- app_assoc.
  - etrans; [apply submseteq_app; [reflexivity|exact Hl]|]. rewrite app_assoc. by apply submseteq_app.
Qed.

Lemma data_entries_cons e d l :
  SendQueueEntry.d_data e = Some d -> data_entries (e :: l) = e :: data_entries l.
Proof. intros Hd. unfold data_entries. simpl. unfold has_data at 1. by rewrite Hd. Qed.

Lemma aligned_front w m e e' l :
  SendQueue.entry_bytes e' = SendQueue.entry_bytes e ->
  SendQueueEntry.d_deadline e' = None -> aligned w m (e :: l) -> aligned w m (e' :: l).
Proof.
  intros Hb Hd (done_ & part & live & -> & -> & -> & _).
  exists done_, part, ((part ++ SendQueue.entry_bytes e) :: map SendQueue.entry_bytes l).
  by rewrite Hb.
Qed.

(** The zero-copy queue after more of the front entry was written. *)
Lemma ordered_front counter wait wait' e e' l :
  SendQueueEntry.d_id e' = SendQueueEntry.d_id e ->
  (SendQueueEntry.d_zeroCopy e' = true /\ ZeroCopyUse.open_at (SendQueueEntry.d_id e) wait'
   \/ SendQueueEntry.d_zeroCopy e' = SendQueueEntry.d_zeroCopy e /\ wait' = wait) ->
  ordered counter wait (e :: l) -> ordered counter wait' (e' :: l).
Proof.
  intros Hid Hz [Hs Hb [Hw Hr]]. split.
  - apply StronglySorted_inv in Hs as [Hs He]. constructor; [done|]. by rewrite Hid.
  - apply Forall_cons_iff in Hb as [Hb Hb']. apply Forall_cons_iff. by rewrite Hid.
  - split; [|done]. rewrite Hid. destruct Hz as [[-> ?]|[-> ->]]; done.
Qed.

Lemma entry_fine_cons e l : Forall entry_fine (e :: l) -> entry_fine e /\ Forall entry_fine l.
Proof. apply Forall_cons_iff. Qed.

(** Reads the two queues through the setters. *)
#[local] Ltac queues :=
  cbn [d_sendQueue d_zeroCopyQueue set_sendQueue set_zeroCopyQueue set_flowControlState
       d_flowControlState d_shutdownState set_shutdownState d_sendCounter].

(** Replacing the front entry by one with the same data. *)
Lemma set_front_wf q e e' rest :
  SendQueue.wf q -> SendQueue.d_entryList q = e :: rest ->
  SendQueueEntry.d_data e' = SendQueueEntry.d_data e ->
  SendQueueEntry.d_length e' = SendQueueEntry.d_length e ->
  SendQueue.wf (set_front e' q) /\ SendQueue.d_entryList (set_front e' q) = e' :: rest.
Proof.
  intros [] Hl Hd Hn. unfold set_front. rewrite Hl in *. simpl. split; [|done].
  apply Forall_cons_iff in wf_entries as [He Hr].
  split; simpl; try done.
  - apply Forall_cons_iff. split; [|done]. unfold SendQueue.entry_ok in *. by rewrite Hd, Hn.
  - rewrite wf_size, !sum_with_cons. unfold SendQueue.entry_size at 1 3. by rewrite Hd, Hn.
Qed.

Lemma wp_entryWritten (s : socket) g written e rest d Q :
  Inv s g -> SendQueue.d_entryList (d_sendQueue s) = e :: rest ->
  SendQueueEntry.d_data e = Some d ->
  (forall e' s' l, silent l -> Inv s' g -> queues_only s s' ->
     SendQueue.d_entryList (d_sendQueue s') = e' :: rest ->
     SendQueueEntry.d_data e' = Some d ->
     SendQueueEntry.d_length e' = SendQueueEntry.d_length e ->
     SendQueueEntry.d_deadline e' = None -> Q e' s' l) ->
  wp (entryWritten written) s Q.
Proof.
  intros I Hl Hd HQ. unfold entryWritten. apply wp_bind, wp_get. cbn beta.
  apply wp_bind. unfold SendQueue.frontEntry. rewrite Hl. apply wp_lift; [|done].
  intros ? [= <-]. cbn beta.
  set (p := match SendQueueEntry.d_deadline e with Some _ => _ | None => _ end).
  assert (Hp : SendQueueEntry.d_data p.1 = Some d
    /\ SendQueueEntry.d_length p.1 = SendQueueEntry.d_length e
    /\ SendQueueEntry.d_id p.1 = SendQueueEntry.d_id e
    /\ SendQueueEntry.d_zeroCopy p.1 = SendQueueEntry.d_zeroCopy e
    /\ SendQueueEntry.d_callback p.1 = SendQueueEntry.d_callback e
    /\ SendQueueEntry.d_deadline p.1 = None).
  { unfold p, SendQueueEntry.closeTimer. destruct (SendQueueEntry.d_deadline e) eqn:Edl;
      [simpl; destruct (SendQueueEntry.d_timer e)|]; simpl; by rewrite ?Hd, ?Edl. }
  destruct p as [e1 closed]. simpl in Hp. destruct Hp as (Hd1 & Hn1 & Hi1 & Hz1 & Hc1 & Hdl1).
  apply wp_bind, wp_emit. cbn beta. apply wp_bind.
  pose proof (inv_entries s g I) as Hfine. rewrite Hl in Hfine.
  apply entry_fine_cons in Hfine as [Hec Hfr].
  (* the end, for whatever becomes of the entry and of the zero-copy queue *)
  assert (Hend : forall e' z l',
    SendQueueEntry.d_data e' = Some d ->
    SendQueueEntry.d_length e' = SendQueueEntry.d_length e ->
    SendQueueEntry.d_id e' = SendQueueEntry.d_id e ->
    SendQueueEntry.d_deadline e' = None ->
    spare e' = spare e ->
    (lim = false -> ordered (d_sendCounter s) (ZeroCopyQueue.d_waitList (d_zeroCopyQueue s))
       (e :: data_entries rest) ->
     ordered (d_sendCounter s) (ZeroCopyQueue.d_waitList z) (e' :: data_entries rest)) ->
    ZeroCopyUse.pending z ++ option_list (own e') ≡ₚ
      ZeroCopyUse.pending (d_zeroCopyQueue s) ++ option_list (own e) ->
    silent l' ->
    wp (bind (modify (set_sendQueue (set_front e' (d_sendQueue s)))) (fun _ => ret e'))
      (set_zeroCopyQueue z s)
      (fun x s'' l'' => Q x s'' (map e_closeTimer closed ++ l' ++ l''))).
  { intros e' z l' Hd' Hn' Hi' Hdl' Hz' Ho' Hc' Hs'.
    apply wp_bind, wp_modify, wp_ret.
    destruct (set_front_wf (d_sendQueue s) e e' rest) as [Hwf' Hl']; try done;
      [by apply (inv_queue s g I)|congruence|].
    apply HQ; try done.
    - rewrite !app_nil_r. apply silent_app; [apply silent_closeTimers|done].
    - apply (Inv_queues s _ g g I); try done; queues; rewrite ?Hl'.
      + apply Forall_cons_iff. split; [|done]. unfold entry_fine in *.
        rewrite Hd'. by rewrite Hd in Hec.
      + intros _. rewrite Hl, (data_entries_cons e d), (data_entries_cons e' d) by done.
        apply aligned_front; [|done]. unfold SendQueue.entry_bytes. by rewrite Hd, Hd'.
      + intros Hlim. rewrite Hl, (data_entries_cons e d), (data_entries_cons e' d) by done.
        by apply Ho'.
      + apply (conserved_moved _ _ _ _ _ _ (inv_callbacks s g I)); rewrite Hl.
        * rewrite !callbacks_cons, <- !app_assoc. f_equiv. by rewrite app_assoc, Hc', <- app_assoc.
        * by rewrite !spares_cons, Hz'.
      + unfold SendQueue.hasEntry. by rewrite Hl. }
  destruct (zeroCopy written); cycle 1.
  assert (own e1 = own e /\ spare e1 = spare e) as [Ho1 Hs1] by (unfold own, spare; by rewrite Hc1, Hz1).
  { apply wp_ret. cbn beta. destruct s. apply Hend; try done; [|by rewrite Ho1].
    intros _. apply ordered_front; [done|]. by right. }
  assert (own e1 = own e /\ spare e1 = spare e) as [Ho1 Hs1] by (unfold own, spare; by rewrite Hc1, Hz1).
  rewrite Hi1, Hz1.
  pose proof (inv_ordered s g I) as Hord. rewrite Hl, (data_entries_cons e d) in Hord by done.
  destruct (SendQueueEntry.d_zeroCopy e) eqn:Hze.
  - pose proof (ZeroCopyUse.push_spec (SendQueueEntry.d_id e) (d_zeroCopyQueue s)) as Hpush.
    apply wp_bind, wp_lift; cycle 1.
    { intros Hnone. rewrite Hnone in Hpush. destruct lim; [done|]. exfalso. apply Hpush.
      destruct (Hord eq_refl) as [_ _ [Hw _]]. by rewrite Hze in Hw. }
    intros [counter z] Hz. rewrite Hz in Hpush. cbn beta iota.
    destruct Hpush as (front & w & w' & Hwt & Hwt' & Hdn & Hg & Hf & Hcb & Hgr).
    apply wp_bind, wp_modify, wp_ret. cbn beta. apply (Hend e1 z []); try done.
    + intros Hlim Ho. apply (ordered_front _ (ZeroCopyQueue.d_waitList (d_zeroCopyQueue s)) _ e);
        try done. left. split; [congruence|].
      destruct Ho as [_ _ [Hw _]]. rewrite Hze in Hw. destruct Hw as (f0 & w0 & H0 & ? & ? & ?).
      rewrite Hwt in H0. apply app_inj_tail in H0 as [<- <-].
      exists front, w'. rewrite Hwt'. split_and!; try done; congruence.
    + rewrite Ho1. unfold ZeroCopyUse.pending.
      rewrite Hwt, Hwt', Hdn, !ZeroCopyUse.zc_callbacks_app, !ZeroCopyUse.zc_callbacks_cons, Hcb. done.
  - pose proof (ZeroCopyUse.push_callback_spec (SendQueueEntry.d_id e) (SendQueueEntry.d_data e1)
      (SendQueueEntry.d_context e1) (SendQueueEntry.d_callback e1) (d_zeroCopyQueue s)) as Hpush.
    apply wp_bind, wp_lift; cycle 1.
    { intros Hnone. rewrite Hnone in Hpush. destruct lim; [done|]. exfalso. apply Hpush.
      destruct (Hord eq_refl) as [_ _ [Hw _]]. by rewrite Hze in Hw. }
    intros [counter z] Hz. rewrite Hz in Hpush. cbn beta iota.
    destruct Hpush as (w & Hwt & Hdn & Hg & Hf & Hcb).
    apply wp_bind, wp_modify, wp_ret. cbn beta.
    assert (own e = SendQueueEntry.d_callback e) as Howe by (unfold own; by rewrite Hze).
    apply (Hend _ z []); try done.
    + unfold spare. simpl. by rewrite Hze.
    + intros Hlim Ho. apply (ordered_front _ (ZeroCopyQueue.d_waitList (d_zeroCopyQueue s)) _ e);
        try done. left. split; [done|].
      destruct Ho as [_ _ [Hw _]]. rewrite Hze in Hw.
      exists (ZeroCopyQueue.d_waitList (d_zeroCopyQueue s)), w. by rewrite Hwt.
    + simpl. unfold ZeroCopyUse.pending.
      rewrite Hwt, Hdn, !ZeroCopyUse.zc_callbacks_app, !ZeroCopyUse.zc_callbacks_cons, Hcb, Hc1, Howe.
      simpl. rewrite !app_nil_r, <- !app_assoc. done.
Qed.

(** *** The end of the front entry *)

Lemma aligned_pop w m e l :
  aligned w m (e :: l) -> aligned (w ++ SendQueue.entry_bytes e) m l.
Proof.
  intros (done_ & part & live & -> & -> & -> & _).
  exists (done_ ++ [part ++ SendQueue.entry_bytes e]), [], (map SendQueue.entry_bytes l).
  split_and!; [by rewrite <- app_assoc| |by destruct l].
  rewrite concat_app. simpl. by rewrite !app_nil_r, app_assoc.
Qed.

Lemma aligned_part w m e e' l n :
  SendQueue.entry_bytes e' = drop n (SendQueue.entry_bytes e) ->
  SendQueueEntry.d_deadline e' = None ->
  aligned w m (e :: l) -> aligned (w ++ take n (SendQueue.entry_bytes e)) m (e' :: l).
Proof.
  intros Hb Hd (done_ & part & live & -> & -> & -> & _).
  exists done_, (part ++ take n (SendQueue.entry_bytes e)),
    ((part ++ SendQueue.entry_bytes e) :: map SendQueue.entry_bytes l).
  split_and!; [done|by rewrite app_assoc| |done].
  by rewrite Hb, <- app_assoc, take_drop.
Qed.

Lemma before_mono k k' (l : list (ZeroCopyEntry.t Blob)) :
  k <= k' -> ZeroCopyUse.before k l -> ZeroCopyUse.before k' l.
Proof. intros Hk. apply Forall_impl. intros w. lia. Qed.

Lemma ordered_pop counter wait wait' e l :
  ordered counter wait (e :: l) ->
  (forall k, SendQueueEntry.d_id e < k -> ZeroCopyUse.before k wait') ->
  ordered counter wait' l.
Proof.
  intros [Hs Hb [_ Hr]] Hk.
  apply StronglySorted_inv in Hs as [Hs He]. apply Forall_cons_iff in Hb as [Hb Hb'].
  split; [done..|]. destruct l as [|e' l]; [by apply Hk|].
  apply Forall_cons_iff in Hr as [-> Hr], He as [He _]. split; [by apply Hk|done].
Qed.

(** The zero-copy queue once the entry of the last message is framed. *)
Lemma frame_before k k' (z z' : ZeroCopyQueue.t Blob) :
  ZeroCopyUse.open_at k (ZeroCopyQueue.d_waitList z) -> ZeroCopyQueue.frame k z = Some z' ->
  k < k' -> ZeroCopyUse.before k' (ZeroCopyQueue.d_waitList z').
Proof.
  intros (f & w & Hl & Hb & Hg & _) Hz Hk.
  pose proof (ZeroCopyUse.frame_spec k z) as Hf. rewrite Hz in Hf.
  destruct Hf as (f' & w0 & w' & Hl' & _ & Hg' & _ & Hcase).
  rewrite Hl in Hl'. apply app_inj_tail in Hl' as [<- <-].
  apply (before_mono k k') in Hb; [|lia].
  destruct Hcase as [[-> _]|[-> _]]; [done|].
  apply Forall_app. split; [done|]. apply Forall_singleton. lia.
Qed.

Lemma frame_pending k (z z' : ZeroCopyQueue.t Blob) :
  ZeroCopyQueue.frame k z = Some z' -> ZeroCopyUse.pending z' ≡ₚ ZeroCopyUse.pending z.
Proof.
  intros Hz. pose proof (ZeroCopyUse.frame_spec k z) as Hf. rewrite Hz in Hf.
  destruct Hf as (f & w & w' & Hl & _ & _ & Hc & Hcase). unfold ZeroCopyUse.pending. rewrite Hl.
  destruct Hcase as [[-> ->]|[-> ->]];
    rewrite !ZeroCopyUse.zc_callbacks_app, !ZeroCopyUse.zc_callbacks_cons, Hc; simpl;
    rewrite ?app_nil_r; [|done].
  rewrite <- app_assoc. apply Permutation_app_head, Permutation_app_comm.
Qed.

(** The callback that comes out when an entry is complete, and what the
    zero-copy queue becomes. *)
Definition complete_callback (e : Entry) (s : socket) (cb : option (SendContext * SendCallback))
    (z : ZeroCopyQueue.t Blob) : Prop :=
  ZeroCopyUse.pending (d_zeroCopyQueue s) ++ option_list (own e)
    ≡ₚ option_list (option_map snd cb) ++ ZeroCopyUse.pending z
  /\ (lim = false -> forall k, SendQueueEntry.d_id e < k ->
       ZeroCopyUse.before k (ZeroCopyQueue.d_waitList z)).

Lemma wp_complete_callback (s : socket) g e rest d Q :
  Inv s g -> SendQueue.d_entryList (d_sendQueue s) = e :: rest ->
  SendQueueEntry.d_data e = Some d ->
  (forall cb z, complete_callback e s cb z -> Q cb (set_zeroCopyQueue z s) []) ->
  wp (if SendQueueEntry.d_zeroCopy e then
        bind get (fun s => bind (lift (ZeroCopyQueue.frame (SendQueueEntry.d_id e)
                                         (d_zeroCopyQueue s)))
          (fun z => let '(popped, z) :=
                      if ZeroCopyQueue.ready z then ZeroCopyQueue.pop z else (None, z) in
             bind (modify (set_zeroCopyQueue z)) (fun _ => ret popped)))
      else ret (match SendQueueEntry.d_callback e with
                | Some callback => Some (SendQueueEntry.d_context e, callback)
                | None => None end)) s Q.
Proof.
  intros I Hl Hd HQ.
  pose proof (inv_ordered s g I) as Hord. rewrite Hl, (data_entries_cons e d) in Hord by done.
  destruct (SendQueueEntry.d_zeroCopy e) eqn:Ez; cycle 1.
  { apply wp_ret. destruct s. apply HQ. split; simpl.
    - rewrite Permutation_app_comm. unfold own. rewrite Ez. by destruct (SendQueueEntry.d_callback e).
    - intros Hlim k Hk. destruct (Hord Hlim) as [_ _ [Hw _]]. rewrite Ez in Hw.
      revert Hw. apply before_mono. lia. }
  apply wp_bind, wp_get. cbn beta. apply wp_bind, wp_lift; cycle 1.
  { intros Hnone. destruct lim; [done|].
    pose proof (ZeroCopyUse.frame_spec (SendQueueEntry.d_id e) (d_zeroCopyQueue s)) as Hf.
    rewrite Hnone in Hf. destruct Hf. destruct (Hord eq_refl) as [_ _ [Hw _]].
    by rewrite Ez in Hw. }
  intros z Hz. cbn beta.
  assert (Hb : lim = false -> forall k, SendQueueEntry.d_id e < k ->
            ZeroCopyUse.before k (ZeroCopyQueue.d_waitList z)).
  { intros Hlim k Hk. destruct (Hord Hlim) as [_ _ [Hw _]]. rewrite Ez in Hw.
    by apply (frame_before (SendQueueEntry.d_id e) k (d_zeroCopyQueue s)). }
  apply frame_pending in Hz.
  destruct (ZeroCopyQueue.ready z).
  - pose proof (ZeroCopyUse.pop_use z) as Hp. destruct (ZeroCopyQueue.pop z) as [popped z'].
    destruct Hp as [Hp Hw]. apply wp_bind, wp_modify, wp_ret. apply HQ. split.
    + unfold own. by rewrite Ez, app_nil_r, <- Hp.
    + by rewrite Hw.
  - apply wp_bind, wp_modify, wp_ret. apply HQ. split; [|done].
    unfold own. by rewrite Ez, app_nil_r.
Qed.

Lemma wp_entryComplete (s : socket) g e rest d Q :
  Inv s g -> SendQueue.d_entryList (d_sendQueue s) = e :: rest ->
  SendQueueEntry.d_data e = Some d ->
  (forall cb s' l, silent l ->
     Inv s' (deliver (SendQueue.entry_bytes e) (option_list (option_map snd cb)) g) ->
     queues_only s s' -> SendQueue.d_entryList (d_sendQueue s') = rest -> Q cb s' l) ->
  wp (entryComplete e) s Q.
Proof.
  intros I Hl Hd HQ. unfold entryComplete.
  apply wp_bind. apply (wp_complete_callback s g e rest d); [done..|].
  intros cb z [Hp Ho]. cbn beta. apply wp_bind, wp_get. cbn beta.
  destruct (SendQueue.popEntry_wf (d_sendQueue s) e rest) as (q & Hpop & Hq & Hlq & _);
    [by apply (inv_queue s g I)|done|].
  apply wp_bind. queues. rewrite Hpop. apply wp_lift; [|done]. intros ? [= <-]. cbn beta iota.
  apply wp_bind, wp_modify, wp_bind, wp_emit, wp_ret. simpl app. rewrite app_nil_r.
  pose proof (inv_entries s g I) as Hfine. rewrite Hl in Hfine.
  apply entry_fine_cons in Hfine as [_ Hfr].
  apply HQ; [apply silent_closeTimers| |by split|done].
  apply (Inv_queues s _ g); try done; queues; rewrite ?Hlq, ?Hl, ?(data_entries_cons e d) by done;
    [done| | | |].
  - intros _. apply aligned_pop.
  - intros Hlim Hord. apply (ordered_pop _ _ _ e _ Hord). auto.
  - apply (conserved_moved _ _ _ _ _ _ (inv_callbacks s g I)); rewrite Hl.
    + cbn [g_dispatched deliver]. rewrite callbacks_cons, <- !app_assoc. f_equiv.
      by rewrite !app_assoc, <- Hp.
    + rewrite spares_cons. apply submseteq_inserts_l. reflexivity.
  - unfold SendQueue.hasEntry. by rewrite Hl.
Qed.

(** *** Part of the front entry *)

Lemma entry_fine_contiguous e d : entry_fine e -> SendQueueEntry.d_data e = Some d -> Data.contiguous d.
Proof. unfold entry_fine. intros Hc Hd. by rewrite Hd in Hc. Qed.

Lemma entry_length e d :
  SendQueue.entry_ok e -> entry_fine e -> SendQueueEntry.d_data e = Some d ->
  0 < SendQueueEntry.d_length e /\ SendQueueEntry.d_length e = size (Data.bytes d).
Proof.
  unfold SendQueue.entry_ok. intros He Hf Hd. rewrite Hd in He.
  rewrite Data.size_of_contiguous in He by by eapply entry_fine_contiguous.
  destruct He as [Hp [= He]]. lia.
Qed.

Lemma front_fine (s : socket) g e rest :
  Inv s g -> SendQueue.d_entryList (d_sendQueue s) = e :: rest ->
  SendQueue.entry_ok e /\ entry_fine e.
Proof.
  intros I Hl. pose proof (SendQueue.wf_entries _ (inv_queue s g I)) as Ho.
  pose proof (inv_entries s g I) as Hf. rewrite Hl in Ho, Hf.
  by apply Forall_cons_iff in Ho as [? _], Hf as [? _].
Qed.

Lemma wp_entryPartial (s : socket) g e rest d n Q :
  Inv s g -> SendQueue.d_entryList (d_sendQueue s) = e :: rest ->
  SendQueueEntry.d_data e = Some d -> SendQueueEntry.d_deadline e = None ->
  0 <= n < SendQueueEntry.d_length e ->
  (forall s' l, silent l -> Inv s' (deliver (take (Z.to_nat n) (Data.bytes d)) [] g) ->
     queues_only s s' -> Q tt s' l) ->
  wp (entryPartial n) s Q.
Proof.
  intros I Hl Hd Hdl Hn HQ. unfold entryPartial. apply wp_bind, wp_get. cbn beta.
  destruct (front_fine s g e rest I Hl) as [Heo Hef].
  destruct (SendQueue.popSize_ok (d_sendQueue s) e rest d n) as (q & d' & Hpop & Hq & Hlq & _ & Hc & Hb);
    [by apply (inv_queue s g I)|done|done|by eapply entry_fine_contiguous|done|].
  rewrite Hpop. apply wp_bind, wp_lift; [|done]. intros ? [= <-]. cbn beta iota.
  apply wp_bind, wp_modify, wp_emit. simpl.
  pose proof (inv_entries s g I) as Hfine. rewrite Hl in Hfine.
  apply entry_fine_cons in Hfine as [_ Hfr].
  set (e' := SendQueue.popped n d' e) in *.
  assert (Hd' : SendQueueEntry.d_data e' = Some d') by done.
  assert (Hsame : SendQueueEntry.d_id e' = SendQueueEntry.d_id e
    /\ SendQueueEntry.d_zeroCopy e' = SendQueueEntry.d_zeroCopy e
    /\ SendQueueEntry.d_callback e' = SendQueueEntry.d_callback e
    /\ SendQueueEntry.d_deadline e' = None).
  { unfold e', SendQueue.popped, SendQueueEntry.closeTimer.
    by destruct (SendQueueEntry.d_timer e). }
  destruct Hsame as (Hi & Hz & Hcb & Hdl').
  apply HQ; [apply silent_closeTimers| |by split].
  apply (Inv_queues s _ g); try done; queues; rewrite ?Hlq, ?Hl.
  - apply Forall_cons_iff. split; [|done]. unfold entry_fine. by rewrite Hd'.
  - intros _. rewrite (data_entries_cons e d), (data_entries_cons e' d') by done. simpl.
    replace (Data.bytes d) with (SendQueue.entry_bytes e)
      by (unfold SendQueue.entry_bytes; by rewrite Hd).
    apply aligned_part; [|done]. unfold SendQueue.entry_bytes. by rewrite Hd, Hd'.
  - intros Hlim. rewrite (data_entries_cons e d), (data_entries_cons e' d') by done.
    apply ordered_front; [done|]. by right.
  - cbn [g_dispatched deliver g_accepted g_shared]. rewrite app_nil_r.
    assert (own e' = own e /\ spare e' = spare e) as [Ho Hs] by (unfold own, spare; by rewrite Hcb, Hz).
    apply (conserved_moved _ _ _ _ _ _ (inv_callbacks s g I)); rewrite Hl.
    + by rewrite !callbacks_cons, Ho.
    + by rewrite !spares_cons, Hs.
  - unfold SendQueue.hasEntry. by rewrite Hl.
Qed.

(** *** The batch *)

Lemma batchable_data (e : Entry) :
  SendQueueEntry.isBatchable e = true -> exists d, SendQueueEntry.d_data e = Some d.
Proof. unfold SendQueueEntry.isBatchable. destruct (SendQueueEntry.d_data e); by eauto. Qed.

(** What was written of the batch is what the leading entries lose. *)
Lemma wp_batchLoop fuel (s : socket) g written n callbackVector Q :
  Inv s g -> (length (SendQueue.d_entryList (d_sendQueue s)) <= fuel)%nat ->
  0 <= n <= size (concat (map SendQueue.entry_bytes
                   (SendQueue.batchable_prefix (SendQueue.d_entryList (d_sendQueue s))))) ->
  (forall more s' l, silent l -> queues_only s s' ->
     Inv s' (deliver (take (Z.to_nat n) (concat (map SendQueue.entry_bytes
                        (SendQueue.batchable_prefix (SendQueue.d_entryList (d_sendQueue s))))))
               (map snd more) g) ->
     Q (callbackVector ++ more) s' l) ->
  wp (batchLoop fuel written n callbackVector) s Q.
Proof.
  revert s g n callbackVector Q.
  induction fuel as [|fuel IH]; intros s g n cbs Q I Hfuel Hn HQ; simpl;
    (destruct (n =? 0) eqn:En;
     [apply wp_ret; rewrite <- (app_nil_r cbs); apply HQ;
        [done|apply queues_only_refl|];
        replace n with 0 by lia; by rewrite deliver_nil|]);
    destruct (SendQueue.d_entryList (d_sendQueue s)) as [|e rest] eqn:Hl; simpl in *;
    try (unfold size in Hn; simpl in Hn; lia).
  destruct (SendQueueEntry.isBatchable e) eqn:Hbatch; [|unfold size in Hn; simpl in Hn; lia].
  destruct (batchable_data e Hbatch) as [d Hd].
  simpl in HQ, Hn. rewrite size_app in Hn.
  apply wp_bind, (wp_entryWritten s g written e rest d); [done..|].
  intros e' s1 l1 S1 I1 Q1 Hl1 Hd1 Hlen1 Hdl1. cbn beta.
  destruct (front_fine s1 g e' rest I1 Hl1) as [Heo Hef].
  destruct (entry_length e' d Heo Hef Hd1) as [Hpos Hlen].
  assert (Heb : SendQueue.entry_bytes e = Data.bytes d)
    by (unfold SendQueue.entry_bytes; by rewrite Hd).
  rewrite Heb in *.
  destruct (n >=? SendQueueEntry.d_length e') eqn:Ege.
  - apply wp_bind, (wp_entryComplete s1 g e' rest d); [done..|].
    intros cb s2 l2 S2 I2 Q2 Hl2. cbn beta.
    apply (IH s2 (deliver (SendQueue.entry_bytes e') (option_list (option_map snd cb)) g));
      [done|rewrite Hl2; lia|rewrite Hl2; lia|].
    intros more s3 l3 S3 Q3 I3. rewrite <- app_assoc. apply HQ.
    + by repeat apply silent_app.
    + by do 2 (eapply queues_only_trans; [eassumption|]).
    + rewrite deliver_deliver, Hl2 in I3. unfold SendQueue.entry_bytes at 1 in I3.
      rewrite Hd1, map_app in *. rewrite take_app_ge by (unfold size in Hlen; lia).
      replace (map snd (option_list cb)) with (option_list (option_map snd cb))
        by (by destruct cb).
      replace (Z.to_nat n - length (Data.bytes d))%nat
        with (Z.to_nat (n - SendQueueEntry.d_length e')) by (unfold size in Hlen; lia).
      done.
  - apply wp_bind, (wp_entryPartial s1 g e' rest d); [done..|lia|].
    intros s2 l2 S2 I2 Q2. apply wp_ret. rewrite <- (app_nil_r cbs). apply HQ.
    + rewrite app_nil_r. by apply silent_app.
    + by eapply queues_only_trans.
    + rewrite take_app_le by (unfold size in Hlen; lia). done.
Qed.

(** ** Sections that keep the invariant

    The invariant after a section is the one of what an observer of its
    effects knows. *)
Definition keeps {A} (m : StreamSocket.M (Blob := Blob) (T := T) (L := L) (TI := TI) A) : Prop :=
  forall s g, Inv s g -> wp m s (fun _ s' l => Inv s' (observe l g)).

Lemma wp_keeps {A} (m : StreamSocket.M A) (s : socket) g Q :
  keeps m -> Inv s g -> (forall x s' l, Inv s' (observe l g) -> Q x s' l) -> wp m s Q.
Proof. intros Hm I HQ. by apply (wp_mono _ m s _ Q (Hm s g I)). Qed.

Lemma keeps_ret {A} (x : A) : keeps (ret x).
Proof. intros s g I. apply wp_ret. by rewrite observe_nil. Qed.

Lemma keeps_bind {A B} (m : StreamSocket.M A) (k : A -> StreamSocket.M B) :
  keeps m -> (forall x, keeps (k x)) -> keeps (bind m k).
Proof.
  intros Hm Hk s g I. apply wp_bind, (wp_keeps m s g); [done..|]. intros x s' l I'.
  apply (wp_keeps (k x) s' (observe l g)); [done..|]. intros y s'' l'. by rewrite observe_app.
Qed.

Lemma keeps_get {B} (k : socket -> StreamSocket.M B) : (forall s, keeps (k s)) -> keeps (bind get k).
Proof. intros Hk. apply keeps_bind; [|done]. intros s g I. by rewrite <- (observe_nil g) in I. Qed.

Lemma keeps_when b (m : StreamSocket.M unit) : keeps m -> keeps (when b m).
Proof. intros Hm. unfold when. destruct b; [done|apply keeps_ret]. Qed.

Lemma keeps_emit l : silent l -> keeps (emit l).
Proof. intros Hl s g I. apply wp_emit. by rewrite observe_silent. Qed.

Lemma keeps_announce a d : keeps (announce a d).
Proof. intros s g I. apply wp_announce. intros l Hl. by rewrite observe_silent. Qed.

(** A change that leaves the queues and flow control alone. *)
Lemma keeps_modify f :
  (forall s, limited (lim = true) s ->
     same_queues (lim = true) s (f s) /\ d_flowControlState (f s) = d_flowControlState s) ->
  keeps (modify f).
Proof.
  intros Hf s g I. apply wp_modify. destruct (Hf s (inv_limited s g I)) as [Hq Hfc].
  apply (Inv_kept s); try done. apply fc_kept_refl; [done|by destruct Hq|done].
Qed.

Lemma keeps_relax dir defer unlock : keeps (privateRelaxFlowControl dir defer unlock).
Proof. intros s g I. by apply (wp_relax s g). Qed.

Lemma keeps_apply dir defer : keeps (privateApplyFlowControl dir defer true).
Proof. intros s g I. apply (wp_apply s g); auto. Qed.

Lemma keeps_apply_receive defer lock : keeps (privateApplyFlowControl e_RECEIVE defer lock).
Proof. intros s g I. apply (wp_apply s g); auto. Qed.

(** *** Shutting down *)

Lemma Inv_shutdown (s : socket) g state :
  Inv s g -> ShutdownState.wf state ->
  (ShutdownState.canSend state = true -> canSend s = true) ->
  Inv (set_shutdownState state s) g.
Proof. intros [] Hwf Hs. split; try done; unfold watched, canSend in *; simpl; auto. Qed.

Lemma tryShutdownSend_facts k s :
  ShutdownState.wf s -> exists s' c b,
    ShutdownState.tryShutdownSend k s = Some (s', c, b) /\ ShutdownState.wf s' /\
    ShutdownState.canSend s' = false /\
    (ShutdownState.canSend s = true -> b = true /\ ShutdownContext.d_shutdownSend c = true).
Proof.
  destruct s as [origin i sd rc c]. unfold ShutdownState.wf. cbn. intros [Hsi Hc].
  destruct i, sd, rc, k, c; try (specialize (Hsi eq_refl)); try discriminate;
    do 3 eexists; (split; [reflexivity|]); done.
Qed.

Lemma tryShutdownReceive_facts k origin s :
  ShutdownState.wf s -> exists s' c b,
    ShutdownState.tryShutdownReceive k origin s = Some (s', c, b) /\ ShutdownState.wf s' /\
    (ShutdownState.canSend s' = true -> ShutdownState.canSend s = true) /\
    (ShutdownContext.d_shutdownSend c = true -> ShutdownState.canSend s' = false).
Proof.
  destruct s as [o i sd rc c]. unfold ShutdownState.wf. cbn. intros [Hsi Hc].
  destruct i, sd, rc, k, origin, c; try (specialize (Hsi eq_refl)); try discriminate;
    do 3 eexists; (split; [reflexivity|]); done.
Qed.

(** What is dispatched for the entries of the two queues. *)
Lemma dispatched_zeroCopy (l : list (ZeroCopyEntry.t Blob)) :
  let k := omap (fun e => match ZeroCopyEntry.d_callback e with
                          | Some callback => Some (e_dispatch (TI := TI) callback
                              (ZeroCopyEntry.d_context e) Error.e_CANCELLED true)
                          | None => None end) l in
  dispatched k = ZeroCopyUse.callbacks l /\ written k = [] /\ forall b, interest b k = b.
Proof.
  induction l as [|e l (IH1 & IH2 & IH3)]; [done|]. rewrite ZeroCopyUse.zc_callbacks_cons. simpl.
  destruct (ZeroCopyEntry.d_callback e); [|done]. simpl in *. rewrite <- IH1. by split_and!.
Qed.

Lemma dispatched_entries (l : list Entry) :
  let k := omap (fun e => match SendQueueEntry.d_callback e with
                          | Some callback => Some (e_dispatch (TI := TI) callback
                              (SendQueueEntry.d_context e) Error.e_CANCELLED true)
                          | None => None end) l in
  dispatched k = omap SendQueueEntry.d_callback l /\ written k = [] /\ forall b, interest b k = b.
Proof.
  induction l as [|e l (IH1 & IH2 & IH3)]; [done|]. simpl.
  destruct (SendQueueEntry.d_callback e); [|done]. split_and!; [exact (f_equal (cons _) IH1)|done..].
Qed.

Lemma callbacks_spares l : omap SendQueueEntry.d_callback l ≡ₚ callbacks l ++ spares l.
Proof.
  induction l as [|e l IH]; [done|]. rewrite callbacks_cons, spares_cons.
  rewrite omap_option_list, <- own_spare, IH, <- !app_assoc. f_equiv. rewrite !app_assoc. f_equiv.
  apply Permutation_app_comm.
Qed.

Lemma removeAll_callbacks (q : SendQueue.t Blob) :
  omap SendQueueEntry.d_callback (SendQueue.removeAll [] q).1.1.2 =
    omap SendQueueEntry.d_callback (SendQueue.d_entryList q).
Proof.
  unfold SendQueue.removeAll. rewrite SendQueue.removeAll_loop_spec. simpl.
  induction (SendQueue.d_entryList q) as [|e l IH]; [done|].
  destruct (SendQueue.closeTimer_fields e) as (_ & _ & _ & Hc & _).
  cbn [map]. rewrite filter_cons, (omap_option_list _ e). case_decide as Hd.
  - by rewrite omap_option_list, IH, Hc.
  - rewrite IH. destruct (SendQueueEntry.d_callback e); [|done]. destruct Hd. rewrite Hc. eauto.
Qed.

Definition drained (s : socket) : Prop :=
  SendQueue.d_entryList (d_sendQueue s) = [] /\ ZeroCopyUse.pending (d_zeroCopyQueue s) = [].

(** Once nothing can be sent, both queues are emptied and every callback that
    is left is dispatched. *)
Lemma wp_shutdownSequenceComplete_send context (s : socket) g Q :
  Inv s g -> (ShutdownContext.d_shutdownSend context = true -> canSend s = false) ->
  (forall s' l, Inv s' (observe l g) -> d_shutdownState s' = d_shutdownState s ->
     (ShutdownContext.d_shutdownSend context = true -> drained s') -> Q tt s' l) ->
  wp (privateShutdownSequenceComplete_send context) s Q.
Proof.
  intros I Hcs HQ. unfold privateShutdownSequenceComplete_send.
  apply wp_when; intros Hsend; [|by apply HQ; rewrite ?observe_nil, ?Hsend].
  specialize (Hcs Hsend). apply wp_bind, wp_get. cbn beta. apply wp_bind.
  assert (Htimer : forall R : unit -> socket -> effects -> Prop,
    (forall s1 l, silent l -> queues_only s s1 -> Inv s1 g -> R tt s1 l) ->
    wp (when (d_sendRateTimer s)
      (bind (emit [e_closeRateTimer]) (fun _ => modify (set_sendRateTimer false)))) s R).
  { intros R HR. wp_steps; apply HR; try done.
    rewrite <- (observe_nil g). by apply (Inv_kept s); [|split|apply fc_kept_refl|..]. }
  apply Htimer. clear Htimer. intros s1 l1 S1 Q1 I1.
  pose proof (ZeroCopyUse.clear_spec (d_zeroCopyQueue s)) as Hz.
  destruct (ZeroCopyQueue.clear_entries [] (d_zeroCopyQueue s)) as [zeroCopyEntries z].
  destruct Hz as (Hz1 & Hz2 & Hz3).
  apply wp_bind, wp_modify. cbn beta.
  destruct (SendQueue.removeAll_wf (d_sendQueue s) [] (inv_queue s g I)) as (Hq1 & Hq2 & _).
  pose proof (removeAll_callbacks (d_sendQueue s)) as Hq3.
  destruct (SendQueue.removeAll [] (d_sendQueue s)) as [[[q sendEntries] closed] discarded].
  simpl in Hq1, Hq2, Hq3.
  apply wp_bind, wp_modify, wp_bind, wp_emit, wp_bind, wp_emit, wp_bind, wp_emit, wp_bind.
  cbn beta.
  destruct (dispatched_zeroCopy zeroCopyEntries) as (Hd1 & Hw1 & Hi1).
  destruct (dispatched_entries sendEntries) as (Hd2 & Hw2 & Hi2).
  set (k1 := omap _ zeroCopyEntries) in *. match type of Hd2 with dispatched ?k = _ => set (k2 := k) in * end.
  set (s2 := set_sendQueue q (set_zeroCopyQueue z s1)).
  assert (Hend : Inv s2 (observe (k1 ++ k2) g)).
  { apply (Inv_queues s _ g); unfold s2; try done; queues; rewrite ?Hq2; try done.
    - by destruct Q1; split.
    - rewrite observe_watch, watch_id by (intros b; by rewrite interest_app, Hi2, Hi1). done.
    - intros ?. congruence.
    - intros _ _. rewrite Hz3. by split; constructor.
    - cbn [g_accepted g_shared g_dispatched observe]. rewrite Hz2, app_nil_r, dispatched_app, Hd1, Hd2.
      rewrite Hz1, Hq3. apply (conserved_again _ _ _ _ _ _ (spares (SendQueue.d_entryList (d_sendQueue s)))
        (inv_callbacks s g I)); [|by rewrite app_nil_r].
      by rewrite callbacks_spares, app_nil_r, !app_assoc.
    - unfold SendQueue.hasEntry, s2. queues. by rewrite Hq2. }
  assert (Hlast : forall l2 l3, silent l2 -> silent l3 ->
    Q tt s2 (l1 ++ [] ++ [] ++ map e_closeTimer closed ++ k1 ++ k2 ++ l2 ++ l3)).
  { intros l2 l3 S2 S3. apply HQ; [|by destruct Q1|by intros _; split]. simpl.
    rewrite (app_assoc l1), (app_assoc k1), !observe_app, (observe_silent l1) by done.
    rewrite (observe_silent (map _ _)) by apply silent_closeTimers.
    rewrite (observe_silent l3), (observe_silent l2), <- observe_app by done. done. }
  apply wp_when; intros _; [apply wp_announce; intros l2 S2|]; apply wp_announce; intros l3 S3;
    by apply Hlast.
Qed.

Lemma Inv_close (s : socket) g : Inv s g -> Inv (set_openState OpenState.e_CLOSED s) g.
Proof. by intros []. Qed.

Lemma wp_shutdownSequenceComplete_system context (s : socket) (Q : unit -> socket -> effects -> Prop) :
  (forall l, silent l -> Q tt s l) -> wp (privateShutdownSequenceComplete_system context) s Q.
Proof.
  intros HQ. unfold privateShutdownSequenceComplete_system. apply wp_bind, wp_get. cbn beta.
  wp_steps; apply HQ; repeat apply silent_app; done.
Qed.

Lemma wp_shutdownSequenceComplete context (s : socket) g Q :
  Inv s g -> (ShutdownContext.d_shutdownSend context = true -> canSend s = false) ->
  (forall s' l, Inv s' (observe l g) -> d_shutdownState s' = d_shutdownState s ->
     (ShutdownContext.d_shutdownSend context = true -> drained s') -> Q tt s' l) ->
  wp (privateShutdownSequenceComplete context) s Q.
Proof.
  intros I Hcs HQ. unfold privateShutdownSequenceComplete.
  apply wp_bind, wp_shutdownSequenceComplete_system. intros l0 S0.
  apply wp_bind, (wp_shutdownSequenceComplete_send context s g); [done..|].
  intros s1 l1 I1 Hs1 Hd. apply wp_bind.
  assert (Hrest : forall k, silent k ->
    wp (when (ShutdownContext.d_shutdownCompleted context)
         (bind (announce ShutdownComplete true) (fun _ =>
          bind (modify (set_openState OpenState.e_CLOSED)) (fun _ => emit [e_closed])))) s1
      (fun y s2 l2 => Q y s2 (l0 ++ l1 ++ k ++ l2))).
  { intros k Hk. wp_steps; apply HQ; try done;
      rewrite observe_app, (observe_silent l0), observe_app, observe_silent
        by (repeat apply silent_app; done); try done; by apply Inv_close. }
  apply wp_when; intros _; [|by apply Hrest].
  do 2 (apply wp_bind; first [apply wp_emit|apply wp_announce; intros ? ?]).
  apply wp_announce. intros ? ?. apply Hrest. by apply (silent_app [_]); [|apply silent_app].
Qed.

Lemma wp_closeFlowControl detaching (s : socket) g Q :
  Inv s g ->
  (forall s' l, Inv s' (observe l g) -> d_shutdownState s' = d_shutdownState s ->
     Q detaching s' l) ->
  wp (privateCloseFlowControl detaching) s Q.
Proof.
  intros I HQ. unfold privateCloseFlowControl. apply wp_bind, wp_get. cbn beta.
  pose proof (apply_facts e_BOTH true (d_flowControlState s)) as Hf.
  destruct (FlowControlState.apply e_BOTH true (d_flowControlState s)) as [[fc ctx] res].
  destruct Hf as (Hcl & Hok & Hat & Hen).
  assert (Hend : forall l, silent l -> Q detaching (set_flowControlState fc s) l).
  { intros l Hl. apply HQ; [|done]. destruct Hl as (Hw & Hd & Hi).
    apply (Inv_kept s); try done. split; try done; [by apply Hat; left|].
    intros b Hb Hcs Hon. rewrite Hi. by apply Hb, Hen. }
  wp_steps; apply Hend; repeat apply silent_app; done.
Qed.

Lemma wp_shutdownSequence context detaching (s : socket) g Q :
  Inv s g -> (ShutdownContext.d_shutdownSend context = true -> canSend s = false) ->
  (forall s' l, Inv s' (observe l g) -> d_shutdownState s' = d_shutdownState s ->
     (ShutdownContext.d_shutdownSend context = true -> detaching = false -> drained s') ->
     Q tt s' l) ->
  wp (privateShutdownSequence context detaching) s Q.
Proof.
  intros I Hcs HQ. unfold privateShutdownSequence. apply wp_bind.
  assert (Hrest : forall b s1 l1, Inv s1 (observe l1 g) ->
    d_shutdownState s1 = d_shutdownState s -> b = false \/ b = detaching ->
    wp (when (negb b) (privateShutdownSequenceComplete context)) s1
      (fun y s2 l2 => Q y s2 (l1 ++ l2))).
  { intros b s1 l1 I1 Hs1 Hb. apply wp_when; intros Hnb.
    - apply (wp_shutdownSequenceComplete context s1 (observe l1 g)); [done| |].
      + unfold canSend. by rewrite Hs1.
      + intros s2 l2 I2 Hs2 Hd. apply HQ; [by rewrite observe_app|congruence|auto].
    - apply HQ; rewrite ?app_nil_r; [done|done|]. intros _ Hdet. subst detaching.
      by destruct Hb as [->| ->]. }
  destruct (ShutdownContext.d_shutdownCompleted context).
  { apply (wp_closeFlowControl detaching s g); [done|]. intros s1 l1 I1 Hs1.
    apply Hrest; auto. }
  assert (Hw : forall dir b s0 g0 (R : unit -> socket -> effects -> Prop), Inv s0 g0 ->
    (forall s1 l1, Inv s1 (observe l1 g0) -> d_shutdownState s1 = d_shutdownState s0 -> R tt s1 l1) ->
    wp (when b (privateApplyFlowControl dir true true)) s0 R).
  { intros dir b s0 g0 R I0 HR. apply wp_when; intros _; [|apply HR; by rewrite ?observe_nil].
    apply (wp_apply s0 g0); [done|by left; left|]. intros s1 l1 I1 Q1 _ _. apply HR; [done|by destruct Q1]. }
  apply wp_bind, (Hw _ _ s g); [done|]. intros s1 l1 I1 Hs1.
  apply wp_bind, (Hw _ _ s1 (observe l1 g)); [done|]. intros s2 l2 I2 Hs2. apply wp_ret.
  apply Hrest; [by rewrite app_nil_r, observe_app|congruence|by left].
Qed.

Lemma wp_shutdownSend detaching (s : socket) g Q :
  Inv s g ->
  (forall s' l, Inv s' (observe l g) -> canSend s' = false ->
     (canSend s = true -> detaching = false -> drained s') -> Q tt s' l) ->
  wp (privateShutdownSend detaching) s Q.
Proof.
  intros I HQ. unfold privateShutdownSend. apply wp_bind, wp_get. cbn beta.
  destruct (tryShutdownSend_facts (keepHalfOpen s) (d_shutdownState s) (inv_shutdown s g I))
    as (state & c & b & -> & Hwf & Hcs & Hb).
  apply wp_bind, wp_lift; [|done]. intros ? [= <-]. cbn beta iota.
  apply wp_bind, wp_modify. cbn beta.
  assert (I1 : Inv (set_shutdownState state s) g) by (apply Inv_shutdown; [done..|congruence]).
  apply wp_when; intros Hwhen; cycle 1.
  { apply HQ; rewrite ?observe_nil; [done|done|]. intros Hs _. destruct (Hb Hs). congruence. }
  apply (wp_shutdownSequence c detaching (set_shutdownState state s) g); [done..|].
  intros s' l I' Hs' Hd. apply HQ; [done|unfold canSend; by rewrite Hs'|].
  intros Hs. apply Hd. by apply Hb.
Qed.

Lemma keeps_shutdownSend detaching : keeps (privateShutdownSend detaching).
Proof. intros s g I. by apply (wp_shutdownSend detaching s g). Qed.

Lemma keeps_shutdownReceive origin detaching : keeps (privateShutdownReceive origin detaching).
Proof.
  intros s g I. unfold privateShutdownReceive. apply wp_bind, wp_get. cbn beta.
  destruct (tryShutdownReceive_facts (keepHalfOpen s) origin (d_shutdownState s) (inv_shutdown s g I))
    as (state & c & b & -> & Hwf & Hcs & Hc).
  apply wp_bind, wp_lift; [|done]. intros ? [= <-]. cbn beta iota.
  apply wp_bind, wp_modify. cbn beta.
  assert (I1 : Inv (set_shutdownState state s) g) by by apply Inv_shutdown.
  apply wp_when; intros _; [|by rewrite observe_nil].
  by apply (wp_shutdownSequence c detaching (set_shutdownState state s) g).
Qed.

(** *** Pushing an entry *)

(** The entry a message, of which [part] was written, leaves in the queue; it
    may be in the zero-copy queue when it is the first. *)
Record pushes (counter : Z) (part : list byte) (e : Entry) (s : socket)
    (z : ZeroCopyQueue.t Blob) : Prop := {
  pu_ok : SendQueue.entry_ok e;
  pu_fine : entry_fine e;
  pu_id : SendQueueEntry.d_id e = counter;
  pu_part : part <> [] -> SendQueueEntry.d_deadline e = None;
  pu_first : part <> [] \/ SendQueueEntry.d_zeroCopy e = true ->
    SendQueue.hasEntry (d_sendQueue s) = false;
  pu_below : lim = false -> counter < d_sendCounter s;
  pu_wait : lim = false ->
    if SendQueueEntry.d_zeroCopy e
    then ZeroCopyUse.open_at counter (ZeroCopyQueue.d_waitList z)
    else z = d_zeroCopyQueue s
}.

Lemma aligned_push w m part e l :
  aligned w m l -> (part <> [] -> l = [] /\ SendQueueEntry.d_deadline e = None) ->
  aligned (w ++ part) (m ++ [part ++ SendQueue.entry_bytes e]) (l ++ [e]).
Proof.
  intros (done_ & p & live & -> & -> & Hl) Hp.
  destruct l as [|e0 l].
  - destruct Hl as [-> ->]. exists done_, part, [part ++ SendQueue.entry_bytes e].
    rewrite !app_nil_r. split; [done|]. split; [done|]. split; [done|]. intros Hne. by apply Hp.
  - destruct part as [|x part]; [|by destruct Hp].
    destruct Hl as [-> Hd]. exists done_, p,
      ((p ++ SendQueue.entry_bytes e0) :: map SendQueue.entry_bytes (l ++ [e])).
    rewrite app_nil_r. split; [|done]. rewrite map_app. simpl. by rewrite <- app_assoc.
Qed.

Lemma StronglySorted_snoc {A} (R : A -> A -> Prop) l x :
  StronglySorted R l -> Forall (fun y => R y x) l -> StronglySorted R (l ++ [x]).
Proof.
  induction 1 as [|y l Hl IH Hy]; intros Hx; simpl; [by repeat constructor|].
  apply Forall_cons_iff in Hx as [Hx Hx']. constructor; [by apply IH|].
  apply Forall_app. by split; [|constructor].
Qed.

Lemma ordered_push counter wait wait' e l :
  ordered (SendQueueEntry.d_id e) wait l -> SendQueueEntry.d_id e < counter ->
  (if SendQueueEntry.d_zeroCopy e
   then ZeroCopyUse.open_at (SendQueueEntry.d_id e) wait' /\ l = [] else wait' = wait) ->
  ordered counter wait' (l ++ [e]).
Proof.
  intros [Hs Hb Hw] Hc Hz. split.
  - by apply StronglySorted_snoc.
  - apply Forall_app. split; [|by apply Forall_singleton].
    revert Hb. apply Forall_impl. lia.
  - destruct (SendQueueEntry.d_zeroCopy e) eqn:Ez.
    + destruct Hz as [Ho ->]. simpl. by rewrite Ez.
    + subst wait'. destruct l as [|e0 l]; simpl; [by rewrite Ez|].
      destruct Hw as [Hw Hr]. split; [done|]. apply Forall_app. by split; [|constructor].
Qed.

Lemma Inv_push (s : socket) g counter part e d z q fc l callback twice :
  let s' := set_sendQueue q (set_zeroCopyQueue z s) in
  Inv s g -> pushes counter part e s z -> SendQueueEntry.d_data e = Some d ->
  (lim = false -> ordered counter (ZeroCopyQueue.d_waitList (d_zeroCopyQueue s))
     (data_entries (SendQueue.d_entryList (d_sendQueue s)))) ->
  SendQueue.wf q -> SendQueue.d_entryList q = SendQueue.d_entryList (d_sendQueue s) ++ [e] ->
  ZeroCopyUse.pending z ++ option_list (own e)
    ≡ₚ ZeroCopyUse.pending (d_zeroCopyQueue s) ++ option_list callback ->
  option_list (spare e) ⊆+ (if (twice : bool) then option_list callback else []) ->
  fc_change s' fc l -> (attended (d_flowControlState s) -> attended fc) ->
  (SendQueue.hasEntry (d_sendQueue s) = false -> FlowControlState.d_closed fc = false -> attended fc) ->
  Inv (set_flowControlState fc s')
    (deliver part [] (watch l (accept (part ++ SendQueue.entry_bytes e) callback twice g))).
Proof.
  intros s' I [Po Pf Pi Pp P1 Pb Pw] Hd Hord Hq Hlq Hcb Hsp Hfc Hat Hat0.
  assert (Hde : data_entries (SendQueue.d_entryList q)
                = data_entries (SendQueue.d_entryList (d_sendQueue s)) ++ [e]).
  { rewrite Hlq. unfold data_entries. rewrite List.filter_app. simpl.
    unfold has_data at 2. by rewrite Hd. }
  assert (Hempty : SendQueue.hasEntry (d_sendQueue s) = false ->
                   data_entries (SendQueue.d_entryList (d_sendQueue s)) = []).
  { unfold SendQueue.hasEntry. by destruct (SendQueue.d_entryList (d_sendQueue s)). }
  assert (Hmsg : part ++ SendQueue.entry_bytes e <> []).
  { destruct (entry_length e d Po Pf Hd) as [Hpos Hlen]. unfold SendQueue.entry_bytes. rewrite Hd.
    destruct part; [|done]. simpl. intros Hb. rewrite Hb in Hlen. unfold size in Hlen. simpl in Hlen. lia. }
  destruct I, Hfc as [Hw Hdi Hok Hcl Hwt].
  pose proof (attending_watch (set_flowControlState fc s') g l) as Hatt.
  split; unfold s' in *; queues; cbn [g_accepted g_shared g_dispatched g_wire g_messages accept watch deliver].
  - done.
  - done.
  - rewrite Hlq. apply Forall_app. by split; [|constructor].
  - intros Hcs. rewrite Hde. destruct (part ++ SendQueue.entry_bytes e) as [|x m] eqn:Em; [done|].
    rewrite <- Em. apply aligned_push; [by apply inv_aligned0|]. intros Hne. split; auto.
  - intros Hlim. rewrite Hde. rewrite <- Pi in *. apply (ordered_push _ (ZeroCopyQueue.d_waitList (d_zeroCopyQueue s))).
    + by apply Hord.
    + by apply Pb.
    + specialize (Pw Hlim). destruct (SendQueueEntry.d_zeroCopy e); [|by rewrite Pw].
      split; [done|]. auto.
  - rewrite app_nil_r. apply (conserved_accepted _ _ _ _ _ _ _ _ inv_callbacks0); rewrite Hlq.
    + rewrite callbacks_app, callbacks_cons, app_nil_r, <- !app_assoc. f_equiv.
      by rewrite (Permutation_app_comm (callbacks _) (option_list callback)),
        (Permutation_app_comm (callbacks _) (option_list (own e))), !app_assoc, Hcb.
    + rewrite spares_app, spares_cons, app_nil_r. by apply submseteq_app.
  - by apply Hok.
  - by apply Hatt, Hwt.
  - intros Hcs Hclosed _. specialize (Hat0). destruct (SendQueue.hasEntry (d_sendQueue s)) eqn:Eh; [|by apply Hat0].
    apply Hat, inv_attended0; try done. simpl in Hcl. congruence.
  - done.
  - done.
Qed.

(** The size of the queue, a [size_t], has room for a message. *)
Definition room (s : socket) (data : Data.t Blob) : Prop :=
  SendQueue.d_size (d_sendQueue s) + size (Data.bytes data) < 2 ^ 64.

Lemma wp_enqueueRemainder (s : socket) z g data written counter timestamp options setting
    cb callback twice part Q :
  Inv s g -> Data.contiguous data -> 0 < size (Data.bytes data) -> room s data ->
  (part <> [] -> bytesSent written <> 0) ->
  (part <> [] \/ zeroCopy written = true -> SendQueue.hasEntry (d_sendQueue s) = false) ->
  cb = (if zeroCopy written && negb twice then None else callback) ->
  (lim = false -> counter < d_sendCounter s
     /\ ordered counter (ZeroCopyQueue.d_waitList (d_zeroCopyQueue s))
          (data_entries (SendQueue.d_entryList (d_sendQueue s)))
     /\ if zeroCopy written then ZeroCopyUse.open_at counter (ZeroCopyQueue.d_waitList z)
        else z = d_zeroCopyQueue s) ->
  ZeroCopyUse.pending z ++ (if zeroCopy written then [] else option_list callback)
    ≡ₚ ZeroCopyUse.pending (d_zeroCopyQueue s) ++ option_list callback ->
  (forall s' l, StreamSocketLogic.Observation.written l = [] -> dispatched l = [] ->
     Inv s' (deliver part [] (watch l (accept (part ++ Data.bytes data) callback twice g))) -> Q tt s' l) ->
  wp (enqueueRemainder data written counter timestamp options setting cb)
    (set_zeroCopyQueue z s) Q.
Proof.
  intros I Hc Hpos Hroom Hpart Hfirst Hzcb Hlim Hcb HQ. unfold enqueueRemainder.
  rewrite Data.size_of_contiguous by done. apply wp_bind, wp_lift; [|done]. intros ? [= <-]. cbn beta.
  apply wp_bind.
  assert (Hdl : forall R : (option Z * option Timer) -> socket -> effects -> Prop,
    (forall p l, silent l -> (part <> [] -> p.1 = None) -> R p (set_zeroCopyQueue z s) l) ->
    wp (match o_deadline options with
        | Some (deadline, timer) =>
            if bytesSent written =? 0
            then bind (emit [e_schedule timer deadline]) (fun _ => ret (Some deadline, Some timer))
            else ret (None, None)
        | None => ret (None, None) end) (set_zeroCopyQueue z s) R).
  { intros R HR. destruct (o_deadline options) as [[deadline timer]|]; [|by apply wp_ret, HR].
    destruct (bytesSent written =? 0) eqn:Eb; [|by apply wp_ret, HR].
    wp_steps. apply HR; [done|]. intros Hne. apply Hpart in Hne. lia. }
  apply Hdl. clear Hdl. intros [dl tm] l1 S1 Hdl. cbn beta. simpl in Hdl.
  set (e := SendQueueEntry.mk _ _ _ _ _ _ _ _ _ _ _ _).
  apply wp_bind, wp_get. cbn beta. queues.
  assert (Po : SendQueue.entry_ok e).
  { unfold SendQueue.entry_ok. simpl. split; [done|]. by apply Data.size_of_contiguous. }
  destruct (SendQueue.pushEntry_wf (d_sendQueue s) e) as (q & Hpush & Hq & Hlq & _);
    [by apply (inv_queue s g)|done|exact Hroom|].
  rewrite Hpush. apply wp_bind, wp_lift; [|done]. intros ? [= <-]. cbn beta iota.
  apply wp_bind, wp_modify. cbn beta.
  assert (own e = if zeroCopy written then None else callback) as Hown.
  { unfold own. simpl. rewrite Hzcb. by destruct (zeroCopy written). }
  assert (option_list (spare e) ⊆+ (if twice then option_list callback else [])) as Hsp.
  { unfold spare. simpl. rewrite Hzcb. destruct (zeroCopy written), twice; simpl; try done;
      apply submseteq_nil_l. }
  assert (Hpushes : pushes counter part e s z).
  { split; try done; simpl; try (intros Hl; by destruct (Hlim Hl) as (? & ? & ?)); auto. }
  assert (Hinv : forall fc l,
    fc_change (set_sendQueue q (set_zeroCopyQueue z s)) fc l ->
    (attended (d_flowControlState s) -> attended fc) ->
    (SendQueue.hasEntry (d_sendQueue s) = false -> FlowControlState.d_closed fc = false -> attended fc) ->
    Inv (set_flowControlState fc (set_sendQueue q (set_zeroCopyQueue z s)))
      (deliver part [] (watch l (accept (part ++ Data.bytes data) callback twice g)))).
  { intros fc l Hfc Ha Ha'. apply (Inv_push s g counter part e data z q fc l callback twice); try done;
      [|rewrite Hown; by destruct (zeroCopy written)].
    intros Hl. by destruct (Hlim Hl) as (? & ? & ?). }
  assert (Hend : forall s' l, StreamSocketLogic.Observation.written l = [] -> dispatched l = [] ->
    Inv s' (deliver part [] (watch l (accept (part ++ Data.bytes data) callback twice g))) ->
    Q tt s' (l1 ++ l)).
  { intros s' l Hw Hd I'. destruct S1 as (Hw1 & Hd1 & Hi1). apply HQ.
    - by rewrite written_app, Hw1, Hw.
    - by rewrite dispatched_app, Hd1, Hd.
    - by rewrite watch_app_id. }
  apply wp_when; intros Hempty.
  - apply privateRelaxFlowControl_spec. queues. intros fc l Hfc Ha Ha'. simpl.
    apply Hend; try by destruct Hfc. apply Hinv; [done..|]. intros _ Hcl. apply Ha'; [done|].
    destruct Hfc as [_ _ _ Hcc _]. simpl in Hcc. congruence.
  - simpl. apply Hend; [done..|].
    assert (Hf : fc_change (set_sendQueue q (set_zeroCopyQueue z s)) (d_flowControlState s) ([] : effects))
      by by apply (fc_change_refl (set_sendQueue q (set_zeroCopyQueue z s)) []).
    apply (Hinv (d_flowControlState s) [] Hf); [done|]. intros He. by rewrite He in Hempty.
Qed.

(** *** Sending *)

(** What both overloads of [privateSendRaw] know of the direct write. *)
Record direct (s : socket) (counter : Z) (data : Data.t Blob) (error : Error.t) (w : Written)
  : Prop := {
  di_range : 0 <= bytesSent w <= size (Data.bytes data);
  di_error : Error.is_error error = true -> bytesSent w = 0;
  di_first : bytesSent w <> 0 \/ zeroCopy w = true -> SendQueue.hasEntry (d_sendQueue s) = false;
  di_ordered : lim = false -> counter < d_sendCounter s
    /\ ordered counter (ZeroCopyQueue.d_waitList (d_zeroCopyQueue s))
         (data_entries (SendQueue.d_entryList (d_sendQueue s)));
  di_room : room s data
}.

Definition part_of (w : Written) (data : Data.t Blob) : list byte :=
  take (Z.to_nat (bytesSent w)) (Data.bytes data).

Lemma empty_entries (s : socket) :
  SendQueue.hasEntry (d_sendQueue s) = false -> SendQueue.d_entryList (d_sendQueue s) = [].
Proof. unfold SendQueue.hasEntry. by destruct (SendQueue.d_entryList (d_sendQueue s)). Qed.

Lemma set_zeroCopyQueue_id (s : socket) : set_zeroCopyQueue (d_zeroCopyQueue s) s = s.
Proof. by destruct s. Qed.

(** A message written entirely before anything else is queued. *)
Lemma Inv_complete (s : socket) g counter data error w z cbs callback twice :
  Inv s g -> direct s counter data error w -> bytesSent w = size (Data.bytes data) ->
  (z = d_zeroCopyQueue s \/ SendQueue.hasEntry (d_sendQueue s) = false
     /\ (lim = false -> ZeroCopyUse.before (d_sendCounter s) (ZeroCopyQueue.d_waitList z))) ->
  ZeroCopyUse.pending z ++ cbs
    ≡ₚ ZeroCopyUse.pending (d_zeroCopyQueue s) ++ option_list callback ->
  Inv (set_zeroCopyQueue z s)
    (deliver (part_of w data) cbs (accept (Data.bytes data) callback twice g)).
Proof.
  intros I [Hr _ H1 _ _] Hn Hz Hp.
  assert (Hpart : part_of w data = Data.bytes data).
  { unfold part_of. apply take_ge. unfold size in *. lia. }
  rewrite Hpart. apply (Inv_queues s _ g); try done; queues; try apply I.
  - intros _ Ha. simpl. destruct (Data.bytes data) as [|x m] eqn:Eb; [by rewrite app_nil_r|].
    rewrite (empty_entries s) in *
      by (apply H1; left; rewrite Hn; unfold size; simpl; lia). simpl in *.
    destruct Ha as (done_ & part & live & -> & -> & -> & ->).
    exists (done_ ++ [x :: m]), [], []. rewrite !app_nil_r. split_and!; try done.
    rewrite concat_app. simpl. by rewrite app_nil_r.
  - intros Hlim Ho. destruct Hz as [->|[He Hb]]; [done|].
    rewrite (empty_entries s He) in *. destruct Ho as [? ? _]. split; try done. by apply Hb.
  - apply (conserved_accepted _ _ _ _ _ _ _ _ (inv_callbacks s g I));
      [|by apply submseteq_inserts_r].
    cbn [g_dispatched deliver accept]. queues. rewrite <- !app_assoc. f_equiv.
    rewrite (Permutation_app_comm (callbacks _) (option_list callback)), !app_assoc, <- Hp.
    f_equiv. apply Permutation_app_comm.
Qed.

Lemma wp_completeDirectly (s : socket) g counter data error w options setting callback twice Q :
  Inv s g -> direct s counter data error w -> bytesSent w = size (Data.bytes data) ->
  (forall s' l, written l = [] ->
     Inv s' (deliver (part_of w data) (dispatched l) (watch l (accept (Data.bytes data) callback twice g))) ->
     Q tt s' l) ->
  wp (completeDirectly data w counter options setting callback) s Q.
Proof.
  intros I D Hn HQ. unfold completeDirectly.
  assert (Hsilent : forall z, 
    (z = d_zeroCopyQueue s \/ SendQueue.hasEntry (d_sendQueue s) = false
     /\ (lim = false -> ZeroCopyUse.before (d_sendCounter s) (ZeroCopyQueue.d_waitList z))) ->
    ZeroCopyUse.pending z ≡ₚ ZeroCopyUse.pending (d_zeroCopyQueue s) ++ option_list callback ->
    Q tt (set_zeroCopyQueue z s) []).
  { intros z Hz Hp. apply HQ; [done|]. rewrite watch_silent by done.
    apply (Inv_complete s g counter data error w z []); try done. by rewrite app_nil_r. }
  destruct (zeroCopy w) eqn:Ez.
  - apply wp_bind, wp_get. cbn beta. unfold ZeroCopyQueue.push_copy_callback.
    pose proof (ZeroCopyUse.push_callback_spec counter (Some data) setting callback
                  (d_zeroCopyQueue s)) as Hpush.
    assert (Hempty : SendQueue.hasEntry (d_sendQueue s) = false)
      by (apply (di_first _ _ _ _ _ D); by right).
    assert (Hord : lim = false -> counter < d_sendCounter s
      /\ ZeroCopyUse.before counter (ZeroCopyQueue.d_waitList (d_zeroCopyQueue s))).
    { intros Hlim. destruct (di_ordered _ _ _ _ _ D Hlim) as [Hlt [_ _ Hw]].
      by rewrite (empty_entries s Hempty) in Hw. }
    apply wp_bind, wp_lift; cycle 1.
    { intros Hnone. rewrite Hnone in Hpush. destruct lim; [done|]. destruct Hpush. by apply Hord. }
    intros [k z] Hz. rewrite Hz in Hpush. cbn beta iota.
    destruct Hpush as (we & Hwt & Hdn & Hg & Hf & Hcb).
    assert (Hopen : lim = false -> ZeroCopyUse.open_at counter (ZeroCopyQueue.d_waitList z)).
    { intros Hlim. exists (ZeroCopyQueue.d_waitList (d_zeroCopyQueue s)), we.
      split_and!; try done. by apply Hord. }
    apply wp_bind, wp_lift; cycle 1.
    { intros Hnone. pose proof (ZeroCopyUse.frame_spec counter z) as Hfs. rewrite Hnone in Hfs.
      destruct lim; [done|]. destruct Hfs. by apply Hopen. }
    intros z' Hz'. cbn beta. apply wp_modify. apply Hsilent.
    + right. split; [done|]. intros Hlim. by apply (frame_before counter _ z z'); auto; apply Hord.
    + rewrite (frame_pending counter z z' Hz'). unfold ZeroCopyUse.pending.
      rewrite Hwt, Hdn, ZeroCopyUse.zc_callbacks_app, ZeroCopyUse.zc_callbacks_cons, Hcb.
      simpl. by rewrite app_nil_r, app_assoc.
  - destruct callback as [callback|].
    + apply wp_emit. apply HQ; [done|].
      rewrite <- (set_zeroCopyQueue_id s), watch_id by done.
      apply (Inv_complete s g counter data error w _ [callback]); auto.
    + apply wp_ret. rewrite <- (set_zeroCopyQueue_id s).
      apply Hsilent; [by left|]. simpl. by rewrite app_nil_r.
Qed.

Lemma wp_finishSendRaw (s : socket) g entryCallback counter timestamp data error w options
    setting callback twice Q :
  Inv s g -> Data.contiguous data -> direct s counter data error w ->
  (entryCallback w callback = if zeroCopy w && negb twice then None else callback) ->
  (Error.is_error error = true -> error <> Error.e_WOULD_BLOCK -> Q error s []) ->
  (forall s' l, written l = [] ->
     Inv s' (deliver (part_of w data) (dispatched l) (watch l (accept (Data.bytes data) callback twice g))) ->
     Q Error.e_OK s' l) ->
  wp (finishSendRaw entryCallback data error w counter timestamp options setting callback) s Q.
Proof.
  intros I Hc D Hcb Herr HQ. unfold finishSendRaw.
  destruct (Error.is_error error && negb (bool_decide (error = Error.e_WOULD_BLOCK))) eqn:Ee.
  { apply wp_ret. apply andb_true_iff in Ee as [E1 E2]. apply negb_true_iff, bool_decide_eq_false in E2.
    by apply Herr. }
  rewrite Data.size_of_contiguous by done. apply wp_bind, wp_lift; [|done]. intros ? [= <-]. cbn beta.
  pose proof (di_range _ _ _ _ _ D) as Hr.
  destruct (bytesSent w =? size (Data.bytes data)) eqn:En.
  { apply wp_bind, (wp_completeDirectly s g counter data error _ _ _ _ twice); [done|done|lia|].
    intros s' l Hw I'. apply wp_ret. rewrite app_nil_r. by apply HQ. }
  apply wp_bind, wp_assert; [|lia]. intros _. cbn beta.
  destruct (Data.pop_contiguous data (bytesSent w) Hc) as (rest & -> & Hcr & Hbr); [lia|].
  apply wp_bind, wp_lift; [|done]. intros ? [= <-]. cbn beta.
  rewrite Data.size_of_contiguous by done. apply wp_bind, wp_lift; [|done]. intros ? [= <-]. cbn beta.
  assert (Hsize : size (Data.bytes rest) = size (Data.bytes data) - bytesSent w)
    by (rewrite Hbr, size_drop; lia).
  apply wp_bind, wp_assert; [|rewrite negb_false_iff; lia]. intros _. cbn beta.
  assert (Hmsg : part_of w data ++ Data.bytes rest = Data.bytes data)
    by (unfold part_of; rewrite Hbr; apply take_drop).
  assert (Hpart : part_of w data <> [] -> bytesSent w <> 0).
  { intros Hne He. apply Hne. unfold part_of. by rewrite He. }
  assert (Hfirst : part_of w data <> [] \/ zeroCopy w = true ->
                   SendQueue.hasEntry (d_sendQueue s) = false).
  { intros [Hp|Hz]; apply (di_first _ _ _ _ _ D); auto. }
  assert (Hrest : forall z l1, silent l1 ->
    ZeroCopyUse.pending z ++ (if zeroCopy w then [] else option_list callback)
      ≡ₚ ZeroCopyUse.pending (d_zeroCopyQueue s) ++ option_list callback ->
    (lim = false -> if zeroCopy w then ZeroCopyUse.open_at counter (ZeroCopyQueue.d_waitList z)
                    else z = d_zeroCopyQueue s) ->
    wp (bind (enqueueRemainder rest w counter timestamp options setting (entryCallback w callback))
          (fun _ => ret Error.e_OK)) (set_zeroCopyQueue z s) (fun y s' l => Q y s' (l1 ++ l))).
  { intros z l1 (Hw1 & Hd1 & Hi1) Hp Hz.
    apply wp_bind, (wp_enqueueRemainder s z g rest w counter timestamp options setting _ callback twice
      (part_of w data)); try done; [lia| | |].
    { pose proof (di_room _ _ _ _ _ D). unfold room in *. lia. }
    { intros Hlim. destruct (di_ordered _ _ _ _ _ D Hlim). split; [done|]. split; [done|by apply Hz]. }
    rewrite Hmsg. intros s' l Hw Hd I'. apply wp_ret. rewrite app_nil_r. apply HQ.
    - by rewrite written_app, Hw1, Hw.
    - rewrite dispatched_app, Hd1, Hd.
      by rewrite watch_app_id. }
  apply wp_bind. destruct (zeroCopy w) eqn:Ez; cycle 1.
  { apply wp_ret. rewrite <- (set_zeroCopyQueue_id s).
    by apply (Hrest _ []). }
  apply wp_bind, wp_get. cbn beta.
  pose proof (ZeroCopyUse.push_callback_spec counter (Some rest) setting callback
                (d_zeroCopyQueue s)) as Hpush.
  assert (Hord : lim = false ->
    ZeroCopyUse.before counter (ZeroCopyQueue.d_waitList (d_zeroCopyQueue s))).
  { intros Hlim. destruct (di_ordered _ _ _ _ _ D Hlim) as [Hlt [_ _ Hw]].
    by rewrite (empty_entries s) in Hw by by apply Hfirst; right. }
  apply wp_bind, wp_lift; cycle 1.
  { intros Hnone. rewrite Hnone in Hpush. destruct lim; [done|]. destruct Hpush. by apply Hord. }
  intros [k z] Hz. rewrite Hz in Hpush. cbn beta iota.
  destruct Hpush as (we & Hwt & Hdn & Hg & Hf & Hcbw).
  apply wp_modify. cbn beta. simpl app. apply (Hrest z []); [done| |].
  - simpl. unfold ZeroCopyUse.pending.
    rewrite Hwt, Hdn, ZeroCopyUse.zc_callbacks_app, ZeroCopyUse.zc_callbacks_cons, Hcbw.
    simpl. by rewrite !app_nil_r, app_assoc.
  - intros Hlim. exists (ZeroCopyQueue.d_waitList (d_zeroCopyQueue s)), we. auto.
Qed.

(** The watermarks do not concern the entries. *)
Lemma authorizeHigh_entries (q : SendQueue.t Blob) w :
  SendQueue.d_entryList (SendQueue.authorizeHighWatermarkEvent_effective w q).1
  = SendQueue.d_entryList q.
Proof. unfold SendQueue.authorizeHighWatermarkEvent_effective. by repeat case_match. Qed.

Lemma authorizeLow_entries (q : SendQueue.t Blob) :
  SendQueue.d_entryList (SendQueue.authorizeLowWatermarkEvent q).1 = SendQueue.d_entryList q.
Proof. unfold SendQueue.authorizeLowWatermarkEvent. by repeat case_match. Qed.

Lemma Inv_watermarks (s : socket) g q :
  Inv s g -> SendQueue.wf q -> SendQueue.d_entryList q = SendQueue.d_entryList (d_sendQueue s) ->
  Inv (set_sendQueue q s) g.
Proof.
  intros I Hq Hl. apply (Inv_queues s _ g); try done; queues; rewrite ?Hl; try done; try apply I.
  unfold SendQueue.hasEntry. by rewrite Hl.
Qed.

Lemma ordered_mono counter counter' wait l :
  counter <= counter' -> ordered counter wait l -> ordered counter' wait l.
Proof.
  intros Hc [Hs Hb Hw]. split; [done| |].
  - revert Hb. apply Forall_impl. lia.
  - destruct l; [|done]. by apply (before_mono counter).
Qed.

Lemma Inv_counter (s : socket) g n :
  Inv s g -> d_sendCounter s <= n -> Inv (set_sendCounter n s) g.
Proof.
  intros [] Hn. split; try done. intros Hlim. simpl. apply (ordered_mono (d_sendCounter s)); auto.
Qed.

(** What an observer knows after a send that returned [error]. *)
Definition answered (error : Error.t) (message : list byte) (callback : option SendCallback)
    (twice : bool) (g : Ghost) : Ghost :=
  if Error.is_error error then g else accept message callback twice g.

Lemma wp_writeDirectly (s : socket) g env counter data options Q :
  Inv s g -> env_ok env -> Data.contiguous data -> room s data ->
  (lim = false -> counter < d_sendCounter s
    /\ ordered counter (ZeroCopyQueue.d_waitList (d_zeroCopyQueue s))
         (data_entries (SendQueue.d_entryList (d_sendQueue s)))) ->
  (forall error w s' l, Inv s' (watch l g) -> direct s' counter data error w ->
     written l = part_of w data -> dispatched l = [] ->
     (zeroCopy w = true -> exists limit, sendResult env = Sent limit true) -> Q (error, w) s' l) ->
  wp (writeDirectly env data options) s Q.
Proof.
  intros I He Hc Hroom Hord HQ. unfold writeDirectly. apply wp_bind, wp_get. cbn beta.
  destruct (SendQueue.hasEntry (d_sendQueue s)) eqn:Eh; simpl.
  { apply wp_ret. apply HQ; try done; [by rewrite watch_silent|].
    split; simpl; try done; [pose proof (size_nonneg (Data.bytes data)); lia|]. by intros []. }
  apply wp_enqueue; [by apply (inv_limited s g I)|done|by apply Data.size_of_contiguous|].
  intros error w s' l Q' K' [Ew Ed Er Ee _ Ez]. apply HQ; try done.
  - by apply (Inv_watch s).
  - destruct Q' as [_ _ _ Hz Hq Hn _]. split; [done|done|by rewrite Hq| |].
    + by rewrite Hz, Hq, Hn.
    + unfold room. by rewrite Hq.
  - intros Hz. destruct (Ez Hz) as (limit & ? & _). eauto.
Qed.

Lemma wp_send {D} raw entryCallback (c : D -> Data.t Blob) (s : socket) g env data timestamp
    options callback twice Q :
  (forall env d, raw env d = privateSendRaw_with entryCallback env (c d)) ->
  Inv s g -> env_ok env -> Data.contiguous (c data) -> room s (c data) ->
  0 <= d_sendCounter s < U64_MAX ->
  (forall w, (zeroCopy w = true -> exists limit, sendResult env = Sent limit true) ->
     entryCallback w callback = if zeroCopy w && negb twice then None else callback) ->
  (forall error s' l,
     Inv s' (observe l (answered error (Data.bytes (c data)) callback twice g)) -> Q error s' l) ->
  wp (send raw env data timestamp options callback) s Q.
Proof.
  intros Hraw I He Hc Hroom Hcount Hec HQ. unfold send.
  apply wp_bind, wp_get. cbn beta. apply wp_bind, wp_modify. cbn beta.
  rewrite wrap_small by (unfold U64_MAX in *; lia).
  set (s0 := set_sendCounter (d_sendCounter s + 1) s).
  assert (I0 : Inv s0 g) by (apply Inv_counter; [done|lia]).
  destruct (OpenState.canSend (d_openState s)); simpl; cycle 1.
  { apply wp_ret. apply HQ. by rewrite observe_nil. }
  destruct (SendQueue.isHighWatermarkViolated _ _).
  { set (effective := default _ _).
    pose proof (SendQueue.authorizeHigh_wf (d_sendQueue s) effective (inv_queue s g I)) as Hwf.
    pose proof (authorizeHigh_entries (d_sendQueue s) effective) as Hl.
    destruct (SendQueue.authorizeHighWatermarkEvent_effective effective (d_sendQueue s)) as [q b].
    apply wp_bind, wp_modify. cbn beta.
    assert (I1 : Inv (set_sendQueue q s0) g) by by apply (Inv_watermarks s0).
    wp_steps; apply HQ; rewrite ?app_nil_r, observe_silent; done. }
  set (context := match o_token options with Some _ => _ | None => _ end).
  rewrite Hraw. unfold privateSendRaw_with.
  apply wp_bind, (wp_writeDirectly s0 g env (d_sendCounter s)); [done..| |].
  { intros Hlim. simpl. split; [lia|]. by apply (inv_ordered s g I). }
  intros error w s1 l1 I1 D1 Hw1 Hd1 Hz1. cbn beta iota.
  apply (wp_finishSendRaw s1 (watch l1 g) _ _ _ _ _ _ _ _ _ twice); [done..|by apply Hec| |].
  - intros Hee _. apply HQ. unfold answered. rewrite Hee. cbn [app]. rewrite !app_nil_r.
    rewrite observe_watch, Hd1, Hw1. unfold part_of. rewrite (di_error _ _ _ _ _ D1 Hee).
    by rewrite deliver_nil.
  - intros s2 l2 Hw2 I2. cbn [app]. apply HQ. simpl.
    rewrite observe_watch, written_app, dispatched_app, Hw1, Hw2, Hd1, app_nil_r. simpl.
    replace (watch (l1 ++ l2) _) with (watch l2 (accept (Data.bytes (c data)) callback twice (watch l1 g)));
      [done|]. unfold watch, accept. simpl. by rewrite interest_app, unspent_app.
Qed.

(** Resuming a send whose direct write was throttled. *)
Lemma wp_resumeSend (s : socket) g entryCallback counter timestamp data error options setting
    callback twice Q :
  Inv s g -> lim = true -> Data.contiguous data -> room s data ->
  Error.is_error error = true ->
  entryCallback nothing callback = callback ->
  (forall error' s' l,
     Inv s' (observe l (answered error' (Data.bytes data) callback twice g)) -> Q error' s' l) ->
  wp (finishSendRaw entryCallback data error nothing counter timestamp options setting callback) s Q.
Proof.
  intros I Hlim Hc Hroom He Hec HQ. apply (wp_finishSendRaw s g _ _ _ _ _ _ _ _ _ twice); try done.
  - split; simpl; try done; [pose proof (size_nonneg (Data.bytes data)); lia|by intros []|].
    by rewrite Hlim.
  - intros _ _. apply HQ. unfold answered. by rewrite He, observe_nil.
  - intros s' l Hw I'. apply HQ. rewrite observe_watch, Hw. apply I'.
Qed.

(** *** Writing the queue *)

Lemma fine_readable (l : list Entry) : Forall entry_fine l -> Forall SendQueue.entry_readable l.
Proof.
  apply Forall_impl. intros e Hc. unfold entry_fine, SendQueue.entry_readable in *.
  destruct (SendQueueEntry.d_data e) as [d|]; [|done].
  destruct d as [| | | | | | | | |[]| |]; by repeat split.
Qed.

Lemma dispatched_complete (cbs : list (SendContext * SendCallback)) :
  let k := map (fun c => e_dispatch (TI := TI) c.2 c.1 Error.e_OK false) cbs in
  dispatched k = map snd cbs /\ written k = [] /\ forall b, interest b k = b.
Proof.
  induction cbs as [|[c cb] cbs (IH1 & IH2 & IH3)]; [done|]. simpl in *.
  split_and!; [|done|done]. unfold dispatched in *. simpl. by rewrite IH1.
Qed.

(** After a write, the entries are accounted for and the callbacks dispatched. *)
Lemma observe_iteration l1 l2 cbs g :
  dispatched l1 = [] -> silent l2 ->
  observe (l1 ++ l2 ++ map (fun c => e_dispatch c.2 c.1 Error.e_OK false) cbs) g
  = deliver (written l1) (map snd cbs) (watch l1 g).
Proof.
  intros Hd (Hw2 & Hd2 & Hi2). destruct (dispatched_complete cbs) as (Hd3 & Hw3 & Hi3).
  unfold observe, deliver, watch. simpl.
  rewrite !written_app, !dispatched_app, !interest_app, !unspent_app, Hd, Hw2, Hd2, Hi2, Hd3, Hw3, Hi3.
  by rewrite (unspent_id _ l2), unspent_id, !app_nil_r by done.
Qed.

Lemma take_prefix {A} n (a b : list A) : (n <= length a)%nat -> a `prefix_of` b -> take n b = take n a.
Proof. intros Hn [k ->]. by rewrite take_app_le. Qed.

(** The end of an iteration whose write failed. *)
Lemma Inv_failed (s s' : socket) g env data error w l :
  Inv s g -> same_queues (lim = true) s s' -> fc_kept s s' l ->
  enqueued env data error w l -> Error.is_error error = true -> Inv s' (observe l g).
Proof.
  intros I Q' K' [Ew Ed _ Ee _ _] Herr. apply (Inv_kept s); try done. by rewrite Ew, Ee.
Qed.

Lemma written_nothing w data :
  0 <= bytesSent w <= size (Data.bytes data) ->
  (bytesSent w = 0 -> size (Data.bytes data) = 0) ->
  take (Z.to_nat (bytesSent w)) (Data.bytes data) = [] -> Data.bytes data = [].
Proof.
  intros Hr Hz Ht. apply size_zero_inv, Hz. pose proof (size_take (bytesSent w) (Data.bytes data) Hr) as Hs.
  rewrite Ht in Hs. by rewrite <- Hs.
Qed.

Lemma keeps_iterationBatch env a (s : socket) g :
  env_ok env -> BufferArray.wf a ->
  BufferArray.contents a `prefix_of` concat (map SendQueue.entry_bytes
    (SendQueue.batchable_prefix (SendQueue.d_entryList (d_sendQueue s)))) ->
  Inv s g ->
  wp (privateSocketWritableIterationBatch env a) s (fun r s' l => Inv s' (observe l g)
    /\ (Error.is_error r.1 = false -> written l = [] -> BufferArray.contents a = [])).
Proof.
  intros He Hwf Hpre I. unfold privateSocketWritableIterationBatch.
  assert (Hb : Data.bytes (Data.e_CONST_BUFFER_ARRAY a) = BufferArray.contents a) by done.
  apply wp_bind, wp_enqueue; [by apply (inv_limited s g I)|done| |].
  { unfold sized. rewrite Hb. simpl. by rewrite Hwf. }
  intros error w s1 l1 Q1 K1 E1. cbn beta iota. destruct (Error.is_error error) eqn:Ee.
  { apply wp_ret. rewrite app_nil_r. split; [by eapply Inv_failed|]. simpl. congruence. }
  destruct E1 as [Ew Ed Er _ Es _]. rewrite Hb in *.
  assert (Hq : d_sendQueue s1 = d_sendQueue s) by by destruct Q1.
  assert (I1 : Inv s1 (watch l1 g)) by by apply (Inv_watch s).
  apply wp_bind, wp_get. cbn beta. rewrite Hq. rewrite <- Hq in Hpre |- *.
  apply wp_bind, (wp_batchLoop _ s1 (watch l1 g)); [done|done| |].
  { apply prefix_length in Hpre. unfold size in *. lia. }
  intros cbs s2 l2 S2 Q2 I2. apply wp_bind. unfold dispatchComplete. apply wp_emit, wp_ret.
  simpl. rewrite app_nil_r, observe_iteration by done. rewrite Ew. split.
  - rewrite (take_prefix _ (BufferArray.contents a)) in I2; [done| |done].
    unfold size in *. lia.
  - intros _ Hw. rewrite written_app, Ew in Hw. apply app_eq_nil in Hw as [Hw _].
    by apply (written_nothing w (Data.e_CONST_BUFFER_ARRAY a)); rewrite ?Hb; auto.
Qed.

Lemma wp_iterationEntry (s : socket) g written e rest d Q :
  Inv s g -> SendQueue.d_entryList (d_sendQueue s) = e :: rest ->
  SendQueueEntry.d_data e = Some d -> 0 <= bytesSent written <= size (Data.bytes d) ->
  (forall cb s' l, silent l ->
     Inv s' (deliver (part_of written d) (option_list (option_map snd cb)) g) -> Q cb s' l) ->
  wp (bind (entryWritten written) (fun entry =>
        if bytesSent written =? SendQueueEntry.d_length entry then entryComplete entry
        else bind (entryPartial (bytesSent written)) (fun _ => ret None))) s Q.
Proof.
  intros I Hl Hd Hr HQ. apply wp_bind, (wp_entryWritten s g written e rest d); [done..|].
  intros e' s1 l1 S1 I1 Q1 Hl1 Hd1 Hlen1 Hdl1. cbn beta.
  destruct (front_fine s1 g e' rest I1 Hl1) as [Heo Hef].
  destruct (entry_length e' d Heo Hef Hd1) as [Hpos Hlen].
  destruct (bytesSent written =? SendQueueEntry.d_length e') eqn:En.
  - apply (wp_entryComplete s1 g e' rest d); [done..|]. intros cb s2 l2 S2 I2 _ _.
    apply HQ; [by apply silent_app|]. unfold SendQueue.entry_bytes in I2. rewrite Hd1 in I2.
    unfold part_of. rewrite take_ge by (unfold size in *; lia). done.
  - apply wp_bind, (wp_entryPartial s1 g e' rest d); [done..|lia|]. intros s2 l2 S2 I2 _.
    apply wp_ret. rewrite app_nil_r. apply HQ; [by apply silent_app|done].
Qed.

Lemma bind_assoc {A B C} (m : StreamSocket.M A) (f : A -> StreamSocket.M B)
    (k : B -> StreamSocket.M C) (s : socket) Q :
  wp (bind (bind m f) k) s Q -> wp (bind m (fun x => bind (f x) k)) s Q.
Proof.
  unfold Sections.wp, bind. destruct (m s) as [[[x s1] l1]|]; [|done]. cbn [mbind option_bind].
  destruct (f x s1) as [[[y s2] l2]|]; [|done]. cbn [mbind option_bind].
  destruct (k y s2) as [[[z s3] l3]|]; [|done]. cbn [mbind option_bind]. by rewrite app_assoc.
Qed.

Lemma keeps_iterationFront env detaching (s : socket) g :
  env_ok env -> Inv s g -> SendQueue.hasEntry (d_sendQueue s) = true ->
  wp (privateSocketWritableIterationFront env detaching) s (fun r s' l => Inv s' (observe l g)
    /\ (Error.is_error r.1 = false -> written l = [] -> canSend s' = false)).
Proof.
  intros He I Hne. unfold privateSocketWritableIterationFront. apply wp_bind, wp_get. cbn beta.
  destruct (SendQueue.d_entryList (d_sendQueue s)) as [|e rest] eqn:Hl;
    [unfold SendQueue.hasEntry in Hne; by rewrite Hl in Hne|].
  unfold SendQueue.frontEntry. rewrite Hl. apply wp_bind, wp_lift; [|done]. intros ? [= <-]. cbn beta.
  destruct (front_fine s g e rest I Hl) as [Heo Hef].
  destruct (SendQueueEntry.d_data e) as [d|] eqn:Hd.
  - apply wp_bind, wp_enqueue; [by apply (inv_limited s g I)|done| |].
    { apply Data.size_of_contiguous. by eapply entry_fine_contiguous. }
    intros error w s1 l1 Q1 K1 E1. cbn beta iota. destruct (Error.is_error error) eqn:Ee.
    { apply wp_ret. rewrite app_nil_r. split; [by eapply Inv_failed|]. simpl. congruence. }
    destruct E1 as [Ew Ed Er _ Es _].
    assert (I1 : Inv s1 (watch l1 g)) by by apply (Inv_watch s).
    apply bind_assoc, wp_bind, (wp_iterationEntry s1 (watch l1 g) w e rest d); try done.
    { destruct Q1. congruence. }
    intros cb s2 l2 S2 I2. apply wp_bind. unfold dispatchComplete. apply wp_emit, wp_ret.
    simpl. rewrite app_nil_r, observe_iteration by done. rewrite Ew. split; [by destruct cb|].
    intros _ Hw. rewrite written_app, Ew in Hw. apply app_eq_nil in Hw as [Hw _].
    apply (written_nothing w d) in Hw; [|done|by auto].
    destruct (entry_length e d Heo Hef Hd) as [Hpos Hlen]. rewrite Hw in Hlen.
    unfold size in Hlen. simpl in Hlen. lia.
  - destruct (SendQueue.popEntry_wf (d_sendQueue s) e rest) as (q & Hpop & Hq & Hlq & _);
      [by apply (inv_queue s g I)|done|].
    rewrite Hpop. apply wp_bind, wp_lift; [|done]. intros ? [= <-]. cbn beta iota.
    apply wp_bind, wp_modify, wp_bind, wp_emit. cbn beta.
    assert (I1 : Inv (set_sendQueue q s) g).
    { pose proof (inv_entries s g I) as Hfine. rewrite Hl in Hfine.
      apply entry_fine_cons in Hfine as [Hc Hfr]. unfold entry_fine in Hc. rewrite Hd in Hc.
      assert (Hde : data_entries (e :: rest) = data_entries rest)
        by (unfold data_entries; simpl; unfold has_data at 1; by rewrite Hd).
      apply (Inv_queues s _ g); try done; queues; rewrite ?Hlq, ?Hl, ?Hde; try done.
      assert (own e = None /\ spare e = None) as [Ho Hs]
        by (unfold own, spare; rewrite Hc; by destruct (SendQueueEntry.d_zeroCopy e)).
      apply (conserved_moved _ _ _ _ _ _ (inv_callbacks s g I)); rewrite Hl.
      - by rewrite callbacks_cons, Ho.
      - by rewrite spares_cons, Hs. }
    apply wp_bind, (wp_shutdownSend detaching _ g); [done|].
    intros s2 l2 I2 Hcs _. apply wp_ret. simpl. rewrite app_nil_r, observe_app.
    by rewrite (observe_silent (map _ _)) by apply silent_closeTimers.
Qed.

Lemma wp_iteration env detaching (s : socket) g Q :
  env_ok env -> Inv s g ->
  (forall r s' l, Inv s' (observe l g) ->
     (SendQueue.hasEntry (d_sendQueue s) = true -> Error.is_error r.1 = false -> written l = [] ->
      canSend s' = false \/ exists options a,
        SendQueue.batchNext maxBuffersPerSend options (d_sendQueue s) = Some (a, true)
        /\ BufferArray.contents a = []) -> Q r s' l) ->
  wp (privateSocketWritableIteration maxBuffersPerSend env detaching) s Q.
Proof.
  intros He I HQ. unfold privateSocketWritableIteration. apply wp_bind, wp_get. cbn beta.
  destruct (SendQueue.hasEntry (d_sendQueue s)) eqn:Eh; simpl; cycle 1.
  { apply wp_ret. by apply HQ; rewrite ?observe_nil. }
  destruct (SendQueue.batchNext_spec maxBuffersPerSend (d_sendOptions s) (d_sendQueue s))
    as (a & Hbatch & Hwf & _ & Hpre & _); [by apply fine_readable, (inv_entries s g I)|].
  rewrite Hbatch. apply wp_bind, wp_lift; [|done]. intros ? [= <-]. cbn beta iota.
  destruct (negb (BufferArray.numBuffers a =? 0)).
  - eapply wp_mono; [by apply keeps_iterationBatch|]. cbn beta. intros r s' l [I' Hp].
    apply HQ; [done|]. intros _ Hok Hw. right. eauto.
  - eapply wp_mono; [by apply keeps_iterationFront|]. cbn beta. intros r s' l [I' Hp].
    apply HQ; [done|]. intros _ Hok Hw. left. auto.
Qed.

Lemma keeps_iteration env detaching :
  env_ok env -> keeps (privateSocketWritableIteration maxBuffersPerSend env detaching).
Proof. intros He s g I. by apply (wp_iteration env detaching s g). Qed.

(** *** The rest of an event *)

Lemma wp_afterCallbacks (s : socket) g Q :
  Inv s g ->
  (forall s' l, Inv s' (observe l g) -> d_shutdownState s' = d_shutdownState s -> Q tt s' l) ->
  wp afterCallbacks s Q.
Proof.
  intros I HQ. unfold afterCallbacks. apply wp_bind, wp_get. cbn beta.
  pose proof (SendQueue.authorizeLow_wf (d_sendQueue s) (inv_queue s g I)) as Hwf.
  pose proof (authorizeLow_entries (d_sendQueue s)) as Hl.
  destruct (SendQueue.authorizeLowWatermarkEvent (d_sendQueue s)) as [q b].
  apply wp_bind, wp_modify. cbn beta.
  assert (I1 : Inv (set_sendQueue q s) g) by by apply Inv_watermarks.
  wp_steps; by apply HQ; rewrite ?observe_silent.
Qed.

Lemma wp_afterIteration (s : socket) g Q :
  Inv s g ->
  (forall s' l, Inv s' (observe l g) -> d_shutdownState s' = d_shutdownState s -> Q tt s' l) ->
  wp afterIteration s Q.
Proof.
  intros I HQ. unfold afterIteration. apply wp_bind, wp_get. cbn beta.
  apply wp_when; intros Hempty; [|by apply HQ; rewrite ?observe_nil].
  apply (wp_apply s g); [done|right; by destruct (SendQueue.hasEntry _)|].
  intros s' l I' Hq _ _. apply HQ; [done|by destruct Hq].
Qed.

Lemma wp_runTail tail (s : socket) g Q :
  Inv s g ->
  (forall s' l, Inv s' (observe l g) -> d_shutdownState s' = d_shutdownState s -> Q tt s' l) ->
  wp (runTail tail) s Q.
Proof.
  intros I HQ. destruct tail; simpl; [apply wp_ret, HQ; by rewrite ?observe_nil| |].
  - apply wp_bind, (wp_afterCallbacks s g); [done|]. intros s1 l1 I1 H1.
    apply (wp_afterIteration s1 (observe l1 g)); [done|]. intros s2 l2 I2 H2.
    apply HQ; [by rewrite observe_app|congruence].
  - by apply (wp_afterIteration s g).
Qed.

Lemma keeps_afterCallbacks : keeps afterCallbacks.
Proof. intros s g I. by apply (wp_afterCallbacks s g). Qed.

Lemma keeps_runTail tail : keeps (runTail tail).
Proof. intros s g I. by apply (wp_runTail tail s g). Qed.

Lemma keeps_rearm : keeps privateRearmAfterSend.
Proof.
  intros s g I. unfold privateRearmAfterSend. apply wp_bind, wp_get. cbn beta.
  apply wp_when; intros _; [|by rewrite observe_nil]. apply wp_emit. simpl.
  by apply (Inv_kept s).
Qed.

(** *** Failing *)

Lemma keeps_shutdown graceful detaching : keeps (privateShutdown_send graceful detaching).
Proof.
  intros s g I. unfold privateShutdown_send. apply wp_bind, wp_get. cbn beta.
  apply wp_when; intros Hcs; [|by rewrite observe_nil].
  destruct (graceful && SendQueue.hasEntry (d_sendQueue s)) eqn:Eg; cycle 1.
  { by apply keeps_shutdownSend. }
  apply andb_true_iff in Eg as [_ Eh]. unfold SendQueue.generateEntryId.
  set (q0 := SendQueue.mk _ _ _ _ _ _ _ _). set (e := SendQueueEntry.mk _ _ _ _ _ _ _ _ _ _ _ _).
  assert (Hq0 : SendQueue.wf q0) by (by destruct (inv_queue s g I)).
  destruct (SendQueue.pushEntry_wf q0 e Hq0) as (q & Hpush & Hq & Hlq & _);
    [done|unfold SendQueue.entry_size; simpl; pose proof (SendQueue.wf_bound _ Hq0); simpl in *; lia|].
  rewrite Hpush. apply wp_bind, wp_lift; [|done]. intros ? [= <-]. cbn beta iota.
  apply wp_bind, wp_modify. cbn beta.
  assert (I1 : Inv (set_sendQueue q s) g).
  { assert (Hde : forall l, data_entries (l ++ [e]) = data_entries l).
    { intros l. unfold data_entries. rewrite List.filter_app. simpl. by rewrite app_nil_r. }
    apply (Inv_queues s _ g); try done; queues; rewrite ?Hlq; simpl; rewrite ?Hde; try done.
    - apply Forall_app. split; [by apply (inv_entries s g I)|]. by constructor.
    - apply (conserved_moved _ _ _ _ _ _ (inv_callbacks s g I)).
      + rewrite callbacks_app. simpl. by rewrite app_nil_r.
      + rewrite spares_app. simpl. by rewrite app_nil_r. }
  apply (wp_keeps _ _ g); [apply keeps_relax|done|]. by intros x s' l I'.
Qed.

Lemma keeps_fail_close error detaching : keeps (privateFail_close error detaching).
Proof.
  unfold privateFail_close. intros s g I. apply wp_bind, wp_get. cbn beta.
  apply wp_bind, wp_modify. cbn beta. simpl.
  assert (I1 : Inv (set_flowControlState (FlowControlState.close (d_flowControlState s)) s) g)
    by (by destruct I).
  revert I1. set (s1 := set_flowControlState _ s). clearbody s1. clear s I. revert s1 g.
  change (keeps (if connectionLost error
    then bind (privateShutdownReceive e_REMOTE detaching)
           (fun _ => privateShutdownSend detaching)
    else announce TransportError false)).
  destruct (connectionLost error); [|apply keeps_announce].
  apply keeps_bind; [apply keeps_shutdownReceive|intros _; apply keeps_shutdownSend].
Qed.

Lemma keeps_fail_shutdown error detaching : keeps (privateFail_shutdown error detaching).
Proof.
  unfold privateFail_shutdown. apply keeps_when, keeps_get. intros s.
  apply keeps_bind; [|intros _; apply keeps_shutdown].
  apply keeps_when, keeps_shutdownReceive.
Qed.

Lemma keeps_fail error detaching : keeps (privateFail error detaching).
Proof.
  unfold privateFail. apply keeps_bind; [apply keeps_apply|]. intros _.
  apply keeps_bind; [apply keeps_fail_close|]. intros _. apply keeps_fail_shutdown.
Qed.


(** *** Notifications, timers and options *)

Lemma keeps_zeroCopyUpdate avoided z : keeps (privateZeroCopyUpdate avoided z).
Proof.
  unfold privateZeroCopyUpdate. apply keeps_bind.
  { apply keeps_when, keeps_modify. intros s Hl. by split. }
  intros _ s g I. apply wp_modify. rewrite observe_nil.
  destruct (ZeroCopyUse.update_spec z (d_zeroCopyQueue s)) as (Hp & Hb & Ho).
  apply (Inv_queues s _ g); try done; queues; try apply I.
  - intros Hlim [Hs Hb' Hw]. split; [done..|].
    destruct (data_entries _) as [|e l]; [by apply Hb|]. destruct Hw as [Hw Hr].
    split; [|done]. destruct (SendQueueEntry.d_zeroCopy e); auto.
  - rewrite Hp. apply (inv_callbacks s g I).
Qed.

Lemma keeps_zeroCopyPop : keeps zeroCopyPop.
Proof.
  intros s g I. unfold zeroCopyPop. apply wp_bind, wp_get. cbn beta.
  pose proof (ZeroCopyUse.pop_use (d_zeroCopyQueue s)) as Hp.
  destruct (ZeroCopyQueue.pop (d_zeroCopyQueue s)) as [popped z]. destruct Hp as [Hp Hw].
  apply wp_bind, wp_modify. cbn beta.
  assert (I1 : Inv (set_zeroCopyQueue z s) (deliver [] (option_list (option_map snd popped)) g)).
  { apply (Inv_queues s _ g); try done; queues; rewrite ?Hw; try done; try apply I.
    - intros _. simpl. by rewrite app_nil_r.
    - apply (conserved_moved _ _ _ _ _ _ (inv_callbacks s g I)); [|done].
      simpl. by rewrite <- (app_assoc (g_dispatched g)), <- Hp. }
  destruct popped as [[context callback]|].
  - apply wp_bind, wp_emit, wp_ret. rewrite observe_watch, watch_id by done. apply I1.
  - apply wp_ret. by rewrite observe_nil, deliver_nil in *.
Qed.

Lemma keeps_sendRateTimer : keeps processSendRateTimer.
Proof. apply keeps_bind; [apply keeps_relax|intros _; apply keeps_announce]. Qed.

Lemma keeps_closeRateTimer b :
  keeps (when b (bind (emit [e_closeRateTimer]) (fun _ => modify (set_sendRateTimer false)))).
Proof.
  apply keeps_when, keeps_bind; [by apply keeps_emit|]. intros _. apply keeps_modify.
  intros s Hl. by split.
Qed.

Lemma keeps_closeSendRateTimer dir : keeps (closeSendRateTimer dir).
Proof. apply keeps_get. intros s. apply keeps_closeRateTimer. Qed.

Lemma keeps_applyFlowControl dir : keeps (applyFlowControl dir).
Proof.
  apply keeps_bind; [apply keeps_closeSendRateTimer|intros _; apply keeps_apply].
Qed.

Lemma keeps_setWriteRateLimiter limiter :
  limiter = None \/ lim = true -> keeps (setWriteRateLimiter limiter).
Proof.
  intros Hl. unfold setWriteRateLimiter. apply keeps_bind.
  { apply keeps_modify. intros s Hs. split; [|done]. split; try done. intros _ Hne.
    destruct Hl as [->|]; done. }
  intros _. destruct limiter as [limiter|]; [apply keeps_ret|].
  apply keeps_get. intros s. apply keeps_bind; [apply keeps_closeRateTimer|]. intros _.
  apply keeps_relax.
Qed.

(** A change of the watermarks. *)
Lemma keeps_watermarks f :
  (forall q, SendQueue.wf q -> SendQueue.wf (f q) /\ SendQueue.d_entryList (f q) = SendQueue.d_entryList q) ->
  keeps (modify (fun s : socket => set_sendQueue (f (d_sendQueue s)) s)).
Proof.
  intros Hf s g I. apply wp_modify. rewrite observe_nil.
  destruct (Hf (d_sendQueue s) (inv_queue s g I)). by apply Inv_watermarks.
Qed.

Lemma keeps_setLow low :
  0 <= low -> keeps (modify (fun s : socket => set_sendQueue (SendQueue.setLowWatermark low (d_sendQueue s)) s)).
Proof.
  intros Hlow. apply keeps_watermarks. intros q Hq. split.
  - apply SendQueue.setWatermark_wf; [done..|]. by destruct (SendQueue.wf_watermarks q Hq); lia.
  - unfold SendQueue.setLowWatermark.
    by destruct (WatermarkUtil.sanitizeOutgoingQueueWatermarks _ _).
Qed.

Lemma keeps_setHigh high :
  0 <= high -> keeps (modify (fun s : socket => set_sendQueue (SendQueue.setHighWatermark high (d_sendQueue s)) s)).
Proof.
  intros Hhigh. apply keeps_watermarks. intros q Hq. split.
  - apply SendQueue.setWatermark_wf; [done| |done]. by destruct (SendQueue.wf_watermarks q Hq).
  - unfold SendQueue.setHighWatermark.
    by destruct (WatermarkUtil.sanitizeOutgoingQueueWatermarks _ _).
Qed.

Lemma keeps_announceWatermarks low high : keeps (announceWatermarks low high).
Proof.
  unfold announceWatermarks. apply keeps_bind; [apply keeps_when, keeps_afterCallbacks|]. intros _.
  apply keeps_when. intros s g I. apply wp_bind, wp_get. cbn beta.
  pose proof (SendQueue.authorizeHigh_wf (d_sendQueue s)
    (SendQueue.d_watermarkHigh (d_sendQueue s)) (inv_queue s g I)) as Hwf.
  pose proof (authorizeHigh_entries (d_sendQueue s)
    (SendQueue.d_watermarkHigh (d_sendQueue s))) as Hl.
  unfold SendQueue.authorizeHighWatermarkEvent.
  destruct (SendQueue.authorizeHighWatermarkEvent_effective _ (d_sendQueue s)) as [q b].
  apply wp_bind, wp_modify. cbn beta.
  assert (I1 : Inv (set_sendQueue q s) g) by by apply Inv_watermarks.
  wp_steps; by rewrite observe_silent.
Qed.

Lemma keeps_throttle_begin env : keeps (privateThrottleSendBuffer_begin env).
Proof.
  intros s g I. apply wp_throttle_begin; [by apply (inv_limited s g I)|].
  intros exceeded s' l Q' K' Hw Hd _. by apply (Inv_kept s).
Qed.

Lemma keeps_throttle_end env time : keeps (privateThrottleSendBuffer_end env time).
Proof.
  intros s g I. apply wp_throttle_end. intros error s' l Q' Hf (Hw & Hd & Hi) _.
  apply (Inv_kept s); try done. apply fc_kept_refl; [done|by destruct Q'|done].
Qed.

(** *** A one-shot reactor *)

Lemma Inv_ghost (s : socket) g g' :
  Inv s g -> g_wire g' = g_wire g -> g_messages g' = g_messages g -> g_accepted g' = g_accepted g ->
  g_dispatched g' = g_dispatched g -> g_shared g' = g_shared g -> watched s (attending g') -> Inv s g'.
Proof. intros [] Hw Hm Ha Hd Hs ?. by split; rewrite ?Hw, ?Hm, ?Ha, ?Hd, ?Hs. Qed.

Lemma Inv_event (s : socket) g : Inv s g -> Inv s (event g).
Proof. intros I. by apply (Inv_ghost s g). Qed.

(** Whether nothing is queued although flow control wants writability. *)
Definition idle (s : socket) : bool :=
  negb (SendQueue.hasEntry (d_sendQueue s)) && FlowControlState.wantSend (d_flowControlState s).

(** A thread has processed an event: it enables the next one, unless the event
    was spent. *)
Lemma wp_rearm_processed (s : socket) g :
  Inv s g -> d_oneShot config = true ->
  wp privateRearmAfterSend s (fun _ s' l => Inv s' (observe l (processed (idle s) g))).
Proof.
  intros I Ho. unfold privateRearmAfterSend. apply wp_bind, wp_get. cbn beta.
  rewrite (inv_config s g I), Ho. apply wp_when; intros Hr.
  - apply wp_emit. apply (Inv_ghost s g); try done; simpl; by rewrite ?app_nil_r.
  - rewrite observe_nil. apply (Inv_ghost s g); try done. intros Hc He. unfold canSend in Hc.
    unfold idle, FlowControlState.wantSend in *. rewrite He, Hc in *. rewrite !andb_true_r in *.
    unfold attending. simpl in *. rewrite Hr. simpl. by rewrite !orb_true_r.
Qed.

(** *** Withdrawing a message *)

(** The [i]-th message is not to be sent after all: what of it is on the wire is
    all that remains of it. *)
Definition cut (i : nat) (w : list byte) (m : list (list byte)) : list (list byte) :=
  let part := drop (length (concat (take i m))) w in
  take i m ++ match part with [] => [] | _ => [part] end ++ drop (S i) m.

Definition withdraw (k : nat) (g : Ghost) : Ghost :=
  let m := g_messages g in
  mkGhost (g_wire g) (cut (length m - S k) (g_wire g) m) (g_accepted g) (g_dispatched g)
    (g_shared g) (g_watching g) (g_processing g) (g_spent g).

(** The message of the entry that is removed. *)
Definition withdrawal (sought allowed : Entry -> bool) (s : socket) (g : Ghost) : Ghost :=
  match SendQueue.find_split sought (SendQueue.d_entryList (d_sendQueue s)) with
  | Some (before, e, after) =>
      if allowed e && has_data e then withdraw (length (data_entries after)) g else g
  | None => g
  end.

Lemma cut_at (done_ : list (list byte)) x after part w :
  w = concat done_ ++ part ->
  cut (length done_) w (done_ ++ x :: after) =
    done_ ++ match part with [] => [] | _ => [part] end ++ after.
Proof.
  intros ->. unfold cut. rewrite take_app_length, drop_app_length.
  by rewrite (drop_app_ge done_), Nat.sub_succ_l, Nat.sub_diag by lia.
Qed.

Lemma aligned_remove w m (before : list Entry) e after :
  aligned w m (before ++ e :: after) ->
  aligned w (cut (length m - S (length after)) w m) (before ++ after).
Proof.
  intros (done_ & part & live & -> & -> & Hl).
  destruct before as [|e0 before]; cbn [app] in *.
  - destruct Hl as [-> Hd].
    replace (length (done_ ++ _) - S (length after))%nat with (length done_)
      by (rewrite length_app; simpl; rewrite length_map; lia).
    rewrite (cut_at done_ _ _ part) by done.
    exists (done_ ++ match part with [] => [] | _ => [part] end), [], (map SendQueue.entry_bytes after).
    split_and!.
    + by rewrite <- app_assoc.
    + rewrite concat_app, app_nil_r. f_equal. destruct part; [done|]. simpl. by rewrite app_nil_r.
    + by destruct after.
  - destruct Hl as [-> Hd]. rewrite map_app. simpl. set (x := part ++ SendQueue.entry_bytes e0).
    rewrite app_comm_cons, (app_assoc done_). set (d := done_ ++ x :: map SendQueue.entry_bytes before).
    replace (length (d ++ _) - S (length after))%nat with (length d)
      by (rewrite length_app; simpl; rewrite length_map; lia).
    assert (length (concat done_ ++ part) <= length (concat d))%nat as Hle.
    { unfold d, x. rewrite concat_app. simpl. rewrite !length_app. lia. }
    assert (cut (length d) (concat done_ ++ part)
      (d ++ SendQueue.entry_bytes e :: map SendQueue.entry_bytes after) =
      d ++ map SendQueue.entry_bytes after) as ->.
    { unfold cut. rewrite take_app_length, (drop_ge (concat done_ ++ part)) by done. simpl.
      by rewrite (drop_app_ge d), Nat.sub_succ_l, Nat.sub_diag by lia. }
    exists done_, part, (x :: map SendQueue.entry_bytes (before ++ after)).
    rewrite map_app. split_and!; [|done|done|done]. unfold d. by rewrite <- app_assoc.
Qed.

Lemma open_before k k' (l : list (ZeroCopyEntry.t Blob)) :
  ZeroCopyUse.open_at k l -> k < k' -> ZeroCopyUse.before k' l.
Proof.
  intros (f & w & -> & Hb & Hg & _) Hk. apply Forall_app. split.
  - revert Hb. apply before_mono. lia.
  - apply Forall_singleton. lia.
Qed.

Lemma ordered_remove counter wait (before : list Entry) e after :
  ordered counter wait (before ++ e :: after) -> ordered counter wait (before ++ after).
Proof.
  intros Ho. destruct before as [|e0 before].
  - apply (ordered_pop _ wait _ e); [done|]. intros k Hk. destruct Ho as [_ _ [Hw _]].
    destruct (SendQueueEntry.d_zeroCopy e); [by apply (open_before (SendQueueEntry.d_id e))|].
    revert Hw. apply before_mono. lia.
  - destruct Ho as [Hs Hb [Hw Hr]]. split.
    + by apply StronglySorted_remove in Hs.
    + apply Forall_app in Hb as [Hb Ha]. apply Forall_cons_iff in Ha as [_ Ha]. by apply Forall_app.
    + simpl. split; [done|].
      apply Forall_app in Hr as [Hb' Ha]. apply Forall_cons_iff in Ha as [_ Ha]. by apply Forall_app.
Qed.

Lemma data_entries_app (l k : list Entry) : data_entries (l ++ k) = data_entries l ++ data_entries k.
Proof. apply List.filter_app. Qed.

Lemma Inv_removed (s : socket) g q sought allowed before e after :
  Inv s g ->
  SendQueue.find_split sought (SendQueue.d_entryList (d_sendQueue s)) = Some (before, e, after) ->
  allowed e = true -> SendQueue.wf q -> SendQueue.d_entryList q = before ++ after ->
  Inv (set_sendQueue q s)
    (deliver [] (option_list (SendQueueEntry.d_callback e)) (withdrawal sought allowed s g)).
Proof.
  intros I Hf Ha Hq Hlq.
  assert (Hl := Hf). apply SendQueue.find_split_Some in Hl as (Hl & _ & _).
  pose proof (inv_entries s g I) as Hfine. pose proof (SendQueue.wf_entries _ (inv_queue s g I)) as Hok.
  rewrite Hl in Hfine, Hok. apply Forall_app in Hfine as [Hfb Hfa], Hok as [_ Hok].
  apply Forall_cons_iff in Hfa as [Hfe Hfa], Hok as [Hok _].
  unfold withdrawal. rewrite Hf, Ha.
  apply (Inv_queues s _ g); try done; queues; rewrite ?Hlq, ?Hl, ?data_entries_app.
  - by destruct (has_data e).
  - by apply Forall_app.
  - intros _. simpl. destruct (has_data e) eqn:Hd; simpl; rewrite app_nil_r; [|done].
    unfold has_data in Hd. destruct (SendQueueEntry.d_data e) as [d|] eqn:Ed; [|done].
    apply aligned_remove.
  - intros _. simpl. destruct (has_data e); [apply ordered_remove|done].
  - replace (g_accepted (deliver _ _ _)) with (g_accepted g) by (simpl; by destruct (has_data e)).
    replace (g_shared (deliver _ _ _)) with (g_shared g) by (simpl; by destruct (has_data e)).
    replace (g_dispatched (deliver _ _ _))
      with (g_dispatched g ++ option_list (SendQueueEntry.d_callback e))
      by (simpl; by destruct (has_data e)).
    apply (conserved_again _ _ _ _ _ _ (option_list (spare e)) (inv_callbacks s g I)); rewrite Hl.
    + rewrite !callbacks_app, callbacks_cons, <- own_spare, <- !app_assoc. f_equiv.
      rewrite (Permutation_app_comm (ZeroCopyUse.pending _)), !app_assoc.
      solve_Permutation.
    + rewrite !spares_app, spares_cons. solve_submseteq.
  - intros _. unfold SendQueue.hasEntry. rewrite Hl. by destruct before.
Qed.

Lemma wp_removed error defer sought allowed r (s : socket) g Q :
  Inv s g ->
  SendQueue.removal (d_sendQueue s) sought allowed r ->
  (forall cb s' l, Inv s' (observe l (withdrawal sought allowed s g)) -> Q cb s' l) ->
  wp (removed error defer r) s Q.
Proof.
  intros I Hr HQ. destruct r as [[[[q callback] context] closed] becameEmpty].
  destruct Hr as [-> Hr]. set (g' := withdrawal sought allowed s g) in *.
  assert (I1 : Inv (set_sendQueue q s) (deliver [] (option_list callback) g')).
  { unfold g', withdrawal in *.
    destruct (SendQueue.find_split _ _) as [[[b e] a]|] eqn:Hf; [|destruct Hr as [-> ->];
      rewrite deliver_nil; by destruct s].
    destruct (allowed e) eqn:Ha; cycle 1.
    { destruct Hr as [-> ->]. rewrite deliver_nil. by destruct s. }
    destruct Hr as (Hq & Hlq & ->).
    pose proof (Inv_removed s g q sought allowed b e a I Hf Ha Hq Hlq) as I'.
    unfold withdrawal in I'. by rewrite Hf, Ha in I'. }
  unfold removed. apply wp_bind, wp_modify. cbn beta. apply wp_bind, wp_emit. cbn beta.
  assert (Hrest : forall s2 l, Inv s2 (observe l (deliver [] (option_list callback) g')) ->
    written l = [] -> dispatched l = [] ->
    wp (bind (match callback with
              | Some callback => emit [e_dispatch callback context error defer]
              | None => ret tt end) (fun _ => ret callback)) s2
      (fun x s3 l3 => Q x s3 (map e_closeTimer closed ++ l ++ l3))).
  { intros s2 l I2 Hwr Hd.
    assert (Heq : forall k, written k = [] -> dispatched k = option_list callback ->
      (forall b, interest b k = b) ->
      observe (map e_closeTimer closed ++ l ++ k) g'
      = observe l (deliver [] (option_list callback) g')).
    { intros k Hk1 Hk2 Hk3. rewrite observe_app, (observe_silent (map _ _))
        by apply silent_closeTimers.
      unfold observe, deliver. simpl. rewrite written_app, dispatched_app, interest_app, unspent_app.
      by rewrite Hwr, Hd, Hk1, Hk2, Hk3, (unspent_id _ k), !app_nil_r. }
    destruct callback as [callback|].
    - apply wp_bind, wp_emit, wp_ret. apply HQ. rewrite app_nil_r, Heq; done.
    - apply wp_bind, wp_ret, wp_ret. apply HQ. rewrite Heq; done. }
  apply wp_bind, wp_when; intros Hempty.
  - apply (wp_apply _ (deliver [] (option_list callback) g')); [done| |].
    + right. queues. by destruct (SendQueue.hasEntry q).
    + intros s2 l I2 _ Hwr Hd. simpl app. by apply Hrest.
  - apply (Hrest _ []); [by rewrite observe_nil|done|done].
Qed.

End Invariant.
End SocketInvariant.
