(* ===== verification/StreamSocketTheorems.v ===== *)
(** * The send side of the stream socket as a system of sections

    The sections of [StreamSocket] interleave in any order; in every state
    they reach, the bytes on the wire, the callbacks and the interest in
    writability are what the messages sent require. Messages are blobs and
    contiguous data; what is assumed of each section is [enabled]. Concrete runs
    at the end show what the properties do not exclude. *)

From S2P Require Import Prelude Errors Buffers Watermark SendQueue ZeroCopy SocketState.
From S2P Require Import TimeInterval RateLimiter Sections StreamSocket StreamSocketLogic StreamSocketFacts.

Module SocketSystem.
Import StreamSocket Observation SocketLogic SocketInvariant.
Section System.
Context {Blob : Type} `{BO : BlobOps Blob} `{BL : !BlobLaws Blob} {T : SendTypes}.
Context `{SC : !SendContextOps} {L TI : Type} `{LO : LimiterOps L TI}.
Context (maxBuffersPerSend : Z).
(** Whether the socket may have a rate limiter. *)
Context (lim : bool).
Context (config : Config).
#[local] Abbreviation socket := (StreamSocket.t (Blob := Blob) (L := L)).
#[local] Abbreviation effects := (list (Effect (T := T) (TI := TI))).
#[local] Abbreviation M := (StreamSocket.M (Blob := Blob) (T := T) (L := L) (TI := TI)).

(** ** The steps *)

(** One for each section: those of the operations of the user, of the events
    of the reactor and of the timers, and the parts of them that run after the
    mutex was released. *)
Inductive op : Type :=
| op_send_blob (env : Env (TI := TI)) (blob : Blob) (timestamp : Z) (options : Options)
    (callback : option SendCallback)
| op_send_data (env : Env (TI := TI)) (data : Data.t Blob) (timestamp : Z) (options : Options)
    (callback : option SendCallback)
| op_throttle_begin (env : Env (TI := TI))
| op_throttle_end (env : Env (TI := TI)) (timeToSubmit : TI)
| op_resume_blob (error : Error.t) (blob : Blob) (counter timestamp : Z) (options : Options)
    (context : SendContext) (callback : option SendCallback)
| op_resume_data (error : Error.t) (data : Data.t Blob) (counter timestamp : Z)
    (options : Options) (context : SendContext) (callback : option SendCallback)
| op_iteration (env : Env (TI := TI)) (detaching : bool)
| op_tail (tail : Tail)
| op_event
| op_rearm
| op_fail_flowControl
| op_fail_close (error : Error.t) (detaching : bool)
| op_fail_shutdown (error : Error.t) (detaching : bool)
| op_shutdown (graceful detaching : bool)
| op_shutdownReceive (origin : ShutdownOrigin) (detaching : bool)
| op_shutdownSequenceComplete (context : ShutdownContext.t)
| op_zeroCopyUpdate (avoided : bool) (z : ZeroCopyNotification)
| op_zeroCopyPop
| op_sendRateTimer
| op_sendDeadlineTimer (entryId : Z)
| op_cancel (token : Z)
| op_relaxFlowControl (direction : FlowControlType)
| op_applyFlowControl (direction : FlowControlType)
| op_setWriteRateLimiter (limiter : option L)
| op_setWriteQueueLowWatermark (low : Z)
| op_setWriteQueueHighWatermark (high : Z)
| op_setWriteQueueWatermarks (low high : Z).

Definition quietly {A} (m : M A) : M Error.t := bind m (fun _ => ret Error.e_OK).

Definition exec (o : op) : M Error.t :=
  match o with
  | op_send_blob env blob ts options cb => send_blob env blob ts options cb
  | op_send_data env data ts options cb => send_data env data ts options cb
  | op_throttle_begin env => quietly (privateThrottleSendBuffer_begin env)
  | op_throttle_end env time => privateThrottleSendBuffer_end env time
  | op_resume_blob error blob counter ts options context cb =>
      finishSendRaw (fun w cb => if zeroCopy w then None else cb) (Data.e_BLOB blob) error
        nothing counter ts options context cb
  | op_resume_data error data counter ts options context cb =>
      finishSendRaw (fun _ cb => cb) data error nothing counter ts options context cb
  | op_iteration env detaching =>
      quietly (privateSocketWritableIteration maxBuffersPerSend env detaching)
  | op_tail tail => quietly (runTail tail)
  | op_event => ret Error.e_OK
  | op_rearm => quietly privateRearmAfterSend
  | op_fail_flowControl => quietly privateFail_flowControl
  | op_fail_close error detaching => quietly (privateFail_close error detaching)
  | op_fail_shutdown error detaching => quietly (privateFail_shutdown error detaching)
  | op_shutdown graceful detaching => quietly (privateShutdown_send graceful detaching)
  | op_shutdownReceive origin detaching => quietly (privateShutdownReceive origin detaching)
  | op_shutdownSequenceComplete context => quietly (privateShutdownSequenceComplete context)
  | op_zeroCopyUpdate avoided z => quietly (privateZeroCopyUpdate avoided z)
  | op_zeroCopyPop => quietly zeroCopyPop
  | op_sendRateTimer => quietly processSendRateTimer
  | op_sendDeadlineTimer id => quietly (processSendDeadlineTimer id)
  | op_cancel token => cancel token
  | op_relaxFlowControl dir => quietly (relaxFlowControl dir)
  | op_applyFlowControl dir => quietly (applyFlowControl dir)
  | op_setWriteRateLimiter limiter => quietly (setWriteRateLimiter limiter)
  | op_setWriteQueueLowWatermark low => quietly (setWriteQueueLowWatermark low)
  | op_setWriteQueueHighWatermark high => quietly (setWriteQueueHighWatermark high)
  | op_setWriteQueueWatermarks low high => quietly (setWriteQueueWatermarks low high)
  end.

(** The system copied nothing of what it took. *)
Definition zeroCopied (env : Env (TI := TI)) : bool :=
  match sendResult env with Sent _ zc => zc | Failed _ => false end.

(** The messages an operation accepts or withdraws, and what becomes of an event of
    a one-shot reactor. *)
Definition after (o : op) (s : socket) (error : Error.t) (g : Ghost) : Ghost :=
  match o with
  | op_send_blob _ blob _ _ cb | op_resume_blob _ blob _ _ _ _ cb =>
      answered error (Data.bytes (Data.e_BLOB blob)) cb false g
  | op_send_data env data _ _ cb => answered error (Data.bytes data) cb (zeroCopied env) g
  | op_resume_data _ data _ _ _ _ cb => answered error (Data.bytes data) cb false g
  | op_event => if d_oneShot config then event g else g
  | op_rearm => if d_oneShot config then processed (idle s) g else g
  | op_sendDeadlineTimer id => withdrawal (SendQueue.has_id id) SendQueue.expirable s g
  | op_cancel token => withdrawal (SendQueue.has_token token) SendQueue.not_started s g
  | _ => g
  end.

(** What is assumed of the environment of an operation.

    The system call of a write reports an error or takes a prefix; fewer than
    2^64 messages are sent and fewer than 2^64 bytes are queued; data is a range of memory or a blob; the reactor
    delivers an event while it watches, and the thread that processes it ends by
    enabling the next one, unless it fails or can no longer send; and without a
    rate limiter none is set and no write is throttled. *)
Definition enabled (s : socket) (g : Ghost) (o : op) : Prop :=
  match o with
  | op_send_blob env blob _ _ _ =>
      env_ok env /\ 0 <= d_sendCounter s < U64_MAX /\ room s (Data.e_BLOB blob)
  | op_send_data env data _ _ cb =>
      env_ok env /\ 0 <= d_sendCounter s < U64_MAX /\ room s data /\ Data.contiguous data
  | op_resume_blob error blob _ _ _ _ _ =>
      lim = true /\ Error.is_error error = true /\ room s (Data.e_BLOB blob)
  | op_resume_data error data _ _ _ _ _ =>
      lim = true /\ Error.is_error error = true /\ room s data /\ Data.contiguous data
  | op_iteration env _ => env_ok env
  | op_event => g_watching g = true
  | op_rearm => d_oneShot config = true -> (0 < g_processing g)%nat
  | op_shutdownSequenceComplete context =>
      ShutdownContext.d_shutdownSend context = true -> canSend s = false
  | op_setWriteRateLimiter limiter => limiter = None \/ lim = true
  | op_setWriteQueueLowWatermark w | op_setWriteQueueHighWatermark w => 0 <= w
  | op_setWriteQueueWatermarks low high => 0 <= low /\ 0 <= high
  | _ => True
  end.

(** A socket that was just connected, watched by the reactor or not. *)
Record fresh (s : socket) : Prop := {
  fr_config : d_config s = config;
  fr_queue : SendQueue.wf (d_sendQueue s);
  fr_empty : SendQueue.d_entryList (d_sendQueue s) = [];
  fr_zeroCopy : d_zeroCopyQueue s = ZeroCopyQueue.init;
  fr_shutdown : d_shutdownState s = ShutdownContext.reset;
  fr_flowControl : fc_ok (d_flowControlState s);
  fr_limiter : lim = false -> d_sendRateLimiter s = None
}.

Definition initially (s : socket) : Ghost :=
  mkGhost [] [] [] [] [] (FlowControlState.d_enableSend (d_flowControlState s)) 0 false.

Inductive reachable : socket -> Ghost -> Prop :=
| reachable_fresh s : fresh s -> reachable s (initially s)
| reachable_step s g o error s' l :
    reachable s g -> enabled s g o -> exec o s = Some (error, s', l) ->
    reachable s' (observe l (after o s error g)).

(** ** The invariant holds *)

Lemma fresh_Inv s : fresh s -> Inv lim config s (initially s).
Proof.
  intros [Hc Hq He Hz Hs Hf Hl]. split; rewrite ?He, ?Hz, ?Hs; simpl; try done.
  - by exists [], [], [].
  - intros _. split; simpl; constructor.
  - by exists [].
  - intros _ Hen. unfold attending. simpl. by rewrite Hen.
  - unfold SendQueue.hasEntry. by rewrite He.
  - intros Hne. destruct lim; [done|]. by rewrite Hl in Hne.
Qed.

#[local] Abbreviation keeps := (SocketInvariant.keeps (TI := TI) lim config).
#[local] Abbreviation wp := (Sections.wp (S := socket) (E := Effect (T := T) (TI := TI)) (lim = true)).

Lemma wp_quietly {A} (m : M A) (s : socket) g :
  keeps m -> Inv lim config s g ->
  wp (quietly m) s (fun _ s' l => Inv lim config s' (observe l g)).
Proof.
  intros Hm I. apply wp_bind. eapply wp_mono; [by apply Hm|]. cbn beta. intros x s' l I'.
  apply wp_ret. by rewrite app_nil_r.
Qed.

Lemma wp_exec o (s : socket) g :
  Inv lim config s g -> enabled s g o ->
  wp (exec o) s (fun error s' l => Inv lim config s' (observe l (after o s error g))).
Proof.
  intros I E. destruct o; simpl in *;
    lazymatch goal with
    | |- wp (quietly (privateShutdownSequenceComplete _)) _ _ => idtac
    | |- wp (quietly (processSendDeadlineTimer _)) _ _ => idtac
    | |- wp (quietly privateRearmAfterSend) _ _ => idtac
    | |- wp (quietly _) _ _ => apply wp_quietly; [|done]
    | _ => idtac
    end.
  - destruct E as (He & Hn & Hr).
    by apply (wp_send lim config privateSendRaw_blob
                (fun w cb => if zeroCopy w then None else cb) Data.e_BLOB s g _ _ _ _ _ false);
      try done; intros w _; rewrite andb_true_r.
  - destruct E as (He & Hn & Hr & Hc).
    apply (wp_send lim config privateSendRaw_data (fun _ cb => cb) id s g _ _ _ _ _ (zeroCopied env));
      try done.
    intros w Hw. destruct (zeroCopy w); [|done]. destruct (Hw eq_refl) as [limit Hs].
    unfold zeroCopied. by rewrite Hs.
  - apply keeps_throttle_begin.
  - by apply keeps_throttle_end.
  - destruct E as (Hl & He & Hr). by apply (wp_resumeSend lim config s g _ _ _ _ _ _ _ _ false).
  - destruct E as (Hl & He & Hr & Hc). by apply (wp_resumeSend lim config s g _ _ _ _ _ _ _ _ false).
  - by apply keeps_iteration.
  - apply keeps_runTail.
  - apply wp_ret. rewrite observe_nil. destruct (d_oneShot config); [by apply Inv_event|done].
  - destruct (d_oneShot config) eqn:Eo; [|by apply wp_quietly; [apply keeps_rearm|]].
    apply wp_bind. eapply wp_mono; [by apply (wp_rearm_processed lim config s g I)|].
    cbn beta. intros x s' l I'. apply wp_ret. by rewrite app_nil_r.
  - apply keeps_apply.
  - apply keeps_fail_close.
  - apply keeps_fail_shutdown.
  - apply keeps_shutdown.
  - apply keeps_shutdownReceive.
  - apply wp_bind. apply (wp_shutdownSequenceComplete lim config _ s g); [done|done|].
    intros s' l I' _ _. apply wp_ret. by rewrite app_nil_r.
  - apply keeps_zeroCopyUpdate.
  - apply keeps_zeroCopyPop.
  - apply keeps_sendRateTimer.
  - unfold quietly, processSendDeadlineTimer. apply wp_bind, wp_bind, wp_get. cbn beta.
    destruct (SendQueue.removeEntryId_removal (d_sendQueue s) entryId (inv_queue _ _ s g I))
      as (r & -> & Hr).
    apply wp_bind, wp_lift; [|done]. intros ? [= <-]. cbn beta.
    apply wp_bind, (wp_removed lim config _ _ _ _ _ s g _ I Hr).
    intros cb s' l I'. apply wp_ret, wp_ret. simpl. by rewrite !app_nil_r.
  - unfold cancel. apply wp_bind, wp_get. cbn beta.
    destruct (SendQueue.removeEntryToken_removal (d_sendQueue s) SendContext_default token
                (inv_queue _ _ s g I)) as (r & -> & Hr).
    apply wp_bind, wp_lift; [|done]. intros ? [= <-]. cbn beta.
    apply wp_bind, (wp_removed lim config _ _ _ _ _ s g _ I Hr).
    intros cb s' l I'. apply wp_ret. simpl. by rewrite app_nil_r.
  - apply keeps_relax.
  - apply keeps_applyFlowControl.
  - by apply keeps_setWriteRateLimiter.
  - apply keeps_bind; [by apply keeps_setLow|intros _; apply keeps_announceWatermarks].
  - apply keeps_bind; [by apply keeps_setHigh|intros _; apply keeps_announceWatermarks].
  - destruct E. apply keeps_bind; [by apply keeps_setLow|intros _].
    apply keeps_bind; [by apply keeps_setHigh|intros _; apply keeps_announceWatermarks].
Qed.

Lemma reachable_Inv s g : reachable s g -> Inv lim config s g.
Proof.
  induction 1 as [s Hf|s g o error s' l _ IH E Hx]; [by apply fresh_Inv|].
  pose proof (wp_exec o s g IH E) as Hw. unfold Sections.wp in Hw. by rewrite Hx in Hw.
Qed.

(** *** The stream of bytes *)




(** ** The loop of a writable event *)

Section Termination.
Context `{SB : !SolidBlobs Blob}.






End Termination.

(** ** Runs *)

Fixpoint run (ops : list op) (s : socket) (g : Ghost) : option (socket * Ghost) :=
  match ops with
  | [] => Some (s, g)
  | o :: rest =>
      '(error, s', l) ← exec o s;
      run rest s' (observe l (after o s error g))
  end.

Fixpoint all_enabled (ops : list op) (s : socket) (g : Ghost) : Prop :=
  match ops with
  | [] => True
  | o :: rest =>
      enabled s g o /\
      match exec o s with
      | Some (error, s', l) => all_enabled rest s' (observe l (after o s error g))
      | None => True
      end
  end.

Lemma run_reachable ops s g s' g' :
  reachable s g -> all_enabled ops s g -> run ops s g = Some (s', g') -> reachable s' g'.
Proof.
  revert s g. induction ops as [|o ops IH]; intros s g Hr Hen Hrun; simpl in *; [by simplify_eq|].
  destruct Hen as [Ho Hen]. destruct (exec o s) as [[[error s1] l]|] eqn:Hx; [|done].
  simpl in Hrun. eapply IH; [|exact Hen|exact Hrun]. by eapply reachable_step.
Qed.

(** *** Properties *)


(** C2: every callback of an accepted message is in exactly one place: it was
    dispatched, it waits in the zero-copy queue or it is in its entry of the
    send queue; so it is dispatched at most once, and exactly once when
    nothing is queued any more. The exception is the callback of a data container
    whose direct write was done with zero copy, which is left in two places and may
    be dispatched again, once. *)
Theorem callbacks_dispatched_once (s : socket) g :
  reachable s g ->
  let placed := g_dispatched g ++ ZeroCopyUse.pending (d_zeroCopyQueue s)
    ++ callbacks (SendQueue.d_entryList (d_sendQueue s)) in
  (exists again, again ⊆+ g_shared g /\ g_accepted g ++ again ≡ₚ placed) /\
  (g_shared g = [] -> g_accepted g ≡ₚ placed) /\
  (SendQueue.hasEntry (d_sendQueue s) = false -> ZeroCopyUse.pending (d_zeroCopyQueue s) = [] ->
   exists again, again ⊆+ g_shared g /\ g_accepted g ++ again ≡ₚ g_dispatched g).
Proof.
  intros Hr placed. apply reachable_Inv in Hr.
  destruct (inv_callbacks _ _ s g Hr) as (again & Hp & Hs). rewrite <- app_assoc in Hp.
  assert (again ⊆+ g_shared g) as Ha by (etrans; [|exact Hs]; by apply submseteq_inserts_r).
  split; [by exists again|]. split.
  - intros Hnil. rewrite Hnil in Ha. apply submseteq_nil_r in Ha as ->. by rewrite app_nil_r in Hp.
  - intros He Hz. exists again. split; [done|].
    by rewrite Hz, (empty_entries s He), !app_nil_r in Hp.
Qed.

(** Only a one-shot reactor has threads that owe it an event. *)
Lemma unspent_false (l : effects) : unspent false l = false.
Proof. induction l as [|e l IH] using rev_ind; [done|]. rewrite unspent_app, IH. by destruct e. Qed.

Lemma reachable_not_oneShot (s : socket) g :
  reachable s g -> d_oneShot config = false -> g_processing g = 0%nat /\ g_spent g = false.
Proof.
  intros Hr Ho. induction Hr as [s Hf|s g o error s' l _ IH E _]; [done|]. destruct IH as [Hp Hs].
  assert (g_processing (after o s error g) = 0%nat /\ g_spent (after o s error g) = false) as [Hp' Hs'].
  { destruct o; simpl; rewrite ?Ho; try done; unfold answered, withdrawal; repeat case_match; done. }
  simpl. by rewrite Hs', unspent_false.
Qed.

(** C3: while something is queued on a socket that can send and has not
    failed, the reactor watches for writability, or flow control is locked
    because the user applied it or the rate limiter throttles. A one-shot reactor,
    which stops watching when it delivers an event, may instead be about to be told
    to watch again by a thread that processes an event; or it was not, because
    nothing was queued when the event had been processed though flow control wanted
    writability, and nothing has enabled events since. *)
Theorem no_lost_wakeup (s : socket) g :
  reachable s g -> canSend s = true ->
  FlowControlState.d_closed (d_flowControlState s) = false ->
  SendQueue.hasEntry (d_sendQueue s) = true ->
  g_watching g = true \/ FlowControlState.d_lockSend (d_flowControlState s) = true \/
  d_oneShot config = true /\ ((0 < g_processing g)%nat \/ g_spent g = true).
Proof.
  intros Hr Hcs Hcl He. apply reachable_Inv in Hr as I.
  destruct (inv_attended _ _ s g I Hcs Hcl He) as [Hon|Hlock]; [|by right; left].
  pose proof (inv_watched _ _ s g I Hcs Hon) as Ha. unfold attending in Ha.
  destruct (g_watching g); [by left|]. right. right.
  destruct (d_oneShot config) eqn:Eo.
  - split; [done|]. simpl in Ha. apply orb_true_iff in Ha as [Ha|Ha]; [left|by right].
    by apply Nat.ltb_lt.
  - destruct (reachable_not_oneShot s g Hr Eo) as [Hp Hs]. by rewrite Hp, Hs in Ha.
Qed.

(** Without a rate limiter, no section of a socket ever fails an
    assertion. *)
Theorem no_assertion_fails (s : socket) g o :
  lim = false -> reachable s g -> enabled s g o ->
  exists error s' l, exec o s = Some (error, s', l) /\ reachable s' (observe l (after o s error g)).
Proof.
  intros Hlim Hr E. pose proof (wp_exec o s g (reachable_Inv s g Hr) E) as Hw.
  unfold Sections.wp in Hw. destruct (exec o s) as [[[error s'] l]|] eqn:Hx; [|congruence].
  exists error, s', l. split; [done|]. by apply (reachable_step s g o).
Qed.


(** C5: an immediate shutdown of the send direction, when the socket need not wait
    to be detached from its reactor, and otherwise the completion of the shutdown
    once it is detached, leave nothing queued, and by then every callback of every
    message ever accepted was dispatched exactly once, except that those of data
    containers that were written with zero copy may have been dispatched again,
    once. *)
Theorem shutdown_dispatches_all (s : socket) g o error s' l :
  reachable s g ->
  (o = op_shutdown false false /\ canSend s = true \/
   exists context, o = op_shutdownSequenceComplete context /\
     ShutdownContext.d_shutdownSend context = true /\ canSend s = false) ->
  exec o s = Some (error, s', l) ->
  canSend s' = false /\ SendQueue.d_entryList (d_sendQueue s') = [] /\
  ZeroCopyUse.pending (d_zeroCopyQueue s') = [] /\
  exists again, again ⊆+ g_shared g /\ g_accepted g ++ again ≡ₚ g_dispatched g ++ dispatched l.
Proof.
  intros Hr Ho Hx. apply reachable_Inv in Hr as I.
  assert (Hw : wp (exec o) s (fun _ s' l =>
    Inv lim config s' (observe l g) /\ canSend s' = false /\ drained s')).
  { destruct Ho as [[-> Hcs]|(context & -> & Hsend & Hcs)]; simpl; apply wp_bind.
    - unfold privateShutdown_send. apply wp_bind, wp_get. cbn beta.
      fold (canSend s). rewrite Hcs. simpl. apply (wp_shutdownSend lim config false s g); [done|].
      intros s1 l1 I1 Hcs1 Hd1. apply wp_ret. rewrite app_nil_r. auto.
    - apply (wp_shutdownSequenceComplete lim config context s g); [done|done|].
      intros s1 l1 I1 Hs1 Hd1. apply wp_ret. rewrite app_nil_r. split; [done|]. split; [|by apply Hd1].
      unfold canSend. by rewrite Hs1. }
  unfold Sections.wp in Hw. rewrite Hx in Hw. destruct Hw as (I' & Hcs' & Hq & Hz).
  do 3 (split; [done|]). destruct (inv_callbacks _ _ s' _ I') as (again & Hp & Hs). simpl in Hp, Hs.
  exists again. rewrite Hq in Hp, Hs. simpl in Hs. rewrite app_nil_r in Hs. split; [done|].
  by rewrite Hz, !app_nil_r in Hp.
Qed.

End System.

(** ** Instances

    Timers and callbacks are numbers, the context of a send is its token, and
    there is no rate limiter to be had. *)
Section Example.

#[local] Instance ExampleTypes : SendTypes := {
  Endpoint := unit; Timer := Z; SendContext := option Z;
  SendContext_token c := c; SendContext_default := None; SendCallback := Z
}.

#[local] Instance ExampleContext : SendContextOps := {
  SendContext_setToken k _ := Some k;
  SendContext_setToken_token _ _ := eq_refl
}.

#[local] Instance NoLimiter : LimiterOps Empty_set unit := {
  limiter_wouldExceedBandwidth l _ := None;
  limiter_calculateTimeToSubmit l _ := None;
  limiter_submit l _ := None
}.

Definition greedy : Config := mkConfig true true false true false false false.

Definition connected {Blob : Type} (zeroCopyThreshold : Z) (options : SendOptions)
  : StreamSocket.t (Blob := Blob) (L := Empty_set) :=
  mk greedy OpenState.e_CONNECTED (FlowControlState.mk false true false false false)
    ShutdownContext.reset ZeroCopyQueue.init zeroCopyThreshold options
    (SendQueue.init 0 1024) None false 1 0 0.

Lemma connected_fresh {Blob : Type} `{BlobOps Blob} threshold options :
  fresh false greedy (connected (Blob := Blob) threshold options).
Proof. by split. Qed.

Definition accepts (limit : Z) : Env (TI := unit) := mkEnv tt None (Sent limit false).
Definition acceptsZeroCopy (limit : Z) : Env (TI := unit) := mkEnv tt None (Sent limit true).

Definition full : Env (TI := unit) := mkEnv tt None (Failed Error.e_WOULD_BLOCK).

Definition plain : Options := mkOptions None None None None false.
Definition tokened (token : Z) : Options := mkOptions (Some token) None None None false.
Definition expiring (deadline : Z) (timer : Timer) : Options :=
  mkOptions None (Some (deadline, timer)) None None false.

#[local] Abbreviation op := (op (Blob := FlatBlob) (L := Empty_set) (TI := unit)).

(** Three messages, of which the second times out and the others are written
    piecemeal. *)
Definition piecemeal : list op :=
  [ op_send_blob (accepts 2) [x61; x62; x63; x64] 0 plain (Some 1);
    op_send_blob (accepts 9) [x65; x66] 0 (expiring 5 7) (Some 2);
    op_iteration (accepts 1) false; op_tail AfterWrite;
    op_send_blob (accepts 9) [x67] 0 plain (Some 3);
    op_sendDeadlineTimer 2 ].

Definition flat : StreamSocket.t (Blob := FlatBlob) (L := Empty_set) :=
  connected U64_MAX (mkSendOptions 0 0).

Definition piecemeal_end : StreamSocket.t * Ghost :=
  Eval vm_compute in default (flat, initially flat) (run 8 greedy piecemeal flat (initially flat)).

Lemma piecemeal_run : run 8 greedy piecemeal flat (initially flat) = Some piecemeal_end.
Proof. vm_compute. reflexivity. Qed.

Lemma piecemeal_enabled : all_enabled 8 false greedy piecemeal flat (initially flat).
Proof. vm_compute. repeat split; intros; discriminate. Qed.

Lemma piecemeal_reachable : reachable 8 false greedy piecemeal_end.1 piecemeal_end.2.
Proof.
  exact (run_reachable 8 false greedy piecemeal flat (initially flat) _ _
           (reachable_fresh 8 false greedy flat (connected_fresh _ _))
           piecemeal_enabled piecemeal_run).
Qed.


Lemma callbacks_dispatched_once_witness : [1; 2; 3] ≡ₚ [2] ++ [] ++ [1; 3].
Proof.
  exact (proj1 (proj2 (callbacks_dispatched_once 8 false greedy _ _ piecemeal_reachable)) eq_refl).
Defined.


Lemma no_assertion_fails_witness :
  exists error s' l,
    exec 8 (op_iteration (accepts 9) false) piecemeal_end.1 = Some (error, s', l) /\
    reachable 8 false greedy s' (observe l piecemeal_end.2).
Proof.
  refine (no_assertion_fails 8 false greedy _ _ (op_iteration (accepts 9) false) eq_refl
            piecemeal_reachable _).
  vm_compute. discriminate.
Defined.


(** The same on a one-shot reactor, with an event that was delivered and processed
    and one that is being processed. *)
Definition shy : Config := mkConfig true true true true false false false.

Definition once : StreamSocket.t (Blob := FlatBlob) (L := Empty_set) :=
  mk shy OpenState.e_CONNECTED (FlowControlState.mk false true false false false)
    ShutdownContext.reset ZeroCopyQueue.init U64_MAX (mkSendOptions 0 0)
    (SendQueue.init 0 1024) None false 1 0 0.

Definition delivered : list op :=
  [ op_send_blob (accepts 2) [x61; x62; x63; x64] 0 plain (Some 1);
    op_event; op_iteration (accepts 1) false; op_tail AfterWrite; op_rearm ].

Lemma once_fresh : fresh false shy once.
Proof. by split. Qed.

Definition delivered_end : StreamSocket.t * Ghost :=
  Eval vm_compute in default (once, initially once) (run 8 shy delivered once (initially once)).

Lemma delivered_reachable : reachable 8 false shy delivered_end.1 delivered_end.2.
Proof.
  refine (run_reachable 8 false shy delivered once (initially once) _ _
            (reachable_fresh 8 false shy once once_fresh) _ _); [|vm_compute; reflexivity].
  vm_compute. repeat split; intros; try discriminate; repeat constructor.
Qed.

Lemma no_lost_wakeup_witness :
  (g_watching piecemeal_end.2 = true \/
   FlowControlState.d_lockSend (d_flowControlState piecemeal_end.1) = true \/
   false = true /\ ((0 < g_processing piecemeal_end.2)%nat \/ g_spent piecemeal_end.2 = true)) /\
  (g_watching delivered_end.2 = true \/
   FlowControlState.d_lockSend (d_flowControlState delivered_end.1) = true \/
   true = true /\ ((0 < g_processing delivered_end.2)%nat \/ g_spent delivered_end.2 = true)).
Proof.
  split.
  - exact (no_lost_wakeup 8 false greedy _ _ piecemeal_reachable eq_refl eq_refl eq_refl).
  - exact (no_lost_wakeup 8 false shy _ _ delivered_reachable eq_refl eq_refl eq_refl).
Defined.

Lemma shutdown_dispatches_all_witness :
  exists error s' l,
    exec 8 (op_shutdown false false) piecemeal_end.1 = Some (error, s', l) /\
    exists again, again ⊆+ [] /\ [1; 2; 3] ++ again ≡ₚ [2] ++ dispatched l.
Proof.
  destruct (exec 8 (op_shutdown false false) piecemeal_end.1) as [[[error s'] l]|] eqn:Hx;
    [|vm_compute in Hx; discriminate].
  exists error, s', l. split; [reflexivity|].
  exact (proj2 (proj2 (proj2 (shutdown_dispatches_all 8 false greedy _ _ (op_shutdown false false)
    error s' l piecemeal_reachable (or_introl (conj eq_refl eq_refl)) Hx)))).
Defined.

(** *** What the socket does not mean to do *)

(** Cancelling a message by its token after part of it was written directly:
    the rest is dropped although the part is on the wire, where the next
    message follows it. *)
Lemma cancel_truncates_message :
  exists s g,
    run 8 greedy [ op_send_blob (accepts 2) [x61; x62; x63; x64] 0 (tokened 1) (Some 1);
            op_send_blob (accepts 9) [x65; x66] 0 plain (Some 2);
            op_cancel 1;
            op_iteration (accepts 9) false ] flat (initially flat) = Some (s, g) /\
    g_wire g = [x61; x62; x65; x66] /\ g_messages g = [[x61; x62]; [x65; x66]].
Proof. vm_compute. do 2 eexists. repeat split. Qed.

(** On a one-shot reactor: relaxing flow control while nothing is queued enables an
    event that is processed in vain and not enabled again. What is then queued
    does not enable it either, because flow control already wants it, and stays
    queued until something else shows the interest again. *)
Lemma wakeup_lost_one_shot :
  exists s g,
    run 8 shy [ op_relaxFlowControl e_SEND; op_event; op_rearm;
                op_send_blob (accepts 2) [x61; x62; x63; x64] 0 plain (Some 1) ]
      once (initially once) = Some (s, g) /\
    canSend s = true /\ SendQueue.stream (d_sendQueue s) = [x63; x64] /\
    d_flowControlState s = FlowControlState.mk true true false false false /\
    g_watching g = false /\ g_processing g = 0%nat.
Proof. vm_compute. do 2 eexists. repeat split. Qed.

Definition zeroCopying : StreamSocket.t (Blob := FlatBlob) (L := Empty_set) :=
  connected 0 (mkSendOptions 0 0).

(** The overload of [send] for a data container: when part of the message is
    sent without copying, its callback is left in the entry as well as in the
    zero-copy queue, and a shutdown dispatches it twice. *)
Lemma data_callback_dispatched_twice :
  exists s g,
    run 8 greedy [ op_send_data (acceptsZeroCopy 2) (Data.e_BLOB [x61; x62; x63; x64]) 0 plain (Some 1);
            op_shutdown false false ] zeroCopying (initially zeroCopying) = Some (s, g) /\
    g_accepted g = [1] /\ g_dispatched g = [1; 1] /\ g_shared g = [1].
Proof. vm_compute. do 2 eexists. repeat split. Qed.

(** A batch of two messages sent without copying takes two zero-copy counters,
    but it is one system call, for which the kernel reports one: the callback
    of the second message is not dispatched once the kernel has reported all
    there is to report. *)
Lemma batch_zero_copy_counters :
  exists s g,
    run 8 greedy [ op_send_blob full [x61; x62] 0 plain (Some 1);
            op_send_blob full [x63; x64] 0 plain (Some 2);
            op_iteration (acceptsZeroCopy 9) false; op_tail AfterWrite;
            op_zeroCopyUpdate true (mkZeroCopy 0 0);
            op_zeroCopyPop; op_zeroCopyPop ] zeroCopying (initially zeroCopying)
      = Some (s, g) /\
    g_wire g = [x61; x62; x63; x64] /\ g_dispatched g = [1] /\
    ZeroCopyUse.pending (d_zeroCopyQueue s) = [2].
Proof. vm_compute. do 2 eexists. repeat split. Qed.

(** A batch may hold nothing but empty buffers of a blob: the iteration then
    writes nothing, succeeds and leaves the queue as it is, so that a socket
    that writes greedily repeats it for as long as nothing else changes. *)
Lemma empty_batch_makes_no_progress :
  let start := connected (Blob := list (list byte)) U64_MAX (mkSendOptions 0 1) in
  match run 8 greedy [ op_send_blob full [[]; [x61]] 0 plain None;
                op_send_blob full [[x62]] 0 plain None ] start (initially start) with
  | Some (s, _) => exists l,
      privateSocketWritableIteration 8 (accepts 9) false s
        = Some ((Error.e_OK, AfterWrite), s, l) /\ written l = []
  | None => False
  end.
Proof. vm_compute. eexists. split; reflexivity. Qed.

End Example.
End SocketSystem.
