(* ===== verification/BlobBuffers.v ===== *)
(** * The capacity of a read queue

    Models [ntcs::BlobBufferUtil] (src/groups/ntc/ntcs/ntcs_blobbufferutil.cpp):
    how much room is allocated in the blob of a read queue before a read, and the
    functions of [ntcs::BlobUtil] (ntcs_blobutil.h) with which bytes are moved out
    of it.

    [bdlbb::Blob] is a class of the base libraries: a blob is the interface
    [ReadBlobOps] with the laws of its documentation.  An integer of type [size_t]
    wraps at 64 bits; a failed assertion is [None]. *)

From Stdlib Require Import Strings.Byte.
From S2P Require Import Prelude.

(** ** [bdlbb::Blob], as a read queue uses it *)

(** The data, the total size of the buffers, the addition of a buffer of a given
    size, the bytes that a read stores after the data, the copy of a prefix to
    the end of another blob and the removal of a prefix. *)
Class ReadBlobOps (B : Type) : Type := {
  rb_empty : B;
  rb_bytes : B -> list byte;
  rb_totalSize : B -> Z;
  rb_appendBuffer : Z -> B -> B;
  rb_fill : list byte -> B -> B;
  rb_append : B -> B -> Z -> B;
  rb_erase : Z -> B -> B;
}.

Class ReadBlobLaws (B : Type) `{ReadBlobOps B} : Prop := {
  rb_empty_bytes : rb_bytes rb_empty = [];
  rb_room : forall b, size (rb_bytes b) <= rb_totalSize b;
  rb_appendBuffer_bytes : forall n b, rb_bytes (rb_appendBuffer n b) = rb_bytes b;
  rb_appendBuffer_totalSize : forall n b, 0 <= n -> rb_totalSize (rb_appendBuffer n b) = rb_totalSize b + n;
  rb_fill_bytes : forall bs b, size (rb_bytes b) + size bs <= rb_totalSize b -> rb_bytes (rb_fill bs b) = rb_bytes b ++ bs;
  rb_append_bytes : forall d s n, 0 <= n <= size (rb_bytes s) -> rb_bytes (rb_append d s n) = rb_bytes d ++ take (Z.to_nat n) (rb_bytes s);
  rb_erase_bytes : forall n b, 0 <= n <= size (rb_bytes b) -> rb_bytes (rb_erase n b) = drop (Z.to_nat n) (rb_bytes b);
}.

(** A lawful blob: its data and its total size. *)
#[export] Instance SizedBlob_ops : ReadBlobOps (list byte * Z) := {
  rb_empty := ([], 0);
  rb_bytes b := b.1;
  rb_totalSize b := Z.max b.2 (size b.1);
  rb_appendBuffer n b := (b.1, Z.max b.2 (size b.1) + n);
  rb_fill bs b := (b.1 ++ bs, Z.max b.2 (size b.1));
  rb_append d s n := (d.1 ++ take (Z.to_nat n) s.1, d.2);
  rb_erase n b := (drop (Z.to_nat n) b.1, b.2 - n);
}.

#[export] Instance SizedBlob_laws : ReadBlobLaws (list byte * Z).
Proof. split; intros; cbn in *; try done; lia. Qed.

Module BlobUtil.
Section Blob.
Context `{ReadBlobOps B}.

(** The append of [size] bytes from the start of a blob, and their removal. *)
Definition append (destination source : B) (size : Z) : B := rb_append destination source size.

Definition pop (blob : B) (size : Z) : B := rb_erase size blob.

Definition capacity (blob : B) : Z := rb_totalSize blob.

End Blob.
End BlobUtil.

Module BlobBufferUtil.

Definition calculateNumBytesToAllocate (size capacity lowWatermark minReceiveSize maxReceiveSize : Z) : option Z :=
  assert! capacity >=? size ;;
  assert! minReceiveSize >? 0 ;;
  assert! maxReceiveSize >? 0 ;;
  let minReceiveSize := if minReceiveSize >? maxReceiveSize then maxReceiveSize else minReceiveSize in
  let numBytesToAllocate := if lowWatermark >? capacity then wrap 64 (lowWatermark - capacity) else 0 in
  let numBytesToBeAvailable := wrap 64 (wrap 64 (capacity - size) + numBytesToAllocate) in
  let numBytesToAllocate :=
    if numBytesToBeAvailable <? minReceiveSize then
      wrap 64 (numBytesToAllocate + wrap 64 (minReceiveSize - numBytesToBeAvailable))
    else numBytesToAllocate in
  let numBytesToAllocate :=
    if numBytesToBeAvailable >? maxReceiveSize then
      let numBytesToAdjust := wrap 64 (numBytesToBeAvailable - maxReceiveSize) in
      if numBytesToAdjust >? numBytesToAllocate then 0 else wrap 64 (numBytesToAllocate - numBytesToAdjust)
    else numBytesToAllocate in
  assert! wrap 64 (wrap 64 (capacity - size) + numBytesToAllocate) >=? 1 ;;
  assert! numBytesToAllocate <=? maxReceiveSize ;;
  Some numBytesToAllocate.

Section Reserve.
Context `{ReadBlobOps B}.
(** The size of the buffers of the factory. *)
Context (bufferSize : Z).

(** Each pass of the loop allocates a buffer; a byte at least, so that as many
    passes suffice as bytes are needed. *)
Fixpoint allocate_loop (fuel : nat) (numBytesAllocated numBytesToAllocate : Z) (blob : B) : option B :=
  if numBytesAllocated <? numBytesToAllocate then
    match fuel with
    | O => None
    | S fuel =>
        allocate_loop fuel (wrap 64 (numBytesAllocated + bufferSize)) numBytesToAllocate
          (rb_appendBuffer bufferSize blob)
    end
  else Some blob.

Definition reserveCapacity (readQueue : B) (lowWatermark minReceiveSize maxReceiveSize : Z) : option B :=
  assert! minReceiveSize >? 0 ;;
  assert! maxReceiveSize >? 0 ;;
  numBytesToAllocate ← calculateNumBytesToAllocate (size (rb_bytes readQueue)) (rb_totalSize readQueue)
    lowWatermark minReceiveSize maxReceiveSize;
  readQueue ← allocate_loop (Z.to_nat numBytesToAllocate) 0 numBytesToAllocate readQueue;
  assert! rb_totalSize readQueue - size (rb_bytes readQueue) >=? Z.min minReceiveSize maxReceiveSize ;;
  Some readQueue.

End Reserve.

(** *** What is allocated *)

(** The bytes that are then available are brought between the two sizes, unless
    there were more already. *)
Definition available (size capacity lowWatermark minReceiveSize maxReceiveSize : Z) : Z :=
  Z.max (capacity - size)
    (Z.min maxReceiveSize (Z.max (Z.min minReceiveSize maxReceiveSize) (Z.max capacity lowWatermark - size))).

Lemma calculate_spec size capacity lowWatermark minReceiveSize maxReceiveSize :
  0 <= size <= capacity -> capacity < 2 ^ 63 -> 0 <= lowWatermark < 2 ^ 64 ->
  0 < minReceiveSize < 2 ^ 63 -> 0 < maxReceiveSize < 2 ^ 63 ->
  exists n, calculateNumBytesToAllocate size capacity lowWatermark minReceiveSize maxReceiveSize = Some n /\
    0 <= n <= maxReceiveSize /\
    capacity - size + n = available size capacity lowWatermark minReceiveSize maxReceiveSize.
Proof.
  intros Hs Hc Hl Hmin Hmax. unfold calculateNumBytesToAllocate, available.
  rewrite (proj2 (Z.geb_le _ _)), !(proj2 (Z.gtb_lt _ _)) by lia.
  replace (if minReceiveSize >? maxReceiveSize then maxReceiveSize else minReceiveSize)
    with (Z.min minReceiveSize maxReceiveSize) by (case_match; lia).
  replace (if lowWatermark >? capacity then wrap 64 (lowWatermark - capacity) else 0)
    with (Z.max 0 (lowWatermark - capacity)) by (case_match; [rewrite wrap_small by lia|]; lia).
  rewrite (wrap_small 64 (capacity - size)) by lia. rewrite (wrap_small 64 (capacity - size + Z.max 0 (lowWatermark - capacity))) by lia.
  set (a := Z.max 0 (lowWatermark - capacity)). set (m := Z.min minReceiveSize maxReceiveSize).
  destruct (Z.ltb_spec (capacity - size + a) m) as [H1|H1].
  - rewrite (wrap_small 64 (m - _)), (wrap_small 64 (a + _)) by lia.
    replace (capacity - size + a >? maxReceiveSize) with false by (symmetry; rewrite Z.gtb_ltb; apply Z.ltb_ge; lia).
    rewrite wrap_small, (proj2 (Z.geb_le _ _)), (proj2 (Z.leb_le _ _)) by lia. eexists. split; [done|]. lia.
  - destruct (Z.ltb_spec maxReceiveSize (capacity - size + a)) as [H2|H2]; rewrite Z.gtb_ltb.
    + rewrite (proj2 (Z.ltb_lt _ _)), (wrap_small 64 (_ - maxReceiveSize)) by lia. rewrite Z.gtb_ltb.
      destruct (Z.ltb_spec a (capacity - size + a - maxReceiveSize)) as [H3|H3].
      * rewrite wrap_small, (proj2 (Z.geb_le _ _)), (proj2 (Z.leb_le _ _)) by lia. eexists. split; [done|]. lia.
      * rewrite (wrap_small 64 (a - _)) by lia.
        rewrite wrap_small, (proj2 (Z.geb_le _ _)), (proj2 (Z.leb_le _ _)) by lia. eexists. split; [done|]. lia.
    + rewrite (proj2 (Z.ltb_ge _ _)) by lia.
      rewrite wrap_small, (proj2 (Z.geb_le _ _)), (proj2 (Z.leb_le _ _)) by lia. eexists. split; [done|]. lia.
Qed.

Section ReserveFacts.
Context `{ReadBlobLaws B}.

Lemma allocate_spec bufferSize fuel allocated needed (b : B) :
  0 < bufferSize < 2 ^ 62 -> 0 <= allocated -> needed < 2 ^ 62 -> needed - allocated <= Z.of_nat fuel ->
  exists b', allocate_loop bufferSize fuel allocated needed b = Some b' /\ rb_bytes b' = rb_bytes b /\
    rb_totalSize b + (needed - allocated) <= rb_totalSize b' <=
      rb_totalSize b + (if needed <=? allocated then 0 else needed - allocated + bufferSize - 1).
Proof.
  intros Hb. revert allocated b. induction fuel as [|fuel IH]; intros allocated b Ha Hn Hf; cbn [allocate_loop].
  - rewrite (proj2 (Z.ltb_ge _ _)) by lia. exists b. split; [done|]. split; [done|]. case_match; lia.
  - destruct (Z.ltb_spec allocated needed) as [Hlt|Hge]; [|exists b; split; [done|]; split; [done|case_match; lia]].
    rewrite wrap_small by lia. destruct (IH (allocated + bufferSize) (rb_appendBuffer bufferSize b)) as (b' & -> & Hbytes & Hsize);
      [lia..|]. exists b'. rewrite rb_appendBuffer_bytes in Hbytes. rewrite rb_appendBuffer_totalSize in Hsize by lia.
    split; [done|]. split; [done|]. repeat case_match; lia.
Qed.

Lemma reserve_spec bufferSize (b : B) lowWatermark minReceiveSize maxReceiveSize :
  0 < bufferSize < 2 ^ 62 -> rb_totalSize b < 2 ^ 62 -> 0 <= lowWatermark < 2 ^ 64 ->
  0 < minReceiveSize < 2 ^ 62 -> 0 < maxReceiveSize < 2 ^ 62 ->
  exists b', reserveCapacity bufferSize b lowWatermark minReceiveSize maxReceiveSize = Some b' /\
    rb_bytes b' = rb_bytes b /\
    Z.min minReceiveSize maxReceiveSize <= rb_totalSize b' - size (rb_bytes b') <=
      Z.max (rb_totalSize b - size (rb_bytes b)) (maxReceiveSize + bufferSize - 1).
Proof.
  intros Hb Hs Hl Hmin Hmax. unfold reserveCapacity. rewrite !(proj2 (Z.gtb_lt _ _)) by lia.
  pose proof (rb_room b) as Hroom. pose proof (size_nonneg (rb_bytes b)).
  destruct (calculate_spec (size (rb_bytes b)) (rb_totalSize b) lowWatermark minReceiveSize maxReceiveSize)
    as (n & -> & Hn & Ha); [lia..|]. cbn [mbind option_bind].
  destruct (allocate_spec bufferSize (Z.to_nat n) 0 n b) as (b' & -> & Hbytes & Hsize); [lia..|]. cbn [mbind option_bind].
  unfold available in Ha. rewrite Hbytes, (proj2 (Z.geb_le _ _)) by lia. exists b'. split; [done|]. split; [done|].
  rewrite Hbytes. destruct (Z.leb_spec n 0); lia.
Qed.

(** [reserveCapacity] ends without a failed assertion for every blob and every
    watermark: it changes no data, and makes available at least the smaller of
    the two sizes and at most the larger bound of what was available, of the
    maximum size and of less than a buffer more. *)
Theorem reserve_bounds bufferSize (b : B) lowWatermark minReceiveSize maxReceiveSize :
  0 < bufferSize < 2 ^ 62 -> rb_totalSize b < 2 ^ 62 -> 0 <= lowWatermark < 2 ^ 64 ->
  0 < minReceiveSize < 2 ^ 62 -> 0 < maxReceiveSize < 2 ^ 62 ->
  exists b', reserveCapacity bufferSize b lowWatermark minReceiveSize maxReceiveSize = Some b' /\
    rb_bytes b' = rb_bytes b /\
    Z.min minReceiveSize maxReceiveSize <= rb_totalSize b' - size (rb_bytes b') <=
      Z.max (rb_totalSize b - size (rb_bytes b)) (maxReceiveSize + bufferSize - 1).
Proof. apply reserve_spec. Qed.

End ReserveFacts.

Lemma reserve_bounds_witness :
  exists b', reserveCapacity (B := list byte * Z) 4096 ([x00; x01], 2) 10000 1024 8192 = Some b' /\
    1024 <= rb_totalSize b' - size (rb_bytes b') <= 12287.
Proof.
  destruct (reserve_bounds (B := list byte * Z) 4096 ([x00; x01], 2) 10000 1024 8192) as (b' & Hb & Hbytes & Hr);
    [lia|vm_compute; congruence|lia..|]. exists b'. split; [exact Hb|].
  change (Z.min 1024 8192) with 1024 in Hr. change (rb_totalSize ([x00; x01], 2) - size (rb_bytes ([x00; x01], 2))) with 0 in Hr. lia.
Defined.

End BlobBufferUtil.
