(* ===== verification/StreamSocketReceive.v ===== *)
(** * The receive side of the stream socket

    [ntcr_streamsocket.cpp]: how a stream socket that is neither encrypted nor
    compressed receives. When the socket is readable, bytes are read into the
    blob of the read queue, and the receivers that wait are served in order;
    above its high watermark the queue is not filled any more. A receiver that
    finds enough bytes in the queue is served directly.

    The state is that of the send side with the members of the receive side,
    and a section of the send side is one of the whole socket ([base]): the
    only effect of the send side that the receive side gives a meaning to is
    the shutdown of the receive direction, after which no receiver waits. As
    on the send side, a definition is a section of the socket's mutex, and the
    functions of the code that release the mutex are compositions of them. *)

From Stdlib Require Import Strings.Byte.
From S2P Require Import Prelude Errors Buffers Watermark SendQueue ReceiveQueue SocketState.
From S2P Require Import RateLimiter Sections StreamSocket BlobBuffers.

(** ** [ntsa::ShutdownType] *)
Module ShutdownType.
Inductive t : Type := e_RECEIVE | e_SEND | e_BOTH.

(** The two tests at the head of [privateShutdown]. *)
Definition selects (direction : t) : bool * bool :=
  match direction with
  | e_RECEIVE => (true, false)
  | e_SEND => (false, true)
  | e_BOTH => (true, true)
  end.
End ShutdownType.

Module StreamSocketReceive.
Import StreamSocket.
Section Socket.
Context {Blob : Type} `{BlobOps Blob} {ST : SendTypes} `{!SendContextOps}.
Context {L TI : Type} `{LimiterOps L TI}.
Context {RT : ReceiveTypes} `{ReadBlobOps ReceiveBlob}.
(** The size of the buffers of the factory of incoming blobs. *)
Context (bufferSize : Z).
#[local] Abbreviation socket := (StreamSocket.t (Blob := Blob) (L := L)).
#[local] Abbreviation base_effect := (StreamSocket.Effect (T := ST) (TI := TI)).
#[local] Abbreviation CallbackEntry := ReceiveCallbackQueueEntry.t.

(** The identities of the entries that were created are those below
    [d_callbackEntryCounter]. *)
Record t : Type := mk {
  d_base : socket;
  d_receiveGreedily : bool;
  d_receiveQueue : ReceiveQueue.t;
  d_receiveFeedback : ReceiveFeedback.t;
  d_receiveRateLimiter : option L;
  d_receiveRateTimer : bool;
  d_totalBytesReceived : Z;
  d_callbackEntryCounter : Z
}.

Definition set_base (v : socket) (s : t) : t :=
  mk v (d_receiveGreedily s) (d_receiveQueue s) (d_receiveFeedback s) (d_receiveRateLimiter s)
     (d_receiveRateTimer s) (d_totalBytesReceived s) (d_callbackEntryCounter s).
Definition set_receiveQueue (v : ReceiveQueue.t) (s : t) : t :=
  mk (d_base s) (d_receiveGreedily s) v (d_receiveFeedback s) (d_receiveRateLimiter s)
     (d_receiveRateTimer s) (d_totalBytesReceived s) (d_callbackEntryCounter s).
Definition set_receiveFeedback (v : ReceiveFeedback.t) (s : t) : t :=
  mk (d_base s) (d_receiveGreedily s) (d_receiveQueue s) v (d_receiveRateLimiter s)
     (d_receiveRateTimer s) (d_totalBytesReceived s) (d_callbackEntryCounter s).
Definition set_receiveRateLimiter (v : option L) (s : t) : t :=
  mk (d_base s) (d_receiveGreedily s) (d_receiveQueue s) (d_receiveFeedback s) v
     (d_receiveRateTimer s) (d_totalBytesReceived s) (d_callbackEntryCounter s).
Definition set_receiveRateTimer (v : bool) (s : t) : t :=
  mk (d_base s) (d_receiveGreedily s) (d_receiveQueue s) (d_receiveFeedback s)
     (d_receiveRateLimiter s) v (d_totalBytesReceived s) (d_callbackEntryCounter s).
Definition set_totalBytesReceived (v : Z) (s : t) : t :=
  mk (d_base s) (d_receiveGreedily s) (d_receiveQueue s) (d_receiveFeedback s)
     (d_receiveRateLimiter s) (d_receiveRateTimer s) v (d_callbackEntryCounter s).
Definition set_callbackEntryCounter (v : Z) (s : t) : t :=
  mk (d_base s) (d_receiveGreedily s) (d_receiveQueue s) (d_receiveFeedback s)
     (d_receiveRateLimiter s) (d_receiveRateTimer s) (d_totalBytesReceived s) v.

(** [d_receiveQueue.data()], and a change of the blob. *)
Definition setQueueData (data : ReceiveBlob) (q : ReceiveQueue.t) : ReceiveQueue.t :=
  ReceiveQueue.mk (ReceiveQueue.d_entryList q) (Some data) (ReceiveQueue.d_size q)
    (ReceiveQueue.d_watermarkLow q) (ReceiveQueue.d_watermarkLowWanted q)
    (ReceiveQueue.d_watermarkHigh q) (ReceiveQueue.d_watermarkHighWanted q)
    (ReceiveQueue.d_trigger q) (ReceiveQueue.d_callbackQueue q).

(** *** Effects *)

Inductive Effect : Type :=
| e_base (e : base_effect)
| e_read (bytes : list byte)                  (** the bytes taken from the system *)
| e_receive (callback : ReceiveCallback) (data : option ReceiveBlob)
    (foreignHandle : option Z) (error : Error.t) (defer : bool)
| e_closeHandle (handle : Z)
| e_closeReceiveTimer (timer : ReceiveTimer)
| e_scheduleReceive (timer : ReceiveTimer) (deadline : Z)
| e_scheduleReceiveRateTimer (now timeToSubmit : TI)
| e_closeReceiveRateTimer.

Definition M (A : Type) : Type := Sections.M t Effect A.

#[local] Notation "'let*' x ':=' m 'in' k" := (bind m (fun x => k))
  (at level 10, x pattern, m at level 99, k at level 200).
#[local] Notation "'do*' m ';;' k" := (bind m (fun _ => k))
  (at level 10, m at level 99, k at level 200).

(** [ReceiveCallbackQueueEntry::dispatch]. *)
Definition dispatch_effects (data : option ReceiveBlob) (foreignHandle : option Z)
    (error : Error.t) (defer : bool) (e : CallbackEntry) : list Effect :=
  let '(_, closed, invoked) := ReceiveCallbackQueueEntry.dispatch e in
  map e_closeReceiveTimer closed
  ++ map (fun callback => e_receive callback data foreignHandle error defer)
       (option_list invoked).

Definition closeReceiveRateTimer : M unit :=
  let* s := get in
  when (d_receiveRateTimer s)
    (do* emit [e_closeReceiveRateTimer] ;; modify (set_receiveRateTimer false)).

(** *** Sections of the send side *)

(** The part of [privateShutdownSequenceComplete] for the receive direction;
    what it announces is in the definition of the send side. *)
Definition privateShutdownSequenceComplete_receive : M unit :=
  do* closeReceiveRateTimer ;;
  let* s := get in
  let '(callbackEntries, q) := ReceiveQueue.popAllCallbackEntries [] (d_receiveQueue s) in
  do* modify (set_receiveQueue q) ;;
  emit (concat (map (dispatch_effects None None Error.e_EOF true) callbackEntries)).

(** The sections of the send side neither read nor write the members of the
    receive side: what they have the receive side do is done where it is in
    the sequence of their effects. *)
Definition interpret_effect (e : base_effect) : M unit :=
  match e with
  | e_shutdownReceive => privateShutdownSequenceComplete_receive
  | _ => emit [e_base e]
  end.

Fixpoint interpret (l : list base_effect) : M unit :=
  match l with
  | [] => ret tt
  | e :: l => do* interpret_effect e ;; interpret l
  end.

Definition base {A} (m : StreamSocket.M (Blob := Blob) (L := L) A) : M A := fun s =>
  '(x, b, l) ← m (d_base s);
  '(_, s', k) ← interpret l (set_base b s);
  Some (x, s', k).

(** *** Reading *)

(** What a read meets: the time, the result of the system call (which fails,
    or takes from the bytes that have arrived as many as it has room for) and
    the counter of the clock for the entry. *)
Inductive ReceiveResult : Type :=
| ReceiveFailed (error : Error.t)
| Received (arrived : list byte) (bytesReceivable : Z) (foreignHandle : option Z).

Record ReadEnv : Type := mkReadEnv {
  r_now : TI;
  r_timer : Z;
  r_result : ReceiveResult;
  r_detaching : bool
}.

Definition privateThrottleReceiveBuffer_begin (env : ReadEnv) : M (option TI) :=
  let* s := get in
  match d_receiveRateLimiter s with
  | None => ret None
  | Some limiter =>
      let* (limiter, exceeds) := lift (limiter_wouldExceedBandwidth limiter (r_now env)) in
      do* modify (set_receiveRateLimiter (Some limiter)) ;;
      if (exceeds : bool) then
        let* (limiter, timeToSubmit) :=
          lift (limiter_calculateTimeToSubmit limiter (r_now env)) in
        do* modify (set_receiveRateLimiter (Some limiter)) ;;
        do* base (privateApplyFlowControl e_RECEIVE false true) ;;
        ret (Some timeToSubmit)
      else ret None
  end.

Definition privateThrottleReceiveBuffer_end (now timeToSubmit : TI) : M Error.t :=
  let* s := get in
  if negb (ShutdownState.canReceive (d_shutdownState (d_base s))) then ret Error.e_INVALID
  else
    do* modify (set_receiveRateTimer true) ;;
    do* emit [e_scheduleReceiveRateTimer now timeToSubmit] ;;
    do* base (announce ReadQueueRateLimitApplied true) ;;
    ret Error.e_WOULD_BLOCK.

(** [privateDequeueReceiveBufferRaw], after the rate limit: the number of
    bytes received and the foreign handle. *)
Definition privateDequeueReceiveBufferRaw (env : ReadEnv) : M (Error.t * Z * option Z) :=
  match r_result env with
  | ReceiveFailed error =>
      do* when (bool_decide (error = Error.e_EOF))
            (base (privateShutdownReceive e_REMOTE (r_detaching env))) ;;
      ret (error, 0, None)
  | Received arrived bytesReceivable foreignHandle =>
      let* s := get in
      let* data := lift (ReceiveQueue.d_queueData (d_receiveQueue s)) in
      let room := rb_totalSize data - size (rb_bytes data) in
      let received := take (Z.to_nat room) arrived in
      do* emit [e_read received] ;;
      do* modify (set_receiveQueue (setQueueData (rb_fill received data) (d_receiveQueue s))) ;;
      do* modify (set_receiveFeedback
                    (ReceiveFeedback.setFeedback bytesReceivable (size received)
                       (d_receiveFeedback s))) ;;
      do* match d_receiveRateLimiter s with
          | Some limiter =>
              let* limiter := lift (limiter_submit limiter (size received)) in
              modify (set_receiveRateLimiter (Some limiter))
          | None => ret tt
          end ;;
      if size received >? 0 then
        do* modify (set_totalBytesReceived
                      (wrap 64 (d_totalBytesReceived s + size received))) ;;
        ret (Error.e_OK, size received, foreignHandle)
      else
        do* base (privateShutdownReceive e_REMOTE (r_detaching env)) ;;
        ret (Error.e_EOF, 0, None)
  end.

Definition reserveQueueCapacity : M unit :=
  let* s := get in
  let q := d_receiveQueue s in
  let* data := lift (ReceiveQueue.d_queueData q) in
  let* data := lift (BlobBufferUtil.reserveCapacity bufferSize data
                       (ReceiveQueue.d_watermarkLow q)
                       (ReceiveFeedback.d_current (d_receiveFeedback s))
                       (ReceiveFeedback.d_maximum (d_receiveFeedback s))) in
  modify (set_receiveQueue (setQueueData data q)).

(** The assertions on the size of the read queue. *)
Definition assertSize : M unit :=
  let* s := get in
  let* data := lift (ReceiveQueue.d_queueData (d_receiveQueue s)) in
  assert (ReceiveQueue.d_size (d_receiveQueue s) =? size (rb_bytes data)).

(** The last part of [privateDequeueReceiveBuffer]. *)
Definition pushReceived (env : ReadEnv) (bytesReceived : Z) (foreignHandle : option Z)
  : M unit :=
  let entry := ReceiveQueueEntry.mk None None bytesReceived (r_timer env) foreignHandle in
  let* s := get in
  let* (q, _) := lift (ReceiveQueue.pushEntry entry (d_receiveQueue s)) in
  modify (set_receiveQueue q).

(** The first part of [privateSocketReadableIteration], with
    [privateDequeueReceiveBuffer]: up to the entry in the read queue, or up to
    the announcements of a read that is throttled. *)
Inductive Reading : Type :=
| Throttled (timeToSubmit : TI)
| Failing (error : Error.t)
| Filled.

Definition readUnthrottled (env : ReadEnv) : M Reading :=
  let* (error, bytesReceived, foreignHandle) := privateDequeueReceiveBufferRaw env in
  if Error.is_error error then ret (Failing error) else
  do* pushReceived env bytesReceived foreignHandle ;;
  do* assertSize ;;
  ret Filled.

Definition privateSocketReadableIteration_read (env : ReadEnv) : M Reading :=
  let* s := get in
  if ReceiveQueue.isHighWatermarkViolated (d_receiveQueue s)
  then ret (Failing Error.e_WOULD_BLOCK) else
  do* reserveQueueCapacity ;;
  if negb (d_socket (d_config (d_base s))) then ret (Failing Error.e_INVALID) else
  let* exceeded := privateThrottleReceiveBuffer_begin env in
  match exceeded with
  | Some timeToSubmit => ret (Throttled timeToSubmit)
  | None => readUnthrottled env
  end.

(** *** Serving a receiver *)

(** What all three do that serve a receiver: the bytes are moved from the read
    queue to the end of a blob. *)
Definition dequeueBytes (options : ReceiveOptions.t) (data : ReceiveBlob)
  : M (ReceiveBlob * option Z) :=
  let* s := get in
  do* assert (ReceiveQueue.hasEntry (d_receiveQueue s)) ;;
  do* assertSize ;;
  let* (q, numBytesDequeued, foreignHandle, closed) :=
    lift (ReceiveQueue.dequeue options (d_receiveQueue s)) in
  do* modify (set_receiveQueue q) ;;
  do* emit (map e_closeHandle closed) ;;
  let* queueData := lift (ReceiveQueue.d_queueData q) in
  let data := BlobUtil.append data queueData numBytesDequeued in
  do* modify (set_receiveQueue (setQueueData (BlobUtil.pop queueData numBytesDequeued) q)) ;;
  do* assertSize ;;
  ret (data, foreignHandle).

(** One pass of the loop over the receivers that wait, up to the callback. *)
Definition privateSocketReadableIteration_pop : M bool :=
  let* s := get in
  let '(error, entry, q) := ReceiveQueue.popCallbackEntry (d_receiveQueue s) in
  do* modify (set_receiveQueue q) ;;
  match entry with
  | Some entry =>
      if Error.is_error error then ret false else
      let options := ReceiveCallbackQueueEntry.d_options entry in
      do* assert (ReceiveQueue.d_size q >=? ReceiveOptions.d_minSize options) ;;
      let* (data, foreignHandle) := dequeueBytes options rb_empty in
      do* emit (dispatch_effects (Some data) foreignHandle Error.e_OK false entry) ;;
      ret true
  | None => ret false
  end.

Definition privateSocketReadableIteration_low : M unit :=
  let* s := get in
  let '(q, authorized) := ReceiveQueue.authorizeLowWatermarkEvent (d_receiveQueue s) in
  do* modify (set_receiveQueue q) ;;
  when authorized (base (announce ReadQueueLowWatermark false)).

(** The announcement of flow control may release the mutex; that of the high
    watermark then follows. *)
Definition privateSocketReadableIteration_high : M bool :=
  let* s := get in
  let '(q, authorized) := ReceiveQueue.authorizeHighWatermarkEvent (d_receiveQueue s) in
  do* modify (set_receiveQueue q) ;;
  do* when authorized (base (privateApplyFlowControl e_RECEIVE false false)) ;;
  ret authorized.

(** When nothing comes between the sections, as many passes suffice as
    receivers wait. *)
Fixpoint popLoop (fuel : nat) : M unit :=
  let* popped := privateSocketReadableIteration_pop in
  if (popped : bool) then
    match fuel with
    | O => lift None
    | S fuel => popLoop fuel
    end
  else ret tt.

Definition privateSocketReadableIteration (env : ReadEnv) : M Error.t :=
  let* reading := privateSocketReadableIteration_read env in
  match reading with
  | Throttled timeToSubmit => privateThrottleReceiveBuffer_end (r_now env) timeToSubmit
  | Failing error => ret error
  | Filled =>
      let* s := get in
      do* popLoop (length (ReceiveQueue.d_callbackQueue (d_receiveQueue s))) ;;
      do* privateSocketReadableIteration_low ;;
      let* authorized := privateSocketReadableIteration_high in
      do* when authorized (base (announce ReadQueueHighWatermark false)) ;;
      ret Error.e_OK
  end.

Definition privateRearmAfterReceive : M unit :=
  let* s := get in
  when (d_oneShot (d_config (d_base s))
        && negb (ReceiveQueue.isHighWatermarkViolated (d_receiveQueue s))
        && FlowControlState.wantReceive (d_flowControlState (d_base s))
        && ShutdownState.canReceive (d_shutdownState (d_base s)))
    (base (emit [e_showReadable])).

(** One environment for each iteration of the loop. *)
Fixpoint readableLoop (envs : list ReadEnv) : M Error.t :=
  match envs with
  | [] => lift None
  | env :: envs =>
      let* error := privateSocketReadableIteration env in
      if Error.is_error error then ret error else
      let* s := get in
      if negb (d_receiveGreedily s) then ret error else
      if negb (ShutdownState.canReceive (d_shutdownState (d_base s))) then ret error else
      readableLoop envs
  end.

Definition processSocketReadable (detachInitiated : bool) (envs : list ReadEnv)
    (detaching : bool) : M unit :=
  if detachInitiated then ret tt else
  let* s := get in
  if negb (ShutdownState.canReceive (d_shutdownState (d_base s))) then ret tt else
  let* error := readableLoop envs in
  if Error.is_error error && negb (bool_decide (error = Error.e_WOULD_BLOCK))
  then base (privateFail error detaching)
  else privateRearmAfterReceive.

(** *** Receiving *)

(** [receive] into a blob: the error, the blob and the foreign handle. *)
Definition receive_blob (data : ReceiveBlob) (options : ReceiveOptions.t)
  : M (Error.t * ReceiveBlob * option Z) :=
  let* s := get in
  let q := d_receiveQueue s in
  if negb (OpenState.canReceive (d_openState (d_base s)))
  then ret (Error.e_INVALID, data, None) else
  if (ReceiveQueue.d_size q =? 0)
     && negb (ShutdownState.canReceive (d_shutdownState (d_base s)))
  then ret (Error.e_EOF, data, None) else
  if ReceiveQueue.d_size q >=? ReceiveOptions.d_minSize options then
    let violatedBefore := ReceiveQueue.isHighWatermarkViolated q in
    let* (data, foreignHandle) := dequeueBytes options data in
    let* s := get in
    do* when (violatedBefore
              && negb (ReceiveQueue.isHighWatermarkViolated (d_receiveQueue s)))
          (base (privateRelaxFlowControl e_RECEIVE true false)) ;;
    ret (Error.e_OK, data, foreignHandle)
  else
    do* base (privateRelaxFlowControl e_RECEIVE true false) ;;
    ret (Error.e_WOULD_BLOCK, data, None).

(** [receive] with a callback, which may run with the mutex released when the
    receiver is served directly: up to there, and whether the high watermark
    was violated before. *)
Definition receive_callback (options : ReceiveOptions.t) (callback : ReceiveCallback)
    (timer : ReceiveTimer) : M (Error.t * option bool) :=
  let* s := get in
  let q := d_receiveQueue s in
  if negb (OpenState.canReceive (d_openState (d_base s)))
  then ret (Error.e_INVALID, None) else
  if (ReceiveQueue.d_size q =? 0)
     && negb (ShutdownState.canReceive (d_shutdownState (d_base s)))
  then ret (Error.e_EOF, None) else
  let object := d_callbackEntryCounter s in
  do* modify (set_callbackEntryCounter (object + 1)) ;;
  let entry :=
    ReceiveCallbackQueueEntry.assign (Some callback) options
      (ReceiveCallbackQueueEntry.mk object CallbackState.reset None ReceiveOptions.reset None) in
  if bool_decide (ReceiveQueue.d_callbackQueue q = [])
     && (ReceiveQueue.d_size q >=? ReceiveOptions.d_minSize options) then
    let* (data, foreignHandle) := dequeueBytes options rb_empty in
    do* emit (dispatch_effects (Some data) foreignHandle Error.e_OK
                (negb (ReceiveOptions.d_recurse options)) entry) ;;
    ret (Error.e_OK, Some (ReceiveQueue.isHighWatermarkViolated q))
  else
    let* entry :=
      match ReceiveOptions.d_deadline options with
      | Some deadline =>
          do* emit [e_scheduleReceive timer deadline] ;;
          ret (ReceiveCallbackQueueEntry.setTimer (Some timer) entry)
      | None => ret entry
      end in
    do* modify (fun s =>
          set_receiveQueue (ReceiveQueue.pushCallbackEntry entry (d_receiveQueue s)) s) ;;
    do* base (privateRelaxFlowControl e_RECEIVE true false) ;;
    ret (Error.e_OK, None).

(** What follows the callback. *)
Definition receive_resume (violatedBefore : bool) : M unit :=
  let* s := get in
  when (violatedBefore && negb (ReceiveQueue.isHighWatermarkViolated (d_receiveQueue s)))
    (base (privateRelaxFlowControl e_RECEIVE true false)).

Definition receive (options : ReceiveOptions.t) (callback : ReceiveCallback)
    (timer : ReceiveTimer) : M Error.t :=
  let* (error, violatedBefore) := receive_callback options callback timer in
  do* match violatedBefore with
      | Some violatedBefore => receive_resume violatedBefore
      | None => ret tt
      end ;;
  ret error.

(** *** Removing a receiver *)

(** The entry that the timer is bound to is the one in the queue. *)
Definition processReceiveDeadlineTimer (object : Z) : M unit :=
  let* s := get in
  let entry :=
    List.find (fun e => ReceiveCallbackQueueEntry.d_object e =? object)
      (ReceiveQueue.d_callbackQueue (d_receiveQueue s)) in
  let '(error, q) := ReceiveQueue.removeCallbackEntry object (d_receiveQueue s) in
  do* modify (set_receiveQueue q) ;;
  match entry with
  | Some entry =>
      when (negb (Error.is_error error))
        (emit (dispatch_effects None None Error.e_WOULD_BLOCK false entry))
  | None => ret tt
  end.

Definition cancel_receive (token : Z) : M Error.t :=
  let* s := get in
  let '(error, entry, q) := ReceiveQueue.removeCallbackEntry_token token (d_receiveQueue s) in
  do* modify (set_receiveQueue q) ;;
  match entry with
  | Some entry =>
      if Error.is_error error then ret Error.e_INVALID else
      do* emit (dispatch_effects None None Error.e_CANCELLED true entry) ;;
      ret Error.e_OK
  | None => ret Error.e_INVALID
  end.

(** *** Flow control and shutdown *)

Definition processReceiveRateTimer : M unit :=
  do* base (privateRelaxFlowControl e_RECEIVE false true) ;;
  base (announce ReadQueueRateLimitRelaxed false).

Definition setReadRateLimiter (rateLimiter : option L) : M unit :=
  do* modify (set_receiveRateLimiter rateLimiter) ;;
  match rateLimiter with
  | Some _ => ret tt
  | None =>
      do* closeReceiveRateTimer ;;
      base (privateRelaxFlowControl e_RECEIVE true true)
  end.

Definition relaxWhenLow : M unit :=
  let* s := get in
  when (negb (ReceiveQueue.isLowWatermarkSatisfied (d_receiveQueue s)))
    (base (privateRelaxFlowControl e_RECEIVE true false)).

Definition applyWhenHigh : M unit :=
  let* s := get in
  when (ReceiveQueue.isHighWatermarkViolated (d_receiveQueue s))
    (base (privateApplyFlowControl e_RECEIVE true false)).

Definition setReadQueueLowWatermark (lowWatermark : Z) : M unit :=
  do* modify (fun s =>
        set_receiveQueue (ReceiveQueue.setLowWatermark lowWatermark (d_receiveQueue s)) s) ;;
  let* s := get in
  if negb (ReceiveQueue.isLowWatermarkSatisfied (d_receiveQueue s))
  then base (privateRelaxFlowControl e_RECEIVE true false)
  else base (announce ReadQueueLowWatermark true).

Definition setReadQueueHighWatermark (highWatermark : Z) : M unit :=
  do* modify (fun s =>
        set_receiveQueue (ReceiveQueue.setHighWatermark highWatermark (d_receiveQueue s)) s) ;;
  applyWhenHigh.

Definition setReadQueueWatermarks (lowWatermark highWatermark : Z) : M unit :=
  do* modify (fun s =>
        set_receiveQueue (ReceiveQueue.setLowWatermark lowWatermark (d_receiveQueue s)) s) ;;
  do* modify (fun s =>
        set_receiveQueue (ReceiveQueue.setHighWatermark highWatermark (d_receiveQueue s)) s) ;;
  do* relaxWhenLow ;;
  applyWhenHigh.

(** Relaxing flow control is the function of the send side. *)
Definition applyFlowControl (direction : FlowControlType) : M unit :=
  do* base (closeSendRateTimer direction) ;;
  do* when (FlowControlState.selects direction).2 closeReceiveRateTimer ;;
  base (privateApplyFlowControl direction true true).

Definition privateShutdown (direction : ShutdownType.t) (graceful detaching : bool) : M unit :=
  let '(shutdownReceive, shutdownSend) := ShutdownType.selects direction in
  do* when shutdownReceive
        (let* s := get in
         when (ShutdownState.canReceive (d_shutdownState (d_base s)))
           (base (privateShutdownReceive e_SOURCE detaching))) ;;
  when shutdownSend (base (privateShutdown_send graceful detaching)).

End Socket.
Arguments t {Blob ST L RT}.
Arguments Effect {ST TI RT}.
End StreamSocketReceive.
