(* ===== verification/StreamSocketReceiveFacts.v ===== *)
(** * The sections of the receive side

    What an observer sees of the effects of the receive side, the invariant of
    the read queue and of the receivers that wait, and the lemmas that each
    section of [StreamSocketReceive] preserves it together with the invariant of
    the send side. *)

From Stdlib Require Import Strings.Byte.
From S2P Require Import Prelude Errors Buffers Watermark SendQueue ReceiveQueue SocketState.
From S2P Require Import RateLimiter Sections StreamSocket StreamSocketLogic StreamSocketFacts.
From S2P Require Import BlobBuffers StreamSocketReceive.

Module ReceiveInvariant.
Import Sections StreamSocketReceive.
Section Invariant.
Context {Blob : Type} `{BO : BlobOps Blob} `{BL : !BlobLaws Blob} {ST : SendTypes}.
Context `{SC : !SendContextOps} {L TI : Type} `{LO : LimiterOps L TI}.
Context {RT : ReceiveTypes} `{RO : ReadBlobOps ReceiveBlob} `{RL : !ReadBlobLaws ReceiveBlob}.
Context (bufferSize : Z).
(** Whether the socket may have rate limiters. *)
Context (lim : bool).
Context (config : StreamSocket.Config).
#[local] Abbreviation socket := (StreamSocketReceive.t (Blob := Blob) (L := L)).
#[local] Abbreviation Effect := (StreamSocketReceive.Effect (ST := ST) (TI := TI)).
#[local] Abbreviation base_effect := (StreamSocket.Effect (T := ST) (TI := TI)).
#[local] Abbreviation M := (StreamSocketReceive.M (Blob := Blob) (ST := ST) (L := L) (TI := TI)).
#[local] Abbreviation BaseM := (StreamSocket.M (Blob := Blob) (T := ST) (L := L) (TI := TI)).
#[local] Abbreviation CallbackEntry := ReceiveCallbackQueueEntry.t.
#[local] Abbreviation SendGhost := SocketInvariant.Ghost.

(** ** What an observer knows

    The bytes read from the system, those given to receivers, the callbacks of
    the receivers, those dispatched, and whether the reactor watches for
    readability. *)
Record Ghost : Type := mkGhost {
  g_read : list byte;
  g_delivered : list byte;
  g_accepted : list ReceiveCallback;
  g_dispatched : list ReceiveCallback;
  g_watching : bool
}.

Definition read_of (e : Effect) : list byte :=
  match e with e_read b => b | _ => [] end.
Definition delivery_of (e : Effect) : list byte :=
  match e with e_receive _ (Some data) _ _ _ => rb_bytes data | _ => [] end.
Definition dispatch_of (e : Effect) : list ReceiveCallback :=
  match e with e_receive callback _ _ _ _ => [callback] | _ => [] end.
Definition interest_of (b : bool) (e : Effect) : bool :=
  match e with
  | e_base StreamSocket.e_showReadable => true
  | e_base StreamSocket.e_hideReadable => false
  | _ => b
  end.
Definition base_of (e : Effect) : list base_effect :=
  match e with e_base e => [e] | _ => [] end.

Definition reads (l : list Effect) : list byte := concat (map read_of l).
Definition deliveries (l : list Effect) : list byte := concat (map delivery_of l).
Definition dispatched (l : list Effect) : list ReceiveCallback := concat (map dispatch_of l).
Definition interest (b : bool) (l : list Effect) : bool := fold_left interest_of l b.
(** The effects of the send side. *)
Definition base_effects (l : list Effect) : list base_effect := concat (map base_of l).

Definition observe (l : list Effect) (g : Ghost) : Ghost :=
  mkGhost (g_read g ++ reads l) (g_delivered g ++ deliveries l) (g_accepted g)
    (g_dispatched g ++ dispatched l) (interest (g_watching g) l).

(** Bytes and callbacks handed out, and a receiver that was accepted. *)
Definition deliver (b : list byte) (callbacks : list ReceiveCallback) (g : Ghost) : Ghost :=
  mkGhost (g_read g) (g_delivered g ++ b) (g_accepted g) (g_dispatched g ++ callbacks)
    (g_watching g).
Definition accept (callback : ReceiveCallback) (g : Ghost) : Ghost :=
  mkGhost (g_read g) (g_delivered g) (g_accepted g ++ [callback]) (g_dispatched g)
    (g_watching g).

Lemma concat_map_app {A B} (f : A -> list B) l k :
  concat (map f (l ++ k)) = concat (map f l) ++ concat (map f k).
Proof. by rewrite map_app, concat_app. Qed.

Lemma observed_app l k g : observe (l ++ k) g = observe k (observe l g).
Proof.
  unfold observe, reads, deliveries, dispatched, interest. simpl.
  by rewrite !concat_map_app, fold_left_app, !app_assoc.
Qed.

Lemma observed_nil g : observe [] g = g.
Proof. unfold observe. simpl. rewrite !app_nil_r. by destruct g. Qed.

Lemma base_effects_app l k : base_effects (l ++ k) = base_effects l ++ base_effects k.
Proof. apply concat_map_app. Qed.

(** ** The invariant *)

Definition entry_ok (counter : Z) (e : CallbackEntry) : Prop :=
  ReceiveCallbackQueueEntry.d_state e = CallbackState.e_PENDING /\
  ReceiveCallbackQueueEntry.d_callback e <> None /\
  ReceiveOptions.ok (ReceiveCallbackQueueEntry.d_options e) /\
  ReceiveCallbackQueueEntry.d_object e < counter.

Definition waiting (q : ReceiveQueue.t) : list ReceiveCallback :=
  omap ReceiveCallbackQueueEntry.d_callback (ReceiveQueue.d_callbackQueue q).

Definition feedback_ok (f : ReceiveFeedback.t) : Prop :=
  ReceiveFeedback.wf f /\ 0 < ReceiveFeedback.d_minimum f /\ ReceiveFeedback.d_maximum f < 2 ^ 62.

(** The bytes of the blob of the read queue are those it accounts for. *)
Definition stored (q : ReceiveQueue.t) (b : list byte) : Prop :=
  exists data, ReceiveQueue.d_queueData q = Some data /\ rb_bytes data = b
               /\ ReceiveQueue.d_size q = size b.

Record RInv (s : socket) (g : Ghost) : Prop := {
  ri_queue : ReceiveQueue.wf (d_receiveQueue s);
  ri_low : ReceiveQueue.d_watermarkLow (d_receiveQueue s) < 2 ^ 64;
  ri_stream : exists b, stored (d_receiveQueue s) b /\ g_read g = g_delivered g ++ b;
  ri_callbacks : g_accepted g ≡ₚ g_dispatched g ++ waiting (d_receiveQueue s);
  ri_entries : Forall (entry_ok (d_callbackEntryCounter s))
                 (ReceiveQueue.d_callbackQueue (d_receiveQueue s));
  ri_objects : NoDup (map ReceiveCallbackQueueEntry.d_object
                        (ReceiveQueue.d_callbackQueue (d_receiveQueue s)));
  ri_feedback : feedback_ok (d_receiveFeedback s);
  ri_limited : d_receiveRateLimiter s <> None -> lim = true
}.

#[local] Abbreviation SInv := (SocketInvariant.Inv lim config).
#[local] Abbreviation wp := (Sections.wp (S := socket) (E := Effect) (lim = true)).

(** The invariant of both sides. *)
Definition Inv (s : socket) (h : SendGhost) (g : Ghost) : Prop := SInv (d_base s) h /\ RInv s g.

(** Effects without bytes, callbacks and interest in writability. *)
Definition quiet (l : list Effect) : Prop :=
  reads l = [] /\ deliveries l = [] /\ dispatched l = [] /\
  forall h, SocketInvariant.observe (base_effects l) h = h.

Lemma quiet_nil : quiet [].
Proof. split_and!; [done..|]. intros h. apply SocketInvariant.observe_nil. Qed.

Lemma quiet_one e :
  read_of e = [] -> delivery_of e = [] -> dispatch_of e = [] -> base_of e = [] -> quiet [e].
Proof.
  intros H1 H2 H3 H4. unfold quiet, reads, deliveries, dispatched, base_effects. simpl.
  rewrite H1, H2, H3, H4. split_and!; [done..|]. intros h. apply SocketInvariant.observe_nil.
Qed.

Lemma quiet_app l k : quiet l -> quiet k -> quiet (l ++ k).
Proof.
  intros (H1 & H2 & H3 & H4) (K1 & K2 & K3 & K4). unfold quiet, reads, deliveries, dispatched in *.
  rewrite !concat_map_app, H1, H2, H3, K1, K2, K3. split_and!; [done..|].
  intros h. by rewrite base_effects_app, SocketInvariant.observe_app, H4, K4.
Qed.

Lemma quiet_map {A} (f : A -> Effect) l : (forall x, quiet [f x]) -> quiet (map f l).
Proof. intros Hf. induction l as [|x l IH]; [apply quiet_nil|]. by apply (quiet_app [f x]). Qed.

(** Two ghosts that differ in the interest at most. *)
Definition same_view (g g' : Ghost) : Prop :=
  g_read g' = g_read g /\ g_delivered g' = g_delivered g /\ g_accepted g' = g_accepted g /\
  g_dispatched g' = g_dispatched g.

Lemma RInv_view s g g' : RInv s g -> same_view g g' -> RInv s g'.
Proof. intros [] (H1 & H2 & H3 & H4). split; rewrite ?H1, ?H2, ?H3, ?H4; done. Qed.

Lemma quiet_view l g : quiet l -> same_view g (observe l g).
Proof.
  intros (H1 & H2 & H3 & _). unfold same_view, observe. simpl. by rewrite H1, H2, H3, !app_nil_r.
Qed.

Lemma RInv_base s g b : RInv s g -> RInv (set_base b s) g.
Proof. by intros []. Qed.

(** *** Dispatching a receiver *)

Lemma dispatch_effects_ok n e data handle error defer :
  entry_ok n e -> exists callback,
    ReceiveCallbackQueueEntry.d_callback e = Some callback /\
    dispatch_effects (ST := ST) (TI := TI) data handle error defer e
      = map e_closeReceiveTimer (option_list (ReceiveCallbackQueueEntry.d_timer e))
        ++ [e_receive callback data handle error defer].
Proof.
  intros (Hs & Hc & _). destruct (ReceiveCallbackQueueEntry.d_callback e) as [callback|] eqn:Hcb; [|done].
  exists callback. split; [done|]. unfold dispatch_effects, ReceiveCallbackQueueEntry.dispatch.
  rewrite Hs. simpl. unfold ReceiveCallbackQueueEntry.closeTimer. simpl.
  by destruct (ReceiveCallbackQueueEntry.d_timer e); simpl; rewrite Hcb.
Qed.

Lemma observe_dispatch n e data handle error defer :
  entry_ok n e ->
  let l := dispatch_effects (ST := ST) (TI := TI) data handle error defer e in
  base_effects l = [] /\ reads l = [] /\
  deliveries l = match data with Some data => rb_bytes data | None => [] end /\
  dispatched l = option_list (ReceiveCallbackQueueEntry.d_callback e) /\
  forall b, interest b l = b.
Proof.
  intros He. destruct (dispatch_effects_ok n e data handle error defer He) as (cb & -> & ->).
  unfold base_effects, reads, deliveries, dispatched.
  destruct (ReceiveCallbackQueueEntry.d_timer e), data; simpl; rewrite ?app_nil_r; done.
Qed.

(** The ghost after a receiver was dispatched. *)
Lemma observe_dispatched n e data handle error defer g :
  entry_ok n e ->
  observe (dispatch_effects (ST := ST) (TI := TI) data handle error defer e) g
  = deliver (match data with Some data => rb_bytes data | None => [] end)
      (option_list (ReceiveCallbackQueueEntry.d_callback e)) g.
Proof.
  intros He. destruct (observe_dispatch n e data handle error defer He) as (_ & H1 & H2 & H3 & H4).
  unfold observe, deliver. by rewrite H1, H2, H3, H4, app_nil_r.
Qed.

Lemma observe_dispatched_all n l handle error defer g :
  Forall (entry_ok n) l ->
  let k := concat (map (dispatch_effects (ST := ST) (TI := TI) None handle error defer) l) in
  observe k g = deliver [] (omap ReceiveCallbackQueueEntry.d_callback l) g /\ base_effects k = [].
Proof.
  intros Hl. revert g. induction Hl as [|e l He _ IH]; intros g; cbv zeta; simpl map; simpl concat.
  { split; [|done]. unfold observe, deliver. simpl. by rewrite !app_nil_r. }
  destruct (IH (observe (dispatch_effects (ST := ST) (TI := TI) None handle error defer e) g)) as [IH1 IH2].
  destruct (observe_dispatch n e None handle error defer He) as (Hb & _).
  rewrite observed_app, base_effects_app, IH1, IH2, Hb. split; [|done].
  rewrite (observe_dispatched n) by done. unfold deliver. simpl.
  destruct He as (_ & Hc & _). destruct (ReceiveCallbackQueueEntry.d_callback e); [|done].
  by rewrite !app_nil_r, <- app_assoc.
Qed.

(** ** Sections that keep the invariant *)

Definition preserves {A} (m : M A) : Prop :=
  forall s h g, Inv s h g -> wp m s (fun _ s' l =>
    Inv s' (SocketInvariant.observe (base_effects l) h) (observe l g)).

Lemma Inv_app s h g l k :
  Inv s (SocketInvariant.observe (base_effects k) (SocketInvariant.observe (base_effects l) h))
    (observe k (observe l g)) ->
  Inv s (SocketInvariant.observe (base_effects (l ++ k)) h) (observe (l ++ k) g).
Proof. by rewrite base_effects_app, SocketInvariant.observe_app, observed_app. Qed.

Lemma Inv_nil s h g :
  Inv s (SocketInvariant.observe (base_effects []) h) (observe [] g) <-> Inv s h g.
Proof.
  rewrite observed_nil. change (base_effects []) with (@nil base_effect).
  by rewrite SocketInvariant.observe_nil.
Qed.

Lemma Inv_quiet s h g l :
  Inv s h g -> quiet l -> Inv s (SocketInvariant.observe (base_effects l) h) (observe l g).
Proof.
  intros [Hb Hr] Hl. split; [by destruct Hl as (_ & _ & _ & ->)|].
  by apply (RInv_view _ g), quiet_view.
Qed.

Lemma wp_preserves {A} (m : M A) s h g Q :
  preserves m -> Inv s h g ->
  (forall x s' l, Inv s' (SocketInvariant.observe (base_effects l) h) (observe l g) -> Q x s' l) ->
  wp m s Q.
Proof. intros Hm I HQ. by apply (wp_mono _ m s _ Q (Hm s h g I)). Qed.

Lemma preserves_ret {A} (x : A) : preserves (ret x).
Proof. intros s h g I. by apply wp_ret, Inv_quiet, quiet_nil. Qed.

Lemma preserves_bind {A B} (m : M A) (k : A -> M B) :
  preserves m -> (forall x, preserves (k x)) -> preserves (bind m k).
Proof.
  intros Hm Hk s h g I. apply wp_bind, (wp_preserves m s h g); [done..|]. intros x s' l I'.
  eapply wp_preserves; [apply Hk|exact I'|]. intros y s'' l' I''. by apply Inv_app.
Qed.

Lemma preserves_get {B} (k : socket -> M B) : (forall s, preserves (k s)) -> preserves (bind get k).
Proof.
  intros Hk. apply preserves_bind; [|done]. intros s h g I. by apply wp_get, Inv_quiet, quiet_nil.
Qed.

Lemma preserves_when b (m : M unit) : preserves m -> preserves (when b m).
Proof. intros Hm. unfold when. destruct b; [done|apply preserves_ret]. Qed.

Lemma preserves_if {A} (b : bool) (m k : M A) : preserves m -> preserves k -> preserves (if b then m else k).
Proof. by destruct b. Qed.

Lemma preserves_emit l : quiet l -> preserves (emit l).
Proof. intros Hl s h g I. by apply wp_emit, Inv_quiet. Qed.

(** A change of the receive side. *)
Lemma preserves_modify f :
  (forall s, d_base (f s) = d_base s) -> (forall s g, RInv s g -> RInv (f s) g) ->
  preserves (modify f).
Proof.
  intros Hb Hf s h g [I J]. apply wp_modify, Inv_quiet; [|apply quiet_nil].
  split; [by rewrite Hb|by apply Hf].
Qed.

(** *** The shutdown of the receive direction *)

Lemma wp_closeReceiveRateTimer s Q :
  (forall s' l, d_base s' = d_base s -> (forall g, RInv s g -> RInv s' g) ->
     d_receiveQueue s' = d_receiveQueue s -> quiet l -> base_effects l = [] ->
     (forall b, interest b l = b) -> Q tt s' l) ->
  wp closeReceiveRateTimer s Q.
Proof.
  intros HQ. unfold closeReceiveRateTimer. apply wp_bind, wp_get. cbn beta.
  assert (Hq : quiet [e_closeReceiveRateTimer]) by by apply quiet_one.
  apply wp_when; intros _; [|by apply HQ; try apply quiet_nil].
  apply wp_bind, wp_emit, wp_modify. apply HQ; try done. by intros g [].
Qed.

Lemma wp_shutdownReceive s g Q :
  RInv s g ->
  (forall s' l, d_base s' = d_base s -> base_effects l = [] -> RInv s' (observe l g) ->
     ReceiveQueue.d_callbackQueue (d_receiveQueue s') = [] -> Q tt s' l) ->
  wp privateShutdownSequenceComplete_receive s Q.
Proof.
  intros I HQ. unfold privateShutdownSequenceComplete_receive.
  apply wp_bind, wp_closeReceiveRateTimer. intros s1 l1 Hb1 I1 Hq1 Ql1 Hbe1 _.
  apply wp_bind, wp_get. cbn beta. specialize (I1 g I).
  unfold ReceiveQueue.popAllCallbackEntries, ReceiveCallbackQueue.removeAll. cbn [app].
  apply wp_bind, wp_modify. cbn beta. apply wp_emit. cbn [app].
  destruct (observe_dispatched_all (d_callbackEntryCounter s1)
    (ReceiveQueue.d_callbackQueue (d_receiveQueue s1)) None Error.e_EOF true (observe l1 g)) as [Ho Hb];
    [by apply (ri_entries s1 g)|].
  apply HQ; [done|by rewrite base_effects_app, Hbe1, Hb|..|done].
  rewrite observed_app. simpl app. rewrite Ho.
  apply (RInv_view _ (deliver [] (waiting (d_receiveQueue s1)) g)).
  - destruct I1. split; simpl; try done.
    + by destruct ri_queue0.
    + destruct ri_stream0 as (b & Hs & Hr). exists b. by rewrite app_nil_r.
    + rewrite ri_callbacks0. unfold waiting. by rewrite app_nil_r.
    + constructor.
  - destruct (quiet_view l1 g Ql1) as (H1 & H2 & H3 & H4). unfold same_view, deliver.
    cbn [g_read g_delivered g_accepted g_dispatched]. by rewrite H1, H2, H3, H4.
Qed.

Lemma observe_base_silent (e : base_effect) g : same_view g (observe [e_base e] g).
Proof. unfold same_view, observe. simpl. by rewrite !app_nil_r. Qed.

Lemma wp_interpret (l : list base_effect) s g Q :
  RInv s g ->
  (forall s' k, d_base s' = d_base s ->
     (forall h, SocketInvariant.observe (base_effects k) h = SocketInvariant.observe l h) ->
     RInv s' (observe k g) -> Q tt s' k) ->
  wp (interpret l) s Q.
Proof.
  revert s g Q. induction l as [|e l IH]; intros s g Q I HQ; simpl.
  { apply wp_ret. apply HQ; try done. by rewrite observed_nil. }
  assert (Hrest : forall s1 k1, d_base s1 = d_base s ->
    (forall h, SocketInvariant.observe (base_effects k1) h = SocketInvariant.observe [e] h) ->
    RInv s1 (observe k1 g) -> wp (interpret l) s1 (fun y s2 k2 => Q y s2 (k1 ++ k2))).
  { intros s1 k1 Hb1 Hk1 I1. apply (IH s1 (observe k1 g)); [done|]. intros s2 k2 Hb2 Hk2 I2.
    apply HQ; [congruence| |by rewrite observed_app]. intros h.
    rewrite base_effects_app, SocketInvariant.observe_app, Hk2, Hk1.
    change (e :: l) with ([e] ++ l). by rewrite <- SocketInvariant.observe_app. }
  apply wp_bind.
  assert (He : e = StreamSocket.e_shutdownReceive \/
    interpret_effect e = emit (S := socket) [e_base e]) by (destruct e; auto).
  destruct He as [->| ->].
  - apply (wp_shutdownReceive s g); [done|]. intros s1 l1 Hb1 Hbe1 I1 _.
    apply Hrest; [done| |done]. intros h. rewrite Hbe1, SocketInvariant.observe_nil.
    by rewrite SocketInvariant.observe_silent.
  - apply wp_emit. apply Hrest; [done|done|]. by apply (RInv_view _ g), observe_base_silent.
Qed.

(** A section of the send side; what is known of the send side after it may
    depend on its result. *)
Lemma wp_base {A} (m : BaseM A) s h g (known : A -> SendGhost -> SendGhost) Q :
  Inv s h g ->
  Sections.wp (lim = true) m (d_base s)
    (fun x b l => SInv b (SocketInvariant.observe l (known x h))) ->
  (forall x s' k,
     Inv s' (SocketInvariant.observe (base_effects k) (known x h)) (observe k g) -> Q x s' k) ->
  wp (base m) s Q.
Proof.
  intros [I J] Hm HQ. unfold Sections.wp in Hm |- *. unfold base.
  destruct (m (d_base s)) as [[[x b] l]|]; [|done]. cbn [mbind option_bind].
  pose proof (wp_interpret l (set_base b s) g (fun _ s' k => Q x s' k)) as Hi.
  assert (Hend : forall s' k, d_base s' = b ->
    (forall h, SocketInvariant.observe (base_effects k) h = SocketInvariant.observe l h) ->
    RInv s' (observe k g) -> Q x s' k).
  { intros s' k Hb Hk Hr. apply HQ. split; [by rewrite Hb, Hk|done]. }
  unfold Sections.wp in Hi. destruct (interpret l (set_base b s)) as [[[u s'] k]|];
    (apply Hi; [by apply RInv_base|exact Hend]).
Qed.

Lemma preserves_base {A} (m : BaseM A) : SocketInvariant.keeps lim config m -> preserves (base m).
Proof.
  intros Hm s h g I. apply (wp_base m s h g (fun _ h => h)); [done|apply Hm, I|done].
Qed.

Lemma preserves_closeReceiveRateTimer : preserves closeReceiveRateTimer.
Proof.
  intros s h g [I J]. apply wp_closeReceiveRateTimer. intros s' l Hb Hr _ Hl _ _.
  apply Inv_quiet; [|done]. split; [by rewrite Hb|by apply Hr].
Qed.

(** *** Serving a receiver *)

Lemma RInv_deliver s g b c :
  RInv s (deliver b c g) <-> RInv s (deliver b [] (deliver [] c g)).
Proof.
  split; intros I; apply (RInv_view s _ _ I); unfold same_view, deliver; simpl;
    by rewrite !app_nil_r.
Qed.

Lemma hasEntry_size (q : ReceiveQueue.t) :
  ReceiveQueue.wf q -> 0 < ReceiveQueue.d_size q -> ReceiveQueue.hasEntry q = true.
Proof.
  intros Hq Hs. rewrite (ReceiveQueue.wf_size q Hq) in Hs. unfold ReceiveQueue.hasEntry.
  destruct (ReceiveQueue.d_entryList q); [|done]. rewrite sum_with_nil in Hs. lia.
Qed.

Lemma wp_assertSize s b Q :
  stored (d_receiveQueue s) b -> Q tt s [] -> wp assertSize s Q.
Proof.
  intros (data & Hd & <- & Hs) HQ. unfold assertSize. apply wp_bind, wp_get. cbn beta.
  rewrite Hd. apply wp_bind, wp_lift; [|done]. intros ? [= <-]. cbn beta.
  apply wp_assert; [done|]. rewrite Hs. intros Hne. by rewrite Z.eqb_refl in Hne.
Qed.

Lemma closeHandles_silent c :
  base_effects (map e_closeHandle c) = [] /\ forall b, interest b (map e_closeHandle c) = b.
Proof. induction c as [|x c IH]; [done|exact IH]. Qed.

(** What serving a receiver leaves alone. *)
Record served (s s' : socket) : Prop := {
  sv_base : d_base s' = d_base s;
  sv_counter : d_callbackEntryCounter s' = d_callbackEntryCounter s;
  sv_greedily : d_receiveGreedily s' = d_receiveGreedily s;
  sv_callbackQueue : ReceiveQueue.d_callbackQueue (d_receiveQueue s')
                     = ReceiveQueue.d_callbackQueue (d_receiveQueue s);
  sv_high : ReceiveQueue.d_watermarkHigh (d_receiveQueue s')
            = ReceiveQueue.d_watermarkHigh (d_receiveQueue s);
  sv_trigger : ReceiveQueue.d_trigger (d_receiveQueue s')
               = ReceiveQueue.d_trigger (d_receiveQueue s)
}.

Lemma wp_dequeueBytes options data s g Q :
  RInv s g -> ReceiveOptions.ok options ->
  ReceiveOptions.d_minSize options <= ReceiveQueue.d_size (d_receiveQueue s) ->
  (forall data' handle s' l b0 n,
     n = Z.min (ReceiveQueue.d_size (d_receiveQueue s)) (ReceiveOptions.d_maxSize options) ->
     stored (d_receiveQueue s) b0 -> stored (d_receiveQueue s') (drop (Z.to_nat n) b0) ->
     rb_bytes data' = rb_bytes data ++ take (Z.to_nat n) b0 ->
     served s s' -> RInv s' (deliver (take (Z.to_nat n) b0) [] g) ->
     quiet l -> base_effects l = [] -> (forall b, interest b l = b) ->
     Q (data', handle) s' l) ->
  wp (dequeueBytes options data) s Q.
Proof.
  intros I Ho Hmin HQ. pose proof Ho as [Ho1 Ho2].
  destruct (ri_stream s g I) as (b0 & Hst & Hr). pose proof Hst as (d0 & Hd0 & Hb0 & Hs0).
  pose proof (ri_queue s g I) as Hwf. set (n := Z.min _ _) in HQ.
  destruct (ReceiveQueue.dequeue_spec options (d_receiveQueue s)) as (q & h & c & Hdq & Hq & Hsq & _);
    [done..|].
  destruct (ReceiveQueue.dequeue_frame_spec _ _ _ _ _ _ Hdq) as [Fd Fl Fh Ft Fc].
  assert (Hn : 0 <= n <= size b0) by (unfold n; pose proof (size_nonneg b0); lia).
  unfold dequeueBytes. apply wp_bind, wp_get. cbn beta.
  apply wp_bind, wp_assert; [intros _|by rewrite (hasEntry_size _ Hwf) by lia].
  apply wp_bind, (wp_assertSize s b0); [done|]. rewrite Hdq.
  apply wp_bind, wp_lift; [|done]. intros ? [= <-]. cbn beta iota. fold n in Hsq |- *.
  apply wp_bind, wp_modify, wp_bind, wp_emit. cbn beta. rewrite Fd, Hd0.
  apply wp_bind, wp_lift; [|done]. intros ? [= <-]. cbn beta. apply wp_bind, wp_modify, wp_bind.
  cbn beta.
  assert (Hst' : stored (setQueueData (BlobUtil.pop d0 n) q) (drop (Z.to_nat n) b0)).
  { eexists. split; [done|]. unfold BlobUtil.pop. rewrite rb_erase_bytes by (by rewrite Hb0).
    rewrite Hb0. split; [done|]. simpl. rewrite size_drop by done. lia. }
  apply (wp_assertSize _ (drop (Z.to_nat n) b0)); [exact Hst'|]. apply wp_ret. cbn beta.
  simpl app. rewrite ?app_nil_r. apply (HQ _ _ _ _ b0 n); try done.
  - unfold BlobUtil.append. rewrite rb_append_bytes by (by rewrite Hb0). by rewrite Hb0.
  - destruct I. split; simpl; rewrite ?Fl, ?Fc, ?app_nil_r; try done.
    + by destruct Hq.
    + exists (drop (Z.to_nat n) b0). split; [done|].
      by rewrite <- app_assoc, take_drop.
    + unfold waiting in *. simpl. by rewrite Fc.
  - apply quiet_map. intros x. by apply quiet_one.
  - apply closeHandles_silent.
  - apply closeHandles_silent.
Qed.

(** The receiver at the front of the queue waits for more than there is. *)
Definition sated (q : ReceiveQueue.t) : Prop :=
  match ReceiveQueue.d_callbackQueue q with
  | e :: _ => ReceiveQueue.hasEntry q = false \/
      ReceiveQueue.d_size q < ReceiveOptions.d_minSize (ReceiveCallbackQueueEntry.d_options e)
  | [] => True
  end.

(** The entry at the front of the queue of receivers, served or not. *)
Lemma popCallbackEntry_cases (q : ReceiveQueue.t) :
  (exists error, ReceiveQueue.popCallbackEntry q = (error, None, q) /\ sated q) \/
  (exists e rest, ReceiveQueue.d_callbackQueue q = e :: rest /\
     ReceiveOptions.d_minSize (ReceiveCallbackQueueEntry.d_options e) <= ReceiveQueue.d_size q /\
     ReceiveQueue.popCallbackEntry q
       = (Error.e_OK, Some e, ReceiveQueue.with_callbackQueue rest q)).
Proof.
  assert (Hid : ReceiveQueue.with_callbackQueue (ReceiveQueue.d_callbackQueue q) q = q) by by destruct q.
  unfold ReceiveQueue.popCallbackEntry, sated. destruct (ReceiveQueue.hasEntry q); simpl; cycle 1.
  { left. eexists. split; [done|]. destruct (ReceiveQueue.d_callbackQueue q); auto. }
  destruct (ReceiveQueue.d_callbackQueue q) as [|e rest] eqn:Hc; simpl.
  { left. rewrite Hid. eauto. }
  destruct (Z.geb_spec (ReceiveQueue.d_size q)
    (ReceiveOptions.d_minSize (ReceiveCallbackQueueEntry.d_options e))); [right; eauto 6|].
  left. rewrite Hid. eauto.
Qed.

(** Removing a receiver from the queue, which is dispatched next. *)
Lemma RInv_remove s g before e after :
  RInv s g -> ReceiveQueue.d_callbackQueue (d_receiveQueue s) = before ++ e :: after ->
  entry_ok (d_callbackEntryCounter s) e /\
  RInv (set_receiveQueue (ReceiveQueue.with_callbackQueue (before ++ after) (d_receiveQueue s)) s)
    (deliver [] (option_list (ReceiveCallbackQueueEntry.d_callback e)) g).
Proof.
  intros [] Hc. rewrite Hc in *. apply Forall_app in ri_entries0 as [He1 He2].
  apply Forall_cons_iff in He2 as [He He2]. split; [done|]. split; simpl; try done.
  - by destruct ri_queue0.
  - destruct ri_stream0 as (b & Hs & Hr). exists b. by rewrite app_nil_r.
  - rewrite ri_callbacks0. unfold waiting. simpl. rewrite Hc, !omap_app. simpl.
    destruct (ReceiveCallbackQueueEntry.d_callback e); simpl; [|by rewrite app_nil_r].
    rewrite <- app_assoc. simpl. f_equiv. by rewrite Permutation_middle.
  - by apply Forall_app.
  - rewrite map_app in *. apply list.NoDup_app in ri_objects0 as (N1 & N2 & N3).
    apply list.NoDup_cons in N3 as [N3 N4]. apply list.NoDup_app. split_and!; [done| |done].
    intros x Hx1 Hx2. apply (N2 x Hx1). by right.
Qed.

Lemma observe_app_dispatch n l e data handle error defer g :
  entry_ok n e -> quiet l -> base_effects l = [] -> (forall b, interest b l = b) ->
  let k := l ++ dispatch_effects (ST := ST) (TI := TI) data handle error defer e in
  base_effects k = [] /\
  observe k g = deliver (match data with Some data => rb_bytes data | None => [] end)
                  (option_list (ReceiveCallbackQueueEntry.d_callback e)) g.
Proof.
  intros He Hl Hb Hi. cbv zeta. split.
  { rewrite base_effects_app, Hb. by destruct (observe_dispatch n e data handle error defer He). }
  rewrite observed_app, (observe_dispatched n) by done. f_equal.
  destruct Hl as (H1 & H2 & H3 & _). unfold observe. rewrite H1, H2, H3, Hi, !app_nil_r.
  by destruct g.
Qed.

(** Serving an entry that was removed from the queue or never entered it. *)
Lemma wp_serve {A} e s g defer (k : M A) Q :
  RInv s (deliver [] (option_list (ReceiveCallbackQueueEntry.d_callback e)) g) ->
  entry_ok (d_callbackEntryCounter s) e ->
  ReceiveOptions.d_minSize (ReceiveCallbackQueueEntry.d_options e)
    <= ReceiveQueue.d_size (d_receiveQueue s) ->
  (forall s' l, served s s' -> base_effects l = [] -> RInv s' (observe l g) ->
     (forall b, interest b l = b) ->
     dispatched l = option_list (ReceiveCallbackQueueEntry.d_callback e) ->
     wp k s' (fun y s'' l' => Q y s'' (l ++ l'))) ->
  wp (bind (dequeueBytes (ReceiveCallbackQueueEntry.d_options e) rb_empty)
        (fun '(data, foreignHandle) =>
           bind (emit (dispatch_effects (Some data) foreignHandle Error.e_OK defer e))
             (fun _ => k))) s Q.
Proof.
  intros I He Hmin HQ. apply wp_bind.
  apply (wp_dequeueBytes _ _ s _ _ I); [by destruct He as (_ & _ & ? & _)|done|].
  intros data handle s' l b0 n Hn Hst Hst' Hd Hsv I' Ql Hb Hi. cbn beta iota.
  apply wp_bind, wp_emit.
  destruct (observe_app_dispatch (d_callbackEntryCounter s) l e (Some data) handle Error.e_OK defer g He)
    as [Hb' Ho]; [done..|].
  eapply wp_mono; [apply (HQ s' _ Hsv Hb')|].
  - rewrite Ho, Hd, rb_empty_bytes. by apply RInv_deliver.
  - intros b. unfold interest. rewrite fold_left_app. fold (interest b l). rewrite Hi.
    by apply (observe_dispatch _ _ _ _ _ _ He).
  - destruct Ql as (_ & _ & Hl & _). unfold dispatched in *. rewrite concat_map_app, Hl.
    by apply (observe_dispatch _ _ _ _ _ _ He).
  - cbn beta. intros y s'' l'. by rewrite <- app_assoc.
Qed.

(** *** The sections of a readable event *)

Lemma Inv_nobase s s' h g l :
  Inv s h g -> d_base s' = d_base s -> base_effects l = [] -> RInv s' (observe l g) ->
  Inv s' (SocketInvariant.observe (base_effects l) h) (observe l g).
Proof. intros [I _] Hb -> Hr. rewrite SocketInvariant.observe_nil. split; [by rewrite Hb|done]. Qed.

(** One pass of the loop serves the receiver at the front, or changes nothing. *)
Lemma wp_pop s g Q :
  RInv s g ->
  (sated (d_receiveQueue s) -> Q false s []) ->
  (forall e rest s' l, ReceiveQueue.d_callbackQueue (d_receiveQueue s) = e :: rest ->
     ReceiveQueue.d_callbackQueue (d_receiveQueue s') = rest ->
     d_base s' = d_base s -> base_effects l = [] -> RInv s' (observe l g) ->
     dispatched l = option_list (ReceiveCallbackQueueEntry.d_callback e) ->
     ReceiveOptions.d_minSize (ReceiveCallbackQueueEntry.d_options e)
       <= ReceiveQueue.d_size (d_receiveQueue s) -> Q true s' l) ->
  wp privateSocketReadableIteration_pop s Q.
Proof.
  intros J Hno Hyes. unfold privateSocketReadableIteration_pop. apply wp_bind, wp_get. cbn beta.
  destruct (popCallbackEntry_cases (d_receiveQueue s)) as [(error & -> & Hs)|(e & rest & Hc & Hmin & ->)].
  { apply wp_bind, wp_modify, wp_ret. replace (set_receiveQueue _ s) with s by (by destruct s). auto. }
  apply wp_bind, wp_modify. cbn beta iota. simpl Error.is_error. cbn iota.
  destruct (RInv_remove s g [] e rest J Hc) as [He J'].
  apply wp_bind, wp_assert; [intros _|simpl; intros Hx; by rewrite (proj2 (Z.geb_le _ _) Hmin) in Hx].
  apply (wp_serve e _ g); [exact J'|done|done|]. intros s' l [Hb _ _ Hq _ _] Hl J2 _ Hd.
  apply wp_ret. cbn beta. rewrite !app_nil_r. simpl app. by apply (Hyes e rest).
Qed.

Lemma preserves_pop : preserves privateSocketReadableIteration_pop.
Proof.
  intros s h g I. apply (wp_pop s g); [apply I|by intros _; apply Inv_nil|].
  intros e rest s' l _ _ Hb Hl J _ _. by apply (Inv_nobase s).
Qed.

(** As many passes suffice as receivers wait; they are served in order. *)
Lemma wp_popLoop fuel s g Q :
  RInv s g -> (length (ReceiveQueue.d_callbackQueue (d_receiveQueue s)) <= fuel)%nat ->
  (forall s' l, RInv s' (observe l g) -> d_base s' = d_base s -> base_effects l = [] ->
     sated (d_receiveQueue s') ->
     waiting (d_receiveQueue s) = dispatched l ++ waiting (d_receiveQueue s') -> Q tt s' l) ->
  wp (popLoop fuel) s Q.
Proof.
  revert s g Q. induction fuel as [|fuel IH]; intros s g Q J Hn HQ; cbn [popLoop]; apply wp_bind.
  - apply (wp_pop s g); [done| |].
    + intros Hs. apply wp_ret, HQ; try done. by rewrite observed_nil.
    + intros e rest s' l Hc. rewrite Hc in Hn. simpl in Hn. lia.
  - apply (wp_pop s g); [done| |].
    + intros Hs. apply wp_ret, HQ; try done. by rewrite observed_nil.
    + intros e rest s1 l1 Hc Hc1 Hb1 Hl1 J1 Hd1 _. rewrite Hc in Hn. simpl in Hn.
      apply (IH s1 (observe l1 g)); [done|rewrite Hc1; lia|].
      intros s2 l2 J2 Hb2 Hl2 Hs2 Hw2. apply HQ.
      * by rewrite observed_app.
      * congruence.
      * by rewrite base_effects_app, Hl1.
      * done.
      * unfold dispatched in *. rewrite concat_map_app, Hd1, <- app_assoc, <- Hw2.
        unfold waiting. rewrite Hc, Hc1. simpl.
        by destruct (ReceiveCallbackQueueEntry.d_callback e).
Qed.

(** A change of the flags of the watermark events. *)
Lemma RInv_flags s g low high :
  RInv s g ->
  RInv (set_receiveQueue (ReceiveQueue.with_watermarks
    (ReceiveQueue.d_watermarkLow (d_receiveQueue s)) low
    (ReceiveQueue.d_watermarkHigh (d_receiveQueue s)) high (d_receiveQueue s)) s) g.
Proof. intros []. split; try done. by destruct ri_queue0. Qed.

Lemma authorize_cases (q : ReceiveQueue.t) :
  (exists b low high, ReceiveQueue.authorizeLowWatermarkEvent q
     = (ReceiveQueue.with_watermarks (ReceiveQueue.d_watermarkLow q) low
          (ReceiveQueue.d_watermarkHigh q) high q, b)) /\
  (exists b low high, ReceiveQueue.authorizeHighWatermarkEvent q
     = (ReceiveQueue.with_watermarks (ReceiveQueue.d_watermarkLow q) low
          (ReceiveQueue.d_watermarkHigh q) high q, b)).
Proof.
  assert (Hid : ReceiveQueue.with_watermarks (ReceiveQueue.d_watermarkLow q)
    (ReceiveQueue.d_watermarkLowWanted q) (ReceiveQueue.d_watermarkHigh q)
    (ReceiveQueue.d_watermarkHighWanted q) q = q) by by destruct q.
  unfold ReceiveQueue.authorizeLowWatermarkEvent, ReceiveQueue.authorizeHighWatermarkEvent.
  split; repeat case_match; do 3 eexists; first [reflexivity|by rewrite Hid].
Qed.

Lemma preserves_low : preserves privateSocketReadableIteration_low.
Proof.
  unfold privateSocketReadableIteration_low. intros s h g [I J]. apply wp_bind, wp_get. cbn beta.
  destruct (authorize_cases (d_receiveQueue s)) as [(b & low & high & ->) _].
  apply wp_bind, wp_modify. cbn beta.
  eapply wp_preserves; [apply preserves_when, preserves_base, SocketInvariant.keeps_announce| |].
  - by split; [|apply RInv_flags].
  - done.
Qed.

Lemma preserves_high : preserves privateSocketReadableIteration_high.
Proof.
  unfold privateSocketReadableIteration_high. intros s h g [I J]. apply wp_bind, wp_get. cbn beta.
  destruct (authorize_cases (d_receiveQueue s)) as [_ (b & low & high & ->)].
  apply wp_bind, wp_modify. cbn beta.
  eapply wp_preserves; [apply preserves_bind; [apply preserves_when, preserves_base, SocketInvariant.keeps_apply_receive
                                      |intros _; apply preserves_ret]| |].
  - by split; [|apply RInv_flags].
  - done.
Qed.

Lemma preserves_rearm : preserves privateRearmAfterReceive.
Proof.
  unfold privateRearmAfterReceive. apply preserves_get. intros s.
  by apply preserves_when, preserves_base, SocketInvariant.keeps_emit.
Qed.

Lemma preserves_throttle_end now time :
  preserves (privateThrottleReceiveBuffer_end now time).
Proof.
  unfold privateThrottleReceiveBuffer_end. apply preserves_get. intros s.
  apply preserves_if; [apply preserves_ret|]. apply preserves_bind.
  { apply preserves_modify; [done|]. by intros ? ? []. }
  intros _. apply preserves_bind; [by apply preserves_emit, quiet_one|intros _].
  apply preserves_bind; [apply preserves_base, SocketInvariant.keeps_announce|intros _; apply preserves_ret].
Qed.

(** *** Reading *)

(** What is assumed of a read: it finds the blob of the queue, of which the
    size is that of something in memory, and the system reports an error. *)
Definition read_env_ok (s : socket) (env : ReadEnv (TI := TI)) : Prop :=
  (forall data, ReceiveQueue.d_queueData (d_receiveQueue s) = Some data -> rb_totalSize data < 2 ^ 62) /\
  match r_result env with
  | ReceiveFailed error => Error.is_error error = true
  | Received _ _ _ => True
  end.

Lemma wp_reserve s h g Q :
  0 < bufferSize < 2 ^ 62 -> Inv s h g ->
  (forall data, ReceiveQueue.d_queueData (d_receiveQueue s) = Some data -> rb_totalSize data < 2 ^ 62) ->
  (forall s' b, Inv s' h g -> d_base s' = d_base s -> stored (d_receiveQueue s') b ->
     d_receiveRateLimiter s' = d_receiveRateLimiter s -> Q tt s' []) ->
  wp (reserveQueueCapacity bufferSize) s Q.
Proof.
  intros Hbs [I J] Htotal HQ. unfold reserveQueueCapacity. apply wp_bind, wp_get. cbn beta.
  destruct (ri_stream s g J) as (b & (data & Hd & Hb & Hs) & Hr).
  destruct (ri_feedback s g J) as ([[Hf1 Hf2] Hf3 _ _ _] & Hf5 & Hf6).
  pose proof (ReceiveQueue.wf_watermarks _ (ri_queue s g J)) as [Hw _].
  pose proof (ri_low s g J) as Hlow.
  destruct (BlobBufferUtil.reserve_spec bufferSize data (ReceiveQueue.d_watermarkLow (d_receiveQueue s))
    (ReceiveFeedback.d_current (d_receiveFeedback s)) (ReceiveFeedback.d_maximum (d_receiveFeedback s)))
    as (data' & Hres & Hb' & _); [lia|by apply Htotal|lia..|].
  rewrite Hd. apply wp_bind, wp_lift; [|done]. intros ? [= <-]. cbn beta. rewrite Hres.
  apply wp_bind, wp_lift; [|done]. intros ? [= <-]. apply wp_modify.
  assert (Hst : stored (setQueueData data' (d_receiveQueue s)) b) by (exists data'; by rewrite Hb').
  apply (HQ _ b); try done. split; [done|]. destruct J. split; try done.
  - by destruct ri_queue0.
  - by exists b.
Qed.

Lemma wp_throttleReceive env s h g Q :
  Inv s h g ->
  (forall exceeded s' l, Inv s' (SocketInvariant.observe (base_effects l) h) (observe l g) ->
     (exceeded = None -> l = [] /\ d_base s' = d_base s /\ d_receiveQueue s' = d_receiveQueue s) ->
     Q exceeded s' l) ->
  wp (privateThrottleReceiveBuffer_begin env) s Q.
Proof.
  intros I HQ. unfold privateThrottleReceiveBuffer_begin. apply wp_bind, wp_get. cbn beta.
  destruct (d_receiveRateLimiter s) as [limiter|] eqn:El; cycle 1.
  { apply wp_ret, HQ; [by apply Inv_quiet, quiet_nil|done]. }
  assert (Hlim : lim = true) by (apply (ri_limited s g (proj2 I)); by rewrite El).
  assert (Hset : forall x s0, Inv s0 h g -> Inv (set_receiveRateLimiter (Some x) s0) h g).
  { intros x s0 [I0 []]. by split. }
  apply wp_bind, wp_lift; [|done]. intros [limiter1 exceeds] _. cbn beta iota.
  apply wp_bind, wp_modify. cbn beta. destruct exceeds; cycle 1.
  { apply wp_ret, HQ; [by apply Inv_quiet, quiet_nil; apply Hset|done]. }
  apply wp_bind, wp_lift; [|done]. intros [limiter2 time] _. cbn beta iota.
  apply wp_bind, wp_modify. cbn beta. apply wp_bind.
  eapply wp_preserves; [apply preserves_base, SocketInvariant.keeps_apply_receive|apply Hset, Hset, I|].
  intros x s' l I'. apply wp_ret, HQ; [|done]. by rewrite app_nil_r.
Qed.

(** The bytes of a read and their entry. *)
Lemma RInv_push s g data b received timestamp handle :
  RInv s g -> stored (d_receiveQueue s) b -> rb_bytes data = b ++ received -> 0 < size received ->
  exists q x,
    ReceiveQueue.pushEntry
      (ReceiveQueueEntry.mk None None (size received) timestamp handle)
      (setQueueData data (d_receiveQueue s)) = Some (q, x) /\
    stored q (b ++ received) /\
    RInv (set_receiveQueue q s) (observe [e_read received] g).
Proof.
  intros [] (d0 & Hd0 & Hb0 & Hs0) Hb Hn. unfold ReceiveQueue.pushEntry. simpl.
  rewrite (proj2 (Z.gtb_lt _ _)) by lia. do 2 eexists. split; [done|].
  assert (Hst : forall l, stored (ReceiveQueue.with_entries l
    (ReceiveQueue.d_size (d_receiveQueue s) + size received) (setQueueData data (d_receiveQueue s)))
    (b ++ received)).
  { intros l. exists data. split; [done|]. split; [done|]. simpl. rewrite size_app. lia. }
  split; [apply Hst|]. unfold observe. simpl.
  split; simpl; rewrite ?app_nil_r; try done.
  - destruct ri_queue0. split; simpl; [|rewrite sum_with_app, sum_with_cons, sum_with_nil; simpl; lia|done].
    apply Forall_app. split; [done|]. by split_Forall.
  - exists (b ++ received). split; [apply Hst|]. destruct ri_stream0 as (b1 & (d1 & Hd1 & Hb1 & _) & ->).
    rewrite Hd0 in Hd1. injection Hd1 as <-. unfold reads. simpl. by rewrite app_nil_r, <- Hb1, Hb0, app_assoc.
Qed.

Lemma RInv_fields s s' g :
  RInv s g -> d_receiveQueue s' = d_receiveQueue s -> d_callbackEntryCounter s' = d_callbackEntryCounter s ->
  feedback_ok (d_receiveFeedback s') -> (d_receiveRateLimiter s' <> None -> lim = true) -> RInv s' g.
Proof. intros [] Hq Hc Hf Hl. by split; rewrite ?Hq, ?Hc. Qed.

Lemma setFeedback_ok a b f : feedback_ok f -> feedback_ok (ReceiveFeedback.setFeedback a b f).
Proof.
  intros (Hf & Hmin & Hmax).
  assert (Hc : forall c, feedback_ok (ReceiveFeedback.setCongestion c f)).
  { intros c. split; [by apply ReceiveFeedback.setCongestion_wf|].
    unfold ReceiveFeedback.setCongestion. repeat case_match; done. }
  unfold ReceiveFeedback.setFeedback. repeat case_match; auto. by split.
Qed.

(** What follows a read, with or without a rate limiter. *)
Lemma wp_submit (limiter : option L) n s Q :
  (limiter <> None -> lim = true) ->
  (forall x, Q tt (match limiter with Some _ => set_receiveRateLimiter x s | None => s end) []) ->
  wp (match limiter with
      | Some limiter =>
          bind (lift (limiter_submit limiter n)) (fun limiter =>
            modify (set_receiveRateLimiter (Some limiter)))
      | None => ret tt
      end) s Q.
Proof.
  intros Hl HQ. destruct limiter as [limiter|]; [|by apply wp_ret, (HQ None)].
  assert (lim = true) by by apply Hl.
  apply wp_bind, wp_lift; [|done]. intros x _. cbn beta. apply wp_modify. apply (HQ (Some x)).
Qed.

(** A read that is not throttled, up to its entry. *)
Lemma preserves_fill env s h g b :
  Inv s h g -> stored (d_receiveQueue s) b ->
  match r_result env with
  | ReceiveFailed error => Error.is_error error = true
  | Received _ _ _ => True
  end ->
  wp (readUnthrottled env) s
    (fun _ s' l => Inv s' (SocketInvariant.observe (base_effects l) h) (observe l g)).
Proof.
  intros I Hst Henv. unfold readUnthrottled, privateDequeueReceiveBufferRaw.
  destruct (r_result env) as [error|arrived receivable handle].
  { apply wp_bind, wp_bind. eapply wp_preserves;
      [apply preserves_when, preserves_base, SocketInvariant.keeps_shutdownReceive|exact I|].
    intros _ s' l I'. apply wp_ret. cbn beta iota. rewrite Henv. apply wp_ret. by rewrite !app_nil_r. }
  apply wp_bind, wp_bind, wp_get. cbn beta. pose proof Hst as (data & Hd & Hb & Hs). rewrite Hd.
  apply wp_bind, wp_lift; [|done]. intros ? [= <-]. cbn beta.
  pose proof (rb_room data) as Hroom. set (received := take _ arrived).
  assert (Hfill : rb_bytes (rb_fill received data) = b ++ received).
  { rewrite rb_fill_bytes, Hb; [done|]. unfold received, size in *. rewrite length_take. lia. }
  apply wp_bind, wp_emit, wp_bind, wp_modify, wp_bind, wp_modify. cbn beta. apply wp_bind.
  pose proof (proj2 I) as J. apply wp_submit; [apply (ri_limited s g J)|]. intros x.
  set (s1 := match d_receiveRateLimiter s with Some _ => _ | None => _ end).
  assert (Hs1 : d_base s1 = d_base s /\ d_callbackEntryCounter s1 = d_callbackEntryCounter s /\
    d_receiveQueue s1 = setQueueData (rb_fill received data) (d_receiveQueue s) /\
    feedback_ok (d_receiveFeedback s1) /\ (d_receiveRateLimiter s1 <> None -> lim = true)).
  { pose proof (ri_limited s g J) as Hl. unfold s1. destruct (d_receiveRateLimiter s) eqn:El; simpl;
      (split_and!; [done..|by apply setFeedback_ok, (ri_feedback s g J)|]); [by intros _; apply Hl|].
    by rewrite El. }
  clearbody s1. destruct Hs1 as (Hbase & Hcounter & Hq & Hfb & Hlim).
  destruct (Z.gtb_spec (size received) 0) as [Hn|Hn].
  - apply wp_bind, wp_modify, wp_ret. cbn beta iota. simpl Error.is_error. cbn iota.
    apply wp_bind. unfold pushReceived. apply wp_bind, wp_get. cbn beta. simpl d_receiveQueue. rewrite Hq.
    destruct (RInv_push s g (rb_fill received data) b received (r_timer env) handle J Hst Hfill)
      as (q & y & -> & Hstq & J'); [lia|].
    apply wp_bind, wp_lift; [|done]. intros ? [= <-]. cbn beta iota.
    apply wp_modify. apply wp_bind, (wp_assertSize _ (b ++ received)); [exact Hstq|].
    apply wp_ret. simpl app. apply (Inv_nobase s); [done|done|done|].
    by apply (RInv_fields (set_receiveQueue q s)).
  - assert (Hnil : received = []).
    { apply size_zero_inv. pose proof (size_nonneg received). lia. }
    rewrite Hnil in *. apply wp_bind. rewrite app_nil_r in Hfill.
    eapply (wp_preserves _ s1 h (observe [e_read []] g));
      [apply preserves_base, SocketInvariant.keeps_shutdownReceive| |].
    + split; [rewrite Hbase; apply I|]. apply (RInv_view _ g); [|unfold same_view, observe; simpl;
        by rewrite !app_nil_r].
      apply (RInv_fields (set_receiveQueue (setQueueData (rb_fill [] data) (d_receiveQueue s)) s)); try done.
      destruct J. split; try done; [by destruct ri_queue0|].
      destruct ri_stream0 as (b1 & (d1 & Hd1 & Hb1' & Hs1') & Hr). exists b1. split; [|done].
      rewrite Hd in Hd1. injection Hd1 as <-. exists (rb_fill [] data). by rewrite Hfill, <- Hb.
    + intros u s' l I'. apply wp_ret. cbn beta iota. simpl Error.is_error. cbn iota. apply wp_ret.
      simpl app. rewrite !app_nil_r. change (e_read [] :: l) with ([e_read []] ++ l).
      apply Inv_app. change (base_effects [e_read []]) with (@nil base_effect).
      by rewrite SocketInvariant.observe_nil.
Qed.

Lemma preserves_read env s h g :
  0 < bufferSize < 2 ^ 62 -> Inv s h g -> read_env_ok s env ->
  wp (privateSocketReadableIteration_read bufferSize env) s (fun _ s' l =>
    Inv s' (SocketInvariant.observe (base_effects l) h) (observe l g)).
Proof.
  intros Hbs I [Htotal Henv]. unfold privateSocketReadableIteration_read.
  apply wp_bind, wp_get. cbn beta. destruct (ReceiveQueue.isHighWatermarkViolated _).
  { by apply wp_ret, Inv_quiet, quiet_nil. }
  apply wp_bind, (wp_reserve s h g); [done..|]. intros s1 b I1 Hb1 Hst1 Hl1. cbn beta.
  destruct (negb _); [by apply wp_ret, Inv_quiet, quiet_nil|].
  apply wp_bind, (wp_throttleReceive env s1 h g); [done|]. intros exceeded s2 l2 I2 Hex.
  destruct exceeded as [time|]; [apply wp_ret; simpl app; by rewrite app_nil_r|].
  destruct (Hex eq_refl) as (-> & Hb2 & Hq2). simpl app. clear Hex.
  rewrite Inv_nil in I2.
  rewrite <- Hq2 in Hst1. by apply (preserves_fill env s2 h g b).
Qed.

(** *** Receiving *)

Lemma preserves_relaxReceive defer unlock :
  preserves (base (StreamSocket.privateRelaxFlowControl e_RECEIVE defer unlock)).
Proof. apply preserves_base, SocketInvariant.keeps_relax. Qed.

Lemma same_view_observe g g' l : same_view g g' -> same_view (observe l g) (observe l g').
Proof.
  intros (H1 & H2 & H3 & H4). unfold same_view, observe. simpl. by rewrite H1, H2, H3, H4.
Qed.

Lemma Inv_prefix s h g l k :
  quiet l -> base_effects l = [] ->
  Inv s (SocketInvariant.observe (base_effects k) h) (observe k g) ->
  Inv s (SocketInvariant.observe (base_effects (l ++ k)) h) (observe (l ++ k) g).
Proof.
  intros Ql Hl [I J]. rewrite base_effects_app, Hl. split; [exact I|].
  apply (RInv_view _ _ _ J). rewrite observed_app. by apply same_view_observe, quiet_view.
Qed.

(** What a receive into a blob answers, and what it takes. *)
Lemma wp_receive_blob data options s h g :
  Inv s h g -> ReceiveOptions.ok options ->
  wp (receive_blob data options) s (fun '(error, data', handle) s' l =>
    exists b, rb_bytes data' = rb_bytes data ++ b /\
      Inv s' (SocketInvariant.observe (base_effects l) h) (observe l (deliver b [] g))).
Proof.
  intros I Ho. pose proof (proj2 I) as J. pose proof (proj1 I) as K.
  assert (Hno : forall s' l, Inv s' (SocketInvariant.observe (base_effects l) h) (observe l g) ->
    exists b, rb_bytes data = rb_bytes data ++ b /\
      Inv s' (SocketInvariant.observe (base_effects l) h) (observe l (deliver b [] g))).
  { intros s' l [I1 I2]. exists []. rewrite app_nil_r. split; [done|]. split; [done|].
    apply (RInv_view _ _ _ I2). unfold same_view, observe, deliver. simpl. by rewrite !app_nil_r. }
  unfold receive_blob. apply wp_bind, wp_get. cbn beta.
  destruct (negb _); [by apply wp_ret, Hno, Inv_nil|].
  destruct (_ && _); [by apply wp_ret, Hno, Inv_nil|].
  destruct (Z.geb_spec (ReceiveQueue.d_size (d_receiveQueue s)) (ReceiveOptions.d_minSize options)).
  - apply wp_bind, (wp_dequeueBytes options data s g); [done|done|lia|].
    intros data' handle s1 l1 b0 n Hn Hst Hst' Hd [Hb _ _ _ _ _] J' Ql Hl _. cbn beta iota.
    apply wp_bind, wp_get. cbn beta. apply wp_bind.
    eapply (wp_preserves _ s1 h (deliver (take (Z.to_nat n) b0) [] g));
      [apply preserves_when, preserves_relaxReceive|by split; [rewrite Hb|]|].
    intros _ s2 l2 I2. apply wp_ret. cbn beta iota. simpl app. rewrite app_nil_r.
    exists (take (Z.to_nat n) b0). split; [done|]. by apply Inv_prefix.
  - apply wp_bind. eapply (wp_preserves _ s h g); [apply preserves_relaxReceive|done|].
    intros _ s' l I'. apply wp_ret. cbn beta iota. rewrite app_nil_r. by apply Hno.
Qed.

(** A receiver that was accepted, and is served or waits. *)
Definition new_entry (object : Z) (callback : ReceiveCallback) (options : ReceiveOptions.t)
    (timer : option ReceiveTimer) : CallbackEntry :=
  ReceiveCallbackQueueEntry.mk object CallbackState.e_PENDING (Some callback) options timer.

Lemma new_entry_ok n callback options timer :
  ReceiveOptions.ok options -> entry_ok (n + 1) (new_entry n callback options timer).
Proof. intros Ho. split_and!; simpl; try done. lia. Qed.

Lemma entry_ok_mono n n' e : n <= n' -> entry_ok n e -> entry_ok n' e.
Proof. intros Hn (H1 & H2 & H3 & H4). split_and!; try done. lia. Qed.

Lemma RInv_accept s g callback :
  RInv s g -> RInv (set_callbackEntryCounter (d_callbackEntryCounter s + 1) s)
                (deliver [] [callback] (accept callback g)).
Proof.
  intros []. split; simpl; rewrite ?app_nil_r; try done.
  - rewrite ri_callbacks0. rewrite <- !app_assoc. f_equiv. apply Permutation_app_comm.
  - eapply List.Forall_impl; [|exact ri_entries0]. intros e. apply entry_ok_mono. lia.
Qed.

Lemma RInv_wait s g callback options timer :
  RInv s g -> ReceiveOptions.ok options ->
  RInv (set_receiveQueue
          (ReceiveQueue.pushCallbackEntry
             (new_entry (d_callbackEntryCounter s) callback options timer) (d_receiveQueue s))
          (set_callbackEntryCounter (d_callbackEntryCounter s + 1) s))
    (accept callback g).
Proof.
  intros [] Ho. split; simpl; try done.
  - by destruct ri_queue0.
  - unfold waiting, ReceiveQueue.pushCallbackEntry, ReceiveCallbackQueue.push. simpl.
    rewrite omap_app. simpl.
    by rewrite ri_callbacks0, <- app_assoc.
  - apply Forall_app. split.
    + eapply List.Forall_impl; [|exact ri_entries0]. intros e. apply entry_ok_mono. lia.
    + split_Forall. by apply new_entry_ok.
  - unfold ReceiveCallbackQueue.push. rewrite map_app. apply list.NoDup_app.
    split_and!; [done| |apply NoDup_singleton]. simpl.
    intros x Hx [->|Hx']%elem_of_cons; [|by apply elem_of_nil in Hx'].
    apply list_elem_of_fmap in Hx as (e & He & Hin).
    pose proof (proj1 (List.Forall_forall _ _) ri_entries0 e ltac:(by apply list_elem_of_In))
      as (_ & _ & _ & Hlt). lia.
Qed.

Definition accepted (error : Error.t) (callback : ReceiveCallback) (g : Ghost) : Ghost :=
  if Error.is_error error then g else accept callback g.

Lemma wp_wait s h g callback options timer :
  Inv s h g -> ReceiveOptions.ok options ->
  wp (bind (modify (fun s' => set_receiveQueue
              (ReceiveQueue.pushCallbackEntry
                 (new_entry (d_callbackEntryCounter s) callback options timer)
                 (d_receiveQueue s')) s'))
        (fun _ => bind (base (StreamSocket.privateRelaxFlowControl e_RECEIVE true false))
           (fun _ => ret (Error.e_OK, None (A := bool)))))
    (set_callbackEntryCounter (d_callbackEntryCounter s + 1) s) (fun '(error, _) s' l =>
    Inv s' (SocketInvariant.observe (base_effects l) h) (observe l (accepted error callback g))).
Proof.
  intros [I J] Ho. apply wp_bind, wp_modify. cbn beta. apply wp_bind.
  eapply (wp_preserves _ _ h (accept callback g)); [apply preserves_relaxReceive| |].
  - split; [exact I|exact (RInv_wait s g callback options timer J Ho)].
  - intros _ s' l I'. apply wp_ret. cbn beta iota. simpl app. by rewrite app_nil_r.
Qed.

Lemma wp_receive_callback options callback timer s h g :
  Inv s h g -> ReceiveOptions.ok options ->
  wp (receive_callback options callback timer) s (fun '(error, _) s' l =>
    Inv s' (SocketInvariant.observe (base_effects l) h) (observe l (accepted error callback g))).
Proof.
  intros [I J] Ho. unfold receive_callback. apply wp_bind, wp_get. cbn beta.
  destruct (negb _); [by apply wp_ret, Inv_nil|].
  destruct (_ && _); [by apply wp_ret, Inv_nil|].
  apply wp_bind, wp_modify. cbn beta.
  destruct (bool_decide _ && (ReceiveQueue.d_size _ >=? _)) eqn:Eb.
  - apply andb_true_iff in Eb as [_ Emin]. apply Z.geb_le in Emin.
    apply (wp_serve (new_entry (d_callbackEntryCounter s) callback options None)
      (set_callbackEntryCounter (d_callbackEntryCounter s + 1) s) (accept callback g)).
    + by apply RInv_accept.
    + by apply new_entry_ok.
    + done.
    + intros s1 l1 [Hb _ _ _ _ _] Hl1 J1 _ _. apply wp_ret. cbn beta iota. simpl app.
      rewrite app_nil_r. unfold accepted. simpl Error.is_error. cbn iota.
      rewrite Hl1, SocketInvariant.observe_nil. split; [by rewrite Hb|done].
  - apply wp_bind. destruct (ReceiveOptions.d_deadline options) as [deadline|].
    + apply wp_bind, wp_emit, wp_ret. cbn beta.
      eapply wp_mono; [apply (wp_wait s h g); [done|exact Ho]|].
      intros [error v] s' l I'. cbn beta iota. rewrite app_nil_r. simpl app.
      by apply (Inv_prefix s' h _ [_] l); [apply quiet_one| |].
    + apply wp_ret. cbn beta. by apply (wp_wait s h g).
Qed.

Lemma preserves_resume violatedBefore : preserves (receive_resume violatedBefore).
Proof. apply preserves_get. intros s. apply preserves_when, preserves_relaxReceive. Qed.

(** *** Removing a receiver *)

Lemma remove_cases object (l : list CallbackEntry) :
  match List.find (fun e => ReceiveCallbackQueueEntry.d_object e =? object) l with
  | Some e => exists before after, l = before ++ e :: after /\
      ReceiveCallbackQueue.remove object l = (Error.e_OK, before ++ after)
  | None => ReceiveCallbackQueue.remove object l = (Error.e_EOF, l)
  end.
Proof.
  induction l as [|x l IH]; simpl; [done|].
  destruct (_ =? object); [by exists [], l|].
  destruct (List.find _ l) as [e|].
  - destruct IH as (before & after & -> & ->). by exists (x :: before), after.
  - by rewrite IH.
Qed.

Lemma remove_token_cases token (l : list CallbackEntry) :
  (ReceiveCallbackQueue.remove_token token l = (Error.e_EOF, None, l)) \/
  (exists before e after, l = before ++ e :: after /\
     ReceiveCallbackQueue.remove_token token l = (Error.e_OK, Some e, before ++ after)).
Proof.
  induction l as [|x l IH]; simpl; [by left|].
  case_bool_decide; [right; by exists [], x, l|].
  destruct IH as [->|(before & e & after & -> & ->)]; [by left|right].
  by exists (x :: before), e, after.
Qed.

Lemma set_callbackQueue_id (s : socket) :
  set_receiveQueue (ReceiveQueue.with_callbackQueue
    (ReceiveQueue.d_callbackQueue (d_receiveQueue s)) (d_receiveQueue s)) s = s.
Proof. by destruct s as [? ? [] ? ? ? ? ?]. Qed.

(** The dispatch of an entry that was just removed, without data. *)
Lemma wp_dispatchRemoved {A} s h g before e after handle error defer (k : M A) Q :
  Inv s h g -> ReceiveQueue.d_callbackQueue (d_receiveQueue s) = before ++ e :: after ->
  (forall s' l, Inv s' (SocketInvariant.observe (base_effects l) h) (observe l g) ->
     wp k s' (fun y s'' l' => Q y s'' (l ++ l'))) ->
  wp (bind (modify (set_receiveQueue
             (ReceiveQueue.with_callbackQueue (before ++ after) (d_receiveQueue s))))
        (fun _ => bind (emit (dispatch_effects None handle error defer e)) (fun _ => k))) s Q.
Proof.
  intros [I J] Hc HQ. apply wp_bind, wp_modify, wp_bind, wp_emit. simpl app.
  destruct (RInv_remove s g before e after J Hc) as [He J'].
  apply HQ. destruct (observe_dispatch _ e None handle error defer He) as (Hb & _).
  rewrite Hb, SocketInvariant.observe_nil. split; [exact I|].
  by rewrite (observe_dispatched _ _ _ _ _ _ _ He).
Qed.

Lemma preserves_deadlineTimer object : preserves (processReceiveDeadlineTimer object).
Proof.
  intros s h g I. unfold processReceiveDeadlineTimer. apply wp_bind, wp_get. cbn beta.
  unfold ReceiveQueue.removeCallbackEntry.
  pose proof (remove_cases object (ReceiveQueue.d_callbackQueue (d_receiveQueue s))) as Hc.
  destruct (List.find _ _) as [e|].
  - destruct Hc as (before & after & Hc & ->). simpl Error.is_error.
    apply wp_bind, wp_modify. cbn beta. unfold when. simpl negb. cbn iota. apply wp_emit.
    pose proof (wp_dispatchRemoved s h g before e after None Error.e_WOULD_BLOCK false
      (ret tt) (fun _ s' l => Inv s' (SocketInvariant.observe (base_effects l) h) (observe l g)) I Hc) as Hd.
    unfold Sections.wp in Hd. simpl in Hd. rewrite !app_nil_r in Hd. apply Hd.
    intros s' l I'. by rewrite app_nil_r.
  - rewrite Hc. apply wp_bind, wp_modify, wp_ret. cbn beta. simpl app.
    apply Inv_nil. by rewrite set_callbackQueue_id.
Qed.

Lemma preserves_cancel token : preserves (cancel_receive token).
Proof.
  intros s h g I. unfold cancel_receive. apply wp_bind, wp_get. cbn beta.
  unfold ReceiveQueue.removeCallbackEntry_token.
  destruct (remove_token_cases token (ReceiveQueue.d_callbackQueue (d_receiveQueue s)))
    as [->|(before & e & after & Hc & ->)].
  - apply wp_bind, wp_modify, wp_ret. simpl app. apply Inv_nil. by rewrite set_callbackQueue_id.
  - simpl Error.is_error. cbn iota. apply (wp_dispatchRemoved s h g); [done|done|].
    intros s' l I'. apply wp_ret. by rewrite app_nil_r.
Qed.

(** *** Flow control, watermarks and shutdown *)

Lemma preserves_rateTimer : preserves processReceiveRateTimer.
Proof.
  apply preserves_bind; [apply preserves_relaxReceive|intros _].
  apply preserves_base, SocketInvariant.keeps_announce.
Qed.

Lemma preserves_setReadRateLimiter limiter :
  limiter = None \/ lim = true -> preserves (setReadRateLimiter limiter).
Proof.
  intros Hl. unfold setReadRateLimiter. apply preserves_bind.
  - apply preserves_modify; [done|]. intros s g []. split; try done. intros Hne. by destruct Hl.
  - intros _. destruct limiter; [apply preserves_ret|].
    apply preserves_bind; [apply preserves_closeReceiveRateTimer|intros _; apply preserves_relaxReceive].
Qed.

Lemma preserves_setLow low :
  0 <= low < 2 ^ 64 ->
  preserves (modify (fun s => set_receiveQueue (ReceiveQueue.setLowWatermark low (d_receiveQueue s)) s)).
Proof.
  intros Hl. apply preserves_modify; [done|]. intros s g [].
  pose proof (ReceiveQueue.wf_watermarks _ ri_queue0) as [H1 H2].
  pose proof (WatermarkUtil.sanitizeIncoming_ok low (ReceiveQueue.d_watermarkHigh (d_receiveQueue s))
    ltac:(lia) ltac:(lia)) as Hok.
  unfold ReceiveQueue.setLowWatermark. unfold WatermarkUtil.sanitizeIncomingQueueWatermarks in *.
  split; try done; simpl; [by destruct ri_queue0|]. destruct (Z.eqb_spec low 0); lia.
Qed.

Lemma preserves_setHigh high :
  0 <= high ->
  preserves (modify (fun s => set_receiveQueue (ReceiveQueue.setHighWatermark high (d_receiveQueue s)) s)).
Proof.
  intros Hl. apply preserves_modify; [done|]. intros s g [].
  pose proof (ReceiveQueue.wf_watermarks _ ri_queue0) as [H1 H2].
  pose proof (WatermarkUtil.sanitizeIncoming_ok (ReceiveQueue.d_watermarkLow (d_receiveQueue s)) high
    ltac:(lia) ltac:(lia)) as Hok.
  unfold ReceiveQueue.setHighWatermark. unfold WatermarkUtil.sanitizeIncomingQueueWatermarks in *.
  split; try done; simpl; [by destruct ri_queue0|].
  destruct (Z.eqb_spec (ReceiveQueue.d_watermarkLow (d_receiveQueue s)) 0); lia.
Qed.

Lemma preserves_relaxWhenLow : preserves relaxWhenLow.
Proof. apply preserves_get. intros s. apply preserves_when, preserves_relaxReceive. Qed.

Lemma preserves_applyWhenHigh : preserves applyWhenHigh.
Proof.
  apply preserves_get. intros s. apply preserves_when, preserves_base, SocketInvariant.keeps_apply_receive.
Qed.

Lemma preserves_setReadQueueLowWatermark low : 0 <= low < 2 ^ 64 -> preserves (setReadQueueLowWatermark low).
Proof.
  intros Hl. apply preserves_bind; [by apply preserves_setLow|intros _]. apply preserves_get. intros s.
  apply preserves_if; [apply preserves_relaxReceive|apply preserves_base, SocketInvariant.keeps_announce].
Qed.

Lemma preserves_setReadQueueHighWatermark high : 0 <= high -> preserves (setReadQueueHighWatermark high).
Proof. intros Hl. apply preserves_bind; [by apply preserves_setHigh|intros _; apply preserves_applyWhenHigh]. Qed.

Lemma preserves_setReadQueueWatermarks low high :
  0 <= low < 2 ^ 64 -> 0 <= high -> preserves (setReadQueueWatermarks low high).
Proof.
  intros Hl Hh. apply preserves_bind; [by apply preserves_setLow|intros _].
  apply preserves_bind; [by apply preserves_setHigh|intros _].
  apply preserves_bind; [apply preserves_relaxWhenLow|intros _; apply preserves_applyWhenHigh].
Qed.

Lemma preserves_applyFlowControl direction : preserves (applyFlowControl direction).
Proof.
  apply preserves_bind; [apply preserves_base, SocketInvariant.keeps_closeSendRateTimer|intros _].
  apply preserves_bind; [apply preserves_when, preserves_closeReceiveRateTimer|intros _].
  apply preserves_base, SocketInvariant.keeps_apply.
Qed.

Lemma preserves_privateShutdown direction graceful detaching :
  preserves (privateShutdown direction graceful detaching).
Proof.
  unfold privateShutdown. destruct (ShutdownType.selects direction) as [r w].
  apply preserves_bind; [|intros _; apply preserves_when, preserves_base, SocketInvariant.keeps_shutdown].
  apply preserves_when, preserves_get. intros s.
  apply preserves_when, preserves_base, SocketInvariant.keeps_shutdownReceive.
Qed.

End Invariant.
End ReceiveInvariant.
