(* ===== verification/StreamSocketWatch.v ===== *)
(** * The interest in readability on the send side

    What the sections of the send side do to the flow control of the receive
    direction: they never disable reading without locking it, and the reactor
    watches the socket for readability exactly when reading is enabled. *)

From S2P Require Import Prelude Errors Buffers Watermark SendQueue ZeroCopy SocketState.
From S2P Require Import TimeInterval RateLimiter Sections StreamSocket StreamSocketTheorems.

Module Readability.
Import Sections StreamSocket.
Section Steady.
Context {Blob : Type} `{BO : BlobOps Blob} {ST : SendTypes}.
Context `{SC : !SendContextOps} {L TI : Type} `{LO : LimiterOps L TI}.
#[local] Abbreviation socket := (StreamSocket.t (Blob := Blob) (L := L)).
#[local] Abbreviation effect := (StreamSocket.Effect (T := ST) (TI := TI)).
#[local] Abbreviation M := (StreamSocket.M (Blob := Blob) (T := ST) (L := L) (TI := TI)).

Definition canReceive (s : socket) : bool := ShutdownState.canReceive (d_shutdownState s).
Definition enabled (s : socket) : bool := FlowControlState.d_enableReceive (d_flowControlState s).
Definition locked (s : socket) : bool := FlowControlState.d_lockReceive (d_flowControlState s).
Definition closed (s : socket) : bool := FlowControlState.d_closed (d_flowControlState s).

Definition interest_of (b : bool) (e : effect) : bool :=
  match e with e_showReadable => true | e_hideReadable => false | _ => b end.
Definition interest (b : bool) (l : list effect) : bool := fold_left interest_of l b.

Lemma readable_interest_app b l k : interest b (l ++ k) = interest (interest b l) k.
Proof. apply fold_left_app. Qed.

(** Effects that do not change the interest. *)
Definition unread (l : list effect) : Prop := forall b, interest b l = b.

Lemma unread_app l k : unread l -> unread k -> unread (l ++ k).
Proof. intros Hl Hk b. by rewrite readable_interest_app, Hl, Hk. Qed.

Lemma unread_map {A} (f : A -> effect) l : (forall x, unread [f x]) -> unread (map f l).
Proof. intros Hf. induction l as [|x l IH]; [done|]. by apply (unread_app [f x]). Qed.

Lemma unread_omap {A} (f : A -> option effect) l :
  (forall x e, f x = Some e -> unread [e]) -> unread (omap f l).
Proof.
  intros Hf. induction l as [|x l IH]; [done|]. simpl. destruct (f x) as [e|] eqn:He; [|done].
  apply (unread_app [e]); [by apply (Hf x)|done].
Qed.

#[local] Abbreviation wp := (Sections.wp (S := socket) (E := effect) True).

(** What a section of the send side keeps of the receive direction while it is
    open. *)
Record steady (s s' : socket) (l : list effect) : Prop := {
  st_canReceive : canReceive s' = true -> canReceive s = true;
  st_closed : closed s' = false -> closed s = false;
  st_open : canReceive s' = true -> closed s' = false -> enabled s' = false -> locked s' = false ->
    enabled s = false /\ locked s = false;
  st_watch : canReceive s' = true -> closed s' = false -> interest (enabled s) l = enabled s'
}.

Lemma steady_same s s' l :
  d_flowControlState s' = d_flowControlState s -> d_shutdownState s' = d_shutdownState s ->
  unread l -> steady s s' l.
Proof.
  intros Hf Hs Hl.
  split; unfold canReceive, closed, enabled, locked; rewrite ?Hf, ?Hs; auto.
Qed.

Lemma steady_trans s s' s'' l l' : steady s s' l -> steady s' s'' l' -> steady s s'' (l ++ l').
Proof.
  intros [A1 A2 A3 A4] [B1 B2 B3 B4]. split; auto.
  - intros Hc Hcl He Hlk. destruct (B3 Hc Hcl He Hlk). auto.
  - intros Hc Hcl. rewrite readable_interest_app, (A4 (B1 Hc) (B2 Hcl)). auto.
Qed.

#[local] Instance steady_transition : Transition steady.
Proof. split; [by intros s; apply steady_same|apply steady_trans]. Qed.

#[local] Abbreviation steadily := (always steady).

Lemma steadily_announce a d : steadily (announce a d).
Proof.
  apply (always_get steady). intros s. apply (always_when steady).
  apply (always_emit steady). intros s'. by apply steady_same.
Qed.

(** *** Flow control *)

Lemma relax_receive dir unlock fc :
  let '(fc', context, result) := FlowControlState.relax dir unlock fc in
  FlowControlState.d_closed fc' = FlowControlState.d_closed fc /\
  (FlowControlState.d_closed fc = false ->
   FlowControlState.d_enableReceive fc'
     = result && (FlowControlState.selects dir).2 && FlowControlContext.d_enableReceive context
       || FlowControlState.d_enableReceive fc) /\
  (FlowControlState.d_closed fc = false -> FlowControlState.d_enableReceive fc' = false ->
   FlowControlState.d_lockReceive fc' = false ->
   FlowControlState.d_enableReceive fc = false /\ FlowControlState.d_lockReceive fc = false).
Proof. destruct fc as [[] [] [] [] []], dir, unlock; simpl; intuition congruence. Qed.

Lemma apply_receive dir lock fc :
  let '(fc', context, result) := FlowControlState.apply dir lock fc in
  FlowControlState.d_closed fc' = FlowControlState.d_closed fc /\
  (FlowControlState.d_closed fc = false ->
   FlowControlState.d_enableReceive fc'
     = negb (result && (FlowControlState.selects dir).2
             && negb (FlowControlContext.d_enableReceive context))
       && FlowControlState.d_enableReceive fc) /\
  (FlowControlState.d_closed fc = false -> FlowControlState.d_enableReceive fc' = false ->
   FlowControlState.d_lockReceive fc' = false ->
   (lock = true \/ (FlowControlState.selects dir).2 = false) ->
   FlowControlState.d_enableReceive fc = false /\ FlowControlState.d_lockReceive fc = false).
Proof. destruct fc as [[] [] [] [] []], dir, lock; simpl; intuition congruence. Qed.

Lemma read_announce a d (s : socket) (Q : unit -> socket -> list effect -> Prop) :
  (forall l, unread l -> Q tt s l) -> wp (announce a d) s Q.
Proof.
  intros HQ. unfold announce. apply wp_bind, wp_get. by apply wp_when; intros _; apply HQ.
Qed.

Ltac read_step :=
  lazymatch goal with
  | |- Sections.wp _ (announce _ _) _ _ => apply read_announce; intros ? ?
  | _ => section_step
  end.

Ltac read_interest :=
  intros ?b; rewrite ?readable_interest_app; repeat match goal with
    | H : unread ?l |- context [interest _ ?l] => rewrite H
    end; simpl; rewrite ?readable_interest_app; repeat match goal with
    | H : unread ?l |- context [interest _ ?l] => rewrite H
    end;
  repeat match goal with Hb : ?x = ?y |- context [?x] => rewrite Hb end;
  rewrite ?andb_true_r, ?andb_false_r; done.

Lemma read_relax dir defer unlock (s : socket) (Q : unit -> socket -> list effect -> Prop) :
  let '(fc', context, result) := FlowControlState.relax dir unlock (d_flowControlState s) in
  (forall l, (forall b, interest b l
      = (result && ((FlowControlState.selects dir).2 && FlowControlContext.d_enableReceive context
                    && canReceive s)) || b) -> Q tt (set_flowControlState fc' s) l) ->
  wp (privateRelaxFlowControl dir defer unlock) s Q.
Proof.
  destruct (FlowControlState.relax dir unlock (d_flowControlState s)) as [[fc ctx] res] eqn:Ef.
  intros HQ. unfold privateRelaxFlowControl, canReceive in *.
  destruct (FlowControlState.selects dir) as [rs rr] eqn:Es. simpl in HQ.
  apply wp_bind, wp_get. cbn beta. rewrite Ef.
  repeat (read_step; cbn beta); apply HQ; clear HQ; read_interest.
Qed.

Lemma read_apply dir defer lock (s : socket) (Q : unit -> socket -> list effect -> Prop) :
  let '(fc', context, result) := FlowControlState.apply dir lock (d_flowControlState s) in
  (forall l, (forall b, interest b l
      = negb (result && ((FlowControlState.selects dir).2
                         && negb (FlowControlContext.d_enableReceive context))) && b) ->
     Q tt (set_flowControlState fc' s) l) ->
  wp (privateApplyFlowControl dir defer lock) s Q.
Proof.
  destruct (FlowControlState.apply dir lock (d_flowControlState s)) as [[fc ctx] res] eqn:Ef.
  intros HQ. unfold privateApplyFlowControl in *.
  destruct (FlowControlState.selects dir) as [rs rr] eqn:Es. simpl in HQ.
  apply wp_bind, wp_get. cbn beta. rewrite Ef.
  repeat (read_step; cbn beta); apply HQ; clear HQ; read_interest.
Qed.

Lemma steadily_relax dir defer unlock : steadily (privateRelaxFlowControl dir defer unlock).
Proof.
  apply (always_wp steady). intros s. pose proof (relax_receive dir unlock (d_flowControlState s)) as Hf.
  pose proof (read_relax dir defer unlock s (fun _ s' l => steady s s' l)) as Hw.
  destruct (FlowControlState.relax dir unlock (d_flowControlState s)) as [[fc ctx] res].
  destruct Hf as (Hcl & Hen & Hop). apply Hw. intros l Hl.
  split; unfold canReceive, closed, enabled, locked in *; simpl in *; rewrite ?Hcl; auto.
  intros Hc Hcl'. rewrite Hl, Hc, Hen, andb_true_r by done. by rewrite andb_assoc.
Qed.

Lemma steadily_apply dir defer lock :
  lock = true \/ (FlowControlState.selects dir).2 = false ->
  steadily (privateApplyFlowControl dir defer lock).
Proof.
  intros Hlock. apply (always_wp steady). intros s. pose proof (apply_receive dir lock (d_flowControlState s)) as Hf.
  pose proof (read_apply dir defer lock s (fun _ s' l => steady s s' l)) as Hw.
  destruct (FlowControlState.apply dir lock (d_flowControlState s)) as [[fc ctx] res].
  destruct Hf as (Hcl & Hen & Hop). apply Hw. intros l Hl.
  split; unfold canReceive, closed, enabled, locked in *; simpl in *; rewrite ?Hcl; auto.
  intros Hc Hcl'. rewrite Hl, Hen by done. by rewrite andb_assoc.
Qed.

(** *** Shutting down *)

Definition steadily_from {A} (P : socket -> Prop) (m : M A) : Prop :=
  forall s x s' l, P s -> m s = Some (x, s', l) -> steady s s' l.

Lemma steadily_from_bind {A B} P (m : M A) (k : A -> M B) :
  steadily_from P m -> (forall x, steadily (k x)) -> steadily_from P (bind m k).
Proof.
  intros Hm Hk s x s' l HP (y & s1 & l1 & l2 & H1 & H2 & ->)%bind_run. apply (steady_trans _ s1); [by apply (Hm s y)|by apply (Hk y s1 x)].
Qed.

Lemma steadily_from_keeps {A} P (m : M A) : steadily m -> steadily_from P m.
Proof. intros Hm s x s' l _. apply Hm. Qed.

Lemma closeFlowControl_from detaching :
  steadily_from (fun s => canReceive s = false) (privateCloseFlowControl detaching).
Proof.
  intros s x s' l Hs Hx. pose proof (apply_receive e_BOTH true (d_flowControlState s)) as Hf.
  assert (Hw : wp (privateCloseFlowControl detaching) s (fun _ s' _ =>
    d_shutdownState s' = d_shutdownState s /\ closed s' = closed s)).
  { unfold privateCloseFlowControl. apply wp_bind, wp_get. cbn beta.
    destruct (FlowControlState.apply e_BOTH true (d_flowControlState s)) as [[fc ctx] res].
    destruct Hf as (Hcl & _). repeat (read_step; cbn beta); done. }
  unfold wp in Hw. rewrite Hx in Hw. destruct Hw as [Hsd Hcl].
  assert (Hs' : canReceive s' = false) by (unfold canReceive; by rewrite Hsd).
  by split; rewrite ?Hs', ?Hcl.
Qed.

Lemma tryShutdown_receive k origin s :
  (match ShutdownState.tryShutdownSend k s with
   | Some (s', c, b) =>
       (ShutdownState.canReceive s' = true -> ShutdownState.canReceive s = true) /\
       (ShutdownContext.d_shutdownCompleted c = true -> ShutdownState.canReceive s' = false)
   | None => True
   end) /\
  match ShutdownState.tryShutdownReceive k origin s with
  | Some (s', c, b) =>
      (ShutdownState.canReceive s' = true -> ShutdownState.canReceive s = true) /\
      (ShutdownContext.d_shutdownCompleted c = true -> ShutdownState.canReceive s' = false)
  | None => True
  end.
Proof. destruct s as [o [] [] [] []], k, origin; split; try done; vm_compute; done. Qed.

#[local] Ltac solve_unread :=
  repeat first
    [ done | apply unread_app
    | apply unread_map; intros ?
    | apply unread_omap; intros ? ? ?; repeat case_match; simplify_eq
    | case_match ].

(** One step through a section of the send side. *)
Ltac steadily_step :=
  lazymatch goal with
  | |- always _ (announce _ _) => apply steadily_announce
  | |- always _ (privateRelaxFlowControl _ _ _) => apply steadily_relax
  | |- always _ (privateApplyFlowControl _ _ _) => apply steadily_apply; first [by left|by right]
  | |- always _ (modify _) => apply (always_modify steady); intros []; by apply steady_same
  | |- always _ (emit _) => always_step; apply steady_same; [done|done|solve_unread]
  | _ => always_step
  end.
Ltac steadily_steps := repeat (steadily_step; cbn beta).

Lemma steadily_complete context : steadily (privateShutdownSequenceComplete context).
Proof. unfold privateShutdownSequenceComplete, privateShutdownSequenceComplete_system,
  privateShutdownSequenceComplete_send. steadily_steps. Qed.

Lemma shutdownSequence_from context detaching :
  steadily_from (fun s => ShutdownContext.d_shutdownCompleted context = true -> canReceive s = false)
    (privateShutdownSequence context detaching).
Proof.
  unfold privateShutdownSequence. apply steadily_from_bind.
  - destruct (ShutdownContext.d_shutdownCompleted context).
    + intros s x s' l Hs. apply closeFlowControl_from. by apply Hs.
    + apply steadily_from_keeps. steadily_steps.
  - intros b. apply (always_when steady), steadily_complete.
Qed.

Lemma steadily_sequence (s : socket) state context detaching b x s' l :
  (ShutdownState.canReceive state = true -> canReceive s = true) ->
  (ShutdownContext.d_shutdownCompleted context = true -> ShutdownState.canReceive state = false) ->
  bind (modify (set_shutdownState state)) (fun _ =>
    when b (privateShutdownSequence context detaching)) s = Some (x, s', l) ->
  steady s s' l.
Proof.
  intros Hmono Hcomp (y & s1 & l1 & l2 & [= <- <- <-] & H2 & ->)%bind_run.
  apply (steady_trans _ (set_shutdownState state s) _ [] l2).
  - split; unfold canReceive in *; simpl; auto.
  - unfold when in H2. destruct b; [|by injection H2 as <- <- <-; apply steady_same].
    by apply (shutdownSequence_from context detaching _ x s' l2).
Qed.

Lemma steadily_shutdownSend detaching : steadily (privateShutdownSend detaching).
Proof.
  apply (always_read steady). intros s x s' l Hx. apply bind_run in Hx as (y & s1 & l1 & l2 & Hl & Hx & ->).
  destruct (tryShutdown_receive (keepHalfOpen s) e_SOURCE (d_shutdownState s)) as [Hf _].
  unfold lift in Hl.
  destruct (ShutdownState.tryShutdownSend (keepHalfOpen s) (d_shutdownState s)) as [[[state c] b]|];
    [|done]. destruct Hf. injection Hl as <- <- <-. by apply (steadily_sequence s state c detaching b x).
Qed.

Lemma steadily_shutdownReceive origin detaching : steadily (privateShutdownReceive origin detaching).
Proof.
  apply (always_read steady). intros s x s' l Hx. apply bind_run in Hx as (y & s1 & l1 & l2 & Hl & Hx & ->).
  destruct (tryShutdown_receive (keepHalfOpen s) origin (d_shutdownState s)) as [_ Hf].
  unfold lift in Hl.
  destruct (ShutdownState.tryShutdownReceive (keepHalfOpen s) origin (d_shutdownState s)) as [[[state c] b]|];
    [|done]. destruct Hf. injection Hl as <- <- <-. by apply (steadily_sequence s state c detaching b x).
Qed.

(** *** The sections of the send side *)

Context (maxBuffersPerSend : Z).

Lemma steadily_throttle_begin env : steadily (privateThrottleSendBuffer_begin env).
Proof. unfold privateThrottleSendBuffer_begin. steadily_steps. Qed.

Lemma steadily_throttle_end env time : steadily (privateThrottleSendBuffer_end env time).
Proof. unfold privateThrottleSendBuffer_end. steadily_steps. Qed.

Lemma steadily_enqueue env data handle : steadily (privateEnqueueSendBuffer env data handle).
Proof.
  unfold privateEnqueueSendBuffer, privateThrottleSendBuffer, refreshSendOptions. steadily_steps.
  - apply steadily_throttle_begin.
  - apply steadily_throttle_end.
Qed.

Lemma steadily_finishSendRaw entryCallback data error written counter timestamp options setting callback :
  steadily (finishSendRaw entryCallback data error written counter timestamp options setting callback).
Proof. unfold finishSendRaw, completeDirectly, enqueueRemainder. steadily_steps. Qed.

Lemma steadily_send {D} raw (env : Env (TI := TI)) (data : D) timestamp options callback :
  (forall counter context, steadily (raw env data counter timestamp options context callback)) ->
  steadily (send raw env data timestamp options callback).
Proof. intros Hraw. unfold send. steadily_steps; apply Hraw. Qed.

Lemma steadily_sendRaw entryCallback env data counter timestamp options setting callback :
  steadily (privateSendRaw_with entryCallback env data counter timestamp options setting callback).
Proof.
  unfold privateSendRaw_with, writeDirectly. steadily_steps.
  - apply steadily_enqueue.
  - apply steadily_finishSendRaw.
Qed.

Lemma steadily_entryWritten written : steadily (entryWritten written).
Proof. unfold entryWritten. steadily_steps. Qed.

Lemma steadily_entryComplete entry : steadily (entryComplete entry).
Proof. unfold entryComplete. steadily_steps. Qed.

Lemma steadily_entryPartial n : steadily (entryPartial n).
Proof. unfold entryPartial. steadily_steps. Qed.

Lemma steadily_batchLoop fuel written n callbackVector :
  steadily (batchLoop fuel written n callbackVector).
Proof.
  revert n callbackVector. induction fuel as [|fuel IH]; intros n callbackVector; simpl;
    steadily_steps; auto using steadily_entryWritten, steadily_entryComplete, steadily_entryPartial.
Qed.

Lemma steadily_dispatchComplete callbackVector : steadily (dispatchComplete callbackVector).
Proof. unfold dispatchComplete. steadily_steps. Qed.

Lemma steadily_iteration env detaching :
  steadily (privateSocketWritableIteration maxBuffersPerSend env detaching).
Proof.
  unfold privateSocketWritableIteration, privateSocketWritableIterationBatch,
    privateSocketWritableIterationFront.
  steadily_steps; auto using steadily_enqueue, steadily_batchLoop, steadily_dispatchComplete,
    steadily_entryWritten, steadily_entryComplete, steadily_entryPartial, steadily_shutdownSend.
Qed.

Lemma steadily_shutdown_send graceful detaching : steadily (privateShutdown_send graceful detaching).
Proof. unfold privateShutdown_send. steadily_steps; apply steadily_shutdownSend. Qed.

Lemma steadily_close :
  steadily (bind get (fun s =>
    modify (set_flowControlState (FlowControlState.close (d_flowControlState s))))).
Proof. apply (always_read steady). intros s x s' l [= <- <- <-]. by split. Qed.

Lemma steadily_fail_close error detaching : steadily (privateFail_close error detaching).
Proof.
  assert (Hk : steadily (if connectionLost error
    then bind (privateShutdownReceive e_REMOTE detaching) (fun _ => privateShutdownSend detaching)
    else announce TransportError false)).
  { steadily_steps; auto using steadily_shutdownSend, steadily_shutdownReceive. }
  unfold privateFail_close. apply (always_read steady). intros s x s' l Hx.
  apply bind_run in Hx as (y & s1 & l1 & l2 & H1 & H2 & ->).
  apply (steady_trans _ s1); [|by apply (Hk s1 x)].
  apply (steadily_close s y). unfold bind, get. cbn [mbind option_bind]. by rewrite H1.
Qed.

Lemma steadily_fail_shutdown error detaching : steadily (privateFail_shutdown error detaching).
Proof.
  unfold privateFail_shutdown.
  steadily_steps; auto using steadily_shutdownReceive, steadily_shutdown_send.
Qed.

Lemma steadily_removed error defer r : steadily (removed error defer r).
Proof. destruct r as [[[[q callback] context] timers] empty]. unfold removed. steadily_steps. Qed.

Lemma steadily_afterCallbacks : steadily (afterCallbacks (Blob := Blob) (T := ST)).
Proof. unfold afterCallbacks. steadily_steps. Qed.

Lemma steadily_runTail tail : steadily (runTail (Blob := Blob) (T := ST) tail).
Proof. unfold runTail, afterIteration. steadily_steps; apply steadily_afterCallbacks. Qed.

Lemma steadily_announceWatermarks low high :
  steadily (announceWatermarks (Blob := Blob) (T := ST) low high).
Proof. unfold announceWatermarks. steadily_steps; apply steadily_afterCallbacks. Qed.

Lemma steadily_closeSendRateTimer direction :
  steadily (closeSendRateTimer (Blob := Blob) (T := ST) direction).
Proof. unfold closeSendRateTimer. steadily_steps. Qed.

Create HintDb steady.
Hint Resolve steadily_throttle_begin steadily_throttle_end steadily_finishSendRaw steadily_sendRaw
  steadily_iteration steadily_runTail steadily_shutdown_send steadily_shutdownReceive steadily_shutdownSend
  steadily_complete steadily_fail_close steadily_fail_shutdown steadily_removed steadily_announceWatermarks
  steadily_closeSendRateTimer
  : steady.

(** Every section of the send side is steady. *)
Lemma steadily_exec o : steadily (SocketSystem.exec maxBuffersPerSend o).
Proof.
  destruct o; simpl;
    unfold SocketSystem.quietly, send_blob, send_data, privateSendRaw_blob, privateSendRaw_data,
      privateRearmAfterSend, privateFail_flowControl, privateZeroCopyUpdate, zeroCopyPop,
      processSendRateTimer, processSendDeadlineTimer, cancel, relaxFlowControl, applyFlowControl,
      setWriteRateLimiter, setWriteQueueLowWatermark,
      setWriteQueueHighWatermark, setWriteQueueWatermarks;
    try (apply steadily_send; intros counter context; cbv beta; solve [auto with steady]);
    repeat (first [solve [auto with steady]|steadily_step]; cbn beta).
Qed.
End Steady.
End Readability.
