(* ===== verification/StreamSocketSystem.v ===== *)
(** * The stream socket as a system of sections

    The sections of both sides of a stream socket interleave in any order, but
    for those of a readable event, which the reactor runs one event at a time
    ([Reader]). The invariants of both sides hold in every state they reach. *)

From Stdlib Require Import Strings.Byte.
From S2P Require Import Prelude Errors Buffers Watermark SendQueue ReceiveQueue SocketState.
From S2P Require Import RateLimiter Sections StreamSocket StreamSocketLogic StreamSocketFacts.
From S2P Require Import StreamSocketTheorems BlobBuffers StreamSocketReceive.
From S2P Require Import StreamSocketReceiveFacts StreamSocketWatch.

Module DuplexSystem.
Import Sections StreamSocketReceive ReceiveInvariant.
Section System.
Context {Blob : Type} `{BO : BlobOps Blob} `{BL : !BlobLaws Blob} {ST : SendTypes}.
Context `{SC : !SendContextOps} {L TI : Type} `{LO : LimiterOps L TI}.
Context {RT : ReceiveTypes} `{RO : ReadBlobOps ReceiveBlob} `{RL : !ReadBlobLaws ReceiveBlob}.
Context (maxBuffersPerSend bufferSize : Z).
(** Whether the socket may have rate limiters, and whether it may read other
    than it does by default: more than once per event, with an edge trigger, on
    a one-shot reactor, or up to a high watermark that is set later. *)
Context (lim tuned : bool).
Context (config : StreamSocket.Config).
#[local] Abbreviation socket := (StreamSocketReceive.t (Blob := Blob) (L := L)).
#[local] Abbreviation effects := (list (StreamSocketReceive.Effect (ST := ST) (TI := TI))).
#[local] Abbreviation M := (StreamSocketReceive.M (Blob := Blob) (ST := ST) (L := L) (TI := TI)).
#[local] Abbreviation BaseM := (StreamSocket.M (Blob := Blob) (T := ST) (L := L) (TI := TI)).
#[local] Abbreviation SendOp := (SocketSystem.op (Blob := Blob) (T := ST) (L := L) (TI := TI)).
#[local] Abbreviation SendGhost := SocketInvariant.Ghost.

(** ** The steps *)

(** Where the reactor is in [processSocketReadable]. *)
Inductive Reader : Type :=
| r_idle
| r_reading                                       (** about to iterate *)
| r_throttled (now timeToSubmit : TI)             (** the read is throttled *)
| r_popping                                       (** in the loop over the receivers *)
| r_low | r_high                                  (** before the watermark events *)
| r_done (authorized : bool).                     (** before the last announcement *)

Inductive op : Type :=
| op_send (o : SendOp)                            (** a section of the send side *)
| op_event                                        (** the reactor finds the socket readable *)
| op_read (env : ReadEnv (TI := TI))
| op_throttled (now timeToSubmit : TI)
| op_pop | op_low | op_high | op_done (authorized : bool)
| op_rearm
| op_receive (data : ReceiveBlob) (options : ReceiveOptions.t)
| op_receive_callback (options : ReceiveOptions.t) (callback : ReceiveCallback)
    (timer : ReceiveTimer)
| op_receive_resume (violatedBefore : bool)
| op_receiveDeadlineTimer (object : Z)
| op_cancel_receive (token : Z)
| op_receiveRateTimer
| op_setReadRateLimiter (limiter : option L)
| op_setReadQueueLowWatermark (low : Z)
| op_setReadQueueHighWatermark (high : Z)
| op_setReadQueueWatermarks (low high : Z)
| op_applyFlowControl (direction : FlowControlType)
| op_shutdown (direction : ShutdownType.t) (graceful detaching : bool).

(** What a section answers. *)
Inductive Answer : Type :=
| a_error (error : Error.t)
| a_reading (reading : Reading (TI := TI))
| a_more (more : bool)
| a_blob (error : Error.t) (data : ReceiveBlob)
| a_callback (error : Error.t) (violatedBefore : option bool).

Definition answer {A} (f : A -> Answer) (m : M A) : M Answer := bind m (fun x => ret (f x)).
Definition quietly (m : M unit) : M Answer := answer (fun _ => a_error Error.e_OK) m.

Definition exec (o : op) : M Answer :=
  match o with
  | op_send o => answer a_error (base (SocketSystem.exec maxBuffersPerSend o))
  | op_event => ret (a_error Error.e_OK)
  | op_read env => answer a_reading (privateSocketReadableIteration_read bufferSize env)
  | op_throttled now time => answer a_error (privateThrottleReceiveBuffer_end now time)
  | op_pop => answer a_more privateSocketReadableIteration_pop
  | op_low => quietly privateSocketReadableIteration_low
  | op_high => answer a_more privateSocketReadableIteration_high
  | op_done authorized =>
      quietly (when authorized (base (StreamSocket.announce StreamSocket.ReadQueueHighWatermark false)))
  | op_rearm => quietly privateRearmAfterReceive
  | op_receive data options =>
      answer (fun '(error, data, _) => a_blob error data) (receive_blob data options)
  | op_receive_callback options callback timer =>
      answer (fun '(error, violated) => a_callback error violated)
        (receive_callback options callback timer)
  | op_receive_resume violatedBefore => quietly (receive_resume violatedBefore)
  | op_receiveDeadlineTimer object => quietly (processReceiveDeadlineTimer object)
  | op_cancel_receive token => answer a_error (cancel_receive token)
  | op_receiveRateTimer => quietly processReceiveRateTimer
  | op_setReadRateLimiter limiter => quietly (setReadRateLimiter limiter)
  | op_setReadQueueLowWatermark low => quietly (setReadQueueLowWatermark low)
  | op_setReadQueueHighWatermark high => quietly (setReadQueueHighWatermark high)
  | op_setReadQueueWatermarks low high => quietly (setReadQueueWatermarks low high)
  | op_applyFlowControl direction => quietly (applyFlowControl direction)
  | op_shutdown direction graceful detaching =>
      quietly (privateShutdown direction graceful detaching)
  end.

Definition canReceive (s : socket) : bool := Readability.canReceive (d_base s).

(** Where the reactor is after a section. *)
Definition next_reader (o : op) (a : Answer) (s' : socket) (reader : Reader) : Reader :=
  match o, a with
  | op_event, _ => if canReceive s' then r_reading else r_idle
  | op_read _, a_reading Filled => r_popping
  | op_read env, a_reading (Throttled time) => r_throttled (r_now env) time
  | op_read _, _ | op_throttled _ _, _ => r_idle
  | op_pop, a_more more => if more then r_popping else r_low
  | op_low, _ => r_high
  | op_high, a_more authorized => r_done authorized
  | op_done _, _ => if d_receiveGreedily s' && canReceive s' then r_reading else r_idle
  | _, _ => reader
  end.

(** The threads that served a receiver and are in its callback, each with
    whether the high watermark was violated before. *)
Fixpoint remove_one (b : bool) (l : list bool) : list bool :=
  match l with
  | [] => []
  | c :: l => if Bool.eqb b c then l else c :: remove_one b l
  end.

Definition next_resuming (o : op) (a : Answer) (resuming : list bool) : list bool :=
  match o, a with
  | op_receive_callback _ _ _, a_callback _ (Some violated) => violated :: resuming
  | op_receive_resume violated, _ => remove_one violated resuming
  | _, _ => resuming
  end.

(** What an observer learns of the two sides from an answer. *)
Definition after_send (o : op) (s : socket) (a : Answer) (h : SendGhost) : SendGhost :=
  match o, a with
  | op_send o, a_error error => SocketSystem.after config o (d_base s) error h
  | _, _ => h
  end.

Definition after_receive (o : op) (a : Answer) (g : Ghost) : Ghost :=
  match o, a with
  | op_receive data _, a_blob _ data' =>
      deliver (drop (length (rb_bytes data)) (rb_bytes data')) [] g
  | op_receive_callback _ callback _, a_callback error _ => accepted error callback g
  | _, _ => g
  end.

(** What is assumed of the environment of a section. *)
Definition enabled (s : socket) (reader : Reader) (resuming : list bool) (h : SendGhost)
    (g : Ghost) (o : op) : Prop :=
  match o with
  | op_send o => SocketSystem.enabled lim config (d_base s) h o
  | op_event => reader = r_idle /\ g_watching g = true
  | op_read env => reader = r_reading /\ read_env_ok s env
  | op_throttled now time => reader = r_throttled now time
  | op_pop => reader = r_popping
  | op_low => reader = r_low
  | op_high => reader = r_high
  | op_done authorized => reader = r_done authorized
  | op_receive _ options | op_receive_callback options _ _ => ReceiveOptions.ok options
  | op_receive_resume violated => In violated resuming
  | op_setReadRateLimiter limiter => limiter = None \/ lim = true
  | op_setReadQueueLowWatermark low => 0 <= low < 2 ^ 64
  | op_setReadQueueHighWatermark high => tuned = true /\ 0 <= high
  | op_setReadQueueWatermarks low high => tuned = true /\ 0 <= low < 2 ^ 64 /\ 0 <= high
  | _ => True
  end.

(** A socket that was just connected. *)
Record fresh (s : socket) : Prop := {
  fr_base : SocketSystem.fresh lim config (d_base s);
  fr_queue : ReceiveQueue.wf (d_receiveQueue s);
  fr_low : ReceiveQueue.d_watermarkLow (d_receiveQueue s) < 2 ^ 64;
  fr_data : stored (d_receiveQueue s) [];
  fr_callbacks : ReceiveQueue.d_callbackQueue (d_receiveQueue s) = [];
  fr_feedback : feedback_ok (d_receiveFeedback s);
  fr_receiveLimiter : lim = false -> d_receiveRateLimiter s = None;
  fr_untuned : tuned = false ->
    ReceiveQueue.d_trigger (d_receiveQueue s) = e_LEVEL /\ d_receiveGreedily s = false /\
    StreamSocket.d_oneShot config = false /\ Readability.enabled (d_base s) = true
}.

Definition initially (s : socket) : Ghost :=
  mkGhost [] [] [] [] (Readability.enabled (d_base s)).

Inductive reachable : socket -> Reader -> list bool -> SendGhost -> Ghost -> Prop :=
| reachable_fresh s :
    fresh s -> reachable s r_idle [] (SocketSystem.initially (d_base s)) (initially s)
| reachable_step s reader resuming h g o a s' l :
    reachable s reader resuming h g -> enabled s reader resuming h g o ->
    exec o s = Some (a, s', l) ->
    reachable s' (next_reader o a s' reader) (next_resuming o a resuming)
      (SocketInvariant.observe (base_effects l) (after_send o s a h))
      (observe l (after_receive o a g)).

(** ** The invariants of both sides *)

#[local] Abbreviation Inv := (ReceiveInvariant.Inv lim config).
#[local] Abbreviation preserves := (ReceiveInvariant.preserves (ST := ST) (TI := TI) lim config).
#[local] Abbreviation wp :=
  (Sections.wp (S := socket) (E := Effect (ST := ST) (TI := TI)) (lim = true)).

Lemma duplex_fresh s : fresh s -> Inv s (SocketSystem.initially (d_base s)) (initially s).
Proof.
  intros [Hb Hq Hl Hd Hc Hf Hlim _]. split; [by apply SocketSystem.fresh_Inv|].
  split; try done; rewrite ?Hc; try done.
  - by exists [].
  - unfold waiting. by rewrite Hc.
  - constructor.
  - intros Hne. destruct lim; [done|]. by rewrite Hlim in Hne.
Qed.

Lemma wp_answer {A} (f : A -> Answer) (m : M A) (s : socket)
    (Q : Answer -> socket -> effects -> Prop) :
  wp m s (fun x s' l => Q (f x) s' l) -> wp (answer f m) s Q.
Proof.
  intros Hm. apply wp_bind. eapply wp_mono; [exact Hm|]. cbn beta. intros x s' l HQ.
  apply wp_ret. by rewrite app_nil_r.
Qed.

Hypothesis (bufferSize_ok : 0 < bufferSize < 2 ^ 62).

Lemma wp_duplex o s reader resuming h g :
  Inv s h g -> enabled s reader resuming h g o ->
  wp (exec o) s (fun a s' l =>
    Inv s' (SocketInvariant.observe (base_effects l) (after_send o s a h))
      (observe l (after_receive o a g))).
Proof.
  intros I E. destruct o; unfold exec, quietly; try (apply wp_answer; simpl in *).
  - apply (wp_base lim config (SocketSystem.exec maxBuffersPerSend o) s h g
      (fun error h => SocketSystem.after config o (d_base s) error h)); [done| |done].
    by apply SocketSystem.wp_exec; [apply I|].
  - by apply wp_ret, Inv_nil.
  - by apply preserves_read; [|done|apply E].
  - by apply preserves_throttle_end.
  - by apply preserves_pop.
  - by apply preserves_low.
  - by apply preserves_high.
  - eapply (wp_preserves lim config _ s h g);
      [apply preserves_when, preserves_base, SocketInvariant.keeps_announce|done|done].
  - by apply preserves_rearm.
  - eapply wp_mono; [by apply (wp_receive_blob lim config data options s h g)|].
    intros [[error data'] handle] s' l (b & Hb & I'). simpl. by rewrite Hb, drop_app_length.
  - eapply wp_mono; [by apply (wp_receive_callback lim config options callback timer s h g)|].
    by intros [error violated] s' l I'.
  - by apply preserves_resume.
  - by apply preserves_deadlineTimer.
  - by apply preserves_cancel.
  - by apply preserves_rateTimer.
  - by apply preserves_setReadRateLimiter.
  - by apply preserves_setReadQueueLowWatermark.
  - destruct E as [_ E]. by apply preserves_setReadQueueHighWatermark.
  - destruct E as (_ & El & Eh). by apply preserves_setReadQueueWatermarks.
  - by apply preserves_applyFlowControl.
  - by apply preserves_privateShutdown.
Qed.

Lemma reachable_duplex s reader resuming h g : reachable s reader resuming h g -> Inv s h g.
Proof.
  induction 1 as [s Hf|s reader resuming h g o a s' l _ IH E Hx]; [by apply duplex_fresh|].
  pose proof (wp_duplex o s reader resuming h g IH E) as Hw. unfold Sections.wp in Hw.
  by rewrite Hx in Hw.
Qed.

End System.
End DuplexSystem.
