(* ===== verification/StreamSocketLiveness.v ===== *)
(** * Reading goes on

    On a socket with the default options (it reads once per event, its read
    queue has a level trigger and its reactor is not one-shot), reading that is
    neither locked nor over is only disabled above the high watermark, and is
    enabled again by whoever takes the queue below it. *)

From Stdlib Require Import Strings.Byte.
From S2P Require Import Prelude Errors Buffers Watermark SendQueue ReceiveQueue SocketState.
From S2P Require Import RateLimiter Sections StreamSocket StreamSocketLogic StreamSocketFacts.
From S2P Require Import StreamSocketTheorems BlobBuffers StreamSocketReceive.
From S2P Require Import StreamSocketReceiveFacts StreamSocketWatch StreamSocketSystem.

Module DuplexLiveness.
Import Sections StreamSocketReceive ReceiveInvariant DuplexSystem.
Section Liveness.
Context {Blob : Type} `{BO : BlobOps Blob} {ST : SendTypes}.
Context `{SC : !SendContextOps} {L TI : Type} `{LO : LimiterOps L TI}.
Context {RT : ReceiveTypes} `{RO : ReadBlobOps ReceiveBlob}.
Context (maxBuffersPerSend bufferSize : Z) (lim tuned : bool) (config : StreamSocket.Config).
#[local] Abbreviation socket := (StreamSocketReceive.t (Blob := Blob) (L := L)).
#[local] Abbreviation effects := (list (StreamSocketReceive.Effect (ST := ST) (TI := TI))).
#[local] Abbreviation M := (StreamSocketReceive.M (Blob := Blob) (ST := ST) (L := L) (TI := TI)).
#[local] Abbreviation base_list := (list (StreamSocket.Effect (T := ST) (TI := TI))).
#[local] Abbreviation BaseM := (StreamSocket.M (Blob := Blob) (T := ST) (L := L) (TI := TI)).

Lemma interest_base b (l : effects) : interest b l = Readability.interest b (base_effects l).
Proof.
  revert b. induction l as [|e l IH]; intros b; [done|]. unfold interest in *. simpl.
  rewrite IH. unfold base_effects. simpl. by destruct e.
Qed.

(** ** What the sections keep *)

(** The base is steady, and what the trigger and the loop do is fixed. *)
Record light (s s' : socket) (l : effects) : Prop := {
  lt_base : Readability.steady (d_base s) (d_base s') (base_effects l);
  lt_trigger : ReceiveQueue.d_trigger (d_receiveQueue s') = ReceiveQueue.d_trigger (d_receiveQueue s);
  lt_greedily : d_receiveGreedily s' = d_receiveGreedily s
}.

(** Moreover the queue is neither filled nor drained, and its high watermark
    stays. *)
Record still (s s' : socket) : Prop := {
  sl_size : ReceiveQueue.d_size (d_receiveQueue s') = ReceiveQueue.d_size (d_receiveQueue s);
  sl_high : ReceiveQueue.d_watermarkHigh (d_receiveQueue s')
            = ReceiveQueue.d_watermarkHigh (d_receiveQueue s);
  sl_data : ReceiveQueue.d_queueData (d_receiveQueue s')
            = ReceiveQueue.d_queueData (d_receiveQueue s)
}.

Definition calm (s s' : socket) (l : effects) : Prop := light s s' l /\ still s s'.

Lemma light_same s s' l :
  d_base s' = d_base s -> base_effects l = [] ->
  ReceiveQueue.d_trigger (d_receiveQueue s') = ReceiveQueue.d_trigger (d_receiveQueue s) ->
  d_receiveGreedily s' = d_receiveGreedily s -> light s s' l.
Proof. intros Hb Hl Ht Hg. split; [|done..]. rewrite Hb, Hl. by apply Readability.steady_same. Qed.

Lemma light_trans s s' s'' l k : light s s' l -> light s' s'' k -> light s s'' (l ++ k).
Proof.
  intros [] []. split; [|congruence..]. rewrite base_effects_app.
  by apply (Readability.steady_trans _ (d_base s')).
Qed.

Lemma still_refl s : still s s.
Proof. by split. Qed.

Lemma still_trans s s' s'' : still s s' -> still s' s'' -> still s s''.
Proof. intros [] []. split; congruence. Qed.

#[local] Instance light_transition : Transition light.
Proof. split; [intros s; by apply light_same|apply light_trans]. Qed.

#[local] Instance calm_transition : Transition calm.
Proof.
  split; [intros s; split; [by apply light_same|apply still_refl]|].
  intros s s' s'' l k [] []. split; [by eapply light_trans|by eapply still_trans].
Qed.

Lemma calm_light {A} (m : M A) : always calm m -> always light m.
Proof. intros Hm s x s' l Hx. by apply (Hm s x s' l). Qed.

Lemma base_effects_map {A} (f : A -> StreamSocketReceive.Effect (ST := ST) (TI := TI)) l :
  (forall x, base_of (f x) = []) -> base_effects (map f l) = [].
Proof.
  intros Hf. unfold base_effects. rewrite map_map.
  induction l as [|x l IH]; [done|]. simpl. by rewrite Hf.
Qed.

Lemma dispatch_base (data : option ReceiveBlob) handle error defer e :
  base_effects (dispatch_effects (ST := ST) (TI := TI) data handle error defer e) = [].
Proof.
  unfold dispatch_effects. destruct (ReceiveCallbackQueueEntry.dispatch e) as [[? closed] invoked].
  by rewrite base_effects_app, !base_effects_map.
Qed.

Lemma dispatches_base (data : option ReceiveBlob) handle error defer l :
  base_effects (concat (map (dispatch_effects (ST := ST) (TI := TI) data handle error defer) l)) = [].
Proof.
  induction l as [|e l IH]; [done|]. simpl. by rewrite base_effects_app, dispatch_base.
Qed.

Lemma calm_same s s' l :
  d_base s' = d_base s -> base_effects l = [] ->
  ReceiveQueue.d_trigger (d_receiveQueue s') = ReceiveQueue.d_trigger (d_receiveQueue s) ->
  d_receiveGreedily s' = d_receiveGreedily s -> still s s' -> calm s s' l.
Proof. intros. split; [by apply light_same|done]. Qed.

(** *** The sections of the send side, and shutting down *)

Lemma calm_closeRateTimer : always calm closeReceiveRateTimer.
Proof.
  unfold closeReceiveRateTimer. repeat always_step; by apply calm_same.
Qed.

Lemma shutdownReceive_run (s : socket) x s' l :
  privateShutdownSequenceComplete_receive s = Some (x, s', l) ->
  calm s s' l /\ d_base s' = d_base s /\ base_effects l = [].
Proof.
  intros (y & s1 & l1 & l2 & H1 & H2 & ->)%bind_run. pose proof (calm_closeRateTimer _ _ _ _ H1) as C1.
  assert (E1 : d_base s1 = d_base s /\ base_effects l1 = []).
  { unfold closeReceiveRateTimer, bind, get in H1. simpl in H1. unfold when in H1.
    destruct (d_receiveRateTimer s); simpl in H1; by injection H1 as <- <- <-. }
  destruct E1 as [E1 E2]. injection H2 as <- <- <-.
  rewrite !base_effects_app, E2, dispatches_base. split; [|done].
  apply (transition_trans _ s1); [done|]. apply calm_same; rewrite ?dispatches_base; by try split.
Qed.

Lemma interpret_run (l : base_list) (s : socket) x s' k :
  interpret l s = Some (x, s', k) ->
  still s s' /\ d_base s' = d_base s /\
  ReceiveQueue.d_trigger (d_receiveQueue s') = ReceiveQueue.d_trigger (d_receiveQueue s) /\
  d_receiveGreedily s' = d_receiveGreedily s /\
  forall b, Readability.interest b (base_effects k) = Readability.interest b l.
Proof.
  revert s s' k. induction l as [|e l IH]; intros s s' k Hx; simpl in Hx.
  { injection Hx as <- <- <-. by split_and!; [apply still_refl|..]. }
  apply bind_run in Hx as (y & s1 & k1 & k2 & H1 & H2 & ->).
  destruct (IH s1 s' k2 H2) as (S2 & B2 & T2 & G2 & I2).
  assert (Hend : still s s1 /\ d_base s1 = d_base s /\
    ReceiveQueue.d_trigger (d_receiveQueue s1) = ReceiveQueue.d_trigger (d_receiveQueue s) /\
    d_receiveGreedily s1 = d_receiveGreedily s /\
    forall b, Readability.interest b (base_effects k1) = Readability.interest_of b e).
  { assert (He : e = StreamSocket.e_shutdownReceive \/
      interpret_effect e = emit (S := socket) [e_base e]) by (destruct e; auto).
    destruct He as [->|He].
    - apply shutdownReceive_run in H1 as ([[] ?] & ? & ->). by split_and!.
    - rewrite He in H1. injection H1 as <- <- <-. by split_and!; [apply still_refl|..]. }
  destruct Hend as (S1 & B1 & T1 & G1 & I1).
  split_and!; [by eapply still_trans|congruence..|]. intros b.
  by rewrite base_effects_app, Readability.readable_interest_app, I1, I2.
Qed.

(** A section of the send side, lifted. *)
Lemma base_run {A} (m : BaseM A) (s : socket) x s' l :
  base m s = Some (x, s', l) -> exists b k,
    m (d_base s) = Some (x, b, k) /\ d_base s' = b /\ still s s' /\
    ReceiveQueue.d_trigger (d_receiveQueue s') = ReceiveQueue.d_trigger (d_receiveQueue s) /\
    d_receiveGreedily s' = d_receiveGreedily s /\
    forall i, Readability.interest i (base_effects l) = Readability.interest i k.
Proof.
  unfold base. intros Hx. apply bind_Some in Hx as ([[y b] k] & Hm & Hx).
  apply bind_Some in Hx as ([[u s1] k1] & Hi & Hx). injection Hx as -> -> ->.
  destruct (interpret_run k (set_base b s) u s' l Hi) as ([] & Hb & Ht & Hg & Hr).
  exists b, k. by split_and!.
Qed.

Lemma calm_base {A} (m : BaseM A) : always Readability.steady m -> always calm (base m).
Proof.
  intros Hm s x s' l Hx. apply base_run in Hx as (b & k & Hb & <- & Hs & Ht & Hg & Hi).
  split; [|done]. split; [|done..]. destruct (Hm _ _ _ _ Hb) as [H1 H2 H3 H4].
  split; auto. intros Hc Hcl. by rewrite Hi, H4.
Qed.

Lemma read_apply_watch defer lock (b : StreamSocket.t (Blob := Blob) (L := L)) x b' l :
  StreamSocket.privateApplyFlowControl (T := ST) (TI := TI) e_RECEIVE defer lock b = Some (x, b', l) ->
  Readability.canReceive b' = Readability.canReceive b /\
  Readability.closed b' = Readability.closed b /\
  (Readability.closed b = false -> Readability.interest (Readability.enabled b) l = Readability.enabled b').
Proof.
  intros Hx. pose proof (Readability.apply_receive e_RECEIVE lock (StreamSocket.d_flowControlState b)) as Hf.
  pose proof (Readability.read_apply e_RECEIVE defer lock b (fun _ b' (l : base_list) =>
    Readability.canReceive b' = Readability.canReceive b /\
    Readability.closed b' = Readability.closed b /\
    (Readability.closed b = false ->
     Readability.interest (Readability.enabled b) l = Readability.enabled b'))) as Hw.
  destruct (FlowControlState.apply e_RECEIVE lock (StreamSocket.d_flowControlState b)) as [[fc ctx] res].
  destruct Hf as (Hcl & Hen & _). refine (wp_run True _ b _ x b' l (Hw _) Hx). intros k Hk.
  unfold Readability.canReceive, Readability.closed, Readability.enabled in *. simpl.
  split_and!; [done|done|]. intros Hclosed. rewrite Hk, Hen by done. by rewrite andb_assoc.
Qed.

(** Relaxing flow control opens the receive direction, unless it is locked. *)
Lemma relax_enables defer unlock (b : StreamSocket.t (Blob := Blob) (L := L)) x b' l :
  StreamSocket.privateRelaxFlowControl (T := ST) (TI := TI) e_RECEIVE defer unlock b = Some (x, b', l) ->
  Readability.closed b' = false -> Readability.enabled b' = true \/ Readability.locked b' = true.
Proof.
  intros Hx. pose proof (Readability.read_relax e_RECEIVE defer unlock b (fun _ b' (_ : base_list) =>
    Readability.closed b' = false -> Readability.enabled b' = true \/ Readability.locked b' = true)) as Hw.
  destruct (FlowControlState.relax e_RECEIVE unlock (StreamSocket.d_flowControlState b))
    as [[fc ctx] res] eqn:Ef.
  refine (wp_run True _ b _ x b' l (Hw _) Hx). intros k _ Hcl.
  unfold Readability.closed, Readability.enabled, Readability.locked in *. simpl in *.
  destruct (StreamSocket.d_flowControlState b) as [[] [] [] [] []], unlock; simpl in Ef;
    injection Ef as <- <- <-; simpl in *; auto.
Qed.

(** ** Where reading is disabled *)

Definition closed (s : socket) : bool := Readability.closed (d_base s).
Definition locked (s : socket) : bool := Readability.locked (d_base s).
Definition reading (s : socket) : bool := Readability.enabled (d_base s).
Definition violated (s : socket) : bool := ReceiveQueue.isHighWatermarkViolated (d_receiveQueue s).

(** Reading is disabled, though it is neither over nor locked. *)
Definition Paused (s : socket) : Prop :=
  canReceive s = true /\ closed s = false /\ reading s = false /\ locked s = false.

(** Where the reactor may be while reading is paused. *)
Definition settled (reader : Reader (TI := TI)) : Prop :=
  match reader with r_idle | r_done _ => True | _ => False end.

Record Watch (s : socket) (reader : Reader (TI := TI)) (resuming : list bool) (w : bool) : Prop := {
  w_trigger : ReceiveQueue.d_trigger (d_receiveQueue s) = e_LEVEL;
  w_greedily : d_receiveGreedily s = false;
  w_watch : canReceive s = true -> closed s = false -> w = reading s;
  w_paused : Paused s -> settled reader /\ (violated s = true \/ In true resuming)
}.

Lemma violated_still s s' : still s s' -> violated s' = violated s.
Proof. intros [H1 H2 _]. unfold violated, ReceiveQueue.isHighWatermarkViolated. by rewrite H1, H2. Qed.

Lemma Paused_light s s' l : light s s' l -> Paused s' -> Paused s.
Proof.
  intros [[H1 H2 H3 H4] _ _] (C1 & C2 & C3 & C4). destruct (H3 C1 C2 C3 C4). split_and!; [|by apply H2|done..].
  by apply H1.
Qed.

(** The interest stays what flow control says. *)
Lemma Watch_light s s' l reader reader' resuming resuming' w :
  Watch s reader resuming w -> light s s' l ->
  (Paused s' -> Paused s -> settled reader' /\ (violated s' = true \/ In true resuming')) ->
  Watch s' reader' resuming' (interest w l).
Proof.
  intros [W1 W2 W3 W4] Hl Hp. pose proof (Paused_light s s' l Hl) as Hpp.
  destruct Hl as [[H1 H2 H3 H4] Ht Hg]. split; [congruence..| |auto].
  intros C1 C2. rewrite interest_base, (W3 (H1 C1) (H2 C2)). by apply H4.
Qed.

Lemma Watch_calm s s' l reader resuming resuming' w :
  Watch s reader resuming w -> calm s s' l -> (In true resuming -> In true resuming') ->
  Watch s' reader resuming' (interest w l).
Proof.
  intros W [Hl Hs] Hr. eapply Watch_light; [exact W|done|]. intros _ Hp.
  destruct (w_paused _ _ _ _ W Hp). rewrite (violated_still s s') by done. tauto.
Qed.

(** In a readable event reading is not paused. *)
Lemma Watch_busy s s' l reader reader' resuming w :
  Watch s reader resuming w -> ~ settled reader -> light s s' l ->
  Watch s' reader' resuming (interest w l).
Proof.
  intros W Hr Hl. eapply Watch_light; [exact W|done|]. intros _ Hp.
  by destruct (w_paused _ _ _ _ W Hp).
Qed.

(** *** Relaxing and applying flow control *)

Lemma base_relax_calm defer unlock :
  always calm (base (StreamSocket.privateRelaxFlowControl (T := ST) (TI := TI) (L := L) e_RECEIVE defer unlock)).
Proof. apply calm_base, Readability.steadily_relax. Qed.

Lemma base_relax_run defer unlock (s : socket) x s' l :
  base (StreamSocket.privateRelaxFlowControl e_RECEIVE defer unlock) s = Some (x, s', l) ->
  calm s s' l /\ ~ Paused s'.
Proof.
  intros Hx. split; [by apply (base_relax_calm defer unlock s x)|].
  apply base_run in Hx as (b & k & Hb & <- & _). intros (_ & C2 & C3 & C4).
  unfold closed, reading, locked in *. destruct (relax_enables _ _ _ _ _ _ Hb C2); congruence.
Qed.

Lemma base_announce_calm a defer :
  always calm (base (StreamSocket.announce (Blob := Blob) (T := ST) (L := L) (TI := TI) a defer)).
Proof. apply calm_base, Readability.steadily_announce. Qed.

(** A change of members that the watch does not speak of. *)
Lemma light_modify (f : socket -> socket) :
  (forall s, d_base (f s) = d_base s) -> (forall s, d_receiveGreedily (f s) = d_receiveGreedily s) ->
  (forall s, ReceiveQueue.d_trigger (d_receiveQueue (f s)) = ReceiveQueue.d_trigger (d_receiveQueue s)) ->
  always light (modify f).
Proof. intros Hb Hg Ht. apply (always_modify light). intros s. by apply light_same. Qed.

(** *** The sections of a readable event *)

Lemma light_base {A} (m : BaseM A) : always Readability.steady m -> always light (base m).
Proof. intros Hm. by apply calm_light, calm_base. Qed.

Lemma served_light s s' l : served s s' -> base_effects l = [] -> light s s' l.
Proof. intros [] Hl. by apply light_same. Qed.

Lemma pushEntry_trigger e (q q' : ReceiveQueue.t) b :
  ReceiveQueue.pushEntry e q = Some (q', b) -> ReceiveQueue.d_trigger q' = ReceiveQueue.d_trigger q.
Proof. unfold ReceiveQueue.pushEntry. destruct (_ >? 0); [|done]. by intros [= <- <-]. Qed.

Lemma authorized_frame (q q' : ReceiveQueue.t) b :
  ReceiveQueue.authorizeLowWatermarkEvent q = (q', b) \/
  ReceiveQueue.authorizeHighWatermarkEvent q = (q', b) ->
  ReceiveQueue.d_trigger q' = ReceiveQueue.d_trigger q /\ ReceiveQueue.d_size q' = ReceiveQueue.d_size q /\
  ReceiveQueue.d_watermarkHigh q' = ReceiveQueue.d_watermarkHigh q.
Proof.
  unfold ReceiveQueue.authorizeLowWatermarkEvent, ReceiveQueue.authorizeHighWatermarkEvent.
  intros [H|H]; repeat case_match; by injection H as <- <-.
Qed.

#[local] Create HintDb light.
#[local] Hint Resolve light_base Readability.steadily_announce Readability.steadily_relax
  Readability.steadily_shutdownReceive Readability.steadily_shutdown_send
  base_announce_calm calm_light : light.
#[local] Hint Extern 1 (always Readability.steady (StreamSocket.privateApplyFlowControl _ _ _)) =>
  apply Readability.steadily_apply; by left : light.

(** Through a section that is light, up to the changes of members. *)
#[local] Ltac light_steps :=
  repeat (first [solve [auto with light]
                |lazymatch goal with |- from _ _ _ => from_step | _ => always_step end]; cbn beta);
  try (by apply light_same).

Lemma light_assertSize : always light (assertSize (L := L) (TI := TI) (Blob := Blob) (ST := ST)).
Proof. unfold assertSize. light_steps. Qed.

Lemma light_pushReceived env bytesReceived handle :
  always light (pushReceived (L := L) (TI := TI) (Blob := Blob) (ST := ST) env bytesReceived handle).
Proof.
  unfold pushReceived. apply (always_from light). intros s. light_steps.
  apply light_same; try done. by eapply pushEntry_trigger.
Qed.

Lemma light_dequeue env : always light (privateDequeueReceiveBufferRaw (L := L) (TI := TI) (Blob := Blob) env).
Proof. unfold privateDequeueReceiveBufferRaw. apply (always_from light). intros s. light_steps. Qed.

Lemma light_reserve : always light (reserveQueueCapacity (L := L) (TI := TI) (Blob := Blob) (ST := ST) bufferSize).
Proof. unfold reserveQueueCapacity. apply (always_from light). intros s. light_steps. Qed.
#[local] Hint Resolve light_assertSize light_pushReceived light_dequeue light_reserve : light.

Lemma light_read env : always light (privateSocketReadableIteration_read (L := L) bufferSize env).
Proof.
  unfold privateSocketReadableIteration_read, readUnthrottled, privateThrottleReceiveBuffer_begin.
  light_steps.
Qed.

Lemma light_throttle_end now time :
  always light (privateThrottleReceiveBuffer_end (Blob := Blob) (L := L) now time).
Proof. unfold privateThrottleReceiveBuffer_end. light_steps. Qed.

Definition dealt (s s' : socket) (l : effects) : Prop := served s s' /\ base_effects l = [].

#[local] Instance dealt_transition : Transition dealt.
Proof.
  split; [done|]. intros s s' s'' l k [[] Hl] [[] Hk]. split; [split; congruence|].
  by rewrite base_effects_app, Hl.
Qed.

Lemma assertSize_run (s : socket) x s' (l : effects) : assertSize s = Some (x, s', l) -> s' = s /\ l = [].
Proof.
  intros (y & s1 & l1 & l2 & [= <- <- <-] & H2 & ->)%bind_run.
  apply bind_run in H2 as (d & s2 & l3 & l4 & H3 & H4 & ->). unfold lift, assert in *.
  destruct (ReceiveQueue.d_queueData _); [|done]. injection H3 as <- <- <-.
  destruct (_ =? _); [|done]. by injection H4 as <- <- <-.
Qed.

Lemma from_assertSize {B} (s : socket) (k : unit -> M B) :
  from dealt s (k tt) -> from dealt s (bind assertSize k).
Proof.
  intros Hk. apply (from_bind dealt).
  - by intros x s' l [-> ->]%assertSize_run.
  - by intros [] s' l [-> ->]%assertSize_run.
Qed.

(** What moves bytes to a receiver leaves the rest alone. *)
Lemma dealt_dequeueBytes options data : always dealt (dequeueBytes (L := L) (TI := TI) (Blob := Blob) options data).
Proof.
  unfold dequeueBytes. apply (always_from dealt). intros s. from_step.
  destruct (ReceiveQueue.hasEntry _); [|done]. apply (from_bind dealt); [by intros ? ? ? [= <- <- <-]|].
  intros ? ? ? [= <- <- <-]. apply from_assertSize. from_step.
  destruct x as [[[q n] h] c]. destruct (ReceiveQueue.dequeue_frame_spec _ _ _ _ _ _ ltac:(eassumption)).
  repeat (first [apply from_assertSize|from_step|always_step]; cbn beta); (split; [by split|first [done|by apply base_effects_map]]).
Qed.

#[local] Hint Extern 1 (always light (dequeueBytes _ _)) =>
  intros ? ? ? ? [? ?]%dealt_dequeueBytes; by apply served_light : light.
#[local] Hint Extern 1 (light _ _ (dispatch_effects _ _ _ _ _)) =>
  apply light_same; [done|apply dispatch_base|done|done] : light.

Lemma popCallbackEntry_frame (q q' : ReceiveQueue.t) error e :
  ReceiveQueue.popCallbackEntry q = (error, e, q') ->
  exists l, q' = ReceiveQueue.with_callbackQueue l q.
Proof.
  intros H. destruct (popCallbackEntry_cases q) as [(er & Hq & _)|(e0 & rest & _ & _ & Hq)];
    rewrite Hq in H; injection H as <- <- <-; [|eauto].
  exists (ReceiveQueue.d_callbackQueue q). by destruct q.
Qed.

Lemma light_pop : always light (privateSocketReadableIteration_pop (Blob := Blob) (L := L) (TI := TI)).
Proof.
  unfold privateSocketReadableIteration_pop. apply (always_from light). intros s. from_step.
  destruct (ReceiveQueue.popCallbackEntry _) as [[error e] q] eqn:Hp.
  destruct (popCallbackEntry_frame _ _ _ _ Hp) as [k ->].
  light_steps; auto with light.
Qed.

Lemma light_low : always light (privateSocketReadableIteration_low (Blob := Blob) (L := L) (TI := TI)).
Proof.
  unfold privateSocketReadableIteration_low. apply (always_from light). intros s. from_step.
  destruct (ReceiveQueue.authorizeLowWatermarkEvent _) as [q b] eqn:Ha.
  destruct (authorized_frame _ q b (or_introl Ha)) as (? & _). light_steps.
Qed.

(** *** The sections that leave the queue as it is *)

Lemma calm_queue s l q :
  ReceiveQueue.d_size q = ReceiveQueue.d_size (d_receiveQueue s) ->
  ReceiveQueue.d_watermarkHigh q = ReceiveQueue.d_watermarkHigh (d_receiveQueue s) ->
  ReceiveQueue.d_queueData q = ReceiveQueue.d_queueData (d_receiveQueue s) ->
  ReceiveQueue.d_trigger q = ReceiveQueue.d_trigger (d_receiveQueue s) ->
  base_effects l = [] -> calm s (set_receiveQueue q s) l.
Proof. intros. by apply calm_same; [..|split]. Qed.

#[local] Hint Resolve calm_base calm_closeRateTimer base_relax_calm : light.
#[local] Ltac calm_steps :=
  repeat (first [solve [auto with light]
                |lazymatch goal with |- from _ _ _ => from_step | _ => always_step end]; cbn beta).

Lemma calm_dispatch s data handle error defer e :
  calm s s (dispatch_effects (ST := ST) (TI := TI) data handle error defer e).
Proof. by apply calm_same; [|apply dispatch_base|..]. Qed.
#[local] Hint Resolve calm_dispatch : light.

Lemma calm_deadline object : always calm (processReceiveDeadlineTimer (Blob := Blob) (L := L) (TI := TI) object).
Proof.
  unfold processReceiveDeadlineTimer, ReceiveQueue.removeCallbackEntry. apply (always_from calm). intros s.
  from_step. destruct (ReceiveCallbackQueue.remove _ _) as [error k]. cbv beta iota. from_step; [by apply calm_queue|].
  destruct (List.find _ _); calm_steps.
Qed.

Lemma calm_cancel token : always calm (cancel_receive (Blob := Blob) (L := L) (TI := TI) token).
Proof.
  unfold cancel_receive, ReceiveQueue.removeCallbackEntry_token. apply (always_from calm). intros s.
  from_step. destruct (ReceiveCallbackQueue.remove_token _ _) as [[error e] k]. cbv beta iota.
  from_step; [by apply calm_queue|]. destruct e; calm_steps.
Qed.

Lemma calm_rateTimer : always calm (processReceiveRateTimer (Blob := Blob) (L := L) (TI := TI)).
Proof. unfold processReceiveRateTimer. calm_steps. Qed.

Lemma calm_setReadRateLimiter limiter : always calm (setReadRateLimiter (Blob := Blob) (TI := TI) limiter).
Proof. unfold setReadRateLimiter. calm_steps; by apply calm_same. Qed.

Lemma calm_applyFlowControl direction :
  always calm (applyFlowControl (Blob := Blob) (L := L) (TI := TI) direction).
Proof.
  unfold applyFlowControl. calm_steps. apply calm_base, Readability.steadily_closeSendRateTimer.
Qed.

Lemma calm_shutdown direction graceful detaching :
  always calm (privateShutdown (Blob := Blob) (L := L) (TI := TI) direction graceful detaching).
Proof. unfold privateShutdown. destruct (ShutdownType.selects direction). calm_steps. Qed.

(** *** The sections that may take the queue below its high watermark *)

Definition lasting (s s' : socket) (l : effects) : Prop :=
  light s s' l /\ (Paused s' -> violated s = true -> violated s' = true).

#[local] Instance lasting_transition : Transition lasting.
Proof.
  split; [by intros s; split; [apply (transition_refl (R := light))|]|].
  intros s s' s'' l k [L1 V1] [L2 V2]. split; [by eapply light_trans|].
  intros Hp Hv. apply V2; [done|]. apply V1; [|done]. by eapply Paused_light.
Qed.

Lemma calm_lasting s s' l : calm s s' l -> lasting s s' l.
Proof. intros [Hl Hs]. split; [done|]. intros _. by rewrite (violated_still s s'). Qed.

Lemma always_lasting {A} (m : M A) : always calm m -> always lasting m.
Proof. intros Hm s x s' l Hx. by apply calm_lasting, (Hm s x). Qed.

(** What ends by relaxing flow control may do anything with the queue. *)
Lemma from_relaxing {A} (s s1 : socket) l1 defer unlock (x : A) :
  light s s1 l1 -> forall y s' l,
  bind (base (StreamSocket.privateRelaxFlowControl e_RECEIVE defer unlock)) (fun _ => ret x) s1
    = Some (y, s', l) ->
  lasting s s' (l1 ++ l) /\ ~ Paused s'.
Proof.
  intros L1 y s' l (u & s2 & l2 & l3 & [[L2 _] Hp]%base_relax_run & [= <- <- <-] & ->)%bind_run.
  rewrite app_nil_r. split; [|done]. split; [by eapply light_trans|done].
Qed.

Lemma resume_run violatedBefore (s : socket) x s' l :
  receive_resume violatedBefore s = Some (x, s', l) ->
  calm s s' l /\ (violatedBefore = true -> Paused s' -> violated s' = true).
Proof.
  intros (u & s2 & l2 & l3 & [= <- <- <-] & H & ->)%bind_run. unfold when in H.
  destruct (violatedBefore && negb (ReceiveQueue.isHighWatermarkViolated (d_receiveQueue s))) eqn:E.
  - by apply base_relax_run in H as [C Hp].
  - injection H as <- <- <-. split; [apply (transition_refl (R := calm))|]. intros -> _.
    unfold violated. by destruct (ReceiveQueue.isHighWatermarkViolated _).
Qed.

Lemma lasting_receive_blob data options :
  always lasting (receive_blob (Blob := Blob) (L := L) (TI := TI) data options).
Proof.
  unfold receive_blob. apply (always_from lasting). intros s. from_step.
  destruct (negb _); [apply (from_always lasting), (always_ret lasting)|].
  destruct (_ && negb _); [apply (from_always lasting), (always_ret lasting)|].
  destruct (_ >=? _).
  - intros [[error d] h] s' l (y & s1 & l1 & l2 & [Hs Hb]%dealt_dequeueBytes & H & ->)%bind_run.
    destruct y as [data' handle].
    apply bind_run in H as (? & ? & ? & l3 & [= <- <- <-] & H & ->).
    apply bind_run in H as (? & s2 & l4 & l5 & H & [= <- <- <- <- <-] & ->).
    rewrite app_nil_r. simpl app.
    assert (Hr : receive_resume (violated s) s1 = Some (x, s2, l4))
      by (unfold receive_resume, bind, get; cbn [mbind option_bind]; unfold violated; by rewrite H).
    apply resume_run in Hr as [[Hl _] Hv]. split; [|auto].
    by apply (light_trans s s1); [apply served_light|].
  - intros x s' l H. eapply (from_relaxing s s []) in H; [|by apply (transition_refl (R := light))]. apply H.
Qed.

Lemma lasting_setLow low :
  always lasting (setReadQueueLowWatermark (Blob := Blob) (L := L) (TI := TI) (ST := ST) low).
Proof.
  unfold setReadQueueLowWatermark. apply (always_from lasting).
  intros s x s' l (u & s1 & l1 & l2 & [= <- <- <-] & H & ->)%bind_run.
  apply bind_run in H as (? & ? & ? & l3 & [= <- <- <-] & H & ->). simpl app.
  set (s1 := set_receiveQueue _ s) in *.
  assert (L1 : light s s1 []).
  { by apply light_same. }
  destruct (ReceiveQueue.isLowWatermarkSatisfied (d_receiveQueue s1)) eqn:Elow; simpl in H.
  - apply base_announce_calm in H as [L2 S2]. split; [by eapply (light_trans s s1 s' [])|].
    intros _. rewrite (violated_still s1 s') by done. clear S2 L2 L1.
    unfold violated, ReceiveQueue.isHighWatermarkViolated, ReceiveQueue.isLowWatermarkSatisfied in *.
    subst s1. simpl in *. unfold ReceiveQueue.setLowWatermark in *.
    unfold WatermarkUtil.sanitizeIncomingQueueWatermarks,
      WatermarkUtil.isIncomingQueueHighWatermarkViolated,
      WatermarkUtil.isIncomingQueueLowWatermarkSatisfied in *. simpl in *. by destruct (_ <? _).
  - apply base_relax_run in H as [[L2 _] Hp]. split; [|done]. by eapply (light_trans s s1 s' []).
Qed.

(** The receiver waits, and then reading is not paused, or it is served and its
    thread looks at the high watermark afterwards. *)
Lemma receive_callback_run options callback timer (s : socket) error violatedBefore s' l :
  receive_callback (Blob := Blob) (L := L) (TI := TI) options callback timer s
    = Some ((error, violatedBefore), s', l) ->
  light s s' l /\ (lasting s s' l \/ violatedBefore = Some (violated s)).
Proof.
  intros (? & ? & ? & k1 & [= <- <- <-] & H & ->)%bind_run. simpl app.
  assert (Hret : forall e v, ret (e, v) s = Some ((error, violatedBefore), s', k1) ->
    light s s' k1 /\ (lasting s s' k1 \/ violatedBefore = Some (violated s))).
  { intros e v [= _ _ <- <-]. split; [|left; split; [|done]]; apply (transition_refl (R := light)). }
  cbv zeta in H. destruct (negb (OpenState.canReceive _)); [by eapply Hret|].
  destruct (_ && negb _); [by eapply Hret|]. clear Hret.
  apply bind_run in H as (? & s1 & ? & k2 & H1 & H & ->). injection H1 as <- <- <-. simpl app.
  destruct (bool_decide _ && _).
  - apply bind_run in H as ([data handle] & s1 & l1 & k3 & [Hs Hb]%dealt_dequeueBytes & H & ->).
    apply bind_run in H as (? & ? & ? & k4 & [= <- <- <-] & [= <- <- <- <-] & ->).
    split; [|by right]. destruct Hs. apply light_same; [done|..|done|done].
    by rewrite !base_effects_app, Hb, dispatch_base.
  - assert (Hl : lasting s s' k2); [|split; [apply Hl|by left]].
    apply bind_run in H as (entry & s1 & l1 & k3 & He & H & ->).
    assert (s1 = set_callbackEntryCounter (d_callbackEntryCounter s + 1) s /\ base_effects l1 = []) as [-> Hb].
    { destruct (ReceiveOptions.d_deadline options); [|by injection He as <- <- <-].
      by apply bind_run in He as (? & ? & ? & k4 & [= <- <- <-] & [= <- <- <-] & ->). }
    apply bind_run in H as (? & ? & ? & k4 & [= <- <- <-] & H & ->). simpl app.
    eapply (from_relaxing s _ l1) in H; [apply H|]. by apply light_same.
Qed.

(** *** The watch is kept *)

Lemma Watch_lasting s s' l reader resuming resuming' w :
  Watch s reader resuming w -> lasting s s' l ->
  (Paused s' -> In true resuming -> violated s' = true \/ In true resuming') ->
  Watch s' reader resuming' (interest w l).
Proof.
  intros W [Hl Hv] Hr. eapply Watch_light; [exact W|done|]. intros Hp' Hp.
  destruct (w_paused _ _ _ _ W Hp) as [Hs [H|H]]; auto.
Qed.

Lemma In_remove_one l : In true l -> In true (remove_one false l).
Proof. induction l as [|[] l IH]; simpl; [done|by intros _; left|]. by intros [|]. Qed.

(** Above the high watermark reading is paused, by the reactor. *)
Lemma Watch_high (s : socket) b s' (l : effects) resuming w :
  Watch s r_high resuming w -> privateSocketReadableIteration_high s = Some (b, s', l) ->
  Watch s' (r_done b) resuming (interest w l).
Proof.
  intros W (? & ? & ? & k1 & [= <- <- <-] & H & ->)%bind_run. simpl app.
  destruct (ReceiveQueue.authorizeHighWatermarkEvent (d_receiveQueue s)) as [q a] eqn:Ha.
  destruct (authorized_frame _ q a (or_intror Ha)) as (Ft & Fs & Fh).
  apply bind_run in H as (? & s1 & ? & k2 & H1 & H & ->). injection H1 as <- <- <-. simpl app.
  apply bind_run in H as (? & s1 & k3 & ? & H & [= <- <- <-] & ->). rewrite app_nil_r.
  assert (L1 : light s (set_receiveQueue q s) []) by (by apply light_same).
  unfold when in H. destruct a.
  - assert (Hv : violated (set_receiveQueue q s) = true).
    { unfold ReceiveQueue.authorizeHighWatermarkEvent in Ha. unfold violated. simpl.
      unfold ReceiveQueue.isHighWatermarkViolated in *. rewrite Fs, Fh.
      by destruct (WatermarkUtil.isIncomingQueueHighWatermarkViolated _ _). }
    apply base_run in H as (b & k & Hb & Hs & St & Ht & Hg & Hi).
    apply read_apply_watch in Hb as (Hc & Hcl & He). simpl in Hc, Hcl, He.
    destruct W as [W1 W2 W3 _]. split; [by rewrite Ht; simpl; rewrite Ft|rewrite Hg; exact W2| |].
    + unfold canReceive, closed, reading in *. rewrite Hs, Hc, Hcl. intros C1 C2.
      rewrite interest_base, Hi, (W3 C1 C2). by apply He.
    + intros _. split; [done|]. left. by rewrite (violated_still _ _ St).
  - injection H as <- <- <-. eapply Watch_busy; [exact W|by intros []|done].
Qed.

(** A section changes the interest by its effects only. *)
Lemma after_receive_watching o a (g : Ghost) : g_watching (after_receive (ST := ST) (TI := TI) (L := L) (Blob := Blob) o a g) = g_watching g.
Proof.
  unfold after_receive, accepted. destruct o; try done; destruct a; try done. by destruct (Error.is_error _).
Qed.

Lemma quietly_run (m : M unit) (s : socket) a s' l :
  quietly m s = Some (a, s', l) -> m s = Some (tt, s', l).
Proof.
  intros ([] & s1 & l1 & l2 & H & [= _ <- <-] & ->)%bind_run. by rewrite app_nil_r.
Qed.

Lemma answer_run {A} (f : A -> Answer (TI := TI)) (m : M A) (s : socket) a s' l :
  answer f m s = Some (a, s', l) -> exists x, a = f x /\ m s = Some (x, s', l).
Proof.
  intros (x & s1 & l1 & l2 & H & [= <- <- <-] & ->)%bind_run. exists x. by rewrite app_nil_r.
Qed.

Lemma Watch_step o (s : socket) reader resuming h (g : Ghost) a s' l :
  tuned = false -> StreamSocket.d_oneShot (StreamSocket.d_config (d_base s)) = false ->
  Watch s reader resuming (g_watching g) -> enabled lim tuned config s reader resuming h g o ->
  exec maxBuffersPerSend bufferSize o s = Some (a, s', l) ->
  Watch s' (next_reader o a s' reader) (next_resuming o a resuming) (interest (g_watching g) l).
Proof.
  intros Htuned Hshot W E Hx.
  destruct o; simpl in E, Hx; try (apply quietly_run in Hx); try (apply answer_run in Hx as (x & -> & Hx)).
  - eapply Watch_calm; [exact W|by apply (calm_base _ (Readability.steadily_exec maxBuffersPerSend o) _ _ _ _ Hx)|done].
  - injection Hx as <- <- <-. destruct E as [-> E]. simpl. destruct W as [W1 W2 W3 W4]. split; try done.
    intros Hp. destruct Hp as (C1 & C2 & C3 & C4). rewrite (W3 C1 C2) in E. congruence.
  - destruct E as [-> _]. eapply Watch_busy; [exact W|by intros []|by apply (light_read env _ _ _ _ Hx)].
  - subst reader. eapply Watch_busy; [exact W|by intros []|by apply (light_throttle_end _ _ _ _ _ _ Hx)].
  - subst reader. eapply Watch_busy; [exact W|by intros []|by apply (light_pop _ _ _ _ Hx)].
  - subst reader. eapply Watch_busy; [exact W|by intros []|by apply (light_low _ _ _ _ Hx)].
  - subst reader. by apply (Watch_high s).
  - subst reader. assert (C : calm s s' l).
    { unfold when in Hx. destruct authorized; [by apply (base_announce_calm _ _ _ _ _ _ Hx)|].
      injection Hx as <- <-. apply (transition_refl (R := calm)). }
    simpl. rewrite (lt_greedily _ _ _ (proj1 C)), (w_greedily _ _ _ _ W). simpl.
    eapply Watch_light; [exact W|apply C|]. intros _ Hp. destruct (w_paused _ _ _ _ W Hp) as [_ Hv].
    split; [done|]. rewrite (violated_still s s'); [done|apply C].
  - apply bind_run in Hx as (? & ? & ? & k & [= <- <- <-] & Hx & ->).
    rewrite Hshot in Hx. by injection Hx as <- <-.
  - destruct x as [[error data'] handle].
    eapply Watch_lasting; [exact W|by apply (lasting_receive_blob _ _ _ _ _ _ Hx)|auto].
  - destruct x as [error violatedBefore].
    destruct (receive_callback_run _ _ _ _ _ _ _ _ Hx) as [Hl [Hlast| ->]].
    + eapply Watch_lasting; [exact W|done|]. intros _ H. right. destruct violatedBefore; [by right|done].
    + eapply Watch_light; [exact W|done|]. intros _ Hp. destruct (w_paused _ _ _ _ W Hp) as [Hs [Hv|Hr]].
      * split; [done|]. right. left. by rewrite Hv.
      * split; [done|]. right. by right.
  - destruct (resume_run _ _ _ _ _ Hx) as [C Hv].
    eapply Watch_lasting; [exact W|by apply calm_lasting|]. intros Hp Hr.
    destruct violatedBefore; [left; auto|right; by apply In_remove_one].
  - eapply Watch_calm; [exact W|by apply (calm_deadline _ _ _ _ _ Hx)|done].
  - eapply Watch_calm; [exact W|by apply (calm_cancel _ _ _ _ _ Hx)|done].
  - eapply Watch_calm; [exact W|by apply (calm_rateTimer _ _ _ _ Hx)|done].
  - eapply Watch_calm; [exact W|by apply (calm_setReadRateLimiter _ _ _ _ _ Hx)|done].
  - eapply Watch_lasting; [exact W|by apply (lasting_setLow _ _ _ _ _ Hx)|auto].
  - destruct E; congruence.
  - destruct E; congruence.
  - eapply Watch_calm; [exact W|by apply (calm_applyFlowControl _ _ _ _ _ Hx)|done].
  - eapply Watch_calm; [exact W|by apply (calm_shutdown _ _ _ _ _ _ _ Hx)|done].
Qed.

Lemma Watch_fresh (s : socket) : tuned = false -> fresh lim tuned config s ->
  Watch s (r_idle (TI := TI)) [] (g_watching (initially s)).
Proof.
  intros Ht Hf. destruct (fr_untuned _ _ _ _ Hf Ht) as (H1 & H2 & _ & H3). split; try done.
  intros (_ & _ & Hp & _). unfold reading in Hp. congruence.
Qed.

End Liveness.

Section Reachable.
Context {Blob : Type} `{BO : BlobOps Blob} `{BL : !BlobLaws Blob} {ST : SendTypes}.
Context `{SC : !SendContextOps} {L TI : Type} `{LO : LimiterOps L TI}.
Context {RT : ReceiveTypes} `{RO : ReadBlobOps ReceiveBlob} `{RL : !ReadBlobLaws ReceiveBlob}.
Context (maxBuffersPerSend bufferSize : Z) (lim tuned : bool) (config : StreamSocket.Config).
Hypothesis (bufferSize_ok : 0 < bufferSize < 2 ^ 62).

Lemma reachable_watch (s : StreamSocketReceive.t (Blob := Blob) (L := L)) reader resuming h g :
  tuned = false -> reachable maxBuffersPerSend bufferSize lim tuned config s reader resuming h g ->
  StreamSocket.d_oneShot config = false /\ Watch s reader resuming (g_watching g).
Proof.
  intros Ht Hr. induction Hr as [s Hf|s reader resuming h g o a s' l Hr [Ho IH] E Hx].
  - split; [|by apply (Watch_fresh lim tuned config)]. by destruct (fr_untuned _ _ _ _ Hf Ht) as (_ & _ & ? & _).
  - split; [done|]. pose proof (reachable_duplex _ _ _ _ _ bufferSize_ok _ _ _ _ _ Hr) as [I _].
    unfold observe. cbn [g_watching]. rewrite after_receive_watching.
    apply (Watch_step maxBuffersPerSend bufferSize lim tuned config o s reader resuming h g a s' l); try done.
    by rewrite (SocketInvariant.inv_config _ _ _ _ I).
Qed.

End Reachable.

End DuplexLiveness.
