(* ===== verification/StreamSocketReceiveTheorems.v ===== *)
(** * What a stream socket promises its receivers

    The properties of the receive side in every state that the interleaved
    sections of both sides reach: the integrity of the stream, the dispatch of
    callbacks, the progress of reading and serving, and the answer of a receive
    into a blob; then concrete runs, those of the defects among them. *)

From Stdlib Require Import Strings.Byte.
From S2P Require Import Prelude Errors Buffers Watermark SendQueue ReceiveQueue SocketState.
From S2P Require Import RateLimiter Sections StreamSocket StreamSocketLogic StreamSocketFacts.
From S2P Require Import StreamSocketTheorems BlobBuffers StreamSocketReceive.
From S2P Require Import StreamSocketReceiveFacts StreamSocketWatch StreamSocketSystem.
From S2P Require Import StreamSocketLiveness.

Module DuplexTheorems.
Import Sections StreamSocketReceive ReceiveInvariant DuplexSystem DuplexLiveness.
Section Theorems.
Context {Blob : Type} `{BO : BlobOps Blob} `{BL : !BlobLaws Blob} {ST : SendTypes}.
Context `{SC : !SendContextOps} {L TI : Type} `{LO : LimiterOps L TI}.
Context {RT : ReceiveTypes} `{RO : ReadBlobOps ReceiveBlob} `{RL : !ReadBlobLaws ReceiveBlob}.
Context (maxBuffersPerSend bufferSize : Z) (lim tuned : bool) (config : StreamSocket.Config).
Hypothesis (bufferSize_ok : 0 < bufferSize < 2 ^ 62).
#[local] Abbreviation socket := (StreamSocketReceive.t (Blob := Blob) (L := L)).
#[local] Abbreviation effects := (list (StreamSocketReceive.Effect (ST := ST) (TI := TI))).
#[local] Abbreviation exec := (DuplexSystem.exec maxBuffersPerSend bufferSize).
#[local] Abbreviation reachable := (DuplexSystem.reachable maxBuffersPerSend bufferSize lim tuned config).
#[local] Abbreviation enabled := (DuplexSystem.enabled lim tuned config).
#[local] Abbreviation after_send := (DuplexSystem.after_send config).
#[local] Abbreviation wp :=
  (Sections.wp (S := socket) (E := Effect (ST := ST) (TI := TI)) (lim = true)).
#[local] Abbreviation inv := (reachable_duplex maxBuffersPerSend bufferSize lim tuned config bufferSize_ok).

(** A run from a weakest precondition that excludes failure. *)
Lemma wp_total {A} (m : M A) (s : socket) (Q : A -> socket -> effects -> Prop) :
  lim = false -> wp m s Q -> exists x s' l, m s = Some (x, s', l) /\ Q x s' l.
Proof.
  unfold Sections.wp. intros Hlim Hw. destruct (m s) as [[[x s'] l]|]; [eauto|congruence].
Qed.

Lemma stored_still (s s' : socket) b : still s s' -> stored (d_receiveQueue s) b -> stored (d_receiveQueue s') b.
Proof. intros [H1 _ H3] (data & Hd & Hb & Hs). exists data. by rewrite H1, H3. Qed.


(** C7: every receiver whose call succeeded is in exactly one place: its
    callback was dispatched or it waits in the read queue, be it served by a
    readable event, by its own call or by a shutdown, timed out or
    cancelled. *)
Theorem receivers_dispatched_once (s : socket) reader resuming h g :
  reachable s reader resuming h g ->
  g_accepted g ≡ₚ g_dispatched g ++ waiting (d_receiveQueue s).
Proof. intros Hr. apply inv in Hr as [_ J]. by apply (ri_callbacks _ _ _ J). Qed.

(** C9: without rate limiters no section of either direction fails an
    assertion, in any interleaving of sends of blobs and contiguous data,
    receives whose minimum size is at least one and not above the maximum,
    events, timers, cancellations, flow control, watermarks and shutdowns. *)
Theorem no_section_fails (s : socket) reader resuming h g o :
  lim = false -> reachable s reader resuming h g -> enabled s reader resuming h g o ->
  exists a s' l, exec o s = Some (a, s', l) /\
    reachable s' (next_reader o a s' reader) (next_resuming o a resuming)
      (SocketInvariant.observe (base_effects l) (after_send o s a h))
      (observe l (after_receive o a g)).
Proof.
  intros Hlim Hr E. apply inv in Hr as I.
  destruct (wp_total _ _ _ Hlim (wp_duplex maxBuffersPerSend bufferSize lim tuned config bufferSize_ok
    o s reader resuming h g I E)) as (a & s' & l & Hx & _).
  exists a, s', l. split; [done|]. by apply reachable_step.
Qed.

(** C8: on a socket with the default options, whose receive direction is open
    and not locked by the user or a rate limiter, the reactor watches for
    readability, unless the read queue is at its high watermark or a thread
    that took it below has yet to enable reading again. *)
Theorem reading_goes_on (s : socket) reader resuming h g :
  tuned = false -> reachable s reader resuming h g ->
  canReceive s = true -> closed s = false -> locked s = false ->
  g_watching g = true \/ violated s = true \/ In true resuming.
Proof.
  intros Ht Hr Hc Hcl Hl. apply (reachable_watch _ _ _ _ _ bufferSize_ok) in Hr as [_ W]; [|done].
  rewrite (w_watch _ _ _ _ W Hc Hcl). destruct (reading s) eqn:Hrd; [by left|right].
  by destruct (w_paused _ _ _ _ W).
Qed.

(** What one pass of the loop over the receivers does. *)
Definition served_front (s : socket) (more : bool) (s' : socket) (l : effects) : Prop :=
  match ReceiveQueue.d_callbackQueue (d_receiveQueue s) with
  | e :: rest =>
      if more
      then ReceiveOptions.d_minSize (ReceiveCallbackQueueEntry.d_options e)
             <= ReceiveQueue.d_size (d_receiveQueue s) /\
           ReceiveQueue.d_callbackQueue (d_receiveQueue s') = rest /\
           dispatched l = option_list (ReceiveCallbackQueueEntry.d_callback e)
      else ReceiveQueue.d_size (d_receiveQueue s)
             < ReceiveOptions.d_minSize (ReceiveCallbackQueueEntry.d_options e) /\
           s' = s /\ l = []
  | [] => more = false /\ s' = s /\ l = []
  end.

Lemma sated_front (s : socket) g e rest :
  RInv lim s g -> sated (d_receiveQueue s) ->
  ReceiveQueue.d_callbackQueue (d_receiveQueue s) = e :: rest ->
  ReceiveQueue.d_size (d_receiveQueue s)
    < ReceiveOptions.d_minSize (ReceiveCallbackQueueEntry.d_options e).
Proof.
  intros J Hs He. unfold sated in Hs. pose proof (ri_entries _ _ _ J) as Hall.
  rewrite He in Hs, Hall. destruct Hs as [Hno|]; [|done].
  apply Forall_cons_iff in Hall as [(_ & _ & [Ho _] & _) _].
  pose proof (hasEntry_size (d_receiveQueue s) (ri_queue _ _ _ J)) as Hsz.
  destruct (Z.lt_ge_cases 0 (ReceiveQueue.d_size (d_receiveQueue s))); [|lia].
  rewrite Hsz in Hno by done. done.
Qed.

(** C10: without rate limiters, a pass of the loop over the receivers of a
    readable event, in any interleaving, serves the receiver in front if there
    are enough bytes for it and goes on, and otherwise changes nothing and ends
    the loop; so the loop goes on only as long as receivers are left.  When the
    mutex is not released between its passes, it ends after as many as receivers
    wait, serves them first come first served, and leaves none in front for whom
    there are enough bytes. *)
Theorem loop_serves_in_order (s : socket) reader resuming h g :
  lim = false -> reachable s reader resuming h g ->
  (exists more s' l,
     privateSocketReadableIteration_pop s = Some (more, s', l) /\ served_front s more s' l) /\
  exists s' (l : effects),
    popLoop (length (ReceiveQueue.d_callbackQueue (d_receiveQueue s))) s = Some (tt, s', l) /\
    waiting (d_receiveQueue s) = dispatched l ++ waiting (d_receiveQueue s') /\
    match ReceiveQueue.d_callbackQueue (d_receiveQueue s') with
    | e :: _ => ReceiveQueue.d_size (d_receiveQueue s')
        < ReceiveOptions.d_minSize (ReceiveCallbackQueueEntry.d_options e)
    | [] => True
    end.
Proof.
  intros Hlim Hr. apply inv in Hr as [_ J]. split.
  { assert (Hp : wp privateSocketReadableIteration_pop s (served_front s)).
    { unfold served_front. apply (wp_pop lim s g); [done| |].
      - intros Hs. destruct (ReceiveQueue.d_callbackQueue (d_receiveQueue s)) as [|e rest] eqn:He; [done|].
        split; [|done]. by apply (sated_front s g e rest).
      - intros e rest s' l -> Hc _ _ _ Hd Hmin. done. }
    by destruct (wp_total _ _ _ Hlim Hp) as (more & s' & l & ? & ?); eauto. }
  assert (Hw : wp (popLoop (length (ReceiveQueue.d_callbackQueue (d_receiveQueue s)))) s
    (fun _ s' (l : effects) => RInv lim s' (observe l g) /\ sated (d_receiveQueue s') /\
       waiting (d_receiveQueue s) = dispatched l ++ waiting (d_receiveQueue s'))).
  { by apply (wp_popLoop lim _ s g). }
  destruct (wp_total _ _ _ Hlim Hw) as ([] & s' & l & Hx & J' & Hs & Hq). exists s', l.
  split; [done|]. split; [done|].
  destruct (ReceiveQueue.d_callbackQueue (d_receiveQueue s')) as [|e rest] eqn:He; [done|].
  by apply (sated_front s' (observe l g) e rest).
Qed.

(** What [receive] into a blob answers. *)
Definition blob_answer data options b (s : socket) (error : Error.t) (data' : ReceiveBlob)
    (s' : socket) : Prop :=
  if negb (OpenState.canReceive (StreamSocket.d_openState (d_base s)))
  then error = Error.e_INVALID /\ data' = data /\ s' = s
  else if (size b =? 0) && negb (canReceive s)
  then error = Error.e_EOF /\ data' = data /\ s' = s
  else if size b >=? ReceiveOptions.d_minSize options
  then let n := Z.to_nat (Z.min (size b) (ReceiveOptions.d_maxSize options)) in
    error = Error.e_OK /\ rb_bytes data' = rb_bytes data ++ take n b /\
    stored (d_receiveQueue s') (drop n b)
  else error = Error.e_WOULD_BLOCK /\ data' = data /\ stored (d_receiveQueue s') b /\
    (canReceive s' = true -> closed s' = false -> locked s' = false -> reading s' = true).

Lemma wp_relaxReceive (s : socket) h g (Q : unit -> socket -> effects -> Prop) :
  ReceiveInvariant.Inv lim config s h g ->
  (forall s' l, still s s' -> ~ Paused s' -> Q tt s' l) ->
  wp (base (StreamSocket.privateRelaxFlowControl e_RECEIVE true false)) s Q.
Proof.
  intros I HQ. pose proof (preserves_relaxReceive (TI := TI) lim config true false s h g I) as Hw.
  unfold Sections.wp in *. destruct (base _ s) as [[[[] s'] l]|] eqn:Hx; [|done].
  apply base_relax_run in Hx as [[_ Hs] Hp]. by apply HQ.
Qed.

Lemma wp_blob_answer (s : socket) h g data options b :
  ReceiveInvariant.Inv lim config s h g -> ReceiveOptions.ok options -> stored (d_receiveQueue s) b ->
  wp (receive_blob data options) s (fun '(error, data', _) s' _ =>
    blob_answer data options b s error data' s').
Proof.
  intros I Ho Hb. pose proof I as [K J]. pose proof Hb as (d0 & Hd0 & Hb0 & Hs0).
  unfold blob_answer, canReceive, Readability.canReceive. rewrite <- Hs0.
  unfold receive_blob. apply wp_bind, wp_get. cbn beta.
  destruct (negb (OpenState.canReceive _)); [by apply wp_ret|].
  destruct (_ && negb _); [by apply wp_ret|].
  destruct (Z.geb_spec (ReceiveQueue.d_size (d_receiveQueue s)) (ReceiveOptions.d_minSize options)).
  - apply wp_bind, (wp_dequeueBytes lim options data s g); [done|done|lia|].
    intros data' handle s1 l1 b0 n -> Hst Hst' Hd Hsv J' _ _ _. cbn beta iota.
    assert (b0 = b) as ->.
    { destruct Hst as (d1 & Hd1 & <- & _). rewrite Hd0 in Hd1. by injection Hd1 as <-. }
    apply wp_bind, wp_get. cbn beta. apply wp_bind, wp_when; intros _.
    + eapply wp_relaxReceive; [split; [rewrite (sv_base _ _ Hsv); exact K|exact J']|].
      intros s2 l2 Hs _. apply wp_ret. split; [done|]. split; [done|]. by apply (stored_still s1).
    + by apply wp_ret.
  - apply wp_bind. eapply wp_relaxReceive; [exact I|]. intros s' l Hs Hp. apply wp_ret.
    split; [done|]. split; [done|]. split; [by apply (stored_still s)|].
    intros C1 C2 C3. destruct (reading s') eqn:C4; [done|]. by destruct Hp.
Qed.

(** A receive into a blob, on every branch: it is refused before the socket
    is connected, it reports the end of a stream that is shut down and drained,
    it appends as many of the first bytes of the queue as there are and the
    maximum size allows if the minimum size is there, and otherwise it makes
    sure that reading is enabled, unless flow control is locked, and would
    block. *)
Theorem receive_blob_answers (s : socket) reader resuming h g data options b :
  lim = false -> reachable s reader resuming h g -> ReceiveOptions.ok options ->
  stored (d_receiveQueue s) b ->
  exists error data' handle s' (l : effects),
    receive_blob data options s = Some ((error, data', handle), s', l) /\
    blob_answer data options b s error data' s'.
Proof.
  intros Hlim Hr Ho Hb. apply inv in Hr as I.
  destruct (wp_total _ _ _ Hlim (wp_blob_answer s h g data options b I Ho Hb))
    as ([[error data'] handle] & s' & l & Hx & Ha). by exists error, data', handle, s', l.
Qed.

(** ** Runs *)

(** The socket, where its reactor is, the threads in a callback and what an
    observer knows of both sides. *)
Definition Configuration : Type :=
  socket * Reader (TI := TI) * list bool * SocketInvariant.Ghost * Ghost.

Definition begin (s : socket) : Configuration :=
  (s, r_idle, [], SocketSystem.initially (d_base s), initially s).

Definition step (o : op) (c : Configuration) : option Configuration :=
  let '(s, reader, resuming, h, g) := c in
  '(a, s', l) ← exec o s;
  Some (s', next_reader o a s' reader, next_resuming o a resuming,
        SocketInvariant.observe (base_effects l) (after_send o s a h),
        observe l (after_receive o a g)).

Fixpoint run (ops : list op) (c : Configuration) : option Configuration :=
  match ops with
  | [] => Some c
  | o :: ops => c ← step o c; run ops c
  end.

Fixpoint all_enabled (ops : list op) (c : Configuration) : Prop :=
  match ops with
  | [] => True
  | o :: ops =>
      (let '(s, reader, resuming, h, g) := c in enabled s reader resuming h g o) /\
      match step o c with Some c => all_enabled ops c | None => True end
  end.

Lemma enabled_cons o ops s reader resuming h g c :
  step o (s, reader, resuming, h, g) = Some c -> enabled s reader resuming h g o ->
  all_enabled ops c -> all_enabled (o :: ops) (s, reader, resuming, h, g).
Proof. simpl. intros Hs Ho Hops. split; [done|]. by rewrite Hs. Qed.

Definition reached (c : Configuration) : Prop :=
  let '(s, reader, resuming, h, g) := c in reachable s reader resuming h g.

Lemma run_reached ops c c' : reached c -> all_enabled ops c -> run ops c = Some c' -> reached c'.
Proof.
  revert c. induction ops as [|o ops IH]; intros c Hr He Hx; simpl in *; [by injection Hx as <-|].
  destruct He as [E He]. destruct (step o c) as [c1|] eqn:Hs; [|done].
  apply (IH c1); [|done|done]. destruct c as [[[[s reader] resuming] h] g]. simpl in Hs.
  destruct (exec o s) as [[[a s'] l]|] eqn:Ho; [|done]. injection Hs as <-.
  by apply reachable_step.
Qed.

End Theorems.

(** ** Instances

    Blobs are bytes with their capacity, everything else is as on the send
    side. *)
Section Example.
#[local] Existing Instances SocketSystem.ExampleTypes SocketSystem.ExampleContext SocketSystem.NoLimiter.

#[local] Instance ReceiveExample : ReceiveTypes := {
  ReceiveBlob := list byte * Z; ReceiveEndpoint := unit; ReceiveTimer := Z; ReceiveCallback := Z
}.

#[local] Instance ReceiveExample_ops : ReadBlobOps ReceiveBlob := SizedBlob_ops.
#[local] Instance ReceiveExample_laws : ReadBlobLaws ReceiveBlob := SizedBlob_laws.

Definition room (bytes : list byte) (capacity : Z) : ReceiveBlob := (bytes, capacity).

#[local] Abbreviation op :=
  (op (Blob := FlatBlob) (ST := SocketSystem.ExampleTypes) (L := Empty_set) (TI := unit)).
#[local] Abbreviation socket := (StreamSocketReceive.t (Blob := FlatBlob) (L := Empty_set)).
#[local] Abbreviation effects :=
  (list (StreamSocketReceive.Effect (ST := SocketSystem.ExampleTypes) (TI := unit))).

Definition duplex_with (trigger : ReactorEventTrigger) : socket :=
  mk SocketSystem.flat false
    (ReceiveQueue.mk [] (Some ([], 0)) 0 1 true 4 true trigger [])
    (ReceiveFeedback.init 4 64) None false 0 0.
Definition duplex : socket := duplex_with e_LEVEL.

Lemma duplex_is_fresh : fresh false false SocketSystem.greedy duplex.
Proof. split; try done. by eexists. Qed.

Definition options (min max : Z) : ReceiveOptions.t := ReceiveOptions.mk None min max None false.
Definition tokened (token min max : Z) : ReceiveOptions.t :=
  ReceiveOptions.mk (Some token) min max None false.
Definition arrives (bytes : list byte) : ReadEnv (TI := unit) :=
  mkReadEnv tt 0 (Received bytes 0 None) false.
Definition ends : ReadEnv (TI := unit) := mkReadEnv tt 0 (Received [] 0 None) false.

(** A readable event in which [served] receivers are served. *)
Definition event (bytes : list byte) (served : nat) (high : bool) : list op :=
  [op_event; op_read (arrives bytes)] ++ repeat op_pop served ++ [op_pop; op_low; op_high; op_done high].

(** Two receivers of which the first needs two reads, and a second read that
    takes the queue above its high watermark. *)
Definition duplex_script : list op :=
  [op_receive_callback (options 3 3) 1 0]
  ++ event [x61; x62] 0 false
  ++ [op_receive_callback (options 1 1) 2 0]
  ++ event [x63; x64; x65; x66; x67; x68; x69] 2 true.

Definition duplex_end := Eval vm_compute in
  default (begin duplex) (run 8 16 SocketSystem.greedy duplex_script (begin duplex)).

Lemma duplex_run : run 8 16 SocketSystem.greedy duplex_script (begin duplex) = Some duplex_end.
Proof. vm_compute. reflexivity. Qed.

Ltac solve_enabled :=
  repeat (eapply (enabled_cons 8 16 false false SocketSystem.greedy);
    [vm_compute; reflexivity
    |first [exact I|by split|split; [reflexivity|split; [intros data [= <-]; reflexivity|exact I]]]|]);
  exact I.

Lemma duplex_enabled : all_enabled 8 16 false false SocketSystem.greedy duplex_script (begin duplex).
Proof. solve_enabled. Qed.

(** The second read before anyone is served. *)
Definition filled_script : list op := take 10 duplex_script.

Definition filled := Eval vm_compute in
  default (begin duplex) (run 8 16 SocketSystem.greedy filled_script (begin duplex)).

Lemma filled_reached : reached 8 16 false false SocketSystem.greedy filled.
Proof.
  refine (run_reached 8 16 false false SocketSystem.greedy filled_script (begin duplex) _
            (reachable_fresh _ _ _ _ _ duplex duplex_is_fresh) _ _).
  - solve_enabled.
  - vm_compute. reflexivity.
Qed.

Lemma duplex_reached : reached 8 16 false false SocketSystem.greedy duplex_end.
Proof.
  exact (run_reached 8 16 false false SocketSystem.greedy duplex_script (begin duplex) _
           (reachable_fresh _ _ _ _ _ duplex duplex_is_fresh) duplex_enabled duplex_run).
Qed.

Definition ended : socket := duplex_end.1.1.1.1.
Definition ended_ghost : Ghost := duplex_end.2.


Lemma receivers_dispatched_once_witness : [1; 2] ≡ₚ [1; 2] ++ [].
Proof.
  exact (receivers_dispatched_once 8 16 false false SocketSystem.greedy ltac:(by split)
           _ _ _ _ _ duplex_reached).
Defined.

Lemma no_section_fails_witness :
  exists a s' l, exec 8 16 (op_receive (room [] 0) (options 1 2) : op) ended = Some (a, s', l) /\
    Readability.enabled (d_base s') = true.
Proof.
  destruct (no_section_fails 8 16 false false SocketSystem.greedy ltac:(by split) _ _ _ _ _
    (op_receive (room [] 0) (options 1 2)) eq_refl duplex_reached ltac:(by split)) as (a & s' & l & Hx & _).
  exists a, s', l. split; [exact Hx|]. vm_compute in Hx. by injection Hx as _ <- _.
Defined.

Lemma reading_goes_on_witness :
  g_watching ended_ghost = false /\
  (g_watching ended_ghost = true \/ violated ended = true \/ In true []).
Proof.
  split; [reflexivity|].
  exact (reading_goes_on 8 16 false false SocketSystem.greedy ltac:(by split) _ _ _ _ _ eq_refl
           duplex_reached eq_refl eq_refl eq_refl).
Defined.

Lemma loop_serves_in_order_witness :
  exists s' (l : effects),
    popLoop 2 filled.1.1.1.1 = Some (tt, s', l) /\ [1; 2] = dispatched l ++ waiting (d_receiveQueue s').
Proof.
  destruct (loop_serves_in_order 8 16 false false SocketSystem.greedy ltac:(by split) _ _ _ _ _ eq_refl
    filled_reached) as (_ & s' & l & Hx & Hw & _). by exists s', l.
Defined.

Lemma receive_blob_answers_witness :
  exists error data' handle s' (l : effects),
    receive_blob (room [x60] 1) (options 1 2) ended = Some ((error, data', handle), s', l) /\
    error = Error.e_OK /\ rb_bytes data' = [x60; x65; x66].
Proof.
  destruct (receive_blob_answers 8 16 false false SocketSystem.greedy ltac:(by split) _ _ _ _ _
    (room [x60] 1) (options 1 2) [x65; x66; x67; x68; x69] eq_refl duplex_reached ltac:(by split)
    ltac:(by eexists)) as (error & data' & handle & s' & l & Hx & He & Hd & _).
  by exists error, data', handle, s', l.
Defined.

(** *** What the properties do not exclude *)

(** A receiver that needs more bytes than are left in the queue when the stream
    has ended is accepted, but neither data nor an error is ever reported to
    it. *)
Lemma receiver_after_end_waits :
  exists c, run 8 16 SocketSystem.greedy
    (event [x61; x62] 0 false ++ [op_event; op_read ends : op; op_receive_callback (options 3 3) 1 0])
    (begin duplex) = Some c /\
  canReceive c.1.1.1.1 = false /\
  waiting (d_receiveQueue c.1.1.1.1) = [1] /\ ReceiveQueue.d_size (d_receiveQueue c.1.1.1.1) = 2.
Proof. vm_compute. eexists. repeat split. Qed.

(** When the receiver in front is cancelled, the next is not served, although
    there are enough bytes for it. *)
Lemma cancel_leaves_next_waiting :
  exists c, run 8 16 SocketSystem.greedy
    ([op_receive_callback (tokened 1 3 3) 1 0 : op; op_receive_callback (options 1 1) 2 0]
     ++ event [x61; x62] 0 false ++ [op_cancel_receive 1]) (begin duplex) = Some c /\
  waiting (d_receiveQueue c.1.1.1.1) = [2] /\ ReceiveQueue.d_size (d_receiveQueue c.1.1.1.1) = 2.
Proof. vm_compute. eexists. repeat split. Qed.

(** A receiver whose minimum size is above the high watermark is not served, nor
    is the socket read any more; nor does it help to raise the watermark. *)
Lemma receiver_above_high_waits :
  exists c, run 8 16 SocketSystem.greedy
    ([op_receive_callback (options 6 6) 1 0 : op] ++ event [x61; x62; x63; x64; x65] 0 true
     ++ [op_setReadQueueHighWatermark 1024]) (begin duplex) = Some c /\
  waiting (d_receiveQueue c.1.1.1.1) = [1] /\ g_watching c.2 = false /\
  violated c.1.1.1.1 = false /\ canReceive c.1.1.1.1 = true /\ locked c.1.1.1.1 = false.
Proof. vm_compute. eexists. repeat split. Qed.

End Example.
End DuplexTheorems.
