(* ===== verification/DnsVocabulary.v ===== *)
(** * The vocabulary of the domain name system

    Models the enumerations and the data of resource records of
    src/groups/ntc/ntcdns/ntcdns_vocabulary.h, .cpp that the messages of
    ntcdns_protocol carry.  [fromInt] of each enumeration is a search of its
    enumerators for a number. *)

From Stdlib Require Import Strings.Byte.
From S2P Require Import Prelude.

(** ** Enumerations *)

(** [fromInt]: the enumerator of a number, if there is one. *)
Definition enumerator {A} (code : A -> Z) (all : list A) (number : Z) : option A :=
  List.find (fun a => code a =? number) all.

(** The number of every enumerator is the one of a field of [width] bits, and
    leads back to it. *)
Class Enumerated {A : Type} (code : A -> Z) (fromInt : Z -> option A) (width : Z) : Prop := {
  enum_round_trip : forall a, fromInt (code a) = Some a;
  enum_range : forall a, 0 <= code a < 2 ^ width;
}.

(** [ntcdns::Classification]. *)
Module Classification.

Inductive t : Set :=
  | e_INTERNET | e_CSNET | e_CH | e_HS | e_ANY.

#[global] Instance t_eq_dec : EqDecision t.
Proof. solve_decision. Defined.

Definition code (x : t) : Z :=
  match x with
  | e_INTERNET => 1 | e_CSNET => 2 | e_CH => 3 | e_HS => 4 | e_ANY => 255
  end.

Definition all : list t :=
  [e_INTERNET; e_CSNET; e_CH; e_HS; e_ANY].

Definition fromInt : Z -> option t := enumerator code all.

#[global] Instance classification_enumerated : Enumerated code fromInt 16.
Proof. split; intros []; (done || (cbn; lia)). Qed.

End Classification.

(** [ntcdns::Direction]. *)
Module Direction.

Inductive t : Set :=
  | e_REQUEST | e_RESPONSE.

#[global] Instance t_eq_dec : EqDecision t.
Proof. solve_decision. Defined.

Definition code (x : t) : Z :=
  match x with
  | e_REQUEST => 0 | e_RESPONSE => 1
  end.

Definition all : list t :=
  [e_REQUEST; e_RESPONSE].

Definition fromInt : Z -> option t := enumerator code all.

#[global] Instance direction_enumerated : Enumerated code fromInt 1.
Proof. split; intros []; (done || (cbn; lia)). Qed.

End Direction.

(** [ntcdns::Error]. *)
Module ResponseError.

Inductive t : Set :=
  | e_OK | e_FORMAT_ERROR | e_SERVER_FAILURE | e_NAME_ERROR | e_NOT_IMPLEMENTED | e_REFUSED.

#[global] Instance t_eq_dec : EqDecision t.
Proof. solve_decision. Defined.

Definition code (x : t) : Z :=
  match x with
  | e_OK => 0 | e_FORMAT_ERROR => 1 | e_SERVER_FAILURE => 2 | e_NAME_ERROR => 3 | e_NOT_IMPLEMENTED
  => 4 | e_REFUSED => 5
  end.

Definition all : list t :=
  [e_OK; e_FORMAT_ERROR; e_SERVER_FAILURE; e_NAME_ERROR; e_NOT_IMPLEMENTED; e_REFUSED].

Definition fromInt : Z -> option t := enumerator code all.

#[global] Instance response_error_enumerated : Enumerated code fromInt 4.
Proof. split; intros []; (done || (cbn; lia)). Qed.

End ResponseError.

(** [ntcdns::Operation]. *)
Module Operation.

Inductive t : Set :=
  | e_STANDARD | e_INVERSE | e_STATUS.

#[global] Instance t_eq_dec : EqDecision t.
Proof. solve_decision. Defined.

Definition code (x : t) : Z :=
  match x with
  | e_STANDARD => 0 | e_INVERSE => 1 | e_STATUS => 2
  end.

Definition all : list t :=
  [e_STANDARD; e_INVERSE; e_STATUS].

Definition fromInt : Z -> option t := enumerator code all.

#[global] Instance operation_enumerated : Enumerated code fromInt 4.
Proof. split; intros []; (done || (cbn; lia)). Qed.

End Operation.

(** [ntcdns::Type]. *)
Module RecordType.

Inductive t : Set :=
  | e_A | e_NS | e_MD | e_MF | e_CNAME | e_SOA | e_MB | e_MG | e_MR | e_UNDEFINED | e_WKS | e_PTR |
  e_HINFO | e_MINFO | e_MX | e_TXT | e_RP | e_AFSDB | e_X25 | e_ISDN | e_RT | e_NSAP | e_NSAPPTR |
  e_SIG | e_KEY | e_PX | e_GPOS | e_AAAA | e_LOC | e_NXT | e_EID | e_NIMLOC | e_SVR | e_ATMA |
  e_NAPTR | e_KX | e_CERT | e_A6 | e_DNAME | e_SINK | e_OPT | e_APL | e_DS | e_SSHFP | e_IPSECKEY |
  e_RRSIG | e_NSEC | e_DNSKEY | e_DHCID | e_NSEC3 | e_NSEC3PARAM | e_TLSA | e_SMIMEA | e_HIP |
  e_NINFO | e_RKEY | e_TALINK | e_CDS | e_CDNSKEY | e_OPENPGPKEY | e_CSYNC | e_ZONEMD | e_SPF |
  e_UINFO | e_UID | e_GID | e_UNSPEC | e_NID | e_L32 | e_L64 | e_LP | e_EUI48 | e_EUI64 | e_TKEY |
  e_TSIG | e_IXFR | e_AXFR | e_MAILB | e_MAILA | e_ALL | e_URI | e_CAA | e_AVC | e_DOA | e_AMTRELAY
  | e_TA | e_DLV.

#[global] Instance t_eq_dec : EqDecision t.
Proof. solve_decision. Defined.

Definition code (x : t) : Z :=
  match x with
  | e_A => 1 | e_NS => 2 | e_MD => 3 | e_MF => 4 | e_CNAME => 5 | e_SOA => 6 | e_MB => 7 | e_MG => 8
  | e_MR => 9 | e_UNDEFINED => 10 | e_WKS => 11 | e_PTR => 12 | e_HINFO => 13 | e_MINFO => 14 | e_MX
  => 15 | e_TXT => 16 | e_RP => 17 | e_AFSDB => 18 | e_X25 => 19 | e_ISDN => 20 | e_RT => 21 |
  e_NSAP => 22 | e_NSAPPTR => 23 | e_SIG => 24 | e_KEY => 25 | e_PX => 26 | e_GPOS => 27 | e_AAAA =>
  28 | e_LOC => 29 | e_NXT => 30 | e_EID => 31 | e_NIMLOC => 32 | e_SVR => 33 | e_ATMA => 34 |
  e_NAPTR => 35 | e_KX => 36 | e_CERT => 37 | e_A6 => 38 | e_DNAME => 39 | e_SINK => 40 | e_OPT =>
  41 | e_APL => 42 | e_DS => 43 | e_SSHFP => 44 | e_IPSECKEY => 45 | e_RRSIG => 46 | e_NSEC => 47 |
  e_DNSKEY => 48 | e_DHCID => 49 | e_NSEC3 => 50 | e_NSEC3PARAM => 51 | e_TLSA => 52 | e_SMIMEA =>
  53 | e_HIP => 55 | e_NINFO => 56 | e_RKEY => 57 | e_TALINK => 58 | e_CDS => 59 | e_CDNSKEY => 60 |
  e_OPENPGPKEY => 61 | e_CSYNC => 62 | e_ZONEMD => 63 | e_SPF => 99 | e_UINFO => 100 | e_UID => 101
  | e_GID => 102 | e_UNSPEC => 103 | e_NID => 104 | e_L32 => 105 | e_L64 => 106 | e_LP => 107 |
  e_EUI48 => 108 | e_EUI64 => 109 | e_TKEY => 249 | e_TSIG => 250 | e_IXFR => 251 | e_AXFR => 252 |
  e_MAILB => 253 | e_MAILA => 254 | e_ALL => 255 | e_URI => 256 | e_CAA => 257 | e_AVC => 258 |
  e_DOA => 259 | e_AMTRELAY => 260 | e_TA => 32768 | e_DLV => 32769
  end.

Definition all : list t :=
  [e_A; e_NS; e_MD; e_MF; e_CNAME; e_SOA; e_MB; e_MG; e_MR; e_UNDEFINED; e_WKS; e_PTR; e_HINFO;
   e_MINFO; e_MX; e_TXT; e_RP; e_AFSDB; e_X25; e_ISDN; e_RT; e_NSAP; e_NSAPPTR; e_SIG; e_KEY; e_PX;
   e_GPOS; e_AAAA; e_LOC; e_NXT; e_EID; e_NIMLOC; e_SVR; e_ATMA; e_NAPTR; e_KX; e_CERT; e_A6;
   e_DNAME; e_SINK; e_OPT; e_APL; e_DS; e_SSHFP; e_IPSECKEY; e_RRSIG; e_NSEC; e_DNSKEY; e_DHCID;
   e_NSEC3; e_NSEC3PARAM; e_TLSA; e_SMIMEA; e_HIP; e_NINFO; e_RKEY; e_TALINK; e_CDS; e_CDNSKEY;
   e_OPENPGPKEY; e_CSYNC; e_ZONEMD; e_SPF; e_UINFO; e_UID; e_GID; e_UNSPEC; e_NID; e_L32; e_L64;
   e_LP; e_EUI48; e_EUI64; e_TKEY; e_TSIG; e_IXFR; e_AXFR; e_MAILB; e_MAILA; e_ALL; e_URI; e_CAA;
   e_AVC; e_DOA; e_AMTRELAY; e_TA; e_DLV].

Definition fromInt : Z -> option t := enumerator code all.

#[global] Instance record_type_enumerated : Enumerated code fromInt 16.
Proof. split; intros []; (done || (cbn; lia)). Qed.

End RecordType.

(** ** The data of resource records

    A string is the list of its bytes.  The addresses are the octets that are
    copied to and from the wire. *)

Module ResourceRecordData.

Inductive t : Set :=
  | Undefined
  | CanonicalName (cname : list byte)
  | HostInfo (cpu os : list byte)
  | MailExchange (preference : Z) (exchange : list byte)
  | NameServer (nsdname : list byte)
  | Pointer (ptrdname : list byte)
  | ZoneAuthority (mname rname : list byte) (serial refresh retry expire minimum : Z)
  | WellKnownService (address : list byte) (protocol : Z) (port : list Z)
  | Text (text : list (list byte))
  | Ipv4 (address : list byte)
  | Ipv6 (address : list byte)
  | Server (name target : list byte) (ttl classification priority weight : Z)
  | Raw (data : list byte).

End ResourceRecordData.
