(* ===== verification/DnsCodec.v ===== *)
(** * Encoding and decoding of domain name system data

    Models [ntcdns::Validation], [ntcdns::MemoryEncoder] and
    [ntcdns::MemoryDecoder] (src/groups/ntc/ntcdns/ntcdns_protocol.h, .cpp): the
    cursors over a buffer that read and write integers, names and strings.

    An operation is a state transformer with errors: [None] is an access out of
    the buffer. *)

From Stdlib Require Import Strings.Byte.
From S2P Require Import Prelude Errors.

Module DnsCodec.

(** ** Octets *)

(** A conversion to [unsigned char]. *)
Definition octet (z : Z) : byte := default x00 (Byte.of_N (Z.to_N (wrap 8 z))).

Definition value (b : byte) : Z := Z.of_N (Byte.to_N b).

Lemma value_range b : 0 <= value b < 256.
Proof. unfold value. pose proof (to_N_bounded b). lia. Qed.

Lemma octet_value b : octet (value b) = b.
Proof.
  unfold octet, value. pose proof (to_N_bounded b). rewrite wrap_small by lia.
  by rewrite N2Z.id, of_to_N.
Qed.

Lemma value_octet z : value (octet z) = wrap 8 z.
Proof.
  unfold octet, value. pose proof (wrap_range 8 z ltac:(lia)) as Hr. change (2 ^ 8) with 256 in Hr.
  destruct (Byte.of_N (Z.to_N (wrap 8 z))) as [b|] eqn:E.
  - apply to_of_N in E. change (Z.of_N (Byte.to_N b) = wrap 8 z). rewrite E. lia.
  - apply of_N_None_iff in E. lia.
Qed.

(** The octets of [bdlb::BigEndianUint16] and [bdlb::BigEndianUint32]. *)
Definition be16 (v : Z) : list byte := [octet (Z.shiftr v 8); octet v].

Definition be32 (v : Z) : list byte :=
  [octet (Z.shiftr v 24); octet (Z.shiftr v 16); octet (Z.shiftr v 8); octet v].

Definition of_be (l : list byte) : Z := foldl (fun v b => Z.shiftl v 8 + value b) 0 l.

Lemma of_be16 v : 0 <= v < 2 ^ 16 -> of_be (be16 v) = v.
Proof.
  intros Hv. unfold of_be, be16, wrap. cbn [foldl]. rewrite !value_octet. unfold wrap.
  rewrite !Z.shiftl_mul_pow2, Z.shiftr_div_pow2 by lia.
  pose proof (Z.div_mod v 256 ltac:(lia)). change (2 ^ 8) with 256.
  rewrite (Z.mod_small (v / 256)) by (split; [apply Z.div_pos; lia|apply Z.div_lt_upper_bound; lia]). lia.
Qed.

Lemma of_be32 v : 0 <= v < 2 ^ 32 -> of_be (be32 v) = v.
Proof.
  intros Hv. unfold of_be, be32. cbn [foldl]. rewrite !value_octet. unfold wrap.
  rewrite !Z.shiftl_mul_pow2, !Z.shiftr_div_pow2 by lia. change (2 ^ 8) with 256.
  change (2 ^ 24) with (256 * 256 * 256). change (2 ^ 16) with (256 * 256). rewrite <- !Z.div_div by lia.
  set (v1 := v / 256). set (v2 := v1 / 256). set (v3 := v2 / 256).
  assert (0 <= v3 < 256) as H3.
  { unfold v3, v2, v1. split; [repeat apply Z.div_pos; lia|]. repeat (apply Z.div_lt_upper_bound; [lia|]). lia. }
  rewrite (Z.mod_small v3) by lia.
  pose proof (Z.div_mod v 256 ltac:(lia)) as D0. pose proof (Z.div_mod v1 256 ltac:(lia)) as D1.
  pose proof (Z.div_mod v2 256 ltac:(lia)) as D2. fold v1 in D0. fold v2 in D1. fold v3 in D2. lia.
Qed.

(** ** Operations with errors *)

Definition codec (S A : Type) : Type := S -> option ((Error.t + A) * S).

Section Monad.

Context {S : Type}.

Definition ret {A} (a : A) : codec S A := fun s => Some (inr a, s).

Definition fail {A} (e : Error.t) : codec S A := fun s => Some (inl e, s).

Definition bind {A B} (m : codec S A) (f : A -> codec S B) : codec S B := fun s =>
  match m s with
  | Some (inr a, s) => f a s
  | Some (inl e, s) => Some (inl e, s)
  | None => None
  end.

(** The return of an error. *)
Definition check (e : Error.t) : codec S unit := if Error.is_error e then fail e else ret tt.

End Monad.

Notation "'let*' x ':=' m 'in' k" := (bind m (fun x => k))
  (at level 100, x pattern, m at level 99, k at level 200, right associativity) : ntf_scope.
Notation "m ';;*' k" := (bind m (fun _ => k)) (at level 100, k at level 200, right associativity) : ntf_scope.

(** ** [Validation] *)

Definition k_MAX_LABEL_LENGTH : Z := 63.
Definition k_MAX_CHARACTER_STRING_LENGTH : Z := 255.
Definition k_MAX_RDATA_LENGTH : Z := 65535.
Definition k_MAX_LABEL_RESOLUTION_RECURSION_DEPTH : nat := 32.

Definition invalid_if (b : bool) : Error.t := if b then Error.e_INVALID else Error.e_OK.

Definition checkOverflow (numBytesRemaining numBytesNeeded : Z) : Error.t :=
  invalid_if (numBytesRemaining <? numBytesNeeded).

Definition checkUnderflow (numBytesRemaining numBytesNeeded : Z) : Error.t :=
  invalid_if (numBytesRemaining <? numBytesNeeded).

Definition checkToken (token : list byte) : Error.t := invalid_if (k_MAX_LABEL_LENGTH <? size token).

Definition checkCharacterString (v : list byte) : Error.t :=
  invalid_if (k_MAX_CHARACTER_STRING_LENGTH <? size v).

Definition checkRdata (v : list byte) : Error.t := invalid_if (k_MAX_RDATA_LENGTH <? size v).

Definition checkExpectedRdataLength (expected found : Z) : Error.t := invalid_if (negb (found =? expected)).

Definition checkCoherentRdataLength (expected found : Z) : Error.t := invalid_if (negb (found =? expected)).

(** ** Names *)

(** [bdlb::Tokenizer] with the soft delimiter ['.']: the tokens of a string.  By
    its documentation they are its longest non-empty parts without the delimiter,
    so that joining non-empty parts without it and splitting again is the
    identity. *)
Definition dot : byte := "."%byte.

Definition label_ok (l : list byte) : Prop := l <> [] /\ dot ∉ l.

Fixpoint join (labels : list (list byte)) : list byte :=
  match labels with
  | [] => []
  | [l] => l
  | l :: rest => l ++ dot :: join rest
  end.

Class Tokenizer := { tokens : list byte -> list (list byte) }.

Class TokenizerLaws `{Tokenizer} : Prop := {
  tokens_join : forall labels, Forall label_ok labels -> tokens (join labels) = labels;
  tokens_ok : forall s, Forall label_ok (tokens s);
}.

(** ** [MemoryEncoder] *)

(** The memory from [d_begin] to [d_end], and [d_current] as a distance. *)
Record encoder : Type := { e_data : list byte; e_position : Z }.

Definition put (bs : list byte) (e : encoder) : encoder :=
  {| e_data := take (Z.to_nat (e_position e)) (e_data e) ++ bs
       ++ drop (Z.to_nat (e_position e + size bs)) (e_data e);
     e_position := e_position e + size bs |}.

Definition store (bs : list byte) : codec encoder unit := fun e =>
  assert! (0 <=? e_position e) && (e_position e + size bs <=? size (e_data e)) ;;
  Some (inr tt, put bs e).

(** [checkOverflow(d_end - d_current, n)]. *)
Definition overflow (n : Z) : codec encoder unit := fun e =>
  check (checkOverflow (wrap 64 (size (e_data e) - e_position e)) n) e.

Definition encodeUint8 (v : Z) : codec encoder unit := overflow 1 ;;* store [octet v].

Definition encodeUint16 (v : Z) : codec encoder unit := overflow 2 ;;* store (be16 v).

Definition encodeUint32 (v : Z) : codec encoder unit := overflow 4 ;;* store (be32 v).

Fixpoint encodeLabels `{Tokenizer} (labels : list (list byte)) : codec encoder unit :=
  match labels with
  | [] => ret tt
  | token :: rest =>
      check (checkToken token) ;;*
      overflow 1 ;;*
      store [octet (size token)] ;;*
      overflow (size token) ;;*
      store token ;;*
      encodeLabels rest
  end.

Definition encodeDomainName `{Tokenizer} (v : list byte) : codec encoder unit :=
  encodeLabels (tokens v) ;;*
  overflow 1 ;;*
  store [x00].

Definition encodeCharacterString (v : list byte) : codec encoder unit :=
  check (checkCharacterString v) ;;*
  overflow 1 ;;*
  store [octet (size v)] ;;*
  overflow (size v) ;;*
  store v.

(** A blob is its bytes. *)
Definition encodeRdata (v : list byte) : codec encoder unit :=
  check (checkRdata v) ;;*
  overflow 2 ;;*
  store (be16 (size v)) ;;*
  if 0 <? size v then overflow (size v) ;;* store v else ret tt.

Definition encodeRaw (v : list byte) : codec encoder unit := overflow (size v) ;;* store v.

Definition e_move (target : Z) : codec encoder unit := fun e =>
  if size (e_data e) <? target then fail Error.e_INVALID e
  else Some (inr tt, {| e_data := e_data e; e_position := target |}).

Definition e_seek (position : Z) : codec encoder unit := e_move position.

Definition e_advance (amount : Z) : codec encoder unit := fun e => e_move (e_position e + amount) e.

Definition e_rewind (amount : Z) : codec encoder unit := fun e =>
  if e_position e - amount <? 0 then fail Error.e_INVALID e
  else Some (inr tt, {| e_data := e_data e; e_position := e_position e - amount |}).

Definition e_tell : codec encoder Z := fun e => Some (inr (e_position e), e).

(** ** [MemoryDecoder] *)

Record decoder : Type := { d_data : list byte; d_position : Z }.

(** The bytes at an offset; [None] when they are not all in the buffer. *)
Definition slice (offset n : Z) (data : list byte) : option (list byte) :=
  assert! (0 <=? offset) && (0 <=? n) && (offset + n <=? size data) ;;
  Some (take (Z.to_nat n) (drop (Z.to_nat offset) data)).

Definition underflow (n : Z) : codec decoder unit := fun d =>
  check (checkUnderflow (wrap 64 (size (d_data d) - d_position d)) n) d.

Definition fetch (n : Z) : codec decoder (list byte) := fun d =>
  match slice (d_position d) n (d_data d) with
  | Some bs => Some (inr bs, {| d_data := d_data d; d_position := d_position d + n |})
  | None => None
  end.

Definition decodeRaw (n : Z) : codec decoder (list byte) := underflow n ;;* fetch n.

Definition decodeUint (n : Z) : codec decoder Z := let* bs := decodeRaw n in ret (of_be bs).

Definition decodeUint8 : codec decoder Z := decodeUint 1.

Definition decodeUint16 : codec decoder Z := decodeUint 2.

Definition decodeUint32 : codec decoder Z := decodeUint 4.

(** The loop of [decodeDomainName] and of [decodeLabel]: the error, the name so
    far and the current offset.  [follow] resolves the offset of a compression
    tag; there is none when the recursion is too deep. *)
Fixpoint decode_labels (fuel : nat) (data : list byte) (follow : option (Z -> option (Error.t + list byte)))
    (current : Z) (name : list byte) : option (Error.t * list byte * Z) :=
  match fuel with
  | O => None
  | S fuel =>
      if Error.is_error (checkUnderflow (wrap 64 (size data - current)) 1) then Some (Error.e_INVALID, name, current)
      else
        first ← slice current 1 data;
        let length := of_be first in
        let current := current + 1 in
        if length =? 0 then Some (Error.e_OK, name, current)
        else if length <=? k_MAX_LABEL_LENGTH then
          let name := match name with [] => [] | _ => name ++ [dot] end in
          if Error.is_error (checkUnderflow (wrap 64 (size data - current)) length) then
            Some (Error.e_INVALID, name, current)
          else
            label ← slice current length data;
            decode_labels fuel data follow (current + length) (name ++ label)
        else
          match follow with
          | None => Some (Error.e_INVALID, name, current)
          | Some follow =>
              if Z.land length 0xC0 =? 0xC0 then
                if Error.is_error (checkUnderflow (wrap 64 (size data - current)) 1) then
                  Some (Error.e_INVALID, name, current)
                else
                  lower ← slice current 1 data;
                  let current := current + 1 in
                  result ← follow (Z.lor (Z.shiftl (Z.land length 0x3F) 8) (of_be lower));
                  match result with
                  | inl e => Some (e, name, current)
                  | inr reference =>
                      let name := match name with [] => [] | _ => name ++ [dot] end in
                      Some (Error.e_OK, name ++ reference, current)
                  end
              else Some (Error.e_INVALID, name, current)
          end
  end.

(** [levels] is what is left of the depth of the recursion. *)
Fixpoint decodeLabel (levels : nat) (data : list byte) (offset : Z) : option (Error.t + list byte) :=
  if size data <? offset then Some (inl Error.e_INVALID)
  else
    '(e, name, _) ← decode_labels (S (length data)) data
      (match levels with O => None | S levels => Some (decodeLabel levels data) end) offset [];
    Some (if Error.is_error e then inl e else inr name).

(** With an error the name is what was decoded of it. *)
Definition decodeDomainName (d : decoder) : option (Error.t * list byte * decoder) :=
  '(e, name, current) ← decode_labels (S (length (d_data d))) (d_data d)
    (Some (decodeLabel k_MAX_LABEL_RESOLUTION_RECURSION_DEPTH (d_data d))) (d_position d) [];
  Some (e, name, {| d_data := d_data d; d_position := current |}).

(** The same when the name is not used after an error. *)
Definition decodeName : codec decoder (list byte) := fun d =>
  match decodeDomainName d with
  | Some (e, name, d) => Some (if Error.is_error e then inl e else inr name, d)
  | None => None
  end.

(** The string is appended to [v]. *)
Definition decodeCharacterString (v : list byte) : codec decoder (list byte) :=
  let* length := decodeUint8 in
  if 0 <? length then
    let* bs := decodeRaw length in
    ret (v ++ bs)
  else ret v.

(** The bytes are written over those of the blob. *)
Definition decodeRdata (v : list byte) : codec decoder (list byte) :=
  let* rdataLength := decodeUint16 in
  if 0 <? rdataLength then
    let* bs := decodeRaw rdataLength in
    ret (bs ++ drop (length bs) v)
  else ret v.

Definition d_move (target : Z) : codec decoder unit := fun d =>
  if size (d_data d) <? target then fail Error.e_INVALID d
  else Some (inr tt, {| d_data := d_data d; d_position := target |}).

Definition d_seek (position : Z) : codec decoder unit := d_move position.

Definition d_advance (amount : Z) : codec decoder unit := fun d => d_move (d_position d + amount) d.

Definition d_rewind (amount : Z) : codec decoder unit := fun d =>
  if d_position d - amount <? 0 then fail Error.e_INVALID d
  else Some (inr tt, {| d_data := d_data d; d_position := d_position d - amount |}).

Definition d_tell : codec decoder Z := fun d => Some (inr (d_position d), d).

End DnsCodec.
