(* ===== verification/DnsMessage.v ===== *)
(** * Domain name system messages

    Models [ntcdns::Header], [ntcdns::Question], [ntcdns::ResourceRecord] and
    [ntcdns::Message] (src/groups/ntc/ntcdns/ntcdns_protocol.h, .cpp).  [decode]
    takes the object that it is called on, and returns the one that it leaves
    after a success; after an error the callers drop it. *)

From Stdlib Require Import Strings.Byte.
From stdpp Require Import sorting.
From S2P Require Import Prelude Errors DnsVocabulary DnsCodec.

Import DnsCodec.

(** ** [Header] *)

Module Header.

Record t : Set := {
  d_id : Z;
  d_direction : Direction.t;
  d_operation : Operation.t;
  d_error : ResponseError.t;
  d_aa : bool;
  d_tc : bool;
  d_rd : bool;
  d_ra : bool;
  d_ad : bool;
  d_cd : bool;
  d_qdcount : Z;
  d_ancount : Z;
  d_nscount : Z;
  d_arcount : Z;
}.

Definition reset : t :=
  {| d_id := 0; d_direction := Direction.e_REQUEST; d_operation := Operation.e_STANDARD;
     d_error := ResponseError.e_OK; d_aa := false; d_tc := false; d_rd := false; d_ra := false;
     d_ad := false; d_cd := false; d_qdcount := 0; d_ancount := 0; d_nscount := 0; d_arcount := 0 |}.

(** The setters of the attributes. *)
Definition setId (v : Z) (h : t) : t :=
  {| d_id := v; d_direction := d_direction h; d_operation := d_operation h; d_error := d_error h; d_aa := d_aa h;
     d_tc := d_tc h; d_rd := d_rd h; d_ra := d_ra h; d_ad := d_ad h; d_cd := d_cd h; d_qdcount := d_qdcount h;
     d_ancount := d_ancount h; d_nscount := d_nscount h; d_arcount := d_arcount h |}.

Definition setDirection (v : Direction.t) (h : t) : t :=
  {| d_id := d_id h; d_direction := v; d_operation := d_operation h; d_error := d_error h; d_aa := d_aa h;
     d_tc := d_tc h; d_rd := d_rd h; d_ra := d_ra h; d_ad := d_ad h; d_cd := d_cd h; d_qdcount := d_qdcount h;
     d_ancount := d_ancount h; d_nscount := d_nscount h; d_arcount := d_arcount h |}.

Definition setOperation (v : Operation.t) (h : t) : t :=
  {| d_id := d_id h; d_direction := d_direction h; d_operation := v; d_error := d_error h; d_aa := d_aa h;
     d_tc := d_tc h; d_rd := d_rd h; d_ra := d_ra h; d_ad := d_ad h; d_cd := d_cd h; d_qdcount := d_qdcount h;
     d_ancount := d_ancount h; d_nscount := d_nscount h; d_arcount := d_arcount h |}.

Definition setAa (v : bool) (h : t) : t :=
  {| d_id := d_id h; d_direction := d_direction h; d_operation := d_operation h; d_error := d_error h; d_aa := v;
     d_tc := d_tc h; d_rd := d_rd h; d_ra := d_ra h; d_ad := d_ad h; d_cd := d_cd h; d_qdcount := d_qdcount h;
     d_ancount := d_ancount h; d_nscount := d_nscount h; d_arcount := d_arcount h |}.

Definition setTc (v : bool) (h : t) : t :=
  {| d_id := d_id h; d_direction := d_direction h; d_operation := d_operation h; d_error := d_error h; d_aa := d_aa h;
     d_tc := v; d_rd := d_rd h; d_ra := d_ra h; d_ad := d_ad h; d_cd := d_cd h; d_qdcount := d_qdcount h;
     d_ancount := d_ancount h; d_nscount := d_nscount h; d_arcount := d_arcount h |}.

Definition setRd (v : bool) (h : t) : t :=
  {| d_id := d_id h; d_direction := d_direction h; d_operation := d_operation h; d_error := d_error h; d_aa := d_aa h;
     d_tc := d_tc h; d_rd := v; d_ra := d_ra h; d_ad := d_ad h; d_cd := d_cd h; d_qdcount := d_qdcount h;
     d_ancount := d_ancount h; d_nscount := d_nscount h; d_arcount := d_arcount h |}.

Definition setRa (v : bool) (h : t) : t :=
  {| d_id := d_id h; d_direction := d_direction h; d_operation := d_operation h; d_error := d_error h; d_aa := d_aa h;
     d_tc := d_tc h; d_rd := d_rd h; d_ra := v; d_ad := d_ad h; d_cd := d_cd h; d_qdcount := d_qdcount h;
     d_ancount := d_ancount h; d_nscount := d_nscount h; d_arcount := d_arcount h |}.

Definition setAd (v : bool) (h : t) : t :=
  {| d_id := d_id h; d_direction := d_direction h; d_operation := d_operation h; d_error := d_error h; d_aa := d_aa h;
     d_tc := d_tc h; d_rd := d_rd h; d_ra := d_ra h; d_ad := v; d_cd := d_cd h; d_qdcount := d_qdcount h;
     d_ancount := d_ancount h; d_nscount := d_nscount h; d_arcount := d_arcount h |}.

Definition setCd (v : bool) (h : t) : t :=
  {| d_id := d_id h; d_direction := d_direction h; d_operation := d_operation h; d_error := d_error h; d_aa := d_aa h;
     d_tc := d_tc h; d_rd := d_rd h; d_ra := d_ra h; d_ad := d_ad h; d_cd := v; d_qdcount := d_qdcount h;
     d_ancount := d_ancount h; d_nscount := d_nscount h; d_arcount := d_arcount h |}.

Definition setError (v : ResponseError.t) (h : t) : t :=
  {| d_id := d_id h; d_direction := d_direction h; d_operation := d_operation h; d_error := v; d_aa := d_aa h;
     d_tc := d_tc h; d_rd := d_rd h; d_ra := d_ra h; d_ad := d_ad h; d_cd := d_cd h; d_qdcount := d_qdcount h;
     d_ancount := d_ancount h; d_nscount := d_nscount h; d_arcount := d_arcount h |}.

Definition set_counts (qd an ns ar : Z) (h : t) : t :=
  {| d_id := d_id h; d_direction := d_direction h; d_operation := d_operation h; d_error := d_error h;
     d_aa := d_aa h; d_tc := d_tc h; d_rd := d_rd h; d_ra := d_ra h; d_ad := d_ad h; d_cd := d_cd h;
     d_qdcount := qd; d_ancount := an; d_nscount := ns; d_arcount := ar |}.

(** The setters of the counts assert their range. *)
Definition setQdcount (v : Z) (h : t) : option t :=
  assert! v <=? U16_MAX ;; Some (set_counts v (d_ancount h) (d_nscount h) (d_arcount h) h).

Definition setAncount (v : Z) (h : t) : option t :=
  assert! v <=? U16_MAX ;; Some (set_counts (d_qdcount h) v (d_nscount h) (d_arcount h) h).

Definition setNscount (v : Z) (h : t) : option t :=
  assert! v <=? U16_MAX ;; Some (set_counts (d_qdcount h) (d_ancount h) v (d_arcount h) h).

Definition setArcount (v : Z) (h : t) : option t :=
  assert! v <=? U16_MAX ;; Some (set_counts (d_qdcount h) (d_ancount h) (d_nscount h) v h).

(** The bit fields of [Flags], from the least significant bit of each octet. *)
Definition first_flags (h : t) : Z :=
  Z.lor (Z.shiftl (wrap 1 (Direction.code (d_direction h))) 7)
    (Z.lor (Z.shiftl (wrap 4 (Operation.code (d_operation h))) 3)
      (Z.lor (Z.shiftl (Z.b2z (d_aa h)) 2) (Z.lor (Z.shiftl (Z.b2z (d_tc h)) 1) (Z.b2z (d_rd h))))).

Definition second_flags (h : t) : Z :=
  Z.lor (Z.shiftl (Z.b2z (d_ra h)) 7)
    (Z.lor (Z.shiftl (Z.b2z (d_cd h)) 4) (wrap 4 (ResponseError.code (d_error h)))).

Definition encode (h : t) : codec encoder unit :=
  encodeUint16 (d_id h) ;;*
  encodeRaw [octet (first_flags h); octet (second_flags h)] ;;*
  encodeUint16 (d_qdcount h) ;;*
  encodeUint16 (d_ancount h) ;;*
  encodeUint16 (d_nscount h) ;;*
  encodeUint16 (d_arcount h).

(** An enumerator, or the error of its [fromInt]. *)
Definition enumerated {A} (e : option A) : codec decoder A :=
  match e with Some a => ret a | None => fail Error.e_INVALID end.

Definition bits (octets : list byte) (i offset width : Z) : Z :=
  wrap width (Z.shiftr (value (default x00 (octets !! Z.to_nat i))) offset).

Definition bit (octets : list byte) (i offset : Z) : bool := bits octets i offset 1 =? 1.

Definition decode (self : t) : codec decoder t :=
  let* id := decodeUint16 in
  let* flags := decodeRaw 2 in
  let* direction := enumerated (Direction.fromInt (bits flags 0 7 1)) in
  let* operation := enumerated (Operation.fromInt (bits flags 0 3 4)) in
  let* error := enumerated (ResponseError.fromInt (bits flags 1 0 4)) in
  let* qdcount := decodeUint16 in
  let* ancount := decodeUint16 in
  let* nscount := decodeUint16 in
  let* arcount := decodeUint16 in
  ret {| d_id := id; d_direction := direction; d_operation := operation; d_error := error;
         d_aa := bit flags 0 2; d_tc := bit flags 0 1; d_rd := bit flags 0 0;
         d_ra := bit flags 1 7; d_ad := d_ad self; d_cd := bit flags 1 4;
         d_qdcount := qdcount; d_ancount := ancount; d_nscount := nscount; d_arcount := arcount |}.

End Header.

(** ** [Question] *)

Module Question.

Record t : Set := { d_name : list byte; d_type : RecordType.t; d_classification : Classification.t }.

Definition reset : t :=
  {| d_name := []; d_type := RecordType.e_A; d_classification := Classification.e_INTERNET |}.

(** The setters of the attributes. *)
Definition setName (v : list byte) (q : t) : t :=
  {| d_name := v; d_type := d_type q; d_classification := d_classification q |}.

Definition setType (v : RecordType.t) (q : t) : t :=
  {| d_name := d_name q; d_type := v; d_classification := d_classification q |}.

Definition setClassification (v : Classification.t) (q : t) : t :=
  {| d_name := d_name q; d_type := d_type q; d_classification := v |}.

Definition encode `{Tokenizer} (q : t) : codec encoder unit :=
  encodeDomainName (d_name q) ;;*
  encodeUint16 (RecordType.code (d_type q)) ;;*
  encodeUint16 (Classification.code (d_classification q)).

(** An error of the name ends the decoding without one. *)
Definition decode (self : t) : codec decoder t := fun d =>
  match decodeDomainName d with
  | Some (e, name, d) =>
      if Error.is_error e then
        ret {| d_name := name; d_type := d_type self; d_classification := d_classification self |} d
      else
        (let* qtypeValue := decodeUint16 in
         let* type := Header.enumerated (RecordType.fromInt qtypeValue) in
         let* qclassValue := decodeUint16 in
         let* classification := Header.enumerated (Classification.fromInt qclassValue) in
         ret {| d_name := name; d_type := type; d_classification := classification |}) d
  | None => None
  end.

End Question.

(** ** [ResourceRecord] *)

Module ResourceRecord.

Import ResourceRecordData.

Record t : Set := {
  d_name : list byte;
  d_type : RecordType.t;
  d_class : Classification.t;
  d_ttl : Z;
  d_optSize : Z;
  d_optFlags : Z;
  d_rdata : ResourceRecordData.t;
}.

Definition reset : t :=
  {| d_name := []; d_type := RecordType.e_A; d_class := Classification.e_INTERNET; d_ttl := 0;
     d_optSize := 0; d_optFlags := 0; d_rdata := Undefined |}.

(** The setters of the attributes. *)
Definition setName (v : list byte) (r : t) : t :=
  {| d_name := v; d_type := d_type r; d_class := d_class r; d_ttl := d_ttl r; d_optSize := d_optSize r;
     d_optFlags := d_optFlags r; d_rdata := d_rdata r |}.

Definition setType (v : RecordType.t) (r : t) : t :=
  {| d_name := d_name r; d_type := v; d_class := d_class r; d_ttl := d_ttl r; d_optSize := d_optSize r;
     d_optFlags := d_optFlags r; d_rdata := d_rdata r |}.

Definition setClassification (v : Classification.t) (r : t) : t :=
  {| d_name := d_name r; d_type := d_type r; d_class := v; d_ttl := d_ttl r; d_optSize := d_optSize r;
     d_optFlags := d_optFlags r; d_rdata := d_rdata r |}.

Definition setTtl (v : Z) (r : t) : t :=
  {| d_name := d_name r; d_type := d_type r; d_class := d_class r; d_ttl := v; d_optSize := d_optSize r;
     d_optFlags := d_optFlags r; d_rdata := d_rdata r |}.

Definition setPayloadSize (v : Z) (r : t) : t :=
  {| d_name := d_name r; d_type := d_type r; d_class := d_class r; d_ttl := d_ttl r; d_optSize := v;
     d_optFlags := d_optFlags r; d_rdata := d_rdata r |}.

Definition setFlags (v : Z) (r : t) : t :=
  {| d_name := d_name r; d_type := d_type r; d_class := d_class r; d_ttl := d_ttl r; d_optSize := d_optSize r;
     d_optFlags := v; d_rdata := d_rdata r |}.

(** The type that [setRdata] sets. *)
Definition type_of (rdata : ResourceRecordData.t) : option RecordType.t :=
  match rdata with
  | CanonicalName _ => Some RecordType.e_CNAME
  | HostInfo _ _ => Some RecordType.e_HINFO
  | MailExchange _ _ => Some RecordType.e_MX
  | NameServer _ => Some RecordType.e_NS
  | Pointer _ => Some RecordType.e_PTR
  | ZoneAuthority _ _ _ _ _ _ _ => Some RecordType.e_SOA
  | WellKnownService _ _ _ => Some RecordType.e_WKS
  | Text _ => Some RecordType.e_TXT
  | Ipv4 _ => Some RecordType.e_A
  | Ipv6 _ => Some RecordType.e_AAAA
  | Server _ _ _ _ _ _ => Some RecordType.e_SVR
  | Undefined | Raw _ => None
  end.

Definition setRdata (v : ResourceRecordData.t) (r : t) : t :=
  {| d_name := d_name r; d_type := default (d_type r) (type_of v); d_class := d_class r; d_ttl := d_ttl r;
     d_optSize := d_optSize r; d_optFlags := d_optFlags r; d_rdata := v |}.

(** *** The ports of a well-known service *)

(** One bit per port, the most significant first, up to the greatest port. *)
Definition bitset_of (ports : list Z) : list byte :=
  let portVector := merge_sort Z.le ports in
  let maxPort := default 0 (list.last portVector) in
  foldl (fun bitset portNumber =>
           alter (fun b => octet (Z.lor (value b) (Z.shiftl 1 (7 - portNumber `rem` 8))))
             (Z.to_nat (portNumber `quot` 8)) bitset)
    (replicate (Z.to_nat (maxPort `quot` 8 + 1)) x00) portVector.

Definition port_at (i : nat) (b : byte) (j : nat) : option Z :=
  if Z.land (value b) (Z.shiftl 1 (7 - Z.of_nat j)) =? 0 then None
  else Some (wrap 16 (Z.of_nat i * 8 + Z.of_nat j)).

Definition ports_of (bitset : list byte) : list Z :=
  concat (imap (fun i b => omap (port_at i b) (seq 0 8)) bitset).

(** *** Encoding *)

Fixpoint encode_text (text : list (list byte)) : codec encoder unit :=
  match text with
  | [] => ret tt
  | s :: rest => encodeCharacterString s ;;* encode_text rest
  end.

(** [&data[0]] of an empty vector is an access out of it. *)
Definition encode_raw_data (data : list byte) : codec encoder unit := fun e =>
  assert! negb (bool_decide (data = [])) ;; encodeRaw data e.

Definition encode_rdata `{Tokenizer} (rdata : ResourceRecordData.t) : codec encoder unit :=
  match rdata with
  | Ipv4 address | Ipv6 address => encodeRaw address
  | NameServer name | CanonicalName name | Pointer name => encodeDomainName name
  | ZoneAuthority mname rname serial refresh retry expire minimum =>
      encodeDomainName mname ;;*
      encodeDomainName rname ;;*
      encodeUint32 serial ;;*
      encodeUint32 refresh ;;*
      encodeUint32 retry ;;*
      encodeUint32 expire ;;*
      encodeUint32 minimum
  | WellKnownService address protocol port =>
      encodeRaw address ;;*
      encodeUint8 protocol ;;*
      match port with
      | [] => ret tt
      | _ => encodeRaw (bitset_of port)
      end
  | HostInfo cpu os =>
      encodeCharacterString cpu ;;*
      encodeCharacterString os
  | MailExchange preference exchange =>
      encodeUint16 preference ;;*
      encodeDomainName exchange
  | Text text => encode_text text
  | Server _ _ _ _ _ _ => fail Error.e_NOT_IMPLEMENTED
  | Raw data => encode_raw_data data
  | Undefined => ret tt
  end.

(** The length is written first as zero, then over it once it is known. *)
Definition with_length (body : codec encoder unit) : codec encoder unit :=
  let* p0 := e_tell in
  encodeUint16 0 ;;*
  let* p1 := e_tell in
  body ;;*
  let* p2 := e_tell in
  e_seek p0 ;;*
  encodeUint16 (wrap 16 (p2 - p1)) ;;*
  e_seek p2.

Definition is_opt (type : RecordType.t) : bool := bool_decide (type = RecordType.e_OPT).

Definition encode `{Tokenizer} (r : t) : codec encoder unit :=
  encodeDomainName (d_name r) ;;*
  encodeUint16 (RecordType.code (d_type r)) ;;*
  (if is_opt (d_type r) then
     encodeUint16 (d_optSize r) ;;* encodeUint32 (d_optFlags r)
   else
     encodeUint16 (Classification.code (d_class r)) ;;* encodeUint32 (d_ttl r)) ;;*
  with_length (encode_rdata (d_rdata r)).

(** *** Decoding *)

(** The strings of a text: the comparison with the number of bytes that remain
    is the one of the code. *)
Fixpoint decode_text (fuel : nat) (numBytesRemaining : Z) (text : list (list byte)) :
    codec decoder (list (list byte)) :=
  match fuel with
  | O => fun _ => None
  | S fuel =>
      if 0 <? numBytesRemaining then
        let* s0 := d_tell in
        let* s := decodeCharacterString [] in
        let* s1 := d_tell in
        if numBytesRemaining <=? s1 - s0 then
          decode_text fuel (wrap 64 (numBytesRemaining - (s1 - s0))) (text ++ [s])
        else fail Error.e_INVALID
      else ret text
  end.

Definition decode_rdata (type : RecordType.t) (rdataLength : Z) : codec decoder ResourceRecordData.t :=
  match type with
  | RecordType.e_A =>
      check (checkExpectedRdataLength 4 rdataLength) ;;*
      let* address := decodeRaw 4 in
      ret (Ipv4 address)
  | RecordType.e_NS => let* name := decodeName in ret (NameServer name)
  | RecordType.e_CNAME => let* name := decodeName in ret (CanonicalName name)
  | RecordType.e_SOA =>
      let* mname := decodeName in
      let* rname := decodeName in
      let* serial := decodeUint32 in
      let* refresh := decodeUint32 in
      let* retry := decodeUint32 in
      let* expire := decodeUint32 in
      let* minimum := decodeUint32 in
      ret (ZoneAuthority mname rname serial refresh retry expire minimum)
  | RecordType.e_WKS =>
      let* address := decodeRaw 4 in
      let* protocol := decodeUint8 in
      if 4 + 1 <? rdataLength then
        let* bitset := decodeRaw (rdataLength - 4 - 1) in
        ret (WellKnownService address protocol (ports_of bitset))
      else ret (WellKnownService address protocol [])
  | RecordType.e_PTR => let* name := decodeName in ret (Pointer name)
  | RecordType.e_HINFO =>
      let* cpu := decodeCharacterString [] in
      let* os := decodeCharacterString [] in
      ret (HostInfo cpu os)
  | RecordType.e_MX =>
      let* preference := decodeUint16 in
      let* exchange := decodeName in
      ret (MailExchange preference exchange)
  | RecordType.e_TXT => let* text := decode_text 3 rdataLength [] in ret (Text text)
  | RecordType.e_AAAA =>
      check (checkExpectedRdataLength 16 rdataLength) ;;*
      let* address := decodeRaw 16 in
      ret (Ipv6 address)
  | RecordType.e_SVR => fail Error.e_NOT_IMPLEMENTED
  | _ => let* data := decodeRaw rdataLength in ret (Raw data)
  end.

(** The data of the record, unless there is none. *)
Definition decode_data (type : RecordType.t) (rdata : ResourceRecordData.t) : codec decoder ResourceRecordData.t :=
  let* rdataLength := decodeUint16 in
  if 0 <? rdataLength then
    let* p0 := d_tell in
    let* rdata := decode_rdata type rdataLength in
    let* p1 := d_tell in
    check (checkCoherentRdataLength rdataLength (p1 - p0)) ;;*
    ret rdata
  else ret rdata.

Definition decode (self : t) : codec decoder t :=
  let* name := decodeName in
  let* typeValue := decodeUint16 in
  let* type := Header.enumerated (RecordType.fromInt typeValue) in
  if is_opt type then
    let* optSize := decodeUint16 in
    let* optFlags := decodeUint32 in
    let* rdata := decode_data type (d_rdata self) in
    ret {| d_name := name; d_type := type; d_class := Classification.e_INTERNET; d_ttl := d_ttl self;
           d_optSize := optSize; d_optFlags := optFlags; d_rdata := rdata |}
  else
    let* classificationValue := decodeUint16 in
    let* class := Header.enumerated (Classification.fromInt classificationValue) in
    let* ttl := decodeUint32 in
    let* rdata := decode_data type (d_rdata self) in
    ret {| d_name := name; d_type := type; d_class := class; d_ttl := ttl;
           d_optSize := d_optSize self; d_optFlags := d_optFlags self; d_rdata := rdata |}.

End ResourceRecord.

(** ** [Message] *)

Module Message.

Record t : Set := {
  d_header : Header.t;
  d_qd : list Question.t;
  d_an : list ResourceRecord.t;
  d_ns : list ResourceRecord.t;
  d_ar : list ResourceRecord.t;
}.

Definition reset : t := {| d_header := Header.reset; d_qd := []; d_an := []; d_ns := []; d_ar := [] |}.

(** The setters of the header. *)
Definition with_header (h : Header.t) (m : t) : t :=
  {| d_header := h; d_qd := d_qd m; d_an := d_an m; d_ns := d_ns m; d_ar := d_ar m |}.

Definition setId (v : Z) (m : t) : t := with_header (Header.setId v (d_header m)) m.

Definition setDirection (v : Direction.t) (m : t) : t := with_header (Header.setDirection v (d_header m)) m.

Definition setOperation (v : Operation.t) (m : t) : t := with_header (Header.setOperation v (d_header m)) m.

Definition setAa (v : bool) (m : t) : t := with_header (Header.setAa v (d_header m)) m.

Definition setTc (v : bool) (m : t) : t := with_header (Header.setTc v (d_header m)) m.

Definition setRd (v : bool) (m : t) : t := with_header (Header.setRd v (d_header m)) m.

Definition setRa (v : bool) (m : t) : t := with_header (Header.setRa v (d_header m)) m.

Definition setAd (v : bool) (m : t) : t := with_header (Header.setAd v (d_header m)) m.

Definition setCd (v : bool) (m : t) : t := with_header (Header.setCd v (d_header m)) m.

Definition setError (v : ResponseError.t) (m : t) : t := with_header (Header.setError v (d_header m)) m.

Definition addQd (q : Question.t) (m : t) : option t :=
  let qd := d_qd m ++ [q] in
  header ← Header.setQdcount (size qd) (d_header m);
  Some {| d_header := header; d_qd := qd; d_an := d_an m; d_ns := d_ns m; d_ar := d_ar m |}.

Definition addAn (r : ResourceRecord.t) (m : t) : option t :=
  let an := d_an m ++ [r] in
  header ← Header.setAncount (size an) (d_header m);
  Some {| d_header := header; d_qd := d_qd m; d_an := an; d_ns := d_ns m; d_ar := d_ar m |}.

Definition addNs (r : ResourceRecord.t) (m : t) : option t :=
  let ns := d_ns m ++ [r] in
  header ← Header.setNscount (size ns) (d_header m);
  Some {| d_header := header; d_qd := d_qd m; d_an := d_an m; d_ns := ns; d_ar := d_ar m |}.

Definition addAr (r : ResourceRecord.t) (m : t) : option t :=
  let ar := d_ar m ++ [r] in
  header ← Header.setArcount (size ar) (d_header m);
  Some {| d_header := header; d_qd := d_qd m; d_an := d_an m; d_ns := d_ns m; d_ar := ar |}.

(** The elements before the index [n], each encoded. *)
Fixpoint encode_each {A} (encode : A -> codec encoder unit) (n : nat) (l : list A) : codec encoder unit :=
  match n, l with
  | O, _ => ret tt
  | S n, a :: rest => encode a ;;* encode_each encode n rest
  | S _, [] => fun _ => None
  end.

Definition encode `{Tokenizer} (m : t) : codec encoder unit :=
  let h := d_header m in
  Header.encode h ;;*
  encode_each Question.encode (Z.to_nat (Header.d_qdcount h)) (d_qd m) ;;*
  encode_each ResourceRecord.encode (Z.to_nat (Header.d_ancount h)) (d_an m) ;;*
  encode_each ResourceRecord.encode (Z.to_nat (Header.d_nscount h)) (d_ns m) ;;*
  encode_each ResourceRecord.encode (Z.to_nat (Header.d_arcount h)) (d_ar m).

Fixpoint decode_each {A} (decode : A -> codec decoder A) (l : list A) : codec decoder (list A) :=
  match l with
  | [] => ret []
  | a :: rest =>
      let* a := decode a in
      let* rest := decode_each decode rest in
      ret (a :: rest)
  end.

(** A section: the vector is resized to the count, unless that is zero. *)
Definition decode_section {A} (decode : A -> codec decoder A) (new : A) (count : Z) (l : list A) :
    codec decoder (list A) :=
  if 0 <? count then
    decode_each decode (take (Z.to_nat count) l ++ replicate (Z.to_nat count - length l) new)
  else ret l.

Definition decode (self : t) : codec decoder t :=
  let* header := Header.decode (d_header self) in
  let* qd := decode_section Question.decode Question.reset (Header.d_qdcount header) (d_qd self) in
  let* an := decode_section ResourceRecord.decode ResourceRecord.reset (Header.d_ancount header) (d_an self) in
  let* ns := decode_section ResourceRecord.decode ResourceRecord.reset (Header.d_nscount header) (d_ns self) in
  let* ar := decode_section ResourceRecord.decode ResourceRecord.reset (Header.d_arcount header) (d_ar self) in
  ret {| d_header := header; d_qd := qd; d_an := an; d_ns := ns; d_ar := ar |}.

End Message.
