(* ===== verification/DnsCodecFacts.v ===== *)
(** * What the cursors of the domain name system promise

    [writes], [reads] and [total] state what an encoding or decoding operation
    does with its buffer; the lemmas show them of every operation of DnsCodec and
    along sequences. *)

From Stdlib Require Import Strings.Byte.
From S2P Require Import Prelude Errors DnsCodec.

Module DnsCodecFacts.

Import DnsCodec.

(** ** Encoding *)

(** A cursor within a buffer of less than half of the memory. *)
Definition within (data : list byte) (position : Z) : Prop := 0 <= position <= size data /\ size data < 2 ^ 63.

Definition encoder_ok (e : encoder) : Prop := within (e_data e) (e_position e).

(** What an operation that fails leaves: the bytes before the position and the
    size of the buffer. *)
Record untouched (e e' : encoder) : Prop := {
  u_size : size (e_data e') = size (e_data e);
  u_before : take (Z.to_nat (e_position e)) (e_data e') = take (Z.to_nat (e_position e)) (e_data e);
}.

(** The operation puts [bs] at the position when they fit, and else fails without
    touching what precedes the position. *)
Definition writes (f : codec encoder unit) (bs : list byte) : Prop :=
  forall e, encoder_ok e ->
  if e_position e + size bs <=? size (e_data e) then f e = Some (inr tt, put bs e)
  else exists e', f e = Some (inl Error.e_INVALID, e') /\ untouched e e'.

Lemma untouched_refl e : untouched e e.
Proof. by split. Qed.

Lemma size_put bs e : encoder_ok e -> e_position e + size bs <= size (e_data e) -> size (e_data (put bs e)) = size (e_data e).
Proof.
  intros [Hp _] Hfit. cbn [put e_data]. pose proof (size_nonneg bs). rewrite !size_app, size_take, size_drop; lia.
Qed.

Lemma put_ok bs e : encoder_ok e -> e_position e + size bs <= size (e_data e) -> encoder_ok (put bs e).
Proof.
  intros He Hfit. pose proof (size_put bs e He Hfit) as Hs. destruct He as [Hp Hb]. unfold encoder_ok, within.
  rewrite Hs. cbn [put e_position]. pose proof (size_nonneg bs). lia.
Qed.

Lemma take_put bs e : encoder_ok e -> e_position e + size bs <= size (e_data e) ->
  take (Z.to_nat (e_position e + size bs)) (e_data (put bs e)) = take (Z.to_nat (e_position e)) (e_data e) ++ bs.
Proof.
  intros [Hp _] Hfit. cbn [put e_data]. pose proof (size_nonneg bs). rewrite app_assoc. rewrite take_app_le.
  - apply take_ge. rewrite length_app, length_take. unfold size in *. lia.
  - rewrite length_app, length_take. unfold size in *. lia.
Qed.

Lemma drop_put bs n e : encoder_ok e -> 0 <= n -> e_position e + size bs + n <= size (e_data e) ->
  drop (Z.to_nat (e_position e + size bs + n)) (e_data (put bs e)) = drop (Z.to_nat (e_position e + size bs + n)) (e_data e).
Proof.
  intros [Hp _] Hn Hfit. cbn [put e_data]. pose proof (size_nonneg bs). unfold size in *.
  rewrite app_assoc, drop_app_ge; rewrite length_app, length_take; [|lia]. rewrite drop_drop. f_equal. lia.
Qed.

Lemma put_put bs1 bs2 e : encoder_ok e -> e_position e + size (bs1 ++ bs2) <= size (e_data e) ->
  put bs2 (put bs1 e) = put (bs1 ++ bs2) e.
Proof.
  intros He Hfit. rewrite size_app in Hfit. pose proof (size_nonneg bs1). pose proof (size_nonneg bs2).
  pose proof (take_put bs1 e He ltac:(lia)) as Ht. pose proof (drop_put bs1 (size bs2) e He ltac:(lia) ltac:(lia)) as Hd.
  unfold put in *. cbn [e_data e_position] in *. rewrite Ht, Hd, size_app, Z.add_assoc, <- !app_assoc. done.
Qed.

Lemma untouched_put bs e e' : encoder_ok e -> e_position e + size bs <= size (e_data e) ->
  untouched (put bs e) e' -> untouched e e'.
Proof.
  intros He Hfit [Hs Ht]. split; [by rewrite Hs, size_put|]. cbn [e_position put] in Ht.
  rewrite (take_put bs e He Hfit) in Ht. pose proof (size_nonneg bs). destruct He as [Hp _].
  apply (f_equal (take (Z.to_nat (e_position e)))) in Ht. rewrite take_take, Nat.min_l in Ht by lia.
  rewrite Ht, take_app_le by (rewrite length_take; unfold size in *; lia). by rewrite take_take, Nat.min_id.
Qed.

Lemma writes_ext f g bs : (forall e, f e = g e) -> writes f bs -> writes g bs.
Proof. intros Hfg Hf e He. specialize (Hf e He). by rewrite <- Hfg. Qed.

Lemma writes_ret : writes (ret tt) [].
Proof.
  intros e [Hp Hb]. rewrite size_nil, Z.add_0_r, (proj2 (Z.leb_le _ _)) by lia. unfold ret, put. do 2 f_equal.
  rewrite size_nil, Z.add_0_r. cbn [app]. rewrite take_drop. by destruct e.
Qed.

Lemma writes_bind f g bs1 bs2 : writes f bs1 -> writes g bs2 -> writes (f ;;* g) (bs1 ++ bs2).
Proof.
  intros Hf Hg e He. specialize (Hf e He). unfold bind. rewrite size_app.
  pose proof (size_nonneg bs1). pose proof (size_nonneg bs2).
  destruct (Z.leb_spec (e_position e + size bs1) (size (e_data e))) as [Hfit|Hno].
  - rewrite Hf. pose proof (put_ok bs1 e He Hfit) as He1. specialize (Hg _ He1).
    rewrite (size_put bs1 e He Hfit) in Hg. cbn [put e_position] in Hg. rewrite Z.add_assoc.
    destruct (Z.leb_spec (e_position e + size bs1 + size bs2) (size (e_data e))) as [Hfit2|Hno2].
    + rewrite Hg. do 2 f_equal. apply put_put; [done|]. rewrite size_app. lia.
    + destruct Hg as (e' & -> & Hu). exists e'. split; [done|]. by eapply untouched_put.
  - rewrite (proj2 (Z.leb_gt _ _)) by lia. destruct Hf as (e' & -> & Hu). by exists e'.
Qed.

Lemma writes_app f bs bs' : writes f bs -> bs = bs' -> writes f bs'.
Proof. by intros ? ->. Qed.

Lemma codec_bind_assoc {S A B C} (f : codec S A) (g : A -> codec S B) (h : B -> codec S C) s :
  bind (bind f g) h s = bind f (fun a => bind (g a) h) s.
Proof. unfold bind. by destruct (f s) as [[[|] ?]|]. Qed.

Lemma wrap_remaining data position : within data position -> wrap 64 (size data - position) = size data - position.
Proof. intros [? ?]. apply wrap_small. lia. Qed.

Lemma writes_raw bs : writes (encodeRaw bs) bs.
Proof.
  intros e He. unfold encodeRaw, bind, overflow, check, checkOverflow. rewrite wrap_remaining by done.
  destruct (Z.leb_spec (e_position e + size bs) (size (e_data e))) as [Hfit|Hno].
  - rewrite (proj2 (Z.ltb_ge _ _)) by lia. cbn. unfold store. destruct He as [Hp _].
    rewrite (proj2 (Z.leb_le _ _)), (proj2 (Z.leb_le _ _)) by lia. done.
  - rewrite (proj2 (Z.ltb_lt _ _)) by lia. cbn. exists e. by split.
Qed.

(** A check of the space and the bytes that need it. *)
Lemma writes_store n bs : size bs = n -> writes (overflow n ;;* store bs) bs.
Proof. intros <-. apply writes_raw. Qed.

Lemma writes_store_next n bs g bs' :
  size bs = n -> writes g bs' -> writes (overflow n ;;* store bs ;;* g) (bs ++ bs').
Proof.
  intros Hn Hg. eapply writes_ext; [|apply writes_bind; [by apply writes_store|exact Hg]].
  intros e. apply codec_bind_assoc.
Qed.

Lemma writes_check err g bs : err = Error.e_OK -> writes g bs -> writes (check err ;;* g) bs.
Proof. intros -> Hg. exact Hg. Qed.

Lemma writes_uint8 v : writes (encodeUint8 v) [octet v].
Proof. by apply writes_store. Qed.

Lemma writes_uint16 v : writes (encodeUint16 v) (be16 v).
Proof. by apply writes_store. Qed.

Lemma writes_uint32 v : writes (encodeUint32 v) (be32 v).
Proof. by apply writes_store. Qed.

(** ** Strings and names on the wire *)

Definition wire_string (v : list byte) : list byte := octet (size v) :: v.

Definition wire_labels (labels : list (list byte)) : list byte := concat (wire_string <$> labels).

Definition wire_name `{Tokenizer} (name : list byte) : list byte := wire_labels (tokens name) ++ [x00].

Definition short (label : list byte) : Prop := size label <= k_MAX_LABEL_LENGTH.

Lemma writes_labels `{Tokenizer} labels : Forall short labels -> writes (encodeLabels labels) (wire_labels labels).
Proof.
  induction 1 as [|l labels Hl _ IH]; [apply writes_ret|]. cbn [encodeLabels].
  apply writes_check; [unfold checkToken, invalid_if; by rewrite (proj2 (Z.ltb_ge _ _))|].
  unfold wire_labels. cbn [fmap list_fmap concat]. unfold wire_string at 1. rewrite <- app_comm_cons.
  change (octet (size l) :: l ++ concat (wire_string <$> labels)) with ([octet (size l)] ++ l ++ concat (wire_string <$> labels)).
  apply writes_store_next; [done|]. by apply writes_store_next.
Qed.

Lemma encodeLabels_app `{Tokenizer} l1 l2 e : encodeLabels (l1 ++ l2) e = (encodeLabels l1 ;;* encodeLabels l2) e.
Proof.
  revert e. induction l1 as [|l l1 IH]; intros e; [done|]. cbn [app encodeLabels]. unfold bind in *.
  repeat (let x := match goal with |- match ?f with _ => _ end = match match ?f with _ => _ end with _ => _ end => f end in
    destruct x as [[[?|?] ?]|]; [done| |done]). apply IH.
Qed.

Lemma first_long labels : Exists (fun label => k_MAX_LABEL_LENGTH < size label) labels ->
  exists l1 label l2, labels = l1 ++ label :: l2 /\ Forall short l1 /\ k_MAX_LABEL_LENGTH < size label.
Proof.
  induction labels as [|l labels IH]; intros He; [by apply Exists_nil in He|].
  destruct (Z.leb_spec (size l) k_MAX_LABEL_LENGTH) as [Hs|Hs].
  - apply Exists_cons in He as [He|He]; [lia|]. destruct (IH He) as (l1 & label & l2 & -> & Hf & Hl).
    exists (l :: l1), label, l2. split; [done|]. split; [by constructor|done].
  - by exists [], l, labels.
Qed.

(** The labels before one that is too long may be written. *)
Lemma long_label `{Tokenizer} labels (g : codec encoder unit) e :
  Exists (fun label => k_MAX_LABEL_LENGTH < size label) labels -> encoder_ok e ->
  exists e', (encodeLabels labels ;;* g) e = Some (inl Error.e_INVALID, e') /\ untouched e e'.
Proof.
  intros (l1 & label & l2 & -> & Hs & Hl)%first_long He. unfold bind. rewrite encodeLabels_app. unfold bind at 1.
  pose proof (writes_labels l1 Hs e He) as Hw.
  destruct (Z.leb_spec (e_position e + size (wire_labels l1)) (size (e_data e))) as [Hfit|Hno].
  - rewrite Hw. cbn [encodeLabels]. unfold bind, checkToken, invalid_if. rewrite (proj2 (Z.ltb_lt _ _)) by done.
    eexists. split; [done|]. eapply untouched_put; [done|exact Hfit|apply untouched_refl].
  - destruct Hw as (e' & -> & Hu). by exists e'.
Qed.

Lemma writes_name `{Tokenizer} name : Forall short (tokens name) -> writes (encodeDomainName name) (wire_name name).
Proof. intros Hl. apply writes_bind; [by apply writes_labels|]. by apply writes_store. Qed.

Lemma writes_string v : size v <= k_MAX_CHARACTER_STRING_LENGTH -> writes (encodeCharacterString v) (wire_string v).
Proof.
  intros Hv. apply writes_check; [unfold checkCharacterString, invalid_if; by rewrite (proj2 (Z.ltb_ge _ _))|].
  change (wire_string v) with ([octet (size v)] ++ v). apply writes_store_next; [done|]. by apply writes_store.
Qed.

(** *** Any value *)

(** The operation returns, without leaving the buffer, and touches neither its
    size nor what precedes the position. *)
Definition contained (f : codec encoder unit) : Prop := forall e, encoder_ok e ->
  exists r e', f e = Some (r, e') /\ untouched e e' /\ encoder_ok e' /\ e_position e <= e_position e'.

Lemma untouched_trans e1 e2 e3 : untouched e1 e2 -> untouched e2 e3 -> e_position e1 <= e_position e2 ->
  untouched e1 e3.
Proof.
  intros [S1 T1] [S2 T2] Hp. split; [congruence|]. rewrite <- T1.
  apply (f_equal (take (Z.to_nat (e_position e1)))) in T2. rewrite !take_take, Nat.min_l in T2 by lia. done.
Qed.

Lemma contained_ret : contained (ret tt).
Proof. intros e He. eexists _, e. split; [done|]. split; [apply untouched_refl|]. split; [done|lia]. Qed.

Lemma contained_fail err : contained (fail err).
Proof. intros e He. eexists _, e. split; [done|]. split; [apply untouched_refl|]. split; [done|lia]. Qed.

Lemma contained_check err : contained (check err).
Proof. unfold check. destruct (Error.is_error err); [apply contained_fail|apply contained_ret]. Qed.

Lemma contained_bind f (g : unit -> codec encoder unit) :
  contained f -> (forall a, contained (g a)) -> contained (bind f g).
Proof.
  intros Hf Hg e He. unfold bind. destruct (Hf e He) as (r & e1 & -> & Hu & H1 & Hp).
  destruct r as [err|a]; [by eexists _, _|]. destruct (Hg a e1 H1) as (r & e2 & -> & Hu2 & H2 & Hp2).
  eexists _, _. split; [done|]. split; [by eapply untouched_trans|]. split; [done|lia].
Qed.

Lemma contained_raw bs : contained (encodeRaw bs).
Proof.
  intros e He. pose proof (writes_raw bs e He) as Hw. pose proof (size_nonneg bs).
  destruct (Z.leb_spec (e_position e + size bs) (size (e_data e))) as [Hfit|Hno].
  - rewrite Hw. eexists _, _. split; [done|]. split; [apply (untouched_put bs); [done|done|apply untouched_refl]|].
    split; [by apply put_ok|cbn; lia].
  - destruct Hw as (e' & E & Hu). assert (e' = e) as ->.
    { revert E. unfold encodeRaw, bind, overflow, check, checkOverflow, invalid_if. rewrite wrap_remaining by done.
      rewrite (proj2 (Z.ltb_lt _ _)) by lia. cbn. congruence. }
    eexists _, e. split; [done|]. split; [done|]. split; [done|lia].
Qed.

Lemma contained_checked n bs : size bs = n -> contained (overflow n ;;* store bs).
Proof. intros <-. exact (contained_raw bs). Qed.

Lemma contained_checked_next n bs g : size bs = n -> contained g -> contained (overflow n ;;* store bs ;;* g).
Proof.
  intros Hn Hg e He. rewrite <- codec_bind_assoc. revert e He. apply contained_bind; [by apply contained_checked|done].
Qed.

Lemma contained_labels `{Tokenizer} labels : contained (encodeLabels labels).
Proof.
  induction labels as [|l labels IH]; cbn [encodeLabels]; [apply contained_ret|].
  apply contained_bind; [apply contained_check|]. intros _.
  apply contained_checked_next; [done|]. by apply contained_checked_next.
Qed.

Lemma contained_name `{Tokenizer} name : contained (encodeDomainName name).
Proof. apply contained_bind; [apply contained_labels|]. intros _. by apply contained_checked. Qed.

Lemma contained_string v : contained (encodeCharacterString v).
Proof.
  apply contained_bind; [apply contained_check|]. intros _. apply contained_checked_next; [done|].
  by apply contained_checked.
Qed.

Lemma contained_uint8 v : contained (encodeUint8 v).
Proof. by apply contained_checked. Qed.

Lemma contained_uint16 v : contained (encodeUint16 v).
Proof. by apply contained_checked. Qed.

Lemma contained_uint32 v : contained (encodeUint32 v).
Proof. by apply contained_checked. Qed.

Ltac contained_tac :=
  repeat first
    [ apply contained_uint8 | apply contained_uint16 | apply contained_uint32 | apply contained_raw
    | apply contained_name | apply contained_string | apply contained_ret | apply contained_fail
    | apply contained_bind; [|intros ?] ].

(** ** Decoding *)

Definition decoder_ok (d : decoder) : Prop := within (d_data d) (d_position d).

Definition at_ (data : list byte) (position : Z) : decoder := {| d_data := data; d_position := position |}.

(** The operation takes [bs] from any place of a buffer and returns [a]. *)
Definition reads {A} (f : codec decoder A) (bs : list byte) (a : A) : Prop :=
  forall before after, size (before ++ bs ++ after) < 2 ^ 63 ->
  f (at_ (before ++ bs ++ after) (size before)) = Some (inr a, at_ (before ++ bs ++ after) (size before + size bs)).

(** The operation always returns, without leaving the buffer or going back. *)
Definition total {A} (f : codec decoder A) : Prop :=
  forall d, decoder_ok d -> exists r d', f d = Some (r, d') /\ decoder_ok d' /\ d_data d' = d_data d /\
    d_position d <= d_position d'.

Lemma reads_ret {A} (a : A) : reads (ret a) [] a.
Proof. intros before after _. by rewrite size_nil, Z.add_0_r. Qed.

Lemma reads_bind {A B} (f : codec decoder A) (g : A -> codec decoder B) bs1 bs2 a b :
  reads f bs1 a -> reads (g a) bs2 b -> reads (bind f g) (bs1 ++ bs2) b.
Proof.
  intros Hf Hg before after Hs. rewrite <- app_assoc in *. unfold bind. rewrite Hf by done.
  specialize (Hg (before ++ bs1) after). rewrite <- !app_assoc, !size_app in Hg. rewrite size_app.
  rewrite !size_app in Hs. rewrite Hg by lia. by rewrite Z.add_assoc.
Qed.

Lemma reads_bind_nil {A B} (f : codec decoder A) (g : A -> codec decoder B) bs a b :
  reads f bs a -> reads (g a) [] b -> reads (bind f g) bs b.
Proof. intros Hf Hg. rewrite <- (app_nil_r bs). by eapply reads_bind. Qed.

Lemma slice_middle before bs after : slice (size before) (size bs) (before ++ bs ++ after) = Some bs.
Proof.
  unfold slice. pose proof (size_nonneg before). pose proof (size_nonneg bs). pose proof (size_nonneg after).
  rewrite !(proj2 (Z.leb_le _ _)) by (rewrite ?size_app; lia). cbn.
  unfold size. rewrite !Nat2Z.id, drop_app_length, take_app_length. done.
Qed.

Lemma reads_raw bs n : n = size bs -> reads (decodeRaw n) bs bs.
Proof.
  intros -> before after Hs. unfold decodeRaw, bind, underflow, check, checkUnderflow, at_. cbn [d_data d_position].
  pose proof (size_nonneg before). pose proof (size_nonneg bs). pose proof (size_nonneg after).
  rewrite wrap_remaining by (split; [rewrite !size_app|]; lia).
  unfold invalid_if. rewrite (proj2 (Z.ltb_ge _ _)) by (rewrite !size_app; lia). cbn. unfold fetch. cbn [d_data d_position].
  by rewrite slice_middle.
Qed.

Lemma reads_uint n bs : n = size bs -> reads (decodeUint n) bs (of_be bs).
Proof. intros ->. eapply reads_bind_nil; [by apply reads_raw|apply reads_ret]. Qed.

Lemma reads_uint8 v : 0 <= v < 2 ^ 8 -> reads decodeUint8 [octet v] v.
Proof.
  intros Hv. pose proof (reads_uint 1 [octet v] eq_refl) as Hr. unfold of_be in Hr. cbn [foldl] in Hr.
  rewrite value_octet, wrap_small in Hr by done. exact Hr.
Qed.

Lemma reads_uint16 v : 0 <= v < 2 ^ 16 -> reads decodeUint16 (be16 v) v.
Proof. intros Hv. rewrite <- (of_be16 v Hv) at 2. by apply reads_uint. Qed.

Lemma reads_uint32 v : 0 <= v < 2 ^ 32 -> reads decodeUint32 (be32 v) v.
Proof. intros Hv. rewrite <- (of_be32 v Hv) at 2. by apply reads_uint. Qed.

Lemma reads_string v s : size v <= k_MAX_CHARACTER_STRING_LENGTH -> reads (decodeCharacterString s) (wire_string v) (s ++ v).
Proof.
  intros Hv. pose proof (size_nonneg v). unfold k_MAX_CHARACTER_STRING_LENGTH in Hv.
  change (wire_string v) with ([octet (size v)] ++ v). eapply reads_bind; [by apply reads_uint8; lia|].
  destruct (Z.ltb_spec 0 (size v)).
  - eapply reads_bind_nil; [by apply reads_raw|apply reads_ret].
  - rewrite (size_zero_inv v), app_nil_r by lia. apply reads_ret.
Qed.

(** *** Totality *)

Lemma total_ret {A} (a : A) : total (ret a).
Proof. intros d Hd. exists (inr a), d. split; [done|]. split; [done|]. split; [done|lia]. Qed.

Lemma total_fail {A} e : total (fail (A := A) e).
Proof. intros d Hd. exists (inl e), d. split; [done|]. split; [done|]. split; [done|lia]. Qed.

Lemma total_bind {A B} (f : codec decoder A) (g : A -> codec decoder B) :
  total f -> (forall a, total (g a)) -> total (bind f g).
Proof.
  intros Hf Hg d Hd. unfold bind. destruct (Hf d Hd) as ([e|a] & d1 & -> & H1 & E1 & Hle).
  - by exists (inl e), d1.
  - destruct (Hg a d1 H1) as (r & d2 & -> & H2 & E2 & Hle2). exists r, d2.
    split; [done|]. split; [done|]. split; [congruence|lia].
Qed.

Lemma total_check e : total (check e).
Proof. unfold check. destruct (Error.is_error e); [apply total_fail|apply total_ret]. Qed.

Lemma total_tell : total d_tell.
Proof. intros d Hd. eexists _, d. split; [done|]. split; [done|]. split; [done|lia]. Qed.

Lemma total_raw n : 0 <= n -> total (decodeRaw n).
Proof.
  intros Hn d Hd. unfold decodeRaw, bind, underflow, check, checkUnderflow, invalid_if. rewrite wrap_remaining by done.
  destruct (Z.ltb_spec (size (d_data d) - d_position d) n) as [Hlt|Hge]; cbn.
  - exists (inl Error.e_INVALID), d. split; [done|]. split; [done|]. split; [done|lia].
  - unfold fetch, slice. destruct Hd as [Hp Hb]. rewrite !(proj2 (Z.leb_le _ _)) by lia. cbn. eexists _, _. split; [done|].
    split; [split; cbn; lia|]. split; [done|cbn; lia].
Qed.

Lemma total_uint n : 0 <= n -> total (decodeUint n).
Proof. intros Hn. apply total_bind; [by apply total_raw|]. intros bs. apply total_ret. Qed.

Lemma total_uint16 : total decodeUint16.
Proof. by apply total_uint. Qed.

Lemma total_uint32 : total decodeUint32.
Proof. by apply total_uint. Qed.

Lemma total_string v : total (decodeCharacterString v).
Proof.
  apply total_bind; [by apply total_uint|]. intros n. destruct (Z.ltb_spec 0 n); [|apply total_ret].
  apply total_bind; [by apply total_raw; lia|]. intros bs. apply total_ret.
Qed.

End DnsCodecFacts.
