(* ===== verification/DnsNames.v ===== *)
(** * Compressed names

    [name_at] is the reference of the names of a message (RFC 1035, 4.1.4): a name
    is a sequence of labels that ends with a zero octet or with a pointer to
    another name.  [MemoryDecoder::decodeDomainName] decodes a name exactly when
    it is one, with at most 33 pointers. *)

From Stdlib Require Import Strings.Byte.
From S2P Require Import Prelude Errors DnsCodec DnsCodecFacts.

Module DnsNames.

Import DnsCodec DnsCodecFacts.

(** ** The reference *)

Section Names.

Context (data : list byte).

(** The labels of the name at an offset, and the offset after it, with a bound on
    the pointers.  A pointer to the root counts as an empty label, as the decoder
    has it. *)
Inductive name_at : nat -> Z -> list (list byte) -> Z -> Prop :=
  | name_end pointers offset b :
      data !! Z.to_nat offset = Some b -> value b = 0 -> name_at pointers offset [] (offset + 1)
  | name_label pointers offset b rest stop :
      data !! Z.to_nat offset = Some b -> 0 < value b <= 63 -> offset + 1 + value b <= size data ->
      name_at pointers (offset + 1 + value b) rest stop ->
      name_at pointers offset (take (Z.to_nat (value b)) (drop (Z.to_nat (offset + 1)) data) :: rest) stop
  | name_pointer pointers offset b1 b2 labels stop :
      data !! Z.to_nat offset = Some b1 -> data !! Z.to_nat (offset + 1) = Some b2 -> 192 <= value b1 ->
      name_at pointers ((value b1 - 192) * 256 + value b2) labels stop ->
      name_at (S pointers) offset (match labels with [] => [[]] | _ => labels end) (offset + 2).

Lemma name_at_fun p o l1 s1 l2 s2 : name_at p o l1 s1 -> name_at p o l2 s2 -> l1 = l2 /\ s1 = s2.
Proof.
  intros H. revert l2 s2. induction H; intros l2 s2; inversion 1; subst; simplify_eq; try lia; try done.
  - edestruct IHname_at as [-> ->]; [eassumption|]. done.
  - edestruct IHname_at as [-> ->]; [eassumption|]. done.
Qed.

Lemma lookup_size o b : data !! Z.to_nat o = Some b -> 0 <= o -> o < size data.
Proof. intros H Ho. apply lookup_lt_Some in H. unfold size. lia. Qed.

(** ** One name *)

(** The decoder appends the labels to what it has of the name. *)
Definition extend (name : list byte) (labels : list (list byte)) : list byte :=
  match labels with
  | [] => name
  | _ => match name with [] => [] | _ => name ++ [dot] end ++ join labels
  end.

Definition resolves (pointers : nat) (f : Z -> option (Error.t + list byte)) : Prop :=
  forall o, 0 <= o -> exists r, f o = Some r /\
  match r with
  | inr name => exists labels stop, name_at pointers o labels stop /\ name = join labels
  | inl e => e = Error.e_INVALID /\ forall labels stop, ~ name_at pointers o labels stop
  end.

Definition follows (pointers : nat) (follow : option (Z -> option (Error.t + list byte))) : Prop :=
  match follow with
  | None => pointers = O
  | Some f => exists p, pointers = S p /\ resolves p f
  end.

Lemma slice_one o : within data o -> o < size data -> exists b, data !! Z.to_nat o = Some b /\ slice o 1 data = Some [b].
Proof.
  intros [Ho _] Hlt. destruct (lookup_lt_is_Some_2 data (Z.to_nat o)) as [b Hb]; [unfold size in *; lia|].
  exists b. split; [done|]. unfold slice. rewrite !(proj2 (Z.leb_le _ _)) by lia. cbn [andb].
  by rewrite (drop_S _ b) by done.
Qed.

(** The octets of a tag, by cases. *)
Definition tag_ok (v : Z) : bool :=
  (Z.land v 0xC0 =? 0xC0) && (Z.shiftl (Z.land v 0x3F) 8 =? (v - 192) * 256).

Lemma tag_octets : forallb (fun v => if 192 <=? Z.of_nat v then tag_ok (Z.of_nat v) else
  implb (64 <=? Z.of_nat v) (negb (Z.land (Z.of_nat v) 0xC0 =? 0xC0))) (seq 0 256) = true.
Proof. vm_compute. reflexivity. Qed.

Lemma tag_octet v : 0 <= v < 256 ->
  if 192 <=? v then Z.land v 0xC0 = 0xC0 /\ Z.shiftl (Z.land v 0x3F) 8 = (v - 192) * 256
  else 64 <= v -> Z.land v 0xC0 <> 0xC0.
Proof.
  intros Hv. pose proof tag_octets as H. rewrite forallb_forall in H. specialize (H (Z.to_nat v)).
  rewrite Z2Nat.id in H by lia. specialize (H ltac:(apply in_seq; lia)). destruct (192 <=? v).
  - apply andb_prop in H as [?%Z.eqb_eq ?%Z.eqb_eq]. done.
  - intros Hle. rewrite (proj2 (Z.leb_le _ _)) in H by done. cbn in H. by apply negb_true_iff, Z.eqb_neq in H.
Qed.

(** A compression tag and its second octet. *)
Lemma pointer_offset v w : 192 <= v < 256 -> 0 <= w < 256 ->
  Z.lor (Z.shiftl (Z.land v 0x3F) 8) w = (v - 192) * 256 + w.
Proof.
  intros Hv Hw. pose proof (tag_octet v ltac:(lia)) as Ht. rewrite (proj2 (Z.leb_le _ _)) in Ht by lia.
  destruct Ht as [_ ->]. change 256 with (2 ^ 8) at 1. by rewrite lor_disjoint by lia.
Qed.

(** What the loop returns, relative to the reference. *)
Definition decoded (pointers : nat) (current : Z) (name : list byte) (r : Error.t * list byte * Z) : Prop :=
  let '(e, name', current') := r in
  current <= current' <= size data /\
  match e with
  | Error.e_OK => exists labels, name_at pointers current labels current' /\ name' = extend name labels
  | Error.e_INVALID => forall labels stop, ~ name_at pointers current labels stop
  | _ => False
  end.

Lemma extend_label name label rest :
  label <> [] -> extend (match name with [] => [] | _ => name ++ [dot] end ++ label) rest = extend name (label :: rest).
Proof.
  intros Hl. destruct rest as [|l rest]; [done|]. cbn [extend].
  destruct (match name with [] => [] | _ => name ++ [dot] end ++ label) as [|b n] eqn:E.
  - apply app_eq_nil in E as [_ ?]. done.
  - rewrite <- E, <- !app_assoc. done.
Qed.

Lemma remaining current n : within data current -> checkUnderflow (wrap 64 (size data - current)) n =
  invalid_if (size data - current <? n).
Proof. intros Hw. unfold checkUnderflow. by rewrite wrap_remaining. Qed.

Lemma decode_labels_spec fuel : forall pointers follow current name,
  within data current -> size data - current < Z.of_nat fuel -> follows pointers follow ->
  exists r, decode_labels fuel data follow current name = Some r /\ decoded pointers current name r.
Proof.
  induction fuel as [|fuel IH]; intros pointers follow current name Hw Hfuel Hf; [destruct Hw; lia|].
  cbn [decode_labels]. rewrite remaining by done. pose proof Hw as [Hc Hb].
  destruct (Z.ltb_spec (size data - current) 1) as [Hlt|Hge]; cbn [invalid_if Error.is_error].
  { eexists. split; [done|]. split; [lia|]. intros labels stop Hn.
    assert (exists b, data !! Z.to_nat current = Some b) as [b Hl] by (inversion Hn; eauto).
    apply lookup_size in Hl; lia. }
  destruct (slice_one current Hw ltac:(lia)) as (b & Hl & ->). cbn [mbind option_bind].
  change (of_be [b]) with (value b). pose proof (value_range b) as Hv.
  destruct (Z.eqb_spec (value b) 0) as [E0|N0].
  { eexists. split; [done|]. split; [lia|]. exists []. split; [by eapply name_end|done]. }
  unfold k_MAX_LABEL_LENGTH. destruct (Z.leb_spec (value b) 63) as [Hle|Hgt].
  - assert (within data (current + 1)) as Hw1 by (split; lia). rewrite remaining by done.
    destruct (Z.ltb_spec (size data - (current + 1)) (value b)) as [Hlt|Hge1]; cbn [invalid_if Error.is_error].
    { eexists. split; [done|]. split; [lia|]. intros labels stop Hn. inversion Hn; simplify_eq; lia. }
    unfold slice. rewrite !(proj2 (Z.leb_le _ _)) by lia. cbn [andb mbind option_bind].
    set (label := take (Z.to_nat (value b)) (drop (Z.to_nat (current + 1)) data)).
    destruct (IH pointers follow (current + 1 + value b) (match name with [] => [] | _ => name ++ [dot] end ++ label))
      as ([[e name'] current'] & E & Hle' & Hd); [split; lia|lia|done|].
    eexists. split; [exact E|]. split; [lia|]. destruct e; try done.
    + destruct Hd as (rest & Hn & ->). exists (label :: rest). split; [eapply name_label; [done|lia|lia|done]|].
      apply extend_label. intros El. apply (f_equal size) in El. unfold label in El.
      rewrite size_take, size_nil in El; [lia|]. rewrite size_drop; lia.
    + intros labels stop Hn. inversion Hn; simplify_eq; try lia. by eapply Hd.
  - destruct follow as [f|]; cbn [follows] in Hf.
    2: { subst. eexists. split; [done|]. split; [lia|]. intros labels stop Hn. inversion Hn; simplify_eq; lia. }
    destruct Hf as (p & -> & Hres). pose proof (tag_octet (value b) Hv) as Ht.
    destruct (Z.leb_spec 192 (value b)) as [Htag|Hno].
    2: { rewrite (proj2 (Z.eqb_neq _ _)) by (apply Ht; lia). eexists. split; [done|]. split; [lia|].
         intros labels stop Hn. inversion Hn; simplify_eq; lia. }
    destruct Ht as [-> _]. rewrite Z.eqb_refl. assert (within data (current + 1)) as Hw1 by (split; lia).
    rewrite remaining by done.
    destruct (Z.ltb_spec (size data - (current + 1)) 1) as [Hlt|Hge1]; cbn [invalid_if Error.is_error].
    { eexists. split; [done|]. split; [lia|]. intros labels stop Hn. inversion Hn; simplify_eq; try lia.
      match goal with H : data !! Z.to_nat (current + 1) = Some _ |- _ => apply lookup_size in H end; lia. }
    destruct (slice_one (current + 1) Hw1 ltac:(lia)) as (b2 & Hl2 & ->). cbn [mbind option_bind].
    change (of_be [b2]) with (value b2). pose proof (value_range b2) as Hv2. rewrite pointer_offset by lia.
    destruct (Hres ((value b - 192) * 256 + value b2) ltac:(lia)) as (r & -> & Hr). cbn [mbind option_bind].
    destruct r as [e|reference].
    + destruct Hr as [-> Hr]. eexists. split; [done|]. split; [lia|].
      intros labels stop Hn. inversion Hn; simplify_eq; try lia. by eapply Hr.
    + destruct Hr as (labels & stop & Hn & ->). eexists. split; [done|]. split; [lia|].
      exists (match labels with [] => [[]] | _ => labels end). split.
      * replace (current + 1 + 1) with (current + 2) by lia. by eapply name_pointer.
      * by destruct labels.
Qed.

Lemma decodeLabel_resolves levels : size data < 2 ^ 63 -> resolves levels (decodeLabel levels data).
Proof.
  intros Hs. induction levels as [|levels IH]; intros o Ho; cbn [decodeLabel];
    (destruct (Z.ltb_spec (size data) o) as [Hlt|Hge];
     [eexists; split; [done|]; split; [done|]; intros labels stop Hn;
      assert (exists b, data !! Z.to_nat o = Some b) as [b Hl] by (inversion Hn; eauto); apply lookup_size in Hl; lia|]).
  - destruct (decode_labels_spec (S (length data)) O None o [] (conj (conj Ho Hge) Hs)) as ([[e name] c] & -> & _ & Hd);
      [unfold size in *; lia|done|]. cbn [mbind option_bind]. eexists. split; [done|].
    destruct e; try done; cbn [Error.is_error]. destruct Hd as (labels & Hn & ->). exists labels, c. split; [done|].
    by destruct labels.
  - destruct (decode_labels_spec (S (length data)) (S levels) (Some (decodeLabel levels data)) o [] (conj (conj Ho Hge) Hs))
      as ([[e name] c] & -> & _ & Hd); [unfold size in *; lia|by exists levels|]. cbn [mbind option_bind]. eexists.
    split; [done|]. destruct e; try done; cbn [Error.is_error]. destruct Hd as (labels & Hn & ->). exists labels, c.
    split; [done|]. by destruct labels.
Qed.

End Names.

(** The number of pointers that a name may have. *)
Definition k_POINTERS : nat := S k_MAX_LABEL_RESOLUTION_RECURSION_DEPTH.

Lemma decodeDomainName_spec d : decoder_ok d ->
  exists e name d', decodeDomainName d = Some (e, name, d') /\ d_data d' = d_data d /\
    d_position d <= d_position d' <= size (d_data d) /\
    match e with
    | Error.e_OK => exists labels, name_at (d_data d) k_POINTERS (d_position d) labels (d_position d') /\ name = join labels
    | Error.e_INVALID => forall labels stop, ~ name_at (d_data d) k_POINTERS (d_position d) labels stop
    | _ => False
    end.
Proof.
  intros Hd. pose proof Hd as [Hp Hb]. unfold decodeDomainName.
  destruct (decode_labels_spec (d_data d) (S (length (d_data d))) k_POINTERS
    (Some (decodeLabel k_MAX_LABEL_RESOLUTION_RECURSION_DEPTH (d_data d))) (d_position d) [] Hd)
    as ([[e name] c] & -> & Hle & He).
  - unfold size in *. lia.
  - exists k_MAX_LABEL_RESOLUTION_RECURSION_DEPTH. split; [done|]. by apply decodeLabel_resolves.
  - cbn [mbind option_bind]. do 3 eexists. split; [done|]. split; [done|]. split; [exact Hle|].
    destruct e; try done. destruct He as (labels & Hn & ->). exists labels. split; [done|]. by destruct labels.
Qed.

Lemma total_name : total decodeName.
Proof.
  intros d Hd. destruct (decodeDomainName_spec d Hd) as (e & name & d' & E & Hdata & Hle & He). unfold decodeName. rewrite E.
  eexists _, d'. split; [done|]. split; [|split; [done|lia]]. destruct Hd as [Hp Hb]. unfold decoder_ok, within. rewrite Hdata. lia.
Qed.

(** ** Names without compression *)

Lemma wire_labels_cons l labels : wire_labels (l :: labels) = octet (size l) :: l ++ wire_labels labels.
Proof. done. Qed.

Lemma wire_name_at pointers labels before after :
  Forall (fun l => l <> [] /\ short l) labels ->
  name_at (before ++ (wire_labels labels ++ [x00]) ++ after) pointers (size before) labels
    (size before + size (wire_labels labels ++ [x00])).
Proof.
  intros Hl. revert before. induction Hl as [|l labels [Hne Hs] _ IH]; intros before.
  - cbn [wire_labels fmap list_fmap concat app]. apply name_end with x00; [|done].
    unfold size. rewrite Nat2Z.id. apply list_lookup_middle. done.
  - rewrite wire_labels_cons. set (tail := wire_labels labels) in *. pose proof (size_nonneg l).
    unfold short, k_MAX_LABEL_LENGTH in Hs.
    assert (size l <> 0) as Hpos by (intros E; apply Hne; by apply size_zero_inv).
    assert (value (octet (size l)) = size l) as Ev by (rewrite value_octet; apply wrap_small; lia).
    specialize (IH (before ++ octet (size l) :: l)). rewrite <- ?app_assoc in IH |- *. cbn [app] in IH |- *.
    rewrite <- ?app_assoc in IH |- *. cbn [app] in IH |- *.
    assert (take (Z.to_nat (value (octet (size l)))) (drop (Z.to_nat (size before + 1))
      (before ++ octet (size l) :: l ++ tail ++ x00 :: after)) = l) as El.
    { rewrite Ev. unfold size. rewrite Z2Nat.inj_add, !Nat2Z.id by lia. rewrite <- drop_drop, drop_app_length.
      change (take (length l) (l ++ tail ++ x00 :: after) = l). by rewrite take_app_length. }
    rewrite <- El at 3. apply name_label.
    + unfold size at 1. rewrite Nat2Z.id. by apply list_lookup_middle.
    + lia.
    + rewrite Ev. szlia.
    + rewrite Ev. revert IH. rewrite !size_app, !size_cons, !size_app.
      replace (size before + (1 + size l)) with (size before + 1 + size l) by lia. intros IH.
      match type of IH with name_at _ _ _ _ ?a => match goal with |- name_at _ _ _ _ ?b => replace b with a by (rewrite ?size_cons; lia) end end.
      exact IH.
Qed.

Lemma reads_name `{TokenizerLaws} labels :
  Forall label_ok labels -> Forall short labels -> reads decodeName (wire_name (join labels)) (join labels).
Proof.
  intros Hok Hs before after Hsize. unfold wire_name in *. rewrite tokens_join in * by done.
  pose proof (size_nonneg before) as Hb. pose proof (size_nonneg after) as Ha.
  assert (decoder_ok (at_ (before ++ (wire_labels labels ++ [x00]) ++ after) (size before))) as Hd.
  { split; [|done]. cbn [at_ d_data d_position]. rewrite !size_app. pose proof (size_nonneg (wire_labels labels)).
    pose proof (size_nonneg [x00]). lia. }
  pose proof (wire_name_at k_POINTERS labels before after) as Hn. destruct (decodeDomainName_spec _ Hd) as (e & name & d' & E & Hdata & _ & He).
  assert (Forall (fun l => l <> [] /\ short l) labels) as Hl.
  { apply list.Forall_forall. intros l Hin. rewrite list.Forall_forall in Hok, Hs. split; [by apply Hok|by apply Hs]. }
  specialize (Hn Hl).
  unfold decodeName. rewrite E. cbn [at_ d_data d_position] in *. destruct e; try done; cbn [Error.is_error].
  - destruct He as (labels' & Hn' & ->). destruct (name_at_fun _ _ _ _ _ _ _ Hn Hn') as [<- Es].
    destruct d' as [dt dp]. cbn in Hdata, Es. subst. done.
  - by apply He in Hn.
Qed.

End DnsNames.
