(* ===== verification/DnsPorts.v ===== *)
(** * The ports of a well-known service

    The bit set that [ResourceRecord::encode] writes for a vector of ports, and
    the ports that [ResourceRecord::decode] reads from it. *)

From Stdlib Require Import Strings.Byte.
From stdpp Require Import sorting.
From S2P Require Import Prelude DnsCodec DnsMessage.

Module DnsPorts.

Import DnsCodec ResourceRecord.

(** ** Bits of octets *)

Lemma wrap_testbit w z i : 0 <= i < w -> Z.testbit (wrap w z) i = Z.testbit z i.
Proof. intros Hi. unfold wrap. apply Z.mod_pow2_bits_low. lia. Qed.

Lemma value_set b n i : 0 <= n < 8 -> 0 <= i < 8 ->
  Z.testbit (value (octet (Z.lor (value b) (Z.shiftl 1 n)))) i = Z.testbit (value b) i || (i =? n).
Proof.
  intros Hn Hi. rewrite value_octet, wrap_testbit, Z.lor_spec, Z.shiftl_1_l, Z.pow2_bits_eqb by lia.
  by rewrite (Z.eqb_sym n i).
Qed.

Lemma land_bit z n : 0 <= n -> (Z.land z (Z.shiftl 1 n) =? 0) = negb (Z.testbit z n).
Proof.
  intros Hn. rewrite Z.shiftl_1_l. destruct (Z.testbit z n) eqn:E; cbn [negb].
  - apply Z.eqb_neq. intros H0. apply (f_equal (fun x => Z.testbit x n)) in H0.
    rewrite Z.land_spec, E, Z.pow2_bits_true, Z.bits_0 in H0 by done. done.
  - apply Z.eqb_eq, Z.bits_inj'. intros i Hi. rewrite Z.land_spec, Z.bits_0, Z.pow2_bits_eqb by lia.
    destruct (Z.eqb_spec n i) as [->|]; [by rewrite E|apply andb_false_r].
Qed.

(** ** The bits of a bit set *)

(** The bit of a port: the most significant bit of an octet first. *)
Definition has (bitset : list byte) (p : Z) : bool :=
  match bitset !! Z.to_nat (p / 8) with
  | Some b => Z.testbit (value b) (7 - p mod 8)
  | None => false
  end.

Lemma has_set bitset p q :
  0 <= p -> 0 <= q < 8 * Z.of_nat (length bitset) ->
  has (alter (fun b => octet (Z.lor (value b) (Z.shiftl 1 (7 - q `rem` 8)))) (Z.to_nat (q `quot` 8)) bitset) p
  = has bitset p || (p =? q).
Proof.
  intros Hp Hq. rewrite Z.rem_mod_nonneg, Z.quot_div_nonneg by lia. unfold has.
  pose proof (Z.mod_pos_bound p 8 ltac:(lia)). pose proof (Z.mod_pos_bound q 8 ltac:(lia)).
  pose proof (Z.div_mod p 8 ltac:(lia)). pose proof (Z.div_mod q 8 ltac:(lia)).
  pose proof (Z.div_pos p 8 Hp ltac:(lia)). pose proof (Z.div_pos q 8 ltac:(lia) ltac:(lia)).
  destruct (decide (p / 8 = q / 8)) as [Ed|Nd].
  - rewrite Ed, list_lookup_alter_eq. destruct (lookup_lt_is_Some_2 bitset (Z.to_nat (q / 8))) as [b Hb]; [lia|].
    rewrite Hb. cbn [fmap option_fmap option_map]. rewrite value_set by lia. f_equal.
    apply eq_true_iff_eq. rewrite !Z.eqb_eq. lia.
  - rewrite list_lookup_alter_ne by lia. rewrite (proj2 (Z.eqb_neq p q)) by (intros ->; done). by rewrite orb_false_r.
Qed.

Lemma has_zero n p : has (replicate n x00) p = false.
Proof.
  unfold has. destruct (replicate n x00 !! Z.to_nat (p / 8)) as [b|] eqn:E; [|done].
  apply lookup_replicate in E as [-> _]. apply Z.bits_0.
Qed.

Lemma has_all ports : forall bitset,
  Forall (fun q => 0 <= q < 8 * Z.of_nat (length bitset)) ports ->
  let bitset' := foldl (fun bitset q =>
    alter (fun b => octet (Z.lor (value b) (Z.shiftl 1 (7 - q `rem` 8)))) (Z.to_nat (q `quot` 8)) bitset) bitset ports in
  length bitset' = length bitset /\
  forall p, 0 <= p -> has bitset' p = has bitset p || bool_decide (p ∈ ports).
Proof.
  induction ports as [|q ports IH]; intros bitset Hq; cbn [foldl].
  - split; [done|]. intros p Hp. by rewrite orb_false_r.
  - apply Forall_cons_iff in Hq as [Hq Hrest].
    destruct (IH (alter (fun b => octet (Z.lor (value b) (Z.shiftl 1 (7 - q `rem` 8)))) (Z.to_nat (q `quot` 8)) bitset)) as [Hlen Hhas].
    { by rewrite length_alter. }
    split; [by rewrite Hlen, length_alter|]. intros p Hp. rewrite Hhas, has_set, <- orb_assoc by done. f_equal.
    destruct (Z.eqb_spec p q) as [->|Hne]; cbn [orb].
    + symmetry. apply bool_decide_eq_true. by left.
    + apply bool_decide_ext. rewrite elem_of_cons. tauto.
Qed.

(** ** The ports that are read *)

Lemma port_at_spec i b j : (j < 8)%nat ->
  port_at i b j = if Z.testbit (value b) (7 - Z.of_nat j) then Some (wrap 16 (Z.of_nat i * 8 + Z.of_nat j)) else None.
Proof. intros Hj. unfold port_at. rewrite land_bit by lia. by destruct (Z.testbit _ _). Qed.

Lemma ports_of_snoc bitset b :
  ports_of (bitset ++ [b]) = ports_of bitset ++ omap (port_at (length bitset) b) (seq 0 8).
Proof.
  unfold ports_of. rewrite imap_app, concat_app. cbn [imap concat]. unfold compose. by rewrite Nat.add_0_r, app_nil_r.
Qed.

Lemma ports_of_in bitset p : Z.of_nat (length bitset) <= 8192 ->
  p ∈ ports_of bitset <-> 0 <= p /\ has bitset p = true.
Proof.
  intros Hlen. induction bitset as [|b bitset IH] using rev_ind.
  - split; [by intros ?%elem_of_nil|]. intros [_ H]. done.
  - rewrite length_app in Hlen. cbn in Hlen. specialize (IH ltac:(lia)). rewrite ports_of_snoc, elem_of_app, IH.
    rewrite list_elem_of_omap. unfold has.
    assert (forall j, (j < 8)%nat -> wrap 16 (Z.of_nat (length bitset) * 8 + Z.of_nat j) = Z.of_nat (length bitset) * 8 + Z.of_nat j) as Hw.
    { intros j Hj. apply wrap_small. lia. }
    split.
    + intros [[Hp Hb]|(j & Hj & E)].
      * split; [done|]. destruct (bitset !! Z.to_nat (p / 8)) as [b'|] eqn:El; [|done]. by rewrite (lookup_app_l_Some _ _ _ _ El).
      * apply elem_of_seq in Hj. rewrite port_at_spec, Hw in E by lia. destruct (Z.testbit (value b) _) eqn:Et; [|done].
        injection E as <-. split; [lia|]. rewrite Z.add_comm, Z.div_add, Z.mod_add, Z.div_small, Z.mod_small by lia.
        rewrite Z.add_0_l, Nat2Z.id, list_lookup_middle by done. exact Et.
    + intros [Hp Hb]. pose proof (Z.div_pos p 8 Hp ltac:(lia)).
      destruct (decide (Z.to_nat (p / 8) < length bitset)%nat) as [Hlt|Hge].
      * left. split; [done|]. by rewrite lookup_app_l in Hb by done.
      * right. destruct (decide (Z.to_nat (p / 8) = length bitset)) as [Heq|Hne].
        -- rewrite Heq, list_lookup_middle in Hb by done. pose proof (Z.mod_pos_bound p 8 ltac:(lia)).
           pose proof (Z.div_mod p 8 ltac:(lia)). exists (Z.to_nat (p mod 8)). split; [apply elem_of_seq; lia|].
           rewrite port_at_spec, Z2Nat.id, Hb by lia. f_equal. pose proof (Hw (Z.to_nat (p mod 8)) ltac:(lia)) as Hw'.
           rewrite Z2Nat.id in Hw' by lia. rewrite Hw'. lia.
        -- rewrite lookup_ge_None_2 in Hb; [done|]. rewrite length_app. cbn. lia.
Qed.

Lemma omap_sorted (i : nat) (b : byte) (js : list nat) :
  Z.of_nat i < 8192 -> StronglySorted lt js -> Forall (fun j => j < 8)%nat js ->
  StronglySorted Z.lt (omap (port_at i b) js) /\
  Forall (fun p => exists j, j ∈ js /\ p = Z.of_nat i * 8 + Z.of_nat j) (omap (port_at i b) js).
Proof.
  intros Hi. induction 1 as [|j js _ IH Hj]; intros Hb; [by split; constructor|].
  apply Forall_cons_iff in Hb as [Hlt Hb]. destruct (IH Hb) as [Hs Hf]. cbn [omap list_omap]. rewrite port_at_spec by done.
  assert (Forall (fun p => exists j', j' ∈ j :: js /\ p = Z.of_nat i * 8 + Z.of_nat j') (omap (port_at i b) js)) as Hf'.
  { eapply List.Forall_impl; [|exact Hf]. intros p (j' & Hin & ->). exists j'. split; [by right|done]. }
  destruct (Z.testbit _ _); [|done]. rewrite wrap_small by lia. split.
  - constructor; [done|]. eapply List.Forall_impl; [|exact Hf]. intros p (j' & Hin & ->).
    rewrite list.Forall_forall in Hj. specialize (Hj j' Hin). lia.
  - constructor; [|done]. exists j. split; [by left|done].
Qed.

Lemma seq_sorted n k : StronglySorted lt (seq n k).
Proof.
  revert n. induction k as [|k IH]; intros n; cbn [seq]; constructor; [apply IH|].
  apply list.Forall_forall. intros m Hm%elem_of_seq. lia.
Qed.

Lemma ports_of_sorted bitset : Z.of_nat (length bitset) <= 8192 ->
  StronglySorted Z.lt (ports_of bitset) /\ Forall (fun p => p < 8 * Z.of_nat (length bitset)) (ports_of bitset).
Proof.
  induction bitset as [|b bitset IH] using rev_ind; intros Hlen; [by split; constructor|].
  rewrite length_app in *. cbn in Hlen. destruct (IH ltac:(lia)) as [Hs Hf]. rewrite ports_of_snoc.
  destruct (omap_sorted (length bitset) b (seq 0 8)) as [Hs' Hf']; [lia|apply seq_sorted| |].
  { apply list.Forall_forall. intros j Hj%elem_of_seq. lia. }
  split.
  - apply StronglySorted_app_2; [|done|done]. intros p q Hp Hq. rewrite list.Forall_forall in Hf, Hf'.
    specialize (Hf p Hp). destruct (Hf' q Hq) as (j & _ & ->). lia.
  - rewrite Nat2Z.inj_add. change (Z.of_nat (length [b])) with 1. apply Forall_app. split.
    + eapply List.Forall_impl; [|exact Hf]. intros p Hp. cbv beta in *. lia.
    + eapply List.Forall_impl; [|exact Hf']. intros p (j & Hj%elem_of_seq & ->). lia.
Qed.

(** ** The round trip *)

Lemma sorted_le ports : StronglySorted Z.lt ports -> StronglySorted Z.le ports.
Proof.
  induction 1 as [|p ports _ IH Hp]; [constructor|]. constructor; [done|]. eapply List.Forall_impl; [|exact Hp]. cbn. lia.
Qed.

Lemma sorted_nodup ports : StronglySorted Z.lt ports -> NoDup ports.
Proof.
  induction 1 as [|p ports _ IH Hp]; [constructor|]. constructor; [|done]. intros Hin. rewrite list.Forall_forall in Hp.
  specialize (Hp p Hin). lia.
Qed.

Lemma sorted_unique l1 l2 : StronglySorted Z.lt l1 -> StronglySorted Z.lt l2 -> (forall p, p ∈ l1 <-> p ∈ l2) -> l1 = l2.
Proof.
  intros H1 H2 Hin. apply (StronglySorted_unique Z.le); [by apply sorted_le..|].
  apply NoDup_Permutation; [by apply sorted_nodup..|done].
Qed.

Lemma sort_sorted ports : StronglySorted Z.lt ports -> merge_sort Z.le ports = ports.
Proof.
  intros H. apply (StronglySorted_unique Z.le); [apply (StronglySorted_merge_sort _)|by apply sorted_le|].
  apply merge_sort_Permutation.
Qed.

Lemma last_greatest ports p : StronglySorted Z.lt ports -> p ∈ ports -> p <= default 0 (list.last ports).
Proof.
  intros Hs. induction ports as [|q ports IH] using rev_ind; [by intros ?%elem_of_nil|].
  rewrite last_snoc. cbn [default]. intros [Hin|Hq%list_elem_of_singleton]%elem_of_app; [|subst; cbn; lia].
  pose proof (StronglySorted_app_1_elem_of _ _ _ p q Hs Hin ltac:(by left)). cbn. lia.
Qed.

Lemma ports_of_bitset ports :
  StronglySorted Z.lt ports -> Forall (fun p => 0 <= p < 2 ^ 16) ports -> ports <> [] ->
  ports_of (bitset_of ports) = ports /\ 0 < size (bitset_of ports) <= 8192.
Proof.
  intros Hs Hr Hne. unfold bitset_of. rewrite sort_sorted by done.
  set (maxPort := default 0 (list.last ports)). set (zeros := replicate (Z.to_nat (maxPort `quot` 8 + 1)) x00).
  assert (0 <= maxPort < 2 ^ 16) as Hmax.
  { unfold maxPort. destruct ports as [|p ports] using rev_ind; [done|]. rewrite last_snoc. cbn.
    apply Forall_app in Hr as [_ Hr%Forall_inv]. exact Hr. }
  assert (Z.of_nat (length zeros) = maxPort / 8 + 1) as Hz.
  { unfold zeros. rewrite length_replicate, Z.quot_div_nonneg, Z2Nat.id by (pose proof (Z.div_pos maxPort 8); lia). done. }
  pose proof (Z.div_mod maxPort 8 ltac:(lia)). pose proof (Z.mod_pos_bound maxPort 8 ltac:(lia)).
  pose proof (Z.div_lt_upper_bound maxPort 8 8192 ltac:(lia) ltac:(lia)). pose proof (Z.div_pos maxPort 8 ltac:(lia) ltac:(lia)).
  destruct (has_all ports zeros) as [Hlen Hhas].
  { apply list.Forall_forall. intros p Hp. rewrite list.Forall_forall in Hr. specialize (Hr p Hp).
    pose proof (last_greatest ports p Hs Hp) as Hle. fold maxPort in Hle. lia. }
  set (bitset := foldl _ zeros ports) in *. split; [|unfold size; lia].
  apply sorted_unique; [by apply ports_of_sorted; lia|done|]. intros p. rewrite ports_of_in by lia.
  rewrite list.Forall_forall in Hr. split.
  - intros [Hp Hb]. rewrite Hhas in Hb by done. unfold zeros in Hb. rewrite has_zero in Hb. by apply bool_decide_eq_true in Hb.
  - intros Hp. split; [by apply Hr|]. rewrite Hhas by (by apply Hr). rewrite (proj2 (bool_decide_eq_true _)) by done. apply orb_true_r.
Qed.

End DnsPorts.
