(* ===== verification/DnsMessageFacts.v ===== *)
(** * Messages on the wire

    [wire] of a type is the reference of its encoding: the octets that a value
    has on the wire.  An instance of [WireFormat] shows that the code writes and
    reads exactly these octets and that it decodes arbitrary octets without
    leaving the buffer.  The instances of questions and of resource records are
    composed to the one of messages. *)

From Stdlib Require Import Strings.Byte.
From stdpp Require Import sorting.
From S2P Require Import Prelude Errors DnsVocabulary DnsCodec DnsMessage DnsCodecFacts DnsNames DnsPorts.

Module DnsMessageFacts.

Import DnsCodec DnsCodecFacts DnsNames DnsPorts.

(** ** The interface *)

Class WireFormat (A : Type) : Type := {
  wire : A -> list byte;
  wire_ok : A -> Prop;
  wire_encode : A -> codec encoder unit;
  wire_decode : A -> codec decoder A;
  wire_new : A;
}.

Class WireLaws (A : Type) `{WireFormat A} : Prop := {
  wire_writes : forall a, wire_ok a -> writes (wire_encode a) (wire a);
  wire_reads : forall a, wire_ok a -> reads (wire_decode wire_new) (wire a) a;
  wire_total : forall self : A, total (wire_decode self);
}.

(** ** Sections *)

Lemma writes_each_of {A} (encode : A -> codec encoder unit) (octets : A -> list byte) l :
  Forall (fun a => writes (encode a) (octets a)) l ->
  writes (Message.encode_each encode (length l) l) (concat (octets <$> l)).
Proof.
  induction 1 as [|a l Ha _ IH]; [apply writes_ret|]. cbn [length Message.encode_each].
  change (concat (octets <$> a :: l)) with (octets a ++ concat (octets <$> l)).
  by apply writes_bind.
Qed.

Section Sections.

Context `{WireLaws A}.

Definition wire_each (l : list A) : list byte := concat (wire <$> l).

Lemma reads_each l : Forall wire_ok l ->
  reads (Message.decode_each wire_decode (replicate (length l) wire_new)) (wire_each l) l.
Proof.
  induction 1 as [|a l Ha _ IH]; [apply reads_ret|]. cbn [length replicate Message.decode_each].
  apply (reads_bind _ _ (wire a) (wire_each l) a); [by apply wire_reads|].
  eapply reads_bind_nil; [exact IH|apply reads_ret].
Qed.

Lemma reads_section l n : n = size l -> Forall wire_ok l ->
  reads (Message.decode_section wire_decode wire_new n []) (wire_each l) l.
Proof.
  intros -> Hl. unfold Message.decode_section. destruct (Z.ltb_spec 0 (size l)).
  - unfold size. rewrite Nat2Z.id, take_nil, Nat.sub_0_r. by apply reads_each.
  - assert (l = []) as -> by (apply size_zero_inv; pose proof (size_nonneg l); lia). apply reads_ret.
Qed.

Lemma total_each (l : list A) : total (Message.decode_each wire_decode l).
Proof.
  induction l as [|a l IH]; [apply total_ret|]. apply total_bind; [apply wire_total|]. intros b.
  apply total_bind; [exact IH|]. intros rest. apply total_ret.
Qed.

Lemma total_section n (l : list A) : total (Message.decode_section wire_decode wire_new n l).
Proof. unfold Message.decode_section. destruct (0 <? n); [apply total_each|apply total_ret]. Qed.

End Sections.

(** ** Headers *)

Definition u16 (v : Z) : Prop := 0 <= v < 2 ^ 16.
Definition u32 (v : Z) : Prop := 0 <= v < 2 ^ 32.

Record header_ok (h : Header.t) : Prop := {
  h_id : u16 (Header.d_id h);
  h_ad : Header.d_ad h = false;
  h_qd : u16 (Header.d_qdcount h);
  h_an : u16 (Header.d_ancount h);
  h_ns : u16 (Header.d_nscount h);
  h_ar : u16 (Header.d_arcount h);
}.

Definition wire_header (h : Header.t) : list byte :=
  be16 (Header.d_id h) ++ [octet (Header.first_flags h); octet (Header.second_flags h)] ++
  be16 (Header.d_qdcount h) ++ be16 (Header.d_ancount h) ++ be16 (Header.d_nscount h) ++ be16 (Header.d_arcount h).

Lemma writes_header h : writes (Header.encode h) (wire_header h).
Proof.
  unfold Header.encode, wire_header. repeat (apply writes_bind; [first [apply writes_uint16 | apply writes_raw]|]).
  apply writes_uint16.
Qed.

Lemma reads_enumerated {A} (a : A) : reads (Header.enumerated (Some a)) [] a.
Proof. apply reads_ret. Qed.

Lemma total_enumerated {A} (e : option A) : total (Header.enumerated e).
Proof. destruct e; [apply total_ret|apply total_fail]. Qed.

Lemma reads_skip {A B} (f : codec decoder A) (g : A -> codec decoder B) bs a b :
  reads f [] a -> reads (g a) bs b -> reads (bind f g) bs b.
Proof. intros Hf Hg. by eapply (reads_bind f g [] bs). Qed.

(** An operation that goes on like [g] once [f] succeeds. *)
Lemma reads_like {A B} (f : codec decoder A) (g : A -> codec decoder B) (h : codec decoder B) bs1 bs2 a b :
  reads f bs1 a -> (forall d d', f d = Some (inr a, d') -> h d = g a d') -> reads (g a) bs2 b ->
  reads h (bs1 ++ bs2) b.
Proof.
  intros Hf Hh Hg before after Hs. pose proof (reads_bind f g _ _ _ _ Hf Hg before after Hs) as Hb.
  rewrite <- Hb. unfold bind. rewrite <- app_assoc in *. specialize (Hf before (bs2 ++ after) Hs).
  rewrite Hf. by apply Hh.
Qed.

(** The flags that are read are those that were written. *)
Lemma first_octet h other :
  let flags := [octet (Header.first_flags h); other] in
  Direction.fromInt (Header.bits flags 0 7 1) = Some (Header.d_direction h) /\
  Operation.fromInt (Header.bits flags 0 3 4) = Some (Header.d_operation h) /\
  Header.bit flags 0 2 = Header.d_aa h /\ Header.bit flags 0 1 = Header.d_tc h /\ Header.bit flags 0 0 = Header.d_rd h.
Proof.
  destruct h as [id direction operation error aa tc rd ra ad cd qd an ns ar]. unfold Header.first_flags. cbn [Header.d_direction
    Header.d_operation Header.d_aa Header.d_tc Header.d_rd].
  destruct direction, operation, aa, tc, rd; vm_compute; done.
Qed.

Lemma second_octet h other :
  let flags := [other; octet (Header.second_flags h)] in
  ResponseError.fromInt (Header.bits flags 1 0 4) = Some (Header.d_error h) /\
  Header.bit flags 1 7 = Header.d_ra h /\ Header.bit flags 1 4 = Header.d_cd h.
Proof.
  destruct h as [id direction operation error aa tc rd ra ad cd qd an ns ar]. unfold Header.second_flags. cbn [Header.d_error
    Header.d_ra Header.d_cd].
  destruct error, ra, cd; vm_compute; done.
Qed.

Lemma reads_header h : header_ok h -> reads (Header.decode Header.reset) (wire_header h) h.
Proof.
  intros [Hid Had Hqd Han Hns Har]. unfold Header.decode, wire_header.
  destruct (first_octet h (octet (Header.second_flags h))) as (Hd & Ho & Haa & Htc & Hrd).
  destruct (second_octet h (octet (Header.first_flags h))) as (He & Hra & Hcd).
  eapply reads_bind; [by apply reads_uint16|]. eapply reads_bind; [by apply reads_raw|]. rewrite Hd, Ho, He.
  do 3 (eapply reads_skip; [apply reads_enumerated|]).
  do 3 (eapply reads_bind; [by apply reads_uint16|]). eapply reads_bind_nil; [by apply reads_uint16|].
  rewrite Haa, Htc, Hrd, Hra, Hcd. change (Header.d_ad Header.reset) with false. rewrite <- Had.
  destruct h. apply reads_ret.
Qed.

Lemma total_header self : total (Header.decode self).
Proof.
  unfold Header.decode. repeat (apply total_bind; [first [apply total_uint16 | by apply total_raw | apply total_enumerated]|intros ?]).
  apply total_ret.
Qed.

(** ** Questions *)

(** A name that the tokenizer splits into the labels that it joins. *)
Definition name_ok (name : list byte) : Prop :=
  exists labels, name = join labels /\ Forall label_ok labels /\ Forall short labels.

Section Formats.

Context `{TokenizerLaws}.

(** A name whose labels can be encoded. *)
Definition name_short (name : list byte) : Prop := Forall short (tokens name).

Lemma name_ok_short name : name_ok name -> name_short name.
Proof. intros (labels & -> & Hok & Hs). unfold name_short. by rewrite tokens_join. Qed.

Lemma writes_name_ok name : name_ok name -> writes (encodeDomainName name) (wire_name name).
Proof. intros Hn. apply writes_name. by apply name_ok_short. Qed.

Lemma reads_name_ok name : name_ok name -> reads decodeName (wire_name name) name.
Proof. intros (labels & -> & Hok & Hs). by apply reads_name. Qed.

Definition wire_question (q : Question.t) : list byte :=
  wire_name (Question.d_name q) ++ be16 (RecordType.code (Question.d_type q)) ++
  be16 (Classification.code (Question.d_classification q)).

#[export] Instance question_format : WireFormat Question.t := {|
  wire := wire_question;
  wire_ok q := name_ok (Question.d_name q);
  wire_encode := Question.encode;
  wire_decode := Question.decode;
  wire_new := Question.reset;
|}.

(** A question reads its name as the records do, unless there is an error. *)
Definition question_rest (name : list byte) : codec decoder Question.t :=
  let* qtypeValue := decodeUint16 in
  let* type := Header.enumerated (RecordType.fromInt qtypeValue) in
  let* qclassValue := decodeUint16 in
  let* classification := Header.enumerated (Classification.fromInt qclassValue) in
  ret {| Question.d_name := name; Question.d_type := type; Question.d_classification := classification |}.

Lemma question_decode self d name d' :
  decodeName d = Some (inr name, d') -> Question.decode self d = question_rest name d'.
Proof.
  unfold decodeName, Question.decode. destruct (decodeDomainName d) as [[[e n] d1]|]; [|done].
  destruct (Error.is_error e); [done|]. intros E. simplify_eq. done.
Qed.

#[export] Instance question_laws : WireLaws Question.t.
Proof.
  split.
  - intros q Hq. apply writes_bind; [by apply writes_name_ok|]. apply writes_bind; apply writes_uint16.
  - intros q Hq. cbn [wire wire_decode wire_new question_format]. unfold wire_question.
    eapply reads_like; [by apply reads_name_ok|intros d d'; apply question_decode|]. unfold question_rest.
    eapply reads_bind; [apply reads_uint16, (enum_range (code := RecordType.code))|]. rewrite (enum_round_trip (code := RecordType.code)).
    eapply reads_skip; [apply reads_enumerated|].
    eapply reads_bind_nil; [apply reads_uint16, (enum_range (code := Classification.code))|]. rewrite (enum_round_trip (code := Classification.code)).
    eapply reads_skip; [apply reads_enumerated|]. destruct q. apply reads_ret.
  - intros self d Hd. cbn [wire_decode question_format]. destruct (total_name d Hd) as (r & d1 & E & Hok & Hdata & Hle).
    destruct r as [e|name].
    + unfold Question.decode. unfold decodeName in E. destruct (decodeDomainName d) as [[[e' n] d2]|]; [|done].
      destruct (Error.is_error e'); [|done]. simplify_eq. by eexists _, d1.
    + rewrite (question_decode _ _ _ _ E).
      assert (total (question_rest name)) as Ht.
      { repeat (apply total_bind; [first [apply total_uint16 | apply total_enumerated]|intros ?]). apply total_ret. }
      destruct (Ht d1 Hok) as (r & d2 & -> & Hok2 & Hdata2 & Hle2). exists r, d2.
      split; [done|]. split; [done|]. split; [congruence|lia].
Qed.

(** ** The data of resource records *)

Definition wire_rdata (rdata : ResourceRecordData.t) : list byte :=
  match rdata with
  | ResourceRecordData.Ipv4 address | ResourceRecordData.Ipv6 address => address
  | ResourceRecordData.NameServer name | ResourceRecordData.CanonicalName name
  | ResourceRecordData.Pointer name => wire_name name
  | ResourceRecordData.ZoneAuthority mname rname serial refresh retry expire minimum =>
      wire_name mname ++ wire_name rname ++ be32 serial ++ be32 refresh ++ be32 retry ++ be32 expire ++ be32 minimum
  | ResourceRecordData.WellKnownService address protocol port =>
      address ++ [octet protocol] ++ match port with [] => [] | _ => ResourceRecord.bitset_of port end
  | ResourceRecordData.HostInfo cpu os => wire_string cpu ++ wire_string os
  | ResourceRecordData.MailExchange preference exchange => be16 preference ++ wire_name exchange
  | ResourceRecordData.Text text => concat (wire_string <$> text)
  | ResourceRecordData.Server _ _ _ _ _ _ => []
  | ResourceRecordData.Raw data => data
  | ResourceRecordData.Undefined => []
  end.

Definition string_ok (v : list byte) : Prop := size v <= k_MAX_CHARACTER_STRING_LENGTH.

(** What the data has to be for the encoding to determine it: the decoder takes
    the ports in order, and a text of one string only. *)
Definition rdata_ok (rdata : ResourceRecordData.t) : Prop :=
  match rdata with
  | ResourceRecordData.Ipv4 address => size address = 4
  | ResourceRecordData.Ipv6 address => size address = 16
  | ResourceRecordData.NameServer name | ResourceRecordData.CanonicalName name
  | ResourceRecordData.Pointer name => name_ok name
  | ResourceRecordData.ZoneAuthority mname rname serial refresh retry expire minimum =>
      name_ok mname /\ name_ok rname /\ u32 serial /\ u32 refresh /\ u32 retry /\ u32 expire /\ u32 minimum
  | ResourceRecordData.WellKnownService address protocol port =>
      size address = 4 /\ 0 <= protocol < 2 ^ 8 /\ StronglySorted Z.lt port /\ Forall u16 port
  | ResourceRecordData.HostInfo cpu os => string_ok cpu /\ string_ok os
  | ResourceRecordData.MailExchange preference exchange => u16 preference /\ name_ok exchange
  | ResourceRecordData.Text text => exists s, text = [s] /\ string_ok s
  | ResourceRecordData.Server _ _ _ _ _ _ => False
  | ResourceRecordData.Raw data => data <> []
  | ResourceRecordData.Undefined => True
  end.

(** The types whose data is decoded as raw bytes. *)
Definition raw_type (type : RecordType.t) : bool :=
  match type with
  | RecordType.e_A | RecordType.e_NS | RecordType.e_CNAME | RecordType.e_SOA | RecordType.e_WKS
  | RecordType.e_PTR | RecordType.e_HINFO | RecordType.e_MX | RecordType.e_TXT | RecordType.e_AAAA
  | RecordType.e_SVR => false
  | _ => true
  end.

Definition typed (type : RecordType.t) (rdata : ResourceRecordData.t) : Prop :=
  match rdata with
  | ResourceRecordData.Undefined => True
  | ResourceRecordData.Raw _ => raw_type type = true
  | _ => ResourceRecord.type_of rdata = Some type
  end.

(** What the encoding asks of the data: labels and strings that fit their length
    octet, a format, and octets if it is raw. *)
Definition rdata_encodable (rdata : ResourceRecordData.t) : Prop :=
  match rdata with
  | ResourceRecordData.NameServer name | ResourceRecordData.CanonicalName name
  | ResourceRecordData.Pointer name => name_short name
  | ResourceRecordData.ZoneAuthority mname rname _ _ _ _ _ => name_short mname /\ name_short rname
  | ResourceRecordData.HostInfo cpu os => string_ok cpu /\ string_ok os
  | ResourceRecordData.MailExchange _ exchange => name_short exchange
  | ResourceRecordData.Text text => Forall string_ok text
  | ResourceRecordData.Server _ _ _ _ _ _ => False
  | ResourceRecordData.Raw data => data <> []
  | _ => True
  end.

Lemma rdata_ok_encodable rdata : rdata_ok rdata -> rdata_encodable rdata.
Proof.
  destruct rdata; cbn [rdata_ok rdata_encodable]; try done; try apply name_ok_short.
  - intros [_ ?]. by apply name_ok_short.
  - intros (? & ? & _). split; by apply name_ok_short.
  - intros (s & -> & ?). by constructor.
Qed.

Lemma writes_text text : Forall string_ok text ->
  writes (ResourceRecord.encode_text text) (concat (wire_string <$> text)).
Proof.
  induction 1 as [|s text Hs _ IH]; [apply writes_ret|]. cbn [ResourceRecord.encode_text].
  change (concat (wire_string <$> s :: text)) with (wire_string s ++ concat (wire_string <$> text)).
  apply writes_bind; [by apply writes_string|exact IH].
Qed.

Lemma writes_rdata rdata : rdata_encodable rdata -> writes (ResourceRecord.encode_rdata rdata) (wire_rdata rdata).
Proof.
  destruct rdata; cbn [rdata_encodable wire_rdata ResourceRecord.encode_rdata]; intros Hok;
    try done; try apply writes_ret; try apply writes_raw; try (by apply writes_name);
    try (by apply writes_text).
  - destruct Hok. by apply writes_bind; apply writes_string.
  - apply writes_bind; [apply writes_uint16|by apply writes_name].
  - destruct Hok. do 2 (apply writes_bind; [by apply writes_name|]).
    do 4 (apply writes_bind; [apply writes_uint32|]). apply writes_uint32.
  - apply writes_bind; [apply writes_raw|]. apply writes_bind; [apply writes_uint8|].
    destruct port; [apply writes_ret|apply writes_raw].
  - unfold ResourceRecord.encode_raw_data. rewrite bool_decide_false by done. cbn [negb].
    eapply writes_ext; [|apply writes_raw]. done.
Qed.

Lemma reads_check err : err = Error.e_OK -> reads (check err) [] tt.
Proof. intros ->. apply reads_ret. Qed.

Lemma reads_text s : string_ok s -> reads (ResourceRecord.decode_text 3 (size (wire_string s)) []) (wire_string s) [s].
Proof.
  intros Hs before after Hsize. cbn [ResourceRecord.decode_text].
  assert (0 < size (wire_string s)) as Hpos by (unfold wire_string; rewrite size_cons; pose proof (size_nonneg s); lia).
  rewrite (proj2 (Z.ltb_lt _ _)) by done. unfold bind at 1 2. cbn [d_tell].
  rewrite (reads_string s [] Hs before after Hsize). cbn [at_ d_position app].
  unfold bind at 1. cbn [d_tell d_position at_]. replace (size before + size (wire_string s) - size before) with (size (wire_string s)) by lia.
  rewrite Z.leb_refl, Z.sub_diag. done.
Qed.

Lemma reads_rdata type rdata :
  rdata_ok rdata -> typed type rdata -> wire_rdata rdata <> [] ->
  reads (ResourceRecord.decode_rdata type (size (wire_rdata rdata))) (wire_rdata rdata) rdata.
Proof.
  destruct rdata; cbn [rdata_ok wire_rdata typed ResourceRecord.type_of]; intros Hok Ht Hne;
    try done; try (injection Ht as <-; cbn [ResourceRecord.decode_rdata]);
    try (by eapply reads_bind_nil; [apply reads_name_ok|apply reads_ret]).
  - destruct Hok. eapply reads_bind; [by apply (reads_string cpu [])|]. eapply reads_bind_nil; [by apply (reads_string os [])|apply reads_ret].
  - destruct Hok. eapply reads_bind; [by apply reads_uint16|]. eapply reads_bind_nil; [by apply reads_name_ok|apply reads_ret].
  - destruct Hok as (? & ? & ? & ? & ? & ? & ?). do 2 (eapply reads_bind; [by apply reads_name_ok|]).
    do 4 (eapply reads_bind; [by apply reads_uint32|]). eapply reads_bind_nil; [by apply reads_uint32|apply reads_ret].
  - destruct Hok as (Ha & Hp & Hsort & Hport). eapply reads_bind; [by apply reads_raw|]. eapply reads_bind; [by apply reads_uint8|].
    rewrite !size_app, Ha. change (size [octet protocol]) with 1. destruct port as [|p port]; [apply reads_ret|].
    destruct (ports_of_bitset (p :: port) Hsort Hport ltac:(done)) as [Hports Hsize].
    rewrite (proj2 (Z.ltb_lt _ _)) by lia. eapply reads_bind_nil; [apply reads_raw; lia|]. rewrite Hports. apply reads_ret.
  - destruct Hok as (s & -> & Hs). cbn [fmap list_fmap concat]. rewrite app_nil_r.
    eapply reads_bind_nil; [by apply reads_text|apply reads_ret].
  - rewrite Hok. eapply reads_skip; [by apply reads_check|]. eapply reads_bind_nil; [by apply reads_raw|apply reads_ret].
  - rewrite Hok. eapply reads_skip; [by apply reads_check|]. eapply reads_bind_nil; [by apply reads_raw|apply reads_ret].
  - destruct type; try done; (eapply reads_bind_nil; [by apply reads_raw|apply reads_ret]).
Qed.

(** *** The length of the data *)

Lemma put_over bs1 bs1' bs2 e : encoder_ok e -> size bs1' = size bs1 -> e_position e + size bs1 + size bs2 <= size (e_data e) ->
  e_data (put bs1' {| e_data := e_data (put (bs1 ++ bs2) e); e_position := e_position e |}) = e_data (put (bs1' ++ bs2) e).
Proof.
  intros [Hp _] Hs Hfit. pose proof (size_nonneg bs1). pose proof (size_nonneg bs2). unfold put. cbn [e_data e_position].
  rewrite !size_app, Hs. f_equal.
  - rewrite take_app_le, take_take, Nat.min_id by (rewrite length_take; unfold size in *; lia). done.
  - rewrite <- !app_assoc. f_equal.
    assert (length (take (Z.to_nat (e_position e)) (e_data e) ++ bs1) = Z.to_nat (e_position e + size bs1)) as Hl.
    { rewrite length_app, length_take. unfold size in *. lia. }
    rewrite app_assoc, <- Hl. by rewrite drop_app_length.
Qed.

Lemma writes_with_length body bs : size bs < 2 ^ 16 -> writes body bs ->
  writes (ResourceRecord.with_length body) (be16 (size bs) ++ bs).
Proof.
  intros Hs Hbody e He. pose proof (writes_bind _ _ _ _ (writes_uint16 0) Hbody e He) as Hw.
  pose proof (size_nonneg bs) as Hbs. pose proof (writes_uint16 0 e He) as Hz. unfold ResourceRecord.with_length.
  unfold bind, e_tell in Hw |- *. rewrite size_app in Hw |- *.
  change (size (be16 (size bs))) with 2. change (size (be16 0)) with 2 in *.
  destruct (Z.leb_spec (e_position e + 2) (size (e_data e))) as [Hfit1|Hno1].
  2: { rewrite (proj2 (Z.leb_gt _ _)) by lia. destruct Hz as (e' & -> & Hu). by exists e'. }
  rewrite Hz in Hw |- *. destruct (Z.leb_spec (e_position e + (2 + size bs)) (size (e_data e))) as [Hfit|Hno].
  2: { destruct Hw as (e' & -> & Hu). by exists e'. }
  rewrite Hw. set (e2 := put (be16 0 ++ bs) e). assert (size (e_data e2) = size (e_data e)) as Hs2.
  { apply size_put; [done|]. rewrite size_app. exact Hfit. }
  assert (e_position e2 = e_position e + (2 + size bs)) as Hp2 by (cbn [e2 put e_position]; by rewrite size_app).
  destruct He as [Hp Hb]. unfold e_seek, e_move. cbn [e_tell].
  rewrite (proj2 (Z.ltb_ge (size (e_data e2)) (e_position e))) by lia.
  pose proof (writes_uint16 (wrap 16 (e_position e2 - e_position (put (be16 0) e)))
    {| e_data := e_data e2; e_position := e_position e |}) as H2. cbn [e_data e_position] in H2.
  rewrite Hs2 in H2. change (size (be16 (wrap 16 (e_position e2 - e_position (put (be16 0) e))))) with 2 in H2.
  rewrite (proj2 (Z.leb_le (e_position e + 2) _)) in H2 by lia. rewrite H2 by (split; [cbn [e_position e_data]; lia|cbn [e_data]; lia]).
  assert (wrap 16 (e_position e2 - e_position (put (be16 0) e)) = size bs) as ->.
  { rewrite Hp2. cbn [put e_position]. change (size (be16 0)) with 2. rewrite wrap_small by lia. lia. }
  unfold e2. rewrite put_over by (done || (change (size (be16 0)) with 2; lia)).
  rewrite size_put by (done || (rewrite size_app; exact Hfit)). change (put (be16 0 ++ bs) e) with e2.
  rewrite Hp2, (proj2 (Z.ltb_ge _ _)) by lia. do 2 f_equal. unfold put. cbn [e_data e_position]. f_equal.
  by rewrite size_app.
Qed.

Lemma contained_with_length body : contained body -> contained (ResourceRecord.with_length body).
Proof.
  intros Hbody e He. unfold ResourceRecord.with_length, bind, e_tell.
  destruct (contained_raw (be16 0) e He) as (r & e1 & E & Hu & H1 & Hp).
  change (encodeUint16 0) with (encodeRaw (be16 0)). rewrite E.
  destruct r as [err|[]]; [by eexists _, _|].
  destruct (Hbody e1 H1) as (r & e2 & E2 & Hu2 & H2 & Hp2). rewrite E2.
  pose proof (untouched_trans _ _ _ Hu Hu2 Hp) as Hu'.
  destruct r as [err|[]]; [eexists _, _; split_and!; (done || lia)|].
  unfold e_seek, e_move. cbn [e_tell].
  pose proof (proj1 He) as [Hpos _]. pose proof (proj1 H2) as [_ Hle].
  rewrite (proj2 (Z.ltb_ge (size (e_data e2)) (e_position e))) by lia.
  set (v := wrap 16 _). set (e3 := {| e_data := e_data e2; e_position := e_position e |}).
  assert (encoder_ok e3) as H3 by (destruct H2 as [? Hb]; split; cbn; [lia|exact Hb]).
  destruct (contained_raw (be16 v) e3 H3) as (r & e4 & E4 & Hu4 & H4 & Hp4).
  change (encodeUint16 v) with (encodeRaw (be16 v)). rewrite E4.
  assert (untouched e e4) as Hf.
  { destruct Hu' as [S1 T1], Hu4 as [S2 T2]. cbn [e3 e_data e_position] in S2, T2. split; congruence. }
  destruct r as [err|[]]; [eexists _, _; split_and!; (done || (cbn in Hp4; lia))|].
  destruct H4 as [? Hb4], Hf as [Sf Tf], Hu' as [S2 T2].
  rewrite (proj2 (Z.ltb_ge _ _)) by lia. eexists _, _. split; [done|].
  split; [by split|]. split; [|cbn; lia]. split; cbn; [lia|exact Hb4].
Qed.

Lemma reads_data type self rdata bs :
  0 < size bs < 2 ^ 16 -> reads (ResourceRecord.decode_rdata type (size bs)) bs rdata ->
  reads (ResourceRecord.decode_data type self) (be16 (size bs) ++ bs) rdata.
Proof.
  intros Hs Hr. eapply reads_bind; [by apply reads_uint16; lia|]. rewrite (proj2 (Z.ltb_lt _ _)) by lia.
  intros before after Hsize. unfold bind at 1. cbn [d_tell]. unfold bind at 1. rewrite (Hr before after Hsize).
  unfold bind at 1. cbn [d_tell at_ d_position]. replace (size before + size bs - size before) with (size bs) by lia.
  unfold checkCoherentRdataLength. rewrite Z.eqb_refl. done.
Qed.

Lemma wire_rdata_empty rdata : rdata_ok rdata -> wire_rdata rdata = [] -> rdata = ResourceRecordData.Undefined.
Proof.
  destruct rdata; cbn [rdata_ok wire_rdata]; intros Hok E; try done.
  all: try (by apply app_eq_nil in E as [_ [=]]).
  - apply app_eq_nil in E as [E _]. by apply app_eq_nil in E as [_ [=]].
  - by destruct Hok as (s & -> & _).
  - by rewrite E in Hok.
  - by rewrite E in Hok.
Qed.

(** *** What the data of any type reads *)

Definition returns {A} (f : codec decoder A) (P : A -> Prop) : Prop :=
  forall d a d', f d = Some (inr a, d') -> P a.

Lemma total_bind_returns {A B} (f : codec decoder A) (g : A -> codec decoder B) P :
  total f -> returns f P -> (forall a, P a -> total (g a)) -> total (bind f g).
Proof.
  intros Hf HP Hg d Hd. unfold bind. destruct (Hf d Hd) as ([e|a] & d1 & E & H1 & E1 & Hle); rewrite E.
  - by exists (inl e), d1.
  - destruct (Hg a (HP _ _ _ E) d1 H1) as (r & d2 & -> & H2 & E2 & Hle2). exists r, d2.
    split; [done|]. split; [done|]. split; [congruence|lia].
Qed.

Lemma of_be_nonneg bs : 0 <= of_be bs.
Proof.
  unfold of_be. assert (forall v, 0 <= v -> 0 <= foldl (fun v b => Z.shiftl v 8 + value b) v bs) as Hf; [|by apply Hf].
  induction bs as [|b bs IH]; intros v Hv; [done|]. apply IH. pose proof (value_range b).
  pose proof (proj2 (Z.shiftl_nonneg v 8) Hv). lia.
Qed.

Lemma returns_uint n : returns (decodeUint n) (fun v => 0 <= v).
Proof.
  intros d a d'. unfold decodeUint, bind. destruct (decodeRaw n d) as [[[e|bs] d1]|]; [done| |done].
  intros [= <- <-]. apply of_be_nonneg.
Qed.

Lemma total_text_step fuel n text :
  (forall delta s, 0 < n <= delta -> delta < 2 ^ 63 -> total (ResourceRecord.decode_text fuel (wrap 64 (n - delta)) (text ++ [s]))) ->
  total (ResourceRecord.decode_text (S fuel) n text).
Proof.
  intros Hnext. cbn [ResourceRecord.decode_text]. destruct (Z.ltb_spec 0 n) as [Hpos|]; [|apply total_ret].
  intros d Hd. unfold bind at 1 2. cbn [d_tell]. destruct (total_string [] d Hd) as ([e|s] & d1 & -> & H1 & E1 & Hle).
  - by exists (inl e), d1.
  - unfold bind at 1. cbn [d_tell]. destruct (Z.leb_spec n (d_position d1 - d_position d)) as [Hn|Hn].
    + destruct (Hnext (d_position d1 - d_position d) s) with d1 as (r & d2 & -> & H2 & E2 & Hle2); [lia| |done|].
      { destruct H1 as [Hp1 Hb1], Hd as [Hp _]. rewrite E1 in Hp1, Hb1. lia. }
      exists r, d2. split; [done|]. split; [done|]. split; [congruence|lia].
    + by exists (inl Error.e_INVALID), d1.
Qed.

(** The number of bytes that remain is zero or enormous after one string. *)
Lemma total_text n : 0 <= n -> total (ResourceRecord.decode_text 3 n []).
Proof.
  intros Hn. apply total_text_step. intros delta s Hd Hb. apply total_text_step. intros delta' s' Hd' Hb'. exfalso.
  destruct (decide (delta = n)) as [->|Hne].
  - rewrite Z.sub_diag in Hd'. change (wrap 64 0) with 0 in Hd'. lia.
  - assert (wrap 64 (n - delta) = n - delta + 2 ^ 64) as Hw; [|lia].
    unfold wrap. rewrite <- (Z.mod_add _ 1) by done. apply Z.mod_small. lia.
Qed.

Lemma total_rdata type n : 0 <= n -> total (ResourceRecord.decode_rdata type n).
Proof.
  intros Hn. destruct type; cbn [ResourceRecord.decode_rdata];
    repeat first [apply total_ret | apply total_fail |
      apply total_bind; [first [apply total_name | by apply total_uint | by apply total_raw | apply total_check |
        apply total_string | by apply total_text]|intros ?]].
  destruct (Z.ltb_spec (4 + 1) n); [|apply total_ret]. apply total_bind; [apply total_raw; lia|]. intros ?. apply total_ret.
Qed.

Lemma total_data type self : total (ResourceRecord.decode_data type self).
Proof.
  eapply total_bind_returns; [apply total_uint16|apply returns_uint|]. intros n Hn. cbn beta in Hn.
  destruct (0 <? n); [|apply total_ret]. apply total_bind; [apply total_tell|]. intros p0.
  apply total_bind; [by apply total_rdata|]. intros rdata. apply total_bind; [apply total_tell|]. intros p1.
  apply total_bind; [apply total_check|]. intros _. apply total_ret.
Qed.

(** ** Resource records *)

Definition wire_record (r : ResourceRecord.t) : list byte :=
  wire_name (ResourceRecord.d_name r) ++ be16 (RecordType.code (ResourceRecord.d_type r)) ++
  (if ResourceRecord.is_opt (ResourceRecord.d_type r) then
     be16 (ResourceRecord.d_optSize r) ++ be32 (ResourceRecord.d_optFlags r)
   else be16 (Classification.code (ResourceRecord.d_class r)) ++ be32 (ResourceRecord.d_ttl r)) ++
  be16 (size (wire_rdata (ResourceRecord.d_rdata r))) ++ wire_rdata (ResourceRecord.d_rdata r).

(** The attributes that the type leaves out of the encoding have their defaults. *)
Record record_ok (r : ResourceRecord.t) : Prop := {
  r_name : name_ok (ResourceRecord.d_name r);
  r_rdata : rdata_ok (ResourceRecord.d_rdata r);
  r_typed : typed (ResourceRecord.d_type r) (ResourceRecord.d_rdata r);
  r_length : size (wire_rdata (ResourceRecord.d_rdata r)) < 2 ^ 16;
  r_opt : if ResourceRecord.is_opt (ResourceRecord.d_type r) then
      u16 (ResourceRecord.d_optSize r) /\ u32 (ResourceRecord.d_optFlags r) /\
      ResourceRecord.d_class r = Classification.e_INTERNET /\ ResourceRecord.d_ttl r = 0
    else u32 (ResourceRecord.d_ttl r) /\ ResourceRecord.d_optSize r = 0 /\ ResourceRecord.d_optFlags r = 0;
}.

Record record_encodable (r : ResourceRecord.t) : Prop := {
  re_name : name_short (ResourceRecord.d_name r);
  re_rdata : rdata_encodable (ResourceRecord.d_rdata r);
  re_length : size (wire_rdata (ResourceRecord.d_rdata r)) < 2 ^ 16;
}.

Lemma record_ok_encodable r : record_ok r -> record_encodable r.
Proof. intros [Hn Hr _ Hl _]. split; [by apply name_ok_short|by apply rdata_ok_encodable|done]. Qed.

Lemma writes_record r : record_encodable r -> writes (ResourceRecord.encode r) (wire_record r).
Proof.
  intros [Hname Hrdata Hlen]. apply writes_bind; [by apply writes_name|]. apply writes_bind; [apply writes_uint16|].
  apply writes_bind.
  - destruct (ResourceRecord.is_opt _); (apply writes_bind; [apply writes_uint16|apply writes_uint32]).
  - apply writes_with_length; [done|by apply writes_rdata].
Qed.

Lemma reads_record_data r : record_ok r ->
  reads (ResourceRecord.decode_data (ResourceRecord.d_type r) ResourceRecordData.Undefined)
    (be16 (size (wire_rdata (ResourceRecord.d_rdata r))) ++ wire_rdata (ResourceRecord.d_rdata r)) (ResourceRecord.d_rdata r).
Proof.
  intros [_ Hrdata Htyped Hlen _]. destruct (decide (wire_rdata (ResourceRecord.d_rdata r) = [])) as [E|Hne].
  - rewrite E. rewrite (wire_rdata_empty _ Hrdata E). eapply reads_bind; [by apply reads_uint16|apply reads_ret].
  - apply reads_data; [|by apply reads_rdata]. split; [|done]. pose proof (size_nonneg (wire_rdata (ResourceRecord.d_rdata r))).
    assert (size (wire_rdata (ResourceRecord.d_rdata r)) <> 0); [|lia]. intros E. apply Hne. by apply size_zero_inv.
Qed.

Lemma reads_record r : record_ok r -> reads (ResourceRecord.decode ResourceRecord.reset) (wire_record r) r.
Proof.
  intros Hok. pose proof (reads_record_data r Hok) as Hdata. destruct Hok as [Hname _ _ _ Hopt].
  eapply reads_bind; [by apply reads_name_ok|]. eapply reads_bind; [apply reads_uint16, (enum_range (code := RecordType.code))|].
  rewrite (enum_round_trip (code := RecordType.code)). eapply reads_skip; [apply reads_enumerated|].
  destruct (ResourceRecord.is_opt (ResourceRecord.d_type r)); rewrite <- app_assoc.
  - destruct Hopt as (Hs & Hf & Hc & Ht). do 2 (eapply reads_bind; [by first [apply reads_uint16 | apply reads_uint32]|]).
    eapply reads_bind_nil; [exact Hdata|]. destruct r; cbn in *; subst. apply reads_ret.
  - destruct Hopt as (Ht & Hs & Hf). eapply reads_bind; [apply reads_uint16, (enum_range (code := Classification.code))|].
    rewrite (enum_round_trip (code := Classification.code)). eapply reads_skip; [apply reads_enumerated|].
    eapply reads_bind; [by apply reads_uint32|]. eapply reads_bind_nil; [exact Hdata|].
    destruct r; cbn in *; subst. apply reads_ret.
Qed.

Lemma total_record self : total (ResourceRecord.decode self).
Proof.
  apply total_bind; [apply total_name|]. intros name. apply total_bind; [apply total_uint16|]. intros v.
  apply total_bind; [apply total_enumerated|]. intros type. destruct (ResourceRecord.is_opt type);
    repeat (apply total_bind; [first [apply total_uint16 | apply total_uint32 | apply total_enumerated | apply total_data]|intros ?]);
    apply total_ret.
Qed.

#[export] Instance record_format : WireFormat ResourceRecord.t := {|
  wire := wire_record;
  wire_ok := record_ok;
  wire_encode := ResourceRecord.encode;
  wire_decode := ResourceRecord.decode;
  wire_new := ResourceRecord.reset;
|}.

#[export] Instance record_laws : WireLaws ResourceRecord.t.
Proof.
  split; [|exact reads_record|exact total_record]. intros r Hr. by apply writes_record, record_ok_encodable.
Qed.

(** ** Messages *)

Record message_ok (m : Message.t) : Prop := {
  m_header : header_ok (Message.d_header m);
  m_qd : Forall wire_ok (Message.d_qd m);
  m_an : Forall wire_ok (Message.d_an m);
  m_ns : Forall wire_ok (Message.d_ns m);
  m_ar : Forall wire_ok (Message.d_ar m);
  m_qdcount : Header.d_qdcount (Message.d_header m) = size (Message.d_qd m);
  m_ancount : Header.d_ancount (Message.d_header m) = size (Message.d_an m);
  m_nscount : Header.d_nscount (Message.d_header m) = size (Message.d_ns m);
  m_arcount : Header.d_arcount (Message.d_header m) = size (Message.d_ar m);
}.

(** Messages whose encoding is known: of records of supported data, and with the
    counts that [addQd] and the like maintain. *)
Record message_encodable (m : Message.t) : Prop := {
  me_qd : Forall (fun q => name_short (Question.d_name q)) (Message.d_qd m);
  me_an : Forall record_encodable (Message.d_an m);
  me_ns : Forall record_encodable (Message.d_ns m);
  me_ar : Forall record_encodable (Message.d_ar m);
  me_qdcount : Header.d_qdcount (Message.d_header m) = size (Message.d_qd m);
  me_ancount : Header.d_ancount (Message.d_header m) = size (Message.d_an m);
  me_nscount : Header.d_nscount (Message.d_header m) = size (Message.d_ns m);
  me_arcount : Header.d_arcount (Message.d_header m) = size (Message.d_ar m);
}.

Lemma message_ok_encodable m : message_ok m -> message_encodable m.
Proof.
  intros [_ Hqd Han Hns Har Eqd Ean Ens Ear]. split; try done.
  - exact (List.Forall_impl _ (fun q => name_ok_short (Question.d_name q)) Hqd).
  - exact (List.Forall_impl _ record_ok_encodable Han).
  - exact (List.Forall_impl _ record_ok_encodable Hns).
  - exact (List.Forall_impl _ record_ok_encodable Har).
Qed.

Definition wire_message (m : Message.t) : list byte :=
  wire_header (Message.d_header m) ++ wire_each (Message.d_qd m) ++ wire_each (Message.d_an m) ++
  wire_each (Message.d_ns m) ++ wire_each (Message.d_ar m).

Lemma writes_questions l n : n = size l -> Forall (fun q => name_short (Question.d_name q)) l ->
  writes (Message.encode_each Question.encode (Z.to_nat n) l) (wire_each l).
Proof.
  intros -> Hl. unfold size. rewrite Nat2Z.id. apply writes_each_of. revert Hl. apply List.Forall_impl.
  intros q Hq. apply writes_bind; [by apply writes_name|]. apply writes_bind; apply writes_uint16.
Qed.

Lemma writes_records l n : n = size l -> Forall record_encodable l ->
  writes (Message.encode_each ResourceRecord.encode (Z.to_nat n) l) (wire_each l).
Proof.
  intros -> Hl. unfold size. rewrite Nat2Z.id. apply writes_each_of. revert Hl. apply List.Forall_impl.
  exact writes_record.
Qed.

Lemma writes_message m : message_encodable m -> writes (Message.encode m) (wire_message m).
Proof.
  intros [Hqd Han Hns Har Eqd Ean Ens Ear]. apply writes_bind; [apply writes_header|].
  apply writes_bind; [by apply writes_questions|]. apply writes_bind; [by apply writes_records|].
  apply writes_bind; [by apply writes_records|]. by apply writes_records.
Qed.

(** *** What any message leaves of the buffer *)

(** Counts that the sections have, and octets in raw data: what the encoding
    indexes exists. *)
Definition message_regular (m : Message.t) : Prop :=
  Header.d_qdcount (Message.d_header m) <= size (Message.d_qd m) /\
  Header.d_ancount (Message.d_header m) <= size (Message.d_an m) /\
  Header.d_nscount (Message.d_header m) <= size (Message.d_ns m) /\
  Header.d_arcount (Message.d_header m) <= size (Message.d_ar m) /\
  Forall (fun r => ResourceRecord.d_rdata r <> ResourceRecordData.Raw [])
    (Message.d_an m ++ Message.d_ns m ++ Message.d_ar m).

Lemma message_encodable_regular m : message_encodable m -> message_regular m.
Proof.
  intros [_ Han Hns Har Eqd Ean Ens Ear]. unfold message_regular. split_and!; [lia..|].
  assert (forall r, record_encodable r -> ResourceRecord.d_rdata r <> ResourceRecordData.Raw []) as Hr
    by (intros r [_ Hr _] E; by rewrite E in Hr).
  rewrite !Forall_app. split_and!; [exact (List.Forall_impl _ Hr Han)|exact (List.Forall_impl _ Hr Hns)|exact (List.Forall_impl _ Hr Har)].
Qed.

Lemma contained_section {A} (encode : A -> codec encoder unit) l n : n <= size l ->
  Forall (fun a => contained (encode a)) l -> contained (Message.encode_each encode (Z.to_nat n) l).
Proof.
  intros Hn Hl. assert (Z.to_nat n <= length l)%nat as Hk by (unfold size in Hn; lia). clear Hn.
  revert Hk. generalize (Z.to_nat n) as k. induction Hl as [|a l Ha _ IH]; intros k Hk.
  - destruct k; [apply contained_ret|cbn in Hk; lia].
  - destruct k; [apply contained_ret|]. cbn [Message.encode_each]. apply contained_bind; [exact Ha|].
    intros []. apply IH. cbn in Hk. lia.
Qed.

Lemma contained_rdata rdata : rdata <> ResourceRecordData.Raw [] -> contained (ResourceRecord.encode_rdata rdata).
Proof.
  intros Hr. destruct rdata; cbn [ResourceRecord.encode_rdata]; try (solve [contained_tac]).
  - contained_tac. destruct port; contained_tac.
  - clear Hr. induction text as [|s text IH]; cbn [ResourceRecord.encode_text]; contained_tac. exact IH.
  - unfold ResourceRecord.encode_raw_data. rewrite bool_decide_false by congruence. exact (contained_raw data).
Qed.

Lemma contained_record r : ResourceRecord.d_rdata r <> ResourceRecordData.Raw [] -> contained (ResourceRecord.encode r).
Proof.
  intros Hr. unfold ResourceRecord.encode. contained_tac; [destruct (ResourceRecord.is_opt _); contained_tac|].
  by apply contained_with_length, contained_rdata.
Qed.

Lemma contained_message m : message_regular m -> contained (Message.encode m).
Proof.
  intros (Hqd & Han & Hns & Har & Hraw). rewrite !Forall_app in Hraw. destruct Hraw as (Ran & Rns & Rar).
  unfold Message.encode. apply contained_bind; [unfold Header.encode; contained_tac|]. intros [].
  apply contained_bind; [apply contained_section; [done|]; apply Forall_true; intros q; unfold Question.encode; contained_tac|].
  intros []. apply contained_bind; [apply contained_section; [done|]; exact (List.Forall_impl _ contained_record Ran)|].
  intros []. apply contained_bind; [apply contained_section; [done|]; exact (List.Forall_impl _ contained_record Rns)|].
  intros []. apply contained_section; [done|]. exact (List.Forall_impl _ contained_record Rar).
Qed.

#[export] Instance message_format : WireFormat Message.t := {|
  wire := wire_message;
  wire_ok := message_ok;
  wire_encode := Message.encode;
  wire_decode := Message.decode;
  wire_new := Message.reset;
|}.

#[export] Instance message_laws : WireLaws Message.t.
Proof.
  split.
  - intros m Hm. by apply writes_message, message_ok_encodable.
  - intros m [Hh Hqd Han Hns Har Eqd Ean Ens Ear]. eapply reads_bind; [by apply reads_header|].
    eapply reads_bind; [exact (reads_section _ _ Eqd Hqd)|]. eapply reads_bind; [exact (reads_section _ _ Ean Han)|].
    eapply reads_bind; [exact (reads_section _ _ Ens Hns)|]. eapply reads_bind_nil; [exact (reads_section _ _ Ear Har)|].
    destruct m. apply reads_ret.
  - intros self. apply total_bind; [apply total_header|]. intros h.
    apply total_bind; [exact (total_section (A := Question.t) _ _)|]. intros qd.
    do 3 (apply total_bind; [exact (total_section (A := ResourceRecord.t) _ _)|intros ?]). apply total_ret.
Qed.

End Formats.

End DnsMessageFacts.
