(* ===== verification/DnsTheorems.v ===== *)
(** * What the domain name system protocol guarantees

    The properties of the encoding and decoding of messages: the round trip, the
    octets that are written, names with compression relative to their reference,
    and the decoding of arbitrary octets. *)

From Stdlib Require Import Strings.Byte Strings.String.
From stdpp Require Import sorting.
From S2P Require Import Prelude Errors DnsVocabulary DnsCodec DnsMessage DnsCodecFacts DnsNames DnsPorts DnsMessageFacts.

Module DnsTheorems.

Import DnsCodec DnsCodecFacts DnsNames DnsPorts DnsMessageFacts.

(** ** A tokenizer *)

(** The longest non-empty parts without a dot, for concrete inputs. *)
Module Dots.

Definition flush (part : list byte) (rest : list (list byte)) : list (list byte) :=
  match part with [] => rest | _ => part :: rest end.

Fixpoint parts (part s : list byte) : list (list byte) :=
  match s with
  | [] => flush part []
  | b :: s => if Byte.eqb b dot then flush part (parts [] s) else parts (part ++ [b]) s
  end.

Lemma eqb_dot b : Byte.eqb b dot = true <-> b = dot.
Proof. split; [apply Byte.byte_dec_bl|apply Byte.byte_dec_lb]. Qed.

Lemma parts_label part l s : dot ∉ l -> parts part (l ++ s) = parts (part ++ l) s.
Proof.
  revert part. induction l as [|b l IH]; intros part Hl; [by rewrite app_nil_r|]. cbn [app parts].
  apply not_elem_of_cons in Hl as [Hb Hl]. destruct (Byte.eqb b dot) eqn:E; [by apply eqb_dot in E; subst|].
  by rewrite IH, <- app_assoc.
Qed.

Lemma parts_join labels : Forall label_ok labels -> parts [] (join labels) = labels.
Proof.
  induction 1 as [|l labels [Hne Hl] Hrest IH]; [done|]. cbn [join]. destruct labels as [|l' labels].
  - rewrite <- (app_nil_r l) at 1. rewrite parts_label by done. cbn. by destruct l.
  - rewrite parts_label by done. cbn [app parts]. rewrite (proj2 (eqb_dot dot)) by done. rewrite IH. by destruct l.
Qed.

Lemma parts_ok s : forall part, dot ∉ part -> Forall label_ok (parts part s).
Proof.
  assert (forall part rest, dot ∉ part -> Forall label_ok rest -> Forall label_ok (flush part rest)) as Hf.
  { intros [|b part] rest Hp Hr; [done|]. by constructor. }
  induction s as [|b s IH]; intros part Hp; cbn [parts]; [by apply Hf|]. destruct (Byte.eqb b dot) eqn:E.
  - apply Hf; [done|]. apply IH. apply not_elem_of_nil.
  - apply IH. rewrite not_elem_of_app, list_elem_of_singleton. split; [done|]. intros Ed. by rewrite (proj2 (eqb_dot b) (eq_sym Ed)) in E.
Qed.

Definition tokenizer : Tokenizer := {| tokens := parts [] |}.

Lemma laws : @TokenizerLaws tokenizer.
Proof. split; [exact parts_join|]. intros s. apply parts_ok, not_elem_of_nil. Qed.

End Dots.

(** ** Properties *)

Section Properties.

Context `{TokenizerLaws}.

(** C25: A message that is encoded is decoded again: when its octets fit,
    [Message::encode] succeeds and [Message::decode], from where the encoder
    was and into a new object, returns the same message and stops where the
    encoder stopped. This holds of the messages that the octets determine
    ([message_ok]): the flag for authentic data is clear, the counts are those of
    the sections, names are non-empty labels of at most 63 octets joined by dots,
    numbers have their width, the data is of the type of its record (raw data of
    a type without a format), is not server data, has at most 65535 octets, a
    text has one string, strings have at most 255 octets, raw data is not empty,
    ports are in ascending order, and what the type leaves out has its
    default. *)
Theorem dns_message_round_trip (m : Message.t) (e : encoder) :
  message_ok m -> encoder_ok e -> e_position e + size (wire m) <= size (e_data e) ->
  exists e', Message.encode m e = Some (inr tt, e') /\
    Message.decode Message.reset (at_ (e_data e') (e_position e)) = Some (inr m, at_ (e_data e') (e_position e')).
Proof.
  intros Hm He Hfit. exists (put (wire m) e). pose proof (wire_writes m Hm e He) as Hw.
  rewrite (proj2 (Z.leb_le _ _)) in Hw by done. split; [exact Hw|]. destruct He as [Hp Hb].
  pose proof (wire_reads m Hm (take (Z.to_nat (e_position e)) (e_data e))
    (drop (Z.to_nat (e_position e + size (wire m))) (e_data e))) as Hr.
  rewrite size_take in Hr by lia. apply Hr. pose proof (size_put (wire m) e (conj Hp Hb) Hfit) as Hs.
  cbn [put e_data] in Hs. rewrite Hs. exact Hb.
Qed.

(** C28: [Message::encode] of any message whose counts its sections have and whose
    raw data is not empty returns; the buffer keeps its size and the bytes before
    the position are as they were, whatever is returned. When moreover no record
    holds server data, no label has more than 63 octets, no string more than 255
    and no data more than 65535, and the counts are those of the sections, it
    writes exactly the octets of the message from the position on, and
    nothing else, when they fit before the end, and else returns an error. *)
Theorem dns_encode_exact (m : Message.t) (e : encoder) :
  message_regular m -> encoder_ok e ->
  exists r e', Message.encode m e = Some (r, e') /\
    size (e_data e') = size (e_data e) /\
    take (Z.to_nat (e_position e)) (e_data e') = take (Z.to_nat (e_position e)) (e_data e) /\
    (message_encodable m ->
     if e_position e + size (wire_message m) <=? size (e_data e) then
       r = inr tt /\ e_position e' = e_position e + size (wire_message m) /\
       e_data e' = take (Z.to_nat (e_position e)) (e_data e) ++ wire_message m ++ drop (Z.to_nat (e_position e')) (e_data e)
     else r = inl Error.e_INVALID).
Proof.
  intros Hm He. destruct (contained_message m Hm e He) as (r & e' & E & [Hs Ht] & _).
  exists r, e'. split_and!; [done..|]. intros Hok. pose proof (writes_message m Hok e He) as Hw. rewrite E in Hw.
  destruct (_ <=? _).
  - by injection Hw as -> ->.
  - by destruct Hw as (e'' & [= -> ->] & _).
Qed.

(** A name is encoded only when its labels have at most 63 octets: the octets
    are the labels with their lengths and the root, and a longer label is an error
    that leaves the bytes before the position. *)
Theorem dns_name_encode_exact (name : list byte) (e : encoder) :
  encoder_ok e ->
  match encodeDomainName name e with
  | Some (inr _, e') =>
      Forall (fun label => size label <= 63) (tokens name) /\ e' = put (wire_name name) e /\
      e_position e + size (wire_name name) <= size (e_data e)
  | Some (inl error, e') =>
      error = Error.e_INVALID /\
      (Exists (fun label => 63 < size label) (tokens name) \/ size (e_data e) < e_position e + size (wire_name name)) /\
      take (Z.to_nat (e_position e)) (e_data e') = take (Z.to_nat (e_position e)) (e_data e)
  | None => False
  end.
Proof.
  intros He. destruct (decide (Forall (fun label => size label <= 63) (tokens name))) as [Hs|Hl].
  - pose proof (writes_name name Hs e He) as Hw.
    destruct (Z.leb_spec (e_position e + size (wire_name name)) (size (e_data e))) as [Hfit|Hno].
    + by rewrite Hw.
    + destruct Hw as (e' & -> & [_ Ht]). split; [done|]. split; [by right|done].
  - apply not_Forall_Exists in Hl; [|intros label; apply _].
    assert (Exists (fun label => 63 < size label) (tokens name)) as Hl'.
    { revert Hl. apply Exists_impl. intros label Hn. unfold compose in Hn. lia. }
    destruct (long_label (tokens name) (overflow 1 ;;* store [x00]) e Hl' He) as (e' & E & [_ Ht]).
    unfold encodeDomainName. rewrite E. split; [done|]. split; [by left|done].
Qed.

End Properties.

(** C26: [MemoryDecoder::decodeDomainName] succeeds exactly when the octets at the
    position are a name with at most 33 compression pointers, and then returns
    the labels of the name joined with dots and stops after it; else it returns an
    error.  It terminates and does not leave the buffer, also when pointers form
    a cycle. *)
Theorem dns_name_reference (d : decoder) :
  decoder_ok d ->
  match decodeDomainName d with
  | Some (e, name, d') =>
      d_data d' = d_data d /\ d_position d <= d_position d' <= size (d_data d) /\
      (e = Error.e_OK /\
       (exists labels, name_at (d_data d) k_POINTERS (d_position d) labels (d_position d') /\ name = join labels) \/
       e = Error.e_INVALID /\ forall labels stop, ~ name_at (d_data d) k_POINTERS (d_position d) labels stop)
  | None => False
  end.
Proof.
  intros Hd. destruct (decodeDomainName_spec d Hd) as (e & name & d' & -> & Hdata & Hle & He).
  split; [done|]. split; [done|]. destruct e; try done; [by left|by right].
Qed.

(** C27: [Message::decode] of arbitrary octets, into any object, returns: it makes
    no access out of the buffer, changes none of its bytes and never moves back. *)
Theorem dns_decode_total (self : Message.t) (d : decoder) :
  decoder_ok d ->
  exists r d', Message.decode self d = Some (r, d') /\ d_data d' = d_data d /\
    d_position d <= d_position d' <= size (d_data d).
Proof.
  intros Hd. destruct (wire_total (WireLaws := @message_laws Dots.tokenizer Dots.laws) self d Hd)
    as (r & d' & E & [Hp Hb] & Hdata & Hle). exists r, d'. rewrite <- Hdata. split; [exact E|]. split; [done|lia].
Qed.

(** ** Concrete inputs *)

#[local] Existing Instance Dots.tokenizer.
#[local] Existing Instance Dots.laws.

(** The octets of an ASCII string. *)
Definition ascii (s : string) : list byte := list_byte_of_string s.

Definition host : list byte := ascii "ntf.io"%string.

Definition record (name : list byte) (type : RecordType.t) (rdata : ResourceRecordData.t) : ResourceRecord.t :=
  {| ResourceRecord.d_name := name; ResourceRecord.d_type := type; ResourceRecord.d_class := Classification.e_INTERNET;
     ResourceRecord.d_ttl := 300; ResourceRecord.d_optSize := 0; ResourceRecord.d_optFlags := 0;
     ResourceRecord.d_rdata := rdata |}.

Definition response : Message.t :=
  {| Message.d_header := {|
       Header.d_id := 0xBEEF; Header.d_direction := Direction.e_RESPONSE; Header.d_operation := Operation.e_STANDARD;
       Header.d_error := ResponseError.e_NAME_ERROR; Header.d_aa := true; Header.d_tc := false; Header.d_rd := true;
       Header.d_ra := true; Header.d_ad := false; Header.d_cd := true;
       Header.d_qdcount := 1; Header.d_ancount := 4; Header.d_nscount := 1; Header.d_arcount := 1 |};
     Message.d_qd := [{| Question.d_name := host; Question.d_type := RecordType.e_MX;
                         Question.d_classification := Classification.e_INTERNET |}];
     Message.d_an := [
       record host RecordType.e_MX (ResourceRecordData.MailExchange 10 host);
       record host RecordType.e_A (ResourceRecordData.Ipv4 [x0a; x00; x00; x01]);
       record host RecordType.e_WKS (ResourceRecordData.WellKnownService [x0a; x00; x00; x01] 6 [25; 80; 443]);
       record host RecordType.e_TXT (ResourceRecordData.Text [ascii "v=1"%string])];
     Message.d_ns := [record host RecordType.e_SOA (ResourceRecordData.ZoneAuthority host host 1 2 3 4 5)];
     Message.d_ar := [
       {| ResourceRecord.d_name := []; ResourceRecord.d_type := RecordType.e_OPT;
          ResourceRecord.d_class := Classification.e_INTERNET; ResourceRecord.d_ttl := 0;
          ResourceRecord.d_optSize := 4096; ResourceRecord.d_optFlags := 0x8000;
          ResourceRecord.d_rdata := ResourceRecordData.Raw [x00; x0a; x00; x00] |}] |}.

Lemma dotless l : existsb (Byte.eqb dot) l = false -> dot ∉ l.
Proof.
  intros E Hin. apply not_true_iff_false in E. apply E, existsb_exists. exists dot. split; [by apply list_elem_of_In|done].
Qed.

Lemma host_ok : name_ok host.
Proof.
  exists [ascii "ntf"%string; ascii "io"%string]. split; [done|]. split; repeat constructor; try done; by apply dotless.
Qed.

Lemma root_ok : name_ok [].
Proof. exists []. by split. Qed.

Lemma record_host_ok type rdata :
  ResourceRecord.is_opt type = false -> rdata_ok rdata -> typed type rdata -> size (wire_rdata rdata) < 2 ^ 16 ->
  record_ok (record host type rdata).
Proof.
  intros Ho Hr Ht Hs. split; cbn [record ResourceRecord.d_name ResourceRecord.d_type ResourceRecord.d_rdata
    ResourceRecord.d_ttl ResourceRecord.d_optSize ResourceRecord.d_optFlags]; try done; [exact host_ok|].
  rewrite Ho. split; [unfold u32; lia|done].
Qed.

Lemma response_ok : message_ok response.
Proof.
  split; cbn [response Message.d_header Message.d_qd Message.d_an Message.d_ns Message.d_ar]; try done.
  - constructor; [exact host_ok|constructor].
  - repeat apply List.Forall_cons; try apply List.Forall_nil; apply record_host_ok; try done.
    + split; [done|exact host_ok].
    + split; [done|]. split; [done|]. split; repeat constructor; lia.
    + exists (ascii "v=1"%string). by split.
  - apply List.Forall_cons; [|apply List.Forall_nil]. apply record_host_ok; try done. split; [exact host_ok|]. split; [exact host_ok|]. done.
  - apply List.Forall_cons; [|apply List.Forall_nil]. split; try done. exact root_ok.
Qed.

(** A buffer for a response, from the position 2. *)
Definition buffer : encoder := {| e_data := replicate 512 xff; e_position := 2 |}.

Lemma buffer_ok : encoder_ok buffer.
Proof. split; vm_compute; split; congruence. Qed.

Lemma dns_message_round_trip_witness :
  (encoder_ok buffer /\ message_ok response /\ e_position buffer + size (wire response) <= size (e_data buffer)) /\
  exists e', Message.encode response buffer = Some (inr tt, e') /\
    Message.decode Message.reset (at_ (e_data e') (e_position buffer)) = Some (inr response, at_ (e_data e') (e_position e')).
Proof.
  split; [split; [exact buffer_ok|split; [exact response_ok|vm_compute; congruence]]|].
  apply (dns_message_round_trip response buffer response_ok buffer_ok). vm_compute. congruence.
Defined.

Lemma dns_encode_exact_witness :
  (message_regular response /\ encoder_ok buffer /\ message_encodable response) /\
  exists e', Message.encode response buffer = Some (inr tt, e') /\ e_position e' = 2 + size (wire_message response).
Proof.
  assert (message_encodable response) as Hok by apply message_ok_encodable, response_ok.
  pose proof (message_encodable_regular _ Hok) as Hm. split; [by split_and!; [|exact buffer_ok|]|].
  destruct (dns_encode_exact response buffer Hm buffer_ok) as (r & e' & E & _ & _ & Hx).
  specialize (Hx Hok). rewrite (proj2 (Z.leb_le _ _)) in Hx by (vm_compute; congruence).
  destruct Hx as (-> & Hp & _). exists e'. split; [exact E|exact Hp].
Defined.

(** A label of 64 octets. *)
Definition long_name : list byte := replicate 64 x61.

Lemma dns_name_encode_exact_witness :
  encoder_ok buffer /\ exists e', encodeDomainName long_name buffer = Some (inl Error.e_INVALID, e').
Proof.
  split; [exact buffer_ok|]. pose proof (dns_name_encode_exact long_name buffer buffer_ok) as Hx.
  destruct (encodeDomainName long_name buffer) as [[[error|[]] e']|].
  - exists e'. by destruct Hx as [-> _].
  - destruct Hx as [Hs _]. exfalso. revert Hs. change (tokens long_name) with [long_name]. rewrite Forall_singleton.
    vm_compute. done.
  - done.
Defined.

(** A name with a pointer, then a pointer to itself. *)
Definition compressed : list byte := [x02; x69; x6f; x00; x03; x6e; x74; x66; xc0; x00; xc0; x0a].

Lemma compressed_ok position : 0 <= position <= 12 -> decoder_ok (at_ compressed position).
Proof. intros Hp. split; [exact Hp|]. vm_compute. done. Qed.

Lemma dns_name_reference_witness :
  (exists labels, name_at compressed k_POINTERS 4 labels 10 /\ host = join labels) /\
  (forall labels stop, ~ name_at compressed k_POINTERS 10 labels stop).
Proof.
  split.
  - pose proof (dns_name_reference (at_ compressed 4) (compressed_ok 4 ltac:(lia))) as Hx.
    destruct (decodeDomainName (at_ compressed 4)) as [[[error name] d']|] eqn:E; [|destruct Hx].
    vm_compute in E. injection E as <- <- <-. destruct Hx as (_ & _ & [(_ & labels & Hn & Hname)|[He _]]); [|discriminate He].
    exists labels. split; [exact Hn|exact Hname].
  - pose proof (dns_name_reference (at_ compressed 10) (compressed_ok 10 ltac:(lia))) as Hx.
    destruct (decodeDomainName (at_ compressed 10)) as [[[error name] d']|] eqn:E; [|destruct Hx].
    vm_compute in E. injection E as <- <- <-. destruct Hx as (_ & _ & [[He _]|[_ Hno]]); [discriminate He|exact Hno].
Defined.

Lemma dns_decode_total_witness :
  decoder_ok (at_ compressed 0) /\
  exists r d', Message.decode Message.reset (at_ compressed 0) = Some (r, d') /\ d_data d' = compressed.
Proof.
  split; [by apply compressed_ok|].
  destruct (dns_decode_total Message.reset (at_ compressed 0) (compressed_ok 0 ltac:(lia))) as (r & d' & E & Hdata & _).
  by exists r, d'.
Defined.

(** ** Concrete behaviours *)

(** An error of the name of a question is not returned: the question that results
    has what was decoded of the name, and no type. *)
Lemma question_error_lost :
  Question.decode Question.reset (at_ [x02; x69; x6f; x40; x00; x01; x00; x01] 0) =
  Some (inr {| Question.d_name := ascii "io"%string; Question.d_type := RecordType.e_A;
               Question.d_classification := Classification.e_INTERNET |},
        at_ [x02; x69; x6f; x40; x00; x01; x00; x01] 4).
Proof. vm_compute. reflexivity. Qed.

(** A text of two strings is encoded, and its decoding is an error. *)
Definition two_strings : ResourceRecord.t := record host RecordType.e_TXT (ResourceRecordData.Text [ascii "a"%string; ascii "b"%string]).

Lemma text_of_two_strings_lost :
  match ResourceRecord.encode two_strings buffer with
  | Some (inr _, e) => option_map fst (ResourceRecord.decode ResourceRecord.reset (at_ (e_data e) 2)) = Some (inl Error.e_INVALID)
  | _ => False
  end.
Proof. vm_compute. reflexivity. Qed.

(** A pointer to the root after a label leaves a dot at the end of the name. *)
Lemma pointer_to_root_leaves_dot :
  decodeDomainName (at_ [x00; x02; x69; x6f; xc0; x00] 1) =
  Some (Error.e_OK, ascii "io."%string, at_ [x00; x02; x69; x6f; xc0; x00] 6).
Proof. vm_compute. reflexivity. Qed.

(** The flag for authentic data is not encoded. *)
Definition authentic (ad : bool) : Header.t :=
  {| Header.d_id := 1; Header.d_direction := Direction.e_RESPONSE; Header.d_operation := Operation.e_STANDARD;
     Header.d_error := ResponseError.e_OK; Header.d_aa := false; Header.d_tc := false; Header.d_rd := false;
     Header.d_ra := false; Header.d_ad := ad; Header.d_cd := false;
     Header.d_qdcount := 0; Header.d_ancount := 0; Header.d_nscount := 0; Header.d_arcount := 0 |}.

Lemma authentic_data_lost : Header.encode (authentic true) buffer = Header.encode (authentic false) buffer.
Proof. vm_compute. reflexivity. Qed.

(** A message that is decoded into an object that is not new keeps the sections
    of which the octets have none, against the counts of its header. *)
Definition no_sections : list byte := [x00; x01; x80; x00; x00; x00; x00; x00; x00; x00; x00; x00].

Lemma decode_keeps_sections :
  match Message.decode response (at_ no_sections 0) with
  | Some (inr m, _) => Header.d_qdcount (Message.d_header m) = 0 /\ Message.d_qd m = Message.d_qd response
  | _ => False
  end.
Proof. vm_compute. split; reflexivity. Qed.

(** Raw data of 65536 octets has a length of zero on the wire. *)
Definition huge : encoder := {| e_data := replicate (Z.to_nat 65552) xff; e_position := 0 |}.

Lemma length_narrowed :
  match ResourceRecord.encode (record [] RecordType.e_OPT (ResourceRecordData.Raw (replicate (Z.to_nat 65536) x2a))) huge with
  | Some (inr _, e) => e_position e = 65547 /\ slice 9 2 (e_data e) = Some [x00; x00]
  | _ => False
  end.
Proof. vm_compute. split; reflexivity. Qed.

End DnsTheorems.
