(* ===== verification/Interest.v ===== *)
(** * The interest in the events of a descriptor

    Models [Interest] (src/groups/ntc/ntcs/ntcs_interest.h and .cpp), the flags
    that a driver keeps for a descriptor, and the options that set two of them
    (src/groups/ntc/ntca/ntca_reactoreventoptions.h). The specification is a
    record of truth values, of which the word is the representation. *)

From S2P Require Import Prelude.
From stdpp Require Import strings.
#[local] Open Scope Z_scope.

Module ReactorEventTrigger.

Inductive t : Type := e_LEVEL | e_EDGE.

#[global] Instance t_eq_dec : EqDecision t.
Proof. solve_decision. Defined.

End ReactorEventTrigger.

Module ReactorEventOptions.

Record t : Type := mk {
  d_trigger : option ReactorEventTrigger.t;
  d_oneShot : option bool
}.

Definition init : t := mk None None.

End ReactorEventOptions.

Module Interest.

Definition e_READABLE : Z := 1.
Definition e_WRITABLE : Z := 2.
Definition e_ERROR : Z := 4.
Definition e_EDGE : Z := 8.
Definition e_ONE_SHOT : Z := 16.
Definition e_NOTIFICATION : Z := 32.

(** A [bsl::uint32_t]. *)
Record t : Type := mk { d_value : Z }.

(** [d_value |= flag] and [d_value &= ~flag], where the complement of the
    enumerator, which is an [int], is converted to 32 bits. *)
Definition set (flag : Z) (i : t) : t := mk (Z.lor (d_value i) flag).
Definition unset (flag : Z) (i : t) : t := mk (Z.land (d_value i) (wrap 32 (Z.lnot flag))).
Definition has (flag : Z) (i : t) : bool := negb (Z.land (d_value i) flag =? 0).

Definition init : t := mk (Z.lor e_ERROR e_NOTIFICATION).

Definition setTrigger (value : ReactorEventTrigger.t) (i : t) : t :=
  match value with
  | ReactorEventTrigger.e_EDGE => set e_EDGE i
  | ReactorEventTrigger.e_LEVEL => unset e_EDGE i
  end.

Definition setOneShot (value : bool) (i : t) : t :=
  if value then set e_ONE_SHOT i else unset e_ONE_SHOT i.

Definition make (trigger : ReactorEventTrigger.t) (oneShot : bool) : t :=
  let i := init in
  let i :=
    match trigger with ReactorEventTrigger.e_EDGE => set e_EDGE i | _ => i end in
  if oneShot then set e_ONE_SHOT i else i.

Definition showReadable : t -> t := set e_READABLE.
Definition hideReadable : t -> t := unset e_READABLE.
Definition showWritable : t -> t := set e_WRITABLE.
Definition hideWritable : t -> t := unset e_WRITABLE.
Definition showError : t -> t := set e_ERROR.
Definition hideError : t -> t := unset e_ERROR.
Definition showNotifications : t -> t := set e_NOTIFICATION.
Definition hideNotifications : t -> t := unset e_NOTIFICATION.

Definition reset (i : t) : t := mk e_ERROR.

Definition wantReadable : t -> bool := has e_READABLE.
Definition wantWritable : t -> bool := has e_WRITABLE.
Definition wantReadableOrWritable : t -> bool := has (Z.lor e_READABLE e_WRITABLE).
Definition wantError : t -> bool := has e_ERROR.
Definition wantNotifications : t -> bool := has e_NOTIFICATION.

Definition trigger (i : t) : ReactorEventTrigger.t :=
  if has e_EDGE i then ReactorEventTrigger.e_EDGE else ReactorEventTrigger.e_LEVEL.

Definition oneShot : t -> bool := has e_ONE_SHOT.

Definition equals (i other : t) : bool := d_value i =? d_value other.
Definition less (i other : t) : bool := d_value i <? d_value other.

(** What a step of [print] writes, and whether nothing was written yet. *)
Definition print_flag (flag : Z) (name : string) (i : t) (p : string * bool) : string * bool :=
  let '(stream, empty) := p in
  if has flag i
  then ((stream ++ (if empty then " " else "") ++ name)%string, false)
  else p.

Definition print (i : t) : string :=
  if d_value i =? 0 then "(none)" else
  let p := (EmptyString, true) in
  let p := print_flag e_READABLE "READABLE" i p in
  let p := print_flag e_WRITABLE "WRITABLE" i p in
  let p := print_flag e_EDGE "EDGE" i p in
  let p := print_flag e_ONE_SHOT "ONESHOT" i p in
  let p := print_flag e_NOTIFICATION "NOTIFICATION" i p in
  p.1.

#[global] Instance t_eq_dec : EqDecision t.
Proof. solve_decision. Defined.

(** ** The options of a call *)

(** What all operations of a registry entry do with their options. *)
Definition apply_options (options : ReactorEventOptions.t) (i : t) : t :=
  let i :=
    match ReactorEventOptions.d_trigger options with Some v => setTrigger v i | None => i end in
  match ReactorEventOptions.d_oneShot options with Some v => setOneShot v i | None => i end.

(** ** The specification *)

Record flags : Type := mkFlags {
  f_readable : bool;
  f_writable : bool;
  f_error : bool;
  f_edge : bool;
  f_oneShot : bool;
  f_notifications : bool
}.

Definition view (i : t) : flags :=
  mkFlags (wantReadable i) (wantWritable i) (wantError i)
    (bool_decide (trigger i = ReactorEventTrigger.e_EDGE)) (oneShot i) (wantNotifications i).

(** Nothing but the six flags is set. *)
Definition well_formed (i : t) : Prop := 0 <= d_value i < 64.

End Interest.

Module InterestTheorems.
Import Interest.

(** A flag is a bit. *)
Lemma has_bit b i : 0 <= b -> has (2 ^ b) i = Z.testbit (d_value i) b.
Proof.
  intros Hb. unfold has. destruct (Z.testbit (d_value i) b) eqn:E.
  - apply negb_true_iff, Z.eqb_neq. intros H0.
    assert (Z.testbit (Z.land (d_value i) (2 ^ b)) b = false) as Hf by (rewrite H0; apply Z.bits_0).
    by rewrite Z.land_spec, E, Z.pow2_bits_true in Hf by lia.
  - apply negb_false_iff, Z.eqb_eq, Z.bits_inj'. intros n Hn.
    rewrite Z.land_spec, Z.bits_0, Z.pow2_bits_eqb by lia.
    destruct (Z.eqb_spec b n) as [->|]; [by rewrite E|apply andb_false_r].
Qed.

Lemma flag_set b b' i : 0 <= b -> 0 <= b' ->
  has (2 ^ b') (set (2 ^ b) i) = (b =? b') || has (2 ^ b') i.
Proof.
  intros. rewrite !has_bit by lia. unfold set, d_value at 1.
  rewrite Z.lor_spec, Z.pow2_bits_eqb by lia. apply orb_comm.
Qed.

Lemma flag_unset b b' i : 0 <= b -> 0 <= b' < 32 ->
  has (2 ^ b') (unset (2 ^ b) i) = negb (b =? b') && has (2 ^ b') i.
Proof.
  intros. rewrite !has_bit by lia. unfold unset, d_value at 1, wrap.
  rewrite Z.land_spec, Z.mod_pow2_bits_low, Z.lnot_spec, Z.pow2_bits_eqb by lia.
  apply andb_comm.
Qed.

(** A word with bits below six only. *)
Lemma well_formed_bits i :
  well_formed i <-> 0 <= d_value i /\ forall b, 6 <= b -> Z.testbit (d_value i) b = false.
Proof.
  unfold well_formed. split.
  - intros Hi. split; [lia|]. intros b Hb. destruct (Z.eq_dec (d_value i) 0) as [->|].
    { apply Z.bits_0. }
    apply Z.bits_above_log2; [lia|]. apply Z.lt_le_trans with 6; [|lia].
    apply Z.log2_lt_pow2; lia.
  - intros [Hi Hb]. split; [lia|]. apply Z.nle_gt. intros Hge.
    assert (6 <= Z.log2 (d_value i)) as Hl by (apply Z.log2_le_pow2; lia).
    pose proof (Hb _ Hl) as Hf. rewrite Z.bit_log2 in Hf by lia. done.
Qed.

Lemma set_well_formed b i : 0 <= b < 6 -> well_formed i -> well_formed (set (2 ^ b) i).
Proof.
  rewrite !well_formed_bits. intros Hb [Hi Hbits]. unfold set, d_value at 1 3. split.
  - apply Z.lor_nonneg. split; [lia|]. pose proof (pow2_pos b). lia.
  - intros c Hc. rewrite Z.lor_spec, Hbits, Z.pow2_bits_eqb by lia. lia.
Qed.

Lemma unset_well_formed f i : well_formed i -> well_formed (unset f i).
Proof.
  rewrite !well_formed_bits. intros [Hi Hbits]. unfold unset, d_value at 1 3. split.
  - apply Z.land_nonneg. lia.
  - intros c Hc. by rewrite Z.land_spec, Hbits by lia.
Qed.

Lemma trigger_edge i : bool_decide (trigger i = ReactorEventTrigger.e_EDGE) = has e_EDGE i.
Proof. unfold trigger. by destruct (has e_EDGE i). Qed.

Lemma either_flag i : wantReadableOrWritable i = wantReadable i || wantWritable i.
Proof.
  unfold wantReadableOrWritable, wantReadable, wantWritable, has.
  rewrite Z.land_lor_distr_r.
  destruct (Z.eqb_spec (Z.land (d_value i) e_READABLE) 0) as [->|Hn].
  - by rewrite Z.lor_0_l.
  - simpl. apply negb_true_iff, Z.eqb_neq. intros H0. by apply Z.lor_eq_0_iff in H0 as [? _].
Qed.

#[local] Ltac as_powers :=
  change e_READABLE with (2 ^ 0); change e_WRITABLE with (2 ^ 1); change e_ERROR with (2 ^ 2);
  change e_EDGE with (2 ^ 3); change e_ONE_SHOT with (2 ^ 4); change e_NOTIFICATION with (2 ^ 5).

Lemma view_has i :
  view i = mkFlags (has (2 ^ 0) i) (has (2 ^ 1) i) (has (2 ^ 2) i) (has (2 ^ 3) i)
             (has (2 ^ 4) i) (has (2 ^ 5) i).
Proof. unfold view. by rewrite trigger_edge. Qed.

Lemma view_set b i : 0 <= b ->
  view (set (2 ^ b) i) =
    mkFlags ((b =? 0) || wantReadable i) ((b =? 1) || wantWritable i) ((b =? 2) || wantError i)
      ((b =? 3) || has e_EDGE i) ((b =? 4) || oneShot i) ((b =? 5) || wantNotifications i).
Proof. intros. rewrite view_has, !flag_set by lia. done. Qed.

Lemma view_unset b i : 0 <= b ->
  view (unset (2 ^ b) i) =
    mkFlags (negb (b =? 0) && wantReadable i) (negb (b =? 1) && wantWritable i)
      (negb (b =? 2) && wantError i) (negb (b =? 3) && has e_EDGE i)
      (negb (b =? 4) && oneShot i) (negb (b =? 5) && wantNotifications i).
Proof. intros. rewrite view_has, !flag_unset by lia. done. Qed.

Lemma view_inj i j : well_formed i -> well_formed j -> view i = view j -> i = j.
Proof.
  intros Hi Hj. rewrite !view_has, !has_bit by lia. intros [= H0 H1 H2 H3 H4 H5].
  apply well_formed_bits in Hi as [? Hi]. apply well_formed_bits in Hj as [? Hj].
  destruct i as [i], j as [j]. f_equal. apply Z.bits_inj'. intros n Hn. simpl in *.
  destruct (decide (n < 6)); [|by rewrite Hi, Hj by lia].
  assert (n = 0 \/ n = 1 \/ n = 2 \/ n = 3 \/ n = 4 \/ n = 5) as H' by lia.
  by destruct H' as [->|[->|[->|[->|[->| ->]]]]].
Qed.

(** What each operation does to the flags. *)
Inductive operation : Type :=
| op_trigger (v : ReactorEventTrigger.t)
| op_oneShot (v : bool)
| op_readable (v : bool)
| op_writable (v : bool)
| op_error (v : bool)
| op_notifications (v : bool)
| op_options (o : ReactorEventOptions.t).

Definition run (o : operation) : t -> t :=
  match o with
  | op_trigger v => setTrigger v
  | op_oneShot v => setOneShot v
  | op_readable v => if v then showReadable else hideReadable
  | op_writable v => if v then showWritable else hideWritable
  | op_error v => if v then showError else hideError
  | op_notifications v => if v then showNotifications else hideNotifications
  | op_options o => apply_options o
  end.

Definition spec (o : operation) (f : flags) : flags :=
  let '(mkFlags r w e d o1 n) := f in
  let edge v := bool_decide (v = ReactorEventTrigger.e_EDGE) in
  match o with
  | op_trigger v => mkFlags r w e (edge v) o1 n
  | op_oneShot v => mkFlags r w e d v n
  | op_readable v => mkFlags v w e d o1 n
  | op_writable v => mkFlags r v e d o1 n
  | op_error v => mkFlags r w v d o1 n
  | op_notifications v => mkFlags r w e d o1 v
  | op_options o =>
      mkFlags r w e
        (match ReactorEventOptions.d_trigger o with Some v => edge v | None => d end)
        (match ReactorEventOptions.d_oneShot o with Some v => v | None => o1 end) n
  end.

Lemma operation_set_spec o i :
  match o with op_options _ => False | _ => True end ->
  view (run o i) = spec o (view i) /\ (well_formed i -> well_formed (run o i)).
Proof.
  destruct o as [[]|[]|[]|[]|[]|[]|o]; intros Ho; try done; simpl;
    unfold setTrigger, setOneShot, showReadable, hideReadable, showWritable, hideWritable,
      showError, hideError, showNotifications, hideNotifications; as_powers;
    first [rewrite view_set by lia | rewrite view_unset by lia];
    rewrite ?trigger_edge; (split; [done|]);
    first [by apply set_well_formed | by apply unset_well_formed].
Qed.

Lemma operation_spec o i :
  view (run o i) = spec o (view i) /\ (well_formed i -> well_formed (run o i)).
Proof.
  destruct o as [| | | | | |[tr os]]; try by apply operation_set_spec.
  unfold run, apply_options, ReactorEventOptions.d_trigger, ReactorEventOptions.d_oneShot.
  assert (forall v j, view (setTrigger v j) = spec (op_trigger v) (view j) /\
    (well_formed j -> well_formed (setTrigger v j))) as Ht.
  { intros. by apply (operation_set_spec (op_trigger v)). }
  assert (forall v j, view (setOneShot v j) = spec (op_oneShot v) (view j) /\
    (well_formed j -> well_formed (setOneShot v j))) as Ho.
  { intros. by apply (operation_set_spec (op_oneShot v)). }
  destruct tr as [v|], os as [w|]; [|by destruct (Ht v i) as [-> ?]
    |by destruct (Ho w i) as [-> ?]|by destruct i].
  destruct (Ho w (setTrigger v i)) as [-> H1], (Ht v i) as [-> H2]. split; [done|]. auto.
Qed.

(** C29: The word of flags implements a record of six truth values: each
    operation changes its own flag and no other, the word never has any other
    bit, reads agree with the record, and words that are equal are those whose
    records are. *)
Theorem interest_is_flags (l : list operation) trigger oneShot :
  let i := foldl (fun i o => run o i) (make trigger oneShot) l in
  well_formed i /\
  view i = foldl (fun f o => spec o f)
    (mkFlags false false true (bool_decide (trigger = ReactorEventTrigger.e_EDGE)) oneShot true) l /\
  wantReadableOrWritable i = f_readable (view i) || f_writable (view i) /\
  (forall j, well_formed j -> equals i j = true <-> view i = view j).
Proof.
  intros i.
  assert (well_formed i /\ view i = foldl (fun f o => spec o f) (mkFlags false false true
    (bool_decide (trigger = ReactorEventTrigger.e_EDGE)) oneShot true) l) as [Hw Hv].
  { subst i. induction l as [|o l IH] using rev_ind.
    - destruct trigger, oneShot; (split; [by vm_compute|reflexivity]).
    - rewrite !foldl_app. simpl. destruct IH as [Hw <-].
      destruct (operation_spec o (foldl (fun i o => run o i) (make trigger oneShot) l)). auto. }
  split; [done|]. split; [done|]. split; [apply either_flag|]. intros j Hj.
  unfold equals. rewrite Z.eqb_eq. split.
  - intros He. destruct i, j. simpl in He. by subst.
  - intros He. f_equal. by apply view_inj.
Qed.

(** The value after [reset] is not that of the default constructor, and words
    are written after the first without a separator. *)
Lemma reset_is_not_init i : reset i <> init /\ wantNotifications (reset i) = false.
Proof. split; [discriminate|reflexivity]. Qed.

Lemma print_has_no_separator :
  print (showWritable (showReadable init)) = " READABLEWRITABLENOTIFICATION"%string /\
  print (reset init) = EmptyString.
Proof. split; reflexivity. Qed.

End InterestTheorems.
