(* ===== verification/Registry.v ===== *)
(** * The registry of a reactor

    Models [RegistryEntry] and [RegistryEntryCatalog]
    (src/groups/ntc/ntcs/ntcs_registry.h and .cpp), and what
    src/groups/ntc/ntcs/ntcs_dispatch.h does for a reactor socket. An entry is
    shared by the catalog, by the context of its socket and by the threads that
    process its events, so that the entries are a store and are referred to by
    their position in it.

    A method of an entry runs under the lock of the entry and is a function on
    it; what it calls after the lock is released is returned. The methods of the
    catalog are here the sections of its mutex. *)

From S2P Require Import Prelude Errors Interest.
From stdpp Require Import gmap.
#[local] Open Scope Z_scope.

(** What the registry stores and calls without looking into it: reactor
    sockets, strands, the callbacks of users, and queues of notifications.
    [socket_handle] is the handle of a socket until it is closed. *)
Class ReactorTypes : Type := {
  ReactorSocket : Type;
  ReactorSocket_eq_dec :: EqDecision ReactorSocket;
  ReactorSocket_countable :: Countable ReactorSocket;
  Strand : Type;
  socket_handle : ReactorSocket -> Z;
  socket_strand : ReactorSocket -> option Strand;
  ReactorEventCallback : Type;
  ReactorNotificationCallback : Type;
  SocketDetachedCallback : Type;
  SocketDetachedCallback_eq_dec :: EqDecision SocketDetachedCallback;
  NotificationQueue : Type;
  External : Type
}.

Definition k_INVALID_HANDLE : Z := -1.

Module ReactorEvent.

Inductive type : Type := e_NONE | e_READABLE | e_WRITABLE | e_ERROR.

(** The number of octets is not set by a driver. *)
Record t : Type := mk {
  d_handle : Z;
  d_type : type;
  d_error : Error.t
}.

Definition init : t := mk k_INVALID_HANDLE e_NONE Error.e_OK.

#[global] Instance type_eq_dec : EqDecision type.
Proof. solve_decision. Defined.

#[global] Instance t_eq_dec : EqDecision t.
Proof. solve_decision. Defined.

End ReactorEvent.

(** ** Announcements *)

Section Announcements.
Context `{ReactorTypes}.

(** What is announced, and the call that announces it. *)
Inductive announcement : Type :=
| a_readable (event : ReactorEvent.t)
| a_writable (event : ReactorEvent.t)
| a_error (event : ReactorEvent.t)
| a_notifications (notifications : NotificationQueue).

Inductive call : Type :=
| c_process (socket : ReactorSocket) (what : announcement)
| c_execute (strand : Strand) (socket : ReactorSocket) (what : announcement)
| c_callback (callback : ReactorEventCallback) (event : ReactorEvent.t)
| c_notify (callback : ReactorNotificationCallback) (notifications : NotificationQueue).

(** [Dispatch::announceReadable] and its three siblings. *)
Definition dispatch (socket : ReactorSocket) (what : announcement)
  (destination : option Strand) : call :=
  match destination with
  | None => c_process socket what
  | Some strand => c_execute strand socket what
  end.

End Announcements.

Module RegistryEntry.
Section RegistryEntry.
Context `{ReactorTypes}.

Record t : Type := mk {
  d_handle : Z;
  d_interest : Interest.t;
  d_reactorSocket : option ReactorSocket;
  d_reactorSocketStrand : option Strand;
  d_readableCallback : option ReactorEventCallback;
  d_writableCallback : option ReactorEventCallback;
  d_errorCallback : option ReactorEventCallback;
  d_notificationCallback : option ReactorNotificationCallback;
  d_external : option External;
  d_active : bool;
  d_processCounter : Z;
  d_detachRequired : bool;
  d_detachCallback : option SocketDetachedCallback
}.

(** The constructors: of a reactor socket, with the handle that it has, and of
    a handle. *)
Definition make (handle : Z) (socket : option ReactorSocket)
  (trigger : ReactorEventTrigger.t) (oneShot : bool) : option t :=
  assert! negb (handle =? k_INVALID_HANDLE) ;;
  Some (mk handle (Interest.make trigger oneShot) socket (socket ≫= socket_strand)
          None None None None None true 0 false None).

Definition ofSocket (handle : Z) (socket : ReactorSocket) : ReactorEventTrigger.t -> bool -> option t :=
  make handle (Some socket).
Definition ofHandle (handle : Z) : ReactorEventTrigger.t -> bool -> option t :=
  make handle None.

(** *** Members *)

Definition set_interest (f : Interest.t -> Interest.t) (e : t) : t :=
  mk (d_handle e) (f (d_interest e)) (d_reactorSocket e) (d_reactorSocketStrand e)
    (d_readableCallback e) (d_writableCallback e) (d_errorCallback e) (d_notificationCallback e)
    (d_external e) (d_active e) (d_processCounter e) (d_detachRequired e) (d_detachCallback e).
Definition set_readableCallback (c : option ReactorEventCallback) (e : t) : t :=
  mk (d_handle e) (d_interest e) (d_reactorSocket e) (d_reactorSocketStrand e)
    c (d_writableCallback e) (d_errorCallback e) (d_notificationCallback e)
    (d_external e) (d_active e) (d_processCounter e) (d_detachRequired e) (d_detachCallback e).
Definition set_writableCallback (c : option ReactorEventCallback) (e : t) : t :=
  mk (d_handle e) (d_interest e) (d_reactorSocket e) (d_reactorSocketStrand e)
    (d_readableCallback e) c (d_errorCallback e) (d_notificationCallback e)
    (d_external e) (d_active e) (d_processCounter e) (d_detachRequired e) (d_detachCallback e).
Definition set_errorCallback (c : option ReactorEventCallback) (e : t) : t :=
  mk (d_handle e) (d_interest e) (d_reactorSocket e) (d_reactorSocketStrand e)
    (d_readableCallback e) (d_writableCallback e) c (d_notificationCallback e)
    (d_external e) (d_active e) (d_processCounter e) (d_detachRequired e) (d_detachCallback e).
Definition set_notificationCallback (c : option ReactorNotificationCallback) (e : t) : t :=
  mk (d_handle e) (d_interest e) (d_reactorSocket e) (d_reactorSocketStrand e)
    (d_readableCallback e) (d_writableCallback e) (d_errorCallback e) c
    (d_external e) (d_active e) (d_processCounter e) (d_detachRequired e) (d_detachCallback e).
Definition setExternal (external : option External) (e : t) : t :=
  mk (d_handle e) (d_interest e) (d_reactorSocket e) (d_reactorSocketStrand e)
    (d_readableCallback e) (d_writableCallback e) (d_errorCallback e) (d_notificationCallback e)
    external (d_active e) (d_processCounter e) (d_detachRequired e) (d_detachCallback e).
Definition set_active (b : bool) (e : t) : t :=
  mk (d_handle e) (d_interest e) (d_reactorSocket e) (d_reactorSocketStrand e)
    (d_readableCallback e) (d_writableCallback e) (d_errorCallback e) (d_notificationCallback e)
    (d_external e) b (d_processCounter e) (d_detachRequired e) (d_detachCallback e).
Definition set_processCounter (n : Z) (e : t) : t :=
  mk (d_handle e) (d_interest e) (d_reactorSocket e) (d_reactorSocketStrand e)
    (d_readableCallback e) (d_writableCallback e) (d_errorCallback e) (d_notificationCallback e)
    (d_external e) (d_active e) n (d_detachRequired e) (d_detachCallback e).
Definition set_detach (b : bool) (c : option SocketDetachedCallback) (e : t) : t :=
  mk (d_handle e) (d_interest e) (d_reactorSocket e) (d_reactorSocketStrand e)
    (d_readableCallback e) (d_writableCallback e) (d_errorCallback e) (d_notificationCallback e)
    (d_external e) (d_active e) (d_processCounter e) b c.

(** *** Interest

    Each operation changes the interest under the lock and returns the entry,
    whose interest the code returns. *)

Definition showReadable (options : ReactorEventOptions.t) (e : t) : t :=
  set_interest (Interest.apply_options options ∘ Interest.showReadable) e.

Definition showReadableCallback (options : ReactorEventOptions.t)
  (callback : option ReactorEventCallback) (e : t) : t :=
  set_interest (Interest.apply_options options ∘ Interest.showReadable)
    (set_readableCallback callback e).

Definition showWritable (options : ReactorEventOptions.t) (e : t) : t :=
  set_interest (Interest.apply_options options ∘ Interest.showWritable) e.

Definition showWritableCallback (options : ReactorEventOptions.t)
  (callback : option ReactorEventCallback) (e : t) : t :=
  set_interest (Interest.apply_options options ∘ Interest.showWritable)
    (set_writableCallback callback e).

Definition showError (options : ReactorEventOptions.t) (e : t) : t :=
  set_interest (Interest.apply_options options ∘ Interest.showError) e.

Definition showErrorCallback (options : ReactorEventOptions.t)
  (callback : option ReactorEventCallback) (e : t) : t :=
  set_interest (Interest.apply_options options ∘ Interest.showError)
    (set_errorCallback callback e).

Definition showNotifications (e : t) : t := set_interest Interest.showNotifications e.

Definition showNotificationsCallback (callback : option ReactorNotificationCallback) (e : t) : t :=
  set_interest Interest.showNotifications (set_notificationCallback callback e).

Definition hideReadable (options : ReactorEventOptions.t) (e : t) : t :=
  set_interest (Interest.apply_options options ∘ Interest.hideReadable) e.

Definition hideReadableCallback (options : ReactorEventOptions.t) (e : t) : t :=
  set_interest (Interest.apply_options options ∘ Interest.hideReadable)
    (set_readableCallback None e).

Definition hideWritable (options : ReactorEventOptions.t) (e : t) : t :=
  set_interest (Interest.apply_options options ∘ Interest.hideWritable) e.

Definition hideWritableCallback (options : ReactorEventOptions.t) (e : t) : t :=
  set_interest (Interest.apply_options options ∘ Interest.hideWritable)
    (set_writableCallback None e).

(** Errors cannot be hidden. *)
Definition hideError (options : ReactorEventOptions.t) (e : t) : t :=
  set_interest (Interest.apply_options options) e.

Definition hideErrorCallback (options : ReactorEventOptions.t) (e : t) : t :=
  set_interest (Interest.apply_options options) e.

Definition hideNotifications (e : t) : t := set_interest Interest.hideNotifications e.

Definition hideNotificationsCallback (e : t) : t :=
  set_interest Interest.hideNotifications (set_notificationCallback None e).

Definition wantReadable (e : t) : bool := Interest.wantReadable (d_interest e).
Definition wantWritable (e : t) : bool := Interest.wantWritable (d_interest e).
Definition wantError (e : t) : bool := Interest.wantError (d_interest e).
Definition wantNotifications (e : t) : bool := Interest.wantNotifications (d_interest e).
Definition oneShot (e : t) : bool := Interest.oneShot (d_interest e).
Definition trigger (e : t) : ReactorEventTrigger.t := Interest.trigger (d_interest e).

(** *** Announcements

    The entry, whether the event is announced, and the call that announces it,
    which is made without the lock. *)

Definition announceReadable (event : ReactorEvent.t) (e : t) : t * bool * option call :=
  match d_reactorSocket e with
  | Some socket =>
      if wantReadable e then
        (if oneShot e then set_interest Interest.hideReadable e else e, true,
         Some (dispatch socket (a_readable event) (d_reactorSocketStrand e)))
      else (e, false, None)
  | None =>
      if wantReadable e then
        let readableCallback := d_readableCallback e in
        (if oneShot e
         then set_readableCallback None (set_interest Interest.hideReadable e) else e, true,
         callback ← readableCallback; Some (c_callback callback event))
      else (e, false, None)
  end.

Definition announceWritable (event : ReactorEvent.t) (e : t) : t * bool * option call :=
  match d_reactorSocket e with
  | Some socket =>
      if wantWritable e then
        (if oneShot e then set_interest Interest.hideWritable e else e, true,
         Some (dispatch socket (a_writable event) (d_reactorSocketStrand e)))
      else (e, false, None)
  | None =>
      if wantWritable e then
        let writableCallback := d_writableCallback e in
        (if oneShot e
         then set_writableCallback None (set_interest Interest.hideWritable e) else e, true,
         callback ← writableCallback; Some (c_callback callback event))
      else (e, false, None)
  end.

Definition announceError (event : ReactorEvent.t) (e : t) : t * bool * option call :=
  match d_reactorSocket e with
  | Some socket =>
      if wantError e then
        (if oneShot e then set_interest Interest.hideError e else e, true,
         Some (dispatch socket (a_error event) (d_reactorSocketStrand e)))
      else (e, false, None)
  | None =>
      if wantError e then
        let effective :=
          match d_errorCallback e, d_readableCallback e, d_writableCallback e with
          | Some callback, _, _ => Some (c_callback callback event)
          | None, Some callback, _ =>
              Some (c_callback callback (ReactorEvent.mk (d_handle e) ReactorEvent.e_READABLE
                (ReactorEvent.d_error event)))
          | None, None, Some callback =>
              Some (c_callback callback (ReactorEvent.mk (d_handle e) ReactorEvent.e_WRITABLE
                (ReactorEvent.d_error event)))
          | None, None, None => None
          end in
        (if oneShot e then set_interest Interest.hideError e else e, true, effective)
      else (e, false, None)
  end.

Definition announceNotifications (notifications : NotificationQueue) (e : t)
  : t * bool * option call :=
  match d_reactorSocket e with
  | Some socket =>
      if wantNotifications e then
        (e, true, Some (dispatch socket (a_notifications notifications) (d_reactorSocketStrand e)))
      else (e, false, None)
  | None =>
      if wantNotifications e then
        (e, true, callback ← d_notificationCallback e; Some (c_notify callback notifications))
      else (e, false, None)
  end.

(** The entry, whether the detachment is announced, and the callback that is
    dispatched without the lock. *)
Definition announceDetached (e : t) : t * bool * option SocketDetachedCallback :=
  if d_detachRequired e
  then (set_detach false None e, true, d_detachCallback e)
  else (e, false, None).

Definition setDetachmentRequired (callback : option SocketDetachedCallback) (e : t) : option t :=
  assert! negb (d_detachRequired e) ;;
  assert! negb (bool_decide (is_Some (d_detachCallback e))) ;;
  Some (set_detach true callback e).

(** What [close] closes, without the lock. *)
Inductive closed : Type :=
| close_socket (socket : ReactorSocket)
| close_handle (handle : Z).

Definition close (e : t) : option closed :=
  match d_reactorSocket e with
  | Some socket => Some (close_socket socket)
  | None =>
      if negb (d_handle e =? k_INVALID_HANDLE) then Some (close_handle (d_handle e)) else None
  end.

(** The entry and the socket whose context is reset. *)
Definition clear (e : t) : t * option ReactorSocket :=
  let e :=
    match d_reactorSocket e with
    | Some _ => e
    | None => set_errorCallback None (set_writableCallback None (set_readableCallback None e))
    end in
  (set_active false (set_detach false None e), d_reactorSocket e).

(** The counter of the threads that process events of the entry, an atomic
    integer of 32 bits. *)
Definition incrementProcessCounter (e : t) : t :=
  set_processCounter (wrap 32 (d_processCounter e + 1)) e.

Definition decrementProcessCounter (e : t) : t * Z :=
  let n := wrap 32 (d_processCounter e - 1) in (set_processCounter n e, n).

Definition isProcessing (e : t) : bool := negb (d_processCounter e =? 0).

End RegistryEntry.
End RegistryEntry.

Module Registry.
Section Registry.
Context `{ReactorTypes}.

(** The entries, the contexts of the sockets and the sockets that were closed are
    shared objects; the rest are the members of the catalog. *)
Record t : Type := mk {
  entries : list RegistryEntry.t;
  contexts : gmap ReactorSocket nat;
  closed : gset ReactorSocket;
  d_vector : list (option nat);
  d_size : Z;
  d_trigger : ReactorEventTrigger.t;
  d_oneShot : bool
}.

Definition init (trigger : ReactorEventTrigger.t) (oneShot : bool) : t :=
  mk [] ∅ ∅ (replicate 64 None) 0 trigger oneShot.

Definition setDefaultTrigger (trigger : ReactorEventTrigger.t) (r : t) : t :=
  mk (entries r) (contexts r) (closed r) (d_vector r) (d_size r) trigger (d_oneShot r).
Definition setDefaultOneShot (oneShot : bool) (r : t) : t :=
  mk (entries r) (contexts r) (closed r) (d_vector r) (d_size r) (d_trigger r) oneShot.

Definition set_entries (l : list RegistryEntry.t) (r : t) : t :=
  mk l (contexts r) (closed r) (d_vector r) (d_size r) (d_trigger r) (d_oneShot r).
Definition set_contexts (m : gmap ReactorSocket nat) (r : t) : t :=
  mk (entries r) m (closed r) (d_vector r) (d_size r) (d_trigger r) (d_oneShot r).
Definition set_vector (v : list (option nat)) (n : Z) (r : t) : t :=
  mk (entries r) (contexts r) (closed r) v n (d_trigger r) (d_oneShot r).

(** A socket is closed: it keeps the handle it reports, unless it is closed because
    its connection failed. *)
Definition closeHandle (failed : bool) (socket : ReactorSocket) (r : t) : t :=
  if negb failed then r else
  mk (entries r) (contexts r) ({[socket]} ∪ closed r) (d_vector r) (d_size r) (d_trigger r) (d_oneShot r).

(** [ReactorSocket::handle]. *)
Definition socketHandle (socket : ReactorSocket) (r : t) : Z :=
  if bool_decide (socket ∈ closed r) then k_INVALID_HANDLE else socket_handle socket.

(** An operation on an entry. *)
Definition update (id : nat) (f : RegistryEntry.t -> RegistryEntry.t) (r : t) : t :=
  set_entries (alter f id (entries r)) r.

(** [ReactorSocketBase::setReactorContext] and [getReactorContext]. *)
Definition setReactorContext (socket : ReactorSocket) (context : option nat) (r : t) : t :=
  set_contexts (partial_alter (fun _ => context) socket (contexts r)) r.
Definition getReactorContext (socket : ReactorSocket) (r : t) : option nat :=
  contexts r !! socket.

(** [static_cast<bsl::size_t>(handle)]. *)
Definition index (handle : Z) : nat := Z.to_nat (wrap 64 handle).

(** A descriptor is a reactor socket or a handle. *)
Definition descriptor : Type := ReactorSocket + Z.

(** The handle of a descriptor now, and the one that it has while its socket is
    open. *)
Definition handle (d : descriptor) (r : t) : Z :=
  match d with inl socket => socketHandle socket r | inr handle => handle end.

Definition handle_of (d : descriptor) : Z :=
  match d with inl socket => socket_handle socket | inr handle => handle end.

Definition is_open (d : descriptor) (r : t) : Prop :=
  match d with inl socket => socket ∉ closed r | inr _ => True end.

#[global] Instance is_open_dec d r : Decision (is_open d r).
Proof. destruct d; simpl; apply _. Defined.

(** *** [add] *)

Definition create (d : descriptor) (r : t) : option (nat * t) :=
  e ← match d with
      | inl socket => RegistryEntry.ofSocket (handle d r) socket (d_trigger r) (d_oneShot r)
      | inr handle => RegistryEntry.ofHandle handle (d_trigger r) (d_oneShot r)
      end;
  Some (length (entries r), set_entries (entries r ++ [e]) r).

(** [bsl::vector::resize], which throws beyond the size of memory. *)
Definition resize (n : nat) (v : list (option nat)) : option (list (option nat)) :=
  assert! (Z.of_nat n <? 2 ^ 59) ;; Some (v ++ replicate (n - length v) None).

(** The section of the mutex. *)
Definition insert (idx id : nat) (r : t) : option t :=
  v ← (if bool_decide (length (d_vector r) <= idx)%nat
       then resize (Nat.max (idx + 1) (length (d_vector r) * 3 / 2)) (d_vector r)
       else Some (d_vector r));
  assert! bool_decide (idx < length v)%nat ;;
  Some (set_vector (<[idx := Some id]> v) (wrap 32 (d_size r + 1)) r).

(** Up to the end of the section; the context of a reactor socket is set after
    it. *)
Definition add (d : descriptor) (r : t) : option (nat * t) :=
  let handle := handle d r in
  assert! negb (handle =? k_INVALID_HANDLE) ;;
  '(id, r) ← create d r;
  r ← insert (index handle) id r;
  Some (id, r).

(** *** [remove] *)

(** The entry at an index is swapped out. *)
Definition take (idx : nat) (r : t) : option (option nat * t) :=
  match d_vector r !! idx with
  | Some (Some id) =>
      assert! (0 <? d_size r) ;;
      Some (Some id, set_vector (<[idx := None]> (d_vector r)) (wrap 32 (d_size r - 1)) r)
  | _ => Some (None, r)
  end.

(** The section of the mutex; the entry is cleared after it. *)
Definition remove (d : descriptor) (r : t) : option (option nat * t) :=
  let handle := handle d r in
  assert! negb (handle =? k_INVALID_HANDLE) ;;
  take (index handle) r.

(** [RegistryEntry::clear] of an entry in the store. *)
Definition clear_entry (id : nat) (r : t) : t :=
  match entries r !! id with
  | Some e =>
      let '(e', socket) := RegistryEntry.clear e in
      let r := update id (fun _ => e') r in
      match socket with Some s => setReactorContext s None r | None => r end
  | None => r
  end.

(** *** [clear] and [closeAll] *)

(** The loop over the vector: what is taken out, without the controller. *)
Fixpoint clear_loop (controllerIndex i : nat) (v : list (option nat)) (size : Z)
  : option (list nat * list (option nat) * Z) :=
  match v with
  | [] => Some ([], [], size)
  | x :: v =>
      if bool_decide (i = controllerIndex) then
        '(l, v, size) ← clear_loop controllerIndex (S i) v size; Some (l, x :: v, size)
      else
        match x with
        | Some id =>
            assert! (0 <? size) ;;
            '(l, v, size) ← clear_loop controllerIndex (S i) v (wrap 32 (size - 1));
            Some (id :: l, None :: v, size)
        | None =>
            '(l, v, size) ← clear_loop controllerIndex (S i) v size; Some (l, None :: v, size)
        end
  end.

Definition clear (controller : Z) (r : t) : option (list nat * t) :=
  '(l, v, size) ← clear_loop (index controller) 0 (d_vector r) (d_size r);
  Some (l, set_vector v size r).

(** The entries without the controller, in order: [closeAll] closes them and
    [getInfo] describes them, without the mutex; [forEach] calls all. *)
Definition snapshot (controller : Z) (r : t) : list nat :=
  omap id (<[index controller := None]> (d_vector r)).

Definition forEach (r : t) : list nat := omap id (d_vector r).

(** *** [lookup] *)

Definition lookup (handle : Z) (r : t) : option (option nat) :=
  assert! negb (handle =? k_INVALID_HANDLE) ;;
  Some (mjoin (d_vector r !! index handle)).

Definition lookupAndMarkProcessingOngoing (handle : Z) (r : t) : option (option nat * t) :=
  assert! negb (handle =? k_INVALID_HANDLE) ;;
  match mjoin (d_vector r !! index handle) with
  | Some id => Some (Some id, update id RegistryEntry.incrementProcessCounter r)
  | None => Some (None, r)
  end.

Definition size (r : t) : Z := d_size r.

End Registry.
End Registry.
