(* ===== verification/Epoll.v ===== *)
(** * The driver of a reactor

    Models the part of [Epoll] (src/groups/ntc/ntco/ntco_epoll.cpp) that keeps
    the registry and the kernel in step: attaching, the interest in events,
    detaching, closing, and what a thread does with an event it has polled. The
    chronology, which it also drives, closes and clears, is in Chronology.

    A thread is the list of the instructions it has still to execute. An
    instruction is what the thread does between two points at which others may
    intervene: one section of the mutex of the catalog, one section of the lock
    of an entry, one atomic operation, one system call, or one call of a
    callback. Executing it may put instructions in front of the rest. A null
    controller that is used, as a failed assertion, is an instruction without a
    result. The metrics and the logs are left out. *)

From S2P Require Import Prelude Errors Interest Registry.
From stdpp Require Import gmap.
#[local] Open Scope Z_scope.

(** ** The kernel *)

Inductive EpollOperation : Type := EPOLL_CTL_ADD | EPOLL_CTL_MOD | EPOLL_CTL_DEL.

Definition EPOLLIN : Z := 0x001.
Definition EPOLLOUT : Z := 0x004.
Definition EPOLLERR : Z := 0x008.
Definition EPOLLHUP : Z := 0x010.
Definition EPOLLRDHUP : Z := 0x2000.
Definition EPOLLONESHOT : Z := 2 ^ 30.
Definition EPOLLET : Z := 2 ^ 31.

(** A set of polled descriptors; [E_ZERO] is success. *)
Class EpollOps : Type := {
  EpollSet : Type;
  epoll_ctl : EpollOperation -> Z -> Z -> EpollSet -> EpollSet * Errno.t
}.

(** What the manual says of it: the events that are polled for a descriptor
    are those of the last operation that succeeded, an operation that fails has
    no effect, and a descriptor that is not in the set can be neither modified
    nor deleted. *)
Class EpollLaws `{EpollOps} : Type := {
  watched : EpollSet -> gmap Z Z;
  ctl_fails o h e k k' n : epoll_ctl o h e k = (k', n) -> n <> Errno.E_ZERO -> k' = k;
  ctl_changes o h e k k' :
    epoll_ctl o h e k = (k', Errno.E_ZERO) ->
    watched k' =
      match o with EPOLL_CTL_DEL => delete h (watched k) | _ => <[h := e]> (watched k) end;
  ctl_absent o h e k :
    watched k !! h = None -> o <> EPOLL_CTL_ADD -> (epoll_ctl o h e k).2 = Errno.ENOENT;
  ctl_present o h e k :
    is_Some (watched k !! h) -> o <> EPOLL_CTL_ADD -> (epoll_ctl o h e k).2 <> Errno.ENOENT
}.

Module Epoll.
Section Epoll.
Context `{ReactorTypes} `{EpollOps}.

Record configuration : Type := mkConfiguration {
  autoAttach : bool;
  autoDetach : bool
}.

Context (d_config : configuration).

(** The catalog, whether its mutex is held between two instructions, the
    kernel, and the controller, which is a reactor socket of the driver. *)
Record t : Type := mk {
  d_registry : Registry.t;
  d_mutex : bool;
  d_epoll : EpollSet;
  d_controller : option ReactorSocket;
  d_controllerDescriptorHandle : Z
}.

Definition init (trigger : ReactorEventTrigger.t) (oneShot : bool) (k : EpollSet) : t :=
  mk (Registry.init trigger oneShot) false k None k_INVALID_HANDLE.

Definition set_registry (r : Registry.t) (d : t) : t :=
  mk r (d_mutex d) (d_epoll d) (d_controller d) (d_controllerDescriptorHandle d).
Definition set_mutex (b : bool) (d : t) : t :=
  mk (d_registry d) b (d_epoll d) (d_controller d) (d_controllerDescriptorHandle d).
Definition set_epoll (k : EpollSet) (d : t) : t :=
  mk (d_registry d) (d_mutex d) k (d_controller d) (d_controllerDescriptorHandle d).
Definition set_controller (c : option ReactorSocket) (h : Z) (d : t) : t :=
  mk (d_registry d) (d_mutex d) (d_epoll d) c h.

(** The events that are polled for an interest. *)
Definition events_of (interest : Interest.t) : Z :=
  let events := 0 in
  let events := if Interest.wantReadable interest then Z.lor events EPOLLIN else events in
  let events := if Interest.wantWritable interest then Z.lor events EPOLLOUT else events in
  let events :=
    match Interest.trigger interest with
    | ReactorEventTrigger.e_EDGE => Z.lor events EPOLLET
    | ReactorEventTrigger.e_LEVEL => events
    end in
  if Interest.oneShot interest then Z.lor events EPOLLONESHOT else events.

(** ** Instructions *)

(** What a caller shows or hides. *)
Inductive operation : Type :=
| op_showReadable (options : ReactorEventOptions.t)
| op_showReadableCallback (options : ReactorEventOptions.t) (c : option ReactorEventCallback)
| op_showWritable (options : ReactorEventOptions.t)
| op_showWritableCallback (options : ReactorEventOptions.t) (c : option ReactorEventCallback)
| op_showError (options : ReactorEventOptions.t)
| op_showErrorCallback (options : ReactorEventOptions.t) (c : option ReactorEventCallback)
| op_showNotifications
| op_showNotificationsCallback (c : option ReactorNotificationCallback)
| op_hideReadable
| op_hideReadableCallback
| op_hideWritable
| op_hideWritableCallback
| op_hideError
| op_hideErrorCallback
| op_hideNotifications.

Definition perform (o : operation) : RegistryEntry.t -> RegistryEntry.t :=
  let options := ReactorEventOptions.init in
  match o with
  | op_showReadable options => RegistryEntry.showReadable options
  | op_showReadableCallback options c => RegistryEntry.showReadableCallback options c
  | op_showWritable options => RegistryEntry.showWritable options
  | op_showWritableCallback options c => RegistryEntry.showWritableCallback options c
  | op_showError options => RegistryEntry.showError options
  | op_showErrorCallback options c => RegistryEntry.showErrorCallback options c
  | op_showNotifications => RegistryEntry.showNotifications
  | op_showNotificationsCallback c => RegistryEntry.showNotificationsCallback c
  | op_hideReadable => RegistryEntry.hideReadable options
  | op_hideReadableCallback => RegistryEntry.hideReadableCallback options
  | op_hideWritable => RegistryEntry.hideWritable options
  | op_hideWritableCallback => RegistryEntry.hideWritableCallback options
  | op_hideError => RegistryEntry.hideError options
  | op_hideErrorCallback => RegistryEntry.hideErrorCallback options
  | op_hideNotifications => RegistryEntry.hideNotifications
  end.

(** The answers of the system about a descriptor with an error:
    [getLastError], its result and [receiveNotifications]. *)
Record answers : Type := mkAnswers {
  r_error : Error.t;
  r_lastError : Error.t;
  r_received : Error.t * NotificationQueue
}.

Inductive instruction : Type :=
(* the calls *)
| i_attach (d : Registry.descriptor)
| i_show (d : Registry.descriptor) (o : operation)
| i_hide (d : Registry.descriptor) (o : operation)
| i_detach (d : Registry.descriptor) (callback : option SocketDetachedCallback)
| i_closeAll
| i_clear
| i_event (handle : Z) (events : Z) (a : answers)
| i_initialize
(* attaching *)
| i_setContext (socket : ReactorSocket) (id : nat)
| i_attached (id : nat) (report : bool)
(* interest *)
| i_autoAttach (d : Registry.descriptor) (o : operation)
| i_shown (id : nat) (o : operation) (attached report : bool)
| i_hidden (id : nat) (d : Registry.descriptor) (o : operation)
| i_remove (d : Registry.descriptor)
(* the kernel *)
| i_add (handle : Z) (interest : Interest.t) (report : bool)
| i_update (handle : Z) (interest : Interest.t) (report : bool)
| i_delete (handle : Z) (report : bool)
(* detaching *)
| i_removeDetached (id : nat)
| i_checkProcessing (id : nat) (error : Error.t)
| i_announceDetached (id : nat) (interrupt : bool)
| i_dispatchDetached (id : nat) (callback : option SocketDetachedCallback)
| i_clearEntry (id : nat)
| i_unlock (error : Error.t)
| i_closeEntry (id : nat)
(* events *)
| i_announce (id : nat) (what : announcement)
| i_call (id : nat) (c : call)
| i_decrement (id : nat)
| i_controller (id : nat) (events : Z)
| i_rearm (id : nat)
| i_interruptOne
| i_removeController
| i_resetController
| i_createController
| i_addController
| i_controllerAdded (id : nat)
| i_return (error : Error.t).

(** What can be seen of the driver from outside. *)
Inductive effect : Type :=
| f_call (id : nat) (c : call)
| f_require (id : nat) (callback : option SocketDetachedCallback)
| f_detached (id : nat) (callback : SocketDetachedCallback)
| f_close (c : RegistryEntry.closed)
| f_return (error : Error.t).

(** The answers of the environment to an instruction: whether the thread is
    the one that waits, the errors of the controller, and the controller that
    is created. *)
Record oracle : Type := mkOracle {
  o_isWaiter : bool;
  o_interrupt : Error.t;
  o_acknowledge : Error.t;
  o_controller : ReactorSocket
}.

Definition returns (report : bool) (error : Error.t) : list effect :=
  if report then [f_return error] else [].

(** The events of a descriptor, in the order in which they are announced, and
    whether an error ends the processing. *)
Definition last_error (a : answers) : Error.t :=
  if Error.is_error (r_error a) && negb (Error.is_error (r_lastError a))
  then Error.e_CONNECTION_DEAD else r_lastError a.

Definition error_announcements (handle : Z) (a : answers) : list announcement * bool :=
  let '(notified, lastError) :=
    if negb (Error.is_error (last_error a)) then
      let '(error, queue) := r_received a in
      (if negb (Error.is_error error) then [a_notifications queue] else [], error)
    else ([], last_error a) in
  if Error.is_error lastError
  then (notified ++ [a_error (ReactorEvent.mk handle ReactorEvent.e_ERROR lastError)], true)
  else (notified, false).

Definition has (events mask : Z) : bool := negb (Z.land events mask =? 0).

Definition hangup : Z := Z.lor EPOLLIN (Z.lor EPOLLRDHUP EPOLLHUP).

Definition ready_announcements (handle : Z) (events : Z) : list announcement :=
  (if has events EPOLLOUT
   then [a_writable (ReactorEvent.mk handle ReactorEvent.e_WRITABLE Error.e_OK)] else []) ++
  (if has events hangup
   then [a_readable (ReactorEvent.mk handle ReactorEvent.e_READABLE Error.e_OK)] else []).

Definition announcements (handle : Z) (events : Z) (a : answers) : list announcement * bool :=
  let '(l, fatal) :=
    if has events EPOLLERR then error_announcements handle a else ([], false) in
  (if negb fatal then l ++ ready_announcements handle events else l, fatal).

Definition announce (what : announcement) (e : RegistryEntry.t)
  : RegistryEntry.t * bool * option call :=
  match what with
  | a_readable event => RegistryEntry.announceReadable event e
  | a_writable event => RegistryEntry.announceWritable event e
  | a_error event => RegistryEntry.announceError event e
  | a_notifications queue => RegistryEntry.announceNotifications queue e
  end.

(** ** Execution *)

(** Which instructions wait for the mutex of the catalog. *)
Definition needs_mutex (i : instruction) : bool :=
  match i with
  | i_attach _ | i_detach _ _ | i_closeAll | i_clear | i_event _ _ _ => true
  | i_show (inr _) _ | i_hide (inr _) _ => true
  | i_autoAttach _ _ | i_remove _ | i_removeController | i_addController => true
  | _ => false
  end.

(** Which instructions use the controller, which must then not be null. *)
Definition dereferences (o : oracle) (i : instruction) : bool :=
  match i with
  | i_removeController | i_addController => true
  | i_interruptOne => negb (o_isWaiter o)
  | i_controller _ events => negb (has events EPOLLERR) && has events hangup
  | _ => false
  end.

(** [Epoll::add], [Epoll::update] and [Epoll::remove]: the result of a system
    call decides what follows. *)
Definition control (o : EpollOperation) (handle events : Z) (d : t) : t * Errno.t :=
  let '(k, n) := epoll_ctl o handle events (d_epoll d) in (set_epoll k d, n).

(** The entry of a descriptor: the context of a reactor socket, or what the
    catalog has for a handle. *)
Definition find (s : Registry.descriptor) (r : Registry.t) : option (option nat) :=
  match s with
  | inl socket => Some (Registry.getReactorContext socket r)
  | inr handle => Registry.lookup handle r
  end.

Definition context_of (s : Registry.descriptor) (id : nat) : list instruction :=
  match s with inl socket => [i_setContext socket id] | inr _ => [] end.

Definition entry (id : nat) (d : t) : option RegistryEntry.t :=
  Registry.entries (d_registry d) !! id.

Definition set_entry (id : nat) (e : RegistryEntry.t) (d : t) : t :=
  set_registry (Registry.update id (fun _ => e) (d_registry d)) d.

Definition result : Type := list instruction * t * list effect.

(** *** Attaching, showing and hiding *)

Definition attach (s : Registry.descriptor) (next : nat -> list instruction) (d : t)
  : option result :=
  '(id, r) ← Registry.add s (d_registry d);
  Some (context_of s id ++ next id, set_registry r d, []).

Definition attachSocket (s : Registry.descriptor) (d : t) : option result :=
  attach s (fun id => [i_attached id true]) d.

(** [showReadable], [showWritable], [showError] and [showNotifications]. *)
Definition show (s : Registry.descriptor) (o : operation) (d : t) : option result :=
  found ← find s (d_registry d);
  match found with
  | Some id => Some ([i_shown id o false true], d, [])
  | None =>
      if autoAttach d_config then Some ([i_autoAttach s o], d, [])
      else Some ([], d, [f_return Error.e_INVALID])
  end.

Definition shown (id : nat) (o : operation) (attached report : bool) (d : t) : option result :=
  e ← entry id d;
  let e := perform o e in
  let interest := RegistryEntry.d_interest e in
  let handle := RegistryEntry.d_handle e in
  Some ([if attached then i_add handle interest report else i_update handle interest report],
        set_entry id e d, []).

(** [hideReadable], [hideWritable], [hideError] and [hideNotifications]. *)
Definition hide (s : Registry.descriptor) (o : operation) (d : t) : option result :=
  found ← find s (d_registry d);
  match found with
  | Some id => Some ([i_hidden id s o], d, [])
  | None => Some ([], d, [f_return Error.e_INVALID])
  end.

Definition hidden (id : nat) (s : Registry.descriptor) (o : operation) (d : t) : option result :=
  e ← entry id d;
  let e := perform o e in
  let interest := RegistryEntry.d_interest e in
  let handle := RegistryEntry.d_handle e in
  let next :=
    if negb (autoDetach d_config) then [i_update handle interest true]
    else if Interest.wantReadableOrWritable interest then [i_update handle interest true]
    else [i_remove s; i_delete handle true] in
  Some (next, set_entry id e d, []).

Definition remove (s : Registry.descriptor) (d : t) : option result :=
  '(found, r) ← Registry.remove s (d_registry d);
  Some (match found with Some id => [i_clearEntry id] | None => [] end, set_registry r d, []).

(** *** The kernel *)

Definition add (handle : Z) (interest : Interest.t) (report : bool) (d : t) : result :=
  let '(d, n) := control EPOLL_CTL_ADD handle (events_of interest) d in
  ([], d, returns report (Errno.translate n)).

Definition update (handle : Z) (interest : Interest.t) (report : bool) (d : t) : result :=
  let '(d, n) := control EPOLL_CTL_MOD handle (events_of interest) d in
  if bool_decide (n = Errno.ENOENT) then ([i_add handle interest report], d, [])
  else ([], d, returns report (Errno.translate n)).

(** The error of a deletion, which ignores a descriptor that is not polled. *)
Definition ignore_absent (n : Errno.t) : Error.t :=
  if bool_decide (n = Errno.ENOENT) then Error.e_OK else Errno.translate n.

Definition delete (handle : Z) (report : bool) (d : t) : result :=
  let '(d, n) := control EPOLL_CTL_DEL handle 0 d in
  ([], d, returns report (ignore_absent n)).

(** *** Detaching *)

(** [removeAndGetReadyToDetach] up to the functor, under the mutex, which is
    then held until [i_unlock]. *)
Definition detachSocket (s : Registry.descriptor) (callback : option SocketDetachedCallback)
  (d : t) : option result :=
  '(found, r) ← Registry.remove s (d_registry d);
  match found with
  | Some id =>
      e ← Registry.entries r !! id;
      e ← RegistryEntry.setDetachmentRequired callback e;
      Some ([i_removeDetached id], set_mutex true (set_entry id e (set_registry r d)),
            [f_require id callback])
  | None => Some ([], set_registry r d, [f_return Error.e_INVALID])
  end.

(** [removeDetached]. *)
Definition removeDetached (id : nat) (d : t) : option result :=
  e ← entry id d;
  let '(d, n) := control EPOLL_CTL_DEL (RegistryEntry.d_handle e) 0 d in
  Some ([i_checkProcessing id (ignore_absent n)], d, []).

Definition checkProcessing (id : nat) (error : Error.t) (d : t) : option result :=
  e ← entry id d;
  Some ((if negb (RegistryEntry.isProcessing e) then [i_announceDetached id true] else []) ++
        [i_unlock error], d, []).

Definition announceDetached (id : nat) (interrupt : bool) (d : t) : option result :=
  e ← entry id d;
  let '(e, process, callback) := RegistryEntry.announceDetached e in
  Some (if process
        then [i_dispatchDetached id callback; i_clearEntry id] ++
             (if interrupt then [i_interruptOne] else [])
        else [], set_entry id e d, []).

Definition dispatchDetached (id : nat) (callback : option SocketDetachedCallback) (d : t) : result :=
  ([], d, match callback with Some c => [f_detached id c] | None => [] end).

Definition clearEntry (id : nat) (d : t) : result :=
  ([], set_registry (Registry.clear_entry id (d_registry d)) d, []).

(** *** Closing and clearing *)

Definition closeAll (d : t) : option result :=
  Some ((i_closeEntry <$> Registry.snapshot (d_controllerDescriptorHandle d) (d_registry d)) ++
        [i_return Error.e_OK], d, []).

Definition closeEntry (id : nat) (d : t) : option result :=
  e ← entry id d;
  Some ([], d, match RegistryEntry.close e with Some c => [f_close c] | None => [] end).

(** [clear] and [clearSockets]. *)
Definition clear (d : t) : option result :=
  '(l, r) ← Registry.clear (d_controllerDescriptorHandle d) (d_registry d);
  handles ← mapM (fun id => RegistryEntry.d_handle <$> Registry.entries r !! id) l;
  Some ((i_clearEntry <$> l) ++ ((fun h => i_delete h false) <$> handles),
        set_registry r d, []).

(** *** Events *)

(** What a thread does with an event it has polled. *)
Definition event (handle : Z) (events : Z) (a : answers) (d : t) : option result :=
  assert! negb (events =? 0) ;;
  '(found, r) ← Registry.lookupAndMarkProcessingOngoing handle (d_registry d);
  match found with
  | None => Some ([], d, [])
  | Some id =>
      e ← Registry.entries r !! id;
      assert! (RegistryEntry.d_handle e =? handle) ;;
      let d := set_registry r d in
      if negb (handle =? d_controllerDescriptorHandle d) then
        let '(l, fatal) := announcements handle events a in
        Some ((i_announce id <$> l) ++
              (if negb fatal && (events =? EPOLLHUP) then [i_delete handle false] else []) ++
              [i_decrement id], d, [])
      else Some ([i_controller id events; i_decrement id], d, [])
  end.

Definition announceEvent (id : nat) (what : announcement) (d : t) : option result :=
  e ← entry id d;
  let '(e, _, c) := announce what e in
  Some (match c with Some c => [i_call id c] | None => [] end, set_entry id e d, []).

Definition decrement (id : nat) (d : t) : option result :=
  e ← entry id d;
  let '(e, n) := RegistryEntry.decrementProcessCounter e in
  Some (if n =? 0 then [i_announceDetached id false] else [], set_entry id e d, []).

(** *** The controller *)

Definition controllerEvent (o : oracle) (id : nat) (events : Z) (d : t) : option result :=
  if has events EPOLLERR then Some ([i_initialize], d, [])
  else if has events hangup then
    _ ← d_controller d;
    if Error.is_error (o_acknowledge o) then Some ([i_initialize], d, [])
    else Some ([i_rearm id], d, [])
  else Some ([], d, []).

Definition rearm (id : nat) (d : t) : option result :=
  e ← entry id d;
  Some (if RegistryEntry.oneShot e
        then [i_shown id (op_showReadable ReactorEventOptions.init) false false] else [], d, []).

Definition interruptOne (o : oracle) (d : t) : option result :=
  if o_isWaiter o then Some ([], d, [])
  else
    _ ← d_controller d;
    if Error.is_error (o_interrupt o) then Some ([i_initialize], d, [])
    else Some ([], d, []).

(** [reinitializeControl]: the old controller, if there is one, is removed with
    its entry and reset, and a new one is created and added. *)
Definition reinitializeControl (d : t) : option result :=
  Some (match d_controller d with
        | Some _ => [i_removeController; i_resetController]
        | None => [i_createController]
        end, d, []).

Definition removeController (d : t) : option result :=
  c ← d_controller d;
  '(found, r) ← Registry.remove (inl c) (d_registry d);
  match found with
  | Some id =>
      e ← Registry.entries r !! id;
      Some ([i_clearEntry id; i_delete (RegistryEntry.d_handle e) false], set_registry r d, [])
  | None => Some ([], set_registry r d, [])
  end.

Definition resetController (d : t) : result :=
  ([i_createController], set_controller None (d_controllerDescriptorHandle d) d, []).

Definition createController (o : oracle) (d : t) : result :=
  ([i_addController], set_controller (Some (o_controller o)) (d_controllerDescriptorHandle d) d, []).

Definition addController (d : t) : option result :=
  c ← d_controller d;
  attach (inl c) (fun id => [i_controllerAdded id]) d.

Definition controllerAdded (id : nat) (d : t) : option result :=
  e ← entry id d;
  Some ([i_attached id false],
        set_entry id (RegistryEntry.showReadable ReactorEventOptions.init e)
          (set_controller (d_controller d) (RegistryEntry.d_handle e) d), []).

Definition attached (id : nat) (report : bool) (d : t) : option result :=
  e ← entry id d;
  Some ([i_add (RegistryEntry.d_handle e) (RegistryEntry.d_interest e) report], d, []).

(** *** One instruction *)

Definition execute (o : oracle) (i : instruction) (d : t) : option result :=
  match i with
  | i_attach s => attachSocket s d
  | i_show s op => show s op d
  | i_hide s op => hide s op d
  | i_detach s callback => detachSocket s callback d
  | i_closeAll => closeAll d
  | i_clear => clear d
  | i_event handle events a => event handle events a d
  | i_initialize => reinitializeControl d
  | i_setContext socket id =>
      Some ([], set_registry (Registry.setReactorContext socket (Some id) (d_registry d)) d, [])
  | i_attached id report => attached id report d
  | i_autoAttach s op => attach s (fun id => [i_shown id op true true]) d
  | i_shown id op att report => shown id op att report d
  | i_hidden id s op => hidden id s op d
  | i_remove s => remove s d
  | i_add handle interest report => Some (add handle interest report d)
  | i_update handle interest report => Some (update handle interest report d)
  | i_delete handle report => Some (delete handle report d)
  | i_removeDetached id => removeDetached id d
  | i_checkProcessing id error => checkProcessing id error d
  | i_announceDetached id interrupt => announceDetached id interrupt d
  | i_dispatchDetached id callback => Some (dispatchDetached id callback d)
  | i_clearEntry id => Some (clearEntry id d)
  | i_unlock error => Some ([], set_mutex false d, [f_return error])
  | i_closeEntry id => closeEntry id d
  | i_announce id what => announceEvent id what d
  | i_call id c => Some ([], d, [f_call id c])
  | i_decrement id => decrement id d
  | i_controller id events => controllerEvent o id events d
  | i_rearm id => rearm id d
  | i_interruptOne => interruptOne o d
  | i_removeController => removeController d
  | i_resetController => Some (resetController d)
  | i_createController => Some (createController o d)
  | i_addController => addController d
  | i_controllerAdded id => controllerAdded id d
  | i_return error => Some ([], d, [f_return error])
  end.

(** [numSockets]: the controller is not counted. *)
Definition numSockets (d : t) : Z :=
  let result := Registry.size (d_registry d) in
  if 0 <? result then result - 1 else result.

(** A thread that runs alone, for at most [fuel] instructions. *)
Fixpoint run (fuel : nat) (o : oracle) (l : list instruction) (d : t) (trace : list effect)
  : option (t * list effect) :=
  match l, fuel with
  | [], _ => Some (d, trace)
  | i :: rest, S fuel =>
      if needs_mutex i && d_mutex d then None else
      '(next, d, effects) ← execute o i d;
      run fuel o (next ++ rest) d (trace ++ effects)
  | _ :: _, O => None
  end.

(** The constructor: the thread that constructs is alone until the controller
    is there. *)
Definition construct (trigger : ReactorEventTrigger.t) (oneShot : bool) (k : EpollSet) (o : oracle)
  : option t :=
  fst <$> run 8 o [i_initialize] (init trigger oneShot k) [].

End Epoll.
End Epoll.
