(* ===== verification/EpollSystem.v ===== *)
(** * The threads of a driver

    The system in which any number of threads call a driver and process the
    events it polls, with the instructions of all threads in any order, and in
    which sockets are closed meanwhile. What is assumed of a step is [enabled];
    [single] says that one thread polls, [exclusive] that a descriptor is attached
    only when nothing is registered for its handle. *)

From stdpp Require Import gmap.
From S2P Require Import Prelude Errors Interest Registry Epoll.
#[local] Open Scope Z_scope.

Module System.
Import Epoll.
Section System.
Context `{ReactorTypes} `{EpollOps} (d_config : configuration) (single exclusive : bool).

(** The driver, the threads and the effects so far. *)
Record state : Type := mkState {
  driver : Epoll.t;
  threads : list (list instruction);
  trace : list effect
}.

(** A handle is an [int] that is not negative. *)
Definition valid_handle (handle : Z) : Prop := 0 <= handle < 2 ^ 31.

(** No entry is registered for the handle. *)
Definition vacant (handle : Z) (r : Registry.t) : Prop :=
  mjoin (Registry.d_vector r !! Registry.index handle) = None.

(** ** Sums over the instructions of all threads *)

Definition b2z_eq `{EqDecision A} (x y : A) : Z := Z.b2z (bool_decide (x = y)).

(** The threads that process events of an entry. *)
Definition dec (id : nat) (i : instruction) : Z :=
  match i with i_decrement id' => b2z_eq id id' | _ => 0 end.

(** A thread that polls is between its events only when none of these is
    left. *)
Definition polling (i : instruction) : Z :=
  match i with i_decrement _ | i_announceDetached _ false => 1 | _ => 0 end.

(** What a caller may ask for. *)
Definition startable (i : instruction) : Prop :=
  match i with
  | i_attach s | i_show s _ | i_hide s _ | i_detach s _ => valid_handle (Registry.handle_of s)
  | i_event handle events _ => valid_handle handle /\ events <> 0
  | i_closeAll | i_clear | i_initialize => True
  | _ => False
  end.

(** An entry is added: [exclusive] leaves none registered twice, and fewer than
    [2 ^ 32 - 1] are. *)
Definition addable (handle : Z) (r : Registry.t) : Prop :=
  (exclusive = true -> vacant handle r) /\ Registry.size r < 2 ^ 32 - 1.

(** A socket is open while an instruction reads its handle; a new controller has
    a handle of its own; and fewer than [2 ^ 32 - 1] threads process events of an
    entry. *)
Definition enabled (o : oracle) (i : instruction) (all : list instruction) (d : Epoll.t) : Prop :=
  (needs_mutex i = true -> d_mutex d = false) /\
  match i with
  | i_attach s | i_autoAttach s _ =>
      Registry.is_open s (d_registry d) /\ addable (Registry.handle_of s) (d_registry d)
  | i_detach s _ | i_remove s => Registry.is_open s (d_registry d)
  | i_createController =>
      valid_handle (socket_handle (o_controller o)) /\
      Registry.is_open (inl (o_controller o)) (d_registry d)
  | i_addController =>
      forall c, d_controller d = Some c -> addable (socket_handle c) (d_registry d)
  | i_event _ _ _ =>
      (forall id, sum_with (dec id) all < 2 ^ 32 - 1) /\
      (single = true -> sum_with polling all = 0)
  | _ => True
  end.

(** A call begins, an instruction is executed, a socket other than the controller
    is closed, after which the kernel may poll it no more, and a thread ends. *)
Inductive step : state -> state -> Prop :=
| step_call d ts tr i :
    startable i -> step (mkState d ts tr) (mkState d (ts ++ [[i]]) tr)
| step_execute d l i rest r tr o next d' effects :
    enabled o i (concat (l ++ (i :: rest) :: r)) d ->
    execute d_config o i d = Some (next, d', effects) ->
    step (mkState d (l ++ (i :: rest) :: r) tr)
         (mkState d' (l ++ (next ++ rest) :: r) (tr ++ effects))
| step_close d ts tr failed socket k :
    d_controller d <> Some socket ->
    step (mkState d ts tr)
         (mkState (set_epoll k (set_registry (Registry.closeHandle failed socket (d_registry d)) d)) ts tr)
| step_end d l r tr : step (mkState d (l ++ [] :: r) tr) (mkState d (l ++ r) tr).

Inductive reachable (s0 : state) : state -> Prop :=
| reachable_refl : reachable s0 s0
| reachable_step s s' : reachable s0 s -> step s s' -> reachable s0 s'.

(** The driver that the constructor leaves, with its controller. *)
Definition constructed (trigger : ReactorEventTrigger.t) (oneShot : bool) (k : EpollSet) (d : Epoll.t)
  : Prop :=
  exists o, valid_handle (socket_handle (o_controller o)) /\
    construct d_config trigger oneShot k o = Some d.

Definition start (d : Epoll.t) : state := mkState d [] [].

(** The instructions of all threads. *)
Definition all (s : state) : list instruction := concat (threads s).

End System.
End System.
