(* ===== verification/EpollFacts.v ===== *)
(** * What an instruction does to the registry

    The theorems about detachment depend on four members of an entry, the
    vector of the catalog and its size. Here are these parts, what each section
    does to them, and which instructions leave them alone. *)

From stdpp Require Import gmap.
From S2P Require Import Prelude Errors Interest Registry Epoll EpollSystem.
#[local] Open Scope Z_scope.

Module View.
Import Epoll System.
Section View.
Context `{ReactorTypes} `{EpollOps}.

Record cell : Type := mkCell {
  c_handle : Z;
  c_counter : Z;
  c_required : bool;
  c_callback : option SocketDetachedCallback
}.

Definition cell_of (e : RegistryEntry.t) : cell :=
  mkCell (RegistryEntry.d_handle e) (RegistryEntry.d_processCounter e)
    (RegistryEntry.d_detachRequired e) (RegistryEntry.d_detachCallback e).

Record t : Type := mk {
  cells : list cell;
  vector : list (option nat);
  count : Z
}.

Definition view_of (r : Registry.t) : t :=
  mk (cell_of <$> Registry.entries r) (Registry.d_vector r) (Registry.d_size r).

Definition set_cell (id : nat) (c : cell) (v : t) : t :=
  mk (<[id := c]> (cells v)) (vector v) (count v).

Lemma lookup_cell (r : Registry.t) id e :
  Registry.entries r !! id = Some e -> cells (view_of r) !! id = Some (cell_of e).
Proof. intros He. simpl. by rewrite list_lookup_fmap, He. Qed.

Lemma alter_const {A} (x : A) (i : nat) (l : list A) : alter (fun _ => x) i l = <[i := x]> l.
Proof. revert i. induction l as [|y l IH]; intros [|i]; [done..|]. simpl. f_equal. apply IH. Qed.

Lemma of_update id e (r : Registry.t) :
  view_of (Registry.update id (fun _ => e) r) = set_cell id (cell_of e) (view_of r).
Proof.
  unfold view_of, set_cell, Registry.update. simpl. f_equal.
  rewrite (list_fmap_alter _ _ (fun _ => cell_of e)) by (by apply Forall_true). apply alter_const.
Qed.

Lemma of_update_same id e e' (r : Registry.t) :
  Registry.entries r !! id = Some e -> cell_of e' = cell_of e ->
  view_of (Registry.update id (fun _ => e') r) = view_of r.
Proof.
  intros He Hc. rewrite of_update, Hc. unfold set_cell, view_of. simpl. f_equal.
  apply list_insert_id. by rewrite list_lookup_fmap, He.
Qed.

(** The handle, the counter and the request of an entry do not depend on the
    interest and on what is announced. *)
Lemma cell_perform o e : cell_of (perform o e) = cell_of e.
Proof. by destruct o. Qed.

Lemma cell_announce w e : cell_of (announce w e).1.1 = cell_of e.
Proof.
  destruct w; simpl; unfold RegistryEntry.announceReadable, RegistryEntry.announceWritable,
    RegistryEntry.announceError, RegistryEntry.announceNotifications;
    repeat (case_match; simpl; try done).
Qed.

Lemma cell_clear e :
  cell_of (RegistryEntry.clear e).1 =
    mkCell (RegistryEntry.d_handle e) (RegistryEntry.d_processCounter e) false None.
Proof. unfold RegistryEntry.clear. by destruct (RegistryEntry.d_reactorSocket e). Qed.

Lemma of_clear_entry id (r : Registry.t) e :
  Registry.entries r !! id = Some e ->
  view_of (Registry.clear_entry id r) =
    set_cell id (mkCell (RegistryEntry.d_handle e) (RegistryEntry.d_processCounter e) false None)
      (view_of r).
Proof.
  intros He. unfold Registry.clear_entry. rewrite He. pose proof (cell_clear e) as Hc.
  destruct (RegistryEntry.clear e) as [e' s]. rewrite <- Hc. rewrite <- of_update.
  by destruct s.
Qed.

(** ** The catalog *)

Lemma handle_open s (r : Registry.t) : Registry.is_open s r -> Registry.handle s r = Registry.handle_of s.
Proof.
  destruct s as [socket|h]; [|done]. simpl. intros Ho. unfold Registry.socketHandle.
  by rewrite bool_decide_false.
Qed.

Lemma create_spec s (r : Registry.t) id r' :
  Registry.is_open s r -> Registry.create s r = Some (id, r') ->
  id = length (Registry.entries r) /\
  view_of r' = mk (cells (view_of r) ++ [mkCell (Registry.handle_of s) 0 false None]) (vector (view_of r))
            (count (view_of r)) /\
  Registry.contexts r' = Registry.contexts r /\ Registry.closed r' = Registry.closed r.
Proof.
  intros Ho. unfold Registry.create, RegistryEntry.ofSocket, RegistryEntry.ofHandle, RegistryEntry.make.
  rewrite <- (handle_open s r Ho).
  destruct s as [s|h]; simpl; destruct (negb _); simpl; intros [= <- <-]; (split; [done|]);
    unfold view_of; simpl; by rewrite fmap_app.
Qed.

Lemma create_total s (r : Registry.t) :
  Registry.handle s r <> k_INVALID_HANDLE -> is_Some (Registry.create s r).
Proof.
  intros Hs. unfold Registry.create, RegistryEntry.ofSocket, RegistryEntry.ofHandle,
    RegistryEntry.make. destruct s as [s|h]; simpl in *;
    rewrite (proj2 (Z.eqb_neq _ _) Hs); simpl; by eexists.
Qed.

Lemma resize_spec n v v' :
  Registry.resize n v = Some v' -> v' = v ++ replicate (n - length v) None.
Proof. unfold Registry.resize. intros Hr. by inv_option Hr. Qed.

Lemma insert_spec idx id (r r' : Registry.t) :
  Registry.insert idx id r = Some r' ->
  exists k,
    view_of r' = mk (cells (view_of r)) (<[idx := Some id]> (vector (view_of r) ++ replicate k None))
              (wrap 32 (count (view_of r) + 1)) /\
    (idx < length (vector (view_of r)) + k)%nat /\
    (k = 0%nat \/ length (vector (view_of r)) + k =
       Nat.max (idx + 1) (length (vector (view_of r)) * 3 / 2) /\ length (vector (view_of r)) <= idx)%nat /\
    Registry.contexts r' = Registry.contexts r /\ Registry.closed r' = Registry.closed r.
Proof.
  unfold Registry.insert. case_bool_decide as Hl; intros Hi.
  - apply bind_Some in Hi as (v & ->%resize_spec & Hi). inv_option Hi.
    eexists. split; [done|]. case_bool_decide as Hlen; [|done].
    rewrite length_app, length_replicate in Hlen. simpl. split; [done|]. split; [|done].
    right. split; [|done].
    destruct (Nat.le_gt_cases (length (Registry.d_vector r))
      (Nat.max (idx + 1) (length (Registry.d_vector r) * 3 / 2))); lia.
  - simpl in Hi. inv_option Hi. case_bool_decide; [|done]. exists 0%nat. simpl.
    rewrite app_nil_r. repeat split; [lia|]. by left.
Qed.

Lemma take_spec idx (r : Registry.t) found r' :
  Registry.take idx r = Some (found, r') ->
  Registry.entries r' = Registry.entries r /\ Registry.contexts r' = Registry.contexts r /\
  Registry.closed r' = Registry.closed r /\
  match found with
  | Some id =>
      vector (view_of r) !! idx = Some (Some id) /\ 0 < count (view_of r) /\
      view_of r' = mk (cells (view_of r)) (<[idx := None]> (vector (view_of r))) (wrap 32 (count (view_of r) - 1))
  | None => r' = r
  end.
Proof.
  unfold Registry.take. intros Ht.
  destruct (Registry.d_vector r !! idx) as [[id|]|] eqn:E; inv_option Ht; try done.
  repeat split; try done. lia.
Qed.

(** The number of entries that a vector refers to. *)
Definition occupied (v : list (option nat)) : Z := size (omap id v).

Lemma occupied_cons x v :
  occupied (x :: v) = (match x with Some _ => 1 | None => 0 end) + occupied v.
Proof. destruct x; [apply size_cons|done]. Qed.

Lemma occupied_nonneg v : 0 <= occupied v.
Proof. apply size_nonneg. Qed.

(** The loop of [clear] leaves the entry of the controller. *)
Lemma clear_loop_spec c v : forall i n l v' n',
  Registry.clear_loop c i v n = Some (l, v', n') ->
  length v' = length v /\
  (forall p, v' !! p = if decide (i + p = c)%nat then v !! p else (fun _ => None) <$> v !! p) /\
  (forall id, id ∈ l -> exists p, v !! p = Some (Some id) /\ (i + p)%nat <> c) /\
  (0 <= n < 2 ^ 32 -> n' = n - size l /\ 0 <= n') /\
  occupied v = size l + occupied v'.
Proof.
  induction v as [|x v IH]; intros i n l v' n' Hc; cbn [Registry.clear_loop] in Hc.
  { injection Hc as <- <- <-. split; [done|]. split; [|split; [|split]].
    - intros p. by destruct p; case_decide.
    - by intros id ?%elem_of_nil.
    - intros ?. change (size (@nil nat)) with 0. lia.
    - done. }
  assert (forall (l0 : list nat) v0, (forall p, v0 !! p =
      if decide (S i + p = c)%nat then v !! p else (fun _ => None) <$> v !! p) ->
    (forall id, id ∈ l0 -> exists p, v !! p = Some (Some id) /\ (S i + p)%nat <> c) ->
    (forall y p, (y = if decide (i = c) then x else None) -> (y :: v0) !! p =
      if decide (i + p = c)%nat then (x :: v) !! p else (fun _ => None) <$> (x :: v) !! p) /\
    (forall id, id ∈ l0 -> exists p, (x :: v) !! p = Some (Some id) /\ (i + p)%nat <> c))
    as Hshift.
  { intros l0 v0 Hv Hl. split.
    - intros y p ->. destruct p as [|p]; simpl.
      + rewrite Nat.add_0_r. by case_decide.
      + rewrite Hv. replace (S i + p)%nat with (i + S p)%nat by lia. done.
    - intros id Hid. destruct (Hl id Hid) as (p & Hp & Hne). exists (S p). split; [done|]. lia. }
  case_bool_decide as Hic; [|destruct x as [id|]].
  - apply bind_Some in Hc as ([[l0 v0] n0] & Hr0 & Hc). injection Hc as <- <- <-.
    destruct (IH _ _ _ _ _ Hr0) as (Hlen & Hv & Hl & Hn & Hs).
    destruct (Hshift l0 v0 Hv Hl) as [Hv' Hl']. split; [simpl; lia|].
    split; [intros p; apply Hv'; by rewrite decide_True|]. split; [done|]. split; [done|].
    rewrite !occupied_cons. destruct x; lia.
  - destruct (0 <? n) eqn:En; [|done].
    apply bind_Some in Hc as ([[l0 v0] n0] & Hr0 & Hc). injection Hc as <- <- <-.
    destruct (IH _ _ _ _ _ Hr0) as (Hlen & Hv & Hl & Hn & Hs).
    destruct (Hshift l0 v0 Hv Hl) as [Hv' Hl']. split; [simpl; lia|].
    split; [intros p; apply Hv'; by rewrite decide_False|]. split; [|split].
    + intros id' [->|Hid']%elem_of_cons; [|by apply Hl']. exists 0%nat. split; [done|]. lia.
    + intros Hr. rewrite wrap_small in Hn by lia. rewrite size_cons. lia.
    + rewrite !occupied_cons, size_cons. lia.
  - apply bind_Some in Hc as ([[l0 v0] n0] & Hr0 & Hc). injection Hc as <- <- <-.
    destruct (IH _ _ _ _ _ Hr0) as (Hlen & Hv & Hl & Hn & Hs).
    destruct (Hshift l0 v0 Hv Hl) as [Hv' Hl']. split; [simpl; lia|].
    split; [intros p; apply Hv'; by rewrite decide_False|]. split; [done|]. split; [done|].
    rewrite !occupied_cons. lia.
Qed.

Lemma clear_loop_total c v : forall i n,
  occupied v <= n < 2 ^ 32 -> is_Some (Registry.clear_loop c i v n).
Proof.
  induction v as [|x v IH]; intros i n Hn; cbn [Registry.clear_loop]; [by eexists|].
  pose proof (occupied_nonneg v).
  case_bool_decide as Hic; [|destruct x as [id|]].
  - destruct (IH (S i) n) as [[[l v'] n'] ->]; [|by eexists].
    rewrite occupied_cons in Hn. destruct x; lia.
  - rewrite occupied_cons in Hn. rewrite (proj2 (Z.ltb_lt _ _)) by lia.
    destruct (IH (S i) (wrap 32 (n - 1))) as [[[l v'] n'] ->]; [|by eexists].
    rewrite wrap_small; lia.
  - destruct (IH (S i) n) as [[[l v'] n'] ->]; [|by eexists]. rewrite occupied_cons in Hn. lia.
Qed.

End View.
End View.
