(* ===== verification/EpollInvariant.v ===== *)
(** * The invariant of the threads of a driver

    The catalog refers to each entry at the index of its handle and counts at
    least its entries, and exactly these if none is registered twice; the counter of an entry is the number of threads that process its
    events; and a request to detach is, exactly once, pending, about to be
    dispatched or dispatched, and while it is pending some thread will look at
    it. *)

From stdpp Require Import gmap.
From S2P Require Import Prelude Errors Interest Registry Epoll EpollSystem EpollFacts.
#[local] Open Scope Z_scope.

Module Invariant.
Import Epoll System View.
Section Invariant.
Context `{ReactorTypes} `{EpollOps} {exclusive : bool}.

(** ** What is counted *)

(** The holder of the mutex between two instructions. *)
Definition locks (i : instruction) : Z :=
  match i with i_removeDetached _ | i_checkProcessing _ _ | i_unlock _ => 1 | _ => 0 end.

Definition announcing (id : nat) (detacher : bool) (i : instruction) : Z :=
  match i with
  | i_announceDetached id' interrupt =>
      if bool_decide (interrupt = detacher) then b2z_eq id id' else 0
  | _ => 0
  end.

(** Who looks at a pending request, apart from who processes events. *)
Definition responsible (id : nat) (i : instruction) : Z :=
  match i with
  | i_removeDetached id' | i_checkProcessing id' _ | i_announceDetached id' _ => b2z_eq id id'
  | _ => 0
  end.

Definition dispatching (id : nat) (i : instruction) : Z :=
  match i with i_dispatchDetached id' _ => b2z_eq id id' | _ => 0 end.

Definition dispatching_of (id : nat) (callback : SocketDetachedCallback) (i : instruction) : Z :=
  match i with
  | i_dispatchDetached id' c => b2z_eq (id, Some callback) (id', c) | _ => 0 end.

Definition required (id : nat) (f : effect) : Z :=
  match f with f_require id' _ => b2z_eq id id' | _ => 0 end.

Definition required_of (id : nat) (callback : SocketDetachedCallback) (f : effect) : Z :=
  match f with f_require id' c => b2z_eq (id, Some callback) (id', c) | _ => 0 end.

Definition detached (id : nat) (f : effect) : Z :=
  match f with f_detached id' _ => b2z_eq id id' | _ => 0 end.

Definition detached_of (id : nat) (callback : SocketDetachedCallback) (f : effect) : Z :=
  match f with f_detached id' c => b2z_eq (id, callback) (id', c) | _ => 0 end.

(** The request that an entry holds. *)
Definition pending_of (id : nat) (callback : SocketDetachedCallback) (v : View.t) : Z :=
  match cells v !! id with
  | Some c => Z.b2z (c_required c && bool_decide (c_callback c = Some callback))
  | None => 0
  end.

(** ** Entries *)

Definition known (id : nat) (v : View.t) : Prop := (id < length (cells v))%nat.

#[global] Instance known_dec id v : Decision (known id v).
Proof. unfold known. apply _. Defined.

(** The catalog no longer refers to the entry. *)
Definition gone (id : nat) (v : View.t) : Prop := forall p, vector v !! p <> Some (Some id).

Definition unrequested (id : nat) (v : View.t) : Prop :=
  forall c, cells v !! id = Some c -> c_required c = false.

Record catalog (v : View.t) : Prop := {
  cat_cells : forall id c, cells v !! id = Some c ->
    valid_handle (c_handle c) /\ (c_required c = false -> c_callback c = None);
  cat_vector : forall p id, vector v !! p = Some (Some id) ->
    exists c, cells v !! id = Some c /\ c_handle c = Z.of_nat p /\ c_required c = false;
  cat_length : size (vector v) < 2 ^ 32;
  cat_count : occupied (vector v) <= count v < 2 ^ 32;
  cat_exact : exclusive = true -> count v = occupied (vector v)
}.

(** What the instruction of a thread relies on. *)
Definition instruction_ok (v : View.t) (i : instruction) : Prop :=
  match i with
  | i_attach s | i_show s _ | i_hide s _ | i_detach s _ | i_autoAttach s _ | i_remove s =>
      valid_handle (Registry.handle_of s)
  | i_event handle events _ => valid_handle handle /\ events <> 0
  | i_hidden id s _ => known id v /\ valid_handle (Registry.handle_of s)
  | i_setContext _ id | i_attached id _ | i_shown id _ _ _ | i_closeEntry id
  | i_announce id _ | i_decrement id | i_controller id _ | i_rearm id | i_controllerAdded id
  | i_announceDetached id false => known id v
  | i_removeDetached id | i_checkProcessing id _ | i_announceDetached id true =>
      known id v /\ gone id v
  | i_dispatchDetached id _ | i_clearEntry id => known id v /\ gone id v /\ unrequested id v
  | _ => True
  end.

(** ** The invariant *)

(** What holds of one entry. *)
Record at_id (single : bool) (id : nat) (v : View.t) (all : list instruction)
  (tr : list effect) : Prop := {
  at_range : sum_with (dec id) all < 2 ^ 32;
  at_counter : forall c, cells v !! id = Some c -> c_counter c = sum_with (dec id) all;
  at_required : 0 < sum_with (required id) tr -> known id v /\ gone id v;
  at_once : sum_with (required id) tr <= 1;
  at_responsible : forall c, cells v !! id = Some c -> c_required c = true ->
    0 < sum_with (dec id) all + sum_with (responsible id) all;
  at_conserved : forall cb, sum_with (required_of id cb) tr =
    pending_of id cb v + sum_with (dispatching_of id cb) all + sum_with (detached_of id cb) tr;
  at_detacher : 0 < sum_with (announcing id true) all -> sum_with (dec id) all = 0;
  at_poller : single = true ->
    0 < sum_with (announcing id false) all -> sum_with (dec id) all = 0;
  at_quiet : single = true ->
    0 < sum_with (dispatching id) all + sum_with (detached id) tr ->
    known id v /\ gone id v /\ sum_with (dec id) all = 0
}.

Record inv (single : bool) (v : View.t) (mutex : bool) (all : list instruction)
  (tr : list effect) : Prop := {
  inv_catalog : catalog v;
  inv_ok : Forall (instruction_ok v) all;
  inv_mutex : sum_with locks all = Z.b2z mutex;
  inv_at : forall id, at_id single id v all tr
}.

(** ** Sums *)

Lemma b2z_eq_range `{EqDecision A} (x y : A) : 0 <= b2z_eq x y <= 1.
Proof. unfold b2z_eq. case_bool_decide; simpl; lia. Qed.

Lemma b2z_eq_refl `{EqDecision A} (x : A) : b2z_eq x x = 1.
Proof. unfold b2z_eq. by rewrite bool_decide_true. Qed.

Lemma b2z_eq_ne `{EqDecision A} (x y : A) : x <> y -> b2z_eq x y = 0.
Proof. intros. unfold b2z_eq. by rewrite bool_decide_false. Qed.

(** A weight that is never negative. *)
Definition weight {A} (f : A -> Z) : Prop := forall x, 0 <= f x.

Lemma sum_weight {A} (f : A -> Z) l : weight f -> 0 <= sum_with f l.
Proof. intros Hf. apply sum_with_nonneg. by apply Forall_true. Qed.

Lemma sum_zero {A} (f : A -> Z) l : Forall (fun x => f x = 0) l -> sum_with f l = 0.
Proof. induction 1 as [|x l Hx _ IH]; [done|]. rewrite sum_with_cons. lia. Qed.

Lemma sum_elem {A} (f : A -> Z) l x : weight f -> x ∈ l -> f x <= sum_with f l.
Proof.
  intros Hf (l1 & l2 & ->)%list_elem_of_split. rewrite sum_with_app, sum_with_cons.
  pose proof (sum_weight f l1 Hf). pose proof (sum_weight f l2 Hf). lia.
Qed.

Lemma sum_positive {A} (f : A -> Z) l : 0 < sum_with f l -> exists x, x ∈ l /\ f x <> 0.
Proof.
  induction l as [|y l IH]; [done|]. rewrite sum_with_cons. intros Hs.
  destruct (decide (f y = 0)) as [Hy|Hy].
  - destruct IH as (x & Hx & Hf); [lia|]. exists x. split; [by right|done].
  - exists y. split; [by left|done].
Qed.

(** One element of a list replaced by others. *)
Lemma sum_replace {A} (f : A -> Z) (a next b : list A) i :
  sum_with f (a ++ next ++ b) = sum_with f (a ++ i :: b) - f i + sum_with f next.
Proof. rewrite !sum_with_app, sum_with_cons. lia. Qed.

Lemma dec_weight id : weight (dec id).
Proof. intros []; simpl; try lia. apply b2z_eq_range. Qed.
Lemma announcing_weight id b : weight (announcing id b).
Proof. intros []; simpl; try lia. case_bool_decide; [apply b2z_eq_range|lia]. Qed.
Lemma responsible_weight id : weight (responsible id).
Proof. intros []; simpl; try lia; apply b2z_eq_range. Qed.
Lemma dispatching_weight id : weight (dispatching id).
Proof. intros []; simpl; try lia; apply b2z_eq_range. Qed.
Lemma dispatching_of_weight id cb : weight (dispatching_of id cb).
Proof. intros []; simpl; try lia; apply b2z_eq_range. Qed.
Lemma required_weight id : weight (required id).
Proof. intros []; simpl; try lia; apply b2z_eq_range. Qed.
Lemma required_of_weight id cb : weight (required_of id cb).
Proof. intros []; simpl; try lia; apply b2z_eq_range. Qed.
Lemma detached_weight id : weight (detached id).
Proof. intros []; simpl; try lia; apply b2z_eq_range. Qed.
Lemma detached_of_weight id cb : weight (detached_of id cb).
Proof. intros []; simpl; try lia; apply b2z_eq_range. Qed.

(** Instructions and effects that the counts of an entry do not see. *)
Definition foreign (id : nat) (i : instruction) : Prop :=
  dec id i = 0 /\ responsible id i = 0 /\ announcing id true i = 0 /\
  announcing id false i = 0 /\ dispatching id i = 0 /\ forall cb, dispatching_of id cb i = 0.

Definition foreign_effect (id : nat) (f : effect) : Prop :=
  required id f = 0 /\ detached id f = 0 /\
  forall cb, required_of id cb f = 0 /\ detached_of id cb f = 0.

(** Those that no count sees, and those that only the counts of one entry see. *)
Definition neutral (i : instruction) : Prop :=
  match i with
  | i_removeDetached _ | i_checkProcessing _ _ | i_unlock _ | i_announceDetached _ _
  | i_dispatchDetached _ _ | i_decrement _ => False
  | _ => True
  end.

Definition silent (f : effect) : Prop :=
  match f with f_require _ _ | f_detached _ _ => False | _ => True end.

Definition of_entry (id : nat) (i : instruction) : Prop :=
  match i with
  | i_removeDetached id' | i_checkProcessing id' _ | i_announceDetached id' _
  | i_dispatchDetached id' _ | i_decrement id' => id' = id
  | _ => True
  end.

Definition effect_of (id : nat) (f : effect) : Prop :=
  match f with f_require id' _ | f_detached id' _ => id' = id | _ => True end.

Lemma of_entry_foreign id j i : of_entry id i -> j <> id -> foreign j i.
Proof.
  intros Hi Hne. unfold foreign. destruct i; simpl in *; subst; try done;
    rewrite ?b2z_eq_ne by done; repeat split; try (by case_bool_decide).
  intros cb. apply b2z_eq_ne. congruence.
Qed.

Lemma effect_of_foreign id j f : effect_of id f -> j <> id -> foreign_effect j f.
Proof.
  intros Hf Hne. unfold foreign_effect. destruct f; simpl in *; subst; try done;
    rewrite ?b2z_eq_ne by done; repeat split; apply b2z_eq_ne; congruence.
Qed.

Lemma neutral_foreign id i : neutral i -> foreign id i.
Proof. by destruct i. Qed.

Lemma silent_foreign id f : silent f -> foreign_effect id f.
Proof. by destruct f. Qed.

Lemma neutral_locks l : Forall neutral l -> sum_with locks l = 0.
Proof. intros Hl. apply sum_zero. eapply List.Forall_impl; [|exact Hl]. by intros []. Qed.

End Invariant.

Section Steps.
Import Epoll System View.
Context `{ReactorTypes} `{EpollOps} {exclusive : bool} (single : bool).

#[local] Abbreviation catalog := (Invariant.catalog (exclusive := exclusive)).
#[local] Abbreviation inv := (Invariant.inv (exclusive := exclusive)).

(** ** Entries that are gone stay gone *)

Definition evolves (v v' : View.t) : Prop :=
  (length (cells v) <= length (cells v'))%nat /\
  forall id, known id v -> gone id v -> gone id v' /\ (unrequested id v -> unrequested id v').

Lemma evolves_refl v : evolves v v.
Proof. by split. Qed.

Lemma instruction_ok_evolves v v' i : evolves v v' -> instruction_ok v i -> instruction_ok v' i.
Proof.
  intros [Hl Hg] Hi. destruct i as [| | | | | | | | | | | | | | | | | | |? []| | | | | | | | | | | | | | | |];
    simpl in *; unfold known in *; try done; try lia.
  all: try by (destruct Hi; split; [lia|]).
  all: try (destruct Hi as [Hk Hd]; split; [lia|]; by apply Hg).
  all: destruct Hi as (Hk & Hd & Hu); destruct (Hg id Hk Hd); split; [lia|]; auto.
Qed.

Lemma ok_evolves v v' l :
  evolves v v' -> Forall (instruction_ok v) l -> Forall (instruction_ok v') l.
Proof. intros He Hl. eapply List.Forall_impl; [|exact Hl]. intros i. by apply instruction_ok_evolves. Qed.

Lemma ok_replace v (a next b : list instruction) i :
  Forall (instruction_ok v) (a ++ i :: b) -> Forall (instruction_ok v) next ->
  Forall (instruction_ok v) (a ++ next ++ b).
Proof.
  intros Ha Hn. apply Forall_app in Ha as [Ha [_ Hb]%Forall_cons_iff].
  apply Forall_app. split; [done|]. apply Forall_app. by split.
Qed.

Lemma gone_not_required v id : catalog v -> unrequested id v ->
  forall c, cells v !! id = Some c -> c = mkCell (c_handle c) (c_counter c) false None.
Proof.
  intros Hc Hu c Hcell. pose proof (Hu c Hcell) as Hr.
  destruct (cat_cells v Hc id c Hcell) as [_ Hcb]. specialize (Hcb Hr). clear Hcell.
  destruct c; simpl in *. by subst.
Qed.

(** ** Steps that an entry does not see *)

Lemma at_foreign id v v' a i next b tr effects :
  at_id single id v (a ++ i :: b) tr ->
  foreign id i -> Forall (foreign id) next -> Forall (foreign_effect id) effects ->
  cells v' !! id = cells v !! id -> (known id v -> gone id v -> known id v' /\ gone id v') ->
  at_id single id v' (a ++ next ++ b) (tr ++ effects).
Proof.
  intros [Hrg Hc Hq Ho Hr Hs Hd Hp Hf] Hi Hn He Hcell Hgone.
  assert (forall f : instruction -> Z, (forall j, foreign id j -> f j = 0) ->
    sum_with f (a ++ next ++ b) = sum_with f (a ++ i :: b)) as Hsum.
  { intros f Hz. rewrite (sum_replace f a next b i), (Hz i Hi), (sum_zero f next); [lia|].
    by apply (List.Forall_impl _ Hz). }
  assert (forall f : effect -> Z, (forall j, foreign_effect id j -> f j = 0) ->
    sum_with f (tr ++ effects) = sum_with f tr) as Htr.
  { intros f Hz. rewrite sum_with_app, (sum_zero f effects); [lia|].
    by apply (List.Forall_impl _ Hz). }
  constructor; unfold pending_of; rewrite ?Hcell, ?Hsum, ?Htr by (intros j Hj; apply Hj); try done.
  - intros Hq'. destruct (Hq Hq'). auto.
  - intros cb. rewrite !Htr, Hsum by (intros j Hj; apply Hj). auto.
  - intros Hsg Hf'. destruct (Hf Hsg Hf') as (Hk' & Hg' & ?). destruct (Hgone Hk' Hg'). auto.
Qed.

Lemma inv_neutral v m a i b tr next effects :
  inv single v m (a ++ i :: b) tr -> neutral i -> Forall neutral next ->
  Forall (instruction_ok v) next -> Forall silent effects ->
  inv single v m (a ++ next ++ b) (tr ++ effects).
Proof.
  intros [Hcat Hok Hm Hat] Hi Hn Hok' He. constructor; try done.
  - by apply (ok_replace v a next b i).
  - rewrite (sum_replace _ a next b i), (neutral_locks next Hn), Hm. destruct i; simpl in *; lia.
  - intros id. apply (at_foreign id v v a i); auto using neutral_foreign.
    + eapply List.Forall_impl; [|exact Hn]. auto using neutral_foreign.
    + eapply List.Forall_impl; [|exact He]. auto using silent_foreign.
Qed.

(** A step that only one entry sees. *)
Lemma inv_local id v v' m m' a i b tr next effects :
  inv single v m (a ++ i :: b) tr ->
  catalog v' -> evolves v v' -> (forall j, j <> id -> cells v' !! j = cells v !! j) ->
  of_entry id i -> Forall (of_entry id) next -> Forall (effect_of id) effects ->
  Forall (instruction_ok v') next ->
  Z.b2z m' = Z.b2z m - locks i + sum_with locks next ->
  at_id single id v' (a ++ next ++ b) (tr ++ effects) ->
  inv single v' m' (a ++ next ++ b) (tr ++ effects).
Proof.
  intros [Hcat Hok Hm Hat] Hcat' He Hcells Hi Hn Hf Hok' Hm' Hid. constructor; try done.
  - apply (ok_replace v' a next b i); [by apply (ok_evolves v)|done].
  - rewrite (sum_replace _ a next b i). lia.
  - intros j. destruct (decide (j = id)) as [->|Hne]; [done|]. destruct He as [Hl He].
    apply (at_foreign j v v' a i); auto.
    + by apply (of_entry_foreign id).
    + eapply List.Forall_impl; [|exact Hn]. intros x Hx. by apply (of_entry_foreign id).
    + eapply List.Forall_impl; [|exact Hf]. intros x Hx. by apply (effect_of_foreign id).
    + intros Hk Hg. split; [unfold known in *; lia|]. by apply He.
Qed.

(** ** Entries are added and taken out *)

Lemma unknown_dec v l id : Forall (instruction_ok v) l -> ~ known id v -> sum_with (dec id) l = 0.
Proof.
  intros Hok Hk. apply sum_zero. eapply List.Forall_impl; [|exact Hok].
  intros i Hi. destruct i; simpl in *; try done. apply b2z_eq_ne. by intros ->.
Qed.

Lemma inv_view v v' m all tr :
  inv single v m all tr -> catalog v' -> evolves v v' ->
  (forall id, known id v -> cells v' !! id = cells v !! id) ->
  (forall id c, ~ known id v -> cells v' !! id = Some c ->
    c_counter c = 0 /\ c_required c = false) ->
  inv single v' m all tr.
Proof.
  intros [Hcat Hok Hm Hat] Hcat' He Hold Hnew.
  constructor; try done; [by apply (ok_evolves v)|]. intros id.
  assert (known id v -> gone id v -> known id v' /\ gone id v') as Hgone.
  { intros Hk Hg. destruct He as [Hl He]. split; [unfold known in *; lia|]. by apply He. }
  destruct (Hat id) as [Hrg Hc Hq Ho Hr Hs Hd Hp Hf].
  destruct (decide (known id v)) as [Hk|Hk].
  - constructor; unfold pending_of; rewrite ?Hold by done; try done.
    + intros Hq'. destruct (Hq Hq'). auto.
    + intros Hsg Hf'. destruct (Hf Hsg Hf') as (Hk' & Hg' & ?). destruct (Hgone Hk' Hg'). auto.
  - assert (cells v !! id = None) as Hnone
      by (apply lookup_ge_None_2; unfold known in Hk; lia).
    constructor; try done.
    + intros c Hcell. rewrite (unknown_dec v) by done. by destruct (Hnew id c Hk Hcell).
    + intros Hq'. destruct (Hq Hq'). auto.
    + intros c Hcell Hreq. destruct (Hnew id c Hk Hcell). congruence.
    + intros cb. rewrite Hs. f_equal. f_equal. unfold pending_of. rewrite Hnone.
      destruct (cells v' !! id) as [c|] eqn:E; [|done]. by destruct (Hnew id c Hk E) as [_ ->].
    + intros Hsg Hf'. by destruct (Hf Hsg Hf').
Qed.

(** ** The catalog *)

Lemma index_valid h : valid_handle h -> Registry.index h = Z.to_nat h.
Proof. intros [? ?]. unfold Registry.index. rewrite wrap_small; [done|lia]. Qed.

Lemma occupied_app l k : occupied (l ++ k) = occupied l + occupied k.
Proof. induction l as [|x l IH]; [done|]. simpl. rewrite !occupied_cons. lia. Qed.

Lemma occupied_replicate n : occupied (replicate n None) = 0.
Proof. induction n as [|n IH]; [done|]. simpl. by rewrite occupied_cons. Qed.

Lemma occupied_insert l p x y :
  l !! p = Some y ->
  occupied (<[p := x]> l) = occupied l - occupied [y] + occupied [x].
Proof.
  revert p. induction l as [|z l IH]; intros [|p] Hp; simplify_eq/=;
    rewrite !occupied_cons; [unfold occupied; simpl; change (size (@nil nat)) with 0; lia|].
  rewrite (IH p Hp). rewrite !occupied_cons. lia.
Qed.

Lemma occupied_le l : occupied l <= size l.
Proof.
  induction l as [|x l IH]; [done|]. rewrite occupied_cons, size_cons. destruct x; lia.
Qed.

Lemma occupied_lt l p : l !! p = Some None -> occupied l < size l.
Proof.
  intros Hp. pose proof (occupied_le (<[p := Some 0%nat]> l)) as Hle.
  rewrite (occupied_insert _ _ _ _ Hp), !occupied_cons in Hle. unfold size in *.
  rewrite length_insert in Hle. lia.
Qed.

Lemma occupied_pos l p id : l !! p = Some (Some id) -> 0 < occupied l.
Proof.
  intros Hp. rewrite <- (take_drop_middle l p _ Hp), occupied_app, occupied_cons.
  pose proof (occupied_nonneg (take p l)). pose proof (occupied_nonneg (drop (S p) l)). lia.
Qed.

(** What an entry at an index is. *)
Lemma catalog_unique v p q id :
  catalog v -> vector v !! p = Some (Some id) -> vector v !! q = Some (Some id) -> p = q.
Proof.
  intros Hc Hp Hq. destruct (cat_vector v Hc p id Hp) as (c & Hid & Hh & _).
  destruct (cat_vector v Hc q id Hq) as (c' & Hid' & Hh' & _).
  rewrite Hid in Hid'. injection Hid' as <-. lia.
Qed.

Lemma catalog_known v p id : catalog v -> vector v !! p = Some (Some id) -> known id v.
Proof.
  intros Hc Hp. destruct (cat_vector v Hc p id Hp) as (c & Hid & _). by eapply lookup_lt_Some.
Qed.

(** A vector with fewer entries. *)
Lemma catalog_shrink v v' :
  catalog v -> cells v' = cells v -> length (vector v') = length (vector v) ->
  (forall p id, vector v' !! p = Some (Some id) -> vector v !! p = Some (Some id)) ->
  occupied (vector v') <= count v' < 2 ^ 32 ->
  (exclusive = true -> count v' = occupied (vector v')) -> catalog v' /\ evolves v v'.
Proof.
  intros [Hcells Hvec Hlen Hcount Hexact] Hc Hl Hsub Hn Hx. split.
  - constructor; rewrite ?Hc; try done.
    + intros p id Hp. auto.
    + unfold size in *. by rewrite Hl.
  - split; [by rewrite Hc|]. intros id _ Hg. split.
    + intros p Hp. by apply (Hg p), Hsub.
    + unfold unrequested. by rewrite Hc.
Qed.

Definition taken (idx : nat) (v : View.t) : View.t :=
  View.mk (cells v) (<[idx := None]> (vector v)) (wrap 32 (count v - 1)).

Lemma catalog_taken v idx id :
  catalog v -> vector v !! idx = Some (Some id) ->
  catalog (taken idx v) /\ evolves v (taken idx v) /\ gone id (taken idx v).
Proof.
  intros Hc Hidx. pose proof (occupied_pos _ _ _ Hidx). pose proof (occupied_le (vector v)).
  pose proof (cat_length v Hc). pose proof (cat_count v Hc) as Hn.
  pose proof (cat_exact v Hc) as Hx.
  assert (forall p id', <[idx := None]> (vector v) !! p = Some (Some id') ->
    p <> idx /\ vector v !! p = Some (Some id')) as Hsub.
  { intros p id' Hp. destruct (decide (p = idx)) as [->|Hne].
    - rewrite list_lookup_insert_eq in Hp by (by eapply lookup_lt_Some). done.
    - by rewrite list_lookup_insert_ne in Hp by done. }
  assert (occupied (<[idx := None]> (vector v)) = occupied (vector v) - 1) as Hocc
    by (rewrite (occupied_insert _ _ _ _ Hidx), !occupied_cons; lia).
  destruct (catalog_shrink v (taken idx v)) as [Hc' He]; simpl; try done.
  - by rewrite length_insert.
  - intros p id' Hp. by apply Hsub.
  - rewrite wrap_small by lia. lia.
  - intros E. specialize (Hx E). rewrite wrap_small by lia. lia.
  - split; [done|]. split; [done|]. intros p Hp. apply Hsub in Hp as [Hne Hp].
    by apply Hne, (catalog_unique v _ _ id).
Qed.

Definition added (h : Z) (k : nat) (v : View.t) : View.t :=
  View.mk (cells v ++ [mkCell h 0 false None])
    (<[Registry.index h := Some (length (cells v))]> (vector v ++ replicate k None))
    (wrap 32 (count v + 1)).

Lemma lookup_grown (l : list (option nat)) k p id :
  (l ++ replicate k None) !! p = Some (Some id) -> l !! p = Some (Some id).
Proof.
  intros [Hp|[_ Hp]]%lookup_app_Some; [done|]. by apply lookup_replicate in Hp as [? _].
Qed.

Lemma catalog_added v h k :
  catalog v -> valid_handle h -> (exclusive = true -> mjoin (vector v !! Registry.index h) = None) ->
  count v < 2 ^ 32 - 1 -> (Registry.index h < length (vector v) + k)%nat ->
  (k = 0%nat \/ length (vector v) + k =
     Nat.max (Registry.index h + 1) (length (vector v) * 3 / 2) /\
     length (vector v) <= Registry.index h)%nat ->
  catalog (added h k v) /\ evolves v (added h k v).
Proof.
  intros [Hcells Hvec Hlen Hcount Hexact] Hh Hvac Hroom Hidx Hk. rewrite index_valid in * by done.
  assert (size (vector v ++ replicate k None) < 2 ^ 32) as Hsize.
  { unfold size in *. rewrite length_app, length_replicate. destruct Hh, Hk as [->|[Hk Hle]]; [lia|].
    rewrite Nat2Z.inj_add in *.
    assert (Z.of_nat (length (vector v) * 3 / 2) <= 2 ^ 31 + 2 ^ 30); [|lia].
    rewrite Nat2Z.inj_div, Nat2Z.inj_mul. apply Z.div_le_upper_bound; lia. }
  assert (exists x, (vector v ++ replicate k None) !! Z.to_nat h = Some x /\
    (exclusive = true -> x = None)) as (x & Hx & Hnone).
  { destruct ((vector v ++ replicate k None) !! Z.to_nat h) as [x|] eqn:E.
    - exists x. split; [done|]. intros Hex. specialize (Hvac Hex). destruct x as [id|]; [|done].
      apply lookup_grown in E. by rewrite E in Hvac.
    - apply lookup_ge_None in E. rewrite length_app, length_replicate in E. lia. }
  assert (forall p id, <[Z.to_nat h := Some (length (cells v))]> (vector v ++ replicate k None) !! p =
    Some (Some id) -> p = Z.to_nat h /\ id = length (cells v) \/ p <> Z.to_nat h /\ vector v !! p = Some (Some id)) as Hp.
  { intros p id Hp. destruct (decide (p = Z.to_nat h)) as [->|Hne].
    - rewrite list_lookup_insert_eq in Hp by (by eapply lookup_lt_Some). left. by injection Hp.
    - rewrite list_lookup_insert_ne in Hp by done. right. split; [done|]. by eapply lookup_grown. }
  assert (occupied (<[Z.to_nat h := Some (length (cells v))]> (vector v ++ replicate k None)) =
    occupied (vector v) + 1 - occupied [x]) as Hocc.
  { rewrite (occupied_insert _ _ _ _ Hx), occupied_app, occupied_replicate, (occupied_cons (Some _)).
    change (occupied []) with 0. lia. }
  assert (0 <= occupied [x]) by apply occupied_nonneg.
  pose proof (occupied_nonneg (vector v)).
  split.
  - constructor; simpl.
    + intros id c [Hc|[_ Hc]]%lookup_app_Some; [eauto|].
      apply list_lookup_singleton_Some in Hc as [_ <-]. done.
    + intros p id. rewrite index_valid by done. intros [[-> ->]|[_ Hold]]%Hp.
      * eexists. rewrite lookup_app_r, Nat.sub_diag by lia. split; [done|]. simpl. destruct Hh. lia.
      * destruct (Hvec p id Hold) as (c & Hc & ?). exists c. split; [by apply lookup_app_l_Some|done].
    + unfold size in *. by rewrite length_insert.
    + rewrite index_valid by done. rewrite Hocc, wrap_small by lia. lia.
    + intros Hex. rewrite index_valid by done. rewrite Hocc, (Hnone Hex), (Hexact Hex), wrap_small by
        (rewrite ?(Hexact Hex) in *; lia). change (occupied [None]) with 0. lia.
  - split; [simpl; rewrite length_app; lia|]. intros id Hk' Hg. split.
    + intros p. simpl. rewrite index_valid by done. intros [[-> ->]|[_ Hold]]%Hp; [|by apply (Hg p)].
      unfold known in Hk'. lia.
    + intros Hu c. simpl. rewrite lookup_app_l by done. apply Hu.
Qed.

End Steps.
End Invariant.
