(* ===== verification/EpollSteps.v ===== *)
(** * The invariant is preserved

    One lemma for each kind of step that the counts of EpollInvariant see, on
    the parts of the registry that they depend on. *)

From stdpp Require Import gmap.
From S2P Require Import Prelude Errors Interest Registry Epoll EpollSystem EpollFacts EpollInvariant.
#[local] Open Scope Z_scope.

Module Steps.
Import Epoll System View Invariant.
Section Steps.
Context `{ReactorTypes} `{EpollOps} {exclusive : bool} (single : bool).

#[local] Abbreviation catalog := (Invariant.catalog (exclusive := exclusive)).
#[local] Abbreviation inv := (Invariant.inv (exclusive := exclusive)).

Lemma sum_one {A} (f : A -> Z) x : sum_with f [x] = f x.
Proof. rewrite sum_with_cons, sum_with_nil. lia. Qed.

Lemma sum_snoc {A} (f : A -> Z) l x : sum_with f (l ++ [x]) = sum_with f l + f x.
Proof. by rewrite sum_with_app, sum_one. Qed.

(** An entry that the catalog refers to was never requested to detach. *)
Lemma registered_unrequested v m all tr idx id :
  inv single v m all tr -> vector v !! idx = Some (Some id) ->
  sum_with (required id) tr = 0.
Proof.
  intros Hinv Hidx. pose proof (sum_weight (required id) tr (required_weight id)).
  destruct (decide (sum_with (required id) tr = 0)); [done|].
  destruct (at_required _ _ _ _ _ (inv_at _ _ _ _ _ Hinv id)) as [_ Hg]; [lia|].
  by destruct (Hg idx).
Qed.

(** A request among the effects is one of the entry. *)
Lemma required_of_le id cb tr : sum_with (required_of id cb) tr <= sum_with (required id) tr.
Proof.
  induction tr as [|f tr IH]; [done|]. rewrite !sum_with_cons.
  assert (required_of id cb f <= required id f); [|lia].
  destruct f; simpl; try lia. unfold b2z_eq.
  destruct (decide (id = id0)) as [->|Hne].
  - rewrite (bool_decide_true (id0 = id0)) by done. case_bool_decide; simpl; lia.
  - rewrite !bool_decide_false by congruence. done.
Qed.

Definition requested (c : cell) (cb : option SocketDetachedCallback) : cell :=
  mkCell (c_handle c) (c_counter c) true cb.

(** The sums for one entry after a step. *)
#[local] Ltac sums a next b i :=
  rewrite ?(sum_replace _ a next b i), ?sum_snoc, ?sum_with_cons, ?sum_with_nil;
  cbn [dec responsible announcing dispatching dispatching_of locks required required_of detached
       detached_of bool_decide decide_rel]; rewrite ?b2z_eq_refl.

Lemma set_cell_lookup id c v j :
  known id v -> cells (set_cell id c v) !! j = if decide (j = id) then Some c else cells v !! j.
Proof.
  intros Hk. simpl. case_decide as Hj; [subst|by rewrite list_lookup_insert_ne].
  by apply list_lookup_insert_eq.
Qed.

(** A cell changes that the catalog does not refer to, or whose request does
    not change. *)
Lemma catalog_set_cell v id c c' :
  catalog v -> cells v !! id = Some c -> c_handle c' = c_handle c ->
  (c_required c' = false -> c_callback c' = None) -> (gone id v \/ c_required c' = false) ->
  catalog (set_cell id c' v).
Proof.
  intros [Hcells Hvec Hlen Hcount Hexact] Hc Hh Hcb Hg.
  assert (known id v) as Hk by (by eapply lookup_lt_Some). constructor; try done.
  - intros j c0. rewrite set_cell_lookup by done. case_decide; [|apply Hcells].
    intros [= <-]. rewrite Hh. split; [|done]. by destruct (Hcells id c Hc).
  - intros p j Hp. destruct (Hvec p j Hp) as (c0 & Hc0 & Hh0 & Hr0).
    rewrite set_cell_lookup by done. case_decide as Hj; [subst|by exists c0].
    exists c'. destruct Hg as [Hg|Hg]; [by destruct (Hg p)|]. split; [done|].
    rewrite Hc in Hc0. injection Hc0 as <-. by rewrite Hh.
Qed.

Lemma evolves_set_cell v id c c' :
  cells v !! id = Some c -> (c_required c = false -> c_required c' = false) ->
  evolves v (set_cell id c' v).
Proof.
  intros Hc Hr. split; [simpl; by rewrite length_insert|]. intros j Hj Hg. split; [done|].
  intros Hu c0. rewrite set_cell_lookup by (by eapply lookup_lt_Some). case_decide; [|apply Hu].
  intros [= <-]. subst. auto.
Qed.

(** ** The request to detach *)

Lemma inv_detach v a i b tr idx id c cb :
  inv single v false (a ++ i :: b) tr -> neutral i ->
  vector v !! idx = Some (Some id) -> cells v !! id = Some c ->
  inv single (set_cell id (requested c cb) (taken idx v)) true
    (a ++ [i_removeDetached id] ++ b) (tr ++ [f_require id cb]).
Proof.
  intros Hinv Hi Hidx Hcell. pose proof Hinv as [Hcat Hok Hm Hat].
  pose proof (registered_unrequested _ _ _ _ _ _ Hinv Hidx) as Hnew.
  destruct (catalog_taken v idx id Hcat Hidx) as (Hcat' & He & Hgone).
  destruct (cat_vector v Hcat idx id Hidx) as (c0 & Hc0 & _ & Hreq).
  rewrite Hcell in Hc0. injection Hc0 as <-.
  assert (known id (taken idx v)) as Hk by (by eapply (catalog_known v)).
  pose proof (neutral_foreign id i Hi) as (Hi1 & Hi2 & Hi3 & Hi4 & Hi5 & Hi6).
  apply (inv_local single id v _ false true a i); try done.
  - by apply (catalog_set_cell _ id c); [..|left].
  - destruct He as [Hl He]. split; [simpl; by rewrite length_insert|]. intros j Hj Hg.
    destruct (He j Hj Hg) as [Hg' Hu]. split; [done|]. intros Hun c'.
    rewrite set_cell_lookup by done. case_decide as Hji; [|apply Hun]. subst. by destruct (Hg idx).
  - intros j Hne. rewrite set_cell_lookup by done. by rewrite decide_False.
  - by destruct i.
  - constructor; [done|constructor].
  - constructor; [done|constructor].
  - constructor; [|constructor]. split; [|done]. unfold known in *. simpl. by rewrite length_insert.
  - destruct i; simpl in *; try done; rewrite sum_one; done.
  - pose proof (Hat id) as [Hrg Hc Hq Ho Hr Hs Hd Hp Hf].
    assert (known id (set_cell id (requested c cb) (taken idx v))) as Hk'
      by (unfold known in *; simpl; by rewrite length_insert).
    pose proof (sum_weight (dec id) (a ++ i :: b) (dec_weight id)).
    pose proof (sum_weight (responsible id) (a ++ i :: b) (responsible_weight id)).
    constructor; sums a [i_removeDetached id] b i; rewrite ?Hi1, ?Hi2, ?Hi3, ?Hi4, ?Hi5;
      rewrite ?set_cell_lookup, ?decide_True by done.
    + lia.
    + intros ? [= <-]. simpl. rewrite (Hc c Hcell). lia.
    + done.
    + lia.
    + intros _ _ _. lia.
    + intros cb'. sums a [i_removeDetached id] b i. rewrite Hs, Hi6. unfold pending_of.
      rewrite set_cell_lookup, decide_True, Hcell, Hreq by done.
      simpl. unfold b2z_eq. destruct (decide (cb = Some cb')) as [->|Hne].
      * rewrite !bool_decide_true by done. simpl. lia.
      * rewrite !bool_decide_false by congruence. simpl. lia.
    + rewrite !Z.sub_0_r, !Z.add_0_r. apply Hd.
    + rewrite !Z.sub_0_r, !Z.add_0_r. apply Hp.
    + rewrite !Z.sub_0_r, !Z.add_0_r. intros Hsg Hj. destruct (Hf Hsg Hj) as (? & Hg & _).
      by destruct (Hg idx).
Qed.

(** ** What becomes of the request *)

Lemma inv_removeDetached v m a b tr id error :
  inv single v m (a ++ i_removeDetached id :: b) tr ->
  inv single v m (a ++ [i_checkProcessing id error] ++ b) (tr ++ []).
Proof.
  intros Hinv. pose proof Hinv as [Hcat Hok Hm Hat].
  assert (instruction_ok v (i_removeDetached id)) as Hi.
  { by apply Forall_app in Hok as [_ [? _]%Forall_cons_iff]. }
  apply (inv_local single id v v m m a (i_removeDetached id)); try done; try by constructor.
  - rewrite sum_one. simpl. lia.
  - rewrite app_nil_r. destruct (Hat id) as [Hrg Hc Hq Ho Hr Hs Hd Hp Hf].
    constructor; sums a [i_checkProcessing id error] b (i_removeDetached id);
      rewrite ?Z.sub_0_r, ?Z.add_0_r; try done.
    + intros c Hcell Hreq. specialize (Hr c Hcell Hreq). lia.
    + intros cb. sums a [i_checkProcessing id error] b (i_removeDetached id). rewrite Hs. lia.
Qed.

Lemma inv_checkProcessing v m a b tr id error c :
  inv single v m (a ++ i_checkProcessing id error :: b) tr -> cells v !! id = Some c ->
  inv single v m
    (a ++ ((if c_counter c =? 0 then [i_announceDetached id true] else []) ++ [i_unlock error]) ++ b)
    (tr ++ []).
Proof.
  intros Hinv Hcell. pose proof Hinv as [Hcat Hok Hm Hat].
  assert (instruction_ok v (i_checkProcessing id error)) as Hi.
  { by apply Forall_app in Hok as [_ [? _]%Forall_cons_iff]. }
  set (next := (if c_counter c =? 0 then [i_announceDetached id true] else []) ++ [i_unlock error]).
  apply (inv_local single id v v m m a (i_checkProcessing id error)); try done; try by constructor.
  - unfold next. case_match; repeat constructor.
  - unfold next. case_match; repeat constructor; apply Hi.
  - unfold next. case_match; sums a next b (i_checkProcessing id error); lia.
  - rewrite app_nil_r. destruct (Hat id) as [Hrg Hc Hq Ho Hr Hs Hd Hp Hf].
    pose proof (Hc c Hcell) as Hcount.
    pose proof (sum_weight (dec id) (a ++ i_checkProcessing id error :: b) (dec_weight id)).
    unfold next. destruct (c_counter c =? 0) eqn:E0; simpl app.
    + constructor; sums a [i_announceDetached id true; i_unlock error] b (i_checkProcessing id error);
        rewrite ?Z.sub_0_r, ?Z.add_0_r; try done; try lia.
      * intros c' Hc' Hreq. specialize (Hr c' Hc' Hreq). lia.
      * intros cb. sums a [i_announceDetached id true; i_unlock error] b (i_checkProcessing id error).
        rewrite Hs. lia.
    + constructor; sums a [i_unlock error] b (i_checkProcessing id error);
        rewrite ?Z.sub_0_r, ?Z.add_0_r; try done.
      * intros c' Hc' Hreq. assert (c' = c) as -> by congruence.
        pose proof (sum_weight (responsible id) (a ++ [i_unlock error] ++ b) (responsible_weight id)) as Hw.
        rewrite (sum_replace _ a [i_unlock error] b (i_checkProcessing id error)) in Hw.
        rewrite sum_one in Hw. cbn [responsible] in Hw. rewrite b2z_eq_refl in Hw. lia.
      * intros cb. sums a [i_unlock error] b (i_checkProcessing id error). rewrite Hs. lia.
Qed.

Lemma inv_unlock v m a b tr error :
  inv single v m (a ++ i_unlock error :: b) tr ->
  inv single v false (a ++ [] ++ b) (tr ++ [f_return error]).
Proof.
  intros Hinv. pose proof Hinv as [Hcat Hok Hm Hat].
  assert (m = true) as ->.
  { rewrite sum_with_app, sum_with_cons in Hm. cbn [locks] in Hm.
    assert (weight locks) as Hw by (by intros []).
    pose proof (sum_weight locks a Hw). pose proof (sum_weight locks b Hw). destruct m; simpl in *; lia. }
  apply (inv_local single 0%nat v v true false a (i_unlock error)); try done; try by constructor.
  - destruct (Hat 0%nat) as [Hrg Hc Hq Ho Hr Hs Hd Hp Hf].
    constructor; sums a (@nil instruction) b (i_unlock error);
      rewrite ?Z.sub_0_r, ?Z.add_0_r; try done.
    intros cb. sums a (@nil instruction) b (i_unlock error). rewrite Hs. lia.
Qed.

(** The head of the instructions is in order. *)
Lemma head_ok v a i b : Forall (instruction_ok v) (a ++ i :: b) -> instruction_ok v i.
Proof. by intros [_ [? _]%Forall_cons_iff]%Forall_app. Qed.

Lemma inv_announceDetached_not v m a b tr id interrupt c :
  inv single v m (a ++ i_announceDetached id interrupt :: b) tr ->
  cells v !! id = Some c -> c_required c = false ->
  inv single v m (a ++ [] ++ b) (tr ++ []).
Proof.
  intros Hinv Hcell Hreq. pose proof Hinv as [Hcat Hok Hm Hat].
  apply (inv_local single id v v m m a (i_announceDetached id interrupt)); try done;
    try by constructor.
  - rewrite sum_with_nil. simpl. lia.
  - rewrite app_nil_r. destruct (Hat id) as [Hrg Hc Hq Ho Hr Hs Hd Hp Hf].
    constructor; sums a (@nil instruction) b (i_announceDetached id interrupt);
      rewrite ?Z.sub_0_r, ?Z.add_0_r; try done.
    + intros c' Hc' Hr'. congruence.
    + intros cb. sums a (@nil instruction) b (i_announceDetached id interrupt). rewrite Hs. lia.
    + intros Hpos. apply Hd. case_bool_decide; rewrite ?b2z_eq_refl in Hpos; lia.
    + intros Hsg Hpos. apply Hp; [done|]. case_bool_decide; rewrite ?b2z_eq_refl in Hpos; lia.
Qed.

(** The thread that finds the request takes it. *)
Definition answered (c : cell) : cell := mkCell (c_handle c) (c_counter c) false None.

Lemma required_gone v m all tr id c :
  inv single v m all tr -> cells v !! id = Some c -> c_required c = true -> gone id v.
Proof.
  intros Hinv Hcell Hreq p Hp.
  destruct (cat_vector v (inv_catalog _ _ _ _ _ Hinv) p id Hp) as (c' & Hc' & _ & Hr'). congruence.
Qed.

Lemma inv_announceDetached v m a b tr id interrupt c rest :
  inv single v m (a ++ i_announceDetached id interrupt :: b) tr ->
  cells v !! id = Some c -> c_required c = true ->
  Forall neutral rest -> Forall (instruction_ok (set_cell id (answered c) v)) rest ->
  inv single (set_cell id (answered c) v) m
    (a ++ ([i_dispatchDetached id (c_callback c); i_clearEntry id] ++ rest) ++ b) (tr ++ []).
Proof.
  intros Hinv Hcell Hreq Hrest Hrok. pose proof Hinv as [Hcat Hok Hm Hat].
  pose proof (required_gone _ _ _ _ _ _ Hinv Hcell Hreq) as Hgone.
  assert (known id v) as Hk by (by eapply lookup_lt_Some).
  assert (known id (set_cell id (answered c) v)) as Hk'
    by (unfold known in *; simpl; by rewrite length_insert).
  assert (cells (set_cell id (answered c) v) !! id = Some (answered c)) as Hcell'
    by (rewrite set_cell_lookup, decide_True; done).
  assert (unrequested id (set_cell id (answered c) v)) as Hun
    by (intros c'; rewrite Hcell'; by intros [= <-]).
  apply (inv_local single id v _ m m a (i_announceDetached id interrupt)); try done.
  - by apply (catalog_set_cell v id c); [..|left].
  - by apply (evolves_set_cell v id c).
  - intros j Hne. by rewrite set_cell_lookup, decide_False.
  - constructor; [done|]. constructor; [done|]. eapply List.Forall_impl; [|exact Hrest].
    by intros [].
  - constructor; [done|]. by constructor.
  - rewrite !sum_with_app, (neutral_locks rest Hrest). simpl. rewrite !sum_with_cons, sum_with_nil.
    simpl. lia.
  - rewrite app_nil_r. set (next := [i_dispatchDetached id (c_callback c); i_clearEntry id] ++ rest).
    assert (forall f : instruction -> Z, (forall j, foreign id j -> f j = 0) ->
      sum_with f next = f (i_dispatchDetached id (c_callback c))) as Hnext.
    { intros f Hz. unfold next. rewrite sum_with_app, !sum_with_cons, sum_with_nil.
      rewrite (Hz (i_clearEntry id)) by done. rewrite (sum_zero f rest); [lia|].
      eapply List.Forall_impl; [|exact Hrest]. intros j Hj. by apply Hz, neutral_foreign. }
    destruct (Hat id) as [Hrg Hc Hq Ho Hr Hs Hd Hp Hf].
    pose proof (sum_weight (dec id) (a ++ i_announceDetached id interrupt :: b) (dec_weight id)).
    pose proof (sum_weight (announcing id true) (a ++ i_announceDetached id interrupt :: b)
      (announcing_weight id true)) as Hw1.
    pose proof (sum_weight (announcing id false) (a ++ i_announceDetached id interrupt :: b)
      (announcing_weight id false)) as Hw0.
    pose proof (sum_elem (announcing id interrupt) (a ++ i_announceDetached id interrupt :: b)
      (i_announceDetached id interrupt) (announcing_weight id interrupt)) as Hhead.
    cbn [announcing] in Hhead. rewrite bool_decide_true, b2z_eq_refl in Hhead by done.
    assert (1 <= sum_with (announcing id interrupt) (a ++ i_announceDetached id interrupt :: b)) as Hh.
    { apply Hhead, elem_of_app. right. by left. }
    constructor; rewrite ?(sum_replace _ a next b (i_announceDetached id interrupt)),
      ?Hnext by (intros j Hj; apply Hj); simpl; rewrite ?Z.sub_0_r, ?Z.add_0_r; try done.
    + intros c'. rewrite list_lookup_insert_eq by done. intros [= <-]. simpl. auto.
    + intros c'. rewrite list_lookup_insert_eq by done. by intros [= <-].
    + intros cb. rewrite (sum_replace _ a next b (i_announceDetached id interrupt)), Hnext
        by (intros j Hj; apply Hj).
      rewrite Hs. unfold pending_of. rewrite Hcell', Hcell, Hreq. simpl. unfold b2z_eq.
      destruct (decide (c_callback c = Some cb)) as [->|Hne].
      * rewrite !bool_decide_true by done. simpl. lia.
      * rewrite !bool_decide_false by congruence. simpl. lia.
    + intros Hpos. apply Hd. case_bool_decide; rewrite ?b2z_eq_refl in Hpos; lia.
    + intros Hsg Hpos. apply Hp; [done|]. case_bool_decide; rewrite ?b2z_eq_refl in Hpos; lia.
    + intros Hsg _. split; [done|]. split; [apply Hgone|]. destruct interrupt.
      * apply Hd. lia.
      * apply Hp; [done|]. lia.
Qed.

Lemma inv_dispatchDetached v m a b tr id callback :
  inv single v m (a ++ i_dispatchDetached id callback :: b) tr ->
  inv single v m (a ++ [] ++ b)
    (tr ++ match callback with Some c => [f_detached id c] | None => [] end).
Proof.
  intros Hinv. pose proof Hinv as [Hcat Hok Hm Hat].
  apply (inv_local single id v v m m a (i_dispatchDetached id callback)); try done;
    try by constructor.
  - destruct callback; repeat constructor.
  - rewrite sum_with_nil. simpl. lia.
  - destruct (Hat id) as [Hrg Hc Hq Ho Hr Hs Hd Hp Hf].
    pose proof (sum_weight (dispatching id) (a ++ i_dispatchDetached id callback :: b)
      (dispatching_weight id)) as Hw.
    assert (1 <= sum_with (dispatching id) (a ++ i_dispatchDetached id callback :: b)) as Hh.
    { rewrite <- (b2z_eq_refl id).
      apply (sum_elem (dispatching id) _ (i_dispatchDetached id callback) (dispatching_weight id)).
      apply elem_of_app. right. by left. }
    pose proof (sum_weight (detached id) tr (detached_weight id)).
    destruct callback as [cb0|]; rewrite ?app_nil_r.
    + constructor; sums a (@nil instruction) b (i_dispatchDetached id (Some cb0));
        rewrite ?Z.sub_0_r, ?Z.add_0_r; try done.
      * intros cb. sums a (@nil instruction) b (i_dispatchDetached id (Some cb0)). rewrite Hs.
        unfold b2z_eq. destruct (decide (cb = cb0)) as [->|Hne].
        -- rewrite !bool_decide_true by done. simpl. lia.
        -- rewrite !bool_decide_false by congruence. simpl. lia.
      * intros Hsg _. apply Hf; [done|]. lia.
    + constructor; sums a (@nil instruction) b (i_dispatchDetached id (@None SocketDetachedCallback));
        rewrite ?Z.sub_0_r, ?Z.add_0_r; try done.
      * intros cb. sums a (@nil instruction) b (i_dispatchDetached id (@None SocketDetachedCallback)).
        rewrite Hs, b2z_eq_ne by congruence. lia.
      * intros Hsg Hpos. apply Hf; [done|]. lia.
Qed.

(** ** Threads begin and cease to process events *)

Definition counted (n : Z) (c : cell) : cell :=
  mkCell (c_handle c) n (c_required c) (c_callback c).

(** What is in order of an entry that the catalog refers to has no instruction
    that relies on it being gone. *)
Lemma registered_zero (f : instruction -> Z) v l idx id :
  Forall (instruction_ok v) l -> vector v !! idx = Some (Some id) ->
  (forall i, instruction_ok v i -> gone id v \/ f i = 0) -> sum_with f l = 0.
Proof.
  intros Hok Hidx Hf. apply sum_zero. eapply List.Forall_impl; [|exact Hok].
  intros i Hi. destruct (Hf i Hi) as [Hg|]; [by destruct (Hg idx)|done].
Qed.

Lemma announcing_ok v id i : instruction_ok v i -> gone id v \/ announcing id true i = 0.
Proof.
  destruct i; try (by right). simpl. case_bool_decide as E; [subst|by right]. intros [_ Hg].
  unfold b2z_eq. case_bool_decide; [left; by subst|by right].
Qed.

Lemma polling_weight : weight polling.
Proof. intros []; simpl; try lia. by case_match. Qed.

Lemma announcing_polling id i : announcing id false i <= polling i.
Proof.
  destruct i; simpl; try lia. case_bool_decide as E; [subst|by case_match].
  apply b2z_eq_range.
Qed.

Lemma set_cell_counted v id c n j :
  known id v -> cells v !! id = Some c -> pending_of id j (set_cell id (counted n c) v) = pending_of id j v.
Proof.
  intros Hk Hc. unfold pending_of. by rewrite set_cell_lookup, decide_True, Hc.
Qed.

Lemma inv_event v a b tr i idx id c l :
  inv single v false (a ++ i :: b) tr -> neutral i ->
  vector v !! idx = Some (Some id) -> cells v !! id = Some c ->
  sum_with (dec id) (a ++ i :: b) < 2 ^ 32 - 1 ->
  (single = true -> sum_with polling (a ++ i :: b) = 0) ->
  Forall neutral l -> Forall (instruction_ok (set_cell id (counted (wrap 32 (c_counter c + 1)) c) v)) l ->
  inv single (set_cell id (counted (wrap 32 (c_counter c + 1)) c) v) false
    (a ++ (l ++ [i_decrement id]) ++ b) (tr ++ []).
Proof.
  intros Hinv Hi Hidx Hcell Hroom Hsingle Hl Hlok. pose proof Hinv as [Hcat Hok Hm Hat].
  set (c' := counted (wrap 32 (c_counter c + 1)) c) in *.
  destruct (cat_vector v Hcat idx id Hidx) as (c0 & Hc0 & _ & Hreq).
  rewrite Hcell in Hc0. injection Hc0 as <-.
  assert (known id v) as Hk by (by eapply lookup_lt_Some).
  assert (known id (set_cell id c' v)) as Hk' by (unfold known in *; simpl; by rewrite length_insert).
  pose proof (neutral_foreign id i Hi) as (Hi1 & Hi2 & Hi3 & Hi4 & Hi5 & Hi6).
  apply (inv_local single id v _ false false a i); try done.
  - apply (catalog_set_cell v id c); try done; [|by right]. by destruct (cat_cells v Hcat id c Hcell).
  - by apply (evolves_set_cell v id c).
  - intros j Hne. by rewrite set_cell_lookup, decide_False.
  - by destruct i.
  - apply Forall_app. split; [|by constructor]. eapply List.Forall_impl; [|exact Hl]. by intros [].
  - apply Forall_app. split; [done|]. by constructor.
  - rewrite sum_with_app, (neutral_locks l Hl), sum_one. destruct i; simpl in *; done.
  - rewrite app_nil_r. set (next := l ++ [i_decrement id]).
    assert (forall f : instruction -> Z, (forall j, foreign id j -> f j = 0) ->
      sum_with f (a ++ next ++ b) = sum_with f (a ++ i :: b) + f (i_decrement id)) as Hsum.
    { intros f Hz. rewrite (sum_replace f a next b i), (Hz i) by (by apply neutral_foreign).
      unfold next. rewrite (sum_with_app f l), sum_one, (sum_zero f l); [lia|].
      eapply List.Forall_impl; [|exact Hl]. intros j Hj. by apply Hz, neutral_foreign. }
    destruct (Hat id) as [Hrg Hc Hq Ho Hr Hs Hd Hp Hf].
    pose proof (sum_weight (dec id) (a ++ i :: b) (dec_weight id)).
    assert (sum_with (announcing id true) (a ++ i :: b) = 0) as Ht.
    { apply (registered_zero _ v _ idx id Hok Hidx). by apply announcing_ok. }
    assert (single = true -> sum_with (announcing id false) (a ++ i :: b) = 0) as Hfalse.
    { intros Hsg. specialize (Hsingle Hsg). apply sum_zero.
      apply List.Forall_forall. intros j Hj%list_elem_of_In.
      pose proof (sum_elem polling _ j polling_weight Hj). pose proof (announcing_polling id j).
      pose proof (announcing_weight id false j). lia. }
    constructor; rewrite ?Hsum by (intros j Hj; apply Hj); cbn [dec responsible announcing dispatching];
      rewrite ?b2z_eq_refl, ?Z.add_0_r.
    + lia.
    + intros c1. rewrite set_cell_lookup, decide_True by done. intros [= <-]. simpl.
      rewrite (Hc c Hcell). rewrite wrap_small by lia. done.
    + intros Hq'. destruct (Hq Hq'). by split.
    + done.
    + intros c1. rewrite set_cell_lookup, decide_True by done. intros [= <-] Hr1. simpl in Hr1. congruence.
    + intros cb. rewrite Hsum by (intros j Hj; apply Hj). cbn [dispatching_of].
      unfold c'. rewrite set_cell_counted, Z.add_0_r by done. apply Hs.
    + rewrite Ht. lia.
    + intros Hsg. rewrite Hfalse by done. lia.
    + intros Hsg Hpos. destruct (Hf Hsg Hpos) as (_ & Hg & _). by destruct (Hg idx).
Qed.

Lemma inv_decrement v m a b tr id c :
  inv single v m (a ++ i_decrement id :: b) tr -> cells v !! id = Some c ->
  let n := wrap 32 (c_counter c - 1) in
  inv single (set_cell id (counted n c) v) m
    (a ++ (if n =? 0 then [i_announceDetached id false] else []) ++ b) (tr ++ []).
Proof.
  intros Hinv Hcell n. pose proof Hinv as [Hcat Hok Hm Hat].
  assert (known id v) as Hk by (by eapply lookup_lt_Some).
  assert (known id (set_cell id (counted n c) v)) as Hk'
    by (unfold known in *; simpl; by rewrite length_insert).
  destruct (Hat id) as [Hrg Hc Hq Ho Hr Hs Hd Hp Hf].
  pose proof (Hc c Hcell) as Hcount.
  assert (1 <= sum_with (dec id) (a ++ i_decrement id :: b)) as Hpos.
  { rewrite <- (b2z_eq_refl id). apply (sum_elem (dec id) _ (i_decrement id) (dec_weight id)).
    apply elem_of_app. right. by left. }
  assert (n = sum_with (dec id) (a ++ i_decrement id :: b) - 1) as Hn
    by (unfold n; rewrite Hcount, wrap_small; lia).
  apply (inv_local single id v _ m m a (i_decrement id)); try done.
  - apply (catalog_set_cell v id c); try done.
    + by destruct (cat_cells v Hcat id c Hcell).
    + simpl. destruct (c_required c) eqn:E; [left|by right]. by apply (required_gone _ _ _ _ _ _ Hinv Hcell).
  - by apply (evolves_set_cell v id c).
  - intros j Hne. by rewrite set_cell_lookup, decide_False.
  - case_match; repeat constructor.
  - case_match; repeat constructor. done.
  - case_match; rewrite ?sum_one, ?sum_with_nil; simpl; lia.
  - rewrite app_nil_r.
    pose proof (sum_weight (announcing id true) (a ++ i_decrement id :: b) (announcing_weight id true)).
    pose proof (sum_weight (announcing id false) (a ++ i_decrement id :: b) (announcing_weight id false)).
    assert (forall c1, cells (set_cell id (counted n c) v) !! id = Some c1 -> c1 = counted n c) as Hc1.
    { intros c1. rewrite set_cell_lookup, decide_True by done. by intros [= <-]. }
    pose proof (set_cell_counted v id c n) as Hpend.
    destruct (n =? 0) eqn:E0.
    + constructor; sums a [i_announceDetached id false] b (i_decrement id);
        rewrite ?Z.sub_0_r, ?Z.add_0_r; try done; try lia.
      * intros c1 ->%Hc1. simpl. lia.
      * intros Hq'. destruct (Hq Hq'). by split.
      * intros c1 ->%Hc1 Hr1. specialize (Hr c Hcell Hr1). lia.
      * intros cb. sums a [i_announceDetached id false] b (i_decrement id).
        rewrite Hpend, Hs by done. lia.
      * intros Hsg Hpos'. destruct (Hf Hsg Hpos') as (_ & _ & ?). lia.
    + constructor; sums a (@nil instruction) b (i_decrement id);
        rewrite ?Z.sub_0_r, ?Z.add_0_r; try done; try lia.
      * intros c1 ->%Hc1. simpl. lia.
      * intros Hq'. destruct (Hq Hq'). by split.
      * intros c1 ->%Hc1 Hr1. specialize (Hr c Hcell Hr1).
        pose proof (sum_weight (responsible id) (a ++ i_decrement id :: b) (responsible_weight id)). lia.
      * intros cb. sums a (@nil instruction) b (i_decrement id). rewrite Hpend, Hs by done. lia.
      * intros Hsg Hpos'. specialize (Hp Hsg Hpos'). lia.
      * intros Hsg Hpos'. destruct (Hf Hsg Hpos') as (_ & _ & ?). lia.
Qed.

End Steps.
End Steps.
