(* ===== verification/EpollSafety.v ===== *)
(** * No instruction of a driver fails

    Every instruction that a thread may execute next succeeds, unless it uses a
    null controller, and preserves the invariant. *)

From stdpp Require Import gmap.
From S2P Require Import Prelude Errors Interest Registry Epoll EpollSystem EpollFacts EpollInvariant EpollSteps.
#[local] Open Scope Z_scope.

Module Safety.
Import Epoll System View Invariant Steps.
Section Safety.
Context `{ReactorTypes} `{EpollOps} (d_config : configuration) (single : bool) {exclusive : bool}.

#[local] Abbreviation catalog := (Invariant.catalog (exclusive := exclusive)).
#[local] Abbreviation inv := (Invariant.inv (exclusive := exclusive)).

(** [Forall] of the elements of an explicit list. *)
#[local] Ltac foralls :=
  repeat match goal with
    | |- Forall _ [] => apply List.Forall_nil
    | |- Forall _ (_ :: _) => apply List.Forall_cons
    end; try done.

#[local] Abbreviation view d := (view_of (d_registry d)).

(** The contexts of sockets refer to entries, and the controller has a handle
    and is open. *)
Definition driver_ok (d : Epoll.t) : Prop :=
  map_Forall (fun _ id => id < length (Registry.entries (d_registry d)))%nat
    (Registry.contexts (d_registry d)) /\
  forall c, d_controller d = Some c ->
    valid_handle (socket_handle c) /\ Registry.is_open (inl c) (d_registry d).

(** The sockets that are closed remain. *)
Definition same_closed (d d' : Epoll.t) : Prop :=
  Registry.closed (d_registry d') = Registry.closed (d_registry d).

Definition good (o : oracle) (i : instruction) (a b : list instruction) (tr : list effect)
  (d : Epoll.t) : Prop :=
  exists next d' effects,
    execute d_config o i d = Some (next, d', effects) /\
    inv single (view d') (d_mutex d') (a ++ next ++ b) (tr ++ effects) /\ driver_ok d'.

Lemma known_entry id d : known id (view d) -> exists e, entry id d = Some e.
Proof.
  unfold known, entry. simpl. rewrite length_fmap. intros Hk.
  destruct (lookup_lt_is_Some_2 (Registry.entries (d_registry d)) id Hk) as [e He]. by exists e.
Qed.

Lemma entry_known id d e : entry id d = Some e -> known id (view d).
Proof.
  unfold known, entry. simpl. rewrite length_fmap. by apply lookup_lt_Some.
Qed.

Lemma entry_cell id d e : entry id d = Some e -> cells (view d) !! id = Some (cell_of e).
Proof. apply lookup_cell. Qed.

Lemma find_ok s d :
  driver_ok d -> catalog (view d) -> valid_handle (Registry.handle_of s) ->
  exists found, find s (d_registry d) = Some found /\
    forall id, found = Some id -> known id (view d).
Proof.
  intros [Hctx _] Hcat Hs. destruct s as [s|h]; simpl in *.
  - exists (Registry.getReactorContext s (d_registry d)). split; [done|]. intros id Hid.
    unfold known. simpl. rewrite length_fmap. by apply (Hctx s id).
  - unfold Registry.lookup. rewrite (proj2 (Z.eqb_neq h k_INVALID_HANDLE))
      by (unfold k_INVALID_HANDLE, valid_handle in *; lia).
    simpl. eexists. split; [done|]. intros id Hid.
    destruct (Registry.d_vector (d_registry d) !! Registry.index h) as [[id'|]|] eqn:E; try done.
    injection Hid as ->. by apply (catalog_known (view d) (Registry.index h) id Hcat).
Qed.

(** ** Steps that no count sees *)

Lemma good_neutral o i a b tr d next d' effects :
  inv single (view d) (d_mutex d) (a ++ i :: b) tr ->
  execute d_config o i d = Some (next, d', effects) ->
  view d' = view d -> d_mutex d' = d_mutex d -> driver_ok d' ->
  neutral i -> Forall neutral next -> Forall (instruction_ok (view d)) next ->
  Forall silent effects -> good o i a b tr d.
Proof.
  intros Hinv He Hv Hm Hd Hi Hn Hok Hs. exists next, d', effects. split; [done|].
  split; [|done]. rewrite Hv, Hm. by apply inv_neutral with i.
Qed.

Lemma closed_clear_entry id (r : Registry.t) :
  Registry.closed (Registry.clear_entry id r) = Registry.closed r.
Proof.
  unfold Registry.clear_entry. destruct (Registry.entries r !! id) as [e|]; [|done].
  destruct (RegistryEntry.clear e) as [e' [s|]]; done.
Qed.

Lemma driver_set_entry id e d : driver_ok d -> driver_ok (set_entry id e d).
Proof.
  intros [Hctx Hc]. split; [|done]. simpl. by rewrite length_alter.
Qed.

Lemma view_set_entry id e e' d :
  entry id d = Some e -> cell_of e' = cell_of e -> view (set_entry id e' d) = view d.
Proof. apply of_update_same. Qed.

Lemma returns_silent report error : Forall silent (returns report error).
Proof. destruct report; repeat constructor. Qed.

Lemma good_set_entry o i a b tr d id e e' next :
  inv single (view d) (d_mutex d) (a ++ i :: b) tr -> driver_ok d ->
  entry id d = Some e -> cell_of e' = cell_of e ->
  execute d_config o i d = Some (next, set_entry id e' d, []) ->
  neutral i -> Forall neutral next -> Forall (instruction_ok (view d)) next ->
  good o i a b tr d.
Proof.
  intros Hinv Hd He Hc Hx Hi Hn Hok. eapply good_neutral; try done.
  - by eapply view_set_entry.
  - by apply driver_set_entry.
Qed.

Section Instructions.
Context (o : oracle) (a b : list instruction) (tr : list effect) (d : Epoll.t).

#[local] Abbreviation I i := (inv single (view d) (d_mutex d) (a ++ i :: b) tr).

Lemma head i : I i -> instruction_ok (view d) i.
Proof. intros Hinv. eapply head_ok, (inv_ok _ _ _ _ _ Hinv). Qed.

Lemma good_show s op : I (i_show s op) -> driver_ok d -> good o (i_show s op) a b tr d.
Proof.
  intros Hinv Hd. pose proof (head _ Hinv) as Hok.
  destruct (find_ok s d Hd (inv_catalog _ _ _ _ _ Hinv) Hok) as (found & Hf & Hk).
  destruct found as [id|].
  - apply (good_neutral o _ a b tr d [i_shown id op false true] d []); try done;
      [simpl; unfold show; by rewrite Hf|foralls..]. simpl. auto.
  - destruct (autoAttach d_config) eqn:Ea.
    + apply (good_neutral o _ a b tr d [i_autoAttach s op] d []); try done;
        [simpl; unfold show; rewrite Hf; simpl; by rewrite Ea|foralls..].
    + apply (good_neutral o _ a b tr d [] d [f_return Error.e_INVALID]); try done;
        [simpl; unfold show; rewrite Hf; simpl; by rewrite Ea|foralls..].
Qed.

Lemma good_hide s op : I (i_hide s op) -> driver_ok d -> good o (i_hide s op) a b tr d.
Proof.
  intros Hinv Hd. pose proof (head _ Hinv) as Hok.
  destruct (find_ok s d Hd (inv_catalog _ _ _ _ _ Hinv) Hok) as (found & Hf & Hk).
  destruct found as [id|].
  - apply (good_neutral o _ a b tr d [i_hidden id s op] d []); try done;
      [simpl; unfold hide; by rewrite Hf|foralls..]. simpl. auto.
  - apply (good_neutral o _ a b tr d [] d [f_return Error.e_INVALID]); try done;
      [simpl; unfold hide; by rewrite Hf|foralls..].
Qed.

Lemma good_shown id op att report :
  I (i_shown id op att report) -> driver_ok d -> good o (i_shown id op att report) a b tr d.
Proof.
  intros Hinv Hd. pose proof (head _ Hinv) as Hok. destruct (known_entry id d Hok) as [e He].
  eapply (good_set_entry o _ a b tr d id e (perform op e)); [exact Hinv|exact Hd|exact He
    |apply cell_perform|simpl; unfold shown; by rewrite He|done|..]; foralls; by destruct att.
Qed.

Lemma good_hidden id s op :
  I (i_hidden id s op) -> driver_ok d -> good o (i_hidden id s op) a b tr d.
Proof.
  intros Hinv Hd. pose proof (head _ Hinv) as [Hk Hs]. destruct (known_entry id d Hk) as [e He].
  eapply (good_set_entry o _ a b tr d id e (perform op e)); [exact Hinv|exact Hd|exact He
    |apply cell_perform|simpl; unfold hidden; by rewrite He|done|..]; repeat case_match; foralls.
Qed.

Lemma good_announce id what :
  I (i_announce id what) -> driver_ok d -> good o (i_announce id what) a b tr d.
Proof.
  intros Hinv Hd. pose proof (head _ Hinv) as Hok. destruct (known_entry id d Hok) as [e He].
  pose proof (cell_announce what e) as Hc. destruct (announce what e) as [[e' p] c] eqn:Ea.
  eapply (good_set_entry o _ a b tr d id e e'); [exact Hinv|exact Hd|exact He|exact Hc
    |simpl; unfold announceEvent; rewrite He; simpl; by rewrite Ea|done|..];
    case_match; foralls.
Qed.

(** An instruction that only reads an entry. *)
Lemma good_read i id next effects :
  I i -> driver_ok d -> known id (view d) ->
  (forall e, entry id d = Some e -> exists next' effects',
    execute d_config o i d = Some (next', d, effects') /\ next' = next e /\ effects' = effects e) ->
  neutral i -> (forall e, Forall neutral (next e)) ->
  (forall e, entry id d = Some e -> Forall (instruction_ok (view d)) (next e)) ->
  (forall e, Forall silent (effects e)) -> good o i a b tr d.
Proof.
  intros Hinv Hd Hk Hx Hi Hn Hok Hs. destruct (known_entry id d Hk) as [e He].
  destruct (Hx e He) as (? & ? & Hex & -> & ->). eapply good_neutral; try done. auto.
Qed.

(** ** The kernel *)

Lemma good_control i opn h ev next effects :
  I i -> driver_ok d ->
  execute d_config o i d =
    Some (next (control opn h ev d).2, (control opn h ev d).1, effects (control opn h ev d).2) ->
  neutral i -> (forall n, Forall neutral (next n)) ->
  (forall n, Forall (instruction_ok (view d)) (next n)) -> (forall n, Forall silent (effects n)) ->
  good o i a b tr d.
Proof.
  intros Hinv Hd Hx Hi Hn Hok Hs.
  assert (d_registry (control opn h ev d).1 = d_registry d /\ d_mutex (control opn h ev d).1 = d_mutex d /\
    d_controller (control opn h ev d).1 = d_controller d) as (Hr & Hm & Hc)
    by (unfold control; by destruct (epoll_ctl opn h ev (d_epoll d))).
  eapply good_neutral; try done.
  - by rewrite Hr.
  - unfold driver_ok. by rewrite Hr, Hc.
Qed.

Lemma good_add h interest report :
  I (i_add h interest report) -> driver_ok d -> good o (i_add h interest report) a b tr d.
Proof.
  intros Hinv Hd. apply (good_control _ EPOLL_CTL_ADD h (events_of interest) (fun _ => [])
    (fun n => returns report (Errno.translate n))); try done; [|intros; apply returns_silent].
  simpl. unfold add. by destruct (control EPOLL_CTL_ADD h (events_of interest) d).
Qed.

Lemma good_update h interest report :
  I (i_update h interest report) -> driver_ok d -> good o (i_update h interest report) a b tr d.
Proof.
  intros Hinv Hd. apply (good_control _ EPOLL_CTL_MOD h (events_of interest)
    (fun n => if bool_decide (n = Errno.ENOENT) then [i_add h interest report] else [])
    (fun n => if bool_decide (n = Errno.ENOENT) then [] else returns report (Errno.translate n)));
    try done.
  - simpl. unfold update. destruct (control EPOLL_CTL_MOD h (events_of interest) d). simpl.
    by case_bool_decide.
  - intros n. case_bool_decide; repeat constructor.
  - intros n. case_bool_decide; repeat constructor.
  - intros n. case_bool_decide; [done|apply returns_silent].
Qed.

Lemma good_delete h report :
  I (i_delete h report) -> driver_ok d -> good o (i_delete h report) a b tr d.
Proof.
  intros Hinv Hd. apply (good_control _ EPOLL_CTL_DEL h 0 (fun _ => [])
    (fun n => returns report (ignore_absent n))); try done; [|intros; apply returns_silent].
  simpl. unfold delete. by destruct (control EPOLL_CTL_DEL h 0 d).
Qed.

(** ** Entries are added *)

Lemma insert_small idx id (r : Registry.t) :
  size (vector (view_of r)) < 2 ^ 32 -> Z.of_nat idx < 2 ^ 31 -> is_Some (Registry.insert idx id r).
Proof.
  intros Hlen Hidx. unfold size in Hlen. simpl in Hlen.
  unfold Registry.insert. case_bool_decide as Hl.
  - assert (Z.of_nat (length (Registry.d_vector r) * 3 / 2) <= 2 ^ 33).
    { rewrite Nat2Z.inj_div, Nat2Z.inj_mul. apply Z.div_le_upper_bound; lia. }
    unfold Registry.resize. rewrite (proj2 (Z.ltb_lt _ _)) by lia. simpl.
    rewrite bool_decide_true; [by eexists|]. rewrite length_app, length_replicate. lia.
  - simpl. rewrite bool_decide_true by lia. by eexists.
Qed.

Lemma registry_add_spec s (r : Registry.t) :
  catalog (view_of r) -> Registry.is_open s r -> valid_handle (Registry.handle_of s) ->
  exists k r',
    Registry.add s r = Some (length (Registry.entries r), r') /\
    view_of r' = added (Registry.handle_of s) k (view_of r) /\
    Registry.contexts r' = Registry.contexts r /\ Registry.closed r' = Registry.closed r /\
    (Registry.index (Registry.handle_of s) < length (vector (view_of r)) + k)%nat /\
    (k = 0%nat \/ length (vector (view_of r)) + k =
       Nat.max (Registry.index (Registry.handle_of s) + 1) (length (vector (view_of r)) * 3 / 2) /\
       length (vector (view_of r)) <= Registry.index (Registry.handle_of s))%nat.
Proof.
  intros Hcat Ho Hs. unfold Registry.add. pose proof (handle_open s r Ho) as Hh. rewrite Hh. cbn zeta.
  assert (Registry.handle_of s <> k_INVALID_HANDLE) as Hne
    by (unfold k_INVALID_HANDLE, valid_handle in *; lia).
  rewrite (proj2 (Z.eqb_neq _ _) Hne). simpl.
  destruct (create_total s r) as [[id r1] Hc]; [by rewrite Hh|]. rewrite Hc. simpl.
  destruct (create_spec s r id r1 Ho Hc) as (-> & Hv1 & Hx1 & Hcl1).
  assert (Z.of_nat (Registry.index (Registry.handle_of s)) < 2 ^ 31) as Hidx
    by (rewrite index_valid by done; unfold valid_handle in *; lia).
  assert (vector (view_of r1) = vector (view_of r) /\ count (view_of r1) = count (view_of r))
    as [Hvec1 Hcnt1] by (by rewrite Hv1).
  assert (is_Some (Registry.insert (Registry.index (Registry.handle_of s))
    (length (Registry.entries r)) r1)) as [r' Hi].
  { apply insert_small; [|done]. rewrite Hvec1. apply (cat_length _ Hcat). }
  rewrite Hi. simpl. destruct (insert_spec _ _ _ _ Hi) as (k & Hv & Hidx' & Hk & Hx & Hcl).
  exists k, r'. split; [done|]. rewrite Hvec1 in *.
  split; [|split; [by rewrite Hx|split; [by rewrite Hcl|by split]]].
  rewrite Hv, Hv1. unfold added. simpl. by rewrite length_fmap.
Qed.

Lemma good_attach i s nx :
  I i -> driver_ok d -> Registry.is_open s (d_registry d) ->
  valid_handle (Registry.handle_of s) -> addable exclusive (Registry.handle_of s) (d_registry d) ->
  execute d_config o i d = attach s nx d -> neutral i ->
  (forall id, Forall neutral (nx id)) ->
  (forall id v, known id v -> Forall (instruction_ok v) (nx id)) -> good o i a b tr d.
Proof.
  intros Hinv Hd Ho Hs [Hvac Hroom] Hx Hi Hn Hok. pose proof (inv_catalog _ _ _ _ _ Hinv) as Hcat.
  destruct (registry_add_spec s (d_registry d) Hcat Ho Hs) as (k & r' & Hadd & Hv & Hctx & Hcl & Hidx & Hk).
  set (id := length (Registry.entries (d_registry d))) in *.
  destruct (catalog_added (view d) _ k Hcat Hs Hvac Hroom Hidx Hk) as [Hcat' He].
  assert (length (cells (view d)) = id) as Hlen by (simpl; by rewrite length_fmap).
  assert (known id (view_of r')) as Hknown
    by (unfold known; rewrite Hv; simpl; rewrite length_app, length_fmap; simpl; lia).
  exists (context_of s id ++ nx id), (set_registry r' d), []. split.
  { rewrite Hx. unfold attach. by rewrite Hadd. }
  split.
  - simpl. apply inv_neutral with i; try done.
    + rewrite Hv. apply (inv_view single (view d)); try done.
      * intros j Hj. simpl. by rewrite lookup_app_l.
      * intros j c Hj. simpl. rewrite lookup_app_r by (unfold known in Hj; simpl in Hj; lia).
        intros [_ <-]%list_lookup_singleton_Some. done.
    + apply Forall_app. split; [destruct s; simpl; foralls|apply Hn].
    + apply Forall_app. split; [destruct s; simpl; foralls; exact Hknown|by apply Hok].
  - destruct Hd as [Hc Hctl]. split.
    + simpl. rewrite Hctx. intros sock j Hj. specialize (Hc sock j Hj). simpl in Hc.
      assert (length (Registry.entries r') = S id) as ->; [|lia].
      assert (length (cells (view_of r')) = S id) as Hl.
      { rewrite Hv. simpl. rewrite length_app, length_fmap. simpl. lia. }
      simpl in Hl. by rewrite length_fmap in Hl.
    + intros c Ec. destruct (Hctl c Ec) as [? Hop]. split; [done|]. simpl in *. by rewrite Hcl.
Qed.

(** ** Entries are taken out *)

Lemma take_total idx (r : Registry.t) :
  catalog (view_of r) ->
  exists found r', Registry.take idx r = Some (found, r') /\
    Registry.entries r' = Registry.entries r /\ Registry.contexts r' = Registry.contexts r /\
    Registry.closed r' = Registry.closed r /\
    match found with
    | Some id => vector (view_of r) !! idx = Some (Some id) /\
        view_of r' = taken idx (view_of r)
    | None => r' = r
    end.
Proof.
  intros Hcat.
  assert (is_Some (Registry.take idx r)) as [[found r'] Ht].
  { unfold Registry.take. destruct (Registry.d_vector r !! idx) as [[id|]|] eqn:E; [|by eexists..].
    pose proof (occupied_pos _ _ _ E). pose proof (cat_count _ Hcat) as Hn. simpl in Hn.
    rewrite (proj2 (Z.ltb_lt _ _)) by lia. by eexists. }
  exists found, r'. split; [done|]. destruct (take_spec idx r found r' Ht) as (He & Hx & Hcl & Hf).
  do 3 (split; [done|]). destruct found as [id|]; [|done].
  destruct Hf as (Hv & _ & Hr). by split.
Qed.

Lemma remove_total s (r : Registry.t) :
  catalog (view_of r) -> Registry.is_open s r -> valid_handle (Registry.handle_of s) ->
  exists found r', Registry.remove s r = Some (found, r') /\
    Registry.entries r' = Registry.entries r /\ Registry.contexts r' = Registry.contexts r /\
    Registry.closed r' = Registry.closed r /\
    match found with
    | Some id => vector (view_of r) !! Registry.index (Registry.handle_of s) = Some (Some id) /\
        view_of r' = taken (Registry.index (Registry.handle_of s)) (view_of r)
    | None => r' = r
    end.
Proof.
  intros Hcat Ho Hs. unfold Registry.remove. rewrite (handle_open s r Ho). cbn zeta. rewrite (proj2 (Z.eqb_neq _ _))
    by (unfold k_INVALID_HANDLE, valid_handle in *; lia). by apply take_total.
Qed.

Lemma list_alter_ext_at {A} (f : A -> A) (l : list A) i x :
  l !! i = Some x -> alter f i l = alter (fun _ => f x) i l.
Proof.
  revert i. induction l as [|y l IH]; intros [|i] Hi; simplify_eq/=; [done|]. f_equal. by apply IH.
Qed.

Lemma set_registry_ok r' :
  driver_ok d -> Registry.entries r' = Registry.entries (d_registry d) ->
  Registry.contexts r' = Registry.contexts (d_registry d) ->
  Registry.closed r' = Registry.closed (d_registry d) -> driver_ok (set_registry r' d).
Proof.
  intros [Hc Hctl] He Hx Hcl. split; simpl; [by rewrite He, Hx|]. intros c Ec. rewrite Hcl. by apply Hctl.
Qed.

(** An entry that the catalog refers to may be cleared once it is out. *)
Lemma clear_ok id idx v :
  catalog v -> vector v !! idx = Some (Some id) -> instruction_ok (taken idx v) (i_clearEntry id).
Proof.
  intros Hcat Hidx. destruct (catalog_taken v idx id Hcat Hidx) as (Hcat' & _ & Hg).
  destruct (cat_vector v Hcat idx id Hidx) as (c & Hc & _ & Hr).
  split; [by eapply lookup_lt_Some|]. split; [done|]. intros c' Hc'. simpl in Hc'. congruence.
Qed.

Lemma good_taken i s next :
  I i -> driver_ok d -> Registry.is_open s (d_registry d) -> valid_handle (Registry.handle_of s) ->
  neutral i -> (forall found r', Registry.remove s (d_registry d) = Some (found, r') ->
    Registry.entries r' = Registry.entries (d_registry d) ->
    execute d_config o i d = Some (next found, set_registry r' d, [])) ->
  (forall found, Forall neutral (next found)) ->
  (forall id v, instruction_ok v (i_clearEntry id) -> Forall (instruction_ok v) (next (Some id))) ->
  next None = [] -> good o i a b tr d.
Proof.
  intros Hinv Hd Ho Hs Hi Hx Hn Hok Hnone. pose proof (inv_catalog _ _ _ _ _ Hinv) as Hcat.
  destruct (remove_total s (d_registry d) Hcat Ho Hs) as (found & r' & Hrm & He & Hctx & Hcl & Hf).
  exists (next found), (set_registry r' d), []. split; [by apply Hx|].
  split; [|by apply set_registry_ok]. simpl. apply inv_neutral with i; try done.
  - destruct found as [id|]; [|by subst]. destruct Hf as [Hidx ->].
    destruct (catalog_taken _ _ _ Hcat Hidx) as (Hcat' & Hev & _).
    apply (inv_view single (view d)); try done. intros j c Hj Hc.
    destruct Hj. by eapply lookup_lt_Some.
  - destruct found as [id|]; [|by rewrite Hnone]. destruct Hf as [Hidx ->].
    apply Hok. by apply clear_ok.
Qed.

Lemma good_remove s :
  I (i_remove s) -> driver_ok d -> Registry.is_open s (d_registry d) -> good o (i_remove s) a b tr d.
Proof.
  intros Hinv Hd Ho. apply (good_taken _ s
    (fun found => match found with Some id => [i_clearEntry id] | None => [] end)); try done.
  - apply (head _ Hinv).
  - intros found r' Hr _. simpl. unfold remove. by rewrite Hr.
  - intros [id|]; foralls.
  - intros id v Hv. foralls.
Qed.

Lemma good_removeController c :
  I (@i_removeController _) -> driver_ok d -> d_controller d = Some c ->
  good o (@i_removeController _) a b tr d.
Proof.
  intros Hinv Hd Ec. pose proof (inv_catalog _ _ _ _ _ Hinv) as Hcat.
  destruct (proj2 Hd c Ec) as [Hs Ho].
  apply (good_taken _ (inl c) (fun found =>
    match found with
    | Some id =>
        match entry id d with
        | Some e => [i_clearEntry id; i_delete (RegistryEntry.d_handle e) false]
        | None => []
        end
    | None => []
    end)); try done.
  - intros found r' Hr He. simpl. unfold removeController. rewrite Ec. simpl. rewrite Hr. simpl.
    destruct found as [id|]; [|done]. rewrite He.
    destruct (remove_total (inl c) (d_registry d) Hcat Ho Hs)
      as (found & r0 & Hr0 & _ & _ & _ & Hf). rewrite Hr in Hr0. injection Hr0 as <- <-.
    destruct Hf as [Hidx _].
    destruct (known_entry id d (catalog_known _ _ _ Hcat Hidx)) as [e Hent].
    unfold entry in *. by rewrite Hent.
  - intros [id|]; [|done]. case_match; foralls.
  - intros id v Hv. case_match; foralls.
Qed.

(** [clear] takes out all entries but that of the controller. *)
Lemma clear_total c (r : Registry.t) :
  catalog (view_of r) ->
  exists l r', Registry.clear c r = Some (l, r') /\
    Registry.entries r' = Registry.entries r /\ Registry.contexts r' = Registry.contexts r /\
    Registry.closed r' = Registry.closed r /\ catalog (view_of r') /\ evolves (view_of r) (view_of r') /\
    forall id, id ∈ l -> instruction_ok (view_of r') (i_clearEntry id).
Proof.
  intros Hcat. pose proof (cat_count _ Hcat) as Hn. pose proof (cat_length _ Hcat) as Hlen.
  pose proof (cat_exact _ Hcat) as Hx. pose proof (occupied_le (vector (view_of r))). pose proof (occupied_nonneg (vector (view_of r))).
  simpl in *. unfold Registry.clear.
  destruct (clear_loop_total (Registry.index c) (Registry.d_vector r) 0 (Registry.d_size r))
    as [[[l v'] n'] Hl]; [lia|].
  rewrite Hl. simpl. exists l, (Registry.set_vector v' n' r).
  destruct (clear_loop_spec _ _ _ _ _ _ _ Hl) as (Hlv & Hv & Hin & Hcnt & Hocc).
  destruct Hcnt as [Hcnt Hcnt0]; [lia|]. pose proof (occupied_nonneg v'). pose proof (size_nonneg l).
  destruct (catalog_shrink (exclusive := exclusive) (view_of r) (view_of (Registry.set_vector v' n' r))) as [Hcat' He]; try done.
  { intros p id. simpl. rewrite Hv. case_decide; [done|].
    by destruct (Registry.d_vector r !! p). }
  { simpl. lia. }
  { simpl. intros E. specialize (Hx E). lia. }
  split; [done|]. do 5 (split; [done|]). intros id Hid. destruct (Hin id Hid) as (p & Hp & Hne).
  destruct (cat_vector _ Hcat p id Hp) as (e & Hc & _ & Hr).
  split; [by eapply (catalog_known (view_of r))|]. split.
  - intros q. simpl. rewrite Hv. simpl. case_decide as Hq; [|by destruct (Registry.d_vector r !! q)].
    intros Hq'. by rewrite (catalog_unique (view_of r) p q id Hcat Hp Hq') in Hne.
  - intros c' Hc'. simpl in *. congruence.
Qed.

Lemma mapM_total {A B} (f : A -> option B) l :
  (forall x, x ∈ l -> is_Some (f x)) -> is_Some (mapM f l).
Proof. intros Hf. apply mapM_is_Some_2. apply List.Forall_forall. intros x Hx%list_elem_of_In. auto. Qed.

Lemma Forall_fmap_intro {A B} (P : B -> Prop) (f : A -> B) l :
  (forall x, x ∈ l -> P (f x)) -> Forall P (f <$> l).
Proof. intros Hf. apply Forall_fmap, List.Forall_forall. intros x Hx%list_elem_of_In. by apply Hf. Qed.

Lemma good_clear : I (@i_clear _) -> driver_ok d -> good o (@i_clear _) a b tr d.
Proof.
  intros Hinv Hd. pose proof (inv_catalog _ _ _ _ _ Hinv) as Hcat.
  destruct (clear_total (d_controllerDescriptorHandle d) (d_registry d) Hcat)
    as (l & r' & Hc & He & Hx & Hcl & Hcat' & Hev & Hok).
  destruct (mapM_total (fun id => RegistryEntry.d_handle <$> Registry.entries r' !! id) l) as [hs Hhs].
  { intros id Hid. destruct (Hok id Hid) as [Hk _].
    destruct (known_entry id (set_registry r' d) Hk) as [e Hent]. unfold entry in Hent. simpl in Hent.
    rewrite Hent. by eexists. }
  exists ((i_clearEntry <$> l) ++ ((fun h => i_delete h false) <$> hs)), (set_registry r' d), [].
  split; [|split; [|by apply set_registry_ok]].
  - simpl. unfold clear. rewrite Hc. simpl. by rewrite Hhs.
  - simpl. apply inv_neutral with (@i_clear _); try done.
    + apply (inv_view single (view d)); try done.
      * intros id _. simpl. by rewrite He.
      * intros id c Hk. simpl. rewrite He. intros Hcell. destruct Hk. by eapply lookup_lt_Some.
    + apply Forall_app. split; by apply Forall_fmap_intro.
    + apply Forall_app. split; apply Forall_fmap_intro; [done|]. done.
Qed.

Lemma good_closeAll : I (@i_closeAll _) -> driver_ok d -> good o (@i_closeAll _) a b tr d.
Proof.
  intros Hinv Hd. pose proof (inv_catalog _ _ _ _ _ Hinv) as Hcat.
  eapply (good_neutral o (@i_closeAll _) a b tr d); [exact Hinv|done|done|done|done|done|..]; foralls.
  - apply Forall_app. split; [by apply Forall_fmap_intro|foralls].
  - apply Forall_app. split; [|foralls]. apply Forall_fmap_intro. intros id Hid. simpl.
    unfold Registry.snapshot in Hid. apply list_elem_of_omap in Hid as (x & Hx & Hid).
    simpl in Hid. subst x. apply list_elem_of_lookup in Hx as [p Hp].
    apply (catalog_known _ p id Hcat).
    destruct (decide (p = Registry.index (d_controllerDescriptorHandle d))) as [->|Hne].
    + apply list_lookup_insert_Some in Hp as [(_ & ? & _)|(? & _)]; done.
    + by rewrite list_lookup_insert_ne in Hp by done.
Qed.

Lemma good_closeEntry id : I (i_closeEntry id) -> driver_ok d -> good o (i_closeEntry id) a b tr d.
Proof.
  intros Hinv Hd. destruct (known_entry id d (head _ Hinv)) as [e He].
  eapply (good_neutral o (i_closeEntry id) a b tr d); [exact Hinv
    |simpl; unfold closeEntry; by rewrite He|done|done|done|done|..]; foralls.
  case_match; foralls.
Qed.

Lemma good_setContext s id :
  I (i_setContext s id) -> driver_ok d -> good o (i_setContext s id) a b tr d.
Proof.
  intros Hinv Hd. pose proof (head _ Hinv) as Hk.
  eapply (good_neutral o (i_setContext s id) a b tr d); [exact Hinv|done|done|done| |done|..]; foralls.
  destruct Hd as [Hc Hctl]. split; [|done]. simpl.
  change (partial_alter (fun _ => Some id) s (Registry.contexts (d_registry d)))
    with (<[s := id]> (Registry.contexts (d_registry d))).
  apply map_Forall_insert_2; [|done]. destruct (known_entry id d Hk) as [e He].
  by apply lookup_lt_Some in He.
Qed.

Lemma good_attached id report :
  I (i_attached id report) -> driver_ok d -> good o (i_attached id report) a b tr d.
Proof.
  intros Hinv Hd. destruct (known_entry id d (head _ Hinv)) as [e He].
  eapply (good_neutral o (i_attached id report) a b tr d); [exact Hinv
    |simpl; unfold attached; by rewrite He|done|done|done|done|..]; foralls.
Qed.

Lemma good_rearm id : I (i_rearm id) -> driver_ok d -> good o (i_rearm id) a b tr d.
Proof.
  intros Hinv Hd. pose proof (head _ Hinv) as Hk. destruct (known_entry id d Hk) as [e He].
  eapply (good_neutral o (i_rearm id) a b tr d); [exact Hinv
    |simpl; unfold rearm; by rewrite He|done|done|done|done|..]; try case_match; foralls.
Qed.

Lemma good_controllerAdded id :
  I (i_controllerAdded id) -> driver_ok d -> good o (i_controllerAdded id) a b tr d.
Proof.
  intros Hinv Hd. pose proof (head _ Hinv) as Hk. destruct (known_entry id d Hk) as [e He].
  eapply (good_neutral o (i_controllerAdded id) a b tr d); [exact Hinv
    |simpl; unfold controllerAdded; by rewrite He| |done| |done|..]; foralls.
  - by apply of_update_same with e.
  - apply driver_set_entry. destruct Hd as [Hc Hctl]. by split.
Qed.

Lemma good_plain i next effects :
  I i -> driver_ok d -> execute d_config o i d = Some (next, d, effects) -> neutral i ->
  Forall neutral next -> Forall (instruction_ok (view d)) next -> Forall silent effects ->
  good o i a b tr d.
Proof. intros. by eapply (good_neutral o i a b tr d). Qed.

Lemma good_controller id ev :
  I (i_controller id ev) -> driver_ok d ->
  (dereferences o (i_controller id ev) = true -> is_Some (d_controller d)) ->
  good o (i_controller id ev) a b tr d.
Proof.
  intros Hinv Hd Hc. pose proof (head _ Hinv) as Hk.
  eapply (good_plain _ (if has ev EPOLLERR then [@i_initialize _] else
    if has ev hangup then
      if Error.is_error (o_acknowledge o) then [@i_initialize _] else [i_rearm id]
    else []) []); try done; [|repeat case_match; foralls..].
  simpl in *. unfold controllerEvent. destruct (has ev EPOLLERR); [done|].
  destruct (has ev hangup); [|done]. destruct (Hc eq_refl) as [c ->]. simpl. by case_match.
Qed.

Lemma good_interruptOne :
  I (@i_interruptOne _) -> driver_ok d ->
  (dereferences o (@i_interruptOne _) = true -> is_Some (d_controller d)) ->
  good o (@i_interruptOne _) a b tr d.
Proof.
  intros Hinv Hd Hc.
  eapply (good_plain _ (if o_isWaiter o then [] else
    if Error.is_error (o_interrupt o) then [@i_initialize _] else []) []); try done;
    [|repeat case_match; foralls..].
  simpl in *. unfold interruptOne. destruct (o_isWaiter o); [done|].
  destruct (Hc eq_refl) as [c ->]. simpl. by case_match.
Qed.

Lemma good_initialize : I (@i_initialize _) -> driver_ok d -> good o (@i_initialize _) a b tr d.
Proof.
  intros Hinv Hd.
  eapply (good_plain _ _ []); [exact Hinv|exact Hd|done|done|..]; foralls;
    destruct (d_controller d); foralls.
Qed.

Lemma good_return error : I (i_return error) -> driver_ok d -> good o (i_return error) a b tr d.
Proof. intros Hinv Hd. eapply (good_plain _ [] _); [exact Hinv|exact Hd|done|done|..]; foralls. Qed.

Lemma good_call id c : I (i_call id c) -> driver_ok d -> good o (i_call id c) a b tr d.
Proof. intros Hinv Hd. eapply (good_plain _ [] _); [exact Hinv|exact Hd|done|done|..]; foralls. Qed.

Lemma good_resetController :
  I (@i_resetController _) -> driver_ok d -> good o (@i_resetController _) a b tr d.
Proof.
  intros Hinv [Hc Hctl]. eapply (good_neutral o (@i_resetController _) a b tr d);
    [exact Hinv|done|done|done|by split|done|..]; foralls.
Qed.

Lemma good_createController :
  I (@i_createController _) -> driver_ok d -> valid_handle (socket_handle (o_controller o)) ->
  Registry.is_open (inl (o_controller o)) (d_registry d) -> good o (@i_createController _) a b tr d.
Proof.
  intros Hinv [Hc Hctl] Hh Ho. eapply (good_neutral o (@i_createController _) a b tr d);
    [exact Hinv|done|done|done| |done|..]; foralls.
  split; [done|]. simpl. by intros c [= <-].
Qed.

Lemma good_addController c :
  I (@i_addController _) -> driver_ok d -> d_controller d = Some c ->
  addable exclusive (socket_handle c) (d_registry d) -> good o (@i_addController _) a b tr d.
Proof.
  intros Hinv Hd Ec Ha. destruct (proj2 Hd c Ec) as [Hs Ho].
  apply (good_attach _ (inl c) (fun id => [i_controllerAdded id])); try done.
  - simpl. unfold addController. by rewrite Ec.
  - intros id. foralls.
  - intros id v Hk. foralls.
Qed.

(** ** Steps that are counted *)

Lemma view_entry_set id e d0 : view (set_entry id e d0) = set_cell id (cell_of e) (view d0).
Proof. apply of_update. Qed.

Lemma good_detach s cb :
  I (i_detach s cb) -> driver_ok d -> d_mutex d = false -> Registry.is_open s (d_registry d) -> good o (i_detach s cb) a b tr d.
Proof.
  intros Hinv Hd Hm Ho. pose proof (inv_catalog _ _ _ _ _ Hinv) as Hcat.
  destruct (remove_total s (d_registry d) Hcat Ho (head _ Hinv)) as (found & r' & Hr & He & Hx & Hcl & Hf).
  destruct found as [id|].
  - destruct Hf as [Hidx Hv]. set (idx := Registry.index (Registry.handle_of s)) in *.
    destruct (known_entry id d (catalog_known _ _ _ Hcat Hidx)) as [e Hent].
    pose proof (entry_cell id d e Hent) as Hcell.
    destruct (cat_vector _ Hcat idx id Hidx) as (c & Hc & _ & Hreq).
    rewrite Hcell in Hc. injection Hc as <-.
    destruct (cat_cells _ Hcat id _ Hcell) as [_ Hcb]. specialize (Hcb Hreq). simpl in Hreq, Hcb.
    exists [i_removeDetached id],
      (set_mutex true (set_entry id (RegistryEntry.set_detach true cb e) (set_registry r' d))),
      [f_require id cb]. split; [|split].
    + simpl. unfold detachSocket. rewrite Hr. simpl. rewrite He. unfold entry in Hent.
      rewrite Hent. simpl. unfold RegistryEntry.setDetachmentRequired. by rewrite Hreq, Hcb.
    + pose proof (inv_detach (exclusive := exclusive) single (view d) a (i_detach s cb) b tr idx id (cell_of e) cb) as Hstep.
      simpl. rewrite of_update, Hv. apply Hstep; try done. by rewrite <- Hm.
    + apply (driver_set_entry id _ (set_registry r' d)). by apply set_registry_ok.
  - subst r'. eapply (good_neutral o (i_detach s cb) a b tr d); [exact Hinv
      |simpl; unfold detachSocket; by rewrite Hr|done|done|done|done|..]; foralls.
Qed.

Lemma good_removeDetached id :
  I (i_removeDetached id) -> driver_ok d -> good o (i_removeDetached id) a b tr d.
Proof.
  intros Hinv Hd. destruct (head _ Hinv) as [Hk _]. destruct (known_entry id d Hk) as [e He].
  set (k := epoll_ctl EPOLL_CTL_DEL (RegistryEntry.d_handle e) 0 (d_epoll d)).
  exists [i_checkProcessing id (ignore_absent k.2)], (set_epoll k.1 d), []. split; [|split; [|done]].
  - simpl. unfold removeDetached, control. rewrite He. simpl. fold k. by destruct k.
  - by apply inv_removeDetached.
Qed.

Lemma good_checkProcessing id error :
  I (i_checkProcessing id error) -> driver_ok d -> good o (i_checkProcessing id error) a b tr d.
Proof.
  intros Hinv Hd. destruct (head _ Hinv) as [Hk _]. destruct (known_entry id d Hk) as [e He].
  eexists _, d, []. split; [simpl; unfold checkProcessing; by rewrite He|]. split; [|done].
  pose proof (inv_checkProcessing single (view d) _ a b tr id error (cell_of e) Hinv) as Hstep.
  unfold RegistryEntry.isProcessing. rewrite negb_involutive. apply Hstep. by apply entry_cell.
Qed.

Lemma good_announceDetached id interrupt :
  I (i_announceDetached id interrupt) -> driver_ok d ->
  good o (i_announceDetached id interrupt) a b tr d.
Proof.
  intros Hinv Hd.
  assert (known id (view d)) as Hk
    by (pose proof (head _ Hinv) as Hok; destruct interrupt; [by destruct Hok|done]).
  destruct (known_entry id d Hk) as [e He]. pose proof (entry_cell id d e He) as Hcell.
  destruct (RegistryEntry.d_detachRequired e) eqn:Hreq.
  - eexists _, (set_entry id (RegistryEntry.set_detach false None e) d), []. split; [|split].
    + simpl. unfold announceDetached, RegistryEntry.announceDetached. rewrite He. simpl.
      by rewrite Hreq.
    + change (d_registry (set_entry id (RegistryEntry.set_detach false None e) d))
        with (Registry.update id (fun _ => RegistryEntry.set_detach false None e) (d_registry d)).
      rewrite of_update.
      apply (inv_announceDetached single (view d) _ a b tr id interrupt (cell_of e)); try done;
        destruct interrupt; foralls.
    + by apply driver_set_entry.
  - eexists _, (set_entry id e d), []. split; [|split].
    + simpl. unfold announceDetached, RegistryEntry.announceDetached. rewrite He. simpl.
      by rewrite Hreq.
    + rewrite (view_set_entry id e e d He) by done.
      by apply (inv_announceDetached_not single (view d) _ a b tr id interrupt (cell_of e)).
    + by apply driver_set_entry.
Qed.

Lemma good_dispatchDetached id cb :
  I (i_dispatchDetached id cb) -> driver_ok d -> good o (i_dispatchDetached id cb) a b tr d.
Proof.
  intros Hinv Hd. eexists _, _, _. split; [done|]. split; [|done]. by apply inv_dispatchDetached.
Qed.

(** An entry that is cleared has no request, so that nothing changes that is
    counted. *)
Lemma good_clearEntry id : I (i_clearEntry id) -> driver_ok d -> good o (i_clearEntry id) a b tr d.
Proof.
  intros Hinv Hd. destruct (head _ Hinv) as (Hk & Hg & Hu).
  destruct (known_entry id d Hk) as [e He]. pose proof (entry_cell id d e He) as Hcell.
  pose proof (Hu _ Hcell) as Hreq.
  destruct (cat_cells _ (inv_catalog _ _ _ _ _ Hinv) id _ Hcell) as [_ Hcb].
  specialize (Hcb Hreq). simpl in Hreq, Hcb.
  eapply (good_neutral o (i_clearEntry id) a b tr d); [exact Hinv|done| |done| |done|..]; foralls.
  - unfold set_registry, d_registry at 1. rewrite (of_clear_entry id (d_registry d) e He).
    unfold set_cell, view_of. simpl. f_equal. apply list_insert_id.
    rewrite list_lookup_fmap. unfold entry in He. rewrite He. simpl. unfold cell_of. by rewrite Hreq, Hcb.
  - destruct Hd as [Hc Hctl].
    split; simpl; [|intros c Ec; rewrite closed_clear_entry; by apply Hctl]. unfold Registry.clear_entry.
    unfold entry in He. rewrite He. destruct (RegistryEntry.clear e) as [e' sock].
    destruct sock as [s|]; simpl; rewrite length_alter; [|done].
    intros s' id' Hs'. apply (Hc s'). apply lookup_partial_alter_Some in Hs' as [[_ ?]|[_ ?]]; done.
Qed.

Lemma good_unlock error : I (i_unlock error) -> driver_ok d -> good o (i_unlock error) a b tr d.
Proof.
  intros Hinv Hd. eexists _, _, _. split; [done|]. split; [|done]. simpl.
  by apply (inv_unlock single (view d) (d_mutex d)).
Qed.

Lemma good_decrement id : I (i_decrement id) -> driver_ok d -> good o (i_decrement id) a b tr d.
Proof.
  intros Hinv Hd. destruct (known_entry id d (head _ Hinv)) as [e He].
  eexists _, _, []. split; [simpl; unfold decrement; by rewrite He|]. split.
  - rewrite view_entry_set.
    apply (inv_decrement single (view d) _ a b tr id (cell_of e)); [done|]. by apply entry_cell.
  - by apply driver_set_entry.
Qed.

Lemma good_event h ev r :
  I (i_event h ev r) -> driver_ok d ->
  enabled single exclusive o (i_event h ev r) (a ++ i_event h ev r :: b) d ->
  good o (i_event h ev r) a b tr d.
Proof.
  intros Hinv Hd [Hm [Hroom Hsingle]]. destruct (head _ Hinv) as [Hh Hev].
  pose proof (inv_catalog _ _ _ _ _ Hinv) as Hcat. specialize (Hm eq_refl).
  assert (h <> k_INVALID_HANDLE) as Hne by (unfold k_INVALID_HANDLE, valid_handle in *; lia).
  destruct (mjoin (Registry.d_vector (d_registry d) !! Registry.index h)) as [id|] eqn:Ef.
  - assert (vector (view d) !! Registry.index h = Some (Some id)) as Hidx.
    { simpl. destruct (Registry.d_vector (d_registry d) !! Registry.index h) as [[id'|]|]; try done.
      simpl in Ef. congruence. }
    destruct (known_entry id d (catalog_known _ _ _ Hcat Hidx)) as [e He].
    pose proof (entry_cell id d e He) as Hcell.
    assert (RegistryEntry.d_handle e = h) as Heh.
    { destruct (cat_vector _ Hcat _ id Hidx) as (c & Hc & Hch & _). rewrite Hcell in Hc.
      injection Hc as <-. simpl in Hch. rewrite index_valid in Hch by done. destruct Hh. lia. }
    set (r' := Registry.update id RegistryEntry.incrementProcessCounter (d_registry d)).
    assert (Registry.entries r' !! id = Some (RegistryEntry.incrementProcessCounter e)) as He'.
    { simpl. rewrite list_lookup_alter_eq. unfold entry in He. by rewrite He. }
    assert (view_of r' = set_cell id (counted (wrap 32 (c_counter (cell_of e) + 1)) (cell_of e)) (view d))
      as Hv.
    { change (counted (wrap 32 (c_counter (cell_of e) + 1)) (cell_of e))
        with (cell_of (RegistryEntry.incrementProcessCounter e)).
      unfold r'. rewrite <- of_update. unfold Registry.update. f_equal. f_equal.
      unfold entry in He. by apply list_alter_ext_at. }
    assert (driver_ok (set_registry r' d)) as Hd'.
    { destruct Hd as [Hc Hctl]. split; [|done]. simpl. by rewrite length_alter. }
    assert (forall l, Forall neutral l ->
      Forall (instruction_ok (view_of r')) l ->
      inv single (view_of r') (d_mutex d) (a ++ (l ++ [i_decrement id]) ++ b) (tr ++ [])) as Hstep.
    { intros l Hl Hok. rewrite Hv, Hm in *.
      by apply (inv_event single (view d) a b tr (i_event h ev r) (Registry.index h)). }
    assert (known id (view_of r')) as Hk by (by apply (entry_known id (set_registry r' d) (RegistryEntry.incrementProcessCounter e))).
    assert (exists next, event h ev r d = Some (next ++ [i_decrement id], set_registry r' d, []) /\
      Forall neutral next /\ Forall (instruction_ok (view_of r')) next) as (next & Hx & Hn & Hok).
    { unfold event, Registry.lookupAndMarkProcessingOngoing.
      rewrite (proj2 (Z.eqb_neq ev 0) Hev), (proj2 (Z.eqb_neq _ _) Hne), Ef. simpl. simpl in He'. rewrite He'. simpl.
      rewrite Heh, Z.eqb_refl. destruct (negb (h =? d_controllerDescriptorHandle d)).
      - destruct (announcements h ev r) as [l fatal]. rewrite app_assoc. eexists. split; [done|].
        split; (apply Forall_app; split; [by apply Forall_fmap_intro|case_match; foralls]).
      - eexists [i_controller id ev]. split; [done|]. split; foralls. }
    exists (next ++ [i_decrement id]), (set_registry r' d), []. split; [done|]. split; [|done].
    by apply Hstep.
  - eapply (good_neutral o (i_event h ev r) a b tr d); [exact Hinv| |done|done|done|done|..]; foralls.
    simpl. unfold event, Registry.lookupAndMarkProcessingOngoing.
    by rewrite (proj2 (Z.eqb_neq ev 0) Hev), (proj2 (Z.eqb_neq _ _) Hne), Ef.
Qed.

(** ** Any instruction *)

Theorem execute_good i :
  I i -> driver_ok d -> enabled single exclusive o i (a ++ i :: b) d ->
  (dereferences o i = true -> is_Some (d_controller d)) -> good o i a b tr d.
Proof.
  intros Hinv Hd [Hm He] Hc.
  destruct i; eauto using good_show, good_hide, good_shown, good_hidden, good_announce, good_add,
    good_update, good_delete, good_remove, good_clear, good_closeAll,
    good_closeEntry, good_setContext, good_attached, good_rearm, good_controllerAdded,
    good_controller, good_interruptOne, good_initialize, good_return, good_call,
    good_removeDetached, good_checkProcessing, good_announceDetached, good_dispatchDetached,
    good_clearEntry, good_unlock, good_decrement, good_resetController.
  - destruct He as [Ho Ha]. apply (good_attach _ d0 (fun id => [i_attached id true])); try done.
    + apply (head _ Hinv).
    + intros id. foralls.
    + intros id v Hk. foralls.
  - apply good_detach; auto.
  - by apply good_event.
  - destruct He as [Ho Ha]. apply (good_attach _ d0 (fun id => [i_shown id o0 true true])); try done.
    + apply (head _ Hinv).
    + intros id. foralls.
    + intros id v Hk. foralls.
  - destruct (Hc eq_refl) as [c Ec]. by apply (good_removeController c).
  - destruct He. by apply good_createController.
  - destruct (Hc eq_refl) as [c Ec]. by apply (good_addController c); auto.
Qed.

End Instructions.

End Safety.
End Safety.
