(* ===== verification/EpollReachable.v ===== *)
(** * What holds in every run of a driver

    The invariant of EpollInvariant, lifted to the threads of EpollSystem, and
    the order of events and detachments. *)

From stdpp Require Import gmap.
From S2P Require Import Prelude Errors Interest Registry Epoll EpollSystem EpollFacts EpollInvariant EpollSteps EpollSafety.
#[local] Open Scope Z_scope.

Module Reachable.
Import Epoll System View Invariant Steps Safety.
Section Reachable.
Context `{ReactorTypes} `{EpollOps} (d_config : configuration) (single exclusive : bool).

#[local] Abbreviation inv := (Invariant.inv (exclusive := exclusive)).

#[local] Abbreviation view d := (view_of (d_registry d)).

(** ** A thread announces events while it is counted *)

Definition announces (id : nat) (i : instruction) : Prop :=
  match i with i_announce id' _ | i_call id' _ => id' = id | _ => False end.

Fixpoint ordered (l : list instruction) : Prop :=
  match l with
  | [] => True
  | i :: rest => (forall id, announces id i -> i_decrement id ∈ rest) /\ ordered rest
  end.

Lemma ordered_prepend l k :
  ordered k -> Forall (fun i => forall id, announces id i -> i_decrement id ∈ k) l ->
  ordered (l ++ k).
Proof.
  intros Hk. induction 1 as [|i l Hi _ IH]; [done|]. simpl. split; [|done].
  intros id Hid. apply elem_of_app. right. by apply Hi.
Qed.

Definition dumb (i : instruction) : Prop := forall id, ~ announces id i.

Lemma fmap_dumb {A} (f : A -> instruction) l : (forall x, dumb (f x)) -> Forall dumb (f <$> l).
Proof. intros Hf. by apply Forall_fmap, Forall_true. Qed.

#[local] Ltac dumbs :=
  repeat match goal with
    | |- Forall _ [] => apply List.Forall_nil
    | |- Forall _ (_ :: _) => apply List.Forall_cons; [by intros ? []|]
    | |- Forall _ (_ ++ _) => apply Forall_app; split
    | |- Forall _ (_ <$> _) => apply fmap_dumb; by intros ? ? []
    end.

#[local] Ltac unfold_execute :=
  unfold show, hide, detachSocket, closeAll, clear, event, reinitializeControl, attached, shown,
    hidden, remove, add, update, delete, removeDetached, checkProcessing, announceDetached,
    dispatchDetached, clearEntry, closeEntry, announceEvent, decrement, controllerEvent, rearm,
    interruptOne, removeController, resetController, createController, controllerAdded in *.

#[local] Ltac invert_execute He :=
  repeat first
    [ progress simplify_eq
    | match type of He with
      | mbind _ _ = Some _ =>
          let x := fresh "x" in let Hx := fresh "Hx" in apply bind_Some in He as (x & Hx & He); clear Hx
      | context [match ?x with _ => _ end] => destruct x
      end ].

(** Which effects there are. *)
#[local] Ltac intros_effect :=
  let Hin := fresh in
  intros ? ? Hin; unfold returns in Hin; repeat case_match;
  first [ by apply elem_of_nil in Hin
        | apply list_elem_of_singleton in Hin; simplify_eq; first [done | by intros ? []] ].

(** The instructions that an instruction is replaced by. *)
Inductive replacement (i : instruction) (next : list instruction) : Prop :=
| r_dumb : Forall dumb next -> replacement i next
| r_call id what c : i = i_announce id what -> next = [i_call id c] -> replacement i next
| r_event l id : next = l ++ [i_decrement id] ->
    Forall (fun j => forall id', announces id' j -> id' = id) l -> replacement i next.

Lemma attach_replacement s nx d next d' effects :
  attach s nx d = Some (next, d', effects) -> (forall id, Forall dumb (nx id)) ->
  Forall dumb next /\ effects = [].
Proof.
  unfold attach. intros Ha Hn. apply bind_Some in Ha as ([id r] & _ & [= <- <- <-]).
  split; [|done]. apply Forall_app. split; [destruct s; simpl; dumbs|done].
Qed.

Lemma execute_replacement o i d next d' effects :
  execute d_config o i d = Some (next, d', effects) ->
  replacement i next /\ (forall id c, f_call id c ∈ effects -> announces id i) /\
  (forall id cb, f_detached id cb ∈ effects -> dumb i).
Proof.
  destruct i; simpl; intros He;
    try (unfold attachSocket in He; apply attach_replacement in He as [? ->];
           [split; [by apply r_dumb|split; by intros_effect]|intros; by dumbs]);
    try (unfold addController in He; apply bind_Some in He as (? & _ & He);
         apply attach_replacement in He as [? ->];
           [split; [by apply r_dumb|split; by intros_effect]|intros; by dumbs]);
    unfold_execute; invert_execute He; (split; [|split; by intros_effect]);
    try (apply r_dumb; repeat case_match; by dumbs).
  - rewrite app_assoc. eapply r_event; [done|]. apply Forall_app. split.
    + apply Forall_fmap, Forall_true. by intros ? ? <-.
    + case_match; dumbs.
  - case_match; [by eapply r_call|by apply r_dumb; dumbs].
Qed.

(** ** The controller *)

(** Which instruction leaves no controller, and which ends that. *)
Lemma execute_controller o i d next d' effects :
  execute d_config o i d = Some (next, d', effects) ->
  match i with
  | i_resetController => d_controller d' = None /\ @i_createController _ ∈ next
  | i_createController => is_Some (d_controller d')
  | _ => d_controller d' = d_controller d
  end.
Proof.
  assert (forall s nx d d', attach s nx d = Some (next, d', effects) -> d_controller d' = d_controller d)
    as Ha.
  { intros s nx d0 d1 Hx. unfold attach in Hx. by apply bind_Some in Hx as ([id r] & _ & [= _ <- _]). }
  intros He. destruct i; simpl in He; try (by apply Ha in He);
    try (unfold addController in He; apply bind_Some in He as (? & _ & He); by apply Ha in He);
    unfold_execute; unfold control in He;
    repeat first
      [ progress simplify_eq
      | match type of He with
        | context [epoll_ctl ?op ?h ?e ?k] => destruct (epoll_ctl op h e k)
        | mbind _ _ = Some _ => apply bind_Some in He as (? & _ & He)
        | context [match ?x with _ => _ end] => destruct x
        end ]; try done.
  split; [done|]. by left.
Qed.

(** ** The threads *)

Definition events_end (tr : list effect) : Prop :=
  forall t1 id cb t2 c, tr = t1 ++ f_detached id cb :: t2 -> f_call id c ∉ t2.

Record system_ok (s : state) : Prop := {
  ok_inv : inv single (view (driver s)) (d_mutex (driver s)) (all s) (trace s);
  ok_driver : driver_ok (driver s);
  ok_controller : d_controller (driver s) = None -> @i_createController _ ∈ all s;
  ok_ordered : Forall ordered (threads s);
  ok_events : single = true -> events_end (trace s)
}.

(** The instructions of all threads around the one that is executed. *)
Lemma concat_thread (l r : list (list instruction)) k rest :
  concat (l ++ (k ++ rest) :: r) = concat l ++ k ++ (rest ++ concat r).
Proof. by rewrite concat_app, concat_cons, <- !app_assoc. Qed.

Lemma concat_head (l r : list (list instruction)) i rest :
  concat (l ++ (i :: rest) :: r) = concat l ++ i :: (rest ++ concat r).
Proof. by rewrite concat_app, concat_cons. Qed.

Lemma startable_ok v i : startable i -> neutral i /\ instruction_ok v i.
Proof. by destruct i. Qed.

(** A call adds an instruction that no count sees. *)
Lemma inv_call v m l tr i :
  inv single v m l tr -> neutral i -> instruction_ok v i -> inv single v m (l ++ [i]) tr.
Proof.
  intros [Hcat Hok Hm Hat] Hi Hiok.
  assert (forall f : instruction -> Z, f i = 0 -> sum_with f (l ++ [i]) = sum_with f l) as Hsum
    by (intros f Hf; rewrite sum_snoc; lia).
  constructor; try done.
  - apply Forall_app. split; [done|]. by constructor.
  - rewrite Hsum; [done|]. by destruct i.
  - intros id. destruct (Hat id) as [Hrg Hc Hq Ho Hr Hs Hd Hp Hf].
    destruct (neutral_foreign id i Hi) as (H1 & H2 & H3 & H4 & H5 & H6).
    constructor; rewrite ?Hsum by done; try done. intros cb. by rewrite Hsum.
Qed.

Lemma ordered_execute o i d next d' effects rest :
  execute d_config o i d = Some (next, d', effects) -> ordered (i :: rest) -> ordered (next ++ rest).
Proof.
  intros He [Hi Hrest]. destruct (execute_replacement _ _ _ _ _ _ He) as [[Hd|id what c -> ->|l id -> Hl] _].
  - apply ordered_prepend; [done|]. eapply List.Forall_impl; [|exact Hd]. intros j Hj id Hid.
    by destruct (Hj id).
  - simpl. split; [|done]. intros id' <-. by apply (Hi id).
  - rewrite <- app_assoc. apply ordered_prepend.
    + simpl. split; [by intros ? []|done].
    + eapply List.Forall_impl; [|exact Hl]. intros j Hj id' Hid'. rewrite (Hj id' Hid'). by left.
Qed.

(** An announcement comes from a thread that is counted, so that no detachment
    was announced. *)
Lemma events_end_execute v m a b tr i rest effects :
  single = true -> inv single v m (a ++ i :: b) tr -> ordered (i :: rest) ->
  (forall j, j ∈ rest -> j ∈ b) -> events_end tr ->
  (forall id c, f_call id c ∈ effects -> announces id i) ->
  (forall id cb, f_detached id cb ∈ effects -> dumb i) ->
  events_end (tr ++ effects).
Proof.
  intros Hsg Hinv [Hord _] Hsub Htr Hcalls Hdet t1 id cb t2 c Heq Hin.
  assert (forall t0, tr = t1 ++ f_detached id cb :: t0 -> f_call id c ∈ effects -> False) as Hno.
  { intros t0 Ht Hc. pose proof (Hsub _ (Hord id (Hcalls id c Hc))) as Hdec.
    destruct (inv_at _ _ _ _ _ Hinv id) as [_ _ _ _ _ _ _ _ Hq].
    destruct Hq as (_ & _ & H0'); [done| |].
    - assert (1 <= sum_with (detached id) tr).
      { rewrite <- (b2z_eq_refl id). apply (sum_elem (detached id) tr (f_detached id cb) (detached_weight id)).
        rewrite Ht. apply elem_of_app. right. by left. }
      pose proof (sum_weight (dispatching id) (a ++ i :: b) (dispatching_weight id)). lia.
    - assert (1 <= sum_with (dec id) (a ++ i :: b)); [|lia].
      rewrite <- (b2z_eq_refl id).
      apply (sum_elem (dec id) _ (i_decrement id) (dec_weight id)).
      apply elem_of_app. right. by right. }
  apply app_eq_inv in Heq as [(k & Ht & He)|(k & -> & He)].
  - destruct k as [|f k]; simplify_eq/=.
    + apply (Hdet id cb (list_elem_of_here _ _) id), (Hcalls id c). by right.
    + apply elem_of_app in Hin as [Hin|Hin].
      * by apply (Htr t1 id cb k c).
      * by apply (Hno k).
  - assert (forall f, f ∈ f_detached id cb :: t2 -> f ∈ effects) as Hsub'
      by (intros f Hf; rewrite He; apply elem_of_app; by right).
    apply (Hdet id cb (Hsub' _ (list_elem_of_here _ _)) id), (Hcalls id c), Hsub'. by right.
Qed.

(** A null controller is being replaced. *)
Lemma controller_execute o i d next d' effects (a b : list instruction) :
  execute d_config o i d = Some (next, d', effects) ->
  (d_controller d = None -> @i_createController _ ∈ a ++ i :: b) ->
  d_controller d' = None -> @i_createController _ ∈ a ++ next ++ b.
Proof.
  intros Hx%execute_controller Hc Hn. rewrite !elem_of_app.
  assert (d_controller d' = d_controller d -> i <> i_createController ->
    @i_createController _ ∈ a \/ @i_createController _ ∈ next \/ @i_createController _ ∈ b) as Hsame.
  { intros E Hne. rewrite E in Hn. specialize (Hc Hn). rewrite elem_of_app, elem_of_cons in Hc.
    destruct Hc as [?|[?|?]]; [by left|congruence|by right; right]. }
  destruct i; try (by apply Hsame).
  - right. left. by destruct Hx.
  - destruct Hx as [c Hx]. congruence.
Qed.

Lemma system_ok_step s s' : system_ok s -> step d_config single exclusive s s' -> system_ok s'.
Proof.
  intros [Hinv Hd Hc Hord Hev] Hstep.
  destruct Hstep as [d ts tr i Hi|d l i rest r tr o next d' effects He Hx|d ts tr failed socket k Hs|d l r tr];
    unfold all in *; simpl in *.
  - destruct (startable_ok (view d) i Hi) as [Hn Hok]. constructor; simpl; try done.
    + unfold all. simpl. rewrite concat_app. simpl. by apply inv_call.
    + intros E. unfold all. simpl. rewrite concat_app. apply elem_of_app. left. by apply Hc.
    + apply Forall_app. split; [done|]. constructor; [|done]. by destruct i.
  - rewrite concat_head in Hinv, He, Hc.
    destruct (decide (dereferences o i = true /\ d_controller d = None)) as [[Hder Hnone]|Hder].
    { exfalso. destruct i; simpl in *; try done.
      - unfold controllerEvent in Hx. destruct (has events EPOLLERR); [done|].
        destruct (has events hangup); [|done]. by rewrite Hnone in Hx.
      - unfold interruptOne in Hx. destruct (o_isWaiter o); [done|]. by rewrite Hnone in Hx.
      - unfold removeController in Hx. by rewrite Hnone in Hx.
      - unfold addController in Hx. by rewrite Hnone in Hx. }
    destruct (execute_good d_config single (exclusive := exclusive) o _ _ _ _ i Hinv Hd He) as (n & d2 & e & Hx' & Hinv' & Hd').
    { intros Hdr. destruct (d_controller d); [by eexists|]. by destruct Hder. }
    rewrite Hx in Hx'. injection Hx' as <- <- <-.
    apply Forall_app in Hord as [Hl [Hi Hr]%Forall_cons_iff].
    destruct (execute_replacement _ _ _ _ _ _ Hx) as (_ & Hcalls & Hdet).
    constructor; simpl; try done.
    + unfold all. simpl. by rewrite concat_thread.
    + intros E. unfold all. simpl. rewrite concat_thread. by eapply controller_execute.
    + apply Forall_app. split; [done|]. constructor; [|done]. by eapply ordered_execute.
    + intros Hsg. apply (events_end_execute (view d) (d_mutex d) (concat l) (rest ++ concat r) _ i rest);
        auto. intros j Hj. apply elem_of_app. by left.
  - destruct failed; [|by constructor]. constructor; simpl; try done. destruct Hd as [Hctx Hctl]. split; [done|]. simpl.
    intros c Ec. destruct (Hctl c Ec) as [? Ho]. split; [done|]. simpl in Ho. simpl.
    rewrite elem_of_union, elem_of_singleton. intros [->|?]; [by apply Hs|by apply Ho].
  - rewrite concat_app, concat_cons in Hinv, Hc. simpl in Hinv, Hc.
    apply Forall_app in Hord as [Hl [_ Hr]%Forall_cons_iff]. constructor; simpl; try done.
    + unfold all. simpl. by rewrite concat_app.
    + unfold all. simpl. by rewrite concat_app.
    + by apply Forall_app.
Qed.

(** ** The constructor *)

(** Its thread when it is about to create the controller. *)
Definition constructing (trigger : ReactorEventTrigger.t) (oneShot : bool) (k : EpollSet) : state :=
  mkState (Epoll.init trigger oneShot k) [[@i_createController _]] [].

Lemma system_ok_constructing trigger oneShot k : system_ok (constructing trigger oneShot k).
Proof.
  constructor; simpl; try done.
  - constructor; try done.
    + constructor; simpl; try done. intros p id Hp.
      by destruct (proj1 (lookup_replicate 64 (@None nat) (Some id) p) Hp) as [? _].
    + by constructor.
  - intros _. by left.
  - by constructor.
  - by intros _ [|? ?].
Qed.

Lemma run_first fuel o i rest d tr d' tr' :
  run d_config (S fuel) o (i :: rest) d tr = Some (d', tr') ->
  (needs_mutex i = true -> d_mutex d = false) /\
  exists next d1 effects, execute d_config o i d = Some (next, d1, effects) /\
    run d_config fuel o (next ++ rest) d1 (tr ++ effects) = Some (d', tr').
Proof.
  cbn [run]. destruct (needs_mutex i && d_mutex d) eqn:Em; [done|]. intros Hr. split.
  - intros Hn. rewrite Hn in Em. by destruct (d_mutex d).
  - destruct (execute d_config o i d) as [[[next d1] effects]|]; [|done]. by exists next, d1, effects.
Qed.

(** What follows when the controller has been added. *)
Definition adding (i : instruction) : Prop :=
  match i with
  | i_setContext _ _ | i_controllerAdded _ | i_attached _ false | i_add _ _ false => True
  | _ => False
  end.

Lemma adding_execute o i d next d' effects :
  adding i -> execute d_config o i d = Some (next, d', effects) -> Forall adding next /\ effects = [].
Proof.
  destruct i; simpl; try done; intros Hi He.
  - injection He as <- <- <-. by split.
  - destruct report; [done|]. unfold attached in He. apply bind_Some in He as (e & _ & [= <- <- <-]).
    split; [|done]. by constructor.
  - destruct report; [done|]. unfold add in He.
    destruct (control EPOLL_CTL_ADD handle (events_of interest) d). injection He as <- <- <-. by split.
  - unfold controllerAdded in He. apply bind_Some in He as (e & _ & [= <- <- <-]). split; [|done].
    by constructor.
Qed.

Lemma run_adding fuel o s0 : forall l d d' tr',
  reachable d_config single exclusive s0 (mkState d [l] []) -> Forall adding l ->
  run d_config fuel o l d [] = Some (d', tr') ->
  reachable d_config single exclusive s0 (start d') /\ tr' = [].
Proof.
  assert (forall d, reachable d_config single exclusive s0 (mkState d [[]] []) ->
    reachable d_config single exclusive s0 (start d)) as Hend.
  { intros d Hs. eapply reachable_step; [exact Hs|]. apply (step_end _ _ _ d [] []). }
  induction fuel as [|fuel IH]; intros l d d' tr' Hs Hl Hr.
  { destruct l as [|i rest]; [|done]. injection Hr as <- <-. split; [by apply Hend|done]. }
  destruct l as [|i rest]; [injection Hr as <- <-; split; [by apply Hend|done]|].
  apply Forall_cons_iff in Hl as [Hi Hl].
  destruct (run_first _ _ _ _ _ _ _ _ Hr) as (Hm & next & d1 & effects & Hx & Hr').
  destruct (adding_execute _ _ _ _ _ _ Hi Hx) as [Hn ->].
  apply (IH (next ++ rest) d1); [|by apply Forall_app|done].
  eapply reachable_step; [exact Hs|].
  apply (step_execute _ _ _ d [] i rest [] [] o next d1 []); [|done]. split; [done|]. by destruct i.
Qed.

(** The controller is at its handle, and nothing else is registered. *)
Lemma constructed_reachable trigger oneShot k d :
  constructed d_config trigger oneShot k d ->
  reachable d_config single exclusive (constructing trigger oneShot k) (start d).
Proof.
  intros (o & Hh & Hc). unfold construct in Hc.
  destruct (run d_config 8 o [i_initialize] _ []) as [[d0 tr0]|] eqn:Hr; [|done]. injection Hc as ->.
  destruct (run_first _ _ _ _ _ _ _ _ Hr) as (_ & ? & ? & ? & [= <- <- <-] & Hr1).
  destruct (run_first _ _ _ _ _ _ _ _ Hr1) as (_ & ? & ? & ? & [= <- <- <-] & Hr2).
  set (d1 := set_controller _ _ _) in Hr2.
  destruct (run_first _ _ _ _ _ _ _ _ Hr2) as (Hm & next & d2 & effects & Hx & Hr3).
  assert (reachable d_config single exclusive (constructing trigger oneShot k)
    (mkState d1 [[@i_addController _]] [])) as H1.
  { eapply reachable_step; [apply reachable_refl|].
    apply (step_execute _ _ _ (init trigger oneShot k) [] i_createController [] [] [] o
      [@i_addController _] d1 []); [|done]. split; [done|]. split; [done|]. set_solver. }
  assert (attach (inl (o_controller o)) (fun id => [i_controllerAdded id]) d1 = Some (next, d2, effects))
    as Hattach by exact Hx. unfold attach in Hattach.
  apply bind_Some in Hattach as ([id r] & _ & [= <- <- <-]).
  assert (reachable d_config single exclusive (constructing trigger oneShot k)
    (mkState (set_registry r d1) [[i_setContext (o_controller o) id; i_controllerAdded id]] [])) as H2.
  { eapply reachable_step; [exact H1|].
    refine (step_execute _ _ _ d1 [] i_addController [] [] [] o _ _ [] _ Hx). split; [done|].
    intros c [= <-]. split; [|done]. intros _. unfold vacant.
    destruct (Registry.d_vector (d_registry d1) !! Registry.index (socket_handle (o_controller o)))
      as [x|] eqn:E; [|done]. by apply (lookup_replicate 64 (@None nat) x _) in E as [-> _]. }
  by destruct (run_adding _ _ _ _ _ _ _ H2 ltac:(repeat constructor) Hr3).
Qed.

Lemma reachable_trans s0 s1 s2 :
  reachable d_config single exclusive s0 s1 -> reachable d_config single exclusive s1 s2 ->
  reachable d_config single exclusive s0 s2.
Proof. intros H1. induction 1 as [|s s' _ IH Hs]; [done|]. by eapply reachable_step. Qed.

Lemma reachable_ok trigger oneShot k d s :
  constructed d_config trigger oneShot k d ->
  reachable d_config single exclusive (start d) s -> system_ok s.
Proof.
  intros Hd%constructed_reachable Hs. pose proof (reachable_trans _ _ _ Hd Hs) as Hr. clear - Hr.
  induction Hr as [|s s' _ IH Hstep]; [apply system_ok_constructing|]. by eapply system_ok_step.
Qed.

End Reachable.
End Reachable.
