(* ===== verification/EpollScripts.v ===== *)
(** * Executable runs of a driver

    A run of the threads of a driver as a function of a script, which the
    examples and the witnesses evaluate, and a concrete kernel. *)

From stdpp Require Import gmap.
From S2P Require Import Prelude Errors Interest Registry Epoll EpollSystem EpollFacts EpollInvariant EpollSteps.
#[local] Open Scope Z_scope.

Module Script.
Import Epoll System.
Section Script.
Context `{ReactorTypes} `{EpollOps} (d_config : configuration) (single exclusive : bool).

Definition valid_handle_b (handle : Z) : bool := (0 <=? handle) && (handle <? 2 ^ 31).

Definition vacant_b (handle : Z) (r : Registry.t) : bool :=
  bool_decide (mjoin (Registry.d_vector r !! Registry.index handle) = None).

Definition startable_b (i : instruction) : bool :=
  match i with
  | i_attach s | i_show s _ | i_hide s _ | i_detach s _ => valid_handle_b (Registry.handle_of s)
  | i_event handle events _ => valid_handle_b handle && negb (events =? 0)
  | i_closeAll | i_clear | i_initialize => true
  | _ => false
  end.

Definition addable_b (handle : Z) (r : Registry.t) : bool :=
  (negb exclusive || vacant_b handle r) && (Registry.size r <? 2 ^ 32 - 1).

Definition enabled_b (o : oracle) (i : instruction) (all : list instruction) (d : Epoll.t) : bool :=
  (negb (needs_mutex i) || negb (d_mutex d)) &&
  match i with
  | i_attach s | i_autoAttach s _ =>
      bool_decide (Registry.is_open s (d_registry d)) && addable_b (Registry.handle_of s) (d_registry d)
  | i_detach s _ | i_remove s => bool_decide (Registry.is_open s (d_registry d))
  | i_createController =>
      valid_handle_b (socket_handle (o_controller o)) &&
      bool_decide (Registry.is_open (inl (o_controller o)) (d_registry d))
  | i_addController =>
      match d_controller d with
      | Some c => addable_b (socket_handle c) (d_registry d)
      | None => true
      end
  | i_event _ _ _ =>
      (size all <? 2 ^ 32 - 1) && (negb single || (sum_with polling all =? 0))
  | _ => true
  end.

(** A call, the next instruction of a thread, a socket that is closed and the end
    of a thread. *)
Inductive action : Type :=
| a_call (i : instruction)
| a_run (n : nat) (o : oracle)
| a_close (socket : ReactorSocket)
| a_end (n : nat).

Definition act (a : action) (s : state) : option state :=
  match a with
  | a_call i =>
      if startable_b i then Some (mkState (driver s) (threads s ++ [[i]]) (trace s)) else None
  | a_run n o =>
      match threads s !! n with
      | Some (i :: rest) =>
          if enabled_b o i (all s) (driver s) then
            '(next, d, effects) ← execute d_config o i (driver s);
            Some (mkState d (<[n := next ++ rest]> (threads s)) (trace s ++ effects))
          else None
      | _ => None
      end
  | a_close socket =>
      if bool_decide (d_controller (driver s) = Some socket) then None
      else Some (mkState (set_epoll (d_epoll (driver s))
             (set_registry (Registry.closeHandle true socket (d_registry (driver s))) (driver s)))
             (threads s) (trace s))
  | a_end n =>
      match threads s !! n with
      | Some [] => Some (mkState (driver s) (base.delete n (threads s)) (trace s))
      | _ => None
      end
  end.

Fixpoint play (l : list action) (s : state) : option state :=
  match l with
  | [] => Some s
  | a :: l => s ← act a s; play l s
  end.

Lemma valid_handle_sound h : valid_handle_b h = true -> valid_handle h.
Proof. unfold valid_handle_b, valid_handle. lia. Qed.

Lemma sum_dec_size id (l : list instruction) : sum_with (dec id) l <= size l.
Proof.
  induction l as [|i l IH]; [done|]. rewrite sum_with_cons, size_cons.
  assert (dec id i <= 1); [|lia]. destruct i; simpl; try lia. apply Invariant.b2z_eq_range.
Qed.

Lemma addable_sound h r : addable_b h r = true -> addable exclusive h r.
Proof.
  unfold addable_b, addable. intros [Hv Hs]%andb_true_iff. split; [|lia].
  intros ->. simpl in Hv. by apply bool_decide_eq_true in Hv.
Qed.

Lemma enabled_sound o i all d : enabled_b o i all d = true -> enabled single exclusive o i all d.
Proof.
  unfold enabled_b, enabled. intros [Hm Hi]%andb_true_iff. split.
  - intros Hn. rewrite Hn in Hm. by destruct (d_mutex d).
  - destruct i; try done; try by apply bool_decide_eq_true in Hi.
    + apply andb_true_iff in Hi as [Ho%bool_decide_eq_true Ha]. split; [done|by apply addable_sound].
    + apply andb_true_iff in Hi as [Hs Hp]. split.
      * intros id. pose proof (sum_dec_size id all). lia.
      * intros ->. simpl in Hp. lia.
    + apply andb_true_iff in Hi as [Ho%bool_decide_eq_true Ha]. split; [done|by apply addable_sound].
    + apply andb_true_iff in Hi as [Hh Hv]. split; [by apply valid_handle_sound|].
      by apply bool_decide_eq_true in Hv.
    + intros c Ec. rewrite Ec in Hi. by apply addable_sound.
Qed.

Lemma startable_sound i : startable_b i = true -> startable i.
Proof.
  destruct i; simpl; try done; try apply valid_handle_sound.
  intros [Hh He]%andb_true_iff. split; [by apply valid_handle_sound|]. lia.
Qed.

Lemma act_step a s s' : act a s = Some s' -> step d_config single exclusive s s'.
Proof.
  destruct s as [d ts tr]. destruct a as [i|n o|socket|n]; unfold act; simpl; intros Ha.
  - destruct (startable_b i) eqn:E; [|done]. injection Ha as <-. apply step_call.
    by apply startable_sound.
  - destruct (ts !! n) as [[|i rest]|] eqn:Et; try done.
    destruct (enabled_b o i (all (mkState d ts tr)) d) eqn:Ee; [|done].
    apply bind_Some in Ha as ([[next d'] effects] & Hx & [= <-]).
    rewrite <- (take_drop_middle ts n _ Et) at 1.
    rewrite insert_take_drop by (by eapply lookup_lt_Some).
    apply step_execute with o; [|done]. apply enabled_sound.
    by rewrite (take_drop_middle ts n _ Et).
  - case_bool_decide as Hs; [done|]. injection Ha as <-. by apply (step_close _ _ _ _ _ _ true).
  - destruct (ts !! n) as [[|]|] eqn:Et; try done. injection Ha as <-.
    rewrite <- (take_drop_middle ts n _ Et) at 1. rewrite delete_take_drop. apply step_end.
Qed.

Lemma play_reachable s0 l : forall s s',
  reachable d_config single exclusive s0 s -> play l s = Some s' -> reachable d_config single exclusive s0 s'.
Proof.
  induction l as [|a l IH]; intros s s' Hs Hp; simpl in Hp; [by injection Hp as <-|].
  apply bind_Some in Hp as (s1 & Ha & Hp). apply (IH s1); [|done].
  eapply reachable_step; [done|]. by apply (act_step a).
Qed.

End Script.
End Script.

(** ** A concrete reactor *)

Module Concrete.

(** Sockets are their handles, and a kernel is the events of each descriptor. *)
#[export] Instance types : ReactorTypes := {
  ReactorSocket := Z;
  Strand := unit;
  socket_handle s := s;
  socket_strand _ := None;
  ReactorEventCallback := nat;
  ReactorNotificationCallback := nat;
  SocketDetachedCallback := nat;
  NotificationQueue := unit;
  External := unit
}.

Definition ctl (o : EpollOperation) (h e : Z) (k : gmap Z Z) : gmap Z Z * Errno.t :=
  match o, k !! h with
  | EPOLL_CTL_ADD, None => (<[h := e]> k, Errno.E_ZERO)
  | EPOLL_CTL_ADD, Some _ => (k, Errno.EEXIST)
  | EPOLL_CTL_MOD, Some _ => (<[h := e]> k, Errno.E_ZERO)
  | EPOLL_CTL_DEL, Some _ => (delete h k, Errno.E_ZERO)
  | _, None => (k, Errno.ENOENT)
  end.

#[export] Instance kernel : EpollOps := { EpollSet := gmap Z Z; epoll_ctl := ctl }.

#[export] Program Instance laws : EpollLaws := { watched k := k }.
Next Obligation. intros o h e k k' n. simpl. unfold ctl. repeat case_match; naive_solver. Qed.
Next Obligation. intros o h e k k'. simpl. unfold ctl. repeat case_match; naive_solver. Qed.
Next Obligation. intros o h e k Hn Ho. simpl in *. unfold ctl. rewrite Hn. by destruct o. Qed.
Next Obligation. intros o h e k [x Hx] Ho. simpl in *. unfold ctl. rewrite Hx. by destruct o. Qed.

Definition o : Epoll.oracle := Epoll.mkOracle true Error.e_OK Error.e_OK 0.

Definition silent : Epoll.answers := Epoll.mkAnswers Error.e_OK Error.e_OK (Error.e_OK, tt).

Definition plain : Epoll.configuration := Epoll.mkConfiguration false false.

(** The driver after its constructor, with the controller 0. *)
Definition made (trigger : ReactorEventTrigger.t) (oneShot : bool) : Epoll.t :=
  default (Epoll.init trigger oneShot ∅) (Epoll.construct plain trigger oneShot ∅ o).

Lemma made_constructed trigger oneShot : System.constructed plain trigger oneShot ∅ (made trigger oneShot).
Proof. exists o. split; [by vm_compute|]. by destruct trigger, oneShot; vm_compute. Qed.

Definition begin : System.state := System.start (made ReactorEventTrigger.e_LEVEL false).

End Concrete.
