(* ===== verification/EpollTheorems.v ===== *)
(** * Properties of the driver of a reactor

    What holds of the registry and of detachment in every run of the threads of
    a driver, what an entry announces, and runs in which the driver does
    something else than it means to. *)

From stdpp Require Import gmap.
From S2P Require Import Prelude Errors Interest Registry Epoll EpollSystem EpollFacts EpollInvariant EpollSteps EpollSafety EpollReachable EpollScripts.
#[local] Open Scope Z_scope.

Module EpollTheorems.
Import Epoll System.

(** ** What an entry announces *)

Section Announcing.
Context `{ReactorTypes}.

(** The interest in what is announced, and its flag. *)
Definition wants (what : announcement) (e : RegistryEntry.t) : bool :=
  match what with
  | a_readable _ => RegistryEntry.wantReadable e
  | a_writable _ => RegistryEntry.wantWritable e
  | a_error _ => RegistryEntry.wantError e
  | a_notifications _ => RegistryEntry.wantNotifications e
  end.

Definition flag (what : announcement) : Z :=
  match what with
  | a_readable _ => Interest.e_READABLE
  | a_writable _ => Interest.e_WRITABLE
  | a_error _ => Interest.e_ERROR
  | a_notifications _ => Interest.e_NOTIFICATION
  end.

Definition first {A} (x y : option A) : option A := match x with Some _ => x | None => y end.

(** The callback for what is announced, when there is no socket: an error goes
    to the first of three. *)
Definition callback_of (what : announcement) (e : RegistryEntry.t) : option call :=
  let redirect c type event :=
    c_callback c (ReactorEvent.mk (RegistryEntry.d_handle e) type (ReactorEvent.d_error event)) in
  match what with
  | a_readable event =>
      (fun c => c_callback c event) <$> RegistryEntry.d_readableCallback e
  | a_writable event =>
      (fun c => c_callback c event) <$> RegistryEntry.d_writableCallback e
  | a_error event =>
      first ((fun c => c_callback c event) <$> RegistryEntry.d_errorCallback e)
        (first ((fun c => redirect c ReactorEvent.e_READABLE event) <$>
                  RegistryEntry.d_readableCallback e)
               ((fun c => redirect c ReactorEvent.e_WRITABLE event) <$>
                  RegistryEntry.d_writableCallback e))
  | a_notifications queue =>
      (fun c => c_notify c queue) <$> RegistryEntry.d_notificationCallback e
  end.

Definition one_shot_of (what : announcement) (e : RegistryEntry.t) : bool :=
  match what with a_notifications _ => false | _ => RegistryEntry.oneShot e end.

(** The call that announces an event. *)
Definition call_of (what : announcement) (e : RegistryEntry.t) : option call :=
  match RegistryEntry.d_reactorSocket e with
  | Some socket => Some (dispatch socket what (RegistryEntry.d_reactorSocketStrand e))
  | None => callback_of what e
  end.

Lemma wants_has what e : wants what e = Interest.has (flag what) (RegistryEntry.d_interest e).
Proof. by destruct what. Qed.

Lemma announce_cases what e :
  exists e', announce what e = (if wants what e then (e', true, call_of what e) else (e, false, None)) /\
    (wants what e = true -> RegistryEntry.d_interest e' =
      if one_shot_of what e then Interest.unset (flag what) (RegistryEntry.d_interest e)
      else RegistryEntry.d_interest e) /\
    RegistryEntry.d_reactorSocket e' = RegistryEntry.d_reactorSocket e.
Proof.
  unfold call_of. destruct (wants what e) eqn:Ew;
    [|exists e; split; [|done]]; destruct what; simpl in *;
    unfold RegistryEntry.announceReadable, RegistryEntry.announceWritable,
      RegistryEntry.announceError, RegistryEntry.announceNotifications; rewrite Ew;
    destruct (RegistryEntry.d_reactorSocket e) eqn:Es; try done;
    try destruct (RegistryEntry.oneShot e); try (destruct (RegistryEntry.d_errorCallback e),
      (RegistryEntry.d_readableCallback e), (RegistryEntry.d_writableCallback e));
    (eexists; split; [reflexivity|by split]).
Qed.

Lemma unset_flag w w' i :
  Interest.has (flag w') (Interest.unset (flag w) i) =
    Interest.has (flag w') i && negb (flag w' =? flag w).
Proof.
  assert (forall b b', 0 <= b -> 0 <= b' < 32 ->
    Interest.has (2 ^ b') (Interest.unset (2 ^ b) i) = Interest.has (2 ^ b') i && negb (2 ^ b' =? 2 ^ b))
    as Hb.
  { intros b b' Hb Hb'. rewrite InterestTheorems.flag_unset by lia. rewrite andb_comm. f_equal. f_equal.
    destruct (Z.eqb_spec b b') as [->|Hne]; [by rewrite Z.eqb_refl|].
    symmetry. apply Z.eqb_neq. intros Heq. apply Z.pow_inj_r in Heq; lia. }
  assert (forall w, exists b, 0 <= b < 32 /\ flag w = 2 ^ b) as Hflag.
  { intros []; [by exists 0|by exists 1|by exists 2|by exists 5]. }
  destruct (Hflag w) as (b & ? & ->), (Hflag w') as (b' & ? & ->). apply Hb; lia.
Qed.

(** What is shown is wanted, whatever the options. *)
Lemma shown_wanted o i :
  Interest.wantReadable (Interest.apply_options o (Interest.showReadable i)) = true /\
  Interest.wantWritable (Interest.apply_options o (Interest.showWritable i)) = true /\
  Interest.wantError (Interest.apply_options o (Interest.showError i)) = true.
Proof.
  assert (forall j, Interest.view (Interest.apply_options o j) =
    InterestTheorems.spec (InterestTheorems.op_options o) (Interest.view j)) as Ho
    by (intros j; apply (InterestTheorems.operation_spec (InterestTheorems.op_options o) j)).
  pose proof (Ho (Interest.showReadable i)) as Hr. pose proof (Ho (Interest.showWritable i)) as Hw.
  pose proof (Ho (Interest.showError i)) as He.
  destruct (InterestTheorems.operation_spec (InterestTheorems.op_readable true) i) as [Er _].
  destruct (InterestTheorems.operation_spec (InterestTheorems.op_writable true) i) as [Ew _].
  destruct (InterestTheorems.operation_spec (InterestTheorems.op_error true) i) as [Ee _].
  simpl in Er, Ew, Ee. rewrite Er in Hr. rewrite Ew in Hw. rewrite Ee in He.
  unfold Interest.view in Hr, Hw, He. simpl in Hr, Hw, He. by simplify_eq.
Qed.

(** C30: An entry announces what it is interested in and nothing else: the call
    goes to its socket, on the strand of the socket, or to the callback of the
    event, an error without a callback to those of the two directions. In
    one-shot mode an event other than a notification is not announced again
    until it is shown again, and nothing else of the entry's interest, counter
    or request changes. *)
Theorem announcement_follows_interest (what : announcement) (e e' : RegistryEntry.t)
  (process : bool) (c : option call) :
  announce what e = (e', process, c) ->
  process = wants what e /\
  (process = true ->
     c = match RegistryEntry.d_reactorSocket e with
         | Some socket => Some (dispatch socket what (RegistryEntry.d_reactorSocketStrand e))
         | None => callback_of what e
         end) /\
  (process = false -> c = None /\ e' = e) /\
  (forall what', wants what' e' =
     wants what' e && negb (process && one_shot_of what e && (flag what' =? flag what))) /\
  (forall options, process = true ->
     wants (a_readable ReactorEvent.init) (RegistryEntry.showReadable options e') = true /\
     wants (a_writable ReactorEvent.init) (RegistryEntry.showWritable options e') = true /\
     wants (a_error ReactorEvent.init) (RegistryEntry.showError options e') = true) /\
  View.cell_of e' = View.cell_of e /\ RegistryEntry.d_reactorSocket e' = RegistryEntry.d_reactorSocket e.
Proof.
  intros He. pose proof (View.cell_announce what e) as Hcell. rewrite He in Hcell. simpl in Hcell.
  destruct (announce_cases what e) as (e1 & Ha & Hi & Hs). rewrite Ha in He.
  destruct (wants what e) eqn:Ew; injection He as <- <- <-.
  - specialize (Hi eq_refl). split; [done|]. split; [done|]. split; [done|]. split; [|split; [|by split]].
    + intros what'. rewrite !wants_has, Hi. destruct (one_shot_of what e); simpl;
        [apply unset_flag|by rewrite andb_true_r].
    + intros o _. apply (shown_wanted o).
  - repeat split; try done. intros what'. by rewrite andb_true_r.
Qed.

End Announcing.

(** ** Every run of the threads *)

(** The entries of a vector that refers to none twice. *)
Lemma NoDup_registered (v : list (option nat)) :
  (forall p q id, v !! p = Some (Some id) -> v !! q = Some (Some id) -> p = q) -> NoDup (omap id v).
Proof.
  induction v as [|x v IH]; intros Hv; [by constructor|].
  assert (NoDup (omap id v)) as Hn.
  { apply IH. intros p q i Hp Hq. assert (S p = S q) by (by apply (Hv _ _ i)). lia. }
  destruct x as [i|]; [|done]. simpl. constructor; [|done].
  intros (y & Hy & Hi)%list_elem_of_omap. simpl in Hi. subst y.
  apply list_elem_of_lookup in Hy as [p Hp]. by assert (0%nat = S p) by (by apply (Hv _ _ i)).
Qed.

Lemma pending_cases `{ReactorTypes} `{EpollOps} id callback (d : Epoll.t) :
  let p := Invariant.pending_of id callback (View.view_of (d_registry d)) in
  p = 0 \/ p = 1 /\ exists e, entry id d = Some e /\ RegistryEntry.d_detachRequired e = true /\
    RegistryEntry.d_detachCallback e = Some callback.
Proof.
  simpl. unfold Invariant.pending_of. simpl. rewrite list_lookup_fmap. fold (entry id d).
  destruct (entry id d) as [e|]; simpl; [|by left].
  destruct (RegistryEntry.d_detachRequired e) eqn:Er; simpl; [|by left].
  case_bool_decide; [right|by left]. split; [done|]. by exists e.
Qed.

Section Runs.
Context `{ReactorTypes} `{EpollOps} (d_config : configuration) (single exclusive : bool).
Context (trigger : ReactorEventTrigger.t) (oneShot : bool) (k : EpollSet) (d0 : Epoll.t).
Context (Hd0 : constructed d_config trigger oneShot k d0).

#[local] Abbreviation reaches s := (reachable d_config single exclusive (start d0) s).

(** C31: Whatever the threads have done since the constructor, the next
    instruction of each succeeds: no assertion of the driver, of the registry or
    of an entry fails and nothing is looked up that does not exist. The exception
    is an instruction that uses the controller while it is null, which happens
    only while some thread that replaces the controller has still to create the
    new one. Descriptors may be attached twice, and sockets closed, but not a
    socket that a thread is about to attach, to detach or to remove; fewer than
    2^32 - 1 descriptors are counted and as many threads process events of an
    entry. *)
Theorem driver_never_fails (s : state) (l r : list (list instruction)) (i : instruction)
  (rest : list instruction) (o : oracle) :
  reaches s -> threads s = l ++ (i :: rest) :: r ->
  enabled single exclusive o i (all s) (driver s) ->
  is_Some (execute d_config o i (driver s)) \/
  dereferences o i = true /\ d_controller (driver s) = None /\ @i_createController _ ∈ all s.
Proof.
  intros Hs Ht He. destruct (Reachable.reachable_ok _ _ _ _ _ _ _ _ Hd0 Hs) as [Hinv Hd Hc _ _].
  destruct (decide (dereferences o i = true /\ d_controller (driver s) = None)) as [[Hder Hn]|Hder];
    [right; split_and!; auto|left].
  destruct s as [d ts tr]. simpl in *. subst ts. unfold all in *. simpl in *.
  rewrite Reachable.concat_head in *.
  destruct (Safety.execute_good d_config single (exclusive := exclusive) o _ _ _ _ i Hinv Hd He)
    as (next & d' & e & Hx & _).
  - intros Hdr. destruct (d_controller d); [by eexists|]. by destruct Hder.
  - by eexists.
Qed.

(** C32: In every run the catalog refers to each entry at the index of its
    handle, once, and its size is at least the number of its entries, and exactly
    this when descriptors are attached only while nothing is registered for their
    handle; the counter of an entry is the number of threads that process its
    events; and the mutex is held by one thread. *)
Theorem registry_is_consistent (s : state) :
  reaches s ->
  let r := d_registry (driver s) in
  (forall p id, Registry.d_vector r !! p = Some (Some id) ->
     exists e, Registry.entries r !! id = Some e /\ RegistryEntry.d_handle e = Z.of_nat p) /\
  NoDup (Registry.forEach r) /\ size (Registry.forEach r) <= Registry.size r < 2 ^ 32 /\
  (exclusive = true -> Registry.size r = size (Registry.forEach r)) /\
  (forall id e, Registry.entries r !! id = Some e ->
     RegistryEntry.d_processCounter e = sum_with (dec id) (all s)) /\
  sum_with Invariant.locks (all s) = Z.b2z (d_mutex (driver s)).
Proof.
  intros Hs r. destruct (Reachable.reachable_ok _ _ _ _ _ _ _ _ Hd0 Hs) as [Hinv Hd _ _ _].
  pose proof (Invariant.inv_catalog _ _ _ _ _ Hinv) as Hcat. split_and!.
  - intros p id Hp. destruct (Invariant.cat_vector _ Hcat p id Hp) as (c & Hc & Hh & _).
    simpl in Hc. rewrite list_lookup_fmap in Hc. apply fmap_Some in Hc as (e & He & ->). by exists e.
  - apply NoDup_registered. intros p q id Hp Hq. by apply (Invariant.catalog_unique _ p q id Hcat).
  - apply (Invariant.cat_count _ Hcat).
  - apply (Invariant.cat_count _ Hcat).
  - apply (Invariant.cat_exact _ Hcat).
  - intros id e He. destruct (Invariant.inv_at _ _ _ _ _ Hinv id) as [_ Hc _ _ _ _ _ _ _].
    apply (Hc (View.cell_of e)). by apply View.lookup_cell.
  - apply (Invariant.inv_mutex _ _ _ _ _ Hinv).
Qed.

(** C33: Each entry is detached at most once. The callback of the request is
    dispatched at most once, and never without a request; while it is not
    dispatched the entry holds the request or a thread is about to dispatch it;
    an entry holds a request only as long as some thread processes its events
    or will look at it; and when no thread is left, each request has been
    dispatched. *)
Theorem detachment_announced_once (s : state) (id : nat) (callback : SocketDetachedCallback) :
  reaches s ->
  let requests := sum_with (Invariant.required_of id callback) (trace s) in
  let dispatched := sum_with (Invariant.detached_of id callback) (trace s) in
  sum_with (Invariant.required id) (trace s) <= 1 /\ 0 <= dispatched <= requests /\
  (dispatched < requests ->
     (exists e, entry id (driver s) = Some e /\ RegistryEntry.d_detachRequired e = true /\
        RegistryEntry.d_detachCallback e = Some callback) \/
     i_dispatchDetached id (Some callback) ∈ all s) /\
  (forall e, entry id (driver s) = Some e -> RegistryEntry.d_detachRequired e = true ->
     0 < sum_with (dec id) (all s) + sum_with (Invariant.responsible id) (all s)) /\
  (all s = [] -> dispatched = requests).
Proof.
  intros Hs requests dispatched.
  destruct (Reachable.reachable_ok _ _ _ _ _ _ _ _ Hd0 Hs) as [Hinv Hd _ _ _].
  destruct (Invariant.inv_at _ _ _ _ _ Hinv id) as [_ _ _ Ho Hr Hc _ _ _].
  specialize (Hc callback). fold requests in Hc. fold dispatched in Hc.
  pose proof (Invariant.sum_weight _ (trace s) (Invariant.detached_of_weight id callback)) as Hn.
  fold dispatched in Hn.
  pose proof (Invariant.sum_weight _ (all s) (Invariant.dispatching_of_weight id callback)) as Hx.
  pose proof (pending_cases id callback (driver s)) as Hp.
  split; [done|]. split; [destruct Hp; lia|]. split; [|split].
  - intros Hlt. destruct Hp as [Hp|[_ He]]; [right|by left].
    destruct (Invariant.sum_positive (Invariant.dispatching_of id callback) (all s))
      as (i & Hi & Hne); [lia|].
    destruct i; simpl in Hne; try done. unfold b2z_eq in Hne. case_bool_decide as E; [|done].
    injection E as -> <-. done.
  - intros e He Hreq. apply (Hr (View.cell_of e)); [|done]. by apply View.lookup_cell.
  - intros Hall. rewrite Hall, sum_with_nil in Hc. destruct Hp as [Hp|[Hp (e & He & Hreq & _)]].
    + lia.
    + specialize (Hr (View.cell_of e)). rewrite Hall, !sum_with_nil in Hr.
      assert (0 < 0) by (apply Hr; [by apply View.lookup_cell|done]). lia.
Qed.

End Runs.

Section SinglePoller.
Context `{ReactorTypes} `{EpollOps} (d_config : configuration) (exclusive : bool).
Context (trigger : ReactorEventTrigger.t) (oneShot : bool) (k : EpollSet) (d0 : Epoll.t).
Context (Hd0 : constructed d_config trigger oneShot k d0).

(** C34: When one thread polls, no event of an entry is announced after its
    detachment was, whatever other threads attach, show, hide and detach. *)
Theorem no_event_after_detachment (s : state) (id : nat) (callback : SocketDetachedCallback)
  (before after : list effect) (c : call) :
  reachable d_config true exclusive (start d0) s ->
  trace s = before ++ f_detached id callback :: after -> f_call id c ∉ after.
Proof.
  intros Hs Ht. destruct (Reachable.reachable_ok _ _ _ _ _ _ _ _ Hd0 Hs) as [_ _ _ _ Hev].
  by apply (Hev eq_refl before id callback).
Qed.

End SinglePoller.

(** ** Runs *)

Section Scripts.
Import Concrete Script.

Definition handle : Registry.descriptor := inr 5.
Definition socket : Registry.descriptor := inl 5.
Definition watch : operation := op_showReadableCallback ReactorEventOptions.init (Some 7%nat).
Definition readable : instruction := i_event 5 EPOLLIN silent.

Definition next (n : nat) : action := a_run n o.

(** A descriptor is attached and shown; then a thread processes an event of it
    while it is detached. *)
Definition setup : list action :=
  [a_call (i_attach handle); next 0; next 0; next 0; a_end 0;
   a_call (i_show handle watch); next 0; next 0; next 0; a_end 0].

Definition detaching : list action :=
  setup ++ [a_call readable; next 0; a_call (i_detach handle (Some 9%nat)); next 1; next 1; next 1;
    next 1; next 0; next 0; next 0; next 0; next 0; next 0; a_end 1; a_end 0].

(** The state after a script. *)
Definition after (single exclusive : bool) (l : list action) : state :=
  match play plain single exclusive l begin with Some s => s | None => begin end.

Lemma script_reachable single exclusive l :
  bool_decide (is_Some (play plain single exclusive l begin)) = true ->
  reachable plain single exclusive begin (after single exclusive l).
Proof.
  unfold after. intros [s E]%bool_decide_eq_true. rewrite E.
  by apply (play_reachable plain single exclusive begin l begin); [apply reachable_refl|].
Qed.

(** The event that is announced in this run. *)
Definition announced : call :=
  c_callback 7%nat (ReactorEvent.mk 5 ReactorEvent.e_READABLE Error.e_OK).

(** The descriptor is then attached and shown again, and has another event. *)
Definition reattaching : list action :=
  detaching ++ setup ++ [a_call readable; next 0; next 0; next 0; next 0; next 0; a_end 0].

Definition before_detached : list effect :=
  [f_return Error.e_OK; f_return Error.e_OK; f_require 1 (Some 9%nat); f_return Error.e_OK;
   f_call 1 announced].

Definition after_detached : list effect :=
  [f_return Error.e_OK; f_return Error.e_OK; f_call 2 announced].

Lemma detaching_trace :
  trace (after true true detaching) = before_detached ++ [f_detached 1 9%nat].
Proof. by vm_compute. Qed.

(** An entry for a descriptor of which errors and writability are wanted. *)
Definition errorless : RegistryEntry.t :=
  RegistryEntry.mk (H := types) 5 (Interest.mk 21) None None None (Some 7%nat) None None None
    true 0 false None.

(** How its error is announced. *)
Definition hangup : call :=
  c_callback 7%nat (ReactorEvent.mk 5 ReactorEvent.e_WRITABLE Error.e_EOF).

Lemma announcement_follows_interest_witness :
  let e := errorless in
  let event := ReactorEvent.mk 5 ReactorEvent.e_ERROR Error.e_EOF in
  let e' := RegistryEntry.set_interest Interest.hideError e in
  announce (a_error event) e =
    (e', true, Some hangup) /\
  wants (a_error event) e' = false /\
  wants (a_error ReactorEvent.init) (RegistryEntry.showError ReactorEventOptions.init e') = true.
Proof.
  intros e event e'. split; [reflexivity|].
  destruct (announcement_follows_interest (a_error event) e e' true
    (Some hangup))
    as (_ & _ & _ & Hw & Hs & _); [reflexivity|]. split.
  - exact (Hw (a_error event)).
  - apply (Hs ReactorEventOptions.init). reflexivity.
Defined.

Lemma driver_never_fails_witness :
  is_Some (execute plain o (i_show handle watch) (driver (after true true
    (setup ++ [a_call (i_show handle watch)])))).
Proof.
  destruct (driver_never_fails plain true true ReactorEventTrigger.e_LEVEL false ∅ _
    (made_constructed _ _) (after true true (setup ++ [a_call (i_show handle watch)])) [] []
    (i_show handle watch) [] o) as [Hx|[Hx _]].
  - apply script_reachable. by vm_compute.
  - by vm_compute.
  - apply enabled_sound. by vm_compute.
  - exact Hx.
  - discriminate Hx.
Defined.

(** Two threads that attach a handle at the same time: it is counted twice. *)
Definition attaching_twice : list action :=
  [a_call (i_attach handle); a_call (i_attach handle); next 0; next 1; next 0; next 1; next 0; next 1].

Lemma registry_is_consistent_witness :
  (Registry.size (d_registry (driver (after true true setup))) = 2 /\
   size (Registry.forEach (d_registry (driver (after true true setup)))) = 2) /\
  size (Registry.forEach (d_registry (driver (after true false attaching_twice)))) <=
    Registry.size (d_registry (driver (after true false attaching_twice))) < 2 ^ 32.
Proof.
  split.
  - destruct (registry_is_consistent plain true true ReactorEventTrigger.e_LEVEL false ∅ _
      (made_constructed _ _) (after true true setup))
      as (_ & _ & _ & Hsize & _); [apply script_reachable; by vm_compute|].
    rewrite <- (Hsize eq_refl). by vm_compute.
  - destruct (registry_is_consistent plain true false ReactorEventTrigger.e_LEVEL false ∅ _
      (made_constructed _ _) (after true false attaching_twice))
      as (_ & _ & Hsize & _); [apply script_reachable; by vm_compute|]. exact Hsize.
Defined.

Lemma detachment_announced_once_witness :
  sum_with (Invariant.detached_of 1 9%nat) (trace (after true true detaching)) = 1.
Proof.
  destruct (detachment_announced_once plain true true ReactorEventTrigger.e_LEVEL false ∅
    _ (made_constructed _ _) (after true true detaching) 1 9%nat) as (_ & _ & _ & _ & Hdone);
    [apply script_reachable; by vm_compute|].
  rewrite Hdone; by vm_compute.
Defined.

Lemma no_event_after_detachment_witness :
  trace (after true true reattaching) = before_detached ++ f_detached 1 9%nat :: after_detached /\
  f_call 1 announced ∈ before_detached /\ f_call 2 announced ∈ after_detached /\
  ~ exists c, f_call 1 c ∈ after_detached.
Proof.
  split; [by vm_compute|]. split; [unfold before_detached; set_solver|].
  split; [unfold after_detached; set_solver|]. intros [c Hc].
  refine (no_event_after_detachment plain true ReactorEventTrigger.e_LEVEL false ∅ _ (made_constructed _ _)
    (after true true reattaching) 1%nat 9%nat before_detached after_detached c _ _ Hc).
  - apply script_reachable. by vm_compute.
  - by vm_compute.
Defined.

(** ** What the driver does not mean to do *)

(** With two threads that poll, the first finds its counter at zero, the second
    begins to process an event and the descriptor is detached; the first then
    announces the detachment and the second the event. *)
Definition overlapping : list action :=
  setup ++ [a_call readable; next 0; next 0; next 0; next 0; a_call readable; next 1;
    a_call (i_detach handle (Some 9%nat)); next 2; next 2; next 2; next 2; next 0; next 0; next 1; next 1].

Lemma event_after_detachment :
  reachable plain false true begin (after false true overlapping) /\
  drop 5 (trace (after false true overlapping)) = [f_detached 1 9%nat; f_call 1 announced].
Proof. split; [apply script_reachable|]; by vm_compute. Qed.

(** The thread that announced a detachment resets the context of the socket,
    which its callback may have attached again: the socket is registered and
    can no longer be shown. *)
Definition attaching_again : list action :=
  [a_call (i_attach socket); next 0; next 0; next 0; next 0; a_end 0;
   a_call readable; next 0; a_call (i_detach socket (Some 9%nat)); next 1; next 1; next 1; next 1;
   next 0; next 0; next 0; next 0; a_end 1;
   a_call (i_attach socket); next 1; next 1; next 1; next 1; a_end 1; next 0; a_end 0;
   a_call (i_show socket (op_showReadable ReactorEventOptions.init)); next 0].

Lemma context_reset_after_attach :
  reachable plain false true begin (after false true attaching_again) /\
  drop 3 (trace (after false true attaching_again)) =
    [f_detached 1 9%nat; f_return Error.e_OK; f_return Error.e_INVALID] /\
  numSockets (driver (after false true attaching_again)) = 1 /\
  Registry.forEach (d_registry (driver (after false true attaching_again))) = [0%nat; 2%nat].
Proof. split; [apply script_reachable|repeat split]; by vm_compute. Qed.

(** Two threads that show different events of a descriptor may tell the kernel
    in the other order: the entry wants both, and one is polled. *)
Definition crossing : list action :=
  [a_call (i_attach handle); next 0; next 0; next 0; a_end 0;
   a_call (i_show handle (op_showReadable ReactorEventOptions.init)); next 0; next 0;
   a_call (i_show handle (op_showWritable ReactorEventOptions.init)); next 1; next 1; next 1; next 0].

Lemma update_is_overtaken :
  reachable plain true true begin (after true true crossing) /\
  (e ← entry 1 (driver (after true true crossing)); Some (RegistryEntry.wantWritable e)) = Some true /\
  d_epoll (driver (after true true crossing)) !! 5 = Some EPOLLIN.
Proof. split; [apply script_reachable|repeat split]; by vm_compute. Qed.

(** The controller is interrupted under the mutex of the catalog; if that
    fails, the controller is replaced, which waits for the same mutex. *)
Definition failing : oracle := mkOracle false Error.e_INVALID Error.e_OK 6.

Definition interrupting : list action :=
  [a_call (i_attach handle); next 0; next 0; next 0; a_end 0;
   a_call (i_detach handle None); next 0; next 0; next 0; next 0; next 0; next 0; a_run 0 failing; next 0].

Lemma interruption_deadlocks :
  reachable plain true true begin (after true true interrupting) /\
  d_mutex (driver (after true true interrupting)) = true /\
  threads (after true true interrupting) =
    [[@i_removeController _; @i_resetController _; i_unlock Error.e_OK]] /\
  forall o', ~ enabled true true o' i_removeController (all (after true true interrupting))
    (driver (after true true interrupting)).
Proof.
  split; [apply script_reachable; by vm_compute|]. do 2 (split; [by vm_compute|]).
  intros o' [Hm _]. specialize (Hm eq_refl). by vm_compute in Hm.
Qed.

(** The thread that waits replaces the controller because of an error, while
    another detaches a descriptor and interrupts it: the controller is null. *)
Definition replacing : list action :=
  setup ++ [a_call (i_event 0 EPOLLERR silent); next 0; next 0; next 0; next 0; next 0; next 0; next 0;
    a_call (i_detach handle None); next 1; next 1; next 1; next 1; next 1; next 1].

Definition other : oracle := mkOracle false Error.e_OK Error.e_OK 6.

Lemma controller_is_null :
  reachable plain true true begin (after true true replacing) /\
  threads (after true true replacing) =
    [[@i_createController _; i_decrement 0]; [@i_interruptOne _; i_unlock Error.e_OK]] /\
  execute plain other i_interruptOne (driver (after true true replacing)) = None.
Proof. split; [apply script_reachable|split]; by vm_compute. Qed.

(** A socket whose connection failed has no handle any more: it can be neither
    attached nor detached. *)
Definition closing : list action :=
  [a_call (i_attach socket); next 0; next 0; next 0; next 0; a_end 0; a_close 5;
   a_call (i_detach socket None)].

Lemma closed_socket_is_not_detached :
  reachable plain true true begin (after true true closing) /\
  execute plain o (i_detach socket None) (driver (after true true closing)) = None.
Proof. split; [apply script_reachable|]; by vm_compute. Qed.

(** When the kernel refuses a descriptor, the caller gets an error and the
    descriptor is registered. *)
Lemma refused_descriptor_is_registered :
  (fun p => (p.2, Registry.size (d_registry p.1))) <$>
    run plain 3 o [i_attach handle] (init ReactorEventTrigger.e_LEVEL false {[5 := 1]}) [] =
  Some ([f_return Error.e_INVALID], 1).
Proof. by vm_compute. Qed.

(** A descriptor that is attached twice is counted twice and has one entry. *)
Lemma attached_twice :
  (fun p => (Registry.size (d_registry p.1), Registry.forEach (d_registry p.1))) <$>
    run plain 6 o [i_attach handle; i_attach handle] (init ReactorEventTrigger.e_LEVEL false ∅) [] =
  Some (2, [1%nat]).
Proof. by vm_compute. Qed.

(** Hiding the notifications of a handle leaves their callback. *)
Lemma notification_callback_remains :
  (fun p => RegistryEntry.d_notificationCallback <$> entry 0 p.1) <$>
    run plain 20 o [i_attach handle; i_show handle (op_showNotificationsCallback (Some 8%nat));
      i_hide handle op_hideNotifications; i_detach handle None]
      (init ReactorEventTrigger.e_LEVEL false ∅) [] =
  Some (Some (Some 8%nat)).
Proof. by vm_compute. Qed.

End Scripts.

End EpollTheorems.
