(* ===== verification/EpollRegistrations.v ===== *)
(** * What a driver promises to one caller

    The specification of the calls of a driver: a map from handles to the
    socket and the interest that is registered for each, and what a call does
    to it. Here is the relation between such a map and a registry, and that the
    operations of the registry preserve it. *)

From stdpp Require Import gmap.
From S2P Require Import Prelude Errors Interest Registry Epoll EpollSystem EpollFacts EpollInvariant EpollSteps EpollSafety.
#[local] Open Scope Z_scope.

Module Registrations.
Import Epoll System View Invariant.
Section Registrations.
Context `{ReactorTypes} `{EpollOps} (d_config : configuration)
  (trigger : ReactorEventTrigger.t) (oneShot : bool).

(** ** The specification *)

Record registration : Type := mkRegistration {
  a_socket : option ReactorSocket;
  a_interest : Interest.t
}.

#[local] Abbreviation registrations := (gmap Z registration).

(** No descriptor is registered twice. *)
#[local] Abbreviation catalog := (Invariant.catalog (exclusive := true)).

Definition socket_of (s : Registry.descriptor) : option ReactorSocket :=
  match s with inl socket => Some socket | inr _ => None end.

Definition attached_as (s : Registry.descriptor) : registration :=
  mkRegistration (socket_of s) (Interest.make trigger oneShot).

(** Errors cannot be hidden, and options come with what is shown. *)
Definition change (op : operation) (i : Interest.t) : Interest.t :=
  match op with
  | op_showReadable options | op_showReadableCallback options _ =>
      Interest.apply_options options (Interest.showReadable i)
  | op_showWritable options | op_showWritableCallback options _ =>
      Interest.apply_options options (Interest.showWritable i)
  | op_showError options | op_showErrorCallback options _ =>
      Interest.apply_options options (Interest.showError i)
  | op_showNotifications | op_showNotificationsCallback _ => Interest.showNotifications i
  | op_hideReadable | op_hideReadableCallback => Interest.hideReadable i
  | op_hideWritable | op_hideWritableCallback => Interest.hideWritable i
  | op_hideError | op_hideErrorCallback => i
  | op_hideNotifications => Interest.hideNotifications i
  end.

Definition changed (op : operation) (g : registration) : registration :=
  mkRegistration (a_socket g) (change op (a_interest g)).

(** What a call does if it succeeds. *)
Definition spec (i : instruction) (m : registrations) : registrations :=
  match i with
  | i_attach s => <[Registry.handle_of s := attached_as s]> m
  | i_show s op =>
      match m !! Registry.handle_of s with
      | Some g => <[Registry.handle_of s := changed op g]> m
      | None =>
          if autoAttach d_config
          then <[Registry.handle_of s := changed op (attached_as s)]> m else m
      end
  | i_hide s op =>
      match m !! Registry.handle_of s with
      | Some g =>
          if autoDetach d_config &&
             negb (Interest.wantReadableOrWritable (change op (a_interest g)))
          then base.delete (Registry.handle_of s) m
          else <[Registry.handle_of s := changed op g]> m
      | None => m
      end
  | i_detach s _ => base.delete (Registry.handle_of s) m
  | _ => m
  end.

(** What it answers, unless the kernel refuses. *)
Definition answer (i : instruction) (m : registrations) : Error.t :=
  match i with
  | i_show s _ =>
      if bool_decide (is_Some (m !! Registry.handle_of s)) || autoAttach d_config
      then Error.e_OK else Error.e_INVALID
  | i_hide s _ | i_detach s _ =>
      if bool_decide (is_Some (m !! Registry.handle_of s)) then Error.e_OK else Error.e_INVALID
  | _ => Error.e_OK
  end.

(** A handle is attached once, and the calls for a socket are for the one that
    was attached. *)
Definition permitted (i : instruction) (m : registrations) : Prop :=
  match i with
  | i_attach s => valid_handle (Registry.handle_of s) /\ m !! Registry.handle_of s = None
  | i_show s _ | i_hide s _ =>
      valid_handle (Registry.handle_of s) /\
      forall g, m !! Registry.handle_of s = Some g ->
        match s with inl socket => a_socket g = Some socket | inr _ => True end
  | i_detach s _ => valid_handle (Registry.handle_of s)
  | _ => False
  end.

(** The socket of a call was not closed. *)
Definition opened (i : instruction) (r : Registry.t) : Prop :=
  match i with
  | i_attach s | i_show s _ | i_hide s _ | i_detach s _ => Registry.is_open s r
  | _ => True
  end.

(** ** The relation *)

(** The entry that the catalog refers to. *)
Definition registered (h : Z) (id : nat) (r : Registry.t) : Prop :=
  Registry.d_vector r !! Registry.index h = Some (Some id).

Record entry_agrees (h : Z) (g : registration) (e : RegistryEntry.t) : Prop := {
  ea_interest : RegistryEntry.d_interest e = a_interest g;
  ea_socket : RegistryEntry.d_reactorSocket e = a_socket g;
  ea_handle : forall socket, a_socket g = Some socket -> socket_handle socket = h;
  ea_cell : cell_of e = mkCell h 0 false None
}.

(** The context of a socket is the entry for it. *)
Definition context_agrees (m : registrations) (r : Registry.t) (socket : ReactorSocket) : Prop :=
  forall id, Registry.contexts r !! socket = Some id <->
    exists g, m !! socket_handle socket = Some g /\ a_socket g = Some socket /\
      registered (socket_handle socket) id r.

Record agrees (m : registrations) (r : Registry.t) : Prop := {
  ag_catalog : catalog (view_of r);
  ag_defaults : Registry.d_trigger r = trigger /\ Registry.d_oneShot r = oneShot;
  ag_valid : forall h, is_Some (m !! h) -> valid_handle h;
  ag_some : forall h g, m !! h = Some g ->
    exists id e, registered h id r /\ Registry.entries r !! id = Some e /\ entry_agrees h g e;
  ag_none : forall h, valid_handle h -> m !! h = None -> vacant h r;
  ag_context : forall socket, valid_handle (socket_handle socket) -> context_agrees m r socket
}.

(** ** The interest of an entry changes *)

Lemma perform_changes op e :
  RegistryEntry.d_interest (perform op e) = change op (RegistryEntry.d_interest e) /\
  RegistryEntry.d_reactorSocket (perform op e) = RegistryEntry.d_reactorSocket e.
Proof. by destruct op. Qed.

Lemma registered_unique m r h h' id :
  agrees m r -> valid_handle h -> valid_handle h' -> registered h id r -> registered h' id r -> h = h'.
Proof.
  intros Ha Hh Hh' Hr Hr'.
  pose proof (catalog_unique (view_of r) _ _ id (ag_catalog m r Ha) Hr Hr') as Hi.
  rewrite !index_valid in Hi by done. unfold valid_handle in *. lia.
Qed.

Lemma index_ne h h' :
  valid_handle h -> valid_handle h' -> h <> h' -> Registry.index h <> Registry.index h'.
Proof. intros. rewrite !index_valid by done. unfold valid_handle in *. lia. Qed.

Lemma vacant_registered h r : vacant h r <-> forall id, ~ registered h id r.
Proof.
  unfold vacant, registered. split.
  - intros Hv id Hr. by rewrite Hr in Hv.
  - intros Hr. destruct (Registry.d_vector r !! Registry.index h) as [[id|]|]; try done.
    by destruct (Hr id).
Qed.

(** An entry is at its handle, so that there are at most [2 ^ 31]. *)
Lemma occupied_below l n :
  (forall p id, l !! p = Some (Some id) -> Z.of_nat p < n) -> 0 <= n -> occupied l <= n.
Proof.
  intros Hl Hn. rewrite <- (take_drop (Z.to_nat n) l), occupied_app.
  assert (occupied (drop (Z.to_nat n) l) = 0) as ->.
  { assert (forall p id, drop (Z.to_nat n) l !! p <> Some (Some id)) as Hd
      by (intros p id; rewrite lookup_drop; intros Hp%Hl; lia).
    induction (drop (Z.to_nat n) l) as [|[id|] l' IH]; [done|by destruct (Hd 0%nat id)|].
    rewrite occupied_cons, IH; [done|]. intros p. apply (Hd (S p)). }
  pose proof (occupied_le (take (Z.to_nat n) l)). unfold size in *. rewrite length_take in *. lia.
Qed.

Lemma catalog_room v : catalog v -> count v < 2 ^ 32 - 1.
Proof.
  intros Hc. rewrite (cat_exact v Hc eq_refl).
  pose proof (occupied_below (vector v) (2 ^ 31)) as Ho. cut (occupied (vector v) <= 2 ^ 31); [lia|].
  apply Ho; [|lia]. intros p id Hp. destruct (cat_vector v Hc p id Hp) as (c & Hid & Hh & _).
  destruct (cat_cells v Hc id c Hid) as [[? ?] _]. lia.
Qed.

(** What happens at one handle only. *)
Lemma agrees_at m m' r r' h :
  agrees m r -> valid_handle h -> catalog (view_of r') ->
  Registry.d_trigger r' = Registry.d_trigger r -> Registry.d_oneShot r' = Registry.d_oneShot r ->
  (forall h', h' <> h -> m' !! h' = m !! h') ->
  (forall h' id, valid_handle h' -> h' <> h -> registered h' id r' <-> registered h' id r) ->
  (forall h' id, valid_handle h' -> h' <> h -> registered h' id r ->
     Registry.entries r' !! id = Registry.entries r !! id) ->
  match m' !! h with
  | Some g => exists id e,
      registered h id r' /\ Registry.entries r' !! id = Some e /\ entry_agrees h g e
  | None => vacant h r'
  end ->
  (forall socket, socket_handle socket <> h ->
     Registry.contexts r' !! socket = Registry.contexts r !! socket) ->
  (forall socket, socket_handle socket = h -> context_agrees m' r' socket) ->
  agrees m' r'.
Proof.
  intros [Hcat Hdef Hval Hsome Hnone Hctx] Hh Hcat' Ht Ho Hm Hr He Hat Hc Hch. constructor; try done.
  - by rewrite Ht, Ho.
  - intros h'. destruct (decide (h' = h)) as [->|Hne]; [done|]. rewrite Hm by done. apply Hval.
  - intros h' g. destruct (decide (h' = h)) as [->|Hne].
    + intros Hg. by rewrite Hg in Hat.
    + rewrite Hm by done. intros Hg. destruct (Hsome h' g Hg) as (id & e & Hid & Hen & Hea).
      assert (valid_handle h') by (by apply Hval; eexists).
      exists id, e. split; [by apply Hr|]. split; [|done]. by rewrite (He h').
  - intros h' Hh'. destruct (decide (h' = h)) as [->|Hne].
    + intros Hg. by rewrite Hg in Hat.
    + rewrite Hm by done. intros Hg. apply vacant_registered. intros id Hid%Hr; try done.
      by apply (proj1 (vacant_registered h' r) (Hnone h' Hh' Hg) id).
  - intros socket Hs. destruct (decide (socket_handle socket = h)) as [Heq|Hne]; [by apply Hch|].
    intros id. rewrite Hc by done. rewrite (Hctx socket Hs id). rewrite Hm by done.
    split; intros (g & ? & ? & ?); exists g; split_and!; try done; by apply Hr.
Qed.

Lemma agrees_changed m r h g id e op :
  agrees m r -> m !! h = Some g -> registered h id r -> Registry.entries r !! id = Some e ->
  entry_agrees h g e ->
  agrees (<[h := changed op g]> m) (Registry.update id (fun _ => perform op e) r) /\
  entry_agrees h (changed op g) (perform op e).
Proof.
  intros Ha Hg Hr He [Hei Hes Heh Hec]. pose proof (ag_valid m r Ha h (ex_intro _ g Hg)) as Hh.
  destruct (perform_changes op e) as [Hi Hs].
  assert (entry_agrees h (changed op g) (perform op e)) as Hea.
  { constructor; simpl; [by rewrite Hi, Hei|by rewrite Hs|done|]. by rewrite cell_perform. }
  split; [|done]. apply (agrees_at m _ r _ h); try done.
  - rewrite (of_update_same id e _ r He (cell_perform op e)). apply (ag_catalog m r Ha).
  - intros h' Hne. by rewrite lookup_insert_ne.
  - intros h' id' Hh' Hne Hr'. simpl. rewrite alter_const, list_lookup_insert_ne; [done|].
    intros ->. apply Hne. by apply (registered_unique m r h' h id').
  - rewrite lookup_insert_eq. exists id, (perform op e). split; [done|]. split; [|done].
    simpl. rewrite alter_const. apply list_lookup_insert_eq. by eapply lookup_lt_Some.
  - intros socket <- id'. simpl. rewrite (ag_context m r Ha socket Hh id'), lookup_insert_eq, Hg.
    split; intros (g0 & [= <-] & ? & ?); eexists; split_and!; done.
Qed.

(** ** An entry is added *)

Definition fresh (s : Registry.descriptor) (e : RegistryEntry.t) : Prop :=
  RegistryEntry.d_interest e = Interest.make trigger oneShot /\
  RegistryEntry.d_reactorSocket e = socket_of s /\
  cell_of e = mkCell (Registry.handle_of s) 0 false None.

Definition with_context (s : Registry.descriptor) (id : nat) (r : Registry.t) : Registry.t :=
  match s with inl socket => Registry.setReactorContext socket (Some id) r | inr _ => r end.

Lemma add_entries s (r r' : Registry.t) id :
  Registry.add s r = Some (id, r') -> Registry.is_open s r ->
  Registry.d_trigger r = trigger -> Registry.d_oneShot r = oneShot ->
  id = length (Registry.entries r) /\
  (exists e, Registry.entries r' = Registry.entries r ++ [e] /\ fresh s e) /\
  Registry.d_trigger r' = trigger /\ Registry.d_oneShot r' = oneShot.
Proof.
  intros Ha Hopen Ht Ho. unfold Registry.add in Ha. cbn zeta in Ha.
  rewrite (handle_open s r Hopen) in Ha. destruct (negb _); [|done].
  destruct (Registry.create s r) as [[id0 r0]|] eqn:Ec; [|done]. simpl in Ha.
  destruct (Registry.insert (Registry.index (Registry.handle_of s)) id0 r0) as [r1|] eqn:Ei; [|done].
  injection Ha as -> ->.
  assert (Registry.entries r' = Registry.entries r0 /\ Registry.d_trigger r' = Registry.d_trigger r0 /\
    Registry.d_oneShot r' = Registry.d_oneShot r0) as (-> & -> & ->).
  { unfold Registry.insert in Ei. apply bind_Some in Ei as (v & _ & Ei). by case_bool_decide;
      simplify_eq. }
  unfold Registry.create, RegistryEntry.ofSocket, RegistryEntry.ofHandle, RegistryEntry.make in Ec.
  destruct s as [socket|h];
    [cbv [Registry.create] in Ec; rewrite (handle_open (inl socket) r Hopen) in Ec|];
    simpl in Ec; destruct (negb _); simplify_eq/=;
    (split; [done|]); (split; [|by split]); eexists; (split; [done|]); unfold fresh; simpl;
    rewrite Ht, Ho; by split_and!.
Qed.

Lemma agrees_added m r s :
  agrees m r -> Registry.is_open s r -> valid_handle (Registry.handle_of s) ->
  m !! Registry.handle_of s = None ->
  exists r' e,
    Registry.add s r = Some (length (Registry.entries r), r') /\
    Registry.entries r' !! length (Registry.entries r) = Some e /\ fresh s e /\
    registered (Registry.handle_of s) (length (Registry.entries r))
      (with_context s (length (Registry.entries r)) r') /\
    agrees (<[Registry.handle_of s := attached_as s]> m)
      (with_context s (length (Registry.entries r)) r').
Proof.
  intros Ha Hopen Hh Hm. pose proof (ag_catalog m r Ha) as Hcat. destruct (ag_defaults m r Ha) as [Ht Ho].
  destruct (Safety.registry_add_spec s r Hcat Hopen Hh) as (k & r' & Hadd & Hv & Hctx & _ & Hidx & Hk).
  destruct (add_entries s r r' _ Hadd Hopen Ht Ho) as (_ & (e & Hes & Hf) & Ht' & Ho').
  set (id := length (Registry.entries r)) in *.
  assert (Registry.entries r' !! id = Some e) as He
    by (rewrite Hes, lookup_app_r, Nat.sub_diag by lia; done).
  exists r', e. split; [done|]. split; [done|]. split; [done|].
  pose proof (ag_none m r Ha _ Hh Hm) as Hvac.
  destruct (catalog_added (view_of r) _ k Hcat Hh (fun _ => Hvac) (catalog_room _ Hcat) Hidx Hk)
    as [Hcat' _].
  assert (Registry.d_vector r' = <[Registry.index (Registry.handle_of s) := Some id]>
    (Registry.d_vector r ++ replicate k None)) as Hvec.
  { change (Registry.d_vector r') with (vector (view_of r')). rewrite Hv. simpl.
    by rewrite length_fmap. }
  assert (registered (Registry.handle_of s) id (with_context s id r')) as Hr.
  { unfold registered. assert (Registry.d_vector (with_context s id r') = Registry.d_vector r') as ->
      by (by destruct s). rewrite Hvec. apply list_lookup_insert_eq.
    rewrite length_app, length_replicate. done. }
  split; [done|]. apply (agrees_at m _ r _ (Registry.handle_of s)); try done.
  - assert (view_of (with_context s id r') = view_of r') as -> by (by destruct s). by rewrite Hv.
  - rewrite Ht, <- Ht'. by destruct s.
  - rewrite Ho, <- Ho'. by destruct s.
  - intros h' Hne. by rewrite lookup_insert_ne.
  - intros h' id' Hh' Hne. unfold registered.
    assert (Registry.d_vector (with_context s id r') = Registry.d_vector r') as -> by (by destruct s).
    rewrite Hvec, list_lookup_insert_ne by (by apply index_ne). split.
    + apply lookup_grown.
    + intros Hp. by apply lookup_app_l_Some.
  - intros h' id' Hh' Hne Hr'.
    assert (Registry.entries (with_context s id r') = Registry.entries r ++ [e]) as ->
      by (rewrite <- Hes; by destruct s).
    apply lookup_app_l. pose proof (catalog_known _ _ _ Hcat Hr') as Hkn. unfold known in Hkn.
    simpl in Hkn. by rewrite length_fmap in Hkn.
  - rewrite lookup_insert_eq. exists id, e. split; [done|]. split; [by destruct s|].
    destruct Hf as (Hfi & Hfs & Hfc). constructor; simpl; try done.
    intros socket. destruct s as [socket'|]; simpl; [|done]. by intros [= <-].
  - intros socket Hne. rewrite <- Hctx. destruct s as [socket'|]; [|done]. simpl.
    apply lookup_partial_alter_ne. by intros ->.
  - intros socket Heq id'. rewrite Heq, lookup_insert_eq.
    assert (Registry.contexts r !! socket = None) as Hnone.
    { destruct (Registry.contexts r !! socket) as [j|] eqn:E; [|done].
      apply (ag_context m r Ha socket) in E as (g & Hg & _); rewrite Heq in *; [congruence|done]. }
    destruct s as [socket'|h']; simpl in *.
    + destruct (decide (socket = socket')) as [->|Hne].
      * rewrite lookup_partial_alter_eq. split.
        -- intros [= <-]. by eexists.
        -- intros (g & [= <-] & _ & Hr'). unfold registered in Hr, Hr'. simpl in *. congruence.
      * rewrite lookup_partial_alter_ne, Hctx, Hnone by done. split; [done|].
        intros (g & [= <-] & Hg & _). simpl in Hg. congruence.
    + rewrite Hctx, Hnone. split; [done|]. by intros (g & [= <-] & ? & _).
Qed.

(** ** An entry is taken out and cleared *)

Lemma update_update id e e' (r : Registry.t) :
  Registry.update id (fun _ => e') (Registry.update id (fun _ => e) r) =
    Registry.update id (fun _ => e') r.
Proof.
  unfold Registry.update, Registry.set_entries. simpl.
  by rewrite !alter_const, list_insert_insert_eq.
Qed.

Lemma update_same id e (r : Registry.t) :
  Registry.entries r !! id = Some e -> Registry.update id (fun _ => e) r = r.
Proof.
  intros He. unfold Registry.update, Registry.set_entries.
  rewrite alter_const, list_insert_id by done. by destruct r.
Qed.

Lemma take_defaults idx (r r' : Registry.t) found :
  Registry.take idx r = Some (found, r') ->
  Registry.d_trigger r' = Registry.d_trigger r /\ Registry.d_oneShot r' = Registry.d_oneShot r.
Proof.
  unfold Registry.take. intros Ht. by destruct (Registry.d_vector r !! idx) as [[id|]|]; inv_option Ht.
Qed.

(** What clearing an entry that was taken out leaves, whatever became of its
    request. *)
Lemma clear_taken (r r0 : Registry.t) idx id h e e1 :
  Registry.entries r !! id = Some e -> cell_of e = mkCell h 0 false None ->
  Registry.entries r0 = Registry.entries r -> view_of r0 = taken idx (view_of r) ->
  RegistryEntry.d_handle e1 = RegistryEntry.d_handle e -> RegistryEntry.d_processCounter e1 = 0 ->
  let r2 := Registry.clear_entry id (Registry.update id (fun _ => e1) r0) in
  view_of r2 = taken idx (view_of r) /\
  Registry.d_trigger r2 = Registry.d_trigger r0 /\ Registry.d_oneShot r2 = Registry.d_oneShot r0 /\
  Registry.entries r2 = <[id := (RegistryEntry.clear e1).1]> (Registry.entries r) /\
  Registry.contexts r2 = match RegistryEntry.d_reactorSocket e1 with
    | Some socket => partial_alter (fun _ => None) socket (Registry.contexts r0)
    | None => Registry.contexts r0
    end.
Proof.
  intros He Hec Hes Hv Hh1 Hc1 r2.
  set (r1 := Registry.update id (fun _ => e1) r0) in *.
  assert (Registry.entries r1 !! id = Some e1) as He1.
  { unfold r1. simpl. rewrite alter_const, list_lookup_insert_eq; [done|]. rewrite Hes.
    by eapply lookup_lt_Some. }
  split.
  - unfold r2. rewrite (of_clear_entry id r1 e1 He1). unfold r1. rewrite of_update, Hv.
    unfold set_cell. simpl. rewrite list_insert_insert_eq. unfold taken. f_equal.
    apply list_insert_id. simpl. rewrite list_lookup_fmap, He. simpl. f_equal. rewrite Hec.
    injection Hec as Hd1 _ _ _. by rewrite Hh1, Hc1, Hd1.
  - unfold r2, Registry.clear_entry. rewrite He1. unfold RegistryEntry.clear. rewrite <- Hes.
    unfold r1. destruct (RegistryEntry.d_reactorSocket e1) eqn:E1; simpl; rewrite ?E1; simpl;
      rewrite !alter_const, list_insert_insert_eq; done.
Qed.

(** The entry of a registration is what is taken out. *)
Lemma remove_registered m r s g :
  agrees m r -> Registry.is_open s r -> valid_handle (Registry.handle_of s) ->
  m !! Registry.handle_of s = Some g ->
  exists id e r0,
    registered (Registry.handle_of s) id r /\ Registry.entries r !! id = Some e /\
    entry_agrees (Registry.handle_of s) g e /\
    Registry.remove s r = Some (Some id, r0) /\ Registry.entries r0 = Registry.entries r /\
    Registry.contexts r0 = Registry.contexts r /\
    view_of r0 = taken (Registry.index (Registry.handle_of s)) (view_of r) /\
    Registry.d_trigger r0 = Registry.d_trigger r /\ Registry.d_oneShot r0 = Registry.d_oneShot r.
Proof.
  intros Ha Hopen Hh Hm. destruct (ag_some m r Ha _ g Hm) as (id & e & Hr & He & Hea).
  destruct (Safety.remove_total s r (ag_catalog m r Ha) Hopen Hh)
    as (found & r0 & Hrm & Hes & Hctx & _ & Hf).
  pose proof Hrm as Htake. unfold Registry.remove in Htake. cbn zeta in Htake.
  rewrite (handle_open s r Hopen) in Htake. destruct (negb _); [|done].
  destruct (take_defaults _ _ _ _ Htake) as [Ht Ho].
  unfold registered in Hr. unfold Registry.take in Htake. rewrite Hr in Htake.
  destruct (0 <? Registry.d_size r); [|done]. injection Htake as <- _.
  exists id, e, r0. destruct Hf as [_ Hv]. by split_and!.
Qed.

(** The catalog no longer refers to the entry, whatever becomes of its
    request; then it is cleared. *)
Lemma agrees_removed m r s g :
  agrees m r -> Registry.is_open s r -> valid_handle (Registry.handle_of s) ->
  m !! Registry.handle_of s = Some g ->
  exists id e r0,
    registered (Registry.handle_of s) id r /\ Registry.entries r !! id = Some e /\
    entry_agrees (Registry.handle_of s) g e /\
    Registry.remove s r = Some (Some id, r0) /\ Registry.entries r0 = Registry.entries r /\
    forall e1, RegistryEntry.d_handle e1 = RegistryEntry.d_handle e ->
      RegistryEntry.d_processCounter e1 = 0 ->
      RegistryEntry.d_reactorSocket e1 = RegistryEntry.d_reactorSocket e ->
      agrees (base.delete (Registry.handle_of s) m)
        (Registry.clear_entry id (Registry.update id (fun _ => e1) r0)).
Proof.
  intros Ha Hopen Hh Hm. pose proof (ag_catalog m r Ha) as Hcat.
  destruct (remove_registered m r s g Ha Hopen Hh Hm)
    as (id & e & r0 & Hr & He & Hea & Hrm & Hes & Hctx & Hv & Ht & Ho).
  exists id, e, r0. do 5 (split; [done|]). intros e1 Hh1 Hc1 Hs1.
  set (h := Registry.handle_of s) in *.
  destruct (clear_taken r r0 _ id h e e1 He (ea_cell _ _ _ Hea) Hes Hv Hh1 Hc1)
    as (Hv2 & Ht2 & Ho2 & Hes2 & Hctx2).
  set (r2 := Registry.clear_entry id _) in *. rewrite Hs1, (ea_socket _ _ _ Hea), Hctx in Hctx2.
  assert (Registry.d_vector r2 = <[Registry.index h := None]> (Registry.d_vector r)) as Hvec.
  { change (Registry.d_vector r2) with (vector (view_of r2)). by rewrite Hv2. }
  apply (agrees_at m _ r _ h); try done.
  - rewrite Hv2. by apply (catalog_taken (view_of r) _ id).
  - by rewrite Ht2.
  - by rewrite Ho2.
  - intros h' Hne. by rewrite lookup_delete_ne.
  - intros h' id' Hh' Hne. unfold registered.
    by rewrite Hvec, list_lookup_insert_ne by (by apply index_ne).
  - intros h' id' Hh' Hne Hr'. rewrite Hes2, list_lookup_insert_ne; [done|]. intros <-.
    apply Hne. by apply (registered_unique m r h' h id).
  - rewrite lookup_delete_eq. apply vacant_registered. intros id' Hr'. unfold registered in Hr'.
    rewrite Hvec, list_lookup_insert_eq in Hr'; [done|]. by eapply lookup_lt_Some.
  - intros socket Hne. rewrite Hctx2. destruct (a_socket g) as [socket'|] eqn:Eg; [|done].
    apply lookup_partial_alter_ne. intros ->. apply Hne. by apply (ea_handle _ _ _ Hea).
  - intros socket Heq id'. rewrite Heq, lookup_delete_eq. split; [|by intros (? & ? & _)].
    rewrite Hctx2. intros Hc. exfalso.
    assert (Registry.contexts r !! socket = Some id' /\ a_socket g <> Some socket) as [Hc' Hne].
    { destruct (a_socket g) as [socket'|]; [|by split].
      destruct (decide (socket' = socket)) as [->|Hne]; [by rewrite lookup_partial_alter_eq in Hc|].
      rewrite lookup_partial_alter_ne in Hc by done. split; [done|]. congruence. }
    apply (ag_context m r Ha socket) in Hc' as (g' & Hg' & Hs' & _); rewrite Heq in *; [|done].
    congruence.
Qed.

(** A socket is closed. *)
Lemma agrees_closed m r failed socket : agrees m r -> agrees m (Registry.closeHandle failed socket r).
Proof. intros []. by destruct failed. Qed.

End Registrations.
End Registrations.
