(* ===== verification/EpollRefinement.v ===== *)
(** * A driver refines a map of registrations

    For one caller at a time, with the kernel as it is documented: each call
    ends, answers as the specification of EpollRegistrations says or reports
    that the kernel refused, and the kernel polls exactly the events of the
    interests that are registered. *)

From stdpp Require Import gmap.
From S2P Require Import Prelude Errors Interest Registry Epoll EpollSystem EpollFacts EpollInvariant EpollSteps EpollSafety EpollScripts EpollRegistrations.
#[local] Open Scope Z_scope.

Module Refinement.
Import Epoll System View Invariant Registrations.
Section Refinement.
Context `{ReactorTypes} `{EpollLaws} (d_config : configuration)
  (trigger : ReactorEventTrigger.t) (oneShot : bool).

#[local] Abbreviation registrations := (gmap Z registration).

(** What a call returns. *)
Definition returned (l : list effect) : list Error.t :=
  omap (fun f => match f with f_return error => Some error | _ => None end) l.

(** The controller can be interrupted. *)
Definition quiet (o : oracle) : Prop :=
  o_isWaiter o = true \/ Error.is_error (o_interrupt o) = false.

Definition polled (m : registrations) : gmap Z Z :=
  (fun g => events_of (a_interest g)) <$> m.

Record synchronized (m : registrations) (d : Epoll.t) : Prop := {
  sy_mutex : d_mutex d = false;
  sy_controller : is_Some (d_controller d);
  sy_agrees : agrees trigger oneShot m (d_registry d);
  sy_kernel : watched (d_epoll d) = polled m
}.

(** What the constructor registers. *)
Definition controlled (c : ReactorSocket) : registrations :=
  {[socket_handle c :=
      changed (op_showReadable ReactorEventOptions.init) (attached_as trigger oneShot (inl c))]}.

(** A driver is constructed, and the kernel took its controller; then the calls of
    one caller, each of which the kernel took; and sockets are closed for which
    nothing is registered. *)
Inductive history (k : EpollSet) : registrations -> Epoll.t -> Prop :=
| history_start o d :
    valid_handle (socket_handle (o_controller o)) ->
    construct d_config trigger oneShot k o = Some d ->
    is_Some (watched (d_epoll d) !! socket_handle (o_controller o)) ->
    history k (controlled (o_controller o)) d
| history_call m d i o d' effects :
    history k m d -> permitted i m -> opened i (d_registry d) -> quiet o ->
    run d_config 8 o [i] d [] = Some (d', effects) ->
    returned effects = [answer d_config i m] ->
    history k (spec d_config trigger oneShot i m) d'
| history_close m d failed socket k' :
    history k m d -> d_controller d <> Some socket -> m !! socket_handle socket = None ->
    watched k' = watched (d_epoll d) ->
    history k m (set_epoll k' (set_registry (Registry.closeHandle failed socket (d_registry d)) d)).

(** ** A thread alone *)

Lemma run_step fuel o i rest d tr next d' effects :
  execute d_config o i d = Some (next, d', effects) -> (needs_mutex i = true -> d_mutex d = false) ->
  run d_config (S fuel) o (i :: rest) d tr =
    run d_config fuel o (next ++ rest) d' (tr ++ effects).
Proof.
  intros Hx Hm. cbn [run]. destruct (needs_mutex i); simpl; [rewrite Hm by done|]; by rewrite Hx.
Qed.

Lemma run_done fuel o d tr : run d_config fuel o [] d tr = Some (d, tr).
Proof. by destruct fuel. Qed.

(** ** The kernel *)

Lemma control_spec op h ev d :
  (control op h ev d).1 = set_epoll (epoll_ctl op h ev (d_epoll d)).1 d /\
  (Errno.translate (control op h ev d).2 = Error.e_OK ->
   watched (d_epoll (control op h ev d).1) =
     match op with
     | EPOLL_CTL_DEL => base.delete h (watched (d_epoll d))
     | _ => <[h := ev]> (watched (d_epoll d))
     end) /\
  (is_Some (watched (d_epoll d) !! h) -> op <> EPOLL_CTL_ADD -> (control op h ev d).2 <> Errno.ENOENT).
Proof.
  unfold control. pose proof (ctl_present op h ev (d_epoll d)) as Hp.
  destruct (epoll_ctl op h ev (d_epoll d)) as [k' n] eqn:E. simpl in *. split; [done|]. split; [|done].
  intros Hn. apply (ctl_changes op h ev (d_epoll d) k'). rewrite E. f_equal. by destruct n.
Qed.

Lemma polled_some m h g : m !! h = Some g -> is_Some (polled m !! h).
Proof. intros Hg. unfold polled. rewrite lookup_fmap, Hg. by eexists. Qed.

Lemma synchronized_add m d g h interest r :
  synchronized m d -> agrees trigger oneShot (<[h := g]> m) r -> a_interest g = interest ->
  exists d' n, forall o fuel rest tr,
    run d_config (S fuel) o (i_add h interest true :: rest) (set_registry r d) tr =
      run d_config fuel o rest d' (tr ++ [f_return (Errno.translate n)]) /\
    (Errno.translate n = Error.e_OK -> synchronized (<[h := g]> m) d').
Proof.
  intros [Hm Hco Ha Hk] Hr <-. set (ev := events_of (a_interest g)).
  destruct (control_spec EPOLL_CTL_ADD h ev (set_registry r d)) as (Hd & Hw & _).
  eexists _, _. intros o fuel rest tr. split.
  - refine (run_step fuel o _ rest _ tr [] _ _ _ _); [|done]. simpl. unfold add. fold ev.
    by rewrite (surjective_pairing (control EPOLL_CTL_ADD h ev (set_registry r d))).
  - intros Hn. constructor; [by rewrite Hd..|]. rewrite Hw by done. simpl. rewrite Hk.
    unfold polled. by rewrite fmap_insert.
Qed.

Lemma synchronized_update m d g h interest r :
  synchronized m d -> is_Some (m !! h) -> agrees trigger oneShot (<[h := g]> m) r ->
  a_interest g = interest ->
  exists d' n, forall o fuel rest tr,
    run d_config (S fuel) o (i_update h interest true :: rest) (set_registry r d) tr =
      run d_config fuel o rest d' (tr ++ [f_return (Errno.translate n)]) /\
    (Errno.translate n = Error.e_OK -> synchronized (<[h := g]> m) d').
Proof.
  intros [Hm Hco Ha Hk] [g0 Hg0] Hr <-. set (ev := events_of (a_interest g)).
  destruct (control_spec EPOLL_CTL_MOD h ev (set_registry r d)) as (Hd & Hw & Hp).
  assert ((control EPOLL_CTL_MOD h ev (set_registry r d)).2 <> Errno.ENOENT) as Hne.
  { apply Hp; [|done]. simpl. rewrite Hk. by eapply polled_some. }
  eexists _, _. intros o fuel rest tr. split.
  - refine (run_step fuel o _ rest _ tr [] _ _ _ _); [|done]. simpl. unfold update. fold ev.
    rewrite (surjective_pairing (control EPOLL_CTL_MOD h ev (set_registry r d))).
    by rewrite bool_decide_false.
  - intros Hn. constructor; [by rewrite Hd..|]. rewrite Hw by done. simpl. rewrite Hk.
    unfold polled. by rewrite fmap_insert.
Qed.

Lemma synchronized_delete m d h r :
  synchronized m d -> is_Some (m !! h) -> agrees trigger oneShot (base.delete h m) r ->
  exists d' n, forall o fuel rest tr,
    run d_config (S fuel) o (i_delete h true :: rest) (set_registry r d) tr =
      run d_config fuel o rest d' (tr ++ [f_return (Errno.translate n)]) /\
    (Errno.translate n = Error.e_OK -> synchronized (base.delete h m) d').
Proof.
  intros [Hm Hco Ha Hk] [g0 Hg0] Hr.
  destruct (control_spec EPOLL_CTL_DEL h 0 (set_registry r d)) as (Hd & Hw & Hp).
  assert ((control EPOLL_CTL_DEL h 0 (set_registry r d)).2 <> Errno.ENOENT) as Hne.
  { apply Hp; [|done]. simpl. rewrite Hk. by eapply polled_some. }
  eexists _, _. intros o fuel rest tr. split.
  - refine (run_step fuel o _ rest _ tr [] _ _ _ _); [|done]. simpl. unfold delete.
    rewrite (surjective_pairing (control EPOLL_CTL_DEL h 0 (set_registry r d))).
    unfold ignore_absent. by rewrite bool_decide_false.
  - intros Hn. constructor; [by rewrite Hd..|]. rewrite Hw by done. simpl. rewrite Hk.
    unfold polled. by rewrite fmap_delete.
Qed.

(** ** The calls *)

(** A call ends with one answer; if the kernel took it, it did what is
    specified, and if the call is an error by itself it did nothing. *)
Definition outcome (m : registrations) (d : Epoll.t) (i : instruction) (o : oracle) : Prop :=
  exists d' effects error,
    run d_config 8 o [i] d [] = Some (d', effects) /\ returned effects = [error] /\
    (answer d_config i m = Error.e_OK -> error = Error.e_OK ->
     synchronized (spec d_config trigger oneShot i m) d') /\
    (answer d_config i m <> Error.e_OK -> error = answer d_config i m /\ d' = d).

Lemma find_some m (r : Registry.t) s g id :
  agrees trigger oneShot m r -> valid_handle (Registry.handle_of s) ->
  m !! Registry.handle_of s = Some g ->
  match s with inl socket => a_socket g = Some socket | inr _ => True end ->
  registered (Registry.handle_of s) id r -> find s r = Some (Some id).
Proof.
  intros Ha Hh Hg Hs Hr. destruct s as [socket|h]; simpl in *.
  - f_equal. apply (ag_context _ _ _ _ Ha socket Hh id). by exists g.
  - unfold Registry.lookup. rewrite (proj2 (Z.eqb_neq _ _))
      by (unfold k_INVALID_HANDLE, valid_handle in *; lia).
    simpl. unfold registered in Hr. by rewrite Hr.
Qed.

Lemma find_none m (r : Registry.t) s :
  agrees trigger oneShot m r -> valid_handle (Registry.handle_of s) ->
  m !! Registry.handle_of s = None -> find s r = Some None.
Proof.
  intros Ha Hh Hg. destruct s as [socket|h]; simpl in *.
  - unfold Registry.getReactorContext.
    destruct (Registry.contexts r !! socket) as [id|] eqn:E; [|done].
    apply (ag_context _ _ _ _ Ha socket Hh id) in E as (g & Hg' & _). congruence.
  - unfold Registry.lookup. rewrite (proj2 (Z.eqb_neq _ _))
      by (unfold k_INVALID_HANDLE, valid_handle in *; lia).
    simpl. f_equal. by apply (ag_none _ _ _ _ Ha).
Qed.

(** A new entry is in the catalog, and its socket refers to it. *)
Lemma run_attach m d s i nx fuel o rest tr :
  synchronized m d -> Registry.is_open s (d_registry d) -> valid_handle (Registry.handle_of s) ->
  m !! Registry.handle_of s = None ->
  execute d_config o i d = attach s nx d -> (needs_mutex i = true -> d_mutex d = false) ->
  (2 <= fuel)%nat ->
  exists id e r' fuel', (fuel <= S (S fuel'))%nat /\
    run d_config fuel o (i :: rest) d tr =
      run d_config fuel' o (nx id ++ rest) (set_registry r' d) tr /\
    Registry.entries r' !! id = Some e /\ fresh trigger oneShot s e /\
    registered (Registry.handle_of s) id r' /\
    agrees trigger oneShot (<[Registry.handle_of s := attached_as trigger oneShot s]> m) r'.
Proof.
  intros [Hm Hco Ha Hk] Hopen Hh Hg Hx Hneeds Hf.
  destruct (agrees_added trigger oneShot m (d_registry d) s Ha Hopen Hh Hg) as (r' & e & Hadd & He & Hfr & Hr & Ha').
  set (id := length (Registry.entries (d_registry d))) in *.
  exists id, e, (with_context s id r').
  assert (Registry.entries (with_context s id r') !! id = Some e) as He' by (by destruct s).
  destruct fuel as [|[|fuel]]; [lia..|].
  assert (execute d_config o i d = Some (context_of s id ++ nx id, set_registry r' d, [])) as Hx'.
  { rewrite Hx. unfold attach. by rewrite Hadd. }
  destruct s as [socket|h].
  - exists fuel. split; [lia|]. split; [|by split_and!].
    rewrite (run_step _ _ _ _ _ _ _ _ _ Hx') by done. rewrite app_nil_r. simpl app.
    rewrite (run_step _ _ _ _ _ _ [] (set_registry (with_context (inl socket) id r') d) []); [|done..].
    by rewrite app_nil_r.
  - exists (S fuel). split; [lia|]. split; [|by split_and!].
    rewrite (run_step _ _ _ _ _ _ _ _ _ Hx') by done. by rewrite app_nil_r.
Qed.

Lemma call_attach m d s o :
  synchronized m d -> permitted (i_attach s) m -> Registry.is_open s (d_registry d) ->
  outcome m d (i_attach s) o.
Proof.
  intros Hd [Hh Hg] Hopen. pose proof (sy_mutex m d Hd) as Hm.
  destruct (run_attach m d s (i_attach s) (fun id => [i_attached id true]) 8 o [] []) as
    (id & e & r' & fuel & Hf & Hrun & He & (Hei & Hes & Hec) & Hr & Ha); try done; [lia|].
  destruct (synchronized_add m d _ (Registry.handle_of s) _ r' Hd Ha (eq_refl _)) as (d' & n & Hadd).
  cbn [a_interest attached_as] in Hadd. destruct fuel as [|[|fuel]]; [lia..|]. destruct (Hadd o fuel [] []) as [Hrun' Hsync].
  exists d', [f_return (Errno.translate n)], (Errno.translate n). split; [|by split_and!].
  rewrite Hrun. simpl app. rewrite (run_step _ _ _ _ _ _ [i_add (Registry.handle_of s)
    (Interest.make trigger oneShot) true] (set_registry r' d) []); [|simpl|done].
  - simpl app. rewrite Hrun'. apply run_done.
  - unfold attached, entry. simpl. rewrite He. simpl. rewrite Hei. injection Hec as -> _ _ _. done.
Qed.

(** The entry of a registration, and what changes with its interest. *)
Lemma run_shown m d r h g id e op att o fuel rest tr :
  synchronized m d -> agrees trigger oneShot (<[h := g]> m) r -> registered h id r ->
  Registry.entries r !! id = Some e -> entry_agrees h g e ->
  (att = false -> is_Some (m !! h)) ->
  exists d' n,
    run d_config (S (S fuel)) o (i_shown id op att true :: rest) (set_registry r d) tr =
      run d_config fuel o rest d' (tr ++ [f_return (Errno.translate n)]) /\
    (Errno.translate n = Error.e_OK -> synchronized (<[h := changed op g]> m) d').
Proof.
  intros Hd Ha Hr He Hea Hatt.
  destruct (agrees_changed trigger oneShot (<[h := g]> m) r h g id e op Ha (lookup_insert_eq _ _ _)
    Hr He Hea) as [Ha' [Hi' Hs' Hh' Hc']]. rewrite insert_insert_eq in Ha'.
  set (r' := Registry.update id (fun _ => perform op e) r) in *.
  assert (execute d_config o (i_shown id op att true) (set_registry r d) =
    Some ([if att then i_add h (a_interest (changed op g)) true
           else i_update h (a_interest (changed op g)) true], set_registry r' d, [])) as Hx.
  { simpl. unfold shown, entry. simpl. rewrite He. simpl. rewrite Hi'.
    by injection Hc' as -> _ _ _. }
  rewrite (run_step _ _ _ _ _ _ _ _ _ Hx) by done. rewrite app_nil_r. simpl app. destruct att.
  - destruct (synchronized_add m d (changed op g) h _ r' Hd Ha' (eq_refl _)) as (d' & n & Hadd).
    exists d', n. apply Hadd.
  - destruct (synchronized_update m d (changed op g) h _ r' Hd (Hatt eq_refl) Ha' (eq_refl _))
      as (d' & n & Hup). exists d', n. apply Hup.
Qed.


Lemma set_registry_same d : set_registry (d_registry d) d = d.
Proof. by destruct d. Qed.

(** A call for a handle that is not registered. *)
Lemma outcome_invalid m d i o :
  execute d_config o i d = Some ([], d, [f_return Error.e_INVALID]) ->
  (needs_mutex i = true -> d_mutex d = false) ->
  answer d_config i m = Error.e_INVALID -> outcome m d i o.
Proof.
  intros Hx Hm Ha. exists d, [f_return Error.e_INVALID], Error.e_INVALID.
  split; [by rewrite (run_step _ _ _ _ _ _ _ _ _ Hx)|]. rewrite Ha. by split_and!.
Qed.

Lemma call_show m d s op o :
  synchronized m d -> permitted (i_show s op) m -> Registry.is_open s (d_registry d) ->
  outcome m d (i_show s op) o.
Proof.
  intros Hd [Hh Hs] Hopen. pose proof (sy_agrees m d Hd) as Ha. pose proof (sy_mutex m d Hd) as Hm.
  destruct (m !! Registry.handle_of s) as [g|] eqn:Hg.
  - destruct (ag_some _ _ _ _ Ha _ g Hg) as (id & e & Hr & He & Hea).
    pose proof (find_some m _ s g id Ha Hh Hg (Hs g eq_refl) Hr) as Hfind.
    assert (execute d_config o (i_show s op) d = Some ([i_shown id op false true], d, [])) as Hx
      by (simpl; unfold show; by rewrite Hfind).
    destruct (run_shown m d (d_registry d) (Registry.handle_of s) g id e op false o 5 [] [] Hd)
      as (d' & n & Hrun & Hsync); try done; [by rewrite insert_id|]. rewrite set_registry_same in Hrun.
    exists d', [f_return (Errno.translate n)], (Errno.translate n).
    split; [rewrite (run_step _ _ _ _ _ _ _ _ _ Hx) by done; rewrite app_nil_r; exact Hrun|].
    cbn [answer spec]. rewrite Hg, bool_decide_true by (by eexists). by split_and!.
  - pose proof (find_none m _ s Ha Hh Hg) as Hfind. destruct (autoAttach d_config) eqn:Eauto.
    2:{ apply outcome_invalid; [simpl; unfold show; by rewrite Hfind; simpl; rewrite Eauto|done|].
        cbn [answer]. by rewrite Hg, bool_decide_false, Eauto by (by intros [? ?]). }
    assert (execute d_config o (i_show s op) d = Some ([i_autoAttach s op], d, [])) as Hx
      by (simpl; unfold show; rewrite Hfind; simpl; by rewrite Eauto).
    destruct (run_attach m d s (i_autoAttach s op) (fun id => [i_shown id op true true]) 7 o [] []) as
      (id & e & r' & fuel & Hf & Hrun & He & (Hei & Hes & Hec) & Hr & Ha'); try done; [lia|].
    assert (entry_agrees (Registry.handle_of s) (attached_as trigger oneShot s) e) as Hea.
    { constructor; try done. intros socket. destruct s as [socket'|]; simpl; [|done]. by intros [= <-]. }
    destruct fuel as [|[|fuel]]; [lia..|].
    destruct (run_shown m d r' _ _ id e op true o fuel [] [] Hd Ha' Hr He Hea)
      as (d' & n & Hrun' & Hsync); [done|].
    exists d', [f_return (Errno.translate n)], (Errno.translate n).
    split; [rewrite (run_step _ _ _ _ _ _ _ _ _ Hx) by (intros _; exact Hm); simpl app;
      rewrite Hrun; simpl app; rewrite Hrun'; apply run_done|].
    cbn [answer spec]. rewrite Hg, Eauto, orb_true_r. by split_and!.
Qed.

Lemma call_hide m d s op o :
  synchronized m d -> permitted (i_hide s op) m -> Registry.is_open s (d_registry d) ->
  outcome m d (i_hide s op) o.
Proof.
  intros Hd [Hh Hs] Hopen. pose proof (sy_agrees m d Hd) as Ha. pose proof (sy_mutex m d Hd) as Hm.
  set (h := Registry.handle_of s) in *.
  destruct (m !! h) as [g|] eqn:Hg.
  2:{ pose proof (find_none m _ s Ha Hh Hg) as Hfind.
      apply outcome_invalid; [simpl; unfold hide; by rewrite Hfind|done|].
      cbn [answer]. fold h. by rewrite Hg, bool_decide_false by (by intros [? ?]). }
  destruct (ag_some _ _ _ _ Ha _ g Hg) as (id & e & Hr & He & Hea).
  pose proof (find_some m _ s g id Ha Hh Hg (Hs g eq_refl) Hr) as Hfind.
  assert (execute d_config o (i_hide s op) d = Some ([i_hidden id s op], d, [])) as Hx
    by (simpl; unfold hide; by rewrite Hfind).
  destruct (agrees_changed trigger oneShot m (d_registry d) h g id e op Ha Hg Hr He Hea)
    as [Ha' Hea'].
  destruct Hea' as [Hi' Hs' Hh' Hc'].
  set (r' := Registry.update id (fun _ => perform op e) (d_registry d)) in *.
  set (away := autoDetach d_config && negb (Interest.wantReadableOrWritable (change op (a_interest g)))).
  assert (execute d_config o (i_hidden id s op) d =
    Some (if away then [i_remove s; i_delete h true]
          else [i_update h (a_interest (changed op g)) true], set_registry r' d, [])) as Hx'.
  { simpl. unfold hidden, entry. rewrite He. simpl. rewrite Hi'. injection Hc' as -> _ _ _.
    unfold away. cbn [changed a_interest]. destruct (autoDetach d_config); [|done].
    cbn [negb andb]. by destruct (Interest.wantReadableOrWritable (change op (a_interest g))). }
  assert (exists d' n,
    run d_config 6 o (if away then [i_remove s; i_delete h true]
      else [i_update h (a_interest (changed op g)) true]) (set_registry r' d) [] =
      Some (d', [f_return (Errno.translate n)]) /\
    (Errno.translate n = Error.e_OK ->
     synchronized (if away then base.delete h m else <[h := changed op g]> m) d'))
    as (d' & n & Hrun & Hsync).
  { assert (Registry.is_open s r') as Hopen' by (by destruct s).
    destruct away.
    - destruct (agrees_removed trigger oneShot (<[h := changed op g]> m) r' s (changed op g) Ha' Hopen' Hh
        (lookup_insert_eq _ _ _)) as (id' & e' & r0 & Hr' & He' & Hea' & Hrm & Hes & Hclear).
      specialize (Hclear e' eq_refl). fold h in Hclear. rewrite delete_insert_eq in Hclear.
      rewrite update_same in Hclear by (by rewrite Hes).
      destruct Hea' as [_ _ _ Hc0]. injection Hc0 as _ Hc0 _ _. specialize (Hclear Hc0 eq_refl).
      destruct (synchronized_delete m d h _ Hd (ex_intro _ g Hg) Hclear) as (d' & n & Hdel).
      exists d', n. split; [|apply (Hdel o 3%nat [] [])].
      rewrite (run_step _ _ _ _ _ _ [i_clearEntry id'] (set_registry r0 d) []); [|simpl|done].
      + simpl app. rewrite (run_step _ _ _ _ _ _ [] (set_registry (Registry.clear_entry id' r0) d) []);
          [|done..]. apply (Hdel o 3%nat [] []).
      + unfold remove. simpl. by rewrite Hrm.
    - destruct (synchronized_update m d (changed op g) h _ r' Hd (ex_intro _ g Hg) Ha' (eq_refl _))
        as (d' & n & Hup). exists d', n. apply (Hup o 5%nat [] []). }
  exists d', [f_return (Errno.translate n)], (Errno.translate n).
  split.
  - rewrite (run_step _ _ _ _ _ _ _ _ _ Hx) by done. simpl app.
    rewrite (run_step _ _ _ _ _ _ _ _ _ Hx') by done. by rewrite app_nil_r.
  - cbn [answer spec]. fold h. rewrite Hg, bool_decide_true by (by eexists). by split_and!.
Qed.

(** The entry leaves the catalog and the kernel, its request is answered at
    once, since no thread processes its events, and the mutex is released. *)
Lemma run_detach d s callback o id e r0 :
  d_mutex d = false -> is_Some (d_controller d) -> Registry.remove s (d_registry d) = Some (Some id, r0) ->
  Registry.entries r0 !! id = Some e ->
  cell_of e = mkCell (Registry.handle_of s) 0 false None -> quiet o ->
  let e1 := RegistryEntry.set_detach true callback e in
  let d1 := set_mutex true (set_entry id e1 (set_registry r0 d)) in
  let d2 := (control EPOLL_CTL_DEL (Registry.handle_of s) 0 d1).1 in
  let error := ignore_absent (control EPOLL_CTL_DEL (Registry.handle_of s) 0 d1).2 in
  let r4 := Registry.clear_entry id (Registry.update id
    (fun _ => RegistryEntry.set_detach false None e1) (d_registry d2)) in
  run d_config 8 o [i_detach s callback] d [] =
    Some (set_mutex false (set_registry r4 d2),
          [f_require id callback] ++
          match callback with Some c => [f_detached id c] | None => [] end ++ [f_return error]).
Proof.
  intros Hm [c Hc] Hrm He Hcell Ho e1 d1 d2 error r4. injection Hcell as Hhandle Hcount Hreq Hcb.
  destruct (control_spec EPOLL_CTL_DEL (Registry.handle_of s) 0 d1) as (Hd2 & _). fold d2 in Hd2.
  assert (entry id d1 = Some e1) as He1.
  { unfold entry, d1. simpl. rewrite alter_const. apply list_lookup_insert_eq. by eapply lookup_lt_Some. }
  assert (entry id d2 = Some e1) as He2 by (by rewrite Hd2).
  set (e2 := RegistryEntry.set_detach false None e1). set (d3 := set_entry id e2 d2).
  rewrite (run_step _ _ _ _ _ _ [i_removeDetached id] d1 [f_require id callback]);
    [|cbn [execute]|done].
  2:{ unfold detachSocket. rewrite Hrm. simpl. rewrite He. simpl.
      unfold RegistryEntry.setDetachmentRequired. by rewrite Hreq, Hcb. }
  simpl app. rewrite (run_step _ _ _ _ _ _ [i_checkProcessing id error] d2 []);
    [|cbn [execute]|done].
  2:{ unfold removeDetached. rewrite He1. simpl. rewrite Hhandle. unfold d2, error.
      by destruct (control EPOLL_CTL_DEL (Registry.handle_of s) 0 d1). }
  simpl app. rewrite (run_step _ _ _ _ _ _ [i_announceDetached id true; i_unlock error] d2 []);
    [|cbn [execute]|done].
  2:{ unfold checkProcessing. rewrite He2. simpl. unfold RegistryEntry.isProcessing. simpl.
      by rewrite Hcount. }
  simpl app. rewrite (run_step _ _ _ _ _ _
    [i_dispatchDetached id callback; i_clearEntry id; i_interruptOne] d3 []); [|cbn [execute]|done].
  2:{ unfold announceDetached. by rewrite He2. }
  simpl app. rewrite (run_step _ _ _ _ _ _ [] d3
    (match callback with Some c => [f_detached id c] | None => [] end)); [|done..].
  simpl app. rewrite (run_step _ _ _ _ _ _ [] (set_registry r4 d2) []); [|done..].
  simpl app. rewrite (run_step _ _ _ _ _ _ [] (set_registry r4 d2) []); [|simpl|done].
  2:{ unfold interruptOne. destruct (o_isWaiter o) eqn:Ew; [done|].
      assert (d_controller (set_registry r4 d2) = Some c) as -> by (simpl; by rewrite Hd2).
      destruct Ho as [?| Ho]; [congruence|]. simpl. by rewrite Ho. }
  simpl app. rewrite (run_step _ _ _ _ _ _ [] (set_mutex false (set_registry r4 d2))
    [f_return error]); [|done..].
  simpl app. rewrite run_done. by destruct callback.
Qed.

Lemma call_detach m d s callback o :
  synchronized m d -> permitted (i_detach s callback) m -> Registry.is_open s (d_registry d) ->
  quiet o -> outcome m d (i_detach s callback) o.
Proof.
  intros Hd Hh Hopen Ho. cbn [permitted] in Hh. pose proof (sy_agrees m d Hd) as Ha.
  pose proof (sy_mutex m d Hd) as Hm. set (h := Registry.handle_of s) in *.
  destruct (m !! h) as [g|] eqn:Hg.
  2:{ destruct (Safety.remove_total s (d_registry d) (ag_catalog _ _ _ _ Ha) Hopen Hh)
        as (found & r0 & Hrm & Hes & Hctx & _ & Hf).
      pose proof (proj1 (vacant_registered _ _) (ag_none _ _ _ _ Ha h Hh Hg)) as Hvac.
      destruct found as [id|]; [by destruct (Hvac id), Hf|]. subst r0.
      apply outcome_invalid; [|done|].
      - simpl. unfold detachSocket. rewrite Hrm. simpl. by rewrite set_registry_same.
      - cbn [answer]. fold h. by rewrite Hg, bool_decide_false by (by intros [? ?]). }
  destruct (agrees_removed trigger oneShot m (d_registry d) s g Ha Hopen Hh Hg)
    as (id & e & r0 & Hr & He & Hea & Hrm & Hes & Hclear). fold h in Hea, Hclear.
  pose proof (run_detach d s callback o id e r0 Hm (sy_controller m d Hd) Hrm ltac:(by rewrite Hes) (ea_cell _ _ _ Hea) Ho)
    as Hrun. cbn zeta in Hrun. fold h in Hrun.
  set (d1 := set_mutex true _) in Hrun.
  destruct (control_spec EPOLL_CTL_DEL h 0 d1) as (Hd2 & Hw & Hp).
  assert ((control EPOLL_CTL_DEL h 0 d1).2 <> Errno.ENOENT) as Hne.
  { apply Hp; [|done]. unfold d1. simpl. rewrite (sy_kernel m d Hd). by eapply polled_some. }
  unfold ignore_absent in Hrun. rewrite bool_decide_false in Hrun by done.
  eexists _, _, _. split; [exact Hrun|]. split; [by destruct callback|]. split.
  - intros _ Hn. constructor; [done| | |].
    + rewrite Hd2. apply (sy_controller m d Hd).
    + rewrite Hd2. unfold d1. cbn [set_entry set_registry d_registry set_epoll set_mutex].
      rewrite update_update. apply Hclear; [done| |done].
      by injection (ea_cell _ _ _ Hea) as _ Hcount _ _.
    + cbn [set_mutex set_registry d_epoll]. rewrite (Hw Hn). unfold d1. simpl.
      rewrite (sy_kernel m d Hd). unfold polled. by rewrite fmap_delete.
  - cbn [answer]. fold h. by rewrite Hg, bool_decide_true by (by eexists).
Qed.

Lemma call_outcome m d i o :
  synchronized m d -> permitted i m -> opened i (d_registry d) -> quiet o -> outcome m d i o.
Proof.
  intros Hd Hp Hopen Ho. destruct i; try done.
  - by apply call_attach.
  - by apply call_show.
  - by apply call_hide.
  - by apply call_detach.
Qed.

Lemma spec_invalid m i :
  answer d_config i m <> Error.e_OK -> spec d_config trigger oneShot i m = m.
Proof.
  destruct i; cbn [answer spec]; try done;
    match goal with |- context [m !! ?h] => destruct (m !! h) as [g|] eqn:Hg end;
    rewrite ?(bool_decide_true (is_Some _)) by (by eexists); try done.
  - rewrite bool_decide_false by (by intros [? ?]). by destruct (autoAttach d_config).
  - intros _. by apply delete_id.
Qed.

(** Before the controller is added, nothing is registered. *)
Lemma synchronized_start k c :
  watched k = ∅ ->
  synchronized ∅ (set_controller (Some c) k_INVALID_HANDLE (Epoll.init trigger oneShot k)).
Proof.
  intros Hk. constructor; [done|by eexists| |simpl; by rewrite Hk; unfold polled; rewrite fmap_empty].
  constructor; try done.
  - constructor; simpl; try done. intros p id Hp.
    by destruct (proj1 (lookup_replicate 64 (@None nat) (Some id) p) Hp) as [? _].
  - by intros h [? ?].
  - intros h _ _. unfold vacant.
    destruct (Registry.d_vector (d_registry (Epoll.init trigger oneShot k)) !! Registry.index h)
      as [x|] eqn:E; simpl in *; rewrite E; [|done].
    by apply (lookup_replicate 64 (@None nat) x _) in E as [-> _].
  - intros socket _ id. simpl. split; [done|]. by intros (g & ? & _).
Qed.

(** The interest of the controller changes, and its handle is recorded. *)
Lemma synchronized_handle m d c h : synchronized m d -> synchronized m (set_controller (Some c) h d).
Proof. intros [Hm Hco Ha Hk]. by constructor. Qed.

Lemma construct_synchronized k o d :
  watched k = ∅ -> valid_handle (socket_handle (o_controller o)) ->
  construct d_config trigger oneShot k o = Some d ->
  is_Some (watched (d_epoll d) !! socket_handle (o_controller o)) ->
  synchronized (controlled (o_controller o)) d.
Proof.
  intros Hk Hh Hc Hw. set (c := o_controller o) in *. set (h := socket_handle c) in *.
  pose proof (synchronized_start k c Hk) as Hs.
  set (d1 := set_controller (Some c) k_INVALID_HANDLE (Epoll.init trigger oneShot k)) in *.
  assert (fst <$> run d_config 6 o [i_addController] d1 [] = Some d) as Hrun by exact Hc.
  destruct (run_attach ∅ d1 (inl c) i_addController (fun id => [i_controllerAdded id]) 6 o [] [])
    as (id & e & r' & fuel & Hf & Hrun' & He & (Hei & Hes & Hec) & Hr & Ha); try done;
    try lia.
  rewrite Hrun' in Hrun. simpl in Hrun. clear Hrun'. fold h in Hr, Ha, Hec.
  assert (entry_agrees h (attached_as trigger oneShot (inl c)) e) as Hea.
  { constructor; try done. by intros socket [= <-]. }
  destruct (agrees_changed trigger oneShot _ r' h _ id e (op_showReadable ReactorEventOptions.init) Ha
    (lookup_insert_eq _ _ _) Hr He Hea) as [Ha' [Hi' Hs' Hh' Hc']]. rewrite insert_insert_eq in Ha'.
  injection Hec as Hhandle _ _ _.
  assert (RegistryEntry.d_handle (perform (op_showReadable ReactorEventOptions.init) e) = h) as Hhandle'
    by (by injection Hc').
  set (e' := perform (op_showReadable ReactorEventOptions.init) e) in *.
  set (d2 := set_controller (Some c) h d1).
  destruct fuel as [|[|[|fuel]]]; [lia..|].
  assert (execute d_config o (i_controllerAdded id) (set_registry r' d1) =
    Some ([i_attached id false], set_registry (Registry.update id (fun _ => e') r') d2, [])) as Hx1.
  { simpl. unfold controllerAdded, entry. simpl. rewrite He. simpl. unfold d2. by rewrite Hhandle. }
  assert (entry id (set_registry (Registry.update id (fun _ => e') r') d2) = Some e') as He'.
  { unfold entry. simpl. rewrite alter_const. apply list_lookup_insert_eq. by eapply lookup_lt_Some. }
  assert (execute d_config o (i_attached id false) (set_registry (Registry.update id (fun _ => e') r') d2) =
    Some ([i_add h (a_interest (changed (op_showReadable ReactorEventOptions.init)
      (attached_as trigger oneShot (inl c)))) false],
      set_registry (Registry.update id (fun _ => e') r') d2, [])) as Hx2.
  { cbn [execute]. unfold attached. rewrite He'. cbn [mbind option_bind]. rewrite Hi'.
    by rewrite Hhandle'. }
  rewrite (run_step _ _ _ _ _ _ _ _ _ Hx1) in Hrun by done. cbn [app] in Hrun.
  rewrite (run_step _ _ _ _ _ _ _ _ _ Hx2) in Hrun by done. cbn [app] in Hrun.
  set (d3 := set_registry _ d2) in *. set (ev := events_of (a_interest (changed
    (op_showReadable ReactorEventOptions.init) (attached_as trigger oneShot (inl c))))).
  assert (d = (control EPOLL_CTL_ADD h ev d3).1) as ->.
  { rewrite (run_step _ _ _ _ _ [] [] (control EPOLL_CTL_ADD h ev d3).1
      (returns false (Errno.translate (control EPOLL_CTL_ADD h ev d3).2))) in Hrun.
    - cbn [app] in Hrun. rewrite run_done in Hrun. by injection Hrun as <-.
    - cbn [execute]. unfold add. fold ev. by destruct (control EPOLL_CTL_ADD h ev d3).
    - done. }
  destruct (control_spec EPOLL_CTL_ADD h ev d3) as (Hd & Hwd & _).
  constructor; [by rewrite Hd|rewrite Hd; by eexists|by rewrite Hd|].
  rewrite Hwd.
  - simpl. rewrite Hk. unfold polled, controlled. by rewrite map_fmap_singleton.
  - assert ((control EPOLL_CTL_ADD h ev d3).2 = Errno.E_ZERO) as ->; [|done].
    destruct (decide ((control EPOLL_CTL_ADD h ev d3).2 = Errno.E_ZERO)) as [Hz|Hz]; [done|].
    exfalso. unfold control in *. destruct (epoll_ctl EPOLL_CTL_ADD h ev (d_epoll d3)) as [k' n] eqn:E.
    simpl in *. rewrite (ctl_fails _ _ _ _ _ _ E Hz), Hk, lookup_empty in Hw. by destruct Hw.
Qed.

Lemma history_synchronized k m d : watched k = ∅ -> history k m d -> synchronized m d.
Proof.
  intros Hk. induction 1 as [o d Hh Hc Hw|m d i o d' effects _ IH Hp Hopen Ho Hrun Hret
    |m d failed socket k' _ IH Hs Hm Hw].
  - by apply (construct_synchronized k).
  - destruct (call_outcome m d i o IH Hp Hopen Ho) as (d1 & effects1 & error & Hrun1 & Hret1 & Hok & Hbad).
    rewrite Hrun in Hrun1. injection Hrun1 as <- <-. rewrite Hret in Hret1. injection Hret1 as <-.
    destruct (decide (answer d_config i m = Error.e_OK)) as [He|He]; [by apply Hok|].
    destruct (Hbad He) as [_ ->]. by rewrite spec_invalid.
  - destruct IH as [Hmx Hco Ha Hke]. constructor; try done; [by apply agrees_closed|]. simpl.
    by rewrite Hw.
Qed.

(** C35: For one caller the driver implements a map from handles to what is
    registered for them, which begins with the controller that the constructor
    registers: after any calls for open sockets that the kernel took, among which
    sockets may be closed for which nothing is registered, the catalog has an
    entry for exactly the handles of the map, with their interests, and the kernel
    polls exactly the events of these interests. If the controller can be
    interrupted, the next call ends with one answer, which is an error by itself
    only for a handle that is not registered, and then changes nothing. A handle is
    attached when nothing is registered for it, and a socket that is shown or
    hidden is the one that is registered for its handle. *)
Theorem driver_refines_registrations k m d :
  watched k = ∅ -> history k m d ->
  watched (d_epoll d) = polled m /\
  (forall h, valid_handle h ->
     match m !! h with
     | Some g => exists id e, registered h id (d_registry d) /\ entry id d = Some e /\
         RegistryEntry.d_interest e = a_interest g
     | None => vacant h (d_registry d)
     end) /\
  (forall i o, permitted i m -> opened i (d_registry d) -> quiet o ->
     exists d' effects error,
       run d_config 8 o [i] d [] = Some (d', effects) /\ returned effects = [error] /\
       (answer d_config i m <> Error.e_OK -> error = answer d_config i m /\ d' = d)).
Proof.
  intros Hk Hd%history_synchronized; [|done]. split; [apply Hd|].
  pose proof (sy_agrees m d Hd) as Ha. split.
  - intros h Hh. destruct (m !! h) as [g|] eqn:Hg; [|by apply (ag_none _ _ _ _ Ha)].
    destruct (ag_some _ _ _ _ Ha h g Hg) as (id & e & Hr & He & Hea). exists id, e.
    split_and!; [done..|apply Hea].
  - intros i o Hp Hopen Ho. destruct (call_outcome m d i o Hd Hp Hopen Ho) as (d' & l & e & ? & ? & _ & ?).
    by exists d', l, e.
Qed.

End Refinement.

(** ** A run *)

Section Run.
Import Concrete.

Definition handle : Registry.descriptor := inr 5.
Definition socket : Registry.descriptor := inl 9.

(** The map and the driver after some calls. *)
Definition after (l : list instruction) : gmap Z registration * Epoll.t :=
  foldl (fun p i =>
    (spec plain ReactorEventTrigger.e_LEVEL true i p.1,
     match run plain 8 o [i] p.2 [] with Some q => q.1 | None => p.2 end))
    (controlled ReactorEventTrigger.e_LEVEL true 0, made ReactorEventTrigger.e_LEVEL true) l.

Definition calls : list instruction :=
  [i_attach handle; i_attach socket; i_show handle (op_showReadable ReactorEventOptions.init);
   i_show socket (op_showWritable (ReactorEventOptions.mk (Some ReactorEventTrigger.e_EDGE) None));
   i_detach handle (Some 7%nat); i_hide handle op_hideWritable].

Lemma after_snoc l i :
  after (l ++ [i]) =
    (spec plain ReactorEventTrigger.e_LEVEL true i (after l).1,
     match run plain 8 o [i] (after l).2 [] with Some q => q.1 | None => (after l).2 end).
Proof. unfold after. by rewrite foldl_app. Qed.

Lemma history_snoc l i :
  history plain ReactorEventTrigger.e_LEVEL true ∅ (after l).1 (after l).2 ->
  permitted i (after l).1 -> opened i (d_registry (after l).2) ->
  (q ← run plain 8 o [i] (after l).2 []; Some (returned q.2)) = Some [answer plain i (after l).1] ->
  history plain ReactorEventTrigger.e_LEVEL true ∅ (after (l ++ [i])).1 (after (l ++ [i])).2.
Proof.
  intros Hh Hp Hopen Hr. rewrite after_snoc.
  apply bind_Some in Hr as ([d' effects] & Hrun & [= Hret]).
  rewrite Hrun. simpl. eapply history_call; try done. by left.
Qed.

Lemma calls_history n :
  history plain ReactorEventTrigger.e_LEVEL true ∅ (after (take n calls)).1 (after (take n calls)).2.
Proof.
  induction n as [|n IH].
  { apply (history_start plain ReactorEventTrigger.e_LEVEL true ∅ o); [by vm_compute..|].
    exists (Z.lor EPOLLIN EPOLLONESHOT). by vm_compute. }
  destruct (calls !! n) as [i|] eqn:Hi.
  2:{ rewrite take_ge by (apply lookup_ge_None in Hi; lia).
      by rewrite take_ge in IH by (by apply lookup_ge_None). }
  rewrite (take_S_r _ _ i Hi). apply history_snoc; [done| | |];
    destruct n as [|[|[|[|[|[|n]]]]]]; try (injection Hi as <-); try done; try by vm_compute.
  all: try (split; [done|]); first [done | by intros g Hg; vm_compute in Hg; injection Hg as <-].
Qed.

Lemma driver_refines_registrations_witness :
  watched (d_epoll (after calls).2) = polled (after calls).1 /\
  polled (after calls).1 =
    <[0 := Z.lor EPOLLIN EPOLLONESHOT]> {[9 := Z.lor EPOLLOUT (Z.lor EPOLLET EPOLLONESHOT)]}.
Proof.
  split; [|by vm_compute].
  by apply (driver_refines_registrations plain ReactorEventTrigger.e_LEVEL true ∅ (after calls).1
    (after calls).2); [|apply (calls_history 6)].
Defined.

End Run.
End Refinement.
